(* ===== verification/_CoqProject ===== *)
-Q . S2P
Prelude.v
BTree.v
Value.v
TableRef.v
Schema.v
Predicate.v
Like.v
PredicateFacts.v
Gate.v
Output.v
Executors.v
Aggregates.v
Refine.v
ChangeLog.v
Sequencer.v
SequencerFacts.v
Activation.v
Planning.v
Counts.v
CountsFacts.v
RuntimeAuthority.v
Txn.v
ExecInv.v
TxnFacts.v
Pages.v
PagesFacts.v
Retention.v
TxnBuffer.v
TxnBufferFacts.v
Pgoutput.v
Ingest.v
IngestFacts.v
Replicator.v
EndToEnd.v
PkDict.v
SubqIndex.v
SubqCircuit.v
Emission.v
Subquery.v
SubqueryFacts.v
SubqEmit.v
SubqLive.v
SubqFence.v
SubqCreate.v
SubqCompile.v
SubqAtomic.v
SubqDeps.v
SubqDrop.v
SubqFinish.v
SubqInstall.v
SubqWalk.v
SubqWalkFacts.v
SubqConverge.v
SubqSteady.v
PredicateTypes.v
WhereSql.v
WhereFacts.v
Params.v
WhereRound.v
ParamsFacts.v
SqlText.v
SqlFacts.v
SqlMeaning.v
MembershipModel.v
Catalog.v
CatalogWriter.v
CatalogFacts.v
Lifecycle.v
LifecycleInv.v
Restore.v
ClaimsFacts.v
ShareFacts.v
CreateGuard.v
Wakeup.v
Worked.v
WorkedIngest.v
WorkedSubq.v
WorkedWalk.v
WorkedWhere.v
WorkedCatalog.v
