(* ===== verification/Prelude.v ===== *)
(** * Electric Circuits: verification library (root file)

    Electric Circuits keeps the results of SQL queries live: an engine written in Rust
    ([src/apps/engine/src]) reads Postgres's logical replication stream, routes every row change
    to the shapes (queries) it touches, and appends to each shape's durable stream what carries a
    subscriber from the old result to the new one.  This library models that engine and proves
    what makes it correct.  File names below are relative to [src/apps/engine/src].

    ** The program and where it is modelled

    A change travels
<<
      Postgres --wire--> ingestor --change log--> sequencer --shape streams--> subscribers
>>
    - _Ingestor._  [pgoutput.rs] decodes a replication message ([Pgoutput]: [decode]);
      [replication.rs] turns row changes into envelopes ([Ingest]: [on_relation], [on_change],
      [build_envelope]) and runs the connection ([Replicator]: [stream], one [turn] per event;
      [next_backoff]); [txn_buffer.rs] holds a transaction between [Begin] and [Commit], spilling
      a large one, and drains it in chunks ([TxnBuffer]: [push], [drain], [next_chunk]).
    - _Change log._  [changelog.rs]: rotation of the current segment, finding the next segment,
      deletion planning ([ChangeLog]).
    - _Sequencer._  [engine/sequencer.rs]: reading pages, holding an unterminated transaction,
      checkpoints ([Pages]); one transaction: de-duplication, fences, fan-out, counts, one flush
      ([Txn]: [run_txn]); the executor of a table and the commands that change it ([Sequencer]:
      [process_envelope], [begin_shape], [activate_shape], [deactivate_shape], [remove_shape],
      [abort_shape]); the snapshot of a new shape and its activation ([Activation]).
    - _Executors._  [engine/executors.rs]: standalone shapes behind a conjunct index and key
      routers ([Executors]), aggregates ([Aggregates]); [engine/output.rs]: envelopes to deltas and
      back ([Output]).
    - _Circuit tier._  [engine/planning.rs] places an aggregate ([Planning]); [arrangements.rs]
      and [engine/circuit_serving.rs] serve counts from per-group counts ([Counts]).
    - _Subqueries._  A shape whose predicate has an [IN (SELECT ...)] is kept by the registry of
      [subquery.rs]: [SubqIndex] is its conjunct index ([subq_index.rs]), [PkDict] its key
      dictionary, [SubqCircuit] the membership circuit and the feeds ([subq_circuit.rs],
      [subq_feed.rs]); [Subquery] has the registry's state and live operations
      ([on_table_delta], [emit_for_shapes], [begin_queryback]), [SubqCreate] creation and removal
      ([begin_create], [finish_create], [abort_create], [drop_subquery_shape]), [SubqWalk] the walk
      of flips beside the sequencer ([propagate_flips], [move_shape_for_value],
      [requery_and_reconcile_parent], the retries), in which every acquisition of the lock is
      preceded by what the other tasks did; [Emission] is the append lanes its emissions go through ([engine/emission.rs]).
    - _The query language._  [predicate.rs]: compilation, three-valued evaluation, canonical
      signatures, templates ([Predicate], [Like]); [schema.rs] ([Schema]); [value.rs] ([Value]);
      [table_ref.rs] ([TableRef]).  The text of a clause: [params.rs] ([Params]: [parse_params],
      [substitute]), [where_sql.rs] ([WhereSql]: [tokenize], [parse_predicate],
      [parse_where_typed]); the SQL that goes to Postgres: [sql.rs] and the statements of [pg.rs]
      ([SqlText]: [build], [build_json], [subset_select]).
    - _Fencing and retention._  [pg.rs] (its snapshot gate: [Gate]); [runtime_authority.rs]
      ([RuntimeAuthority]); [retention.rs] ([Retention]: [plan_sweep]).
    - _Lifecycle and catalog._  [Lifecycle]: shapes, shares, subscriptions and generations
      ([engine/mod.rs]: [EngineState]), and one function per critical section that changes them
      ([engine/lifecycle.rs], [engine/drift.rs], [engine/epoch.rs], [engine/retirement.rs]), with the
      catalog events it enqueues ([estep], [erun]).  [Catalog] is the durable catalog's events and
      their fold ([engine/catalog.rs]: [apply], [fold_catalog]), [CatalogWriter] the task that appends
      them, as a transition system with the tasks that enqueue, the network and storage;
      [Restore] a boot ([apply_catalog]: [restart]), from which [reachable] is every engine that can
      be.  [Wakeup] has the decisions around the critical sections: admission and outcomes of a wake,
      the retention sweep and the change log's sweep, lost streams, consumer pins, the epoch's verdict.
    - [Prelude] (this file) has the text, integer, list and result-monad definitions and lemmas
      everything shares; [BTree] is [std::collections::BTreeMap].

    State is explicit: a Rust struct is a Record, a handler a function from the old state to the
    new one (with its errors as [res] or [option]), [HashMap] is [gmap], [BTreeMap] is [BTree],
    [serde_json::Map] is a key-ordered association list.  Integers are [Z] with their widths
    written where they matter: the folds of aggregates and the weights of counts wrap or saturate
    as in the source; text is the list of its Unicode scalars.

    ** What the theorems show

    - _Views._  [Refine] is the abstract specification: a shape is the view of its table under its
      predicate, an envelope a transition of the table.  [SequencerFacts.row_shape_refines],
      [absolute_refines], [aggregate_refines]: what [process_envelope] emits carries every
      subscriber from the view of the old table to the view of the new one, through hash maps,
      index and routers; [Executors.candidates_spec] says the index is exact.
      [CountsFacts.served_count_refines], [create_circuit_agg_exact] and
      [Planning.plan_circuit_agg_sound] say the same of counts served by the circuit tier.
    - _Creation._  [Activation.plain_activation_converges], [aggregate_activation_converges]:
      snapshot plus gated buffer is the view of the current table; [Gate.should_skip_pg_visible]:
      the gate is Postgres's own visibility rule.
    - _Transactions._  [TxnFacts]: a transaction is emitted whole in one flush, a redelivered one
      changes nothing, a failed one moves nothing.  [PagesFacts.pages_run_transactions],
      [checkpoints_lose_nothing]: page boundaries and restarts neither split nor lose one.
    - _Ingestion._  [IngestFacts.wire_change_envelope]: the bytes of a row change become the
      envelope that describes it; [TxnBufferFacts]: a buffered transaction is drained as it was
      pushed, within the memory cap and the body budget, and draining ends;
      [Replicator.acknowledged_is_appended]: nothing is acknowledged before it is on the log;
      [EndToEnd.wire_to_sequencer] composes all of it: the sequencer runs a prefix of the
      transactions the server sent, whole, stamped and in commit order.
    - _Invariants._  [ExecInv.executor_invariant]: the executor's invariant holds in every state
      the sequencer's steps reach; [RuntimeAuthority.receipt_cache_sound];
      [ChangeLog.rotation_crash_safe]: after any prefix of a rotation.
    - _Subqueries._  [SubqLive]: a table change keeps the registry's parts in agreement
      ([table_change_keeps_registry]), every inner set follows its rows ([node_set_follows]),
      every subquery shape is put right at the touched keys ([live_change_exact]) and the flips
      returned reach every other row the change can have moved ([flips_cover]).
      [SubqFence.query_back_is_current]: a query-back over an old snapshot, whatever ran meanwhile,
      decides as one over the present would.  [SubqIndex.shape_candidates_spec], [PkDict],
      [Emission]: the index is exact under churn, numbers are stable under concurrency, each stream
      gets its emissions in order and the lanes drain.  [SubqueryFacts] and [SubqEmit] are the
      lemmas below these: the sets, the emission tail.
    - _The walk of flips._  [SubqSteady.change_and_walk_steady]: a change and the walk of its flips
      carry a registry at rest to a registry at rest, every subscriber with its view of the new
      table; [SubqConverge.walk_converges] is the walk's part, over nested nodes and failed attempts
      (with no other task between its locks: [SubqFence] has the interleavings of one query-back).
      [SubqWalkFacts], whatever the other tasks do: the walk ends on a graph without a cycle
      ([walk_terminates], by a multiset of heights), leaves no query-back counted
      ([walk_settles_counters]) and no flip behind ([walk_loses_nothing]).
    - _Creation and removal of subqueries._  [SubqCompile] has what holds along any compilation;
      [SubqAtomic.begin_create_atomic]: a refused create leaves no trace;
      [SubqDeps.create_counts_references]: references are counted exactly;
      [SubqDrop.drop_removes_exactly]: a drop removes what nothing depends on any more, and only
      that.  [SubqFinish.seeded_node_set] and [SubqInstall.finished_shape_shown]: what a node's set
      and a subscriber's view come to at the end of a create, exact once every commit the reads saw
      has arrived ([WorkedSubq.replay_outruns_backfill] is a create where one had not);
      [SubqInstall.finish_create_hands_over]: no deferred work is lost.
    - _Policies._  [Retention]: every eviction is justified, the caps hold afterwards or the flag
      says so, the order is least recently read; [ChangeLog.plan_segment_deletion_safe].
    - _Types._  [PredicateTypes.compile_typed]: what compiles names columns that exist and never
      compares across types.
    - _Codecs and language._  [Pgoutput.decode_put_message] and [decode_truncated]; rows through
      JSON, keys, table references, LSNs; Kleene evaluation, templates, access leaves, [Like].
    - _Clauses and SQL._  [WhereFacts.parse_where_decides_grammar]: the parser accepts the sentences of
      a grammar and no others, each in one reading, and always answers;
      [WhereRound.printed_clause_parses]: what is written for a predicate is read back;
      [ParamsFacts.substitution_is_data]: a bound value never acts as syntax;
      [SqlFacts.bound_text_stays_out_of_sql] and [SqlMeaning.emitted_filter_agrees]: text reaches
      Postgres through numbered placeholders only, and the fragment filters as the engine's own
      three-valued evaluation does.
    - _Lifecycle and catalog._  [CatalogFacts.catalog_survives_retries]: lost answers, repeats and
      late requests do not change what a boot folds; [barrier_is_durable] and [barrier_overtaken]: when
      [wait_durable] is the barrier it means to be.  [Restore.durable_record]: on every schedule and
      through every crash the catalog describes the engine's shapes and the retirements it owes
      ([LifecycleInv] has the invariant); [ids_never_reused], [retirement_spares_the_living].
      [ClaimsFacts]: the catalog's claims are the engine's or on their way out ([no_ghost_claims], on
      every schedule), and none is lost ([no_lost_claims], on the orderly ones);
      [ShareFacts.one_shape_each]: the two indexes.
      [CreateGuard.acknowledged_create_saw_no_drift]: the closing check of a create rules out every
      drift and reset it overlapped.  [Wakeup.wake_settles], [sweep_keeps_what_is_needed],
      [span_is_distance], [boot_restores_iff].  [WorkedCatalog] has the schedules on which the engine
      and its log part.
    - [Worked], [WorkedIngest], [WorkedSubq], [WorkedWalk], [WorkedWhere] and [WorkedCatalog] instantiate the theorems' hypotheses on one concrete engine.

    ** Interfaces

    Code outside the repository is a class, with the laws the code relies on, and every theorem
    that uses one has a witness at a concrete instance: [FloatText] (the text of doubles, with its
    round trip), [SerdeJson] and [EnvelopeJson] (serde_json), [StampJson] (how a derived
    [Serialize] grows when optional fields are filled), [UuidText], [DurableStore] with
    [DurableLaws] (the durable-streams protocol), [CountPipelines] with [CountLaws] (dbsp's
    weighted count), [MemoryCost] (allocator capacities), [SpillEnv] (process id, directory),
    [FaultEnv] (the test-only fault switch), [MembershipPipeline] with [MembershipLaws] (dbsp's
    upsert map and distinct; [MembershipModel] is an executable pipeline that keeps them), [CharClass]
    and [JsonParse] (Unicode tables, a JSON reader).  [SubqRegistry] is the subquery registry as the
    sequencer sees it, [SubqueryCollector] and [SubqueryEval] the source's traits.

    ** Bounds and fuel

    Recursion that is not structural carries fuel, and a theorem says it is enough: [like_fuel]
    ([Like], backtracking is at most quadratic), [expire_loop] (the size of the cache),
    [resolve_loop] and [append_loop] of [ChangeLog] (the source's own hop bound),
    [drain_fuel] ([TxnBufferFacts.drain_terminates]: one more than what the source of the drain
    holds), [sub_depth] ([SubqCreate]: the nesting of subqueries), [decref_nodes] (every node is removed
    once), [propagate_flips] ([SubqWalkFacts.walk_terminates]), the lexer, the parser
    and the substitution ([WhereFacts.parse_where_total], [ParamsFacts.substitute_total]: the length of
    the text, the nesting of the tokens), the digits of numbers ([Prelude], [Gate]: their length).

    ** Not modelled

    The Postgres client, the HTTP server and its Electric protocol, the durable-streams client (but
    for the meaning of its errors), process start-up, configuration, metrics and tracing: I/O without
    state of the engine.  Of the lifecycle: the waits and the detached tasks' scheduling are which
    step comes next; the backfill and the replay of a wake are [Activation] and [Sequencer]; the
    resolution of a drift (re-introspection, the swap of a schema) and the steps of an epoch reset
    after its enumeration are calls to Postgres and storage around the sections that are here. *)

From Stdlib Require Import ZArith NArith Lia Ascii.
From stdpp Require Import base option numbers strings gmap fin_maps sorting list.

#[global] Open Scope Z_scope.

(* ------------------------------------------------------------------ *)
(** ** Text

    A Rust [String]/[&str] is the sequence of its Unicode scalar values (what [str::chars]
    yields).  UTF-8 preserves the scalar order, so Rust's byte-wise [Ord] on strings is the
    lexicographic order of these lists. *)

Abbreviation char := N.
Abbreviation str := (list N).

(** A literal of the source, as text. *)
Definition lit (s : string) : str := N_of_ascii <$> String.list_ascii_of_string s.

Declare Scope rust_scope.
Delimit Scope rust_scope with rust.
Notation "$ s" := (lit s%string) (at level 8, s at level 0, format "$ s") : rust_scope.
#[global] Open Scope rust_scope.

Definition chr (a : ascii) : char := N_of_ascii a.

(** [u8::is_ascii_digit] / [char::is_ascii_digit]. *)
Definition is_ascii_digit (c : char) : bool := (48 <=? c)%N && (c <=? 57)%N.

(** [char::is_whitespace]: the Unicode [White_Space] property. *)
Definition is_whitespace (c : char) : bool :=
  ((9 <=? c)%N && (c <=? 13)%N) || (c =? 32)%N || (c =? 133)%N || (c =? 160)%N ||
  (c =? 5760)%N || ((8192 <=? c)%N && (c <=? 8202)%N) || (c =? 8232)%N || (c =? 8233)%N ||
  (c =? 8239)%N || (c =? 8287)%N || (c =? 12288)%N.

(** [char::to_ascii_uppercase], [char::to_ascii_lowercase]. *)
Definition to_ascii_uppercase (c : char) : char :=
  if (97 <=? c)%N && (c <=? 122)%N then (c - 32)%N else c.
Definition to_ascii_lowercase (c : char) : char :=
  if (65 <=? c)%N && (c <=? 90)%N then (c + 32)%N else c.

Fixpoint trim_start (s : str) : str :=
  match s with
  | c :: s' => if is_whitespace c then trim_start s' else s
  | [] => []
  end.

(** [str::trim]. *)
Definition trim (s : str) : str := reverse (trim_start (reverse (trim_start s))).

(** [str::split_once(c)]: split at the first occurrence. *)
Fixpoint split_once (c : char) (s : str) : option (str * str) :=
  match s with
  | [] => None
  | d :: s' => if (d =? c)%N then Some ([], s')
               else p ← split_once c s'; Some (d :: p.1, p.2)
  end.

(** [str::rsplit_once(c)]: split at the last occurrence. *)
Definition rsplit_once (c : char) (s : str) : option (str * str) :=
  p ← split_once c (reverse s); Some (reverse p.2, reverse p.1).

(** [str::split(c)]. *)
Fixpoint split_on (c : char) (s : str) : list str :=
  match s with
  | [] => [[]]
  | d :: s' =>
      if (d =? c)%N then [] :: split_on c s'
      else match split_on c s' with
           | w :: ws => (d :: w) :: ws
           | [] => [[d]]
           end
  end.

(** [str::contains(c)] for a char pattern. *)
Definition str_contains (c : char) (s : str) : bool := existsb (N.eqb c) s.

(** [str::strip_prefix]. *)
Fixpoint str_strip_prefix (p s : str) : option str :=
  match p, s with
  | [], _ => Some s
  | c :: p', d :: s' => if (c =? d)%N then str_strip_prefix p' s' else None
  | _ :: _, [] => None
  end.

Definition str_strip_suffix (p s : str) : option str :=
  r ← str_strip_prefix (reverse p) (reverse s); Some (reverse r).

(** [[String]::join]. *)
Fixpoint str_join (sep : str) (ws : list str) : str :=
  match ws with
  | [] => []
  | [w] => w
  | w :: ws' => w ++ sep ++ str_join sep ws'
  end.

(** [Ord for str]. *)
Fixpoint str_cmp (a b : str) : comparison :=
  match a, b with
  | [], [] => Eq
  | [], _ :: _ => Lt
  | _ :: _, [] => Gt
  | x :: a', y :: b' => match (x ?= y)%N with Eq => str_cmp a' b' | c => c end
  end.

Definition str_leb (a b : str) : bool :=
  match str_cmp a b with Gt => false | _ => true end.

(* ------------------------------------------------------------------ *)
(** ** Machine integers *)

Definition u32_max : Z := 4294967295.
Definition u64_max : Z := 18446744073709551615.
Definition i64_min : Z := -9223372036854775808.
Definition i64_max : Z := 9223372036854775807.

(** Two's-complement wrap-around of a w-bit signed integer (release builds wrap). *)
Definition wrap_i (w z : Z) : Z := (z + 2 ^ (w - 1)) mod 2 ^ w - 2 ^ (w - 1).
Definition wrap_i64 : Z -> Z := wrap_i 64.
Definition wrap_i128 : Z -> Z := wrap_i 128.
Definition wrap_u64 (z : Z) : Z := z mod 2 ^ 64.

(** [u64::saturating_add], [saturating_sub], [saturating_mul]. *)
Definition sat_add_u64 (a b : Z) : Z := Z.min u64_max (a + b).
Definition sat_sub_u64 (a b : Z) : Z := Z.max 0 (a - b).
Definition sat_mul_u64 (a b : Z) : Z := Z.min u64_max (a * b).

Definition in_i64 (z : Z) : Prop := i64_min <= z <= i64_max.
Definition in_u64 (z : Z) : Prop := 0 <= z <= u64_max.

(** Decimal digits, least significant produced first and consed onto [acc]. *)
Fixpoint to_digits (fuel : nat) (n : N) (acc : str) : str :=
  match fuel with
  | O => acc
  | S f =>
      let acc' := (48 + n mod 10)%N :: acc in
      if (n <? 10)%N then acc' else to_digits f (n / 10)%N acc'
  end.

Definition N_to_str (n : N) : str := to_digits (S (N.size_nat n)) n [].

(** [ToString] of an integer. *)
Definition Z_to_str (z : Z) : str :=
  if z <? 0 then 45%N :: N_to_str (Z.to_N (- z)) else N_to_str (Z.to_N z).

Fixpoint digits_val (acc : N) (s : str) : option N :=
  match s with
  | [] => Some acc
  | c :: s' => if is_ascii_digit c then digits_val (10 * acc + (c - 48))%N s' else None
  end.

(** Digits of a non-empty numeral, as [from_str_radix(_, 10)] reads them. *)
Definition parse_digits (s : str) : option N :=
  match s with [] => None | _ => digits_val 0 s end.

(** [str::parse] for an integer type with range [lo..hi]: an optional [+], an optional [-] for
    signed types only, at least one digit, and nothing else; out of range is an error. *)
Definition parse_int (lo hi : Z) (s : str) : option Z :=
  z ← match s with
      | c :: s' =>
          if (c =? 43)%N then Z.of_N <$> parse_digits s'
          else if (c =? 45)%N && (lo <? 0) then (λ n, - Z.of_N n) <$> parse_digits s'
          else Z.of_N <$> parse_digits s
      | [] => None
      end;
  if (lo <=? z) && (z <=? hi) then Some z else None.

Definition parse_i64 : str -> option Z := parse_int i64_min i64_max.
Definition parse_u64 : str -> option Z := parse_int 0 u64_max.
Definition parse_u32 : str -> option Z := parse_int 0 u32_max.

(* ------------------------------------------------------------------ *)
(** ** Fallible code *)

(** [Result<A, E>]. *)
Inductive res (E A : Type) : Type :=
  | Ok (a : A)
  | Err (e : E).
Arguments Ok {E A} a.
Arguments Err {E A} e.

#[global] Instance res_ret {E} : MRet (res E) := λ A, @Ok E A.
#[global] Instance res_bind {E} : MBind (res E) := λ A B f r,
  match r with Ok a => f a | Err e => Err e end.
#[global] Instance res_fmap {E} : FMap (res E) := λ A B f r,
  match r with Ok a => Ok (f a) | Err e => Err e end.

(** [Option::ok_or]. *)
Definition ok_or {E A} (e : E) (o : option A) : res E A :=
  match o with Some a => Ok a | None => Err e end.
(** [Result::ok]. *)
Definition res_ok {E A} (r : res E A) : option A :=
  match r with Ok a => Some a | Err _ => None end.

(** [iter().map(f).collect::<Result<Vec<_>>>()]: stops at the first error. *)
Fixpoint try_map {E A B} (f : A -> res E B) (l : list A) : res E (list B) :=
  match l with
  | [] => Ok []
  | a :: l' => b ← f a; bs ← try_map f l'; Ok (b :: bs)
  end.

(* ------------------------------------------------------------------ *)
(** ** Stable sorting ([slice::sort], [sort_by], [sort_by_key]) *)

Section insertion_sort.
Context {A : Type} (leb : A -> A -> bool).

Fixpoint sort_insert (x : A) (l : list A) : list A :=
  match l with
  | [] => [x]
  | y :: l' => if leb x y then x :: y :: l' else y :: sort_insert x l'
  end.

Definition stable_sort (l : list A) : list A := foldr sort_insert [] l.
End insertion_sort.

(* ================================================================== *)
(** * Shared lemmas *)

(** ** Tactics and hints *)

Create HintDb circuits.

(** Split boolean hypotheses and conjunctions into propositions. *)
Ltac bool_prop :=
  repeat match goal with
  | H : (_ && _) = true |- _ => apply andb_true_iff in H as [? ?]
  | H : (_ || _) = false |- _ => apply orb_false_iff in H as [? ?]
  | H : negb _ = true |- _ => apply negb_true_iff in H
  | H : negb _ = false |- _ => apply negb_false_iff in H
  | H : (_ <=? _)%N = true |- _ => apply N.leb_le in H
  | H : (_ <? _)%N = true |- _ => apply N.ltb_lt in H
  | H : (_ <? _)%N = false |- _ => apply N.ltb_ge in H
  | H : (_ <=? _)%N = false |- _ => apply N.leb_gt in H
  | H : (_ =? _)%N = true |- _ => apply N.eqb_eq in H
  | H : (_ =? _)%N = false |- _ => apply N.eqb_neq in H
  | H : (_ <=? _) = true |- _ => apply Z.leb_le in H
  | H : (_ <? _) = true |- _ => apply Z.ltb_lt in H
  | H : (_ <? _) = false |- _ => apply Z.ltb_ge in H
  | H : (_ <=? _) = false |- _ => apply Z.leb_gt in H
  | H : (_ =? _) = true |- _ => apply Z.eqb_eq in H
  | H : (_ =? _) = false |- _ => apply Z.eqb_neq in H
  end.

(** Split the conditional or match the goal (or a hypothesis) is stuck on. *)
Ltac split_match :=
  match goal with
  | |- context [match ?x with _ => _ end] => destruct x eqn:?
  | H : context [match ?x with _ => _ end] |- _ => destruct x eqn:?
  end.

#[export] Instance res_eq_dec {E A} `{EqDecision E, EqDecision A} : EqDecision (res E A).
Proof. solve_decision. Defined.

#[export] Instance Ok_inj {E A} : Inj (=) (=) (@Ok E A).
Proof. by intros ?? [=]. Qed.

(** ** Result *)

Lemma res_bind_ok {E A B} (r : res E A) (f : A -> res E B) b :
  r ≫= f = Ok b -> exists a, r = Ok a /\ f a = Ok b.
Proof. destruct r; [eauto | discriminate]. Qed.

Section res_lemmas.
Context {E A B : Type}.

Lemma try_map_ok (f : A -> res E B) l bs :
  try_map f l = Ok bs <-> Forall2 (λ a b, f a = Ok b) l bs.
Proof.
  revert bs; induction l as [|a l IH]; intros bs; simpl.
  - split; [intros [= <-]; constructor | inversion 1; done].
  - split.
    + intros (b & Hb & Hr)%res_bind_ok.
      apply res_bind_ok in Hr as (bs' & Hbs' & [= <-]).
      constructor; [done | by apply IH].
    + inversion 1 as [|? b ? bs' Hb Hbs]; subst.
      apply IH in Hbs. rewrite Hb; simpl. by rewrite Hbs.
Qed.

Lemma try_map_length (f : A -> res E B) l bs :
  try_map f l = Ok bs -> length bs = length l.
Proof. intros H%try_map_ok. symmetry. by eapply Forall2_length. Qed.
End res_lemmas.

(** ** Decimal text *)

Lemma is_ascii_digit_of (d : N) : (d < 10)%N -> is_ascii_digit (48 + d) = true.
Proof. intros. unfold is_ascii_digit. apply andb_true_iff; split; apply N.leb_le; lia. Qed.

Lemma digits_val_to_digits fuel : forall n a acc,
  (n < 10 ^ N.of_nat fuel)%N ->
  exists k, digits_val a (to_digits fuel n acc) = digits_val (a * 10 ^ k + n) acc.
Proof.
  induction fuel as [|f IH]; intros n a acc Hn.
  - exists 0%N. simpl in *. f_equal. lia.
  - pose proof (N.mod_lt n 10 ltac:(lia)) as Hm.
    assert (Hstep : forall b, digits_val b ((48 + n mod 10)%N :: acc)
                              = digits_val (10 * b + n mod 10) acc).
    { intros b. cbn [digits_val]. rewrite is_ascii_digit_of by done.
      by rewrite (N.add_comm 48), N.add_sub. }
    cbn [to_digits]. destruct (N.ltb_spec n 10) as [Hlt|Hge].
    + exists 1%N. rewrite Hstep, (N.mod_small n 10), N.pow_1_r by done. f_equal; lia.
    + destruct (IH (n / 10)%N a ((48 + n mod 10)%N :: acc)) as [k Hk].
      { apply N.Div0.div_lt_upper_bound.
        rewrite Nat2N.inj_succ, N.pow_succ_r' in Hn. lia. }
      exists (k + 1)%N. rewrite Hk, Hstep. f_equal.
      rewrite N.pow_add_r, N.pow_1_r. pose proof (N.div_mod n 10 ltac:(lia)). lia.
Qed.

Lemma to_digits_cons fuel n acc : exists c s, to_digits (S fuel) n acc = c :: s /\
  (is_ascii_digit c = true).
Proof.
  revert n acc; induction fuel as [|f IH]; intros n acc;
    pose proof (N.mod_lt n 10 ltac:(lia)) as Hm; cbn [to_digits].
  - exists (48 + n mod 10)%N, acc. split; [by destruct (n <? 10)%N|].
    by apply is_ascii_digit_of.
  - destruct (n <? 10)%N; [|apply IH].
    eexists _, _. split; [done | by apply is_ascii_digit_of].
Qed.

Lemma pos_size_bound (p : positive) : (N.pos p < 2 ^ N.of_nat (Pos.size_nat p))%N.
Proof.
  induction p as [p IH|p IH|]; cbn [Pos.size_nat]; rewrite ?Nat2N.inj_succ, ?N.pow_succ_r';
    simpl N.of_nat; lia.
Qed.

Lemma N_size_bound (n : N) : (n < 10 ^ N.of_nat (S (N.size_nat n)))%N.
Proof.
  assert (n < 2 ^ N.of_nat (N.size_nat n))%N as H.
  { destruct n as [|p]; [simpl; lia | apply pos_size_bound]. }
  eapply N.lt_le_trans; [exact H|]. rewrite Nat2N.inj_succ.
  transitivity (10 ^ N.of_nat (N.size_nat n))%N; [apply N.pow_le_mono_l; lia|].
  apply N.pow_le_mono_r; lia.
Qed.

Lemma N_to_str_cons n : exists c s, N_to_str n = c :: s /\ is_ascii_digit c = true.
Proof. apply to_digits_cons. Qed.

Lemma parse_digits_N_to_str n : parse_digits (N_to_str n) = Some n.
Proof.
  unfold parse_digits. destruct (N_to_str_cons n) as (c & s & Heq & _). rewrite Heq, <- Heq.
  destruct (digits_val_to_digits (S (N.size_nat n)) n 0 []) as [k Hk]; [apply N_size_bound|].
  unfold N_to_str. rewrite Hk. simpl. f_equal; lia.
Qed.

Lemma is_ascii_digit_not_sign c :
  is_ascii_digit c = true -> (c =? 43)%N = false /\ (c =? 45)%N = false.
Proof. unfold is_ascii_digit. intros. bool_prop. split; apply N.eqb_neq; lia. Qed.

Definition clamp (lo hi z : Z) : option Z :=
  if (lo <=? z) && (z <=? hi) then Some z else None.

Lemma clamp_in lo hi z : lo <= z <= hi -> clamp lo hi z = Some z.
Proof.
  intros [? ?]. unfold clamp.
  by rewrite (proj2 (Z.leb_le lo z)), (proj2 (Z.leb_le z hi)) by done.
Qed.

Lemma parse_int_neg lo hi s :
  lo < 0 -> parse_int lo hi (45%N :: s) = n ← parse_digits s; clamp lo hi (- Z.of_N n).
Proof.
  intros Hlo. unfold parse_int. rewrite (proj2 (Z.ltb_lt lo 0)) by done.
  by destruct (parse_digits s).
Qed.

Lemma parse_int_digits lo hi c s :
  is_ascii_digit c = true ->
  parse_int lo hi (c :: s) = n ← parse_digits (c :: s); clamp lo hi (Z.of_N n).
Proof.
  intros [H1 H2]%is_ascii_digit_not_sign. unfold parse_int. rewrite H1, H2.
  by destruct (parse_digits (c :: s)).
Qed.

(** Printing then parsing an in-range integer gives it back. *)
Lemma parse_int_Z_to_str lo hi z :
  lo <= z <= hi -> parse_int lo hi (Z_to_str z) = Some z.
Proof.
  intros Hz. unfold Z_to_str. destruct (Z.ltb_spec z 0) as [Hneg|Hpos].
  - rewrite parse_int_neg, parse_digits_N_to_str by lia. simpl.
    replace (- Z.of_N (Z.to_N (- z))) with z by lia. by apply clamp_in.
  - pose proof (parse_digits_N_to_str (Z.to_N z)) as HP.
    destruct (N_to_str_cons (Z.to_N z)) as (c & s & Heq & Hd). rewrite Heq in *.
    rewrite parse_int_digits, HP by done. simpl.
    replace (Z.of_N (Z.to_N z)) with z by lia. by apply clamp_in.
Qed.

Lemma Z_to_str_inj a b : Z_to_str a = Z_to_str b -> a = b.
Proof.
  intros H.
  assert (Ha : parse_int (Z.min a b) (Z.max a b) (Z_to_str a) = Some a)
    by (apply parse_int_Z_to_str; lia).
  assert (Hb : parse_int (Z.min a b) (Z.max a b) (Z_to_str b) = Some b)
    by (apply parse_int_Z_to_str; lia).
  congruence.
Qed.
#[export] Hint Resolve parse_int_Z_to_str : circuits.

(** ** Stable sort *)

Section sort_lemmas.
Context {A : Type} (leb : A -> A -> bool).

Lemma sort_insert_perm x l : sort_insert leb x l ≡ₚ x :: l.
Proof.
  induction l as [|y l IH]; simpl; [done|]. destruct (leb x y); [done|].
  rewrite IH. apply perm_swap.
Qed.

Lemma stable_sort_perm l : stable_sort leb l ≡ₚ l.
Proof.
  unfold stable_sort. induction l as [|x l IH]; simpl; [done|].
  by rewrite sort_insert_perm, IH.
Qed.

Context (leb_total : forall x y, leb x y = true \/ leb y x = true)
        (leb_trans : forall x y z, leb x y = true -> leb y z = true -> leb x z = true).
Let le (x y : A) : Prop := leb x y = true.

Lemma sort_insert_sorted x l : StronglySorted le l -> StronglySorted le (sort_insert leb x l).
Proof.
  induction 1 as [|y l Hl IH Hy]; simpl; [by repeat constructor|].
  destruct (leb x y) eqn:E.
  - constructor; [by constructor|]. constructor; [done|].
    eapply Forall_impl; [exact Hy|]. intros z Hz. by eapply leb_trans.
  - constructor; [done|]. rewrite sort_insert_perm. constructor; [|done].
    destruct (leb_total x y) as [Hc|Hc]; [by rewrite Hc in E | done].
Qed.

Lemma stable_sort_sorted l : StronglySorted le (stable_sort leb l).
Proof. unfold stable_sort. induction l; simpl; [constructor | by apply sort_insert_sorted]. Qed.
End sort_lemmas.

(** Two lists with the same elements sort to the same list under a total order that only relates
    equal elements both ways. *)
Lemma strongly_sorted_unique {A} (R : A -> A -> Prop) (l1 l2 : list A) :
  (forall x y, R x y -> R y x -> x = y) ->
  StronglySorted R l1 -> StronglySorted R l2 -> l1 ≡ₚ l2 -> l1 = l2.
Proof.
  intros Hanti H1. revert l2. induction H1 as [|x l1 H1 IH Hx]; intros l2 H2 HP.
  { apply Permutation_nil in HP. by subst. }
  destruct H2 as [|y l2 H2 Hy]; [by apply Permutation_sym, Permutation_nil in HP|].
  assert (x = y) as ->.
  { assert (Hxin : x ∈ y :: l2) by (rewrite <- HP; by left).
    assert (Hyin : y ∈ x :: l1) by (rewrite HP; by left).
    apply elem_of_cons in Hxin as [->|Hxin]; [done|].
    apply elem_of_cons in Hyin as [->|Hyin]; [done|].
    rewrite Forall_forall in Hx, Hy. auto. }
  f_equal. apply IH; [done|]. by eapply Permutation_cons_inv.
Qed.

Lemma stable_sort_unique {A} (leb : A -> A -> bool) l1 l2 :
  (forall x y, leb x y = true \/ leb y x = true) ->
  (forall x y z, leb x y = true -> leb y z = true -> leb x z = true) ->
  (forall x y, leb x y = true -> leb y x = true -> x = y) ->
  l1 ≡ₚ l2 -> stable_sort leb l1 = stable_sort leb l2.
Proof.
  intros Htot Htrans Hanti HP.
  eapply strongly_sorted_unique; [exact Hanti|apply stable_sort_sorted; eauto..|].
  by rewrite !stable_sort_perm.
Qed.

(** ** Text order *)

Lemma str_cmp_refl s : str_cmp s s = Eq.
Proof. induction s as [|c s IH]; simpl; [done | by rewrite N.compare_refl]. Qed.

Lemma str_cmp_eq a b : str_cmp a b = Eq <-> a = b.
Proof.
  split; [|intros ->; apply str_cmp_refl].
  revert b; induction a as [|x a IH]; intros [|y b]; simpl; try done.
  destruct (N.compare_spec x y); try done. subst. intros. f_equal; eauto.
Qed.

Lemma str_cmp_antisym a b : str_cmp b a = CompOpp (str_cmp a b).
Proof.
  revert b; induction a as [|x a IH]; intros [|y b]; simpl; try done.
  rewrite N.compare_antisym. destruct (x ?= y)%N; simpl; auto.
Qed.

Lemma str_cmp_lt_trans a b c : str_cmp a b = Lt -> str_cmp b c = Lt -> str_cmp a c = Lt.
Proof.
  revert b c; induction a as [|x a IH]; intros [|y b] [|z c]; simpl; try done.
  destruct (N.compare_spec x y), (N.compare_spec y z); subst; try done; intros.
  - rewrite N.compare_refl. eauto.
  - by rewrite (proj2 (N.compare_lt_iff _ _)).
  - by rewrite (proj2 (N.compare_lt_iff _ _)).
  - by rewrite (proj2 (N.compare_lt_iff x z)) by lia.
Qed.

Lemma str_leb_total a b : str_leb a b = true \/ str_leb b a = true.
Proof. unfold str_leb. rewrite (str_cmp_antisym a b). destruct (str_cmp a b); auto. Qed.

Lemma str_leb_antisym a b : str_leb a b = true -> str_leb b a = true -> a = b.
Proof.
  unfold str_leb. rewrite (str_cmp_antisym a b).
  destruct (str_cmp a b) eqn:E; simpl; try done. by apply str_cmp_eq in E.
Qed.

Lemma str_leb_trans a b c : str_leb a b = true -> str_leb b c = true -> str_leb a c = true.
Proof.
  unfold str_leb. destruct (str_cmp a b) eqn:E1; [|destruct (str_cmp b c) eqn:E2|]; try done.
  - apply str_cmp_eq in E1 as ->. done.
  - apply str_cmp_eq in E2 as ->. by rewrite E1.
  - by rewrite (str_cmp_lt_trans _ _ _ E1 E2).
Qed.

(** Sorting texts depends only on which texts there are. *)
Lemma sort_str_perm l1 l2 : l1 ≡ₚ l2 -> stable_sort str_leb l1 = stable_sort str_leb l2.
Proof.
  apply stable_sort_unique; [apply str_leb_total|apply str_leb_trans|apply str_leb_antisym].
Qed.

(** ** Text surgery *)

Lemma str_contains_spec c s : str_contains c s = true <-> c ∈ s.
Proof.
  unfold str_contains. rewrite existsb_exists. setoid_rewrite <- list_elem_of_In.
  split; [intros (x & Hx & ->%N.eqb_eq); done | intros H; exists c; by rewrite N.eqb_refl].
Qed.

Lemma str_contains_false c s : str_contains c s = false <-> c ∉ s.
Proof. rewrite <- str_contains_spec. destruct (str_contains c s); naive_solver. Qed.

Lemma split_once_app c a b : c ∉ a -> split_once c (a ++ c :: b) = Some (a, b).
Proof.
  induction a as [|d a IH]; simpl; intros Ha.
  - by rewrite N.eqb_refl.
  - apply not_elem_of_cons in Ha as [Hd Ha]. rewrite (proj2 (N.eqb_neq d c)) by done.
    by rewrite IH.
Qed.

Lemma split_once_None c s : c ∉ s -> split_once c s = None.
Proof.
  induction s as [|d s IH]; simpl; intros Hs; [done|].
  apply not_elem_of_cons in Hs as [Hd Hs]. rewrite (proj2 (N.eqb_neq d c)) by done.
  by rewrite IH.
Qed.

Lemma split_once_Some c s a b : split_once c s = Some (a, b) -> s = a ++ c :: b /\ c ∉ a.
Proof.
  revert a b; induction s as [|d s IH]; simpl; intros a b; [done|].
  destruct (N.eqb_spec d c) as [->|Hne].
  - intros [= <- <-]. split; [done | set_solver].
  - destruct (split_once c s) as [[a' b']|]; simpl; [|done].
    intros [= <- <-]. destruct (IH a' b' eq_refl) as [-> ?].
    split; [done | apply not_elem_of_cons; split; [congruence | done]].
Qed.

Lemma split_on_nil c s : split_on c s <> [].
Proof. induction s; simpl; repeat split_match; congruence. Qed.

Lemma split_on_app c w s : c ∉ w -> split_on c (w ++ c :: s) = w :: split_on c s.
Proof.
  induction w as [|d w IH]; simpl; intros Hw; [by rewrite N.eqb_refl|].
  apply not_elem_of_cons in Hw as [Hd Hw]. rewrite (proj2 (N.eqb_neq d c)) by done.
  by rewrite IH.
Qed.

Lemma split_on_single c w : c ∉ w -> split_on c w = [w].
Proof.
  induction w as [|d w IH]; simpl; intros Hw; [done|].
  apply not_elem_of_cons in Hw as [Hd Hw]. rewrite (proj2 (N.eqb_neq d c)) by done.
  by rewrite IH.
Qed.

(** Splitting at a separator that occurs in no part undoes [str_join]. *)
Lemma split_on_join c ws : ws <> [] -> Forall (λ w, c ∉ w) ws -> split_on c (str_join [c] ws) = ws.
Proof.
  induction ws as [|w ws IH]; [done|]. intros _ Hall.
  apply Forall_cons in Hall as [Hw Hws]. destruct ws as [|w' ws].
  - by apply split_on_single.
  - change (str_join [c] (w :: w' :: ws)) with (w ++ c :: str_join [c] (w' :: ws)).
    rewrite split_on_app by done. f_equal. by apply IH.
Qed.

Lemma str_strip_prefix_app p s : str_strip_prefix p (p ++ s) = Some s.
Proof. induction p; simpl; [done | by rewrite N.eqb_refl]. Qed.

Lemma str_strip_prefix_Some p s r : str_strip_prefix p s = Some r -> s = p ++ r.
Proof.
  revert s; induction p as [|c p IH]; simpl; intros s; [by intros [= ->]|].
  destruct s as [|d s]; [done|]. destruct (N.eqb_spec c d); [subst|done].
  intros H. by rewrite (IH _ H).
Qed.

Lemma str_strip_suffix_app p s : str_strip_suffix p (s ++ p) = Some s.
Proof.
  unfold str_strip_suffix. rewrite reverse_app, str_strip_prefix_app. simpl.
  by rewrite reverse_involutive.
Qed.

Lemma rsplit_once_app c a b : c ∉ b -> rsplit_once c (a ++ c :: b) = Some (a, b).
Proof.
  intros Hb. unfold rsplit_once. rewrite reverse_app, reverse_cons, <- (assoc_L (++)).
  simpl. rewrite split_once_app by (by rewrite elem_of_reverse). simpl.
  by rewrite !reverse_involutive.
Qed.

(** [trim] leaves text alone whose two ends are not whitespace. *)
Lemma trim_id s :
  (forall c, head s = Some c -> is_whitespace c = false) ->
  (forall c, last s = Some c -> is_whitespace c = false) -> trim s = s.
Proof.
  intros Hh Hl. unfold trim.
  assert (trim_start s = s) as ->.
  { destruct s as [|c s]; simpl; [done|]. by rewrite Hh. }
  assert (trim_start (reverse s) = reverse s) as ->; [|apply reverse_involutive].
  destruct (reverse s) as [|c r] eqn:E; simpl; [done|].
  rewrite Hl; [done|]. apply (f_equal reverse) in E.
  rewrite reverse_involutive, reverse_cons in E. subst. apply last_snoc.
Qed.

(** ** Wrap-around *)

Lemma wrap_i_small w z : 0 < w -> - 2 ^ (w - 1) <= z < 2 ^ (w - 1) -> wrap_i w z = z.
Proof.
  intros Hw Hz. unfold wrap_i. rewrite Z.mod_small; [lia|].
  replace (2 ^ w) with (2 * 2 ^ (w - 1)); [lia|].
  rewrite <- Z.pow_succ_r by lia. f_equal. lia.
Qed.

Lemma wrap_i_add_l w a b : 0 < w -> wrap_i w (wrap_i w a + b) = wrap_i w (a + b).
Proof.
  intros Hw. unfold wrap_i. f_equal.
  replace ((a + 2 ^ (w - 1)) mod 2 ^ w - 2 ^ (w - 1) + b + 2 ^ (w - 1))
    with ((a + 2 ^ (w - 1)) mod 2 ^ w + b) by lia.
  rewrite Zplus_mod_idemp_l. f_equal. lia.
Qed.
