(* ===== verification/BTree.v ===== *)
(** * Ordered maps

    [std::collections::BTreeMap] as the list of its entries in ascending key order.  The key
    type only needs a total comparison, whose equality may be coarser than Leibniz equality
    (as [OrderedFloat]'s is on the two zeros); as in Rust, writing to a key that is already
    there keeps the key that was stored first.  Used by the routing indexes, the MIN/MAX
    multiset and the change log's segment table. *)

From S2P Require Import Prelude.
From stdpp Require Import base option numbers strings gmap fin_maps sorting list.
#[local] Open Scope Z_scope.

(** ** Total comparisons *)

Class TotalCmp {K : Type} (cmp : K -> K -> comparison) : Prop := {
  cmp_antisym : forall a b, cmp b a = CompOpp (cmp a b);
  cmp_lt_trans : forall a b c, cmp a b = Lt -> cmp b c = Lt -> cmp a c = Lt;
  cmp_eq_subst : forall a b c, cmp a b = Eq -> cmp a c = cmp b c
}.

(** Lexicographic comparison of integer lists; other orders embed into it. *)
Fixpoint zlist_cmp (a b : list Z) : comparison :=
  match a, b with
  | [], [] => Eq
  | [], _ :: _ => Lt
  | _ :: _, [] => Gt
  | x :: a', y :: b' => match Z.compare x y with Eq => zlist_cmp a' b' | c => c end
  end.

Lemma zlist_cmp_refl a : zlist_cmp a a = Eq.
Proof. induction a as [|x a IH]; simpl; [done | by rewrite Z.compare_refl]. Qed.

Lemma zlist_cmp_eq a b : zlist_cmp a b = Eq <-> a = b.
Proof.
  split; [|intros ->; apply zlist_cmp_refl].
  revert b; induction a as [|x a IH]; intros [|y b]; simpl; try done.
  destruct (Z.compare_spec x y); try done. subst. intros. f_equal; eauto.
Qed.

Lemma zlist_cmp_antisym a b : zlist_cmp b a = CompOpp (zlist_cmp a b).
Proof.
  revert b; induction a as [|x a IH]; intros [|y b]; simpl; try done.
  rewrite Z.compare_antisym. destruct (Z.compare x y); simpl; auto.
Qed.

Lemma zlist_cmp_lt_trans a b c :
  zlist_cmp a b = Lt -> zlist_cmp b c = Lt -> zlist_cmp a c = Lt.
Proof.
  revert b c; induction a as [|x a IH]; intros [|y b] [|z c]; simpl; try done.
  destruct (Z.compare_spec x y), (Z.compare_spec y z); subst; try done; intros.
  - rewrite Z.compare_refl. eauto.
  - by rewrite (proj2 (Z.compare_lt_iff _ _)).
  - by rewrite (proj2 (Z.compare_lt_iff _ _)).
  - by rewrite (proj2 (Z.compare_lt_iff x z)) by lia.
Qed.

#[export] Instance zlist_total : TotalCmp zlist_cmp.
Proof.
  split; [apply zlist_cmp_antisym | apply zlist_cmp_lt_trans |].
  by intros a b c ->%zlist_cmp_eq.
Qed.

(** A comparison read off an embedding into integer lists is total. *)
Lemma total_of_key {K} (key : K -> list Z) (cmp : K -> K -> comparison) :
  (forall a b, cmp a b = zlist_cmp (key a) (key b)) -> TotalCmp cmp.
Proof.
  intros Hk; split; intros *; rewrite !Hk.
  - apply cmp_antisym.
  - apply cmp_lt_trans.
  - apply cmp_eq_subst.
Qed.

#[export] Instance Zcompare_total : TotalCmp Z.compare.
Proof.
  apply (total_of_key (λ z, [z])). intros a b. simpl. by destruct (Z.compare a b).
Qed.

#[export] Instance str_cmp_total : TotalCmp str_cmp.
Proof.
  split; [apply str_cmp_antisym | apply str_cmp_lt_trans |].
  by intros a b c ->%str_cmp_eq.
Qed.

Section total_cmp.
Context {K : Type} (cmp : K -> K -> comparison) `{!TotalCmp cmp}.

Lemma cmp_refl a : cmp a a = Eq.
Proof. pose proof (cmp_antisym a a) as H. by destruct (cmp a a). Qed.

Lemma cmp_sym_eq a b : cmp a b = Eq -> cmp b a = Eq.
Proof. intros H. by rewrite (cmp_antisym (cmp:=cmp) a b), H. Qed.

Lemma cmp_gt_lt a b : cmp a b = Gt <-> cmp b a = Lt.
Proof. rewrite (cmp_antisym (cmp:=cmp) a b). by destruct (cmp a b). Qed.

Lemma cmp_eq_subst_r a b c : cmp a b = Eq -> cmp c a = cmp c b.
Proof.
  intros H. rewrite (cmp_antisym (cmp:=cmp) a c), (cmp_antisym (cmp:=cmp) b c). f_equal. by apply (cmp_eq_subst (cmp:=cmp)).
Qed.
End total_cmp.

(** ** The map *)

Abbreviation btree K V := (list (K * V)).

Section btree.
Context {K V : Type} (cmp : K -> K -> comparison).

Fixpoint bt_lookup (k : K) (m : btree K V) : option V :=
  match m with
  | [] => None
  | (k', v) :: m' =>
      match cmp k k' with Eq => Some v | Lt => None | Gt => bt_lookup k m' end
  end.

(** [BTreeMap::insert]; the stored key stays when it is already there. *)
Fixpoint bt_insert (k : K) (v : V) (m : btree K V) : btree K V :=
  match m with
  | [] => [(k, v)]
  | (k', v') :: m' =>
      match cmp k k' with
      | Eq => (k', v) :: m'
      | Lt => (k, v) :: (k', v') :: m'
      | Gt => (k', v') :: bt_insert k v m'
      end
  end.

(** [BTreeMap::remove]. *)
Fixpoint bt_remove (k : K) (m : btree K V) : btree K V :=
  match m with
  | [] => []
  | (k', v') :: m' =>
      match cmp k k' with
      | Eq => m'
      | Lt => (k', v') :: m'
      | Gt => (k', v') :: bt_remove k m'
      end
  end.

(** [range(..=hi)] and [range(lo..)]. *)
Definition bt_range_to (hi : K) (m : btree K V) : btree K V :=
  filter (λ e, cmp e.1 hi <> Gt) m.
Definition bt_range_from (lo : K) (m : btree K V) : btree K V :=
  filter (λ e, cmp lo e.1 <> Gt) m.

(** [entry(k).or_insert(d)] followed by an update through the reference. *)
Definition bt_upsert (k : K) (d : V) (f : V -> V) (m : btree K V) : btree K V :=
  bt_insert k (f (default d (bt_lookup k m))) m.

Definition bt_sorted (m : btree K V) : Prop := StronglySorted (λ a b, cmp a.1 b.1 = Lt) m.

Context `{!TotalCmp cmp}.

Lemma bt_lookup_fresh k m :
  Forall (λ e, cmp k e.1 = Lt) m -> bt_lookup k m = None.
Proof. destruct 1 as [|[k' v] m Hk]; simpl in *; [done | by rewrite Hk]. Qed.

Lemma bt_sorted_lt_tail k k' v m :
  cmp k k' = Lt -> bt_sorted ((k', v) :: m) -> Forall (λ e, cmp k e.1 = Lt) ((k', v) :: m).
Proof.
  intros Hk Hs. inversion Hs as [|? ? Hs' Hall]; subst. constructor; [done|].
  eapply Forall_impl; [exact Hall|]. simpl. intros e He. by eapply (cmp_lt_trans (cmp:=cmp)).
Qed.

Lemma bt_insert_Forall (P : K * V -> Prop) k v m :
  (forall k', cmp k k' = Eq -> P (k', v)) -> Forall P m -> Forall P (bt_insert k v m).
Proof.
  intros HP. induction 1 as [|[k' v'] m Hp Hm IH]; simpl.
  - constructor; [|done]. apply HP. by apply (cmp_refl cmp).
  - destruct (cmp k k') eqn:E; repeat constructor; auto. apply HP. by apply (cmp_refl cmp).
Qed.

Lemma bt_insert_sorted k v m : bt_sorted m -> bt_sorted (bt_insert k v m).
Proof.
  induction 1 as [|[k' v'] m Hm IH Hall]; simpl; [by repeat constructor|].
  destruct (cmp k k') eqn:E.
  - by constructor.
  - constructor; [by constructor|]. apply (bt_sorted_lt_tail k k' v'); [done|by constructor].
  - constructor; [done|]. apply bt_insert_Forall; [|done]. simpl. intros k2 H2.
    rewrite <- (cmp_eq_subst_r cmp k k2) by done. by apply cmp_gt_lt.
Qed.

Lemma bt_remove_Forall (P : K * V -> Prop) k m : Forall P m -> Forall P (bt_remove k m).
Proof.
  induction 1 as [|[k' v'] m Hp Hm IH]; simpl; [done|].
  destruct (cmp k k'); [done | by constructor..].
Qed.

Lemma bt_remove_sorted k m : bt_sorted m -> bt_sorted (bt_remove k m).
Proof.
  induction 1 as [|[k' v'] m Hm IH Hall]; simpl; [by constructor|].
  destruct (cmp k k'); [done | by constructor | ].
  constructor; [done | by apply bt_remove_Forall].
Qed.

Lemma bt_lookup_insert k k2 v m :
  bt_sorted m ->
  bt_lookup k2 (bt_insert k v m) = match cmp k2 k with Eq => Some v | _ => bt_lookup k2 m end.
Proof.
  induction 1 as [|[k' v'] m Hm IH Hall]; simpl; [by destruct (cmp k2 k)|].
  destruct (cmp k k') eqn:E; simpl.
  - rewrite <- (cmp_eq_subst_r cmp k k' k2) by done. by destruct (cmp k2 k).
  - destruct (cmp k2 k) eqn:E2; [done| |done]. by rewrite (cmp_lt_trans (cmp:=cmp) _ _ _ E2 E).
  - destruct (cmp k2 k') eqn:E2; [|..].
    + rewrite (cmp_eq_subst (cmp:=cmp) k2 k' k) by done.
      apply (cmp_gt_lt cmp) in E. by rewrite E.
    + apply (cmp_gt_lt cmp) in E. by rewrite (cmp_lt_trans (cmp:=cmp) _ _ _ E2 E).
    + by rewrite IH.
Qed.

Lemma bt_lookup_remove k k2 m :
  bt_sorted m ->
  bt_lookup k2 (bt_remove k m) = match cmp k2 k with Eq => None | _ => bt_lookup k2 m end.
Proof.
  induction 1 as [|[k' v'] m Hm IH Hall]; simpl; [by destruct (cmp k2 k)|].
  destruct (cmp k k') eqn:E; simpl.
  - rewrite <- (cmp_eq_subst_r cmp k k' k2) by done. destruct (cmp k2 k) eqn:E2; [..|done].
    + apply bt_lookup_fresh. eapply Forall_impl; [exact Hall|]. simpl. intros e He.
      rewrite (cmp_eq_subst (cmp:=cmp) k2 k), (cmp_eq_subst (cmp:=cmp) k k'); done.
    + apply bt_lookup_fresh. eapply Forall_impl; [exact Hall|]. simpl. intros e He.
      eapply (cmp_lt_trans (cmp:=cmp)); [exact E2|]. by rewrite (cmp_eq_subst (cmp:=cmp) k k').
  - destruct (cmp k2 k) eqn:E2; [|done|done].
    by rewrite (cmp_eq_subst (cmp:=cmp) k2 k), E by done.
  - destruct (cmp k2 k') eqn:E2; [| |done].
    + rewrite (cmp_eq_subst (cmp:=cmp) k2 k' k) by done. apply (cmp_gt_lt cmp) in E. by rewrite E.
    + apply (cmp_gt_lt cmp) in E. by rewrite (cmp_lt_trans (cmp:=cmp) _ _ _ E2 E).
Qed.

(** Membership of an entry, up to the key equality of the map. *)
Lemma bt_lookup_elem k v m :
  bt_sorted m -> bt_lookup k m = Some v <-> exists k', (k', v) ∈ m /\ cmp k k' = Eq.
Proof.
  induction 1 as [|[k' v'] m Hm IH Hall]; simpl.
  { split; [done | by intros (? & ?%not_elem_of_nil & _)]. }
  setoid_rewrite elem_of_cons. rewrite Forall_forall in Hall. simpl in Hall.
  destruct (cmp k k') eqn:E.
  - split; [intros [= ->]; eauto|]. intros (k2 & [[= -> ->]|Hin] & Hk2); [done|].
    apply Hall in Hin. simpl in Hin. rewrite <- (cmp_eq_subst (cmp:=cmp) k k') in Hin by done. congruence.
  - split; [done|]. intros (k2 & [[= -> ->]|Hin] & Hk2); [congruence|].
    apply Hall in Hin. simpl in Hin. by rewrite (cmp_lt_trans (cmp:=cmp) _ _ _ E Hin) in Hk2.
  - rewrite IH. split; [naive_solver|].
    intros (k2 & [[= -> ->]|Hin] & Hk2); [congruence | eauto].
Qed.
End btree.
#[export] Hint Resolve bt_insert_sorted bt_remove_sorted : circuits.
