(* ===== verification/Value.v ===== *)
(** * Cell values and rows ([src/apps/engine/src/value.rs])

    The dynamically typed Z-set element: [Value], [Row], their total order, their equality
    (coarser than Leibniz equality: the two zeros of [OrderedFloat] are one key) and the
    conversions from and to the JSON wire form and the event key.

    [f64] is the executable IEEE-754 binary64 of the Standard Library ([SpecFloat], one NaN).
    [serde_json::Value] is modelled with its number classes (integers of the 64-bit ranges,
    doubles) and objects as key-ordered association lists ([serde_json::Map] is a [BTreeMap]
    in this build).  The decimal rendering of a double is Rust's: an interface, [FloatText]. *)

From S2P Require Import Prelude BTree.
From Stdlib Require Import SpecFloat.
From stdpp Require Import base option numbers strings gmap fin_maps sorting list.
#[local] Open Scope Z_scope.

(* ------------------------------------------------------------------ *)
(** ** Doubles *)

Abbreviation f64 := spec_float.

Definition f64_prec : Z := 53.
Definition f64_emax : Z := 1024.

Definition f64_add (a b : f64) : f64 := SFadd f64_prec f64_emax a b.
Definition f64_mul (a b : f64) : f64 := SFmul f64_prec f64_emax a b.
Definition f64_div (a b : f64) : f64 := SFdiv f64_prec f64_emax a b.

(** [z as f64] for an integer type: rounds to nearest even. *)
Definition f64_of_Z (z : Z) : f64 := binary_normalize f64_prec f64_emax z 0 false.

Definition f64_is_finite (f : f64) : bool :=
  match f with S754_zero _ | S754_finite _ _ _ => true | _ => false end.
Definition f64_is_nan (f : f64) : bool := match f with S754_nan => true | _ => false end.

(** [OrderedFloat::cmp]: IEEE order, with NaN above everything and equal to itself. *)
Definition ordered_float_cmp (a b : f64) : comparison :=
  match SFcompare a b with
  | Some o => o
  | None => if f64_is_nan a then (if f64_is_nan b then Eq else Gt) else Lt
  end.

(** Rank, exponent and mantissa: what [ordered_float_cmp] compares. *)
Definition f64_key (f : f64) : list Z :=
  match f with
  | S754_infinity true => [0; 0; 0]
  | S754_finite true m e => [1; - e; - Z.pos m]
  | S754_zero _ => [2; 0; 0]
  | S754_finite false m e => [3; e; Z.pos m]
  | S754_infinity false => [4; 0; 0]
  | S754_nan => [5; 0; 0]
  end.

#[export] Instance f64_eq_dec : EqDecision f64.
Proof. solve_decision. Defined.

#[export] Instance f64_countable : Countable f64.
Proof.
  refine (inj_countable'
    (λ f : f64, match f with
            | S754_zero s => inl (inl s)
            | S754_infinity s => inl (inr s)
            | S754_nan => inr None
            | S754_finite s m e => inr (Some (s, m, e))
            end)
    (λ x, match x with
          | inl (inl s) => S754_zero s
          | inl (inr s) => S754_infinity s
          | inr None => S754_nan
          | inr (Some (s, m, e)) => S754_finite s m e
          end) _); by intros [].
Defined.

(** How Rust prints and reads doubles ([Display for f64], [f64::from_str]); reading back what was
    printed is documented to be exact. *)
Class FloatText := {
  f64_display : f64 -> str;
  f64_parse : str -> option f64;
  f64_parse_display : forall f, f64_parse (f64_display f) = Some f
}.

(* ------------------------------------------------------------------ *)
(** ** JSON *)

Inductive number : Type :=
  | NInt (z : Z)       (** [PosInt(u64)] / [NegInt(i64)]: one representation per integer *)
  | NFloat (f : f64).

Inductive json : Type :=
  | JNull
  | JBool (b : bool)
  | JNumber (n : number)
  | JString (s : str)
  | JArray (l : list json)
  | JObject (m : list (str * json)).

(** [Value::as_i64], [as_f64], [as_str], [as_bool], [as_u64], [is_null]. *)
Definition as_i64 (j : json) : option Z :=
  match j with JNumber (NInt z) => clamp i64_min i64_max z | _ => None end.
Definition as_u64 (j : json) : option Z :=
  match j with JNumber (NInt z) => clamp 0 u64_max z | _ => None end.
Definition as_f64 (j : json) : option f64 :=
  match j with
  | JNumber (NInt z) => Some (f64_of_Z z)
  | JNumber (NFloat f) => Some f
  | _ => None
  end.
Definition as_str (j : json) : option str := match j with JString s => Some s | _ => None end.
Definition as_bool (j : json) : option bool := match j with JBool b => Some b | _ => None end.
Definition is_null (j : json) : bool := match j with JNull => true | _ => false end.
Definition as_object (j : json) : option (list (str * json)) :=
  match j with JObject m => Some m | _ => None end.

(** [Map::get], [Map::insert] ([BTreeMap] order). *)
Definition obj_get (k : str) (m : list (str * json)) : option json := bt_lookup str_cmp k m.
Definition obj_insert (k : str) (j : json) (m : list (str * json)) : list (str * json) :=
  bt_insert str_cmp k j m.

(** [PartialEq] of [serde_json::Value]; doubles compare numerically. *)
Definition number_eqb (a b : number) : bool :=
  match a, b with
  | NInt x, NInt y => x =? y
  | NFloat x, NFloat y => SFeqb x y
  | _, _ => false
  end.
Fixpoint json_eqb (a b : json) {struct a} : bool :=
  match a, b with
  | JNull, JNull => true
  | JBool x, JBool y => Bool.eqb x y
  | JNumber x, JNumber y => number_eqb x y
  | JString x, JString y => bool_decide (x = y)
  | JArray x, JArray y =>
      (fix go (x y : list json) : bool :=
         match x, y with
         | [], [] => true
         | i :: x, j :: y => json_eqb i j && go x y
         | _, _ => false
         end) x y
  | JObject x, JObject y =>
      (fix go (x y : list (str * json)) : bool :=
         match x, y with
         | [], [] => true
         | (k, i) :: x, (l, j) :: y => bool_decide (k = l) && json_eqb i j && go x y
         | _, _ => false
         end) x y
  | _, _ => false
  end.

(** [json!(f)] on a double: [Number::from_f64] refuses what is not finite, which becomes null. *)
Definition json_of_f64 (f : f64) : json :=
  if f64_is_finite f then JNumber (NFloat f) else JNull.

(* ------------------------------------------------------------------ *)
(** ** Column types and values *)

Inductive ColumnType : Type := TyInt | TyText | TyBool | TyFloat.

#[export] Instance ColumnType_eq_dec : EqDecision ColumnType.
Proof. solve_decision. Defined.

Inductive Value : Type :=
  | VNull
  | VInt (i : Z)
  | VText (s : str)
  | VBool (b : bool)
  | VFloat (f : f64).

#[export] Instance Value_eq_dec : EqDecision Value.
Proof. solve_decision. Defined.

#[export] Instance Value_countable : Countable Value.
Proof.
  refine (inj_countable'
    (λ v, match v with
          | VNull => inl None
          | VInt i => inl (Some i)
          | VText s => inr (inl s)
          | VBool b => inr (inr (inl b))
          | VFloat f => inr (inr (inr f))
          end)
    (λ x, match x with
          | inl None => VNull
          | inl (Some i) => VInt i
          | inr (inl s) => VText s
          | inr (inr (inl b)) => VBool b
          | inr (inr (inr f)) => VFloat f
          end) _); by intros [].
Defined.

Definition value_is_null (v : Value) : bool := match v with VNull => true | _ => false end.

(** [derive(Ord)]: by constructor, then by payload. *)
Definition value_tag (v : Value) : Z :=
  match v with VNull => 0 | VInt _ => 1 | VText _ => 2 | VBool _ => 3 | VFloat _ => 4 end.

Definition bool_cmp (a b : bool) : comparison :=
  match a, b with false, true => Lt | true, false => Gt | _, _ => Eq end.

Definition value_cmp (a b : Value) : comparison :=
  match a, b with
  | VInt x, VInt y => Z.compare x y
  | VText x, VText y => str_cmp x y
  | VBool x, VBool y => bool_cmp x y
  | VFloat x, VFloat y => ordered_float_cmp x y
  | _, _ => Z.compare (value_tag a) (value_tag b)
  end.

(** [derive(PartialEq)]. *)
Definition value_eqb (a b : Value) : bool :=
  match value_cmp a b with Eq => true | _ => false end.

(** The representative a hash table files a value under: [Hash]/[Eq] identify the two zeros. *)
Definition vkey (v : Value) : Value :=
  match v with VFloat (S754_zero _) => VFloat (S754_zero false) | _ => v end.

Abbreviation Row := (list Value).

Definition rkey (r : Row) : Row := vkey <$> r.
Definition row_eqb (a b : Row) : bool := bool_decide (rkey a = rkey b).

Definition JSON_EXACT_INT_MAX : Z := 9007199254740991.

Section conversions.
Context {FT : FloatText}.

(** [Value::from_json]. *)
Definition from_json (j : json) (ty : ColumnType) : res str Value :=
  if is_null j then Ok VNull
  else match ty with
       | TyInt =>
           match j with
           | JString s =>
               VInt <$> ok_or ($"expected an integer, got '" ++ s ++ $"'") (parse_i64 s)
           | _ => VInt <$> ok_or $"expected an integer" (as_i64 j)
           end
       | TyFloat => VFloat <$> ok_or $"expected a float" (as_f64 j)
       | TyText => VText <$> ok_or $"expected a string" (as_str j)
       | TyBool => VBool <$> ok_or $"expected a bool" (as_bool j)
       end.

(** [Value::literal_from_json]. *)
Definition literal_from_json (j : json) (ty : ColumnType) : res str Value :=
  match j with
  | JString s =>
      match ty with
      | TyText => Ok (VText s)
      | TyInt => VInt <$> ok_or ($"invalid integer literal '" ++ s ++ $"'") (parse_i64 s)
      | TyFloat => VFloat <$> ok_or ($"invalid float literal '" ++ s ++ $"'") (f64_parse s)
      | TyBool =>
          if decide (s ∈ [$"t"; $"true"; $"TRUE"; $"True"]) then Ok (VBool true)
          else if decide (s ∈ [$"f"; $"false"; $"FALSE"; $"False"]) then Ok (VBool false)
          else Err ($"invalid boolean literal '" ++ s ++ $"'")
      end
  | _ => from_json j ty
  end.

(** [bool::from_str]. *)
Definition parse_bool (s : str) : option bool :=
  if decide (s = $"true") then Some true
  else if decide (s = $"false") then Some false else None.

(** [Value::from_key_string]. *)
Definition from_key_string (s : str) (ty : ColumnType) : res str Value :=
  match ty with
  | TyInt => VInt <$> ok_or $"pk is not an integer" (parse_i64 s)
  | TyFloat => VFloat <$> ok_or $"pk is not a float" (f64_parse s)
  | TyText => Ok (VText s)
  | TyBool => VBool <$> ok_or $"pk is not a bool" (parse_bool s)
  end.

(** [Value::to_json]; [unsigned_abs] is the absolute value as an unsigned integer. *)
Definition to_json (v : Value) : json :=
  match v with
  | VNull => JNull
  | VInt i =>
      if Z.abs i <=? JSON_EXACT_INT_MAX then JNumber (NInt i) else JString (Z_to_str i)
  | VFloat f => json_of_f64 f
  | VText s => JString s
  | VBool b => JBool b
  end.

(** [Value::to_key_string]. *)
Definition to_key_string (v : Value) : str :=
  match v with
  | VNull => $"null"
  | VInt i => Z_to_str i
  | VFloat f => f64_display f
  | VText s => s
  | VBool b => if b then $"true" else $"false"
  end.
End conversions.

(** [Row::get]. *)
Definition Row_get (r : Row) (idx : nat) : res str Value :=
  ok_or ($"column index " ++ Z_to_str (Z.of_nat idx) ++ $" out of range") (r !! idx).

(** [row.0.get(i).unwrap_or(&Value::Null)], the reading predicates and projections use. *)
Definition cell (r : Row) (idx : nat) : Value := default VNull (r !! idx).

(** [ensure_object]. *)
Definition ensure_object (j : json) : res str (list (str * json)) :=
  ok_or $"expected a JSON object" (as_object j).

(** A value of a column's type, or null, with integers in range. *)
Definition value_has_type (v : Value) (ty : ColumnType) : Prop :=
  match v, ty with
  | VNull, _ => True
  | VInt i, TyInt => in_i64 i
  | VText _, TyText => True
  | VBool _, TyBool => True
  | VFloat f, TyFloat => f64_is_finite f = true
  | _, _ => False
  end.

(* ================================================================== *)
(** * Lemmas *)

(** ** The order *)

Lemma ordered_float_cmp_key a b : ordered_float_cmp a b = zlist_cmp (f64_key a) (f64_key b).
Proof.
  destruct a as [sa|[]| |[] ma ea], b as [sb|[]| |[] mb eb];
    unfold ordered_float_cmp; simpl; rewrite ?Z.compare_refl; try done.
  - rewrite Z.compare_opp, (Z.compare_antisym ea eb).
    destruct (Z.compare ea eb); simpl; try done.
    change (Pos.compare_cont Eq ma mb) with (Pos.compare ma mb). by destruct (Pos.compare ma mb).
  - destruct (Z.compare ea eb); try done.
    change (Pos.compare_cont Eq ma mb) with (Pos.compare ma mb). by destruct (Pos.compare ma mb).
Qed.

Definition value_key (v : Value) : list Z :=
  match v with
  | VNull => [0]
  | VInt i => [1; i]
  | VText s => 2 :: (Z.of_N <$> s)
  | VBool b => [3; Z.b2z b]
  | VFloat f => 4 :: f64_key f
  end.

Lemma str_cmp_zlist a b : str_cmp a b = zlist_cmp (Z.of_N <$> a) (Z.of_N <$> b).
Proof.
  revert b; induction a as [|x a IH]; intros [|y b]; simpl; try done.
  rewrite <- N2Z.inj_compare, IH. by destruct (x ?= y)%N.
Qed.

Lemma value_cmp_key a b : value_cmp a b = zlist_cmp (value_key a) (value_key b).
Proof.
  destruct a as [|x|x|x|x], b as [|y|y|y|y]; simpl; try done.
  - by destruct (Z.compare x y).
  - apply str_cmp_zlist.
  - by destruct x, y.
  - apply ordered_float_cmp_key.
Qed.

#[export] Instance value_cmp_total : TotalCmp value_cmp.
Proof. apply (total_of_key value_key), value_cmp_key. Qed.

Lemma f64_key_inj a b :
  f64_key a = f64_key b -> a = b \/ exists s t, a = S754_zero s /\ b = S754_zero t.
Proof.
  destruct a as [sa|[]| |[] ma ea], b as [sb|[]| |[] mb eb]; simpl; intros H;
    try discriminate H; try (by left); try (by right; eauto);
    left; injection H as H1 H2; f_equal; lia.
Qed.

(** Rust equality is equality of hash keys. *)
Lemma value_cmp_Eq_vkey a b : value_cmp a b = Eq <-> vkey a = vkey b.
Proof.
  rewrite value_cmp_key, zlist_cmp_eq. split.
  - destruct a as [|x|x|x|x], b as [|y|y|y|y]; simpl; intros H; try discriminate H; try done.
    + by injection H as ->.
    + injection H as H. apply (inj (fmap Z.of_N)) in H. by subst.
    + injection H as H. by destruct x, y.
    + injection H as H. apply f64_key_inj in H as [->|(s & t & -> & ->)]; done.
  - assert (Hk : forall v, value_key v = value_key (vkey v)) by (by intros [|?|?|?|[]]).
    intros H. by rewrite (Hk a), (Hk b), H.
Qed.

Lemma value_eqb_vkey a b : value_eqb a b = true <-> vkey a = vkey b.
Proof. rewrite <- value_cmp_Eq_vkey. unfold value_eqb. destruct (value_cmp a b); naive_solver. Qed.

Lemma value_eqb_refl a : value_eqb a a = true.
Proof. by apply value_eqb_vkey. Qed.

Lemma vkey_null v : vkey v = VNull <-> v = VNull.
Proof. by destruct v as [|?|?|?|[]]. Qed.

Lemma vkey_idemp v : vkey (vkey v) = vkey v.
Proof. by destruct v as [|?|?|?|[]]. Qed.

Lemma row_eqb_refl r : row_eqb r r = true.
Proof. by apply bool_decide_eq_true. Qed.
#[export] Hint Rewrite value_eqb_vkey value_eqb_refl row_eqb_refl : circuits.

(** ** The value equality as a setoid *)

#[export] Instance Value_equiv : Equiv Value := λ a b, vkey a = vkey b.
#[export] Instance Value_equivalence : Equivalence (≡@{Value}).
Proof. split; unfold equiv, Value_equiv; red; congruence. Qed.

#[export] Instance value_cmp_proper : Proper ((≡) ==> (≡) ==> (=)) value_cmp.
Proof.
  intros a a' Ha%value_cmp_Eq_vkey b b' Hb%value_cmp_Eq_vkey.
  rewrite (cmp_eq_subst (cmp:=value_cmp) a a' b Ha).
  by apply cmp_eq_subst_r; [apply _|].
Qed.

#[export] Instance value_eqb_proper : Proper ((≡) ==> (≡) ==> (=)) value_eqb.
Proof. intros a a' Ha b b' Hb. unfold value_eqb. by rewrite Ha, Hb. Qed.

Lemma Row_get_ok r i v : Row_get r i = Ok v <-> r !! i = Some v.
Proof. unfold Row_get, ok_or. destruct (r !! i); naive_solver. Qed.

(** ** Conversions *)

Section conversion_lemmas.
Context {FT : FloatText}.

Lemma as_i64_in z : in_i64 z -> as_i64 (JNumber (NInt z)) = Some z.
Proof. intros. by apply clamp_in. Qed.

Lemma from_json_int_text z : in_i64 z -> from_json (JString (Z_to_str z)) TyInt = Ok (VInt z).
Proof.
  intros Hz. unfold from_json; simpl. unfold parse_i64.
  by rewrite parse_int_Z_to_str.
Qed.

Lemma from_json_to_json_spec v ty : value_has_type v ty -> from_json (to_json v) ty = Ok v.
Proof.
  destruct v as [|i|s|b|f], ty; simpl; try done; intros Hv.
  - destruct (Z.abs i <=? JSON_EXACT_INT_MAX); [|by apply from_json_int_text].
    unfold from_json; cbn [is_null]. by rewrite as_i64_in.
  - unfold json_of_f64. by rewrite Hv.
Qed.

Lemma from_key_string_spec v ty :
  value_has_type v ty -> v <> VNull -> from_key_string (to_key_string v) ty = Ok v.
Proof.
  destruct v as [|i|s|b|f], ty; simpl; try done; intros Hv _; unfold from_key_string.
  - unfold parse_i64. by rewrite parse_int_Z_to_str.
  - by destruct b.
  - by rewrite f64_parse_display.
Qed.

(** both codecs of a value are inverted by their readers: what [to_json] writes [from_json]
    reads back at the column's type (integers beyond 2^53 included, which travel as strings), and
    what [to_key_string] writes for a non-null value [from_key_string] reads back. *)
Theorem value_codecs_roundtrip v ty :
  value_has_type v ty ->
  from_json (to_json v) ty = Ok v /\
  (v <> VNull -> from_key_string (to_key_string v) ty = Ok v).
Proof. intros H. split; [by apply from_json_to_json_spec|by apply from_key_string_spec]. Qed.

(** A non-finite double has no wire form: it leaves the engine as null. *)
Lemma to_json_not_finite f : f64_is_finite f = false -> to_json (VFloat f) = JNull.
Proof. intros Hf. simpl. unfold json_of_f64. by rewrite Hf. Qed.
End conversion_lemmas.

(** A concrete text form of doubles (a numeral of the encoding), with which the interface's
    theorems are instantiated. *)
Definition float_text_numeral : FloatText.
Proof.
  refine {| f64_display := λ f, N_to_str (N.pos (encode f));
            f64_parse := λ s, n ← parse_digits s;
                              match n with N0 => None | N.pos p => decode p end |}.
  intros f. rewrite parse_digits_N_to_str. simpl. apply decode_encode.
Defined.

Lemma value_codecs_roundtrip_witness :
  from_json (to_json (VInt 9007199254740993)) TyInt = Ok (VInt 9007199254740993) /\
  (VInt 9007199254740993 <> VNull ->
   from_key_string (FT := float_text_numeral)
     (to_key_string (FT := float_text_numeral) (VInt 9007199254740993)) TyInt =
   Ok (VInt 9007199254740993)).
Proof.
  apply (value_codecs_roundtrip (FT := float_text_numeral)). split; vm_compute; discriminate.
Defined.
