(* ===== verification/TableRef.v ===== *)
(** * Table identity ([src/apps/engine/src/table_ref.rs])

    A table is [(schema, name)], stored as the canonical [schema.name] with the byte offset of
    the separating dot.  [TableRef_parse] is the single parse rule. *)

From S2P Require Import Prelude.
From stdpp Require Import base option numbers strings gmap fin_maps sorting list.
#[local] Open Scope Z_scope.

Definition PUBLIC_SCHEMA : str := $"public".
Definition RESERVED_SCHEMA : str := $"__circuits".

(** [char::len_utf8] and [str::len]. *)
Definition len_utf8 (c : char) : Z :=
  if (c <? 128)%N then 1 else if (c <? 2048)%N then 2 else if (c <? 65536)%N then 3 else 4.
Definition byte_len (s : str) : Z := foldr (λ c n, len_utf8 c + n) 0 s.

(** Slicing a string at a byte offset; [None] is the panic off a character boundary. *)
Fixpoint split_at_byte (n : Z) (s : str) : option (str * str) :=
  if n =? 0 then Some ([], s)
  else match s with
       | [] => None
       | c :: s' =>
           if len_utf8 c <=? n
           then p ← split_at_byte (n - len_utf8 c) s'; Some (c :: p.1, p.2)
           else None
       end.

Record TableRef : Type := mkTableRef { canon : str; dot : Z }.

#[export] Instance TableRef_eq_dec : EqDecision TableRef.
Proof. solve_decision. Defined.

#[export] Instance TableRef_countable : Countable TableRef.
Proof.
  refine (inj_countable' (λ t, (canon t, dot t)) (λ p, mkTableRef p.1 p.2) _); by intros [].
Defined.

(** [check_part]: 46 is the dot, 34 the double quote, 42 the star. *)
Definition check_part (what part : str) : res str unit :=
  if bool_decide (part = []) then Err ($"table reference has an empty " ++ what)
  else if str_contains 46%N part then
    Err ($"table reference " ++ what ++ $" '" ++ part ++
         $"' contains a '.'; use exactly one schema.name separator")
  else if str_contains 34%N part then
    Err ($"table reference " ++ what ++ $" '" ++ part ++
         $"' contains a '" ++ [34%N] ++ $"'; quoted identifiers are not supported")
  else if str_contains 42%N part then
    Err ($"table reference " ++ what ++ $" '" ++ part ++
         $"' contains a '*'; the only wildcard forms are `schema.*` and `*` (= `public.*`)")
  else Ok tt.

(** [check_schema]. *)
Definition check_schema (schema : str) : res str unit :=
  _ ← check_part $"schema" schema;
  if bool_decide (schema = RESERVED_SCHEMA) then
    Err ($"'" ++ RESERVED_SCHEMA ++ $"' is reserved by the engine (its change-log control " ++
         $"envelopes are typed '" ++ RESERVED_SCHEMA ++ $".*'); no table may be tracked in it")
  else Ok tt.

(** [TableRef::new]. *)
Definition TableRef_new (schema name : str) : res str TableRef :=
  _ ← check_schema schema;
  _ ← check_part $"name" name;
  Ok {| canon := schema ++ [46%N] ++ name; dot := byte_len schema |}.

(** [TableRef::public]. *)
Definition TableRef_public (name : str) : res str TableRef := TableRef_new PUBLIC_SCHEMA name.

(** [TableRef::parse]. *)
Definition TableRef_parse (s : str) : res str TableRef :=
  let s := trim s in
  if bool_decide (s = []) then Err $"empty table reference"
  else match split_once 46%N s with
       | Some (schema, name) => TableRef_new schema name
       | None => TableRef_public s
       end.

(** [TableRef::schema], [name], [as_str], [is_public]; [None] would be a slicing panic. *)
Definition TableRef_schema (t : TableRef) : option str := fst <$> split_at_byte (dot t) (canon t).
Definition TableRef_name (t : TableRef) : option str :=
  snd <$> split_at_byte (dot t + 1) (canon t).
Definition TableRef_as_str (t : TableRef) : str := canon t.
Definition TableRef_is_public (t : TableRef) : bool :=
  bool_decide (TableRef_schema t = Some PUBLIC_SCHEMA).

(** [pg::quote_ident]: double-quote an identifier, doubling the quotes inside. *)
Definition quote_ident (name : str) : str :=
  [34%N] ++ concat ((λ c, if (c =? 34)%N then [34; 34]%N else [c]) <$> name) ++ [34%N].

(** [TableRef::quote_qualified]. *)
Definition quote_qualified (t : TableRef) : option str :=
  s ← TableRef_schema t; n ← TableRef_name t; Some (quote_ident s ++ [46%N] ++ quote_ident n).

(* ================================================================== *)

(** A part [check_part] accepts. *)
Definition part_ok (p : str) : Prop := p <> [] /\ 46%N ∉ p /\ 34%N ∉ p /\ 42%N ∉ p.

(** What every constructor of a reference establishes. *)
Definition TableRef_wf (t : TableRef) : Prop :=
  exists schema name,
    part_ok schema /\ part_ok name /\ schema <> RESERVED_SCHEMA /\
    t = mkTableRef (schema ++ 46%N :: name) (byte_len schema).

Lemma check_part_ok what p : check_part what p = Ok tt <-> part_ok p.
Proof.
  unfold check_part, part_ok. rewrite <- !str_contains_false.
  case_bool_decide; [naive_solver|].
  destruct (str_contains 46 p), (str_contains 34 p), (str_contains 42 p); naive_solver.
Qed.

Lemma check_part_ok' what p u : check_part what p = Ok u -> part_ok p.
Proof. destruct u. by apply check_part_ok. Qed.

Lemma TableRef_new_ok schema name t :
  TableRef_new schema name = Ok t <->
  part_ok schema /\ part_ok name /\ schema <> RESERVED_SCHEMA /\
  t = mkTableRef (schema ++ 46%N :: name) (byte_len schema).
Proof.
  unfold TableRef_new, check_schema. split.
  - intros (u & Hu & H)%res_bind_ok. apply res_bind_ok in Hu as (? & ?%check_part_ok' & Hr).
    apply res_bind_ok in H as (? & ?%check_part_ok' & [= <-]).
    case_bool_decide; naive_solver.
  - intros (Hs & Hn & Hr & ->).
    rewrite (proj2 (check_part_ok _ schema)) by done. simpl.
    rewrite bool_decide_eq_false_2 by done. simpl.
    by rewrite (proj2 (check_part_ok _ name)).
Qed.

Lemma len_utf8_pos c : 0 < len_utf8 c.
Proof. unfold len_utf8. repeat case_match; lia. Qed.

Lemma byte_len_nonneg s : 0 <= byte_len s.
Proof. induction s as [|c s IH]; simpl; [lia|]. pose proof (len_utf8_pos c). lia. Qed.

Lemma split_at_byte_len a b : split_at_byte (byte_len a) (a ++ b) = Some (a, b).
Proof.
  induction a as [|c a IH]; [by destruct b|].
  pose proof (len_utf8_pos c). pose proof (byte_len_nonneg a).
  cbn [byte_len foldr app split_at_byte]. fold (byte_len a).
  rewrite (proj2 (Z.eqb_neq _ _)), (proj2 (Z.leb_le _ _)) by lia.
  replace (len_utf8 c + byte_len a - len_utf8 c) with (byte_len a) by lia. by rewrite IH.
Qed.

Lemma byte_len_snoc a c : byte_len (a ++ [c]) = byte_len a + len_utf8 c.
Proof.
  induction a as [|d a IH]; cbn [app byte_len foldr]; [lia|].
  fold (byte_len a) (byte_len (a ++ [c])). lia.
Qed.

(** The accessors give back the parts: the slices of a well-formed reference never panic. *)
Lemma TableRef_parts schema name :
  let t := mkTableRef (schema ++ 46%N :: name) (byte_len schema) in
  TableRef_schema t = Some schema /\ TableRef_name t = Some name.
Proof.
  unfold TableRef_schema, TableRef_name; simpl. split; [by rewrite split_at_byte_len|].
  change (byte_len schema + 1) with (byte_len schema + len_utf8 46).
  rewrite <- byte_len_snoc.
  change (schema ++ 46%N :: name) with (schema ++ [46%N] ++ name).
  by rewrite app_assoc, split_at_byte_len.
Qed.

(** Splitting a well-formed canonical form at its first dot recovers the parts. *)
Lemma TableRef_split schema name :
  part_ok schema -> split_once 46%N (schema ++ 46%N :: name) = Some (schema, name).
Proof. intros (_ & Hd & _). by apply split_once_app. Qed.

Definition trimmed (s : str) : Prop :=
  (forall c, head s = Some c -> is_whitespace c = false) /\
  (forall c, last s = Some c -> is_whitespace c = false).

Lemma trim_start_head s c : head (trim_start s) = Some c -> is_whitespace c = false.
Proof. induction s as [|d s IH]; simpl; [done|]. destruct (is_whitespace d) eqn:E; naive_solver. Qed.

Lemma trim_start_suffix s : exists p, s = p ++ trim_start s.
Proof.
  induction s as [|d s [p IH]]; simpl; [by exists []|].
  destruct (is_whitespace d); [exists (d :: p); simpl; congruence | by exists []].
Qed.

Lemma last_reverse {A} (l : list A) : last (reverse l) = head l.
Proof. destruct l as [|x l]; [done|]. by rewrite reverse_cons, last_snoc. Qed.

Lemma head_reverse {A} (l : list A) : head (reverse l) = last l.
Proof. by rewrite <- last_reverse, reverse_involutive. Qed.

Lemma trim_trimmed s : trimmed (trim s).
Proof.
  unfold trim, trimmed. set (a := trim_start s).
  split; intros c.
  - rewrite head_reverse. destruct (trim_start_suffix (reverse a)) as [p Hp].
    intros Hl. assert (head a = Some c) as Ha.
    { rewrite <- (reverse_involutive a), head_reverse, Hp, last_app.
      by rewrite Hl. }
    by apply (trim_start_head s).
  - rewrite last_reverse. apply trim_start_head.
Qed.

Lemma trim_trim s : trim (trim s) = trim s.
Proof. apply trim_id; apply trim_trimmed. Qed.

Lemma TableRef_parse_wf s t : TableRef_parse s = Ok t -> TableRef_wf t.
Proof.
  unfold TableRef_parse, TableRef_public. case_bool_decide; [done|].
  destruct (split_once 46%N (trim s)) as [[schema name]|];
    intros (H1 & H2 & H3 & ->)%TableRef_new_ok;
    (eexists _, _; split; [exact H1|]; split; [exact H2|]; split; [exact H3|done]).
Qed.

(** The canonical form of a parsed reference has no space at its ends. *)
Lemma TableRef_parse_trimmed s t : TableRef_parse s = Ok t -> trimmed (canon t).
Proof.
  unfold TableRef_parse, TableRef_public. case_bool_decide as Hne; [done|].
  destruct (split_once 46%N (trim s)) as [[schema name]|] eqn:E.
  - intros (_ & _ & _ & ->)%TableRef_new_ok. simpl. apply split_once_Some in E as [<- _].
    apply trim_trimmed.
  - intros (_ & _ & _ & ->)%TableRef_new_ok. simpl. split.
    + by intros c [= <-].
    + intros c. destruct (trim s) as [|d r] eqn:Er; [done|].
      intros Hl. apply (proj2 (trim_trimmed s)). by rewrite Er.
Qed.

Lemma TableRef_parse_of_canon t :
  TableRef_wf t -> trimmed (canon t) -> TableRef_parse (TableRef_as_str t) = Ok t.
Proof.
  intros (schema & name & Hs & Hn & Hr & ->) [Hh Hl]. unfold TableRef_parse, TableRef_as_str.
  simpl in *. rewrite trim_id by done.
  rewrite bool_decide_eq_false_2; [|by destruct schema].
  rewrite TableRef_split by done. by apply TableRef_new_ok.
Qed.

(** parsing is onto canonical spellings: whatever spelling a table reference was parsed from, its
    printed form parses to the same reference again. *)
Theorem TableRef_parse_canonical s t :
  TableRef_parse s = Ok t -> TableRef_parse (TableRef_as_str t) = Ok t.
Proof.
  intros H. apply TableRef_parse_of_canon; [by eapply TableRef_parse_wf|].
  by eapply TableRef_parse_trimmed.
Qed.

Lemma TableRef_parse_canonical_witness :
  TableRef_parse $" users " = Ok (mkTableRef $"public.users" 6) /\
  TableRef_parse $"public.users" = Ok (mkTableRef $"public.users" 6).
Proof.
  split; [reflexivity|].
  exact (TableRef_parse_canonical $" users " (mkTableRef $"public.users" 6) eq_refl).
Defined.

(** One table has one spelling: references that render alike are equal. *)
Lemma TableRef_as_str_inj t1 t2 :
  TableRef_wf t1 -> TableRef_wf t2 -> TableRef_as_str t1 = TableRef_as_str t2 -> t1 = t2.
Proof.
  intros (s1 & n1 & Hs1 & _ & _ & ->) (s2 & n2 & Hs2 & _ & _ & ->). unfold TableRef_as_str.
  simpl. intros H. pose proof (TableRef_split s1 n1 Hs1) as H1.
  rewrite H, (TableRef_split s2 n2 Hs2) in H1. congruence.
Qed.

(** [TableRef::new] accepts a name with a trailing space, whose canonical form the parse rule
    reads as another table. *)
Lemma TableRef_new_trailing_space :
  exists t, TableRef_new $"public" $"users " = Ok t /\
            TableRef_parse (TableRef_as_str t) = Ok (mkTableRef $"public.users" 6) /\
            t <> mkTableRef $"public.users" 6.
Proof. eexists; split; [reflexivity|]. split; [reflexivity | discriminate]. Qed.
