(* ===== verification/Schema.v ===== *)
(** * Schemas ([src/apps/engine/src/schema.rs])

    The control-plane table definitions, their compiled positional form [TableSchema], the
    composite-key encoding, the row codec, and the schema fingerprint drift is detected with. *)

From S2P Require Import Prelude BTree Value TableRef.
From stdpp Require Import base option numbers strings gmap fin_maps sorting list.
#[local] Open Scope Z_scope.

(* ------------------------------------------------------------------ *)
(** ** Fingerprints *)

Definition REPLICA_IDENTITY_FULL : Z := 102.

Record FingerprintColumn : Type := {
  fc_name : str;
  fc_type_oid : Z;
  fc_typmod : Z
}.

#[export] Instance FingerprintColumn_eq_dec : EqDecision FingerprintColumn.
Proof. solve_decision. Defined.

Record SchemaFingerprint : Type := {
  fp_columns : list FingerprintColumn;
  fp_replident : Z;
  fp_pk : option (list str)
}.

(** [SchemaFingerprint::pk_matches]. *)
Definition pk_matches (self observed : SchemaFingerprint) : bool :=
  match fp_pk self, fp_pk observed with
  | Some a, Some b => bool_decide (a = b)
  | _, _ => true
  end.

(** [SchemaFingerprint::still_serves]. *)
Definition still_serves (self observed : SchemaFingerprint) : bool :=
  bool_decide (fp_columns self = fp_columns observed) &&
  (fp_replident observed =? REPLICA_IDENTITY_FULL) && pk_matches self observed.

(** [SchemaFingerprint::column_names]. *)
Definition column_names (self : SchemaFingerprint) : list str := fc_name <$> fp_columns self.

(** [iter().map(|c| (name, c)).collect::<BTreeMap<_, _>>()]: a repeated name keeps the last. *)
Definition by_name (cols : list FingerprintColumn) : btree str FingerprintColumn :=
  foldl (λ m c, bt_insert str_cmp (fc_name c) c m) [] cols.

Definition has_name (n : str) (m : btree str FingerprintColumn) : bool :=
  bool_decide (is_Some (bt_lookup str_cmp n m)).

Definition retyped_msg (name : str) (o c : FingerprintColumn) : str :=
  $"column '" ++ name ++ $"' retyped (oid " ++ Z_to_str (fc_type_oid o) ++ $"/typmod " ++
  Z_to_str (fc_typmod o) ++ $" -> oid " ++ Z_to_str (fc_type_oid c) ++ $"/typmod " ++
  Z_to_str (fc_typmod c) ++ $")".

(** The three column loops of [describe_drift]. *)
Definition drift_added (old new : btree str FingerprintColumn) : list str :=
  (λ n, $"column '" ++ n ++ $"' added") <$> filter (λ n, has_name n old = false) new.*1.
Definition drift_dropped (old new : btree str FingerprintColumn) : list str :=
  (λ n, $"column '" ++ n ++ $"' dropped") <$> filter (λ n, has_name n new = false) old.*1.
Definition drift_retyped (old new : btree str FingerprintColumn) : list str :=
  omap (λ '(n, c),
    o ← bt_lookup str_cmp n old;
    if negb (fc_type_oid o =? fc_type_oid c) || negb (fc_typmod o =? fc_typmod c)
    then Some (retyped_msg n o c) else None) new.

(** The reports on the primary key and on the replica identity. *)
Definition drift_pk (compiled observed : SchemaFingerprint) : list str :=
  match fp_pk compiled, fp_pk observed with
  | Some before, Some after =>
      if bool_decide (before = after) then []
      else [$"primary key changed (" ++ str_join $"," before ++ $" -> " ++
            str_join $"," after ++ $")"]
  | _, _ => []
  end.
Definition drift_identity (observed : SchemaFingerprint) : list str :=
  if fp_replident observed =? REPLICA_IDENTITY_FULL then []
  else [$"replica identity '" ++ [Z.to_N (fp_replident observed)] ++ $"' (expected 'f' = FULL)"].

(** [describe_drift]. *)
Definition describe_drift (compiled observed : SchemaFingerprint) : list str :=
  let old := by_name (fp_columns compiled) in
  let new := by_name (fp_columns observed) in
  let out := drift_added old new ++ drift_dropped old new ++ drift_retyped old new in
  let reordered : list str :=
    if bool_decide (out = []) && negb (bool_decide (column_names compiled = column_names observed))
    then [$"columns reordered (" ++ str_join $"," (column_names compiled) ++ $" -> " ++
          str_join $"," (column_names observed) ++ $")"]
    else [] in
  out ++ reordered ++ drift_pk compiled observed ++ drift_identity observed.

(* ------------------------------------------------------------------ *)
(** ** Definitions and compiled schemas *)

Record ColumnDef : Type := {
  cd_ty : ColumnType;
  cd_pg_type : option str;
  cd_has_default : bool
}.

Record TableDef : Type := {
  td_columns : btree str ColumnDef;
  td_primary_key : list str;
  td_fingerprint : option SchemaFingerprint
}.

Record TableSchema : Type := {
  ts_table : TableRef;
  ts_columns : list (str * ColumnType);
  ts_index : gmap str nat;
  ts_pk_index : nat;
  ts_pk_name : str;
  ts_pk_type : ColumnType;
  ts_pk_cols : list nat;
  ts_pg_types : list (option str);
  ts_has_defaults : list bool;
  ts_fingerprint : option SchemaFingerprint
}.

(** U+001F. *)
Definition PK_SEP : char := 31%N.

(** The [match] of [escape_key_component]; 92 is the backslash. *)
Definition esc_char (c : char) : str :=
  if (c =? 92)%N then [92; 92]%N else if (c =? PK_SEP)%N then 92%N :: $"x1f" else [c].

(** [escape_key_component]. *)
Definition escape_key_component (part : str) : str :=
  if negb (str_contains 92%N part) && negb (str_contains PK_SEP part) then part
  else concat (esc_char <$> part).

(** [join_key_components]. *)
Definition join_key_components (parts : list str) : str :=
  str_join [PK_SEP] (escape_key_component <$> parts).

Definition columns_index (cols : list (str * ColumnType)) : gmap str nat :=
  foldl (λ m '(i, c), <[c := i]> m) ∅ (imap (λ i c, (i, c.1)) cols).

(** [TableSchema::from_def]. *)
Definition TableSchema_from_def (table : TableRef) (def : TableDef) : res str TableSchema :=
  let columns : list _ := (λ '(c, d), (c, cd_ty d)) <$> td_columns def in
  let pg_types : list _ := (λ '(_, d), cd_pg_type d) <$> td_columns def in
  let has_defaults : list _ := (λ '(_, d), cd_has_default d) <$> td_columns def in
  let index := columns_index columns in
  if bool_decide (td_primary_key def = []) then
    Err ($"table '" ++ TableRef_as_str table ++ $"' has no primary key")
  else
    pk_cols ← try_map (λ c, ok_or ($"primaryKey '" ++ c ++ $"' is not a column") (index !! c))
                      (td_primary_key def);
    let pk_index := default 0%nat (head pk_cols) in
    Ok {| ts_table := table;
          ts_columns := columns;
          ts_index := index;
          ts_pk_index := pk_index;
          ts_pk_name := default [] (head (td_primary_key def));
          ts_pk_type := default TyText (snd <$> columns !! pk_index);
          ts_pk_cols := pk_cols;
          ts_pg_types := pg_types;
          ts_has_defaults := has_defaults;
          ts_fingerprint := td_fingerprint def |}.

(** [TableSchema::is_collatable_text]. *)
Definition is_collatable_text (ts : TableSchema) (col : nat) : bool :=
  if bool_decide ((snd <$> ts_columns ts !! col) = Some TyText) then
    match mjoin (ts_pg_types ts !! col) with
    | None => false
    | Some t => bool_decide (t ∈ [$"text"; $"varchar"; $"bpchar"; $"char"; $"name"; $"citext"])
    end
  else false.

(** [TableSchema::pg_type_of]. *)
Definition pg_type_of (ts : TableSchema) (col : str) : option str :=
  i ← ts_index ts !! col; mjoin (ts_pg_types ts !! i).

(** [TableSchema::column_index], [column_type] (indexing panics out of range: [None]). *)
Definition column_index (ts : TableSchema) (col : str) : res str nat :=
  ok_or ($"unknown column '" ++ col ++ $"'") (ts_index ts !! col).
Definition column_type (ts : TableSchema) (idx : nat) : option ColumnType :=
  snd <$> ts_columns ts !! idx.

Section rows.
Context {FT : FloatText}.

(** [TableSchema::key_string]. *)
Definition key_string (ts : TableSchema) (row : Row) : res str str :=
  match ts_pk_cols ts with
  | [i] => v ← Row_get row i; Ok (to_key_string v)
  | cols =>
      parts ← try_map (λ i, v ← Row_get row i; Ok (to_key_string v)) cols;
      Ok (join_key_components parts)
  end.

(** [TableSchema::row_from_json]. *)
Definition row_from_json (ts : TableSchema) (obj : list (str * json)) : res str Row :=
  try_map (λ '(cname, cty), from_json (default JNull (obj_get cname obj)) cty) (ts_columns ts).

(** The [emit] closure of [row_to_json_cols]. *)
Definition emit_column (ts : TableSchema) (row : Row) (m : list (str * json)) (i : nat)
  : list (str * json) :=
  match ts_columns ts !! i with
  | Some (cname, _) => obj_insert cname (to_json (cell row i)) m
  | None => m
  end.

(** [TableSchema::row_to_json_cols], [row_to_json]. *)
Definition row_to_json_cols (ts : TableSchema) (row : Row) (cols : option (list nat)) : json :=
  JObject (foldl (emit_column ts row) []
             (match cols with Some cols => cols | None => seq 0 (length (ts_columns ts)) end)).
Definition row_to_json (ts : TableSchema) (row : Row) : json := row_to_json_cols ts row None.

(** [TableSchema::pk_of]. *)
Definition pk_of (ts : TableSchema) (row : Row) : res str Value := Row_get row (ts_pk_index ts).
End rows.

(** [compile_schema]: the first refused table refuses the schema. *)
Fixpoint compile_schema (tables : list (TableRef * TableDef)) (out : gmap TableRef TableSchema)
  : res str (gmap TableRef TableSchema) :=
  match tables with
  | [] => Ok out
  | (table, def) :: rest =>
      if bool_decide (td_columns def = []) then
        Err ($"table '" ++ TableRef_as_str table ++ $"' has no columns")
      else
        ts ← TableSchema_from_def table def;
        compile_schema rest (<[table := ts]> out)
  end.

(* ================================================================== *)
(** * The composite-key encoding is injective *)

Lemma concat_esc_plain s : 92%N ∉ s -> PK_SEP ∉ s -> concat (esc_char <$> s) = s.
Proof.
  induction s as [|c s IH]; csimpl; [done|].
  intros [H1 H1']%not_elem_of_cons [H2 H2']%not_elem_of_cons. rewrite IH by done.
  unfold esc_char. by rewrite (proj2 (N.eqb_neq c 92)), (proj2 (N.eqb_neq c PK_SEP)) by done.
Qed.

(** The shortcut for plain text is only an optimisation. *)
Lemma escape_spec s : escape_key_component s = concat (esc_char <$> s).
Proof.
  unfold escape_key_component. destruct (str_contains 92 s) eqn:E1; simpl; [done|].
  destruct (str_contains PK_SEP s) eqn:E2; simpl; [done|].
  apply str_contains_false in E1, E2. by rewrite concat_esc_plain.
Qed.

Lemma esc_char_app_inj c d a b :
  esc_char c ++ a = esc_char d ++ b -> c = d /\ a = b.
Proof.
  unfold esc_char.
  destruct (N.eqb_spec c 92), (N.eqb_spec c PK_SEP), (N.eqb_spec d 92), (N.eqb_spec d PK_SEP);
    subst; simpl; intros [=]; subst; done.
Qed.

Lemma escape_inj a b : escape_key_component a = escape_key_component b -> a = b.
Proof.
  rewrite !escape_spec. revert b; induction a as [|c a IH]; intros [|d b]; csimpl; try done.
  - unfold esc_char. by repeat case_match.
  - unfold esc_char. by repeat case_match.
  - intros [-> H]%esc_char_app_inj. f_equal. auto.
Qed.

Lemma escape_no_sep s : PK_SEP ∉ escape_key_component s.
Proof.
  rewrite escape_spec. induction s as [|c s IH]; csimpl; [apply not_elem_of_nil|].
  rewrite elem_of_app. intros [H|H]; [|done]. unfold esc_char in H.
  destruct (N.eqb_spec c 92); [|destruct (N.eqb_spec c PK_SEP)];
    repeat (apply elem_of_cons in H as [H|H]; try done); try (by apply not_elem_of_nil in H).
Qed.

(** Distinct non-empty component lists never spell the same composite key. *)
Lemma join_key_components_inj a b :
  a <> [] -> b <> [] -> join_key_components a = join_key_components b -> a = b.
Proof.
  intros Ha Hb H. apply (f_equal (split_on PK_SEP)) in H. unfold join_key_components in H.
  rewrite !split_on_join in H; try (by destruct a); try (by destruct b);
    try (apply Forall_fmap, Forall_true; intros; apply escape_no_sep).
  clear Ha Hb. revert b H.
  induction a as [|x a IH]; intros [|y b]; simpl; try done.
  intros [= H1%escape_inj H2]. f_equal; auto.
Qed.

Section key_lemmas.
Context {FT : FloatText}.

(** The primary-key cells of a row, as [key_string] reads them. *)
Definition pk_cells (ts : TableSchema) (row : Row) : list Value := cell row <$> ts_pk_cols ts.

(** A row whose key columns are present, non-null and of their columns' types: what a
    [NOT NULL] primary key guarantees. *)
Definition pk_typed (ts : TableSchema) (row : Row) : Prop :=
  Forall (λ i, exists v ty, row !! i = Some v /\ column_type ts i = Some ty /\
                            value_has_type v ty /\ v <> VNull) (ts_pk_cols ts).

Lemma to_key_string_inj v w ty :
  value_has_type v ty -> value_has_type w ty -> v <> VNull -> w <> VNull ->
  to_key_string v = to_key_string w -> v = w.
Proof.
  intros Hv Hw Hv0 Hw0 H.
  pose proof (from_key_string_spec v ty Hv Hv0) as H1.
  rewrite H, (from_key_string_spec w ty Hw Hw0) in H1. congruence.
Qed.

Lemma key_parts_ok row cols :
  Forall (λ i, is_Some (row !! i)) cols ->
  try_map (λ i, v ← Row_get row i; Ok (to_key_string v)) cols
    = Ok (to_key_string ∘ cell row <$> cols).
Proof.
  intros H. apply try_map_ok. induction H as [|i cols [v Hv] _ IH]; simpl; constructor; [|done].
  rewrite (proj2 (Row_get_ok row i v)) by done. simpl. unfold cell. by rewrite Hv.
Qed.

(** [key_string] on a row whose key columns are there. *)
Lemma key_string_cells ts row :
  Forall (λ i, is_Some (row !! i)) (ts_pk_cols ts) ->
  key_string ts row = Ok (match pk_cells ts row with
                          | [v] => to_key_string v
                          | vs => join_key_components (to_key_string <$> vs)
                          end).
Proof.
  intros H. unfold key_string, pk_cells. destruct (ts_pk_cols ts) as [|i [|j cols]].
  - done.
  - apply Forall_cons in H as [[v Hv] _]. simpl.
    rewrite (proj2 (Row_get_ok row i v)) by done. simpl. unfold cell. by rewrite Hv.
  - rewrite key_parts_ok by done. simpl. by rewrite list_fmap_compose.
Qed.

Lemma pk_typed_present ts row :
  pk_typed ts row -> Forall (λ i, is_Some (row !! i)) (ts_pk_cols ts).
Proof. intros Hp. eapply Forall_impl; [exact Hp|]. naive_solver. Qed.

Lemma pk_cells_inj ts r1 r2 cols :
  Forall (λ i, exists v ty, r1 !! i = Some v /\ column_type ts i = Some ty /\
                            value_has_type v ty /\ v <> VNull) cols ->
  Forall (λ i, exists v ty, r2 !! i = Some v /\ column_type ts i = Some ty /\
                            value_has_type v ty /\ v <> VNull) cols ->
  to_key_string ∘ cell r1 <$> cols = to_key_string ∘ cell r2 <$> cols ->
  cell r1 <$> cols = cell r2 <$> cols.
Proof.
  induction cols as [|i cols IH]; [done|].
  intros [(v & ty & Hv & Hty & Hvt & Hv0) H1]%Forall_cons
         [(w & ty' & Hw & Hty' & Hwt & Hw0) H2]%Forall_cons.
  rewrite Hty in Hty'. injection Hty' as <-. simpl. intros [= Hk Hr].
  unfold cell in Hk |- * at 1 3. rewrite Hv, Hw in *. simpl in *.
  f_equal; [by eapply to_key_string_inj | by apply IH].
Qed.

(** event keys identify rows: two rows with non-null primary-key cells of their columns' types
    have the same key string only if they have the same primary key, composite keys included. *)
Theorem key_string_inj ts r1 r2 k :
  pk_typed ts r1 -> pk_typed ts r2 ->
  key_string ts r1 = Ok k -> key_string ts r2 = Ok k -> pk_cells ts r1 = pk_cells ts r2.
Proof.
  intros H1 H2. rewrite !key_string_cells by (by apply pk_typed_present).
  intros Hk1 Hk2. rewrite <- Hk1 in Hk2. clear Hk1. apply (inj Ok) in Hk2.
  apply (pk_cells_inj ts r1 r2); [exact H1|exact H2|].
  rewrite !list_fmap_compose. unfold pk_cells in Hk2.
  destruct (ts_pk_cols ts) as [|i [|j cols]]; [done|simpl in *; by f_equal|].
  simpl in Hk2. apply join_key_components_inj in Hk2; done.
Qed.
End key_lemmas.

(* ================================================================== *)
(** * The row codec *)

Section codec.
Context {FT : FloatText}.

(** A row of the schema's width whose cells have their columns' types. *)
Definition row_typed (ts : TableSchema) (row : Row) : Prop :=
  Forall2 (λ v c, value_has_type v c.2) row (ts_columns ts).

Lemma emit_column_sorted ts row m i :
  bt_sorted str_cmp m -> bt_sorted str_cmp (emit_column ts row m i).
Proof.
  intros Hm. unfold emit_column. destruct (ts_columns ts !! i) as [[c ty]|]; [|done].
  apply bt_insert_sorted; [apply _|done].
Qed.

Lemma emit_columns_sorted ts row js : forall m,
  bt_sorted str_cmp m -> bt_sorted str_cmp (foldl (emit_column ts row) m js).
Proof. induction js as [|i js IH]; simpl; auto using emit_column_sorted. Qed.

Lemma emit_columns_get ts row js : forall m i c ty,
  NoDup (ts_columns ts).*1 -> bt_sorted str_cmp m -> ts_columns ts !! i = Some (c, ty) ->
  obj_get c (foldl (emit_column ts row) m js) =
  if decide (i ∈ js) then Some (to_json (cell row i)) else obj_get c m.
Proof.
  induction js as [|j js IH]; intros m i c ty Hnd Hm Hi; [done|]. simpl.
  rewrite (IH _ i c ty) by auto using emit_column_sorted. unfold obj_get, emit_column.
  destruct (decide (i ∈ js)) as [Hin|Hin].
  { rewrite decide_True; [done|by right]. }
  destruct (decide (i = j)) as [<-|Hij].
  - rewrite Hi, decide_True by (by left). unfold obj_insert.
    by rewrite bt_lookup_insert, str_cmp_refl by (done || apply _).
  - rewrite decide_False by (by apply not_elem_of_cons).
    destruct (ts_columns ts !! j) as [[d ty']|] eqn:Hj; [|done]. unfold obj_insert.
    rewrite bt_lookup_insert by (done || apply _).
    destruct (str_cmp c d) eqn:Hcd; try done. apply str_cmp_eq in Hcd as <-.
    exfalso. apply Hij. eapply (NoDup_lookup (ts_columns ts).*1); [done|..];
      rewrite list_lookup_fmap; by rewrite ?Hi, ?Hj.
Qed.

(** a row written as JSON is read back: for a typed row, [row_to_json] is an object from which
    [row_from_json] returns the row. *)
Theorem row_from_json_to_json ts row :
  NoDup (ts_columns ts).*1 -> row_typed ts row ->
  exists m, row_to_json ts row = JObject m /\ row_from_json ts m = Ok row.
Proof.
  intros Hnd Hrow. eexists. split; [reflexivity|]. unfold row_from_json.
  apply try_map_ok, Forall2_same_length_lookup_2.
  { symmetry. by eapply Forall2_length. }
  intros i [c ty] v Hc Hv.
  rewrite (emit_columns_get _ _ _ _ i c ty) by (done || constructor).
  rewrite decide_True by (apply elem_of_seq; apply lookup_lt_Some in Hc; lia).
  unfold cell. rewrite Hv. simpl. apply from_json_to_json_spec.
  by eapply (Forall2_lookup_lr _ _ _ i v (c, ty)) in Hrow.
Qed.
End codec.

(* ================================================================== *)
(** * Drift *)

Lemma by_name_sorted_aux cols : forall m,
  bt_sorted str_cmp m ->
  bt_sorted str_cmp (foldl (λ m c, bt_insert str_cmp (fc_name c) c m) m cols).
Proof.
  induction cols as [|c cols IH]; intros m Hm; simpl; [done|].
  apply IH, bt_insert_sorted; [apply _|done].
Qed.

Lemma by_name_lookup_aux cols : forall m n,
  bt_sorted str_cmp m -> NoDup (fc_name <$> cols) ->
  bt_lookup str_cmp n (foldl (λ m c, bt_insert str_cmp (fc_name c) c m) m cols) =
  match list_find (λ c, fc_name c = n) cols with
  | Some (_, c) => Some c
  | None => bt_lookup str_cmp n m
  end.
Proof.
  induction cols as [|c cols IH]; intros m n Hm Hnd; simpl; [done|].
  apply NoDup_cons in Hnd as [Hc Hnd].
  rewrite IH; [|by apply bt_insert_sorted; [apply _|]|done].
  rewrite bt_lookup_insert by (done || apply _).
  destruct (decide (fc_name c = n)) as [<-|Hne].
  - rewrite str_cmp_refl.
    destruct (list_find (λ c0, fc_name c0 = fc_name c) cols) as [[j c']|] eqn:E; [|done].
    simpl. exfalso. apply list_find_Some in E as (Hj & Hn & _). apply Hc.
    rewrite <- Hn. apply list_elem_of_fmap. exists c'. split; [done|].
    by eapply list_elem_of_lookup_2.
  - destruct (list_find _ cols) as [[j c']|]; simpl; [done|].
    destruct (str_cmp n (fc_name c)) eqn:E; try done. by apply str_cmp_eq in E.
Qed.

(** The columns by name, when names are unique. *)
Lemma by_name_lookup cols n c :
  NoDup (fc_name <$> cols) ->
  bt_lookup str_cmp n (by_name cols) = Some c <-> c ∈ cols /\ fc_name c = n.
Proof.
  intros Hnd. unfold by_name. rewrite by_name_lookup_aux by (done || constructor). split.
  - destruct (list_find _ cols) as [[j c']|] eqn:E; [|done]. intros [= ->].
    apply list_find_Some in E as (Hj & Hn & _). split; [by eapply list_elem_of_lookup_2|done].
  - intros [Hc Hn]. destruct (list_find _ cols) as [[j c']|] eqn:E.
    + apply list_find_Some in E as (Hj & Hn' & _). f_equal.
      apply list_elem_of_lookup in Hc as [i Hi].
      assert (i = j) as ->; [|congruence].
      eapply (NoDup_lookup (fc_name <$> cols)); [done|..]; rewrite list_lookup_fmap.
      * by rewrite Hi.
      * rewrite Hj. simpl. congruence.
    + exfalso. eapply list_find_None in E. rewrite Forall_forall in E. by eapply E.
Qed.

Lemma by_name_elem cols n c :
  NoDup (fc_name <$> cols) -> (n, c) ∈ by_name cols <-> c ∈ cols /\ fc_name c = n.
Proof.
  intros Hnd. rewrite <- by_name_lookup by done. unfold by_name.
  rewrite (bt_lookup_elem str_cmp) by (apply by_name_sorted_aux; constructor). split.
  - intros H. exists n. by rewrite str_cmp_refl.
  - intros (k & Hk & ->%str_cmp_eq). done.
Qed.

Lemma omap_nil {A B} (f : A -> option B) l : omap f l = [] <-> forall x, x ∈ l -> f x = None.
Proof.
  induction l as [|x l IH]; csimpl.
  - split; [by intros _ ? ?%not_elem_of_nil | done].
  - setoid_rewrite elem_of_cons. destruct (f x) eqn:E; naive_solver.
Qed.

Lemma fmap_filter_nil {A B} (f : A -> B) (P : A -> Prop) `{!forall x, Decision (P x)} l :
  f <$> filter P l = [] <-> forall x, x ∈ l -> ¬ P x.
Proof.
  induction l as [|x l IH]; csimpl.
  - split; [by intros _ ? ?%not_elem_of_nil | done].
  - setoid_rewrite elem_of_cons. rewrite filter_cons. case_decide; csimpl; naive_solver.
Qed.

Section drift.
Context (compiled observed : SchemaFingerprint).
Context (Hc : NoDup (column_names compiled)) (Ho : NoDup (column_names observed)).

Lemma has_name_spec cols n :
  NoDup (fc_name <$> cols) -> has_name n (by_name cols) = true <-> n ∈ fc_name <$> cols.
Proof.
  intros Hnd. unfold has_name. rewrite bool_decide_eq_true, list_elem_of_fmap. split.
  - intros [c (Hin & Hn)%by_name_lookup]; [|done]. eauto.
  - intros (c & -> & Hin). exists c. by apply by_name_lookup.
Qed.

Lemma by_name_keys cols n : NoDup (fc_name <$> cols) -> n ∈ (by_name cols).*1 <-> n ∈ fc_name <$> cols.
Proof.
  intros Hnd. rewrite !list_elem_of_fmap. split.
  - intros ([n' c] & -> & [Hin Hn]%by_name_elem); [|done]. simpl. eauto.
  - intros (c & -> & Hin). exists (fc_name c, c). split; [done|]. by apply by_name_elem.
Qed.

(** Equal name sequences and equal types by name are equal columns. *)
Lemma same_columns :
  column_names compiled = column_names observed ->
  (forall o c, o ∈ fp_columns compiled -> c ∈ fp_columns observed -> fc_name o = fc_name c ->
               fc_type_oid o = fc_type_oid c /\ fc_typmod o = fc_typmod c) ->
  fp_columns compiled = fp_columns observed.
Proof.
  intros Hn Ht. apply list_eq_same_length with (length (fp_columns compiled)); [|done|].
  { apply (f_equal length) in Hn. unfold column_names in Hn. by rewrite !length_fmap in Hn. }
  intros i o c _ Hoi Hci. apply (f_equal (lookup i)) in Hn. unfold column_names in Hn.
  rewrite !list_lookup_fmap, Hoi, Hci in Hn. simpl in Hn. injection Hn as Hn.
  destruct (Ht o c) as [? ?]; [by eapply list_elem_of_lookup_2..|done|].
  destruct o, c; simpl in *; congruence.
Qed.
End drift.

Lemma retyped_false (o c : FingerprintColumn) :
  negb (fc_type_oid o =? fc_type_oid c) || negb (fc_typmod o =? fc_typmod c) = false <->
  fc_type_oid o = fc_type_oid c /\ fc_typmod o = fc_typmod c.
Proof. rewrite orb_false_iff, !negb_false_iff, !Z.eqb_eq. done. Qed.

Lemma drift_pk_nil compiled observed :
  drift_pk compiled observed = [] <-> pk_matches compiled observed = true.
Proof.
  unfold drift_pk, pk_matches. destruct (fp_pk compiled), (fp_pk observed); try done.
  by case_bool_decide.
Qed.

Lemma drift_identity_nil observed :
  drift_identity observed = [] <-> fp_replident observed = REPLICA_IDENTITY_FULL.
Proof. unfold drift_identity. case_match; bool_prop; naive_solver. Qed.

Lemma drift_columns_nil compiled observed :
  NoDup (column_names compiled) -> NoDup (column_names observed) ->
  let old := by_name (fp_columns compiled) in
  let new := by_name (fp_columns observed) in
  fp_columns compiled = fp_columns observed <->
  (drift_added old new = [] /\ drift_dropped old new = [] /\ drift_retyped old new = []) /\
  column_names compiled = column_names observed.
Proof.
  intros Hc Ho. unfold drift_added, drift_dropped, drift_retyped. cbv zeta.
  rewrite !fmap_filter_nil, omap_nil. setoid_rewrite not_false_iff_true. split.
  - intros Heq. unfold column_names in *. rewrite <- Heq in *. split; [|done]. split_and!.
    + intros n Hn. apply has_name_spec; [done|]. by apply by_name_keys.
    + intros n Hn. apply has_name_spec; [done|]. by apply by_name_keys.
    + intros [n c] Hin. apply by_name_elem in Hin; [|done].
      rewrite (proj2 (by_name_lookup _ n c Hc)) by done. simpl. by rewrite !Z.eqb_refl.
  - intros [(_ & _ & Hty) Hn]. apply same_columns; [done|].
    intros o c Hoi Hci Hname.
    specialize (Hty (fc_name c, c) (proj2 (by_name_elem _ _ c Ho) (conj Hci eq_refl))).
    simpl in Hty. rewrite (proj2 (by_name_lookup _ (fc_name c) o Hc)) in Hty by done.
    simpl in Hty. apply retyped_false. by destruct (_ || _).
Qed.

(** a schema keeps serving exactly when no drift is described: [still_serves] and [describe_drift]
    agree on every pair of fingerprints whose columns have distinct names. *)
Theorem still_serves_iff_no_drift compiled observed :
  NoDup (column_names compiled) -> NoDup (column_names observed) ->
  still_serves compiled observed = true <-> describe_drift compiled observed = [].
Proof.
  intros Hc Ho. unfold still_serves, describe_drift. cbv zeta.
  rewrite !andb_true_iff, bool_decide_eq_true, Z.eqb_eq,
    (drift_columns_nil compiled observed Hc Ho), <- drift_identity_nil, <- drift_pk_nil.
  cbv zeta. split.
  - intros [[[(-> & -> & ->) Hn] ->] ->]. simpl. by case_bool_decide.
  - intros [Hout [Hre [Hpk Hid]%app_nil]%app_nil]%app_nil.
    rewrite Hout in Hre. apply app_nil in Hout as [H1 [H2 H3]%app_nil].
    split_and!; try done. simpl in Hre. by case_bool_decide.
Qed.
