(* ===== verification/Predicate.v ===== *)
(** * Predicates ([src/apps/engine/src/predicate.rs], [fault.rs])

    The predicate AST of the control plane, its canonical signature, the template factoring of
    subqueries, the compiled positional predicate with its three-valued evaluation, and the two
    extractions the routing tiers rest on: [equality_template] and [access_leaf].

    What is outside the repository is an interface: the JSON text of a literal
    ([SerdeJson.json_to_string], serde_json), the text of doubles ([FloatText]).  The subquery
    registry is seen through the source's own two traits, [SubqueryCollector] and
    [SubqueryEval]; the process-wide test fault through [FaultEnv]. *)

From S2P Require Import Prelude BTree Value TableRef Schema.
From stdpp Require Import base option numbers strings gmap fin_maps sorting list.
#[local] Open Scope Z_scope.

(* ------------------------------------------------------------------ *)
(** ** Test faults *)

Inductive Fault : Type := FaultNone | DropDeletes | OffByOneCmp.

(** [fault::detect], from the value of [ELECTRIC_CIRCUITS_FAULT]. *)
Definition fault_detect (var : option str) : Fault :=
  match var with
  | Some v => if decide (v = $"drop_deletes") then DropDeletes
              else if decide (v = $"off_by_one_cmp") then OffByOneCmp else FaultNone
  | None => FaultNone
  end.

(** [fault::active]: read once, then constant for the process. *)
Class FaultEnv := fault_active : Fault.

(** serde_json's compact text of a value. *)
Class SerdeJson := json_to_string : json -> str.

(* ------------------------------------------------------------------ *)
(** ** The AST *)

Inductive LeafOp : Type := OpEq | OpNeq | OpLt | OpLte | OpGt | OpGte | OpLike.

#[export] Instance LeafOp_eq_dec : EqDecision LeafOp.
Proof. solve_decision. Defined.

(** [Debug for LeafOp]. *)
Definition LeafOp_debug (op : LeafOp) : str :=
  match op with
  | OpEq => $"Eq" | OpNeq => $"Neq" | OpLt => $"Lt" | OpLte => $"Lte"
  | OpGt => $"Gt" | OpGte => $"Gte" | OpLike => $"Like"
  end.

Inductive PredicateJson : Type :=
  | PLeaf (col : str) (op : LeafOp) (value : json)
  | PIsNull (col : str) (is_null : bool)
  | PAnd (ps : list PredicateJson)
  | POr (ps : list PredicateJson)
  | PNot (p : PredicateJson)
  | PIn (col : str) (subquery : SubqueryJson) (negated : bool)
with SubqueryJson : Type :=
  | mkSubquery (table : TableRef) (project : str) (where_ : option PredicateJson).

Definition sq_table (s : SubqueryJson) : TableRef := let 'mkSubquery t _ _ := s in t.
Definition sq_project (s : SubqueryJson) : str := let 'mkSubquery _ p _ := s in p.
Definition sq_where (s : SubqueryJson) : option PredicateJson := let 'mkSubquery _ _ w := s in w.

Definition bool_str (b : bool) : str := if b then $"true" else $"false".

(** [subquery_sig], given the canonical form of the inner predicate. *)
Definition sig_text (table : TableRef) (project w : str) : str :=
  TableRef_as_str table ++ $"|" ++ project ++ $"|" ++ w.

Section canonical.
Context {SJ : SerdeJson}.

(** [canonical_pred]. *)
Fixpoint canonical_pred (p : PredicateJson) : str :=
  match p with
  | PLeaf col op value =>
      $"L(" ++ col ++ $"," ++ LeafOp_debug op ++ $"," ++ json_to_string value ++ $")"
  | PIsNull col b => $"U(" ++ col ++ $"," ++ bool_str b ++ $")"
  | PAnd ps => $"A(" ++ str_join $"," (stable_sort str_leb (map canonical_pred ps)) ++ $")"
  | POr ps => $"O(" ++ str_join $"," (stable_sort str_leb (map canonical_pred ps)) ++ $")"
  | PNot q => $"N(" ++ canonical_pred q ++ $")"
  | PIn col (mkSubquery table project w) negated =>
      $"I(" ++ col ++ $"," ++ bool_str negated ++ $"," ++
      sig_text table project (match w with Some q => canonical_pred q | None => [] end) ++ $")"
  end.

(** [subquery_sig]. *)
Definition subquery_sig (table : TableRef) (project : str) (w : option PredicateJson) : str :=
  sig_text table project (match w with Some q => canonical_pred q | None => [] end).

(** The inner [conjuncts] of [subquery_template]: flatten top-level conjunctions. *)
Fixpoint conjuncts (p : PredicateJson) : list PredicateJson :=
  match p with
  | PAnd ps => concat (map conjuncts ps)
  | other => [other]
  end.

(** Its lifting loop: the first non-null equality per column, in visiting order. *)
Fixpoint lift_conjuncts (flat : list PredicateJson) (lifted : list (str * json))
    (residual : list PredicateJson) : list (str * json) * list PredicateJson :=
  match flat with
  | [] => (lifted, residual)
  | p :: flat' =>
      match p with
      | PLeaf col OpEq value =>
          if negb (is_null value) && negb (existsb (λ l, bool_decide (l.1 = col)) lifted)
          then lift_conjuncts flat' (lifted ++ [(col, value)]) residual
          else lift_conjuncts flat' lifted (residual ++ [p])
      | _ => lift_conjuncts flat' lifted (residual ++ [p])
      end
  end.

(** [subquery_template]: the template key, the bind and the residual. *)
Definition subquery_template (table : TableRef) (project : str) (w : option PredicateJson)
  : str * list (str * json) * list PredicateJson :=
  let '(lifted, residual) :=
    match w with
    | Some w => lift_conjuncts
                  (stable_sort (λ p q, str_leb (canonical_pred p) (canonical_pred q))
                               (conjuncts w)) [] []
    | None => ([], [])
    end in
  let lifted := stable_sort (λ a b, str_leb a.1 b.1) lifted in
  let res_canon := stable_sort str_leb (map canonical_pred residual) in
  let cols := str_join $"," lifted.*1 in
  let key := TableRef_as_str table ++ $"|" ++ project ++ $"|P(" ++ cols ++ $")|A(" ++
             str_join $"," res_canon ++ $")" in
  (key, lifted, residual).
End canonical.

(* ------------------------------------------------------------------ *)
(** ** Compiled predicates *)

Inductive CompiledPredicate : Type :=
  | MatchAll
  | Cmp (col : nat) (op : LeafOp) (value : Value)
  | CIsNull (col : nat) (is_null : bool)
  | CAnd (ps : list CompiledPredicate)
  | COr (ps : list CompiledPredicate)
  | CNot (p : CompiledPredicate)
  | InSubquery (col : nat) (sig : str) (negated : bool).

(** The trait [SubqueryCollector]: a mutable collector, so its state is threaded. *)
Class SubqueryCollector (S : Type) :=
  collect : S -> TableRef -> str -> option PredicateJson -> S * res str str.

(** [NoSubqueries]. *)
#[export] Instance NoSubqueries : SubqueryCollector unit :=
  λ s _ _ _, (s, Err $"subqueries are not supported here").

Section compile.
Context {FT : FloatText} {S : Type} {C : SubqueryCollector S}.

(** [CompiledPredicate::compile_with]; the children are compiled in order and the first error
    stops, the collector keeping what it recorded until then. *)
Fixpoint compile_with (p : PredicateJson) (ts : TableSchema) (s : S)
  : S * res str CompiledPredicate :=
  let compile_list := fix go (ps : list PredicateJson) (s : S)
      : S * res str (list CompiledPredicate) :=
    match ps with
    | [] => (s, Ok [])
    | q :: qs =>
        match compile_with q ts s with
        | (s, Err e) => (s, Err e)
        | (s, Ok c) => match go qs s with
                       | (s, Err e) => (s, Err e)
                       | (s, Ok cs) => (s, Ok (c :: cs))
                       end
        end
    end in
  match p with
  | PLeaf col op value =>
      (s, idx ← column_index ts col;
          ty ← ok_or $"column index out of range" (column_type ts idx);
          v ← literal_from_json value ty;
          Ok (Cmp idx op v))
  | PIsNull col b => (s, idx ← column_index ts col; Ok (CIsNull idx b))
  | PAnd ps => let '(s, r) := compile_list ps s in (s, CAnd <$> r)
  | POr ps => let '(s, r) := compile_list ps s in (s, COr <$> r)
  | PNot q => let '(s, r) := compile_with q ts s in (s, CNot <$> r)
  | PIn col (mkSubquery table project w) negated =>
      match column_index ts col with
      | Err e => (s, Err e)
      | Ok idx => let '(s, r) := collect s table project w in
                  (s, (λ sig, InSubquery idx sig negated) <$> r)
      end
  end.

(** [CompiledPredicate::compile_opt_with]. *)
Definition compile_opt_with (p : option PredicateJson) (ts : TableSchema) (s : S)
  : S * res str CompiledPredicate :=
  match p with Some p => compile_with p ts s | None => (s, Ok MatchAll) end.
End compile.

(** [CompiledPredicate::compile], [compile_opt]. *)
Definition compile `{FloatText} (p : PredicateJson) (ts : TableSchema)
  : res str CompiledPredicate := (compile_with p ts tt).2.
Definition compile_opt `{FloatText} (p : option PredicateJson) (ts : TableSchema)
  : res str CompiledPredicate :=
  match p with Some p => compile p ts | None => Ok MatchAll end.

(** ** Necessary conjuncts *)

Inductive AccessLeaf : Type :=
  | LEq (col : nat) (value : Value)
  | LLower (col : nat) (value : Value) (strict : bool)
  | LUpper (col : nat) (value : Value) (strict : bool).

(** The inner [collect] of [equality_template]: false as soon as a conjunct does not qualify. *)
Fixpoint collect_equalities (p : CompiledPredicate) (acc : list (nat * Value))
  : bool * list (nat * Value) :=
  match p with
  | Cmp col OpEq value =>
      if value_is_null value then (false, acc) else (true, acc ++ [(col, value)])
  | CAnd ps =>
      (fix all (ps : list CompiledPredicate) (acc : list (nat * Value)) :=
         match ps with
         | [] => (true, acc)
         | q :: qs => match collect_equalities q acc with
                      | (true, acc) => all qs acc
                      | (false, acc) => (false, acc)
                      end
         end) ps acc
  | _ => (false, acc)
  end.

(** [windows(2).any(|w| w[0].0 == w[1].0)]. *)
Fixpoint adjacent_dup (l : list (nat * Value)) : bool :=
  match l with
  | a :: (b :: _) as l' => bool_decide (a.1 = b.1) || adjacent_dup l'
  | _ => false
  end.

(** [CompiledPredicate::equality_template]. *)
Definition equality_template (p : CompiledPredicate) : option (list (nat * Value)) :=
  let '(ok, acc) := collect_equalities p [] in
  if negb ok || bool_decide (acc = []) then None
  else let acc := stable_sort (λ a b, Nat.leb a.1 b.1) acc in
       if adjacent_dup acc then None else Some acc.

(** The inner [leaf_of] and [collect] of [access_leaf]. *)
Definition leaf_of (p : CompiledPredicate) : option AccessLeaf :=
  match p with
  | Cmp col op value =>
      if value_is_null value then None
      else match op with
           | OpEq => Some (LEq col value)
           | OpGt => Some (LLower col value true)
           | OpGte => Some (LLower col value false)
           | OpLt => Some (LUpper col value true)
           | OpLte => Some (LUpper col value false)
           | OpNeq | OpLike => None
           end
  | _ => None
  end.

Definition leaf_better (best : option AccessLeaf) (l : AccessLeaf) : bool :=
  match best, l with
  | None, _ => true
  | Some (LEq _ _), _ => false
  | Some _, LEq _ _ => true
  | _, _ => false
  end.

Fixpoint collect_leaf (p : CompiledPredicate) (best : option AccessLeaf) : option AccessLeaf :=
  match p with
  | CAnd ps =>
      (fix go (ps : list CompiledPredicate) (best : option AccessLeaf) :=
         match ps with
         | [] => best
         | q :: qs => go qs (collect_leaf q best)
         end) ps best
  | _ => match leaf_of p with
         | Some l => if leaf_better best l then Some l else best
         | None => best
         end
  end.

(** [CompiledPredicate::access_leaf]. *)
Definition access_leaf (p : CompiledPredicate) : option AccessLeaf := collect_leaf p None.

(* ------------------------------------------------------------------ *)
(** ** Three-valued evaluation *)

Inductive Tri : Type := TTrue | TFalse | TUnknown.

#[export] Instance Tri_eq_dec : EqDecision Tri.
Proof. solve_decision. Defined.

Definition Tri_from_bool (b : bool) : Tri := if b then TTrue else TFalse.
Definition Tri_not (t : Tri) : Tri :=
  match t with TTrue => TFalse | TFalse => TTrue | TUnknown => TUnknown end.

(** The trailing loop of [like_match]: [while pi < p.len() && p[pi] == '%'] on the rest of the
    pattern; 37 is the percent sign. *)
Fixpoint skip_percents (p : str) : str :=
  match p with
  | c :: p' => if (c =? 37)%N then skip_percents p' else p
  | [] => []
  end.

(** The main loop of [like_match].  [ti]/[pi] index the text and the pattern; [star] is the last
    percent sign passed and [star_t] where its run currently ends.  95 is the underscore.  [None]
    is running out of fuel. *)
Fixpoint like_loop (fuel : nat) (t p : str) (ti pi : nat) (star : option nat) (star_t : nat)
  : option bool :=
  match fuel with
  | O => None
  | S fuel =>
      match t !! ti with
      | None => Some (bool_decide (skip_percents (drop pi p) = []))
      | Some tc =>
          if match p !! pi with Some pc => (pc =? 95)%N || (pc =? tc)%N | None => false end
          then like_loop fuel t p (S ti) (S pi) star star_t
          else if match p !! pi with Some pc => (pc =? 37)%N | None => false end
          then like_loop fuel t p ti (S pi) (Some pi) ti
          else match star with
               | Some sp => like_loop fuel t p (S star_t) (S sp) star (S star_t)
               | None => Some false
               end
      end
  end.

(** [like_match]; [like_loop_fuel] shows the fuel is enough, so the default is never used. *)
Definition like_fuel (t p : str) : nat := S ((S (length t)) * (S (S (length p)))).
Definition like_match (t p : str) : bool :=
  default false (like_loop (like_fuel t p) t p 0 0 None 0).

(** [ordering]: only values of one scalar type are ordered. *)
Definition ordering (a b : Value) : option comparison :=
  match a, b with
  | VInt x, VInt y => Some (Z.compare x y)
  | VFloat x, VFloat y => Some (ordered_float_cmp x y)
  | VText x, VText y => Some (str_cmp x y)
  | VBool x, VBool y => Some (bool_cmp x y)
  | _, _ => None
  end.

Definition is_lt (c : comparison) : bool := match c with Lt => true | _ => false end.
Definition is_gt (c : comparison) : bool := match c with Gt => true | _ => false end.
Definition is_le (c : comparison) : bool := negb (is_gt c).
Definition is_ge (c : comparison) : bool := negb (is_lt c).

(** The trait [SubqueryEval]. *)
Class SubqueryEval := {
  ev_contains : str -> Value -> bool;
  ev_has_null : str -> bool
}.

(** [PanicEval].  Its methods panic; [compile] produces no subquery leaf, so on what [matches] is
    used for they are not reached ([eval_no_subquery]) and the answers below are immaterial. *)
Definition PanicEval : SubqueryEval :=
  {| ev_contains := λ _ _, false; ev_has_null := λ _, false |}.

Section eval.
Context {FE : FaultEnv}.

(** [cmp]. *)
Definition cmp_tri (cell : Value) (op : LeafOp) (value : Value) : Tri :=
  if value_is_null cell || value_is_null value then TUnknown
  else
    let ordered f := match ordering cell value with
                     | None => TUnknown
                     | Some ord => Tri_from_bool (f ord)
                     end in
    let off_by_one := match fault_active with OffByOneCmp => true | _ => false end in
    match op with
    | OpEq => Tri_from_bool (value_eqb cell value)
    | OpNeq => Tri_from_bool (negb (value_eqb cell value))
    | OpLike => match cell, value with
                | VText c, VText p => Tri_from_bool (like_match c p)
                | _, _ => TUnknown
                end
    | OpLt => ordered is_lt
    | OpLte => ordered (if off_by_one then is_lt else is_le)
    | OpGt => ordered is_gt
    | OpGte => ordered (if off_by_one then is_gt else is_ge)
    end.

(** [CompiledPredicate::eval_ctx]. *)
Fixpoint eval_ctx (p : CompiledPredicate) (row : Row) (ev : SubqueryEval) : Tri :=
  match p with
  | MatchAll => TTrue
  | Cmp col op value => cmp_tri (cell row col) op value
  | CIsNull col b => Tri_from_bool (Bool.eqb (value_is_null (cell row col)) b)
  | CAnd ps =>
      (fix go (ps : list CompiledPredicate) (acc : Tri) :=
         match ps with
         | [] => acc
         | q :: qs => match eval_ctx q row ev with
                      | TFalse => TFalse
                      | TUnknown => go qs TUnknown
                      | TTrue => go qs acc
                      end
         end) ps TTrue
  | COr ps =>
      (fix go (ps : list CompiledPredicate) (acc : Tri) :=
         match ps with
         | [] => acc
         | q :: qs => match eval_ctx q row ev with
                      | TTrue => TTrue
                      | TUnknown => go qs TUnknown
                      | TFalse => go qs acc
                      end
         end) ps TFalse
  | CNot q => Tri_not (eval_ctx q row ev)
  | InSubquery col sig negated =>
      let c := cell row col in
      if value_is_null c then TUnknown
      else let present := ev_contains sig c in
           if negb negated then Tri_from_bool present
           else if ev_has_null sig then TUnknown
           else Tri_from_bool (negb present)
  end.

(** [matches_ctx], [matches]. *)
Definition matches_ctx (p : CompiledPredicate) (row : Row) (ev : SubqueryEval) : bool :=
  bool_decide (eval_ctx p row ev = TTrue).
Definition matches (p : CompiledPredicate) (row : Row) : bool := matches_ctx p row PanicEval.
End eval.

(* ================================================================== *)
(** * Induction principles *)

Section pred_ind.
Context (P : PredicateJson -> Prop).
Context (HLeaf : forall c o v, P (PLeaf c o v)) (HNull : forall c b, P (PIsNull c b))
        (HAnd : forall ps, Forall P ps -> P (PAnd ps)) (HOr : forall ps, Forall P ps -> P (POr ps))
        (HNot : forall p, P p -> P (PNot p))
        (HIn : forall c t pr w n, (forall q, w = Some q -> P q) -> P (PIn c (mkSubquery t pr w) n)).

Fixpoint PredicateJson_rect' (p : PredicateJson) : P p :=
  let all := fix all (ps : list PredicateJson) : Forall P ps :=
    match ps with
    | [] => List.Forall_nil P
    | q :: qs => List.Forall_cons P q qs (PredicateJson_rect' q) (all qs)
    end in
  match p with
  | PLeaf c o v => HLeaf c o v
  | PIsNull c b => HNull c b
  | PAnd ps => HAnd ps (all ps)
  | POr ps => HOr ps (all ps)
  | PNot q => HNot q (PredicateJson_rect' q)
  | PIn c (mkSubquery t pr w) n =>
      HIn c t pr w n
        (match w as w return forall q, w = Some q -> P q with
         | Some q0 => λ q H, match H in _ = o return match o with Some q => P q | None => True end
                             with eq_refl => PredicateJson_rect' q0 end
         | None => λ q H, match H in _ = o return match o with Some q => P q | None => True end
                          with eq_refl => I end
         end)
  end.
End pred_ind.

Section cpred_ind.
Context (P : CompiledPredicate -> Prop).
Context (HAll : P MatchAll) (HCmp : forall c o v, P (Cmp c o v))
        (HNull : forall c b, P (CIsNull c b))
        (HAnd : forall ps, Forall P ps -> P (CAnd ps)) (HOr : forall ps, Forall P ps -> P (COr ps))
        (HNot : forall p, P p -> P (CNot p)) (HIn : forall c s n, P (InSubquery c s n)).

Fixpoint CompiledPredicate_rect' (p : CompiledPredicate) : P p :=
  let all := fix all (ps : list CompiledPredicate) : Forall P ps :=
    match ps with
    | [] => List.Forall_nil P
    | q :: qs => List.Forall_cons P q qs (CompiledPredicate_rect' q) (all qs)
    end in
  match p with
  | MatchAll => HAll
  | Cmp c o v => HCmp c o v
  | CIsNull c b => HNull c b
  | CAnd ps => HAnd ps (all ps)
  | COr ps => HOr ps (all ps)
  | CNot q => HNot q (CompiledPredicate_rect' q)
  | InSubquery c s n => HIn c s n
  end.
End cpred_ind.
