(* ===== verification/Like.v ===== *)
(** * The LIKE matcher meets its specification

    [like_match] of [predicate.rs] backtracks iteratively to the last percent sign.  Here it is
    shown to terminate within its fuel on every input, and to decide the SQL relation [like] for
    texts that hold no percent sign themselves; a text that does hold one can be refused wrongly
    ([like_match_percent_text]), because the loop tests the pattern character for equality with
    the text before it tests it for being the wildcard. *)

From S2P Require Import Prelude Predicate.
From stdpp Require Import base option numbers strings gmap fin_maps sorting list.
#[local] Open Scope nat_scope.

(** SQL [text LIKE pattern]: [%] any run, [_] any one character, else itself. *)
Inductive like : str -> str -> Prop :=
  | like_nil : like [] []
  | like_one c d t p : d <> 37%N -> (d = 95%N \/ d = c) -> like t p -> like (c :: t) (d :: p)
  | like_skip t p : like t p -> like t (37%N :: p)
  | like_take c t p : like t (37%N :: p) -> like (c :: t) (37%N :: p).

(** One text character against one pattern character other than the wildcard. *)
Definition lit_match (c d : char) : Prop := d <> 37%N /\ (d = 95%N \/ d = c).

Lemma like_suffix k t p : like (drop k t) p -> like t (37%N :: p).
Proof.
  revert t; induction k as [|k IH]; intros t H; [by constructor|].
  destruct t as [|c t]; [by constructor|]. apply like_take, IH, H.
Qed.

Lemma like_percent_inv t p : like t (37%N :: p) -> exists k, k <= length t /\ like (drop k t) p.
Proof.
  remember (37%N :: p) as q eqn:Hq. induction 1; try discriminate Hq; injection Hq; intros; subst.
  - done.
  - exists 0. split; [lia|done].
  - destruct IHlike as (k & ? & ?); [done|]. exists (S k). simpl. split; [lia|done].
Qed.

Lemma like_seg ts seg t p :
  Forall2 lit_match ts seg -> like (ts ++ t) (seg ++ p) <-> like t p.
Proof.
  induction 1 as [|c d ts seg [Hd Hm] _ IH]; [done|]. simpl. split.
  - intros H. inversion H; subst; [by apply IH | done..].
  - intros H. apply like_one; [done..|]. by apply IH.
Qed.

Lemma like_seg_inv ts seg : Forall2 lit_match ts seg -> forall t p,
  like t (seg ++ p) -> exists ts' t', t = ts' ++ t' /\ length ts' = length seg /\ like t' p.
Proof.
  induction 1 as [|c d ts seg [Hd Hm] _ IH]; intros t p H; [by exists [], t|].
  simpl in H. inversion H; subst; try done.
  destruct (IH t0 p) as (ts' & t' & -> & Hl & Hp); [done|].
  exists (c0 :: ts'), t'. simpl. auto.
Qed.

Lemma like_only_percents p : like [] p <-> skip_percents p = [].
Proof.
  induction p as [|d p IH]; simpl.
  - split; [done | constructor].
  - destruct (N.eqb_spec d 37) as [->|Hd].
    + rewrite <- IH. split; [intros H; by inversion H; subst | by constructor].
    + split; [|done]. intros H. by inversion H.
Qed.

Lemma like_nil_pattern t : like t [] -> t = [].
Proof. by inversion 1. Qed.

(** What the loop knows about the last wildcard: since it, the segments [ts] of the text and
    [seg] of the pattern have matched one to one, and matching the whole is matching the rest
    of the pattern after the wildcard against some later suffix. *)
Definition loop_inv (t p : str) (ti pi : nat) (star : option nat) (star_t : nat) : Prop :=
  ti <= length t /\
  match star with
  | None => like t p <-> like (drop ti t) (drop pi p)
  | Some sp =>
      star_t <= ti /\
      exists ts seg,
        drop (S sp) p = seg ++ drop pi p /\ drop star_t t = ts ++ drop ti t /\
        Forall2 lit_match ts seg /\
        (like t p <-> exists k, star_t <= k <= length t /\ like (drop k t) (drop (S sp) p))
  end.

Lemma drop_lookup {A} (l : list A) i x : l !! i = Some x -> drop i l = x :: drop (S i) l.
Proof. intros. by apply drop_S. Qed.

Lemma drop_lookup_None {A} (l : list A) i : l !! i = None -> drop i l = [].
Proof. intros. apply drop_ge. by apply lookup_ge_None. Qed.

Section loop.
Context (t p : str) (Hno : 37%N ∉ t).

Lemma lit_of ti tc pc :
  t !! ti = Some tc -> ((pc =? 95)%N || (pc =? tc)%N) = true -> lit_match tc pc.
Proof.
  intros Ht H. apply orb_true_iff in H. split.
  - intros ->. destruct H as [?|H]; [done|]. apply N.eqb_eq in H as <-.
    apply Hno. by eapply list_elem_of_lookup_2.
  - destruct H as [H|H]; apply N.eqb_eq in H; auto.
Qed.

(** Both characters match: advance. *)
Lemma inv_advance ti pi star star_t tc pc :
  loop_inv t p ti pi star star_t -> t !! ti = Some tc -> p !! pi = Some pc ->
  ((pc =? 95)%N || (pc =? tc)%N) = true -> loop_inv t p (S ti) (S pi) star star_t.
Proof.
  intros [Hti Hinv] Ht Hp Hm. pose proof (lit_of ti _ _ Ht Hm) as Hlit.
  split; [by apply lookup_lt_Some in Ht|].
  rewrite (drop_lookup t ti tc), (drop_lookup p pi pc) in Hinv by done.
  destruct star as [sp|].
  - destruct Hinv as (Hst & ts & seg & Hs & Ht' & Hf & Hlike). split; [lia|].
    exists (ts ++ [tc]), (seg ++ [pc]). rewrite <- !(assoc_L (++)). split_and!; try done.
    apply Forall2_app; [done|]. constructor; [exact Hlit|constructor].
  - rewrite Hinv. apply (like_seg [tc] [pc]). constructor; [exact Hlit|constructor].
Qed.

(** A wildcard: it becomes the one to backtrack to. *)
Lemma inv_star ti pi star star_t tc :
  loop_inv t p ti pi star star_t -> t !! ti = Some tc -> p !! pi = Some 37%N ->
  loop_inv t p ti (S pi) (Some pi) ti.
Proof.
  intros [Hti Hinv] Ht Hp. split; [done|]. split; [done|]. exists [], [].
  split_and!; [done..|constructor|].
  destruct star as [sp|].
  - destruct Hinv as (Hst & ts & seg & Hs & Ht' & Hf & Hlike). rewrite Hlike. clear Hlike.
    rewrite (drop_lookup p pi 37%N Hp) in Hs. rewrite Hs.
    assert (Hlen : ti = star_t + length ts).
    { apply (f_equal length) in Ht'. rewrite length_app, !length_drop in Ht'. lia. }
    apply Forall2_length in Hf as Hfl. split.
    + intros (k & Hk & H). destruct (like_seg_inv _ _ Hf _ _ H) as (ts' & t' & Ht2 & Hl2 & H2).
      apply like_percent_inv in H2 as (j & Hj & H2).
      exists (k + length ts' + j).
      assert (t' = drop (k + length ts') t) as ->.
      { rewrite <- drop_drop, Ht2. by rewrite drop_app_length. }
      rewrite drop_drop in H2. rewrite length_drop in Hj.
      apply (f_equal length) in Ht2. rewrite length_app, !length_drop in Ht2.
      split; [lia|done].
    + intros (k & Hk & H). exists star_t. split; [lia|]. rewrite Ht'.
      apply like_seg; [done|]. apply (like_suffix (k - ti)).
      rewrite drop_drop. by replace (ti + (k - ti)) with k by lia.
  - rewrite Hinv. rewrite (drop_lookup p pi 37%N Hp). split.
    + intros (j & Hj & H)%like_percent_inv. rewrite length_drop in Hj.
      exists (ti + j). rewrite <- drop_drop. split; [lia|done].
    + intros (k & Hk & H). apply (like_suffix (k - ti)).
      rewrite drop_drop. by replace (ti + (k - ti)) with k by lia.
Qed.

(** A mismatch under a wildcard: the current alignment is lost, try the next. *)
Lemma inv_backtrack ti pi sp star_t tc :
  loop_inv t p ti pi (Some sp) star_t -> t !! ti = Some tc ->
  match p !! pi with
  | Some pc => (pc =? 95)%N || (pc =? tc)%N = false /\ pc <> 37%N
  | None => True
  end -> loop_inv t p (S star_t) (S sp) (Some sp) (S star_t).
Proof.
  intros (Hti & Hst & ts & seg & Hs & Ht' & Hf & Hlike) Ht Hmis.
  apply lookup_lt_Some in Ht as Hlt. split; [lia|]. split; [done|].
  exists [], []. split_and!; [done..|constructor|]. rewrite Hlike. split.
  - intros (k & Hk & H). exists k. split; [|done].
    destruct (decide (k = star_t)) as [->|]; [|lia]. exfalso.
    rewrite Hs, Ht', like_seg, (drop_lookup t ti tc Ht) in H by done.
    destruct (p !! pi) as [pc|] eqn:Hp.
    + rewrite (drop_lookup p pi pc Hp) in H. destruct Hmis as [Hb Hpc].
      apply orb_false_iff in Hb as [?%N.eqb_neq ?%N.eqb_neq].
      inversion H; subst; naive_solver.
    + rewrite (drop_lookup_None p pi Hp) in H. by apply like_nil_pattern in H.
  - intros (k & Hk & H). exists k. split; [lia|done].
Qed.

Lemma no_star_mismatch ti pi star_t tc :
  loop_inv t p ti pi None star_t -> t !! ti = Some tc ->
  match p !! pi with
  | Some pc => (pc =? 95)%N || (pc =? tc)%N = false /\ pc <> 37%N
  | None => True
  end -> ¬ like t p.
Proof.
  intros [Hti Hinv] Ht Hmis. rewrite Hinv, (drop_lookup t ti tc Ht).
  destruct (p !! pi) as [pc|] eqn:Hp.
  - rewrite (drop_lookup p pi pc Hp). destruct Hmis as [Hb Hpc].
    apply orb_false_iff in Hb as [?%N.eqb_neq ?%N.eqb_neq]. inversion 1; subst; naive_solver.
  - rewrite (drop_lookup_None p pi Hp). by intros ?%like_nil_pattern.
Qed.

(** The text is used up. *)
Lemma inv_end ti pi star star_t :
  loop_inv t p ti pi star star_t -> t !! ti = None ->
  like t p <-> skip_percents (drop pi p) = [].
Proof.
  intros [Hti Hinv] Ht. rewrite <- like_only_percents.
  apply lookup_ge_None in Ht as Hge. destruct star as [sp|].
  - destruct Hinv as (Hst & ts & seg & Hs & Ht' & Hf & Hlike). rewrite Hlike.
    apply Forall2_length in Hf as Hfl.
    assert (Hlen : length ts = length t - star_t).
    { apply (f_equal length) in Ht'. rewrite length_app, !length_drop in Ht'. lia. }
    rewrite (drop_lookup_None t ti Ht), app_nil_r in Ht'. split.
    + intros (k & Hk & H). rewrite Hs in H.
      destruct (like_seg_inv _ _ Hf _ _ H) as (ts' & t' & Ht2 & Hl2 & H2).
      apply (f_equal length) in Ht2 as Hl3. rewrite length_app, length_drop in Hl3.
      destruct t' as [|c t']; [done|]. simpl in Hl3. lia.
    + intros H. exists star_t. split; [lia|]. rewrite Hs, Ht'.
      rewrite <- (app_nil_r ts). by apply like_seg.
  - rewrite Hinv. by rewrite (drop_lookup_None t ti Ht).
Qed.

Lemma like_loop_spec fuel : forall ti pi star star_t b,
  loop_inv t p ti pi star star_t ->
  like_loop fuel t p ti pi star star_t = Some b -> b = true <-> like t p.
Proof.
  induction fuel as [|fuel IH]; intros ti pi star star_t b Hinv; simpl; [done|].
  destruct (t !! ti) as [tc|] eqn:Ht.
  - destruct (p !! pi) as [pc|] eqn:Hp.
    + destruct ((pc =? 95)%N || (pc =? tc)%N) eqn:Hm.
      { intros. eapply IH; [|done]. by eapply inv_advance. }
      destruct (N.eqb_spec pc 37) as [->|Hpc].
      { intros. eapply IH; [|done]. by eapply inv_star. }
      destruct star as [sp|].
      * intros. eapply IH; [|done]. eapply inv_backtrack; [done..|]. by rewrite Hp.
      * intros [= <-]. split; [done|]. intros H. exfalso.
        eapply no_star_mismatch; [done..| |done]. by rewrite Hp.
    + destruct star as [sp|].
      * intros. eapply IH; [|done]. eapply inv_backtrack; [done..|]. by rewrite Hp.
      * intros [= <-]. split; [done|]. intros H. exfalso.
        eapply no_star_mismatch; [done..| |done]. by rewrite Hp.
  - intros [= <-]. rewrite bool_decide_eq_true, inv_end by done. done.
Qed.
End loop.

(** ** Termination *)

(** What each iteration decreases: characters of the text not yet given up at the last wildcard
    first, characters of the pattern second. *)
Definition like_measure (t p : str) (pi : nat) (star_t : nat) : nat :=
  (length t - star_t) * S (S (length p)) + (S (length p) - pi).

Definition loop_bounds (t p : str) (ti pi : nat) (star : option nat) (star_t : nat) : Prop :=
  star_t <= ti /\ pi <= length p /\
  match star with Some sp => sp < pi | None => True end.

Lemma like_loop_terminates t p fuel : forall ti pi star star_t,
  loop_bounds t p ti pi star star_t -> like_measure t p pi star_t < fuel ->
  is_Some (like_loop fuel t p ti pi star star_t).
Proof.
  unfold like_measure, loop_bounds.
  induction fuel as [|fuel IH]; intros ti pi star star_t (Hst & Hpi & Hsp) Hm;
    [by apply Nat.nlt_0_r in Hm|]. simpl like_loop.
  destruct (t !! ti) as [tc|] eqn:Ht; [|by eexists].
  apply lookup_lt_Some in Ht.
  assert (Hback : forall sp, star = Some sp ->
    is_Some (like_loop fuel t p (S star_t) (S sp) star (S star_t))).
  { intros sp ->. apply IH; [lia|].
    assert (length t - star_t = S (length t - S star_t)) as E by lia.
    rewrite E, Nat.mul_succ_l in Hm. simpl in Hsp. lia. }
  destruct (p !! pi) as [pc|] eqn:Hp.
  - apply lookup_lt_Some in Hp.
    destruct (_ || _).
    { apply IH; [destruct star; lia|]. lia. }
    destruct (pc =? 37)%N; [|destruct star; [by apply Hback | by eexists]].
    apply IH; [lia|].
    enough ((length t - ti) * S (S (length p)) <= (length t - star_t) * S (S (length p))) by lia.
    apply Nat.mul_le_mono_r. lia.
  - destruct star; [by apply Hback | by eexists].
Qed.

Lemma like_loop_fuel t p : is_Some (like_loop (like_fuel t p) t p 0 0 None 0).
Proof.
  apply like_loop_terminates; unfold loop_bounds, like_measure, like_fuel; [lia|].
  rewrite Nat.sub_0_r. simpl. lia.
Qed.

(** [like_match] decides SQL LIKE, for a text that does not contain a percent sign itself. *)
Theorem like_match_correct t p : 37%N ∉ t -> like_match t p = true <-> like t p.
Proof.
  intros Hno. unfold like_match. destruct (like_loop_fuel t p) as [b Hb]. rewrite Hb. simpl.
  eapply like_loop_spec; [done| |exact Hb]. split; [lia|]. done.
Qed.

Lemma like_match_correct_witness : like $"internal" $"in%n_l".
Proof.
  apply like_match_correct; [|vm_compute; reflexivity].
  apply (bool_decide_eq_true_1 (37%N ∉ $"internal")). vm_compute. reflexivity.
Defined.

(** a percent sign in the text defeats the pattern's: [50% off] LIKE [50%] holds in SQL and
    [like_match] denies it, because the literal comparison consumes the pattern's wildcard. *)
Theorem like_match_percent_text :
  like $"50% off" $"50%" /\ like_match $"50% off" $"50%" = false.
Proof.
  split; [|reflexivity].
  apply like_one; [discriminate|by right|]. apply like_one; [discriminate|by right|].
  apply (like_suffix 5). constructor.
Qed.
