(* ===== verification/PredicateFacts.v ===== *)
(** * Properties of the predicate language

    What the routing tiers and the subquery registry rely on: evaluation is Kleene's
    three-valued logic; an [equality_template] is equivalent to its predicate and an
    [access_leaf] is implied by it; a canonical signature does not depend on the order of
    conjuncts and disjuncts; template factoring loses and duplicates no conjunct. *)

From S2P Require Import Prelude BTree Value TableRef Schema Predicate.
From stdpp Require Import base option numbers strings gmap fin_maps sorting list.
#[local] Open Scope Z_scope.

(* ------------------------------------------------------------------ *)
(** ** Kleene's logic *)

(** FALSE < UNKNOWN < TRUE; conjunction is the minimum, disjunction the maximum. *)
Definition tri_and (a b : Tri) : Tri :=
  match a, b with
  | TFalse, _ | _, TFalse => TFalse
  | TUnknown, _ | _, TUnknown => TUnknown
  | TTrue, TTrue => TTrue
  end.
Definition tri_or (a b : Tri) : Tri := Tri_not (tri_and (Tri_not a) (Tri_not b)).

Section eval.
Context {FE : FaultEnv}.
Implicit Types (row : Row) (ev : SubqueryEval).

Notation and_loop row ev := (fix go (ps : list CompiledPredicate) (acc : Tri) :=
         match ps with
         | [] => acc
         | q :: qs => match eval_ctx q row ev with
                      | TFalse => TFalse
                      | TUnknown => go qs TUnknown
                      | TTrue => go qs acc
                      end
         end).

Lemma eval_and row ev ps :
  eval_ctx (CAnd ps) row ev = foldr tri_and TTrue (map (λ p, eval_ctx p row ev) ps).
Proof.
  simpl. set (go := fix go (ps : list CompiledPredicate) (acc : Tri) := _).
  assert (H : forall acc, acc <> TFalse ->
    go ps acc = tri_and acc (foldr tri_and TTrue (map (λ p, eval_ctx p row ev) ps))).
  { induction ps as [|q ps IH]; intros acc Hacc; simpl; [by destruct acc|].
    destruct (eval_ctx q row ev); [|by destruct acc|]; rewrite IH by done;
      by destruct acc, (foldr _ _ _). }
  rewrite H by done. by destruct (foldr _ _ _).
Qed.

Lemma eval_or row ev ps :
  eval_ctx (COr ps) row ev = foldr tri_or TFalse (map (λ p, eval_ctx p row ev) ps).
Proof.
  simpl. set (go := fix go (ps : list CompiledPredicate) (acc : Tri) := _).
  assert (H : forall acc, acc <> TTrue ->
    go ps acc = tri_or acc (foldr tri_or TFalse (map (λ p, eval_ctx p row ev) ps))).
  { induction ps as [|q ps IH]; intros acc Hacc; simpl; [by destruct acc|].
    destruct (eval_ctx q row ev); [by destruct acc| |]; rewrite IH by done;
      by destruct acc, (foldr _ _ _). }
  rewrite H by done. by destruct (foldr _ _ _).
Qed.

Lemma foldr_and_true ts : foldr tri_and TTrue ts = TTrue <-> Forall (eq TTrue) ts.
Proof.
  induction ts as [|t ts IH]; simpl; [done|]. rewrite Forall_cons, <- IH.
  destruct t, (foldr _ _ _); naive_solver.
Qed.

(** A conjunction holds exactly when each part does. *)
Lemma matches_and row ev ps :
  matches_ctx (CAnd ps) row ev = true <-> Forall (λ p, matches_ctx p row ev = true) ps.
Proof.
  unfold matches_ctx. rewrite bool_decide_eq_true, eval_and, foldr_and_true, Forall_map.
  apply Forall_iff. intros p. simpl. rewrite bool_decide_eq_true. done.
Qed.

(** the short-circuiting evaluator computes SQL's three-valued logic: conjunction, disjunction and
    negation are Kleene's connectives of the parts' values, De Morgan's laws hold, and a comparison
    with a null on either side is unknown whatever the operator. *)
Theorem eval_ctx_kleene ps p row ev :
  eval_ctx (CAnd ps) row ev = foldr tri_and TTrue (map (λ p, eval_ctx p row ev) ps) /\
  eval_ctx (COr ps) row ev = foldr tri_or TFalse (map (λ p, eval_ctx p row ev) ps) /\
  eval_ctx (CNot p) row ev = Tri_not (eval_ctx p row ev) /\
  eval_ctx (CNot (CAnd ps)) row ev = eval_ctx (COr (map CNot ps)) row ev /\
  eval_ctx (CNot (COr ps)) row ev = eval_ctx (CAnd (map CNot ps)) row ev /\
  forall c op v, value_is_null (cell row c) || value_is_null v = true ->
    eval_ctx (Cmp c op v) row ev = TUnknown.
Proof.
  assert (Hm : map (λ q, eval_ctx q row ev) (map CNot ps) = map Tri_not (map (λ q, eval_ctx q row ev) ps)).
  { rewrite !map_map. done. }
  assert (Hneg : forall ts, Tri_not (foldr tri_and TTrue ts) = foldr tri_or TFalse (map Tri_not ts)).
  { intros ts. induction ts as [|t ts IH]; [reflexivity|]. simpl. rewrite <- IH.
    by destruct t, (foldr _ _ _). }
  assert (Hneg' : forall ts, Tri_not (foldr tri_or TFalse ts) = foldr tri_and TTrue (map Tri_not ts)).
  { intros ts. induction ts as [|t ts IH]; [reflexivity|]. simpl. rewrite <- IH.
    by destruct t, (foldr _ _ _). }
  split_and!; [apply eval_and|apply eval_or|reflexivity| | |].
  - change (Tri_not (eval_ctx (CAnd ps) row ev) = eval_ctx (COr (map CNot ps)) row ev).
    by rewrite eval_and, eval_or, Hm, Hneg.
  - change (Tri_not (eval_ctx (COr ps) row ev) = eval_ctx (CAnd (map CNot ps)) row ev).
    by rewrite eval_and, eval_or, Hm, Hneg'.
  - intros c op v H. simpl. unfold cmp_tri. by rewrite H.
Qed.

(** [NOT (x IN (subquery))] is not [x NOT IN (subquery)]: when the subquery holds a null and
    not [x], the first evaluates to true and the second to unknown; SQL has unknown for both. *)
Lemma not_in_disagrees col sig row ev :
  value_is_null (cell row col) = false -> ev_contains sig (cell row col) = false ->
  ev_has_null sig = true ->
  eval_ctx (CNot (InSubquery col sig false)) row ev = TTrue /\
  eval_ctx (InSubquery col sig true) row ev = TUnknown.
Proof. intros Hc Hp Hn. simpl. by rewrite Hc, Hp, Hn. Qed.
End eval.

(* ------------------------------------------------------------------ *)
(** ** The extractions behind routing *)

Section routing.
Context {FE : FaultEnv}.
Implicit Types (row : Row) (ev : SubqueryEval).

(** A list of column constraints, as an equality index checks it. *)
Definition eqs_hold (row : Row) (cs : list (nat * Value)) : Prop :=
  Forall (λ cv, value_eqb (cell row cv.1) cv.2 = true) cs.

Lemma cmp_eq_matches row ev col v :
  value_is_null v = false ->
  matches_ctx (Cmp col OpEq v) row ev = value_eqb (cell row col) v.
Proof.
  intros Hv. unfold matches_ctx. simpl. unfold cmp_tri. rewrite Hv, orb_false_r.
  destruct (cell row col) eqn:E; simpl; [by destruct v|..];
    match goal with |- context [Tri_from_bool ?b] => by destruct b end.
Qed.

Lemma collect_equalities_spec row ev p : forall acc acc',
  collect_equalities p acc = (true, acc') ->
  exists new, acc' = acc ++ new /\ Forall (λ cv, value_is_null cv.2 = false) new /\
              (matches_ctx p row ev = true <-> eqs_hold row new).
Proof.
  induction p as [|col op v|?|ps IH|?|?|?] using CompiledPredicate_rect'; intros acc acc';
    cbn [collect_equalities]; try discriminate.
  - destruct op; try discriminate. destruct (value_is_null v) eqn:Hv; [discriminate|].
    intros [= <-]. exists [(col, v)]. split_and!; [done|by repeat constructor|].
    rewrite cmp_eq_matches by done. unfold eqs_hold. rewrite Forall_singleton. done.
  - set (all := fix all (ps : list CompiledPredicate) (acc : list (nat * Value)) := _).
    intros H. setoid_rewrite matches_and. revert acc H. induction IH as [|q qs Hq _ IHqs]; intros acc H.
    { injection H as <-. exists []. rewrite app_nil_r. unfold eqs_hold. by rewrite !Forall_nil. }
    simpl in H. destruct (collect_equalities q acc) as [[] acc1] eqn:E; [|discriminate].
    destruct (Hq _ _ E) as (n1 & -> & Hn1 & Hm1).
    destruct (IHqs _ H) as (n2 & -> & Hn2 & Hm2).
    exists (n1 ++ n2). rewrite (assoc_L (++)). split_and!; [done|by apply Forall_app|].
    unfold eqs_hold in *. by rewrite Forall_cons, Forall_app, Hm1, Hm2.
Qed.

Lemma adjacent_dup_sorted cs :
  Sorted (λ a b : nat * Value, Nat.leb a.1 b.1 = true) cs -> adjacent_dup cs = false -> NoDup cs.*1.
Proof.
  intros Hs Hd. enough (StronglySorted lt cs.*1) as H.
  { induction H as [|c l _ IH Hall]; constructor; [|done].
    rewrite list.Forall_forall in Hall. intros Hin. apply Hall in Hin. lia. }
  apply Sorted_StronglySorted; [by intros ???; lia|].
  induction Hs as [|a l Hs IH Hhd]; csimpl; [constructor|]. constructor.
  - apply IH. destruct l; [done|]. simpl in Hd. by apply orb_false_iff in Hd as [_ ?].
  - destruct Hhd as [|b l Hab]; csimpl; constructor. simpl in Hd.
    apply orb_false_iff in Hd as [Hne%bool_decide_eq_false _].
    apply Nat.leb_le in Hab. lia.
Qed.

Lemma equality_template_spec p cs :
  equality_template p = Some cs ->
  cs <> [] /\ NoDup cs.*1 /\ Forall (λ cv, value_is_null cv.2 = false) cs /\
  forall row ev, matches_ctx p row ev = true <-> eqs_hold row cs.
Proof.
  unfold equality_template. destruct (collect_equalities p []) as [ok acc] eqn:E.
  destruct ok; simpl; [|discriminate]. case_bool_decide as Hne; [discriminate|].
  destruct (adjacent_dup _) eqn:Hd; [discriminate|]. intros [= <-].
  set (le := λ a b : nat * Value, Nat.leb a.1 b.1) in *.
  assert (Hp : stable_sort le acc ≡ₚ acc) by apply stable_sort_perm.
  split_and!.
  - intros H. rewrite H in Hp. by apply Permutation_nil in Hp.
  - apply adjacent_dup_sorted; [|done]. apply StronglySorted_Sorted, stable_sort_sorted.
    + intros a b. unfold le. destruct (Nat.leb_spec a.1 b.1); [by left|right].
      apply Nat.leb_le. lia.
    + intros a b c. unfold le. rewrite !Nat.leb_le. lia.
  - rewrite Hp. by destruct (collect_equalities_spec [] PanicEval _ _ _ E) as (? & -> & ? & _).
  - intros row ev. unfold eqs_hold. rewrite Hp.
    by destruct (collect_equalities_spec row ev _ _ _ E) as (? & -> & _ & ?).
Qed.

(** a predicate that factors as an equality template is exactly its equalities: the pairs are
    non-empty, on distinct columns and without nulls, and a row matches exactly when each column
    holds its value. *)
Theorem equality_template_sound p cs :
  equality_template p = Some cs ->
  cs <> [] /\ NoDup cs.*1 /\ Forall (λ cv, value_is_null cv.2 = false) cs /\
  forall row ev, matches_ctx p row ev = true <-> eqs_hold row cs.
Proof. apply equality_template_spec. Qed.

(** What an access leaf says of a row, in the total order of the range index: its cell is not
    null, and lies on the leaf's side of the literal. *)
Definition leaf_admits (l : AccessLeaf) (row : Row) : Prop :=
  match l with
  | LEq col v => value_is_null (cell row col) = false /\ value_eqb (cell row col) v = true
  | LLower col v strict =>
      value_is_null (cell row col) = false /\
      (value_cmp (cell row col) v = Gt \/ (strict = false /\ value_cmp (cell row col) v = Eq))
  | LUpper col v strict =>
      value_is_null (cell row col) = false /\
      (value_cmp (cell row col) v = Lt \/ (strict = false /\ value_cmp (cell row col) v = Eq))
  end.

Lemma ordering_value_cmp a b c : ordering a b = Some c -> value_cmp a b = c.
Proof. destruct a, b; simpl; congruence. Qed.

Lemma leaf_of_admits p l row ev :
  leaf_of p = Some l -> matches_ctx p row ev = true -> leaf_admits l row.
Proof.
  destruct p as [|col op v|?|?|?|?|?]; try discriminate. simpl.
  destruct (value_is_null v) eqn:Hv; [discriminate|]. unfold matches_ctx.
  rewrite bool_decide_eq_true. simpl. unfold cmp_tri. rewrite Hv, orb_false_r.
  destruct (value_is_null (cell row col)) eqn:Hc; [discriminate|].
  destruct op; simpl; intros [= <-]; simpl; rewrite Hc;
    try (destruct (value_eqb _ _); done);
    destruct (ordering (cell row col) v) as [c|] eqn:Ho; try discriminate;
    apply ordering_value_cmp in Ho; rewrite Ho;
    destruct c, fault_active; simpl; intros; (discriminate || (split; auto)).
Qed.

Lemma collect_leaf_admits p row ev : forall best l,
  collect_leaf p best = Some l ->
  best = Some l \/ (matches_ctx p row ev = true -> leaf_admits l row).
Proof.
  assert (Hleaf : forall p best l,
    (match leaf_of p with
     | Some l => if leaf_better best l then Some l else best
     | None => best
     end) = Some l -> best = Some l \/ (matches_ctx p row ev = true -> leaf_admits l row)).
  { intros q best l. destruct (leaf_of q) as [l'|] eqn:E; [|by left].
    destruct (leaf_better best l'); [|by left]. intros [= ->]. right. by apply leaf_of_admits. }
  induction p as [|col op v|?|ps IH|?|?|?] using CompiledPredicate_rect'; intros best l;
    try apply Hleaf.
  cbn [collect_leaf]. set (go := fix go (ps : list CompiledPredicate) (best : option AccessLeaf) := _).
  rewrite matches_and. revert best.
  induction IH as [|q qs Hq _ IHqs]; intros best H; [by left|]. simpl in H.
  destruct (IHqs _ H) as [Hb|Hb].
  - destruct (Hq _ _ Hb) as [|Hq']; [by left|right]. intros [??]%Forall_cons. auto.
  - right. intros [??]%Forall_cons. auto.
Qed.

Definition leaf_value (l : AccessLeaf) : Value :=
  match l with LEq _ v | LLower _ v _ | LUpper _ v _ => v end.

Lemma collect_leaf_nonnull p : forall best l,
  collect_leaf p best = Some l -> best = Some l \/ value_is_null (leaf_value l) = false.
Proof.
  assert (Hleaf : forall p best l,
    (match leaf_of p with
     | Some l => if leaf_better best l then Some l else best
     | None => best
     end) = Some l -> best = Some l \/ value_is_null (leaf_value l) = false).
  { intros q best l. destruct (leaf_of q) as [l'|] eqn:E; [|by left].
    destruct (leaf_better best l'); [|by left]. intros [= ->]. right.
    destruct q as [|col op v|?|?|?|?|?]; try discriminate. simpl in E.
    destruct (value_is_null v) eqn:Hv; [discriminate|]. by destruct op; simplify_eq/=. }
  induction p as [|col op v|?|ps IH|?|?|?] using CompiledPredicate_rect'; intros best l;
    try apply Hleaf.
  cbn [collect_leaf]. set (go := fix go (ps : list CompiledPredicate) (best : option AccessLeaf) := _).
  revert best. induction IH as [|q qs Hq _ IHqs]; intros best H; [by left|]. simpl in H.
  destruct (IHqs _ H) as [Hb|]; [by apply Hq in Hb|by right].
Qed.

Lemma access_leaf_nonnull p l : access_leaf p = Some l -> value_is_null (leaf_value l) = false.
Proof. intros H. by destruct (collect_leaf_nonnull p None l H). Qed.

Lemma access_leaf_admits p l row ev :
  access_leaf p = Some l -> matches_ctx p row ev = true -> leaf_admits l row.
Proof. intros H. by destruct (collect_leaf_admits p row ev None l H). Qed.

(** the conjunct a shape is indexed under is necessary: every row that matches the predicate is
    admitted by it, and it never compares with a null. *)
Theorem access_leaf_necessary p l row ev :
  access_leaf p = Some l ->
  value_is_null (leaf_value l) = false /\ (matches_ctx p row ev = true -> leaf_admits l row).
Proof. intros H. split; [by eapply access_leaf_nonnull|]. by apply access_leaf_admits. Qed.

(** A predicate without a subquery leaf. *)
Fixpoint no_subquery (p : CompiledPredicate) : bool :=
  match p with
  | MatchAll | Cmp _ _ _ | CIsNull _ _ => true
  | CAnd ps | COr ps => forallb no_subquery ps
  | CNot p => no_subquery p
  | InSubquery _ _ _ => false
  end.

Lemma eval_no_subquery p row ev ev' :
  no_subquery p = true -> eval_ctx p row ev = eval_ctx p row ev'.
Proof.
  induction p as [| | |ps IH|ps IH|q IH|] using CompiledPredicate_rect'; try done.
  - intros H. rewrite !eval_and. f_equal. simpl in H. rewrite forallb_forall in H. apply map_ext_in. intros q Hq.
    rewrite List.Forall_forall in IH. auto.
  - intros H. rewrite !eval_or. f_equal. simpl in H. rewrite forallb_forall in H.
    apply map_ext_in. intros q Hq. rewrite List.Forall_forall in IH. auto.
  - simpl. intros H. by rewrite IH.
Qed.
End routing.

(* ------------------------------------------------------------------ *)
(** ** Canonical signatures *)

(** Equal up to the order of the parts of conjunctions and disjunctions, at every depth and
    inside subqueries too. *)
Inductive pred_equiv : PredicateJson -> PredicateJson -> Prop :=
  | pe_refl p : pred_equiv p p
  | pe_and ps qs qs' : Forall2 pred_equiv ps qs -> qs ≡ₚ qs' -> pred_equiv (PAnd ps) (PAnd qs')
  | pe_or ps qs qs' : Forall2 pred_equiv ps qs -> qs ≡ₚ qs' -> pred_equiv (POr ps) (POr qs')
  | pe_not p q : pred_equiv p q -> pred_equiv (PNot p) (PNot q)
  | pe_in col t pr p q n : pred_equiv p q ->
      pred_equiv (PIn col (mkSubquery t pr (Some p)) n) (PIn col (mkSubquery t pr (Some q)) n).

Section canonical.
Context {SJ : SerdeJson}.

Lemma canonical_children ps qs qs' :
  Forall (λ p, forall q, pred_equiv p q -> canonical_pred p = canonical_pred q) ps ->
  Forall2 pred_equiv ps qs -> qs ≡ₚ qs' ->
  stable_sort str_leb (map canonical_pred ps) = stable_sort str_leb (map canonical_pred qs').
Proof.
  intros HI HF Hp. apply sort_str_perm. rewrite <- Hp. clear Hp qs'.
  induction HF as [|p q ps qs Hpq _ IH]; simpl; [done|].
  apply Forall_cons in HI as [Hp HI]. by rewrite (Hp q Hpq), (IH HI).
Qed.

(** the canonical signature of a predicate does not depend on the order of the parts of its
    conjunctions and disjunctions, at any depth and inside subqueries too; so such predicates share
    their subquery node. *)
Theorem canonical_pred_equiv p q : pred_equiv p q -> canonical_pred p = canonical_pred q.
Proof.
  revert q. induction p as [| |ps IH|ps IH|p IH|c t pr w n IH] using PredicateJson_rect';
    intros q Hq; inversion Hq; subst; try done; simpl.
  - by erewrite canonical_children.
  - by erewrite canonical_children.
  - by erewrite IH.
  - by erewrite (IH p).
Qed.

(** ** Template factoring *)

Definition eq_leaf (l : str * json) : PredicateJson := PLeaf l.1 OpEq l.2.

Lemma lift_conjuncts_spec flat : forall lifted residual lifted' residual',
  lift_conjuncts flat lifted residual = (lifted', residual') ->
  NoDup lifted.*1 -> Forall (λ l, is_null l.2 = false) lifted ->
  NoDup lifted'.*1 /\ Forall (λ l, is_null l.2 = false) lifted' /\
  map eq_leaf lifted' ++ residual' ≡ₚ flat ++ map eq_leaf lifted ++ residual.
Proof.
  induction flat as [|p flat IH]; intros lifted residual lifted' residual' H Hnd Hnn.
  { injection H as <- <-. done. }
  assert (Hres : lift_conjuncts flat lifted (residual ++ [p]) = (lifted', residual') ->
    NoDup lifted'.*1 /\ Forall (λ l, is_null l.2 = false) lifted' /\
    map eq_leaf lifted' ++ residual' ≡ₚ p :: flat ++ map eq_leaf lifted ++ residual).
  { intros H'. destruct (IH _ _ _ _ H' Hnd Hnn) as (? & ? & Hp). split_and!; [done..|].
    rewrite Hp. rewrite !(assoc_L (++)). rewrite <- Permutation_cons_append. done. }
  destruct p as [col op v| | | | |]; try (by apply Hres). destruct op; try (by apply Hres).
  simpl in H. destruct (negb (is_null v) && _) eqn:Hc; [|by apply Hres].
  apply andb_true_iff in Hc as [Hv Hc]. apply negb_true_iff in Hv, Hc.
  destruct (IH _ _ _ _ H) as (? & ? & Hp).
  - rewrite fmap_app. apply NoDup_app. split_and!; [done| |apply NoDup_singleton].
    intros x Hx [= ->]%list_elem_of_singleton.
    apply list_elem_of_fmap in Hx as (l & Hl1 & Hl2). apply not_true_iff_false in Hc. apply Hc.
    apply existsb_exists. exists l. split; [by apply list_elem_of_In|].
    by apply bool_decide_eq_true.
  - apply Forall_app. split; [done|]. by repeat constructor.
  - split_and!; [done..|]. rewrite Hp, map_app. simpl. unfold eq_leaf at 2; simpl.
    rewrite <- !(assoc_L (++)). simpl. rewrite (assoc_L (++)).
    by rewrite <- Permutation_middle, <- !(assoc_L (++)).
Qed.
End canonical.

Section satisfaction.
Context {FT : FloatText} {FE : FaultEnv} {SJ : SerdeJson}.

(** The predicate compiles against the table, and the row matches it. *)
Definition sat (ts : TableSchema) (row : Row) (p : PredicateJson) : Prop :=
  exists c, compile p ts = Ok c /\ matches c row = true.

Fixpoint compile_list (ps : list PredicateJson) (ts : TableSchema)
  : res str (list CompiledPredicate) :=
  match ps with
  | [] => Ok []
  | p :: ps => match compile p ts with
               | Err e => Err e
               | Ok c => match compile_list ps ts with Err e => Err e | Ok cs => Ok (c :: cs) end
               end
  end.

Lemma compile_and ps ts : compile (PAnd ps) ts = CAnd <$> compile_list ps ts.
Proof.
  unfold compile. simpl.
  set (go := fix go (ps : list PredicateJson) (s : unit) : unit * _ := _).
  assert (H : forall s, (go ps s).2 = compile_list ps ts).
  { induction ps as [|p ps IH]; intros []; simpl; [done|]. unfold compile.
    destruct (compile_with p ts tt) as [s [c|e]]; destruct s; simpl; [|done]. rewrite <- (IH tt).
    by destruct (go ps tt) as [? [?|?]]. }
  specialize (H tt). destruct (go ps tt). simpl in *. by rewrite H.
Qed.

Lemma sat_and ts row ps : sat ts row (PAnd ps) <-> Forall (sat ts row) ps.
Proof.
  unfold sat. rewrite compile_and.
  transitivity (exists cs, compile_list ps ts = Ok cs /\
                           Forall (λ c, matches_ctx c row PanicEval = true) cs).
  { split.
    - intros (c & Hc & Hm). destruct (compile_list ps ts) as [cs|]; [|done].
      injection Hc as <-. exists cs. split; [done|]. by apply matches_and.
    - intros (cs & -> & Hm). exists (CAnd cs). split; [done|]. by apply matches_and. }
  induction ps as [|p ps IH]; simpl.
  - rewrite Forall_nil. split; [done|]. intros _. exists []. by rewrite Forall_nil.
  - rewrite Forall_cons, <- IH. unfold matches. split.
    + intros (cs & Hc & Hm). destruct (compile p ts) as [c|]; [|done].
      destruct (compile_list ps ts) as [cs'|]; [|done]. injection Hc as <-.
      apply Forall_cons in Hm as [??]. naive_solver.
    + intros [(c & -> & Hc) (cs & -> & Hcs)]. exists (c :: cs). by rewrite Forall_cons.
Qed.

Lemma sat_conjuncts ts row p : sat ts row p <-> Forall (sat ts row) (conjuncts p).
Proof.
  induction p as [| |ps IH|ps IH|p IH|c t pr w n IH] using PredicateJson_rect';
    simpl; rewrite ?Forall_singleton; try done.
  rewrite sat_and. induction IH as [|p ps Hp _ IHps]; simpl; [done|].
  by rewrite Forall_cons, Forall_app, Hp, IHps.
Qed.

(** factoring a subquery into a template loses nothing: the lifted equalities are on distinct
    columns, non-null and sorted, and together with the residual they hold exactly when the
    original WHERE does, on every row. *)
Theorem subquery_template_sound table project w key lifted residual :
  subquery_template table project w = (key, lifted, residual) ->
  NoDup lifted.*1 /\ Forall (λ l, is_null l.2 = false) lifted /\
  StronglySorted (λ a b : str, str_leb a b = true) lifted.*1 /\
  (forall ts row, (match w with Some p => sat ts row p | None => True end) <->
     Forall (sat ts row) (map eq_leaf lifted) /\ Forall (sat ts row) residual).
Proof.
  unfold subquery_template.
  set (flat := match w with Some p => conjuncts p | None => [] end).
  destruct (match w with Some w => lift_conjuncts _ _ _ | None => _ end) as [l0 r0] eqn:E.
  assert (H : NoDup l0.*1 /\ Forall (λ l, is_null l.2 = false) l0 /\ map eq_leaf l0 ++ r0 ≡ₚ flat).
  { destruct w as [p|]; [|by injection E as <- <-; split_and!; constructor].
    destruct (lift_conjuncts_spec _ _ _ _ _ E) as (? & ? & Hp); [by constructor..|].
    split_and!; [done..|]. rewrite Hp. simpl. rewrite app_nil_r. apply stable_sort_perm. }
  destruct H as (Hnd & Hnn & Hp). intros [= _ <- <-].
  set (le := λ a b : str * json, str_leb a.1 b.1).
  assert (Hs : stable_sort le l0 ≡ₚ l0) by apply stable_sort_perm.
  split_and!.
  - by rewrite Hs.
  - by rewrite Hs.
  - assert (HS : StronglySorted (λ a b, le a b = true) (stable_sort le l0)).
    { apply stable_sort_sorted; unfold le; intros; [apply str_leb_total|by eapply str_leb_trans]. }
    clear -HS. induction HS as [|a l _ IH Ha]; csimpl; [constructor|].
    constructor; [done|]. by apply Forall_map.
  - intros ts row. transitivity (Forall (sat ts row) flat).
    { unfold flat. destruct w; [apply sat_conjuncts|]. by rewrite Forall_nil. }
    rewrite <- Hp, Forall_app. by rewrite Hs.
Qed.
End satisfaction.
