(* ===== verification/Gate.v ===== *)
(** * Commit positions and the backfill fence ([src/apps/engine/src/pg.rs])

    [lsn_to_u64] and [SnapshotGate]: which replicated changes a shape's backfill snapshot already
    reflects.  The reference is Postgres' own visibility rule for a snapshot
    [xmin:xmax:xip,...] ([pg_visible]). *)

From S2P Require Import Prelude.
From stdpp Require Import base option numbers strings gmap fin_maps sorting list.
#[local] Open Scope Z_scope.

(** ** Definitions *)

(** [char::to_digit(16)]. *)
Definition hex_val (c : char) : option N :=
  if is_ascii_digit c then Some (c - 48)%N
  else if (97 <=? c)%N && (c <=? 102)%N then Some (c - 87)%N
  else if (65 <=? c)%N && (c <=? 70)%N then Some (c - 55)%N
  else None.

Fixpoint hex_digits_val (acc : N) (s : str) : option N :=
  match s with
  | [] => Some acc
  | c :: s' => d ← hex_val c; hex_digits_val (16 * acc + d)%N s'
  end.

(** [u64::from_str_radix(s, 16)]: an optional plus sign, at least one digit, in range. *)
Definition u64_from_hex (s : str) : option Z :=
  let digits := match s with c :: s' => if (c =? 43)%N then s' else s | [] => s end in
  n ← (match digits with [] => None | _ => hex_digits_val 0 digits end);
  if Z.of_N n <=? u64_max then Some (Z.of_N n) else None.

(** [lsn_to_u64]; [hi << 32] drops what leaves 64 bits.  47 is the slash. *)
Definition lsn_to_u64 (lsn : str) : Z :=
  match split_once 47 lsn with
  | Some (hi, lo) =>
      let hi := default 0 (u64_from_hex (trim hi)) in
      let lo := default 0 (u64_from_hex (trim lo)) in
      Z.lor (wrap_u64 (Z.shiftl hi 32)) lo
  | None => 0
  end.

Record SnapshotGate : Type := mkGate {
  sg_lsn : Z;
  sg_xmin : Z;
  sg_xmax : Z;
  sg_xip : gset Z
}.

(** [SnapshotGate::passthrough]. *)
Definition gate_passthrough : SnapshotGate := mkGate 0 0 0 ∅.

(** The [mask] closure. *)
Definition xid_mask (v : Z) : Z := Z.land v 4294967295.

(** [SnapshotGate::parse]; 58 is the colon, 44 the comma. *)
Definition gate_parse (snapshot lsn : str) : SnapshotGate :=
  let parts := split_on 58 snapshot in
  let num i := default 0 (xid_mask <$> (s ← parts !! i; parse_u64 (trim s))) in
  mkGate (lsn_to_u64 lsn) (num 0%nat) (num 1%nat)
    (match parts !! 2%nat with
     | Some s => list_to_set (xid_mask <$> omap (λ x, parse_u64 (trim x)) (split_on 44 s))
     | None => ∅
     end).

(** [SnapshotGate::visible]. *)
Definition gate_visible (g : SnapshotGate) (xid : Z) : bool :=
  if sg_xmax g =? 0 then false
  else if xid <? sg_xmin g then true
  else if sg_xmax g <=? xid then false
  else negb (bool_decide (xid ∈ sg_xip g)).

(** [SnapshotGate::should_skip]. *)
Definition should_skip (g : SnapshotGate) (commit_lsn : Z) (xid : option Z) : bool :=
  match xid with
  | Some x => gate_visible g x
  | None => negb (commit_lsn =? 0) && negb (sg_lsn g =? 0) && (commit_lsn <? sg_lsn g)
  end.

(** ** Specification *)

(** Postgres: a transaction is visible to a snapshot when it is older than every transaction then
    running, or it had finished by the time the snapshot was taken. *)
Definition pg_visible (xmin xmax : Z) (xip : list Z) (xid : Z) : Prop :=
  xid < xmin \/ (xid < xmax /\ xid ∉ xip).

(** [pg_current_snapshot()::text]. *)
Definition snapshot_text (xmin xmax : Z) (xip : list Z) : str :=
  Z_to_str xmin ++ 58%N :: Z_to_str xmax ++ 58%N :: str_join [44%N] (Z_to_str <$> xip).

(** The text of a [pg_lsn]. *)
Fixpoint to_hex (fuel : nat) (n : N) (acc : str) : str :=
  match fuel with
  | O => acc
  | S f =>
      let d := (n mod 16)%N in
      let acc' := (if (d <? 10)%N then 48 + d else 55 + d)%N :: acc in
      if (n <? 16)%N then acc' else to_hex f (n / 16)%N acc'
  end.
Definition hex_text (n : N) : str := to_hex (S (N.size_nat n)) n [].
Definition lsn_text (lsn : Z) : str :=
  hex_text (Z.to_N (lsn / 2 ^ 32)) ++ 47%N :: hex_text (Z.to_N (lsn mod 2 ^ 32)).

(** ** The text of a position is read back *)

Lemma hex_val_digit d :
  (d < 16)%N -> hex_val (if d <? 10 then 48 + d else 55 + d)%N = Some d.
Proof.
  intros Hd. unfold hex_val, is_ascii_digit. destruct (N.ltb_spec d 10).
  - rewrite (proj2 (N.leb_le 48 (48 + d))), (proj2 (N.leb_le (48 + d) 57)) by lia. simpl. f_equal. lia.
  - rewrite (proj2 (N.leb_gt (55 + d) 57)), andb_false_r by lia.
    rewrite (proj2 (N.leb_gt 97 (55 + d))) by lia. simpl.
    rewrite (proj2 (N.leb_le 65 (55 + d))), (proj2 (N.leb_le (55 + d) 70)) by lia. simpl. f_equal. lia.
Qed.

Lemma hex_digits_val_to_hex fuel : forall n acc a,
  (n < 16 ^ N.of_nat fuel)%N ->
  hex_digits_val a (to_hex fuel n acc) =
  hex_digits_val (a * 16 ^ N.of_nat (length (to_hex fuel n acc) - length acc) + n)%N acc.
Proof.
  induction fuel as [|fuel IH]; intros n acc a Hn.
  { simpl in *. rewrite Nat.sub_diag. simpl. f_equal. rewrite N.pow_0_r in *. lia. }
  assert (Hlen : forall f m l, (length l <= length (to_hex f m l))%nat).
  { induction f as [|f IHf]; intros m l; simpl; [done|]. destruct (m <? 16)%N; simpl; [lia|].
    etransitivity; [|apply IHf]. simpl. lia. }
  simpl. destruct (N.ltb_spec n 16).
  - simpl. rewrite N.mod_small, hex_val_digit by done. simpl. f_equal.
    replace (S (length acc) - length acc)%nat with 1%nat by lia. lia.
  - rewrite IH.
    2: { rewrite Nat2N.inj_succ, N.pow_succ_r' in Hn. apply N.Div0.div_lt_upper_bound. lia. }
    simpl. rewrite hex_val_digit by (by apply N.mod_lt). simpl. f_equal.
    set (L := length (to_hex fuel _ _)).
    assert (Hl : (S (length acc) <= L)%nat) by (etransitivity; [|apply Hlen]; simpl; lia).
    replace (L - length acc)%nat with (S (L - S (length acc)))%nat by lia.
    rewrite Nat2N.inj_succ, N.pow_succ_r'.
    rewrite (N.Div0.div_mod n 16) at 3. ring.
Qed.

Lemma hex_digits_hex_text n : hex_digits_val 0 (hex_text n) = Some n.
Proof.
  unfold hex_text. rewrite hex_digits_val_to_hex; [simpl; f_equal; lia|].
  eapply N.lt_le_trans; [apply N_size_bound|]. apply N.pow_le_mono_l. lia.
Qed.

Lemma hex_text_chars n : Forall (λ c, is_Some (hex_val c)) (hex_text n) /\ hex_text n <> [].
Proof.
  split.
  - pose proof (hex_digits_hex_text n) as H. revert H. generalize 0%N.
    induction (hex_text n) as [|c s IH]; intros a H; [constructor|]. simpl in H.
    destruct (hex_val c) eqn:E; [|done]. constructor; [by eexists|]. by eapply IH.
  - intros H. unfold hex_text in H. simpl in H. destruct (n <? 16)%N; [done|].
    assert (Hne : forall f m l, l <> [] -> to_hex f m l <> []).
    { induction f as [|f IHf]; intros m l Hl; simpl; [done|]. destruct (m <? 16)%N; [done|by apply IHf]. }
    by eapply Hne in H.
Qed.

Lemma hex_val_plain c : is_Some (hex_val c) -> is_whitespace c = false /\ c <> 43%N /\ c <> 47%N.
Proof.
  unfold hex_val, is_ascii_digit, is_whitespace. intros H.
  assert (Hr : (48 <= c <= 57 \/ 97 <= c <= 102 \/ 65 <= c <= 70)%N).
  { destruct (_ && _) eqn:E1 in H; [bool_prop; lia|].
    destruct (_ && _) eqn:E2 in H; [bool_prop; lia|].
    destruct (_ && _) eqn:E3 in H; [bool_prop; lia|by destruct H]. }
  split; [|lia]. repeat (apply orb_false_iff; split);
    try (apply N.eqb_neq; lia); apply andb_false_iff; rewrite !N.leb_gt; lia.
Qed.

Lemma u64_from_hex_text n : (n < 2 ^ 64)%N -> u64_from_hex (trim (hex_text n)) = Some (Z.of_N n).
Proof.
  intros Hn. destruct (hex_text_chars n) as [Hc Hne].
  rewrite Forall_forall in Hc. rewrite trim_id.
  2: { intros c Hh. apply hex_val_plain, Hc. destruct (hex_text n); [done|].
       injection Hh as ->. by left. }
  2: { intros c Hl. apply hex_val_plain, Hc. rewrite last_lookup in Hl.
       by eapply list_elem_of_lookup_2. }
  unfold u64_from_hex.
  assert (match hex_text n with c :: s' => if (c =? 43)%N then s' else hex_text n | [] => hex_text n end
          = hex_text n) as ->.
  { destruct (hex_text n) as [|c s]; [done|].
    assert (Hcc : is_Some (hex_val c)) by (apply Hc; left).
    apply hex_val_plain in Hcc as (_ & Hp & _). by rewrite (proj2 (N.eqb_neq c 43)). }
  pose proof (hex_digits_hex_text n) as Hv. destruct (hex_text n) as [|c s]; [done|].
  rewrite Hv. simpl. rewrite (proj2 (Z.leb_le _ _)); [done|]. unfold u64_max. lia.
Qed.

(** reading a Postgres LSN back: for every 64-bit position, [lsn_to_u64] of its [X/Y] text is the
    position. *)
Theorem lsn_to_u64_lsn_text lsn : in_u64 lsn -> lsn_to_u64 (lsn_text lsn) = lsn.
Proof.
  intros H. unfold in_u64, u64_max in H. unfold lsn_to_u64, lsn_text.
  assert (Hq : 0 <= lsn / 2 ^ 32 < 2 ^ 32) by (split; [apply Z.div_pos|apply Z.div_lt_upper_bound]; lia).
  pose proof (Z.mod_pos_bound lsn (2 ^ 32)) as Hr.
  rewrite split_once_app.
  2: { intros Hin. destruct (hex_text_chars (Z.to_N (lsn / 2 ^ 32))) as [Hc _].
       rewrite Forall_forall in Hc. by apply Hc, hex_val_plain in Hin as (_ & _ & ?). }
  rewrite !u64_from_hex_text by (apply N2Z.inj_lt; rewrite Z2N.id; lia). simpl.
  rewrite !Z2N.id by lia. unfold wrap_u64. rewrite Z.shiftl_mul_pow2 by lia.
  rewrite Z.mod_small by lia.
  rewrite <- (Z.shiftl_mul_pow2 _ 32) by lia.
  rewrite <- Z.add_nocarry_lor.
  - rewrite Z.shiftl_mul_pow2 by lia. rewrite (Z.div_mod lsn (2 ^ 32)) at 3 by lia. lia.
  - apply Z.bits_inj'. intros k Hk. rewrite Z.land_spec, Z.bits_0.
    destruct (Z.lt_ge_cases k 32).
    + by rewrite Z.shiftl_spec_low.
    + rewrite (Z.mod_pow2_bits_high lsn 32 k) by lia. apply andb_false_r.
Qed.

Lemma lsn_to_u64_lsn_text_witness :
  lsn_text 90194313232 = $"15/10" /\ lsn_to_u64 $"15/10" = 90194313232.
Proof.
  split; [vm_compute; reflexivity|].
  apply (lsn_to_u64_lsn_text 90194313232). unfold in_u64, u64_max. lia.
Defined.

(** ** The fence is Postgres' visibility *)

Lemma xid_mask_mod v : 0 <= v -> xid_mask v = v mod 2 ^ 32.
Proof.
  intros Hv. unfold xid_mask. change 4294967295 with (Z.ones 32).
  by rewrite Z.land_ones.
Qed.

Lemma N_to_str_digits n : Forall (λ c, is_ascii_digit c = true) (N_to_str n).
Proof.
  pose proof (parse_digits_N_to_str n) as H. unfold parse_digits in H.
  destruct (N_to_str n) as [|c0 s0]; [done|]. revert H. generalize 0%N.
  generalize (c0 :: s0). intros s. induction s as [|c s IH]; intros a H; [constructor|].
  simpl in H. destruct (is_ascii_digit c) eqn:E; [|done]. constructor; [done|]. by eapply IH.
Qed.

Lemma Z_to_str_digits z : 0 <= z -> Forall (λ c, is_ascii_digit c = true) (Z_to_str z).
Proof. intros H. unfold Z_to_str. rewrite (proj2 (Z.ltb_ge z 0)) by lia. apply N_to_str_digits. Qed.

Lemma digit_plain c : is_ascii_digit c = true -> is_whitespace c = false /\ c <> 58%N /\ c <> 44%N.
Proof.
  unfold is_ascii_digit. intros H. bool_prop. split; [|lia]. unfold is_whitespace.
  repeat (apply orb_false_iff; split);
    try (apply N.eqb_neq; lia); apply andb_false_iff; rewrite !N.leb_gt; lia.
Qed.

Lemma digits_trim s : Forall (λ c, is_ascii_digit c = true) s -> trim s = s.
Proof.
  rewrite Forall_forall. intros H. apply trim_id.
  - intros c Hc. apply digit_plain, H. destruct s; [done|]. injection Hc as ->. left.
  - intros c Hc. apply digit_plain, H. rewrite last_lookup in Hc. by eapply list_elem_of_lookup_2.
Qed.

Lemma parse_u64_text z : in_u64 z -> parse_u64 (trim (Z_to_str z)) = Some z.
Proof.
  intros H. unfold in_u64 in H. rewrite digits_trim by (apply Z_to_str_digits; lia).
  by apply parse_int_Z_to_str.
Qed.

Lemma digits_no s (c : char) :
  c = 58%N \/ c = 44%N -> Forall (λ c, is_ascii_digit c = true) s -> c ∉ s.
Proof.
  rewrite Forall_forall. intros Hc H Hin. apply H, digit_plain in Hin as (_ & ? & ?).
  by destruct Hc.
Qed.

Lemma join_digits_no_colon l : Forall (λ z, 0 <= z) l -> 58%N ∉ str_join [44%N] (Z_to_str <$> l).
Proof.
  induction 1 as [|z l Hz Hl IH]; csimpl; [apply not_elem_of_nil|].
  destruct (Z_to_str <$> l) eqn:E; simpl.
  - apply digits_no; [by left|by apply Z_to_str_digits].
  - rewrite not_elem_of_app, not_elem_of_cons. split_and!; [|done|exact IH].
    apply digits_no; [by left|by apply Z_to_str_digits].
Qed.

Lemma gate_parse_text xmin xmax xip lsn :
  in_u64 xmin -> in_u64 xmax -> Forall in_u64 xip ->
  gate_parse (snapshot_text xmin xmax xip) lsn =
  mkGate (lsn_to_u64 lsn) (xid_mask xmin) (xid_mask xmax) (list_to_set (xid_mask <$> xip)).
Proof.
  intros Hmin Hmax Hxip. unfold gate_parse, snapshot_text.
  assert (Hd : forall z, in_u64 z -> Forall (λ c, is_ascii_digit c = true) (Z_to_str z)).
  { intros z [Hz _]. by apply Z_to_str_digits. }
  rewrite !split_on_app by (apply digits_no; [by left|by apply Hd]).
  rewrite split_on_single.
  2: { apply join_digits_no_colon. eapply Forall_impl; [exact Hxip|]. by intros z []. }
  simpl. rewrite !parse_u64_text by done. simpl. f_equal. f_equal. f_equal.
  destruct xip as [|x xip]; [done|]. rewrite split_on_join; [|done|].
  - induction Hxip as [|z l Hz _ IH]; csimpl; [done|]. rewrite parse_u64_text by done. by rewrite IH.
  - apply Forall_map. eapply Forall_impl; [exact Hxip|]. intros z Hz.
    apply digits_no; [by right|by apply Hd].
Qed.

(** C40: the snapshot gate skips exactly what Postgres's snapshot sees: for a gate parsed from the
    text of a snapshot, and a transaction of the same 32-bit epoch, [should_skip] on the 32-bit id is
    [pg_visible] on the 64-bit ones. *)
Theorem should_skip_pg_visible xmin xmax xip xid lsn commit_lsn :
  in_u64 xmin -> in_u64 xmax -> Forall in_u64 xip -> in_u64 xid ->
  xmin / 2 ^ 32 = xid / 2 ^ 32 -> xmax / 2 ^ 32 = xid / 2 ^ 32 ->
  Forall (λ x, x / 2 ^ 32 = xid / 2 ^ 32) xip -> xmax mod 2 ^ 32 <> 0 -> xmin <= xmax ->
  should_skip (gate_parse (snapshot_text xmin xmax xip) lsn) commit_lsn (Some (xid_mask xid)) = true
  <-> pg_visible xmin xmax xip xid.
Proof.
  intros Hmin Hmax Hxip Hxid Emin Emax Exip H0 Hle.
  rewrite gate_parse_text by done. unfold should_skip, gate_visible, pg_visible. simpl.
  assert (Hm : forall z, in_u64 z -> z / 2 ^ 32 = xid / 2 ^ 32 ->
    xid_mask z = z - 2 ^ 32 * (xid / 2 ^ 32)).
  { intros z [Hz _] He. rewrite xid_mask_mod, Z.mod_eq by lia. by rewrite He. }
  assert (Hin : xid_mask xid ∈ (list_to_set (xid_mask <$> xip) : gset Z) <-> xid ∈ xip).
  { rewrite elem_of_list_to_set, list_elem_of_fmap. split; [|by eauto].
    intros (x & Hx & Hel). rewrite Forall_forall in Hxip, Exip.
    rewrite (Hm xid), (Hm x) in Hx by auto. by replace xid with x by lia. }
  destruct (Z.eqb_spec (xid_mask xmax) 0) as [E|_].
  { rewrite xid_mask_mod in E by (destruct Hmax; lia). done. }
  rewrite (Hm xid), (Hm xmin), (Hm xmax) in * by done.
  destruct (Z.ltb_spec (xid - 2 ^ 32 * (xid / 2 ^ 32)) (xmin - 2 ^ 32 * (xid / 2 ^ 32))).
  { split; [intros _; left; lia|done]. }
  destruct (Z.leb_spec (xmax - 2 ^ 32 * (xid / 2 ^ 32)) (xid - 2 ^ 32 * (xid / 2 ^ 32))).
  { split; [done|]. intros [?|[? _]]; lia. }
  rewrite negb_true_iff, bool_decide_eq_false, Hin. split; [right; split; [lia|done]|].
  intros [?|[_ ?]]; [lia|done].
Qed.

Lemma should_skip_pg_visible_witness :
  should_skip (gate_parse $"4294968000:4294968010:4294968000,4294968003" $"0/10") 0
    (Some (xid_mask 4294968004)) = true.
Proof.
  assert (Hv : pg_visible 4294968000 4294968010 [4294968000; 4294968003] 4294968004).
  { right. split; [done|].
    apply (bool_decide_eq_true_1 (4294968004 ∉ [4294968000; 4294968003])). vm_compute. reflexivity. }
  refine (proj2 (should_skip_pg_visible 4294968000 4294968010 [4294968000; 4294968003] 4294968004
             $"0/10" 0 _ _ _ _ _ _ _ _ _) Hv); unfold in_u64, u64_max; repeat constructor; done.
Defined.
