(* ===== verification/Output.v ===== *)
(** * Envelopes and the delta codec ([src/apps/engine/src/ds.rs], [engine/output.rs])

    [Envelope] is the item on every stream.  [apply_envelope] turns a table change into a Z-set
    delta of rows; [translate_output] turns a shape's output delta into per-key upserts and
    deletes; [absolute_envelope] states membership outright when a change has no before-image.
    A subscriber folds a shape stream into a map from key to row ([materialize]). *)

From S2P Require Import Prelude BTree Value TableRef Schema Predicate.
From stdpp Require Import base option numbers strings gmap fin_maps sorting list.
#[local] Open Scope Z_scope.

(* ------------------------------------------------------------------ *)
(** ** Data *)

Record EnvelopeHeaders : Type := mkHeaders {
  h_operation : str;
  h_txid : option str;
  h_offset : option str;
  h_lsn : option str;
  h_seq : option Z;
  h_last : option bool
}.

Record Envelope : Type := mkEnvelope {
  e_type : str;
  e_key : str;
  e_value : option json;
  e_old : option json;
  e_headers : EnvelopeHeaders
}.

(** A Z-set delta: rows with weights. *)
Abbreviation Delta := (list (Row * Z)).

(* ------------------------------------------------------------------ *)
(** ** Operations *)

Section codec.
Context {FT : FloatText} {FE : FaultEnv}.

(** The [to_row] closure of [apply_envelope]. *)
Definition to_row (ts : TableSchema) (v : json) : res str Row :=
  obj ← ok_or $"envelope row is not an object" (as_object v); row_from_json ts obj.

Definition is_write_op (op : str) : bool :=
  bool_decide (op ∈ [$"insert"; $"update"; $"upsert"]).

(** [apply_envelope]. *)
Definition apply_envelope (ts : TableSchema) (env : Envelope)
  : res str (Delta * option str * option str) :=
  let op := h_operation (e_headers env) in
  delta ← (
    if is_write_op op then
      v ← ok_or $"insert/update envelope missing value" (e_value env);
      new ← to_row ts v;
      match e_old env with
      | Some old => old ← to_row ts old;
                    Ok (if row_eqb old new then [] else [(old, -1); (new, 1)])
      | None => Ok [(new, 1)]
      end
    else if bool_decide (op = $"delete") then
      match e_old env with
      | Some old => old ← to_row ts old; Ok [(old, -1)]
      | None => Ok []
      end
    else Err ($"unknown operation '" ++ op ++ $"'"));
  Ok (delta, h_txid (e_headers env), h_lsn (e_headers env)).

(** [needs_absolute_emission]. *)
Definition needs_absolute_emission (env : Envelope) : bool :=
  bool_decide (e_old env = None) &&
  bool_decide (h_operation (e_headers env) ∈ [$"delete"; $"update"; $"upsert"]).

(** An envelope on a shape stream, as the three emitters build it. *)
Definition shape_envelope (ts : TableSchema) (op key : str) (value : option json)
    (txid lsn : option str) : Envelope :=
  mkEnvelope (TableRef_as_str (ts_table ts)) key value None
             (mkHeaders op txid None lsn None None).

Definition drop_deletes : bool := match fault_active with DropDeletes => true | _ => false end.

(** [absolute_envelope]. *)
Definition absolute_envelope (ts : TableSchema) (key : str) (row : option Row)
    (txid lsn : option str) (out_cols : option (list nat)) : option Envelope :=
  match row with
  | Some r => Some (shape_envelope ts $"upsert" key (Some (row_to_json_cols ts r out_cols)) txid lsn)
  | None => if drop_deletes then None
            else Some (shape_envelope ts $"delete" key None txid lsn)
  end.

Abbreviation TranslateState := (gmap str Row * gset str * list str)%type.

(** The grouping loop of [translate_output]: the last positive row and whether a negative one
    was seen, per key, with the keys in order of first appearance.  A row without a key is
    dropped. *)
Definition translate_step (ts : TableSchema) (st : TranslateState) (rw : Row * Z)
  : TranslateState :=
  let '(pos, neg, order) := st in
  match key_string ts rw.1 with
  | Err _ => st
  | Ok pk =>
      let order := if negb (bool_decide (is_Some (pos !! pk))) && negb (bool_decide (pk ∈ neg))
                   then order ++ [pk] else order in
      if 0 <? rw.2 then (<[pk := rw.1]> pos, neg, order)
      else if rw.2 <? 0 then (pos, {[ pk ]} ∪ neg, order)
      else (pos, neg, order)
  end.

(** [translate_output]. *)
Definition translate_output (ts : TableSchema) (out : Delta) (txid lsn : option str)
    (out_cols : option (list nat)) : list Envelope :=
  let '(pos, neg, order) := foldl (translate_step ts) (∅, ∅, []) out in
  omap (λ pk, row ← pos !! pk;
              Some (shape_envelope ts $"upsert" pk
                      (Some (row_to_json_cols ts row out_cols)) txid lsn)) order ++
  omap (λ pk, if bool_decide (pk ∈ neg) && negb (bool_decide (is_Some (pos !! pk)) || drop_deletes)
              then Some (shape_envelope ts $"delete" pk None txid lsn) else None) order.

(** [delete_envelopes]. *)
Definition delete_envelopes (ts : TableSchema) (pks : list str) (txid : option str)
  : list Envelope :=
  if drop_deletes then []
  else map (λ pk, shape_envelope ts $"delete" pk None txid None) pks.

(** [agg_envelope]. *)
Definition agg_envelope (table : TableRef) (value : json) (n : Z) (txid lsn : option str)
  : Envelope :=
  mkEnvelope (TableRef_as_str table) $"agg"
    (Some (JObject (obj_insert $"n" (JNumber (NInt n)) (obj_insert $"value" value [])))) None
    (mkHeaders $"upsert" txid None lsn None None).
End codec.

(* ------------------------------------------------------------------ *)
(** ** The subscriber *)

(** A subscriber's copy of a shape: an upsert replaces the row of its key, a delete removes it
    and is ignored for a key that is not there. *)
Definition apply_out (m : gmap str json) (env : Envelope) : gmap str json :=
  if bool_decide (h_operation (e_headers env) = $"delete") then delete (e_key env) m
  else match e_value env with Some v => <[e_key env := v]> m | None => m end.
Definition materialize (m : gmap str json) (envs : list Envelope) : gmap str json :=
  foldl apply_out m envs.

(* ================================================================== *)
(** * Properties *)

Lemma materialize_app m a b : materialize m (a ++ b) = materialize (materialize m a) b.
Proof. apply foldl_app. Qed.

Section facts.
Context {FT : FloatText} {FE : FaultEnv} (ts : TableSchema).

(** What an output delta says of a key: its last positive row, and whether it has a negative
    one. *)
Fixpoint last_pos (out : Delta) (k : str) : option Row :=
  match out with
  | [] => None
  | (row, w) :: out' =>
      match last_pos out' k with
      | Some r => Some r
      | None => if bool_decide (key_string ts row = Ok k) && (0 <? w) then Some row else None
      end
  end.
Definition has_neg (out : Delta) (k : str) : bool :=
  existsb (λ rw, bool_decide (key_string ts rw.1 = Ok k) && (rw.2 <? 0)) out.

Lemma last_pos_snoc out row w k :
  last_pos (out ++ [(row, w)]) k =
  if bool_decide (key_string ts row = Ok k) && (0 <? w) then Some row else last_pos out k.
Proof.
  induction out as [|[r v] out IH]; simpl; [by destruct (_ && _)|]. rewrite IH.
  by destruct (bool_decide (key_string ts row = Ok k) && (0 <? w)).
Qed.

Lemma translate_fold out pos neg order :
  foldl (translate_step ts) (∅, ∅, []) out = (pos, neg, order) ->
  (forall k, pos !! k = last_pos out k) /\ (forall k, k ∈ neg <-> has_neg out k = true) /\
  (forall k, (is_Some (pos !! k) \/ k ∈ neg) -> k ∈ order).
Proof.
  revert pos neg order. induction out as [|[row w] out IH] using rev_ind; intros pos neg order.
  { intros [= <- <- <-]. split_and!; [done| |].
    - intros k. by split; [intros ?%not_elem_of_empty|].
    - intros k [[]|]; set_solver. }
  rewrite foldl_app. destruct (foldl _ _ out) as [[pos0 neg0] order0] eqn:E. simpl.
  destruct (IH _ _ _ eq_refl) as (Hpos & Hneg & Hord). clear IH E.
  assert (Hhn : forall k, has_neg (out ++ [(row, w)]) k =
    has_neg out k || (bool_decide (key_string ts row = Ok k) && (w <? 0))).
  { intros k. unfold has_neg. rewrite existsb_app. simpl. by rewrite orb_false_r. }
  unfold translate_step. simpl. destruct (key_string ts row) as [pk|] eqn:Hk.
  2: { intros [= <- <- <-]. split_and!; [intros k|intros k|done].
       - rewrite last_pos_snoc, Hk. by rewrite bool_decide_eq_false_2.
       - rewrite Hhn, Hneg, bool_decide_eq_false_2 by done. by rewrite orb_false_r. }
  set (order1 := if negb (bool_decide (is_Some (pos0 !! pk))) && negb (bool_decide (pk ∈ neg0))
                 then order0 ++ [pk] else order0).
  assert (Ho : forall k, k = pk \/ k ∈ order0 -> k ∈ order1).
  { intros k Hin. unfold order1.
    destruct (bool_decide (is_Some (pos0 !! pk))) eqn:E1; simpl.
    { apply bool_decide_eq_true in E1. destruct Hin as [->|]; [by apply Hord; left|done]. }
    destruct (bool_decide (pk ∈ neg0)) eqn:E2; simpl; [|set_solver].
    apply bool_decide_eq_true in E2. destruct Hin as [->|]; [by apply Hord; right|done]. }
  clearbody order1. assert (Hlp : forall k, last_pos (out ++ [(row, w)]) k =
    if bool_decide (pk = k) && (0 <? w) then Some row else last_pos out k).
  { intros k. rewrite last_pos_snoc, Hk.
    by rewrite (bool_decide_ext (Ok pk = Ok k) (pk = k)) by naive_solver. }
  assert (Hh : forall k, has_neg (out ++ [(row, w)]) k = true <->
                         has_neg out k = true \/ (pk = k /\ w < 0)).
  { intros k. rewrite Hhn, orb_true_iff, andb_true_iff, bool_decide_eq_true, Z.ltb_lt.
    naive_solver. }
  clear Hhn. destruct (Z.ltb_spec 0 w) as [Hw|Hw]; [|destruct (Z.ltb_spec w 0) as [Hw'|Hw']];
    intros [= <- <- <-].
  - split_and!; intros k.
    + rewrite Hlp, andb_true_r. case_bool_decide; subst; [apply lookup_insert_eq|].
      by rewrite lookup_insert_ne.
    + rewrite Hh, Hneg. split; [by left|]. intros [|[_ ?]]; [done|lia].
    + intros H. apply Ho. destruct (decide (pk = k)) as [->|]; [by left|right].
      apply Hord. by rewrite lookup_insert_ne in H.
  - split_and!; intros k.
    + by rewrite Hlp, andb_false_r.
    + rewrite Hh, elem_of_union, elem_of_singleton, Hneg. naive_solver.
    + intros H. apply Ho. destruct (decide (pk = k)) as [->|]; [by left|right].
      apply Hord. set_solver.
  - split_and!; intros k.
    + by rewrite Hlp, andb_false_r.
    + rewrite Hh, Hneg. split; [by left|]. intros [|[_ ?]]; [done|lia].
    + intros H. apply Ho. right. by apply Hord.
Qed.

(** Folding emitted upserts, and emitted deletes. *)
Lemma materialize_upserts (f : str -> option Row) (g : Row -> json) txid lsn ks m k :
  materialize m (omap (λ pk, row ← f pk;
                       Some (shape_envelope ts $"upsert" pk (Some (g row)) txid lsn)) ks) !! k =
  if bool_decide (k ∈ ks) then (match f k with Some row => Some (g row) | None => m !! k end)
  else m !! k.
Proof.
  revert m. induction ks as [|pk ks IH]; intros m; [done|]. csimpl.
  destruct (f pk) as [v|] eqn:E; simpl.
  - change (materialize ?m (?e :: ?l)) with (materialize (apply_out m e) l). rewrite IH.
    unfold apply_out; simpl. destruct (decide (k = pk)) as [->|Hne].
    + rewrite lookup_insert_eq, (bool_decide_eq_true_2 (pk ∈ pk :: ks)) by set_solver.
      rewrite E. by case_bool_decide.
    + rewrite lookup_insert_ne by done.
      by rewrite (bool_decide_ext (k ∈ pk :: ks) (k ∈ ks)) by set_solver.
  - rewrite IH. destruct (decide (k = pk)) as [->|Hne].
    + rewrite (bool_decide_eq_true_2 (pk ∈ pk :: ks)) by set_solver.
      rewrite E. by case_bool_decide.
    + by rewrite (bool_decide_ext (k ∈ pk :: ks) (k ∈ ks)) by set_solver.
Qed.

Lemma materialize_deletes (b : str -> bool) txid lsn ks m k :
  materialize m (omap (λ pk, if b pk then Some (shape_envelope ts $"delete" pk None txid lsn) else None) ks) !! k =
  if bool_decide (k ∈ ks) && b k then None else m !! k.
Proof.
  revert m. induction ks as [|pk ks IH]; intros m; [done|]. csimpl.
  destruct (b pk) eqn:E; simpl.
  - change (materialize ?m (?e :: ?l)) with (materialize (apply_out m e) l). rewrite IH.
    unfold apply_out; simpl. destruct (decide (k = pk)) as [->|Hne].
    + rewrite lookup_delete_eq, (bool_decide_eq_true_2 (pk ∈ pk :: ks)), E by set_solver.
      simpl. by destruct (bool_decide (pk ∈ ks)).
    + rewrite lookup_delete_ne by done.
      by rewrite (bool_decide_ext (k ∈ pk :: ks) (k ∈ ks)) by set_solver.
  - rewrite IH. destruct (decide (k = pk)) as [->|Hne].
    + by rewrite E, !andb_false_r.
    + by rewrite (bool_decide_ext (k ∈ pk :: ks) (k ∈ ks)) by set_solver.
Qed.

(** What a subscriber holds after an emitted delta: per key the last positive row if there is
    one, nothing if there are only negative ones, and what it held before otherwise. *)
Lemma materialize_translate out txid lsn cols m k :
  drop_deletes = false ->
  materialize m (translate_output ts out txid lsn cols) !! k =
  match last_pos out k with
  | Some row => Some (row_to_json_cols ts row cols)
  | None => if has_neg out k then None else m !! k
  end.
Proof.
  intros Hdd. unfold translate_output. destruct (foldl _ _ out) as [[pos neg] order] eqn:E.
  destruct (translate_fold _ _ _ _ E) as (Hpos & Hneg & Hord). clear E. rewrite Hdd, materialize_app.
  rewrite (materialize_deletes (λ pk, bool_decide (pk ∈ neg) &&
                                      negb (bool_decide (is_Some (pos !! pk)) || false))).
  rewrite (materialize_upserts (λ pk, pos !! pk)). rewrite <- Hpos.
  destruct (pos !! k) as [row|] eqn:Ep; simpl.
  - rewrite !andb_false_r. rewrite bool_decide_eq_true_2; [done|]. apply Hord. left. by rewrite Ep.
  - rewrite andb_true_r. destruct (has_neg out k) eqn:En.
    + assert (Hin : k ∈ neg) by by apply Hneg.
      rewrite !bool_decide_eq_true_2; [done|done|]. apply Hord. by right.
    + rewrite (bool_decide_eq_false_2 (k ∈ neg)) by (rewrite Hneg; congruence).
      rewrite andb_false_r. by case_bool_decide.
Qed.
End facts.
