(* ===== verification/Executors.v ===== *)
(** * Row-shape executors ([src/apps/engine/src/engine/executors.rs])

    The per-shape structures of the fan-out: the stateless filter of a standalone shape, the
    [StandaloneIndex] over necessary conjuncts that finds the shapes a change can touch, and the
    [KeyRouter] of the equality shapes.  The index is correct when every placed shape is filed in
    exactly one bucket ([index_ok]); then [candidates] misses no shape that matches. *)

From S2P Require Import Prelude BTree Value TableRef Schema Predicate PredicateFacts Gate Output.
From stdpp Require Import base option numbers strings gmap fin_maps sorting list.
#[local] Open Scope Z_scope.

(* ------------------------------------------------------------------ *)
(** ** Standalone shapes *)

Record StandaloneShape : Type := mkStandalone {
  ss_pred : CompiledPredicate;
  ss_stream_path : str;
  ss_gate : SnapshotGate;
  ss_out_cols : option (list nat)
}.

(** [eval_standalone]. *)
Definition eval_standalone `{FaultEnv} (pred : CompiledPredicate) (delta : Delta) : Delta :=
  filter (λ rw, matches pred rw.1 = true) delta.

(* ------------------------------------------------------------------ *)
(** ** The conjunct index *)

Abbreviation Bounds := (gmap nat (btree Value (list (str * bool)))).

Record StandaloneIndex : Type := mkIndex {
  ix_eq : gmap nat (gmap Value (list str));
  ix_lower : Bounds;
  ix_upper : Bounds;
  ix_scan : list str;
  ix_placed : gmap str (option AccessLeaf)
}.

(** [StandaloneIndex::default]. *)
Definition index_empty : StandaloneIndex := mkIndex ∅ ∅ ∅ [] ∅.

(** [entry(col).or_default().entry(value).or_default().push(..)], on a hash map of values and on an
    ordered one. *)
Definition eq_push (m : gmap nat (gmap Value (list str))) (col : nat) (value : Value) (sid : str)
  : gmap nat (gmap Value (list str)) :=
  let by_val := default ∅ (m !! col) in
  <[col := <[vkey value := default [] (by_val !! vkey value) ++ [sid]]> by_val]> m.
Definition bound_push (m : Bounds) (col : nat) (value : Value) (e : str * bool) : Bounds :=
  <[col := bt_upsert value_cmp value [] (λ l, l ++ [e]) (default [] (m !! col))]> m.

(** [StandaloneIndex::insert]. *)
Definition index_insert (sid : str) (pred : CompiledPredicate) (ix : StandaloneIndex)
  : StandaloneIndex :=
  let leaf := access_leaf pred in
  let placed := <[sid := leaf]> (ix_placed ix) in
  match leaf with
  | Some (LEq col value) =>
      mkIndex (eq_push (ix_eq ix) col value sid) (ix_lower ix) (ix_upper ix) (ix_scan ix) placed
  | Some (LLower col value strict) =>
      mkIndex (ix_eq ix) (bound_push (ix_lower ix) col value (sid, strict)) (ix_upper ix)
              (ix_scan ix) placed
  | Some (LUpper col value strict) =>
      mkIndex (ix_eq ix) (ix_lower ix) (bound_push (ix_upper ix) col value (sid, strict))
              (ix_scan ix) placed
  | None => mkIndex (ix_eq ix) (ix_lower ix) (ix_upper ix) (ix_scan ix ++ [sid]) placed
  end.

(** [StandaloneIndex::remove_bound]; emptied buckets and columns are dropped. *)
Definition remove_bound (m : Bounds) (col : nat) (value : Value) (sid : str) : Bounds :=
  match m !! col with
  | None => m
  | Some by_val =>
      match bt_lookup value_cmp value by_val with
      | None => m
      | Some sids =>
          let sids := filter (λ e, e.1 <> sid) sids in
          if bool_decide (sids = []) then
            let by_val := bt_remove value_cmp value by_val in
            if bool_decide (by_val = []) then delete col m else <[col := by_val]> m
          else <[col := bt_insert value_cmp value sids by_val]> m
      end
  end.

(** The equality arm of [StandaloneIndex::remove]. *)
Definition remove_eq (m : gmap nat (gmap Value (list str))) (col : nat) (value : Value) (sid : str)
  : gmap nat (gmap Value (list str)) :=
  match m !! col with
  | None => m
  | Some by_val =>
      match by_val !! vkey value with
      | None => m
      | Some sids =>
          let sids := filter (λ s, s <> sid) sids in
          if bool_decide (sids = []) then
            let by_val := delete (vkey value) by_val in
            if bool_decide (by_val = ∅) then delete col m else <[col := by_val]> m
          else <[col := <[vkey value := sids]> by_val]> m
      end
  end.

(** [StandaloneIndex::remove]. *)
Definition index_remove (sid : str) (ix : StandaloneIndex) : StandaloneIndex :=
  match ix_placed ix !! sid with
  | None => ix
  | Some leaf =>
      let placed := delete sid (ix_placed ix) in
      match leaf with
      | Some (LEq col value) =>
          mkIndex (remove_eq (ix_eq ix) col value sid) (ix_lower ix) (ix_upper ix) (ix_scan ix) placed
      | Some (LLower col value _) =>
          mkIndex (ix_eq ix) (remove_bound (ix_lower ix) col value sid) (ix_upper ix) (ix_scan ix) placed
      | Some (LUpper col value _) =>
          mkIndex (ix_eq ix) (ix_lower ix) (remove_bound (ix_upper ix) col value sid) (ix_scan ix) placed
      | None =>
          mkIndex (ix_eq ix) (ix_lower ix) (ix_upper ix) (filter (λ s, s <> sid) (ix_scan ix)) placed
      end
  end.

(** The shapes of the bounds in a range that the cell satisfies: at the bound itself only the
    non-strict ones. *)
Definition bound_ids (cell : Value) (range : btree Value (list (str * bool))) : list str :=
  concat (map (λ b : Value * list (str * bool),
                 (filter (λ e : str * bool, value_eqb b.1 cell && e.2 = false) b.2).*1) range).

(** The body of the row loop of [StandaloneIndex::candidates]. *)
Definition row_candidates (ix : StandaloneIndex) (row : Row) : list str :=
  concat (map (λ cb : nat * gmap Value (list str),
                 match row !! cb.1 with
                 | Some cell => default [] (cb.2 !! vkey cell)
                 | None => []
                 end) (map_to_list (ix_eq ix))) ++
  concat (map (λ cb : nat * btree Value (list (str * bool)),
                 match row !! cb.1 with
                 | Some cell => if value_is_null cell then []
                                else bound_ids cell (bt_range_to value_cmp cell cb.2)
                 | None => []
                 end) (map_to_list (ix_lower ix))) ++
  concat (map (λ cb : nat * btree Value (list (str * bool)),
                 match row !! cb.1 with
                 | Some cell => if value_is_null cell then []
                                else bound_ids cell (bt_range_from value_cmp cell cb.2)
                 | None => []
                 end) (map_to_list (ix_upper ix))).

(** [StandaloneIndex::candidates]: a set, whose iteration order is unspecified. *)
Definition candidates (ix : StandaloneIndex) (delta : Delta) : gset str :=
  list_to_set (ix_scan ix ++ concat (map (λ rw, row_candidates ix rw.1) delta)).

(* ------------------------------------------------------------------ *)
(** ** Equality routing *)

Record RoutedShape : Type := mkRouted {
  rs_num_id : Z;
  rs_stream_path : str;
  rs_gate : SnapshotGate;
  rs_out_cols : option (list nat)
}.

Record KeyRouter : Type := mkRouter {
  kr_key_cols : list nat;
  kr_index : gmap Row (list RoutedShape)
}.

(** [KeyRouter::member_count]. *)
Definition member_count (r : KeyRouter) : nat :=
  map_fold (λ _ v n, length v + n)%nat 0%nat (kr_index r).

(** [key_of]. *)
Definition key_of (row : Row) (cols : list nat) : Row := cell row <$> cols.

(** [resolve_columns]; [sort_unstable] and [dedup] on indices. *)
Fixpoint dedup (l : list nat) : list nat :=
  match l with
  | a :: (b :: _) as l' => if (a =? b)%nat then dedup l' else a :: dedup l'
  | _ => l
  end.
Definition resolve_columns (ts : TableSchema) (columns : option (list str))
  : res str (option (list nat)) :=
  match columns with
  | None => Ok None
  | Some names =>
      idxs ← try_map (column_index ts) names;
      let idxs := foldl (λ idxs pk, if bool_decide (pk ∈ idxs) then idxs else idxs ++ [pk])
                        idxs (ts_pk_cols ts) in
      Ok (Some (dedup (stable_sort Nat.leb idxs)))
  end.

(* ================================================================== *)
(** * The index files every shape exactly where its leaf says *)

(** Reading a bucket. *)
Definition eq_bucket (m : gmap nat (gmap Value (list str))) (col : nat) (v : Value) : list str :=
  default [] (default ∅ (m !! col) !! vkey v).
Definition bound_bucket (m : Bounds) (col : nat) (v : Value) : list (str * bool) :=
  default [] (bt_lookup value_cmp v (default [] (m !! col))).

Definition filed (ix : StandaloneIndex) (sid : str) (leaf : option AccessLeaf) : Prop :=
  match leaf with
  | Some (LEq col v) => sid ∈ eq_bucket (ix_eq ix) col v
  | Some (LLower col v s) => (sid, s) ∈ bound_bucket (ix_lower ix) col v
  | Some (LUpper col v s) => (sid, s) ∈ bound_bucket (ix_upper ix) col v
  | None => sid ∈ ix_scan ix
  end.

(** Leaves up to the equality of literals the maps use. *)
Definition leaf_norm (l : AccessLeaf) : AccessLeaf :=
  match l with
  | LEq c v => LEq c (vkey v)
  | LLower c v s => LLower c (vkey v) s
  | LUpper c v s => LUpper c (vkey v) s
  end.

Definition bounds_sorted (m : Bounds) : Prop := map_Forall (λ _ b, bt_sorted value_cmp b) m.

Record index_ok (ix : StandaloneIndex) : Prop := {
  iok_lower : bounds_sorted (ix_lower ix);
  iok_upper : bounds_sorted (ix_upper ix);
  iok_filed : forall sid leaf, filed ix sid leaf <->
    exists leaf', ix_placed ix !! sid = Some leaf' /\ (leaf_norm <$> leaf) = (leaf_norm <$> leaf');
  iok_literal : forall sid l, ix_placed ix !! sid = Some (Some l) -> value_is_null (leaf_value l) = false
}.

(** ** Buckets *)

Lemma value_cmp_refl v : value_cmp v v = Eq.
Proof. apply (cmp_refl value_cmp). Qed.

Lemma value_cmp_dec v w : {vkey v = vkey w /\ value_cmp v w = Eq} + {vkey v <> vkey w /\ value_cmp v w <> Eq}.
Proof.
  destruct (decide (vkey v = vkey w)) as [H|H]; [left|right]; (split; [done|]);
    by rewrite value_cmp_Eq_vkey.
Qed.

Lemma eq_bucket_push m c v sid c' v' :
  eq_bucket (eq_push m c v sid) c' v' =
  if bool_decide (c' = c /\ vkey v' = vkey v) then eq_bucket m c' v' ++ [sid] else eq_bucket m c' v'.
Proof.
  unfold eq_bucket, eq_push. destruct (decide (c' = c)) as [->|Hc].
  - rewrite lookup_insert_eq. simpl. destruct (decide (vkey v' = vkey v)) as [E|Hv].
    + rewrite E, lookup_insert_eq, bool_decide_eq_true_2 by done. done.
    + rewrite lookup_insert_ne, (bool_decide_eq_false_2 (_ /\ vkey v' = vkey v)) by (done || intros [??]; congruence). done.
  - rewrite lookup_insert_ne, (bool_decide_eq_false_2 (_ /\ vkey v' = vkey v)) by (done || intros [??]; congruence). done.
Qed.

Lemma eq_bucket_remove m c v sid c' v' :
  eq_bucket (remove_eq m c v sid) c' v' =
  if bool_decide (c' = c /\ vkey v' = vkey v)
  then filter (λ s, s <> sid) (eq_bucket m c' v') else eq_bucket m c' v'.
Proof.
  unfold eq_bucket, remove_eq. case_bool_decide as Hk.
  - destruct Hk as [-> ->]. destruct (m !! c) as [bv|] eqn:Em; simpl; [|by rewrite Em].
    destruct (bv !! vkey v) as [sids|] eqn:Eb; simpl; [|by rewrite Em; simpl; rewrite Eb].
    case_bool_decide as Hs.
    + case_bool_decide as Hd.
      * rewrite lookup_delete_eq. simpl. by rewrite lookup_empty, Hs.
      * rewrite lookup_insert_eq. simpl. by rewrite lookup_delete_eq, Hs.
    + rewrite lookup_insert_eq. simpl. by rewrite lookup_insert_eq.
  - destruct (m !! c) as [bv|] eqn:Em; [|done]. destruct (bv !! vkey v) as [sids|] eqn:Eb; [|done].
    destruct (decide (c' = c)) as [->|Hc].
    + assert (vkey v' <> vkey v) by naive_solver. rewrite Em. simpl.
      repeat case_bool_decide; rewrite ?lookup_insert_eq, ?lookup_delete_eq; simpl;
        rewrite ?lookup_insert_ne, ?lookup_delete_ne by done; try done.
      assert (bv !! vkey v' = None) as ->; [|done].
      rewrite <- (lookup_delete_ne bv (vkey v)) by done. by rewrite H1.
    + repeat case_bool_decide; rewrite ?lookup_insert_ne, ?lookup_delete_ne by done; done.
Qed.

Lemma bounds_sorted_col m c : bounds_sorted m -> bt_sorted value_cmp (default [] (m !! c)).
Proof.
  intros H. destruct (m !! c) eqn:E; simpl; [by eapply H|constructor].
Qed.

Lemma bound_push_sorted m c v e : bounds_sorted m -> bounds_sorted (bound_push m c v e).
Proof.
  intros H. apply map_Forall_insert_2; [|done]. apply bt_insert_sorted; [apply _|].
  by apply bounds_sorted_col.
Qed.

Lemma remove_bound_sorted m c v sid : bounds_sorted m -> bounds_sorted (remove_bound m c v sid).
Proof.
  intros H. unfold remove_bound. destruct (m !! c) as [b|] eqn:Em; [|done].
  assert (bt_sorted value_cmp b) by by eapply H.
  destruct (bt_lookup value_cmp v b); [|done]. repeat case_bool_decide.
  - by apply map_Forall_delete.
  - apply map_Forall_insert_2; [|done]. by apply bt_remove_sorted.
  - apply map_Forall_insert_2; [|done]. apply bt_insert_sorted; [apply _|done].
Qed.

Lemma bt_lookup_vkey {V} v w (b : btree Value V) :
  vkey v = vkey w -> bt_lookup value_cmp v b = bt_lookup value_cmp w b.
Proof.
  intros H%value_cmp_Eq_vkey. induction b as [|[k x] b IH]; simpl; [done|].
  rewrite (cmp_eq_subst (cmp:=value_cmp) v w) by done. by destruct (value_cmp w k).
Qed.

Lemma bound_bucket_push m c v e c' v' :
  bounds_sorted m ->
  bound_bucket (bound_push m c v e) c' v' =
  if bool_decide (c' = c /\ vkey v' = vkey v) then bound_bucket m c' v' ++ [e] else bound_bucket m c' v'.
Proof.
  intros Hs. unfold bound_bucket, bound_push. destruct (decide (c' = c)) as [->|Hc].
  - rewrite lookup_insert_eq. simpl. unfold bt_upsert.
    rewrite (bt_lookup_insert value_cmp) by by apply bounds_sorted_col.
    destruct (value_cmp_dec v' v) as [[Hk Hc]|[Hk Hc]].
    + rewrite Hc, bool_decide_eq_true_2 by done. simpl. by rewrite (bt_lookup_vkey v' v).
    + rewrite (bool_decide_eq_false_2 (_ /\ vkey v' = vkey v)) by (intros [??]; congruence). by destruct (value_cmp v' v).
  - by rewrite lookup_insert_ne, (bool_decide_eq_false_2 (_ /\ vkey v' = vkey v)) by (done || intros [??]; congruence).
Qed.

Lemma bound_bucket_remove m c v sid c' v' :
  bounds_sorted m ->
  bound_bucket (remove_bound m c v sid) c' v' =
  if bool_decide (c' = c /\ vkey v' = vkey v)
  then filter (λ e, e.1 <> sid) (bound_bucket m c' v') else bound_bucket m c' v'.
Proof.
  intros Hs. unfold bound_bucket, remove_bound.
  destruct (m !! c) as [b|] eqn:Em.
  2: { case_bool_decide as Hk; [|done]. destruct Hk as [-> _]. by rewrite Em. }
  assert (Hb : bt_sorted value_cmp b) by by eapply Hs.
  destruct (bt_lookup value_cmp v b) as [sids|] eqn:Eb.
  2: { case_bool_decide as Hk; [|done]. destruct Hk as [-> Hv]. rewrite Em. simpl.
       by rewrite (bt_lookup_vkey v' v), Eb. }
  destruct (decide (c' = c)) as [->|Hc].
  2: { rewrite (bool_decide_eq_false_2 (_ /\ vkey v' = vkey v)) by (intros [??]; congruence).
       repeat case_bool_decide; by rewrite ?lookup_insert_ne, ?lookup_delete_ne by done. }
  rewrite Em. simpl. destruct (value_cmp_dec v' v) as [[Hk Hc]|[Hk Hc]].
  - rewrite (bool_decide_eq_true_2 (c = c /\ vkey v' = vkey v)), (bt_lookup_vkey v' v b), Eb by done. simpl.
    case_bool_decide as Hf; [case_bool_decide as Hr|];
      rewrite ?lookup_insert_eq, ?lookup_delete_eq; simpl.
    + by rewrite Hf.
    + by rewrite (bt_lookup_remove value_cmp), Hc, Hf by done.
    + by rewrite (bt_lookup_insert value_cmp), Hc by done.
  - rewrite (bool_decide_eq_false_2 (_ /\ vkey v' = vkey v)) by (intros [??]; congruence).
    assert (H : bt_lookup value_cmp v' (bt_remove value_cmp v b) = bt_lookup value_cmp v' b).
    { rewrite (bt_lookup_remove value_cmp) by done. by destruct (value_cmp v' v). }
    case_bool_decide as Hf; [case_bool_decide as Hr|];
      rewrite ?lookup_insert_eq, ?lookup_delete_eq; simpl.
    + by rewrite <- H, Hr.
    + by rewrite H.
    + rewrite (bt_lookup_insert value_cmp) by done. by destruct (value_cmp v' v).
Qed.

(** ** Insertion and removal *)

Lemma index_empty_ok : index_ok index_empty.
Proof.
  split; [apply map_Forall_empty..| |done]. intros sid leaf. split; [|intros (? & [=] & _)].
  destruct leaf as [[]|]; simpl; unfold eq_bucket, bound_bucket; simpl; by intros ?%elem_of_nil.
Qed.

Lemma filed_insert ix sid pred sid' leaf' :
  index_ok ix ->
  filed (index_insert sid pred ix) sid' leaf' <->
  filed ix sid' leaf' \/ (sid' = sid /\ (leaf_norm <$> leaf') = (leaf_norm <$> access_leaf pred)).
Proof.
  intros [Hl Hu _ _]. unfold index_insert.
  destruct (access_leaf pred) as [[c v|c v s|c v s]|], leaf' as [[c' v'|c' v' s'|c' v' s']|]; simpl;
    rewrite ?eq_bucket_push, ?bound_bucket_push by done; try (case_bool_decide as Hk);
    rewrite ?elem_of_app, ?list_elem_of_singleton; try (destruct Hk as [-> Hk]);
    try (rewrite ?Hk; naive_solver).
  all: split; [by left|intros [|[-> [=]]]; [done|exfalso; apply Hk; split; congruence]].
Qed.

Lemma filed_remove ix sid sid' leaf leaf' :
  index_ok ix -> ix_placed ix !! sid = Some leaf ->
  filed (index_remove sid ix) sid' leaf' <-> filed ix sid' leaf' /\ sid' <> sid.
Proof.
  intros [Hl Hu Hf _] Hp. assert (Hkey : forall l, filed ix sid l -> (leaf_norm <$> l) = (leaf_norm <$> leaf)).
  { intros l (? & ? & ?)%Hf. congruence. }
  assert (Hother : filed ix sid' leaf' -> (leaf_norm <$> leaf') <> (leaf_norm <$> leaf) -> sid' <> sid).
  { intros H Hne ->. by apply Hne, Hkey. }
  unfold index_remove. rewrite Hp.
  destruct leaf as [[c v|c v s|c v s]|], leaf' as [[c' v'|c' v' s'|c' v' s']|]; simpl in *;
    rewrite ?eq_bucket_remove, ?bound_bucket_remove by done; try (case_bool_decide as Hk);
    rewrite ?list_elem_of_filter; simpl; try naive_solver.
  all: split; [intros H; split; [done|apply Hother; [done|]]|by intros [? _]].
  all: intros [=]; apply Hk; split; congruence.
Qed.

Lemma index_insert_ok ix sid pred :
  ix_placed ix !! sid = None -> index_ok ix -> index_ok (index_insert sid pred ix).
Proof.
  intros Hfresh Hok. pose proof (filed_insert ix sid pred) as Hfi. destruct Hok as [Hl Hu Hf Hnn].
  assert (Hp : ix_placed (index_insert sid pred ix) = <[sid := access_leaf pred]> (ix_placed ix)).
  { unfold index_insert. by destruct (access_leaf pred) as [[]|]. }
  split.
  - unfold index_insert. destruct (access_leaf pred) as [[]|]; simpl; try done. by apply bound_push_sorted.
  - unfold index_insert. destruct (access_leaf pred) as [[]|]; simpl; try done. by apply bound_push_sorted.
  - intros sid' leaf'. rewrite Hfi by done. rewrite Hp, Hf.
    destruct (decide (sid' = sid)) as [->|Hne].
    + rewrite lookup_insert_eq, Hfresh. naive_solver.
    + rewrite lookup_insert_ne by done. naive_solver.
  - intros sid' l. rewrite Hp, lookup_insert_Some. intros [[_ [= Hl']]|[_ ?]]; [|by eapply Hnn].
    by eapply access_leaf_nonnull.
Qed.

Lemma index_remove_ok ix sid : index_ok ix -> index_ok (index_remove sid ix).
Proof.
  intros Hok. destruct (ix_placed ix !! sid) as [leaf|] eqn:Hp.
  2: { unfold index_remove. by rewrite Hp. }
  pose proof (λ s l, filed_remove ix sid s leaf l Hok Hp) as Hfr. destruct Hok as [Hl Hu Hf Hnn].
  assert (Hp' : ix_placed (index_remove sid ix) = delete sid (ix_placed ix)).
  { unfold index_remove. rewrite Hp. by destruct leaf as [[]|]. }
  split.
  - unfold index_remove. rewrite Hp. destruct leaf as [[]|]; simpl; try done. by apply remove_bound_sorted.
  - unfold index_remove. rewrite Hp. destruct leaf as [[]|]; simpl; try done. by apply remove_bound_sorted.
  - intros sid' leaf'. rewrite Hfr, Hp', Hf. destruct (decide (sid' = sid)) as [->|Hne].
    + rewrite lookup_delete_eq. naive_solver.
    + rewrite lookup_delete_ne by done. naive_solver.
  - intros sid' l. rewrite Hp', lookup_delete_Some. intros [_ ?]. by eapply Hnn.
Qed.

(** The index of a set of placed shapes, in the order of the operations that built it. *)
Inductive IndexOp : Type := IxInsert (sid : str) (pred : CompiledPredicate) | IxRemove (sid : str).

Definition index_op (ix : StandaloneIndex) (op : IndexOp) : StandaloneIndex :=
  match op with
  | IxInsert sid pred => index_insert sid pred ix
  | IxRemove sid => index_remove sid ix
  end.
Definition preds_op (m : gmap str CompiledPredicate) (op : IndexOp) : gmap str CompiledPredicate :=
  match op with
  | IxInsert sid pred => <[sid := pred]> m
  | IxRemove sid => delete sid m
  end.

(** A shape id is placed once at a time: ids are never reused while the shape lives. *)
Fixpoint ops_fresh (m : gmap str CompiledPredicate) (ops : list IndexOp) : Prop :=
  match ops with
  | [] => True
  | op :: ops =>
      match op with IxInsert sid _ => m !! sid = None | IxRemove _ => True end /\
      ops_fresh (preds_op m op) ops
  end.

Lemma index_ops_ok ops : forall ix m,
  ops_fresh m ops -> index_ok ix -> ix_placed ix = access_leaf <$> m ->
  index_ok (foldl index_op ix ops) /\
  ix_placed (foldl index_op ix ops) = access_leaf <$> foldl preds_op m ops.
Proof.
  induction ops as [|op ops IH]; intros ix m Hfr Hok Hp; [done|]. destruct Hfr as [H Hfr]. simpl.
  apply (IH _ (preds_op m op)); [done|..].
  - destruct op as [sid pred|sid]; simpl.
    + apply index_insert_ok; [|done]. by rewrite Hp, lookup_fmap, H.
    + by apply index_remove_ok.
  - destruct op as [sid pred|sid]; simpl.
    + rewrite fmap_insert, <- Hp. unfold index_insert. by destruct (access_leaf pred) as [[]|].
    + rewrite fmap_delete, <- Hp. unfold index_remove.
      destruct (ix_placed ix !! sid) as [[[]|]|] eqn:E; simpl; try done. by rewrite delete_id.
Qed.

(** ** Candidates *)

Lemma elem_of_concat_map {A B} (f : A -> list B) l y : y ∈ concat (map f l) <-> exists x, x ∈ l /\ y ∈ f x.
Proof.
  induction l as [|a l IH]; simpl.
  - split; [by intros ?%elem_of_nil|by intros (? & ?%elem_of_nil & _)].
  - rewrite elem_of_app, IH. setoid_rewrite elem_of_cons. naive_solver.
Qed.

Lemma eq_bucket_spec m col v sid :
  sid ∈ eq_bucket m col v <->
  exists by_val sids, m !! col = Some by_val /\ by_val !! vkey v = Some sids /\ sid ∈ sids.
Proof.
  unfold eq_bucket. destruct (m !! col) as [bv|]; simpl.
  - destruct (bv !! vkey v) as [sids|] eqn:E; simpl; [naive_solver|].
    split; [by intros ?%elem_of_nil|naive_solver].
  - rewrite lookup_empty. simpl. split; [by intros ?%elem_of_nil|naive_solver].
Qed.

Lemma bound_ids_spec cell range sid :
  sid ∈ bound_ids cell range <->
  exists v sids s, (v, sids) ∈ range /\ (sid, s) ∈ sids /\ (value_eqb v cell && s) = false.
Proof.
  unfold bound_ids. rewrite elem_of_concat_map. setoid_rewrite list_elem_of_fmap.
  setoid_rewrite list_elem_of_filter. split.
  - intros ([v sids] & Hin & [[s b] [-> [Hc Hs]]]). by exists v, sids, b.
  - intros (v & sids & s & Hin & Hs & Hc). exists (v, sids). split; [done|]. by exists (sid, s).
Qed.

Lemma bound_bucket_spec m col v e :
  bounds_sorted m ->
  e ∈ bound_bucket m col v <->
  exists b v' sids, m !! col = Some b /\ (v', sids) ∈ b /\ value_cmp v v' = Eq /\ e ∈ sids.
Proof.
  intros Hs. unfold bound_bucket. destruct (m !! col) as [b|] eqn:Em; simpl.
  2: { split; [by intros ?%elem_of_nil|naive_solver]. }
  assert (Hb : bt_sorted value_cmp b) by by eapply Hs.
  destruct (bt_lookup value_cmp v b) as [sids|] eqn:E; simpl.
  - apply (bt_lookup_elem value_cmp) in E as Hv; [|done]. destruct Hv as (v' & Hin & Hc). split.
    + intros He. by exists b, v', sids.
    + intros (b' & v'' & sids' & [= <-] & Hin' & Hc' & He).
      assert (bt_lookup value_cmp v b = Some sids') as E'.
      { apply (bt_lookup_elem value_cmp); [done|]. by exists v''. }
      congruence.
  - split; [by intros ?%elem_of_nil|]. intros (b' & v'' & sids' & [= <-] & Hin' & Hc' & He).
    assert (bt_lookup value_cmp v b = Some sids') as E'.
    { apply (bt_lookup_elem value_cmp); [done|]. by exists v''. }
    congruence.
Qed.

Lemma cell_Some row col v : row !! col = Some v -> cell row col = v.
Proof. unfold cell. by intros ->. Qed.

Lemma cell_present row col : value_is_null (cell row col) = false -> row !! col = Some (cell row col).
Proof. unfold cell. by destruct (row !! col). Qed.

(** The side of a bound, read as a range scan reads it. *)
Lemma range_to_side v c (s : bool) :
  value_cmp v c <> Gt /\ (value_eqb v c && s) = false <->
  value_cmp c v = Gt \/ (s = false /\ value_cmp c v = Eq).
Proof.
  unfold value_eqb. rewrite (cmp_antisym (cmp:=value_cmp) v c).
  destruct (value_cmp v c), s; simpl; naive_solver.
Qed.

Lemma range_from_side v c (s : bool) :
  value_cmp c v <> Gt /\ (value_eqb v c && s) = false <->
  value_cmp c v = Lt \/ (s = false /\ value_cmp c v = Eq).
Proof.
  unfold value_eqb. rewrite (cmp_antisym (cmp:=value_cmp) c v).
  destruct (value_cmp c v), s; simpl; naive_solver.
Qed.

Lemma row_candidates_spec ix row sid :
  bounds_sorted (ix_lower ix) -> bounds_sorted (ix_upper ix) ->
  sid ∈ row_candidates ix row <->
  (exists col c, row !! col = Some c /\ filed ix sid (Some (LEq col c))) \/
  (exists col c v s, row !! col = Some c /\ value_is_null c = false /\
     filed ix sid (Some (LLower col v s)) /\
     (value_cmp c v = Gt \/ (s = false /\ value_cmp c v = Eq))) \/
  (exists col c v s, row !! col = Some c /\ value_is_null c = false /\
     filed ix sid (Some (LUpper col v s)) /\
     (value_cmp c v = Lt \/ (s = false /\ value_cmp c v = Eq))).
Proof.
  intros Hl Hu. unfold row_candidates. rewrite !elem_of_app, !elem_of_concat_map. simpl.
  assert (Hmid : forall (m : Bounds) (range : Value -> btree Value (list (str * bool)) -> btree Value (list (str * bool)))
      (side : Value -> Value -> bool -> Prop),
    bounds_sorted m ->
    (forall c v sids b, (v, sids) ∈ range c b -> (v, sids) ∈ b) ->
    (forall c v v' s, value_cmp v v' = Eq -> side c v s -> side c v' s) ->
    (forall c v s sids b, (v, sids) ∈ b -> side c v s <->
       (v, sids) ∈ range c b /\ (value_eqb v c && s) = false) ->
    (exists x : nat * btree Value (list (str * bool)), x ∈ map_to_list m /\
       sid ∈ match row !! x.1 with
             | Some cell => if value_is_null cell then [] else bound_ids cell (range cell x.2)
             | None => []
             end) <->
    exists col c v s, row !! col = Some c /\ value_is_null c = false /\
      (sid, s) ∈ bound_bucket m col v /\ side c v s).
  { intros m range side Hm Hsub Hprop Hside. split.
    - intros ([col b] & Hin%elem_of_map_to_list & Hs). simpl in Hs.
      destruct (row !! col) as [c|] eqn:Hc; [|by apply elem_of_nil in Hs].
      destruct (value_is_null c) eqn:Hn; [by apply elem_of_nil in Hs|].
      apply bound_ids_spec in Hs as (v & sids & s & Hr & Hs & He).
      exists col, c, v, s. split_and!; [done..| |].
      + apply bound_bucket_spec; [done|]. exists b, v, sids. split_and!; [done|by eapply Hsub| |done].
        apply value_cmp_refl.
      + apply (Hside c v s sids b); [by eapply Hsub|done].
    - intros (col & c & v & s & Hc & Hn & Hb & Hsd).
      apply bound_bucket_spec in Hb as (b & v' & sids & Hm' & Hin & Hcmp & Hs); [|done].
      exists (col, b). rewrite elem_of_map_to_list. simpl. rewrite Hc, Hn. split; [done|].
      apply bound_ids_spec. exists v', sids, s.
      assert (side c v' s) as [? ?]%(Hside c v' s sids b); [by eapply Hprop|by split_and!|done]. }
  set (lower_side := λ (c v : Value) (s : bool), value_cmp c v = Gt \/ (s = false /\ value_cmp c v = Eq)).
  set (upper_side := λ (c v : Value) (s : bool), value_cmp c v = Lt \/ (s = false /\ value_cmp c v = Eq)).
  rewrite (Hmid _ (bt_range_to value_cmp) lower_side Hl), (Hmid _ (bt_range_from value_cmp) upper_side Hu).
  2, 5: intros c v sids b; unfold bt_range_to, bt_range_from; rewrite list_elem_of_filter; by intros [_ ?].
  2, 4: intros c v v' s He; unfold lower_side, upper_side; by rewrite !(cmp_eq_subst_r value_cmp v v' c).
  2: { intros c v s sids b Hin. unfold bt_range_from. rewrite list_elem_of_filter. simpl.
       pose proof (range_from_side v c s). unfold upper_side. naive_solver. }
  2: { intros c v s sids b Hin. unfold bt_range_to. rewrite list_elem_of_filter. simpl.
       pose proof (range_to_side v c s). unfold lower_side. naive_solver. }
  simpl. apply or_iff_compat_r. split.
  - intros ([col bv] & Hin%elem_of_map_to_list & Hs). simpl in Hs.
    destruct (row !! col) as [c|] eqn:Hc; [|by apply elem_of_nil in Hs].
    destruct (bv !! vkey c) as [sids|] eqn:Hb; [|by apply elem_of_nil in Hs].
    exists col, c. split; [done|]. apply eq_bucket_spec. by exists bv, sids.
  - intros (col & c & Hc & (bv & sids & Hm & Hb & Hs)%eq_bucket_spec).
    exists (col, bv). rewrite elem_of_map_to_list. simpl. by rewrite Hc, Hb.
Qed.

(** the conjunct index answers exactly. After any sequence of registrations and removals (an id
    is registered once at a time), the candidates for a delta are the registered shapes that have
    no indexed conjunct together with those whose conjunct admits some row of the delta. *)
Theorem candidates_spec ops delta sid :
  ops_fresh ∅ ops ->
  sid ∈ candidates (foldl index_op index_empty ops) delta <->
  exists pred, foldl preds_op ∅ ops !! sid = Some pred /\
    match access_leaf pred with
    | None => True
    | Some l => exists row w, (row, w) ∈ delta /\ leaf_admits l row
    end.
Proof.
  intros Hfr. destruct (index_ops_ok ops index_empty ∅ Hfr index_empty_ok) as [Hok Hp].
  { unfold index_empty. simpl. by rewrite fmap_empty. }
  set (ix := foldl index_op index_empty ops) in *. set (m := foldl preds_op ∅ ops) in *.
  clearbody ix m. destruct Hok as [Hl Hu Hf Hnn]. unfold candidates.
  rewrite elem_of_list_to_set, elem_of_app, elem_of_concat_map.
  setoid_rewrite (row_candidates_spec ix); [|done..].
  change (sid ∈ ix_scan ix) with (filed ix sid None). setoid_rewrite Hf.
  rewrite Hp, lookup_fmap. rewrite Hp in Hnn. split.
  - intros [(l & Hl' & Hn)|([row w] & Hin & Hrow)].
    + destruct (m !! sid) as [pred|]; [|done]. exists pred. split; [done|].
      injection Hl' as <-. by destruct (access_leaf pred).
    + destruct Hrow as [(col & c & Hc & l & Hl' & Hn)|[(col & c & v & s & Hc & Hnull & (l & Hl' & Hn) & Hs)
                        |(col & c & v & s & Hc & Hnull & (l & Hl' & Hn) & Hs)]];
        simpl in Hc; destruct (m !! sid) as [pred|] eqn:Em; try done; exists pred; (split; [done|]);
        injection Hl' as <-; specialize (Hnn sid); rewrite lookup_fmap, Em in Hnn; simpl in Hnn;
        destruct (access_leaf pred) as [[c' v'|c' v' s'|c' v' s']|]; try done;
        simpl in Hn; injection Hn as -> Hn; simplify_eq; exists row, w; (split; [done|]); simpl;
        specialize (Hnn _ eq_refl); simpl in Hnn; rewrite (cell_Some row c' c) by done.
      * split; [|by apply value_eqb_vkey]. destruct c; [|done..]. by destruct v' as [| | | |[]].
      * rewrite !(cmp_eq_subst_r value_cmp v' v c) by (apply value_cmp_Eq_vkey; symmetry; exact Hn).
        split; [done|]. naive_solver.
      * rewrite !(cmp_eq_subst_r value_cmp v' v c) by (apply value_cmp_Eq_vkey; symmetry; exact Hn).
        split; [done|]. naive_solver.
  - intros (pred & Em & Hl'). rewrite Em. simpl. destruct (access_leaf pred) as [l|]; [right|left; by exists None].
    destruct Hl' as (row & w & Hin & Ha). exists (row, w). split; [done|]. simpl.
    destruct l as [c v|c v s|c v s]; simpl in Ha; destruct Ha as [Hnull Ha];
      pose proof (cell_present _ _ Hnull) as Hc.
    + left. exists c, (cell row c). split; [done|]. eexists. split; [done|]. simpl.
      apply value_eqb_vkey in Ha. by rewrite Ha.
    + right; left. exists c, (cell row c), v, s. split_and!; [done..| |done]. by eexists.
    + right; right. exists c, (cell row c), v, s. split_and!; [done..| |done]. by eexists.
Qed.
