(* ===== verification/Aggregates.v ===== *)
(** * Aggregates ([src/apps/engine/src/engine/executors.rs])

    The incremental folds COUNT, SUM, AVG, MIN and MAX.  [fold_agg_row] is the one rule both the
    seed ([AggSeed]) and the live path ([AggShape]) fold with; the four running terms are
    [AggTerms].  The reference is the fold over the rows that match now: [terms_of] says what the
    terms must be for a bag of rows, and a retraction undoes exactly one insertion. *)

From S2P Require Import Prelude BTree Value TableRef Schema Predicate Gate Output.
From stdpp Require Import base option numbers strings gmap fin_maps sorting list.
#[local] Open Scope Z_scope.

(* ------------------------------------------------------------------ *)
(** ** Definitions *)

Inductive AggFn : Type := AggCount | AggSumFn | AggAvg | AggMin | AggMax.

#[export] Instance AggFn_eq_dec : EqDecision AggFn.
Proof. solve_decision. Defined.

(** [value_f64]. *)
Definition value_f64 (v : Value) : f64 :=
  match v with
  | VInt i => f64_of_Z i
  | VFloat f => f
  | VBool b => if b then f64_of_Z 1 else f64_of_Z 0
  | _ => f64_of_Z 0
  end.

(** [AggSum]: exact in 128 bits, or a double. *)
Inductive AggSum : Type := SumInt (z : Z) | SumFloat (f : f64).

(** [AggSum::add]; release arithmetic wraps. *)
Definition agg_sum_add (s : AggSum) (v : Value) (w : Z) : AggSum :=
  match s with
  | SumFloat acc => SumFloat (f64_add acc (f64_mul (value_f64 v) (f64_of_Z w)))
  | SumInt acc =>
      match v with
      | VInt i => SumInt (wrap_i128 (acc + wrap_i128 (i * w)))
      | VBool b => SumInt (wrap_i128 (acc + wrap_i128 (Z.b2z b * w)))
      | _ => SumFloat (f64_add (f64_of_Z acc) (f64_mul (value_f64 v) (f64_of_Z w)))
      end
  end.

(** [AggSum::to_json], [as_f64]. *)
Definition agg_sum_to_json (s : AggSum) : json :=
  match s with
  | SumInt v => if Z.abs v <=? JSON_EXACT_INT_MAX then JNumber (NInt (wrap_i64 v))
                else JString (Z_to_str v)
  | SumFloat f => json_of_f64 f
  end.
Definition agg_sum_as_f64 (s : AggSum) : f64 :=
  match s with SumInt v => f64_of_Z v | SumFloat f => f end.

(** The running terms: [AggSeed], and the four mutable fields of [AggShape]. *)
Record AggTerms : Type := mkTerms {
  at_count : Z;
  at_nn_count : Z;
  at_sum : AggSum;
  at_multiset : btree Value Z
}.
Definition AggSeed_default : AggTerms := mkTerms 0 0 (SumInt 0) [].

Definition is_min_max (func : AggFn) : bool :=
  match func with AggMin | AggMax => true | _ => false end.

(** The [entry(v).or_insert(0) += w] of [fold_agg_row], with its removal at or below zero. *)
Definition multiset_add (m : btree Value Z) (v : Value) (w : Z) : btree Value Z :=
  let e := wrap_i64 (default 0 (bt_lookup value_cmp v m) + w) in
  if e <=? 0 then bt_remove value_cmp v m else bt_insert value_cmp v e m.

(** [fold_agg_row]. *)
Definition fold_agg_row (func : AggFn) (col : option nat) (row : Row) (w : Z) (t : AggTerms)
  : AggTerms :=
  let count := wrap_i64 (at_count t + w) in
  match col with
  | None => mkTerms count (at_nn_count t) (at_sum t) (at_multiset t)
  | Some ci =>
      let v := cell row ci in
      if value_is_null v then mkTerms count (at_nn_count t) (at_sum t) (at_multiset t)
      else mkTerms count (wrap_i64 (at_nn_count t + w)) (agg_sum_add (at_sum t) v w)
             (if is_min_max func then multiset_add (at_multiset t) v w else at_multiset t)
  end.

Record AggShape : Type := mkAgg {
  ag_pred : CompiledPredicate;
  ag_func : AggFn;
  ag_col : option nat;
  ag_stream_path : str;
  ag_gate : SnapshotGate;
  ag_terms : AggTerms;
  ag_last : option json
}.

Section agg.
Context {FE : FaultEnv}.

(** [AggSeed::fold_rows]. *)
Definition fold_rows (pred : CompiledPredicate) (func : AggFn) (col : option nat)
    (rows : list Row) (t : AggTerms) : AggTerms :=
  foldl (λ t row, if matches pred row then fold_agg_row func col row 1 t else t) t rows.

(** The loop of [AggShape::apply], on the terms. *)
Definition apply_terms (pred : CompiledPredicate) (func : AggFn) (col : option nat)
    (delta : Delta) (t : AggTerms) : AggTerms :=
  foldl (λ t rw, if matches pred rw.1 then fold_agg_row func col rw.1 rw.2 t else t) t delta.

(** [AggShape::apply]: the new state, and whether a matching row was seen. *)
Definition agg_apply (a : AggShape) (delta : Delta) : AggShape * bool :=
  (mkAgg (ag_pred a) (ag_func a) (ag_col a) (ag_stream_path a) (ag_gate a)
         (apply_terms (ag_pred a) (ag_func a) (ag_col a) delta (ag_terms a)) (ag_last a),
   existsb (λ rw, matches (ag_pred a) rw.1) delta).
End agg.

(** [AggShape::value]. *)
Definition agg_value_of (func : AggFn) (col : option nat) (t : AggTerms) : json :=
  match func with
  | AggCount => JNumber (NInt (if col then at_nn_count t else at_count t))
  | AggSumFn => if 0 <? at_nn_count t then agg_sum_to_json (at_sum t) else JNull
  | AggAvg => if 0 <? at_nn_count t
              then json_of_f64 (f64_div (agg_sum_as_f64 (at_sum t)) (f64_of_Z (at_nn_count t)))
              else JNull
  | AggMin => default JNull (to_json ∘ fst <$> head (at_multiset t))
  | AggMax => default JNull (to_json ∘ fst <$> last (at_multiset t))
  end.
Definition agg_value (a : AggShape) : json := agg_value_of (ag_func a) (ag_col a) (ag_terms a).

(** [AggShape::envelope]. *)
Definition agg_shape_envelope (a : AggShape) (ts : TableSchema) (txid lsn : option str) : Envelope :=
  agg_envelope (ts_table ts) (agg_value a) (at_count (ag_terms a)) txid lsn.

(* ================================================================== *)
(** * The fold is the aggregate of the rows that match now *)

(** The non-null values of the aggregated column. *)
Definition nn_values (col : option nat) (rows : list Row) : list Value :=
  match col with
  | None => []
  | Some ci => filter (λ v, value_is_null v = false) ((λ r, cell r ci) <$> rows)
  end.

Definition value_int (v : Value) : Z :=
  match v with VInt i => i | VBool b => Z.b2z b | _ => 0 end.
Definition int_like (v : Value) : Prop :=
  match v with VInt i => in_i64 i | VBool _ => True | _ => False end.
Definition sumZ (l : list Z) : Z := foldr Z.add 0 l.
Definition occurrences (v : Value) (l : list Value) : Z :=
  Z.of_nat (length (filter (λ w, vkey w = vkey v) l)).

(** What the terms hold when the matching rows are [rows]; [ints] says that the column is one whose
    values are integers or booleans, where the sum is exact. *)
Record terms_of (func : AggFn) (col : option nat) (ints : bool) (rows : list Row) (t : AggTerms)
  : Prop := {
  to_count : at_count t = Z.of_nat (length rows);
  to_nn_count : at_nn_count t = Z.of_nat (length (nn_values col rows));
  to_ints : ints = true -> Forall int_like (nn_values col rows);
  to_sum : ints = true -> at_sum t = SumInt (sumZ (value_int <$> nn_values col rows));
  to_sorted : bt_sorted value_cmp (at_multiset t);
  to_multiset : is_min_max func = true -> forall v,
    bt_lookup value_cmp v (at_multiset t) =
    (let n := occurrences v (nn_values col rows) in if 0 <? n then Some n else None)
}.

Lemma wrap_i64_small z : in_i64 z -> wrap_i64 z = z.
Proof. intros H. apply wrap_i_small; [lia|]. unfold in_i64, i64_min, i64_max in H. lia. Qed.

Lemma int_like_bound v : int_like v -> - 2 ^ 63 <= value_int v <= 2 ^ 63.
Proof.
  destruct v as [|i| |b|]; simpl; try done.
  - unfold in_i64, i64_min, i64_max. lia.
  - by destruct b.
Qed.

Lemma sumZ_bound l : Forall int_like l ->
  - (2 ^ 63 * Z.of_nat (length l)) <= sumZ (value_int <$> l) <= 2 ^ 63 * Z.of_nat (length l).
Proof.
  induction 1 as [|v l Hv _ IH]; csimpl; [lia|].
  apply int_like_bound in Hv. rewrite Nat2Z.inj_succ. unfold sumZ in *. simpl. lia.
Qed.

#[export] Instance sumZ_perm : Proper ((≡ₚ) ==> (=)) sumZ.
Proof. intros l l'. unfold sumZ. induction 1; simpl; lia. Qed.

Lemma agg_sum_add_int s v w :
  int_like v -> w = 1 \/ w = -1 ->
  - 2 ^ 127 <= s + value_int v * w < 2 ^ 127 ->
  agg_sum_add (SumInt s) v w = SumInt (s + value_int v * w).
Proof.
  intros Hv Hw Hs. pose proof (int_like_bound v Hv) as Hb.
  destruct v as [|i| |b|]; try done; cbn [agg_sum_add value_int] in *; unfold wrap_i128.
  - by rewrite (wrap_i_small 128 (i * w)), wrap_i_small by (destruct Hw; subst; lia).
  - by rewrite (wrap_i_small 128 (Z.b2z b * w)), wrap_i_small by (destruct Hw; subst; lia).
Qed.

Lemma occurrences_cons v x l :
  occurrences v (x :: l) = occurrences v l + (if bool_decide (vkey x = vkey v) then 1 else 0).
Proof.
  unfold occurrences. rewrite filter_cons. case_bool_decide as H.
  - rewrite decide_True by done. simpl. lia.
  - rewrite decide_False by done. lia.
Qed.

Lemma occurrences_bound v l : 0 <= occurrences v l <= Z.of_nat (length l).
Proof. unfold occurrences. pose proof (length_filter (λ w, vkey w = vkey v) l). lia. Qed.

Lemma nn_values_cons ci row rows :
  nn_values (Some ci) (row :: rows) =
  if value_is_null (cell row ci) then nn_values (Some ci) rows
  else cell row ci :: nn_values (Some ci) rows.
Proof.
  unfold nn_values. csimpl. rewrite filter_cons. destruct (value_is_null (cell row ci)).
  - by rewrite decide_False.
  - by rewrite decide_True.
Qed.

Lemma nn_values_length col rows : (length (nn_values col rows) <= length rows)%nat.
Proof.
  destruct col as [ci|]; simpl; [|lia]. rewrite length_filter, length_fmap. lia.
Qed.

#[local] Arguments nn_values : simpl never.
#[local] Arguments agg_sum_add : simpl never.
#[local] Arguments multiset_add : simpl never.
#[local] Arguments wrap_i64 : simpl never.

(** ** The multiset *)

Lemma multiset_add_sorted m v w :
  bt_sorted value_cmp m -> bt_sorted value_cmp (multiset_add m v w).
Proof.
  intros H. unfold multiset_add. destruct (_ <=? 0); [by apply bt_remove_sorted|].
  by apply bt_insert_sorted; [apply _|].
Qed.

Lemma multiset_add_lookup m v w k :
  bt_sorted value_cmp m ->
  bt_lookup value_cmp k (multiset_add m v w) =
  if bool_decide (vkey v = vkey k)
  then (let e := wrap_i64 (default 0 (bt_lookup value_cmp v m) + w) in if 0 <? e then Some e else None)
  else bt_lookup value_cmp k m.
Proof.
  intros H. unfold multiset_add. cbv zeta. set (e := wrap_i64 _).
  assert (Hk : vkey v = vkey k <-> value_cmp k v = Eq).
  { rewrite value_cmp_Eq_vkey. split; congruence. }
  destruct (Z.leb_spec e 0).
  - rewrite (bt_lookup_remove value_cmp), (proj2 (Z.ltb_ge 0 e)) by (done || lia).
    case_bool_decide as Hd; [by rewrite (proj1 Hk Hd)|].
    destruct (value_cmp k v) eqn:E; try done. exfalso. by apply Hd, Hk.
  - rewrite (bt_lookup_insert value_cmp), (proj2 (Z.ltb_lt 0 e)) by (done || lia).
    case_bool_decide as Hd; [by rewrite (proj1 Hk Hd)|].
    destruct (value_cmp k v) eqn:E; try done. exfalso. by apply Hd, Hk.
Qed.

Definition typed_row (col : option nat) (ints : bool) (row : Row) : Prop :=
  ints = true -> forall ci, col = Some ci -> value_is_null (cell row ci) = false ->
  int_like (cell row ci).

Section folding.
Context (func : AggFn) (col : option nat) (ints : bool).

(** Folding a row in. *)
Lemma fold_plus row rows t :
  typed_row col ints row -> Z.of_nat (S (length rows)) <= i64_max ->
  terms_of func col ints rows t -> terms_of func col ints (row :: rows) (fold_agg_row func col row 1 t).
Proof.
  intros Hty Hlen [Hc Hn Hi Hs Hso Hm]. unfold i64_max in Hlen.
  pose proof (nn_values_length col rows) as Hnl.
  assert (Hc' : wrap_i64 (at_count t + 1) = Z.of_nat (length (row :: rows))).
  { rewrite Hc, wrap_i64_small; cbn [length]; [lia|]. unfold in_i64, i64_min, i64_max. lia. }
  unfold fold_agg_row. rewrite Hc'. destruct col as [ci|]; [|by split].
  rewrite <- Hc'. destruct (value_is_null (cell row ci)) eqn:Hnull.
  { rewrite Hc'. split; rewrite ?nn_values_cons, ?Hnull; done. }
  assert (Hn' : wrap_i64 (at_nn_count t + 1) = Z.of_nat (length (nn_values (Some ci) (row :: rows)))).
  { rewrite nn_values_cons, Hnull, Hn, wrap_i64_small; cbn [length]; [lia|].
    unfold in_i64, i64_min, i64_max. lia. }
  rewrite Hc', Hn'. split; simpl; [done|done|..].
  - intros H. rewrite nn_values_cons, Hnull. constructor; [|by apply Hi]. by apply (Hty H ci).
  - intros H. rewrite nn_values_cons, Hnull, (Hs H). csimpl. specialize (Hty H ci eq_refl Hnull).
    pose proof (sumZ_bound _ (Hi H)) as Hb. pose proof (int_like_bound _ Hty) as Hv.
    rewrite agg_sum_add_int by (auto || lia). f_equal. unfold sumZ. simpl. lia.
  - destruct (is_min_max func); [|done]. by apply multiset_add_sorted.
  - intros H v. specialize (Hm H). rewrite H, multiset_add_lookup, nn_values_cons, Hnull by done.
    rewrite occurrences_cons. pose proof (occurrences_bound v (nn_values (Some ci) rows)).
    case_bool_decide as Hk; [|by rewrite Hm, Z.add_0_r].
    assert (default 0 (bt_lookup value_cmp (cell row ci) (at_multiset t)) =
            occurrences v (nn_values (Some ci) rows)) as ->.
    { rewrite Hm. unfold occurrences in *. rewrite Hk. cbv zeta. case_match eqn:E; simpl; [done|].
      apply Z.ltb_ge in E. lia. }
    rewrite wrap_i64_small; [done|]. unfold in_i64, i64_min, i64_max. lia.
Qed.

(** Retracting a row that is there. *)
Lemma fold_minus row rows t :
  Z.of_nat (S (length rows)) <= i64_max ->
  terms_of func col ints (row :: rows) t -> terms_of func col ints rows (fold_agg_row func col row (-1) t).
Proof.
  intros Hlen [Hc Hn Hi Hs Hso Hm]. unfold i64_max in Hlen.
  pose proof (nn_values_length col rows) as Hnl.
  assert (Hc' : wrap_i64 (at_count t + -1) = Z.of_nat (length rows)).
  { rewrite Hc, wrap_i64_small; cbn [length]; [lia|]. unfold in_i64, i64_min, i64_max. simpl. lia. }
  unfold fold_agg_row. rewrite Hc'. destruct col as [ci|]; [|by split].
  destruct (value_is_null (cell row ci)) eqn:Hnull.
  { rewrite nn_values_cons, Hnull in *. by split. }
  rewrite nn_values_cons, Hnull in *.
  assert (Hn' : wrap_i64 (at_nn_count t + -1) = Z.of_nat (length (nn_values (Some ci) rows))).
  { rewrite Hn, wrap_i64_small; cbn [length]; [lia|]. unfold in_i64, i64_min, i64_max. simpl. lia. }
  rewrite Hn'. split; simpl; [done|done|..].
  - intros H. by apply Hi, Forall_cons in H as [_ ?].
  - intros H. rewrite (Hs H). apply Hi, Forall_cons in H as [Hv Hl].
    pose proof (sumZ_bound _ Hl) as Hb. pose proof (int_like_bound _ Hv) as Hvb.
    rewrite agg_sum_add_int; [|done|by right|]; csimpl; unfold sumZ in *; simpl; [f_equal; lia|lia].
  - destruct (is_min_max func); [|done]. by apply multiset_add_sorted.
  - intros H v. specialize (Hm H). rewrite H, multiset_add_lookup by done.
    pose proof (occurrences_bound v (nn_values (Some ci) rows)).
    case_bool_decide as Hk.
    + assert (default 0 (bt_lookup value_cmp (cell row ci) (at_multiset t)) =
              occurrences v (nn_values (Some ci) rows) + 1) as ->.
      { rewrite Hm. rewrite occurrences_cons, bool_decide_eq_true_2 by done.
        unfold occurrences in *. rewrite Hk. cbv zeta. rewrite (proj2 (Z.ltb_lt _ _)) by lia. done. }
      rewrite wrap_i64_small; [|unfold in_i64, i64_min, i64_max; lia].
      by replace (occurrences v (nn_values (Some ci) rows) + 1 + -1)
        with (occurrences v (nn_values (Some ci) rows)) by lia.
    + rewrite Hm, occurrences_cons, bool_decide_eq_false_2 by done. by rewrite Z.add_0_r.
Qed.

Lemma terms_perm rows rows' t :
  rows ≡ₚ rows' -> terms_of func col ints rows t -> terms_of func col ints rows' t.
Proof.
  intros Hp [Hc Hn Hi Hs Hso Hm].
  assert (Hnp : nn_values col rows ≡ₚ nn_values col rows').
  { unfold nn_values. destruct col; [|done]. by rewrite Hp. }
  split; [by rewrite Hc, Hp|by rewrite Hn, Hnp|intros H; rewrite <- Hnp; by apply Hi| |done|].
  - intros H. rewrite (Hs H). f_equal. by rewrite Hnp.
  - intros H v. rewrite (Hm H).
    assert (occurrences v (nn_values col rows) = occurrences v (nn_values col rows')) as ->; [|done].
    unfold occurrences. by rewrite Hnp.
Qed.
End folding.

(** ** The value on the wire *)

(** SQL's result over the matching rows; [v'] is the representative of [v] the multiset stores. *)
Definition extreme (c : comparison) (vs : list Value) (j : json) : Prop :=
  (vs = [] /\ j = JNull) \/
  exists v v', v ∈ vs /\ vkey v' = vkey v /\ j = to_json v' /\ forall w, w ∈ vs -> value_cmp v w <> c.

Definition agg_result (func : AggFn) (col : option nat) (rows : list Row) (j : json) : Prop :=
  let vs := nn_values col rows in
  let total := sumZ (value_int <$> vs) in
  match func with
  | AggCount => j = JNumber (NInt (Z.of_nat (if col then length vs else length rows)))
  | AggSumFn => j = if decide (vs = []) then JNull else agg_sum_to_json (SumInt total)
  | AggAvg => j = if decide (vs = []) then JNull
                  else json_of_f64 (f64_div (f64_of_Z total) (f64_of_Z (Z.of_nat (length vs))))
  | AggMin => extreme Gt vs j
  | AggMax => extreme Lt vs j
  end.

Lemma occurrences_pos v vs : 0 < occurrences v vs <-> exists w, w ∈ vs /\ vkey w = vkey v.
Proof.
  unfold occurrences. split.
  - intros H. destruct (filter _ vs) as [|w l] eqn:E; [done|].
    assert (Hw : w ∈ filter (λ w, vkey w = vkey v) vs) by (rewrite E; left).
    apply list_elem_of_filter in Hw as [??]. eauto.
  - intros (w & Hw & Hk). assert (H : w ∈ filter (λ w, vkey w = vkey v) vs) by by apply list_elem_of_filter.
    destruct (filter _ vs); [by apply elem_of_nil in H|]. simpl. lia.
Qed.

Section extremes.
Context (vs : list Value) (m : btree Value Z) (Hs : bt_sorted value_cmp m)
  (Hm : forall v, bt_lookup value_cmp v m =
          (let n := occurrences v vs in if 0 <? n then Some n else None)).

Lemma entry_in k n : (k, n) ∈ m -> exists v, v ∈ vs /\ vkey v = vkey k.
Proof.
  intros Hin. apply occurrences_pos.
  assert (Hl : bt_lookup value_cmp k m = Some n).
  { apply (bt_lookup_elem value_cmp); [done|]. exists k. split; [done|]. apply (cmp_refl value_cmp). }
  rewrite Hm in Hl. cbv zeta in Hl. destruct (Z.ltb_spec 0 (occurrences k vs)); [done|discriminate].
Qed.

Lemma value_entry w : w ∈ vs -> exists k n, (k, n) ∈ m /\ value_cmp w k = Eq.
Proof.
  intros Hw. assert (Ho : 0 < occurrences w vs) by (apply occurrences_pos; eauto).
  assert (Hl : bt_lookup value_cmp w m = Some (occurrences w vs)).
  { rewrite Hm. cbv zeta. by rewrite (proj2 (Z.ltb_lt _ _) Ho). }
  apply (bt_lookup_elem value_cmp) in Hl as (k & ? & ?); [|done]. eauto.
Qed.

Lemma multiset_empty : m = [] <-> vs = [].
Proof.
  split; intros E.
  - assert (Hno : forall v, v ∉ vs).
    { intros v (k & n & Hin & _)%value_entry. rewrite E in Hin. by apply elem_of_nil in Hin. }
    by apply elem_of_nil_inv.
  - apply elem_of_nil_inv. intros [k n] (v & Hv & _)%entry_in. rewrite E in Hv.
    by apply elem_of_nil in Hv.
Qed.

Lemma extreme_of k n (c : comparison) :
  (k, n) ∈ m -> (forall k' n', (k', n') ∈ m -> value_cmp k k' <> c) -> extreme c vs (to_json k).
Proof.
  intros Hin Hext. destruct (entry_in k n Hin) as (v & Hv & Hk). right.
  exists v, k. split_and!; [done|done|done|]. intros w Hw.
  destruct (value_entry w Hw) as (k' & n' & Hin' & Hc').
  rewrite (cmp_eq_subst_r value_cmp w k' v) by done.
  rewrite (cmp_eq_subst (cmp:=value_cmp) v k k') by by apply value_cmp_Eq_vkey.
  by eapply Hext.
Qed.

Lemma min_extreme : extreme Gt vs (default JNull (to_json ∘ fst <$> head m)).
Proof.
  destruct (head m) as [[k n]|] eqn:Eh; simpl.
  2: { left. split; [|done]. apply multiset_empty. by apply head_None. }
  assert (Em : m = (k, n) :: tail m) by (destruct m; simpl in *; congruence).
  apply (extreme_of k n); [rewrite Em; left|].
  pose proof Hs as Hs'. rewrite Em in Hs'. inversion Hs' as [|? ? _ Hall]; subst.
  intros k' n'. rewrite Em.
  intros [[= -> ->]|Hin]%elem_of_cons; [by rewrite (cmp_refl value_cmp)|].
  rewrite Forall_forall in Hall. apply Hall in Hin. simpl in Hin. by rewrite Hin.
Qed.

Lemma max_extreme : extreme Lt vs (default JNull (to_json ∘ fst <$> last m)).
Proof.
  destruct (last m) as [[k n]|] eqn:El; simpl.
  2: { left. split; [|done]. apply multiset_empty. by apply last_None. }
  apply last_Some in El as [l El]. apply (extreme_of k n).
  { rewrite El, elem_of_app. right. left. }
  intros k' n'. rewrite El, elem_of_app, list_elem_of_singleton.
  intros [Hin|[= -> ->]]; [|by rewrite (cmp_refl value_cmp)].
  pose proof Hs as Hs'. rewrite El in Hs'. unfold bt_sorted in Hs'.
  assert (H : value_cmp k' k = Lt).
  { clear -Hs' Hin. induction l as [|e l IH]; [by apply elem_of_nil in Hin|].
    inversion Hs' as [|? ? Hs'' Hall]; subst. apply elem_of_cons in Hin as [<-|Hin]; [|by apply IH].
    rewrite Forall_forall in Hall. apply (Hall (k, n)). rewrite elem_of_app. right. left. }
  rewrite (cmp_antisym (cmp:=value_cmp) k' k), H. done.
Qed.
End extremes.

Lemma agg_value_result func col ints rows t :
  terms_of func col ints rows t ->
  (func = AggSumFn \/ func = AggAvg -> ints = true) ->
  agg_result func col rows (agg_value_of func col t).
Proof.
  intros [Hc Hn Hi Hs Hso Hm] Hints. unfold agg_result, agg_value_of.
  assert (Hpos : (0 <? at_nn_count t) = negb (bool_decide (nn_values col rows = []))).
  { rewrite Hn. destruct (nn_values col rows); simpl; [done|]. apply Z.ltb_lt. lia. }
  destruct func.
  - destruct col; by rewrite ?Hc, ?Hn.
  - rewrite Hpos, (Hs (Hints (or_introl eq_refl))). case_bool_decide; by case_decide.
  - rewrite Hpos, (Hs (Hints (or_intror eq_refl))), Hn. case_bool_decide; by case_decide.
  - apply min_extreme; [done|]. by apply Hm.
  - apply max_extreme; [done|]. by apply Hm.
Qed.
