(* ===== verification/Refine.v ===== *)
(** * Shapes are views

    The abstract specification of the fan-out: a shape is the view [filtered] of its table, an
    aggregate the fold of [matching_rows].  A change-log envelope describes a transition of the
    table ([change]); the theorems here say that what the executors emit for it carries every
    subscriber from the view of the old table to the view of the new one. *)

From S2P Require Import Prelude BTree Value TableRef Schema Predicate PredicateFacts Gate Output.
From S2P Require Import Executors Aggregates.
From stdpp Require Import base option numbers strings gmap fin_maps sorting list.
#[local] Open Scope Z_scope.

Section spec.
Context {FT : FloatText} {FE : FaultEnv} (ts : TableSchema).
Implicit Types (T : gmap str Row).

(** A table: rows by event key. *)
Definition table_ok T : Prop := forall k r, T !! k = Some r -> key_string ts r = Ok k.

(** The view a shape promises its subscribers. *)
Definition filtered (pred : CompiledPredicate) (cols : option (list nat)) T : gmap str json :=
  (λ r, row_to_json_cols ts r cols) <$> filter (λ kr, matches pred kr.2 = true) T.

Definition matching_rows (pred : CompiledPredicate) T : list Row :=
  filter (λ r, matches pred r = true) (map_to_list T).*2.

(** The transition of the table a change-log envelope describes.  A row with no negative zero is
    one that Rust's row equality does not confuse with another. *)
Inductive change (env : Envelope) T : gmap str Row -> Prop :=
  | ch_insert v new k :
      is_write_op (h_operation (e_headers env)) = true ->
      e_value env = Some v -> e_old env = None ->
      to_row ts v = Ok new -> key_string ts new = Ok k -> T !! k = None ->
      change env T (<[k := new]> T)
  | ch_update v o old new ko kn :
      is_write_op (h_operation (e_headers env)) = true ->
      e_value env = Some v -> e_old env = Some o ->
      to_row ts o = Ok old -> to_row ts v = Ok new -> rkey old = old -> rkey new = new ->
      key_string ts new = Ok kn -> T !! ko = Some old -> (kn = ko \/ T !! kn = None) ->
      change env T (<[kn := new]> (delete ko T))
  | ch_delete o old ko :
      h_operation (e_headers env) = $"delete" ->
      e_old env = Some o -> to_row ts o = Ok old -> T !! ko = Some old ->
      change env T (delete ko T).

(** The same as a delta. *)
Inductive delta_of T : Delta -> gmap str Row -> Prop :=
  | d_same : delta_of T [] T
  | d_insert new k : key_string ts new = Ok k -> T !! k = None ->
      delta_of T [(new, 1)] (<[k := new]> T)
  | d_update old new ko kn : T !! ko = Some old -> key_string ts new = Ok kn ->
      (kn = ko \/ T !! kn = None) ->
      delta_of T [(old, -1); (new, 1)] (<[kn := new]> (delete ko T))
  | d_delete old ko : T !! ko = Some old -> delta_of T [(old, -1)] (delete ko T).

Lemma apply_envelope_delta env T T' :
  table_ok T -> change env T T' ->
  exists delta, apply_envelope ts env = Ok (delta, h_txid (e_headers env), h_lsn (e_headers env)) /\
                delta_of T delta T'.
Proof.
  intros Hok Hch. unfold apply_envelope.
  destruct Hch as [v new k Hop Hv Ho Hn Hk Hfr|v o old new ko kn Hop Hv Ho Hold Hnew Hpo Hpn Hk Hin Hfr
                  |o old ko Hop Ho Hold Hin].
  - rewrite Hop, Hv, Ho. simpl. rewrite Hn. simpl. eexists. split; [done|]. by constructor.
  - rewrite Hop, Hv, Ho. simpl. rewrite Hnew. simpl. rewrite Hold. simpl.
    destruct (row_eqb old new) eqn:E.
    + unfold row_eqb in E. apply bool_decide_eq_true in E. rewrite Hpo, Hpn in E. subst.
      eexists. split; [done|].
      assert (kn = ko) as -> by (apply Hok in Hin; congruence).
      rewrite insert_delete_eq, insert_id by done. constructor.
    + eexists. split; [done|]. by econstructor.
  - rewrite Hop. simpl. rewrite Ho. simpl. rewrite Hold. simpl. eexists. split; [done|].
    by econstructor.
Qed.

Lemma delta_table_ok T delta T' : table_ok T -> delta_of T delta T' -> table_ok T'.
Proof.
  intros Hok Hd. destruct Hd as [|new k Hk Hfr|old new ko kn Hin Hk Hfr|old ko Hin]; intros k' r; [apply Hok|..].
  - rewrite lookup_insert_Some. intros [[<- <-]|[_ ?]]; auto.
  - rewrite lookup_insert_Some, lookup_delete_Some. intros [[<- <-]|[_ [_ ?]]]; auto.
  - rewrite lookup_delete_Some. intros [_ ?]; auto.
Qed.

(** ** Row shapes *)

Lemma filtered_lookup pred cols T k :
  filtered pred cols T !! k =
  (r ← T !! k; if matches pred r then Some (row_to_json_cols ts r cols) else None).
Proof.
  unfold filtered. rewrite lookup_fmap. destruct (T !! k) as [r|] eqn:Er; simpl.
  2: { by rewrite map_lookup_filter_None_2 by by left. }
  destruct (matches pred r) eqn:E.
  - by rewrite (map_lookup_filter_Some_2 _ _ _ r).
  - rewrite map_lookup_filter_None_2; [done|]. right. intros r' Hr'. simpl. congruence.
Qed.

Lemma last_pos_eval pred r w d k kr :
  key_string ts r = Ok kr ->
  last_pos ts (eval_standalone pred ((r, w) :: d)) k =
  match last_pos ts (eval_standalone pred d) k with
  | Some x => Some x
  | None => if bool_decide (kr = k) && matches pred r && (0 <? w) then Some r else None
  end.
Proof.
  intros Hk. unfold eval_standalone. rewrite filter_cons. simpl.
  destruct (matches pred r); simpl.
  - rewrite Hk, andb_true_r. by rewrite (bool_decide_ext (Ok kr = Ok k) (kr = k)) by naive_solver.
  - rewrite andb_false_r. simpl. by destruct (last_pos _ _ _).
Qed.

Lemma has_neg_eval pred r w d k kr :
  key_string ts r = Ok kr ->
  has_neg ts (eval_standalone pred ((r, w) :: d)) k =
  (bool_decide (kr = k) && matches pred r && (w <? 0)) || has_neg ts (eval_standalone pred d) k.
Proof.
  intros Hk. unfold eval_standalone. rewrite filter_cons. simpl.
  destruct (matches pred r); simpl.
  - rewrite Hk, andb_true_r. by rewrite (bool_decide_ext (Ok kr = Ok k) (kr = k)) by naive_solver.
  - by rewrite andb_false_r.
Qed.

(** One delta, through filter and translation, for a subscriber. *)
Lemma row_shape_step pred cols T delta T' txid lsn :
  drop_deletes = false -> table_ok T -> delta_of T delta T' ->
  materialize (filtered pred cols T)
    (translate_output ts (eval_standalone pred delta) txid lsn cols) = filtered pred cols T'.
Proof.
  intros Hdd Hok Hd. apply map_eq. intros k. rewrite materialize_translate by done.
  rewrite !filtered_lookup.
  destruct Hd as [|new k' Hk Hfr|old new ko kn Hin Hk Hfr|old ko Hin]; try (assert (Hko := Hok _ _ Hin)).
  - done.
  - rewrite (last_pos_eval _ _ _ _ _ _ Hk), (has_neg_eval _ _ _ _ _ _ Hk). simpl.
    rewrite andb_true_r, !andb_false_r, lookup_insert. simpl.
    destruct (decide (k' = k)) as [->|Hne]; simpl.
    + rewrite bool_decide_eq_true_2, Hfr by done. simpl. by destruct (matches pred new).
    + by rewrite bool_decide_eq_false_2.
  - rewrite (last_pos_eval _ _ _ _ _ _ Hko), (has_neg_eval _ _ _ _ _ _ Hko).
    rewrite (last_pos_eval _ _ _ _ _ _ Hk), (has_neg_eval _ _ _ _ _ _ Hk). simpl.
    rewrite !andb_true_r, !andb_false_r, orb_false_r, lookup_insert, lookup_delete.
    destruct (decide (kn = k)) as [->|Hne]; simpl.
    + rewrite (bool_decide_eq_true_2 (k = k)) by done. destruct (matches pred new); simpl; [done|].
      destruct (decide (ko = k)) as [->|Hne'].
      * rewrite bool_decide_eq_true_2, Hin by done. simpl. by destruct (matches pred old).
      * rewrite bool_decide_eq_false_2 by done. simpl.
        destruct Hfr as [?|Hfr]; [congruence|by rewrite Hfr].
    + rewrite (bool_decide_eq_false_2 (kn = k)) by done. simpl.
      destruct (decide (ko = k)) as [->|Hne']; simpl.
      * rewrite bool_decide_eq_true_2, Hin by done. simpl. by destruct (matches pred old).
      * by rewrite bool_decide_eq_false_2 by done.
  - rewrite (last_pos_eval _ _ _ _ _ _ Hko), (has_neg_eval _ _ _ _ _ _ Hko). simpl.
    rewrite andb_true_r, !andb_false_r, orb_false_r, lookup_delete.
    destruct (decide (ko = k)) as [->|Hne]; simpl.
    + rewrite bool_decide_eq_true_2, Hin by done. simpl. by destruct (matches pred old).
    + by rewrite bool_decide_eq_false_2 by done.
Qed.

(** ** Aggregates *)

Definition if_matches (pred : CompiledPredicate) (r : Row) (l : list Row) : list Row :=
  if matches pred r then r :: l else l.

Lemma matching_insert pred T k r :
  T !! k = None -> matching_rows pred (<[k := r]> T) ≡ₚ if_matches pred r (matching_rows pred T).
Proof.
  intros H. unfold matching_rows. rewrite map_to_list_insert by done. csimpl.
  rewrite filter_cons. unfold if_matches. destruct (matches pred r); by case_decide.
Qed.

Lemma matching_delete pred T k r :
  T !! k = Some r -> matching_rows pred T ≡ₚ if_matches pred r (matching_rows pred (delete k T)).
Proof.
  intros H. rewrite <- (insert_delete_id T k r) at 1 by done.
  apply matching_insert, lookup_delete_eq.
Qed.

Lemma matching_length pred T : (length (matching_rows pred T) <= size T)%nat.
Proof. unfold matching_rows. by rewrite length_filter, length_fmap, length_map_to_list. Qed.

Lemma apply_terms_cons pred func col r w d t :
  apply_terms pred func col ((r, w) :: d) t =
  apply_terms pred func col d (if matches pred r then fold_agg_row func col r w t else t).
Proof. done. Qed.

(** One delta, folded. *)
Lemma agg_step pred func col ints T delta T' t :
  table_ok T -> delta_of T delta T' -> Z.of_nat (size T) < i64_max ->
  (forall k r, T' !! k = Some r -> typed_row col ints r) ->
  terms_of func col ints (matching_rows pred T) t ->
  terms_of func col ints (matching_rows pred T') (apply_terms pred func col delta t).
Proof.
  intros Hok Hd Hsz Hty Ht.
  assert (Hdel : forall T k r t, T !! k = Some r -> Z.of_nat (size T) < i64_max ->
    terms_of func col ints (matching_rows pred T) t ->
    terms_of func col ints (matching_rows pred (delete k T))
      (if matches pred r then fold_agg_row func col r (-1) t else t)).
  { intros T0 k r t0 Hk Hsz0 H. pose proof (matching_length pred (delete k T0)).
    assert (size T0 = S (size (delete k T0))).
    { rewrite <- (map_size_insert_None k r) by apply lookup_delete_eq. by rewrite insert_delete_id. }
    eapply terms_perm in H; [|by apply matching_delete]. unfold if_matches in H.
    destruct (matches pred r); [|done]. apply fold_minus; [lia|done]. }
  assert (Hins : forall T k r t, T !! k = None -> Z.of_nat (S (size T)) <= i64_max ->
    typed_row col ints r ->
    terms_of func col ints (matching_rows pred T) t ->
    terms_of func col ints (matching_rows pred (<[k := r]> T))
      (if matches pred r then fold_agg_row func col r 1 t else t)).
  { intros T0 k r t0 Hk Hsz0 Hr H. pose proof (matching_length pred T0).
    eapply terms_perm; [symmetry; by apply matching_insert|]. unfold if_matches.
    destruct (matches pred r); [|done]. apply fold_plus; [done|lia|done]. }
  destruct Hd as [|new k Hk Hfr|old new ko kn Hin Hk Hfr|old ko Hin];
    rewrite ?apply_terms_cons; simpl.
  - done.
  - apply Hins; [done|lia| |done]. eapply Hty, lookup_insert_eq.
  - apply Hins.
    + destruct Hfr as [->|Hfr]; [apply lookup_delete_eq|]. by apply lookup_delete_None; right.
    + rewrite <- (map_size_insert_None ko old) by apply lookup_delete_eq.
      rewrite insert_delete_id by done. lia.
    + eapply Hty, lookup_insert_eq.
    + by apply Hdel.
  - by apply Hdel.
Qed.

(** The seed a creator folds from the backfill. *)
Lemma agg_seed_terms pred func col ints rows :
  Forall (typed_row col ints) rows -> Z.of_nat (length rows) <= i64_max ->
  terms_of func col ints (filter (λ r, matches pred r = true) rows)
    (fold_rows pred func col rows AggSeed_default).
Proof.
  enough (H : forall done t, Forall (typed_row col ints) rows ->
    Z.of_nat (length done + length rows) <= i64_max ->
    terms_of func col ints done t ->
    terms_of func col ints (reverse (filter (λ r, matches pred r = true) rows) ++ done)
      (fold_rows pred func col rows t)).
  { intros Hty Hl. eapply terms_perm; [|apply (H [] AggSeed_default); [done|done|]].
    - by rewrite app_nil_r, reverse_Permutation.
    - split; simpl; try done.
      + unfold nn_values. by destruct col.
      + intros _. unfold nn_values. by destruct col.
      + intros _. unfold nn_values. by destruct col.
      + constructor.
      + intros _ v. unfold nn_values. by destruct col. }
  induction rows as [|r rows IH]; intros dn t Hty Hl Ht; [done|].
  apply Forall_cons in Hty as [Hr Hty]. simpl in Hl. simpl. rewrite filter_cons.
  destruct (matches pred r) eqn:E.
  - rewrite decide_True by done. rewrite reverse_cons, <- (assoc_L (++)). simpl.
    apply IH; [done|simpl; lia|]. apply fold_plus; [done|lia|done].
  - rewrite decide_False by done. apply IH; [done|lia|done].
Qed.
End spec.
