(* ===== verification/ChangeLog.v ===== *)
(** * The segmented change log ([src/apps/engine/src/changelog.rs])

    Positions, the rotation pointer, the rotation policy, the in-memory segment table
    ([ChangesState]), the writer's rotation, the two ways of leaving a closed segment, and the
    planner that decides which segments a sweep may delete.

    Durable-streams is a service outside the repository: an interface ([DurableStore]) with the
    behaviour its protocol documents ([DurableLaws]).  Times are Unix seconds, durations whole
    seconds. *)

From S2P Require Import Prelude BTree Value TableRef Schema Predicate Output.
From stdpp Require Import base option numbers strings gmap fin_maps sorting list.
#[local] Open Scope Z_scope.

(* ------------------------------------------------------------------ *)
(** ** Positions *)

Definition CHANGES_PREFIX : str := $"changes".

(** [segment_path]. *)
Definition segment_path (n : Z) : str := CHANGES_PREFIX ++ $"/" ++ Z_to_str n.

Definition CONTROL_TYPE : str := $"__circuits.control".
Definition ROTATED : str := $"rotated".

Record LogPosition : Type := mkPos { lp_segment : Z; lp_offset : str }.

#[export] Instance LogPosition_eq_dec : EqDecision LogPosition.
Proof. solve_decision. Defined.

(** [LogPosition::start_of], [start], [path], [Display]. *)
Definition pos_start_of (n : Z) : LogPosition := mkPos n $"-1".
Definition pos_start : LogPosition := pos_start_of 0.
Definition pos_path (p : LogPosition) : str := segment_path (lp_segment p).
Definition pos_display (p : LogPosition) : str :=
  CHANGES_PREFIX ++ $"/" ++ Z_to_str (lp_segment p) ++ $"@" ++ lp_offset p.

(** [derive(Ord)]. *)
Definition pos_cmp (a b : LogPosition) : comparison :=
  match Z.compare (lp_segment a) (lp_segment b) with
  | Eq => str_cmp (lp_offset a) (lp_offset b)
  | c => c
  end.

(* ------------------------------------------------------------------ *)
(** ** The rotation pointer *)

(** [rotation_envelope]. *)
Definition rotation_envelope (next : Z) : Envelope :=
  mkEnvelope CONTROL_TYPE ROTATED
    (Some (JObject (obj_insert $"segment" (JNumber (NInt next))
                     (obj_insert $"next" (JString (segment_path next)) []))))
    None (mkHeaders ROTATED None None None None None).

(** [is_control]. *)
Definition is_control (env : Envelope) : bool := bool_decide (e_type env = CONTROL_TYPE).

(** [Value::get] of serde_json: a member of an object. *)
Definition json_get (k : str) (j : json) : option json :=
  match j with JObject m => obj_get k m | _ => None end.

Definition get_u64 (k : str) (j : json) : option Z := v ← json_get k j; as_u64 v.
Definition get_str (k : str) (j : json) : option str := v ← json_get k j; as_str v.

(** The fallback: the segment out of the pointer's path. *)
Definition target_of_path (next : str) : option Z :=
  rest ← str_strip_prefix (CHANGES_PREFIX ++ $"/") next; parse_u32 rest.

(** [rotation_target]. *)
Definition rotation_target (env : Envelope) : option Z :=
  if negb (is_control env) || negb (bool_decide (h_operation (e_headers env) = ROTATED)) then None
  else
    match e_value env with
    | None => None
    | Some value =>
        match get_u64 $"segment" value, get_str $"next" value with
        | Some n, _ => clamp 0 u32_max n
        | None, Some next => target_of_path next
        | None, None => None
        end
    end.

(** [rotation_target_in]: the last one of the batch. *)
Definition rotation_target_in (envs : list Envelope) : option Z :=
  head (omap rotation_target (reverse envs)).

(** [offset_bytes]; 95 is the underscore. *)
Definition offset_bytes (offset : str) : option Z :=
  p ← split_once 95 offset;
  if negb (length p.1 =? 16)%nat || negb (length p.2 =? 16)%nat || negb (forallb is_ascii_digit p.2)
  then None else parse_u64 p.2.

(* ------------------------------------------------------------------ *)
(** ** Policy and state *)

Record ChangeLogConfig : Type := mkChangeLogConfig {
  cl_segment_bytes : Z;
  cl_segment_age : Z;
  cl_retain : Z
}.

(** [ChangeLogConfig::default], [env_u64], [from_env]. *)
Definition ChangeLogConfig_default : ChangeLogConfig :=
  mkChangeLogConfig (1024 * 1024 * 1024) 86400 604800.
Definition env_u64 (var : str -> option str) (name : str) (d : Z) : Z :=
  default d (s ← var name; parse_u64 (trim s)).
Definition ChangeLogConfig_from_env (var : str -> option str) : ChangeLogConfig :=
  let d := ChangeLogConfig_default in
  mkChangeLogConfig
    (env_u64 var $"ELECTRIC_CIRCUITS_CHANGES_SEGMENT_BYTES" (cl_segment_bytes d))
    (env_u64 var $"ELECTRIC_CIRCUITS_CHANGES_SEGMENT_SECS" (cl_segment_age d))
    (env_u64 var $"ELECTRIC_CIRCUITS_CHANGES_RETAIN_SECS" (cl_retain d)).

(** [should_rotate]. *)
Definition should_rotate (cfg : ChangeLogConfig) (bytes age : Z) : bool :=
  ((0 <? cl_segment_bytes cfg) && (cl_segment_bytes cfg <=? bytes)) ||
  (negb (cl_segment_age cfg =? 0) && (cl_segment_age cfg <=? age)).

(** [ChangesInner], in its lock. *)
Record ChangesState : Type := mkChanges {
  cs_current : Z;
  cs_starts : btree Z Z;
  cs_tail : option str
}.

Definition changes_default : ChangesState := mkChanges 0 [] None.

(** [ChangesState::position], [retained], [adopt], [began], [set_tail], [forget],
    [current_age]. *)
Definition changes_position (s : ChangesState) : LogPosition :=
  mkPos (cs_current s) (default $"-1" (cs_tail s)).
Definition changes_retained (s : ChangesState) : Z := Z.of_nat (length (cs_starts s)).
Definition changes_adopt (current : Z) (starts : btree Z Z) (tail : option str) : ChangesState :=
  mkChanges current starts tail.
Definition changes_began (segment at_ : Z) (s : ChangesState) : ChangesState :=
  mkChanges segment (bt_insert Z.compare segment at_ (cs_starts s)) None.
Definition changes_set_tail (offset : option str) (s : ChangesState) : ChangesState :=
  match offset with
  | Some o => mkChanges (cs_current s) (cs_starts s) (Some o)
  | None => s
  end.
Definition changes_forget (segment : Z) (s : ChangesState) : ChangesState :=
  mkChanges (cs_current s) (bt_remove Z.compare segment (cs_starts s)) (cs_tail s).
Definition changes_current_age (now : Z) (s : ChangesState) : Z :=
  sat_sub_u64 now (default now (bt_lookup Z.compare (cs_current s) (cs_starts s))).

(* ------------------------------------------------------------------ *)
(** ** Storage *)

(** What the log uses of durable-streams.  [ds_head] is [None] for a stream that does not exist and
    else whether it is closed; an append answers [None] when the stream is closed or gone; every
    operation can fail on the way, which is [Err]. *)
Class DurableStore (S : Type) := {
  ds_head : S -> str -> option bool;
  ds_items : S -> str -> list Envelope;
  ds_ensure : S -> str -> S;
  ds_append : S -> str -> list Envelope -> option S;
  ds_close : S -> str -> S
}.

(** The documented protocol: creating is idempotent and touches nothing else, an append to an open
    stream adds its items at the end, and closing is terminal and keeps the items. *)
Class DurableLaws (S : Type) `{DurableStore S} : Prop := {
  head_ensure : forall s p q, ds_head (ds_ensure s p) q =
    if bool_decide (p = q) then Some (default false (ds_head s p)) else ds_head s q;
  items_ensure : forall s p q, ds_items (ds_ensure s p) q =
    if bool_decide (p = q /\ ds_head s p = None) then [] else ds_items s q;
  append_open : forall s p l, ds_head s p = Some false <-> is_Some (ds_append s p l);
  head_append : forall s p l s' q, ds_append s p l = Some s' -> ds_head s' q = ds_head s q;
  items_append : forall s p l s' q, ds_append s p l = Some s' ->
    ds_items s' q = if bool_decide (p = q) then ds_items s q ++ l else ds_items s q;
  head_close : forall s p q, ds_head (ds_close s p) q =
    if bool_decide (p = q) then (if ds_head s p then Some true else None) else ds_head s q;
  items_close : forall s p q, ds_items (ds_close s p) q = ds_items s q
}.

Section writer.
Context {S : Type} `{DurableStore S}.

(** [next_segment_for_reader]. *)
Definition next_segment_for_reader (s : S) (closed : Z) : res str Z :=
  match ds_head s (segment_path (closed + 1)) with
  | None => Err $"its successor does not exist"
  | Some _ => Ok (closed + 1)
  end.

(** [resolve_current]. *)
Fixpoint resolve_loop (fuel : nat) (s : S) (from : Z) (recorded : bool) (cur : Z) : res str Z :=
  match fuel with
  | O => Err $"walking forward did not terminate"
  | Datatypes.S fuel =>
      match ds_head s (segment_path cur) with
      | None => if (cur =? from) && negb recorded then Ok cur
                else Err $"recorded as a segment that existed"
      | Some false => Ok cur
      | Some true => next ← next_segment_for_reader s cur; resolve_loop fuel s from recorded next
      end
  end.
Definition resolve_current (s : S) (from : Z) (recorded : bool) : res str Z :=
  resolve_loop (Z.to_nat 1000000) s from recorded from.

(** The storage steps of [ChangeLogWriter::rotate], in order; [None] is a step that failed. *)
Definition rotate_store (steps : nat) (s : S) (from : Z) : option S :=
  let s0 := s in
  match steps with
  | O => Some s0
  | Datatypes.S steps =>
      let s1 := ds_ensure s0 (segment_path (from + 1)) in
      match steps with
      | O => Some s1
      | Datatypes.S steps =>
          s2 ← ds_append s1 (segment_path from) [rotation_envelope (from + 1)];
          match steps with
          | O => Some s2
          | Datatypes.S _ => Some (ds_close s2 (segment_path from))
          end
      end
  end.

(** [ChangeLogWriter::rotate]: after the three storage steps the new segment becomes current and
    the rotation is recorded. *)
Definition rotate (now : Z) (s : S) (st : ChangesState) : option (S * ChangesState * (Z * Z)) :=
  s ← rotate_store 3 s (cs_current st);
  let to := cs_current st + 1 in
  Some (s, changes_began to now st, (to, now)).

(** [ChangeLogWriter::segment_bytes], the bytes this process appended being [appended]. *)
Definition writer_segment_bytes (appended : Z) (st : ChangesState) : Z :=
  default appended (cs_tail st ≫= offset_bytes).

(** [ChangeLogWriter::maybe_rotate]: is a rotation attempted? *)
Definition wants_rotation (cfg : ChangeLogConfig) (now appended : Z) (st : ChangesState) : bool :=
  let bytes := writer_segment_bytes appended st in
  negb (bytes =? 0) && should_rotate cfg bytes (changes_current_age now st).
Definition maybe_rotate (cfg : ChangeLogConfig) (now appended : Z) (s : S) (st : ChangesState)
  : S * ChangesState * list (Z * Z) :=
  if wants_rotation cfg now appended st then
    match rotate now s st with
    | Some (s, st, r) => (s, st, [r])
    | None => (s, st, [])
    end
  else (s, st, []).

(** [ChangeLogWriter::resolve_forward]. *)
Definition resolve_forward (now : Z) (s : S) (st : ChangesState)
  : res str (ChangesState * list (Z * Z)) :=
  let from := cs_current st in
  resolved ← resolve_current s from true;
  let ns := (λ i, from + 1 + Z.of_nat i) <$> seq 0 (Z.to_nat (resolved - from)) in
  Ok (foldl (λ st n, changes_began n now st) st ns, (λ n, (n, now)) <$> ns).

(** [ChangeLogWriter::append_commit]; [tail] is the offset the server answers with. *)
Fixpoint append_loop (fuel : nat) (now : Z) (tail : option str) (envs : list Envelope) (s : S)
    (st : ChangesState) : res str (S * ChangesState) :=
  match fuel with
  | O => Err $"the current segment kept moving while appending a commit"
  | Datatypes.S fuel =>
      match ds_append s (segment_path (cs_current st)) envs with
      | Some s => Ok (s, changes_set_tail tail st)
      | None => r ← resolve_forward now s st; append_loop fuel now tail envs s r.1
      end
  end.
Definition append_commit (now : Z) (tail : option str) (envs : list Envelope) (s : S)
    (st : ChangesState) : res str (S * ChangesState) :=
  if bool_decide (envs = []) then Ok (s, st) else append_loop 8 now tail envs s st.
End writer.

(* ------------------------------------------------------------------ *)
(** ** Deletion planning *)

Record SegmentPin : Type := mkPin {
  sp_shape_id : str;
  sp_segment : Z;
  sp_evictable : bool
}.

Record SegmentPlan : Type := mkPlan { pl_evict : list str; pl_delete : list Z }.

(** The [rotated_out_at] closure. *)
Definition rotated_out_at (segments : btree Z Z) (current n : Z) : option Z :=
  if current <=? n then None else bt_lookup Z.compare (n + 1) segments.

(** The [stale] test. *)
Definition pin_stale (segments : btree Z Z) (current retain now : Z) (pin : SegmentPin) : bool :=
  sp_evictable pin && negb (retain =? 0) &&
  match rotated_out_at segments current (sp_segment pin) with
  | Some at_ => retain <=? sat_sub_u64 now at_
  | None => false
  end.

(** [plan_segment_deletion]. *)
Definition plan_segment_deletion (segments : btree Z Z) (current checkpoint : Z)
    (pins : list SegmentPin) (retain now : Z) : SegmentPlan :=
  let stale := pin_stale segments current retain now in
  let evict := sp_shape_id <$> filter (λ p, stale p = true) pins in
  let alive := filter (λ p, stale p = false) pins in
  let min_needed := foldr Z.min checkpoint (sp_segment <$> alive) in
  mkPlan evict (filter (λ n, n < min_needed /\ n < current) segments.*1).

(* ================================================================== *)
(** * Properties *)

(** ** The pointer and the offsets *)

Lemma Z_to_str_nonempty z : exists c s, Z_to_str z = c :: s.
Proof.
  unfold Z_to_str. destruct (z <? 0); [by eexists _, _|].
  destruct (N_to_str_cons (Z.to_N z)) as (c & s & -> & _). by eexists _, _.
Qed.

Lemma segment_path_inj a b : segment_path a = segment_path b -> a = b.
Proof. unfold segment_path. intros H%app_inv_head%app_inv_head. by apply Z_to_str_inj. Qed.

(** The pointer read back, in a batch that carries it last among its pointers. *)
Lemma rotation_target_rotation n : 0 <= n <= u32_max -> rotation_target (rotation_envelope n) = Some n.
Proof.
  intros H. change (rotation_target (rotation_envelope n)) with
    (match clamp 0 u64_max n with
     | Some n => clamp 0 u32_max n
     | None => target_of_path (segment_path n)
     end).
  rewrite clamp_in by (unfold u32_max, u64_max in *; lia). by rewrite clamp_in.
Qed.

(** a page of the log names the segment to continue on exactly by its last rotation pointer:
    whatever data and earlier pointers precede it, [rotation_target_in] returns the number the
    pointer was written with, and a page with no pointer names none. *)
Theorem rotation_target_in_last n before after :
  0 <= n <= u32_max -> Forall (λ e, rotation_target e = None) after ->
  rotation_target_in (before ++ rotation_envelope n :: after) = Some n /\
  rotation_target_in after = None /\
  rotation_target (rotation_envelope n) = target_of_path (segment_path n) /\
  is_control (rotation_envelope n) = true.
Proof.
  intros Hn Ha. unfold rotation_target_in. rewrite reverse_app, reverse_cons.
  assert (Ho : omap rotation_target (reverse after) = []).
  { apply elem_of_nil_inv. intros x (e & He & Hx)%list_elem_of_omap.
    rewrite Forall_forall in Ha. rewrite Ha in Hx; [done|]. by apply elem_of_reverse. }
  rewrite !omap_app, Ho. simpl. rewrite rotation_target_rotation by done. split_and!; [done..| |done].
  unfold target_of_path, segment_path. rewrite (assoc_L (++) CHANGES_PREFIX), str_strip_prefix_app.
  simpl. by rewrite (parse_int_Z_to_str 0 u32_max).
Qed.

Lemma rotation_target_in_last_witness :
  rotation_target_in [rotation_envelope 4; rotation_envelope 5] = Some 5.
Proof.
  apply (rotation_target_in_last 5 [rotation_envelope 4] []); [unfold u32_max; lia|constructor].
Defined.

(** ** Rotation is crash-safe *)

Section safety.
Context {S : Type} `{DurableLaws S}.

(** The log as rotation leaves it: segments [lo .. cur-1] are closed, each with the pointer to its
    successor as its last item, [cur] is open. *)
Definition log_wf (s : S) (lo cur : Z) : Prop :=
  0 <= lo <= cur /\ cur <= u32_max /\
  (forall n, lo <= n < cur -> ds_head s (segment_path n) = Some true /\
     exists items, ds_items s (segment_path n) = items ++ [rotation_envelope (n + 1)]) /\
  ds_head s (segment_path cur) = Some false.

Lemma path_ne a b : a <> b -> segment_path a <> segment_path b.
Proof. by intros Hne ?%segment_path_inj. Qed.

Lemma resolve_loop_spec s lo cur fuel from recorded : forall c,
  log_wf s lo cur -> lo <= c <= cur -> (Z.to_nat (cur - c) < fuel)%nat ->
  resolve_loop fuel s from recorded c = Ok cur.
Proof.
  induction fuel as [|fuel IH]; intros c Hwf Hc Hf; [lia|]. simpl.
  destruct Hwf as (Hr & Hu & Hcl & Hop).
  destruct (decide (c = cur)) as [->|Hne]; [by rewrite Hop|].
  destruct (Hcl c) as [-> _]; [lia|]. unfold next_segment_for_reader.
  assert (Hnx : exists b, ds_head s (segment_path (c + 1)) = Some b).
  { destruct (decide (c + 1 = cur)) as [->|]; [by eexists|].
    destruct (Hcl (c + 1)) as [-> _]; [lia|by eexists]. }
  destruct Hnx as [b ->]. simpl. apply IH; [done|lia|lia].
Qed.

Lemma rotate_steps s lo cur :
  log_wf s lo cur -> cur < u32_max -> default false (ds_head s (segment_path (cur + 1))) = false ->
  exists s1 s2 s3,
    rotate_store 1 s cur = Some s1 /\ rotate_store 2 s cur = Some s2 /\
    rotate_store 3 s cur = Some s3 /\
    log_wf s1 lo cur /\ log_wf s2 lo cur /\ log_wf s3 lo (cur + 1) /\
    ds_items s3 (segment_path cur) = ds_items s (segment_path cur) ++ [rotation_envelope (cur + 1)].
Proof.
  intros (Hr & Hu & Hcl & Hop) Hlt Hnext.
  assert (Hpn : segment_path (cur + 1) <> segment_path cur) by (apply path_ne; lia).
  set (s1 := ds_ensure s (segment_path (cur + 1))).
  assert (Hh1 : forall n, n <> cur + 1 -> ds_head s1 (segment_path n) = ds_head s (segment_path n)).
  { intros n Hn. unfold s1. rewrite head_ensure, bool_decide_eq_false_2; [done|]. apply path_ne. lia. }
  assert (Hi1 : forall n, n <> cur + 1 -> ds_items s1 (segment_path n) = ds_items s (segment_path n)).
  { intros n Hn. unfold s1. rewrite items_ensure, bool_decide_eq_false_2; [done|].
    intros [He _]. apply segment_path_inj in He. lia. }
  assert (Hn1 : ds_head s1 (segment_path (cur + 1)) = Some false).
  { unfold s1. by rewrite head_ensure, bool_decide_eq_true_2, Hnext. }
  assert (Ho1 : ds_head s1 (segment_path cur) = Some false) by (rewrite Hh1; [done|lia]).
  destruct (proj1 (append_open s1 _ [rotation_envelope (cur + 1)]) Ho1) as [s2 Ha].
  exists s1, s2, (ds_close s2 (segment_path cur)). cbn [rotate_store].
  fold s1. rewrite Ha. simpl.
  assert (Hh2 : forall q, ds_head s2 q = ds_head s1 q) by (intros; by eapply head_append).
  assert (Hi2 : forall n, n <> cur -> ds_items s2 (segment_path n) = ds_items s1 (segment_path n)).
  { intros n Hn. rewrite (items_append _ _ _ _ _ Ha), bool_decide_eq_false_2; [done|].
    apply path_ne. lia. }
  assert (Hic : ds_items s2 (segment_path cur) = ds_items s (segment_path cur) ++ [rotation_envelope (cur + 1)]).
  { rewrite (items_append _ _ _ _ _ Ha), bool_decide_eq_true_2 by done. by rewrite Hi1 by lia. }
  split_and!; try done.
  - split_and!; [lia..| |done]. intros n Hn. rewrite Hh1, Hi1 by lia. by apply Hcl.
  - split_and!; [lia..| |by rewrite Hh2]. intros n Hn.
    rewrite Hh2, Hi2, Hh1, Hi1 by lia. by apply Hcl.
  - split_and!; [lia..| |].
    + intros n Hn. rewrite head_close, items_close. destruct (decide (n = cur)) as [->|Hne].
      * rewrite bool_decide_eq_true_2, Hh2, Ho1, Hic by done. split; [done|by eexists].
      * rewrite bool_decide_eq_false_2 by (apply path_ne; lia).
        rewrite Hh2, Hi2, Hh1, Hi1 by lia. apply Hcl. lia.
    + rewrite head_close, bool_decide_eq_false_2 by (apply path_ne; lia). by rewrite Hh2.
  - by rewrite items_close.
Qed.

(** C39: rotation is crash safe. Whatever prefix of rotation's steps (create the next segment, append
  the pointer, close the segment) reached storage before the crash, the log stays well-formed, a
  restart from any segment of it resolves the segment to append to (the next one exactly when the
  rotation completed), and a reader at the end of any closed segment steps to exactly the next
  one, which that segment's last pointer names. *)
Theorem rotation_crash_safe s lo cur steps s' :
  log_wf s lo cur -> cur - lo < 999999 -> cur < u32_max ->
  default false (ds_head s (segment_path (cur + 1))) = false ->
  (steps <= 3)%nat -> rotate_store steps s cur = Some s' ->
  let cur' := if decide (steps = 3%nat) then cur + 1 else cur in
  log_wf s' lo cur' /\
  (forall from recorded, lo <= from <= cur' -> resolve_current s' from recorded = Ok cur') /\
  (forall n, lo <= n < cur' ->
     next_segment_for_reader s' n = Ok (n + 1) /\
     rotation_target_in (ds_items s' (segment_path n)) = Some (n + 1)).
Proof.
  intros Hwf Hspan Hlt Hnext Hsteps Hrot cur'.
  assert (Hwf' : log_wf s' lo cur').
  { destruct (rotate_steps s lo cur Hwf Hlt Hnext) as (s1 & s2 & s3 & E1 & E2 & E3 & W1 & W2 & W3 & _).
    unfold cur'. destruct steps as [|[|[|[|]]]]; [|..|lia]; simpl.
    - simpl in Hrot. by injection Hrot as <-.
    - rewrite E1 in Hrot. by injection Hrot as <-.
    - rewrite E2 in Hrot. by injection Hrot as <-.
    - rewrite E3 in Hrot. by injection Hrot as <-. }
  split_and!; [done| |].
  - intros from recorded Hf. apply (resolve_loop_spec s' lo); [done|done|].
    unfold cur' in *. destruct (decide _); lia.
  - intros n Hn. destruct Hwf' as (Hr & Hu & Hcl & Hop). split.
    + unfold next_segment_for_reader. destruct (decide (n + 1 = cur')) as [->|]; [by rewrite Hop|].
      destruct (Hcl (n + 1)) as [-> _]; [lia|done].
    + destruct (Hcl n) as [_ [items ->]]; [lia|].
      unfold rotation_target_in. rewrite reverse_app. simpl.
      by rewrite rotation_target_rotation by lia.
Qed.
End safety.

(** A store that satisfies the laws: a map from path to items and the closed flag. *)
Abbreviation MapStore := (gmap str (bool * list Envelope)).

#[export] Instance map_store : DurableStore MapStore := {|
  ds_head s p := fst <$> s !! p;
  ds_items s p := default [] (snd <$> s !! p);
  ds_ensure s p := match s !! p with Some _ => s | None => <[p := (false, [])]> s end;
  ds_append s p l := match s !! p with
                     | Some (false, items) => Some (<[p := (false, items ++ l)]> s)
                     | _ => None
                     end;
  ds_close s p := match s !! p with Some (_, items) => <[p := (true, items)]> s | None => s end
|}.

#[export] Instance map_store_laws : DurableLaws MapStore.
Proof.
  split; intros s p; simpl.
  - intros q. destruct (s !! p) as [[b l]|] eqn:E; case_bool_decide as Hpq; subst;
      rewrite ?lookup_insert_eq, ?lookup_insert_ne by done; rewrite ?E; done.
  - intros q. destruct (s !! p) as [[b l]|] eqn:E; simpl.
    + rewrite bool_decide_eq_false_2; [done|]. by intros [_ [=]].
    + destruct (decide (p = q)) as [->|Hpq].
      * by rewrite bool_decide_eq_true_2, lookup_insert_eq.
      * rewrite bool_decide_eq_false_2, lookup_insert_ne by (done || naive_solver). done.
  - intros l. destruct (s !! p) as [[[] l']|]; simpl; split; try done; try (by intros [? [=]]); eauto.
  - intros l s' q. destruct (s !! p) as [[[] l']|] eqn:E; [done| |done]. intros [= <-].
    destruct (decide (p = q)) as [->|]; [by rewrite lookup_insert_eq, E|by rewrite lookup_insert_ne].
  - intros l s' q. destruct (s !! p) as [[[] l']|] eqn:E; [done| |done]. intros [= <-].
    case_bool_decide; subst; [by rewrite lookup_insert_eq, E|by rewrite lookup_insert_ne].
  - intros q. destruct (s !! p) as [[b l]|] eqn:E; case_bool_decide as Hpq; subst;
      rewrite ?lookup_insert_eq, ?lookup_insert_ne by done; rewrite ?E; done.
  - intros q. destruct (s !! p) as [[b l]|] eqn:E; [|done].
    destruct (decide (p = q)) as [->|]; [by rewrite lookup_insert_eq, E|by rewrite lookup_insert_ne].
Qed.

Definition example_log : MapStore :=
  <[segment_path 0 := (true, [rotation_envelope 1])]> (<[segment_path 1 := (false, [])]> ∅).

Lemma example_log_wf : log_wf example_log 0 1.
Proof.
  split_and!; unfold u32_max; try lia; [|done]. intros n Hn. assert (n = 0) as -> by lia.
  split; [done|]. by exists [].
Qed.

Lemma rotation_crash_safe_witness :
  exists s', rotate_store 2 example_log 1 = Some s' /\ resolve_current s' 0 true = Ok 1.
Proof.
  eexists. split; [reflexivity|].
  refine (proj1 (proj2 (rotation_crash_safe example_log 0 1 2 _ example_log_wf
    _ _ _ _ eq_refl)) 0 true _); [lia|unfold u32_max; lia|reflexivity|lia|simpl; lia].
Defined.

(** ** Deletion never takes what is needed *)

(** segment deletion is safe and complete: a deleted segment is below the current one and the
    checkpoint, and any shape pinned at or below it is evicted with it, evictable and past its
    retention; a segment below both that no live pin needs is deleted; and only stale pins are
    evicted. *)
Theorem plan_segment_deletion_safe segments current checkpoint pins retain now :
  let plan := plan_segment_deletion segments current checkpoint pins retain now in
  (forall n, n ∈ pl_delete plan ->
     n < current /\ n < checkpoint /\
     forall p, p ∈ pins -> sp_segment p <= n ->
       sp_shape_id p ∈ pl_evict plan /\ sp_evictable p = true /\
       exists at_, bt_lookup Z.compare (sp_segment p + 1) segments = Some at_ /\
                   retain <= sat_sub_u64 now at_) /\
  (forall n, n ∈ segments.*1 -> n < current -> n < checkpoint ->
     (forall p, p ∈ pins -> n < sp_segment p \/ pin_stale segments current retain now p = true) ->
     n ∈ pl_delete plan) /\
  (forall sid, sid ∈ pl_evict plan -> exists p, p ∈ pins /\ sp_shape_id p = sid /\
     pin_stale segments current retain now p = true).
Proof.
  intros plan. subst plan. unfold plan_segment_deletion. cbv zeta. cbn [pl_delete pl_evict].
  set (stale := pin_stale segments current retain now).
  assert (Hmin : forall l n, n < foldr Z.min checkpoint l <-> n < checkpoint /\ forall x, x ∈ l -> n < x).
  { induction l as [|x l IH]; intros n; simpl.
    - split; [|by intros []]. intros H. split; [done|]. by intros ? ?%elem_of_nil.
    - rewrite Z.min_glb_lt_iff, IH. setoid_rewrite elem_of_cons. naive_solver. }
  split_and!.
  - intros n Hn. apply list_elem_of_filter in Hn as [[Hn Hc] _]. apply Hmin in Hn as [Hck Hall].
    split_and!; [done..|]. intros p Hp Hle. destruct (stale p) eqn:Es.
    2: { exfalso. assert (n < sp_segment p); [|lia]. apply Hall, list_elem_of_fmap_2.
         by apply list_elem_of_filter. }
    split; [apply list_elem_of_fmap_2; by apply list_elem_of_filter|].
    unfold stale, pin_stale in Es. bool_prop. split; [done|]. unfold rotated_out_at in *.
    destruct (current <=? sp_segment p); [done|].
    destruct (bt_lookup _ _ _) as [at_|]; [|done]. exists at_. split; [done|]. by apply Z.leb_le.
  - intros n Hin Hc Hck Hall. apply list_elem_of_filter. split; [|done]. split; [|done].
    apply Hmin. split; [done|]. intros x (p & -> & Hp)%list_elem_of_fmap.
    apply list_elem_of_filter in Hp as [Hs Hp]. destruct (Hall p Hp) as [|Hs']; [done|].
    congruence.
  - intros sid (p & -> & Hp)%list_elem_of_fmap. apply list_elem_of_filter in Hp as [Hs Hp]. eauto.
Qed.
