(* ===== verification/Sequencer.v ===== *)
(** * The sequencer's per-table executor ([src/apps/engine/src/engine/sequencer.rs])

    [TableExec] and the handlers that change it: before-image stamping, pending-shape buffering,
    the fan-out of one change ([process_envelope]), activation, removal and parking of a shape.
    Emission is staged per stream in a map from path to envelopes, as the source stages it for the
    transaction's flush.

    The subquery registry is a client interface here ([SubqRegistry]); so is the memory cost of an
    envelope ([MemoryCost]), which depends on allocator capacities.  Whether anyone subscribes to
    the trace is a parameter, because it changes which executors are visited. *)

From S2P Require Import Prelude BTree Value TableRef Schema Predicate PredicateFacts Gate Output.
From S2P Require Import Executors Aggregates ChangeLog.
From stdpp Require Import base option numbers strings gmap fin_maps sorting list.
#[local] Open Scope Z_scope.

(* ------------------------------------------------------------------ *)
(** ** State *)

(** A COUNT served from the counts pipeline; a constraint is a set of (hash-table) values. *)
Record CircuitAgg : Type := mkCircuitAgg {
  ca_stream_path : str;
  ca_constraints : list (option (gset Value));
  ca_value : Z
}.

(** [CircuitAgg::group_matches], [CircuitAgg::envelope]. *)
Definition group_matches (constraints : list (option (gset Value))) (group : Row) : bool :=
  forallb (λ ic : nat * option (gset Value),
             match ic.2 with
             | None => true
             | Some keys => match group !! ic.1 with
                            | Some v => bool_decide (vkey v ∈ keys)
                            | None => false
                            end
             end) (imap pair constraints).
Definition circuit_agg_envelope (a : CircuitAgg) (table : TableRef) (txid lsn : option str)
  : Envelope := agg_envelope table (JNumber (NInt (ca_value a))) (ca_value a) txid lsn.

Inductive CreateKind : Type := CreatePlain | CreateAggregate (func : AggFn) (col : option nat).

Record PendingShape : Type := mkPending {
  pe_num_id : Z;
  pe_stream_path : str;
  pe_pred : CompiledPredicate;
  pe_out_cols : option (list nat);
  pe_kind : CreateKind;
  pe_buffered : list Envelope;
  pe_buffered_bytes : Z;
  pe_overflowed : bool
}.

Abbreviation Families := (gmap (list nat) KeyRouter).

Record TableExec : Type := mkExec {
  te_ts : TableSchema;
  te_shapes : gmap str StandaloneShape;
  te_shape_index : StandaloneIndex;
  te_families : Families;
  te_family_of : gmap str (list nat * Z * Row);
  te_aggregates : gmap str AggShape;
  te_agg_index : StandaloneIndex;
  te_circuit_aggs : gmap str CircuitAgg;
  te_pending : gmap str PendingShape;
  te_envelopes_total : Z;
  te_library_rows : gmap str json
}.

(** [TableExec::new]. *)
Definition TableExec_new (ts : TableSchema) : TableExec :=
  mkExec ts ∅ index_empty ∅ ∅ ∅ index_empty ∅ ∅ 0 ∅.

(** Appends staged per stream path. *)
Abbreviation Staged := (gmap str (list Envelope)).

(** [pending.entry(path).or_default().extend(envs)]. *)
Definition stage (path : str) (envs : list Envelope) (p : Staged) : Staged :=
  <[path := default [] (p !! path) ++ envs]> p.

(** Rows of a gmap as a hash map iterates them: every entry once. *)
Abbreviation entries m := (map_to_list m).

(* ------------------------------------------------------------------ *)
(** ** Before-images and buffering *)

(** [TableExec::stamp_before_image], on the per-key view. *)
Definition stamp_before_image (rows : gmap str json) (env : Envelope)
  : gmap str json * Envelope :=
  let env := match e_old env with
             | None => mkEnvelope (e_type env) (e_key env) (e_value env) (rows !! e_key env) (e_headers env)
             | Some _ => env
             end in
  if bool_decide (h_operation (e_headers env) = $"delete") then (delete (e_key env) rows, env)
  else match e_value env with
       | Some v => (<[e_key env := v]> rows, env)
       | None => (rows, env)
       end.

Class MemoryCost := envelope_memory_bytes : Envelope -> Z.

(** [buffer_pending]; a cap of zero is no cap. *)
Definition buffer_pending `{MemoryCost} (pending : PendingShape) (env : Envelope) (cap : Z)
  : PendingShape * bool :=
  if pe_overflowed pending then (pending, false)
  else
    let cost := envelope_memory_bytes env in
    let set b n o := mkPending (pe_num_id pending) (pe_stream_path pending) (pe_pred pending)
                       (pe_out_cols pending) (pe_kind pending) b n o in
    if (0 <? cap) && (cap <? sat_add_u64 (pe_buffered_bytes pending) cost)
    then (set [] 0 true, false)
    else (set (pe_buffered pending ++ [env]) (sat_add_u64 (pe_buffered_bytes pending) cost) false, true).

(** [exec_for]: only the canonical spelling of a known table has an executor. *)
Definition exec_for (execs : gmap str TableExec) (tables : gmap TableRef TableSchema) (table : str)
  : gmap str TableExec * option TableExec :=
  match execs !! table with
  | Some e => (execs, Some e)
  | None =>
      match TableRef_parse table with
      | Ok tref =>
          if bool_decide (TableRef_as_str tref = table) then
            match tables !! tref with
            | Some ts => let e := TableExec_new ts in (<[TableRef_as_str tref := e]> execs, Some e)
            | None => (execs, None)
            end
          else (execs, None)
      | Err _ => (execs, None)
      end
  end.

(* ------------------------------------------------------------------ *)
(** ** The fan-out of one change *)

Class SubqRegistry (R W : Type) := {
  reg_touches : R -> TableRef -> bool;
  reg_on_table_delta : R -> TableSchema -> Delta -> Z -> option Z -> option str -> res str (R * list W)
}.

Section fanout.
Context {FT : FloatText} {FE : FaultEnv}.

(** A change on its way through the tiers: its delta and stamps. *)
Record Change : Type := mkChange {
  ch_delta : Delta;
  ch_txid : option str;
  ch_lsn : option str;
  ch_lsn_u64 : Z;
  ch_xid : option Z
}.

(** The stamps as [process_envelope] reads them. *)
Definition change_of (delta : Delta) (txid lsn : option str) : Change :=
  mkChange delta txid lsn (default 0 (lsn_to_u64 <$> lsn)) (s ← txid; parse_u64 s).

Definition gate_skips (c : Change) (g : SnapshotGate) : bool :=
  should_skip g (ch_lsn_u64 c) (ch_xid c).

Definition row_now (delta : Delta) : option Row :=
  head (filter (λ rw : Row * Z, 0 < rw.2) delta).*1.

(** Absolute emission of one shape that holds the row exactly when [held]. *)
Definition stage_absolute (ts : TableSchema) (c : Change) (key path : str) (cols : option (list nat))
    (held : option Row) (p : Staged) : Staged :=
  match absolute_envelope ts key held (ch_txid c) (ch_lsn c) cols with
  | Some e => stage path [e] p
  | None => p
  end.

Definition absolute_standalone (ts : TableSchema) (c : Change) (key : str) (p : Staged)
    (s : StandaloneShape) : Staged :=
  if gate_skips c (ss_gate s) then p
  else stage_absolute ts c key (ss_stream_path s) (ss_out_cols s)
         (r ← row_now (ch_delta c); if matches (ss_pred s) r then Some r else None) p.

Definition absolute_routed (ts : TableSchema) (c : Change) (key : str) (held : option Row)
    (p : Staged) (rs : RoutedShape) : Staged :=
  if gate_skips c (rs_gate rs) then p
  else stage_absolute ts c key (rs_stream_path rs) (rs_out_cols rs) held p.

Definition absolute_router (ts : TableSchema) (c : Change) (key : str) (p : Staged) (r : KeyRouter)
  : Staged :=
  let new_key := (λ row, rkey (key_of row (kr_key_cols r))) <$> row_now (ch_delta c) in
  foldl (λ p kr, foldl (absolute_routed ts c key
                          (if bool_decide (new_key = Some kr.1) then row_now (ch_delta c) else None))
                       p kr.2)
        p (entries (kr_index r)).

(** One standalone candidate. *)
Definition fan_standalone (ts : TableSchema) (c : Change) (p : Staged) (s : StandaloneShape) : Staged :=
  if gate_skips c (ss_gate s) then p
  else let out := eval_standalone (ss_pred s) (ch_delta c) in
       if bool_decide (out = []) then p
       else stage (ss_stream_path s)
              (translate_output ts out (ch_txid c) (ch_lsn c) (ss_out_cols s)) p.

Abbreviation ShapeOut := (str * option (list nat) * Delta)%type.

(** [by_shape.entry(num_id).or_insert_with(..).2.push((row, w))]. *)
Definition push_shape_out (m : gmap Z ShapeOut) (rs : RoutedShape) (rw : Row * Z) : gmap Z ShapeOut :=
  let '(path, cols, rows) :=
    default (rs_stream_path rs, rs_out_cols rs, []) (m !! rs_num_id rs) in
  <[rs_num_id rs := (path, cols, rows ++ [rw])]> m.

(** The delta loop of one router. *)
Definition route_row (c : Change) (r : KeyRouter) (m : gmap Z ShapeOut) (rw : Row * Z)
  : gmap Z ShapeOut :=
  foldl (λ m rs, if gate_skips c (rs_gate rs) then m else push_shape_out m rs rw) m
        (default [] (kr_index r !! rkey (key_of rw.1 (kr_key_cols r)))).

Definition fan_router (ts : TableSchema) (c : Change) (p : Staged) (r : KeyRouter) : Staged :=
  let by_shape := foldl (route_row c r) ∅ (ch_delta c) in
  foldl (λ p (ns : Z * ShapeOut),
           let '(path, cols, rows) := ns.2 in
           let envs := translate_output ts rows (ch_txid c) (ch_lsn c) cols in
           if bool_decide (envs = []) then p else stage path envs p)
        p (entries by_shape).

(** One aggregate that is a candidate. *)
Definition fan_aggregate (ts : TableSchema) (c : Change) (p : Staged) (a : AggShape)
  : AggShape * Staged :=
  if gate_skips c (ag_gate a) then (a, p)
  else
    let '(a, touched) := agg_apply a (ch_delta c) in
    if touched then
      let val := agg_value a in
      if match ag_last a with Some last => json_eqb last val | None => false end then (a, p)
      else
        let a := mkAgg (ag_pred a) (ag_func a) (ag_col a) (ag_stream_path a) (ag_gate a)
                       (ag_terms a) (Some val) in
        (a, stage (ag_stream_path a) [agg_shape_envelope a ts (ch_txid c) (ch_lsn c)] p)
    else (a, p).
End fanout.

Section process.
Context {FT : FloatText} {FE : FaultEnv} {R W : Type} {SR : SubqRegistry R W}.

(** The standalone shapes a delta visits: all of them under a trace, else the candidates that
    still exist. *)
Definition visited_shapes (traced : bool) (shapes : gmap str StandaloneShape)
    (index : StandaloneIndex) (delta : Delta) : list StandaloneShape :=
  if traced then (entries shapes).*2
  else omap (λ sid, shapes !! sid) (elements (candidates index delta)).

(** The plain tiers of [process_envelope]. *)
Definition fan_plain (ts : TableSchema) (traced absolute : bool) (key : str) (c : Change)
    (shapes : gmap str StandaloneShape) (index : StandaloneIndex) (families : Families)
    (p : Staged) : Staged :=
  if absolute then
    foldl (absolute_router ts c key)
          (foldl (absolute_standalone ts c key) p (entries shapes).*2)
          (entries families).*2
  else
    foldl (fan_router ts c)
          (foldl (fan_standalone ts c) p (visited_shapes traced shapes index (ch_delta c)))
          (entries families).*2.

(** Its aggregate loop. *)
Definition fan_aggregates (ts : TableSchema) (traced : bool) (c : Change) (index : StandaloneIndex)
    (aggs : gmap str AggShape) (p : Staged) : gmap str AggShape * Staged :=
  foldl (λ (mp : gmap str AggShape * Staged) (sa : str * AggShape),
           if traced || bool_decide (sa.1 ∈ candidates index (ch_delta c)) then
             let '(a, p) := fan_aggregate ts c mp.2 sa.2 in (<[sa.1 := a]> mp.1, p)
           else mp)
        (aggs, p) (entries aggs).

(** What a processed envelope changes: the aggregates, the staged appends, the registry, and the
    flip work handed to the propagator. *)
Record Processed : Type := mkProcessed {
  pr_aggregates : gmap str AggShape;
  pr_staged : Staged;
  pr_registry : R;
  pr_work : list W
}.

(** [process_envelope]. *)
Definition process_envelope (ts : TableSchema) (traced library_mode : bool)
    (shapes : gmap str StandaloneShape) (shape_index : StandaloneIndex) (families : Families)
    (aggregates : gmap str AggShape) (agg_index : StandaloneIndex) (reg : R) (env : Envelope)
    (pending : Staged) : res str Processed :=
  match apply_envelope ts env with
  | Err e => Err e
  | Ok (delta, txid, lsn) =>
      let absolute := library_mode && needs_absolute_emission env in
      if bool_decide (delta = []) && negb absolute then
        Ok (mkProcessed aggregates pending reg [])
      else
        let c := change_of delta txid lsn in
        let pending := fan_plain ts traced absolute (e_key env) c shapes shape_index families pending in
        if bool_decide (delta = []) then Ok (mkProcessed aggregates pending reg [])
        else
          match (if reg_touches reg (ts_table ts)
                 then reg_on_table_delta reg ts delta (ch_lsn_u64 c) (ch_xid c) txid
                 else Ok (reg, [])) with
          | Err e => Err e
          | Ok (reg, work) =>
              let '(aggregates, pending) := fan_aggregates ts traced c agg_index aggregates pending in
              Ok (mkProcessed aggregates pending reg work)
          end
  end.
End process.

(* ------------------------------------------------------------------ *)
(** ** Shape lifecycle on the executor *)

Inductive ActivateFailure : Type := PendingBufferOverflow | ActivateFailed (why : str).

(** Field updates of [TableExec]. *)
Definition set_pending (e : TableExec) (p : gmap str PendingShape) : TableExec :=
  mkExec (te_ts e) (te_shapes e) (te_shape_index e) (te_families e) (te_family_of e) (te_aggregates e)
         (te_agg_index e) (te_circuit_aggs e) p (te_envelopes_total e) (te_library_rows e).
Definition set_shapes (e : TableExec) (s : gmap str StandaloneShape) (i : StandaloneIndex) : TableExec :=
  mkExec (te_ts e) s i (te_families e) (te_family_of e) (te_aggregates e)
         (te_agg_index e) (te_circuit_aggs e) (te_pending e) (te_envelopes_total e) (te_library_rows e).
Definition set_families (e : TableExec) (f : Families) (fo : gmap str (list nat * Z * Row)) : TableExec :=
  mkExec (te_ts e) (te_shapes e) (te_shape_index e) f fo (te_aggregates e)
         (te_agg_index e) (te_circuit_aggs e) (te_pending e) (te_envelopes_total e) (te_library_rows e).
Definition set_aggregates (e : TableExec) (a : gmap str AggShape) (i : StandaloneIndex) : TableExec :=
  mkExec (te_ts e) (te_shapes e) (te_shape_index e) (te_families e) (te_family_of e) a
         i (te_circuit_aggs e) (te_pending e) (te_envelopes_total e) (te_library_rows e).
Definition set_circuit_aggs (e : TableExec) (c : gmap str CircuitAgg) : TableExec :=
  mkExec (te_ts e) (te_shapes e) (te_shape_index e) (te_families e) (te_family_of e) (te_aggregates e)
         (te_agg_index e) c (te_pending e) (te_envelopes_total e) (te_library_rows e).

(** [SequencerCmd::BeginShape]: register a pending shape with an empty buffer. *)
Definition begin_shape (e : TableExec) (shape_id : str) (num_id : Z) (path : str)
    (pred : CompiledPredicate) (out_cols : option (list nat)) (kind : CreateKind) : TableExec :=
  set_pending e (<[shape_id := mkPending num_id path pred out_cols kind [] 0 false]> (te_pending e)).

(** [SequencerCmd::AbortShape]. *)
Definition abort_shape (e : TableExec) (shape_id : str) : TableExec :=
  set_pending e (delete shape_id (te_pending e)).

(** Registering a routed shape, and unregistering one with its emptied key and router. *)
Definition family_insert (f : Families) (key_cols : list nat) (key : Row) (rs : RoutedShape) : Families :=
  let router := default (mkRouter key_cols ∅) (f !! key_cols) in
  <[key_cols := mkRouter (kr_key_cols router)
      (<[rkey key := default [] (kr_index router !! rkey key) ++ [rs]]> (kr_index router))]> f.
Definition family_remove (f : Families) (key_cols : list nat) (key : Row) (num_id : Z) : Families :=
  match f !! key_cols with
  | None => f
  | Some router =>
      let index := match kr_index router !! rkey key with
                   | None => kr_index router
                   | Some routed =>
                       let routed := filter (λ rs, rs_num_id rs <> num_id) routed in
                       if bool_decide (routed = []) then delete (rkey key) (kr_index router)
                       else <[rkey key := routed]> (kr_index router)
                   end in
      if bool_decide (index = ∅) then delete key_cols f
      else <[key_cols := mkRouter (kr_key_cols router) index]> f
  end.

Section lifecycle.
Context {FT : FloatText} {FE : FaultEnv}.

(** The buffered replay of [activate_shape], for a plain shape. *)
Definition replay_buffered (ts : TableSchema) (gate : SnapshotGate) (pred : CompiledPredicate)
    (cols : option (list nat)) (buffered : list Envelope) : list Envelope :=
  concat (map (λ env,
    match apply_envelope ts env with
    | Err _ => []
    | Ok (delta, txid, lsn) =>
        if bool_decide (delta = []) then []
        else let c := change_of delta txid lsn in
             if gate_skips c gate then []
             else let matched := eval_standalone pred delta in
                  if bool_decide (matched = []) then []
                  else translate_output ts matched txid lsn cols
    end) buffered).

(** And for an aggregate: the new fold and the value envelopes. *)
Definition replay_aggregate (ts : TableSchema) (gate : SnapshotGate) (buffered : list Envelope)
    (agg : AggShape) (outs : list Envelope) : AggShape * list Envelope :=
  foldl (λ (ao : AggShape * list Envelope) env,
    let '(agg, outs) := ao in
    match apply_envelope ts env with
    | Err _ => ao
    | Ok (delta, txid, lsn) =>
        if bool_decide (delta = []) then ao
        else let c := change_of delta txid lsn in
             if gate_skips c gate then ao
             else
               let '(agg, touched) := agg_apply agg delta in
               if touched then
                 let val := agg_value agg in
                 if match ag_last agg with Some last => json_eqb last val | None => false end
                 then (agg, outs)
                 else let agg := mkAgg (ag_pred agg) (ag_func agg) (ag_col agg) (ag_stream_path agg)
                                   (ag_gate agg) (ag_terms agg) (Some val) in
                      (agg, outs ++ [agg_shape_envelope agg ts txid lsn])
               else (agg, outs)
    end) (agg, outs) buffered.

(** [activate_shape]: the executor afterwards, and the appends it makes or why it refused.
    [append_ok] is whether the retried append of an aggregate's values went through. *)
Definition activate_shape (e : TableExec) (shape_id : str) (gate : SnapshotGate)
    (agg_seed : option AggTerms) (append_ok : bool)
  : TableExec * res ActivateFailure (list (str * list Envelope)) :=
  match te_pending e !! shape_id with
  | None => (e, Err (ActivateFailed $"no pending shape"))
  | Some p =>
      let e := set_pending e (delete shape_id (te_pending e)) in
      if pe_overflowed p then (e, Err PendingBufferOverflow)
      else match pe_kind p with
      | CreatePlain =>
          let e :=
            match equality_template (pe_pred p) with
            | Some pairs =>
                let key_cols := pairs.*1 in
                let key := pairs.*2 in
                set_families e
                  (family_insert (te_families e) key_cols key
                     (mkRouted (pe_num_id p) (pe_stream_path p) gate (pe_out_cols p)))
                  (<[shape_id := (key_cols, pe_num_id p, key)]> (te_family_of e))
            | None =>
                set_shapes e
                  (<[shape_id := mkStandalone (pe_pred p) (pe_stream_path p) gate (pe_out_cols p)]> (te_shapes e))
                  (index_insert shape_id (pe_pred p) (te_shape_index e))
            end in
          let outs := replay_buffered (te_ts e) gate (pe_pred p) (pe_out_cols p) (pe_buffered p) in
          (e, Ok (if bool_decide (outs = []) then [] else [(pe_stream_path p, outs)]))
      | CreateAggregate func col =>
          let seed := default AggSeed_default agg_seed in
          let agg0 := mkAgg (pe_pred p) func col (pe_stream_path p) gate seed None in
          let outs0 := [agg_shape_envelope agg0 (te_ts e) None None] in
          let agg1 := mkAgg (pe_pred p) func col (pe_stream_path p) gate seed (Some (agg_value agg0)) in
          let '(agg, outs) := replay_aggregate (te_ts e) gate (pe_buffered p) agg1 outs0 in
          if append_ok then
            (set_aggregates e (<[shape_id := agg]> (te_aggregates e))
                              (index_insert shape_id (ag_pred agg) (te_agg_index e)),
             Ok [(pe_stream_path p, outs)])
          else (e, Err (ActivateFailed $"append"))
      end
  end.
End lifecycle.

(** [routed.iter().position(|rs| rs.num_id == num_id)] and the removal at that position. *)
Fixpoint take_routed (num_id : Z) (routed : list RoutedShape)
  : option (RoutedShape * list RoutedShape) :=
  match routed with
  | [] => None
  | rs :: rest => if rs_num_id rs =? num_id then Some (rs, rest)
                  else p ← take_routed num_id rest; Some (p.1, rs :: p.2)
  end.

(** [SequencerCmd::DeactivateShape]: the shape's gate, and the executor without it. *)
Definition deactivate_shape (e : TableExec) (shape_id : str) : TableExec * option SnapshotGate :=
  match te_shapes e !! shape_id with
  | Some s => (set_shapes e (delete shape_id (te_shapes e)) (index_remove shape_id (te_shape_index e)),
               Some (ss_gate s))
  | None =>
      match te_family_of e !! shape_id with
      | None => (e, None)
      | Some (key_cols, num_id, key) =>
          let fo := delete shape_id (te_family_of e) in
          match te_families e !! key_cols with
          | None => (set_families e (te_families e) fo, None)
          | Some router =>
              let '(gate, index) :=
                match kr_index router !! rkey key with
                | None => (None, kr_index router)
                | Some routed =>
                    let '(gate, routed) := match take_routed num_id routed with
                                           | Some (rs, rest) => (Some (rs_gate rs), rest)
                                           | None => (None, routed)
                                           end in
                    (gate, if bool_decide (routed = []) then delete (rkey key) (kr_index router)
                           else <[rkey key := routed]> (kr_index router))
                end in
              (set_families e
                 (if bool_decide (index = ∅) then delete key_cols (te_families e)
                  else <[key_cols := mkRouter (kr_key_cols router) index]> (te_families e)) fo, gate)
          end
      end
  end.

(** [SequencerCmd::RemoveShape]. *)
Definition remove_shape (e : TableExec) (shape_id : str) : TableExec :=
  let e := set_pending e (delete shape_id (te_pending e)) in
  if bool_decide (is_Some (te_circuit_aggs e !! shape_id)) then
    set_circuit_aggs e (delete shape_id (te_circuit_aggs e))
  else if bool_decide (is_Some (te_aggregates e !! shape_id)) then
    set_aggregates e (delete shape_id (te_aggregates e)) (index_remove shape_id (te_agg_index e))
  else if bool_decide (is_Some (te_shapes e !! shape_id)) then
    set_shapes e (delete shape_id (te_shapes e)) (index_remove shape_id (te_shape_index e))
  else match te_family_of e !! shape_id with
       | None => e
       | Some (key_cols, num_id, key) =>
           set_families e (family_remove (te_families e) key_cols key num_id)
                          (delete shape_id (te_family_of e))
       end.
