(* ===== verification/SequencerFacts.v ===== *)
(** * The fan-out emits every shape's view

    [process_envelope] visits shapes through hash maps, a conjunct index, key routers and aggregate
    candidates.  The theorems here say that none of it shows: what is staged on a shape's stream
    is its predicate over the change's delta, whether it is standalone or routed and whether or not
    anyone traces; so a subscriber moves from the view of the old table to the view of the new. *)

From S2P Require Import Prelude BTree Value TableRef Schema Predicate PredicateFacts Gate Output.
From S2P Require Import Executors Aggregates Refine ChangeLog Sequencer.
From stdpp Require Import base option numbers strings gmap fin_maps sorting list.
#[local] Open Scope Z_scope.

(** ** Staging *)

(** What is staged on a stream. *)
Definition emitted (p : Staged) (q : str) : list Envelope := default [] (p !! q).

(** [f] appends [O q] on every stream [q]. *)
Definition stages (f : Staged -> Staged) (O : str -> list Envelope) : Prop :=
  forall p q, emitted (f p) q = emitted p q ++ O q.

Definition on_path (path : str) (envs : list Envelope) (q : str) : list Envelope :=
  if bool_decide (path = q) then envs else [].

Lemma stages_stage path envs : stages (stage path envs) (on_path path envs).
Proof.
  intros p q. unfold emitted, stage, on_path. case_bool_decide as H; subst.
  - by rewrite lookup_insert_eq.
  - by rewrite lookup_insert_ne, app_nil_r by done.
Qed.

Lemma on_path_nil path q : on_path path [] q = [].
Proof. unfold on_path. by case_bool_decide. Qed.

Lemma stages_id : stages id (λ _, []).
Proof. intros p q. by rewrite app_nil_r. Qed.

Lemma stages_ext f g O O' :
  (forall p, f p = g p) -> (forall q, O q = O' q) -> stages f O -> stages g O'.
Proof. intros Hf HO H p q. by rewrite <- Hf, <- HO. Qed.

Lemma stages_foldl {A} (f : Staged -> A -> Staged) (O : A -> str -> list Envelope) l :
  (forall a, a ∈ l -> stages (λ p, f p a) (O a)) ->
  stages (λ p, foldl f p l) (λ q, concat (map (λ a, O a q) l)).
Proof.
  intros H p q. revert p. induction l as [|a l IH]; intros p; simpl; [by rewrite app_nil_r|].
  rewrite IH by (intros; apply H; by right).
  rewrite (H a) by left. by rewrite (assoc_L (++)).
Qed.

(** Only one contributor to a stream. *)
Lemma concat_only {A} (O : A -> list Envelope) l a :
  NoDup l -> a ∈ l -> (forall b, b ∈ l -> b <> a -> O b = []) -> concat (map O l) = O a.
Proof.
  induction 1 as [|b l Hb Hnd IH]; intros Hin Ho; [by apply elem_of_nil in Hin|]. simpl.
  apply elem_of_cons in Hin as [->|Hin].
  - assert (concat (map O l) = []) as ->; [|by rewrite app_nil_r].
    clear IH Hnd. induction l as [|c l IH]; simpl; [done|].
    apply not_elem_of_cons in Hb as [Hne Hb]. rewrite Ho by set_solver. simpl.
    apply IH; [done|]. intros d Hd. apply Ho. set_solver.
  - rewrite Ho by set_solver. simpl. apply IH; [done|]. intros d Hd. apply Ho. by right.
Qed.

Lemma concat_none {A} (O : A -> list Envelope) l :
  (forall b, b ∈ l -> O b = []) -> concat (map O l) = [].
Proof.
  induction l as [|b l IH]; intros Ho; simpl; [done|].
  rewrite Ho by left. apply IH. intros; apply Ho. by right.
Qed.

Lemma foldl_omap {A B C} (f : C -> B -> C) (g : A -> option B) l p :
  foldl f p (omap g l) = foldl (λ p x, match g x with Some y => f p y | None => p end) p l.
Proof. revert p; induction l as [|a l IH]; intros p; csimpl; [done|]. by destruct (g a); simpl. Qed.

Lemma foldl_fmap' {A B C} (f : C -> B -> C) (g : A -> B) l p :
  foldl f p (g <$> l) = foldl (λ p x, f p (g x)) p l.
Proof. revert p; induction l as [|a l IH]; intros p; csimpl; [done|]. apply IH. Qed.

Section fan.
Context {FT : FloatText} {FE : FaultEnv} (ts : TableSchema) (c : Change).

(** The reference output of a row shape for a change with a before-image. *)
Definition shape_out (pred : CompiledPredicate) (gate : SnapshotGate) (cols : option (list nat))
  : list Envelope :=
  if gate_skips c gate then []
  else translate_output ts (eval_standalone pred (ch_delta c)) (ch_txid c) (ch_lsn c) cols.

Lemma translate_output_nil txid lsn cols : translate_output ts [] txid lsn cols = [].
Proof. done. Qed.

Lemma fan_standalone_stages s :
  stages (λ p, fan_standalone ts c p s)
    (on_path (ss_stream_path s) (shape_out (ss_pred s) (ss_gate s) (ss_out_cols s))).
Proof.
  unfold fan_standalone, shape_out. destruct (gate_skips c (ss_gate s)).
  - eapply stages_ext; [done| |apply stages_id]. intros q. unfold on_path. by case_bool_decide.
  - case_bool_decide as H.
    + eapply stages_ext; [done| |apply stages_id]. intros q. unfold on_path. rewrite H.
      by case_bool_decide.
    + apply stages_stage.
Qed.

(** *** Routers *)

Definition key_hits (r : KeyRouter) (rw : Row * Z) : list RoutedShape :=
  default [] (kr_index r !! rkey (key_of rw.1 (kr_key_cols r))).

(** Shape numbers are not shared between keys, nor within one. *)
Definition router_ok (r : KeyRouter) : Prop :=
  (forall k l, kr_index r !! k = Some l -> NoDup (rs_num_id <$> l)) /\
  (forall k k' l l' rs rs', kr_index r !! k = Some l -> kr_index r !! k' = Some l' ->
     rs ∈ l -> rs' ∈ l' -> rs_num_id rs = rs_num_id rs' -> k = k' /\ rs = rs').

(** The delta rows of a shape registered under key [k]. *)
Definition routed_rows (r : KeyRouter) (k : Row) (delta : Delta) : Delta :=
  filter (λ rw, rkey (key_of rw.1 (kr_key_cols r)) = k) delta.

Lemma push_fold l rw : forall m n,
  NoDup (rs_num_id <$> l) ->
  foldl (λ m rs, if gate_skips c (rs_gate rs) then m else push_shape_out m rs rw) m l !! n =
  match list_find (λ rs, rs_num_id rs = n) l with
  | Some (_, rs) =>
      if gate_skips c (rs_gate rs) then m !! n
      else let '(path, cols, rows) := default (rs_stream_path rs, rs_out_cols rs, []) (m !! n) in
           Some (path, cols, rows ++ [rw])
  | None => m !! n
  end.
Proof.
  induction l as [|rs l IH]; intros m n Hnd; csimpl; [done|].
  csimpl in Hnd. apply NoDup_cons in Hnd as [Hni Hnd]. rewrite IH by done. clear IH.
  assert (Hpush : forall n', push_shape_out m rs rw !! n' =
    if decide (rs_num_id rs = n') then
      (let '(path, cols, rows) := default (rs_stream_path rs, rs_out_cols rs, []) (m !! n') in
       Some (path, cols, rows ++ [rw]))
    else m !! n').
  { intros n'. unfold push_shape_out. case_decide as E.
    - subst. destruct (default _ _) as [[path cols] rows]. by rewrite lookup_insert_eq.
    - destruct (default _ _) as [[path cols] rows]. by rewrite lookup_insert_ne. }
  case_decide as E.
  - assert (list_find (λ rs, rs_num_id rs = n) l = None) as ->.
    { apply list_find_None. apply Forall_forall. intros rs' Hin Hn. apply Hni.
      rewrite E, <- Hn. by apply list_elem_of_fmap_2. }
    destruct (gate_skips c (rs_gate rs)); [done|]. by rewrite Hpush, decide_True.
  - destruct (list_find _ l) as [[i rs']|]; simpl;
      (destruct (gate_skips c (rs_gate rs)); [done|]); rewrite Hpush, decide_False by done; done.
Qed.

(** The grouped rows of a router, after any prefix of the delta. *)
Lemma by_shape_spec r delta n :
  router_ok r ->
  (forall k l rs, kr_index r !! k = Some l -> rs ∈ l -> rs_num_id rs = n ->
     foldl (route_row c r) ∅ delta !! n =
     if gate_skips c (rs_gate rs) then None
     else match routed_rows r k delta with
          | [] => None
          | rows => Some (rs_stream_path rs, rs_out_cols rs, rows)
          end) /\
  ((forall k l rs, kr_index r !! k = Some l -> rs ∈ l -> rs_num_id rs <> n) ->
     foldl (route_row c r) ∅ delta !! n = None).
Proof.
  intros [Hnd Huniq]. induction delta as [|rw delta IH] using rev_ind.
  { split; [|done]. intros. simpl. by destruct (gate_skips c _). }
  destruct IH as [IH1 IH2]. rewrite foldl_app. simpl.
  assert (Hhits : NoDup (rs_num_id <$> key_hits r rw)).
  { unfold key_hits. destruct (kr_index r !! _) as [l|] eqn:E; [by eapply Hnd|constructor]. }
  assert (Hrr : forall m, route_row c r m rw =
    foldl (λ m rs, if gate_skips c (rs_gate rs) then m else push_shape_out m rs rw) m (key_hits r rw)) by done.
  rewrite Hrr, push_fold by done. clear Hrr. split.
  - intros k l rs Hk Hrs Hn. specialize (IH1 k l rs Hk Hrs Hn).
    unfold routed_rows. rewrite filter_app, filter_cons. fold (routed_rows r k delta).
    destruct (decide (rkey (key_of rw.1 (kr_key_cols r)) = k)) as [Hkey|Hkey].
    + assert (Hf : exists i, list_find (λ rs, rs_num_id rs = n) (key_hits r rw) = Some (i, rs)).
      { unfold key_hits. rewrite Hkey, Hk. simpl.
        destruct (list_find (λ rs, rs_num_id rs = n) l) as [[i rs']|] eqn:E.
        - exists i. apply list_find_Some in E as (Hi & Hn' & _).
          destruct (Huniq k k l l rs rs') as [_ ->]; try done; [by eapply list_elem_of_lookup_2|congruence].
        - apply list_find_None in E. rewrite Forall_forall in E. by apply E in Hrs. }
      destruct Hf as [i ->]. rewrite IH1. destruct (gate_skips c (rs_gate rs)); [done|].
      rewrite filter_nil. destruct (routed_rows r k delta); done.
    + rewrite filter_nil, app_nil_r.
      assert (list_find (λ rs, rs_num_id rs = n) (key_hits r rw) = None) as ->; [|done].
      apply list_find_None, Forall_forall. intros rs' Hin Hn'. unfold key_hits in Hin.
      destruct (kr_index r !! rkey (key_of rw.1 (kr_key_cols r))) as [l'|] eqn:E; [|by apply elem_of_nil in Hin]. simpl in Hin.
      destruct (Huniq _ _ _ _ rs rs' Hk E Hrs Hin) as [? _]; congruence.
  - intros Hno. assert (list_find (λ rs, rs_num_id rs = n) (key_hits r rw) = None) as ->; [|by apply IH2].
    apply list_find_None, Forall_forall. intros rs' Hin Hn'. unfold key_hits in Hin.
    destruct (kr_index r !! rkey (key_of rw.1 (kr_key_cols r))) as [l'|] eqn:E; [|by apply elem_of_nil in Hin]. by eapply Hno.
Qed.

Lemma by_shape_key r delta n x :
  foldl (route_row c r) ∅ delta !! n = Some x ->
  exists k l rs, kr_index r !! k = Some l /\ rs ∈ l /\ rs_num_id rs = n.
Proof.
  revert x. induction delta as [|rw delta IH] using rev_ind; intros x; [done|].
  rewrite foldl_app. simpl. unfold route_row at 1.
  destruct (kr_index r !! rkey (key_of rw.1 (kr_key_cols r))) as [l|] eqn:E; simpl; [|by apply IH].
  assert (Hl : forall rs, rs ∈ l -> exists k l, kr_index r !! k = Some l /\ rs ∈ l) by eauto.
  clear E. revert IH. generalize (foldl (route_row c r) ∅ delta). revert x.
  induction l as [|rs l IHl]; intros x m IH; simpl; [by apply IH|].
  apply IHl; [intros; apply Hl; by right|]. intros y.
  destruct (gate_skips c (rs_gate rs)); [apply IH|]. unfold push_shape_out.
  destruct (default _ _) as [[path cols] rows]. destruct (decide (rs_num_id rs = n)) as [He|Hne].
  - intros _. destruct (Hl rs) as (k & l' & ? & ?); [left|]. by exists k, l', rs.
  - rewrite lookup_insert_ne by done. apply IH.
Qed.

Definition router_out (r : KeyRouter) (q : str) : list Envelope :=
  concat (map (λ ns : Z * (str * option (list nat) * Delta),
                 on_path ns.2.1.1
                   (translate_output ts ns.2.2 (ch_txid c) (ch_lsn c) ns.2.1.2) q)
              (entries (foldl (route_row c r) ∅ (ch_delta c)))).

Lemma fan_router_stages r : stages (λ p, fan_router ts c p r) (router_out r).
Proof.
  unfold fan_router, router_out. apply stages_foldl. intros [n [[path cols] rows]] _. simpl.
  case_bool_decide as E.
  - eapply stages_ext; [done| |apply stages_id]. intros q. unfold on_path. rewrite E.
    by case_bool_decide.
  - apply stages_stage.
Qed.

(** The rows of the delta a routed shape is sent, and what is staged for it. *)
Definition routed_out (rs : RoutedShape) (rows : Delta) : list Envelope :=
  if gate_skips c (rs_gate rs) then []
  else translate_output ts rows (ch_txid c) (ch_lsn c) (rs_out_cols rs).

Lemma router_out_shape r k l rs :
  router_ok r -> kr_index r !! k = Some l -> rs ∈ l ->
  (forall k' l' rs', kr_index r !! k' = Some l' -> rs' ∈ l' ->
     rs_stream_path rs' = rs_stream_path rs -> rs_num_id rs' = rs_num_id rs) ->
  router_out r (rs_stream_path rs) = routed_out rs (routed_rows r k (ch_delta c)).
Proof.
  intros Hok Hk Hrs Hpath. unfold router_out, routed_out.
  set (m := foldl (route_row c r) ∅ (ch_delta c)).
  assert (Hother : forall n x, (n, x) ∈ entries m -> n <> rs_num_id rs ->
    on_path x.1.1 (translate_output ts x.2 (ch_txid c) (ch_lsn c) x.1.2) (rs_stream_path rs) = []).
  { intros n x Hin%elem_of_map_to_list Hne. unfold on_path. case_bool_decide as Hp; [|done].
    destruct (by_shape_key _ _ _ _ Hin) as (k' & l' & rs' & Hk' & Hrs' & Hn).
    destruct (by_shape_spec r (ch_delta c) n Hok) as [Hs _].
    specialize (Hs k' l' rs' Hk' Hrs' Hn). fold m in Hs. rewrite Hin in Hs.
    destruct (gate_skips c (rs_gate rs')); [done|].
    destruct (routed_rows r k' (ch_delta c)); [done|]. injection Hs as ->.
    exfalso. apply Hne. rewrite <- Hn. by eapply Hpath. }
  destruct (by_shape_spec r (ch_delta c) (rs_num_id rs) Hok) as [Hs _].
  specialize (Hs k l rs Hk Hrs eq_refl). fold m in Hs.
  assert (Hnone : m !! rs_num_id rs = None ->
    concat (map (λ ns : Z * (str * option (list nat) * Delta), on_path ns.2.1.1
      (translate_output ts ns.2.2 (ch_txid c) (ch_lsn c) ns.2.1.2) (rs_stream_path rs)) (entries m)) = []).
  { intros Hm. apply concat_none. intros [n x] Hin. apply (Hother n x Hin).
    intros ->. apply elem_of_map_to_list in Hin. congruence. }
  destruct (gate_skips c (rs_gate rs)); [by apply Hnone|].
  destruct (routed_rows r k (ch_delta c)) as [|rw rows] eqn:Er; [by apply Hnone|].
  rewrite (concat_only _ _ (rs_num_id rs, (rs_stream_path rs, rs_out_cols rs, rw :: rows))).
  - simpl. unfold on_path. by rewrite bool_decide_eq_true_2.
  - apply NoDup_map_to_list.
  - by apply elem_of_map_to_list.
  - intros [n x] Hin Hne. apply (Hother n x Hin). intros ->.
    apply elem_of_map_to_list in Hin. congruence.
Qed.

Lemma router_out_none r q :
  router_ok r ->
  (forall k l rs, kr_index r !! k = Some l -> rs ∈ l -> rs_stream_path rs <> q) ->
  router_out r q = [].
Proof.
  intros Hok Hno. apply concat_none. intros [n x] Hin%elem_of_map_to_list. simpl.
  unfold on_path. case_bool_decide as Hp; [|done].
  destruct (by_shape_key _ _ _ _ Hin) as (k' & l' & rs' & Hk' & Hrs' & Hn).
  destruct (by_shape_spec r (ch_delta c) n Hok) as [Hs _].
  specialize (Hs k' l' rs' Hk' Hrs' Hn). rewrite Hin in Hs.
  destruct (gate_skips c (rs_gate rs')); [done|].
  destruct (routed_rows r k' (ch_delta c)); [done|]. injection Hs as ->.
  exfalso. by eapply Hno.
Qed.

(** An equality template's key match is its predicate. *)
Lemma key_match_eqs row cs :
  rkey (key_of row cs.*1) = rkey cs.*2 <-> eqs_hold row cs.
Proof.
  unfold eqs_hold, key_of, rkey. induction cs as [|[col v] cs IH]; csimpl; [by rewrite Forall_nil|].
  rewrite Forall_cons, <- IH. simpl. rewrite value_eqb_vkey. split.
  - intros [= ? ?]. done.
  - intros [-> ->]. done.
Qed.

Lemma routed_rows_eval r pred cs :
  equality_template pred = Some cs -> kr_key_cols r = cs.*1 ->
  routed_rows r (rkey cs.*2) (ch_delta c) = eval_standalone pred (ch_delta c).
Proof.
  intros He Hc. unfold routed_rows, eval_standalone. apply list_filter_iff. intros [row w].
  rewrite Hc, key_match_eqs. symmetry. by apply equality_template_spec.
Qed.
End fan.

(* ------------------------------------------------------------------ *)
(** ** The executor's invariant *)

Definition routed_at (f : Families) (cols : list nat) (k : Row) (rs : RoutedShape) : Prop :=
  exists r l, f !! cols = Some r /\ kr_index r !! k = Some l /\ rs ∈ l.

(** The index is of the registered shapes, a router is filed under its key columns, and a stream
    belongs to one shape. *)
Record exec_ok (shapes : gmap str StandaloneShape) (index : StandaloneIndex) (families : Families)
    (aggs : gmap str AggShape) (agg_index : StandaloneIndex) : Prop := {
  eo_index : index_ok index;
  eo_placed : ix_placed index = access_leaf ∘ ss_pred <$> shapes;
  eo_agg_index : index_ok agg_index;
  eo_agg_placed : ix_placed agg_index = access_leaf ∘ ag_pred <$> aggs;
  eo_router : forall cols r, families !! cols = Some r -> kr_key_cols r = cols /\ router_ok r;
  eo_ss : forall i j s t, shapes !! i = Some s -> shapes !! j = Some t ->
    ss_stream_path s = ss_stream_path t -> i = j;
  eo_rr : forall cols cols' k k' rs rs', routed_at families cols k rs -> routed_at families cols' k' rs' ->
    rs_stream_path rs = rs_stream_path rs' -> cols = cols' /\ rs_num_id rs = rs_num_id rs';
  eo_aa : forall i j a b, aggs !! i = Some a -> aggs !! j = Some b ->
    ag_stream_path a = ag_stream_path b -> i = j;
  eo_sr : forall i s cols k rs, shapes !! i = Some s -> routed_at families cols k rs ->
    ss_stream_path s <> rs_stream_path rs;
  eo_sa : forall i s j a, shapes !! i = Some s -> aggs !! j = Some a ->
    ss_stream_path s <> ag_stream_path a;
  eo_ra : forall cols k rs j a, routed_at families cols k rs -> aggs !! j = Some a ->
    rs_stream_path rs <> ag_stream_path a
}.

Section visits.
Context {FE : FaultEnv}.

Lemma eval_standalone_nonempty pred delta :
  eval_standalone pred delta <> [] -> exists row w, (row, w) ∈ delta /\ matches pred row = true.
Proof.
  intros H. destruct (eval_standalone pred delta) as [|[row w] l] eqn:E; [done|].
  assert (Hin : (row, w) ∈ eval_standalone pred delta) by (rewrite E; left).
  apply list_elem_of_filter in Hin as [? ?]. eauto.
Qed.

(** No shape that matches is skipped by the index. *)
Lemma candidates_complete ix delta sid pred :
  index_ok ix -> ix_placed ix !! sid = Some (access_leaf pred) ->
  (exists row w, (row, w) ∈ delta /\ matches pred row = true) -> sid ∈ candidates ix delta.
Proof.
  intros Hok Hp (row & w & Hin & Hm). unfold candidates.
  rewrite elem_of_list_to_set, elem_of_app, elem_of_concat_map.
  assert (Hfiled : filed ix sid (access_leaf pred)).
  { apply (iok_filed _ Hok). by eexists. }
  destruct (access_leaf pred) as [l|] eqn:El; [right|by left].
  exists (row, w). split; [done|]. simpl.
  apply row_candidates_spec; [apply Hok..|].
  assert (Ha : leaf_admits l row) by by eapply access_leaf_admits.
  destruct l as [c v|c v s|c v s]; simpl in Ha; destruct Ha as [Hnull Ha];
    pose proof (cell_present _ _ Hnull) as Hc.
  - left. exists c, (cell row c). split; [done|]. simpl in *.
    unfold eq_bucket in *. apply value_eqb_vkey in Ha. by rewrite Ha.
  - right; left. by exists c, (cell row c), v, s.
  - right; right. by exists c, (cell row c), v, s.
Qed.
End visits.

Section tiers.
Context {FT : FloatText} {FE : FaultEnv} (ts : TableSchema) (c : Change).
Context (shapes : gmap str StandaloneShape) (index : StandaloneIndex) (families : Families)
        (aggs : gmap str AggShape) (agg_index : StandaloneIndex)
        (Hok : exec_ok shapes index families aggs agg_index).

(** The standalone tier, whichever shapes are visited. *)
Definition standalone_out (q : str) : list Envelope :=
  concat (map (λ ns : str * StandaloneShape, on_path (ss_stream_path ns.2)
                (shape_out ts c (ss_pred ns.2) (ss_gate ns.2) (ss_out_cols ns.2)) q) (entries shapes)).

Lemma standalone_out_shape sid s :
  shapes !! sid = Some s ->
  standalone_out (ss_stream_path s) = shape_out ts c (ss_pred s) (ss_gate s) (ss_out_cols s).
Proof.
  intros Hs. unfold standalone_out. rewrite (concat_only _ _ (sid, s)).
  - simpl. unfold on_path. by rewrite bool_decide_eq_true_2.
  - apply NoDup_map_to_list.
  - by apply elem_of_map_to_list.
  - intros [j t] Hj%elem_of_map_to_list Hne. simpl. unfold on_path. case_bool_decide as Hp; [|done].
    exfalso. apply Hne. assert (j = sid) as -> by by eapply (eo_ss _ _ _ _ _ Hok). congruence.
Qed.

Lemma standalone_out_none q :
  (forall sid s, shapes !! sid = Some s -> ss_stream_path s <> q) -> standalone_out q = [].
Proof.
  intros H. apply concat_none. intros [j t] Hj%elem_of_map_to_list. simpl. unfold on_path.
  case_bool_decide as Hp; [|done]. exfalso. by eapply H.
Qed.

Lemma shape_out_empty pred gate cols :
  eval_standalone pred (ch_delta c) = [] -> shape_out ts c pred gate cols = [].
Proof. intros H. unfold shape_out. rewrite H. by destruct (gate_skips c gate). Qed.

Lemma visited_stages traced :
  stages (λ p, foldl (fan_standalone ts c) p (visited_shapes traced shapes index (ch_delta c)))
         standalone_out.
Proof.
  intros p q. unfold visited_shapes. destruct traced.
  - rewrite foldl_fmap'. revert p q. apply stages_foldl. intros [sid s] _. apply fan_standalone_stages.
  - rewrite foldl_omap.
    set (O := λ sid q, match shapes !! sid with
      | Some s => on_path (ss_stream_path s) (shape_out ts c (ss_pred s) (ss_gate s) (ss_out_cols s)) q
      | None => [] end).
    rewrite (stages_foldl (λ p sid, match shapes !! sid with Some s => fan_standalone ts c p s | None => p end) O).
    2: { intros sid _. unfold O. destruct (shapes !! sid) as [s|]; [apply fan_standalone_stages|].
         apply stages_id. }
    f_equal. set (C := candidates index (ch_delta c)).
    destruct (decide (Exists (λ ns, ss_stream_path ns.2 = q) (entries shapes))) as [H|H].
    + apply Exists_exists in H as ([sid s] & Hs%elem_of_map_to_list & Hp). simpl in Hp. subst q.
      rewrite (standalone_out_shape sid s) by done.
      assert (Ho : forall j, j <> sid -> O j (ss_stream_path s) = []).
      { intros j Hj. unfold O. destruct (shapes !! j) as [t|] eqn:Et; [|done]. unfold on_path.
        case_bool_decide as Hp; [|done]. exfalso. apply Hj. by eapply (eo_ss _ _ _ _ _ Hok). }
      destruct (decide (sid ∈ C)) as [HC|HC].
      * rewrite (concat_only (λ j, O j (ss_stream_path s)) _ sid).
        -- unfold O. rewrite Hs. unfold on_path. by rewrite bool_decide_eq_true_2.
        -- apply NoDup_elements.
        -- by apply elem_of_elements.
        -- intros j _ Hj. by apply Ho.
      * rewrite concat_none; [symmetry|].
        { apply shape_out_empty. destruct (eval_standalone (ss_pred s) (ch_delta c)) as [|rw l] eqn:E; [done|].
          exfalso. apply HC. apply (candidates_complete _ _ _ (ss_pred s)); [apply Hok| |].
          - rewrite (eo_placed _ _ _ _ _ Hok), lookup_fmap, Hs. done.
          - apply eval_standalone_nonempty. by rewrite E. }
        intros j Hj%elem_of_elements. apply Ho. by intros ->.
    + rewrite standalone_out_none.
      2: { intros sid s Hs Hp. apply H, Exists_exists. exists (sid, s).
           by rewrite elem_of_map_to_list. }
      apply concat_none. intros sid _. unfold O. destruct (shapes !! sid) as [s|] eqn:Hs; [|done].
      unfold on_path. case_bool_decide as Hp; [|done]. exfalso. apply H, Exists_exists.
      exists (sid, s). by rewrite elem_of_map_to_list.
Qed.

(** The routed tier. *)
Definition routed_tier_out (q : str) : list Envelope :=
  concat (map (λ cr : list nat * KeyRouter, router_out ts c cr.2 q) (entries families)).

Lemma routed_stages :
  stages (λ p, foldl (fan_router ts c) p (entries families).*2) routed_tier_out.
Proof.
  eapply stages_ext; [intros p; symmetry; apply foldl_fmap'|done|].
  apply stages_foldl. intros [cols r] _. apply fan_router_stages.
Qed.

Lemma routed_tier_none q :
  (forall cols k rs, routed_at families cols k rs -> rs_stream_path rs <> q) -> routed_tier_out q = [].
Proof.
  intros H. apply concat_none. intros [cols r] Hr%elem_of_map_to_list. simpl.
  destruct (eo_router _ _ _ _ _ Hok cols r Hr) as [_ Hrok].
  apply router_out_none; [done|]. intros k l rs Hk Hrs. apply (H cols k). by exists r, l.
Qed.

Lemma routed_tier_shape pred cs rs :
  equality_template pred = Some cs -> routed_at families cs.*1 (rkey cs.*2) rs ->
  routed_tier_out (rs_stream_path rs) = shape_out ts c pred (rs_gate rs) (rs_out_cols rs).
Proof.
  intros He Hat. pose proof Hat as (r & l & Hr & Hk & Hrs).
  destruct (eo_router _ _ _ _ _ Hok _ r Hr) as [Hcols Hrok].
  unfold routed_tier_out. rewrite (concat_only _ _ (cs.*1, r)).
  - simpl. rewrite (router_out_shape ts c r (rkey cs.*2) l rs); try done.
    + by rewrite (routed_rows_eval c r pred cs).
    + intros k' l' rs' Hk' Hrs' Hp.
      destruct (eo_rr _ _ _ _ _ Hok cs.*1 cs.*1 k' (rkey cs.*2) rs' rs) as [_ ?]; try done.
      by exists r, l'.
  - apply NoDup_map_to_list.
  - by apply elem_of_map_to_list.
  - intros [cols' r'] Hr'%elem_of_map_to_list Hne. simpl.
    destruct (eo_router _ _ _ _ _ Hok cols' r' Hr') as [_ Hrok'].
    apply router_out_none; [done|]. intros k' l' rs' Hk' Hrs' Hp.
    destruct (eo_rr _ _ _ _ _ Hok cols' cs.*1 k' (rkey cs.*2) rs' rs) as [-> _]; try done.
    { by exists r', l'. }
    congruence.
Qed.
End tiers.

Section agg_tier.
Context {FT : FloatText} {FE : FaultEnv} (ts : TableSchema) (c : Change).

(** One aggregate and a change: the new fold, and the value envelope if the value moved. *)
Definition agg_change (a : AggShape) : AggShape * option Envelope :=
  if gate_skips c (ag_gate a) then (a, None)
  else
    let a1 := (agg_apply a (ch_delta c)).1 in
    if existsb (λ rw, matches (ag_pred a) rw.1) (ch_delta c) then
      if match ag_last a1 with Some last => json_eqb last (agg_value a1) | None => false end
      then (a1, None)
      else let a2 := mkAgg (ag_pred a1) (ag_func a1) (ag_col a1) (ag_stream_path a1) (ag_gate a1)
                           (ag_terms a1) (Some (agg_value a1)) in
           (a2, Some (agg_shape_envelope a2 ts (ch_txid c) (ch_lsn c)))
    else (a1, None).

Lemma fan_aggregate_change p a :
  fan_aggregate ts c p a =
  ((agg_change a).1,
   match (agg_change a).2 with Some e => stage (ag_stream_path a) [e] p | None => p end).
Proof.
  unfold fan_aggregate, agg_change. destruct (gate_skips c (ag_gate a)); [done|].
  unfold agg_apply. cbn [fst snd]. destruct (existsb _ _); [|done]. simpl.
  by destruct (match ag_last a with Some _ => _ | None => false end).
Qed.

(** An aggregate no matching row touches is left as it is. *)
Lemma agg_change_untouched a :
  existsb (λ rw, matches (ag_pred a) rw.1) (ch_delta c) = false -> agg_change a = (a, None).
Proof.
  intros H. unfold agg_change. destruct (gate_skips c (ag_gate a)); [done|]. rewrite H.
  unfold agg_apply. simpl. f_equal.
  assert (Hid : forall d t, existsb (λ rw : Row * Z, matches (ag_pred a) rw.1) d = false ->
    apply_terms (ag_pred a) (ag_func a) (ag_col a) d t = t).
  { induction d as [|rw d IH]; intros t Hd; simpl in *; [done|].
    apply orb_false_iff in Hd as [-> Hd]. by apply IH. }
  rewrite Hid by done. by destruct a.
Qed.

Definition agg_out (aggs : gmap str AggShape) (q : str) : list Envelope :=
  concat (map (λ sa : str * AggShape,
                 on_path (ag_stream_path sa.2) (option_list (agg_change sa.2).2) q) (entries aggs)).

Lemma fan_aggregates_spec traced index aggs p :
  index_ok index -> ix_placed index = access_leaf ∘ ag_pred <$> aggs ->
  (forall sid, (fan_aggregates ts traced c index aggs p).1 !! sid = fst ∘ agg_change <$> aggs !! sid) /\
  (forall q, emitted (fan_aggregates ts traced c index aggs p).2 q = emitted p q ++ agg_out aggs q).
Proof.
  intros Hix Hpl. unfold fan_aggregates, agg_out.
  set (step := λ (mp : gmap str AggShape * Staged) (sa : str * AggShape), _).
  assert (Hstep : forall m p sid a, aggs !! sid = Some a -> m !! sid = Some a ->
    (forall s, (step (m, p) (sid, a)).1 !! s = if decide (s = sid) then Some (agg_change a).1 else m !! s) /\
    (forall q, emitted (step (m, p) (sid, a)).2 q =
               emitted p q ++ on_path (ag_stream_path a) (option_list (agg_change a).2) q)).
  { intros m p0 sid a Ha Hm. unfold step. cbn [fst snd].
    destruct (traced || bool_decide (sid ∈ candidates index (ch_delta c))) eqn:Ev.
    - rewrite fan_aggregate_change. cbv beta iota. cbn [fst snd]. split.
      + intros s. destruct (decide (s = sid)) as [->|];
          [by rewrite lookup_insert_eq|by rewrite lookup_insert_ne].
      + intros q. destruct (agg_change a).2; simpl; [apply stages_stage|].
        by rewrite on_path_nil, app_nil_r.
    - apply orb_false_iff in Ev as [_ Ev%bool_decide_eq_false].
      rewrite agg_change_untouched; simpl.
      + split; [intros s; destruct (decide (s = sid)) as [->|]; done|]. intros q.
        by rewrite on_path_nil, app_nil_r.
      + apply not_true_is_false. intros H. apply Ev. apply existsb_exists in H as ([row w] & Hin & Hm').
        apply (candidates_complete _ _ _ (ag_pred a)); [done| |].
        * by rewrite Hpl, lookup_fmap, Ha.
        * exists row, w. split; [by apply list_elem_of_In|done]. }
  clearbody step.
  assert (H : forall l m p, NoDup l.*1 -> (forall sid a, (sid, a) ∈ l -> aggs !! sid = Some a /\ m !! sid = Some a) ->
    (forall sid, (foldl step (m, p) l).1 !! sid =
       match list_find (λ sa, sa.1 = sid) l with Some (_, sa) => Some (agg_change sa.2).1 | None => m !! sid end) /\
    (forall q, emitted (foldl step (m, p) l).2 q =
       emitted p q ++ concat (map (λ sa, on_path (ag_stream_path sa.2) (option_list (agg_change sa.2).2) q) l))).
  { induction l as [|[sid a] l IH]; intros m p0 Hnd Hl; simpl.
    { split; [done|]. intros q. by rewrite app_nil_r. }
    csimpl in Hnd. apply NoDup_cons in Hnd as [Hni Hnd].
    destruct (Hl sid a) as [Ha Hm]; [left|]. destruct (Hstep m p0 sid a Ha Hm) as [H1 H2].
    destruct (step (m, p0) (sid, a)) as [m1 p1]. simpl in H1, H2.
    destruct (IH m1 p1 Hnd) as [I1 I2].
    { intros s b Hb. destruct (Hl s b) as [? ?]; [by right|]. split; [done|].
      rewrite H1, decide_False; [done|]. intros ->. apply Hni.
      by apply (list_elem_of_fmap_2 fst) in Hb. }
    split.
    - intros s. rewrite I1. case_decide as E.
      + subst s. assert (list_find (λ sa : str * AggShape, sa.1 = sid) l = None) as ->.
        { apply list_find_None, Forall_forall. intros sa Hin Hs. apply Hni. rewrite <- Hs.
          by apply list_elem_of_fmap_2. }
        simpl. by rewrite H1, decide_True.
      + destruct (list_find _ l) as [[i sa]|]; simpl; [done|]. rewrite H1, decide_False; [done|congruence].
    - intros q. by rewrite I2, H2, (assoc_L (++)). }
  destruct (H (entries aggs) aggs p) as [H1 H2].
  - apply NoDup_fst_map_to_list.
  - intros sid a Hin%elem_of_map_to_list. done.
  - split; [|exact H2]. intros sid. rewrite H1.
    destruct (list_find _ _) as [[i [s a]]|] eqn:E.
    + apply list_find_Some in E as (Hi & Hs & _). simpl in Hs. subst s.
      apply list_elem_of_lookup_2, elem_of_map_to_list in Hi. by rewrite Hi.
    + apply list_find_None in E. rewrite Forall_forall in E.
      destruct (aggs !! sid) as [a|] eqn:Ha; [|done]. exfalso.
      apply (E (sid, a)); [by apply elem_of_map_to_list|done].
Qed.
End agg_tier.

(* ------------------------------------------------------------------ *)
(** ** One change through the executor *)

Section change.
Context {FT : FloatText} {FE : FaultEnv} {R W : Type} {SR : SubqRegistry R W}.

(** A live row shape, standalone or routed. *)
Inductive live_shape (shapes : gmap str StandaloneShape) (families : Families)
  : CompiledPredicate -> SnapshotGate -> option (list nat) -> str -> Prop :=
  | live_standalone sid s : shapes !! sid = Some s ->
      live_shape shapes families (ss_pred s) (ss_gate s) (ss_out_cols s) (ss_stream_path s)
  | live_routed pred cs rs : equality_template pred = Some cs ->
      routed_at families cs.*1 (rkey cs.*2) rs ->
      live_shape shapes families pred (rs_gate rs) (rs_out_cols rs) (rs_stream_path rs).

Lemma fan_plain_shape ts traced key c shapes index families aggs agg_index pred gate cols path p :
  exec_ok shapes index families aggs agg_index -> live_shape shapes families pred gate cols path ->
  emitted (fan_plain ts traced false key c shapes index families p) path =
  emitted p path ++ shape_out ts c pred gate cols.
Proof.
  intros Hok Hlive. unfold fan_plain.
  rewrite (routed_stages ts c families).
  rewrite (visited_stages ts c shapes index families aggs agg_index Hok traced). rewrite <- (assoc_L (++)).
  f_equal. destruct Hlive as [sid s Hs|pred cs rs He Hat].
  - rewrite (standalone_out_shape ts c shapes index families aggs agg_index Hok sid) by done.
    rewrite (routed_tier_none ts c shapes index families aggs agg_index Hok), app_nil_r; [done|].
    intros cols k rs Hat Hp. by eapply (eo_sr _ _ _ _ _ Hok).
  - rewrite standalone_out_none; [simpl; by eapply routed_tier_shape|].
    intros sid s Hs Hp. by eapply (eo_sr _ _ _ _ _ Hok).
Qed.

Lemma fan_plain_other ts traced key c shapes index families aggs agg_index q p :
  exec_ok shapes index families aggs agg_index ->
  (forall sid s, shapes !! sid = Some s -> ss_stream_path s <> q) ->
  (forall cols k rs, routed_at families cols k rs -> rs_stream_path rs <> q) ->
  emitted (fan_plain ts traced false key c shapes index families p) q = emitted p q.
Proof.
  intros Hok H1 H2. unfold fan_plain. rewrite (routed_stages ts c families).
  rewrite (visited_stages ts c shapes index families aggs agg_index Hok traced).
  rewrite standalone_out_none by done. rewrite app_nil_r.
  by rewrite (routed_tier_none ts c shapes index families aggs agg_index Hok), app_nil_r.
Qed.

Lemma agg_out_shape ts c shapes index families aggs agg_index sid a :
  exec_ok shapes index families aggs agg_index -> aggs !! sid = Some a ->
  agg_out ts c aggs (ag_stream_path a) = option_list (agg_change ts c a).2.
Proof.
  intros Hok Ha. unfold agg_out. rewrite (concat_only _ _ (sid, a)).
  - simpl. unfold on_path. by rewrite bool_decide_eq_true_2.
  - apply NoDup_map_to_list.
  - by apply elem_of_map_to_list.
  - intros [j b] Hj%elem_of_map_to_list Hne. simpl. unfold on_path. case_bool_decide as Hp; [|done].
    exfalso. apply Hne. assert (j = sid) as -> by by eapply (eo_aa _ _ _ _ _ Hok). congruence.
Qed.

Lemma agg_out_none ts c aggs q :
  (forall sid a, aggs !! sid = Some a -> ag_stream_path a <> q) -> agg_out ts c aggs q = [].
Proof.
  intros H. apply concat_none. intros [j b] Hj%elem_of_map_to_list. simpl. unfold on_path.
  case_bool_decide as Hp; [|done]. exfalso. by eapply H.
Qed.

(** What [process_envelope] stages and folds, for a change that carries its before-image or for a
    Postgres-mode engine: the reference output of every live shape, appended to what was staged;
    the reference fold of every aggregate.  The trace has no part in it. *)
Lemma process_envelope_spec ts traced library_mode shapes index families aggs agg_index reg env
    pending delta txid lsn pr :
  exec_ok shapes index families aggs agg_index ->
  apply_envelope ts env = Ok (delta, txid, lsn) ->
  library_mode && needs_absolute_emission env = false ->
  process_envelope ts traced library_mode shapes index families aggs agg_index reg env pending = Ok pr ->
  let c := change_of delta txid lsn in
  (forall pred gate cols path, live_shape shapes families pred gate cols path ->
     emitted (pr_staged pr) path = emitted pending path ++ shape_out ts c pred gate cols) /\
  (forall sid a, aggs !! sid = Some a ->
     pr_aggregates pr !! sid = Some (agg_change ts c a).1 /\
     emitted (pr_staged pr) (ag_stream_path a) =
       emitted pending (ag_stream_path a) ++ option_list (agg_change ts c a).2).
Proof.
  intros Hok Hap Habs Hpr c. unfold process_envelope in Hpr. rewrite Hap, Habs in Hpr.
  destruct (decide (delta = [])) as [->|Hne].
  { rewrite bool_decide_eq_true_2 in Hpr by done. injection Hpr as <-. simpl. split.
    - intros pred gate cols path _. unfold shape_out. simpl.
      by destruct (gate_skips _ _); rewrite app_nil_r.
    - intros sid a Ha. rewrite agg_change_untouched by done. simpl. by rewrite app_nil_r. }
  rewrite (bool_decide_eq_false_2 (delta = [])) in Hpr by done.
  cbn [andb] in Hpr. cbv zeta in Hpr. fold c in Hpr. cbn [ch_delta c change_of] in Hpr.
  destruct (if reg_touches reg (ts_table ts) then _ else _) as [[reg' work]|]; [|done].
  destruct (fan_aggregates _ _ _ _ _ _) as [aggs' staged] eqn:Ef. injection Hpr as <-.
  cbn [pr_staged pr_aggregates].
  destruct (fan_aggregates_spec ts c traced agg_index aggs
    (fan_plain ts traced false (e_key env) c shapes index families pending)) as [H1 H2];
    [apply Hok..|]. rewrite Ef in H1, H2. cbn [fst snd] in H1, H2. split.
  - intros pred gate cols path Hlive. rewrite H2.
    rewrite (fan_plain_shape _ _ _ _ _ _ _ _ _ _ _ _ _ _ Hok Hlive).
    rewrite agg_out_none, app_nil_r; [done|]. intros sid a Ha Hp.
    destruct Hlive as [i s Hs|pred cs rs He Hat].
    + by eapply (eo_sa _ _ _ _ _ Hok).
    + by eapply (eo_ra _ _ _ _ _ Hok).
  - intros sid a Ha. split; [by rewrite H1, Ha|]. rewrite H2.
    rewrite (fan_plain_other _ _ _ _ _ _ _ _ _ _ _ Hok).
    + by rewrite (agg_out_shape _ _ _ _ _ _ _ _ _ Hok Ha).
    + intros i s Hs Hp. by eapply (eo_sa _ _ _ _ _ Hok).
    + intros cols k rs Hat Hp. by eapply (eo_ra _ _ _ _ _ Hok).
Qed.
End change.

Section refinement.
Context {FT : FloatText} {FE : FaultEnv} {R W : Type} {SR : SubqRegistry R W}.

(** The registry answers for this table. *)
Definition registry_answers (reg : R) (ts : TableSchema) : Prop :=
  reg_touches reg (ts_table ts) = false \/
  forall d l x t, exists r, reg_on_table_delta reg ts d l x t = Ok r.

Lemma process_envelope_returns ts traced library_mode shapes index families aggs agg_index reg env
    pending delta txid lsn :
  registry_answers reg ts -> apply_envelope ts env = Ok (delta, txid, lsn) ->
  exists pr, process_envelope ts traced library_mode shapes index families aggs agg_index reg env
               pending = Ok pr.
Proof.
  intros Hreg Hap. unfold process_envelope. rewrite Hap.
  destruct (bool_decide _ && _); [by eexists|]. cbv zeta. destruct (bool_decide _); [by eexists|].
  assert (Hr : exists r, (if reg_touches reg (ts_table ts)
    then reg_on_table_delta reg ts delta (ch_lsn_u64 (change_of delta txid lsn))
           (ch_xid (change_of delta txid lsn)) txid else Ok (reg, [])) = Ok r).
  { destruct Hreg as [->|Hr]; [by eexists|]. destruct (reg_touches _ _); [apply Hr|by eexists]. }
  destruct Hr as [[reg' work] ->]. destruct (fan_aggregates _ _ _ _ _ _). by eexists.
Qed.

(** The shape's backfill already reflects the change. *)
Definition already_seeded (env : Envelope) (gate : SnapshotGate) : bool :=
  gate_skips (change_of [] (h_txid (e_headers env)) (h_lsn (e_headers env))) gate.

(** C1: the fan-out refines the shapes' views. For a change from table [T] to [T'] (in Postgres mode,
    or in library mode with its before-image), [process_envelope] succeeds and appends to the stream
    of each live row shape, standalone or routed by its key, exactly an output that carries its
    subscriber from the shape's view of [T] to its view of [T'], or nothing when the shape's gate
    says its snapshot holds the change; the index, the routers and the trace make no difference. *)
Theorem row_shape_refines ts traced library_mode shapes index families aggs agg_index reg env
    pending T T' :
  exec_ok shapes index families aggs agg_index -> registry_answers reg ts ->
  drop_deletes = false -> library_mode && needs_absolute_emission env = false ->
  table_ok ts T -> change ts env T T' ->
  exists pr,
    process_envelope ts traced library_mode shapes index families aggs agg_index reg env pending = Ok pr /\
    table_ok ts T' /\
    forall pred gate cols path, live_shape shapes families pred gate cols path ->
      exists out, emitted (pr_staged pr) path = emitted pending path ++ out /\
        (if already_seeded env gate then out = []
         else materialize (filtered ts pred cols T) out = filtered ts pred cols T').
Proof.
  intros Hok Hreg Hdd Habs HT Hch.
  destruct (apply_envelope_delta ts env T T' HT Hch) as (delta & Hap & Hd).
  destruct (process_envelope_returns ts traced library_mode shapes index families aggs agg_index reg
              env pending _ _ _ Hreg Hap) as [pr Hpr].
  exists pr. split_and!; [done|by eapply delta_table_ok|]. intros pred gate cols path Hlive.
  destruct (process_envelope_spec _ _ _ _ _ _ _ _ _ _ _ _ _ _ _ Hok Hap Habs Hpr) as [Hs _].
  specialize (Hs _ _ _ _ Hlive). eexists. split; [exact Hs|]. unfold shape_out.
  change (gate_skips _ gate) with (already_seeded env gate).
  destruct (already_seeded env gate); [done|]. by apply row_shape_step.
Qed.

End refinement.

(* ------------------------------------------------------------------ *)
(** ** Changes without a before-image *)

Section absolute.
Context {FT : FloatText} {FE : FaultEnv} {R W : Type} {SR : SubqRegistry R W}.

Definition held_row (pred : CompiledPredicate) (c : Change) : option Row :=
  r ← row_now (ch_delta c); if matches pred r then Some r else None.

Definition absolute_out (ts : TableSchema) (c : Change) (key : str) (held : option Row)
    (gate : SnapshotGate) (cols : option (list nat)) : list Envelope :=
  if gate_skips c gate then []
  else option_list (absolute_envelope ts key held (ch_txid c) (ch_lsn c) cols).

Lemma stage_absolute_stages ts c key path cols held gate :
  stages (λ p, if gate_skips c gate then p else stage_absolute ts c key path cols held p)
         (on_path path (absolute_out ts c key held gate cols)).
Proof.
  unfold absolute_out, stage_absolute. destruct (gate_skips c gate).
  { eapply stages_ext; [done| |apply stages_id]. intros q. by rewrite on_path_nil. }
  destruct (absolute_envelope _ _ _ _ _ _) as [e|]; simpl; [apply stages_stage|].
  eapply stages_ext; [done| |apply stages_id]. intros q. by rewrite on_path_nil.
Qed.

Definition router_held (r : KeyRouter) (c : Change) (k : Row) : option Row :=
  if bool_decide ((λ row, rkey (key_of row (kr_key_cols r))) <$> row_now (ch_delta c) = Some k)
  then row_now (ch_delta c) else None.

Definition absolute_router_out (ts : TableSchema) (c : Change) (key : str) (r : KeyRouter) (q : str)
  : list Envelope :=
  concat (map (λ kr : Row * list RoutedShape,
    concat (map (λ rs, on_path (rs_stream_path rs)
              (absolute_out ts c key (router_held r c kr.1) (rs_gate rs) (rs_out_cols rs)) q) kr.2))
    (entries (kr_index r))).

Lemma absolute_router_stages ts c key r :
  stages (λ p, absolute_router ts c key p r) (absolute_router_out ts c key r).
Proof.
  unfold absolute_router, absolute_router_out. apply stages_foldl. intros [k l] _. simpl.
  apply stages_foldl. intros rs _. apply stage_absolute_stages.
Qed.

(** A routed shape holds the row exactly when its predicate does. *)
Lemma router_held_pred r c pred cs :
  equality_template pred = Some cs -> kr_key_cols r = cs.*1 ->
  router_held r c (rkey cs.*2) = held_row pred c.
Proof.
  intros He Hc. unfold router_held, held_row. destruct (row_now (ch_delta c)) as [row|]; simpl; [|done].
  rewrite Hc. destruct (equality_template_spec pred cs He) as (_ & _ & _ & Hm).
  specialize (Hm row PanicEval). rewrite <- key_match_eqs in Hm.
  destruct (decide (rkey (key_of row cs.*1) = rkey cs.*2)) as [E|E].
  - rewrite bool_decide_eq_true_2 by congruence. unfold matches. by rewrite (proj2 Hm E).
  - rewrite bool_decide_eq_false_2 by congruence.
    destruct (matches pred row) eqn:Em; [|done]. by apply Hm in Em.
Qed.

Lemma absolute_plain_shape ts traced key c shapes index families aggs agg_index pred gate cols path p :
  exec_ok shapes index families aggs agg_index -> live_shape shapes families pred gate cols path ->
  emitted (fan_plain ts traced true key c shapes index families p) path =
  emitted p path ++ absolute_out ts c key (held_row pred c) gate cols.
Proof.
  intros Hok Hlive. unfold fan_plain. rewrite !foldl_fmap'.
  set (OS := λ ns : str * StandaloneShape, on_path (ss_stream_path ns.2)
    (absolute_out ts c key (held_row (ss_pred ns.2) c) (ss_gate ns.2) (ss_out_cols ns.2))).
  rewrite (stages_foldl _ (λ cr : list nat * KeyRouter, absolute_router_out ts c key cr.2)).
  2: { intros [k r] _. apply absolute_router_stages. }
  rewrite (stages_foldl _ OS).
  2: { intros [sid s] _. apply stage_absolute_stages. }
  rewrite <- (assoc_L (++)). f_equal. destruct Hlive as [sid s Hs|pred cs rs He Hat].
  - rewrite (concat_only (λ a, OS a (ss_stream_path s)) _ (sid, s)).
    + rewrite concat_none, app_nil_r.
      { unfold OS, on_path. simpl. by rewrite bool_decide_eq_true_2. }
      intros [k r] Hr%elem_of_map_to_list. apply concat_none. intros [k' l] Hl%elem_of_map_to_list.
      apply concat_none. intros rs Hrs. unfold on_path. simpl. case_bool_decide as Hp; [|done]. exfalso.
      eapply (eo_sr _ _ _ _ _ Hok sid s k k' rs); [done|by exists r, l|done].
    + apply NoDup_map_to_list.
    + by apply elem_of_map_to_list.
    + intros [j t] Hj%elem_of_map_to_list Hne. unfold OS, on_path. simpl.
      case_bool_decide as Hp; [|done]. exfalso. apply Hne.
      assert (j = sid) as -> by by eapply (eo_ss _ _ _ _ _ Hok). congruence.
  - rewrite concat_none; [simpl|].
    2: { intros [j t] Hj%elem_of_map_to_list. unfold OS, on_path. simpl.
         case_bool_decide as Hp; [|done]. exfalso. by eapply (eo_sr _ _ _ _ _ Hok). }
    pose proof Hat as (r & l & Hr & Hk & Hrs).
    destruct (eo_router _ _ _ _ _ Hok _ r Hr) as [Hcols Hrok].
    rewrite (concat_only _ _ (cs.*1, r)); [|apply NoDup_map_to_list|by apply elem_of_map_to_list|].
    2: { intros [cols' r'] Hr'%elem_of_map_to_list Hne. apply concat_none.
         intros [k' l'] Hl'%elem_of_map_to_list. apply concat_none. intros rs' Hrs'. unfold on_path. simpl.
         case_bool_decide as Hp; [|done]. exfalso. simpl in *.
         destruct (eo_rr _ _ _ _ _ Hok cols' cs.*1 k' (rkey cs.*2) rs' rs) as [-> _]; try done.
         { by exists r', l'. } congruence. }
    unfold absolute_router_out. simpl.
    assert (Hsame : forall k' l' rs', kr_index r !! k' = Some l' -> rs' ∈ l' ->
      rs_stream_path rs' = rs_stream_path rs -> k' = rkey cs.*2 /\ rs' = rs).
    { intros k' l' rs' Hk' Hrs' Hp.
      destruct (eo_rr _ _ _ _ _ Hok cs.*1 cs.*1 k' (rkey cs.*2) rs' rs) as [_ Hn]; try done.
      { by exists r, l'. } by eapply (proj2 Hrok). }
    rewrite (concat_only _ _ (rkey cs.*2, l)); [|apply NoDup_map_to_list|by apply elem_of_map_to_list|].
    2: { intros [k' l'] Hl'%elem_of_map_to_list Hne. apply concat_none. intros rs' Hrs'. unfold on_path.
         simpl in *. case_bool_decide as Hp; [|done]. exfalso.
         destruct (Hsame k' l' rs') as [-> _]; try done. congruence. }
    simpl. rewrite (concat_only _ _ rs); [|eapply NoDup_fmap_1; by eapply (proj1 Hrok)|done|].
    2: { intros rs' Hrs' Hne. unfold on_path. case_bool_decide as Hp; [|done]. exfalso.
         by destruct (Hsame _ _ rs' Hk Hrs' Hp). }
    unfold on_path. rewrite bool_decide_eq_true_2 by done. by rewrite (router_held_pred r c pred cs).
Qed.

(** A library-mode change with no before-image: the key's row after it. *)
Inductive blind_change (ts : TableSchema) (env : Envelope) (T : gmap str Row) : gmap str Row -> Prop :=
  | bc_write v new : h_operation (e_headers env) ∈ [$"update"; $"upsert"] -> e_old env = None ->
      e_value env = Some v -> to_row ts v = Ok new -> key_string ts new = Ok (e_key env) ->
      blind_change ts env T (<[e_key env := new]> T)
  | bc_delete : h_operation (e_headers env) = $"delete" -> e_old env = None ->
      blind_change ts env T (delete (e_key env) T).

(** library mode without a before-image: for an update, upsert or delete that names only its key,
    what each live row shape's stream gets makes any view that is right on the other keys the
    shape's view of the new table. *)
Theorem absolute_refines ts traced shapes index families aggs agg_index reg env pending T T' :
  exec_ok shapes index families aggs agg_index -> registry_answers reg ts ->
  drop_deletes = false -> blind_change ts env T T' ->
  exists pr,
    process_envelope ts traced true shapes index families aggs agg_index reg env pending = Ok pr /\
    forall pred gate cols path, live_shape shapes families pred gate cols path ->
      exists out, emitted (pr_staged pr) path = emitted pending path ++ out /\
        (if already_seeded env gate then out = []
         else forall m, (forall k, k <> e_key env -> m !! k = filtered ts pred cols T !! k) ->
              materialize m out = filtered ts pred cols T').
Proof.
  intros Hok Hreg Hdd Hch.
  assert (Habs : needs_absolute_emission env = true).
  { unfold needs_absolute_emission. destruct Hch as [v new Hop Ho _ _ _|Hop Ho]; rewrite Ho; simpl.
    - apply bool_decide_eq_true. set_solver.
    - rewrite Hop. reflexivity. }
  assert (Hap : exists delta, apply_envelope ts env = Ok (delta, h_txid (e_headers env), h_lsn (e_headers env)) /\
    forall k, T' !! k = if decide (k = e_key env) then row_now delta else T !! k).
  { unfold apply_envelope. destruct Hch as [v new Hop Ho Hv Hn Hk|Hop Ho].
    - assert (Hw : is_write_op (h_operation (e_headers env)) = true).
      { unfold is_write_op. apply bool_decide_eq_true. set_solver. }
      rewrite Hw, Hv, Ho. simpl. rewrite Hn. simpl. eexists. split; [done|]. intros k.
      case_decide; subst; [by rewrite lookup_insert_eq|by rewrite lookup_insert_ne].
    - rewrite Hop, Ho. simpl. eexists. split; [done|]. intros k.
      case_decide; subst; [by rewrite lookup_delete_eq|by rewrite lookup_delete_ne]. }
  destruct Hap as (delta & Hap & HT').
  destruct (process_envelope_returns ts traced true shapes index families aggs agg_index reg
              env pending _ _ _ Hreg Hap) as [pr Hpr].
  exists pr. split; [done|]. intros pred gate cols path Hlive.
  set (c := change_of delta (h_txid (e_headers env)) (h_lsn (e_headers env))).
  exists (absolute_out ts c (e_key env) (held_row pred c) gate cols). split.
  - unfold process_envelope in Hpr. rewrite Hap, Habs in Hpr. cbn [andb negb] in Hpr.
    rewrite andb_false_r in Hpr. cbv zeta in Hpr. fold c in Hpr.
    assert (Hfan := absolute_plain_shape ts traced (e_key env) c shapes index families aggs agg_index
               pred gate cols path pending Hok Hlive).
    destruct (bool_decide (delta = [])); [by injection Hpr as <-|].
    destruct (if reg_touches reg (ts_table ts) then _ else _) as [[reg' work]|]; [|done].
    destruct (fan_aggregates _ _ _ _ _ _) as [aggs' staged] eqn:Ef. injection Hpr as <-.
    cbn [pr_staged]. destruct (fan_aggregates_spec ts c traced agg_index aggs
      (fan_plain ts traced true (e_key env) c shapes index families pending)) as [_ H2];
      [apply Hok..|]. rewrite Ef in H2. cbn [snd] in H2. rewrite H2, Hfan, agg_out_none, app_nil_r; [done|].
    intros sid a Ha Hp. destruct Hlive as [i s Hs|pred cs rs He Hat].
    + by eapply (eo_sa _ _ _ _ _ Hok).
    + by eapply (eo_ra _ _ _ _ _ Hok).
  - unfold absolute_out. change (gate_skips c gate) with (already_seeded env gate).
    destruct (already_seeded env gate); [done|]. intros m Hm. apply map_eq. intros k.
    rewrite filtered_lookup, HT'. change (ch_delta c) with delta.
    assert (Hh : held_row pred c = (r ← row_now delta; if matches pred r then Some r else None)) by done.
    rewrite Hh. unfold absolute_envelope.
    destruct (r ← row_now delta; if matches pred r then Some r else None) as [r|] eqn:Eh.
    + simpl. unfold apply_out. simpl. destruct (row_now delta) as [r'|]; [|done]. simpl in Eh.
      destruct (matches pred r') eqn:Em; [|done]. injection Eh as ->.
      case_decide; subst; [by rewrite lookup_insert_eq; simpl; rewrite Em|].
      by rewrite lookup_insert_ne, Hm, filtered_lookup.
    + rewrite Hdd. simpl. unfold apply_out. simpl. case_decide; subst.
      * rewrite lookup_delete_eq. destruct (row_now delta) as [r'|]; simpl in *; [|done].
        by destruct (matches pred r').
      * by rewrite lookup_delete_ne, Hm, filtered_lookup.
Qed.
End absolute.
