(* ===== verification/Activation.v ===== *)
(** * Creating a shape converges ([engine/sequencer.rs]: [stream_backfill], [activate_shape])

    A shape is created in two phases while the table keeps changing: the creator appends a snapshot
    of the table chunk by chunk, the sequencer buffers every change meanwhile, and activation
    replays the buffer through the snapshot's gate.  Here: whatever the chunking, the snapshot is
    the view of the table it was read from, and snapshot plus gated buffer is the view of the
    table at activation, with no change lost or applied twice. *)

From S2P Require Import Prelude BTree Value TableRef Schema Predicate PredicateFacts Gate Output.
From S2P Require Import Executors Aggregates Refine ChangeLog Sequencer SequencerFacts.
From stdpp Require Import base option numbers strings gmap fin_maps sorting list.
#[local] Open Scope Z_scope.

(** ** The snapshot *)

Section backfill.
Context {FT : FloatText} {FE : FaultEnv}.

(** The append loop of [stream_backfill] for a plain shape, on the chunks the reader yields. *)
Definition backfill_appends (ts : TableSchema) (pred : CompiledPredicate)
    (cols : option (list nat)) (chunks : list (list Row)) : list Envelope :=
  concat (map (λ chunk,
    let out := (λ r, (r, 1)) <$> filter (λ r, matches pred r = true) chunk in
    if bool_decide (out = []) then [] else translate_output ts out None None cols) chunks).

(** And for an aggregate: the seed, folded chunk by chunk. *)
Definition backfill_seed (pred : CompiledPredicate) (func : AggFn) (col : option nat)
    (chunks : list (list Row)) : AggTerms :=
  foldl (λ t chunk, fold_rows pred func col chunk t) AggSeed_default chunks.

Context (ts : TableSchema).

Lemma last_pos_Some out k r :
  last_pos ts out k = Some r -> exists w, (r, w) ∈ out /\ key_string ts r = Ok k /\ 0 < w.
Proof.
  induction out as [|[r' w'] out IH]; simpl; [done|].
  destruct (last_pos ts out k) as [r''|].
  - intros [= ->]. destruct IH as (w & ? & ?); [done|]. exists w. split; [by right|done].
  - destruct (_ && _) eqn:E; [|done]. intros [= ->]. apply andb_true_iff in E as [E1 E2].
    apply bool_decide_eq_true in E1. apply Z.ltb_lt in E2. exists w'. split; [left|done].
Qed.

Lemma last_pos_None out k r w :
  last_pos ts out k = None -> (r, w) ∈ out -> 0 < w -> key_string ts r <> Ok k.
Proof.
  induction out as [|[r' w'] out IH]; simpl; [by intros _ ?%elem_of_nil|].
  destruct (last_pos ts out k) as [r''|]; [done|].
  destruct (_ && _) eqn:E; [done|]. intros _ [[= -> ->]|Hin]%elem_of_cons Hw; [|by apply IH].
  intros Hk. rewrite bool_decide_eq_true_2, (proj2 (Z.ltb_lt 0 w')) in E by done. done.
Qed.

Lemma has_neg_positive rows k : has_neg ts ((λ r, (r, 1)) <$> rows) k = false.
Proof.
  apply not_true_iff_false. intros ([r w] & Hin & H)%existsb_exists.
  apply list_elem_of_In, list_elem_of_fmap in Hin as (r' & [= -> ->] & _).
  simpl in H. by rewrite andb_false_r in H.
Qed.

(** One chunk: the rows that match are there, everything else is as before. *)
Lemma chunk_lookup pred cols rows m k :
  drop_deletes = false ->
  (forall r r', r ∈ rows -> r' ∈ rows -> key_string ts r = Ok k -> key_string ts r' = Ok k -> r = r') ->
  let m' := materialize m (translate_output ts
              ((λ r, (r, 1)) <$> filter (λ r, matches pred r = true) rows) None None cols) in
  (forall r, r ∈ rows -> key_string ts r = Ok k -> matches pred r = true ->
     m' !! k = Some (row_to_json_cols ts r cols)) /\
  ((forall r, r ∈ rows -> key_string ts r = Ok k -> matches pred r = false) -> m' !! k = m !! k).
Proof.
  intros Hdd Hu m'. unfold m'. rewrite materialize_translate by done. rewrite has_neg_positive.
  destruct (last_pos _ _ k) as [r0|] eqn:E.
  - apply last_pos_Some in E as (w & Hin & Hk0 & _).
    apply list_elem_of_fmap in Hin as (r1 & [= <- ->] & Hin).
    apply list_elem_of_filter in Hin as [Hm Hin]. split.
    + intros r Hr Hk _. by rewrite (Hu r r0).
    + intros Hno. rewrite Hno in Hm; done.
  - split; [|done]. intros r Hr Hk Hm. exfalso.
    eapply (last_pos_None _ _ r 1); [exact E| |lia|done].
    apply list_elem_of_fmap. exists r. split; [done|]. by apply list_elem_of_filter.
Qed.

Lemma backfill_lookup pred cols chunks : forall m k,
  drop_deletes = false ->
  (forall r r', r ∈ concat chunks -> r' ∈ concat chunks ->
     key_string ts r = Ok k -> key_string ts r' = Ok k -> r = r') ->
  let m' := materialize m (backfill_appends ts pred cols chunks) in
  (forall r, r ∈ concat chunks -> key_string ts r = Ok k -> matches pred r = true ->
     m' !! k = Some (row_to_json_cols ts r cols)) /\
  ((forall r, r ∈ concat chunks -> key_string ts r = Ok k -> matches pred r = false) -> m' !! k = m !! k).
Proof.
  induction chunks as [|rows chunks IH]; intros m k Hdd Hu; [by split; [intros ? ?%elem_of_nil|]|].
  simpl in Hu. unfold backfill_appends. simpl. fold (backfill_appends ts pred cols chunks). rewrite materialize_app.
  set (m1 := materialize m (if bool_decide _ then _ else _)).
  assert (Hm1 : m1 = materialize m (translate_output ts
              ((λ r, (r, 1)) <$> filter (λ r, matches pred r = true) rows) None None cols)).
  { unfold m1. by case_bool_decide as E; [rewrite E|]. }
  destruct (chunk_lookup pred cols rows m k Hdd) as [C1 C2].
  { intros r r' H1 H2. apply Hu; apply elem_of_app; by left. }
  rewrite <- Hm1 in C1, C2. clearbody m1. clear Hm1.
  destruct (IH m1 k Hdd) as [I1 I2].
  { intros r r' H1 H2. apply Hu; apply elem_of_app; by right. }
  split.
  - intros r Hr Hk Hm. apply elem_of_app in Hr as [Hr|Hr]; [|by apply I1].
    destruct (decide (r ∈ concat chunks)) as [Hc|Hc]; [by apply I1|].
    rewrite I2; [by apply C1|]. intros r' Hr' Hk'. exfalso. apply Hc.
    rewrite (Hu r r'); try done; apply elem_of_app; auto.
  - intros Hno. rewrite I2; [apply C2|]; intros r Hr; apply Hno, elem_of_app; auto.
Qed.

(** The chunks are the rows of the table. *)
Definition chunks_of (T : gmap str Row) (chunks : list (list Row)) : Prop :=
  forall r, r ∈ concat chunks <-> exists k, T !! k = Some r.

Lemma backfill_view pred cols T chunks :
  drop_deletes = false -> table_ok ts T -> chunks_of T chunks ->
  materialize ∅ (backfill_appends ts pred cols chunks) = filtered ts pred cols T.
Proof.
  intros Hdd HT Hch. apply map_eq. intros k. rewrite filtered_lookup.
  assert (Hrow : forall r, r ∈ concat chunks -> key_string ts r = Ok k -> T !! k = Some r).
  { intros r [k' Hk']%Hch Hk. rewrite (HT _ _ Hk') in Hk. by injection Hk as <-. }
  destruct (backfill_lookup pred cols chunks ∅ k Hdd) as [B1 B2].
  { intros r r' Hr Hr' Hk Hk'. apply Hrow in Hr, Hr'; try done. congruence. }
  destruct (T !! k) as [r|] eqn:E; simpl.
  - destruct (matches pred r) eqn:Em.
    + apply B1; [apply Hch; by eexists|by apply HT|done].
    + rewrite B2; [done|]. intros r' Hr' Hk'. apply Hrow in Hr'; [congruence|done].
  - rewrite B2; [done|]. intros r' Hr' Hk'. apply Hrow in Hr'; [congruence|done].
Qed.
End backfill.

(** ** The buffer *)

Section activation.
Context {FT : FloatText} {FE : FaultEnv}.

(** A run of changes; every table on the way, the first included, satisfies [P]. *)
Inductive changes (ts : TableSchema) (P : gmap str Row -> Prop)
  : list Envelope -> gmap str Row -> gmap str Row -> Prop :=
  | chs_nil T : P T -> changes ts P [] T T
  | chs_cons env envs T T' T'' : P T -> change ts env T T' -> changes ts P envs T' T'' ->
      changes ts P (env :: envs) T T''.

Lemma changes_P ts P envs T T' : changes ts P envs T T' -> P T.
Proof. by destruct 1. Qed.

Lemma changes_table_ok ts P envs T T' : changes ts P envs T T' -> table_ok ts T -> table_ok ts T'.
Proof.
  induction 1 as [|env envs T T1 T2 _ Hch _ IH]; intros HT; [done|]. apply IH.
  destruct (apply_envelope_delta ts env T T1 HT Hch) as (delta & _ & Hd).
  by eapply delta_table_ok.
Qed.

Lemma replay_buffered_app ts gate pred cols a b :
  replay_buffered ts gate pred cols (a ++ b) =
  replay_buffered ts gate pred cols a ++ replay_buffered ts gate pred cols b.
Proof. unfold replay_buffered. by rewrite map_app, concat_app. Qed.

(** One buffered change. *)
Lemma replay_one ts gate pred cols env delta :
  apply_envelope ts env = Ok (delta, h_txid (e_headers env), h_lsn (e_headers env)) ->
  replay_buffered ts gate pred cols [env] =
  if already_seeded env gate then []
  else translate_output ts (eval_standalone pred delta) (h_txid (e_headers env)) (h_lsn (e_headers env)) cols.
Proof.
  intros Hap. unfold replay_buffered. simpl. rewrite Hap, app_nil_r.
  change (gate_skips (change_of delta (h_txid (e_headers env)) (h_lsn (e_headers env))) gate)
    with (already_seeded env gate).
  case_bool_decide as Hd; [subst; by destruct (already_seeded env gate)|].
  destruct (already_seeded env gate); [done|]. by case_bool_decide as Hm; [rewrite Hm|].
Qed.

Lemma replay_seen ts gate pred cols P seen T T' :
  table_ok ts T -> changes ts P seen T T' ->
  Forall (λ e, already_seeded e gate = true) seen -> replay_buffered ts gate pred cols seen = [].
Proof.
  intros HT Hch. revert HT. induction Hch as [|env envs T T1 T2 _ Hc Hcs IH]; intros HT Hs; [done|].
  apply Forall_cons in Hs as [Hs Hss].
  destruct (apply_envelope_delta ts env T T1 HT Hc) as (delta & Hap & Hd).
  change (env :: envs) with ([env] ++ envs). rewrite replay_buffered_app, (replay_one _ _ _ _ _ _ Hap), Hs.
  apply IH; [by eapply delta_table_ok|done].
Qed.

Lemma replay_unseen ts gate pred cols P unseen T T' :
  drop_deletes = false -> table_ok ts T -> changes ts P unseen T T' ->
  Forall (λ e, already_seeded e gate = false) unseen ->
  materialize (filtered ts pred cols T) (replay_buffered ts gate pred cols unseen) =
  filtered ts pred cols T'.
Proof.
  intros Hdd HT Hch. revert HT. induction Hch as [|env envs T T1 T2 _ Hc Hcs IH]; intros HT Hs; [done|].
  apply Forall_cons in Hs as [Hs Hss].
  destruct (apply_envelope_delta ts env T T1 HT Hc) as (delta & Hap & Hd).
  change (env :: envs) with ([env] ++ envs). rewrite replay_buffered_app, (replay_one _ _ _ _ _ _ Hap), Hs.
  rewrite materialize_app. rewrite (row_shape_step ts pred cols T delta T1) by done.
  apply IH; [by eapply delta_table_ok|done].
Qed.

Lemma family_insert_at f cols k rs : routed_at (family_insert f cols k rs) cols (rkey k) rs.
Proof.
  unfold routed_at, family_insert. eexists _, _. rewrite lookup_insert_eq. split; [done|].
  simpl. rewrite lookup_insert_eq. split; [done|]. rewrite elem_of_app. right. left.
Qed.


(** ** Aggregates *)

Lemma replay_aggregate_app ts gate a b agg outs :
  replay_aggregate ts gate (a ++ b) agg outs =
  (let '(agg, outs) := replay_aggregate ts gate a agg outs in replay_aggregate ts gate b agg outs).
Proof. unfold replay_aggregate. rewrite foldl_app. by destruct (foldl _ _ a). Qed.

(** One buffered change, folded: skipped, or the reference fold. *)
Lemma replay_aggregate_one ts gate env agg outs delta :
  apply_envelope ts env = Ok (delta, h_txid (e_headers env), h_lsn (e_headers env)) ->
  exists agg' outs', replay_aggregate ts gate [env] agg outs = (agg', outs ++ outs') /\
    ag_pred agg' = ag_pred agg /\ ag_func agg' = ag_func agg /\ ag_col agg' = ag_col agg /\
    ag_terms agg' = (if already_seeded env gate then ag_terms agg
                     else apply_terms (ag_pred agg) (ag_func agg) (ag_col agg) delta (ag_terms agg)).
Proof.
  intros Hap. unfold replay_aggregate. simpl. rewrite Hap.
  change (gate_skips (change_of delta (h_txid (e_headers env)) (h_lsn (e_headers env))) gate)
    with (already_seeded env gate).
  case_bool_decide as Hd.
  { exists agg, []. rewrite app_nil_r. subst. split_and!; try done. by destruct (already_seeded env gate). }
  destruct (already_seeded env gate); [exists agg, []; by rewrite app_nil_r|].
  unfold agg_apply. cbn [fst snd]. destruct (existsb _ delta); simpl.
  - destruct (match ag_last agg with Some _ => _ | None => false end);
      [eexists _, []; by rewrite app_nil_r|by eexists _, _].
  - eexists _, []. by rewrite app_nil_r.
Qed.

(** The tables an exact fold is stated over: countable in 64 bits, and typed. *)
Definition foldable (col : option nat) (ints : bool) (T : gmap str Row) : Prop :=
  Z.of_nat (size T) < i64_max /\ forall k r, T !! k = Some r -> typed_row col ints r.

Lemma replay_aggregate_seen ts gate P seen T T' agg outs :
  table_ok ts T -> changes ts P seen T T' ->
  Forall (λ e, already_seeded e gate = true) seen ->
  exists agg' outs', replay_aggregate ts gate seen agg outs = (agg', outs ++ outs') /\
    ag_pred agg' = ag_pred agg /\ ag_func agg' = ag_func agg /\ ag_col agg' = ag_col agg /\
    ag_terms agg' = ag_terms agg.
Proof.
  intros HT Hch. revert HT agg outs.
  induction Hch as [|env envs T T1 T2 _ Hc Hcs IH]; intros HT agg outs Hs.
  { exists agg, []. by rewrite app_nil_r. }
  apply Forall_cons in Hs as [Hs Hss].
  destruct (apply_envelope_delta ts env T T1 HT Hc) as (delta & Hap & Hd).
  destruct (replay_aggregate_one ts gate env agg outs delta Hap) as (a1 & o1 & E1 & Hp & Hf & Hco & Ht).
  change (env :: envs) with ([env] ++ envs). rewrite replay_aggregate_app, E1.
  destruct (IH (delta_table_ok ts T delta T1 HT Hd) a1 (outs ++ o1) Hss) as (a2 & o2 & E2 & ? & ? & ? & ?).
  exists a2, (o1 ++ o2). rewrite E2, (assoc_L (++)). rewrite Hs in Ht. split_and!; congruence.
Qed.

Lemma replay_aggregate_unseen ts gate col ints unseen T T' agg outs :
  table_ok ts T -> changes ts (foldable col ints) unseen T T' ->
  Forall (λ e, already_seeded e gate = false) unseen -> ag_col agg = col ->
  terms_of (ag_func agg) col ints (matching_rows (ag_pred agg) T) (ag_terms agg) ->
  exists agg' outs', replay_aggregate ts gate unseen agg outs = (agg', outs ++ outs') /\
    ag_pred agg' = ag_pred agg /\ ag_func agg' = ag_func agg /\ ag_col agg' = col /\
    terms_of (ag_func agg) col ints (matching_rows (ag_pred agg) T') (ag_terms agg').
Proof.
  intros HT Hch. revert HT agg outs.
  induction Hch as [|env envs T T1 T2 HP Hc Hcs IH]; intros HT agg outs Hs Hcol Hterms.
  { exists agg, []. by rewrite app_nil_r. }
  apply Forall_cons in Hs as [Hs Hss].
  destruct (apply_envelope_delta ts env T T1 HT Hc) as (delta & Hap & Hd).
  destruct (replay_aggregate_one ts gate env agg outs delta Hap) as (a1 & o1 & E1 & Hp & Hf & Hco & Ht).
  rewrite Hs, Hcol in Ht. change (env :: envs) with ([env] ++ envs). rewrite replay_aggregate_app, E1.
  destruct HP as [Hsz _]. destruct (changes_P _ _ _ _ _ Hcs) as [_ Hty].
  destruct (IH (delta_table_ok ts T delta T1 HT Hd) a1 (outs ++ o1) Hss) as (a2 & o2 & E2 & ? & ? & ? & ?).
  - congruence.
  - rewrite Hf, Hp, Ht. by eapply agg_step.
  - exists a2, (o1 ++ o2). rewrite E2, (assoc_L (++)). rewrite Hf, Hp in *. by split_and!.
Qed.

Lemma backfill_seed_terms pred func col ints T chunks :
  concat chunks ≡ₚ (map_to_list T).*2 -> foldable col ints T ->
  terms_of func col ints (matching_rows pred T) (backfill_seed pred func col chunks).
Proof.
  intros Hp [Hsz Hty]. assert (Hf : backfill_seed pred func col chunks =
    fold_rows pred func col (concat chunks) AggSeed_default).
  { unfold backfill_seed. generalize AggSeed_default. clear Hp.
    induction chunks as [|rows chunks IH]; intros t; simpl; [done|].
    rewrite IH. unfold fold_rows. by rewrite foldl_app. }
  rewrite Hf. eapply terms_perm; [|apply agg_seed_terms].
  - unfold matching_rows. by rewrite Hp.
  - rewrite Hp. apply Forall_forall. intros r ([k r'] & -> & Hin)%list_elem_of_fmap.
    apply elem_of_map_to_list in Hin. by eapply Hty.
  - rewrite Hp, length_fmap, length_map_to_list. lia.
Qed.

(** creating an aggregate converges: seeded with the snapshot's rows in any chunking, activation
    folds in the buffered changes the snapshot misses and only those, so the live aggregate holds
    the terms and the value of the rows of the current table that match. *)
Theorem aggregate_activation_converges e sid p func col ints gate chunks seen unseen T0 Ts Tn :
  te_pending e !! sid = Some p -> pe_overflowed p = false ->
  pe_kind p = CreateAggregate func col -> pe_buffered p = seen ++ unseen ->
  (func = AggSumFn \/ func = AggAvg -> ints = true) -> table_ok (te_ts e) T0 ->
  changes (te_ts e) (foldable col ints) seen T0 Ts ->
  changes (te_ts e) (foldable col ints) unseen Ts Tn ->
  Forall (λ e, already_seeded e gate = true) seen ->
  Forall (λ e, already_seeded e gate = false) unseen ->
  concat chunks ≡ₚ (map_to_list Ts).*2 ->
  exists e' agg first rest,
    activate_shape e sid gate (Some (backfill_seed (pe_pred p) func col chunks)) true =
      (e', Ok [(pe_stream_path p, first :: rest)]) /\
    te_aggregates e' = <[sid := agg]> (te_aggregates e) /\
    ag_pred agg = pe_pred p /\ ag_func agg = func /\ ag_col agg = col /\
    terms_of func col ints (matching_rows (pe_pred p) Tn) (ag_terms agg) /\
    agg_result func col (matching_rows (pe_pred p) Tn) (agg_value agg).
Proof.
  intros Hp Hov Hk Hb Hints HT Hc1 Hc2 Hs1 Hs2 Hch. unfold activate_shape. rewrite Hp, Hov, Hk, Hb. simpl.
  set (seed := backfill_seed _ _ _ _). set (agg1 := mkAgg _ _ _ _ _ _ (Some _)).
  set (outs0 := agg_shape_envelope _ _ _ _).
  pose proof (changes_table_ok _ _ _ _ _ Hc1 HT) as HTs.
  rewrite replay_aggregate_app.
  destruct (replay_aggregate_seen (te_ts e) gate _ seen T0 Ts agg1 [outs0] HT Hc1 Hs1)
    as (a1 & o1 & -> & Hp1 & Hf1 & Hcol1 & Ht1).
  destruct (replay_aggregate_unseen (te_ts e) gate col ints unseen Ts Tn a1 ([outs0] ++ o1) HTs Hc2 Hs2)
    as (a2 & o2 & -> & Hp2 & Hf2 & Hcol2 & Ht2).
  - by rewrite Hcol1.
  - rewrite Ht1, Hp1, Hf1. simpl. apply backfill_seed_terms; [done|by eapply changes_P].
  - rewrite Hp1, Hf1 in *. simpl in *. eexists _, a2, outs0, (o1 ++ o2).
    split_and!; [done|done|done|done|done|done|].
    unfold agg_value. rewrite Hf2, Hcol2. by eapply agg_value_result.
Qed.
End activation.
