(* ===== verification/Planning.v ===== *)
(** * Circuit placement ([src/apps/engine/src/engine/planning.rs])

    [plan_circuit_agg] decomposes an aggregate's WHERE into constraints on the group columns of the
    table's counts pipeline; an aggregate it accepts is served as a sum of group counts.  The
    theorem: a planned constraint list accepts a row's group exactly when the WHERE accepts the
    row, provided no literal is null.  With a null literal it does not ([Worked.plan_null_literal]): the
    constraint matches the null group, SQL's equality does not. *)

From S2P Require Import Prelude BTree Value TableRef Schema Predicate PredicateFacts Output.
From S2P Require Import Executors Aggregates ChangeLog Sequencer.
From stdpp Require Import base option numbers strings gmap fin_maps sorting list.
#[local] Open Scope Z_scope.

(** One dimension's constraint: the values it may have ([HashSet<Value>]), or none. *)
Abbreviation Constraints := (list (option (gset Value))).

Section plan.
Context {FT : FloatText} (ts : TableSchema) (group_cols : list nat).

(** The literal of an equality leaf at its column's type, as both arms read it. *)
Definition plan_literal (i : nat) (value : json) : option Value :=
  ty ← column_type ts i; res_ok (literal_from_json value ty).

(** The loop of the [Or] arm. *)
Fixpoint plan_or (ps : list PredicateJson) (idx : option nat) (keys : gset Value)
  : option (option nat * gset Value) :=
  match ps with
  | [] => Some (idx, keys)
  | PLeaf col OpEq value :: ps =>
      i ← ts_index ts !! col;
      if bool_decide (default i idx = i) then
        v ← plan_literal i value; plan_or ps (Some i) ({[vkey v]} ∪ keys)
      else None
  | _ => None
  end.

(** The [match child] of the loop body. *)
Definition plan_child (child : PredicateJson) : option (nat * gset Value) :=
  match child with
  | PLeaf col OpEq value => i ← ts_index ts !! col; v ← plan_literal i value; Some (i, {[vkey v]})
  | POr ps =>
      if bool_decide (ps = []) then None
      else '(idx, keys) ← plan_or ps None ∅; i ← idx; Some (i, keys)
  | _ => None
  end.

(** The loop over the conjuncts. *)
Fixpoint plan_loop (children : list PredicateJson) (constraints : Constraints)
  : option Constraints :=
  match children with
  | [] => Some constraints
  | child :: children =>
      '(idx, keys) ← plan_child child;
      pos ← fst <$> list_find (λ g, g = idx) group_cols;
      if bool_decide (constraints !! pos = Some None)
      then plan_loop children (<[pos := Some keys]> constraints) else None
  end.

(** [plan_circuit_agg]. *)
Definition plan_circuit_agg (where_ : option PredicateJson) : option Constraints :=
  let constraints := replicate (length group_cols) None in
  match where_ with
  | None => Some constraints
  | Some (PAnd ps) => plan_loop ps constraints
  | Some p => plan_loop [p] constraints
  end.
End plan.

(** [project] of [src/apps/engine/src/arrangements.rs]. *)
Definition project (row : Row) (cols : list nat) : Row := cell row <$> cols.

(* ================================================================== *)
(** * Soundness *)

Lemma group_matches_spec cs group :
  group_matches cs group = true <->
  forall i keys, cs !! i = Some (Some keys) -> exists v, group !! i = Some v /\ vkey v ∈ keys.
Proof.
  unfold group_matches. rewrite forallb_forall. split.
  - intros H i keys Hi. specialize (H (i, Some keys)). simpl in H.
    assert (Hin : In (i, Some keys) (imap pair cs)).
    { apply list_elem_of_In, list_elem_of_lookup_2 with i. by rewrite list_lookup_imap, Hi. }
    specialize (H Hin). destruct (group !! i) as [v|]; [|done]. exists v. split; [done|].
    by apply bool_decide_eq_true in H.
  - intros H [i c] Hin. apply list_elem_of_In, list_elem_of_lookup in Hin as [j Hj].
    rewrite list_lookup_imap in Hj. apply fmap_Some in Hj as (c' & Hc & [= -> ->]). simpl.
    destruct c' as [keys|]; [|done]. destruct (H j keys Hc) as (v & -> & Hv).
    by apply bool_decide_eq_true.
Qed.

(** A dimension set to [keys] adds exactly that membership. *)
Lemma group_matches_insert cs pos keys group v :
  cs !! pos = Some None -> group !! pos = Some v ->
  group_matches (<[pos := Some keys]> cs) group = true <->
  group_matches cs group = true /\ vkey v ∈ keys.
Proof.
  intros Hp Hv. rewrite !group_matches_spec. split.
  - intros H. split.
    + intros i ks Hi. apply H. rewrite list_lookup_insert_ne; [done|]. intros ->. congruence.
    + destruct (H pos keys) as (w & Hw & Hin); [|congruence].
      apply list_lookup_insert_eq. by eapply lookup_lt_Some.
  - intros [H Hin] i ks Hi. destruct (decide (i = pos)) as [->|Hne].
    + rewrite list_lookup_insert_eq in Hi by (by eapply lookup_lt_Some). injection Hi as <-.
      by exists v.
    + rewrite list_lookup_insert_ne in Hi by done. by apply H.
Qed.

Lemma group_matches_unconstrained n group : group_matches (replicate n None) group = true.
Proof. apply group_matches_spec. intros i keys Hi. by apply lookup_replicate in Hi as [? _]. Qed.

Definition no_null (cs : Constraints) : Prop :=
  Forall (λ c : option (gset Value), match c with Some keys => VNull ∉ keys | None => True end) cs.

Section soundness.
Context {FT : FloatText} {FE : FaultEnv} (ts : TableSchema) (group_cols : list nat).
Implicit Types (row : Row).

Lemma plan_leaf_compile col value i v :
  ts_index ts !! col = Some i -> plan_literal ts i value = Some v ->
  compile (PLeaf col OpEq value) ts = Ok (Cmp i OpEq v).
Proof.
  unfold plan_literal, compile. simpl. unfold column_index. intros -> Hv. simpl.
  destruct (column_type ts i) as [ty|]; simpl in *; [|done].
  by destruct (literal_from_json value ty); simpl in *; simplify_eq.
Qed.

Lemma matches_eq row i v : v <> VNull ->
  matches (Cmp i OpEq v) row = true <-> vkey (cell row i) = vkey v.
Proof.
  intros Hv. unfold matches. rewrite cmp_eq_matches; [apply value_eqb_vkey|]. by destruct v.
Qed.

Lemma matches_and_iff row ps : matches (CAnd ps) row = true <-> Forall (λ p, matches p row = true) ps.
Proof. apply matches_and. Qed.

Lemma matches_or_iff row ps : matches (COr ps) row = true <-> Exists (λ p, matches p row = true) ps.
Proof.
  unfold matches, matches_ctx. rewrite bool_decide_eq_true, eval_or.
  induction ps as [|p ps IH]; csimpl; [split; [done|inversion 1]|].
  rewrite Exists_cons, bool_decide_eq_true, <- IH.
  destruct (eval_ctx p row PanicEval), (foldr _ _ _); simpl; naive_solver.
Qed.

Lemma compile_list_or ps : compile (POr ps) ts = COr <$> compile_list ps ts.
Proof.
  unfold compile. cbn [compile_with].
  set (go := fix go (ps : list PredicateJson) (s : unit) := _).
  assert (H : forall s, (go ps s).2 = compile_list ps ts).
  { induction ps as [|p ps IH]; intros []; [done|]. simpl. unfold compile.
    destruct (compile_with p ts tt) as [[] [c|e]]; [|done]. simpl.
    specialize (IH tt). destruct (go ps tt) as [[] [cs|e]]; simpl in *; by rewrite <- IH. }
  rewrite <- (H tt). by destruct (go ps tt).
Qed.

(** The [Or] arm: a disjunction of equalities on one column. *)
Lemma plan_or_sound ps : forall idx keys idx' keys',
  plan_or ts ps idx keys = Some (idx', keys') ->
  exists cs, compile_list ps ts = Ok cs /\ (forall i, idx = Some i -> idx' = Some i) /\ keys ⊆ keys' /\
    (forall i row, idx' = Some i -> VNull ∉ keys' ->
       (vkey (cell row i) ∈ keys' <-> vkey (cell row i) ∈ keys \/ Exists (λ p, matches p row = true) cs)).
Proof.
  induction ps as [|p ps IH]; intros idx keys idx' keys' H.
  { injection H as <- <-. exists []. split_and!; [done..|].
    intros i row _ _. rewrite Exists_nil. naive_solver. }
  destruct p as [col op value| | | | |]; try done. destruct op; try done. cbn [plan_or] in H.
  destruct (ts_index ts !! col) as [i|] eqn:Hi; [|done]. cbn [mbind option_bind] in H.
  case_bool_decide as Hidx; [|done].
  destruct (plan_literal ts i value) as [v|] eqn:Hl; [|done]. cbn [mbind option_bind] in H.
  destruct (IH _ _ _ _ H) as (cs & Hcs & Hsame & Hsub & Hm).
  exists (Cmp i OpEq v :: cs). split_and!.
  - cbn [compile_list]. by rewrite (plan_leaf_compile col value i v), Hcs.
  - intros j ->. simpl in Hidx. subst. by apply Hsame.
  - set_solver.
  - intros j row Hj Hn. assert (j = i) as -> by (rewrite (Hsame i) in Hj by done; congruence).
    rewrite (Hm i row Hj Hn), Exists_cons, matches_eq; [set_solver|]. intros ->. set_solver.
Qed.

Lemma plan_child_sound child idx keys :
  plan_child ts child = Some (idx, keys) ->
  exists c, compile child ts = Ok c /\
    (VNull ∉ keys -> forall row, matches c row = true <-> vkey (cell row idx) ∈ keys).
Proof.
  destruct child as [col op value| |ps|ps| |]; try done; simpl.
  - destruct op; try done. destruct (ts_index ts !! col) as [i|] eqn:Hi; [|done]. simpl.
    destruct (plan_literal ts i value) as [v|] eqn:Hl; [|done]. simpl. intros [= <- <-].
    exists (Cmp i OpEq v). split; [by apply plan_leaf_compile|]. intros Hn row.
    rewrite elem_of_singleton. apply matches_eq. intros ->. set_solver.
  - case_bool_decide; [done|]. destruct (plan_or ts ps None ∅) as [[[i|] ks]|] eqn:E; try done.
    simpl. intros [= <- <-]. destruct (plan_or_sound _ _ _ _ _ E) as (cs & Hcs & _ & _ & Hm).
    exists (COr cs). rewrite compile_list_or, Hcs. split; [done|]. intros Hn row.
    rewrite matches_or_iff, (Hm i row eq_refl Hn). set_solver.
Qed.

Lemma plan_loop_sound children : forall cs0 cs,
  length cs0 = length group_cols -> plan_loop ts group_cols children cs0 = Some cs ->
  exists ps, compile_list children ts = Ok ps /\
    (no_null cs -> no_null cs0 /\ forall row,
       group_matches cs (project row group_cols) = true <->
       group_matches cs0 (project row group_cols) = true /\ Forall (λ p, matches p row = true) ps).
Proof.
  induction children as [|child children IH]; intros cs0 cs Hlen H.
  { injection H as <-. exists []. split; [done|]. intros Hn. split; [done|]. intros row.
    rewrite Forall_nil. naive_solver. }
  cbn [plan_loop] in H. destruct (plan_child ts child) as [[idx keys]|] eqn:Hc; [|done].
  cbn [mbind option_bind] in H.
  destruct (list_find (λ g, g = idx) group_cols) as [[pos g]|] eqn:Hf; [|done].
  cbn [fmap option_fmap option_map fst mbind option_bind] in H.
  apply list_find_Some in Hf as (Hg & -> & _). case_bool_decide as Hp; [|done].
  destruct (plan_child_sound _ _ _ Hc) as (c & Hcc & Hm).
  destruct (IH _ _ ltac:(by rewrite length_insert) H) as (ps & Hps & Hspec).
  exists (c :: ps). split; [cbn [compile_list]; by rewrite Hcc, Hps|]. intros Hn.
  destruct (Hspec Hn) as [Hn1 Hrow]. unfold no_null in *. rewrite Forall_lookup in Hn1.
  assert (Hk : VNull ∉ keys).
  { apply (Hn1 pos (Some keys)). apply list_lookup_insert_eq. by eapply lookup_lt_Some. }
  split.
  - apply Forall_lookup. intros i x Hi. destruct (decide (i = pos)) as [->|Hne].
    + rewrite Hp in Hi. by injection Hi as <-.
    + apply (Hn1 i x). by rewrite list_lookup_insert_ne.
  - intros row. rewrite Hrow, (group_matches_insert cs0 pos keys _ (cell row idx)).
    + rewrite Forall_cons, (Hm Hk row). tauto.
    + done.
    + unfold project. by rewrite list_lookup_fmap, Hg.
Qed.

Lemma plan_circuit_agg_spec where_ cs :
  plan_circuit_agg ts group_cols where_ = Some cs -> no_null cs ->
  exists pred, compile_opt where_ ts = Ok pred /\
    forall row, group_matches cs (project row group_cols) = matches pred row.
Proof.
  intros H Hn. unfold plan_circuit_agg in H.
  assert (Hsingle : forall p, plan_loop ts group_cols [p] (replicate (length group_cols) None) = Some cs ->
    exists pred, compile p ts = Ok pred /\
      forall row, group_matches cs (project row group_cols) = matches pred row).
  { intros p Hp. destruct (plan_loop_sound _ _ _ (length_replicate _ _) Hp) as (ps & Hps & Hspec).
    cbn [compile_list] in Hps. destruct (compile p ts) as [c|]; [|done]. injection Hps as <-.
    exists c. split; [done|]. intros row. apply eq_true_iff_eq.
    rewrite (proj2 (Hspec Hn) row), Forall_singleton, group_matches_unconstrained. tauto. }
  destruct where_ as [p|]; simpl.
  2: { injection H as <-. exists MatchAll. split; [done|]. intros row.
       by rewrite group_matches_unconstrained. }
  destruct p as [| |ps| | |]; try by apply Hsingle.
  destruct (plan_loop_sound _ _ _ (length_replicate _ _) H) as (cs' & Hcs & Hspec).
  exists (CAnd cs'). rewrite compile_and, Hcs. split; [done|]. intros row. apply eq_true_iff_eq.
  rewrite (proj2 (Hspec Hn) row), matches_and_iff, group_matches_unconstrained. tauto.
Qed.

(** a WHERE that [plan_circuit_agg] places on a counts pipeline compiles, and as long as none
    of its literals is null, a row's group (its projection on the group columns) satisfies the
    planned constraints exactly when the row satisfies the compiled WHERE; so summing the counts
    of the matching groups counts the matching rows. *)
Theorem plan_circuit_agg_sound where_ cs :
  plan_circuit_agg ts group_cols where_ = Some cs -> no_null cs ->
  exists pred, compile_opt where_ ts = Ok pred /\
    forall row, group_matches cs (project row group_cols) = matches pred row.
Proof. apply plan_circuit_agg_spec. Qed.
End soundness.
