(* ===== verification/Counts.v ===== *)
(** * The circuit tier ([src/apps/engine/src/arrangements.rs], [engine/circuit_serving.rs])

    COUNT aggregates served from per-group counts.  The counts pipelines themselves are dbsp's
    [map_index]/[weighted_count]: an interface ([CountPipelines]) with what dbsp documents
    ([CountLaws]).  Modelled from the source: the registration of the pipelines, the batch loop of
    the circuit thread with its de-duplication, the draining of count deltas, the group snapshot,
    the gate-fenced feed of an envelope, and the creation and maintenance of a served aggregate. *)

From S2P Require Import Prelude BTree Value TableRef Schema Predicate PredicateFacts Gate Output.
From S2P Require Import Executors Aggregates Refine ChangeLog Sequencer Planning.
From stdpp Require Import base option numbers strings gmap fin_maps sorting list.
#[local] Open Scope Z_scope.

(* ------------------------------------------------------------------ *)
(** ** Data *)

Record CountSpec : Type := mkSpec { sp_table : TableRef; sp_group_cols : list nat }.

#[export] Instance CountSpec_eq_dec : EqDecision CountSpec.
Proof. solve_decision. Defined.

Record CountDelta : Type := mkCountDelta { cd_table : TableRef; cd_group : Row; cd_delta : Z }.

Record StampedDelta : Type := mkStamped {
  sd_table : TableRef;
  sd_delta : Delta;
  sd_lsn : option Z;
  sd_seq : option Z
}.

(** What the circuit thread uses of dbsp: one transaction over the rows appended to the inputs
    (already projected to their groups), which yields per table the changed groups of the
    (group, count) relation as weighted counts, or fails; and the relation's current content. *)
Class CountPipelines (D : Type) := {
  cp_transaction : D -> list (TableRef * Delta) -> D * option (TableRef -> list (Row * list (Z * Z)));
  cp_snapshot : D -> TableRef -> list (Row * list (Z * Z))
}.

(** [derive(Ord)] on pairs of stamps. *)
Definition stamp_le (a b : Z * Z) : bool :=
  (a.1 <? b.1) || ((a.1 =? b.1) && (a.2 <=? b.2)).

(** [derive(Ord)] of [CountSpec]. *)
Definition spec_key (s : CountSpec) : list Z :=
  (Z.of_N <$> canon (sp_table s)) ++ [-1; dot (sp_table s)] ++ (Z.of_nat <$> sp_group_cols s).
Definition spec_leb (a b : CountSpec) : bool :=
  match zlist_cmp (spec_key a) (spec_key b) with Gt => false | _ => true end.

(** [Vec::dedup] and [windows(2).any(same table)]. *)
Fixpoint dedup_specs (l : list CountSpec) : list CountSpec :=
  match l with
  | a :: ((b :: _) as l') => if bool_decide (a = b) then dedup_specs l' else a :: dedup_specs l'
  | _ => l
  end.
Fixpoint table_repeats (l : list CountSpec) : bool :=
  match l with
  | a :: ((b :: _) as l') => bool_decide (sp_table a = sp_table b) || table_repeats l'
  | _ => false
  end.

Section arrangements.
Context {D : Type} {CP : CountPipelines D}.

(** The handle and the circuit thread's state. *)
Record Arrangements : Type := mkArr {
  ar_counts : gmap TableRef (list nat);
  ar_seeded : gset TableRef;
  ar_highwater : option (Z * Z);
  ar_dbsp : D
}.

(** [Arrangements::start], on a freshly built circuit. *)
Definition arr_start (d : D) (counts : list CountSpec) : res str Arrangements :=
  let counts := dedup_specs (stable_sort spec_leb counts) in
  if bool_decide (counts = []) then Err $"arrangements: no counts pipelines registered"
  else if table_repeats counts then Err $"arrangements: one counts spec per table"
  else Ok (mkArr (list_to_map ((λ s, (sp_table s, sp_group_cols s)) <$> counts)) ∅ None d).

Definition counts_group_cols (a : Arrangements) (t : TableRef) : option (list nat) :=
  ar_counts a !! t.
Definition finish_seed (a : Arrangements) (t : TableRef) : Arrangements :=
  if bool_decide (is_Some (ar_counts a !! t))
  then mkArr (ar_counts a) ({[t]} ∪ ar_seeded a) (ar_highwater a) (ar_dbsp a) else a.
Definition is_seeded (a : Arrangements) (t : TableRef) : bool := bool_decide (t ∈ ar_seeded a).

(** The loop over the deltas of a [Cmd::Batch]: what passes the highwater and has an input. *)
Definition sd_stamp (d : StampedDelta) : option (Z * Z) :=
  match sd_lsn d, sd_seq d with Some l, Some s => Some (l, s) | _, _ => None end.
Definition stamp_seen (stamp hw : option (Z * Z)) : bool :=
  match stamp, hw with Some p, Some h => stamp_le p h | _, _ => false end.
Definition stamp_advance (stamp hw : option (Z * Z)) : option (Z * Z) :=
  match stamp with Some p => Some p | None => hw end.
Fixpoint batch_feed (counts : gmap TableRef (list nat)) (hw : option (Z * Z))
    (deltas : list StampedDelta) : option (Z * Z) * list (TableRef * Delta) :=
  match deltas with
  | [] => (hw, [])
  | d :: ds =>
      if stamp_seen (sd_stamp d) hw then batch_feed counts hw ds
      else
        let '(hw', fed) := batch_feed counts (stamp_advance (sd_stamp d) hw) ds in
        (hw', if bool_decide (sd_delta d = []) then fed
              else match counts !! sd_table d with
                   | Some cols =>
                       (sd_table d, (λ rw : Row * Z, (project rw.1 cols, rw.2)) <$> sd_delta d) :: fed
                   | None => fed
                   end)
  end.

(** [drain_count_deltas]; 64-bit arithmetic wraps. *)
Definition group_delta (vals : list (Z * Z)) : Z :=
  foldl (λ acc cw, wrap_i64 (acc + wrap_i64 (cw.1 * cw.2))) 0 vals.
Definition drain_count_deltas (t : TableRef) (out : list (Row * list (Z * Z))) : list CountDelta :=
  omap (λ gv : Row * list (Z * Z),
          let delta := group_delta gv.2 in
          if delta =? 0 then None else Some (mkCountDelta t gv.1 delta)) out.

(** [Arrangements::apply_batch] and the [Cmd::Batch] arm. *)
Definition apply_batch (a : Arrangements) (deltas : list StampedDelta)
  : Arrangements * list CountDelta :=
  if bool_decide (deltas = []) then (a, [])
  else
    let '(hw, fed) := batch_feed (ar_counts a) (ar_highwater a) deltas in
    if bool_decide (fed = []) then (mkArr (ar_counts a) (ar_seeded a) hw (ar_dbsp a), [])
    else
      let '(d, out) := cp_transaction (ar_dbsp a) fed in
      (mkArr (ar_counts a) (ar_seeded a) hw d,
       match out with
       | Some out => concat (map (λ t, drain_count_deltas t (out t)) (map_to_list (ar_counts a)).*1)
       | None => []
       end).

(** [Arrangements::seed_groups] and the [Cmd::SeedGroups] arm: the highwater is bypassed. *)
Definition seed_groups (a : Arrangements) (t : TableRef) (groups : list (Row * Z))
  : Arrangements * res str unit :=
  match ar_counts a !! t with
  | None => (a, Err $"seed: unknown table")
  | Some cols =>
      let '(d, out) := cp_transaction (ar_dbsp a)
        [(t, (λ rw : Row * Z, (project rw.1 cols, rw.2)) <$> groups)] in
      (mkArr (ar_counts a) (ar_seeded a) (ar_highwater a) d,
       match out with Some _ => Ok tt | None => Err $"seed transaction" end)
  end.

(** [Arrangements::count_groups]. *)
Definition count_groups (a : Arrangements) (t : TableRef) : option (list (Row * Z)) :=
  if negb (is_seeded a t) then None
  else
    _ ← ar_counts a !! t;
    Some (concat (map (λ gv : Row * list (Z * Z),
      omap (λ cw : Z * Z, if (0 <? cw.2) && negb (cw.1 =? 0) then Some (gv.1, cw.1) else None) gv.2)
      (cp_snapshot (ar_dbsp a) t))).
End arrangements.
Arguments Arrangements : clear implicits.
Arguments mkArr {D}.

(* ------------------------------------------------------------------ *)
(** ** Serving *)

Section serving.
Context {FT : FloatText} {D : Type} {CP : CountPipelines D}.

(** [stamped_delta_for_arrangements]. *)
Definition stamped_delta_for_arrangements (tables : gmap TableRef TableSchema)
    (arr : Arrangements D) (arr_gates : gmap TableRef SnapshotGate) (env : Envelope)
  : option StampedDelta :=
  match TableRef_parse (e_type env) with
  | Err _ => None
  | Ok table =>
      if bool_decide (TableRef_as_str table = e_type env) then
        _ ← counts_group_cols arr table;
        ts ← tables !! table;
        '(delta, txid, lsn) ← res_ok (apply_envelope ts env);
        if bool_decide (delta = []) then None
        else
          let c := change_of delta txid lsn in
          if match arr_gates !! table with Some gate => gate_skips c gate | None => false end then None
          else Some (mkStamped table delta (lsn_to_u64 <$> lsn) (h_seq (e_headers env)))
      else None
  end.

(** The initial value of [create_circuit_agg]. *)
Definition sum_groups (constraints : Constraints) (groups : list (Row * Z)) : Z :=
  foldl (λ acc gc, wrap_i64 (acc + gc.2)) 0
        (filter (λ gc : Row * Z, group_matches constraints gc.1 = true) groups).

(** [create_circuit_agg]; [append_ok] is whether the retried append went through. *)
Definition create_circuit_agg (arr : option (Arrangements D)) (execs : gmap str TableExec)
    (tables : gmap TableRef TableSchema) (table : TableRef) (shape_id stream_path : str)
    (constraints : Constraints) (append_ok : bool)
  : gmap str TableExec * res str Envelope :=
  match arr with
  | None => (execs, Err $"circuit aggregates require the counts layer")
  | Some arr =>
      match exec_for execs tables (TableRef_as_str table) with
      | (execs, None) => (execs, Err $"circuit aggregate: unknown table")
      | (execs, Some exec) =>
          match count_groups arr table with
          | None => (execs, Err $"counts pipeline not ready")
          | Some groups =>
              let agg := mkCircuitAgg stream_path constraints (sum_groups constraints groups) in
              let env := circuit_agg_envelope agg (ts_table (te_ts exec)) None None in
              if append_ok then
                (<[TableRef_as_str table :=
                     set_circuit_aggs exec (<[shape_id := agg]> (te_circuit_aggs exec))]> execs, Ok env)
              else (execs, Err $"append initial aggregate")
          end
      end
  end.

(** The first loop of [apply_count_deltas]: fold one delta into every aggregate it matches, and
    note the shapes touched, in first-touch order. *)
Definition bump_agg (d : CountDelta) (agg : CircuitAgg) : CircuitAgg :=
  if group_matches (ca_constraints agg) (cd_group d)
  then mkCircuitAgg (ca_stream_path agg) (ca_constraints agg) (wrap_i64 (ca_value agg + cd_delta d))
  else agg.
Definition note_changed (t : TableRef) (changed : list (TableRef * str)) (sid : str)
  : list (TableRef * str) :=
  if bool_decide (sid ∈ changed.*2) then changed else changed ++ [(t, sid)].
Definition fold_count_delta (st : gmap str TableExec * list (TableRef * str)) (d : CountDelta)
  : gmap str TableExec * list (TableRef * str) :=
  match st.1 !! TableRef_as_str (cd_table d) with
  | None => st
  | Some exec =>
      let hit := filter (λ sa : str * CircuitAgg, group_matches (ca_constraints sa.2) (cd_group d) = true)
                   (entries (te_circuit_aggs exec)) in
      (<[TableRef_as_str (cd_table d) :=
           set_circuit_aggs exec (bump_agg d <$> te_circuit_aggs exec)]> st.1,
       foldl (note_changed (cd_table d)) st.2 hit.*1)
  end.

(** The second: one envelope per changed aggregate. *)
Definition emit_count (execs : gmap str TableExec) (txid lsn : option str) (p : Staged)
    (ts : TableRef * str) : Staged :=
  match execs !! TableRef_as_str ts.1 with
  | None => p
  | Some exec =>
      match te_circuit_aggs exec !! ts.2 with
      | None => p
      | Some agg => stage (ca_stream_path agg)
                      [circuit_agg_envelope agg (ts_table (te_ts exec)) txid lsn] p
      end
  end.

(** [apply_count_deltas]. *)
Definition apply_count_deltas (execs : gmap str TableExec) (deltas : list CountDelta)
    (txid lsn : option str) (p : Staged) : gmap str TableExec * Staged :=
  let '(execs, changed) := foldl fold_count_delta (execs, []) deltas in
  (execs, foldl (emit_count execs txid lsn) p changed).
End serving.
