(* ===== verification/CountsFacts.v ===== *)
(** * Served counts are the counts of their WHERE

    What the circuit tier promises: as long as the counts relation is the grouping of the table, the
    value of a circuit-served aggregate is the number of the table's rows its WHERE accepts, and one
    transaction's deltas carry it from the old table to the new one. *)

From S2P Require Import Prelude BTree Value TableRef Schema Predicate PredicateFacts Gate Output.
From S2P Require Import Executors Aggregates Refine ChangeLog Sequencer SequencerFacts Planning Counts.
From stdpp Require Import base option numbers strings gmap fin_maps sorting list.
#[local] Open Scope Z_scope.

(* ------------------------------------------------------------------ *)
(** ** Sums of weights by group *)

Definition weight_where (P : Row -> bool) (l : Delta) : Z :=
  sumZ (snd <$> filter (λ rw, P rw.1 = true) l).
Definition same_group (g row : Row) : bool := bool_decide (rkey row = rkey g).

(** The weight fed to a table's group. *)
Definition fed_weight (ins : list (TableRef * Delta)) (t : TableRef) (g : Row) : Z :=
  weight_where (same_group g) (concat (snd <$> filter (λ i, i.1 = t) ins)).

Lemma sumZ_app a b : sumZ (a ++ b) = sumZ a + sumZ b.
Proof. unfold sumZ. induction a as [|x a IH]; simpl; [done|]. rewrite IH. lia. Qed.

Lemma weight_where_cons P g w l :
  weight_where P ((g, w) :: l) = (if P g then w else 0) + weight_where P l.
Proof. unfold weight_where. rewrite filter_cons. simpl. destruct (P g); simpl; try done. Qed.

Lemma weight_where_app P a b : weight_where P (a ++ b) = weight_where P a + weight_where P b.
Proof. unfold weight_where. by rewrite filter_app, fmap_app, sumZ_app. Qed.

Lemma weight_where_in_ext P Q l :
  (forall g w, (g, w) ∈ l -> P g = Q g) -> weight_where P l = weight_where Q l.
Proof.
  induction l as [|[g w] l IH]; intros H; [done|]. rewrite !weight_where_cons, IH.
  - by rewrite (H g w) by (by left).
  - intros g' w' Hin. apply (H g' w'). by right.
Qed.

Lemma weight_where_ext P Q l : (forall g, P g = Q g) -> weight_where P l = weight_where Q l.
Proof. intros H. apply weight_where_in_ext. intros; apply H. Qed.

Lemma weight_where_map P (f : Row -> Row) l :
  weight_where P ((λ rw, (f rw.1, rw.2)) <$> l) = weight_where (λ r, P (f r)) l.
Proof. induction l as [|[g w] l IH]; [done|]. csimpl. by rewrite !weight_where_cons, IH. Qed.

Lemma weight_where_split P Q l :
  weight_where P l = weight_where (λ g, P g && Q g) l + weight_where (λ g, P g && negb (Q g)) l.
Proof.
  induction l as [|[g w] l IH]; [done|]. rewrite !weight_where_cons, IH.
  destruct (P g), (Q g); simpl; lia.
Qed.

Lemma sumZ_fmap_cons {A} (f : A -> Z) x l : sumZ (f <$> x :: l) = f x + sumZ (f <$> l).
Proof. done. Qed.

Lemma sumZ_zero {A} (f : A -> Z) l : (forall x, x ∈ l -> f x = 0) -> sumZ (f <$> l) = 0.
Proof.
  induction l as [|x l IH]; intros H; [done|]. csimpl. unfold sumZ in *. simpl.
  rewrite (H x), IH; [done| |by left]. intros y Hy. apply H. by right.
Qed.

Lemma sumZ_plus {A} (f g : A -> Z) l : sumZ ((λ x, f x + g x) <$> l) = sumZ (f <$> l) + sumZ (g <$> l).
Proof. induction l as [|x l IH]; [done|]. csimpl. unfold sumZ in *. simpl. lia. Qed.

Lemma rkey_idemp r : rkey (rkey r) = rkey r.
Proof. unfold rkey. rewrite <- list_fmap_compose. apply list_fmap_ext. intros i v _. apply vkey_idemp. Qed.

Section regroup.
Context (P : Row -> bool) (HP : forall a b, rkey a = rkey b -> P a = P b).

Definition in_groups (K : list Row) (g : Row) : bool := existsb (λ k, same_group k g) K.

Lemma in_groups_true K g : in_groups K g = true <-> rkey g ∈ rkey <$> K.
Proof.
  unfold in_groups. rewrite existsb_exists, list_elem_of_fmap. unfold same_group.
  setoid_rewrite bool_decide_eq_true. setoid_rewrite list_elem_of_In. firstorder.
Qed.

(** A weight is counted by the one representative of its group, if there is one. *)
Lemma sum_one_group K g w : NoDup (rkey <$> K) ->
  sumZ ((λ k, if same_group k g then w else 0) <$> filter (λ k, P k = true) K) =
  if P g && in_groups K g then w else 0.
Proof.
  induction K as [|k K IH]; intros Hnd; [by rewrite andb_false_r|].
  csimpl in Hnd. apply NoDup_cons in Hnd as [Hk Hnd]. specialize (IH Hnd). simpl.
  rewrite filter_cons. destruct (same_group k g) eqn:E; simpl.
  - unfold same_group in E. apply bool_decide_eq_true in E. rewrite (HP g k E) in *.
    assert (in_groups K g = false) as Hf.
    { apply not_true_iff_false. rewrite in_groups_true. congruence. }
    rewrite Hf, andb_false_r in IH. destruct (P k); csimpl; [|done].
    unfold same_group at 1. rewrite bool_decide_eq_true_2 by done. unfold sumZ in *. simpl. lia.
  - destruct (P k); csimpl; [|done]. rewrite E. unfold sumZ in *. simpl. lia.
Qed.

Lemma sum_groups_in K l : NoDup (rkey <$> K) ->
  sumZ ((λ k, weight_where (same_group k) l) <$> filter (λ k, P k = true) K) =
  weight_where (λ g, P g && in_groups K g) l.
Proof.
  intros Hnd. induction l as [|[g w] l IH]; [by apply sumZ_zero|].
  rewrite weight_where_cons, <- (sum_one_group K g w Hnd), <- IH, <- sumZ_plus.
  f_equal. apply list_fmap_ext. intros i k _. apply weight_where_cons.
Qed.

(** Summing over representatives that cover every group of nonzero weight. *)
Lemma sum_groups_cover K l : NoDup (rkey <$> K) ->
  (forall g, weight_where (same_group g) l <> 0 -> in_groups K g = true) ->
  sumZ ((λ k, weight_where (same_group k) l) <$> filter (λ k, P k = true) K) = weight_where P l.
Proof.
  intros Hnd Hcov. rewrite sum_groups_in, (weight_where_split P (in_groups K) l) by done.
  set (K2 := remove_dups (filter (λ k, in_groups K k = false) (rkey <$> l.*1))).
  assert (Hel : forall k, k ∈ K2 -> rkey k = k /\ in_groups K k = false).
  { intros k [Hn (r & -> & _)%list_elem_of_fmap]%elem_of_remove_dups%list_elem_of_filter.
    by rewrite rkey_idemp. }
  assert (HK2 : rkey <$> K2 = K2).
  { rewrite <- (list_fmap_id K2) at 2. apply list_fmap_ext. intros i k Hk%list_elem_of_lookup_2.
    by apply Hel. }
  enough (H : weight_where (λ g, P g && negb (in_groups K g)) l = 0) by lia.
  rewrite (weight_where_in_ext _ (λ g, P g && in_groups K2 g)).
  - rewrite <- sum_groups_in by (rewrite HK2; apply NoDup_remove_dups).
    apply sumZ_zero. intros k [_ Hk]%list_elem_of_filter. apply Hel in Hk as [_ Hk].
    destruct (decide (weight_where (same_group k) l = 0)) as [|Hne]; [done|].
    apply Hcov in Hne. congruence.
  - intros g w Hin. f_equal. apply eq_true_iff_eq. rewrite negb_true_iff, in_groups_true, HK2.
    unfold K2. rewrite elem_of_remove_dups, list_elem_of_filter.
    assert (Hg : in_groups K (rkey g) = in_groups K g).
    { apply eq_true_iff_eq. by rewrite !in_groups_true, rkey_idemp. }
    rewrite Hg. split; [|tauto]. intros Hn. split; [done|]. apply list_elem_of_fmap.
    exists g. split; [done|]. apply list_elem_of_fmap. by exists (g, w).
Qed.
End regroup.

(* ------------------------------------------------------------------ *)
(** ** Counting the rows of a table *)

Definition count_where (P : Row -> bool) (T : gmap str Row) : Z :=
  Z.of_nat (length (filter (λ r, P r = true) (map_to_list T).*2)).

Lemma count_where_insert P T k r :
  T !! k = None -> count_where P (<[k := r]> T) = count_where P T + (if P r then 1 else 0).
Proof.
  intros Hk. unfold count_where. rewrite (map_to_list_insert T k r Hk). csimpl.
  rewrite filter_cons. destruct (P r); simpl; lia.
Qed.

Lemma count_where_delete P T k r :
  T !! k = Some r -> count_where P (delete k T) = count_where P T - (if P r then 1 else 0).
Proof.
  intros Hk. rewrite <- (insert_delete_id T k r Hk) at 2.
  rewrite count_where_insert by apply lookup_delete_eq. lia.
Qed.

Lemma count_where_bound P T : 0 <= count_where P T <= Z.of_nat (size T).
Proof.
  unfold count_where. pose proof (length_filter (λ r, P r = true) (map_to_list T).*2) as H.
  rewrite length_fmap, length_map_to_list in H. lia.
Qed.

Lemma count_where_delta {FT : FloatText} ts P T delta T' :
  table_ok ts T -> delta_of ts T delta T' -> count_where P T' = count_where P T + weight_where P delta.
Proof.
  intros HT Hd. destruct Hd as [|new k Hk Hf|old new ko kn Ho Hk Hf|old ko Ho].
  - unfold weight_where. csimpl. unfold sumZ. simpl. lia.
  - rewrite count_where_insert, weight_where_cons by done. unfold weight_where, sumZ. simpl. lia.
  - rewrite count_where_insert, (count_where_delete P T ko old Ho), !weight_where_cons.
    + unfold weight_where, sumZ. simpl. destruct (P old), (P new); lia.
    + destruct Hf as [->|Hf]; [apply lookup_delete_eq|]. rewrite lookup_delete_ne; [done|].
      intros ->. congruence.
  - rewrite (count_where_delete P T ko old Ho), weight_where_cons. unfold weight_where, sumZ. simpl.
    destruct (P old); lia.
Qed.

(** A run of stamped deltas against one table; deltas of other tables pass by. *)
Inductive table_feed {FT : FloatText} (ts : TableSchema) (t : TableRef)
  : gmap str Row -> list StampedDelta -> gmap str Row -> Prop :=
  | tf_nil T : table_feed ts t T [] T
  | tf_here sd sds T T1 T2 : sd_table sd = t -> delta_of ts T (sd_delta sd) T1 ->
      table_feed ts t T1 sds T2 -> table_feed ts t T (sd :: sds) T2
  | tf_other sd sds T T2 : sd_table sd <> t -> table_feed ts t T sds T2 ->
      table_feed ts t T (sd :: sds) T2.

Definition deltas_at (t : TableRef) (sds : list StampedDelta) : Delta :=
  concat (sd_delta <$> filter (λ sd, sd_table sd = t) sds).

Lemma count_where_feed {FT : FloatText} ts t P T sds T' :
  table_ok ts T -> table_feed ts t T sds T' ->
  count_where P T' = count_where P T + weight_where P (deltas_at t sds).
Proof.
  intros HT Hf. revert HT. unfold deltas_at.
  induction Hf as [T|sd sds T T1 T2 Ht Hd _ IH|sd sds T T2 Ht _ IH]; intros HT.
  - unfold weight_where. csimpl. unfold sumZ. simpl. lia.
  - rewrite filter_cons_True by done. csimpl. rewrite weight_where_app, IH.
    + rewrite (count_where_delta ts P T (sd_delta sd) T1 HT Hd). lia.
    + by eapply delta_table_ok.
  - by rewrite filter_cons_False, IH.
Qed.

(* ------------------------------------------------------------------ *)
(** ** The pipelines *)

(** A group's entry of the (group, count) relation with sign [s]: a group of count zero has none. *)
Definition counted (s n : Z) : list (Z * Z) := if n =? 0 then [] else [(n, s)].

(** dbsp's [weighted_count]: the count of a group is the sum of the weights fed to it; a
    transaction's output retracts the old count of each changed group and inserts the new one; the
    integrated relation holds each group with its count, at weight one. *)
Class CountLaws (D : Type) `{CountPipelines D} := {
  cp_weight : D -> TableRef -> Row -> Z;
  cp_weight_step : forall d ins d' out t g, cp_transaction d ins = (d', Some out) ->
    cp_weight d' t g = cp_weight d t g + fed_weight ins t g;
  cp_out_keys : forall d ins d' out t, cp_transaction d ins = (d', Some out) ->
    NoDup (rkey <$> (out t).*1) /\
    forall g, cp_weight d' t g <> cp_weight d t g -> in_groups (out t).*1 g = true;
  cp_out_vals : forall d ins d' out t g vals, cp_transaction d ins = (d', Some out) ->
    (g, vals) ∈ out t -> vals ≡ₚ counted (-1) (cp_weight d t g) ++ counted 1 (cp_weight d' t g);
  cp_snapshot_keys : forall d t, NoDup (rkey <$> (cp_snapshot d t).*1) /\
    forall g, cp_weight d t g <> 0 -> in_groups (cp_snapshot d t).*1 g = true;
  cp_snapshot_vals : forall d t g vals, (g, vals) ∈ cp_snapshot d t ->
    vals = counted 1 (cp_weight d t g)
}.

Lemma wrap_i64_add_l a b : wrap_i64 (wrap_i64 a + b) = wrap_i64 (a + b).
Proof. by apply wrap_i_add_l. Qed.
Lemma wrap_i64_add_r a b : wrap_i64 (a + wrap_i64 b) = wrap_i64 (a + b).
Proof. by rewrite Z.add_comm, wrap_i64_add_l, Z.add_comm. Qed.

(** Folding with wrapped additions is wrapping the sum. *)
Lemma foldl_wrap {A} (f : A -> Z) l : forall v,
  foldl (λ acc x, wrap_i64 (acc + f x)) (wrap_i64 v) l = wrap_i64 (v + sumZ (f <$> l)).
Proof.
  induction l as [|x l IH]; intros v; cbn [foldl].
  - apply (f_equal wrap_i64). unfold sumZ. simpl. lia.
  - rewrite wrap_i64_add_l, IH, sumZ_fmap_cons. apply (f_equal wrap_i64). lia.
Qed.

Lemma foldl_wrap_0 {A} (f : A -> Z) l :
  foldl (λ acc x, wrap_i64 (acc + f x)) 0 l = wrap_i64 (sumZ (f <$> l)).
Proof. exact (foldl_wrap f l 0). Qed.

Lemma group_delta_counted vals a b :
  vals ≡ₚ counted (-1) a ++ counted 1 b -> in_i64 (b - a) -> group_delta vals = b - a.
Proof.
  intros Hp Hb. unfold group_delta.
  assert (E : foldl (λ (acc : Z) (cw : Z * Z), wrap_i64 (acc + wrap_i64 (cw.1 * cw.2))) 0 vals =
              foldl (λ (acc : Z) (cw : Z * Z), wrap_i64 (acc + cw.1 * cw.2)) 0 vals).
  { generalize 0. clear. induction vals as [|[c w] vals IH]; intros z; simpl; [done|].
    by rewrite wrap_i64_add_r, IH. }
  rewrite E, foldl_wrap_0. clear E. rewrite <- (wrap_i64_small (b - a)) by done. apply (f_equal wrap_i64).
  assert (Hs : sumZ ((λ x : Z * Z, x.1 * x.2) <$> vals) =
               sumZ ((λ x : Z * Z, x.1 * x.2) <$> (counted (-1) a ++ counted 1 b))).
  { by rewrite Hp. }
  rewrite Hs. unfold counted, sumZ. destruct (Z.eqb_spec a 0), (Z.eqb_spec b 0); simpl; lia.
Qed.

(* ------------------------------------------------------------------ *)
(** ** Folding count deltas into the executors *)

(** The aggregate [sid] of the executor [name] has its id and its stream to itself. *)
Definition agg_alone (execs : gmap str TableExec) (name sid path : str) : Prop :=
  forall n e s a, execs !! n = Some e -> te_circuit_aggs e !! s = Some a ->
    s = sid \/ ca_stream_path a = path -> n = name /\ s = sid.

(** The deltas that move an aggregate. *)
Definition hits (name : str) (cs : Constraints) (ds : list CountDelta) : list CountDelta :=
  filter (λ d, TableRef_as_str (cd_table d) = name /\ group_matches cs (cd_group d) = true) ds.

Lemma bump_agg_path d a : ca_stream_path (bump_agg d a) = ca_stream_path a.
Proof. unfold bump_agg. by destruct (group_matches _ _). Qed.

Lemma fold_count_delta_alone st d name sid path :
  agg_alone st.1 name sid path -> agg_alone (fold_count_delta st d).1 name sid path.
Proof.
  intros H n e s a. unfold fold_count_delta.
  destruct (st.1 !! TableRef_as_str (cd_table d)) as [exec|] eqn:E; [|apply H]. cbn [fst].
  destruct (decide (n = TableRef_as_str (cd_table d))) as [->|Hn].
  - rewrite lookup_insert_eq. intros [= <-]. cbn [set_circuit_aggs te_circuit_aggs].
    rewrite lookup_fmap. intros (b & Hb & ->)%fmap_Some. rewrite bump_agg_path.
    by eapply H.
  - rewrite lookup_insert_ne by done. apply H.
Qed.

Lemma nodup_snd_inj {A B} (l : list (A * B)) a b x :
  NoDup l.*2 -> (a, x) ∈ l -> (b, x) ∈ l -> a = b.
Proof.
  intros Hnd [i Hi]%list_elem_of_lookup [j Hj]%list_elem_of_lookup.
  assert (i = j) as ->; [|congruence].
  eapply (NoDup_lookup l.*2); [done|..]; rewrite list_lookup_fmap; by rewrite ?Hi, ?Hj.
Qed.

Lemma note_changed_fold t sids : forall ch,
  NoDup ch.*2 -> NoDup (foldl (note_changed t) ch sids).*2 /\
  (forall s, s ∈ (foldl (note_changed t) ch sids).*2 <-> s ∈ ch.*2 \/ s ∈ sids) /\
  (forall x, x ∈ foldl (note_changed t) ch sids -> x ∈ ch \/ x.1 = t /\ x.2 ∈ sids).
Proof.
  induction sids as [|s0 sids IH]; intros ch Hnd; cbn [foldl]; [set_solver|].
  unfold note_changed at 2 4 6. case_bool_decide as Hin.
  - destruct (IH ch Hnd) as (H1 & H2 & H3). split_and!; [done| |].
    + intros s. rewrite H2. set_solver.
    + intros x [Hx|[Hx Hs]]%H3; [by left|right]. split; [done|by right].
  - destruct (IH (ch ++ [(t, s0)])) as (H1 & H2 & H3).
    { rewrite fmap_app. apply NoDup_app. split_and!; [done| |apply NoDup_singleton]. set_solver. }
    split_and!; [done| |].
    + intros s. rewrite H2, fmap_app. set_solver.
    + intros x [Hx|[Hx Hs]]%H3; [|right; split; [done|by right]].
      apply elem_of_app in Hx as [Hx|Hx]; [by left|right]. apply list_elem_of_singleton in Hx as ->.
      split; [done|by left].
Qed.

(** What the folding keeps track of for one aggregate. *)
Record agg_tracked (st : gmap str TableExec * list (TableRef * str)) (name sid : str)
    (ts : TableSchema) (path : str) (cs : Constraints) (v : Z) : Prop := {
  tr_exec : exists e, st.1 !! name = Some e /\ te_ts e = ts /\
    te_circuit_aggs e !! sid = Some (mkCircuitAgg path cs v);
  tr_alone : agg_alone st.1 name sid path;
  tr_table : forall t, (t, sid) ∈ st.2 -> TableRef_as_str t = name;
  tr_nodup : NoDup st.2.*2
}.

Lemma fold_count_delta_tracked st d name sid ts path cs v :
  agg_tracked st name sid ts path cs v ->
  let hit := bool_decide (TableRef_as_str (cd_table d) = name /\ group_matches cs (cd_group d) = true) in
  agg_tracked (fold_count_delta st d) name sid ts path cs
    (if hit then wrap_i64 (v + cd_delta d) else v) /\
  (sid ∈ (fold_count_delta st d).2.*2 <-> sid ∈ st.2.*2 \/ hit = true).
Proof.
  intros [(e & He & Hts & Ha) Hal Ht Hnd] hit.
  pose proof (fold_count_delta_alone st d name sid path Hal) as Hal'.
  unfold fold_count_delta in *. set (n := TableRef_as_str (cd_table d)) in *.
  destruct (st.1 !! n) as [exec|] eqn:E.
  2: { assert (hit = false) as ->.
       { unfold hit. apply bool_decide_eq_false_2. intros [Hn _]. congruence. }
       split; [split; [by exists e|done..]|naive_solver]. }
  set (sids := (filter _ (entries (te_circuit_aggs exec))).*1).
  destruct (note_changed_fold (cd_table d) sids st.2 Hnd) as (N1 & N2 & N3).
  assert (Hsid : sid ∈ sids <-> hit = true).
  { unfold sids, hit. rewrite bool_decide_eq_true, list_elem_of_fmap. split.
    - intros ([s a] & -> & [Hm Hin%elem_of_map_to_list]%list_elem_of_filter). simpl in *.
      destruct (Hal n exec s a E Hin (or_introl eq_refl)) as [Hn _]. split; [done|].
      rewrite Hn, He in E. injection E as <-. rewrite Ha in Hin. by injection Hin as <-.
    - intros [Hn Hm]. rewrite Hn, He in E. injection E as <-. exists (sid, mkCircuitAgg path cs v).
      split; [done|]. apply list_elem_of_filter. split; [done|]. by apply elem_of_map_to_list. }
  cbn [fst snd] in *. split; [split; cbn [fst snd]; [|done| |done]|by rewrite N2, Hsid].
  - destruct (decide (n = name)) as [Hn|Hn].
    + rewrite Hn in *. rewrite He in E. injection E as <-. rewrite lookup_insert_eq.
      eexists. split; [done|]. split; [done|]. cbn [set_circuit_aggs te_circuit_aggs].
      rewrite lookup_fmap, Ha. cbn [fmap option_fmap option_map]. unfold bump_agg.
      cbn [ca_constraints ca_stream_path ca_value]. unfold hit.
      destruct (group_matches cs (cd_group d)) eqn:Em.
      * by rewrite bool_decide_eq_true_2.
      * rewrite bool_decide_eq_false_2; [done|naive_solver].
    + exists e. rewrite lookup_insert_ne by done. split_and!; [done..|].
      unfold hit. rewrite bool_decide_eq_false_2; [done|naive_solver].
  - intros t [Hx|[Hx Hs]]%N3; [by apply Ht|]. simpl in Hx, Hs. subst t.
    apply Hsid in Hs. unfold hit in Hs. by apply bool_decide_eq_true in Hs as [? _].
Qed.

Lemma fold_count_deltas_tracked ds : forall st name sid ts path cs v,
  agg_tracked st name sid ts path cs v ->
  agg_tracked (foldl fold_count_delta st ds) name sid ts path cs
    (foldl (λ acc d, wrap_i64 (acc + cd_delta d)) v (hits name cs ds)) /\
  (sid ∈ (foldl fold_count_delta st ds).2.*2 <-> sid ∈ st.2.*2 \/ hits name cs ds <> []).
Proof.
  unfold hits. induction ds as [|d ds IH]; intros st name sid ts path cs v H; cbn [foldl].
  - split; [done|]. rewrite filter_nil. naive_solver.
  - destruct (fold_count_delta_tracked st d name sid ts path cs v H) as [H1 H2].
    destruct (IH _ _ _ _ _ _ _ H1) as [H3 H4]. rewrite H4, H2, filter_cons. clear IH H H1 H2 H4.
    destruct (decide _) as [Hh|Hh].
    + rewrite bool_decide_eq_true_2 in * by done. cbn [foldl]. split; [done|]. naive_solver.
    + rewrite bool_decide_eq_false_2 in * by done. split; [done|]. naive_solver.
Qed.

(** The envelopes the second loop stages for one aggregate. *)
Lemma emit_count_tracked st name sid ts path cs v txid lsn p :
  agg_tracked st name sid ts path cs v ->
  emitted (foldl (emit_count st.1 txid lsn) p st.2) path = emitted p path ++
    (if bool_decide (sid ∈ st.2.*2)
     then [circuit_agg_envelope (mkCircuitAgg path cs v) (ts_table ts) txid lsn] else []).
Proof.
  intros [(e & He & Hts & Ha) Hal Ht Hnd].
  set (O := λ (x : TableRef * str) q,
    match st.1 !! TableRef_as_str x.1 with
    | Some e => match te_circuit_aggs e !! x.2 with
                | Some a => on_path (ca_stream_path a) [circuit_agg_envelope a (ts_table (te_ts e)) txid lsn] q
                | None => []
                end
    | None => []
    end).
  rewrite (stages_foldl (emit_count st.1 txid lsn) O st.2).
  2: { intros x _ p' q. unfold emit_count, O.
       destruct (st.1 !! TableRef_as_str x.1) as [e'|]; [|by rewrite app_nil_r].
       destruct (te_circuit_aggs e' !! x.2); [apply stages_stage|by rewrite app_nil_r]. }
  f_equal.
  assert (Hother : forall x, x ∈ st.2 -> x.2 <> sid -> O x path = []).
  { intros x Hx Hne. unfold O. destruct (st.1 !! TableRef_as_str x.1) as [e'|] eqn:E; [|done].
    destruct (te_circuit_aggs e' !! x.2) as [a|] eqn:E2; [|done]. unfold on_path.
    case_bool_decide as Hp; [|done]. exfalso. by destruct (Hal _ _ _ _ E E2 (or_intror Hp)). }
  case_bool_decide as Hin.
  - apply list_elem_of_fmap in Hin as ([t s] & -> & Hin). simpl in *.
    rewrite (concat_only _ _ (t, s)).
    + unfold O. simpl. rewrite (Ht t Hin), He, Ha, Hts. unfold on_path. by rewrite bool_decide_eq_true_2.
    + by eapply NoDup_fmap_1.
    + done.
    + intros [t' s'] Hin' Hne. apply Hother; [done|]. simpl. intros ->. apply Hne. f_equal.
      by eapply nodup_snd_inj.
  - apply concat_none. intros x Hx. apply Hother; [done|]. intros <-. apply Hin.
    apply list_elem_of_fmap. by exists x.
Qed.

(* ------------------------------------------------------------------ *)
(** ** One transaction *)

Section refine.
Context {FT : FloatText} {FE : FaultEnv} {D : Type} {CP : CountPipelines D} {CL : CountLaws D}.

(** The counts relation of a table is its grouping. *)
Definition tracks (d : D) (t : TableRef) (cols : list nat) (T : gmap str Row) : Prop :=
  forall g, cp_weight d t g = count_where (λ r, same_group g (project r cols)) T.

(** No delta is at or below the highwater the ones before it leave. *)
Fixpoint stamps_fresh (hw : option (Z * Z)) (sds : list StampedDelta) : Prop :=
  match sds with
  | [] => True
  | sd :: sds => stamp_seen (sd_stamp sd) hw = false /\ stamps_fresh (stamp_advance (sd_stamp sd) hw) sds
  end.

Definition projected (cols : list nat) (delta : Delta) : Delta :=
  (λ rw, (project rw.1 cols, rw.2)) <$> delta.

Lemma batch_feed_at counts t cols sds : forall hw,
  counts !! t = Some cols -> stamps_fresh hw sds ->
  concat (snd <$> filter (λ i, i.1 = t) (batch_feed counts hw sds).2) = projected cols (deltas_at t sds).
Proof.
  unfold deltas_at, projected.
  induction sds as [|sd sds IH]; intros hw Hc Hf; [done|]. destruct Hf as [Hs Hf]. cbn [batch_feed].
  rewrite Hs. specialize (IH _ Hc Hf). destruct (batch_feed _ _ sds) as [hw' fed]. cbn [snd] in *.
  rewrite (filter_cons _ sd). destruct (decide (sd_table sd = t)) as [<-|Hne].
  - csimpl. rewrite fmap_app, <- IH. case_bool_decide as Hd; [by rewrite Hd|].
    rewrite Hc, filter_cons_True by done. done.
  - case_bool_decide as Hd; [done|]. destruct (counts !! sd_table sd); [|done].
    by rewrite filter_cons_False.
Qed.

Lemma group_matches_rkey cs a b : rkey a = rkey b -> group_matches cs a = group_matches cs b.
Proof.
  intros H. apply eq_true_iff_eq. rewrite !group_matches_spec.
  assert (Hx : forall a b, rkey a = rkey b -> forall i v, a !! i = Some v ->
    exists w, b !! i = Some w /\ vkey w = vkey v).
  { clear. intros a b H i v Hi. assert (Hk : rkey b !! i = Some (vkey v)).
    { rewrite <- H. unfold rkey. by rewrite list_lookup_fmap, Hi. }
    unfold rkey in Hk. rewrite list_lookup_fmap in Hk. apply fmap_Some in Hk as (w & Hw & E). by exists w. }
  split; intros Hm i keys Hi; destruct (Hm i keys Hi) as (v & Hv & Hin).
  - destruct (Hx a b H i v Hv) as (w & Hw & E). exists w. by rewrite E.
  - destruct (Hx b a (eq_sym H) i v Hv) as (w & Hw & E). exists w. by rewrite E.
Qed.

Lemma drain_hits t name cs (f : Row -> Z) out :
  TableRef_as_str t = name ->
  (forall g vals, (g, vals) ∈ out -> group_delta vals = f g) ->
  sumZ (cd_delta <$> hits name cs (drain_count_deltas t out)) =
  sumZ (f <$> filter (λ g, group_matches cs g = true) out.*1).
Proof.
  intros Hn Hv. unfold hits, drain_count_deltas. induction out as [|[g vals] out IH]; [done|].
  csimpl. rewrite (Hv g vals) by (by left).
  specialize (IH (λ g' v' Hin, Hv g' v' (proj2 (elem_of_cons _ _ _) (or_intror Hin)))).
  rewrite (filter_cons _ g). destruct (Z.eqb_spec (f g) 0) as [E|E].
  - rewrite IH. destruct (decide _); [|done]. rewrite sumZ_fmap_cons. lia.
  - rewrite filter_cons. cbn [cd_table cd_group].
    destruct (decide (group_matches cs g = true)) as [Hm|Hm].
    + rewrite decide_True by done. rewrite !sumZ_fmap_cons, IH. done.
    + rewrite decide_False by naive_solver. done.
Qed.

Lemma hits_other t name cs out : TableRef_as_str t <> name -> hits name cs (drain_count_deltas t out) = [].
Proof.
  intros Hn. unfold hits. apply elem_of_nil_inv. intros d [[Hd _] Hin]%list_elem_of_filter.
  unfold drain_count_deltas in Hin. apply list_elem_of_omap in Hin as ([g vals] & _ & Hs).
  simpl in Hs. destruct (group_delta vals =? 0); [done|]. injection Hs as <-. done.
Qed.

Lemma hits_app name cs a b : hits name cs (a ++ b) = hits name cs a ++ hits name cs b.
Proof. apply filter_app. Qed.

(** Only the table's own drain counts. *)
Lemma hits_tables t cs out tables :
  NoDup tables -> t ∈ tables -> Forall TableRef_wf tables ->
  hits (TableRef_as_str t) cs (concat (map (λ t, drain_count_deltas t (out t)) tables)) =
  hits (TableRef_as_str t) cs (drain_count_deltas t (out t)).
Proof.
  intros Hnd Hin Hwf. rewrite Forall_forall in Hwf.
  assert (Hother : forall u, u ∈ tables -> u <> t ->
    hits (TableRef_as_str t) cs (drain_count_deltas u (out u)) = []).
  { intros u Hu Hne. apply hits_other. intros E. apply Hne. apply TableRef_as_str_inj; auto. }
  clear Hwf. induction Hnd as [|u us Hu Hnd IH]; [by apply elem_of_nil in Hin|]. simpl.
  rewrite hits_app. apply elem_of_cons in Hin as [<-|Hin].
  - assert (hits (TableRef_as_str t) cs (concat (map (λ t, drain_count_deltas t (out t)) us)) = []) as ->;
      [|by rewrite app_nil_r]. clear IH Hnd.
    induction us as [|w us IH]; [done|]. simpl. rewrite hits_app, Hother by set_solver. simpl.
    apply IH; [set_solver|]. intros v Hv. apply Hother. set_solver.
  - rewrite (Hother u) by set_solver. apply IH; [done|]. intros v Hv. apply Hother. by right.
Qed.

Definition small (T : gmap str Row) : Prop := Z.of_nat (size T) < i64_max.

Lemma count_where_diff P T T' : small T -> small T' -> in_i64 (count_where P T' - count_where P T).
Proof.
  intros H H'. pose proof (count_where_bound P T). pose proof (count_where_bound P T').
  unfold small, in_i64, i64_min, i64_max in *. lia.
Qed.

(** A committed batch keeps the grouping and drains the change of every matching sum. *)
Lemma apply_batch_counts ts (arr arr' : Arrangements D) t cols T T' sds deltas cs :
  map_Forall (λ t _, TableRef_wf t) (ar_counts arr) -> ar_counts arr !! t = Some cols ->
  tracks (ar_dbsp arr) t cols T -> table_ok ts T -> small T -> small T' ->
  table_feed ts t T sds T' -> stamps_fresh (ar_highwater arr) sds ->
  (forall fed, is_Some (cp_transaction (ar_dbsp arr) fed).2) ->
  apply_batch arr sds = (arr', deltas) ->
  tracks (ar_dbsp arr') t cols T' /\ ar_counts arr' = ar_counts arr /\
  sumZ (cd_delta <$> hits (TableRef_as_str t) cs deltas) =
    count_where (λ r, group_matches cs (project r cols)) T' -
    count_where (λ r, group_matches cs (project r cols)) T.
Proof.
  intros Hwf Hc Htr HT Hsm Hsm' Hfeed Hfresh Hcommit Hab.
  pose proof (λ P, count_where_feed ts t P T sds T' HT Hfeed) as Hcnt.
  assert (Hsame : deltas_at t sds = [] -> tracks (ar_dbsp arr) t cols T' /\
    0 = count_where (λ r, group_matches cs (project r cols)) T' -
        count_where (λ r, group_matches cs (project r cols)) T).
  { intros E. rewrite E in Hcnt. unfold weight_where in Hcnt. split; [intros g; rewrite Htr|];
      rewrite Hcnt; change (sumZ _) with 0; lia. }
  unfold apply_batch in Hab. case_bool_decide as Hnil.
  { injection Hab as <- <-. subst. destruct (Hsame eq_refl). by split_and!. }
  pose proof (batch_feed_at _ t cols sds _ Hc Hfresh) as Hfed.
  destruct (batch_feed _ _ sds) as [hw fed]. cbn [snd] in Hfed. case_bool_decide as Hfn.
  { injection Hab as <- <-. subst. symmetry in Hfed. apply fmap_nil_inv in Hfed.
    destruct (Hsame Hfed). by split_and!. }
  destruct (cp_transaction (ar_dbsp arr) fed) as [d' out] eqn:Et.
  destruct (Hcommit fed) as [out' Ho]. rewrite Et in Ho. simpl in Ho. subst out.
  injection Hab as <- <-. cbn [ar_dbsp ar_counts].
  assert (Hw : forall g, cp_weight d' t g = count_where (λ r, same_group g (project r cols)) T').
  { intros g. rewrite (cp_weight_step _ _ _ _ t g Et), Htr, Hcnt. f_equal. unfold fed_weight.
    rewrite Hfed. unfold projected. by rewrite (weight_where_map (same_group g) (λ r, project r cols)). }
  split_and!; [done..|].
  assert (Hin : t ∈ (map_to_list (ar_counts arr)).*1).
  { apply list_elem_of_fmap. exists (t, cols). split; [done|]. by apply elem_of_map_to_list. }
  rewrite hits_tables; [|apply NoDup_fst_map_to_list|done|].
  2: { apply Forall_forall. intros u ([v c] & -> & Hv%elem_of_map_to_list)%list_elem_of_fmap.
       by apply (Hwf v c). }
  destruct (cp_out_keys _ _ _ _ t Et) as [Hnd Hcov].
  rewrite (drain_hits t _ cs (λ g, weight_where (same_group g) (projected cols (deltas_at t sds)))); [|done|].
  - rewrite sum_groups_cover.
    + rewrite Hcnt. unfold projected. rewrite (weight_where_map (group_matches cs) (λ r, project r cols)). lia.
    + apply group_matches_rkey.
    + done.
    + intros g Hg. apply Hcov. rewrite (cp_weight_step _ _ _ _ t g Et). unfold fed_weight.
      rewrite Hfed. lia.
  - intros g vals Hv.
    assert (Hdiff : cp_weight d' t g - cp_weight (ar_dbsp arr) t g =
                    weight_where (same_group g) (projected cols (deltas_at t sds))).
    { rewrite (cp_weight_step _ _ _ _ t g Et). unfold fed_weight. rewrite Hfed. lia. }
    rewrite <- Hdiff. apply group_delta_counted; [by apply (cp_out_vals _ _ _ _ t g vals Et)|].
    rewrite Hw, Htr. by apply count_where_diff.
Qed.

Lemma count_where_matching pred T :
  count_where (λ r, matches pred r) T = Z.of_nat (length (matching_rows pred T)).
Proof. done. Qed.

Lemma count_where_ext P Q T : (forall r, P r = Q r) -> count_where P T = count_where Q T.
Proof.
  intros H. unfold count_where. f_equal. f_equal. apply list_filter_iff. intros r. by rewrite H.
Qed.

(** The aggregate [sid] is served: the counts relation is the table's grouping, and the aggregate
    holds the number of rows its WHERE accepts. *)
Record serves (arr : Arrangements D) (execs : gmap str TableExec) (ts : TableSchema) (t : TableRef)
    (cols : list nat) (T : gmap str Row) (sid path : str) (cs : Constraints)
    (pred : CompiledPredicate) : Prop := {
  sv_names : map_Forall (λ t _, TableRef_wf t) (ar_counts arr);
  sv_cols : ar_counts arr !! t = Some cols;
  sv_tracks : tracks (ar_dbsp arr) t cols T;
  sv_rows : table_ok ts T;
  sv_small : small T;
  sv_alone : agg_alone execs (TableRef_as_str t) sid path;
  sv_agg : exists exec, execs !! TableRef_as_str t = Some exec /\
    te_circuit_aggs exec !! sid =
      Some (mkCircuitAgg path cs (Z.of_nat (length (matching_rows pred T))))
}.

Lemma table_feed_ok ts t T sds T' : table_feed ts t T sds T' -> table_ok ts T -> table_ok ts T'.
Proof. induction 1; auto. intros HT. apply IHtable_feed. by eapply delta_table_ok. Qed.

Lemma count_in_i64 P T : small T -> in_i64 (count_where P T).
Proof.
  intros Hs. pose proof (count_where_bound P T). unfold small, in_i64, i64_min, i64_max in *. lia.
Qed.


Lemma weight_ones P (f : Row -> Row) rows :
  weight_where P ((λ r, (f r, 1)) <$> rows) = Z.of_nat (length (filter (λ r, P (f r) = true) rows)).
Proof.
  induction rows as [|r rs IH]; [done|]. rewrite fmap_cons, weight_where_cons, IH, filter_cons.
  destruct (P (f r)); simpl; lia.
Qed.

(** The sum over the snapshot of a group's entry. *)
Lemma snapshot_entry cs (g : Row) w :
  sumZ (snd <$> filter (λ gc : Row * Z, group_matches cs gc.1 = true)
    (omap (λ cw : Z * Z, if (0 <? cw.2) && negb (cw.1 =? 0) then Some (g, cw.1) else None)
       (counted 1 w))) =
  sumZ ((λ _, w) <$> filter (λ g, group_matches cs g = true) [g]).
Proof.
  unfold counted. rewrite (filter_cons _ g). destruct (Z.eqb_spec w 0) as [->|E]; simpl.
  - by destruct (decide _).
  - rewrite (proj2 (Z.eqb_neq w 0) E). simpl. rewrite filter_cons. simpl.
    by destruct (decide _).
Qed.

Lemma count_groups_sum arr t cols T cs groups :
  tracks (ar_dbsp arr) t cols T -> small T -> count_groups arr t = Some groups ->
  sum_groups cs groups = count_where (λ r, group_matches cs (project r cols)) T.
Proof.
  intros Htr Hsm Hg. unfold count_groups in Hg. destruct (is_seeded arr t); [|done]. simpl in Hg.
  destruct (ar_counts arr !! t); [|done]. injection Hg as <-. unfold sum_groups.
  rewrite foldl_wrap_0. set (rows := (λ r, (project r cols, 1)) <$> (map_to_list T).*2).
  assert (Hw : forall g, cp_weight (ar_dbsp arr) t g = weight_where (same_group g) rows).
  { intros g. rewrite Htr. unfold rows. by rewrite (weight_ones _ (λ r, project r cols)). }
  assert (E : sumZ (snd <$> filter (λ gc, group_matches cs gc.1 = true)
      (concat (map (λ gv : Row * list (Z * Z), omap (λ cw : Z * Z,
         if (0 <? cw.2) && negb (cw.1 =? 0) then Some (gv.1, cw.1) else None) gv.2)
       (cp_snapshot (ar_dbsp arr) t)))) =
    sumZ ((λ g, weight_where (same_group g) rows) <$>
          filter (λ g, group_matches cs g = true) (cp_snapshot (ar_dbsp arr) t).*1)).
  { pose proof (cp_snapshot_vals (ar_dbsp arr) t) as Hv.
    induction (cp_snapshot (ar_dbsp arr) t) as [|[g vals] es IH]; [done|].
    cbn [map concat fst snd]. rewrite filter_app, fmap_app, sumZ_app, IH by (intros; apply Hv; by right).
    rewrite fmap_cons. cbn [fst snd]. change (g :: es.*1) with ([g] ++ es.*1).
    rewrite filter_app, fmap_app, sumZ_app. f_equal.
    rewrite (Hv g vals), snapshot_entry, Hw by (by left).
    rewrite (filter_cons _ g). by destruct (decide _). }
  rewrite E, sum_groups_cover.
  - rewrite <- (wrap_i64_small (count_where _ T)) by (by apply count_in_i64).
    apply (f_equal wrap_i64). unfold rows. by rewrite (weight_ones _ (λ r, project r cols)).
  - apply group_matches_rkey.
  - apply cp_snapshot_keys.
  - intros g Hg. apply (proj2 (cp_snapshot_keys (ar_dbsp arr) t)). by rewrite Hw.
Qed.

(** creating a circuit-served COUNT on a seeded pipeline succeeds with the exact count: the
    aggregate placed in the table's executor, and the one envelope appended for it, hold the
    number of rows the compiled WHERE accepts; on a pipeline that is not seeded it is refused and
    no aggregate is placed. *)
Theorem create_circuit_agg_exact (arr : Arrangements D) execs execs1 tables t cols ts T sid path where_
    cs pred exec :
  plan_circuit_agg ts cols where_ = Some cs -> no_null cs -> compile_opt where_ ts = Ok pred ->
  ar_counts arr !! t = Some cols -> tracks (ar_dbsp arr) t cols T -> small T ->
  exec_for execs tables (TableRef_as_str t) = (execs1, Some exec) ->
  let n := Z.of_nat (length (matching_rows pred T)) in
  create_circuit_agg (Some arr) execs tables t sid path cs true =
  if is_seeded arr t then
    (<[TableRef_as_str t := set_circuit_aggs exec
         (<[sid := mkCircuitAgg path cs n]> (te_circuit_aggs exec))]> execs1,
     Ok (agg_envelope (ts_table (te_ts exec)) (JNumber (NInt n)) n None None))
  else (execs1, Err $"counts pipeline not ready").
Proof.
  intros Hplan Hnn Hcomp Hc Htr Hsm Hex n.
  destruct (plan_circuit_agg_spec ts cols where_ cs Hplan Hnn) as (pred' & Hcomp' & Hgm).
  assert (pred' = pred) as -> by congruence. unfold create_circuit_agg. rewrite Hex.
  destruct (count_groups arr t) as [groups|] eqn:Eg.
  - pose proof (count_groups_sum arr t cols T cs groups Htr Hsm Eg) as Hs.
    rewrite (count_where_ext _ (matches pred)) in Hs by done. rewrite Hs.
    unfold count_groups in Eg. by destruct (is_seeded arr t).
  - unfold count_groups in Eg. rewrite Hc in Eg. by destruct (is_seeded arr t).
Qed.
End refine.

(* ------------------------------------------------------------------ *)
(** ** The pipelines have a model *)

(** Weights by group, in a map. *)
Abbreviation MapCounts := (gmap TableRef (gmap Row Z)).

Definition mc_weight (d : MapCounts) (t : TableRef) (g : Row) : Z :=
  default 0 (default ∅ (d !! t) !! rkey g).
Definition mc_add (t : TableRef) (d : MapCounts) (gw : Row * Z) : MapCounts :=
  <[t := <[rkey gw.1 := mc_weight d t gw.1 + gw.2]> (default ∅ (d !! t))]> d.
Definition mc_feed (d : MapCounts) (i : TableRef * Delta) : MapCounts := foldl (mc_add i.1) d i.2.
Definition mc_groups (d : MapCounts) (t : TableRef) : list Row :=
  filter (λ g, rkey g = g) (map_to_list (default ∅ (d !! t))).*1.

#[export] Instance map_counts : CountPipelines MapCounts := {|
  cp_transaction d ins :=
    let d' := foldl mc_feed d ins in
    (d', Some (λ t, (λ g, (g, counted (-1) (mc_weight d t g) ++ counted 1 (mc_weight d' t g))) <$>
                    filter (λ g, mc_weight d' t g <> mc_weight d t g) (mc_groups d' t)));
  cp_snapshot d t := (λ g, (g, counted 1 (mc_weight d t g))) <$> mc_groups d t
|}.

Lemma mc_add_weight t d gw u g :
  mc_weight (mc_add t d gw) u g =
  mc_weight d u g + (if bool_decide (t = u) && same_group g gw.1 then gw.2 else 0).
Proof.
  unfold mc_add, mc_weight at 1, same_group. destruct (decide (t = u)) as [->|Ht].
  - rewrite lookup_insert_eq, (bool_decide_eq_true_2 (u = u)) by done. simpl.
    destruct (decide (rkey gw.1 = rkey g)) as [E|E].
    + rewrite E, lookup_insert_eq, bool_decide_eq_true_2 by done. simpl. unfold mc_weight. by rewrite E.
    + rewrite lookup_insert_ne, bool_decide_eq_false_2 by done. unfold mc_weight. lia.
  - rewrite lookup_insert_ne, (bool_decide_eq_false_2 (t = u)) by done. simpl. unfold mc_weight. lia.
Qed.

Lemma mc_feed_weight d i u g :
  mc_weight (mc_feed d i) u g =
  mc_weight d u g + (if bool_decide (i.1 = u) then weight_where (same_group g) i.2 else 0).
Proof.
  unfold mc_feed. destruct i as [t delta]. cbn [fst snd]. revert d.
  induction delta as [|[r w] delta IH]; intros d; cbn [foldl].
  - unfold weight_where. simpl. destruct (bool_decide _); unfold sumZ; simpl; lia.
  - rewrite IH, mc_add_weight, weight_where_cons. cbn [fst snd].
    destruct (bool_decide (t = u)), (same_group g r); simpl; lia.
Qed.

Lemma mc_transaction_weight ins : forall d u g,
  mc_weight (foldl mc_feed d ins) u g = mc_weight d u g + fed_weight ins u g.
Proof.
  induction ins as [|i ins IH]; intros d u g; cbn [foldl].
  - unfold fed_weight, weight_where, sumZ. simpl. lia.
  - rewrite IH, mc_feed_weight. unfold fed_weight. rewrite filter_cons.
    destruct (decide (i.1 = u)) as [E|E].
    + rewrite bool_decide_eq_true_2 by done. csimpl. rewrite weight_where_app. lia.
    + rewrite bool_decide_eq_false_2 by done. lia.
Qed.

Lemma nodup_normal l : NoDup l -> (forall g, g ∈ l -> rkey g = g) -> NoDup (rkey <$> l).
Proof.
  intros Hnd H. assert (E : rkey <$> l = l); [|by rewrite E].
  rewrite <- (list_fmap_id l) at 2. apply list_fmap_ext. intros i g Hg%list_elem_of_lookup_2. by apply H.
Qed.

Lemma mc_groups_nodup d t : NoDup (mc_groups d t).
Proof. apply NoDup_filter, NoDup_fst_map_to_list. Qed.

Lemma mc_groups_normal d t g : g ∈ mc_groups d t -> rkey g = g.
Proof. unfold mc_groups. by intros [? _]%list_elem_of_filter. Qed.

Lemma mc_groups_cover d t g : mc_weight d t g <> 0 -> rkey g ∈ mc_groups d t.
Proof.
  unfold mc_weight, mc_groups. intros H. apply list_elem_of_filter. split; [apply rkey_idemp|].
  destruct (default ∅ (d !! t) !! rkey g) as [w|] eqn:E; [|done]. apply list_elem_of_fmap.
  exists (rkey g, w). split; [done|]. by apply elem_of_map_to_list.
Qed.

Lemma in_groups_elem K g : rkey g ∈ K -> in_groups K g = true.
Proof.
  intros H. apply in_groups_true, list_elem_of_fmap. exists (rkey g). by rewrite rkey_idemp.
Qed.

Lemma mc_weight_rkey d t g : mc_weight d t (rkey g) = mc_weight d t g.
Proof. unfold mc_weight. by rewrite rkey_idemp. Qed.

Lemma mc_add_dom t d gw u g :
  g ∈ (map_to_list (default ∅ (d !! u))).*1 -> g ∈ (map_to_list (default ∅ (mc_add t d gw !! u))).*1.
Proof.
  intros ([k w] & -> & H%elem_of_map_to_list)%list_elem_of_fmap. apply list_elem_of_fmap. unfold mc_add.
  destruct (decide (t = u)) as [->|Ht].
  - rewrite lookup_insert_eq. cbn [default from_option id].
    destruct (decide (rkey gw.1 = k)) as [E|E].
    + exists (k, mc_weight d u gw.1 + gw.2). split; [done|]. apply elem_of_map_to_list.
      by rewrite E, lookup_insert_eq.
    + exists (k, w). split; [done|]. apply elem_of_map_to_list. by rewrite lookup_insert_ne.
  - exists (k, w). split; [done|]. apply elem_of_map_to_list. by rewrite lookup_insert_ne.
Qed.

Lemma mc_feed_groups d ins t g : g ∈ mc_groups d t -> g ∈ mc_groups (foldl mc_feed d ins) t.
Proof.
  unfold mc_groups. rewrite !list_elem_of_filter. intros [Hn H]. split; [done|]. revert d H.
  induction ins as [|i ins IH]; intros d H; [done|]. cbn [foldl]. apply IH. unfold mc_feed.
  revert d H. induction i.2 as [|gw delta IHd]; intros d H; [done|]. cbn [foldl].
  by apply IHd, mc_add_dom.
Qed.

Lemma fmap_fst_pair {A B} (f : A -> B) l : ((λ x, (x, f x)) <$> l).*1 = l.
Proof. induction l as [|x l IH]; csimpl; [done|]. by rewrite IH. Qed.

#[export] Instance map_counts_laws : CountLaws MapCounts.
Proof.
  refine {| cp_weight := mc_weight |}.
  - intros d ins d' out t g [= <- _]. apply mc_transaction_weight.
  - intros d ins d' out t [= <- <-]. cbn [cp_snapshot map_counts]. rewrite fmap_fst_pair. split.
    + apply nodup_normal; [apply NoDup_filter, mc_groups_nodup|].
      intros g [_ Hg]%list_elem_of_filter. by eapply mc_groups_normal.
    + intros g Hg. apply in_groups_elem, list_elem_of_filter. rewrite !mc_weight_rkey. split; [done|].
      destruct (decide (mc_weight (foldl mc_feed d ins) t g = 0)) as [E|E]; [|by apply mc_groups_cover].
      apply mc_feed_groups, mc_groups_cover. congruence.
  - intros d ins d' out t g vals [= <- <-] (k & [= <- ->] & _)%list_elem_of_fmap. done.
  - intros d t. simpl. cbn [cp_snapshot map_counts]. rewrite fmap_fst_pair. split.
    + apply nodup_normal; [apply mc_groups_nodup|]. intros g Hg. by eapply mc_groups_normal.
    + intros g Hg. by apply in_groups_elem, mc_groups_cover.
  - intros d t g vals (k & [= <- ->] & _)%list_elem_of_fmap. done.
Defined.
