(* ===== verification/RuntimeAuthority.v ===== *)
(** * Runtime drain receipts ([src/apps/engine/src/runtime_authority.rs])

    The bounded, expiring cache of receipts for authority markers that travelled the change log, and
    the staging of a transaction's fences.  UUIDs are the [uuid] crate's: an interface ([UuidText])
    with its documented parse/print laws.  Instants are seconds. *)

From S2P Require Import Prelude BTree Value TableRef Schema Predicate Output ChangeLog.
From stdpp Require Import base option numbers strings gmap fin_maps sorting list.
#[local] Open Scope Z_scope.

(* ------------------------------------------------------------------ *)
(** ** Markers and fences *)

Definition RUNTIME_ENVELOPE_TYPE : str := $"__circuits.runtime_authority_fence".
Definition RECEIPT_CAPACITY : nat := Z.to_nat 65536.
Definition RECEIPT_TTL : Z := 600.

(** [uuid::Uuid]: [parse_str] accepts several spellings, [to_string] prints the hyphenated
    lower-case one, which parses back. *)
Class UuidText (U : Type) := {
  uuid_eq_dec :: EqDecision U;
  uuid_parse : str -> option U;
  uuid_to_string : U -> str;
  uuid_parse_to_string : forall u, uuid_parse (uuid_to_string u) = Some u;
  uuid_length : forall u, byte_len (uuid_to_string u) = 36
}.

Record AuthorityMarker : Type := mkMarker {
  am_source_commit_id : str;
  am_user_id : str;
  am_generation : str
}.

#[export] Instance AuthorityMarker_eq_dec : EqDecision AuthorityMarker.
Proof. solve_decision. Defined.
#[export] Instance AuthorityMarker_countable : Countable AuthorityMarker.
Proof.
  refine (inj_countable' (λ m, (am_source_commit_id m, am_user_id m, am_generation m))
            (λ t, mkMarker t.1.1 t.1.2 t.2) _); by intros [].
Defined.

Section authority.
Context {U : Type} {UT : UuidText U}.

(** The two checks of [AuthorityMarker::parse]. *)
Definition canonical_uuid (value : str) : bool :=
  (byte_len value =? 36) &&
  match uuid_parse value with
  | Some u => bool_decide (uuid_to_string u = value)
  | None => false
  end.
Definition generation_ok (generation : str) : bool :=
  (byte_len generation =? 64) &&
  forallb (λ c, is_ascii_digit c || ((97 <=? c)%N && (c <=? 102)%N)) generation.

(** [AuthorityMarker::parse]. *)
Definition AuthorityMarker_parse (source_commit_id user_id generation : str)
  : option AuthorityMarker :=
  if negb (canonical_uuid source_commit_id) || negb (canonical_uuid user_id) then None
  else if negb (generation_ok generation) then None
  else Some (mkMarker source_commit_id user_id generation).

Record RuntimeFence : Type := mkFence { rf_marker : AuthorityMarker; rf_incarnation : U }.

(** [RuntimeFence::into_envelope]. *)
Definition into_envelope (f : RuntimeFence) : Envelope :=
  let m := rf_marker f in
  mkEnvelope RUNTIME_ENVELOPE_TYPE (am_source_commit_id m)
    (Some (JObject
      (obj_insert $"incarnation" (JString (uuid_to_string (rf_incarnation f)))
      (obj_insert $"generation" (JString (am_generation m))
      (obj_insert $"userId" (JString (am_user_id m))
      (obj_insert $"sourceCommitId" (JString (am_source_commit_id m)) []))))))
    None (mkHeaders $"runtime_authority_fence" None None None None None).

(** [RuntimeFence::from_envelope]. *)
Definition from_envelope (env : Envelope) : option RuntimeFence :=
  if negb (bool_decide (e_type env = RUNTIME_ENVELOPE_TYPE)) then None
  else
    value ← e_value env;
    sc ← get_str $"sourceCommitId" value;
    user ← get_str $"userId" value;
    generation ← get_str $"generation" value;
    marker ← AuthorityMarker_parse sc user generation;
    inc ← get_str $"incarnation" value;
    incarnation ← uuid_parse inc;
    if bool_decide (e_key env = am_source_commit_id marker) then Some (mkFence marker incarnation)
    else None.

(* ---------------------------------------------------------------- *)
(** ** The receipt cache *)

(** A receipt is its marker (the key) with the commit position, and when it was stored. *)
Record RuntimeReceipts : Type := mkReceipts {
  rr_incarnation : U;
  rr_receipts : gmap AuthorityMarker (str * Z);
  rr_fifo : list AuthorityMarker
}.

(** [RuntimeReceipts::invalidate]; [fresh] is the new random identifier. *)
Definition invalidate (fresh : U) (r : RuntimeReceipts) : RuntimeReceipts := mkReceipts fresh ∅ [].

(** [remove_oldest]. *)
Definition remove_oldest (r : RuntimeReceipts) : RuntimeReceipts :=
  match rr_fifo r with
  | [] => r
  | m :: fifo => mkReceipts (rr_incarnation r) (delete m (rr_receipts r)) fifo
  end.

(** The condition of [expire] on the front. *)
Definition expired (now : Z) (r : RuntimeReceipts) (m : AuthorityMarker) : bool :=
  match rr_receipts r !! m with
  | None => true
  | Some (_, inserted) => RECEIPT_TTL <=? Z.max 0 (now - inserted)
  end.

(** [expire]: the loop removes from the front while it is expired. *)
Fixpoint expire_loop (fuel : nat) (now : Z) (r : RuntimeReceipts) : RuntimeReceipts :=
  match fuel with
  | O => r
  | S fuel =>
      match rr_fifo r with
      | m :: _ => if expired now r m then expire_loop fuel now (remove_oldest r) else r
      | [] => r
      end
  end.
Definition expire (now : Z) (r : RuntimeReceipts) : RuntimeReceipts :=
  expire_loop (length (rr_fifo r)) now r.

(** [get]. *)
Definition receipt_get (r : RuntimeReceipts) (marker : AuthorityMarker) (now : Z)
  : RuntimeReceipts * option str :=
  let r := expire now r in (r, fst <$> rr_receipts r !! marker).

(** The loop body of [publish]. *)
Definition publish_fence (commit_lsn : str) (now : Z) (r : RuntimeReceipts) (f : RuntimeFence)
  : RuntimeReceipts :=
  if negb (bool_decide (rf_incarnation f = rr_incarnation r)) ||
     bool_decide (is_Some (rr_receipts r !! rf_marker f)) then r
  else
    let r := if (length (rr_fifo r) =? RECEIPT_CAPACITY)%nat then remove_oldest r else r in
    mkReceipts (rr_incarnation r) (<[rf_marker f := (commit_lsn, now)]> (rr_receipts r))
               (rr_fifo r ++ [rf_marker f]).

(** [publish]. *)
Definition publish (r : RuntimeReceipts) (transaction_incarnation : U) (fences : list RuntimeFence)
    (commit_lsn : str) (now : Z) : RuntimeReceipts :=
  if negb (bool_decide (transaction_incarnation = rr_incarnation r)) then r
  else foldl (publish_fence commit_lsn now) (expire now r) fences.

(** [PendingRuntimeFences]: the staged fences and whether some were refused. *)
Record PendingRuntimeFences : Type := mkFences {
  pf_fences : list RuntimeFence;
  pf_overflowed : bool
}.
Definition no_fences : PendingRuntimeFences := mkFences [] false.
Definition stage_fence (p : PendingRuntimeFences) (env : Envelope) (incarnation : U)
  : PendingRuntimeFences :=
  if (length (pf_fences p) =? RECEIPT_CAPACITY)%nat then mkFences (pf_fences p) true
  else match from_envelope env with
       | Some f => if bool_decide (rf_incarnation f = incarnation)
                   then mkFences (pf_fences p ++ [f]) (pf_overflowed p) else p
       | None => p
       end.

(* ================================================================ *)
(** * Properties *)

Lemma canonical_uuid_to_string u : canonical_uuid (uuid_to_string u) = true.
Proof.
  unfold canonical_uuid. rewrite uuid_length, uuid_parse_to_string. simpl. by rewrite bool_decide_eq_true_2.
Qed.

Lemma CAPACITY_pos : (0 < RECEIPT_CAPACITY)%nat.
Proof. unfold RECEIPT_CAPACITY. lia. Qed.

(** What [AuthorityMarker::parse] accepts. *)
Definition marker_ok (m : AuthorityMarker) : Prop :=
  canonical_uuid (am_source_commit_id m) = true /\ canonical_uuid (am_user_id m) = true /\
  generation_ok (am_generation m) = true.

Lemma marker_parse_ok m : marker_ok m <->
  AuthorityMarker_parse (am_source_commit_id m) (am_user_id m) (am_generation m) = Some m.
Proof.
  unfold AuthorityMarker_parse, marker_ok. destruct m as [s u g]; simpl.
  destruct (canonical_uuid s), (canonical_uuid u), (generation_ok g); simpl; naive_solver.
Qed.

(** The cache's invariant. *)
Record receipts_ok (r : RuntimeReceipts) : Prop := {
  ro_nodup : NoDup (rr_fifo r);
  ro_dom : forall m, is_Some (rr_receipts r !! m) <-> m ∈ rr_fifo r;
  ro_bound : (length (rr_fifo r) <= RECEIPT_CAPACITY)%nat
}.

Lemma invalidate_ok fresh r : receipts_ok (invalidate fresh r).
Proof.
  split; simpl; [constructor| |lia]. intros m. rewrite lookup_empty. split; [by intros []|set_solver].
Qed.

Lemma remove_oldest_ok r : receipts_ok r -> receipts_ok (remove_oldest r).
Proof.
  intros [Hnd Hdom Hb]. unfold remove_oldest. destruct (rr_fifo r) as [|m fifo] eqn:E.
  { by split; rewrite E. }
  apply NoDup_cons in Hnd as [Hm Hnd]. split; simpl in *; [done| |lia].
  intros n. destruct (decide (n = m)) as [->|Hn].
  - rewrite lookup_delete_eq. split; [by intros []|done].
  - rewrite lookup_delete_ne by done. rewrite Hdom, elem_of_cons. naive_solver.
Qed.

Lemma expire_loop_ok fuel now : forall r, receipts_ok r -> receipts_ok (expire_loop fuel now r).
Proof.
  induction fuel as [|fuel IH]; intros r Hr; [done|]. simpl.
  destruct (rr_fifo r); [done|]. destruct (expired now r a); [|done]. by apply IH, remove_oldest_ok.
Qed.

Lemma publish_fence_ok lsn now r f : receipts_ok r -> receipts_ok (publish_fence lsn now r f).
Proof.
  intros Hr. unfold publish_fence. destruct (bool_decide (rf_incarnation f = _)); [|done].
  simpl. case_bool_decide as Hin; [done|].
  set (r1 := if (length (rr_fifo r) =? RECEIPT_CAPACITY)%nat then remove_oldest r else r).
  assert (Hr1 : receipts_ok r1 /\ (length (rr_fifo r1) < RECEIPT_CAPACITY)%nat /\
                rr_receipts r1 !! rf_marker f = None).
  { unfold r1. destruct (Nat.eqb_spec (length (rr_fifo r)) RECEIPT_CAPACITY) as [E|E].
    - split; [by apply remove_oldest_ok|]. unfold remove_oldest.
      destruct (rr_fifo r) as [|m fifo] eqn:Ef; [simpl in E; pose proof CAPACITY_pos; lia|]. simpl in *. split; [lia|].
      destruct (decide (m = rf_marker f)) as [->|Hm]; [apply lookup_delete_eq|].
      rewrite lookup_delete_ne by done. by apply eq_None_not_Some.
    - pose proof (ro_bound r Hr). split_and!; [done|lia|by apply eq_None_not_Some]. }
  clearbody r1. destruct Hr1 as ([Hnd Hdom Hb] & Hlt & Hn). split; simpl.
  - apply NoDup_app. split_and!; [done| |apply NoDup_singleton]. intros m Hm ->%list_elem_of_singleton.
    apply Hdom in Hm as [? Hm]. congruence.
  - intros m. rewrite elem_of_app, list_elem_of_singleton.
    destruct (decide (m = rf_marker f)) as [->|Hm].
    + rewrite lookup_insert_eq. naive_solver.
    + rewrite lookup_insert_ne by done. rewrite Hdom. naive_solver.
  - rewrite length_app. simpl. lia.
Qed.

Lemma expire_ok now r : receipts_ok r -> receipts_ok (expire now r).
Proof. apply expire_loop_ok. Qed.

Lemma publish_loop_ok lsn now fences : forall r,
  receipts_ok r -> receipts_ok (foldl (publish_fence lsn now) r fences).
Proof. induction fences as [|f fences IH]; intros r Hr; simpl; auto using publish_fence_ok. Qed.

Lemma publish_fence_incarnation lsn now r f :
  rr_incarnation (publish_fence lsn now r f) = rr_incarnation r.
Proof.
  unfold publish_fence. destruct (_ || _); [done|]. simpl.
  destruct (_ =? _)%nat; [|done]. unfold remove_oldest. by destruct (rr_fifo r).
Qed.

Lemma expire_loop_sub fuel now : forall r m x, rr_receipts (expire_loop fuel now r) !! m = Some x ->
  rr_receipts r !! m = Some x.
Proof.
  induction fuel as [|fuel IH]; intros r m x; [done|]. simpl. destruct (rr_fifo r) as [|n fifo] eqn:E; [done|].
  destruct (expired now r n); [|done]. intros H%IH. unfold remove_oldest in H. rewrite E in H. simpl in H.
  by apply lookup_delete_Some in H as [_ H].
Qed.

(** A new receipt is for a fence of the batch stamped with the current incarnation. *)
Lemma publish_fence_new lsn now r f m x :
  rr_receipts (publish_fence lsn now r f) !! m = Some x ->
  rr_receipts r !! m = Some x \/
  x = (lsn, now) /\ rf_marker f = m /\ rf_incarnation f = rr_incarnation r.
Proof.
  unfold publish_fence. destruct (bool_decide (rf_incarnation f = _)) eqn:Ei; [|by left].
  apply bool_decide_eq_true in Ei. simpl. case_bool_decide as Hin; [by left|]. simpl.
  intros [[<- <-]|[Hne H]]%lookup_insert_Some; [by right|left].
  destruct (_ =? _)%nat; [|done]. unfold remove_oldest in H.
  destruct (rr_fifo r); [done|]. simpl in H. by apply lookup_delete_Some in H as [_ H].
Qed.

Lemma publish_loop_new lsn now fences : forall r m x,
  rr_receipts (foldl (publish_fence lsn now) r fences) !! m = Some x ->
  rr_receipts r !! m = Some x \/
  x = (lsn, now) /\ exists f, f ∈ fences /\ rf_marker f = m /\ rf_incarnation f = rr_incarnation r.
Proof.
  induction fences as [|f fences IH]; intros r m x H; [by left|]. simpl in H.
  apply IH in H as [H|(-> & g & Hg & Hm & Hi)].
  - apply publish_fence_new in H as [H|(-> & Hm & Hi)]; [by left|right].
    split; [done|]. exists f. by split; [left|].
  - rewrite publish_fence_incarnation in Hi. right. split; [done|]. exists g. by split; [right|].
Qed.

Lemma ss_impl {A} (R1 R2 : A -> A -> Prop) l :
  (forall x y, R1 x y -> R2 x y) -> StronglySorted R1 l -> StronglySorted R2 l.
Proof.
  intros H. induction 1 as [|x l _ IH Hx]; constructor; [done|]. eapply Forall_impl; [exact Hx|auto].
Qed.

(** An expired receipt sits behind the front only if the front is not expired: with receipts
    stored in time order, what [expire] leaves is current. *)
Definition time_ordered (r : RuntimeReceipts) : Prop :=
  StronglySorted (λ m n, forall a b, rr_receipts r !! m = Some a -> rr_receipts r !! n = Some b -> a.2 <= b.2)
    (rr_fifo r).

Lemma expire_loop_current fuel now : forall r, receipts_ok r -> time_ordered r ->
  (length (rr_fifo r) <= fuel)%nat ->
  forall m x, rr_receipts (expire_loop fuel now r) !! m = Some x -> now - x.2 < RECEIPT_TTL.
Proof.
  induction fuel as [|fuel IH]; intros r Hok Ht Hf m x Hx.
  - destruct (proj1 (ro_dom r Hok m)) as []; [by eexists|..];
      destruct (rr_fifo r); simpl in Hf; try lia; by eapply not_elem_of_nil.
  - simpl in Hx. destruct (rr_fifo r) as [|n fifo] eqn:E.
    { destruct (not_elem_of_nil m). rewrite <- E. apply (ro_dom r Hok). by eexists. }
    assert (Hn : is_Some (rr_receipts r !! n)) by (apply (ro_dom r Hok); rewrite E; by left).
    destruct (expired now r n) eqn:Ee.
    + apply IH in Hx; [done|by apply remove_oldest_ok| |].
      * unfold time_ordered, remove_oldest. rewrite E. simpl. unfold time_ordered in Ht. rewrite E in Ht.
        apply StronglySorted_inv in Ht as [Ht _]. eapply ss_impl; [|exact Ht].
        intros a b H c d [_ Hc]%lookup_delete_Some [_ Hd]%lookup_delete_Some. by apply H.
      * unfold remove_oldest. rewrite E. simpl in *. lia.
    + destruct Hn as [[l i] Hn]. unfold expired in Ee. rewrite Hn in Ee. apply Z.leb_gt in Ee.
      assert (Hm : m ∈ n :: fifo) by (rewrite <- E; apply (ro_dom r Hok); by eexists).
      unfold time_ordered in Ht. rewrite E in Ht. apply StronglySorted_inv in Ht as [_ Ht].
      apply elem_of_cons in Hm as [->|Hm].
      * rewrite Hn in Hx. injection Hx as <-. simpl. lia.
      * rewrite Forall_forall in Ht. specialize (Ht m Hm _ _ Hn Hx). simpl in Ht. lia.
Qed.

(** The cache between two operations, the last at time [now]. *)
Record cache_ok (now : Z) (r : RuntimeReceipts) : Prop := {
  co_ok : receipts_ok r;
  co_time : time_ordered r;
  co_now : forall m x, rr_receipts r !! m = Some x -> x.2 <= now
}.

Lemma cache_ok_later now now' r : now <= now' -> cache_ok now r -> cache_ok now' r.
Proof. intros Hle [H1 H2 H3]. split; [done..|]. intros m x Hx%H3. lia. Qed.

Lemma remove_oldest_cache now r : cache_ok now r -> cache_ok now (remove_oldest r).
Proof.
  intros [H1 H2 H3]. split; [by apply remove_oldest_ok|..]; unfold remove_oldest, time_ordered in *;
    destruct (rr_fifo r) as [|n fifo] eqn:E; simpl; try done; try by rewrite E.
  - apply StronglySorted_inv in H2 as [H2 _]. eapply ss_impl; [|exact H2].
    intros a b H c d [_ Hc]%lookup_delete_Some [_ Hd]%lookup_delete_Some. by apply H.
  - intros m x [_ Hx]%lookup_delete_Some. by eapply H3.
Qed.

Lemma expire_cache fuel now : forall r, cache_ok now r -> cache_ok now (expire_loop fuel now r).
Proof.
  induction fuel as [|fuel IH]; intros r Hr; [done|]. simpl.
  destruct (rr_fifo r); [done|]. destruct (expired now r a); [|done]. by apply IH, remove_oldest_cache.
Qed.

Lemma insert_time now r m lsn :
  cache_ok now r -> m ∉ rr_fifo r ->
  time_ordered (mkReceipts (rr_incarnation r) (<[m := (lsn, now)]> (rr_receipts r)) (rr_fifo r ++ [m])).
Proof.
  intros [H1 H2 H3] Hm. unfold time_ordered in *. simpl.
  assert (Hnew : forall a b, rr_receipts r !! m = None ->
    <[m := (lsn, now)]> (rr_receipts r) !! a = Some b -> b.2 <= now).
  { intros a b _ [[_ <-]|[_ Hb]]%lookup_insert_Some; simpl; [lia|by eapply H3]. }
  assert (Hnone : rr_receipts r !! m = None).
  { apply eq_None_not_Some. by rewrite (ro_dom r H1). }
  induction (rr_fifo r) as [|n fifo IH]; simpl; [repeat constructor|].
  apply StronglySorted_inv in H2 as [H2 Hn]. apply not_elem_of_cons in Hm as [Hne Hm].
  constructor; [by apply IH|]. apply Forall_app. split.
  - eapply Forall_impl; [exact Hn|]. intros k Hk a b Ha Hb. simpl in *.
    rewrite lookup_insert_ne in Ha by done.
    destruct (decide (k = m)) as [->|Hkm].
    + rewrite lookup_insert_eq in Hb. injection Hb as <-. by apply (H3 n).
    + rewrite lookup_insert_ne in Hb by done. by apply Hk.
  - repeat constructor. intros a b Ha Hb. rewrite lookup_insert_eq in Hb. injection Hb as <-.
    by eapply Hnew.
Qed.

Lemma publish_fence_cache lsn now r f : cache_ok now r -> cache_ok now (publish_fence lsn now r f).
Proof.
  intros Hr. pose proof (publish_fence_ok lsn now r f (co_ok now r Hr)) as Hok.
  unfold publish_fence in *. destruct (bool_decide (rf_incarnation f = _)); [|done].
  simpl in *. case_bool_decide as Hin; [done|]. simpl in *.
  set (r1 := if (length (rr_fifo r) =? RECEIPT_CAPACITY)%nat then remove_oldest r else r) in *.
  assert (Hr1 : cache_ok now r1) by (unfold r1; destruct (_ =? _)%nat; auto using remove_oldest_cache).
  clearbody r1. split; [done| |].
  - apply insert_time; [done|]. pose proof (ro_nodup _ Hok) as Hnd. simpl in Hnd.
    apply NoDup_app in Hnd as (_ & Hnd & _). intros Hm. by apply (Hnd _ Hm), list_elem_of_singleton.
  - simpl. intros m x [[_ <-]|[_ Hx]]%lookup_insert_Some; simpl; [lia|]. by eapply (co_now now r1).
Qed.

Lemma publish_cache r tinc fences lsn now : cache_ok now r -> cache_ok now (publish r tinc fences lsn now).
Proof.
  intros Hr. unfold publish. destruct (negb _); [done|]. apply (expire_cache (length (rr_fifo r)) now) in Hr.
  unfold expire. revert Hr. generalize (expire_loop (length (rr_fifo r)) now r).
  induction fences as [|f fences IH]; intros r' Hr; simpl; auto using publish_fence_cache.
Qed.

(** a runtime fence survives the change log: a fence with a valid marker, sent as its envelope,
    is read back as the same fence (same marker, same incarnation). *)
Theorem fence_envelope_roundtrip f :
  marker_ok (rf_marker f) -> from_envelope (into_envelope f) = Some f.
Proof.
  intros Hm%marker_parse_ok. destruct f as [[s u g] inc]. unfold from_envelope, into_envelope. simpl in *.
  rewrite Hm. simpl. rewrite uuid_parse_to_string. simpl. by rewrite bool_decide_eq_true_2.
Qed.

(** the receipt cache is bounded, expiring and fenced.  From a well-formed cache, [publish]
    leaves one (the queue lists exactly the stored markers, each once, at most 65,536 of them, in
    storing order); what it adds are receipts of this call for fences of the batch that carry the
    cache's own incarnation, and only when the transaction does too; and [get] answers only
    receipts younger than the 600 s time to live. *)
Theorem receipt_cache_sound r tinc fences lsn t now marker :
  cache_ok t r -> t <= now ->
  let r' := publish r tinc fences lsn now in
  cache_ok now r' /\ (length (rr_fifo r') <= RECEIPT_CAPACITY)%nat /\
  (forall m x, rr_receipts r' !! m = Some x ->
     rr_receipts r !! m = Some x \/
     x = (lsn, now) /\ tinc = rr_incarnation r /\
     exists f, f ∈ fences /\ rf_marker f = m /\ rf_incarnation f = rr_incarnation r) /\
  (forall answer, (receipt_get r marker now).2 = Some answer ->
     exists inserted, rr_receipts r !! marker = Some (answer, inserted) /\
                      now - inserted < RECEIPT_TTL).
Proof.
  intros Hr Hle r'. apply (cache_ok_later t now r Hle) in Hr.
  pose proof (publish_cache r tinc fences lsn now Hr) as Hr'. split_and!.
  - done.
  - apply (ro_bound _ (co_ok _ _ Hr')).
  - intros m x Hx. unfold r', publish in Hx. case_bool_decide as Hi; simpl in Hx; [|by left].
    apply publish_loop_new in Hx as [Hx|(-> & f & Hf & Hm & Hfi)].
    + left. by eapply expire_loop_sub.
    + right. split_and!; [done..|]. exists f. split_and!; [done..|].
      rewrite Hfi. unfold expire. clear. generalize (length (rr_fifo r)). intros fuel. revert r.
      induction fuel as [|fuel IH]; intros r; [done|]. simpl. destruct (rr_fifo r) eqn:E; [done|].
      destruct (expired now r a); [|done]. rewrite IH. unfold remove_oldest. by rewrite E.
  - intros answer Ha. unfold receipt_get in Ha. simpl in Ha.
    apply fmap_Some in Ha as ([a i] & Hx & ->). exists i. split; [by eapply expire_loop_sub|].
    by apply (expire_loop_current (length (rr_fifo r)) now r (co_ok _ _ Hr) (co_time _ _ Hr) ltac:(lia)
      marker (a, i)).
Qed.
End authority.
