(* ===== verification/Txn.v ===== *)
(** * One source transaction ([src/apps/engine/src/engine/sequencer.rs], [sequencer_loop])

    The body of the loop over transactions: the feed of the counts pipelines, the de-duplication
    against the [(lsn, seq)] highwater, the two kinds of drain fence, before-image stamping,
    buffering for pending shapes, the fan-out, the count deltas and the single flush at the
    transaction's end.  A failed envelope fails the transaction: nothing it staged is flushed and the
    highwater is the one it started from.

    Waiting for the deferred effects and the durable catalog append are outside this state: their
    outcomes are parameters ([effects_ok], [catalog_ok]), and so is the clock. *)

From S2P Require Import Prelude BTree Value TableRef Schema Predicate PredicateFacts Gate Output.
From S2P Require Import Executors Aggregates Refine ChangeLog Sequencer SequencerFacts Planning Counts.
From S2P Require Import RuntimeAuthority.
From stdpp Require Import base option numbers strings gmap fin_maps sorting list.
#[local] Open Scope Z_scope.

Definition SOURCE_FENCE_ENVELOPE : str := $"__circuits.source_fence".

(** The stamps of an envelope the highwater orders. *)
Definition env_pos (env : Envelope) : option (Z * Z) :=
  match h_lsn (e_headers env), h_seq (e_headers env) with
  | Some l, Some seq => Some (lsn_to_u64 l, seq)
  | _, _ => None
  end.

Definition is_duplicate (hw : option (Z * Z)) (env : Envelope) : bool :=
  match env_pos env, hw with Some p, Some h => stamp_le p h | _, _ => false end.
Definition advance (hw : option (Z * Z)) (env : Envelope) : option (Z * Z) :=
  match env_pos env with Some p => Some p | None => hw end.

(** ** Source receipts' order *)

(** [SourceReceiptProgress] of [src/apps/engine/src/engine/mod.rs]. *)
Record SourceReceiptProgress : Type := mkProgress {
  sp_next_sequence : Z;
  sp_sequences : gmap str Z;
  sp_closure_watermark : option Z
}.

(** [record], [record_restored], [snapshot_closure], [clear_closure], [is_after_closure]. *)
Definition progress_record (id : str) (p : SourceReceiptProgress) : SourceReceiptProgress :=
  match sp_sequences p !! id with
  | Some _ => p
  | None => mkProgress (sp_next_sequence p + 1) (<[id := sp_next_sequence p + 1]> (sp_sequences p))
              (sp_closure_watermark p)
  end.
Definition progress_record_restored (id : str) (p : SourceReceiptProgress) : SourceReceiptProgress :=
  match sp_sequences p !! id with
  | Some _ => p
  | None =>
      match sp_closure_watermark p with
      | Some watermark => mkProgress (sp_next_sequence p) (<[id := watermark]> (sp_sequences p))
                            (sp_closure_watermark p)
      | None => progress_record id p
      end
  end.
Definition progress_snapshot_closure (p : SourceReceiptProgress) : SourceReceiptProgress :=
  mkProgress (sp_next_sequence p) (sp_sequences p) (Some (sp_next_sequence p)).
Definition progress_clear_closure (p : SourceReceiptProgress) : SourceReceiptProgress :=
  mkProgress (sp_next_sequence p) (sp_sequences p) None.
Definition progress_is_after_closure (id : str) (p : SourceReceiptProgress) : bool :=
  match sp_closure_watermark p, sp_sequences p !! id with
  | Some watermark, Some sequence => watermark <? sequence
  | _, _ => false
  end.

(** ** Transactions *)

(** What makes a transaction fail. *)
Inductive TxnFailure : Type :=
  | TwoSourceFences
  | EnvelopeFailed (why : str)
  | EffectsNotReached
  | ReceiptNotAcknowledged.

Section txn.
Context {FT : FloatText} {FE : FaultEnv} {MC : MemoryCost}.
Context {R W : Type} {SR : SubqRegistry R W} {D : Type} {CP : CountPipelines D}.
Context {U : Type} {UT : UuidText U}.

(** Parameters of the running engine. *)
Record Env : Type := mkEnv {
  en_tables : gmap TableRef TableSchema;
  en_arr_gates : gmap TableRef SnapshotGate;
  en_library_mode : bool;
  en_traced : bool;
  en_pending_cap : Z
}.

(** The state the loop threads through a transaction. *)
Record Acc : Type := mkAcc {
  ac_execs : gmap str TableExec;
  ac_registry : R;
  ac_work : list W;
  ac_highwater : option (Z * Z);
  ac_staged : Staged;
  ac_source_fence : option str;
  ac_fences : PendingRuntimeFences (U := U);
  ac_touched : bool
}.

Definition ac_skip (a : Acc) (hw : option (Z * Z)) : Acc :=
  mkAcc (ac_execs a) (ac_registry a) (ac_work a) hw (ac_staged a) (ac_source_fence a) (ac_fences a)
        (ac_touched a).

(** An executor that stamps and buffers an envelope, and one that has processed it. *)
Definition exec_prepare (en : Env) (exec : TableExec) (env : Envelope) : TableExec * Envelope :=
  let '(rows, env) := if en_library_mode en then stamp_before_image (te_library_rows exec) env
                      else (te_library_rows exec, env) in
  (mkExec (te_ts exec) (te_shapes exec) (te_shape_index exec) (te_families exec) (te_family_of exec)
     (te_aggregates exec) (te_agg_index exec) (te_circuit_aggs exec)
     ((λ p, (buffer_pending p env (en_pending_cap en)).1) <$> te_pending exec)
     (te_envelopes_total exec) rows, env).
Definition exec_processed (exec : TableExec) (aggs : gmap str AggShape) : TableExec :=
  mkExec (te_ts exec) (te_shapes exec) (te_shape_index exec) (te_families exec) (te_family_of exec)
     aggs (te_agg_index exec) (te_circuit_aggs exec) (te_pending exec)
     (te_envelopes_total exec + 1) (te_library_rows exec).

(** The loop body for one envelope. *)
Definition txn_envelope (en : Env) (incarnation : U) (a : Acc) (env : Envelope)
  : Acc * option TxnFailure :=
  if is_duplicate (ac_highwater a) env then (a, None)
  else
    let hw := advance (ac_highwater a) env in
    if bool_decide (e_type env = RUNTIME_ENVELOPE_TYPE) then
      (mkAcc (ac_execs a) (ac_registry a) (ac_work a) hw (ac_staged a) (ac_source_fence a)
             (stage_fence (ac_fences a) env incarnation) true, None)
    else if bool_decide (e_type env = SOURCE_FENCE_ENVELOPE) then
      match ac_source_fence a with
      | Some _ =>
          (mkAcc (ac_execs a) (ac_registry a) (ac_work a) (ac_highwater a) (ac_staged a)
                 (Some (e_key env)) (ac_fences a) (ac_touched a), Some TwoSourceFences)
      | None =>
          (mkAcc (ac_execs a) (ac_registry a) (ac_work a) hw (ac_staged a) (Some (e_key env))
                 (ac_fences a) true, None)
      end
    else
      match exec_for (ac_execs a) (en_tables en) (e_type env) with
      | (execs, None) =>
          (mkAcc execs (ac_registry a) (ac_work a) hw (ac_staged a) (ac_source_fence a)
                 (ac_fences a) (ac_touched a), None)
      | (execs, Some exec) =>
          let '(exec, env) := exec_prepare en exec env in
          match process_envelope (te_ts exec) (en_traced en) (en_library_mode en) (te_shapes exec)
                  (te_shape_index exec) (te_families exec) (te_aggregates exec) (te_agg_index exec)
                  (ac_registry a) env (ac_staged a) with
          | Err e =>
              (mkAcc (<[e_type env := exec]> execs) (ac_registry a) (ac_work a) (ac_highwater a)
                     (ac_staged a) (ac_source_fence a) (ac_fences a) (ac_touched a),
               Some (EnvelopeFailed e))
          | Ok pr =>
              (mkAcc (<[e_type env := exec_processed exec (pr_aggregates pr)]> execs)
                     (pr_registry pr) (ac_work a ++ pr_work pr) hw (pr_staged pr)
                     (ac_source_fence a) (ac_fences a) true, None)
          end
      end.

(** The loop over the transaction's envelopes: the first failure stops it. *)
Fixpoint txn_envelopes (en : Env) (incarnation : U) (a : Acc) (envs : list Envelope)
  : Acc * option TxnFailure :=
  match envs with
  | [] => (a, None)
  | env :: envs =>
      match txn_envelope en incarnation a env with
      | (a, Some why) => (a, Some why)
      | (a, None) => txn_envelopes en incarnation a envs
      end
  end.

(** The state of the sequencer that a transaction changes; [ss_streams] is what was appended to
    every stream, in order. *)
Record SeqState : Type := mkSeq {
  sq_execs : gmap str TableExec;
  sq_registry : R;
  sq_work : list W;
  sq_highwater : option (Z * Z);
  sq_arr : option (Arrangements D);
  sq_streams : gmap str (list Envelope);
  sq_receipts : RuntimeReceipts (U := U);
  sq_progress : SourceReceiptProgress;
  sq_source_receipts : gmap str str;
  sq_last_receipt : option (str * str);
  sq_touched : bool
}.

(** [flush_pending]: every staged append lands on its stream. *)
Definition flush (staged : Staged) (streams : gmap str (list Envelope)) : gmap str (list Envelope) :=
  union_with (λ old new, Some (old ++ new)) streams staged.

(** The outcomes of what the loop awaits, and the clock. *)
Record Outcome : Type := mkOutcome {
  oc_effects_ok : bool;
  oc_catalog_ok : bool;
  oc_now : Z
}.

(** The delta feed of the counts pipelines, from the transaction as it was read. *)
Definition txn_arr_deltas (en : Env) (arr : option (Arrangements D)) (envs : list Envelope)
  : list StampedDelta :=
  match arr with
  | Some arr => omap (stamped_delta_for_arrangements (en_tables en) arr (en_arr_gates en)) envs
  | None => []
  end.

(** The count fold at the transaction's end. *)
Definition txn_counts (arr : option (Arrangements D)) (feed : list StampedDelta) (txid lsn : option str)
    (execs : gmap str TableExec) (staged : Staged)
  : option (Arrangements D) * gmap str TableExec * Staged :=
  match arr with
  | None => (None, execs, staged)
  | Some arr =>
      let '(arr, deltas) := apply_batch arr feed in
      if bool_decide (deltas = []) then (Some arr, execs, staged)
      else let '(execs, staged) := apply_count_deltas execs deltas txid lsn staged in
           (Some arr, execs, staged)
  end.

(** The receipts of a transaction whose effects landed. *)
Definition publish_runtime (fences : PendingRuntimeFences (U := U)) (incarnation : U) (lsn : option str)
    (now : Z) (r : RuntimeReceipts (U := U)) : RuntimeReceipts (U := U) :=
  if bool_decide (pf_fences fences = []) then r
  else match lsn with
       | Some commit_lsn => publish r incarnation (pf_fences fences) commit_lsn now
       | None => r
       end.

(** One transaction: a non-empty run of envelopes with one [(txid, lsn)]. *)
Definition run_txn (en : Env) (oc : Outcome) (s : SeqState) (envs : list Envelope)
  : SeqState * option TxnFailure :=
  let txn_highwater := sq_highwater s in
  let txid := head envs ≫= (λ env, h_txid (e_headers env)) in
  let lsn := head envs ≫= (λ env, h_lsn (e_headers env)) in
  let incarnation := rr_incarnation (sq_receipts s) in
  let feed := txn_arr_deltas en (sq_arr s) envs in
  let '(a, failed) := txn_envelopes en incarnation
    (mkAcc (sq_execs s) (sq_registry s) (sq_work s) (sq_highwater s) ∅ None no_fences (sq_touched s)) envs in
  let fail arr execs streams receipts progress why :=
    (mkSeq execs (ac_registry a) (ac_work a) txn_highwater arr streams receipts progress
           (sq_source_receipts s) (sq_last_receipt s) (ac_touched a), Some why) in
  match failed with
  | Some why => fail (sq_arr s) (ac_execs a) (sq_streams s) (sq_receipts s) (sq_progress s) why
  | None =>
      let '(arr, execs, staged) := txn_counts (sq_arr s) feed txid lsn (ac_execs a) (ac_staged a) in
      let streams := flush staged (sq_streams s) in
      let fenced := bool_decide (is_Some (ac_source_fence a)) ||
                    negb (bool_decide (pf_fences (ac_fences a) = [])) in
      if fenced && negb (oc_effects_ok oc) then
        fail arr execs streams (sq_receipts s) (sq_progress s) EffectsNotReached
      else
        let receipts := publish_runtime (ac_fences a) incarnation lsn (oc_now oc) (sq_receipts s) in
        match ac_source_fence a with
        | None =>
            (mkSeq execs (ac_registry a) (ac_work a) (ac_highwater a) arr streams receipts (sq_progress s)
                   (sq_source_receipts s) (sq_last_receipt s) (ac_touched a), None)
        | Some id =>
            let commit_lsn := default $"0/0" lsn in
            let progress := progress_record id (sq_progress s) in
            if oc_catalog_ok oc then
              (mkSeq execs (ac_registry a) (ac_work a) (ac_highwater a) arr streams receipts progress
                     (<[id := commit_lsn]> (sq_source_receipts s)) (Some (id, commit_lsn)) (ac_touched a),
               None)
            else fail arr execs streams receipts progress ReceiptNotAcknowledged
        end
  end.
End txn.
