(* ===== verification/ExecInv.v ===== *)
(** * The executor's invariant and its steps

    [exec_ok] (what the fan-out theorems assume of an executor) holds in every state the sequencer
    can bring an executor to.  The invariant that is inductive ([exec_wf]) says more: which shape
    owns which stream and number, and that a shape id plays one role at a time. *)

From S2P Require Import Prelude BTree Value TableRef Schema Predicate PredicateFacts Gate Output.
From S2P Require Import Executors Aggregates Refine ChangeLog Sequencer SequencerFacts.
From stdpp Require Import base option numbers strings gmap fin_maps sorting list.
#[local] Open Scope Z_scope.

(* ------------------------------------------------------------------ *)
(** ** A change and the aggregates *)

Section aggregates.
Context {FT : FloatText} {FE : FaultEnv} {R W : Type} {SR : SubqRegistry R W}.

Lemma agg_change_same ts c a :
  ag_pred (agg_change ts c a).1 = ag_pred a /\
  ag_stream_path (agg_change ts c a).1 = ag_stream_path a /\
  ag_gate (agg_change ts c a).1 = ag_gate a.
Proof.
  unfold agg_change. destruct (gate_skips c (ag_gate a)); [done|]. unfold agg_apply. simpl.
  destruct (existsb _ _); [|done]. by destruct (match ag_last a with Some _ => _ | None => false end).
Qed.

Lemma exec_ok_aggs shapes index families aggs agg_index (f : AggShape -> AggShape) :
  (forall a, ag_pred (f a) = ag_pred a /\ ag_stream_path (f a) = ag_stream_path a) ->
  exec_ok shapes index families aggs agg_index -> exec_ok shapes index families (f <$> aggs) agg_index.
Proof.
  intros Hf [H1 H2 H3 H4 H5 H6 H7 H8 H9 H10 H11]. split; try done.
  - rewrite H4, <- map_fmap_compose. apply map_fmap_ext. intros sid a _. simpl. by rewrite (proj1 (Hf a)).
  - intros i j a b. rewrite !lookup_fmap. intros (a' & Ha & ->)%fmap_Some (b' & Hb & ->)%fmap_Some.
    rewrite (proj2 (Hf a')), (proj2 (Hf b')). by apply H8.
  - intros i s j a Hs. rewrite lookup_fmap. intros (a' & Ha & ->)%fmap_Some.
    rewrite (proj2 (Hf a')). by eapply H10.
  - intros cols k rs j a Hr. rewrite lookup_fmap. intros (a' & Ha & ->)%fmap_Some.
    rewrite (proj2 (Hf a')). by eapply H11.
Qed.

(** A processed change folds every aggregate, whatever the mode. *)
Lemma process_envelope_aggs ts traced library_mode shapes index families aggs agg_index reg env
    pending delta txid lsn pr :
  exec_ok shapes index families aggs agg_index -> apply_envelope ts env = Ok (delta, txid, lsn) ->
  process_envelope ts traced library_mode shapes index families aggs agg_index reg env pending = Ok pr ->
  pr_aggregates pr = (fst ∘ agg_change ts (change_of delta txid lsn)) <$> aggs.
Proof.
  intros Hok Hap Hpr. unfold process_envelope in Hpr. rewrite Hap in Hpr.
  assert (Hnil : delta = [] -> aggs = fst ∘ agg_change ts (change_of delta txid lsn) <$> aggs).
  { intros ->. rewrite <- (map_fmap_id aggs) at 1. apply map_fmap_ext. intros sid a _. simpl.
    by rewrite agg_change_untouched. }
  destruct (bool_decide (delta = []) && _) eqn:E1.
  { apply andb_true_iff in E1 as [E1%bool_decide_eq_true _]. injection Hpr as <-. by apply Hnil. }
  cbv zeta in Hpr. case_bool_decide as E2.
  { injection Hpr as <-. by apply Hnil. }
  destruct (if reg_touches reg (ts_table ts) then _ else _) as [[reg' work]|]; [|done].
  match type of Hpr with context [fan_aggregates ?t ?tr ?c ?ix ?ag ?pe] =>
    pose proof (fan_aggregates_spec t c tr ix ag pe (eo_agg_index _ _ _ _ _ Hok)
                  (eo_agg_placed _ _ _ _ _ Hok)) as [Hf _];
    destruct (fan_aggregates t tr c ix ag pe) as [aggs' staged] end.
  injection Hpr as <-. apply map_eq. intros sid. rewrite lookup_fmap. apply Hf.
Qed.

Lemma exec_ok_new : exec_ok ∅ index_empty ∅ ∅ index_empty.
Proof.
  split; try apply index_empty_ok; try done; try (intros; simplify_map_eq; done).
  intros cols cols' k k' rs rs' (r & l & Hr & _). by rewrite lookup_empty in Hr.
Qed.

(** Streams of no shape of the executor are left alone. *)
Definition writes_to (shapes : gmap str StandaloneShape) (families : Families)
    (aggs : gmap str AggShape) (q : str) : Prop :=
  (exists sid s, shapes !! sid = Some s /\ ss_stream_path s = q) \/
  (exists cols k rs, routed_at families cols k rs /\ rs_stream_path rs = q) \/
  (exists sid a, aggs !! sid = Some a /\ ag_stream_path a = q).

Lemma process_envelope_other ts traced library_mode shapes index families aggs agg_index reg env
    pending delta txid lsn pr q :
  exec_ok shapes index families aggs agg_index -> apply_envelope ts env = Ok (delta, txid, lsn) ->
  library_mode && needs_absolute_emission env = false ->
  process_envelope ts traced library_mode shapes index families aggs agg_index reg env pending = Ok pr ->
  ~ writes_to shapes families aggs q -> emitted (pr_staged pr) q = emitted pending q.
Proof.
  intros Hok Hap Habs Hpr Hq. unfold process_envelope in Hpr. rewrite Hap, Habs in Hpr.
  cbn [negb] in Hpr. rewrite andb_true_r in Hpr.
  case_bool_decide as E1; [by injection Hpr as <-|]. cbv zeta in Hpr.
  destruct (if reg_touches reg (ts_table ts) then _ else _) as [[reg' work]|]; [|done].
  match type of Hpr with context [fan_aggregates ?t ?tr ?c ?ix ?ag ?pe] =>
    pose proof (fan_aggregates_spec t c tr ix ag pe (eo_agg_index _ _ _ _ _ Hok)
                  (eo_agg_placed _ _ _ _ _ Hok)) as [_ Hf];
    destruct (fan_aggregates t tr c ix ag pe) as [aggs' staged] end.
  injection Hpr as <-. cbn [pr_staged snd] in *. rewrite Hf, agg_out_none, app_nil_r.
  - eapply fan_plain_other; [done|..].
    + intros sid s Hs Hp. apply Hq. left. by exists sid, s.
    + intros cols k rs Hr Hp. apply Hq. right; left. by exists cols, k, rs.
  - intros sid a Ha Hp. apply Hq. right; right. by exists sid, a.
Qed.
End aggregates.

(* ------------------------------------------------------------------ *)
(** ** The inductive invariant *)

Section invariant.
Context {FT : FloatText} {FE : FaultEnv} {MC : MemoryCost} {R W : Type} {SR : SubqRegistry R W}.

(** A shape id determines the shape's stream path and number, and is determined by each. *)
Context (path_of : str -> str) (num_of : str -> Z).
Context {path_inj : Inj (=) (=) path_of} {num_inj : Inj (=) (=) num_of}.

(** The shape ids in each role. *)
Definition roles (e : TableExec) : list (gset str) :=
  [dom (te_pending e); dom (te_shapes e); dom (te_family_of e); dom (te_aggregates e)].

Definition one_role (e : TableExec) : Prop :=
  dom (te_pending e) ## dom (te_shapes e) ∪ dom (te_family_of e) ∪ dom (te_aggregates e) /\
  dom (te_shapes e) ## dom (te_family_of e) ∪ dom (te_aggregates e) /\
  dom (te_family_of e) ## dom (te_aggregates e).

Record exec_wf (e : TableExec) : Prop := {
  wf_index : index_ok (te_shape_index e);
  wf_placed : ix_placed (te_shape_index e) = access_leaf ∘ ss_pred <$> te_shapes e;
  wf_agg_index : index_ok (te_agg_index e);
  wf_agg_placed : ix_placed (te_agg_index e) = access_leaf ∘ ag_pred <$> te_aggregates e;
  wf_pending : forall sid p, te_pending e !! sid = Some p ->
    pe_stream_path p = path_of sid /\ pe_num_id p = num_of sid;
  wf_shape : forall sid s, te_shapes e !! sid = Some s -> ss_stream_path s = path_of sid;
  wf_agg : forall sid a, te_aggregates e !! sid = Some a -> ag_stream_path a = path_of sid;
  wf_router : forall cols r, te_families e !! cols = Some r -> kr_key_cols r = cols;
  wf_bucket : forall cols r k l, te_families e !! cols = Some r -> kr_index r !! k = Some l ->
    NoDup (rs_num_id <$> l);
  wf_routed : forall cols k rs, routed_at (te_families e) cols k rs ->
    exists sid key, te_family_of e !! sid = Some (cols, num_of sid, key) /\ k = rkey key /\
                    rs_num_id rs = num_of sid /\ rs_stream_path rs = path_of sid;
  wf_one_role : one_role e;
  wf_family : forall sid cols num key, te_family_of e !! sid = Some (cols, num, key) -> num = num_of sid
}.

Lemma exec_wf_ok e : exec_wf e ->
  exec_ok (te_shapes e) (te_shape_index e) (te_families e) (te_aggregates e) (te_agg_index e).
Proof.
  intros [H1 H2 H3 H4 _ H5 H6 H7 H8 H9 (_ & R2 & R3) _]. split; try done.
  - intros cols r Hr. split; [by eapply H7|]. split; [by eauto|].
    intros k k' l l' rs rs' Hk Hk' Hin Hin' E.
    destruct (H9 cols k rs) as (sid & key & F1 & -> & N1 & _); [by exists r, l|].
    destruct (H9 cols k' rs') as (sid' & key' & F2 & -> & N2 & _); [by exists r, l'|].
    assert (sid = sid') as <- by (apply num_inj; congruence).
    rewrite F1 in F2. injection F2 as <-. split; [done|]. rewrite Hk in Hk'. injection Hk' as <-.
    apply list_elem_of_lookup in Hin as [i Hi]. apply list_elem_of_lookup in Hin' as [j Hj].
    assert (i = j) as <-; [|congruence].
    eapply (NoDup_lookup (rs_num_id <$> l)); [by eapply H8|..]; rewrite list_lookup_fmap;
      rewrite ?Hi, ?Hj; simpl; [done|]. by rewrite E.
  - intros i j s t Hi Hj E. rewrite (H5 i s Hi), (H5 j t Hj) in E. by apply path_inj.
  - intros cols cols' k k' rs rs' Hr Hr' E.
    destruct (H9 _ _ _ Hr) as (sid & key & F1 & _ & N1 & P1).
    destruct (H9 _ _ _ Hr') as (sid' & key' & F2 & _ & N2 & P2).
    assert (sid = sid') as <- by (apply path_inj; congruence).
    rewrite F1 in F2. injection F2 as <- <-. split; congruence.
  - intros i j a b Hi Hj E. rewrite (H6 i a Hi), (H6 j b Hj) in E. by apply path_inj.
  - intros i s cols k rs Hi Hr E. destruct (H9 _ _ _ Hr) as (sid & key & F1 & _ & _ & P1).
    rewrite (H5 i s Hi), P1 in E. apply path_inj in E as <-.
    apply (R2 i); [by apply elem_of_dom_2 in Hi|]. apply elem_of_dom_2 in F1. set_solver.
  - intros i s j a Hi Hj E. rewrite (H5 i s Hi), (H6 j a Hj) in E. apply path_inj in E as <-.
    apply (R2 i); [by apply elem_of_dom_2 in Hi|]. apply elem_of_dom_2 in Hj. set_solver.
  - intros cols k rs j a Hr Hj E. destruct (H9 _ _ _ Hr) as (sid & key & F1 & _ & _ & P1).
    rewrite P1, (H6 j a Hj) in E. apply path_inj in E as <-.
    apply (R3 sid); [by apply elem_of_dom_2 in F1|by apply elem_of_dom_2 in Hj].
Qed.

Lemma exec_wf_new ts : exec_wf (TableExec_new ts).
Proof.
  split; simpl; try done; try apply index_empty_ok; try (intros; simplify_map_eq; done).
  intros cols k rs (r & l & Hr & _). by rewrite lookup_empty in Hr.
Qed.

(** *** Routing tables *)

Lemma family_insert_routed f cols key rs c k x :
  routed_at (family_insert f cols key rs) c k x <->
  routed_at f c k x \/ c = cols /\ k = rkey key /\ x = rs.
Proof.
  unfold routed_at, family_insert. destruct (decide (c = cols)) as [->|Hc].
  2: { split.
       - intros (r & l & Hr & H). rewrite lookup_insert_ne in Hr by done. left. by exists r, l.
       - intros [(r & l & Hr & H)|(? & _)]; [|done]. exists r, l. by rewrite lookup_insert_ne. }
  set (router := default (mkRouter cols ∅) (f !! cols)).
  assert (Hold : forall l, kr_index router !! k = Some l /\ x ∈ l <->
    exists r, f !! cols = Some r /\ kr_index r !! k = Some l /\ x ∈ l).
  { intros l. unfold router. destruct (f !! cols) as [r|]; simpl; [naive_solver|].
    rewrite lookup_empty. naive_solver. }
  setoid_rewrite lookup_insert_eq. split.
  - intros (r & l & [= <-] & Hk & Hx). simpl in Hk. destruct (decide (k = rkey key)) as [->|Hne].
    + rewrite lookup_insert_eq in Hk. injection Hk as <-.
      apply elem_of_app in Hx as [Hx|Hx%list_elem_of_singleton]; [left|by right].
      destruct (kr_index router !! rkey key) as [l|] eqn:E; [|by apply elem_of_nil in Hx].
      destruct (proj1 (Hold l) (conj eq_refl Hx)) as (r & ? & ? & ?). by exists r, l.
    + rewrite lookup_insert_ne in Hk by done. left.
      destruct (proj1 (Hold l) (conj Hk Hx)) as (r & ? & ? & ?). by exists r, l.
  - intros [(r & l & Hr & Hk & Hx)|(_ & -> & ->)].
    + destruct (proj2 (Hold l)) as [Hk' _]; [by exists r|].
      destruct (decide (k = rkey key)) as [->|Hne].
      * eexists _, _. split; [done|]. simpl. rewrite lookup_insert_eq, Hk'. split; [done|].
        apply elem_of_app. by left.
      * eexists _, l. split; [done|]. simpl. rewrite lookup_insert_ne by done. by split.
    + eexists _, _. split; [done|]. simpl. rewrite lookup_insert_eq. split; [done|].
      apply elem_of_app. right. by apply list_elem_of_singleton.
Qed.

Lemma family_insert_router f cols key rs c r :
  (forall c r, f !! c = Some r -> kr_key_cols r = c) ->
  family_insert f cols key rs !! c = Some r -> kr_key_cols r = c.
Proof.
  intros H. unfold family_insert. intros [[<- <-]|[Hne Hr]]%lookup_insert_Some; [|by apply H]. simpl.
  destruct (f !! cols) as [r|] eqn:E; simpl; [by apply H|done].
Qed.

Lemma family_insert_bucket f cols key rs c r k l :
  (forall c r k l, f !! c = Some r -> kr_index r !! k = Some l -> NoDup (rs_num_id <$> l)) ->
  (forall c k x, routed_at f c k x -> rs_num_id x <> rs_num_id rs) ->
  family_insert f cols key rs !! c = Some r -> kr_index r !! k = Some l -> NoDup (rs_num_id <$> l).
Proof.
  intros H Hn. unfold family_insert. intros [[<- <-]|[Hne Hr]]%lookup_insert_Some; [|by eapply H].
  simpl. intros [[<- <-]|[Hk Hl]]%lookup_insert_Some.
  - rewrite fmap_app. apply NoDup_app.
    destruct (f !! cols) as [r|] eqn:E; simpl; [|rewrite lookup_empty; simpl].
    + destruct (kr_index r !! rkey key) as [l|] eqn:El; simpl.
      * split_and!; [by eapply H| |apply NoDup_singleton].
        intros n (x & -> & Hx)%list_elem_of_fmap Hin%list_elem_of_singleton.
        eapply Hn; [|exact Hin]. by exists r, l.
      * split_and!; [constructor|set_solver|apply NoDup_singleton].
    + split_and!; [constructor|set_solver|apply NoDup_singleton].
  - destruct (f !! cols) as [r|] eqn:E; simpl in Hl; [by eapply H|by rewrite lookup_empty in Hl].
Qed.

Lemma family_remove_routed f cols key num c k x :
  routed_at (family_remove f cols key num) c k x ->
  routed_at f c k x /\ ~ (c = cols /\ k = rkey key /\ rs_num_id x = num).
Proof.
  unfold family_remove. intros (r & l & Hr & Hk & Hx).
  destruct (f !! cols) as [router|] eqn:E.
  2: { split; [by exists r, l|]. intros (-> & _). congruence. }
  destruct (decide (c = cols)) as [->|Hc].
  2: { split; [|naive_solver]. exists r, l. split; [|done].
       case_bool_decide; [by rewrite lookup_delete_ne in Hr|by rewrite lookup_insert_ne in Hr]. }
  case_bool_decide; [by rewrite lookup_delete_eq in Hr|].
  rewrite lookup_insert_eq in Hr. injection Hr as <-. simpl in Hk.
  destruct (kr_index router !! rkey key) as [routed|] eqn:Ek.
  2: { split; [by exists router, l|]. intros (_ & -> & _). congruence. }
  destruct (decide (k = rkey key)) as [->|Hne].
  - case_bool_decide; [by rewrite lookup_delete_eq in Hk|]. rewrite lookup_insert_eq in Hk.
    injection Hk as <-. apply list_elem_of_filter in Hx as [Hn Hx].
    split; [by exists router, routed|naive_solver].
  - split; [|naive_solver]. exists router, l. split_and!; [done| |done].
    case_bool_decide; [by rewrite lookup_delete_ne in Hk|by rewrite lookup_insert_ne in Hk].
Qed.

Lemma family_remove_router f cols key num c r :
  family_remove f cols key num !! c = Some r ->
  exists r0, f !! c = Some r0 /\ kr_key_cols r = kr_key_cols r0 /\
    forall k l, kr_index r !! k = Some l -> exists l0, kr_index r0 !! k = Some l0 /\ l `sublist_of` l0.
Proof.
  unfold family_remove. intros Hr. destruct (f !! cols) as [router|] eqn:E.
  2: { exists r. split_and!; [done..|]. intros k l Hk. by exists l. }
  case_bool_decide as Hemp.
  { apply lookup_delete_Some in Hr as [Hne Hr]. exists r. split_and!; [done..|]. intros k l Hk. by exists l. }
  apply lookup_insert_Some in Hr as [[<- <-]|[Hne Hr]].
  2: { exists r. split_and!; [done..|]. intros k l Hk. by exists l. }
  exists router. split_and!; [done..|]. simpl. intros k l Hk.
  destruct (kr_index router !! rkey key) as [routed|] eqn:Ek; [|by exists l].
  revert Hk. case_bool_decide; intros Hk.
  - apply lookup_delete_Some in Hk as [_ Hk]. by exists l.
  - apply lookup_insert_Some in Hk as [[<- <-]|[_ Hk]]; [|by exists l].
    exists routed. split; [done|]. apply sublist_filter.
Qed.

Lemma filter_absent num (l : list RoutedShape) :
  num ∉ rs_num_id <$> l -> filter (λ rs, rs_num_id rs <> num) l = l.
Proof.
  induction l as [|x l IH]; intros Hn; [done|]. csimpl in Hn.
  apply not_elem_of_cons in Hn as [Hx Hn]. rewrite filter_cons_True by done. by rewrite IH.
Qed.

(** Taking one shape out of a bucket is removing its number, numbers being unique. *)
Lemma take_routed_filter num l : NoDup (rs_num_id <$> l) ->
  match take_routed num l with Some (_, rest) => rest | None => l end =
  filter (λ rs, rs_num_id rs <> num) l.
Proof.
  induction l as [|rs l IH]; intros Hnd; [done|]. csimpl in Hnd. apply NoDup_cons in Hnd as [Hn Hnd].
  simpl. rewrite filter_cons. destruct (Z.eqb_spec (rs_num_id rs) num) as [E|E].
  - rewrite decide_False by tauto. symmetry. apply filter_absent. by rewrite <- E.
  - rewrite decide_True by done. specialize (IH Hnd).
    destruct (take_routed num l) as [[x rest]|]; simpl in *; by f_equal.
Qed.

(** *** The steps *)

(** The processing of one change, as it changes the executor. *)
Definition exec_change (e : TableExec) (f : AggShape -> AggShape) (g : PendingShape -> PendingShape)
    (rows : gmap str json) (total : Z) : TableExec :=
  mkExec (te_ts e) (te_shapes e) (te_shape_index e) (te_families e) (te_family_of e)
    (f <$> te_aggregates e) (te_agg_index e) (te_circuit_aggs e) (g <$> te_pending e) total rows.

(** A shape id that plays no role. *)
Definition unused (e : TableExec) (sid : str) : Prop :=
  te_pending e !! sid = None /\ te_shapes e !! sid = None /\ te_family_of e !! sid = None /\
  te_aggregates e !! sid = None.

Lemma begin_shape_wf e sid pred cols kind :
  exec_wf e -> unused e sid -> exec_wf (begin_shape e sid (num_of sid) (path_of sid) pred cols kind).
Proof.
  intros [H1 H2 H3 H4 H5 H6 H7 H8 H9 H10 H11 H12] (U1 & U2 & U3 & U4). split; try done.
  - intros sid' p. simpl. intros [[<- <-]|[_ Hp]]%lookup_insert_Some; [done|by apply H5].
  - unfold one_role in *. simpl. rewrite dom_insert_L.
    apply not_elem_of_dom in U1, U2, U3, U4. set_solver.
Qed.

Lemma drop_pending_wf e sid : exec_wf e -> exec_wf (set_pending e (delete sid (te_pending e))).
Proof.
  intros [H1 H2 H3 H4 H5 H6 H7 H8 H9 H10 H11 H12]. split; try done.
  - intros sid' p. simpl. intros [_ Hp]%lookup_delete_Some. by apply H5.
  - unfold one_role in *. simpl. rewrite dom_delete_L. set_solver.
Qed.

Lemma exec_change_wf e f g rows total :
  (forall a, ag_pred (f a) = ag_pred a /\ ag_stream_path (f a) = ag_stream_path a) ->
  (forall p, pe_stream_path (g p) = pe_stream_path p /\ pe_num_id (g p) = pe_num_id p) ->
  exec_wf e -> exec_wf (exec_change e f g rows total).
Proof.
  intros Hf Hg [H1 H2 H3 H4 H5 H6 H7 H8 H9 H10 H11 H12]. split; try done.
  - simpl. rewrite H4, <- map_fmap_compose. apply map_fmap_ext. intros sid a _. simpl.
    by rewrite (proj1 (Hf a)).
  - intros sid p. simpl. rewrite lookup_fmap. intros (p' & Hp & ->)%fmap_Some.
    rewrite (proj1 (Hg p')), (proj2 (Hg p')). by apply H5.
  - intros sid a. simpl. rewrite lookup_fmap. intros (a' & Ha & ->)%fmap_Some.
    rewrite (proj2 (Hf a')). by apply H7.
  - unfold one_role in *. simpl. by rewrite !dom_fmap_L.
Qed.

Lemma buffer_pending_same p env cap :
  pe_stream_path (buffer_pending p env cap).1 = pe_stream_path p /\
  pe_num_id (buffer_pending p env cap).1 = pe_num_id p.
Proof.
  unfold buffer_pending. destruct (pe_overflowed p); [done|]. by destruct (_ && _).
Qed.

Lemma set_circuit_aggs_wf e c : exec_wf e -> exec_wf (set_circuit_aggs e c).
Proof. intros [H1 H2 H3 H4 H5 H6 H7 H8 H9 H10 H11 H12]. by split. Qed.

Lemma insert_index_ok ix m sid pred :
  index_ok ix -> ix_placed ix = access_leaf <$> m -> m !! sid = None ->
  index_ok (index_insert sid pred ix) /\
  ix_placed (index_insert sid pred ix) = access_leaf <$> <[sid := pred]> m.
Proof.
  intros Hix Hpl Hm. apply (index_ops_ok [IxInsert sid pred] ix m); [by split|done|done].
Qed.

Lemma remove_index_ok ix m sid :
  index_ok ix -> ix_placed ix = access_leaf <$> m ->
  index_ok (index_remove sid ix) /\ ix_placed (index_remove sid ix) = access_leaf <$> delete sid m.
Proof.
  intros Hix Hpl. apply (index_ops_ok [IxRemove sid] ix m); [by split|done|done].
Qed.

Lemma add_shape_wf e sid s :
  exec_wf e -> unused e sid -> ss_stream_path s = path_of sid ->
  exec_wf (set_shapes e (<[sid := s]> (te_shapes e)) (index_insert sid (ss_pred s) (te_shape_index e))).
Proof.
  intros [H1 H2 H3 H4 H5 H6 H7 H8 H9 H10 H11 H12] (U1 & U2 & U3 & U4) Hp.
  destruct (insert_index_ok (te_shape_index e) (ss_pred <$> te_shapes e) sid (ss_pred s)) as [I1 I2].
  { done. } { by rewrite H2, map_fmap_compose. } { by rewrite lookup_fmap, U2. }
  split; try done; simpl.
  - rewrite I2, <- fmap_insert. by rewrite map_fmap_compose.
  - intros sid' s' [[<- <-]|[_ Hs]]%lookup_insert_Some; [done|by apply H6].
  - unfold one_role in *. simpl. rewrite dom_insert_L.
    apply not_elem_of_dom in U1, U2, U3, U4. set_solver.
Qed.

Lemma add_aggregate_wf e sid a :
  exec_wf e -> unused e sid -> ag_stream_path a = path_of sid ->
  exec_wf (set_aggregates e (<[sid := a]> (te_aggregates e)) (index_insert sid (ag_pred a) (te_agg_index e))).
Proof.
  intros [H1 H2 H3 H4 H5 H6 H7 H8 H9 H10 H11 H12] (U1 & U2 & U3 & U4) Hp.
  destruct (insert_index_ok (te_agg_index e) (ag_pred <$> te_aggregates e) sid (ag_pred a)) as [I1 I2].
  { done. } { by rewrite H4, map_fmap_compose. } { by rewrite lookup_fmap, U4. }
  split; try done; simpl.
  - rewrite I2, <- fmap_insert. by rewrite map_fmap_compose.
  - intros sid' s' [[<- <-]|[_ Hs]]%lookup_insert_Some; [done|by apply H7].
  - unfold one_role in *. simpl. rewrite dom_insert_L.
    apply not_elem_of_dom in U1, U2, U3, U4. set_solver.
Qed.

Lemma add_routed_wf e sid cols key rs :
  exec_wf e -> unused e sid -> rs_stream_path rs = path_of sid -> rs_num_id rs = num_of sid ->
  exec_wf (set_families e (family_insert (te_families e) cols key rs)
             (<[sid := (cols, num_of sid, key)]> (te_family_of e))).
Proof.
  intros [H1 H2 H3 H4 H5 H6 H7 H8 H9 H10 H11 H12] (U1 & U2 & U3 & U4) Hp Hn. split; try done; simpl.
  - intros c r. by apply family_insert_router.
  - intros c r k l. apply family_insert_bucket; [done|]. intros c' k' x Hx E.
    destruct (H10 _ _ _ Hx) as (sid' & key' & F & _ & N & _). rewrite N, Hn in E.
    apply num_inj in E as ->. congruence.
  - intros c k x [Hx|(-> & -> & ->)]%family_insert_routed.
    + destruct (H10 _ _ _ Hx) as (sid' & key' & F & ? & ? & ?). exists sid', key'.
      rewrite lookup_insert_ne; [done|]. intros ->. congruence.
    + exists sid, key. by rewrite lookup_insert_eq.
  - unfold one_role in *. simpl. rewrite dom_insert_L.
    apply not_elem_of_dom in U1, U2, U3, U4. set_solver.
  - intros sid' c n k [[<- [= _ <- _]]|[_ Hf]]%lookup_insert_Some; [done|by eapply H12].
Qed.

Lemma drop_shape_wf e sid :
  exec_wf e -> exec_wf (set_shapes e (delete sid (te_shapes e)) (index_remove sid (te_shape_index e))).
Proof.
  intros [H1 H2 H3 H4 H5 H6 H7 H8 H9 H10 H11 H12].
  destruct (remove_index_ok (te_shape_index e) (ss_pred <$> te_shapes e) sid) as [I1 I2].
  { done. } { by rewrite H2, map_fmap_compose. }
  split; try done; simpl.
  - rewrite I2, <- fmap_delete. by rewrite map_fmap_compose.
  - intros sid' s' [_ Hs]%lookup_delete_Some. by apply H6.
  - unfold one_role in *. simpl. rewrite dom_delete_L. set_solver.
Qed.

Lemma drop_aggregate_wf e sid :
  exec_wf e -> exec_wf (set_aggregates e (delete sid (te_aggregates e)) (index_remove sid (te_agg_index e))).
Proof.
  intros [H1 H2 H3 H4 H5 H6 H7 H8 H9 H10 H11 H12].
  destruct (remove_index_ok (te_agg_index e) (ag_pred <$> te_aggregates e) sid) as [I1 I2].
  { done. } { by rewrite H4, map_fmap_compose. }
  split; try done; simpl.
  - rewrite I2, <- fmap_delete. by rewrite map_fmap_compose.
  - intros sid' s' [_ Hs]%lookup_delete_Some. by apply H7.
  - unfold one_role in *. simpl. rewrite dom_delete_L. set_solver.
Qed.

Lemma drop_routed_wf e sid cols num key :
  exec_wf e -> te_family_of e !! sid = Some (cols, num, key) -> num = num_of sid ->
  exec_wf (set_families e (family_remove (te_families e) cols key num) (delete sid (te_family_of e))).
Proof.
  intros [H1 H2 H3 H4 H5 H6 H7 H8 H9 H10 H11 H12] Hf ->. split; try done; simpl.
  - intros c r (r0 & Hr & -> & _)%family_remove_router. by apply H8.
  - intros c r k l (r0 & Hr & _ & Hs)%family_remove_router Hk.
    destruct (Hs k l Hk) as (l0 & Hl0 & Hsub).
    assert (Hnd : NoDup (rs_num_id <$> l0)) by by eapply H9.
    clear - Hsub Hnd. induction Hsub as [|x l l' Hs IH|x l l' Hs IH]; csimpl in *; [constructor|..].
    + apply NoDup_cons in Hnd as [Hx Hnd]. apply NoDup_cons. split; [|by apply IH]. intros Hin. apply Hx.
      apply list_elem_of_fmap in Hin as (y & -> & Hy). apply list_elem_of_fmap_2.
      by eapply elem_of_sublist.
    + apply NoDup_cons in Hnd as [Hx Hnd]. by apply IH.
  - intros c k x [Hx Hno]%family_remove_routed.
    destruct (H10 _ _ _ Hx) as (sid' & key' & F & Hk & Hn & Hp). exists sid', key'.
    rewrite lookup_delete_ne; [done|]. intros <-. apply Hno. rewrite Hf in F. injection F as <- <-.
    by split_and!.
  - unfold one_role in *. simpl. rewrite dom_delete_L. set_solver.
  - intros sid' c n k [_ Hf']%lookup_delete_Some. by eapply H12.
Qed.

Lemma unused_after_pending e sid :
  exec_wf e -> is_Some (te_pending e !! sid) -> unused (set_pending e (delete sid (te_pending e))) sid.
Proof.
  intros Hwf [p Hp]. destruct (wf_one_role e Hwf) as (R1 & _). apply elem_of_dom_2 in Hp.
  unfold unused. simpl. rewrite lookup_delete_eq. rewrite <- !not_elem_of_dom. set_solver.
Qed.

Lemma activate_shape_wf e sid gate seed ok :
  exec_wf e -> exec_wf (activate_shape e sid gate seed ok).1.
Proof.
  intros Hwf. unfold activate_shape. destruct (te_pending e !! sid) as [p|] eqn:Hp; [|done].
  pose proof (drop_pending_wf e sid Hwf) as Hwf1.
  pose proof (unused_after_pending e sid Hwf ltac:(by eexists)) as Hu.
  destruct (wf_pending e Hwf sid p Hp) as [Hpath Hnum]. destruct (pe_overflowed p); [done|].
  destruct (pe_kind p) as [|func col].
  - cbn [fst]. destruct (equality_template (pe_pred p)) as [pairs|].
    + rewrite Hnum. apply (add_routed_wf _ sid pairs.*1 pairs.*2); done.
    + by apply (add_shape_wf _ sid (mkStandalone (pe_pred p) (pe_stream_path p) gate (pe_out_cols p))).
  - set (agg1 := mkAgg _ _ _ _ _ _ (Some _)). set (outs0 := [_]).
    assert (Hagg : ag_stream_path (replay_aggregate (te_ts e) gate (pe_buffered p) agg1 outs0).1 =
                   ag_stream_path agg1).
    { unfold replay_aggregate. generalize outs0. generalize agg1. clear.
      induction (pe_buffered p) as [|env envs IH]; intros a outs; cbn [foldl]; [done|].
      destruct (apply_envelope (te_ts e) env) as [[[delta txid] lsn]|]; [|apply IH].
      case_bool_decide; [apply IH|]. destruct (gate_skips _ _); [apply IH|].
      assert (Hs : ag_stream_path (agg_apply a delta).1 = ag_stream_path a) by done.
      destruct (agg_apply a delta) as [a' []]; cbn [fst] in Hs; [|by rewrite IH].
      destruct (match ag_last a' with Some _ => _ | None => false end); by rewrite IH. }
    change (te_ts (set_pending e (delete sid (te_pending e)))) with (te_ts e).
    destruct (replay_aggregate _ _ _ agg1 outs0) as [agg outs]. simpl in Hagg.
    destruct ok; [|done]. apply (add_aggregate_wf _ sid agg); [done..|]. by rewrite Hagg.
Qed.

Lemma remove_shape_wf e sid : exec_wf e -> exec_wf (remove_shape e sid).
Proof.
  intros Hwf. unfold remove_shape. pose proof (drop_pending_wf e sid Hwf) as Hwf1.
  set (e1 := set_pending e _) in *. clearbody e1. clear Hwf e. rename e1 into e, Hwf1 into Hwf.
  case_bool_decide; [by apply set_circuit_aggs_wf|].
  case_bool_decide; [by apply drop_aggregate_wf|].
  case_bool_decide; [by apply drop_shape_wf|].
  destruct (te_family_of e !! sid) as [[[cols num] key]|] eqn:Hf; [|done].
  apply drop_routed_wf; [done..|]. by eapply wf_family.
Qed.

Lemma deactivate_families e sid cols num key router :
  exec_wf e -> te_family_of e !! sid = Some (cols, num, key) -> te_shapes e !! sid = None ->
  te_families e !! cols = Some router ->
  (deactivate_shape e sid).1 =
  set_families e (family_remove (te_families e) cols key num) (delete sid (te_family_of e)).
Proof.
  intros Hwf Hf Hs Hr. unfold deactivate_shape, family_remove. rewrite Hs, Hf, Hr.
  destruct (kr_index router !! rkey key) as [routed|] eqn:Ek; [|done].
  pose proof (take_routed_filter num routed (wf_bucket e Hwf _ _ _ _ Hr Ek)) as Ht.
  by destruct (take_routed num routed) as [[x rest]|]; cbn [fst]; rewrite <- Ht.
Qed.

Lemma deactivate_shape_wf e sid : exec_wf e -> exec_wf (deactivate_shape e sid).1.
Proof.
  intros Hwf. destruct (te_shapes e !! sid) as [s|] eqn:Hs.
  { unfold deactivate_shape. rewrite Hs. by apply drop_shape_wf. }
  destruct (te_family_of e !! sid) as [[[cols num] key]|] eqn:Hf.
  2: { unfold deactivate_shape. by rewrite Hs, Hf. }
  pose proof (wf_family e Hwf _ _ _ _ Hf) as Hn.
  pose proof (drop_routed_wf e sid cols num key Hwf Hf Hn) as Hd.
  destruct (te_families e !! cols) as [router|] eqn:Hr.
  - by rewrite (deactivate_families e sid cols num key router).
  - unfold deactivate_shape. rewrite Hs, Hf, Hr. unfold family_remove in Hd. by rewrite Hr in Hd.
Qed.

(** What the sequencer does to an executor. *)
Inductive exec_step (e : TableExec) : TableExec -> Prop :=
  | es_begin sid pred cols kind : unused e sid ->
      exec_step e (begin_shape e sid (num_of sid) (path_of sid) pred cols kind)
  | es_abort sid : exec_step e (abort_shape e sid)
  | es_activate sid gate seed ok : exec_step e (activate_shape e sid gate seed ok).1
  | es_deactivate sid : exec_step e (deactivate_shape e sid).1
  | es_remove sid : exec_step e (remove_shape e sid)
  | es_circuit_aggs aggs : exec_step e (set_circuit_aggs e aggs)
  | es_change traced library_mode reg env pending pr rows total cap :
      process_envelope (te_ts e) traced library_mode (te_shapes e) (te_shape_index e) (te_families e)
        (te_aggregates e) (te_agg_index e) reg env pending = Ok pr ->
      exec_step e (mkExec (te_ts e) (te_shapes e) (te_shape_index e) (te_families e) (te_family_of e)
        (pr_aggregates pr) (te_agg_index e) (te_circuit_aggs e)
        ((λ p, (buffer_pending p env cap).1) <$> te_pending e) total rows).

Lemma exec_step_wf e e' : exec_step e e' -> exec_wf e -> exec_wf e'.
Proof.
  intros Hs Hwf. destruct Hs.
  - by apply begin_shape_wf.
  - by apply drop_pending_wf.
  - by apply activate_shape_wf.
  - by apply deactivate_shape_wf.
  - by apply remove_shape_wf.
  - by apply set_circuit_aggs_wf.
  - match goal with H : process_envelope _ _ _ _ _ _ _ _ _ _ _ = Ok _ |- _ => rename H into Hpr end.
    destruct (apply_envelope (te_ts e) env) as [[[delta txid] lsn]|] eqn:Hap.
    2: { unfold process_envelope in Hpr. by rewrite Hap in Hpr. }
    rewrite (process_envelope_aggs _ _ _ _ _ _ _ _ _ _ _ _ _ _ _ (exec_wf_ok e Hwf) Hap Hpr).
    apply (exec_change_wf e); [|intros p; apply buffer_pending_same|done].
    intros a. simpl. by destruct (agg_change_same (te_ts e) (change_of delta txid lsn) a) as (? & ? & _).
Qed.

(** C35: the executor's invariant is inductive.  Starting from a new executor, whatever sequence of
    shape beginnings, aborts, activations, parkings, removals and processed changes the sequencer
    performs (each shape begun under an id that plays no role), the indexes file exactly the live
    shapes, routers are filed under their key columns with each number once, and no two live
    shapes share a stream: what the fan-out theorems assume of an executor. *)
Theorem executor_invariant ts e :
  rtc exec_step (TableExec_new ts) e ->
  exec_wf e /\
  exec_ok (te_shapes e) (te_shape_index e) (te_families e) (te_aggregates e) (te_agg_index e).
Proof.
  intros H. assert (Hwf : exec_wf e); [|split; [done|by apply exec_wf_ok]].
  pose proof (exec_wf_new ts) as Hnew. revert Hnew. induction H as [|e1 e2 e3 Hs _ IH]; intros Hwf; [done|].
  apply IH. by eapply exec_step_wf.
Qed.
End invariant.
