(* ===== verification/TxnFacts.v ===== *)
(** * Transactions are atomic

    What one pass of the transaction loop guarantees: a redelivered transaction changes nothing, a
    failed one flushes nothing and moves no highwater, and a successful one carries every live row
    shape from the view of the table before the transaction to the view after it, in one flush. *)

From S2P Require Import Prelude BTree Value TableRef Schema Predicate PredicateFacts Gate Output.
From S2P Require Import Executors Aggregates Refine ChangeLog Sequencer SequencerFacts Planning Counts.
From S2P Require Import CountsFacts RuntimeAuthority ExecInv Txn.
From stdpp Require Import base option numbers strings gmap fin_maps sorting list.
#[local] Open Scope Z_scope.

Section facts.
Context {FT : FloatText} {FE : FaultEnv} {MC : MemoryCost}.
Context {R W : Type} {SR : SubqRegistry R W} {D : Type} {CP : CountPipelines D}.
Context {U : Type} {UT : UuidText U}.
Implicit Types (s : SeqState (R := R) (W := W) (D := D) (U := U)) (a : Acc (R := R) (W := W) (U := U)).

(* ---------------------------------------------------------------- *)
(** ** Redelivery *)

Lemma txn_envelopes_duplicates en inc envs : forall a,
  Forall (λ env, is_duplicate (ac_highwater a) env = true) envs -> txn_envelopes en inc a envs = (a, None).
Proof.
  induction envs as [|env envs IH]; intros a Hd; [done|]. apply Forall_cons in Hd as [He Hd]. simpl.
  unfold txn_envelope at 1. rewrite He. by apply IH.
Qed.

Lemma batch_feed_seen counts hw sds :
  Forall (λ sd, stamp_seen (sd_stamp sd) hw = true) sds -> batch_feed counts hw sds = (hw, []).
Proof. induction 1 as [|sd sds Hs _ IH]; [done|]. simpl. by rewrite Hs. Qed.

(** redelivery is a no-op.  A transaction whose every envelope is at or below the
    de-duplication highwater (and whose deltas the counts circuit has applied, by its own
    highwater) leaves the whole sequencer state as it was: executors, registry, highwater,
    counts, streams and receipts. *)
Theorem redelivered_txn_noop en oc s envs :
  Forall (λ env, is_duplicate (sq_highwater s) env = true) envs ->
  (forall arr, sq_arr s = Some arr ->
     Forall (λ sd, stamp_seen (sd_stamp sd) (ar_highwater arr) = true) (txn_arr_deltas en (sq_arr s) envs)) ->
  run_txn en oc s envs = (s, None).
Proof.
  intros Hd Ha. unfold run_txn. rewrite txn_envelopes_duplicates by done. cbn [ac_source_fence ac_fences ac_execs
    ac_staged ac_registry ac_work ac_highwater ac_touched no_fences pf_fences].
  assert (Hc : txn_counts (sq_arr s) (txn_arr_deltas en (sq_arr s) envs)
    (head envs ≫= (λ env, h_txid (e_headers env))) (head envs ≫= (λ env, h_lsn (e_headers env)))
    (sq_execs s) ∅ = (sq_arr s, sq_execs s, ∅)).
  { unfold txn_counts. destruct (sq_arr s) as [arr|]; [|done]. specialize (Ha arr eq_refl).
    unfold apply_batch. case_bool_decide; [done|]. rewrite batch_feed_seen by done.
    case_bool_decide; [|done]. case_bool_decide; [|done]. by destruct arr. }
  rewrite Hc. rewrite !bool_decide_eq_false_2 by (by intros []).
  rewrite (bool_decide_eq_true_2 ([] = [])) by done. cbn [orb negb andb].
  unfold flush, publish_runtime. cbn [pf_fences].
  unfold flush.
  assert (Hf : union_with (λ old new : list Envelope, Some (old ++ new)) (sq_streams s) ∅ = sq_streams s)
    by apply right_id, _.
  rewrite Hf. by destruct s.
Qed.

(* ---------------------------------------------------------------- *)
(** ** Failure *)

(** a failed transaction moves no highwater and records no source receipt, so it is retried
    whole; if it failed before its flush (an envelope that does not apply, or two source fences)
    nothing it staged reached a stream, and neither the counts circuit nor the receipt cache
    changed. *)
Theorem failed_txn_atomic en oc s envs s' why :
  run_txn en oc s envs = (s', Some why) ->
  sq_highwater s' = sq_highwater s /\ sq_source_receipts s' = sq_source_receipts s /\
  sq_last_receipt s' = sq_last_receipt s /\
  match why with
  | TwoSourceFences | EnvelopeFailed _ =>
      sq_streams s' = sq_streams s /\ sq_arr s' = sq_arr s /\ sq_receipts s' = sq_receipts s /\
      sq_progress s' = sq_progress s
  | EffectsNotReached => oc_effects_ok oc = false /\ sq_receipts s' = sq_receipts s
  | ReceiptNotAcknowledged => oc_catalog_ok oc = false
  end.
Proof.
  unfold run_txn. cbv zeta.
  destruct (txn_envelopes _ _ _ _) as [a failed] eqn:Et. destruct failed as [why'|].
  - intros [= <- <-]. split_and!; try done.
    assert (Hw : why' = TwoSourceFences \/ exists e, why' = EnvelopeFailed e).
    { revert Et. generalize (mkAcc (sq_execs s) (sq_registry s) (sq_work s) (sq_highwater s) ∅ None
        (no_fences (U := U)) (sq_touched s)).
      induction envs as [|env envs IH]; intros a0; [done|]. simpl.
      destruct (txn_envelope _ _ a0 env) as [a1 [w|]] eqn:E1; [|apply IH].
      intros [= -> ->]. unfold txn_envelope in E1. destruct (is_duplicate _ _); [done|].
      cbv zeta in E1. destruct (bool_decide _); [done|]. destruct (bool_decide _).
      { destruct (ac_source_fence a0); [|done]. injection E1 as <- <-. by left. }
      destruct (exec_for _ _ _) as [execs [exec|]]; [|done].
      destruct (exec_prepare en exec env) as [exec' env'].
      destruct (process_envelope _ _ _ _ _ _ _ _ _ _ _); [done|]. injection E1 as <- <-.
      right. by eexists. }
    by destruct Hw as [->|[e ->]].
  - destruct (txn_counts _ _ _ _ _ _) as [[arr execs] staged].
    destruct (_ && negb (oc_effects_ok oc)) eqn:Ef.
    { intros [= <- <-]. apply andb_true_iff in Ef as [_ Ef%negb_true_iff]. done. }
    destruct (ac_source_fence a); [|done].
    destruct (oc_catalog_ok oc) eqn:Ec; [done|]. by intros [= <- <-].
Qed.

(* ---------------------------------------------------------------- *)
(** ** A transaction through a row shape *)

Definition counts_to (e : TableExec) (q : str) : Prop :=
  exists sid agg, te_circuit_aggs e !! sid = Some agg /\ ca_stream_path agg = q.
Definition exec_writes (e : TableExec) (q : str) : Prop :=
  writes_to (te_shapes e) (te_families e) (te_aggregates e) q.

(** The executors are sound, of known tables, and only [name]'s writes to [path]. *)
Record execs_ok (en : Env) (execs : gmap str TableExec) (name path : str) : Prop := {
  xo_ok : forall n e, execs !! n = Some e ->
    exec_ok (te_shapes e) (te_shape_index e) (te_families e) (te_aggregates e) (te_agg_index e);
  xo_schema : forall n e, execs !! n = Some e ->
    exists t, TableRef_as_str t = n /\ en_tables en !! t = Some (te_ts e);
  xo_alone : forall n e, execs !! n = Some e -> n <> name -> ~ exec_writes e path;
  xo_counts : forall n e, execs !! n = Some e -> ~ counts_to e path
}.

Lemma execs_ok_insert en execs name path n e e' :
  execs_ok en execs name path -> execs !! n = Some e ->
  te_ts e' = te_ts e -> te_shapes e' = te_shapes e -> te_families e' = te_families e ->
  te_shape_index e' = te_shape_index e -> te_agg_index e' = te_agg_index e ->
  te_circuit_aggs e' = te_circuit_aggs e ->
  (exists f : AggShape -> AggShape, te_aggregates e' = f <$> te_aggregates e /\
     forall g, ag_pred (f g) = ag_pred g /\ ag_stream_path (f g) = ag_stream_path g) ->
  execs_ok en (<[n := e']> execs) name path.
Proof.
  intros [H1 H2 H3 H4] Hn Et Es Ef Ei Eai Ec (f & Ea & Hf). split; intros m x Hx;
    (apply lookup_insert_Some in Hx as [[<- <-]|[_ Hx]]; [|by eauto]).
  - rewrite Es, Ef, Ei, Eai, Ea. apply exec_ok_aggs; [done|by eapply H1].
  - rewrite Et. by eapply H2.
  - intros Hne Hw. apply (H3 n e Hn Hne). unfold exec_writes, writes_to in *.
    rewrite Es, Ef, Ea in Hw. destruct Hw as [Hw|[Hw|(sid & g & Ha & Hp)]]; [by left|by right; left|].
    right; right. rewrite lookup_fmap in Ha. apply fmap_Some in Ha as (g0 & Ha & ->).
    exists sid, g0. split; [done|]. by rewrite <- (proj2 (Hf g0)).
  - unfold counts_to. rewrite Ec. by apply (H4 n e).
Qed.

Lemma execs_ok_new en execs name path t ts :
  execs_ok en execs name path -> en_tables en !! t = Some ts ->
  execs_ok en (<[TableRef_as_str t := TableExec_new ts]> execs) name path.
Proof.
  intros [H1 H2 H3 H4] Ht. split; intros m x Hx;
    (apply lookup_insert_Some in Hx as [[<- <-]|[_ Hx]]; [|by eauto]).
  - apply exec_ok_new.
  - by exists t.
  - intros _ [(? & ? & Hw & _)|[(? & ? & ? & (? & ? & Hw & _) & _)|(? & ? & Hw & _)]];
      simpl in Hw; by rewrite lookup_empty in Hw.
  - intros (? & ? & Hw & _). simpl in Hw; by rewrite lookup_empty in Hw.
Qed.

(** [exec_for] finds the executor or makes a new one. *)
Lemma exec_for_ok en execs name path n execs' o :
  execs_ok en execs name path -> exec_for execs (en_tables en) n = (execs', o) ->
  execs_ok en execs' name path /\ (forall m e, execs !! m = Some e -> execs' !! m = Some e) /\
  match o with Some e => execs' !! n = Some e | None => True end.
Proof.
  intros Hok. unfold exec_for. destruct (execs !! n) as [e|] eqn:En; [by intros [= <- <-]|].
  destruct (TableRef_parse n) as [t|]; [|by intros [= <- <-]].
  case_bool_decide as Hc; [|by intros [= <- <-]].
  destruct (en_tables en !! t) as [ts|] eqn:Et; [|by intros [= <- <-]]. intros [= <- <-].
  split_and!; [by apply execs_ok_new| |by rewrite Hc, lookup_insert_eq].
  intros m e Hm. rewrite lookup_insert_ne; [done|]. congruence.
Qed.

(** The table's transitions in a transaction; envelopes of other tables and runtime markers pass
    by, as long as they apply to their own table. *)
Inductive txn_changes (en : Env) (name : str) (ts : TableSchema)
  : list Envelope -> gmap str Row -> gmap str Row -> Prop :=
  | tc_nil T : txn_changes en name ts [] T T
  | tc_here env envs T T1 T2 : e_type env = name -> change ts env T T1 ->
      txn_changes en name ts envs T1 T2 -> txn_changes en name ts (env :: envs) T T2
  | tc_other env envs T T2 : e_type env <> name -> e_type env <> SOURCE_FENCE_ENVELOPE ->
      (forall t ts', en_tables en !! t = Some ts' -> TableRef_as_str t = e_type env ->
         exists r, apply_envelope ts' env = Ok r) ->
      txn_changes en name ts envs T T2 -> txn_changes en name ts (env :: envs) T T2.

(** None of the envelopes is a redelivery. *)
Fixpoint fresh_run (hw : option (Z * Z)) (envs : list Envelope) : Prop :=
  match envs with
  | [] => True
  | env :: envs => is_duplicate hw env = false /\ fresh_run (advance hw env) envs
  end.

(** An accumulator in which the table [name] has an executor with a given routing. *)
Record acc_at (en : Env) a (name path : str) (ts : TableSchema) (shapes : gmap str StandaloneShape)
    (families : Families) : Prop := {
  aa_execs : execs_ok en (ac_execs a) name path;
  aa_exec : exists e, ac_execs a !! name = Some e /\ te_ts e = ts /\ te_shapes e = shapes /\
                      te_families e = families
}.

Context (Hreg : forall (reg : R) ts, registry_answers reg ts).

(** One applicable envelope of the executor [n]. *)
Lemma txn_envelope_applies en inc a env name path exec execs delta txid lsn :
  en_library_mode en = false -> is_duplicate (ac_highwater a) env = false ->
  e_type env <> RUNTIME_ENVELOPE_TYPE -> e_type env <> SOURCE_FENCE_ENVELOPE ->
  exec_for (ac_execs a) (en_tables en) (e_type env) = (execs, Some exec) ->
  execs_ok en (ac_execs a) name path ->
  apply_envelope (te_ts exec) env = Ok (delta, txid, lsn) ->
  exists a' pr, txn_envelope en inc a env = (a', None) /\
    process_envelope (te_ts exec) (en_traced en) false (te_shapes exec) (te_shape_index exec)
      (te_families exec) (te_aggregates exec) (te_agg_index exec) (ac_registry a) env (ac_staged a) = Ok pr /\
    ac_staged a' = pr_staged pr /\ ac_highwater a' = advance (ac_highwater a) env /\
    ac_source_fence a' = ac_source_fence a /\ execs_ok en (ac_execs a') name path /\
    (forall m e, ac_execs a !! m = Some e -> exists e', ac_execs a' !! m = Some e' /\
       te_ts e' = te_ts e /\ te_shapes e' = te_shapes e /\ te_families e' = te_families e).
Proof.
  intros Hlm Hdup Hr Hs Hex Hok Hap.
  destruct (exec_for_ok _ _ _ _ _ _ _ Hok Hex) as (Hok' & Hold & Hn). simpl in Hn.
  destruct (process_envelope_returns (te_ts exec) (en_traced en) false (te_shapes exec)
    (te_shape_index exec) (te_families exec) (te_aggregates exec) (te_agg_index exec) (ac_registry a) env
    (ac_staged a) _ _ _ (Hreg _ _) Hap) as [pr Hpr].
  pose proof (process_envelope_aggs _ _ _ _ _ _ _ _ _ _ _ _ _ _ _ (xo_ok _ _ _ _ Hok' _ _ Hn) Hap Hpr) as Haggs.
  eexists _, pr. unfold txn_envelope, exec_prepare. rewrite Hdup, Hlm. cbv zeta.
  rewrite !bool_decide_eq_false_2, Hex by done. cbn [te_ts te_shapes te_shape_index te_families
    te_aggregates te_agg_index]. rewrite Hpr. split; [done|]. cbn [ac_staged ac_highwater ac_source_fence ac_execs].
  split_and!; try done.
  - eapply execs_ok_insert; [done|exact Hn|done..|]. cbn [exec_processed te_aggregates].
    eexists. split; [exact Haggs|]. intros agg.
    by destruct (agg_change_same (te_ts exec) (change_of delta txid lsn) agg) as (? & ? & _).
  - intros m e Hm. apply Hold in Hm. destruct (decide (m = e_type env)) as [->|Hne].
    + rewrite lookup_insert_eq. rewrite Hn in Hm. injection Hm as <-. by eexists.
    + rewrite lookup_insert_ne by done. by exists e.
Qed.

(** An envelope of the table. *)
Lemma txn_envelope_here en inc a env name path ts shapes families T T1 pred gate cols :
  en_library_mode en = false -> is_duplicate (ac_highwater a) env = false ->
  name <> RUNTIME_ENVELOPE_TYPE -> name <> SOURCE_FENCE_ENVELOPE -> drop_deletes = false ->
  acc_at en a name path ts shapes families -> e_type env = name -> table_ok ts T -> change ts env T T1 ->
  live_shape shapes families pred gate cols path ->
  exists a' out, txn_envelope en inc a env = (a', None) /\ acc_at en a' name path ts shapes families /\
    ac_highwater a' = advance (ac_highwater a) env /\ ac_source_fence a' = ac_source_fence a /\
    table_ok ts T1 /\ emitted (ac_staged a') path = emitted (ac_staged a) path ++ out /\
    (if already_seeded env gate then out = []
     else materialize (filtered ts pred cols T) out = filtered ts pred cols T1).
Proof.
  intros Hlm Hdup Hnr Hns Hdd [Hok (e & He & <- & <- & <-)] Hty HT Hch Hlive.
  destruct (apply_envelope_delta (te_ts e) env T T1 HT Hch) as (delta & Hap & Hd).
  assert (Hex : exec_for (ac_execs a) (en_tables en) (e_type env) = (ac_execs a, Some e)).
  { unfold exec_for. by rewrite Hty, He. }
  destruct (txn_envelope_applies en inc a env name path e (ac_execs a) _ _ _ Hlm Hdup
    ltac:(congruence) ltac:(congruence) Hex Hok Hap) as (a' & pr & E & Hpr & Hst & Hhw & Hsf & Hok' & Hkeep).
  assert (Habs : false && needs_absolute_emission env = false) by done.
  destruct (process_envelope_spec _ _ _ _ _ _ _ _ _ _ _ _ _ _ _ (xo_ok _ _ _ _ Hok _ _ He) Hap Habs Hpr)
    as [Hs _]. specialize (Hs _ _ _ _ Hlive).
  eexists a', _. split; [done|]. split_and!; try done.
  - split; [done|]. destruct (Hkeep name e He) as (e' & He' & ? & ? & ?). by exists e'.
  - by eapply delta_table_ok.
  - rewrite Hst. exact Hs.
  - unfold shape_out. change (gate_skips _ gate) with (already_seeded env gate).
    destruct (already_seeded env gate); [done|]. by apply row_shape_step.
Qed.

(** An envelope of another table, or a marker. *)
Lemma txn_envelope_other en inc a env name path ts shapes families :
  en_library_mode en = false -> is_duplicate (ac_highwater a) env = false ->
  acc_at en a name path ts shapes families ->
  e_type env <> name -> e_type env <> SOURCE_FENCE_ENVELOPE ->
  (forall t ts', en_tables en !! t = Some ts' -> TableRef_as_str t = e_type env ->
     exists r, apply_envelope ts' env = Ok r) ->
  exists a', txn_envelope en inc a env = (a', None) /\ acc_at en a' name path ts shapes families /\
    ac_highwater a' = advance (ac_highwater a) env /\ ac_source_fence a' = ac_source_fence a /\
    emitted (ac_staged a') path = emitted (ac_staged a) path.
Proof.
  intros Hlm Hdup [Hok (e & He & Hts & Hsh & Hfa)] Hty Hns Happ.
  destruct (decide (e_type env = RUNTIME_ENVELOPE_TYPE)) as [Hr|Hr].
  { unfold txn_envelope. rewrite Hdup. cbv zeta. rewrite bool_decide_eq_true_2 by done.
    eexists. split; [done|]. split_and!; try done. split; [done|]. by exists e. }
  destruct (exec_for (ac_execs a) (en_tables en) (e_type env)) as [execs [exec|]] eqn:Hex.
  - destruct (exec_for_ok _ _ _ _ _ _ _ Hok Hex) as (Hok' & _ & Hn). simpl in Hn.
    destruct (xo_schema _ _ _ _ Hok' _ _ Hn) as (t & Ht & Htab).
    destruct (Happ t _ Htab Ht) as [[[delta txid] lsn] Hap].
    destruct (txn_envelope_applies en inc a env name path exec execs _ _ _ Hlm Hdup Hr Hns Hex Hok Hap) as
      (a' & pr & E & Hpr & Hst & Hhw & Hsf & Hok2 & Hkeep).
    exists a'. split; [done|]. split_and!; try done.
    + split; [done|]. destruct (Hkeep name e He) as (e' & He' & ? & ? & ?). exists e'. split_and!; congruence.
    + assert (Habs : false && needs_absolute_emission env = false) by done. rewrite Hst.
      apply (process_envelope_other _ _ _ _ _ _ _ _ _ _ _ _ _ _ _ _ (xo_ok _ _ _ _ Hok' _ _ Hn) Hap Habs Hpr).
      by eapply (xo_alone _ _ _ _ Hok').
  - destruct (exec_for_ok _ _ _ _ _ _ _ Hok Hex) as (Hok' & Hold & _).
    unfold txn_envelope. rewrite Hdup. cbv zeta. rewrite !bool_decide_eq_false_2, Hex by done.
    eexists. split; [done|]. split_and!; try done. split; [done|]. exists e. split_and!; auto.
Qed.

(** The loop. *)
Lemma txn_envelopes_shape en inc name path ts shapes families pred gate cols b envs T T' :
  en_library_mode en = false -> name <> RUNTIME_ENVELOPE_TYPE -> name <> SOURCE_FENCE_ENVELOPE ->
  drop_deletes = false -> live_shape shapes families pred gate cols path ->
  txn_changes en name ts envs T T' -> Forall (λ env, already_seeded env gate = b) envs ->
  table_ok ts T -> forall a, acc_at en a name path ts shapes families -> fresh_run (ac_highwater a) envs ->
  exists a' out, txn_envelopes en inc a envs = (a', None) /\ acc_at en a' name path ts shapes families /\
    ac_source_fence a' = ac_source_fence a /\ table_ok ts T' /\
    emitted (ac_staged a') path = emitted (ac_staged a) path ++ out /\
    (if b then out = [] else materialize (filtered ts pred cols T) out = filtered ts pred cols T').
Proof.
  intros Hlm Hnr Hns Hdd Hlive Hch. induction Hch as [T|env envs T T1 T2 Hty Hc _ IH|env envs T T2 Hty Hns' Happ _ IH];
    intros Hb HT a Hacc Hfresh.
  - exists a, []. rewrite app_nil_r. split_and!; try done. by destruct b.
  - apply Forall_cons in Hb as [Hb1 Hb]. destruct Hfresh as [Hdup Hfresh].
    destruct (txn_envelope_here en inc a env name path ts shapes families T T1 pred gate cols Hlm Hdup Hnr Hns Hdd
      Hacc Hty HT Hc Hlive) as (a1 & o1 & E1 & Hacc1 & Hhw & Hsf & HT1 & Hem & Hm).
    rewrite <- Hhw in Hfresh.
    destruct (IH Hb HT1 a1 Hacc1 Hfresh) as (a2 & o2 & E2 & Hacc2 & Hsf2 & HT2 & Hem2 & Hm2).
    exists a2, (o1 ++ o2). simpl. rewrite E1, E2. split_and!; try done; [congruence| |].
    + by rewrite Hem2, Hem, (assoc_L (++)).
    + rewrite Hb1 in Hm. destruct b; [by rewrite Hm, Hm2|]. by rewrite materialize_app, Hm, Hm2.
  - apply Forall_cons in Hb as [Hb1 Hb]. destruct Hfresh as [Hdup Hfresh].
    destruct (txn_envelope_other en inc a env name path ts shapes families Hlm Hdup Hacc Hty Hns' Happ)
      as (a1 & E1 & Hacc1 & Hhw & Hsf & Hem).
    rewrite <- Hhw in Hfresh.
    destruct (IH Hb HT a1 Hacc1 Hfresh) as (a2 & o2 & E2 & Hacc2 & Hsf2 & HT2 & Hem2 & Hm2).
    exists a2, o2. simpl. rewrite E1, E2. split_and!; try done; [congruence|]. by rewrite Hem2, Hem.
Qed.

(** *** The count stage leaves the shape alone *)

Definition no_counts (execs : gmap str TableExec) (path : str) : Prop :=
  forall n e, execs !! n = Some e -> ~ counts_to e path.

Lemma fold_count_delta_other st d name path e :
  no_counts st.1 path -> st.1 !! name = Some e ->
  no_counts (fold_count_delta st d).1 path /\
  exists e', (fold_count_delta st d).1 !! name = Some e' /\ te_shapes e' = te_shapes e /\
             te_families e' = te_families e.
Proof.
  intros Hn He. unfold fold_count_delta.
  destruct (st.1 !! TableRef_as_str (cd_table d)) as [x|] eqn:Ex; [|split; [done|by exists e]].
  cbn [fst]. split.
  - intros n y [[<- <-]|[_ Hy]]%lookup_insert_Some; [|by eapply Hn].
    intros (sid & agg & Ha & Hp). simpl in Ha. rewrite lookup_fmap in Ha.
    apply fmap_Some in Ha as (b & Hb & ->). rewrite bump_agg_path in Hp. eapply (Hn _ _ Ex).
    by exists sid, b.
  - destruct (decide (name = TableRef_as_str (cd_table d))) as [->|Hne].
    + rewrite lookup_insert_eq. eexists. split; [done|]. simpl. rewrite He in Ex. by injection Ex as <-.
    + rewrite lookup_insert_ne by done. by exists e.
Qed.

Lemma apply_count_deltas_other execs ds txid lsn p name path e :
  no_counts execs path -> execs !! name = Some e ->
  emitted (apply_count_deltas execs ds txid lsn p).2 path = emitted p path /\
  exists e', (apply_count_deltas execs ds txid lsn p).1 !! name = Some e' /\
             te_shapes e' = te_shapes e /\ te_families e' = te_families e.
Proof.
  intros Hn He. unfold apply_count_deltas.
  assert (H : forall ds st e, no_counts st.1 path -> st.1 !! name = Some e ->
    no_counts (foldl fold_count_delta st ds).1 path /\
    exists e', (foldl fold_count_delta st ds).1 !! name = Some e' /\ te_shapes e' = te_shapes e /\
               te_families e' = te_families e).
  { clear. induction ds as [|d ds IH]; intros st e Hn He; [split; [done|by exists e]|]. cbn [foldl].
    destruct (fold_count_delta_other st d name path e Hn He) as [H1 (e1 & He1 & Hs1 & Hf1)].
    destruct (IH _ _ H1 He1) as [H2 (e2 & He2 & Hs2 & Hf2)]. split; [done|]. exists e2.
    split_and!; congruence. }
  destruct (H ds (execs, []) e Hn He) as [H1 H2].
  destruct (foldl fold_count_delta (execs, []) ds) as [execs' ch]. cbn [fst snd] in *. split; [|done].
  revert p. induction ch as [|[t sid] ch IH]; intros p; [done|]. cbn [foldl]. rewrite IH.
  unfold emit_count. cbn [fst snd]. destruct (execs' !! TableRef_as_str t) as [x|] eqn:Ex; [|done].
  destruct (te_circuit_aggs x !! sid) as [agg|] eqn:Ea; [|done]. rewrite (stages_stage _ _ p path).
  unfold on_path. rewrite bool_decide_eq_false_2; [by rewrite app_nil_r|]. intros Hp.
  eapply (H1 _ _ Ex). by exists sid, agg.
Qed.

Lemma flush_lookup (staged : Staged) (streams : gmap str (list Envelope)) q :
  default [] (flush staged streams !! q) = default [] (streams !! q) ++ emitted staged q.
Proof.
  unfold flush, emitted. rewrite lookup_union_with.
  destruct (streams !! q), (staged !! q); simpl; by rewrite ?app_nil_r.
Qed.

(** C4: per-transaction atomic emission.  For a transaction (a run of fresh envelopes with one
    [(txid, lsn)], of any number of tables), [run_txn] succeeds, and its one flush appends to the
    stream of each live row shape exactly a batch that carries the subscriber from the shape's
    view of its table before the transaction to the view after it, or nothing at all when the
    shape's snapshot gate says the transaction was already in its backfill.  The shape stays
    live. *)
Theorem txn_row_shape_refines en oc s envs name path ts exec pred gate cols txid lsn T T' :
  en_library_mode en = false -> drop_deletes = false ->
  name <> RUNTIME_ENVELOPE_TYPE -> name <> SOURCE_FENCE_ENVELOPE ->
  execs_ok en (sq_execs s) name path -> sq_execs s !! name = Some exec -> te_ts exec = ts ->
  live_shape (te_shapes exec) (te_families exec) pred gate cols path ->
  Forall (λ env, h_txid (e_headers env) = txid /\ h_lsn (e_headers env) = lsn) envs ->
  fresh_run (sq_highwater s) envs -> table_ok ts T -> txn_changes en name ts envs T T' ->
  oc_effects_ok oc = true ->
  exists s' out exec', run_txn en oc s envs = (s', None) /\ table_ok ts T' /\
    default [] (sq_streams s' !! path) = default [] (sq_streams s !! path) ++ out /\
    (if gate_skips (change_of [] txid lsn) gate then out = []
     else materialize (filtered ts pred cols T) out = filtered ts pred cols T') /\
    sq_execs s' !! name = Some exec' /\
    live_shape (te_shapes exec') (te_families exec') pred gate cols path.
Proof.
  intros Hlm Hdd Hnr Hns Hok Hex Hts Hlive Hrun Hfresh HT Hch Heff.
  unfold run_txn. cbv zeta.
  set (a0 := mkAcc (sq_execs s) (sq_registry s) (sq_work s) (sq_highwater s) ∅ None _ _).
  assert (Hacc : acc_at en a0 name path ts (te_shapes exec) (te_families exec)).
  { split; [done|]. by exists exec. }
  assert (Hb : Forall (λ env, already_seeded env gate = gate_skips (change_of [] txid lsn) gate) envs).
  { eapply Forall_impl; [exact Hrun|]. intros env [<- <-]. done. }
  destruct (txn_envelopes_shape en (rr_incarnation (sq_receipts s)) name path ts _ _ pred gate cols _ envs T T'
    Hlm Hnr Hns Hdd Hlive Hch Hb HT a0 Hacc Hfresh) as (a & out & E & Hacc' & Hsf & HT' & Hem & Hout).
  rewrite E. destruct Hacc' as [Hok' (e' & He' & _ & Hsh & Hfa)].
  destruct (txn_counts _ _ _ _ _ _) as [[arr execs] staged] eqn:Ec.
  assert (Hc : emitted staged path = emitted (ac_staged a) path /\
    exists e2, execs !! name = Some e2 /\ te_shapes e2 = te_shapes e' /\ te_families e2 = te_families e').
  { unfold txn_counts in Ec. destruct (sq_arr s) as [ar|]; [|injection Ec as _ <- <-; split; [done|by exists e']].
    destruct (apply_batch ar _) as [ar' ds].
    case_bool_decide; [injection Ec as _ <- <-; split; [done|by exists e']|].
    match type of Ec with context [apply_count_deltas ?x ?d ?t ?l ?p] =>
      pose proof (apply_count_deltas_other x d t l p name path e' (xo_counts _ _ _ _ Hok') He') as Ho;
      destruct (apply_count_deltas x d t l p) as [execs2 staged2] end.
    by injection Ec as _ <- <-. }
  destruct Hc as [Hst (e2 & He2 & Hsh2 & Hfa2)].
  rewrite Heff, andb_false_r. cbn [ac_source_fence a0] in Hsf. rewrite Hsf.
  eexists _, out, e2. split; [done|]. split_and!; [done| |done|done|].
  - cbn [sq_streams]. by rewrite flush_lookup, Hst, Hem.
  - congruence.
Qed.
End facts.
