(* ===== verification/Pages.v ===== *)
(** * Reading the change log page by page ([src/apps/engine/src/engine/sequencer.rs])

    The read branch of [sequencer_loop]: control envelopes are dropped, a transaction whose end has
    not arrived is held and re-attached to the next page (skipping what a redelivery repeats),
    complete transactions are run one by one, and the position that is published and checkpointed
    never passes a held transaction.  A closed segment is left only when a read of it delivers
    nothing more.

    Clock readings are in milliseconds; the outcomes of what a transaction awaits are an oracle on
    the transaction. *)

From S2P Require Import Prelude BTree Value TableRef Schema Predicate PredicateFacts Gate Output.
From S2P Require Import Executors Aggregates Refine ChangeLog Sequencer SequencerFacts Planning Counts.
From S2P Require Import RuntimeAuthority Txn.
From stdpp Require Import base option numbers strings gmap fin_maps sorting list.
#[local] Open Scope Z_scope.

(* ------------------------------------------------------------------ *)
(** ** Runs *)

(** [published]. *)
Definition published (pos : LogPosition) (held_from : option LogPosition) : LogPosition :=
  default pos held_from.

(** [run_key] (with [run_key_owned] and [key_ref], its owned form and back). *)
Abbreviation RunKey := (option str * option str)%type.
Definition run_key (env : Envelope) : RunKey := (h_txid (e_headers env), h_lsn (e_headers env)).

(** The leading envelopes with a key, and the rest ([take_while] and [split_off]). *)
Fixpoint span_run (key : RunKey) (envs : list Envelope) : list Envelope * list Envelope :=
  match envs with
  | [] => ([], [])
  | env :: rest =>
      if bool_decide (run_key env = key) then
        let '(lead, tail) := span_run key rest in (env :: lead, tail)
      else ([], envs)
  end.

(** [unterminated_tail]. *)
Definition unterminated_tail (envs : list Envelope) : option nat :=
  env ← last envs;
  if bool_decide (h_last (e_headers env) = Some true) then None
  else
    _ ← h_seq (e_headers env);
    let '(tail, _) := span_run (run_key env) (reverse envs) in
    Some (length envs - length tail)%nat.

(** The transactions of a page: the maximal runs of equal keys ([while i < envs.len()]). *)
Fixpoint split_runs_from (key : RunKey) (run : list Envelope) (envs : list Envelope)
  : list (list Envelope) :=
  match envs with
  | [] => [run]
  | env :: rest =>
      if bool_decide (run_key env = key) then split_runs_from key (run ++ [env]) rest
      else run :: split_runs_from (run_key env) [env] rest
  end.
Definition split_runs (envs : list Envelope) : list (list Envelope) :=
  match envs with [] => [] | env :: rest => split_runs_from (run_key env) [env] rest end.

(** Re-attaching the held run to a page: the merged page and the key it was merged under, or the
    page alone when the held fragment is discarded. *)
Definition seq_after (last_seq : option Z) (env : Envelope) : bool :=
  match h_seq (e_headers env), last_seq with Some seq, Some hs => hs <? seq | _, _ => true end.
Definition reattach (held envs : list Envelope) : list Envelope * option RunKey :=
  match last held with
  | None => (envs, None)
  | Some h =>
      let key := run_key h in
      let '(lead, rest) := span_run key envs in
      if bool_decide (lead = []) && negb (bool_decide (envs = [])) then (envs, None)
      else (held ++ filter (λ e, seq_after (h_seq (e_headers h)) e = true) lead ++ rest, Some key)
  end.

(** What a page leaves to process, what it holds, and whether the hold continues the earlier one. *)
Record Absorbed : Type := mkAbsorbed {
  ab_complete : list Envelope;
  ab_held : list Envelope;
  ab_continues : bool
}.
Definition absorb (held envs : list Envelope) : Absorbed :=
  let '(envs, merged_from) := reattach held envs in
  match unterminated_tail envs with
  | Some cut =>
      mkAbsorbed (take cut envs) (drop cut envs)
        (match merged_from, envs !! cut with
         | Some key, Some env => bool_decide (run_key env = key)
         | _, _ => false
         end)
  | None => mkAbsorbed envs [] false
  end.

(* ------------------------------------------------------------------ *)
(** ** The loop *)

Section loop.
Context {FT : FloatText} {FE : FaultEnv} {MC : MemoryCost}.
Context {R W : Type} {SR : SubqRegistry R W} {D : Type} {CP : CountPipelines D}.
Context {U : Type} {UT : UuidText U} {S : Type} {DS : DurableStore S}.

(** What a read returns. *)
Record ReadResult : Type := mkRead {
  rd_envelopes : list Envelope;
  rd_next_offset : option str;
  rd_closed : bool
}.

(** The variables of [sequencer_loop]; [lo_checkpoints] is what it sent to the catalog. *)
Record Loop : Type := mkLoop {
  lo_seq : SeqState (R := R) (W := W) (D := D) (U := U);
  lo_pos : LogPosition;
  lo_rotate_to : option Z;
  lo_held : list Envelope;
  lo_held_from : option LogPosition;
  lo_processed : LogPosition;
  lo_ckpt : LogPosition * option (Z * Z);
  lo_last_ckpt : Z;
  lo_checkpoints : list (LogPosition * option (Z * Z));
  lo_failed : option TxnFailure
}.

(** The transactions in order, until one fails. *)
Fixpoint run_txns (en : Env) (oc : list Envelope -> Outcome)
    (s : SeqState (R := R) (W := W) (D := D) (U := U)) (runs : list (list Envelope))
  : SeqState * option TxnFailure :=
  match runs with
  | [] => (s, None)
  | run :: runs =>
      match run_txn en (oc run) s run with
      | (s, Some why) => (s, Some why)
      | (s, None) => run_txns en oc s runs
      end
  end.

(** Leaving a closed segment: the position, and whether it was left. *)
Definition cross (store : S) (rr : ReadResult) (delivered : nat) (advanced : bool)
    (pos : LogPosition) (rotate_to : option Z) : LogPosition * option Z * bool :=
  if rd_closed rr && ((delivered =? 0)%nat || negb advanced) then
    match rotate_to with
    | Some n => (pos_start_of n, None, true)
    | None =>
        match next_segment_for_reader store (lp_segment pos) with
        | Ok n => (pos_start_of n, None, true)
        | Err _ => (pos, None, false)
        end
    end
  else (pos, rotate_to, false).

(** The [Ok(rr)] branch, the read not having been overtaken by a pause. *)
Definition page (en : Env) (oc : list Envelope -> Outcome) (store : S) (now : Z) (l : Loop)
    (rr : ReadResult) : Loop :=
  let read_off := lp_offset (lo_pos l) in
  let delivered := length (rd_envelopes rr) in
  let advanced := match rd_next_offset rr with
                  | Some n => negb (bool_decide (n = read_off)) | None => false end in
  let pos := mkPos (lp_segment (lo_pos l)) (default read_off (rd_next_offset rr)) in
  let rotate_to := match rotation_target_in (rd_envelopes rr) with
                   | Some n => Some n | None => lo_rotate_to l end in
  let envs := filter (λ e, is_control e = false) (rd_envelopes rr) in
  let held_replay_from := lo_held_from l in
  let ab := absorb (lo_held l) envs in
  let held_from :=
    if bool_decide (ab_held ab = []) then None
    else if ab_continues ab then lo_held_from l
    else Some (mkPos (lp_segment pos) read_off) in
  let '(s, failed) := run_txns en oc (lo_seq l) (split_runs (ab_complete ab)) in
  match failed with
  | Some why =>
      let '(pos, held_from) := match held_replay_from with
                               | Some from => (from, Some from)
                               | None => (mkPos (lp_segment pos) read_off, held_from)
                               end in
      mkLoop s pos rotate_to (ab_held ab) held_from (lo_processed l) (lo_ckpt l) (lo_last_ckpt l)
             (lo_checkpoints l) (Some why)
  | None =>
      let processed := if rd_next_offset rr then published pos held_from else lo_processed l in
      let '(pos, rotate_to, crossed) := cross store rr delivered advanced pos rotate_to in
      let processed := if crossed then published pos held_from else processed in
      let ckpt := (published pos held_from, sq_highwater s) in
      if crossed || (bool_decide (is_Some (rd_next_offset rr)) && negb (bool_decide (ckpt = lo_ckpt l)) &&
                     (2000 <=? now - lo_last_ckpt l))
      then mkLoop s pos rotate_to (ab_held ab) held_from processed ckpt now (lo_checkpoints l ++ [ckpt]) None
      else mkLoop s pos rotate_to (ab_held ab) held_from processed (lo_ckpt l) (lo_last_ckpt l)
             (lo_checkpoints l) None
  end.

(** The last checkpoint, after the loop. *)
Definition stop (paused : bool) (l : Loop) : Loop :=
  if paused then l
  else mkLoop (lo_seq l) (lo_pos l) (lo_rotate_to l) (lo_held l) (lo_held_from l) (lo_processed l)
         (lo_ckpt l) (lo_last_ckpt l)
         (lo_checkpoints l ++ [(published (lo_pos l) (lo_held_from l), sq_highwater (lo_seq l))])
         (lo_failed l).

(** The reads of a run of the loop: a failure is the last thing it does. *)
Definition pages (en : Env) (oc : list Envelope -> Outcome) (l : Loop)
    (reads : list (S * Z * ReadResult)) : Loop :=
  foldl (λ l r, if lo_failed l then l else page en oc r.1.1 r.1.2 l r.2) l reads.
End loop.
