(* ===== verification/PagesFacts.v ===== *)
(** * Page boundaries do not matter

    However the log is cut into pages, the sequencer runs exactly the log's transactions, whole and
    in order; and every position it checkpoints is one from which a restart re-reads every
    transaction not yet run. *)

From S2P Require Import Prelude BTree Value TableRef Schema Predicate PredicateFacts Gate Output.
From S2P Require Import Executors Aggregates Refine ChangeLog Sequencer SequencerFacts Planning Counts.
From S2P Require Import RuntimeAuthority Txn Pages.
From stdpp Require Import base option numbers strings gmap fin_maps sorting list.
#[local] Open Scope Z_scope.

(* ------------------------------------------------------------------ *)
(** ** The log *)

(** A transaction as the ingestor appends it: one key, running sequence numbers, and the end marker
    on its last envelope and nowhere else. *)
Record txn_wf (key : RunKey) (t : list Envelope) : Prop := {
  tw_key : Forall (λ e, run_key e = key) t;
  tw_seq : forall i e, t !! i = Some e -> is_Some (h_seq (e_headers e));
  tw_sorted : forall i j a b x y, (i < j)%nat -> t !! i = Some a -> t !! j = Some b ->
    h_seq (e_headers a) = Some x -> h_seq (e_headers b) = Some y -> x < y;
  tw_last : exists init e, t = init ++ [e] /\ h_last (e_headers e) = Some true /\
    Forall (λ e, h_last (e_headers e) <> Some true) init
}.

(** Transactions, each of a key of its own next to its neighbours. *)
Fixpoint log_ok (prev : option RunKey) (txns : list (list Envelope)) : Prop :=
  match txns with
  | [] => True
  | t :: txns => exists key, txn_wf key t /\ prev <> Some key /\ log_ok (Some key) txns
  end.

Lemma txn_wf_nonempty key t : txn_wf key t -> t <> [].
Proof. intros [_ _ _ (init & e & -> & _)]. by destruct init. Qed.

(** [l] does not begin with [key]. *)
Definition starts_not (key : RunKey) (l : list Envelope) : Prop :=
  forall e, head l = Some e -> run_key e <> key.

Lemma span_run_app key a b :
  Forall (λ e, run_key e = key) a -> starts_not key b -> span_run key (a ++ b) = (a, b).
Proof.
  intros Ha Hb. induction Ha as [|e a He _ IH]; simpl.
  - destruct b as [|e b]; [done|]. simpl. by rewrite bool_decide_eq_false_2 by by apply Hb.
  - rewrite bool_decide_eq_true_2 by done. by rewrite IH.
Qed.

Lemma log_starts prev txns key : log_ok prev txns -> prev = Some key -> starts_not key (concat txns).
Proof.
  intros H ->. destruct txns as [|t txns]; [done|]. destruct H as (key' & Hw & Hne & _).
  destruct t as [|e t]; [by apply txn_wf_nonempty in Hw|]. intros x [= <-].
  pose proof (tw_key _ _ Hw) as Hk. apply Forall_cons in Hk as [-> _]. congruence.
Qed.

(** ** Splitting complete pages *)

Lemma split_runs_from_app key run a b :
  Forall (λ e, run_key e = key) a ->
  split_runs_from key run (a ++ b) = split_runs_from key (run ++ a) b.
Proof.
  intros Ha. revert run. induction Ha as [|e a He _ IH]; intros run; simpl; [by rewrite app_nil_r|].
  rewrite bool_decide_eq_true_2, IH by done. by rewrite <- (assoc_L (++)).
Qed.

Lemma split_runs_from_other key run b :
  starts_not key b -> split_runs_from key run b = run :: split_runs b.
Proof.
  intros Hb. destruct b as [|e b]; [done|]. simpl. by rewrite bool_decide_eq_false_2 by by apply Hb.
Qed.

Lemma split_runs_concat txns : forall prev, log_ok prev txns -> split_runs (concat txns) = txns.
Proof.
  induction txns as [|t txns IH]; intros prev H; [done|]. destruct H as (key & Hw & _ & Hl).
  pose proof (txn_wf_nonempty _ _ Hw) as Hne. pose proof (tw_key _ _ Hw) as Hk. cbn [concat].
  destruct t as [|e t]; [done|]. apply Forall_cons in Hk as [He Hk].
  cbn [app split_runs]. rewrite He, split_runs_from_app, split_runs_from_other by
    (done || by eapply log_starts). by rewrite (IH _ Hl).
Qed.

(** ** Cutting the log anywhere *)

(** A position in the log: whole transactions, then a proper part of the next. *)
Definition part_of (txns : list (list Envelope)) (n k : nat) : list Envelope :=
  take k (default [] (txns !! n)).

Lemma prefix_parts txns : forall prev l rest, log_ok prev txns -> l ++ rest = concat txns ->
  exists n k, l = concat (take n txns) ++ part_of txns n k /\
    (n <= length txns)%nat /\ (k < length (default [] (txns !! n)) \/ k = 0)%nat.
Proof.
  induction txns as [|t txns IH]; intros prev l rest H Hl.
  { exists 0%nat, 0%nat. apply app_eq_nil in Hl as [-> _]. split_and!; [done|simpl; lia|by right]. }
  destruct H as (key & Hw & _ & Hlog). cbn [concat] in Hl.
  destruct (decide (length t <= length l)%nat) as [Hge|Hlt].
  - assert (Ht : l = t ++ drop (length t) l).
    { rewrite <- (take_drop (length t) l) at 1. f_equal.
      apply (f_equal (take (length t))) in Hl. rewrite take_app_le, take_app_length in Hl by lia. done. }
    rewrite Ht, <- (assoc_L (++)) in Hl. apply app_inv_head in Hl.
    destruct (IH _ _ _ Hlog Hl) as (n & k & E & Hn & Hk). exists (Datatypes.S n), k.
    split_and!; [|simpl; lia|done]. rewrite Ht, E. cbn [take concat]. by rewrite (assoc_L (++)).
  - exists 0%nat, (length l). unfold part_of. simpl. split_and!; [|lia|left; lia].
    apply (f_equal (take (length l))) in Hl. rewrite take_app_length, take_app_le in Hl by lia. done.
Qed.

Lemma log_ok_lookup txns n t : forall prev, log_ok prev txns -> txns !! n = Some t ->
  exists key, txn_wf key t /\ log_ok (Some key) (drop (Datatypes.S n) txns).
Proof.
  revert n. induction txns as [|u txns IH]; intros n prev H Hn; [done|].
  destruct H as (key & Hw & _ & Hl). destruct n as [|n]; simpl in *.
  - injection Hn as <-. by exists key.
  - by eapply IH.
Qed.

Lemma log_ok_drop txns n : forall prev, log_ok prev txns -> exists prev', log_ok prev' (drop n txns).
Proof.
  revert n. induction txns as [|t txns IH]; intros [|n] prev H; simpl; try (by exists prev).
  destruct H as (key & _ & _ & H). by eapply IH.
Qed.

Lemma log_ok_take txns n : forall prev, log_ok prev txns -> log_ok prev (take n txns).
Proof.
  revert n. induction txns as [|t txns IH]; intros [|n] prev H; simpl; try done.
  destruct H as (key & Hw & Hp & H). exists key. split_and!; [done..|]. by apply IH.
Qed.

(** The envelopes before a transaction end on another key. *)
Lemma take_last_key txns n key e : forall prev,
  log_ok prev txns -> (exists t, txns !! n = Some t /\ txn_wf key t) ->
  last (concat (take n txns)) = Some e -> run_key e <> key.
Proof.
  revert n. induction txns as [|u txns IH]; intros n prev H (t & Hn & Hw) Hlast; [done|].
  destruct H as (ku & Hu & _ & Hl). destruct n as [|n]; simpl in *; [done|].
  destruct (decide (concat (take n txns) = [])) as [E|E].
  - rewrite E, app_nil_r in Hlast.
    assert (Hke : run_key e = ku).
    { pose proof (tw_key _ _ Hu) as Hk. rewrite Forall_forall in Hk. apply Hk.
      apply last_Some_elem_of. done. }
    destruct n as [|n].
    + destruct txns as [|v txns]; [done|]. injection Hn as ->.
      destruct Hl as (kv & Hv & Hne & _). rewrite Hke. intros <-. apply Hne. f_equal.
      destruct t as [|x t]; [by apply txn_wf_nonempty in Hw|].
      pose proof (tw_key _ _ Hw) as H1. pose proof (tw_key _ _ Hv) as H2.
      apply Forall_cons in H1 as [<- _]. apply Forall_cons in H2 as [<- _]. done.
    + destruct txns as [|v txns]; [done|]. simpl in E. apply app_eq_nil in E as [-> _].
      destruct Hl as (kv & Hv & _). by apply txn_wf_nonempty in Hv.
  - rewrite last_app in Hlast. destruct (last (concat (take n txns))) as [x|] eqn:El; [|by apply last_None in El].
    injection Hlast as ->. eapply IH; [exact Hl| |exact El]. by exists t.
Qed.

(* ------------------------------------------------------------------ *)
(** ** Absorbing a page *)

(** [h] is a proper part of the first of [ts]. *)
Definition proper_part (h : list Envelope) (ts : list (list Envelope)) : Prop :=
  h = [] \/ exists t ts' k, ts = t :: ts' /\ h = take k t /\ (k < length t)%nat.

Lemma proper_part_of ts n k :
  (k < length (default [] (ts !! n)) \/ k = 0)%nat -> proper_part (part_of ts n k) (drop n ts).
Proof.
  intros Hk. unfold part_of. destruct (ts !! n) as [t|] eqn:E; simpl in *.
  - destruct Hk as [Hk| ->]; [|by left]. right. exists t, (drop (Datatypes.S n) ts), k.
    split_and!; [by apply drop_S|done|done].
  - left. by rewrite take_nil.
Qed.

(** Re-attaching a transaction's part to a page that resumes anywhere at or before its end restores
    the transaction, whatever of it the page repeats. *)
Lemma filter_all {A} (f : A -> bool) (l : list A) :
  Forall (λ x, f x = true) l -> filter (λ x, f x = true) l = l.
Proof. induction 1 as [|x l Hx _ IH]; [done|]. rewrite filter_cons, decide_True by done. by rewrite IH. Qed.
Lemma filter_none {A} (f : A -> bool) (l : list A) :
  Forall (λ x, f x = false) l -> filter (λ x, f x = true) l = [].
Proof.
  induction 1 as [|x l Hx _ IH]; [done|]. rewrite filter_cons, decide_False by (by rewrite Hx). done.
Qed.

Lemma last_take_S {A} (t : list A) k : (k < length t)%nat -> last (take (Datatypes.S k) t) = t !! k.
Proof.
  intros Hk. destruct (lookup_lt_is_Some_2 _ _ Hk) as [x Hx].
  by rewrite (take_S_r _ _ x Hx), last_snoc.
Qed.

Lemma seq_after_split key t k j h :
  txn_wf key t -> (j <= k)%nat -> (k < length t)%nat -> t !! k = Some h ->
  filter (λ e, seq_after (h_seq (e_headers h)) e = true) (drop j t) = drop (Datatypes.S k) t.
Proof.
  intros Hw Hj Hk Hh. destruct (tw_seq _ _ Hw _ _ Hh) as [hs Hhs].
  assert (E : drop j t = drop j (take (Datatypes.S k) t) ++ drop (Datatypes.S k) t).
  { rewrite <- (take_drop (Datatypes.S k) t) at 1. rewrite drop_app_le; [done|]. rewrite length_take. lia. }
  rewrite E, filter_app, filter_none, filter_all; [done| |]; apply Forall_lookup; intros i e Hi;
    unfold seq_after; rewrite Hhs.
  - rewrite lookup_drop in Hi. destruct (tw_seq _ _ Hw _ _ Hi) as [es Hes]. rewrite Hes.
    apply Z.ltb_lt. eapply (tw_sorted _ _ Hw k (Datatypes.S k + i)); eauto. lia.
  - rewrite lookup_drop in Hi. apply lookup_take_Some in Hi as [Hi Hlt].
    destruct (tw_seq _ _ Hw _ _ Hi) as [es Hes]. rewrite Hes. apply Z.ltb_ge.
    destruct (decide (j + i = k)%nat) as [<-|Hne].
    + rewrite Hi in Hh. injection Hh as <-. rewrite Hes in Hhs. injection Hhs as <-. lia.
    + enough (es < hs) by lia. eapply (tw_sorted _ _ Hw (j + i) k); eauto. lia.
Qed.

Lemma reattach_resumed key t k j rest :
  txn_wf key t -> starts_not key rest -> (j <= Datatypes.S k)%nat -> (Datatypes.S k < length t)%nat ->
  reattach (take (Datatypes.S k) t) (drop j t ++ rest) = (t ++ rest, Some key).
Proof.
  intros Hw Hr Hj Hk. unfold reattach. rewrite last_take_S by lia.
  destruct (lookup_lt_is_Some_2 t k ltac:(lia)) as [h Hh]. rewrite Hh.
  pose proof (tw_key _ _ Hw) as HF.
  assert (Hkey : run_key h = key) by (eapply (Forall_lookup_1 _ _ _ _ HF), Hh).
  rewrite Hkey, span_run_app by (done || by apply Forall_drop).
  rewrite bool_decide_eq_false_2 by (intros E; apply (f_equal length) in E; rewrite length_drop in E; simpl in E; lia).
  cbn [andb]. f_equal. destruct (decide (j <= k)%nat) as [Hjk|Hjk].
  - rewrite (seq_after_split _ _ _ _ _ Hw Hjk ltac:(lia) Hh). by rewrite (assoc_L (++)), take_drop.
  - assert (j = Datatypes.S k) as -> by lia.
    assert (Ef : filter (λ e, seq_after (h_seq (e_headers h)) e = true) (drop (Datatypes.S k) t)
                 = drop (Datatypes.S k) t).
    { rewrite <- (seq_after_split _ _ _ _ _ Hw (le_n k) ltac:(lia) Hh) at 1.
      rewrite <- (seq_after_split _ _ _ _ _ Hw (le_n k) ltac:(lia) Hh).
      apply list_filter_filter_l. done. }
    rewrite Ef. by rewrite (assoc_L (++)), take_drop.
Qed.

(** The part already held goes on where it stopped. *)
Lemma reattach_next prev ts h envs rest :
  log_ok prev ts -> proper_part h ts -> h ++ envs ++ rest = concat ts ->
  reattach h envs = (h ++ envs, run_key <$> last h).
Proof.
  intros Hlog [->|(t & ts' & k & -> & -> & Hk)] Hcat; [done|].
  destruct Hlog as (key & Hw & _ & Hlog). destruct k as [|k]; [done|].
  assert (Hne : take (Datatypes.S k) t <> []) by (destruct t; [simpl in Hk; lia|done]).
  cbn [concat] in Hcat. rewrite <- (take_drop (Datatypes.S k) t) in Hcat at 2.
  rewrite <- (assoc_L (++)) in Hcat. apply app_inv_head in Hcat.
  destruct (decide (envs = [])) as [->|Hnil].
  { unfold reattach. rewrite last_take_S by lia.
    destruct (lookup_lt_is_Some_2 t k ltac:(lia)) as [h Hh]. rewrite Hh. cbn. by rewrite app_nil_r. }
  pose proof (log_starts _ _ _ Hlog eq_refl) as Hst.
  destruct (decide (length (drop (Datatypes.S k) t) <= length envs)%nat) as [Hge|Hlt].
  - assert (E : exists r, envs = drop (Datatypes.S k) t ++ r /\ r ++ rest = concat ts').
    { exists (drop (length (drop (Datatypes.S k) t)) envs).
      assert (E : take (length (drop (Datatypes.S k) t)) envs = drop (Datatypes.S k) t).
      { apply (f_equal (take (length (drop (Datatypes.S k) t)))) in Hcat.
        by rewrite take_app_le, take_app_length in Hcat by lia. }
      split; [by rewrite <- E at 1; rewrite take_drop|].
      apply (f_equal (drop (length (drop (Datatypes.S k) t)))) in Hcat.
      by rewrite drop_app_le, drop_app_length in Hcat by lia. }
    destruct E as (r & -> & Hr).
    assert (Hr' : starts_not key r) by (intros e He; apply Hst; rewrite <- Hr; by destruct r).
    rewrite (reattach_resumed key) by (done || lia).
    destruct (lookup_lt_is_Some_2 t k ltac:(lia)) as [h Hh]. pose proof (tw_key _ _ Hw) as HF.
    rewrite last_take_S, Hh, (assoc_L (++)), take_drop by lia. cbn. repeat f_equal.
    symmetry. apply (Forall_lookup_1 _ _ _ _ HF Hh).
  - assert (E : envs = take (length envs) (drop (Datatypes.S k) t)).
    { apply (f_equal (take (length envs))) in Hcat.
      rewrite take_app_length, take_app_le in Hcat by lia. done. }
    set (n := length envs) in *.
    unfold reattach. rewrite last_take_S by lia.
    destruct (lookup_lt_is_Some_2 t k ltac:(lia)) as [h Hh]. rewrite Hh.
    pose proof (tw_key _ _ Hw) as HF.
    assert (Hkey : run_key h = key) by (eapply (Forall_lookup_1 _ _ _ _ HF), Hh).
    assert (Hsp : span_run key envs = (envs, [])).
    { rewrite <- (app_nil_r envs) at 1. apply span_run_app; [|done]. rewrite E.
      by apply Forall_take, Forall_drop. }
    rewrite Hkey, Hsp, bool_decide_eq_false_2 by done. cbn [andb].
    rewrite app_nil_r. cbn. rewrite Hkey. do 2 f_equal. apply filter_all. apply Forall_lookup.
    intros i e He. rewrite E in He. apply lookup_take_Some in He as [He _]. rewrite lookup_drop in He.
    unfold seq_after. destruct (tw_seq _ _ Hw _ _ He) as [es Hes], (tw_seq _ _ Hw _ _ Hh) as [hs Hhs].
    rewrite Hes, Hhs. apply Z.ltb_lt. eapply (tw_sorted _ _ Hw k (Datatypes.S k + i)); eauto. lia.
Qed.

Lemma concat_take_last prev ts n e :
  log_ok prev ts -> last (concat (take n ts)) = Some e -> h_last (e_headers e) = Some true.
Proof.
  revert prev n. induction ts as [|t ts IH]; intros prev [|n] Hlog He; simpl in He; try done.
  destruct Hlog as (key & Hw & _ & Hlog). rewrite last_app in He.
  destruct (last (concat (take n ts))) as [x|] eqn:El.
  - injection He as ->. by eapply IH.
  - destruct (tw_last _ _ Hw) as (init & x & -> & Hx & _). rewrite last_snoc in He. by injection He as <-.
Qed.

(** The end of a page that stops inside transaction [n] is where that transaction begins. *)
Lemma unterminated_tail_spec prev ts n k :
  log_ok prev ts -> (k < length (default [] (ts !! n)) \/ k = 0)%nat ->
  unterminated_tail (concat (take n ts) ++ part_of ts n k) =
    if bool_decide (part_of ts n k = []) then None else Some (length (concat (take n ts))).
Proof.
  intros Hlog Hk. case_bool_decide as Hp.
  - rewrite Hp, app_nil_r. unfold unterminated_tail.
    destruct (last (concat (take n ts))) as [e|] eqn:El; [|done]. cbn.
    by rewrite bool_decide_eq_true_2 by (by eapply concat_take_last).
  - unfold part_of in *. destruct (ts !! n) as [t|] eqn:Et; [|by destruct k].
    cbn [default from_option] in *. unfold id in *. destruct Hk as [Hk| ->]; [|done].
    destruct k as [|k]; [done|].
    destruct (log_ok_lookup _ _ _ _ Hlog Et) as (key & Hw & _).
    destruct (lookup_lt_is_Some_2 t k ltac:(lia)) as [e He].
    pose proof (tw_key _ _ Hw) as HF.
    assert (Hkey : run_key e = key) by (eapply (Forall_lookup_1 _ _ _ _ HF), He).
    unfold unterminated_tail. rewrite last_app, last_take_S, He by lia. cbn.
    destruct (tw_last _ _ Hw) as (init & z & -> & _ & Hinit). rewrite length_app in Hk. simpl in Hk.
    rewrite lookup_app_l in He by lia.
    rewrite bool_decide_eq_false_2 by (apply (Forall_lookup_1 _ _ _ _ Hinit He)).
    destruct (tw_seq _ _ Hw k e) as [x Hx]; [by rewrite lookup_app_l by lia|]. rewrite Hx. cbn.
    rewrite reverse_app, Hkey, span_run_app.
    + rewrite length_app, length_reverse. f_equal. lia.
    + apply Forall_reverse. by apply Forall_take.
    + intros y Hy. rewrite head_reverse in Hy. eapply take_last_key; [exact Hlog|by eexists|exact Hy].
Qed.

(** One page: what is complete, what is held, and where the held part began. *)
Lemma absorb_spec prev ts h envs rest :
  log_ok prev ts -> proper_part h ts -> h ++ envs ++ rest = concat ts ->
  exists m, (m <= length ts)%nat /\
    ab_complete (absorb h envs) = concat (take m ts) /\
    h ++ envs = concat (take m ts) ++ ab_held (absorb h envs) /\
    proper_part (ab_held (absorb h envs)) (drop m ts) /\
    (ab_continues (absorb h envs) = true -> h <> []) /\
    (ab_continues (absorb h envs) = false -> h = [] \/ m <> 0%nat \/ ab_held (absorb h envs) = []).
Proof.
  intros Hlog Hpart Hcat. rewrite (assoc_L (++)) in Hcat.
  destruct (prefix_parts _ _ _ _ Hlog Hcat) as (m & k & Hl & Hm & Hk).
  rewrite <- (assoc_L (++)) in Hcat.
  pose proof (reattach_next _ _ _ _ _ Hlog Hpart Hcat) as Hre.
  exists m. split; [done|]. unfold absorb. rewrite Hre, Hl, (unterminated_tail_spec _ _ _ _ Hlog Hk).
  case_bool_decide as Hp.
  { cbn. rewrite Hp. split_and!; [by rewrite app_nil_r|done|by left|done|by auto]. }
  cbn [ab_complete ab_held ab_continues]. rewrite take_app_length, drop_app_length.
  split_and!; [done|done|by apply proper_part_of| |].
  - by intros Hc ->.
  - intros Hc. destruct Hpart as [->|(t & ts' & j & -> & -> & Hj)]; [by left|].
    destruct j as [|j]; [by left|]. right; left. intros ->. revert Hc.
    destruct Hlog as (key & Hw & _). pose proof (tw_key _ _ Hw) as HF.
    rewrite last_take_S by lia. destruct (lookup_lt_is_Some_2 t j ltac:(lia)) as [x Hx]. rewrite Hx.
    cbn. unfold part_of. cbn. destruct k as [|k]; [done|]. destruct t as [|e t]; [done|]. cbn.
    rewrite bool_decide_eq_true_2; [done|].
    transitivity key; [by apply Forall_cons in HF as [? _]|symmetry; apply (Forall_lookup_1 _ _ _ _ HF Hx)].
Qed.

(* ------------------------------------------------------------------ *)
(** ** The loop *)

Section loop.
Context {FT : FloatText} {FE : FaultEnv} {MC : MemoryCost}.
Context {R W : Type} {SR : SubqRegistry R W} {D : Type} {CP : CountPipelines D}.
Context {U : Type} {UT : UuidText U} {S : Type} {DS : DurableStore S}.

Notation SeqState := (SeqState (R := R) (W := W) (D := D) (U := U)).
Notation Loop := (Loop (R := R) (W := W) (D := D) (U := U)).
Implicit Types (en : Env) (oc : list Envelope -> Outcome) (s : SeqState) (l : Loop).

(** What a read brings besides control envelopes. *)
Definition data (rr : ReadResult) : list Envelope :=
  filter (λ e, is_control e = false) (rd_envelopes rr).

Lemma run_txns_app en oc s xs ys :
  run_txns en oc s (xs ++ ys) =
    match run_txns en oc s xs with
    | (s, Some why) => (s, Some why)
    | (s, None) => run_txns en oc s ys
    end.
Proof.
  revert s. induction xs as [|x xs IH]; intros s; simpl; [done|].
  by destruct (run_txn en (oc x) s x) as [s' [why|]].
Qed.

Lemma run_txn_failed_highwater en o s envs s' why :
  run_txn en o s envs = (s', Some why) -> sq_highwater s' = sq_highwater s.
Proof.
  unfold run_txn. destruct (txn_envelopes _ _ _ _) as [a [w|]]; [by intros [= <- _]|].
  destruct (txn_counts _ _ _ _ _ _) as [[arr execs] staged].
  destruct (_ && _); [by intros [= <- _]|].
  destruct (ac_source_fence a); [|done]. destruct (oc_catalog_ok o); [done|]. by intros [= <- _].
Qed.

(** A failed run leaves the highwater of the transactions before the failed one. *)
Lemma run_txns_failed en oc ts : forall s s' why,
  run_txns en oc s ts = (s', Some why) ->
  exists n sn, (n <= length ts)%nat /\ run_txns en oc s (take n ts) = (sn, None) /\
    sq_highwater s' = sq_highwater sn.
Proof.
  induction ts as [|t ts IH]; intros s s' why H; simpl in H; [done|].
  destruct (run_txn en (oc t) s t) as [s1 [w|]] eqn:E.
  - injection H as <- <-. exists 0%nat, s. split_and!; [simpl; lia|done|].
    by eapply run_txn_failed_highwater.
  - destruct (IH _ _ _ H) as (n & sn & Hn & Hrun & Hhw). exists (Datatypes.S n), sn.
    split_and!; [simpl; lia| |done]. simpl. by rewrite E.
Qed.

(** A page runs the transactions that end in it. *)
Lemma page_runs en oc store now l rr prev ts rest :
  log_ok prev ts -> proper_part (lo_held l) ts -> lo_held l ++ data rr ++ rest = concat ts ->
  exists m, (m <= length ts)%nat /\
    run_txns en oc (lo_seq l) (take m ts) =
      (lo_seq (page en oc store now l rr), lo_failed (page en oc store now l rr)) /\
    lo_held l ++ data rr = concat (take m ts) ++ lo_held (page en oc store now l rr) /\
    proper_part (lo_held (page en oc store now l rr)) (drop m ts) /\
    lo_held (page en oc store now l rr) = ab_held (absorb (lo_held l) (data rr)) /\
    ab_complete (absorb (lo_held l) (data rr)) = concat (take m ts) /\
    (ab_continues (absorb (lo_held l) (data rr)) = true -> lo_held l <> []) /\
    (ab_continues (absorb (lo_held l) (data rr)) = false ->
       lo_held l = [] \/ m <> 0%nat \/ ab_held (absorb (lo_held l) (data rr)) = []).
Proof.
  intros Hlog Hp Hcat. destruct (absorb_spec _ _ _ _ _ Hlog Hp Hcat) as (m & Hm & Hc & Hh & Hp' & Hct & Hcf).
  exists m. split; [done|].
  assert (Heff : run_txns en oc (lo_seq l) (take m ts) =
            (lo_seq (page en oc store now l rr), lo_failed (page en oc store now l rr)) /\
            lo_held (page en oc store now l rr) = ab_held (absorb (lo_held l) (data rr))).
  { unfold page. fold (data rr). rewrite Hc, (split_runs_concat _ _ (log_ok_take _ _ _ Hlog)).
    destruct (run_txns en oc (lo_seq l) (take m ts)) as [s [why|]].
    - by destruct (lo_held_from l).
    - destruct (cross _ _ _ _ _ _) as [[pos rot] crossed].
      by destruct (crossed || _). }
  destruct Heff as [-> ->]. split_and!; done.
Qed.

Lemma pages_failed en oc reads l why : lo_failed l = Some why -> pages en oc l reads = l.
Proof. intros E. induction reads as [|r reads IH]; [done|]. unfold pages in *. simpl. by rewrite E. Qed.

Lemma pages_cons en oc l store now rr reads :
  lo_failed l = None -> pages en oc l ((store, now, rr) :: reads) = pages en oc (page en oc store now l rr) reads.
Proof. intros E. unfold pages. simpl. by rewrite E. Qed.

Lemma pages_runs en oc reads : forall l prev ts rest,
  log_ok prev ts -> lo_failed l = None -> proper_part (lo_held l) ts ->
  lo_held l ++ concat (data <$> (snd <$> reads)) ++ rest = concat ts ->
  exists m part, lo_held l ++ concat (data <$> (snd <$> reads)) = concat (take m ts) ++ part /\
    proper_part part (drop m ts) /\
    run_txns en oc (lo_seq l) (take m ts) = (lo_seq (pages en oc l reads), lo_failed (pages en oc l reads)) /\
    (lo_failed (pages en oc l reads) = None -> lo_held (pages en oc l reads) = part).
Proof.
  induction reads as [|[[store now] rr] reads IH]; intros l prev ts rest Hlog Hf Hp Hcat.
  { exists 0%nat, (lo_held l). cbn. rewrite app_nil_r. split_and!; [done|done|by rewrite Hf|done]. }
  rewrite pages_cons by done. cbn [fmap list_fmap snd concat] in Hcat |- *.
  rewrite <- (assoc_L (++)) in Hcat.
  destruct (page_runs en oc store now l rr _ _ _ Hlog Hp Hcat) as (m & Hm & Hrun & Hh & Hp' & _).
  destruct (log_ok_drop _ m _ Hlog) as [prev' Hlog'].
  assert (Hcat' : lo_held (page en oc store now l rr) ++ concat (data <$> (snd <$> reads)) ++ rest = concat (drop m ts)).
  { apply (app_inv_head (concat (take m ts))). rewrite (assoc_L (++)), <- Hh, <- concat_app, take_drop, <- Hcat.
    by rewrite <- (assoc_L (++)). }
  destruct (lo_failed (page en oc store now l rr)) as [why|] eqn:Ef.
  - rewrite (pages_failed _ _ _ _ _ Ef), Ef.
    rewrite (assoc_L (++)) in Hcat'.
    destruct (prefix_parts _ _ _ _ Hlog' Hcat') as (m2 & k & E & _ & Hk).
    exists (m + m2)%nat, (part_of (drop m ts) m2 k). split_and!; [| | |done].
    + rewrite (assoc_L (++)), Hh, <- (assoc_L (++)), E, (assoc_L (++)), <- concat_app. f_equal. f_equal.
      by rewrite take_take_drop.
    + rewrite <- drop_drop. by apply proper_part_of.
    + rewrite <- take_take_drop, run_txns_app, Hrun. done.
  - destruct (IH _ _ _ _ Hlog' Ef Hp' Hcat') as (m2 & part & E & Hpp & Hrun2 & Hheld).
    exists (m + m2)%nat, part. split_and!; [| | |done].
    + rewrite (assoc_L (++)), Hh, <- (assoc_L (++)), E, (assoc_L (++)), <- concat_app. f_equal. f_equal.
      by rewrite take_take_drop.
    + by rewrite <- drop_drop.
    + by rewrite <- take_take_drop, run_txns_app, Hrun.
Qed.

(** C5: however the change log is cut into pages, the sequencer runs exactly its transactions,
    each whole and in order: after any reads, what was delivered is whole transactions followed by
    a proper part of the next one, the state and the outcome are those of running the whole ones
    one by one, and (when none failed) the part is what is held. *)
Theorem pages_run_transactions en oc l reads txns rest :
  log_ok None txns -> lo_failed l = None -> lo_held l = [] ->
  concat (data <$> (snd <$> reads)) ++ rest = concat txns ->
  exists m part, concat (data <$> (snd <$> reads)) = concat (take m txns) ++ part /\
    proper_part part (drop m txns) /\
    run_txns en oc (lo_seq l) (take m txns) = (lo_seq (pages en oc l reads), lo_failed (pages en oc l reads)) /\
    (lo_failed (pages en oc l reads) = None -> lo_held (pages en oc l reads) = part).
Proof.
  intros Hlog Hf Hh Hcat.
  destruct (pages_runs en oc reads l None txns rest Hlog Hf) as (m & part & E & H);
    [rewrite Hh; by left|by rewrite Hh|].
  exists m, part. by rewrite Hh in E.
Qed.

(* ---------------------------------------------------------------- *)
(** ** Checkpoints *)

(** [from p]: what the log delivers from [p] on. *)
Variable from : LogPosition -> list Envelope.

(** Re-reading from [p] brings every transaction after the first [n]: before them only
    transactions already run. *)
Definition covers (txns : list (list Envelope)) (n : nat) (p : LogPosition) : Prop :=
  exists pre, from p = pre ++ concat (drop n txns) /\ pre `suffix_of` concat (take n txns).

(** A checkpoint from which a restart loses nothing: the position covers what has not been run,
    and the highwater is that of exactly the transactions run. *)
Definition checkpoint_ok en oc s txns (c : LogPosition * option (Z * Z)) : Prop :=
  exists n sn, covers txns n c.1 /\ run_txns en oc s (take n txns) = (sn, None) /\
    c.2 = sq_highwater sn.

(** The reads of a run are of the log: each brings what is between its position and the one it
    ends at, and a segment is left at the end of what it holds. *)
Fixpoint faithful en oc l (reads : list (S * Z * ReadResult)) : Prop :=
  match reads with
  | [] => True
  | (store, now, rr) :: reads =>
      let pos := mkPos (lp_segment (lo_pos l)) (default (lp_offset (lo_pos l)) (rd_next_offset rr)) in
      from (lo_pos l) = data rr ++ from pos /\
      (forall advanced rotate_to pos' rotate_to',
         cross store rr (length (rd_envelopes rr)) advanced pos rotate_to = (pos', rotate_to', true) ->
         from pos' = from pos) /\
      match lo_failed (page en oc store now l rr) with
      | None => faithful en oc (page en oc store now l rr) reads
      | Some _ => True
      end
  end.

(** The loop between two reads, [n] transactions into the log. *)
Record at_page en oc s txns l (n : nat) : Prop := {
  at_ok : lo_failed l = None;
  at_runs : run_txns en oc s (take n txns) = (lo_seq l, None);
  at_part : proper_part (lo_held l) (drop n txns);
  at_rest : lo_held l ++ from (lo_pos l) = concat (drop n txns);
  at_pin : match lo_held_from l with Some p => covers txns n p | None => lo_held l = [] end;
  at_ckpts : Forall (checkpoint_ok en oc s txns) (lo_checkpoints l)
}.

Lemma at_published en oc s txns l n :
  at_page en oc s txns l n -> covers txns n (published (lo_pos l) (lo_held_from l)).
Proof.
  intros [_ _ _ Hrest Hpin _]. destruct (lo_held_from l) as [p|]; [done|].
  exists []. rewrite Hpin in Hrest. split; [done|]. apply suffix_nil.
Qed.

Lemma at_checkpoint en oc s txns l n :
  at_page en oc s txns l n ->
  checkpoint_ok en oc s txns (published (lo_pos l) (lo_held_from l), sq_highwater (lo_seq l)).
Proof. intros H. exists n, (lo_seq l). split_and!; [by eapply at_published|by apply H|done]. Qed.

Lemma covers_shift txns n m p : covers txns n p -> covers txns (n + m) p.
Proof.
  intros (pre & E & x & Hs). exists (pre ++ concat (take m (drop n txns))). split.
  - by rewrite E, <- (assoc_L (++)), <- concat_app, <- drop_drop, take_drop.
  - exists x. rewrite <- take_take_drop, concat_app, Hs. by rewrite <- (assoc_L (++)).
Qed.

Lemma lp_eta p : mkPos (lp_segment p) (lp_offset p) = p.
Proof. by destruct p. Qed.

(** A failed page rewinds to what it started from. *)
Lemma page_rewinds en oc store now l rr why :
  lo_failed (page en oc store now l rr) = Some why ->
  published (lo_pos (page en oc store now l rr)) (lo_held_from (page en oc store now l rr)) =
    published (lo_pos l) (lo_held_from l) /\
  lo_checkpoints (page en oc store now l rr) = lo_checkpoints l.
Proof.
  unfold page. destruct (run_txns _ _ _ _) as [s [w|]].
  - cbn [lo_failed]. intros _. destruct (lo_held_from l) as [p|]; cbn; [done|].
    rewrite lp_eta. split; [|done]. by repeat case_match.
  - destruct (cross _ _ _ _ _ _) as [[pos rot] crossed]. by destruct (crossed || _).
Qed.

(** A page that succeeds: its hold, its position and the checkpoint it may write. *)
Lemma page_moves en oc store now l rr :
  lo_failed (page en oc store now l rr) = None ->
  let ab := absorb (lo_held l) (data rr) in
  let l' := page en oc store now l rr in
  lo_held_from l' = (if bool_decide (ab_held ab = []) then None
                     else if ab_continues ab then lo_held_from l else Some (lo_pos l)) /\
  (exists advanced rot rot' crossed,
     cross store rr (length (rd_envelopes rr)) advanced
       (mkPos (lp_segment (lo_pos l)) (default (lp_offset (lo_pos l)) (rd_next_offset rr))) rot
     = (lo_pos l', rot', crossed)) /\
  (lo_checkpoints l' = lo_checkpoints l \/
   lo_checkpoints l' = lo_checkpoints l ++
     [(published (lo_pos l') (lo_held_from l'), sq_highwater (lo_seq l'))]).
Proof.
  unfold page. fold (data rr). destruct (run_txns _ _ _ _) as [s [w|]].
  { intros H. exfalso. by destruct (lo_held_from l). }
  destruct (cross _ _ _ _ _ _) as [[pos rot] crossed] eqn:Ec. cbn [lp_segment]. rewrite lp_eta.
  intros _. cbv zeta. destruct (crossed || _); (split_and!; [done|by eauto 6|by auto]).
Qed.

Lemma cross_from store rr delivered advanced pos rot pos' rot' crossed :
  cross store rr delivered advanced pos rot = (pos', rot', crossed) ->
  crossed = false -> pos' = pos.
Proof.
  unfold cross. destruct (_ && _); [|by intros [= <- _ _]].
  destruct rot as [n|]; [by intros [= _ _ <-]|].
  destruct (next_segment_for_reader _ _); [by intros [= _ _ <-]|by intros [= <- _ _]].
Qed.

(** A new hold is pinned to the page it begins in, and that covers it. *)
Lemma new_hold_covered txns n m h envs held' p pos :
  h ++ from p = concat (drop n txns) -> from p = envs ++ from pos ->
  h ++ envs = concat (take m (drop n txns)) ++ held' ->
  (h = [] \/ exists t ts' k, take m (drop n txns) = t :: ts' /\ h = take k t) ->
  covers txns (n + m) p.
Proof.
  intros Hrest Hfrom Hh Hpre.
  assert (E : exists pre, envs = pre ++ held' /\ pre `suffix_of` concat (take m (drop n txns))).
  { destruct Hpre as [->|(t & ts' & k & Ht & ->)].
    { exists (concat (take m (drop n txns))). by split. }
    exists (drop k t ++ concat ts'). rewrite Ht in Hh |- *. cbn [concat] in Hh |- *. split.
    - apply (app_inv_head (take k t)). rewrite Hh.
      by rewrite !(assoc_L (++)), take_drop.
    - exists (take k t). by rewrite (assoc_L (++)), take_drop. }
  destruct E as (pre & -> & x & Hs). exists pre. split.
  - rewrite Hfrom, <- (assoc_L (++)). f_equal.
    apply (app_inv_head (concat (take m (drop n txns)))).
    rewrite (assoc_L (++)), <- Hh, <- (assoc_L (++)), <- Hfrom, Hrest, <- concat_app, <- drop_drop.
    by rewrite take_drop.
  - exists (concat (take n txns) ++ x). rewrite <- take_take_drop, concat_app, Hs.
    by rewrite (assoc_L (++)).
Qed.

Lemma take_nonzero {A} (t : A) ts m : m <> 0%nat -> exists ts', take m (t :: ts) = t :: ts'.
Proof. destruct m as [|m]; [done|]. intros _. by eexists. Qed.

Lemma next_rest txns n m h envs held' p pos :
  h ++ from p = concat (drop n txns) -> from p = envs ++ from pos ->
  h ++ envs = concat (take m (drop n txns)) ++ held' ->
  held' ++ from pos = concat (drop (n + m) txns).
Proof.
  intros Hrest Hfrom Hh. apply (app_inv_head (concat (take m (drop n txns)))).
  rewrite (assoc_L (++)), <- Hh, <- (assoc_L (++)), <- Hfrom, Hrest, <- concat_app, <- drop_drop.
  by rewrite take_drop.
Qed.

(** A failed page leaves the position a restart needs, with the highwater of what was run. *)
Lemma page_failed_at en oc s txns l n m store now rr why :
  let l' := page en oc store now l rr in
  at_page en oc s txns l n -> lo_failed l' = Some why ->
  run_txns en oc (lo_seq l) (take m (drop n txns)) = (lo_seq l', Some why) ->
  checkpoint_ok en oc s txns (published (lo_pos l') (lo_held_from l'), sq_highwater (lo_seq l')) /\
  Forall (checkpoint_ok en oc s txns) (lo_checkpoints l').
Proof.
  intros l' Hat Ef Hrun. destruct (page_rewinds _ _ _ _ _ _ _ Ef) as [Hpub Hck]. fold l' in Hpub, Hck.
  rewrite Hpub, Hck. split; [|by apply Hat].
  destruct (run_txns_failed _ _ _ _ _ _ Hrun) as (k & sn & Hk & Hsn & Hhw).
  exists (n + k)%nat, sn. split_and!; [by apply covers_shift, (at_published _ _ _ _ _ _ Hat)| |done].
  rewrite <- take_take_drop, run_txns_app, (at_runs _ _ _ _ _ _ Hat).
  rewrite length_take in Hk. by rewrite take_take, Nat.min_l in Hsn by lia.
Qed.

(** A page's hold is pinned where it began. *)
Lemma page_pin en oc s txns l n m envs pos :
  let ab := absorb (lo_held l) envs in
  at_page en oc s txns l n -> from (lo_pos l) = envs ++ from pos ->
  lo_held l ++ envs = concat (take m (drop n txns)) ++ ab_held ab ->
  (ab_continues ab = true -> lo_held l <> []) ->
  (ab_continues ab = false -> lo_held l = [] \/ m <> 0%nat \/ ab_held ab = []) ->
  match (if bool_decide (ab_held ab = []) then None
         else if ab_continues ab then lo_held_from l else Some (lo_pos l)) with
  | Some p => covers txns (n + m) p
  | None => ab_held ab = []
  end.
Proof.
  intros ab Hat Hpos Hh Hct Hcf. case_bool_decide as Hnil; [done|]. destruct (ab_continues ab).
  - pose proof (at_pin _ _ _ _ _ _ Hat) as Hpin.
    destruct (lo_held_from l); [by apply covers_shift|by destruct (Hct eq_refl)].
  - eapply new_hold_covered; [apply Hat|exact Hpos|exact Hh|].
    destruct (at_part _ _ _ _ _ _ Hat) as [?|(t & ts' & k & Et & ? & Hk)]; [by left|].
    destruct (Hcf eq_refl) as [?|[Hm0|?]]; [by left| |done].
    right. rewrite Et. destruct (take_nonzero t ts' m Hm0) as [ts'' ->]. by eauto.
Qed.

Lemma page_at en oc s txns l n store now rr reads rest :
  log_ok None txns -> at_page en oc s txns l n ->
  faithful en oc l ((store, now, rr) :: reads) ->
  lo_held l ++ data rr ++ rest = concat (drop n txns) ->
  let l' := page en oc store now l rr in
  match lo_failed l' with
  | Some _ => checkpoint_ok en oc s txns (published (lo_pos l') (lo_held_from l'), sq_highwater (lo_seq l')) /\
              Forall (checkpoint_ok en oc s txns) (lo_checkpoints l')
  | None => exists n', at_page en oc s txns l' n'
  end.
Proof.
  intros Hlog0 Hat (Hfrom & Hcross & _) Hcat l'. destruct (log_ok_drop _ n _ Hlog0) as [prev Hlog].
  destruct (page_runs en oc store now l rr _ _ _ Hlog (at_part _ _ _ _ _ _ Hat) Hcat)
    as (m & Hm & Hrun & Hh & Hp' & Hheld & _ & Hct & Hcf).
  fold l' in Hrun, Hh, Hp', Hheld. destruct (lo_failed l') as [why|] eqn:Ef.
  { by eapply page_failed_at. }
  destruct (page_moves _ _ _ _ _ _ Ef) as (Hhf & (adv & rot & rot' & crossed & Hc) & Hck).
  fold l' in Hhf, Hc, Hck.
  assert (Hpos : from (lo_pos l) = data rr ++ from (lo_pos l')).
  { rewrite Hfrom. f_equal. destruct crossed; [symmetry; by eapply Hcross|].
    by rewrite (cross_from _ _ _ _ _ _ _ _ _ Hc eq_refl). }
  rewrite Hheld in Hh. pose proof (page_pin _ _ _ _ _ _ _ _ _ Hat Hpos Hh Hct Hcf) as Hpin.
  rewrite <- Hhf, <- Hheld in Hpin. rewrite <- Hheld in Hh.
  pose proof (next_rest _ _ _ _ _ _ _ _ (at_rest _ _ _ _ _ _ Hat) Hpos Hh) as Hrest.
  assert (Hruns : run_txns en oc s (take (n + m) txns) = (lo_seq l', None)).
  { by rewrite <- take_take_drop, run_txns_app, (at_runs _ _ _ _ _ _ Hat). }
  exists (n + m)%nat. split; [done|done|by rewrite <- drop_drop|done|done|].
  destruct Hck as [->| ->]; [apply Hat|]. apply Forall_app; split; [apply Hat|].
  apply Forall_singleton. exists (n + m)%nat, (lo_seq l'). split_and!; [|done|done].
  cbn [fst]. unfold published. destruct (lo_held_from l') as [p|]; [done|]. exists [].
  rewrite Hpin in Hrest. split; [done|apply suffix_nil].
Qed.

Lemma pages_checkpoints en oc s txns reads : forall l n,
  log_ok None txns -> at_page en oc s txns l n -> faithful en oc l reads ->
  Forall (checkpoint_ok en oc s txns) (lo_checkpoints (stop false (pages en oc l reads))).
Proof.
  induction reads as [|[[store now] rr] reads IH]; intros l n Hlog Hat Hf.
  { cbn. apply Forall_app; split; [apply Hat|]. apply Forall_singleton. by eapply at_checkpoint. }
  rewrite pages_cons by apply Hat.
  pose proof (page_at en oc s txns l n store now rr reads
    (from (mkPos (lp_segment (lo_pos l)) (default (lp_offset (lo_pos l)) (rd_next_offset rr)))) Hlog Hat Hf) as Hstep.
  destruct Hf as (Hfrom & _ & Hf). rewrite <- Hfrom in Hstep. specialize (Hstep (at_rest _ _ _ _ _ _ Hat)).
  cbv zeta in Hstep. destruct (lo_failed (page en oc store now l rr)) as [why|] eqn:Ef.
  - destruct Hstep as [Hs Hck]. rewrite (pages_failed _ _ _ _ _ Ef). cbn.
    apply Forall_app; split; [done|]. by apply Forall_singleton.
  - destruct Hstep as [n' Hat']. by eapply IH.
Qed.

(** C6: every position the sequencer checkpoints, while running and when it stops (after a failed
    transaction too), is one from which a restart re-reads every transaction not yet run, whole,
    after nothing but transactions already run; and the highwater stored with it is exactly that
    of the transactions run. *)
Theorem checkpoints_lose_nothing en oc l reads txns :
  log_ok None txns -> lo_failed l = None -> lo_held l = [] -> lo_held_from l = None ->
  lo_checkpoints l = [] -> from (lo_pos l) = concat txns -> faithful en oc l reads ->
  Forall (checkpoint_ok en oc (lo_seq l) txns) (lo_checkpoints (stop false (pages en oc l reads))).
Proof.
  intros Hlog Hok Hheld Hhf Hck Hfrom Hf. apply (pages_checkpoints _ _ _ _ _ l 0 Hlog); [|done].
  split; [done|done|rewrite Hheld; by left|by rewrite Hheld|by rewrite Hhf|by rewrite Hck].
Qed.
End loop.

(** a transaction held in part is made whole by any page that resumes it, wherever at or before
    its held end the page starts: what the page repeats is skipped, nothing of the transaction is
    lost or doubled, and what follows it is untouched. *)
Theorem reattach_redelivery key t k j rest :
  txn_wf key t -> starts_not key rest -> (j <= Datatypes.S k)%nat -> (Datatypes.S k < length t)%nat ->
  reattach (take (Datatypes.S k) t) (drop j t ++ rest) = (t ++ rest, Some key).
Proof. apply reattach_resumed. Qed.
