(* ===== verification/Retention.v ===== *)
(** * Shape retention: the sweep planner ([retention.rs])

    The configuration read from the environment, the status snapshot of a shape, and the pure
    planner [plan_sweep] that decides which shapes go dormant and which are evicted: parked cursors
    that can no longer be replayed, the dormancy TTL, the shape-count cap and the disk budget, the
    last two in least-recently-read order over one shared iterator.

    A [Duration] is its number of nanoseconds.  The one addition of durations panics when the
    result has more than [u64::MAX] whole seconds; the planner is therefore a partial function
    whose [None] is that panic, and [plan_sweep_total] says when it cannot happen. *)

From S2P Require Import Prelude.
From stdpp Require Import base option numbers strings gmap fin_maps sorting list.
#[local] Open Scope Z_scope.


(** [std::time::Duration], in nanoseconds. *)
Abbreviation Duration := Z.
Definition from_secs (s : Z) : Duration := s * 1000000000.
Definition as_secs (d : Duration) : Z := d / 1000000000.
(** [Duration::checked_add]; [+] panics where it is [None]. *)
Definition duration_add (a b : Duration) : option Duration :=
  if as_secs (a + b) <=? u64_max then Some (a + b) else None.

Record RetentionConfig := MkRetentionConfig {
  idle_timeout : Duration;
  subscription_lease_timeout : Duration;
  dormant_ttl : Duration;
  replay_min_bytes : Z;
  replay_multiplier : Z;
  max_shapes : Z;
  disk_budget_bytes : Z;
  sweep_interval : Duration;
  reactivation_join_timeout : Duration;
  pending_buffer_max_bytes : Z;
}.

Definition default_config : RetentionConfig := {|
  idle_timeout := from_secs (6 * 3600);
  subscription_lease_timeout := from_secs 1800;
  dormant_ttl := from_secs (7 * 24 * 3600);
  replay_min_bytes := 16 * 1024 * 1024;
  replay_multiplier := 4;
  max_shapes := 10000;
  disk_budget_bytes := 0;
  sweep_interval := from_secs 60;
  reactivation_join_timeout := from_secs 20;
  pending_buffer_max_bytes := 64 * 1024 * 1024;
|}.

Definition replay_budget (cfg : RetentionConfig) (backfill_bytes : option Z) : Z :=
  Z.max (replay_min_bytes cfg)
        (sat_mul_u64 (default 0 backfill_bytes) (replay_multiplier cfg)).

(** [env_u64], with the process environment as the argument [get]. *)
Definition env_u64 (get : str -> option str) (name : str) (d : Z) : Z :=
  default d (s ← get name; parse_u64 (trim s)).

Definition from_env (get : str -> option str) : RetentionConfig :=
  let d := default_config in
  let legacy_idle :=
    v ← get $"ELECTRIC_CIRCUITS_SHAPE_IDLE_SECS"; parse_u64 (trim v) in
  let lease_secs :=
    default (as_secs (subscription_lease_timeout d))
      (match (v ← get $"ELECTRIC_CIRCUITS_SUBSCRIPTION_LEASE_SECS"; parse_u64 (trim v)) with
       | Some n => Some n
       | None => legacy_idle
       end) in
  {| idle_timeout := from_secs (default (as_secs (idle_timeout d)) legacy_idle);
     subscription_lease_timeout := from_secs lease_secs;
     dormant_ttl := from_secs (env_u64 get $"ELECTRIC_CIRCUITS_SHAPE_DORMANT_TTL_SECS"
                                        (as_secs (dormant_ttl d)));
     replay_min_bytes := env_u64 get $"ELECTRIC_CIRCUITS_REPLAY_MIN_BYTES" (replay_min_bytes d);
     replay_multiplier := env_u64 get $"ELECTRIC_CIRCUITS_REPLAY_MULTIPLIER" (replay_multiplier d);
     max_shapes := env_u64 get $"ELECTRIC_CIRCUITS_MAX_SHAPES" (max_shapes d);
     disk_budget_bytes :=
       sat_mul_u64 (env_u64 get $"ELECTRIC_CIRCUITS_SHAPE_DISK_BUDGET_MB" 0) (1024 * 1024);
     sweep_interval :=
       from_secs (Z.max (env_u64 get $"ELECTRIC_CIRCUITS_RETENTION_SWEEP_SECS" 60) 1);
     reactivation_join_timeout :=
       from_secs (env_u64 get $"ELECTRIC_CIRCUITS_REACTIVATION_JOIN_TIMEOUT_SECS"
                          (as_secs (reactivation_join_timeout d)));
     pending_buffer_max_bytes :=
       env_u64 get $"ELECTRIC_CIRCUITS_PENDING_BUFFER_MAX_BYTES" (pending_buffer_max_bytes d) |}.

Record SweepShape := MkSweepShape {
  id : str;
  refcount : Z;
  idle : Duration;
  dormant_for : option Duration;
  in_transition : bool;
  dormancy_eligible : bool;
  stream_bytes : Z;
  replay_span_bytes : option Z;
  replay_span_deferred : bool;
  backfill_bytes : option Z;
}.

Inductive EvictReason :=
  | DormantTtl
  | MaxShapes
  | DiskBudget
  | ChangeLogRetention
  | ReplayBudget.

#[export] Instance EvictReason_eq_dec : EqDecision EvictReason.
Proof. solve_decision. Defined.

Record SweepPlan := MkSweepPlan {
  deactivate : list str;
  evict : list (str * EvictReason);
  over_capacity : bool;
  over_budget : bool;
}.

Definition is_dormant (s : SweepShape) : bool :=
  match dormant_for s with Some _ => true | None => false end.

(** Tier 0: the guard of the dormancy loop. *)
Definition goes_dormant (cfg : RetentionConfig) (s : SweepShape) : bool :=
  dormancy_eligible s && negb (in_transition s) && negb (is_dormant s) &&
  (refcount s =? 0) && (idle_timeout cfg <=? idle s).

Definition plan_deactivate (cfg : RetentionConfig) (shapes : list SweepShape) : list str :=
  if idle_timeout cfg =? 0 then [] else id <$> filter (λ s, goes_dormant cfg s) shapes.

(** The planner's two mutable locals: [plan.evict] and the set [evicted]. *)
Record Sweep := MkSweep { sw_evict : list (str * EvictReason); sw_evicted : gset str }.

Definition mark (s : SweepShape) (r : EvictReason) (w : Sweep) : Sweep :=
  MkSweep (sw_evict w ++ [(id s, r)]) ({[id s]} ∪ sw_evicted w).

(** The body of the cursor loop. *)
Definition cursor_step (cfg : RetentionConfig) (w : Sweep) (s : SweepShape) : Sweep :=
  if is_dormant s then
    if replay_span_deferred s then w
    else match replay_span_bytes s with
         | None => mark s ChangeLogRetention w
         | Some n =>
             if replay_budget cfg (backfill_bytes s) <? n then mark s ReplayBudget w else w
         end
  else w.

(** Tier 1: a shape dormant for longer than the TTL. *)
Definition ttl_step (cfg : RetentionConfig) (w : Sweep) (s : SweepShape) : Sweep :=
  match dormant_for s with
  | Some d => if dormant_ttl cfg <=? d then mark s DormantTtl w else w
  | None => w
  end.

(** Tier 1: a shape that cannot park, after the whole grace; [None] is the panic of [+]. *)
Definition retire_step (cfg : RetentionConfig) (w : Sweep) (s : SweepShape) : option Sweep :=
  if negb (dormancy_eligible s) && negb (in_transition s) && (refcount s =? 0) then
    grace ← duration_add (idle_timeout cfg) (dormant_ttl cfg);
    Some (if grace <=? idle s then mark s DormantTtl w else w)
  else Some w.

Definition plan_ttl (cfg : RetentionConfig) (shapes : list SweepShape) (w : Sweep)
    : option Sweep :=
  if dormant_ttl cfg =? 0 then Some w
  else foldl (λ mw s, w ← mw; retire_step cfg w s)
             (Some (foldl (ttl_step cfg) w shapes)) shapes.

(** [sort_by_key(Reverse(idle))]: stable, largest idle first. *)
Definition lru_leb (a b : SweepShape) : bool := idle b <=? idle a.

Definition lru_order (shapes : list SweepShape) (w : Sweep) : list SweepShape :=
  stable_sort lru_leb (filter (λ s, is_dormant s && bool_decide (id s ∉ sw_evicted w)) shapes).

(** Tier 2: the loop over the shared iterator; the flag is [plan.over_capacity]. *)
Fixpoint cap_loop (cap count : Z) (lru : list SweepShape) (w : Sweep)
    : list SweepShape * Sweep * bool :=
  if cap <? count then
    match lru with
    | s :: lru' => cap_loop cap (count - 1) lru' (mark s MaxShapes w)
    | [] => ([], w, true)
    end
  else (lru, w, false).

(** Tier 3, on what tier 2 left of the iterator; the flag is [plan.over_budget]. *)
Fixpoint budget_loop (budget total : Z) (lru : list SweepShape) (w : Sweep) : Sweep * bool :=
  if budget <? total then
    match lru with
    | s :: lru' =>
        budget_loop budget (sat_sub_u64 total (stream_bytes s)) lru' (mark s DiskBudget w)
    | [] => (w, true)
    end
  else (w, false).

(** [iter().sum::<u64>()]. *)
Definition live_bytes (shapes : list SweepShape) (w : Sweep) : Z :=
  foldl (λ acc s, wrap_u64 (acc + stream_bytes s)) 0
        (filter (λ s, id s ∉ sw_evicted w) shapes).

Definition plan_cap (cfg : RetentionConfig) (shapes : list SweepShape)
    (lru : list SweepShape) (w : Sweep) : list SweepShape * Sweep * bool :=
  if 0 <? max_shapes cfg then
    cap_loop (max_shapes cfg) (Z.of_nat (length shapes) - Z.of_nat (size (sw_evicted w))) lru w
  else (lru, w, false).

Definition plan_budget (cfg : RetentionConfig) (shapes : list SweepShape)
    (lru : list SweepShape) (w : Sweep) : Sweep * bool :=
  if 0 <? disk_budget_bytes cfg then
    budget_loop (disk_budget_bytes cfg) (live_bytes shapes w) lru w
  else (w, false).

Definition plan_sweep (cfg : RetentionConfig) (shapes : list SweepShape) : option SweepPlan :=
  let w0 := foldl (cursor_step cfg) (MkSweep [] ∅) shapes in
  w1 ← plan_ttl cfg shapes w0;
  let '(lru2, w2, over_c) := plan_cap cfg shapes (lru_order shapes w1) w1 in
  let '(w3, over_b) := plan_budget cfg shapes lru2 w2 in
  Some (MkSweepPlan (plan_deactivate cfg shapes) (sw_evict w3) over_c over_b).

(* ------------------------------------------------------------------ *)
(** ** What a sweep promises *)

(** Why a shape may be evicted, by reason. *)
Definition justified (cfg : RetentionConfig) (s : SweepShape) (r : EvictReason) : Prop :=
  match r with
  | ChangeLogRetention =>
      is_dormant s = true /\ replay_span_deferred s = false /\ replay_span_bytes s = None
  | ReplayBudget =>
      is_dormant s = true /\ replay_span_deferred s = false /\
      exists n, replay_span_bytes s = Some n /\ replay_budget cfg (backfill_bytes s) < n
  | DormantTtl =>
      dormant_ttl cfg <> 0 /\
      ((exists d, dormant_for s = Some d /\ dormant_ttl cfg <= d) \/
       (dormancy_eligible s = false /\ in_transition s = false /\ refcount s = 0 /\
        idle_timeout cfg + dormant_ttl cfg <= idle s))
  | MaxShapes => is_dormant s = true /\ 0 < max_shapes cfg
  | DiskBudget => is_dormant s = true /\ 0 < disk_budget_bytes cfg
  end.

(** The reasons of tiers 2 and 3. *)
Definition pressure (r : EvictReason) : bool :=
  match r with MaxShapes | DiskBudget => true | _ => false end.

(** The shapes a plan leaves standing, weighed by [f]. *)
Definition live_sum (f : SweepShape -> Z) (shapes : list SweepShape) (E : gset str) : Z :=
  foldr (λ s acc, (if decide (id s ∈ E) then 0 else f s) + acc) 0 shapes.

Definition evicted_ids (p : SweepPlan) : gset str := list_to_set (evict p).*1.

Section sweep.
Context (cfg : RetentionConfig) (shapes : list SweepShape).

(** The two locals before tier 2: they agree, every entry is justified by a shape of the snapshot,
    and none of them is an eviction under pressure. *)
Definition sweep_ok (w : Sweep) : Prop :=
  sw_evicted w = list_to_set (sw_evict w).*1 /\
  Forall (λ p, (exists s, s ∈ shapes /\ id s = p.1 /\ justified cfg s p.2) /\
               pressure p.2 = false) (sw_evict w).

Lemma mark_ok s r w :
  pressure r = false -> s ∈ shapes -> justified cfg s r -> sweep_ok w -> sweep_ok (mark s r w).
Proof.
  intros Hp Hs Hj [He Hf]; split; simpl.
  - rewrite fmap_app, list_to_set_app_L, He; simpl. set_solver.
  - apply Forall_app; split; [done|]. constructor; [|done]. split; [exists s; eauto | done].
Qed.

Lemma foldl_ok (f : Sweep -> SweepShape -> Sweep) l w :
  (forall w s, s ∈ l -> sweep_ok w -> sweep_ok (f w s)) -> sweep_ok w -> sweep_ok (foldl f w l).
Proof.
  revert w; induction l as [|s l IH]; intros w Hf Hw; simpl; [done|].
  apply IH; [|apply Hf; [left | done]]. intros w' s' Hs'; apply Hf; by right.
Qed.

Lemma cursor_step_ok w s : s ∈ shapes -> sweep_ok w -> sweep_ok (cursor_step cfg w s).
Proof.
  intros Hs Hw. unfold cursor_step.
  destruct (is_dormant s) eqn:Hd; [|done].
  destruct (replay_span_deferred s) eqn:Hdef; [done|].
  destruct (replay_span_bytes s) as [n|] eqn:Hn; [|by apply mark_ok].
  destruct (Z.ltb_spec (replay_budget cfg (backfill_bytes s)) n); [|done].
  apply mark_ok; [done|done| |done]. simpl; eauto.
Qed.

Lemma ttl_step_ok w s :
  dormant_ttl cfg <> 0 -> s ∈ shapes -> sweep_ok w -> sweep_ok (ttl_step cfg w s).
Proof.
  intros Hz Hs Hw. unfold ttl_step. destruct (dormant_for s) as [d|] eqn:Hd; [|done].
  destruct (Z.leb_spec (dormant_ttl cfg) d); [|done].
  apply mark_ok; [done|done| |done]. split; [done|]. left; eauto.
Qed.

Lemma retire_step_ok w s w' :
  dormant_ttl cfg <> 0 -> s ∈ shapes -> sweep_ok w ->
  retire_step cfg w s = Some w' -> sweep_ok w'.
Proof.
  intros Hz Hs Hw. unfold retire_step, duration_add.
  destruct (_ && _) eqn:Hc; [|by intros [= <-]]. bool_prop.
  destruct (_ <=? u64_max); [|done]; simpl.
  destruct (Z.leb_spec (idle_timeout cfg + dormant_ttl cfg) (idle s)); intros [= <-]; [|done].
  apply mark_ok; [done|done| |done]. split; [done|]. by right.
Qed.

Lemma plan_ttl_ok w w' : sweep_ok w -> plan_ttl cfg shapes w = Some w' -> sweep_ok w'.
Proof.
  unfold plan_ttl. destruct (Z.eqb_spec (dormant_ttl cfg) 0) as [|Hz]; [by intros ? [= <-]|].
  intros Hw Hf.
  assert (Hw1 : sweep_ok (foldl (ttl_step cfg) w shapes))
    by (apply foldl_ok; [intros; by apply ttl_step_ok | done]).
  revert Hf Hw1. generalize (foldl (ttl_step cfg) w shapes).
  assert (Hsub : forall s, s ∈ shapes -> s ∈ shapes) by done. revert Hsub.
  generalize shapes at 1 3; intros l; induction l as [|s l IH]; simpl; intros Hsub w1 Hf Hw1.
  - by injection Hf as <-.
  - destruct (retire_step cfg w1 s) as [w2|] eqn:H2.
    + apply (IH (λ s' H, Hsub s' (list_elem_of_further _ _ _ H)) w2 Hf).
      eapply retire_step_ok; [done | apply Hsub; left | exact Hw1 | exact H2].
    + exfalso. clear -Hf. induction l; simpl in Hf; [done | auto].
Qed.

Lemma cap_loop_spec cap count lru w lru' w' over :
  cap_loop cap count lru w = (lru', w', over) ->
  exists tc, lru = tc ++ lru' /\ w' = foldl (λ w s, mark s MaxShapes w) w tc /\
    if over then lru' = [] else count - Z.of_nat (length tc) <= cap.
Proof.
  revert count w; induction lru as [|s lru IH]; intros count w; simpl;
    destruct (Z.ltb_spec cap count).
  - intros [= <- <- <-]. by exists [].
  - intros [= <- <- <-]. exists []; simpl; repeat split; lia.
  - intros (tc & -> & -> & Ho)%IH. exists (s :: tc); simpl; repeat split.
    destruct over; [done | lia].
  - intros [= <- <- <-]. exists []; simpl; repeat split; lia.
Qed.

Lemma budget_loop_spec budget total lru w w' over :
  budget_loop budget total lru w = (w', over) ->
  exists tb rest, lru = tb ++ rest /\ w' = foldl (λ w s, mark s DiskBudget w) w tb /\
    if over then rest = []
    else foldl (λ t s, sat_sub_u64 t (stream_bytes s)) total tb <= budget.
Proof.
  revert total w; induction lru as [|s lru IH]; intros total w; simpl;
    destruct (Z.ltb_spec budget total).
  - intros [= <- <-]. by exists [], [].
  - intros [= <- <-]. by exists [], [].
  - intros (tb & rest & -> & -> & Ho)%IH. by exists (s :: tb), rest.
  - intros [= <- <-]. by exists [], (s :: lru).
Qed.

Lemma foldl_mark r l w :
  foldl (λ w s, mark s r w) w l
  = MkSweep (sw_evict w ++ ((λ s, (id s, r)) <$> l)) (list_to_set (id <$> l) ∪ sw_evicted w).
Proof.
  revert w; induction l as [|s l IH]; intros w; simpl.
  - rewrite app_nil_r, (left_id_L ∅ (∪)). by destruct w.
  - rewrite IH; simpl. rewrite <- app_assoc; f_equal. set_solver.
Qed.

Lemma lru_order_elem w s :
  s ∈ lru_order shapes w <-> s ∈ shapes /\ is_dormant s = true /\ id s ∉ sw_evicted w.
Proof.
  unfold lru_order. rewrite stable_sort_perm, list_elem_of_filter.
  rewrite andb_True, bool_decide_spec, Is_true_true. tauto.
Qed.

Lemma lru_order_sorted w :
  StronglySorted (λ a b, lru_leb a b = true) (lru_order shapes w).
Proof. apply (stable_sort_sorted lru_leb); unfold lru_leb; intros *; rewrite ?Z.leb_le; lia. Qed.

(** The shape of a plan: what the cursor and TTL tiers evict, then two consecutive stretches of
    the least-recently-read order. *)
Record plan_split (p : SweepPlan) (w1 : Sweep) (tc tb rest : list SweepShape) : Prop := {
  ps_ok : sweep_ok w1;
  ps_lru : lru_order shapes w1 = tc ++ tb ++ rest;
  ps_deactivate : deactivate p = plan_deactivate cfg shapes;
  ps_evict : evict p = sw_evict w1 ++ ((λ s, (id s, MaxShapes)) <$> tc)
                                   ++ ((λ s, (id s, DiskBudget)) <$> tb);
  ps_cap : 0 < max_shapes cfg ->
    if over_capacity p then tb ++ rest = []
    else Z.of_nat (length shapes) - Z.of_nat (size (sw_evicted w1)) - Z.of_nat (length tc)
         <= max_shapes cfg;
  ps_cap_off : max_shapes cfg <= 0 -> tc = [] /\ over_capacity p = false;
  ps_budget : 0 < disk_budget_bytes cfg ->
    if over_budget p then rest = []
    else foldl (λ t s, sat_sub_u64 t (stream_bytes s))
               (live_bytes shapes (MkSweep (sw_evict w1 ++ ((λ s, (id s, MaxShapes)) <$> tc))
                                           (list_to_set (id <$> tc) ∪ sw_evicted w1))) tb
         <= disk_budget_bytes cfg;
  ps_budget_off : disk_budget_bytes cfg <= 0 -> tb = [] /\ over_budget p = false;
}.

Lemma plan_sweep_split p :
  plan_sweep cfg shapes = Some p -> exists w1 tc tb rest, plan_split p w1 tc tb rest.
Proof.
  unfold plan_sweep.
  assert (H0 : sweep_ok (foldl (cursor_step cfg) (MkSweep [] ∅) shapes)).
  { apply foldl_ok; [intros; by apply cursor_step_ok | by split]. }
  destruct (plan_ttl _ _ _) as [w1|] eqn:H1; [|done]; simpl.
  apply plan_ttl_ok in H1; [|done].
  destruct (plan_cap _ _ _ _) as [[lru2 w2] oc] eqn:Hc.
  destruct (plan_budget _ _ _ _) as [w3 ob] eqn:Hb. intros [= <-].
  assert (Hcap : exists tc, lru_order shapes w1 = tc ++ lru2 /\
    w2 = foldl (λ w s, mark s MaxShapes w) w1 tc /\
    (0 < max_shapes cfg -> if oc then lru2 = []
       else Z.of_nat (length shapes) - Z.of_nat (size (sw_evicted w1)) - Z.of_nat (length tc)
            <= max_shapes cfg) /\ (max_shapes cfg <= 0 -> tc = [] /\ oc = false)).
  { revert Hc. unfold plan_cap. destruct (Z.ltb_spec 0 (max_shapes cfg)).
    - intros (tc & ? & ? & ?)%cap_loop_spec. exists tc; repeat split; [done..|lia|lia].
    - intros [= <- <- <-]. exists []; repeat split; try done. lia. }
  destruct Hcap as (tc & Hlru & -> & Hcap & Hcoff).
  assert (Hbud : exists tb rest, lru2 = tb ++ rest /\
    w3 = foldl (λ w s, mark s DiskBudget w) (foldl (λ w s, mark s MaxShapes w) w1 tc) tb /\
    (0 < disk_budget_bytes cfg -> if ob then rest = []
       else foldl (λ t s, sat_sub_u64 t (stream_bytes s))
              (live_bytes shapes (foldl (λ w s, mark s MaxShapes w) w1 tc)) tb
            <= disk_budget_bytes cfg) /\ (disk_budget_bytes cfg <= 0 -> tb = [] /\ ob = false)).
  { revert Hb. unfold plan_budget. destruct (Z.ltb_spec 0 (disk_budget_bytes cfg)).
    - intros (tb & rest & ? & ? & ?)%budget_loop_spec. exists tb, rest.
      repeat split; [done..|lia|lia].
    - intros [= <- <-]. exists [], lru2; repeat split; try done. lia. }
  destruct Hbud as (tb & rest & -> & -> & Hbud & Hboff). rewrite foldl_mark in Hbud.
  exists w1, tc, tb, rest. constructor; simpl; try done.
  rewrite !foldl_mark; simpl. by rewrite <- app_assoc.
Qed.


(** *** What stands after a set of evictions *)

Lemma live_sum_app f l1 l2 E : live_sum f (l1 ++ l2) E = live_sum f l1 E + live_sum f l2 E.
Proof. induction l1; simpl; lia. Qed.

Lemma live_sum_nonneg f l E :
  Forall (λ s, 0 <= f s) l -> 0 <= live_sum f l E <= live_sum f l ∅.
Proof.
  induction 1 as [|s l Hs _ IH]; simpl; [lia|].
  rewrite (decide_False (P := id s ∈ ∅)) by set_solver. destruct (decide _); lia.
Qed.

Lemma live_sum_absent f l E i :
  i ∉ (id <$> l) -> live_sum f l ({[i]} ∪ E) = live_sum f l E.
Proof.
  induction l as [|s l IH]; simpl; intros Hi; [done|].
  rewrite IH by set_solver. f_equal.
  destruct (decide (id s ∈ E)); [rewrite decide_True by set_solver | rewrite decide_False]; set_solver.
Qed.

Lemma live_sum_mark f l E s :
  NoDup (id <$> l) -> s ∈ l -> id s ∉ E -> live_sum f l ({[id s]} ∪ E) = live_sum f l E - f s.
Proof.
  intros Hnd (l1 & l2 & ->)%list_elem_of_split Hs.
  rewrite fmap_app, fmap_cons in Hnd. apply NoDup_app in Hnd as (_ & H1 & [H2 _]%NoDup_cons).
  rewrite !live_sum_app; simpl. rewrite !live_sum_absent; [|done|set_solver].
  rewrite decide_True, decide_False by set_solver. lia.
Qed.

(** Evicting a stretch of standing shapes takes exactly their weight away. *)
Lemma live_sum_marks f l E tc :
  NoDup (id <$> l) -> NoDup (id <$> tc) -> Forall (λ s, s ∈ l /\ id s ∉ E) tc ->
  live_sum f l (list_to_set (id <$> tc) ∪ E) = live_sum f l E - foldr (λ s a, f s + a) 0 tc.
Proof.
  intros Hl. induction tc as [|s tc IH]; csimpl.
  - intros _ _. rewrite (left_id_L ∅ (∪)). lia.
  - intros [Hs Htc]%NoDup_cons [[Hsl HsE] HF]%Forall_cons. rewrite <- (assoc_L (∪)).
    rewrite live_sum_mark; [|done..|set_solver]. rewrite IH by done. lia.
Qed.

Lemma live_sum_count l E :
  NoDup (id <$> l) -> E ⊆ list_to_set (id <$> l) ->
  live_sum (λ _, 1) l E = Z.of_nat (length l) - Z.of_nat (size E).
Proof.
  revert E; induction l as [|s l IH]; intros E; simpl; intros Hnd HE.
  - assert (E = ∅) as -> by set_solver. rewrite size_empty. lia.
  - apply NoDup_cons in Hnd as [Hs Hnd]. destruct (decide (id s ∈ E)) as [Hin|Hout].
    + assert (HE' : E = {[id s]} ∪ E ∖ {[id s]})
        by (apply set_eq; intros x; destruct (decide (x = id s)); set_solver).
      assert (Hsz : size E = S (size (E ∖ {[id s]}))).
      { rewrite HE' at 1. rewrite size_union by set_solver. by rewrite size_singleton. }
      rewrite Hsz. rewrite HE' at 1. rewrite live_sum_absent by done.
      rewrite IH; [lia|done|set_solver].
    + rewrite IH; [lia|done|set_solver].
Qed.

(** [u64] sums do not wrap when the bytes of the whole snapshot fit. *)
Lemma live_bytes_sum w :
  Forall (λ s, 0 <= stream_bytes s) shapes ->
  live_sum stream_bytes shapes ∅ <= u64_max ->
  live_bytes shapes w = live_sum stream_bytes shapes (sw_evicted w).
Proof.
  intros Hpos. unfold live_bytes. rewrite <- (Z.add_0_l (live_sum _ _ (sw_evicted w))).
  assert (H0 : 0 <= 0) by lia. revert H0.
  cut (forall a, 0 <= a -> a + live_sum stream_bytes shapes ∅ <= u64_max ->
    foldl (λ acc s, wrap_u64 (acc + stream_bytes s)) a (filter (λ s, id s ∉ sw_evicted w) shapes)
    = a + live_sum stream_bytes shapes (sw_evicted w)); [intros H ??; apply H; lia|].
  induction Hpos as [|s l Hs Hl IH]; simpl; intros a Ha Hle; [lia|].
  rewrite (decide_False (P := id s ∈ ∅)) in Hle by set_solver.
  pose proof (live_sum_nonneg stream_bytes l ∅ Hl).
  rewrite filter_cons. destruct (decide (id s ∈ sw_evicted w)) as [Hin|Hout].
  - rewrite decide_False by tauto. rewrite IH by lia. lia.
  - rewrite decide_True by done; simpl. unfold wrap_u64.
    rewrite Z.mod_small by (unfold u64_max in *; lia). rewrite IH by lia. lia.
Qed.

Lemma foldl_sat_sub tb total :
  foldl (λ t s, sat_sub_u64 t (stream_bytes s)) total tb
  >= total - foldr (λ s a, stream_bytes s + a) 0 tb.
Proof.
  revert total; induction tb as [|s tb IH]; intros total; simpl; [lia|].
  specialize (IH (sat_sub_u64 total (stream_bytes s))). unfold sat_sub_u64 in *. lia.
Qed.

Section split.
Context (p : SweepPlan) (w1 : Sweep) (tc tb rest : list SweepShape).
Context (Hp : plan_split p w1 tc tb rest) (Hids : NoDup (id <$> shapes)).

Lemma split_elem s : s ∈ tc ++ tb ++ rest ->
  s ∈ shapes /\ is_dormant s = true /\ id s ∉ sw_evicted w1.
Proof. rewrite <- (ps_lru _ _ _ _ _ Hp). apply lru_order_elem. Qed.

Lemma split_nodup : NoDup (id <$> tc ++ tb ++ rest).
Proof.
  rewrite <- (ps_lru _ _ _ _ _ Hp). unfold lru_order. rewrite stable_sort_perm.
  eapply sublist_NoDup; [exact Hids|]. apply (fmap_sublist id). apply sublist_filter.
Qed.

Lemma split_evicted : evicted_ids p = list_to_set (id <$> tb) ∪ (list_to_set (id <$> tc) ∪ sw_evicted w1).
Proof.
  unfold evicted_ids. rewrite (ps_evict _ _ _ _ _ Hp), !fmap_app, !list_to_set_app_L.
  rewrite <- !list_fmap_compose; simpl. rewrite (proj1 (ps_ok _ _ _ _ _ Hp)). set_solver.
Qed.

Lemma split_live f :
  live_sum f shapes (evicted_ids p)
  = live_sum f shapes (sw_evicted w1) - foldr (λ s a, f s + a) 0 tc - foldr (λ s a, f s + a) 0 tb
  /\ live_sum f shapes (list_to_set (id <$> tc) ∪ sw_evicted w1)
     = live_sum f shapes (sw_evicted w1) - foldr (λ s a, f s + a) 0 tc.
Proof.
  pose proof split_nodup as Hnd. rewrite !fmap_app in Hnd.
  apply NoDup_app in Hnd as (Htc & Hdis & (Htb & _ & _)%NoDup_app).
  assert (Hc : live_sum f shapes (list_to_set (id <$> tc) ∪ sw_evicted w1)
     = live_sum f shapes (sw_evicted w1) - foldr (λ s a, f s + a) 0 tc).
  { apply live_sum_marks; [done..|]. apply Forall_forall. intros s Hs.
    destruct (split_elem s) as (? & _ & ?); [set_solver | done]. }
  split; [|done]. rewrite split_evicted, live_sum_marks; [lia|done..|].
  apply Forall_forall. intros s Hs. destruct (split_elem s) as (? & _ & ?); [set_solver|].
  split; [done|]. rewrite elem_of_union, elem_of_list_to_set. intros [Hin|]; [|done].
  apply (Hdis _ Hin). apply elem_of_app; left. by apply list_elem_of_fmap_2.
Qed.

(** A dormant shape the plan leaves standing is at the end of the order. *)
Lemma split_standing s :
  s ∈ shapes -> is_dormant s = true -> id s ∉ evicted_ids p -> s ∈ rest.
Proof.
  intros Hs Hd. rewrite split_evicted, !not_elem_of_union, !not_elem_of_list_to_set.
  intros (Htb & Htc & Hw). assert (Hl : s ∈ lru_order shapes w1) by by apply lru_order_elem.
  rewrite (ps_lru _ _ _ _ _ Hp), !elem_of_app in Hl.
  destruct Hl as [Hl|[Hl|Hl]]; [| |done]; exfalso;
    [apply Htc | apply Htb]; by apply list_elem_of_fmap_2.
Qed.
End split.
End sweep.

(** ** Theorems *)


(** After the planned evictions the count cap and the disk budget hold, or the plan raises the
    flag of the one that does not, and then no dormant shape is left standing. *)
Theorem plan_sweep_caps (cfg : RetentionConfig) (shapes : list SweepShape) (p : SweepPlan) :
  plan_sweep cfg shapes = Some p -> NoDup (id <$> shapes) ->
  Forall (λ s, 0 <= stream_bytes s) shapes -> live_sum stream_bytes shapes ∅ <= u64_max ->
  (0 < max_shapes cfg ->
     if over_capacity p then forall s, s ∈ shapes -> is_dormant s = true -> id s ∈ evicted_ids p
     else live_sum (λ _, 1) shapes (evicted_ids p) <= max_shapes cfg) /\
  (0 < disk_budget_bytes cfg ->
     if over_budget p then forall s, s ∈ shapes -> is_dormant s = true -> id s ∈ evicted_ids p
     else live_sum stream_bytes shapes (evicted_ids p) <= disk_budget_bytes cfg).
Proof.
  intros (w1 & tc & tb & rest & Hp)%plan_sweep_split Hids Hpos Hfit.
  pose proof (split_live _ _ _ _ _ _ _ Hp Hids) as Hlive.
  assert (Hall : rest = [] ->
    forall s, s ∈ shapes -> is_dormant s = true -> id s ∈ evicted_ids p).
  { intros Hr s Hs Hd. destruct (decide (id s ∈ evicted_ids p)) as [|Hn]; [done|].
    pose proof (split_standing _ _ _ _ _ _ _ Hp Hids s Hs Hd Hn) as Hin.
    by rewrite Hr in Hin; apply not_elem_of_nil in Hin. }
  assert (Hlen : forall l : list SweepShape, foldr (λ _ a, 1 + a) 0 l = Z.of_nat (length l))
    by (induction l; simpl; lia).
  split; intros Hon.
  - pose proof (ps_cap _ _ _ _ _ _ _ Hp Hon) as Hc. destruct (over_capacity p).
    + apply Hall. by apply app_eq_nil in Hc as [_ ->].
    + rewrite (proj1 (Hlive _)), !Hlen, live_sum_count; [lia|done|].
      destruct (ps_ok _ _ _ _ _ _ _ Hp) as [-> HF]. intros i.
      rewrite !elem_of_list_to_set. intros (q & -> & Hq)%list_elem_of_fmap.
      rewrite Forall_forall in HF. destruct (HF _ Hq) as [(s & Hs & <- & _) _].
      by apply list_elem_of_fmap_2.
  - pose proof (ps_budget _ _ _ _ _ _ _ Hp Hon) as Hb. destruct (over_budget p); [by apply Hall|].
    rewrite live_bytes_sum in Hb by done; simpl in Hb.
    rewrite (proj2 (Hlive _)) in Hb. rewrite (proj1 (Hlive _)).
    pose proof (foldl_sat_sub tb (live_sum stream_bytes shapes (sw_evicted w1) -
      foldr (λ s a, stream_bytes s + a) 0 tc)). lia.
Qed.

(** Eviction under pressure is least-recently-read first: no dormant shape left standing was
    read less recently than one evicted for the count cap or the disk budget. *)
Theorem plan_sweep_lru (cfg : RetentionConfig) (shapes : list SweepShape) (p : SweepPlan)
    (s : SweepShape) (i : str) (r : EvictReason) :
  plan_sweep cfg shapes = Some p -> NoDup (id <$> shapes) ->
  s ∈ shapes -> is_dormant s = true -> id s ∉ evicted_ids p ->
  (i, r) ∈ evict p -> pressure r = true ->
  exists s', s' ∈ shapes /\ id s' = i /\ idle s <= idle s'.
Proof.
  intros (w1 & tc & tb & rest & Hp)%plan_sweep_split Hids Hs Hd Hn Hin Hr.
  pose proof (split_standing _ _ _ _ _ _ _ Hp Hids s Hs Hd Hn) as Hrest.
  assert (exists s', s' ∈ tc ++ tb /\ id s' = i) as (s' & Hs' & <-).
  { revert Hin. rewrite (ps_evict _ _ _ _ _ _ _ Hp), !elem_of_app, !list_elem_of_fmap.
    intros [Hin|[(s' & [= -> ->] & ?)|(s' & [= -> ->] & ?)]];
      [exfalso | exists s'; set_solver ..].
    destruct (ps_ok _ _ _ _ _ _ _ Hp) as [_ HF]. rewrite Forall_forall in HF.
    destruct (HF _ Hin) as [_ Hpr]. simpl in Hpr. congruence. }
  exists s'. split; [|split; [done|]].
  - apply (split_elem _ _ _ _ _ _ _ Hp). set_solver.
  - pose proof (lru_order_sorted shapes w1) as Hsort.
    rewrite (ps_lru _ _ _ _ _ _ _ Hp), app_assoc in Hsort.
    apply StronglySorted_app in Hsort as (Hx & _ & _).
    specialize (Hx s' s Hs' Hrest). apply Z.leb_le, Hx.
Qed.

(** The planner returns a plan whenever the grace period is a duration (in particular with the
    default configuration): its only panic is the addition of the two configured durations. *)
Theorem plan_sweep_total (cfg : RetentionConfig) (shapes : list SweepShape) :
  as_secs (idle_timeout cfg + dormant_ttl cfg) <= u64_max ->
  exists p, plan_sweep cfg shapes = Some p.
Proof.
  intros Hfit. unfold plan_sweep.
  assert (exists w, plan_ttl cfg shapes (foldl (cursor_step cfg) (MkSweep [] ∅) shapes) = Some w)
    as [w ->].
  { unfold plan_ttl. destruct (_ =? 0); [eauto|].
    generalize (foldl (ttl_step cfg) (foldl (cursor_step cfg) (MkSweep [] ∅) shapes) shapes).
    induction shapes as [|s l IH]; intros w; simpl; [eauto|].
    assert (exists w', retire_step cfg w s = Some w') as [w' ->]; [|apply IH].
    unfold retire_step, duration_add. rewrite (proj2 (Z.leb_le _ _) Hfit); simpl.
    destruct (_ && _); eauto. }
  simpl. destruct (plan_cap _ _ _ _) as [[??]?], (plan_budget _ _ _ _); eauto.
Qed.

(** ** A sweep over four shapes

    [a] is subscribed, [b] is idle and eligible, [c] and [d] are dormant; the cap is three shapes and fifty bytes. *)

Definition sample_config : RetentionConfig :=
  let d := default_config in
  {| idle_timeout := idle_timeout d; subscription_lease_timeout := subscription_lease_timeout d;
     dormant_ttl := dormant_ttl d; replay_min_bytes := 100; replay_multiplier := 4;
     max_shapes := 3; disk_budget_bytes := 50; sweep_interval := sweep_interval d;
     reactivation_join_timeout := reactivation_join_timeout d; pending_buffer_max_bytes := 0 |}.

Definition sample_shapes : list SweepShape :=
  [ MkSweepShape $"a" 1 (from_secs 90000) None false true 20 None false None;
    MkSweepShape $"b" 0 (from_secs 30000) None false true 20 None false None;
    MkSweepShape $"c" 0 (from_secs 40000) (Some (from_secs 10)) false true 20 (Some 0) false None;
    MkSweepShape $"d" 0 (from_secs 50000) (Some (from_secs 20)) false true 20 (Some 0) false
      None ].

Definition sample_plan : SweepPlan :=
  MkSweepPlan [$"b"] [($"d", MaxShapes); ($"c", DiskBudget)] false false.

Lemma sample_plan_ok : plan_sweep sample_config sample_shapes = Some sample_plan.
Proof. vm_compute. reflexivity. Qed.

Lemma sample_nodup : NoDup (id <$> sample_shapes).
Proof. apply (bool_decide_unpack _). vm_compute. exact I. Qed.


Lemma plan_sweep_caps_witness : live_sum stream_bytes sample_shapes (evicted_ids sample_plan) <= 50.
Proof.
  assert (Hpos : Forall (λ s, 0 <= stream_bytes s) sample_shapes)
    by (repeat constructor; simpl; lia).
  assert (Hfit : live_sum stream_bytes sample_shapes ∅ <= u64_max) by (vm_compute; discriminate).
  destruct (plan_sweep_caps _ _ _ sample_plan_ok sample_nodup Hpos Hfit) as [_ H].
  exact (H eq_refl).
Defined.

Lemma plan_sweep_total_witness : exists p, plan_sweep default_config sample_shapes = Some p.
Proof. apply plan_sweep_total. vm_compute. discriminate. Defined.

(** With room on disk the cap alone evicts [d], which was read before [c]. *)
Definition roomy_config : RetentionConfig :=
  let d := sample_config in
  {| idle_timeout := idle_timeout d; subscription_lease_timeout := subscription_lease_timeout d;
     dormant_ttl := dormant_ttl d; replay_min_bytes := 100; replay_multiplier := 4;
     max_shapes := 3; disk_budget_bytes := 0; sweep_interval := sweep_interval d;
     reactivation_join_timeout := reactivation_join_timeout d; pending_buffer_max_bytes := 0 |}.

Lemma roomy_plan_ok :
  plan_sweep roomy_config sample_shapes
  = Some (MkSweepPlan [$"b"] [($"d", MaxShapes)] false false).
Proof. vm_compute. reflexivity. Qed.

Lemma plan_sweep_lru_witness :
  exists s', s' ∈ sample_shapes /\ id s' = $"d" /\ from_secs 40000 <= idle s'.
Proof.
  refine (plan_sweep_lru roomy_config sample_shapes _ 
            (MkSweepShape $"c" 0 (from_secs 40000) (Some (from_secs 10)) false true 20 (Some 0)
               false None) $"d" MaxShapes roomy_plan_ok sample_nodup _ _ _ _ _).
  - right; right; left.
  - reflexivity.
  - apply (bool_decide_unpack _). vm_compute. exact I.
  - left.
  - reflexivity.
Defined.

