(* ===== verification/TxnBuffer.v ===== *)
(** * Buffering one transaction between [Begin] and [Commit] ([txn_buffer.rs])

    The ingestor holds a transaction's changes until its commit: in memory while they are few, in a
    spill file of one JSON line per change once they reach the configured cap.  At the commit they
    are drained in order, stamped, and packed into chunks whose request body stays within a budget.

    The serialization of an envelope is code of another package: [EnvelopeJson] is its interface;
    the memory an envelope takes is [MemoryCost], as in [Sequencer].  The outcome of the file
    operations of a call is its argument [io].  The spill file is the list of its bytes.  Counts of
    bytes and of envelopes are unbounded: wrapping one of them takes 2^64 bytes. *)

From S2P Require Import Prelude BTree Value TableRef Schema Predicate PredicateFacts Gate Output.
From S2P Require Import Executors Aggregates Refine ChangeLog Sequencer.
From stdpp Require Import base option numbers strings gmap fin_maps sorting list.
#[local] Open Scope Z_scope.

Abbreviation bytes := (list N).

(** [serde_json::to_vec] and [serde_json::from_slice] on envelopes. *)
Class EnvelopeJson := {
  env_to_vec : Envelope -> bytes;
  env_from_slice : bytes -> option Envelope
}.

(** The process: [std::process::id] and the default spill directory. *)
Class SpillEnv := {
  process_id : Z;
  default_spill_dir : str
}.

(* ------------------------------------------------------------------ *)
(** ** Configuration *)

Definition DS_MAX_BODY_BYTES : Z := 1024 * 1024 * 1024.
Definition STAMP_BYTES : Z := 96.
Definition SPILL_PREFIX : str := $"circuits-txn-".
Definition SPILL_SUFFIX : str := $".ndjson".

Record TxnBufferConfig := MkTxnBufferConfig {
  memory_bytes : Z;
  append_bytes : Z;
  spill_dir : str
}.

Inductive ConfigError :=
  | NotAByteCount (name raw : str)
  | ZeroAppend
  | AppendAboveCap (n : Z).

(** [bytes_var]. *)
Definition bytes_var (get : str -> option str) (name : str) (dflt : Z) : res ConfigError Z :=
  match get name with
  | None => Ok dflt
  | Some raw =>
      let raw := trim raw in
      if bool_decide (raw = []) then Ok dflt else ok_or (NotAByteCount name raw) (parse_u64 raw)
  end.

Section config.
Context {SE : SpillEnv}.

Definition default_txn_config : TxnBufferConfig :=
  MkTxnBufferConfig (128 * 1024 * 1024) (64 * 1024 * 1024) default_spill_dir.

Definition resolve (get : str -> option str) : res ConfigError TxnBufferConfig :=
  memory ← bytes_var get $"ELECTRIC_CIRCUITS_TXN_MEMORY_BYTES" (memory_bytes default_txn_config);
  append ← bytes_var get $"ELECTRIC_CIRCUITS_CHANGES_APPEND_BYTES" (append_bytes default_txn_config);
  if append =? 0 then Err ZeroAppend
  else if DS_MAX_BODY_BYTES <? append then Err (AppendAboveCap append)
  else
    let dir := s ← get $"ELECTRIC_CIRCUITS_TXN_SPILL_DIR";
               let s := trim s in if bool_decide (s = []) then None else Some s in
    Ok (MkTxnBufferConfig memory append (default (spill_dir default_txn_config) dir)).
End config.

(* ------------------------------------------------------------------ *)
(** ** The buffer *)

Record Stamp := MkStamp { st_lsn : str; st_txid : str }.

Record Spill := MkSpill {
  sp_dir : str;
  sp_name : str;
  sp_file : bytes;      (* what was written to the file *)
  sp_writer : bool;     (* the writer is still there *)
  sp_bytes : Z
}.

Record TxnBuffer := MkTxnBuffer {
  tb_xid : Z;
  tb_cfg : TxnBufferConfig;
  tb_mem : list Envelope;
  tb_mem_bytes : Z;
  tb_spill : option Spill;
  tb_count : Z;
  tb_buffered_bytes : Z;
  tb_raw_bytes : Z;
  tb_sync : option Z
}.

Inductive TxnError :=
  | IoError (what : str)
  | ParseError (xid : Z)
  | Panic.

Definition new (xid : Z) (cfg : TxnBufferConfig) : TxnBuffer :=
  MkTxnBuffer xid cfg [] 0 None 0 0 0 None.

Definition set_sync (n : Z) (b : TxnBuffer) : TxnBuffer :=
  MkTxnBuffer (tb_xid b) (tb_cfg b) (tb_mem b) (tb_mem_bytes b) (tb_spill b) (tb_count b)
    (tb_buffered_bytes b) (tb_raw_bytes b) (Some n).

Definition with_spill (sp : option Spill) (b : TxnBuffer) : TxnBuffer :=
  MkTxnBuffer (tb_xid b) (tb_cfg b) (tb_mem b) (tb_mem_bytes b) sp (tb_count b)
    (tb_buffered_bytes b) (tb_raw_bytes b) (tb_sync b).

Definition with_mem (mem : list Envelope) (mem_bytes : Z) (b : TxnBuffer) : TxnBuffer :=
  MkTxnBuffer (tb_xid b) (tb_cfg b) mem mem_bytes (tb_spill b) (tb_count b)
    (tb_buffered_bytes b) (tb_raw_bytes b) (tb_sync b).

(** [b'\n']. *)
Definition newline : N := 10%N.

(** The name [begin_spill] gives the file. *)
Definition spill_name (xid pid : Z) : str :=
  SPILL_PREFIX ++ Z_to_str xid ++ 45%N :: Z_to_str pid ++ SPILL_SUFFIX.

Section buffer.
Context {MC : MemoryCost} {EJ : EnvelopeJson} {SE : SpillEnv}.

Definition write_spilled (io : option str) (line : bytes) (b : TxnBuffer) : res TxnError TxnBuffer :=
  match tb_spill b with
  | None => Err Panic
  | Some sp =>
      if sp_writer sp then
        match io with
        | Some e => Err (IoError e)
        | None =>
            Ok (with_spill (Some (MkSpill (sp_dir sp) (sp_name sp) (sp_file sp ++ line ++ [newline])
                                    true (sp_bytes sp + Z.of_nat (length line) + 1))) b)
        end
      else Err Panic
  end.

(** The loop of [begin_spill]. *)
Fixpoint spill_all (io : option str) (envs : list Envelope) (b : TxnBuffer)
    : res TxnError TxnBuffer :=
  match envs with
  | [] => Ok b
  | env :: envs' => b ← write_spilled io (env_to_vec env) b; spill_all io envs' b
  end.

Definition begin_spill (io : option str) (b : TxnBuffer) : res TxnError TxnBuffer :=
  match io with
  | Some e => Err (IoError e)
  | None =>
      let sp := MkSpill (spill_dir (tb_cfg b)) (spill_name (tb_xid b) process_id) [] true 0 in
      let buffered := tb_mem b in
      spill_all io buffered (with_mem [] 0 (with_spill (Some sp) b))
  end.

Definition push (io : option str) (env : Envelope) (raw_len : Z) (b : TxnBuffer)
    : res TxnError TxnBuffer :=
  let bytes := envelope_memory_bytes env in
  let b := MkTxnBuffer (tb_xid b) (tb_cfg b) (tb_mem b) (tb_mem_bytes b) (tb_spill b)
             (tb_count b + 1) (tb_buffered_bytes b + bytes) (tb_raw_bytes b + raw_len) (tb_sync b) in
  match tb_spill b with
  | Some _ => write_spilled io (env_to_vec env) b
  | None =>
      let b := with_mem (tb_mem b ++ [env]) (tb_mem_bytes b + bytes) b in
      if (0 <? memory_bytes (tb_cfg b)) && (memory_bytes (tb_cfg b) <=? tb_mem_bytes b)
      then begin_spill io b
      else Ok b
  end.

(* ---------------------------------------------------------------- *)
(** ** The drain *)

(** [reader] is what is left of the spill file; [buf.mem] is the source without one. *)
Record TxnDrain := MkTxnDrain {
  td_buf : TxnBuffer;
  td_idx : nat;
  td_reader : option bytes;
  td_stamp : Stamp;
  td_seq : Z;
  td_budget : Z;
  td_pending : option (Envelope * Z);
  td_exhausted : bool
}.

Definition drain (io : option str) (stamp : Stamp) (b : TxnBuffer) : res TxnError TxnDrain :=
  let start b reader := MkTxnDrain b 0 reader stamp 0 (append_bytes (tb_cfg b)) None false in
  match tb_spill b with
  | None => Ok (start b None)
  | Some sp =>
      match io with
      | Some e => Err (IoError e)
      | None =>
          let sp := MkSpill (sp_dir sp) (sp_name sp) (sp_file sp) false (sp_bytes sp) in
          Ok (start (with_spill (Some sp) b) (Some (sp_file sp)))
      end
  end.

(** [read_until(b'\n')]: the line with its newline if there is one, and what is left. *)
Fixpoint read_until (bs : bytes) : bytes * bytes :=
  match bs with
  | [] => ([], [])
  | c :: bs' =>
      if (c =? newline)%N then ([c], bs')
      else let '(line, rest) := read_until bs' in (c :: line, rest)
  end.

Inductive Raw :=
  | RawEnv (env : Envelope)
  | RawLine (line : bytes).

(** The stand-in left in the memory vector. *)
Definition taken : Envelope :=
  mkEnvelope [] [] None None (mkHeaders [] None None None None None).

Definition next_raw (d : TxnDrain) : option Raw * TxnDrain :=
  match td_reader d with
  | Some r =>
      let '(line, rest) := read_until r in
      let d' := MkTxnDrain (td_buf d) (td_idx d) (Some rest) (td_stamp d) (td_seq d) (td_budget d)
                  (td_pending d) (td_exhausted d) in
      if bool_decide (line = []) then (None, d')
      else
        let line := match last line with
                    | Some c => if (c =? newline)%N then removelast line else line
                    | None => line
                    end in
        (Some (RawLine line), d')
  | None =>
      match tb_mem (td_buf d) !! td_idx d with
      | None => (None, d)
      | Some env =>
          let buf := with_mem (<[td_idx d := taken]> (tb_mem (td_buf d)))
                       (tb_mem_bytes (td_buf d)) (td_buf d) in
          (Some (RawEnv env),
           MkTxnDrain buf (S (td_idx d)) None (td_stamp d) (td_seq d) (td_budget d)
             (td_pending d) (td_exhausted d))
      end
  end.

(** The stamp of one envelope. *)
Definition stamp_env (st : Stamp) (seq : Z) (e : Envelope) : Envelope :=
  let h := e_headers e in
  mkEnvelope (e_type e) (e_key e) (e_value e) (e_old e)
    (mkHeaders (h_operation h) (Some (st_txid st)) (h_offset h) (Some (st_lsn st)) (Some seq)
       (h_last h)).

(** The transaction-end marker. *)
Definition mark_last (e : Envelope) : Envelope :=
  let h := e_headers e in
  mkEnvelope (e_type e) (e_key e) (e_value e) (e_old e)
    (mkHeaders (h_operation h) (h_txid h) (h_offset h) (h_lsn h) (h_seq h) (Some true)).

Definition next_stamped (d : TxnDrain) : res TxnError (option (Envelope * Z) * TxnDrain) :=
  let '(raw, d) := next_raw d in
  match raw with
  | None => Ok (None, d)
  | Some raw =>
      '(env, len) ←
        match raw with
        | RawLine line =>
            env ← ok_or (ParseError (tb_xid (td_buf d))) (env_from_slice line);
            Ok (env, Z.of_nat (length line))
        | RawEnv env => Ok (env, Z.of_nat (length (env_to_vec env)))
        end;
      Ok (Some (stamp_env (td_stamp d) (td_seq d) env, len),
          MkTxnDrain (td_buf d) (td_idx d) (td_reader d) (td_stamp d) (td_seq d + 1) (td_budget d)
            (td_pending d) (td_exhausted d))
  end.

Definition with_pending (p : option (Envelope * Z)) (d : TxnDrain) : TxnDrain :=
  MkTxnDrain (td_buf d) (td_idx d) (td_reader d) (td_stamp d) (td_seq d) (td_budget d) p
    (td_exhausted d).
Definition exhaust (d : TxnDrain) : TxnDrain :=
  MkTxnDrain (td_buf d) (td_idx d) (td_reader d) (td_stamp d) (td_seq d) (td_budget d)
    (td_pending d) true.

(** [chunk.last_mut()] marked. *)
Fixpoint mark_chunk (chunk : list Envelope) : list Envelope :=
  match chunk with
  | [] => []
  | [e] => [mark_last e]
  | e :: chunk' => e :: mark_chunk chunk'
  end.

(** The loop of [next_chunk]; [None] is running out of [fuel]. *)
Fixpoint chunk_loop (fuel : nat) (chunk : list Envelope) (body : Z) (d : TxnDrain)
    : option (res TxnError (list Envelope * TxnDrain)) :=
  match fuel with
  | O => None
  | S fuel' =>
      let next := match td_pending d with
                  | Some pending => Ok (Some pending, with_pending None d)
                  | None => next_stamped d
                  end in
      match next with
      | Err e => Some (Err e)
      | Ok (None, d) => Some (Ok (chunk, exhaust d))
      | Ok (Some (env, len), d) =>
          let cost := len + STAMP_BYTES + (if bool_decide (chunk = []) then 0 else 1) in
          if negb (bool_decide (chunk = [])) && (td_budget d <? body + cost)
          then Some (Ok (chunk, with_pending (Some (env, len)) d))
          else chunk_loop fuel' (chunk ++ [env]) (body + cost) d
      end
  end.

(** What the source still holds: a bound on the number of further reads. *)
Definition source_size (d : TxnDrain) : nat :=
  match td_reader d with
  | Some r => length r
  | None => length (tb_mem (td_buf d)) - td_idx d
  end.
Definition drain_fuel (d : TxnDrain) : nat := S (S (source_size d)).

Definition next_chunk (d : TxnDrain) : option (res TxnError (option (list Envelope) * TxnDrain)) :=
  r ← chunk_loop (drain_fuel d) [] 2 d;
  Some ('(chunk, d) ← r;
        let chunk := if td_exhausted d then mark_chunk chunk else chunk in
        Ok (if bool_decide (chunk = []) then None else Some chunk, d)).

(** The loop of [append_commit_chunked] (and of [Iterator for TxnDrain]): the chunks in order. *)
Fixpoint chunks_loop (fuel : nat) (d : TxnDrain) : option (res TxnError (list (list Envelope))) :=
  match fuel with
  | O => None
  | S fuel' =>
      r ← next_chunk d;
      match r with
      | Err e => Some (Err e)
      | Ok (None, _) => Some (Ok [])
      | Ok (Some chunk, d) =>
          cs ← chunks_loop fuel' d; Some (cs ← cs; Ok (chunk :: cs))
      end
  end.
Definition drain_chunks (d : TxnDrain) : option (res TxnError (list (list Envelope))) :=
  chunks_loop (drain_fuel d) d.

End buffer.

(* ------------------------------------------------------------------ *)
(** ** Leftover spill files *)

Definition spill_file_pid (name : str) : option Z :=
  body ← str_strip_prefix SPILL_PREFIX name;
  body ← str_strip_suffix SPILL_SUFFIX body;
  '(xid, pid) ← rsplit_once 45 body;
  _ ← parse_u32 xid;
  parse_u32 pid.

(** A file [sweep_spill_dir_except] asks to remove. *)
Definition is_leftover {SE : SpillEnv} (process_alive : Z -> bool) (live : list str) (name : str)
    : bool :=
  match spill_file_pid name with
  | None => false
  | Some pid =>
      negb (bool_decide (name ∈ live)) && ((pid =? process_id) || negb (process_alive pid))
  end.
Definition sweep_targets {SE : SpillEnv} (process_alive : Z -> bool) (live entries : list str)
    : list str :=
  filter (λ name, is_leftover process_alive live name) entries.

(* ================================================================== *)
(** * Facts *)

(** ** What a buffer holds *)

Section facts.
Context {MC : MemoryCost} {EJ : EnvelopeJson} {SE : SpillEnv}.

(** An envelope that survives its line of the spill file.  [serde_json] writes no raw newline, and
    reads back what it wrote except for doubles whose text it does not read exactly. *)
Definition json_stable (e : Envelope) : Prop :=
  env_from_slice (env_to_vec e) = Some e /\ newline ∉ env_to_vec e.

Definition spill_text (es : list Envelope) : bytes :=
  concat ((λ e, env_to_vec e ++ [newline]) <$> es).

Definition memory_of (es : list Envelope) : Z := foldr (λ e a, envelope_memory_bytes e + a) 0 es.

(** The changes a buffer holds, in memory or in its file. *)
Record buf_rep (b : TxnBuffer) (es : list Envelope) : Prop := {
  br_source : match tb_spill b with
              | None => tb_mem b = es
              | Some sp => tb_mem b = [] /\ sp_file sp = spill_text es /\ sp_writer sp = true
              end;
  br_mem_bytes : tb_mem_bytes b = memory_of (tb_mem b);
  br_count : tb_count b = Z.of_nat (length es);
  br_buffered : tb_buffered_bytes b = memory_of es;
  br_cap : tb_spill b = None -> 0 < memory_bytes (tb_cfg b) ->
           memory_of es < memory_bytes (tb_cfg b);
  br_spilled : is_Some (tb_spill b) -> 0 < memory_bytes (tb_cfg b) <= memory_of es
}.

Lemma spill_text_app a b : spill_text (a ++ b) = spill_text a ++ spill_text b.
Proof. unfold spill_text. by rewrite fmap_app, concat_app. Qed.

Lemma memory_of_app a b : memory_of (a ++ b) = memory_of a + memory_of b.
Proof. induction a; simpl; lia. Qed.

Lemma write_spilled_ok io line b b' :
  write_spilled io line b = Ok b' ->
  exists sp, tb_spill b = Some sp /\ sp_writer sp = true /\
    b' = with_spill (Some (MkSpill (sp_dir sp) (sp_name sp) (sp_file sp ++ line ++ [newline]) true
                             (sp_bytes sp + Z.of_nat (length line) + 1))) b.
Proof.
  unfold write_spilled. destruct (tb_spill b) as [sp|]; [|done].
  destruct (sp_writer sp) eqn:Hw; [|done]. destruct io; [done|]. intros [= <-]. eauto.
Qed.

Lemma spill_all_ok io es b b' :
  spill_all io es b = Ok b' ->
  (forall sp, tb_spill b = Some sp -> sp_writer sp = true ->
   exists sp', tb_spill b' = Some sp' /\ sp_writer sp' = true /\
     sp_file sp' = sp_file sp ++ spill_text es) /\
  b' = with_spill (tb_spill b') b.
Proof.
  revert b; induction es as [|e es IH]; intros b; simpl.
  - intros [= <-]. split; [|by destruct b]. intros sp Hsp Hw. exists sp.
    unfold spill_text; simpl. by rewrite app_nil_r.
  - intros (b1 & (sp & Hsp & Hw & ->)%write_spilled_ok & H)%res_bind_ok.
    destruct (IH _ H) as [H1 H2]. split.
    + intros sp0 Hsp0 _. rewrite Hsp in Hsp0. injection Hsp0 as <-.
      destruct (H1 _ eq_refl eq_refl) as (sp' & ? & ? & Hf). exists sp'; repeat split; [done..|].
      rewrite Hf; simpl. unfold spill_text; simpl. by rewrite <- !app_assoc.
    + rewrite H2. by destruct b.
Qed.

Lemma new_rep xid cfg : buf_rep (new xid cfg) [].
Proof. split; simpl; try done. all: by intros [? ?] || lia. Qed.

Lemma push_rep io e n b b' es :
  0 <= envelope_memory_bytes e -> buf_rep b es -> push io e n b = Ok b' ->
  buf_rep b' (es ++ [e]) /\ tb_cfg b' = tb_cfg b /\ tb_xid b' = tb_xid b.
Proof.
  intros He [Hs Hm Hc Hb Hcap Hsp]. unfold push.
  assert (Hmem : memory_of (es ++ [e]) = memory_of es + envelope_memory_bytes e)
    by (rewrite memory_of_app; simpl; lia).
  assert (Hlen : Z.of_nat (length (es ++ [e])) = Z.of_nat (length es) + 1)
    by (rewrite length_app; simpl; lia).
  destruct (tb_spill b) as [sp|] eqn:Espill.
  - destruct Hs as (Hm0 & Hf & Hw). specialize (Hsp ltac:(eauto)).
    intros (sp' & [= <-] & _ & ->)%write_spilled_ok; simpl. split; [|done].
    split; simpl; try done; try lia.
    split_and!; [done| |done]. rewrite spill_text_app, Hf. f_equal.
    unfold spill_text; simpl. by rewrite app_nil_r.
  - subst es. specialize (Hcap eq_refl).
    destruct (_ && _) eqn:Hover; cbn [with_mem tb_cfg tb_mem_bytes] in Hover; bool_prop.
    + unfold begin_spill. destruct io as [|]; [done|].
      intros [H1 H2]%spill_all_ok. cbn [with_mem with_spill tb_spill] in H1.
      destruct (H1 _ eq_refl eq_refl) as (sp' & Hsp' & Hw & Hf). cbn in Hf.
      rewrite H2. cbn. split; [|done].
      split; cbn; rewrite ?Hsp'; try done; intros; lia.
    + intros [= <-]. cbn. split; [|done]. split; cbn; rewrite ?Espill; try done; try lia.
      by rewrite memory_of_app, Hm; simpl; lia.
Qed.
End facts.
