(* ===== verification/TxnBufferFacts.v ===== *)
(** * Draining a transaction

    Whatever was pushed comes out once, in order, stamped with running sequence numbers and with
    the end marker on the last envelope alone, in chunks whose request bodies fit the budget; what
    the chunks carry is a well-formed transaction of the change log. *)

From S2P Require Import Prelude BTree Value TableRef Schema Predicate PredicateFacts Gate Output.
From S2P Require Import Executors Aggregates Refine ChangeLog Sequencer SequencerFacts Planning Counts.
From S2P Require Import RuntimeAuthority Txn Pages PagesFacts TxnBuffer.
From stdpp Require Import base option numbers strings gmap fin_maps sorting list.
#[local] Open Scope Z_scope.

Section drain.
Context {MC : MemoryCost} {EJ : EnvelopeJson} {SE : SpillEnv}.

(** ** Reading the source *)

Lemma read_until_line l rest :
  newline ∉ l -> read_until (l ++ newline :: rest) = (l ++ [newline], rest).
Proof.
  induction l as [|c l IH]; simpl; intros Hl; [done|].
  apply not_elem_of_cons in Hl as [Hc Hl].
  rewrite (proj2 (N.eqb_neq _ _)) by congruence. by rewrite IH.
Qed.

(** What is left of the source: the envelopes [es], in memory or as lines. *)
Definition source_rep (d : TxnDrain) (es : list Envelope) : Prop :=
  match td_reader d with
  | None => drop (td_idx d) (tb_mem (td_buf d)) = es
  | Some r => r = spill_text es /\ Forall json_stable es
  end.

(** Two drains that differ in their source only. *)
Record same_but_source (d d' : TxnDrain) : Prop := {
  ss_stamp : td_stamp d' = td_stamp d;
  ss_budget : td_budget d' = td_budget d;
  ss_pending : td_pending d' = td_pending d;
  ss_exhausted : td_exhausted d' = td_exhausted d
}.

Definition env_len (e : Envelope) : Z := Z.of_nat (length (env_to_vec e)).

Lemma source_rep_size d es : source_rep d es -> (length es <= source_size d)%nat.
Proof.
  unfold source_rep, source_size. destruct (td_reader d) as [r|].
  - intros [-> _]. induction es as [|e es IH]; [simpl; lia|].
    change (spill_text (e :: es)) with ((env_to_vec e ++ [newline]) ++ spill_text es).
    rewrite !length_app; simpl. lia.
  - intros <-. by rewrite length_drop.
Qed.

Lemma next_stamped_nil d :
  source_rep d [] ->
  exists d', next_stamped d = Ok (None, d') /\ same_but_source d d' /\ source_rep d' [] /\
    td_seq d' = td_seq d.
Proof.
  unfold source_rep, next_stamped, next_raw. destruct (td_reader d) as [r|] eqn:Hr.
  - intros [-> _]; simpl. eexists; split; [done|]. by split.
  - intros Hd. assert (tb_mem (td_buf d) !! td_idx d = None) as ->.
    { apply lookup_ge_None. apply (f_equal length) in Hd. rewrite length_drop in Hd.
      simpl in Hd. lia. }
    exists d. rewrite Hr. by repeat split.
Qed.

Lemma next_stamped_cons d e es :
  source_rep d (e :: es) ->
  exists d', next_stamped d = Ok (Some (stamp_env (td_stamp d) (td_seq d) e, env_len e), d') /\
    same_but_source d d' /\ source_rep d' es /\ td_seq d' = td_seq d + 1.
Proof.
  unfold source_rep, next_stamped, next_raw. destruct (td_reader d) as [r|] eqn:Hr.
  - intros [-> [[Hj Hn] Hst]%Forall_cons]. unfold spill_text; simpl.
    rewrite <- app_assoc; simpl. rewrite read_until_line by done.
    rewrite bool_decide_eq_false_2 by (by destruct (env_to_vec e)).
    rewrite last_snoc; simpl. rewrite removelast_last, Hj; simpl.
    eexists; split; [done|]. by split.
  - intros Hd. assert (Hl : tb_mem (td_buf d) !! td_idx d = Some e).
    { rewrite <- (Nat.add_0_r (td_idx d)), <- lookup_drop, Hd. done. }
    rewrite Hl; simpl. eexists; split; [done|]. split; [by split|]. split; [|done]. simpl.
    rewrite drop_insert_lt by lia. rewrite (drop_S _ _ _ Hl) in Hd. by injection Hd.
Qed.

(** ** Packing *)

(** The stamped envelopes from position [n] on, with the sizes they are packed by. *)
Fixpoint stamped (st : Stamp) (n : Z) (es : list Envelope) : list (Envelope * Z) :=
  match es with
  | [] => []
  | e :: es => (stamp_env st n e, env_len e) :: stamped st (n + 1) es
  end.

(** The size a chunk is packed by: brackets, commas, and the allowance for each stamp. *)
Definition body_of (items : list (Envelope * Z)) : Z :=
  foldr (λ p a, p.2 + STAMP_BYTES + 1 + a) (if bool_decide (items = []) then 2 else 1) items.

Definition fits (budget : Z) (items : list (Envelope * Z)) : Prop :=
  body_of items <= budget \/ (length items <= 1)%nat.

(** The greedy chunk: what goes in after [pre], and what is left. *)
Fixpoint take_chunk (budget : Z) (pre items : list (Envelope * Z))
    : list (Envelope * Z) * list (Envelope * Z) :=
  match items with
  | [] => (pre, [])
  | x :: items' =>
      if negb (bool_decide (pre = [])) && (budget <? body_of (pre ++ [x])) then (pre, items)
      else take_chunk budget (pre ++ [x]) items'
  end.

Lemma body_of_snoc pre x :
  body_of (pre ++ [x])
  = body_of pre + (x.2 + STAMP_BYTES + (if bool_decide (pre = []) then 0 else 1)).
Proof.
  unfold body_of. rewrite (bool_decide_eq_false_2 (pre ++ [x] = [])) by (by destruct pre).
  destruct pre as [|y pre]; [simpl; lia|]. rewrite bool_decide_eq_false_2 by done.
  generalize (y :: pre) as l. induction l as [|z l IH]; simpl; lia.
Qed.

Lemma take_chunk_spec budget pre items :
  fits budget pre ->
  exists t, (take_chunk budget pre items).1 = pre ++ t /\
    items = t ++ (take_chunk budget pre items).2 /\ fits budget (pre ++ t) /\
    (pre = [] -> items <> [] -> t <> []).
Proof.
  revert pre; induction items as [|x items IH]; intros pre Hf; simpl.
  - exists []. by rewrite app_nil_r.
  - destruct (negb _ && _) eqn:Hc.
    + exists []. rewrite app_nil_r; simpl. split_and!; try done.
      intros ->. by rewrite bool_decide_eq_true_2 in Hc.
    + destruct (IH (pre ++ [x])) as (t & H1 & H2 & H3 & _).
      { unfold fits. apply andb_false_iff in Hc as [Hc|Hc].
        - apply negb_false_iff, bool_decide_eq_true in Hc as ->. right; simpl; lia.
        - apply Z.ltb_ge in Hc. by left. }
      exists (x :: t). rewrite H1, (cons_middle x pre t), (assoc_L (++)). split_and!; try done.
      by rewrite H2 at 1.
Qed.

(** What a drain still has to hand out. *)
Definition items_of (d : TxnDrain) (es : list Envelope) : list (Envelope * Z) :=
  option_list (td_pending d) ++ stamped (td_stamp d) (td_seq d) es.

Lemma next_item d es :
  source_rep d es ->
  exists d' es',
    (match td_pending d with
     | Some pending => Ok (Some pending, with_pending None d)
     | None => next_stamped d
     end = Ok (head (items_of d es), d')) /\
    source_rep d' es' /\ td_pending d' = None /\ items_of d' es' = tail (items_of d es) /\
    td_budget d' = td_budget d /\ td_stamp d' = td_stamp d /\
    td_exhausted d' = td_exhausted d.
Proof.
  intros Hsrc. unfold items_of. destruct (td_pending d) as [q|] eqn:Hp.
  - exists (with_pending None d), es. split_and!; try done.
  - destruct es as [|e es].
    + destruct (next_stamped_nil d Hsrc) as (d' & Hn & [Hst Hb Hp' Hex'] & Hr & Hseq).
      exists d', []. rewrite Hn, Hp', Hp. by split_and!.
    + destruct (next_stamped_cons d e es Hsrc) as (d' & Hn & [Hst Hb Hp' Hex'] & Hr & Hseq).
      exists d', es. rewrite Hn, Hp', Hp, Hst, Hseq. by split_and!.
Qed.

Lemma chunk_loop_spec fuel d es pre :
  source_rep d es -> (length (items_of d es) < fuel)%nat ->
  exists d' es', chunk_loop fuel pre.*1 (body_of pre) d
    = Some (Ok ((take_chunk (td_budget d) pre (items_of d es)).1.*1, d')) /\
    source_rep d' es' /\ td_budget d' = td_budget d /\ td_stamp d' = td_stamp d /\
    items_of d' es' = (take_chunk (td_budget d) pre (items_of d es)).2 /\
    td_exhausted d' =
      td_exhausted d || bool_decide ((take_chunk (td_budget d) pre (items_of d es)).2 = []).
Proof.
  revert d es pre; induction fuel as [|fuel IH]; intros d es pre Hd Hfuel; [lia|].
  destruct (next_item d es Hd) as (d1 & es1 & Hn & Hsrc & Hp1 & Hit & Hb & Hst & Hex).
  cbn [chunk_loop]. rewrite Hn. destruct (items_of d es) as [|[env len] items] eqn:Hi; simpl in *.
  - exists (exhaust d1), es1. split_and!; try done. simpl. by rewrite orb_true_r.
  - assert (Hpre : bool_decide (pre.*1 = []) = bool_decide (pre = []))
      by (apply bool_decide_ext; by destruct pre).
    pose proof (body_of_snoc pre (env, len)) as Hbs; simpl in Hbs.
    rewrite Hpre, Hb, <- Hbs.
    destruct (negb _ && _) eqn:Hc.
    + exists (with_pending (Some (env, len)) d1), es1. split_and!; try done.
      * unfold items_of in *; simpl in *. rewrite Hp1 in Hit. by rewrite <- Hit.
      * simpl. by rewrite orb_false_r.
    + destruct (IH d1 es1 (pre ++ [(env, len)])) as (d' & es' & H1 & H2 & H3 & H4 & H5 & H6);
        [done | rewrite Hit; simpl in Hfuel; lia|].
      rewrite fmap_app in H1. rewrite Hit, Hb in H1, H5, H6. rewrite Hex in H6.
      exists d', es'. split_and!; try done; congruence.
Qed.

Lemma stamped_length st n es : length (stamped st n es) = length es.
Proof. revert n; induction es as [|e es IH]; intros n; simpl; [done|]. by rewrite IH. Qed.

Lemma items_of_fuel d es : source_rep d es -> (length (items_of d es) < drain_fuel d)%nat.
Proof.
  intros H%source_rep_size. unfold items_of, drain_fuel. rewrite length_app, stamped_length.
  destruct (td_pending d); simpl; lia.
Qed.

Lemma mark_chunk_app a b : b <> [] -> mark_chunk (a ++ b) = a ++ mark_chunk b.
Proof.
  intros Hb. induction a as [|e a IH]; [done|]. simpl. rewrite IH.
  destruct a as [|e' a]; [by destruct b|]. done.
Qed.

Lemma mark_chunk_nil l : mark_chunk l = [] <-> l = [].
Proof. destruct l as [|e [|e' l]]; by split. Qed.

(** The chunks of a list of items: greedy stretches that fit the budget, the last one marked. *)
Definition packed (budget : Z) (items : list (Envelope * Z)) (cs : list (list Envelope)) : Prop :=
  exists parts, concat parts = items /\ Forall (λ c, c <> []) parts /\ Forall (fits budget) parts /\
    match reverse parts with
    | [] => cs = []
    | lastp :: init => cs = reverse ((λ c, c.*1) <$> init) ++ [mark_chunk lastp.*1]
    end.

Lemma packed_cons budget items c cs :
  c <> [] -> fits budget c -> items <> [] -> packed budget items cs ->
  packed budget (c ++ items) (c.*1 :: cs).
Proof.
  intros Hc Hf Hi (parts & Hcat & Hne & Hfit & Hcs).
  exists (c :: parts). split_and!; [by rewrite <- Hcat | by constructor | by constructor|].
  rewrite reverse_cons. destruct (reverse parts) as [|lastp init] eqn:Hr.
  - apply (f_equal reverse) in Hr. rewrite reverse_involutive in Hr. by subst parts items.
  - simpl. rewrite Hcs, fmap_app, reverse_app. done.
Qed.

Lemma packed_last budget c : c <> [] -> fits budget c -> packed budget c [mark_chunk c.*1].
Proof.
  intros Hc Hf. exists [c]. simpl. rewrite app_nil_r. split_and!; [done|by apply Forall_singleton..|done].
Qed.

(** One chunk: the greedy stretch of what is left, marked when nothing is. *)
Lemma next_chunk_spec d es t rest :
  source_rep d es -> take_chunk (td_budget d) [] (items_of d es) = (t, rest) ->
  exists d' es',
    next_chunk d = Some (Ok
      (let chunk := if td_exhausted d || bool_decide (rest = []) then mark_chunk t.*1 else t.*1 in
       if bool_decide (chunk = []) then None else Some chunk, d')) /\
    source_rep d' es' /\ td_budget d' = td_budget d /\ td_stamp d' = td_stamp d /\
    items_of d' es' = rest /\ td_exhausted d' = td_exhausted d || bool_decide (rest = []).
Proof.
  intros Hd Ht.
  destruct (chunk_loop_spec (drain_fuel d) d es [] Hd) as (d' & es' & H1 & H2 & H3 & H4 & H5 & H6);
    [by apply items_of_fuel|].
  rewrite Ht in *. exists d', es'. split_and!; try done.
  unfold next_chunk. change (chunk_loop (drain_fuel d) [] 2 d = Some (Ok (t.*1, d'))) in H1.
  rewrite H1. cbn. by rewrite H6.
Qed.

Lemma chunks_loop_nil fuel d es :
  source_rep d es -> items_of d es = [] -> chunks_loop (S fuel) d = Some (Ok []).
Proof.
  intros Hd Hi. destruct (next_chunk_spec d es [] []) as (d' & es' & H1 & _); [done|by rewrite Hi|].
  cbn [chunks_loop]. rewrite H1. cbn. by destruct (_ || _).
Qed.

Lemma chunks_loop_spec fuel d es :
  source_rep d es -> td_exhausted d = false -> (length (items_of d es) < fuel)%nat ->
  exists cs, chunks_loop fuel d = Some (Ok cs) /\ packed (td_budget d) (items_of d es) cs.
Proof.
  revert d es; induction fuel as [|fuel IH]; intros d es Hd Hex Hfuel; [lia|].
  destruct (items_of d es) as [|x0 items0] eqn:Hi.
  { exists []. split; [by eapply chunks_loop_nil | by exists []]. }
  rewrite <- Hi in *. assert (Hine : items_of d es <> []) by by rewrite Hi. clear x0 items0 Hi.
  destruct (take_chunk_spec (td_budget d) [] (items_of d es)) as (t & T1 & T2 & T3 & T4);
    [right; simpl; lia|]. specialize (T4 eq_refl Hine).
  destruct (take_chunk _ _ _) as [t' rest] eqn:Et. simpl in T1, T2, T3. subst t'.
  destruct (next_chunk_spec d es t rest Hd Et) as (d' & es' & H1 & H2 & H3 & H4 & H5 & H6).
  cbn [chunks_loop]. rewrite H1, Hex. rewrite Hex in H6. cbn [mbind option_bind orb]. rewrite T2.
  assert (Hlt : (length (items_of d' es') < fuel)%nat).
  { rewrite H5. rewrite T2, length_app in Hfuel. destruct t; [done|]. simpl in Hfuel. lia. }
  assert (Hne : forall b : bool, (if b then mark_chunk t.*1 else t.*1) <> []).
  { intros []; rewrite ?mark_chunk_nil; by destruct t. }
  rewrite bool_decide_eq_false_2 by apply Hne.
  case_bool_decide as Hrest.
  - destruct fuel as [|fuel]; [lia|].
    rewrite (chunks_loop_nil fuel d' es') by congruence; simpl. rewrite Hrest, app_nil_r.
    eexists; split; [done|]. by apply packed_last.
  - destruct (IH d' es' H2) as (cs & Hcs & Hp); [by rewrite H6 | done |].
    rewrite Hcs; simpl. eexists; split; [done|]. rewrite H3, H5 in Hp. by apply packed_cons.
Qed.

Lemma packed_concat budget items cs :
  packed budget items cs -> concat cs = mark_chunk items.*1 /\ Forall (λ c, c <> []) cs.
Proof.
  intros (parts & <- & Hne & _ & Hcs). rewrite <- (reverse_involutive parts).
  apply Forall_reverse in Hne.
  destruct (reverse parts) as [|lastp init]; [by subst cs|].
  apply Forall_cons in Hne as [Hl Hne]. rewrite Hcs, reverse_cons.
  rewrite !concat_app, fmap_app, mark_chunk_app by (simpl; by destruct lastp).
  simpl. rewrite !app_nil_r. split.
  - f_equal. rewrite <- fmap_reverse. generalize (reverse init) as l.
    induction l as [|c l IH]; [done|]. csimpl. by rewrite IH, fmap_app.
  - apply Forall_app; split; [|constructor; [|done]].
    + apply Forall_reverse, Forall_fmap. eapply Forall_impl; [exact Hne|]. by intros [].
    + rewrite mark_chunk_nil. by destruct lastp.
Qed.

(** ** Termination *)

(** What a drain can still hand out, whatever its file holds. *)
Definition drain_size (d : TxnDrain) : nat :=
  (source_size d + match td_pending d with Some _ => 1 | None => 0 end)%nat.

Lemma read_until_length bs : (length (read_until bs).1 + length (read_until bs).2 = length bs)%nat.
Proof.
  induction bs as [|c bs IH]; simpl; [done|]. destruct (c =? newline)%N; [done|].
  destruct (read_until bs); simpl in *. lia.
Qed.

Lemma next_raw_size d raw d' :
  next_raw d = (Some raw, d') -> (source_size d' < source_size d)%nat /\ td_pending d' = td_pending d.
Proof.
  unfold next_raw, source_size. destruct (td_reader d) as [r|] eqn:Hr.
  - pose proof (read_until_length r) as Hlen. destruct (read_until r) as [line rest]; simpl in *.
    case_bool_decide as Hl; [done|]. intros [= <- <-]; simpl. destruct line; [done|].
    simpl in Hlen. split; [lia|done].
  - destruct (_ !! _) as [e|] eqn:He; [|done]. intros [= <- <-]; simpl.
    rewrite length_insert. apply lookup_lt_Some in He. split; [lia|done].
Qed.

Lemma next_raw_size_none d d' :
  next_raw d = (None, d') -> (source_size d' <= source_size d)%nat /\ td_pending d' = td_pending d.
Proof.
  unfold next_raw, source_size. destruct (td_reader d) as [r|] eqn:Hr.
  - pose proof (read_until_length r) as Hlen. destruct (read_until r) as [line rest]; simpl in *.
    case_bool_decide as Hl; [|done]. intros [= <-]; simpl. split; [lia|done].
  - destruct (_ !! _) as [e|] eqn:He; [done|]. intros [= <-]; simpl. rewrite Hr. split; [lia|done].
Qed.

Lemma next_stamped_size d x d' :
  td_pending d = None -> next_stamped d = Ok (x, d') ->
  td_pending d' = None /\
  match x with Some _ => source_size d' < source_size d | None => source_size d' <= source_size d end%nat.
Proof.
  intros Hp. unfold next_stamped. destruct (next_raw d) as [[raw|] d1] eqn:Hr.
  - apply next_raw_size in Hr as [Hs Hp1].
    intros ([env len] & _ & [= <- <-])%res_bind_ok. unfold source_size in *; simpl in *.
    split; [congruence|lia].
  - apply next_raw_size_none in Hr as [Hs Hp1]. intros [= <- <-]. split; [congruence|lia].
Qed.

Lemma chunk_loop_total fuel chunk body d :
  (drain_size d < fuel)%nat ->
  exists r, chunk_loop fuel chunk body d = Some r /\
    forall c d', r = Ok (c, d') -> (length c + drain_size d' <= length chunk + drain_size d)%nat.
Proof.
  revert chunk body d; induction fuel as [|fuel IH]; intros chunk body d Hf; [lia|].
  cbn [chunk_loop].
  assert (Hnext : forall x d1,
    match td_pending d with Some p => Ok (Some p, with_pending None d) | None => next_stamped d end
      = Ok (x, d1) ->
    td_pending d1 = None /\ match x with Some _ => drain_size d1 < drain_size d
                            | None => drain_size d1 <= drain_size d end%nat).
  { intros x d1. destruct (td_pending d) as [q|] eqn:Hp.
    - intros [= <- <-]. unfold drain_size, source_size; simpl. rewrite Hp. split; [done|lia].
    - intros [H1 H2]%next_stamped_size; [|done]. unfold drain_size. rewrite H1, Hp.
      split; [done|]. destruct x; lia. }
  destruct (match td_pending d with Some p => _ | None => _ end) as [[[[env len]|] d1]|e];
    [| |eexists; split; [done|discriminate]];
    destruct (Hnext _ _ eq_refl) as [Hp1 Hs]; clear Hnext.
  - destruct (negb _ && _).
    + eexists; split; [done|]. intros c d' [= <- <-]. unfold drain_size, source_size in *; simpl.
      rewrite Hp1 in Hs. lia.
    + destruct (IH (chunk ++ [env])
        (body + (len + STAMP_BYTES + (if bool_decide (chunk = []) then 0 else 1))%Z) d1)
        as (r & Hr & Hrs); [lia|].
      exists r; split; [done|]. intros c d' Hc. specialize (Hrs c d' Hc).
      rewrite length_app in Hrs; simpl in Hrs. lia.
  - eexists; split; [done|]. intros c d' [= <- <-]. unfold drain_size, source_size in *; simpl. lia.
Qed.

Lemma mark_chunk_length l : length (mark_chunk l) = length l.
Proof. induction l as [|e [|e' l] IH]; simpl in *; congruence. Qed.

Lemma next_chunk_total d :
  exists r, next_chunk d = Some r /\
    forall c d', r = Ok (Some c, d') -> (drain_size d' < drain_size d)%nat.
Proof.
  destruct (chunk_loop_total (drain_fuel d) [] 2 d) as (r & Hr & Hs).
  { unfold drain_fuel, drain_size. destruct (td_pending d); lia. }
  unfold next_chunk. rewrite Hr. eexists; split; [done|]. destruct r as [[c d']|e]; simpl; [|done].
  specialize (Hs c d' eq_refl). intros c' d'' [= Hc <-]. revert Hc. case_bool_decide as Hn; [done|].
  intros _. assert (c <> []) by (intros ->; by destruct (td_exhausted d')).
  destruct c; [done|]. simpl in Hs. lia.
Qed.

(** Draining a transaction always ends, whatever the spill file holds and however it is cut:
    with the chunks, or with the error of a line that does not parse. *)
Theorem drain_terminates (d : TxnDrain) : exists r, drain_chunks d = Some r.
Proof.
  unfold drain_chunks.
  assert (H : (drain_size d < drain_fuel d)%nat)
    by (unfold drain_fuel, drain_size; destruct (td_pending d); lia).
  revert H. generalize (drain_fuel d) as fuel. intros fuel; revert d.
  induction fuel as [|fuel IH]; intros d Hf; [lia|]. cbn [chunks_loop].
  destruct (next_chunk_total d) as (r & -> & Hr). simpl.
  destruct r as [[[c|] d']|e]; [|by eauto..].
  destruct (IH d') as [cs ->]; [specialize (Hr _ _ eq_refl); lia|]. simpl. eauto.
Qed.
End drain.

(* ------------------------------------------------------------------ *)
(** ** The texts of a stamp *)

Lemma to_digits_length k fuel n acc :
  (n < 10 ^ N.of_nat (S k))%N -> (length (to_digits fuel n acc) <= S k + length acc)%nat.
Proof.
  revert k n acc; induction fuel as [|fuel IH]; intros k n acc Hn; simpl; [lia|].
  destruct (N.ltb_spec n 10) as [|Hge]; [simpl; lia|].
  destruct k as [|k]; [simpl in Hn; lia|].
  transitivity (S k + length ((48 + n mod 10)%N :: acc))%nat; [|simpl; lia].
  apply IH. apply N.Div0.div_lt_upper_bound. by rewrite <- N.pow_succ_r', <- Nat2N.inj_succ.
Qed.

Lemma to_hex_length k fuel n acc :
  (n < 16 ^ N.of_nat (S k))%N -> (length (to_hex fuel n acc) <= S k + length acc)%nat.
Proof.
  revert k n acc; induction fuel as [|fuel IH]; intros k n acc Hn; simpl; [lia|].
  destruct (N.ltb_spec n 16) as [|Hge]; [simpl; lia|].
  destruct k as [|k]; [simpl in Hn; lia|].
  etransitivity; [apply (IH k)|simpl; lia].
  apply N.Div0.div_lt_upper_bound. by rewrite <- N.pow_succ_r', <- Nat2N.inj_succ.
Qed.

Lemma Z_to_str_length k z :
  0 <= z < 10 ^ Z.of_nat (S k) -> (length (Z_to_str z) <= S k)%nat.
Proof.
  intros Hz. unfold Z_to_str, N_to_str. rewrite (proj2 (Z.ltb_ge z 0)) by lia.
  pose proof (to_digits_length k (S (N.size_nat (Z.to_N z))) (Z.to_N z) []) as H.
  rewrite Nat.add_0_r in H. apply H. apply N2Z.inj_lt.
  rewrite Z2N.id, N2Z.inj_pow, nat_N_Z by lia. change (Z.of_N 10) with 10. lia.
Qed.

Lemma lsn_text_length lsn : 0 <= lsn <= u64_max -> (length (lsn_text lsn) <= 17)%nat.
Proof.
  intros Hl. unfold lsn_text, hex_text. rewrite length_app. cbn [length].
  assert (Hhex : forall z, 0 <= z < 2 ^ 32 ->
    (length (to_hex (S (N.size_nat (Z.to_N z))) (Z.to_N z) []) <= 8)%nat).
  { intros z Hz. etransitivity; [apply (to_hex_length 7)|simpl; lia].
    apply N2Z.inj_lt. rewrite Z2N.id by lia. simpl. lia. }
  unfold u64_max in Hl.
  assert (H1 : 0 <= lsn / 2 ^ 32 < 2 ^ 32)
    by (split; [apply Z.div_pos; lia|apply Z.div_lt_upper_bound; lia]).
  apply Hhex in H1. pose proof (Hhex (lsn mod 2 ^ 32) (Z.mod_pos_bound lsn (2 ^ 32) eq_refl)). lia.
Qed.

(** ** What stamping adds to an envelope's text *)

Definition unstamped (e : Envelope) : Prop :=
  let h := e_headers e in
  h_txid h = None /\ h_lsn h = None /\ h_seq h = None /\ h_last h = None.

(** Printable ASCII that JSON does not escape. *)
Definition plain_char (c : char) : Prop := (32 <= c < 127)%N /\ c <> 34%N /\ c <> 92%N.

(** The derived [Serialize]: an absent field is skipped, and a field that is set adds a comma, its
    quoted name, a colon and its value, a string between quotes. *)
Class StampJson `{EnvelopeJson} : Prop := {
  stamp_json_length e st n :
    unstamped e -> Forall plain_char (st_txid st) -> Forall plain_char (st_lsn st) -> 0 <= n ->
    env_len (stamp_env st n e)
    = env_len e + (10 + Z.of_nat (length (st_txid st))) + (9 + Z.of_nat (length (st_lsn st)))
      + (7 + Z.of_nat (length (Z_to_str n)));
  mark_json_length e : h_last (e_headers e) = None -> env_len (mark_last e) = env_len e + 12
}.

(** The stamp of [append_commit_chunked]. *)
Definition commit_stamp (xid lsn : Z) : Stamp := MkStamp (lsn_text lsn) (Z_to_str xid).

(** ** A whole transaction *)

Section transaction.
Context {MC : MemoryCost} {EJ : EnvelopeJson} {SE : SpillEnv}.

(** The pushes of a transaction: what each file operation gives, the envelope, its payload size. *)
Fixpoint push_all (calls : list (option str * Envelope * Z)) (b : TxnBuffer)
    : res TxnError TxnBuffer :=
  match calls with
  | [] => Ok b
  | (io, env, raw) :: calls' => b ← push io env raw b; push_all calls' b
  end.

Definition pushed (calls : list (option str * Envelope * Z)) : list Envelope := (λ c, c.1.2) <$> calls.

Lemma push_all_rep calls b b' es :
  Forall (λ e, 0 <= envelope_memory_bytes e) (pushed calls) -> buf_rep b es ->
  push_all calls b = Ok b' ->
  buf_rep b' (es ++ pushed calls) /\ tb_cfg b' = tb_cfg b /\ tb_xid b' = tb_xid b.
Proof.
  revert b es; induction calls as [|[[io e] n] calls IH]; intros b es Hpos Hb; simpl.
  - intros [= <-]. by rewrite app_nil_r.
  - apply Forall_cons in Hpos as [He Hpos].
    intros (b1 & Hpush & Hrest)%res_bind_ok.
    destruct (push_rep _ _ _ _ _ _ He Hb Hpush) as (Hb1 & Hc & Hx).
    destruct (IH b1 (es ++ [e]) Hpos Hb1 Hrest) as (H1 & H2 & H3).
    rewrite <- (assoc_L (++)) in H1. rewrite Hc in H2. rewrite Hx in H3. done.
Qed.

(** The drain of a buffer starts with everything it holds. *)
Lemma drain_rep io st b es d :
  buf_rep b es -> (is_Some (tb_spill b) -> Forall json_stable es) ->
  drain io st b = Ok d ->
  source_rep d es /\ td_exhausted d = false /\ items_of d es = stamped st 0 es /\
  td_budget d = append_bytes (tb_cfg b).
Proof.
  intros [Hs _ _ _ _ _] Hj. unfold drain. destruct (tb_spill b) as [sp|] eqn:Hsp.
  - destruct Hs as (_ & Hf & _). destruct io; [done|]. intros [= <-]. split_and!; try done.
    split; [done|]. by apply Hj; eauto.
  - intros [= <-]. done.
Qed.

Lemma chunks_of_buffer b es io st d :
  buf_rep b es -> drain io st b = Ok d -> (is_Some (tb_spill b) -> Forall json_stable es) ->
  exists cs, drain_chunks d = Some (Ok cs) /\ packed (append_bytes (tb_cfg b)) (stamped st 0 es) cs.
Proof.
  intros Hb Hdrain Hj.
  destruct (drain_rep _ _ _ _ _ Hb Hj Hdrain) as (Hsrc & Hex & Hit & Hbud).
  rewrite <- Hit, <- Hbud. apply chunks_loop_spec; [done..|]. by apply items_of_fuel.
Qed.

Lemma chunks_of_transaction xid cfg calls b io st d :
  Forall (λ e, 0 <= envelope_memory_bytes e) (pushed calls) ->
  push_all calls (new xid cfg) = Ok b -> drain io st b = Ok d ->
  (is_Some (tb_spill b) -> Forall json_stable (pushed calls)) ->
  exists cs, drain_chunks d = Some (Ok cs) /\
    packed (append_bytes cfg) (stamped st 0 (pushed calls)) cs.
Proof.
  intros Hpos Hpush Hdrain Hj.
  destruct (push_all_rep _ _ _ [] Hpos (new_rep xid cfg) Hpush) as (Hb & Hc & _).
  simpl in Hc. rewrite <- Hc. by eapply chunks_of_buffer.
Qed.

(** A transaction comes out of its buffer as it went in, whatever its size: the chunks of the
    drain are the pushed envelopes in order, each once, stamped with the commit's position and the
    running sequence number, the end marker on the last of the last chunk alone; no chunk is empty,
    and whether the buffer spilled to its file makes no difference. *)
Theorem drain_delivers (xid : Z) (cfg : TxnBufferConfig) (calls : list (option str * Envelope * Z))
    (b : TxnBuffer) (io : option str) (st : Stamp) (d : TxnDrain) :
  Forall (λ e, 0 <= envelope_memory_bytes e) (pushed calls) ->
  push_all calls (new xid cfg) = Ok b -> drain io st b = Ok d ->
  (is_Some (tb_spill b) -> Forall json_stable (pushed calls)) ->
  exists cs, drain_chunks d = Some (Ok cs) /\
    concat cs = mark_chunk (stamped st 0 (pushed calls)).*1 /\ Forall (λ c, c <> []) cs.
Proof.
  intros Hpos Hpush Hdrain Hj.
  destruct (chunks_of_transaction _ _ _ _ _ _ _ Hpos Hpush Hdrain Hj) as (cs & Hcs & Hp).
  exists cs. split; [done|]. by eapply packed_concat.
Qed.

(** The request body of a chunk: a JSON array of its envelopes ([DsClient]). *)
Definition request_body (c : list Envelope) : Z :=
  2 + foldr (λ e a, env_len e + a) 0 c + (Z.of_nat (length c) - 1).

Lemma body_of_request budget items c :
  items <> [] -> Forall2 (λ x e, env_len e <= x.2 + STAMP_BYTES) items c ->
  fits budget items -> request_body c <= budget \/ length c = 1%nat.
Proof.
  intros Hne HF [Hb|Hlen]; [left|right].
  2: { apply Forall2_length in HF. rewrite <- HF. destruct items; [done|]. simpl in *. lia. }
  etransitivity; [|exact Hb]. unfold body_of, request_body.
  rewrite bool_decide_eq_false_2 by done. clear Hb Hne.
  induction HF as [|x e items c Hx HF IH]; simpl in *; lia.
Qed.

Lemma stamped_elem st n es x :
  x ∈ stamped st n es ->
  exists e k, e ∈ es /\ n <= k < n + Z.of_nat (length es) /\ x = (stamp_env st k e, env_len e).
Proof.
  revert n; induction es as [|e es IH]; intros n; simpl; [by intros ?%not_elem_of_nil|].
  rewrite elem_of_cons. intros [->|(e' & k & ? & ? & ->)%IH].
  - exists e, n. split_and!; [left|lia|lia|done].
  - exists e', k. split_and!; [by right|lia|lia|done].
Qed.

Section bodies.
Context {SJ : StampJson}.

Lemma plain_digit c : is_ascii_digit c = true -> plain_char c.
Proof.
  unfold is_ascii_digit, plain_char. intros [H1%N.leb_le H2%N.leb_le]%andb_true_iff. lia.
Qed.

Lemma to_hex_plain fuel n acc : Forall plain_char acc -> Forall plain_char (to_hex fuel n acc).
Proof.
  revert n acc; induction fuel as [|fuel IH]; intros n acc Hacc; simpl; [done|].
  pose proof (N.mod_lt n 16 ltac:(lia)) as Hm.
  assert (Forall plain_char ((if (n mod 16 <? 10)%N then 48 + n mod 16 else 55 + n mod 16)%N :: acc)).
  { constructor; [|done]. unfold plain_char. revert Hm. generalize (n mod 16)%N as d. intros d Hd.
    destruct (N.ltb_spec d 10); lia. }
  destruct (n <? 16)%N; [done|]. by apply IH.
Qed.

Lemma commit_stamp_plain xid lsn :
  0 <= xid -> Forall plain_char (st_txid (commit_stamp xid lsn)) /\
  Forall plain_char (st_lsn (commit_stamp xid lsn)).
Proof.
  intros Hx; simpl. split.
  - unfold Z_to_str. rewrite (proj2 (Z.ltb_ge _ _)) by done. eapply Forall_impl; [by apply N_to_str_digits|]. exact plain_digit.
  - unfold lsn_text. apply Forall_app; split; [by apply to_hex_plain|].
    constructor; [by unfold plain_char; lia | by apply to_hex_plain].
Qed.

(** The allowance covers every stamp of a commit: 20 + 26 + 27 + 12 bytes at most. *)
Lemma stamp_allowance xid lsn n e :
  0 <= xid <= u32_max -> 0 <= lsn <= u64_max -> 0 <= n <= u64_max -> unstamped e ->
  env_len (stamp_env (commit_stamp xid lsn) n e) <= env_len e + STAMP_BYTES - 12 /\
  env_len (mark_last (stamp_env (commit_stamp xid lsn) n e)) <= env_len e + STAMP_BYTES.
Proof.
  intros Hx Hl Hn Hu. pose proof (commit_stamp_plain xid lsn ltac:(lia)) as [Hp1 Hp2].
  pose proof (stamp_json_length e _ n Hu Hp1 Hp2 ltac:(lia)) as Hst. simpl in Hst.
  rewrite mark_json_length by (simpl; apply Hu). rewrite Hst. unfold STAMP_BYTES.
  pose proof (lsn_text_length lsn Hl).
  unfold u32_max, u64_max in *.
  pose proof (Z_to_str_length 9 xid) as H1. change (10 ^ Z.of_nat 10) with 10000000000 in H1.
  specialize (H1 ltac:(lia)).
  pose proof (Z_to_str_length 19 n) as H2.
  change (10 ^ Z.of_nat 20) with 100000000000000000000 in H2.
  specialize (H2 ltac:(lia)). lia.
Qed.

(** C36: Every request body of a commit is within the configured budget, unless it carries one
    envelope alone: the allowance by which chunks are packed covers what stamping adds. *)
Theorem request_bodies_bounded (xid lsn : Z) (cfg : TxnBufferConfig)
    (calls : list (option str * Envelope * Z)) (b : TxnBuffer) (io : option str) (d : TxnDrain) :
  0 <= xid <= u32_max -> 0 <= lsn <= u64_max -> Z.of_nat (length calls) <= u64_max ->
  Forall (λ e, 0 <= envelope_memory_bytes e) (pushed calls) -> Forall unstamped (pushed calls) ->
  push_all calls (new xid cfg) = Ok b -> drain io (commit_stamp xid lsn) b = Ok d ->
  (is_Some (tb_spill b) -> Forall json_stable (pushed calls)) ->
  exists cs, drain_chunks d = Some (Ok cs) /\
    Forall (λ c, request_body c <= append_bytes cfg \/ length c = 1%nat) cs.
Proof.
  intros Hx Hl Hlen Hpos Hun Hpush Hdrain Hj.
  destruct (chunks_of_transaction _ _ _ _ _ _ _ Hpos Hpush Hdrain Hj)
    as (cs & Hcs & parts & Hcat & Hne & Hfit & Hp).
  exists cs. split; [done|].
  assert (Hitem : forall x, x ∈ concat parts ->
    env_len x.1 <= x.2 + STAMP_BYTES - 12 /\ env_len (mark_last x.1) <= x.2 + STAMP_BYTES).
  { rewrite Hcat. intros x (e & k & He & Hk & ->)%stamped_elem. simpl.
    unfold pushed in Hk. rewrite length_fmap in Hk. rewrite Forall_forall in Hun.
    apply stamp_allowance; [done..|lia|by apply Hun]. }
  assert (Hpart : forall part, part ∈ parts ->
    part <> [] /\ fits (append_bytes cfg) part /\
    (forall x, x ∈ part -> env_len x.1 <= x.2 + STAMP_BYTES - 12 /\
                           env_len (mark_last x.1) <= x.2 + STAMP_BYTES)).
  { intros part Hin. rewrite Forall_forall in Hne, Hfit. split_and!; [by apply Hne|by apply Hfit|].
    intros x Hxin. apply Hitem. apply list_elem_of_In, in_concat.
    exists part. by rewrite <- !list_elem_of_In. }
  rewrite <- (reverse_involutive parts) in Hpart. clear Hitem Hcat Hne Hfit.
  destruct (reverse parts) as [|lastp init]; [by subst cs|].
  rewrite Hp. apply Forall_app; split.
  - apply Forall_reverse, Forall_fmap, Forall_forall. intros part Hin; simpl.
    destruct (Hpart part) as (Hn & Hf & Hx'); [rewrite reverse_cons; set_solver|].
    eapply body_of_request; [exact Hn| |exact Hf].
    apply Forall2_fmap_r, Forall_Forall2_diag, Forall_forall. intros x Hxin.
    destruct (Hx' x Hxin). simpl. lia.
  - constructor; [|done].
    destruct (Hpart lastp) as (Hn & Hf & Hx'); [rewrite reverse_cons; set_solver|].
    eapply body_of_request; [exact Hn| |exact Hf].
    clear Hpart Hn Hf Hp. revert Hx'. induction lastp as [|x l IH]; intros Hx'; [done|].
    destruct l as [|y l].
    + constructor; [|done]. apply Hx'. left.
    + assert (Hyl : forall z, z ∈ y :: l -> env_len z.1 <= z.2 + STAMP_BYTES - 12 /\
                     env_len (mark_last z.1) <= z.2 + STAMP_BYTES) by (intros z Hz; apply Hx'; by right).
      constructor; [|apply IH, Hyl]. destruct (Hx' x ltac:(left)). simpl. lia.
Qed.
End bodies.

(** The memory cap holds: after every push of a transaction with a cap, what is held in memory
    is below it, and the buffer has spilled exactly when the transaction reached it. *)
Theorem buffer_memory_bounded (xid : Z) (cfg : TxnBufferConfig)
    (calls : list (option str * Envelope * Z)) (b : TxnBuffer) :
  Forall (λ e, 0 <= envelope_memory_bytes e) (pushed calls) -> 0 < memory_bytes cfg ->
  push_all calls (new xid cfg) = Ok b ->
  tb_mem_bytes b = memory_of (tb_mem b) /\ memory_of (tb_mem b) < memory_bytes cfg /\
  (is_Some (tb_spill b) <-> memory_bytes cfg <= memory_of (pushed calls)).
Proof.
  intros Hpos Hcap Hpush.
  destruct (push_all_rep _ _ _ [] Hpos (new_rep xid cfg) Hpush) as ([Hs Hm _ _ H1 H2] & Hc & _).
  simpl in Hs, Hm, H1, H2, Hc. rewrite Hc in H1, H2. split; [done|].
  destruct (tb_spill b) as [sp|]; split.
  - destruct Hs as (-> & _). done.
  - split; [|by eauto]. intros _. apply H2; eauto.
  - rewrite Hs. by apply H1.
  - split; [by intros [? ?]|]. specialize (H1 eq_refl Hcap). lia.
Qed.

(** ** The log of commits *)

Definition commit_key (st : Stamp) : RunKey := (Some (st_txid st), Some (st_lsn st)).

Lemma stamped_lookup st n es i e' :
  (stamped st n es).*1 !! i = Some e' ->
  exists e, es !! i = Some e /\ e' = stamp_env st (n + Z.of_nat i) e.
Proof.
  revert n i; induction es as [|e es IH]; intros n i; simpl; [by rewrite lookup_nil|].
  destruct i as [|i]; simpl.
  - intros [= <-]. exists e. by rewrite Z.add_0_r.
  - intros (e0 & ? & ->)%IH. exists e0. split; [done|]. f_equal. lia.
Qed.

Lemma mark_chunk_lookup l i e' :
  mark_chunk l !! i = Some e' -> exists e, l !! i = Some e /\ (e' = e \/ e' = mark_last e).
Proof.
  revert i; induction l as [|e [|e2 l] IH]; intros i; [done| |].
  - destruct i as [|i]; simpl; [intros [= <-]; eauto|by rewrite lookup_nil].
  - destruct i as [|i]; [intros [= <-]; eauto|]. apply (IH i).
Qed.

Lemma mark_chunk_snoc l e : mark_chunk (l ++ [e]) = l ++ [mark_last e].
Proof. by rewrite mark_chunk_app. Qed.

(** A stamped transaction is one the sequencer runs whole. *)
Lemma stamped_wf st es :
  es <> [] -> Forall (λ e, h_last (e_headers e) = None) es ->
  txn_wf (commit_key st) (mark_chunk (stamped st 0 es).*1).
Proof.
  intros Hne Hlast.
  assert (Hlook : forall i e', mark_chunk (stamped st 0 es).*1 !! i = Some e' ->
    run_key e' = commit_key st /\ h_seq (e_headers e') = Some (Z.of_nat i)).
  { intros i e' (e1 & (e & _ & ->)%stamped_lookup & [->| ->])%mark_chunk_lookup; done. }
  split.
  - apply Forall_lookup. intros i e' Hi. by apply Hlook in Hi as [? _].
  - intros i e' Hi. apply Hlook in Hi as [_ ->]. eauto.
  - intros i j a b x y Hij [_ Ha]%Hlook [_ Hb]%Hlook. rewrite Ha, Hb. intros [= <-] [= <-]. lia.
  - assert (Hst : (stamped st 0 es).*1 <> []) by (by destruct es).
    destruct (exists_last Hst) as (init & e & Heq). exists init, (mark_last e).
    rewrite Heq, mark_chunk_snoc. split_and!; [done..|].
    apply Forall_lookup. intros i e' Hi.
    assert (Hi' : (stamped st 0 es).*1 !! i = Some e') by (rewrite Heq; by apply lookup_app_l_Some).
    apply stamped_lookup in Hi' as (e0 & He0 & ->). rewrite Forall_lookup in Hlast. simpl.
    by rewrite (Hlast _ _ He0).
Qed.

End transaction.

(* ------------------------------------------------------------------ *)
(** ** The name of a spill file *)

(** The sweep recognises the files a buffer creates: the name [begin_spill] gives a file reads
    back as the process that created it, so a leftover is removed by a successor with that process
    id or once that process is gone, and a live process's file is kept. *)
Theorem spill_name_swept {SE : SpillEnv} (xid pid : Z) (alive : Z -> bool) (live : list str) :
  0 <= xid <= u32_max -> 0 <= pid <= u32_max ->
  spill_file_pid (spill_name xid pid) = Some pid /\
  (is_leftover alive live (spill_name xid pid) = true <->
   spill_name xid pid ∉ live /\ (pid = process_id \/ alive pid = false)).
Proof.
  intros Hx Hp.
  assert (Hr : spill_file_pid (spill_name xid pid) = Some pid).
  { unfold spill_file_pid, spill_name. rewrite str_strip_prefix_app; simpl mbind.
    change (Z_to_str xid ++ 45%N :: Z_to_str pid ++ SPILL_SUFFIX)
      with (Z_to_str xid ++ (45%N :: Z_to_str pid) ++ SPILL_SUFFIX).
    rewrite (assoc_L (++)). cbn [mbind option_bind]. rewrite str_strip_suffix_app. cbn [mbind option_bind].
    rewrite rsplit_once_app.
    - cbn [mbind option_bind]. unfold parse_u32. by rewrite !parse_int_Z_to_str.
    - unfold Z_to_str. rewrite (proj2 (Z.ltb_ge pid 0)) by lia.
      intros Hin. pose proof (N_to_str_digits (Z.to_N pid)) as Hd.
      rewrite Forall_forall in Hd. by specialize (Hd _ Hin). }
  split; [done|]. unfold is_leftover. rewrite Hr, andb_true_iff, orb_true_iff, !negb_true_iff.
  rewrite bool_decide_eq_false, Z.eqb_eq. done.
Qed.

(* ------------------------------------------------------------------ *)
(** ** A transaction of three changes that spills

    A serializer that writes an envelope's key and its headers the way the derived one does. *)

Definition json_field (name : str) (value : option str) : str :=
  match value with
  | None => []
  | Some v => [44; 34]%N ++ name ++ [34; 58]%N ++ v
  end.
Definition json_quoted (v : str) : str := [34%N] ++ v ++ [34%N].

Definition sample_to_vec (e : Envelope) : bytes :=
  let h := e_headers e in
  e_key e ++ json_field $"txid" (json_quoted <$> h_txid h) ++ json_field $"lsn" (json_quoted <$> h_lsn h)
    ++ json_field $"seq" (Z_to_str <$> h_seq h)
    ++ json_field $"last" ((λ b : bool, if b then $"true" else $"false") <$> h_last h).

Definition sample_env (key : str) : Envelope :=
  mkEnvelope $"public.t" key None None (mkHeaders $"insert" None None None None None).
Definition sample_envs : list Envelope := [sample_env $"one"; sample_env $"two"; sample_env $"three"].

#[local] Instance sample_json : EnvelopeJson :=
  {| env_to_vec := sample_to_vec;
     env_from_slice bs := list_find (λ e, sample_to_vec e = bs) sample_envs ≫= (λ p, Some p.2) |}.
#[local] Instance sample_cost : MemoryCost := λ _, 100.
#[local] Instance sample_process : SpillEnv := {| process_id := 7; default_spill_dir := $"/tmp" |}.

#[local] Instance sample_stamp_json : StampJson.
Proof.
  split.
  - intros e st n (H1 & H2 & H3 & H4) _ _ _. unfold env_len; cbn [env_to_vec sample_json].
    unfold sample_to_vec, stamp_env; simpl. rewrite H1, H2, H3, H4. simpl. rewrite app_nil_r.
    unfold json_quoted. rewrite !length_app. simpl. rewrite !length_app. simpl.
    rewrite !length_app. simpl. rewrite ?app_nil_r. lia.
  - intros e H. unfold env_len; cbn [env_to_vec sample_json].
    unfold sample_to_vec, mark_last; simpl. rewrite H. simpl. rewrite app_nil_r, !length_app.
    simpl. lia.
Qed.

Definition sample_txn_config : TxnBufferConfig := MkTxnBufferConfig 150 250 $"/tmp".
Definition sample_calls : list (option str * Envelope * Z) := (λ e, (None, e, 10)) <$> sample_envs.
Definition sample_buffer : TxnBuffer :=
  match push_all sample_calls (new 9 sample_txn_config) with Ok b => b | Err _ => new 9 sample_txn_config end.
Definition sample_drain : TxnDrain :=
  match drain None (commit_stamp 9 1000) sample_buffer with
  | Ok d => d | Err _ => MkTxnDrain sample_buffer 0 None (commit_stamp 9 1000) 0 0 None false
  end.

Lemma sample_push : push_all sample_calls (new 9 sample_txn_config) = Ok sample_buffer.
Proof. vm_compute. reflexivity. Qed.
Lemma sample_drained : drain None (commit_stamp 9 1000) sample_buffer = Ok sample_drain.
Proof. vm_compute. reflexivity. Qed.
Lemma sample_spilled : is_Some (tb_spill sample_buffer).
Proof. vm_compute. eauto. Qed.
Lemma sample_positive : Forall (λ e, 0 <= envelope_memory_bytes e) (pushed sample_calls).
Proof. repeat constructor; vm_compute; discriminate. Qed.
Lemma sample_stable : Forall json_stable (pushed sample_calls).
Proof.
  assert (H : forall k, k ∈ [$"one"; $"two"; $"three"] -> json_stable (sample_env k)).
  { intros k Hk. rewrite !elem_of_cons in Hk. destruct Hk as [->|[->|[->|Hk%not_elem_of_nil]]]; [..|done];
      (split; [vm_compute; reflexivity|apply (bool_decide_unpack _); vm_compute; exact I]). }
  constructor; [apply H; left|].
  constructor; [apply H; right; left|]. constructor; [apply H; right; right; left|constructor].
Qed.
Lemma sample_unstamped : Forall unstamped (pushed sample_calls).
Proof. repeat constructor. Qed.

(** Two chunks: two envelopes, then the last one alone. *)
Example sample_chunks : exists cs, drain_chunks sample_drain = Some (Ok cs) /\ length <$> cs = [2; 1]%nat.
Proof. eexists. split; [vm_compute; reflexivity|]. reflexivity. Qed.

Lemma drain_delivers_witness :
  exists cs, drain_chunks sample_drain = Some (Ok cs) /\
    concat cs = mark_chunk (stamped (commit_stamp 9 1000) 0 (pushed sample_calls)).*1 /\
    Forall (λ c, c <> []) cs.
Proof.
  exact (drain_delivers 9 sample_txn_config sample_calls sample_buffer None (commit_stamp 9 1000)
           sample_drain sample_positive sample_push sample_drained (λ _, sample_stable)).
Defined.

Lemma buffer_memory_bounded_witness : memory_of (tb_mem sample_buffer) < 150.
Proof.
  destruct (buffer_memory_bounded 9 sample_txn_config sample_calls sample_buffer sample_positive
              eq_refl sample_push) as (_ & H & _). exact H.
Defined.

Lemma request_bodies_bounded_witness :
  exists cs, drain_chunks sample_drain = Some (Ok cs) /\
    Forall (λ c, request_body c <= 250 \/ length c = 1%nat) cs.
Proof.
  refine (request_bodies_bounded 9 1000 sample_txn_config sample_calls sample_buffer None
            sample_drain _ _ _ sample_positive sample_unstamped sample_push sample_drained
            (λ _, sample_stable));
    [vm_compute; split; discriminate|vm_compute; split; discriminate|vm_compute; discriminate].
Defined.

Lemma spill_name_swept_witness :
  spill_file_pid (spill_name 9 7) = Some 7.
Proof.
  apply (spill_name_swept 9 7 (λ _, false) []); vm_compute; split; discriminate.
Defined.
