(* ===== verification/Pgoutput.v ===== *)
(** * Decoding logical replication messages ([pgoutput.rs])

    The reader over a message's bytes as a parser on what is left of them, its errors as values,
    and [decode].  [String::from_utf8_lossy] is the decoding of UTF-8 in which every maximal part
    of an ill-formed sequence becomes one replacement character.

    The encoder is Postgres's side of the wire (the documented message formats, which the tests of
    the file write the same way): what it writes is decoded back, and no proper prefix of it is
    accepted. *)

From S2P Require Import Prelude.
From stdpp Require Import base option numbers strings gmap fin_maps sorting list.
#[local] Open Scope Z_scope.

Abbreviation bytes := (list N).

(* ------------------------------------------------------------------ *)
(** ** UTF-8 *)

Definition in_range (lo hi b : N) : bool := (lo <=? b)%N && (b <=? hi)%N.
Definition is_cont (b : N) : bool := in_range 128 191 b.

(** The bytes a second byte may take after the first, for sequences of three and four bytes. *)
Definition second3 (b0 b1 : N) : bool :=
  if (b0 =? 224)%N then in_range 160 191 b1
  else if (b0 =? 237)%N then in_range 128 159 b1
  else is_cont b1.
Definition second4 (b0 b1 : N) : bool :=
  if (b0 =? 240)%N then in_range 144 191 b1
  else if (b0 =? 244)%N then in_range 128 143 b1
  else is_cont b1.

Definition replacement : char := 65533%N.

Fixpoint from_utf8_lossy (bs : bytes) : str :=
  match bs with
  | [] => []
  | b0 :: bs1 =>
      if (b0 <? 128)%N then b0 :: from_utf8_lossy bs1
      else if in_range 194 223 b0 then
        match bs1 with
        | b1 :: bs2 =>
            if is_cont b1 then ((b0 - 192) * 64 + (b1 - 128))%N :: from_utf8_lossy bs2
            else replacement :: from_utf8_lossy bs1
        | [] => [replacement]
        end
      else if in_range 224 239 b0 then
        match bs1 with
        | b1 :: bs2 =>
            if second3 b0 b1 then
              match bs2 with
              | b2 :: bs3 =>
                  if is_cont b2
                  then ((b0 - 224) * 4096 + (b1 - 128) * 64 + (b2 - 128))%N :: from_utf8_lossy bs3
                  else replacement :: from_utf8_lossy bs2
              | [] => [replacement]
              end
            else replacement :: from_utf8_lossy bs1
        | [] => [replacement]
        end
      else if in_range 240 244 b0 then
        match bs1 with
        | b1 :: bs2 =>
            if second4 b0 b1 then
              match bs2 with
              | b2 :: bs3 =>
                  if is_cont b2 then
                    match bs3 with
                    | b3 :: bs4 =>
                        if is_cont b3
                        then ((b0 - 240) * 262144 + (b1 - 128) * 4096 + (b2 - 128) * 64
                              + (b3 - 128))%N :: from_utf8_lossy bs4
                        else replacement :: from_utf8_lossy bs3
                    | [] => [replacement]
                    end
                  else replacement :: from_utf8_lossy bs2
              | [] => [replacement]
              end
            else replacement :: from_utf8_lossy bs1
        | [] => [replacement]
        end
      else replacement :: from_utf8_lossy bs1
  end.

(** The UTF-8 of a character, and of a text. *)
Definition utf8_char (c : char) : bytes :=
  if (c <? 128)%N then [c]
  else if (c <? 2048)%N then [192 + c / 64; 128 + c mod 64]%N
  else if (c <? 65536)%N then [224 + c / 4096; 128 + c / 64 mod 64; 128 + c mod 64]%N
  else [240 + c / 262144; 128 + c / 4096 mod 64; 128 + c / 64 mod 64; 128 + c mod 64]%N.
Definition utf8 (s : str) : bytes := s ≫= utf8_char.

(** A Unicode scalar value. *)
Definition is_scalar (c : char) : Prop := (c < 55296 \/ 57344 <= c < 1114112)%N.

Lemma in_range_true lo hi b : in_range lo hi b = true <-> (lo <= b <= hi)%N.
Proof. unfold in_range. by rewrite andb_true_iff, !N.leb_le. Qed.

Lemma in_range_false lo hi b : (b < lo \/ hi < b)%N -> in_range lo hi b = false.
Proof. intros H. apply not_true_is_false. rewrite in_range_true. lia. Qed.

Lemma lossy2 b0 b1 rest :
  (194 <= b0 <= 223)%N -> (128 <= b1 <= 191)%N ->
  from_utf8_lossy (b0 :: b1 :: rest) = ((b0 - 192) * 64 + (b1 - 128))%N :: from_utf8_lossy rest.
Proof.
  intros H0 H1. cbn [from_utf8_lossy]. rewrite (proj2 (N.ltb_ge b0 128)) by lia.
  rewrite (proj2 (in_range_true 194 223 b0)) by done. unfold is_cont.
  by rewrite (proj2 (in_range_true 128 191 b1)).
Qed.

Lemma lossy3 b0 b1 b2 rest :
  (224 <= b0 <= 239)%N -> second3 b0 b1 = true -> (128 <= b2 <= 191)%N ->
  from_utf8_lossy (b0 :: b1 :: b2 :: rest)
  = ((b0 - 224) * 4096 + (b1 - 128) * 64 + (b2 - 128))%N :: from_utf8_lossy rest.
Proof.
  intros H0 H1 H2. cbn [from_utf8_lossy]. rewrite (proj2 (N.ltb_ge b0 128)) by lia.
  rewrite (in_range_false 194 223 b0) by lia. rewrite (proj2 (in_range_true 224 239 b0)) by done.
  rewrite H1. unfold is_cont. by rewrite (proj2 (in_range_true 128 191 b2)).
Qed.

Lemma lossy4 b0 b1 b2 b3 rest :
  (240 <= b0 <= 244)%N -> second4 b0 b1 = true -> (128 <= b2 <= 191)%N -> (128 <= b3 <= 191)%N ->
  from_utf8_lossy (b0 :: b1 :: b2 :: b3 :: rest)
  = ((b0 - 240) * 262144 + (b1 - 128) * 4096 + (b2 - 128) * 64 + (b3 - 128))%N
    :: from_utf8_lossy rest.
Proof.
  intros H0 H1 H2 H3. cbn [from_utf8_lossy]. rewrite (proj2 (N.ltb_ge b0 128)) by lia.
  rewrite (in_range_false 194 223 b0), (in_range_false 224 239 b0) by lia.
  rewrite (proj2 (in_range_true 240 244 b0)) by done.
  rewrite H1. unfold is_cont. rewrite (proj2 (in_range_true 128 191 b2)) by done.
  by rewrite (proj2 (in_range_true 128 191 b3)).
Qed.

(** The base-64 digits of a number, for [lia]. *)
Lemma split64 (c : N) : exists q r, c = (q * 64 + r)%N /\ (r < 64)%N /\ (c / 64 = q)%N /\ (c mod 64 = r)%N.
Proof.
  exists (c / 64)%N, (c mod 64)%N. split_and!; [|by apply N.mod_lt|done|done].
  pose proof (N.div_mod c 64 ltac:(lia)). lia.
Qed.

Lemma utf8_char_lossy c rest :
  is_scalar c -> from_utf8_lossy (utf8_char c ++ rest) = c :: from_utf8_lossy rest.
Proof.
  unfold is_scalar, utf8_char. intros Hc.
  destruct (split64 c) as (q1 & r0 & Hc1 & Hr0 & Eq1 & Er0).
  destruct (split64 q1) as (q2 & r1 & Hq1 & Hr1 & Eq2 & Er1).
  destruct (split64 q2) as (q3 & r2 & Hq2 & Hr2 & Eq3 & Er2).
  assert (E4096 : (c / 4096 = q2)%N) by (change 4096%N with (64 * 64)%N; rewrite <- N.Div0.div_div; congruence).
  assert (E262144 : (c / 262144 = q3)%N)
    by (change 262144%N with (4096 * 64)%N; rewrite <- N.Div0.div_div; congruence).
  rewrite E4096, E262144, Eq1, Er0, Er1, Er2. clear E4096 E262144 Eq1 Er0 Eq2 Er1 Eq3 Er2.
  destruct (N.ltb_spec c 128) as [Hlt|H128]; [|destruct (N.ltb_spec c 2048);
    [|destruct (N.ltb_spec c 65536)]]; cbn [app].
  - cbn [from_utf8_lossy]. by rewrite (proj2 (N.ltb_lt c 128)).
  - rewrite lossy2 by lia. f_equal. lia.
  - rewrite lossy3; [f_equal; lia|lia| |lia]. unfold second3, is_cont.
    destruct (N.eqb_spec (224 + q2) 224); [|destruct (N.eqb_spec (224 + q2) 237)];
      apply in_range_true; lia.
  - rewrite lossy4; [f_equal; lia|lia| |lia|lia]. unfold second4, is_cont.
    destruct (N.eqb_spec (240 + q3) 240); [|destruct (N.eqb_spec (240 + q3) 244)];
      apply in_range_true; lia.
Qed.

Lemma utf8_lossy s : Forall is_scalar s -> from_utf8_lossy (utf8 s) = s.
Proof.
  induction 1 as [|c s Hc Hs IH]; [done|]. unfold utf8; csimpl. fold (utf8 s).
  by rewrite utf8_char_lossy, IH.
Qed.

(** Only a NUL is encoded with a NUL byte. *)
Lemma utf8_no_nul s : Forall is_scalar s -> 0%N ∉ s -> 0%N ∉ utf8 s.
Proof.
  induction 1 as [|c s Hc Hs IH]; [done|]. rewrite not_elem_of_cons. intros [H0 Hs0].
  unfold utf8; csimpl. fold (utf8 s). rewrite not_elem_of_app. split; [|by apply IH].
  assert (HF : Forall (λ b, b <> 0%N) (utf8_char c)).
  { assert (Hpos : forall a b : N, (0 < a)%N -> (a + b)%N <> 0%N) by lia.
    unfold utf8_char. repeat case_match; rewrite !Forall_cons; cbv beta;
      split_and!; try done; by apply Hpos. }
  rewrite Forall_forall in HF. intros Hin. by apply (HF _ Hin).
Qed.

(* ------------------------------------------------------------------ *)
(** ** Messages *)

Inductive Cell :=
  | CNull
  | CUnchangedToast
  | CText (text : str).
Abbreviation Tuple := (list Cell).

Inductive OldTuple :=
  | OldFull (t : Tuple)
  | OldKey (t : Tuple).

Record RelColumn := MkRelColumn {
  rc_name : str;
  rc_type_oid : Z;
  rc_typmod : Z;
  rc_key : bool
}.

Inductive Message :=
  | MRelation (rel_id : Z) (namespace name : str) (replident : N) (columns : list RelColumn)
  | MInsert (rel_id : Z) (new : Tuple)
  | MUpdate (rel_id : Z) (old : option OldTuple) (new : Tuple)
  | MDelete (rel_id : Z) (old : OldTuple)
  | MTruncate (rel_ids : list Z)
  | MIgnored.

Inductive DecodeError :=
  | EmptyMessage
  | Truncated (wanted : nat)
  | UnterminatedString
  | BadMarker (got : N)
  | NegativeLength
  | BadCell (kind : N).

(* ------------------------------------------------------------------ *)
(** ** The reader *)

(** A method of [Reader]: from what is left of the message to a value and what is left after it. *)
Definition reader (A : Type) : Type := bytes -> res DecodeError (A * bytes).
#[global] Instance reader_ret : MRet reader := λ A a bs, Ok (a, bs).
#[global] Instance reader_bind : MBind reader := λ A B f p bs,
  match p bs with Ok (a, rest) => f a rest | Err e => Err e end.

(** [bail!]. *)
Definition fail_with {A} (e : DecodeError) : reader A := λ _, Err e.

Definition read_take (n : nat) : reader bytes := λ bs,
  if (length bs <? n)%nat then Err (Truncated n) else Ok (take n bs, drop n bs).

(** [from_be_bytes], unsigned and in two's complement. *)
Definition be_unsigned (bs : bytes) : Z := foldl (λ a b, a * 256 + Z.of_N b) 0 bs.
Definition be_signed (w : Z) (bs : bytes) : Z :=
  let u := be_unsigned bs in if u <? 2 ^ (w - 1) then u else u - 2 ^ w.

Definition read_u8 : reader N := bs ← read_take 1; mret (default 0%N (head bs)).
Definition read_i16 : reader Z := bs ← read_take 2; mret (be_signed 16 bs).
Definition read_u32 : reader Z := bs ← read_take 4; mret (be_unsigned bs).
Definition read_i32 : reader Z := bs ← read_take 4; mret (be_signed 32 bs).

(** The bytes up to the first NUL, and what follows it. *)
Fixpoint until_nul (bs : bytes) : option (bytes * bytes) :=
  match bs with
  | [] => None
  | b :: bs' =>
      if (b =? 0)%N then Some ([], bs')
      else p ← until_nul bs'; Some (b :: p.1, p.2)
  end.

Definition read_cstr : reader str := λ bs,
  match until_nul bs with
  | None => Err UnterminatedString
  | Some (s, rest) => Ok (from_utf8_lossy s, rest)
  end.

(** [for _ in 0..n { out.push(p()?) }]. *)
Fixpoint read_many {A} (n : nat) (p : reader A) : reader (list A) :=
  match n with
  | O => mret []
  | S n' => x ← p; xs ← read_many n' p; mret (x :: xs)
  end.

Definition read_cell : reader Cell :=
  kind ← read_u8;
  if (kind =? 110)%N then mret CNull
  else if (kind =? 117)%N then mret CUnchangedToast
  else if (kind =? 116)%N then
    len ← read_i32;
    if len <? 0 then fail_with NegativeLength
    else text ← read_take (Z.to_nat len); mret (CText (from_utf8_lossy text))
  else fail_with (BadCell kind).

Definition read_tuple : reader Tuple := ncols ← read_i16; read_many (Z.to_nat ncols) read_cell.

Definition read_column : reader RelColumn :=
  flags ← read_u8;
  name ← read_cstr;
  type_oid ← read_u32;
  typmod ← read_i32;
  mret (MkRelColumn name type_oid typmod (negb (N.land flags 1 =? 0)%N)).

(** The arms of [decode]. *)
Definition read_relation : reader Message :=
  rel_id ← read_u32;
  namespace ← read_cstr;
  name ← read_cstr;
  replident ← read_u8;
  ncols ← read_i16;
  columns ← read_many (Z.to_nat ncols) read_column;
  mret (MRelation rel_id namespace name replident columns).

Definition read_insert : reader Message :=
  rel_id ← read_u32;
  marker ← read_u8;
  if negb (marker =? 78)%N then fail_with (BadMarker marker)
  else new ← read_tuple; mret (MInsert rel_id new).

Definition read_update : reader Message :=
  rel_id ← read_u32;
  marker ← read_u8;
  '(old, marker) ←
    (if (marker =? 75)%N then t ← read_tuple; m ← read_u8; mret (Some (OldKey t), m)
     else if (marker =? 79)%N then t ← read_tuple; m ← read_u8; mret (Some (OldFull t), m)
     else mret (None, marker));
  if negb (marker =? 78)%N then fail_with (BadMarker marker)
  else new ← read_tuple; mret (MUpdate rel_id old new).

Definition read_delete : reader Message :=
  rel_id ← read_u32;
  marker ← read_u8;
  if (marker =? 79)%N then t ← read_tuple; mret (MDelete rel_id (OldFull t))
  else if (marker =? 75)%N then t ← read_tuple; mret (MDelete rel_id (OldKey t))
  else fail_with (BadMarker marker).

Definition read_truncate : reader Message :=
  n ← read_u32;
  _ ← read_u8;
  rel_ids ← read_many (Z.to_nat n) read_u32;
  mret (MTruncate rel_ids).

Definition read_message : reader Message := λ data,
  match read_u8 data with
  | Err _ => Err EmptyMessage
  | Ok (tag, rest) =>
      (if (tag =? 82)%N then read_relation
       else if (tag =? 73)%N then read_insert
       else if (tag =? 85)%N then read_update
       else if (tag =? 68)%N then read_delete
       else if (tag =? 84)%N then read_truncate
       else mret MIgnored) rest
  end.

(** [decode]: what is left after the message is ignored. *)
Definition decode (data : bytes) : res DecodeError Message := fst <$> read_message data.

(* ------------------------------------------------------------------ *)
(** ** The sender's side *)

Fixpoint be_bytes (n : nat) (z : Z) : bytes :=
  match n with
  | O => []
  | S n' => be_bytes n' (z / 256) ++ [Z.to_N (z mod 256)]
  end.

Definition put_cstr (s : str) : bytes := utf8 s ++ [0%N].
Definition put_cell (c : Cell) : bytes :=
  match c with
  | CNull => [110%N]
  | CUnchangedToast => [117%N]
  | CText t => 116%N :: be_bytes 4 (Z.of_nat (length (utf8 t))) ++ utf8 t
  end.
Definition put_tuple (t : Tuple) : bytes :=
  be_bytes 2 (Z.of_nat (length t)) ++ (t ≫= put_cell).
Definition put_column (c : RelColumn) : bytes :=
  (if rc_key c then 1 else 0)%N :: put_cstr (rc_name c) ++ be_bytes 4 (rc_type_oid c)
    ++ be_bytes 4 (rc_typmod c).
Definition put_old (o : OldTuple) : bytes :=
  match o with OldFull t => 79%N :: put_tuple t | OldKey t => 75%N :: put_tuple t end.
Definition put_message (m : Message) : bytes :=
  match m with
  | MRelation rel_id namespace name replident columns =>
      82%N :: be_bytes 4 rel_id ++ put_cstr namespace ++ put_cstr name ++ [replident]
        ++ be_bytes 2 (Z.of_nat (length columns)) ++ (columns ≫= put_column)
  | MInsert rel_id new => 73%N :: be_bytes 4 rel_id ++ 78%N :: put_tuple new
  | MUpdate rel_id old new =>
      85%N :: be_bytes 4 rel_id ++ match old with Some o => put_old o | None => [] end
        ++ 78%N :: put_tuple new
  | MDelete rel_id old => 68%N :: be_bytes 4 rel_id ++ put_old old
  | MTruncate rel_ids =>
      84%N :: be_bytes 4 (Z.of_nat (length rel_ids)) ++ [0%N] ++ (rel_ids ≫= be_bytes 4)
  | MIgnored => []
  end.

(** What the wire can carry. *)
Definition text_ok (s : str) : Prop := Forall is_scalar s.
Definition name_ok (s : str) : Prop := text_ok s /\ 0%N ∉ s.
Definition cell_ok (c : Cell) : Prop :=
  match c with CText t => text_ok t /\ Z.of_nat (length (utf8 t)) < 2 ^ 31 | _ => True end.
Definition tuple_ok (t : Tuple) : Prop := Forall cell_ok t /\ Z.of_nat (length t) < 2 ^ 15.
Definition u32_ok (z : Z) : Prop := 0 <= z < 2 ^ 32.
Definition column_ok (c : RelColumn) : Prop :=
  name_ok (rc_name c) /\ u32_ok (rc_type_oid c) /\ - 2 ^ 31 <= rc_typmod c < 2 ^ 31.
Definition old_ok (o : OldTuple) : Prop := match o with OldFull t | OldKey t => tuple_ok t end.
Definition message_ok (m : Message) : Prop :=
  match m with
  | MRelation rel_id namespace name replident columns =>
      u32_ok rel_id /\ name_ok namespace /\ name_ok name /\
      Forall column_ok columns /\ Z.of_nat (length columns) < 2 ^ 15
  | MInsert rel_id new => u32_ok rel_id /\ tuple_ok new
  | MUpdate rel_id old new =>
      u32_ok rel_id /\ match old with Some o => old_ok o | None => True end /\ tuple_ok new
  | MDelete rel_id old => u32_ok rel_id /\ old_ok old
  | MTruncate rel_ids => Forall u32_ok rel_ids /\ Z.of_nat (length rel_ids) < 2 ^ 32
  | MIgnored => False
  end.

(* ================================================================== *)
(** * Facts *)

(** [p] reads exactly [bs], whatever follows, and yields [a]. *)
Definition reads {A} (p : reader A) (bs : bytes) (a : A) : Prop :=
  forall rest, p (bs ++ rest) = Ok (a, rest).

Lemma reads_ret {A} (a : A) : reads (mret a) [] a.
Proof. by intros rest. Qed.

Lemma reads_bind {A B} (p : reader A) (f : A -> reader B) bs1 bs2 a b :
  reads p bs1 a -> reads (f a) bs2 b -> reads (p ≫= f) (bs1 ++ bs2) b.
Proof.
  intros H1 H2 rest. unfold mbind, reader_bind. by rewrite <- (assoc_L (++)), H1, H2.
Qed.

(** The last step of a [do] block. *)
Lemma reads_map {A B} (p : reader A) (f : A -> B) bs a :
  reads p bs a -> reads (x ← p; mret (f x)) bs (f a).
Proof. intros H rest. unfold mbind, reader_bind. by rewrite H. Qed.

Lemma reads_take bs : reads (read_take (length bs)) bs bs.
Proof.
  intros rest. unfold read_take. rewrite length_app, (proj2 (Nat.ltb_ge _ _)) by lia.
  by rewrite take_app_length, drop_app_length.
Qed.

Lemma be_bytes_length n z : length (be_bytes n z) = n.
Proof. revert z; induction n as [|n IH]; intros z; simpl; [done|]. rewrite length_app, IH; simpl; lia. Qed.

Lemma be_unsigned_bytes n z : be_unsigned (be_bytes n z) = z mod 256 ^ Z.of_nat n.
Proof.
  unfold be_unsigned. revert z; induction n as [|n IH]; intros z; simpl be_bytes.
  - simpl. by rewrite Z.mod_1_r.
  - rewrite foldl_app, IH; simpl. rewrite Z2N.id by (apply Z.mod_pos_bound; lia).
    rewrite Nat2Z.inj_succ, Z.pow_succ_r by lia.
    rewrite (Z.rem_mul_r z 256 (256 ^ Z.of_nat n)) by lia. lia.
Qed.

Lemma be_signed_bytes n z :
  (0 < n)%nat -> - 2 ^ (8 * Z.of_nat n - 1) <= z < 2 ^ (8 * Z.of_nat n - 1) ->
  be_signed (8 * Z.of_nat n) (be_bytes n z) = z.
Proof.
  intros Hn Hz. unfold be_signed. rewrite be_unsigned_bytes.
  replace (256 ^ Z.of_nat n) with (2 ^ (8 * Z.of_nat n)) by (rewrite Z.pow_mul_r by lia; done).
  assert (Hw : 2 ^ (8 * Z.of_nat n) = 2 * 2 ^ (8 * Z.of_nat n - 1))
    by (rewrite <- Z.pow_succ_r by lia; f_equal; lia).
  destruct (Z.lt_ge_cases z 0).
  - assert (Hmod : z mod 2 ^ (8 * Z.of_nat n) = z + 2 ^ (8 * Z.of_nat n)).
    { symmetry. apply (Z.mod_unique_pos _ _ (-1)); lia. }
    rewrite Hmod. rewrite (proj2 (Z.ltb_ge _ _)) by lia. lia.
  - rewrite Z.mod_small by lia. by rewrite (proj2 (Z.ltb_lt _ _)) by lia.
Qed.

Lemma reads_u8 b : reads read_u8 [b] b.
Proof. intros rest. done. Qed.

Lemma reads_i16 z : - 2 ^ 15 <= z < 2 ^ 15 -> reads read_i16 (be_bytes 2 z) z.
Proof.
  intros Hz. unfold read_i16. rewrite <- (be_signed_bytes 2 z) at 2 by (simpl; lia).
  apply reads_map. rewrite <- (be_bytes_length 2 z) at 1. apply reads_take.
Qed.

Lemma reads_i32 z : - 2 ^ 31 <= z < 2 ^ 31 -> reads read_i32 (be_bytes 4 z) z.
Proof.
  intros Hz. unfold read_i32. rewrite <- (be_signed_bytes 4 z) at 2 by (simpl; lia).
  apply reads_map. rewrite <- (be_bytes_length 4 z) at 1. apply reads_take.
Qed.

Lemma reads_u32 z : u32_ok z -> reads read_u32 (be_bytes 4 z) z.
Proof.
  intros Hz. unfold read_u32.
  assert (He : be_unsigned (be_bytes 4 z) = z) by (rewrite be_unsigned_bytes; by apply Z.mod_small).
  rewrite <- He at 2. apply reads_map. rewrite <- (be_bytes_length 4 z) at 1. apply reads_take.
Qed.

Lemma until_nul_app s rest : 0%N ∉ s -> until_nul (s ++ 0%N :: rest) = Some (s, rest).
Proof.
  induction s as [|c s IH]; simpl; [done|]. rewrite not_elem_of_cons. intros [Hc Hs].
  rewrite (proj2 (N.eqb_neq _ _)) by congruence. by rewrite IH.
Qed.

Lemma reads_cstr s : name_ok s -> reads read_cstr (put_cstr s) s.
Proof.
  intros [Ht Hn] rest. unfold read_cstr, put_cstr. rewrite <- (assoc_L (++)).
  change ([0%N] ++ rest) with (0%N :: rest).
  rewrite until_nul_app by (by apply utf8_no_nul). by rewrite utf8_lossy.
Qed.

Lemma reads_many {A} (p : reader A) (put : A -> bytes) xs :
  Forall (λ x, reads p (put x) x) xs -> reads (read_many (length xs) p) (xs ≫= put) xs.
Proof.
  induction 1 as [|x xs Hx _ IH]; simpl; [apply reads_ret|].
  apply (reads_bind _ _ _ _ x); [done|]. by apply reads_map.
Qed.

Lemma reads_cell c : cell_ok c -> reads read_cell (put_cell c) c.
Proof.
  intros Hc. unfold read_cell. destruct c as [| |t]; [by intros rest..|]. destruct Hc as [Ht Hl].
  change (put_cell (CText t)) with ([116%N] ++ be_bytes 4 (Z.of_nat (length (utf8 t))) ++ utf8 t).
  apply (reads_bind _ _ _ _ 116%N); [apply reads_u8|]. cbn [N.eqb Pos.eqb negb].
  apply (reads_bind _ _ _ _ (Z.of_nat (length (utf8 t)))); [apply reads_i32; lia|].
  rewrite (proj2 (Z.ltb_ge _ _)) by lia. rewrite Nat2Z.id.
  rewrite <- (utf8_lossy t) at 3 by done. apply (reads_map _ (λ x, CText (from_utf8_lossy x))).
  apply reads_take.
Qed.

Lemma reads_tuple t : tuple_ok t -> reads read_tuple (put_tuple t) t.
Proof.
  intros [Ht Hl]. unfold read_tuple, put_tuple.
  apply (reads_bind _ _ _ _ (Z.of_nat (length t))); [apply reads_i16; lia|].
  rewrite Nat2Z.id. apply reads_many. eapply Forall_impl; [exact Ht|]. apply reads_cell.
Qed.

Lemma reads_column c : column_ok c -> reads read_column (put_column c) c.
Proof.
  intros (Hn & Ho & Ht). destruct c as [name oid typmod key]; simpl in *. unfold read_column.
  change (put_column _) with ([(if key then 1 else 0)%N] ++ put_cstr name ++ be_bytes 4 oid
                              ++ be_bytes 4 typmod).
  apply (reads_bind _ _ _ _ (if key then 1 else 0)%N); [apply reads_u8|].
  apply (reads_bind _ _ _ _ name); [by apply reads_cstr|].
  apply (reads_bind _ _ _ _ oid); [by apply reads_u32|].
  destruct key; apply (reads_map _ (λ t, MkRelColumn name oid t _)); by apply reads_i32.
Qed.

Create HintDb wire.
#[export] Hint Resolve reads_u8 reads_u32 reads_i16 reads_i32 reads_cstr reads_tuple reads_column
  : wire.

(** One more step of a message. *)
Ltac read_step a := apply (reads_bind _ _ _ _ a); [solve [eauto with wire]|].

Lemma reads_message m : message_ok m -> reads read_message (put_message m) m.
Proof.
  intros Hm. destruct m as [rel ns name ident cols|rel new|rel old new|rel old|ids|]; [..|done];
    intros rest; cbn [put_message app]; unfold read_message; cbn [read_u8].
  - destruct Hm as (Hr & Hns & Hname & Hc & Hl). cbn -[read_relation be_bytes].
    revert rest. change (reads read_relation (be_bytes 4 rel ++ put_cstr ns ++ put_cstr name ++ [ident]
      ++ be_bytes 2 (Z.of_nat (length cols)) ++ (cols ≫= put_column)) (MRelation rel ns name ident cols)).
    unfold read_relation. read_step rel. read_step ns. read_step name. read_step ident.
    apply (reads_bind _ _ _ _ (Z.of_nat (length cols))); [apply reads_i16; lia|]. rewrite Nat2Z.id.
    apply reads_map, reads_many. eapply Forall_impl; [exact Hc|]. apply reads_column.
  - destruct Hm as (Hr & Ht). cbn -[read_insert be_bytes]. revert rest.
    change (reads read_insert (be_bytes 4 rel ++ [78%N] ++ put_tuple new) (MInsert rel new)).
    unfold read_insert. read_step rel. read_step 78%N. cbn [N.eqb Pos.eqb negb]. apply reads_map; eauto with wire.
  - destruct Hm as (Hr & Ho & Ht). cbn -[read_update be_bytes]. revert rest.
    change (reads read_update (be_bytes 4 rel ++ match old with Some o => put_old o | None => [] end
      ++ [78%N] ++ put_tuple new) (MUpdate rel old new)).
    unfold read_update. read_step rel. destruct old as [[t|t]|]; cbn [put_old].
    + change (79%N :: put_tuple t) with ([79%N] ++ put_tuple t). rewrite <- (assoc_L (++)).
      read_step 79%N. cbn [N.eqb Pos.eqb negb]. rewrite (assoc_L (++)).
      apply (reads_bind _ _ _ _ (Some (OldFull t), 78%N)).
      * read_step t. apply (reads_map _ (λ m, (Some (OldFull t), m))), reads_u8.
      * cbn [N.eqb Pos.eqb negb]. apply reads_map; eauto with wire.
    + change (75%N :: put_tuple t) with ([75%N] ++ put_tuple t). rewrite <- (assoc_L (++)).
      read_step 75%N. cbn [N.eqb Pos.eqb negb]. rewrite (assoc_L (++)).
      apply (reads_bind _ _ _ _ (Some (OldKey t), 78%N)).
      * read_step t. apply (reads_map _ (λ m, (Some (OldKey t), m))), reads_u8.
      * cbn [N.eqb Pos.eqb negb]. apply reads_map; eauto with wire.
    + cbn [app]. change (78%N :: put_tuple new) with ([78%N] ++ [] ++ put_tuple new).
      read_step 78%N. apply (reads_bind _ _ _ _ (None, 78%N)); [apply reads_ret|].
      cbn [N.eqb Pos.eqb negb]. apply reads_map; eauto with wire.
  - destruct Hm as (Hr & Ho). cbn -[read_delete be_bytes]. revert rest.
    change (reads read_delete (be_bytes 4 rel ++ put_old old) (MDelete rel old)).
    unfold read_delete. read_step rel. destruct old as [t|t]; cbn [put_old].
    + change (79%N :: put_tuple t) with ([79%N] ++ put_tuple t). read_step 79%N. cbn [N.eqb Pos.eqb negb].
      apply (reads_map _ (λ t, MDelete rel (OldFull t))); eauto with wire.
    + change (75%N :: put_tuple t) with ([75%N] ++ put_tuple t). read_step 75%N. cbn [N.eqb Pos.eqb negb].
      apply (reads_map _ (λ t, MDelete rel (OldKey t))); eauto with wire.
  - destruct Hm as (Hi & Hl). cbn -[read_truncate be_bytes]. revert rest.
    change (reads read_truncate (be_bytes 4 (Z.of_nat (length ids)) ++ [0%N] ++ (ids ≫= be_bytes 4))
      (MTruncate ids)).
    unfold read_truncate.
    apply (reads_bind _ _ _ _ (Z.of_nat (length ids))); [apply reads_u32; unfold u32_ok; lia|].
    read_step 0%N. rewrite Nat2Z.id. apply reads_map, reads_many.
    eapply Forall_impl; [exact Hi|]. intros z. apply reads_u32.
Qed.

(** ** Reading past the end *)

(** A reader that succeeds does not look at what follows the bytes it was given. *)
Class Settled {A} (p : reader A) : Prop :=
  settled bs a rest x : p bs = Ok (a, rest) -> p (bs ++ x) = Ok (a, rest ++ x).

#[export] Instance settled_ret {A} (a : A) : Settled (mret a).
Proof. by intros bs a' rest x [= <- <-]. Qed.

#[export] Instance settled_fail {A} e : Settled (@fail_with A e).
Proof. by intros bs a rest x. Qed.

#[export] Instance settled_bind {A B} (p : reader A) (f : A -> reader B) :
  Settled p -> (forall a, Settled (f a)) -> Settled (p ≫= f).
Proof.
  intros Hp Hf bs b rest x. unfold mbind, reader_bind.
  destruct (p bs) as [[a r]|] eqn:E; [|done]. rewrite (settled _ _ _ x E). apply Hf.
Qed.

#[export] Instance settled_if {A} (b : bool) (p q : reader A) :
  Settled p -> Settled q -> Settled (if b then p else q).
Proof. by destruct b. Qed.

#[export] Instance settled_pair {A B C} (f : A -> B -> reader C) ab :
  (forall a b, Settled (f a b)) -> Settled (let '(a, b) := ab in f a b).
Proof. destruct ab. auto. Qed.

#[export] Instance settled_take n : Settled (read_take n).
Proof.
  intros bs a rest x. unfold read_take. destruct (Nat.ltb_spec (length bs) n) as [|Hn]; [done|].
  intros [= <- <-]. rewrite length_app, (proj2 (Nat.ltb_ge _ _)) by lia.
  by rewrite take_app_le, drop_app_le by lia.
Qed.

#[export] Instance settled_cstr : Settled read_cstr.
Proof.
  intros bs a rest x. unfold read_cstr. destruct (until_nul bs) as [[s r]|] eqn:E; [|done].
  intros [= <- <-].
  assert (until_nul (bs ++ x) = Some (s, r ++ x)) as ->; [|done].
  revert s r E. induction bs as [|b bs IH]; intros s r; simpl; [done|].
  destruct (b =? 0)%N; [by intros [= <- <-]|].
  destruct (until_nul bs) as [[s' r']|]; simpl; [|done]. intros [= <- <-].
  by rewrite (IH _ _ eq_refl).
Qed.

#[export] Instance settled_many {A} n (p : reader A) : Settled p -> Settled (read_many n p).
Proof. intros Hp. induction n as [|n IH]; simpl; apply _. Qed.

#[export] Instance settled_u8 : Settled read_u8. Proof. unfold read_u8; apply _. Qed.
#[export] Instance settled_i16 : Settled read_i16. Proof. unfold read_i16; apply _. Qed.
#[export] Instance settled_i32 : Settled read_i32. Proof. unfold read_i32; apply _. Qed.
#[export] Instance settled_u32 : Settled read_u32. Proof. unfold read_u32; apply _. Qed.
#[export] Instance settled_cell : Settled read_cell. Proof. unfold read_cell; apply _. Qed.
#[export] Instance settled_tuple : Settled read_tuple. Proof. unfold read_tuple; apply _. Qed.
#[export] Instance settled_column : Settled read_column. Proof. unfold read_column; apply _. Qed.

#[export] Instance settled_message : Settled read_message.
Proof.
  intros data m rest x. unfold read_message.
  destruct (read_u8 data) as [[tag r]|] eqn:E; [|done]. rewrite (settled _ _ _ x E).
  apply settled.
Qed.

(** C38: A message on the wire decodes to itself: what Postgres sends for a relation, an insert, an
    update, a delete or a truncate (negative type modifiers, NULL and unchanged cells and non-ASCII
    text included) is read back, whatever follows it in the frame. *)
Theorem decode_put_message (m : Message) (rest : bytes) :
  message_ok m -> decode (put_message m ++ rest) = Ok m.
Proof. intros Hm. unfold decode. by rewrite (reads_message m Hm). Qed.

(** A cut message is refused: every proper prefix of what Postgres sends decodes to an error,
    never to another message. *)
Theorem decode_truncated (m : Message) (pre cut : bytes) :
  message_ok m -> put_message m = pre ++ cut -> cut <> [] -> exists e, decode pre = Err e.
Proof.
  intros Hm Heq Hcut. unfold decode. destruct (read_message pre) as [[m' rest]|e] eqn:E; [|by exists e].
  exfalso. apply (settled (p := read_message) _ _ _ cut) in E. rewrite <- Heq in E.
  pose proof (reads_message m Hm []) as Hr. rewrite app_nil_r in Hr. rewrite Hr in E.
  injection E as _ Hn. symmetry in Hn. by apply app_eq_nil in Hn as [_ ->].
Qed.

(** A text below the surrogates. *)
Lemma low_text_ok s :
  Z.of_nat (length (utf8 s)) < 2 ^ 31 -> forallb (λ c, (c <? 55296)%N) s = true -> cell_ok (CText s).
Proof.
  intros Hl Hs. split; [|done]. apply Forall_forall. intros c Hin.
  rewrite forallb_forall in Hs. left. apply N.ltb_lt, Hs. by apply list_elem_of_In.
Qed.

(** An update that leaves a TOASTed column alone, with its full old image. *)
Definition sample_update : Message :=
  MUpdate 42 (Some (OldFull [CText $"1"; CNull; CText [99; 97; 102; 233]%N]))
    [CText $"1"; CText [9731]%N; CUnchangedToast].

Lemma sample_update_ok : message_ok sample_update.
Proof.
  split; [split; [discriminate|reflexivity]|]. split; (split; [|reflexivity]);
    repeat (apply Forall_cons; split); try apply Forall_nil; try exact I; by apply low_text_ok.
Qed.

Lemma decode_put_message_witness : decode (put_message sample_update) = Ok sample_update.
Proof. rewrite <- (app_nil_r (put_message sample_update)). apply decode_put_message, sample_update_ok. Defined.

Lemma decode_truncated_witness : exists e, decode (take 20 (put_message sample_update)) = Err e.
Proof.
  apply (decode_truncated sample_update _ (drop 20 (put_message sample_update)) sample_update_ok).
  - by rewrite take_drop.
  - vm_compute. discriminate.
Defined.
