(* ===== verification/Ingest.v ===== *)
(** * From the wire to envelopes ([replication.rs], the decoder)

    The stateful decoder of one replication connection: what it learns from relation messages, the
    drift and truncation it reports, and the envelopes it builds from row changes, with the two
    control tables (the drain counter and the fences).

    The shared schema view is an argument of every operation (the engine swaps it between them);
    what is reported to the engine is a result.  Logging is left out. *)

From S2P Require Import Prelude BTree Value TableRef Schema Predicate PredicateFacts Gate Output.
From S2P Require Import Executors Aggregates Refine ChangeLog Sequencer SequencerFacts Planning Counts.
From S2P Require Import RuntimeAuthority Txn Pages PagesFacts TxnBuffer TxnBufferFacts Pgoutput.
From stdpp Require Import base option numbers strings gmap fin_maps sorting list.
#[local] Open Scope Z_scope.

(* ------------------------------------------------------------------ *)
(** ** The sentinel tables *)

(** [TableRef::public(name).expect(..)] of a constant that is one. *)
Definition public_table (name : str) : TableRef :=
  match TableRef_public name with Ok t => t | Err _ => mkTableRef [] 0 end.
Definition sync_table : TableRef := public_table $"__el_sync".
Definition source_fence_table : TableRef := public_table $"circuits_source_fence".
Definition marker_table : TableRef := public_table $"native_sync_authority_fence".

(** What one decoded change amounts to. *)
Inductive Decoded :=
  | DecEnv (env : Envelope)
  | DecSync (n : Z)
  | DecNone.

Record RelMeta := MkRelMeta {
  rm_table : option TableRef;
  rm_columns : list str
}.

Definition observed_fingerprint (replident : N) (columns : list RelColumn) : SchemaFingerprint := {|
  fp_columns := (λ c, {| fc_name := rc_name c; fc_type_oid := rc_type_oid c;
                         fc_typmod := rc_typmod c |}) <$> columns;
  fp_replident := Z.of_N replident;
  fp_pk := None
|}.

(** [columns.iter().position(|c| c == name)], then the tuple's cell there. *)
Definition column_position (columns : list str) (name : str) : option nat :=
  fst <$> list_find (λ c, c = name) columns.
Definition named_cell (columns : list str) (tuple : Tuple) (name : str) : option Cell :=
  i ← column_position columns name; tuple !! i.
Definition cell_text (c : Cell) : option str := match c with CText t => Some t | _ => None end.

(** The tuple of an insert or an update. *)
Definition new_tuple (m : Message) : option Tuple :=
  match m with MInsert _ new | MUpdate _ _ new => Some new | _ => None end.

Definition sync_counter (rel : RelMeta) (tuple : Tuple) : option Z :=
  c ← named_cell (rm_columns rel) tuple $"n"; t ← cell_text c; parse_i64 t.

(* ------------------------------------------------------------------ *)
(** ** Rows *)

Section decoder.
Context {FT : FloatText} {SJ : SerdeJson} {U : Type} {UT : UuidText U}.

Definition text_to_json (text : str) (ty : ColumnType) : json :=
  match ty with
  | TyInt => match parse_i64 text with Some i => JNumber (NInt i) | None => JNull end
  | TyFloat => match f64_parse text with Some f => json_of_f64 f | None => JNull end
  | TyBool =>
      if bool_decide (text = $"t") || bool_decide (text = $"true") then JBool true
      else if bool_decide (text = $"f") || bool_decide (text = $"false") then JBool false
      else JNull
  | TyText => JString text
  end.

(** The body of the loop of [tuple_to_map]. *)
Definition put_cell_json (ts : TableSchema) (out : list (str * json)) (cn : Cell * str)
    : list (str * json) :=
  let '(cell, name) := cn in
  match (i ← ts_index ts !! name; column_type ts i) with
  | None => out
  | Some ty =>
      match cell with
      | CUnchangedToast => out
      | CNull => obj_insert name JNull out
      | CText text => obj_insert name (text_to_json text ty) out
      end
  end.
Definition tuple_to_map (tuple : Tuple) (columns : list str) (ts : TableSchema)
    : list (str * json) :=
  foldl (put_cell_json ts) [] (zip tuple columns).

(** [Display for Number]. *)
Definition number_to_string (n : number) : str :=
  match n with NInt z => Z_to_str z | NFloat _ => json_to_string (JNumber n) end.

(** The closure [one] of [key_from_obj]. *)
Definition key_component (obj : list (str * json)) (ts : TableSchema) (name : str) : str :=
  match obj_get name obj with
  | Some JNull | None => $"null"
  | Some (JString s) => s
  | Some (JNumber n) =>
      match as_f64 (JNumber n) with
      | Some f =>
          if bool_decide ((i ← ts_index ts !! name; column_type ts i) = Some TyFloat)
          then f64_display f else number_to_string n
      | None => number_to_string n
      end
  | Some (JBool b) => if b then $"true" else $"false"
  | Some v => json_to_string v
  end.

(** [key_from_obj] of an object; [columns[i]] panics out of range. *)
Definition key_from_obj (obj : list (str * json)) (ts : TableSchema) : str :=
  match ts_pk_cols ts with
  | [_] => key_component obj ts (ts_pk_name ts)
  | cols => join_key_components
              ((λ i, key_component obj ts (default [] (fst <$> ts_columns ts !! i))) <$> cols)
  end.

(** [new_map.entry(k).or_insert_with(..)] for every entry of the old image. *)
Definition fill_from_old (om new_map : list (str * json)) : list (str * json) :=
  foldl (λ m kv, match obj_get kv.1 m with Some _ => m | None => obj_insert kv.1 kv.2 m end)
        new_map om.

Definition make_envelope (table : TableRef) (ts : TableSchema) (operation : str)
    (value old : option json) (key_src : list (str * json)) : Envelope :=
  mkEnvelope (TableRef_as_str table) (key_from_obj key_src ts) value old
    (mkHeaders operation None None None None None).

Definition build_envelope (table : TableRef) (ts : TableSchema) (columns : list str) (msg : Message)
    : option Envelope :=
  match msg with
  | MInsert _ new =>
      let new := tuple_to_map new columns ts in
      Some (make_envelope table ts $"insert" (Some (JObject new)) None new)
  | MUpdate _ old new =>
      let old_map := match old with
                     | Some (OldFull t) => Some (tuple_to_map t columns ts)
                     | Some (OldKey _) | None => None
                     end in
      let new_map := tuple_to_map new columns ts in
      let new_map := match old_map with Some om => fill_from_old om new_map | None => new_map end in
      Some (make_envelope table ts $"update" (Some (JObject new_map)) (JObject <$> old_map) new_map)
  | MDelete _ (OldFull t) =>
      let old := tuple_to_map t columns ts in
      Some (make_envelope table ts $"delete" None (Some (JObject old)) old)
  | _ => None
  end.

(* ---------------------------------------------------------------- *)
(** ** Control tables *)

Definition runtime_fence_envelope (rel : RelMeta) (msg : Message) (incarnation : U) : option Envelope :=
  tuple ← new_tuple msg;
  let text name := c ← named_cell (rm_columns rel) tuple name; cell_text c in
  sc ← text $"source_commit_id";
  user ← text $"user_id";
  generation ← text $"generation";
  marker ← AuthorityMarker_parse sc user generation;
  Some (into_envelope (mkFence marker incarnation)).

Definition source_fence_envelope (rel : RelMeta) (msg : Message) : option Envelope :=
  tuple ← new_tuple msg;
  c ← named_cell (rm_columns rel) tuple $"source_commit_id";
  text ← cell_text c;
  parsed ← uuid_parse text;
  if bool_decide (uuid_to_string parsed = text) then
    Some (mkEnvelope SOURCE_FENCE_ENVELOPE (uuid_to_string parsed) None None
            (mkHeaders $"source_fence" None None None None None))
  else None.

(* ---------------------------------------------------------------- *)
(** ** The decoder *)

Record Decoder := MkDecoder {
  dc_incarnation : option U;
  dc_rels : gmap Z RelMeta
}.
Definition decoder_new : Decoder := MkDecoder None ∅.

(** [on_relation]: the decoder, and the drift reported to the engine. *)
Definition on_relation (tables : gmap TableRef TableSchema) (rel_id : Z) (namespace name : str)
    (replident : N) (columns : list RelColumn) (d : Decoder)
    : Decoder * option (TableRef * SchemaFingerprint) :=
  let table := res_ok (TableRef_new namespace name) in
  let observed := observed_fingerprint replident columns in
  let d := MkDecoder (dc_incarnation d)
             (<[rel_id := MkRelMeta table (column_names observed)]> (dc_rels d)) in
  (d, t ← table;
      ts ← tables !! t;
      compiled ← ts_fingerprint ts;
      if still_serves compiled observed then None else Some (t, observed)).

(** [on_truncate]: the tables reported, if any. *)
Definition on_truncate (tables : gmap TableRef TableSchema) (rel_ids : list Z) (d : Decoder)
    : list TableRef :=
  filter (λ t, t <> sync_table /\ t <> source_fence_table /\ t <> marker_table /\ is_Some (tables !! t))
    (omap (λ id, r ← dc_rels d !! id; rm_table r) rel_ids).

Definition change_rel (m : Message) : option Z :=
  match m with MInsert r _ | MUpdate r _ _ | MDelete r _ => Some r | _ => None end.

Definition on_change (tables : gmap TableRef TableSchema) (msg : Message) (d : Decoder) : Decoded :=
  let env_or_none o := match o with Some env => DecEnv env | None => DecNone end in
  match change_rel msg with
  | None => DecNone
  | Some rel_id =>
      match dc_rels d !! rel_id with
      | None => DecNone
      | Some rel =>
          match rm_table rel with
          | None => DecNone
          | Some table =>
              if bool_decide (table = sync_table) then
                match (new ← new_tuple msg; sync_counter rel new) with
                | Some n => DecSync n
                | None => DecNone
                end
              else if bool_decide (table = marker_table) then
                env_or_none (inc ← dc_incarnation d; runtime_fence_envelope rel msg inc)
              else if bool_decide (table = source_fence_table) then
                env_or_none (source_fence_envelope rel msg)
              else
                match tables !! table with
                | None => DecNone
                | Some ts => env_or_none (build_envelope table ts (rm_columns rel) msg)
                end
          end
      end
  end.

End decoder.
