(* ===== verification/IngestFacts.v ===== *)
(** * A row change on the wire becomes the envelope that describes it

    Postgres sends a row as the texts of its cells, in the relation's column order.  The envelope
    the decoder builds from an insert, an update or a delete with its full old image describes
    exactly that change of the table, the specification the fan-out's theorems start from. *)

From S2P Require Import Prelude BTree Value TableRef Schema Predicate PredicateFacts Gate Output.
From S2P Require Import Executors Aggregates Refine ChangeLog Sequencer SequencerFacts Planning Counts.
From S2P Require Import RuntimeAuthority Txn Pages PagesFacts TxnBuffer TxnBufferFacts Pgoutput Ingest.
From stdpp Require Import base option numbers strings gmap fin_maps sorting list.
#[local] Open Scope Z_scope.

(** A compiled schema: the name index is that of the columns, and the key columns exist. *)
Record schema_ok (ts : TableSchema) : Prop := {
  so_names : NoDup (ts_columns ts).*1;
  so_index : forall name i, ts_index ts !! name = Some i <-> fst <$> ts_columns ts !! i = Some name;
  so_pk_name : forall i, ts_pk_cols ts = [i] -> fst <$> ts_columns ts !! i = Some (ts_pk_name ts)
}.

Lemma columns_index_aux cols : forall (j : nat) (m : gmap str nat),
  NoDup cols.*1 -> (forall name i, m !! name = Some i -> name ∉ cols.*1) ->
  forall name i,
  foldl (λ m '(i, c), <[c := i]> m) m (imap (λ i (c : str * ColumnType), ((j + i)%nat, c.1)) cols)
    !! name = Some i <->
  (m !! name = Some i \/ exists k, i = (j + k)%nat /\ fst <$> cols !! k = Some name).
Proof.
  induction cols as [|c cols IH]; intros j m Hnd Hm name i; simpl.
  - split; [by left|]. intros [H|(k & _ & Hk)]; [done|]. by destruct k.
  - apply NoDup_cons in Hnd as [Hc Hnd].
    rewrite (imap_ext _ (λ i (c : str * ColumnType), ((S j + i)%nat, c.1)))
      by (intros k x _; simpl; f_equal; lia).
    rewrite IH; [|done|].
    + rewrite Nat.add_0_r. split.
      * intros [H|(k & -> & Hk)]; [|right; exists (S k); split; [lia|done]].
        destruct (decide (c.1 = name)) as [<-|Hne].
        -- rewrite lookup_insert_eq in H. injection H as <-. right. exists 0%nat. split; [lia|done].
        -- rewrite lookup_insert_ne in H by done. by left.
      * intros [H|([|k] & -> & Hk)].
        -- left. rewrite lookup_insert_ne; [done|]. intros <-. apply Hm in H.
           apply H. simpl. left.
        -- simpl in Hk. injection Hk as <-. left. rewrite lookup_insert_eq. f_equal; lia.
        -- right. exists k. split; [lia|done].
    + intros nm k Hk. destruct (decide (c.1 = nm)) as [<-|Hne]; [done|].
      rewrite lookup_insert_ne in Hk by done. apply Hm in Hk.
      intros Hin. apply Hk. simpl. by right.
Qed.

Lemma columns_index_spec cols name i :
  NoDup cols.*1 -> columns_index cols !! name = Some i <-> fst <$> cols !! i = Some name.
Proof.
  intros Hnd. unfold columns_index.
  rewrite (imap_ext _ (λ i (c : str * ColumnType), ((0 + i)%nat, c.1))) by done.
  rewrite columns_index_aux; [|done|by intros ?? H; rewrite lookup_empty in H].
  rewrite lookup_empty. split; [intros [?|(k & -> & ?)]; done|]. intros H. right. by exists i.
Qed.

(** What [TableSchema::from_def] compiles is such a schema. *)
Lemma from_def_ok table def ts :
  TableSchema_from_def table def = Ok ts -> NoDup (td_columns def).*1 -> schema_ok ts.
Proof.
  unfold TableSchema_from_def. intros H Hnd. case_bool_decide as Hpk; [done|].
  apply res_bind_ok in H as (pk & Hpk' & [= <-]).
  set (cols := (λ '(c, d), (c, cd_ty d)) <$> td_columns def) in *.
  assert (Hcols : NoDup cols.*1).
  { unfold cols. rewrite <- list_fmap_compose.
    rewrite (list_fmap_ext _ fst); [done|]. by intros i [c d]. }
  split; simpl; [done|intros; by apply columns_index_spec|].
  intros i ->. apply try_map_ok in Hpk'. destruct (td_primary_key def) as [|p [|q l]]; [done| |].
  - apply Forall2_cons_1 in Hpk' as [Hp _]. simpl.
    destruct (columns_index cols !! p) as [k|] eqn:E; [|done]. injection Hp as <-.
    by apply columns_index_spec in E.
  - exfalso. apply Forall2_length in Hpk'. done.
Qed.

Section facts.
Context {FT : FloatText} {FE : FaultEnv} {SJ : SerdeJson}.

(** The cell Postgres sends for a value of a column. *)
Definition cell_shows (c : Cell) (v : Value) (ty : ColumnType) : Prop :=
  match c with
  | CNull => v = VNull
  | CUnchangedToast => False
  | CText t =>
      match ty, v with
      | TyInt, VInt i => parse_i64 t = Some i
      | TyText, VText s => t = s
      | TyBool, VBool b => t = if b then $"t" else $"f"
      | TyFloat, VFloat f => f64_parse t = Some f /\ f64_is_finite f = true
      | _, _ => False
      end
  end.

(** A tuple that carries a row of the schema; relations may have more columns. *)
Definition tuple_shows (ts : TableSchema) (columns : list str) (tuple : Tuple) (row : Row) : Prop :=
  NoDup columns /\ length row = length (ts_columns ts) /\
  forall i name ty v, ts_columns ts !! i = Some (name, ty) -> row !! i = Some v ->
    exists j c, columns !! j = Some name /\ tuple !! j = Some c /\ cell_shows c v ty.

(** The tuple of an update: a cell may be left out when the value has not changed. *)
Definition tuple_updates (ts : TableSchema) (columns : list str) (tuple : Tuple) (old row : Row) : Prop :=
  NoDup columns /\ length row = length (ts_columns ts) /\
  forall i name ty v, ts_columns ts !! i = Some (name, ty) -> row !! i = Some v ->
    exists j c, columns !! j = Some name /\ tuple !! j = Some c /\
      (cell_shows c v ty \/ (c = CUnchangedToast /\ old !! i = Some v)).

(** The JSON of a shown cell. *)
Definition shown_json (v : Value) : json :=
  match v with
  | VNull => JNull
  | VInt i => JNumber (NInt i)
  | VFloat f => json_of_f64 f
  | VText s => JString s
  | VBool b => JBool b
  end.

Lemma text_to_json_shown t v ty :
  cell_shows (CText t) v ty -> text_to_json t ty = shown_json v.
Proof.
  simpl. destruct ty, v as [|i|s|b|f]; try done; simpl.
  - by intros ->.
  - by intros ->.
  - by intros ->; destruct b.
  - by intros [-> _].
Qed.

(** Such a cell reads back as the value. *)
Lemma from_shown_json c v ty :
  cell_shows c v ty -> from_json (shown_json v) ty = Ok v.
Proof.
  destruct c as [| |t]; simpl; [by intros ->|done|].
  destruct ty, v as [|i|s|b|f]; try done; simpl; intros H.
  - unfold from_json; simpl. unfold parse_i64, parse_int in H.
    apply bind_Some in H as (z & _ & Hz). destruct ((_ <=? _) && _) eqn:E; [|done].
    injection Hz as ->. unfold clamp. by rewrite E.
  - destruct H as [_ H]. unfold from_json, json_of_f64. by rewrite H.
Qed.

(** ** The map of a tuple *)

#[local] Arguments put_cell_json : simpl never.

Lemma put_cell_sorted ts out cn : bt_sorted str_cmp out -> bt_sorted str_cmp (put_cell_json ts out cn).
Proof.
  intros H. unfold put_cell_json. destruct cn as [c name].
  destruct (_ ≫= _); [|done]. destruct c; [|done|]; by apply bt_insert_sorted; [apply _|].
Qed.

Lemma tuple_map_sorted_aux ts l : forall out,
  bt_sorted str_cmp out -> bt_sorted str_cmp (foldl (put_cell_json ts) out l).
Proof. induction l as [|cn l IH]; simpl; auto using put_cell_sorted. Qed.

Lemma tuple_map_sorted ts tuple columns : bt_sorted str_cmp (tuple_to_map tuple columns ts).
Proof. apply tuple_map_sorted_aux. constructor. Qed.

(** What a cell puts under its column's name. *)
Definition cell_json (c : Cell) (ty : ColumnType) : option json :=
  match c with
  | CNull => Some JNull
  | CUnchangedToast => None
  | CText t => Some (text_to_json t ty)
  end.

Lemma put_cell_get ts out c name name' :
  bt_sorted str_cmp out ->
  obj_get name' (put_cell_json ts out (c, name)) =
  match (if decide (name' = name)
         then (i ← ts_index ts !! name; column_type ts i) ≫= cell_json c else None) with
  | Some j => Some j
  | None => obj_get name' out
  end.
Proof.
  intros Hs. unfold put_cell_json. destruct (i ← _; _) as [ty|]; simpl; [|by destruct (decide _)].
  assert (Hget : forall j, obj_get name' (obj_insert name j out) =
    if decide (name' = name) then Some j else obj_get name' out).
  { intros j. unfold obj_get, obj_insert. rewrite bt_lookup_insert by (done || apply _).
    destruct (decide (name' = name)) as [->|Hne]; [by rewrite str_cmp_refl|].
    destruct (str_cmp name' name) eqn:E; try done. by apply str_cmp_eq in E. }
  destruct c; simpl; [rewrite Hget; by destruct (decide _)|by destruct (decide _)|].
  rewrite Hget. by destruct (decide _).
Qed.

Lemma tuple_map_get_aux ts l : forall out name,
  bt_sorted str_cmp out -> name ∉ l.*2 ->
  obj_get name (foldl (put_cell_json ts) out l) = obj_get name out.
Proof.
  induction l as [|[c n] l IH]; intros out name Hs Hn; csimpl; [done|].
  apply not_elem_of_cons in Hn as [Hne Hn]. rewrite IH; [|by apply put_cell_sorted|done].
  rewrite put_cell_get by done. by rewrite decide_False.
Qed.

Lemma tuple_map_get ts l : forall out j c name i ty,
  bt_sorted str_cmp out -> NoDup l.*2 -> obj_get name out = None ->
  l !! j = Some (c, name) -> ts_index ts !! name = Some i -> column_type ts i = Some ty ->
  obj_get name (foldl (put_cell_json ts) out l) = cell_json c ty.
Proof.
  induction l as [|[c' n] l IH]; intros out j c name i ty Hs Hnd Hout Hj Hi Hty; [done|].
  apply NoDup_cons in Hnd as [Hn Hnd]. cbn [foldl]. destruct j as [|j].
  - injection Hj as -> ->. rewrite tuple_map_get_aux; [|by apply put_cell_sorted|done].
    rewrite put_cell_get by done. rewrite decide_True by done. rewrite Hi; simpl. rewrite Hty; simpl.
    destruct c; simpl; done.
  - apply (IH _ j c name i ty); try done; [by apply put_cell_sorted|].
    rewrite put_cell_get by done. rewrite decide_False; [done|].
    intros ->. apply Hn. apply list_elem_of_fmap. exists (c, n). split; [done|].
    by eapply list_elem_of_lookup_2.
Qed.

Lemma NoDup_zip_snd {A B} (l : list A) (k : list B) : NoDup k -> NoDup (zip l k).*2.
Proof.
  revert k; induction l as [|a l IH]; intros [|b k] Hk; simpl; try constructor.
  - apply NoDup_cons in Hk as [Hb _]. intros Hin. apply Hb.
    apply list_elem_of_fmap in Hin as ([a' b'] & -> & Hin). by apply elem_of_zip_r in Hin.
  - apply IH. by apply NoDup_cons in Hk as [_ ?].
Qed.

Lemma tuple_to_map_get ts tuple columns j name c i ty :
  schema_ok ts -> NoDup columns -> columns !! j = Some name -> tuple !! j = Some c ->
  ts_columns ts !! i = Some (name, ty) ->
  obj_get name (tuple_to_map tuple columns ts) = cell_json c ty.
Proof.
  intros Hok Hnd Hj Hc Hi. unfold tuple_to_map. eapply (tuple_map_get _ _ _ j _ _ i); try done.
  - constructor.
  - by apply NoDup_zip_snd.
  - by rewrite lookup_zip_with, Hc; simpl; rewrite Hj.
  - apply (so_index _ Hok). by rewrite Hi.
  - unfold column_type. by rewrite Hi.
Qed.

(** *** Rows read back from the maps *)

(** A map that holds the JSON of a row's shown cells. *)
Definition map_shows (ts : TableSchema) (m : list (str * json)) (row : Row) : Prop :=
  length row = length (ts_columns ts) /\
  forall i name ty v, ts_columns ts !! i = Some (name, ty) -> row !! i = Some v ->
    obj_get name m = Some (shown_json v) /\ from_json (shown_json v) ty = Ok v.

Lemma cell_json_shown c v ty : cell_shows c v ty -> cell_json c ty = Some (shown_json v).
Proof.
  destruct c as [| |t]; [by intros ->|done|]. intros H. simpl. f_equal. by apply text_to_json_shown.
Qed.

Lemma tuple_map_shows ts columns tuple row :
  schema_ok ts -> tuple_shows ts columns tuple row -> map_shows ts (tuple_to_map tuple columns ts) row.
Proof.
  intros Hok (Hnd & Hlen & H). split; [done|]. intros i name ty v Hi Hv.
  destruct (H i name ty v Hi Hv) as (j & c & Hj & Hc & Hs).
  rewrite (tuple_to_map_get _ _ _ j _ c i ty) by done.
  split; [by apply cell_json_shown|by eapply from_shown_json].
Qed.

Lemma map_shows_row ts m row :
  map_shows ts m row -> to_row ts (JObject m) = Ok row.
Proof.
  intros (Hlen & H). unfold to_row; simpl. unfold row_from_json.
  apply try_map_ok, Forall2_same_length_lookup_2; [done|].
  intros i [name ty] v Hi Hv. destruct (H i name ty v Hi Hv) as [-> Hr]. done.
Qed.

(** A key column's value can be spelled: integers, texts, booleans and finite doubles are. *)
Lemma key_component_shows ts m row i name v ty :
  schema_ok ts -> map_shows ts m row -> ts_columns ts !! i = Some (name, ty) -> row !! i = Some v ->
  (forall f, v = VFloat f -> f64_is_finite f = true) ->
  key_component m ts name = to_key_string v.
Proof.
  intros Hok [_ H] Hi Hv Hfin. destruct (H i name ty v Hi Hv) as [Hg Hr].
  assert (Hidx : ts_index ts !! name = Some i) by (apply (so_index _ Hok); by rewrite Hi).
  assert (Hty : column_type ts i = Some ty) by (unfold column_type; by rewrite Hi).
  unfold key_component. rewrite Hg. clear H Hg. destruct v as [|z|s|b|f]; simpl; try done.
  - rewrite Hidx; simpl. rewrite Hty. case_bool_decide as E; [|done].
    injection E as ->. unfold from_json in Hr; simpl in Hr. discriminate Hr.
  - simpl in Hr. unfold json_of_f64 in *. rewrite (Hfin f eq_refl) in *. simpl.
    rewrite Hidx; simpl. rewrite Hty. case_bool_decide as E; [done|].
    unfold from_json in Hr. destruct ty; simpl in Hr; try discriminate Hr. exfalso. by apply E.
Qed.

Definition finite_keys (ts : TableSchema) (row : Row) : Prop :=
  forall i f, i ∈ ts_pk_cols ts -> row !! i = Some (VFloat f) -> f64_is_finite f = true.

Lemma key_from_obj_shows ts m row k :
  schema_ok ts -> map_shows ts m row -> finite_keys ts row -> key_string ts row = Ok k ->
  key_from_obj m ts = k.
Proof.
  intros Hok Hm Hfin. unfold key_string, key_from_obj.
  assert (Hone : forall i v, i ∈ ts_pk_cols ts -> Row_get row i = Ok v ->
    exists name ty, ts_columns ts !! i = Some (name, ty) /\
                    key_component m ts name = to_key_string v).
  { intros i v Hin Hv%Row_get_ok.
    destruct (lookup_lt_is_Some_2 (ts_columns ts) i) as [[name ty] Hi].
    { rewrite <- (proj1 Hm). by eapply lookup_lt_Some. }
    exists name, ty. split; [done|]. eapply key_component_shows; try done.
    intros f ->. by eapply Hfin. }
  assert (Hmany : (parts ← try_map (λ i, v ← Row_get row i; Ok (to_key_string v)) (ts_pk_cols ts);
                   Ok (join_key_components parts)) = Ok k ->
    join_key_components
      ((λ i, key_component m ts (default [] (fst <$> ts_columns ts !! i))) <$> ts_pk_cols ts) = k).
  { intros (parts & Hp & [= <-])%res_bind_ok. f_equal. apply try_map_ok in Hp.
    clear -Hp Hone. induction Hp as [|i p l ps Hip Hp IH]; [done|]. csimpl. f_equal.
    - apply res_bind_ok in Hip as (v & Hv & [= <-]).
      destruct (Hone i v ltac:(left) Hv) as (name & ty & -> & <-). done.
    - apply IH. intros i' v Hin. apply Hone. by right. }
  destruct (ts_pk_cols ts) as [|i [|i2 l]] eqn:Epk; [exact Hmany| |exact Hmany].
  intros (v & Hv & [= <-])%res_bind_ok.
  destruct (Hone i v ltac:(left) Hv) as (name & ty & Hi & <-).
  pose proof (so_pk_name _ Hok i Epk) as Hname. rewrite Hi in Hname. by injection Hname as <-.
Qed.

(** *** Unchanged cells are filled from the old image *)

Lemma fill_from_old_get om : forall m name,
  bt_sorted str_cmp m -> NoDup om.*1 ->
  obj_get name (fill_from_old om m) =
  match obj_get name m with
  | Some j => Some j
  | None => (λ p, p.2.2) <$> list_find (λ kv, kv.1 = name) om
  end.
Proof.
  unfold fill_from_old. induction om as [|[k j] om IH]; intros m name Hs Hnd; simpl.
  - by destruct (obj_get name m).
  - apply NoDup_cons in Hnd as [Hk Hnd].
    assert (Hget : forall name', obj_get name' (obj_insert k j m) =
      if decide (name' = k) then Some j else obj_get name' m).
    { intros n. unfold obj_get, obj_insert. rewrite bt_lookup_insert by (done || apply _).
      destruct (decide (n = k)) as [->|Hne]; [by rewrite str_cmp_refl|].
      destruct (str_cmp n k) eqn:E; try done. by apply str_cmp_eq in E. }
    destruct (obj_get k m) as [j0|] eqn:Ek.
    + rewrite IH by done. destruct (obj_get name m) eqn:En; [done|].
      rewrite decide_False by congruence. simpl. by destruct (list_find _ om) as [[? ?]|].
    + rewrite IH by (done || by apply bt_insert_sorted; [apply _|]). rewrite Hget.
      destruct (decide (name = k)) as [->|Hne].
      * rewrite Ek, decide_True by done. done.
      * destruct (obj_get name m); [done|]. rewrite decide_False by congruence.
        by destruct (list_find _ om) as [[? ?]|].
Qed.

Lemma sorted_keys_nodup {V} (m : list (str * V)) : bt_sorted str_cmp m -> NoDup m.*1.
Proof.
  induction 1 as [|kv m Hs IH HF]; simpl; constructor; [|done].
  intros (kv' & Hk & Hin)%list_elem_of_fmap. rewrite Forall_forall in HF.
  apply HF in Hin. by rewrite Hk, str_cmp_refl in Hin.
Qed.

Lemma find_sorted {V} (m : list (str * V)) name :
  bt_sorted str_cmp m ->
  (λ p, p.2.2) <$> list_find (λ kv, kv.1 = name) m = bt_lookup str_cmp name m.
Proof.
  induction 1 as [|[k v] m Hs IH HF]; simpl; [done|].
  destruct (decide (k = name)) as [->|Hne].
  - simpl. by rewrite str_cmp_refl.
  - rewrite <- IH. destruct (str_cmp name k) eqn:E.
    + by apply str_cmp_eq in E as ->.
    + destruct (list_find _ m) as [[i [k' v']]|] eqn:F; simpl; [|done].
      apply list_find_Some in F as (Hl & Hk' & _). simpl in Hk'. subst k'.
      apply list_elem_of_lookup_2 in Hl. rewrite Forall_forall in HF. apply HF in Hl. simpl in Hl.
      rewrite str_cmp_antisym, E in Hl. done.
    + by destruct (list_find _ m) as [[? ?]|].
Qed.

Lemma filled_map_shows ts columns oldt newt old new :
  schema_ok ts -> map_shows ts (tuple_to_map oldt columns ts) old ->
  tuple_updates ts columns newt old new ->
  map_shows ts (fill_from_old (tuple_to_map oldt columns ts) (tuple_to_map newt columns ts)) new.
Proof.
  intros Hok [_ Hold] (Hnd & Hlen & H). split; [done|]. intros i name ty v Hi Hv.
  rewrite fill_from_old_get by auto using tuple_map_sorted, sorted_keys_nodup.
  rewrite find_sorted by apply tuple_map_sorted.
  destruct (H i name ty v Hi Hv) as (j & c & Hj & Hc & Hs).
  rewrite (tuple_to_map_get _ _ _ j _ c i ty) by done. destruct Hs as [Hs|[-> Hs]].
  - rewrite (cell_json_shown _ _ _ Hs). split; [done|]. by eapply from_shown_json.
  - simpl. by apply (Hold i name ty v).
Qed.

(** ** The change of the table a message tells *)

(** The change a message carries, with the event key of its row: what Postgres sends for the
    table's rows under [REPLICA IDENTITY FULL]. *)
Inductive wire_change (ts : TableSchema) (columns : list str) (T : gmap str Row)
    : Message -> str -> gmap str Row -> Prop :=
  | wc_insert rel newt new k :
      tuple_shows ts columns newt new -> finite_keys ts new ->
      key_string ts new = Ok k -> T !! k = None ->
      wire_change ts columns T (MInsert rel newt) k (<[k := new]> T)
  | wc_update rel oldt newt old new ko kn :
      tuple_shows ts columns oldt old -> tuple_updates ts columns newt old new ->
      rkey old = old -> rkey new = new -> finite_keys ts new ->
      key_string ts new = Ok kn -> T !! ko = Some old -> (kn = ko \/ T !! kn = None) ->
      wire_change ts columns T (MUpdate rel (Some (OldFull oldt)) newt) kn (<[kn := new]> (delete ko T))
  | wc_delete rel oldt old k :
      tuple_shows ts columns oldt old -> finite_keys ts old ->
      key_string ts old = Ok k -> T !! k = Some old ->
      wire_change ts columns T (MDelete rel (OldFull oldt)) k (delete k T).

Section change.
Context (table : TableRef) (ts : TableSchema) (Hok : schema_ok ts).

Lemma build_envelope_change columns T m k T' :
  wire_change ts columns T m k T' ->
  exists env, build_envelope table ts columns m = Some env /\ change ts env T T' /\
    unstamped env /\ e_key env = k /\ e_type env = TableRef_as_str table.
Proof.
  destruct 1 as [rel newt new k Hs Hf Hk HT|rel oldt newt old new ko kn Hso Hsn Hro Hrn Hf Hk HT Hkn
                |rel oldt old k Hs Hf Hk HT].
  - pose proof (tuple_map_shows _ _ _ _ Hok Hs) as Hm. eexists. split; [done|].
    split; [|split; [done|split; [by eapply key_from_obj_shows|done]]].
    by eapply (ch_insert ts _ T _ new); try done; apply map_shows_row.
  - pose proof (tuple_map_shows _ _ _ _ Hok Hso) as Hmo.
    pose proof (filled_map_shows _ _ _ _ _ _ Hok Hmo Hsn) as Hmn. eexists. split; [done|].
    split; [|split; [done|split; [by eapply key_from_obj_shows|done]]].
    by eapply (ch_update ts _ T _ _ old new ko kn); try done; apply map_shows_row.
  - pose proof (tuple_map_shows _ _ _ _ Hok Hs) as Hm. eexists. split; [done|].
    split; [|split; [done|split; [by eapply key_from_obj_shows|done]]].
    by eapply (ch_delete ts _ T _ old); try done; apply map_shows_row.
Qed.
End change.
End facts.

Section decode.
Context {FT : FloatText} {FE : FaultEnv} {SJ : SerdeJson} {U : Type} {UT : UuidText U}.

(** C7: A row change on the wire becomes the envelope that describes it: the bytes Postgres sends for
    an insert, an update (unchanged TOASTed cells left out) or a delete of a tracked table's row are
    decoded, and the decoder yields an unstamped envelope, keyed by the row's event key, that
    describes exactly that change of the table. *)
Theorem wire_change_envelope (tables : gmap TableRef TableSchema) (d : Decoder (U := U))
    (table : TableRef) (ts : TableSchema) (columns : list str) (T T' : gmap str Row) (m : Message)
    (rel : Z) (k : str) :
  tables !! table = Some ts -> schema_ok ts ->
  table ∉ [sync_table; source_fence_table; marker_table] ->
  change_rel m = Some rel -> dc_rels d !! rel = Some (MkRelMeta (Some table) columns) ->
  message_ok m -> wire_change ts columns T m k T' ->
  exists env, (Pgoutput.decode (put_message m) = Ok m /\ on_change tables m d = DecEnv env) /\
    change ts env T T' /\ unstamped env /\ e_key env = k /\ e_type env = TableRef_as_str table.
Proof.
  intros Ht Hok Hns Hrel Hd Hm Hwc.
  destruct (build_envelope_change table ts Hok _ _ _ _ _ Hwc) as (env & Hb & Hrest).
  exists env. split; [|done]. split.
  - unfold Pgoutput.decode. rewrite <- (app_nil_r (put_message m)). by rewrite (reads_message m Hm).
  - unfold on_change. rewrite Hrel, Hd; simpl. rewrite !not_elem_of_cons in Hns.
    rewrite !bool_decide_eq_false_2 by naive_solver. by rewrite Ht, Hb.
Qed.
End decode.
