(* ===== verification/Replicator.v ===== *)
(** * The replication stream ([replication.rs], [stream_loop])

    One replication connection as a state machine over the events the server sends: a transaction
    is buffered from [Begin], its changes decoded and pushed, and at [Commit] its chunks are
    appended in order, then acknowledged; the reconnect schedule.

    What is outside the loop is an input of each event ([Outside]): the engine's schema view at
    that moment, whether its authority is still the one this connection was admitted under, and the
    outcome of the file operations and of each append.  A graceful shutdown is the list of events
    ending.  The rotation of the log after a commit is the change log's. *)

From S2P Require Import Prelude BTree Value TableRef Schema Predicate PredicateFacts Gate Output.
From S2P Require Import Executors Aggregates Refine ChangeLog Sequencer SequencerFacts Planning Counts.
From S2P Require Import RuntimeAuthority Txn Pages PagesFacts TxnBuffer TxnBufferFacts Pgoutput Ingest.
From S2P Require Import IngestFacts.
From stdpp Require Import base option numbers strings gmap fin_maps sorting list.
#[local] Open Scope Z_scope.

(* ------------------------------------------------------------------ *)
(** ** The reconnect schedule

    Durations in nanoseconds. *)

Definition RECONNECT_MIN : Z := 1000000000.
Definition RECONNECT_MAX : Z := 30000000000.

Definition backoff_base (attempt : Z) : Z :=
  Z.min (RECONNECT_MIN * Z.shiftl 1 (Z.min attempt 16)) RECONNECT_MAX.

Definition jitter (base nanos : Z) : Z :=
  let spread := base / 1000000 / 2 in
  if spread =? 0 then base
  else Z.max 0 (base - spread / 2 * 1000000) + nanos mod spread * 1000000.

Definition next_backoff (attempt : Z) (connected : bool) : Z * Z :=
  let attempt := if connected then 0 else attempt in
  (backoff_base attempt, Z.min u32_max (attempt + 1)).

(** The reconnect schedule is bounded: every delay is between one and thirty seconds and never
    falls while attempts fail, and the jitter keeps it within a quarter of that. *)
Theorem backoff_bounded (attempt nanos : Z) (connected : bool) :
  0 <= attempt <= u32_max -> 0 <= nanos ->
  let '(delay, next) := next_backoff attempt connected in
  RECONNECT_MIN <= delay <= RECONNECT_MAX /\
  (connected = false -> delay <= (next_backoff next false).1) /\
  3 * delay <= 4 * jitter delay nanos < 5 * delay.
Proof.
  intros Ha Hn. unfold next_backoff.
  assert (Hb : forall a, 0 <= a -> RECONNECT_MIN <= backoff_base a <= RECONNECT_MAX /\
                         forall b, a <= b -> backoff_base a <= backoff_base b).
  { intros a H0. unfold backoff_base, RECONNECT_MIN, RECONNECT_MAX.
    rewrite Z.shiftl_1_l. pose proof (Z.pow_pos_nonneg 2 (Z.min a 16)). split; [lia|].
    intros b Hab. rewrite Z.shiftl_1_l.
    pose proof (Z.pow_le_mono_r 2 (Z.min a 16) (Z.min b 16)). lia. }
  set (a := if connected then 0 else attempt).
  assert (H0 : 0 <= a) by (unfold a; destruct connected; lia).
  destruct (Hb a H0) as [Hr Hm]. split; [done|]. split.
  - intros ->. simpl. apply Hm. unfold a, u32_max in *. lia.
  - unfold jitter, RECONNECT_MIN, RECONNECT_MAX in *. set (d := backoff_base a) in *.
    destruct (Z.eqb_spec (d / 1000000 / 2) 0) as [E|E].
    + exfalso. assert (1000 <= d / 1000000) by (apply Z.div_le_lower_bound; lia).
      assert (500 <= d / 1000000 / 2) by (apply Z.div_le_lower_bound; lia). lia.
    + pose proof (Z.mod_pos_bound nanos (d / 1000000 / 2)) as Hmod.
      assert (H1 : 1000 <= d / 1000000) by (apply Z.div_le_lower_bound; lia).
      assert (H2 : 500 <= d / 1000000 / 2) by (apply Z.div_le_lower_bound; lia).
      specialize (Hmod ltac:(lia)).
      pose proof (Z.mul_div_le d 1000000 ltac:(lia)). set (ms := d / 1000000) in *.
      pose proof (Z.mul_div_le ms 2 ltac:(lia)). set (sp := ms / 2) in *.
      pose proof (Z.mul_div_le sp 2 ltac:(lia)). pose proof (Z.mul_succ_div_gt sp 2 ltac:(lia)).
      set (q := sp / 2) in *. lia.
Qed.

(* ------------------------------------------------------------------ *)
(** ** The stream *)

(** [pgwire_replication::ReplicationEvent]; positions are numbers. *)
Inductive ReplicationEvent :=
  | EvBegin (xid : Z)
  | EvXLogData (data : Pgoutput.bytes)
  | EvCommit (lsn end_lsn : Z)
  | EvKeepAlive (wal_end : Z)
  | EvOther.

Definition keepalive_ack_lsn (transaction_open : bool) (wal_end : Z) : option Z :=
  if transaction_open then None else Some wal_end.

(** What an event meets outside the loop. *)
Record Outside := MkOutside {
  ou_tables : gmap TableRef TableSchema;
  ou_current : bool;                     (* the runtime ingress is still current *)
  ou_io : option str;                    (* file operations *)
  ou_append : nat -> option str          (* the n-th append of a commit *)
}.

Inductive StreamError :=
  | DecodeFailed (e : DecodeError)
  | BufferFailed (e : TxnError)
  | AppendFailed (e : str).

Definition is_open (txn : option TxnBuffer) : bool := bool_decide (is_Some txn).
Definition ingress_must_reconnect (ou : Outside) (txn : option TxnBuffer) : bool :=
  negb (is_open txn) && negb (ou_current ou).

Section stream.
Context {FT : FloatText} {SJ : SerdeJson} {U : Type} {UT : UuidText U}.
Context {MC : MemoryCost} {EJ : EnvelopeJson} {SE : SpillEnv}.

(** The locals of [stream_loop], and what it has done: the chunks on the log, the position
    acknowledged, the last commit, the sentinel, and what it reported to the engine. *)
Record Stream := MkStream {
  sr_dec : Decoder (U := U);
  sr_txn : option TxnBuffer;
  sr_log : list (list Envelope);
  sr_acked : option Z;
  sr_last_lsn : str;
  sr_sync_seq : Z;
  sr_drifts : list (TableRef * SchemaFingerprint);
  sr_truncates : list TableRef
}.

Definition with_txn (txn : option TxnBuffer) (s : Stream) : Stream :=
  MkStream (sr_dec s) txn (sr_log s) (sr_acked s) (sr_last_lsn s) (sr_sync_seq s) (sr_drifts s)
    (sr_truncates s).
Definition with_log (log : list (list Envelope)) (s : Stream) : Stream :=
  MkStream (sr_dec s) (sr_txn s) log (sr_acked s) (sr_last_lsn s) (sr_sync_seq s) (sr_drifts s)
    (sr_truncates s).
Definition acknowledge (lsn : Z) (s : Stream) : Stream :=
  MkStream (sr_dec s) (sr_txn s) (sr_log s) (Some lsn) (sr_last_lsn s) (sr_sync_seq s) (sr_drifts s)
    (sr_truncates s).

(** The loop of [append_commit_chunked]: what is on the log, and how it ended. *)
Fixpoint append_chunks (fuel : nat) (append : nat -> option str) (n : nat) (d : TxnDrain)
    (log : list (list Envelope)) : option (list (list Envelope) * option StreamError) :=
  match fuel with
  | O => None
  | S fuel' =>
      r ← next_chunk d;
      match r with
      | Err e => Some (log, Some (BufferFailed e))
      | Ok (None, _) => Some (log, None)
      | Ok (Some chunk, d) =>
          match append n with
          | Some e => Some (log, Some (AppendFailed e))
          | None => append_chunks fuel' append (S n) d (log ++ [chunk])
          end
      end
  end.

(** The [XLogData] arm, on a row change (and on what is ignored). *)
Definition on_dml (ou : Outside) (raw_len : Z) (msg : Message) (s : Stream) : res StreamError Stream :=
  match sr_txn s with
  | None => Ok s
  | Some t =>
      match on_change (ou_tables ou) msg (sr_dec s) with
      | DecEnv env =>
          match push (ou_io ou) env raw_len t with
          | Ok t => Ok (with_txn (Some t) s)
          | Err e => Err (BufferFailed e)
          end
      | DecSync n => Ok (with_txn (Some (set_sync n t)) s)
      | DecNone => Ok s
      end
  end.

(** The [XLogData] arm. *)
Definition on_data (ou : Outside) (data : Pgoutput.bytes) (s : Stream) : res StreamError Stream :=
  match Pgoutput.decode data with
  | Err e => Err (DecodeFailed e)
  | Ok (MRelation rel ns name ident cols) =>
      let '(dec, drift) := on_relation (ou_tables ou) rel ns name ident cols (sr_dec s) in
      Ok (MkStream dec (sr_txn s) (sr_log s) (sr_acked s) (sr_last_lsn s) (sr_sync_seq s)
            (sr_drifts s ++ option_list drift) (sr_truncates s))
  | Ok (MTruncate ids) =>
      Ok (MkStream (sr_dec s) (sr_txn s) (sr_log s) (sr_acked s) (sr_last_lsn s) (sr_sync_seq s)
            (sr_drifts s) (sr_truncates s ++ on_truncate (ou_tables ou) ids (sr_dec s)))
  | Ok msg => on_dml ou (Z.of_nat (length data)) msg s
  end.

(** The [Commit] arm: the state left behind, and the failure if there is one. *)
Definition on_commit (ou : Outside) (lsn end_lsn : Z) (s : Stream) : Stream * option StreamError :=
  match sr_txn s with
  | None => (s, None)
  | Some t =>
      let s := with_txn None s in
      match drain (ou_io ou) (commit_stamp (tb_xid t) lsn) t with
      | Err e => (s, Some (BufferFailed e))
      | Ok d =>
          match append_chunks (drain_fuel d) (ou_append ou) 0 d (sr_log s) with
          | None => (s, None)
          | Some (log, Some e) => (with_log log s, Some e)
          | Some (log, None) =>
              let sync := match tb_sync t with Some n => Z.max (sr_sync_seq s) n | None => sr_sync_seq s end in
              (MkStream (sr_dec s) None log (Some end_lsn) (lsn_text lsn) sync (sr_drifts s)
                 (sr_truncates s), None)
          end
      end
  end.

(** One turn of the loop: the state after the event, or why the connection ends. *)
Inductive Turn :=
  | Next (s : Stream)
  | Ended (s : Stream)
  | Failed (s : Stream) (e : StreamError).

Definition turn (ou : Outside) (ev : ReplicationEvent) (txn_cfg : TxnBufferConfig) (s : Stream) : Turn :=
  if ingress_must_reconnect ou (sr_txn s) then Ended s
  else
    match ev with
    | EvBegin xid => Next (with_txn (Some (new xid txn_cfg)) s)
    | EvXLogData data =>
        match on_data ou data s with Ok s => Next s | Err e => Failed s e end
    | EvCommit lsn end_lsn =>
        match on_commit ou lsn end_lsn s with
        | (s, None) => Next s
        | (s, Some e) => Failed s e
        end
    | EvKeepAlive wal_end =>
        match keepalive_ack_lsn (is_open (sr_txn s)) wal_end with
        | Some lsn => Next (acknowledge lsn s)
        | None => Next s
        end
    | EvOther => Next s
    end.

Fixpoint stream (txn_cfg : TxnBufferConfig) (evs : list (Outside * ReplicationEvent)) (s : Stream) : Turn :=
  match evs with
  | [] => Ended s
  | (ou, ev) :: evs' =>
      match turn ou ev txn_cfg s with
      | Next s => stream txn_cfg evs' s
      | t => t
      end
  end.

(** A new connection. *)
Definition connect (incarnation : U) (last_lsn : str) (sync_seq : Z) : Stream :=
  MkStream (MkDecoder (Some incarnation) ∅) None [] None last_lsn sync_seq [] [].

End stream.

(* ================================================================== *)
(** * Facts *)

Lemma backoff_bounded_witness :
  let '(delay, next) := next_backoff 3 false in
  RECONNECT_MIN <= delay <= RECONNECT_MAX /\
  (false = false -> delay <= (next_backoff next false).1) /\
  3 * delay <= 4 * jitter delay 123456789 < 5 * delay.
Proof. apply (backoff_bounded 3 123456789 false); unfold u32_max; lia. Defined.

(** A transaction: its xid, its commit position and the envelopes of its changes. *)
Abbreviation Transaction := (Z * Z * list Envelope)%type.

Section facts.
Context {FT : FloatText} {SJ : SerdeJson} {U : Type} {UT : UuidText U}.
Context {MC : MemoryCost} {EJ : EnvelopeJson} {SE : SpillEnv}.
Implicit Types (s : Stream (U := U)) (dec : Decoder (U := U)).

(** ** Appending *)

(** The appends of a drained commit: all its chunks, or the first few when one fails. *)
Lemma append_chunks_spec fuel append : forall n d log cs,
  chunks_loop fuel d = Some (Ok cs) ->
  exists part e, append_chunks fuel append n d log = Some (log ++ part, e) /\
    part `prefix_of` cs /\ (e = None -> part = cs).
Proof.
  induction fuel as [|fuel IH]; intros n d log cs H; [done|]. cbn [chunks_loop append_chunks] in *.
  destruct (next_chunk d) as [r|]; [|done]. cbn [mbind option_bind] in *.
  destruct r as [[[c|] d']|e]; [| |done].
  - destruct (chunks_loop fuel d') as [[cs'|e]|] eqn:E; try done.
    cbn in H. injection H as <-.
    destruct (append n) as [e|].
    + exists [], (Some (AppendFailed e)). rewrite app_nil_r. split_and!; [done|apply prefix_nil|done].
    + destruct (IH (S n) d' (log ++ [c]) cs' E) as (part & e & -> & Hp & He).
      exists (c :: part), e. rewrite <- (assoc_L (++)). split_and!; [done|by apply prefix_cons|].
      intros ->. by rewrite He.
  - injection H as <-. exists [], None. by rewrite app_nil_r.
Qed.

(** Every envelope the decoder builds is unstamped: only the drain stamps. *)
Lemma on_change_unstamped tables msg dec env :
  on_change tables msg dec = DecEnv env -> unstamped env.
Proof.
  unfold on_change. destruct (change_rel msg); [|done]. destruct (dc_rels dec !! _) as [rel|]; [|done].
  destruct (rm_table rel) as [table|]; [|done].
  case_bool_decide; [by case_match|]. case_bool_decide.
  { destruct (dc_incarnation dec) as [inc|]; [|done]. simpl.
    destruct (runtime_fence_envelope rel msg inc) as [env'|] eqn:E; [|done]. intros [= <-].
    unfold runtime_fence_envelope in E.
    repeat (apply bind_Some in E as (? & _ & E)). by injection E as <-. }
  case_bool_decide.
  { destruct (source_fence_envelope rel msg) as [env'|] eqn:E; [|done]. intros [= <-].
    unfold source_fence_envelope in E.
    repeat (apply bind_Some in E as (? & _ & E)). case_bool_decide; [|done]. by injection E as <-. }
  destruct (tables !! table) as [ts|]; [|done].
  destruct (build_envelope table ts (rm_columns rel) msg) as [env'|] eqn:E; [|done]. intros [= <-].
  unfold build_envelope in E. destruct msg as [| | |? [t|t]| |]; try done; by injection E as <-.
Qed.

(** ** What the stream carries *)

(** The open transaction after a message. *)
Definition after_message (tables : gmap TableRef TableSchema) (msg : Message) dec
    (cur : option (Z * list Envelope)) : option (Z * list Envelope) :=
  match cur, on_change tables msg dec with
  | Some (xid, es), DecEnv env => Some (xid, es ++ [env])
  | _, _ => cur
  end.

Definition after_relation (tables : gmap TableRef TableSchema) (msg : Message) dec : Decoder :=
  match msg with
  | MRelation rel ns name ident cols => (on_relation tables rel ns name ident cols dec).1
  | _ => dec
  end.

Fixpoint transactions (evs : list (Outside * ReplicationEvent)) dec (cur : option (Z * list Envelope))
    : list Transaction :=
  match evs with
  | [] => []
  | (ou, ev) :: evs' =>
      match ev with
      | EvBegin xid => transactions evs' dec (Some (xid, []))
      | EvXLogData data =>
          match Pgoutput.decode data with
          | Err _ => []
          | Ok msg =>
              transactions evs' (after_relation (ou_tables ou) msg dec)
                (after_message (ou_tables ou) msg dec cur)
          end
      | EvCommit lsn _ =>
          match cur with
          | Some (xid, es) => (xid, lsn, es) :: transactions evs' dec None
          | None => transactions evs' dec None
          end
      | _ => transactions evs' dec cur
      end
  end.

(** A transaction as it is on the log. *)
Definition on_log (t : Transaction) : list Envelope :=
  mark_chunk (stamped (commit_stamp t.1.1 t.1.2) 0 t.2).*1.

(** The buffer of the open transaction holds its changes. *)
Definition holds (txn_cfg : TxnBufferConfig) (txn : option TxnBuffer) (cur : option (Z * list Envelope)) : Prop :=
  match txn, cur with
  | None, None => True
  | Some b, Some (xid, es) => buf_rep b es /\ tb_cfg b = txn_cfg /\ tb_xid b = xid
  | _, _ => False
  end.

Definition turn_state (t : Turn (U := U)) : Stream :=
  match t with Next s | Ended s | Failed s _ => s end.
Definition turn_failed (t : Turn (U := U)) : Prop := match t with Failed _ _ => True | _ => False end.

Lemma set_sync_rep n b es : buf_rep b es -> buf_rep (set_sync n b) es.
Proof. by intros []. Qed.

Section run.
Context (txn_cfg : TxnBufferConfig).
(** Sizes are [u64]. *)
Context (Hcost : forall e, 0 <= envelope_memory_bytes e).

Lemma on_dml_holds ou raw msg s s' cur :
  holds txn_cfg (sr_txn s) cur -> on_dml ou raw msg s = Ok s' ->
  holds txn_cfg (sr_txn s') (after_message (ou_tables ou) msg (sr_dec s) cur) /\
  sr_dec s' = sr_dec s /\ sr_log s' = sr_log s /\ sr_acked s' = sr_acked s.
Proof.
  unfold on_dml, after_message, holds.
  destruct (sr_txn s) as [b|] eqn:Hb, cur as [[xid es]|]; try done;
    [|by intros _ [= <-]; rewrite Hb].
  intros (Hrep & Hc & Hx). destruct (on_change _ _ _) as [env|n|] eqn:Hch.
  - destruct (push (ou_io ou) env raw b) as [b'|e] eqn:Hp; [|done]. intros [= <-]; simpl.
    destruct (push_rep _ _ _ _ _ _ (Hcost env) Hrep Hp) as (H1 & -> & ->). done.
  - intros [= <-]; simpl. split; [|done]. split; [by apply set_sync_rep|done].
  - intros [= <-]. by rewrite Hb.
Qed.

Lemma on_data_holds ou data s s' cur :
  holds txn_cfg (sr_txn s) cur -> on_data ou data s = Ok s' ->
  exists msg, Pgoutput.decode data = Ok msg /\
    holds txn_cfg (sr_txn s') (after_message (ou_tables ou) msg (sr_dec s) cur) /\
    sr_dec s' = after_relation (ou_tables ou) msg (sr_dec s) /\
    sr_log s' = sr_log s /\ sr_acked s' = sr_acked s.
Proof.
  intros Hh. unfold on_data. destruct (Pgoutput.decode data) as [m|e]; [|done].
  intros H. exists m. split; [done|].
  assert (Hsame : change_rel m = None -> after_message (ou_tables ou) m (sr_dec s) cur = cur).
  { intros Hr. unfold after_message, on_change. rewrite Hr. by destruct cur as [[??]|]. }
  destruct m as [rel ns name ident cols|rel new|rel old new|rel old|ids|];
    try (apply (on_dml_holds _ _ _ _ _ cur) in H; [exact H|exact Hh]).
  - rewrite Hsame by done. cbn [after_relation].
    destruct (on_relation _ _ _ _ _ _ _) as [dec' drift]. by injection H as <-.
  - rewrite Hsame by done. by injection H as <-.
Qed.

Lemma on_commit_holds ou lsn end_lsn s s' r xid es :
  holds txn_cfg (sr_txn s) (Some (xid, es)) -> Forall json_stable es ->
  on_commit ou lsn end_lsn s = (s', r) ->
  sr_txn s' = None /\ sr_dec s' = sr_dec s /\
  exists part, sr_log s' = sr_log s ++ part /\
    match r with
    | None => concat part = on_log (xid, lsn, es) /\ Forall (λ c, c <> []) part /\
              sr_acked s' = Some end_lsn
    | Some _ => concat part `prefix_of` on_log (xid, lsn, es) /\ sr_acked s' = sr_acked s
    end.
Proof.
  unfold holds, on_commit. destruct (sr_txn s) as [b|]; [|done]. intros (Hrep & Hc & Hx) Hst.
  destruct (drain (ou_io ou) (commit_stamp (tb_xid b) lsn) b) as [d|e] eqn:Hd.
  2: { intros [= <- <-]; simpl. split_and!; [done..|]. exists []. rewrite app_nil_r.
       split_and!; [done|apply prefix_nil|done]. }
  destruct (chunks_of_buffer _ _ _ _ _ Hrep Hd (λ _, Hst)) as (cs & Hcs & Hp).
  apply packed_concat in Hp as [Hcat Hne]. rewrite Hx in Hcat.
  change (concat cs = on_log (xid, lsn, es)) in Hcat. unfold drain_chunks in Hcs.
  destruct (append_chunks_spec _ (ou_append ou) 0 d (sr_log s) cs Hcs) as (part & e & Happ & Hpre & He).
  cbn [with_txn sr_log]. rewrite Happ. destruct e as [e|]; intros [= <- <-]; simpl.
  - split_and!; [done..|]. exists part. split_and!; [done| |done]. rewrite <- Hcat.
    destruct Hpre as [rest ->]. rewrite concat_app. by exists (concat rest).
  - rewrite (He eq_refl). split_and!; [done..|]. exists cs. by split_and!.
Qed.

(** Every transaction the events carry survives the spill file. *)
Definition stable_stream (evs : list (Outside * ReplicationEvent)) dec cur : Prop :=
  Forall (λ t : Transaction, Forall json_stable t.2) (transactions evs dec cur).

(** From the log [log0], a connection that ends as [t] has delivered whole transactions of [txns] in
    order, and a part of the next one only if it failed; all of them if it was never cut off. *)
Definition delivered (log0 : list (list Envelope)) (txns : list Transaction) (whole : Prop)
    (t : Turn (U := U)) : Prop :=
  exists n css part,
    sr_log (turn_state t) = log0 ++ css ++ part /\
    concat css = concat (on_log <$> take n txns) /\
    match t with
    | Failed _ _ => concat part `prefix_of` default [] (on_log <$> txns !! n)
    | _ => part = [] /\ (whole -> (length txns <= n)%nat)
    end.

Lemma delivered_nothing s txns (whole : Prop) :
  (whole -> txns = []) -> delivered (sr_log s) txns whole (Ended s).
Proof.
  intros H. exists 0%nat, [], []. simpl. rewrite !app_nil_r. split_and!; [done..|].
  intros Hw. by rewrite (H Hw).
Qed.

Lemma delivered_step log0 p ts txns (whole whole' : Prop) t :
  concat p = concat (on_log <$> ts) -> (whole -> whole') ->
  delivered (log0 ++ p) txns whole' t -> delivered log0 (ts ++ txns) whole t.
Proof.
  intros Hp Hw (n & css & part & Hlog & Hcat & Ht).
  exists (length ts + n)%nat, (p ++ css), part. rewrite Hlog, <- !(assoc_L (++)).
  split; [done|]. split.
  - rewrite take_app_add', fmap_app, !concat_app, Hp, Hcat by done. done.
  - destruct t.
    + destruct Ht as [? Ht]. split; [done|]. rewrite length_app. intros Hx%Hw%Ht. lia.
    + destruct Ht as [? Ht]. split; [done|]. rewrite length_app. intros Hx%Hw%Ht. lia.
    + by rewrite lookup_app_r, Nat.add_sub_swap, Nat.sub_diag by lia.
Qed.

Lemma delivered_same s1 s txns (whole whole' : Prop) t :
  sr_log s1 = sr_log s -> (whole -> whole') ->
  delivered (sr_log s1) txns whole' t -> delivered (sr_log s) txns whole t.
Proof.
  intros Hl Hw H. apply (delivered_step _ [] [] _ _ whole'); [done..|]. by rewrite app_nil_r, <- Hl.
Qed.

Lemma stream_delivers evs : forall s cur,
  holds txn_cfg (sr_txn s) cur -> stable_stream evs (sr_dec s) cur ->
  delivered (sr_log s) (transactions evs (sr_dec s) cur)
    (Forall (λ oe, ou_current oe.1 = true) evs) (stream txn_cfg evs s).
Proof.
  induction evs as [|[ou ev] evs IH]; intros s cur Hh Hst; [by apply delivered_nothing|].
  cbn [stream]. unfold turn. destruct (ingress_must_reconnect ou (sr_txn s)) eqn:Hing.
  { apply delivered_nothing. intros [Hcur _]%Forall_cons. unfold ingress_must_reconnect in Hing.
    simpl in Hcur. by rewrite Hcur, andb_false_r in Hing. }
  assert (Hw : Forall (λ oe : Outside * ReplicationEvent, ou_current oe.1 = true) ((ou, ev) :: evs) ->
               Forall (λ oe, ou_current oe.1 = true) evs) by by intros [_ ?]%Forall_cons.
  unfold stable_stream in Hst. destruct ev as [xid|data|lsn end_lsn|wal_end|]; cbn [transactions] in *.
  - eapply delivered_same, (IH (with_txn (Some (new xid txn_cfg)) s)); [done|exact Hw| |exact Hst].
    simpl. split; [apply new_rep|done].
  - destruct (on_data ou data s) as [s'|e] eqn:E.
    + destruct (on_data_holds _ _ _ _ _ Hh E) as (msg & Hdec & Hh' & Hd & Hl & _).
      rewrite Hdec in *. rewrite <- Hd in *. eapply delivered_same, IH; [done|exact Hw|done|exact Hst].
    + exists 0%nat, [], []. simpl. rewrite !app_nil_r. split_and!; [done..|]. apply prefix_nil.
  - destruct cur as [[xid es]|].
    + apply Forall_cons in Hst as [Hes Hst].
      destruct (on_commit ou lsn end_lsn s) as [s' r] eqn:E.
      destruct (on_commit_holds _ _ _ _ _ _ _ _ Hh Hes E) as (Ht & Hd & part & Hl & Hr).
      destruct r as [e|].
      * exists 0%nat, [], part. simpl. split_and!; [done..|]. by destruct Hr.
      * destruct Hr as (Hcat & _). rewrite <- Hd in *.
        apply (delivered_step _ part [(xid, lsn, es)] _ _ _ _
                 ltac:(simpl; by rewrite app_nil_r) Hw).
        rewrite <- Hl. apply IH; [by rewrite Ht|done].
    + unfold holds in Hh. unfold on_commit. destruct (sr_txn s) eqn:Ht; [done|].
      eapply delivered_same, IH; [done|exact Hw|by rewrite Ht|exact Hst].
  - destruct (keepalive_ack_lsn _ _) as [lsn|].
    + exact (delivered_same (acknowledge lsn s) s _ _ _ _ eq_refl Hw
               (IH (acknowledge lsn s) cur Hh Hst)).
    + eapply delivered_same, IH; [done|exact Hw|done|exact Hst].
  - eapply delivered_same, IH; [done|exact Hw|done|exact Hst].
Qed.

(** C8: A position is acknowledged to Postgres only when nothing before it can be lost: at a commit
    whose chunks are all on the log, put together exactly its transaction, or at a keepalive while
    no transaction is open; whatever fails acknowledges nothing. *)
Theorem acknowledged_is_appended (ou : Outside) (ev : ReplicationEvent) (s : Stream)
    (cur : option (Z * list Envelope)) (t : Turn (U := U)) :
  holds txn_cfg (sr_txn s) cur ->
  match cur with Some (_, es) => Forall json_stable es | None => True end ->
  turn ou ev txn_cfg s = t -> sr_acked (turn_state t) <> sr_acked s ->
  exists s', t = Next s' /\
    ((exists lsn end_lsn xid es part, ev = EvCommit lsn end_lsn /\ cur = Some (xid, es) /\
        sr_acked s' = Some end_lsn /\ sr_log s' = sr_log s ++ part /\
        concat part = on_log (xid, lsn, es)) \/
     (exists wal_end, ev = EvKeepAlive wal_end /\ cur = None /\ sr_acked s' = Some wal_end /\
        sr_log s' = sr_log s)).
Proof.
  intros Hh Hst <-. unfold turn. destruct (ingress_must_reconnect ou (sr_txn s)); [done|].
  destruct ev as [xid|data|lsn end_lsn|wal_end|]; [done| | | |done].
  - destruct (on_data ou data s) as [s'|e] eqn:E; [|done].
    destruct (on_data_holds _ _ _ _ _ Hh E) as (? & _ & _ & _ & _ & Ha).
    intros Hne. by destruct Hne.
  - destruct (on_commit ou lsn end_lsn s) as [s' r] eqn:E. destruct cur as [[xid es]|].
    + destruct (on_commit_holds _ _ _ _ _ _ _ _ Hh Hst E) as (_ & _ & part & Hl & Hr).
      destruct r as [e|]; [intros Hne; by destruct Hne, Hr|]. intros _. exists s'. split; [done|].
      left. destruct Hr as (? & ? & ?). by exists lsn, end_lsn, xid, es, part.
    + unfold holds in Hh. unfold on_commit in E. destruct (sr_txn s); [done|].
      by injection E as <- <-.
  - unfold keepalive_ack_lsn, is_open. case_bool_decide as Ho; simpl; [done|]. intros _.
    exists (acknowledge wal_end s). split; [done|]. right. exists wal_end.
    split_and!; try done. unfold holds in Hh. destruct (sr_txn s); [by destruct Ho; eauto|].
    by destruct cur.
Qed.
End run.
End facts.
