(* ===== verification/EndToEnd.v ===== *)
(** * From the replication stream to the sequencer

    The composition of the ingestor and the sequencer over the change log: what a replication
    connection appends is a log of well-formed transactions, and the sequencer, however it reads
    that log, runs exactly the transactions Postgres sent, each whole and in commit order. *)

From S2P Require Import Prelude BTree Value TableRef Schema Predicate PredicateFacts Gate Output.
From S2P Require Import Executors Aggregates Refine ChangeLog Sequencer SequencerFacts Planning Counts.
From S2P Require Import RuntimeAuthority Txn Pages PagesFacts TxnBuffer TxnBufferFacts Pgoutput Ingest.
From S2P Require Import IngestFacts Replicator.
From stdpp Require Import base option numbers strings gmap fin_maps sorting list.
#[local] Open Scope Z_scope.

Section compose.
Context {FT : FloatText} {FE : FaultEnv} {SJ : SerdeJson} {MC : MemoryCost} {EJ : EnvelopeJson}.
Context {SE : SpillEnv} {R W : Type} {SR : SubqRegistry R W} {D : Type} {CP : CountPipelines D}.
Context {U : Type} {UT : UuidText U} {S : Type} {DS : DurableStore S}.

Definition txn_key (t : Transaction) : RunKey := commit_key (commit_stamp t.1.1 t.1.2).

(** The transactions that changed a tracked table. *)
Definition nonempty (txns : list Transaction) : list Transaction := filter (λ t, t.2 <> []) txns.

Lemma transactions_unstamped evs : forall (dec : Decoder (U := U)) cur,
  (forall xid es, cur = Some (xid, es) -> Forall unstamped es) ->
  Forall (λ t : Transaction, Forall unstamped t.2) (transactions evs dec cur).
Proof.
  induction evs as [|[ou ev] evs IH]; intros dec cur Hcur; [done|]. cbn [transactions].
  destruct ev as [xid|data|lsn end_lsn|wal_end|]; [| | |by apply IH|by apply IH].
  - apply IH. by intros ?? [= <- <-].
  - destruct (Pgoutput.decode data) as [msg|]; [|done]. apply IH. intros xid es.
    unfold after_message. destruct cur as [[x es0]|]; [|done].
    destruct (on_change _ _ _) as [env|n|] eqn:E; [|by intros [= <- <-]; eapply Hcur..].
    intros [= <- <-]. apply Forall_app; split; [by eapply Hcur|].
    apply Forall_singleton. by eapply on_change_unstamped.
  - destruct cur as [[xid es]|]; [|by apply IH]. constructor; [by eapply Hcur|]. by apply IH.
Qed.

Lemma on_log_ok (txns : list Transaction) : forall prev,
  Forall (λ t : Transaction, t.2 <> [] /\ Forall unstamped t.2) txns -> NoDup (txn_key <$> txns) ->
  (forall k, prev = Some k -> k ∉ (txn_key <$> txns)) ->
  log_ok prev (on_log <$> txns).
Proof.
  induction txns as [|t txns IH]; intros prev HF Hnd Hprev; [done|]. csimpl.
  apply Forall_cons in HF as [[Hne Hun] HF]. apply NoDup_cons in Hnd as [Hk Hnd].
  exists (txn_key t). split_and!.
  - unfold on_log, txn_key. apply stamped_wf; [done|]. eapply Forall_impl; [exact Hun|].
    by intros e (_ & _ & _ & ?).
  - intros ->. apply (Hprev _ eq_refl). left.
  - apply IH; [done..|]. by intros k [= <-].
Qed.

Lemma on_log_empty t : t.2 = [] -> on_log t = [].
Proof. unfold on_log. by intros ->. Qed.

Lemma concat_nonempty txns : concat (on_log <$> nonempty txns) = concat (on_log <$> txns).
Proof.
  induction txns as [|t txns IH]; [done|]. unfold nonempty in *. rewrite filter_cons. csimpl.
  destruct (decide (t.2 <> [])) as [Hne|Hne]; csimpl; [by rewrite IH|].
  rewrite IH, on_log_empty; [done|]. by apply dec_stable.
Qed.

Lemma drop_log_ok ts m : forall prev, log_ok prev ts -> exists prev', log_ok prev' (drop m ts).
Proof.
  revert m; induction ts as [|t ts IH]; intros [|m] prev H; try by exists prev.
  destruct H as (key & _ & _ & H). by eapply IH.
Qed.

(** A log read to its end has been run to its end. *)
Lemma whole_log_run ts m part : forall prev,
  log_ok prev ts -> concat ts = concat (take m ts) ++ part -> proper_part part (drop m ts) ->
  take m ts = ts.
Proof.
  intros prev Hok Heq Hpp.
  assert (Hrest : concat (drop m ts) = part).
  { rewrite <- (take_drop m ts) in Heq at 1. rewrite concat_app in Heq. by apply app_inv_head in Heq. }
  destruct (drop m ts) as [|t ts'] eqn:Hd.
  { rewrite <- (take_drop m ts) at 2. by rewrite Hd, app_nil_r. }
  exfalso. assert (Hne : t <> []).
  { destruct (drop_log_ok ts m prev Hok) as [prev' Hok']. rewrite Hd in Hok'.
    destruct Hok' as (key & Hw & _). by eapply txn_wf_nonempty. }
  destruct Hpp as [->|(t0 & ts0 & k & [= <- <-] & -> & Hk)]; simpl in Hrest.
  - by apply app_eq_nil in Hrest as [? _].
  - apply (f_equal length) in Hrest. rewrite length_app, length_take in Hrest. lia.
Qed.

(** C3: End to end, from Postgres's wire to the sequencer: for a connection that has not failed, and
    however its log is cut into pages, what the sequencer runs is a prefix of the transactions the
    events carry (those that change a tracked table), each whole, stamped with its commit, in commit
    order; what it has read beyond them is a proper part of the next, which it holds; everything
    on the log is run once the log is read to its end, and the log misses nothing when the
    connection was not cut off. *)
Theorem wire_to_sequencer (txn_cfg : TxnBufferConfig) (evs : list (Outside * ReplicationEvent))
    (inc : U) (last_lsn : str) (sync_seq : Z) (en : Env) (oc : list Envelope -> Outcome)
    (l : Loop (R := R) (W := W) (D := D) (U := U)) (reads : list (S * Z * ReadResult))
    (rest : list Envelope) :
  let s0 := connect inc last_lsn sync_seq in
  let t := stream txn_cfg evs s0 in
  let txns := transactions evs (sr_dec s0) None in
  let delivered := concat (data <$> (snd <$> reads)) in
  (forall e, 0 <= envelope_memory_bytes e) ->
  stable_stream evs (sr_dec s0) None -> NoDup (txn_key <$> nonempty txns) -> ~ turn_failed t ->
  lo_failed l = None -> lo_held l = [] ->
  delivered ++ rest = concat (sr_log (turn_state t)) ->
  exists n m part,
    let log := on_log <$> nonempty (take n txns) in
    delivered = concat (take m log) ++ part /\ proper_part part (drop m log) /\
    run_txns en oc (lo_seq l) (take m log) = (lo_seq (pages en oc l reads), lo_failed (pages en oc l reads)) /\
    (lo_failed (pages en oc l reads) = None -> lo_held (pages en oc l reads) = part) /\
    (rest = [] -> take m log = log) /\
    (Forall (λ oe, ou_current oe.1 = true) evs -> nonempty (take n txns) = nonempty txns).
Proof.
  intros s0 t txns delivered Hcost Hst Hnd Hnf Hf Hh Hread.
  destruct (stream_delivers txn_cfg Hcost evs s0 None I Hst) as (n & css & part & Hlog & Hcat & Ht).
  fold t in Hlog, Ht. assert (Hend : part = [] /\
    (Forall (λ oe, ou_current oe.1 = true) evs -> (length txns <= n)%nat)) by (by destruct t).
  destruct Hend as [-> Hall]. rewrite app_nil_r in Hlog. change (sr_log s0) with (@nil (list Envelope)) in Hlog.
  cbn [app] in Hlog. rewrite Hlog, Hcat, <- concat_nonempty in Hread.
  assert (Hun : Forall (λ t : Transaction, Forall unstamped t.2) (take n txns)).
  { apply Forall_take, transactions_unstamped. done. }
  assert (Hsub : nonempty (take n txns) `prefix_of` nonempty txns).
  { exists (nonempty (drop n txns)). unfold nonempty. by rewrite <- filter_app, take_drop. }
  assert (Hok : log_ok None (on_log <$> nonempty (take n txns))).
  { apply on_log_ok; [| |done].
    - apply Forall_forall. intros x [Hx Hin]%list_elem_of_filter. rewrite Forall_forall in Hun. auto.
    - destruct Hsub as [k Hk]. fold txns in Hnd. rewrite Hk, fmap_app in Hnd.
      by apply NoDup_app in Hnd as [? _]. }
  destruct (pages_runs en oc reads l None _ rest Hok Hf) as (m & part & E & Hpp & Hrun & Hheld).
  { rewrite Hh. by left. }
  { by rewrite Hh. }
  rewrite Hh in E. exists n, m, part. split_and!; [done..| |].
  - intros ->. rewrite app_nil_r in Hread. eapply whole_log_run; [exact Hok| |exact Hpp].
    etransitivity; [symmetry; exact Hread|exact E].
  - intros Hcur. by rewrite take_ge by auto.
Qed.
End compose.
