(* ===== verification/PkDict.v ===== *)
(** * The primary-key dictionary ([pk_dict.rs])

    The append-only interner of primary keys: a forward map from the text to its id and a reverse
    table indexed by id, each behind a lock of its own.  A call first reads the forward map; only
    when that misses does it take the write locks, look again and mint the next id.  What happens
    between the two looks is another caller's business: [interning] is a run of such calls in any
    interleaving.

    Ids are [u32], minted as the length of the reverse table; the table wraps when it holds 2^32
    texts, which the theorems exclude.  The estimate of owned bytes depends on allocator capacities
    and is left out. *)

From S2P Require Import Prelude.
From stdpp Require Import base option numbers strings gmap fin_maps list.
#[local] Open Scope Z_scope.

Record PkDict := MkPkDict {
  pd_forward : gmap str Z;
  pd_reverse : list str
}.

Definition pk_dict_new : PkDict := MkPkDict ∅ [].

(** [get]: the read of the forward map. *)
Definition pk_get (d : PkDict) (pk : str) : option Z := pd_forward d !! pk.

(** The section of [get_or_insert] under the write locks. *)
Definition pk_mint (d : PkDict) (pk : str) : PkDict * Z :=
  match pd_forward d !! pk with
  | Some id => (d, id)
  | None =>
      let id := Z.of_nat (length (pd_reverse d)) mod (u32_max + 1) in
      (MkPkDict (<[pk := id]> (pd_forward d)) (pd_reverse d ++ [pk]), id)
  end.

Definition get_or_insert (d : PkDict) (pk : str) : PkDict * Z :=
  match pk_get d pk with
  | Some id => (d, id)
  | None => pk_mint d pk
  end.

Definition pk_resolve (d : PkDict) (id : Z) : option str := pd_reverse d !! Z.to_nat id.
Definition pk_len (d : PkDict) : nat := length (pd_reverse d).

(* ------------------------------------------------------------------ *)
(** ** Interleaved calls

    [in_slow] holds the callers that missed and have not yet taken the write locks; [answers] is
    what has been returned so far. *)

Record Interning := MkInterning {
  in_dict : PkDict;
  in_slow : gmap nat str;
  in_answers : list (str * Z)
}.

Inductive InternEvent :=
  | CallGet (caller : nat) (pk : str)     (* the read, and the answer if it hits *)
  | CallMint (caller : nat).              (* the write section of a caller that missed *)

Definition intern_step (s : Interning) (e : InternEvent) : Interning :=
  match e with
  | CallGet c pk =>
      match pk_get (in_dict s) pk with
      | Some id => MkInterning (in_dict s) (in_slow s) (in_answers s ++ [(pk, id)])
      | None => MkInterning (in_dict s) (<[c := pk]> (in_slow s)) (in_answers s)
      end
  | CallMint c =>
      match in_slow s !! c with
      | Some pk =>
          let '(d, id) := pk_mint (in_dict s) pk in
          MkInterning d (delete c (in_slow s)) (in_answers s ++ [(pk, id)])
      | None => s
      end
  end.

Definition interning (d : PkDict) (es : list InternEvent) : Interning :=
  foldl intern_step (MkInterning d ∅ []) es.

(* ================================================================== *)
(** * Facts *)

(** The two tables are inverse to each other, and no id has wrapped. *)
Record dict_ok (d : PkDict) : Prop := {
  do_ids : forall pk id, pd_forward d !! pk = Some id <->
                         0 <= id /\ pd_reverse d !! Z.to_nat id = Some pk;
  do_small : Z.of_nat (pk_len d) <= u32_max + 1
}.

(** The dictionary only grows: what was interned stays where it was. *)
Definition dict_le (d d' : PkDict) : Prop :=
  pd_reverse d `prefix_of` pd_reverse d' /\ pd_forward d ⊆ pd_forward d'.

#[export] Instance dict_le_preorder : PreOrder dict_le.
Proof.
  split; [intros d; by split|]. intros a b c [H1 H2] [H3 H4]. split; by etransitivity.
Qed.

Lemma dict_ok_new : dict_ok pk_dict_new.
Proof. split; [|by vm_compute]. intros pk id. simpl. rewrite lookup_empty. naive_solver. Qed.

Lemma dict_le_get d d' pk id : dict_le d d' -> pk_get d pk = Some id -> pk_get d' pk = Some id.
Proof. intros [_ H] Hg. exact (lookup_weaken _ _ _ _ Hg H). Qed.

Lemma dict_ok_inj d pk pk' id :
  dict_ok d -> pk_get d pk = Some id -> pk_get d pk' = Some id -> pk = pk'.
Proof. intros Hd [_ H]%(do_ids _ Hd) [_ H']%(do_ids _ Hd). congruence. Qed.

Lemma dict_ok_resolve d pk id : dict_ok d -> pk_get d pk = Some id -> pk_resolve d id = Some pk.
Proof. intros Hd [_ H]%(do_ids _ Hd). exact H. Qed.

Lemma pk_mint_le d pk : dict_le d (pk_mint d pk).1.
Proof.
  unfold pk_mint. destruct (pd_forward d !! pk) eqn:E; [done|]. split; simpl.
  - by eexists.
  - by apply insert_subseteq.
Qed.

Lemma pk_mint_get d pk : pk_get (pk_mint d pk).1 pk = Some (pk_mint d pk).2.
Proof.
  unfold pk_mint, pk_get. destruct (pd_forward d !! pk) eqn:E; [done|]. simpl. by rewrite lookup_insert_eq.
Qed.

Lemma pk_mint_ok d pk :
  dict_ok d -> Z.of_nat (pk_len (pk_mint d pk).1) <= u32_max + 1 -> dict_ok (pk_mint d pk).1.
Proof.
  intros Hd. unfold pk_mint. destruct (pd_forward d !! pk) as [id|] eqn:E; [done|].
  unfold pk_len; simpl. rewrite length_app; simpl. intros Hs. split; [|unfold pk_len; simpl; rewrite length_app; simpl; lia].
  rewrite Z.mod_small by (unfold u32_max in *; lia). simpl. intros pk' id.
  rewrite lookup_insert_Some, (do_ids _ Hd), lookup_snoc_Some. split.
  - intros [[-> <-]|[Hne [H0 Hr]]]; [|by split; [|left; split; [eapply lookup_lt_Some|]]].
    split; [lia|]. right. by rewrite Nat2Z.id.
  - intros [H0 [[Hl Hr]|[Hl ->]]].
    + right. split; [|done]. intros <-.
      assert (pd_forward d !! pk = Some id) by (apply (do_ids _ Hd); done). congruence.
    + left. split; [done|]. lia.
Qed.

Lemma get_or_insert_mint d pk : get_or_insert d pk = pk_mint d pk.
Proof. unfold get_or_insert, pk_mint, pk_get. by destruct (pd_forward d !! pk) eqn:E; rewrite ?E. Qed.

Lemma intern_step_le s e : dict_le (in_dict s) (in_dict (intern_step s e)).
Proof.
  destruct e as [c pk|c]; simpl.
  - by destruct (pk_get _ pk).
  - destruct (in_slow s !! c) as [pk|]; [|done]. pose proof (pk_mint_le (in_dict s) pk) as H.
    by destruct (pk_mint (in_dict s) pk).
Qed.

Lemma interning_le es : forall s, dict_le (in_dict s) (in_dict (foldl intern_step s es)).
Proof.
  induction es as [|e es IH]; intros s; simpl; [done|].
  etransitivity; [apply intern_step_le|apply IH].
Qed.

Lemma dict_le_len d d' : dict_le d d' -> (pk_len d <= pk_len d')%nat.
Proof. intros [H _]. by apply prefix_length. Qed.

(** Interning is safe under concurrency: however the two sections of the callers interleave, the
    tables stay inverse to each other, nothing interned before moves, and every caller is answered
    with the one id of its key, so two callers get the same id exactly when they asked for the same
    key, and the id resolves back to it. *)
Theorem interning_sound (d : PkDict) (es : list InternEvent) :
  dict_ok d -> Z.of_nat (pk_len (in_dict (interning d es))) <= u32_max + 1 ->
  let s := interning d es in
  dict_ok (in_dict s) /\ dict_le d (in_dict s) /\
  (forall pk id, (pk, id) ∈ in_answers s ->
     pk_get (in_dict s) pk = Some id /\ pk_resolve (in_dict s) id = Some pk) /\
  (forall pk id pk' id', (pk, id) ∈ in_answers s -> (pk', id') ∈ in_answers s ->
     (pk = pk' <-> id = id')).
Proof.
  intros Hd Hs s.
  assert (Hmain : dict_ok (in_dict s) /\
                  forall pk id, (pk, id) ∈ in_answers s -> pk_get (in_dict s) pk = Some id).
  { unfold s, interning in *. revert Hs. induction es as [|e es IH] using rev_ind; intros Hs.
    - split; [done|]. intros pk id H. by apply not_elem_of_nil in H.
    - rewrite foldl_snoc in *. set (s0 := foldl intern_step _ es) in *.
      pose proof (dict_le_len _ _ (intern_step_le s0 e)) as Hle.
      destruct IH as [Hok Hans]; [lia|].
      assert (Hold : forall pk id, (pk, id) ∈ in_answers s0 ->
                pk_get (in_dict (intern_step s0 e)) pk = Some id)
        by (intros pk id H; eapply dict_le_get; [apply intern_step_le|by apply Hans]).
      destruct e as [c pk|c]; simpl in *.
      + destruct (pk_get (in_dict s0) pk) as [id|] eqn:E; simpl in *; [|done]. split; [done|].
        intros pk' id'. rewrite elem_of_app, list_elem_of_singleton. intros [H|[= -> ->]]; [by apply Hold|done].
      + destruct (in_slow s0 !! c) as [pk|]; [|done].
        pose proof (pk_mint_ok (in_dict s0) pk Hok) as Hmo. pose proof (pk_mint_get (in_dict s0) pk) as Hmg.
        destruct (pk_mint (in_dict s0) pk) as [d' id]; simpl in *. split; [by apply Hmo|].
        intros pk' id'. rewrite elem_of_app, list_elem_of_singleton. intros [H|[= -> ->]]; [by apply Hold|done]. }
  destruct Hmain as [Hok Hans]. split_and!; [done|apply interning_le| |].
  - intros pk id H. split; [by apply Hans|]. by apply dict_ok_resolve, Hans.
  - intros pk id pk' id' H%Hans H'%Hans. split; [intros ->; congruence|intros ->].
    by eapply dict_ok_inj.
Qed.

Lemma interning_sound_witness :
  let es := [CallGet 0 $"a"; CallGet 1 $"a"; CallMint 1; CallMint 0; CallGet 2 $"b"; CallMint 2] in
  in_answers (interning pk_dict_new es) = [($"a", 0); ($"a", 0); ($"b", 1)] /\
  dict_ok (in_dict (interning pk_dict_new es)).
Proof.
  split; [by vm_compute|]. refine (proj1 (interning_sound pk_dict_new _ dict_ok_new _)). by vm_compute.
Defined.
