(* ===== verification/SubqIndex.v ===== *)
(** * The conjunct index over subquery shapes ([subq_index.rs])

    Shapes with a subquery are routed like the standalone ones, under a necessary conjunct, but in
    one index over every outer table: posting lists are bitmaps over interned shape numbers, whose
    numbers are reused after a removal.  A bitmap is a finite set of integers, iterated in ascending
    order. *)

From S2P Require Import Prelude BTree Value TableRef Schema Predicate PredicateFacts Gate Output.
From S2P Require Import Executors.
From stdpp Require Import base option numbers strings gmap fin_maps sorting list.
#[local] Open Scope Z_scope.

Abbreviation bitmap := (gset Z).

(** The posting lists of one bound, by strictness. *)
Record Bound := MkBound { bd_strict : bitmap; bd_inclusive : bitmap }.

Definition no_bound : Bound := MkBound ∅ ∅.
Definition bound_is_empty (b : Bound) : bool :=
  bool_decide (bd_strict b = ∅) && bool_decide (bd_inclusive b = ∅).

Abbreviation Postings := (gmap nat (btree Value Bound)).

Record TableIndex := MkTableIndex {
  ti_eq : gmap nat (gmap Value bitmap);
  ti_lower : Postings;
  ti_upper : Postings;
  ti_scan : bitmap
}.

Definition no_table : TableIndex := MkTableIndex ∅ ∅ ∅ ∅.
Definition table_is_empty (t : TableIndex) : bool :=
  bool_decide (ti_eq t = ∅) && bool_decide (dom (ti_lower t) = ∅) &&
  bool_decide (dom (ti_upper t) = ∅) && bool_decide (ti_scan t = ∅).

Record Placement := MkPlacement { pl_table : str; pl_leaf : option AccessLeaf }.

(** [free] has the number that is minted next at its head. *)
Record SubqueryShapeIndex := MkShapeIndex {
  si_forward : gmap str Z;
  si_reverse : list (option str);
  si_free : list Z;
  si_tables : gmap str TableIndex;
  si_placed : gmap Z Placement
}.

(** [SubqueryShapeIndex::default]. *)
Definition shape_index_empty : SubqueryShapeIndex := MkShapeIndex ∅ [] [] ∅ ∅.

(** [intern]. *)
Definition intern (shape_id : str) (ix : SubqueryShapeIndex) : SubqueryShapeIndex * Z :=
  let '(sid, reverse, free) :=
    match si_free ix with
    | sid :: free => (sid, <[Z.to_nat sid := Some shape_id]> (si_reverse ix), free)
    | [] => (Z.of_nat (length (si_reverse ix)) mod (u32_max + 1),
             si_reverse ix ++ [Some shape_id], [])
    end in
  (MkShapeIndex (<[shape_id := sid]> (si_forward ix)) reverse free (si_tables ix) (si_placed ix), sid).

(** Filing a number under a conjunct: the [match] of [insert]. *)
Definition post_eq (m : gmap nat (gmap Value bitmap)) (col : nat) (value : Value) (sid : Z)
    : gmap nat (gmap Value bitmap) :=
  let by_val := default ∅ (m !! col) in
  <[col := <[vkey value := {[ sid ]} ∪ default ∅ (by_val !! vkey value)]> by_val]> m.
Definition post_bound (m : Postings) (col : nat) (value : Value) (strict : bool) (sid : Z) : Postings :=
  let add b := if strict then MkBound ({[ sid ]} ∪ bd_strict b) (bd_inclusive b)
               else MkBound (bd_strict b) ({[ sid ]} ∪ bd_inclusive b) in
  <[col := bt_upsert value_cmp value no_bound add (default [] (m !! col))]> m.
Definition post (leaf : option AccessLeaf) (sid : Z) (t : TableIndex) : TableIndex :=
  match leaf with
  | Some (LEq col value) =>
      MkTableIndex (post_eq (ti_eq t) col value sid) (ti_lower t) (ti_upper t) (ti_scan t)
  | Some (LLower col value strict) =>
      MkTableIndex (ti_eq t) (post_bound (ti_lower t) col value strict sid) (ti_upper t) (ti_scan t)
  | Some (LUpper col value strict) =>
      MkTableIndex (ti_eq t) (ti_lower t) (post_bound (ti_upper t) col value strict sid) (ti_scan t)
  | None => MkTableIndex (ti_eq t) (ti_lower t) (ti_upper t) ({[ sid ]} ∪ ti_scan t)
  end.

(** Its inverse: the [match] of [remove], and [remove_bound]; emptied literals and columns are
    reclaimed. *)
Definition unpost_eq (m : gmap nat (gmap Value bitmap)) (col : nat) (value : Value) (sid : Z)
    : gmap nat (gmap Value bitmap) :=
  match m !! col with
  | None => m
  | Some by_val =>
      let by_val := match by_val !! vkey value with
                    | None => by_val
                    | Some bm =>
                        let bm := bm ∖ {[ sid ]} in
                        if bool_decide (bm = ∅) then delete (vkey value) by_val
                        else <[vkey value := bm]> by_val
                    end in
      if bool_decide (by_val = ∅) then delete col m else <[col := by_val]> m
  end.
Definition unpost_bound (m : Postings) (col : nat) (value : Value) (sid : Z) : Postings :=
  match m !! col with
  | None => m
  | Some by_val =>
      let by_val := match bt_lookup value_cmp value by_val with
                    | None => by_val
                    | Some b =>
                        let b := MkBound (bd_strict b ∖ {[ sid ]}) (bd_inclusive b ∖ {[ sid ]}) in
                        if bound_is_empty b then bt_remove value_cmp value by_val
                        else bt_insert value_cmp value b by_val
                    end in
      match by_val with [] => delete col m | _ => <[col := by_val]> m end
  end.
Definition unpost (leaf : option AccessLeaf) (sid : Z) (t : TableIndex) : TableIndex :=
  match leaf with
  | Some (LEq col value) =>
      MkTableIndex (unpost_eq (ti_eq t) col value sid) (ti_lower t) (ti_upper t) (ti_scan t)
  | Some (LLower col value _) =>
      MkTableIndex (ti_eq t) (unpost_bound (ti_lower t) col value sid) (ti_upper t) (ti_scan t)
  | Some (LUpper col value _) =>
      MkTableIndex (ti_eq t) (ti_lower t) (unpost_bound (ti_upper t) col value sid) (ti_scan t)
  | None => MkTableIndex (ti_eq t) (ti_lower t) (ti_upper t) (ti_scan t ∖ {[ sid ]})
  end.

(** [SubqueryShapeIndex::remove]. *)
Definition shape_index_remove (shape_id : str) (ix : SubqueryShapeIndex) : SubqueryShapeIndex :=
  match si_forward ix !! shape_id with
  | None => ix
  | Some sid =>
      match si_placed ix !! sid with
      | None => ix
      | Some pl =>
          let tables :=
            match si_tables ix !! pl_table pl with
            | None => si_tables ix
            | Some t =>
                let t := unpost (pl_leaf pl) sid t in
                if table_is_empty t then delete (pl_table pl) (si_tables ix)
                else <[pl_table pl := t]> (si_tables ix)
            end in
          MkShapeIndex (delete shape_id (si_forward ix))
            (<[Z.to_nat sid := None]> (si_reverse ix)) (sid :: si_free ix) tables
            (delete sid (si_placed ix))
      end
  end.

(** [SubqueryShapeIndex::insert]. *)
Definition shape_index_insert (shape_id table : str) (pred : CompiledPredicate)
    (ix : SubqueryShapeIndex) : SubqueryShapeIndex :=
  let ix := shape_index_remove shape_id ix in
  let '(ix, sid) := intern shape_id ix in
  let leaf := access_leaf pred in
  let t := post leaf sid (default no_table (si_tables ix !! table)) in
  MkShapeIndex (si_forward ix) (si_reverse ix) (si_free ix) (<[table := t]> (si_tables ix))
    (<[sid := MkPlacement table leaf]> (si_placed ix)).

(** What one bound's range contributes to the candidates of a cell. *)
Definition range_postings (cell : Value) (range : btree Value Bound) : bitmap :=
  ⋃ ((λ e : Value * Bound,
        (if value_eqb e.1 cell then ∅ else bd_strict e.2) ∪ bd_inclusive e.2) <$> range).

(** The body of the row loop of [candidates]. *)
Definition row_postings (t : TableIndex) (row : Row) : bitmap :=
  ⋃ ((λ cb : nat * gmap Value bitmap,
        match row !! cb.1 with Some cell => default ∅ (cb.2 !! vkey cell) | None => ∅ end)
      <$> map_to_list (ti_eq t)) ∪
  ⋃ ((λ cb : nat * btree Value Bound,
        match row !! cb.1 with
        | Some cell => if value_is_null cell then ∅
                       else range_postings cell (bt_range_to value_cmp cell cb.2)
        | None => ∅
        end) <$> map_to_list (ti_lower t)) ∪
  ⋃ ((λ cb : nat * btree Value Bound,
        match row !! cb.1 with
        | Some cell => if value_is_null cell then ∅
                       else range_postings cell (bt_range_from value_cmp cell cb.2)
        | None => ∅
        end) <$> map_to_list (ti_upper t)).

(** [SubqueryShapeIndex::candidates]. *)
Definition shape_candidates (ix : SubqueryShapeIndex) (table : str) (delta : Delta) : list str :=
  match si_tables ix !! table with
  | None => []
  | Some t =>
      let out := ti_scan t ∪ ⋃ ((λ rw : Row * Z, row_postings t rw.1) <$> delta) in
      omap (λ sid, mjoin (si_reverse ix !! Z.to_nat sid)) (stable_sort Z.leb (elements out))
  end.

(** [has_table]. *)
Definition has_table (ix : SubqueryShapeIndex) (table : str) : bool :=
  bool_decide (is_Some (si_tables ix !! table)).

(* ================================================================== *)
(** * Facts *)

(** ** Posting lists *)

Definition eq_at (m : gmap nat (gmap Value bitmap)) (c : nat) (v : Value) : bitmap :=
  default ∅ (default ∅ (m !! c) !! vkey v).
Definition bound_at (m : Postings) (c : nat) (v : Value) : Bound :=
  default no_bound (bt_lookup value_cmp v (default [] (m !! c))).
Definition side (s : bool) (b : Bound) : bitmap := if s then bd_strict b else bd_inclusive b.

Definition posted (t : TableIndex) (sid : Z) (leaf : option AccessLeaf) : Prop :=
  match leaf with
  | Some (LEq c v) => sid ∈ eq_at (ti_eq t) c v
  | Some (LLower c v s) => sid ∈ side s (bound_at (ti_lower t) c v)
  | Some (LUpper c v s) => sid ∈ side s (bound_at (ti_upper t) c v)
  | None => sid ∈ ti_scan t
  end.

Definition postings_sorted (m : Postings) : Prop := map_Forall (λ _ b, bt_sorted value_cmp b) m.
Definition table_sorted (t : TableIndex) : Prop :=
  postings_sorted (ti_lower t) /\ postings_sorted (ti_upper t).

Lemma postings_sorted_col m c : postings_sorted m -> bt_sorted value_cmp (default [] (m !! c)).
Proof. intros H. destruct (m !! c) eqn:E; simpl; [by eapply H|constructor]. Qed.

Lemma eq_at_post m c v sid c' v' :
  eq_at (post_eq m c v sid) c' v' =
  if bool_decide (c' = c /\ vkey v' = vkey v) then {[ sid ]} ∪ eq_at m c' v' else eq_at m c' v'.
Proof.
  unfold eq_at, post_eq. destruct (decide (c' = c)) as [->|Hc].
  2: { by rewrite lookup_insert_ne, bool_decide_eq_false_2 by naive_solver. }
  rewrite lookup_insert_eq. simpl. destruct (decide (vkey v' = vkey v)) as [E|Hv].
  - by rewrite E, lookup_insert_eq, bool_decide_eq_true_2 by done.
  - by rewrite lookup_insert_ne, bool_decide_eq_false_2 by naive_solver.
Qed.

Lemma eq_at_unpost m c v sid c' v' :
  eq_at (unpost_eq m c v sid) c' v' =
  if bool_decide (c' = c /\ vkey v' = vkey v) then eq_at m c' v' ∖ {[ sid ]} else eq_at m c' v'.
Proof.
  unfold eq_at, unpost_eq. destruct (m !! c) as [bv|] eqn:Em.
  2: { case_bool_decide as H; [|done]. destruct H as [-> _]. rewrite Em; simpl. rewrite lookup_empty. set_solver. }
  set (bv' := match bv !! vkey v with Some _ => _ | None => bv end).
  assert (Hbv : forall k, default ∅ (bv' !! k) =
    if bool_decide (k = vkey v) then default ∅ (bv !! k) ∖ {[ sid ]} else default ∅ (bv !! k)).
  { intros k. unfold bv'. destruct (bv !! vkey v) as [bm|] eqn:Eb.
    - destruct (decide (k = vkey v)) as [->|Hk].
      + rewrite Eb, (bool_decide_eq_true_2 (vkey v = vkey v)) by done; simpl.
        case_bool_decide as He; [by rewrite lookup_delete_eq, He|by rewrite lookup_insert_eq].
      + rewrite (bool_decide_eq_false_2 (k = vkey v)) by done.
        case_bool_decide; by rewrite ?lookup_delete_ne, ?lookup_insert_ne by done.
    - case_bool_decide as Hk; [subst; rewrite Eb; simpl; set_solver|done]. }
  assert (Hm : default ∅ ((if bool_decide (bv' = ∅) then delete c m else <[c := bv']> m) !! c) = bv').
  { case_bool_decide as He; [by rewrite lookup_delete_eq, He|by rewrite lookup_insert_eq]. }
  destruct (decide (c' = c)) as [->|Hc].
  - rewrite Hm, Em, Hbv; simpl. by rewrite (bool_decide_ext (c = c /\ _) (vkey v' = vkey v)) by naive_solver.
  - rewrite (bool_decide_eq_false_2 (c' = c /\ _)) by naive_solver.
    case_bool_decide; by rewrite ?lookup_delete_ne, ?lookup_insert_ne by done.
Qed.

Lemma post_bound_sorted m c v s sid : postings_sorted m -> postings_sorted (post_bound m c v s sid).
Proof.
  intros H. apply map_Forall_insert_2; [|done]. apply bt_insert_sorted; [apply _|].
  by apply postings_sorted_col.
Qed.

Lemma unpost_bound_col m c v sid :
  postings_sorted m ->
  exists b', bt_sorted value_cmp b' /\
    default [] (unpost_bound m c v sid !! c) = b' /\
    (forall c', c' <> c -> unpost_bound m c v sid !! c' = m !! c') /\
    (forall v', default no_bound (bt_lookup value_cmp v' b') =
       let b := bound_at m c v' in
       if bool_decide (vkey v' = vkey v)
       then MkBound (bd_strict b ∖ {[ sid ]}) (bd_inclusive b ∖ {[ sid ]}) else b).
Proof.
  intros Hs. assert (Hnone : MkBound (∅ ∖ {[ sid ]}) (∅ ∖ {[ sid ]}) = no_bound)
    by (unfold no_bound; f_equal; set_solver).
  unfold unpost_bound, bound_at. destruct (m !! c) as [b|] eqn:Em.
  2: { exists []. rewrite Em. split_and!; [constructor|done|done|].
       intros v'. simpl. by destruct (bool_decide _); rewrite ?Hnone. }
  assert (Hb : bt_sorted value_cmp b) by by eapply Hs.
  set (b' := match bt_lookup value_cmp v b with Some _ => _ | None => b end). exists b'.
  assert (Hb' : bt_sorted value_cmp b').
  { unfold b'. destruct (bt_lookup _ _ _); [|done].
    destruct (bound_is_empty _); [by apply bt_remove_sorted|apply bt_insert_sorted; [apply _|done]]. }
  split_and!; [done| | |].
  - destruct b'; [by rewrite lookup_delete_eq|by rewrite lookup_insert_eq].
  - intros c' Hc. destruct b'; by rewrite ?lookup_delete_ne, ?lookup_insert_ne by done.
  - intros v'. simpl. unfold b'. destruct (value_cmp_dec v' v) as [[Hk Hc]|[Hk Hc]].
    + rewrite bool_decide_eq_true_2 by done. rewrite (bt_lookup_vkey v' v b) by done.
      destruct (bt_lookup value_cmp v b) as [bd|] eqn:El; simpl.
      2: { by rewrite (bt_lookup_vkey v' v b), El by done. }
      destruct (bound_is_empty _) eqn:He.
      * rewrite (bt_lookup_remove value_cmp), Hc by done. unfold bound_is_empty in He; simpl in He.
        apply andb_true_iff in He as [He1%bool_decide_eq_true He2%bool_decide_eq_true].
        by rewrite He1, He2.
      * by rewrite (bt_lookup_insert value_cmp), Hc by done.
    + rewrite bool_decide_eq_false_2 by done. destruct (bt_lookup value_cmp v b); [|done].
      destruct (bound_is_empty _).
      * rewrite (bt_lookup_remove value_cmp) by done. by destruct (value_cmp v' v).
      * rewrite (bt_lookup_insert value_cmp) by done. by destruct (value_cmp v' v).
Qed.

Lemma unpost_bound_sorted m c v sid : postings_sorted m -> postings_sorted (unpost_bound m c v sid).
Proof.
  intros Hs. destruct (unpost_bound_col m c v sid Hs) as (b' & Hb & Hc & Ho & _).
  intros c' b Hl. destruct (decide (c' = c)) as [->|Hne].
  - rewrite Hl in Hc; simpl in Hc. by subst.
  - rewrite Ho in Hl by done. by eapply Hs.
Qed.

Lemma bound_at_post m c v s sid c' v' :
  postings_sorted m ->
  bound_at (post_bound m c v s sid) c' v' =
  let b := bound_at m c' v' in
  if bool_decide (c' = c /\ vkey v' = vkey v)
  then (if s then MkBound ({[ sid ]} ∪ bd_strict b) (bd_inclusive b)
        else MkBound (bd_strict b) ({[ sid ]} ∪ bd_inclusive b)) else b.
Proof.
  intros Hs. unfold bound_at, post_bound. destruct (decide (c' = c)) as [->|Hc].
  2: { by rewrite lookup_insert_ne, bool_decide_eq_false_2 by naive_solver. }
  rewrite lookup_insert_eq. simpl. unfold bt_upsert.
  rewrite (bt_lookup_insert value_cmp) by by apply postings_sorted_col.
  destruct (value_cmp_dec v' v) as [[Hk Hc]|[Hk Hc]].
  - rewrite Hc, bool_decide_eq_true_2 by done. simpl. by rewrite (bt_lookup_vkey v' v).
  - rewrite bool_decide_eq_false_2 by naive_solver. by destruct (value_cmp v' v).
Qed.

Lemma bound_at_unpost m c v sid c' v' :
  postings_sorted m ->
  bound_at (unpost_bound m c v sid) c' v' =
  let b := bound_at m c' v' in
  if bool_decide (c' = c /\ vkey v' = vkey v)
  then MkBound (bd_strict b ∖ {[ sid ]}) (bd_inclusive b ∖ {[ sid ]}) else b.
Proof.
  intros Hs. destruct (unpost_bound_col m c v sid Hs) as (b' & Hb & Hc & Ho & Hv).
  unfold bound_at at 1. destruct (decide (c' = c)) as [->|Hne].
  - rewrite Hc, Hv; simpl. by rewrite (bool_decide_ext (c = c /\ _) (vkey v' = vkey v)) by naive_solver.
  - rewrite Ho by done. by rewrite bool_decide_eq_false_2 by naive_solver.
Qed.

Lemma post_sorted leaf sid t : table_sorted t -> table_sorted (post leaf sid t).
Proof. intros [Hl Hu]. destruct leaf as [[]|]; split; simpl; try done; by apply post_bound_sorted. Qed.

Lemma unpost_sorted leaf sid t : table_sorted t -> table_sorted (unpost leaf sid t).
Proof. intros [Hl Hu]. destruct leaf as [[]|]; split; simpl; try done; by apply unpost_bound_sorted. Qed.

Lemma posted_post t leaf sid sid' leaf' :
  table_sorted t ->
  posted (post leaf sid t) sid' leaf' <->
  posted t sid' leaf' \/ (sid' = sid /\ (leaf_norm <$> leaf') = (leaf_norm <$> leaf)).
Proof.
  intros [Hl Hu].
  destruct leaf as [[c v|c v s|c v s]|], leaf' as [[c' v'|c' v' s'|c' v' s']|]; simpl;
    rewrite ?eq_at_post, ?bound_at_post by done; try set_solver;
    try (case_bool_decide as Hk; [destruct Hk as [-> Hk]; rewrite ?Hk|]); cbn [side];
    try (rewrite elem_of_union, elem_of_singleton; naive_solver);
    try (split; [by left|intros [|[-> [=]]]; [done|exfalso; apply Hk; split; congruence]]).
  all: destruct s, s'; simpl; rewrite ?elem_of_union, ?elem_of_singleton; naive_solver.
Qed.

Lemma posted_unpost t leaf sid sid' leaf' :
  table_sorted t ->
  posted (unpost leaf sid t) sid' leaf' ->
  posted t sid' leaf'.
Proof.
  intros [Hl Hu].
  destruct leaf as [[c v|c v s|c v s]|], leaf' as [[c' v'|c' v' s'|c' v' s']|]; simpl;
    rewrite ?eq_at_unpost, ?bound_at_unpost by done; try done;
    try (case_bool_decide as Hk; [|done]); try (destruct s'; simpl); set_solver.
Qed.

Lemma posted_unpost_ne t leaf sid sid' leaf' :
  table_sorted t -> sid' <> sid ->
  posted t sid' leaf' -> posted (unpost leaf sid t) sid' leaf'.
Proof.
  intros [Hl Hu] Hne.
  destruct leaf as [[c v|c v s|c v s]|], leaf' as [[c' v'|c' v' s'|c' v' s']|]; simpl;
    rewrite ?eq_at_unpost, ?bound_at_unpost by done; try done;
    try (case_bool_decide as Hk; [|done]); try (destruct s'; simpl); set_solver.
Qed.

Lemma posted_unpost_self t leaf sid :
  table_sorted t -> posted (unpost leaf sid t) sid leaf -> False.
Proof.
  intros [Hl Hu]. destruct leaf as [[c v|c v s|c v s]|]; simpl;
    rewrite ?eq_at_unpost, ?bound_at_unpost by done; try rewrite bool_decide_eq_true_2 by done;
    try (destruct s; simpl); set_solver.
Qed.

Lemma posted_norm t sid leaf leaf' :
  (leaf_norm <$> leaf) = (leaf_norm <$> leaf') -> posted t sid leaf -> posted t sid leaf'.
Proof.
  destruct leaf as [[c v|c v s|c v s]|], leaf' as [[c' v'|c' v' s'|c' v' s']|]; simpl; try done.
  - intros [= -> Hv]. unfold eq_at. by rewrite Hv.
  - intros [= -> Hv ->]. unfold bound_at. by rewrite (bt_lookup_vkey v v').
  - intros [= -> Hv ->]. unfold bound_at. by rewrite (bt_lookup_vkey v v').
Qed.

Lemma no_table_posted sid leaf : ~ posted no_table sid leaf.
Proof.
  destruct leaf as [[c v|c v s|c v s]|]; simpl; unfold eq_at, bound_at; simpl;
    try (destruct s; simpl); set_solver.
Qed.

Lemma table_is_empty_posted t sid leaf : table_is_empty t = true -> ~ posted t sid leaf.
Proof.
  unfold table_is_empty. rewrite !andb_true_iff, !bool_decide_eq_true.
  intros [[[He Hl] Hu] Hs]. apply dom_empty_inv_L in Hl, Hu.
  destruct leaf as [[c v|c v s|c v s]|]; simpl; unfold eq_at, bound_at;
    rewrite ?He, ?Hl, ?Hu, ?Hs; simpl; try (destruct s; simpl); set_solver.
Qed.

(** ** The index of the registered shapes *)

Abbreviation Registered := (gmap str (str * CompiledPredicate)).

Record shapes_indexed (ix : SubqueryShapeIndex) (reg : Registered) : Prop := {
  si_sorted : map_Forall (λ _ t, table_sorted t) (si_tables ix);
  si_numbers : forall id sid, si_forward ix !! id = Some sid <->
                 0 <= sid /\ si_reverse ix !! Z.to_nat sid = Some (Some id);
  si_freed : forall sid, sid ∈ si_free ix <-> 0 <= sid /\ si_reverse ix !! Z.to_nat sid = Some None;
  si_free_nodup : NoDup (si_free ix);
  si_where : forall id sid, si_forward ix !! id = Some sid ->
               exists pl pred, si_placed ix !! sid = Some pl /\
                 reg !! id = Some (pl_table pl, pred) /\ pl_leaf pl = access_leaf pred;
  si_only : forall sid pl, si_placed ix !! sid = Some pl ->
               exists id, si_forward ix !! id = Some sid;
  si_all : forall id, is_Some (reg !! id) -> is_Some (si_forward ix !! id);
  si_posted : forall table sid leaf,
    posted (default no_table (si_tables ix !! table)) sid leaf <->
    exists pl, si_placed ix !! sid = Some pl /\ pl_table pl = table /\
               (leaf_norm <$> leaf) = (leaf_norm <$> pl_leaf pl)
}.

Lemma shapes_indexed_empty : shapes_indexed shape_index_empty ∅.
Proof.
  split; simpl; try by intros *; rewrite ?lookup_empty; naive_solver.
  - apply map_Forall_empty.
  - intros sid. split; [by intros ?%not_elem_of_nil|by intros [_ ?]].
  - constructor.
  - intros table sid leaf. rewrite lookup_empty; simpl. split; [|by intros (? & ? & _)].
    by intros ?%no_table_posted.
Qed.

Lemma table_sorted_at ix reg table :
  shapes_indexed ix reg -> table_sorted (default no_table (si_tables ix !! table)).
Proof.
  intros H. destruct (si_tables ix !! table) as [t|] eqn:E; simpl.
  - by eapply (si_sorted _ _ H).
  - split; apply map_Forall_empty.
Qed.

Lemma numbers_inj ix reg id id' sid :
  shapes_indexed ix reg -> si_forward ix !! id = Some sid -> si_forward ix !! id' = Some sid -> id = id'.
Proof. intros H [_ H1]%(si_numbers _ _ H) [_ H2]%(si_numbers _ _ H). congruence. Qed.

Lemma shape_index_remove_ok ix reg id :
  shapes_indexed ix reg -> shapes_indexed (shape_index_remove id ix) (delete id reg).
Proof.
  intros H. unfold shape_index_remove. destruct (si_forward ix !! id) as [sid|] eqn:Ef.
  2: { rewrite delete_id; [done|]. destruct (reg !! id) eqn:E; [|done].
       destruct (si_all _ _ H id) as [? ?]; [eauto|congruence]. }
  destruct (si_where _ _ H id sid Ef) as (pl & pred & Hpl & Hreg & Hleaf). rewrite Hpl.
  apply (si_numbers _ _ H) in Ef as [Hsid Hrev].
  pose proof (lookup_lt_Some _ _ _ Hrev) as Hlt.
  assert (Hne : forall sid', 0 <= sid' -> sid' <> sid -> Z.to_nat sid' <> Z.to_nat sid) by lia.
  set (tables := match si_tables ix !! pl_table pl with Some _ => _ | None => _ end).
  assert (Htab : forall table sid' leaf,
    posted (default no_table (tables !! table)) sid' leaf <->
    posted (default no_table (si_tables ix !! table)) sid' leaf /\ sid' <> sid).
  { intros table sid' leaf.
    assert (Hself : table <> pl_table pl ->
      posted (default no_table (si_tables ix !! table)) sid' leaf -> sid' <> sid).
    { intros Ht (pl' & Hp' & Ht' & _)%(si_posted _ _ H) ->. congruence. }
    unfold tables. destruct (si_tables ix !! pl_table pl) as [t|] eqn:Et.
    2: { split; [|by intros [? _]]. intros Hp. split; [done|]. apply Hself; [|done].
         intros ->. rewrite Et in Hp. by apply no_table_posted in Hp. }
    destruct (decide (table = pl_table pl)) as [->|Ht].
    2: { assert (Hother : default no_table ((if table_is_empty (unpost (pl_leaf pl) sid t)
            then delete (pl_table pl) (si_tables ix)
            else <[pl_table pl := unpost (pl_leaf pl) sid t]> (si_tables ix)) !! table) =
            default no_table (si_tables ix !! table))
           by (destruct (table_is_empty _); by rewrite ?lookup_delete_ne, ?lookup_insert_ne by done).
         rewrite Hother. split; [|by intros [? _]]. intros Hp. split; [done|by apply Hself]. }
    pose proof (table_sorted_at ix reg (pl_table pl) H) as Hsort. rewrite Et in *; simpl in *.
    assert (Hun : posted (unpost (pl_leaf pl) sid t) sid' leaf <-> posted t sid' leaf /\ sid' <> sid).
    { split.
      - intros Hp. pose proof (posted_unpost _ _ _ _ _ Hsort Hp) as Hp'. split; [done|]. intros ->.
        eapply (posted_unpost_self t (pl_leaf pl) sid Hsort), posted_norm; [|exact Hp].
        pose proof (si_posted _ _ H (pl_table pl) sid leaf) as Hx. rewrite Et in Hx; simpl in Hx.
        apply Hx in Hp' as (pl' & Hpl' & _ & Hn). rewrite Hn. congruence.
      - intros [Hp Hs]. by apply posted_unpost_ne. }
    destruct (table_is_empty _) eqn:Hemp.
    - rewrite lookup_delete_eq; simpl. rewrite <- Hun. split; [by intros ?%no_table_posted|].
      by intros ?%(table_is_empty_posted _ _ _ Hemp).
    - rewrite lookup_insert_eq; simpl. done. }
  split; simpl.
  - unfold tables. pose proof (si_sorted _ _ H) as Hs. destruct (si_tables ix !! pl_table pl) as [t|] eqn:Et; [|done].
    destruct (table_is_empty _); [by apply map_Forall_delete|].
    apply map_Forall_insert_2; [|done]. apply unpost_sorted. by eapply Hs.
  - intros id' sid'. rewrite lookup_delete_Some, (si_numbers _ _ H). split.
    + intros (Hid & H0 & Hr). split; [done|]. rewrite list_lookup_insert_ne; [done|].
      intros E. apply Z2Nat.inj in E; [|lia..]. subst. congruence.
    + intros [H0 Hr]. destruct (decide (sid' = sid)) as [->|Hs].
      * by rewrite list_lookup_insert_eq in Hr.
      * rewrite list_lookup_insert_ne in Hr by (symmetry; auto). split_and!; try done. intros <-.
        assert (si_forward ix !! id = Some sid') by by apply (si_numbers _ _ H).
        assert (si_forward ix !! id = Some sid) by by apply (si_numbers _ _ H). congruence.
  - intros sid'. rewrite elem_of_cons, (si_freed _ _ H). split.
    + intros [->|[H0 Hr]]; [by rewrite list_lookup_insert_eq|]. split; [done|].
      rewrite list_lookup_insert_ne; [done|]. intros E. rewrite E in Hrev. congruence.
    + intros [H0 Hr]. destruct (decide (sid' = sid)) as [->|Hs]; [by left|right].
      split; [done|]. by rewrite list_lookup_insert_ne in Hr by (symmetry; auto).
  - constructor; [|apply (si_free_nodup _ _ H)]. rewrite (si_freed _ _ H). intros [_ ?]. congruence.
  - intros id' sid' [Hid Hf]%lookup_delete_Some.
    destruct (si_where _ _ H id' sid' Hf) as (pl' & pred' & Hp' & Hr' & Hl').
    exists pl', pred'. rewrite (lookup_delete_ne reg) by done. rewrite lookup_delete_ne; [done|].
    intros <-. apply Hid. eapply numbers_inj; [exact H| |exact Hf]. by apply (si_numbers _ _ H).
  - intros sid' pl' [Hs Hp]%lookup_delete_Some. destruct (si_only _ _ H _ _ Hp) as [id' Hf].
    exists id'. rewrite lookup_delete_ne; [done|]. intros <-.
    assert (si_forward ix !! id = Some sid) by by apply (si_numbers _ _ H). congruence.
  - intros id' [x [Hid Hx]%lookup_delete_Some]. rewrite lookup_delete_ne by done. apply (si_all _ _ H). eauto.
  - intros table sid' leaf. rewrite Htab, (si_posted _ _ H). setoid_rewrite lookup_delete_Some. naive_solver.
Qed.

(** Minting a number. *)
Lemma intern_spec ix reg id :
  shapes_indexed ix reg -> reg !! id = None -> si_forward ix !! id = None ->
  Z.of_nat (length (si_reverse (intern id ix).1)) <= u32_max + 1 ->
  let '(ix', sid) := intern id ix in
  0 <= sid /\ si_placed ix !! sid = None /\ si_tables ix' = si_tables ix /\ si_placed ix' = si_placed ix /\
  si_forward ix' = <[id := sid]> (si_forward ix) /\
  (forall id' sid', <[id := sid]> (si_forward ix) !! id' = Some sid' <->
     0 <= sid' /\ si_reverse ix' !! Z.to_nat sid' = Some (Some id')) /\
  (forall sid', sid' ∈ si_free ix' <-> 0 <= sid' /\ si_reverse ix' !! Z.to_nat sid' = Some None) /\
  NoDup (si_free ix').
Proof.
  intros H Hreg Hfw. unfold intern.
  assert (Hplaced : forall sid, (forall id', si_reverse ix !! Z.to_nat sid <> Some (Some id')) ->
                      si_placed ix !! sid = None).
  { intros sid Hs. destruct (si_placed ix !! sid) as [pl|] eqn:E; [|done].
    destruct (si_only _ _ H _ _ E) as [id' [_ Hr]%(si_numbers _ _ H)]. by apply Hs in Hr. }
  pose proof (si_free_nodup _ _ H) as Hnd. pose proof (si_freed _ _ H) as Hfree.
  destruct (si_free ix) as [|sid free]; simpl.
  - rewrite length_app; simpl. intros Hs. rewrite Z.mod_small by lia.
    set (n := length (si_reverse ix)) in *. split_and!; try done; [lia| | |].
    + apply Hplaced. intros id'. rewrite Nat2Z.id, lookup_ge_None_2 by done. done.
    + intros id' sid'. rewrite lookup_insert_Some, (si_numbers _ _ H), lookup_snoc_Some. fold n. split.
      * intros [[-> <-]|(Hid & H0 & Hr)]; [by split; [lia|right; rewrite Nat2Z.id]|].
        split; [done|]. left. split; [by eapply lookup_lt_Some|done].
      * intros [H0 [[Hl Hr]|[Hl [= ->]]]]; [|left; split; [done|lia]].
        right. split_and!; try done. intros <-.
        assert (si_forward ix !! id = Some sid') by by apply (si_numbers _ _ H). congruence.
    + intros sid'. split; [by intros ?%not_elem_of_nil|]. rewrite lookup_snoc_Some.
      intros [H0 [[_ Hr]|[_ ?]]]; [|done]. by apply Hfree.
  - intros _. destruct (proj1 (Hfree sid)) as [Hs0 Hrev]; [left|].
    apply NoDup_cons in Hnd as [Hnin Hnd].
    pose proof (lookup_lt_Some _ _ _ Hrev) as Hlt. split_and!; try done.
    + apply Hplaced. intros id'. by rewrite Hrev.
    + intros id' sid'. rewrite lookup_insert_Some, (si_numbers _ _ H). split.
      * intros [[-> <-]|(Hid & H0 & Hr)]; [by rewrite list_lookup_insert_eq|]. split; [done|].
        rewrite list_lookup_insert_ne; [done|]. intros E. rewrite E in Hrev. congruence.
      * intros [H0 Hr]. destruct (decide (sid' = sid)) as [->|Hne].
        { rewrite list_lookup_insert_eq in Hr by done. injection Hr as ->. by left. }
        rewrite list_lookup_insert_ne in Hr by lia. right. split_and!; try done. intros <-.
        assert (si_forward ix !! id = Some sid') by by apply (si_numbers _ _ H). congruence.
    + intros sid'. split.
      * intros Hin. destruct (proj1 (Hfree sid')) as [H0 Hr]; [by right|]. split; [done|].
        rewrite list_lookup_insert_ne; [done|]. intros E. apply Z2Nat.inj in E; [|lia..]. by subst.
      * intros [H0 Hr]. destruct (decide (sid' = sid)) as [->|Hne]; [by rewrite list_lookup_insert_eq in Hr|].
        rewrite list_lookup_insert_ne in Hr by lia.
        assert (sid' ∈ sid :: free) as [|]%elem_of_cons by (by apply Hfree); done.
Qed.

Lemma shape_index_insert_ok ix reg id table pred :
  shapes_indexed ix reg ->
  Z.of_nat (length (si_reverse (shape_index_insert id table pred ix))) <= u32_max + 1 ->
  shapes_indexed (shape_index_insert id table pred ix) (<[id := (table, pred)]> reg).
Proof.
  intros H%(shape_index_remove_ok _ _ id). unfold shape_index_insert.
  rewrite <- insert_delete_eq. set (ix0 := shape_index_remove id ix) in *. clearbody ix0.
  set (reg0 := delete id reg) in *. assert (Hreg : reg0 !! id = None) by apply lookup_delete_eq.
  clearbody reg0. intros Hlen.
  assert (Hfw : si_forward ix0 !! id = None).
  { destruct (si_forward ix0 !! id) as [sid|] eqn:E; [|done].
    destruct (si_where _ _ H _ _ E) as (? & ? & _ & ? & _). congruence. }
  pose proof (intern_spec ix0 reg0 id H Hreg Hfw) as Hi.
  destruct (intern id ix0) as [ix1 sid]; simpl in *.
  destruct (Hi Hlen) as (Hs0 & Hpl & Ht & Hp & Hf & Hnum & Hfree & Hnd). clear Hi. rewrite Ht, Hp, Hf in *.
  pose proof (table_sorted_at ix0 reg0 table H) as Hsort.
  split; simpl; try done.
  - apply map_Forall_insert_2; [by apply post_sorted|apply (si_sorted _ _ H)].
  - intros id' sid'. rewrite lookup_insert_Some. intros [[<- <-]|[Hid Hf']].
    + exists (MkPlacement table (access_leaf pred)), pred. by rewrite !lookup_insert_eq.
    + destruct (si_where _ _ H id' sid' Hf') as (pl' & pred' & Hp' & Hr' & Hl').
      exists pl', pred'. rewrite !lookup_insert_ne; [done|done|]. intros <-. congruence.
  - intros sid' pl'. rewrite lookup_insert_Some. intros [[<- _]|[Hs Hp']].
    + exists id. by rewrite lookup_insert_eq.
    + destruct (si_only _ _ H _ _ Hp') as [id' Hf']. exists id'. rewrite lookup_insert_ne; [done|].
      intros <-. congruence.
  - intros id'. destruct (decide (id' = id)) as [->|Hid]; [rewrite !lookup_insert_eq; eauto|].
    rewrite !lookup_insert_ne by done. apply (si_all _ _ H).
  - intros table' sid' leaf. destruct (decide (table' = table)) as [->|Hta].
    + rewrite lookup_insert_eq; simpl. rewrite posted_post by done. rewrite (si_posted _ _ H). split.
      * intros [(pl & Hpl' & Htb & Hn)|[-> Hn]].
        -- exists pl. rewrite lookup_insert_ne by congruence. done.
        -- eexists. rewrite lookup_insert_eq. done.
      * intros (pl & [[<- <-]|[Hs Hpl']]%lookup_insert_Some & Htb & Hn); [by right|left].
        by exists pl.
    + rewrite lookup_insert_ne by done. rewrite (si_posted _ _ H). split.
      * intros (pl & Hpl' & Htb & Hn). exists pl. rewrite lookup_insert_ne by congruence. done.
      * intros (pl & [[<- <-]|[Hs Hpl']]%lookup_insert_Some & Htb & Hn); [by destruct Hta|]. by exists pl.
Qed.

(** ** Candidates *)

Lemma range_postings_spec cell range sid :
  sid ∈ range_postings cell range <->
  exists v b s, (v, b) ∈ range /\ sid ∈ side s b /\ (value_eqb v cell && s) = false.
Proof.
  unfold range_postings. rewrite elem_of_union_list. split.
  - intros (X & ([v b] & -> & Hin)%list_elem_of_fmap & Hs). simpl in Hs.
    apply elem_of_union in Hs as [Hs|Hs].
    + destruct (value_eqb v cell) eqn:E; [set_solver|]. exists v, b, true. by rewrite E.
    + exists v, b, false. by rewrite andb_false_r.
  - intros (v & b & s & Hin & Hs & Hc). eexists. split; [by apply list_elem_of_fmap_2|]. simpl.
    destruct s; simpl in Hs; [|set_solver]. rewrite andb_true_r in Hc. rewrite Hc. set_solver.
Qed.

Lemma bound_at_elem m c v s sid :
  postings_sorted m ->
  sid ∈ side s (bound_at m c v) <->
  exists bt v' b, m !! c = Some bt /\ (v', b) ∈ bt /\ value_cmp v v' = Eq /\ sid ∈ side s b.
Proof.
  intros Hs. unfold bound_at. destruct (m !! c) as [bt|] eqn:Em; simpl.
  2: { split; [destruct s; simpl; set_solver|naive_solver]. }
  assert (Hb : bt_sorted value_cmp bt) by by eapply Hs. split.
  - destruct (bt_lookup value_cmp v bt) as [b|] eqn:E; simpl; [|destruct s; simpl; set_solver].
    apply (bt_lookup_elem value_cmp) in E as (v' & ? & ?); [|done]. naive_solver.
  - intros (bt' & v' & b & [= <-] & Hin & Hc & Hsd).
    by rewrite (proj2 (bt_lookup_elem value_cmp v b bt Hb)) by eauto.
Qed.

(** The ordered half of a row's candidates: a scan of one side of the bounds finds exactly the
    numbers of the literals the cell is past. *)
Lemma range_scan_spec (m : Postings) (row : Row) (sid : Z)
    (range : Value -> btree Value Bound -> btree Value Bound) (ok : Value -> Value -> bool -> Prop) :
  postings_sorted m ->
  (forall c v b bt, (v, b) ∈ range c bt -> (v, b) ∈ bt) ->
  (forall c v v' s, value_cmp v v' = Eq -> ok c v s -> ok c v' s) ->
  (forall c v s b bt, (v, b) ∈ bt -> ok c v s <-> (v, b) ∈ range c bt /\ (value_eqb v c && s) = false) ->
  sid ∈ ⋃ ((λ cb : nat * btree Value Bound,
              match row !! cb.1 with
              | Some cell => if value_is_null cell then ∅ else range_postings cell (range cell cb.2)
              | None => ∅
              end) <$> map_to_list m) <->
  exists col c v s, row !! col = Some c /\ value_is_null c = false /\
    sid ∈ side s (bound_at m col v) /\ ok c v s.
Proof.
  intros Hm Hsub Hprop Hok. rewrite elem_of_union_list. split.
  - intros (X & ([col bt] & -> & Hin%elem_of_map_to_list)%list_elem_of_fmap & Hs). simpl in Hs.
    destruct (row !! col) as [c|] eqn:Hc; [|set_solver].
    destruct (value_is_null c) eqn:Hn; [set_solver|].
    apply range_postings_spec in Hs as (v & b & s & Hr & Hs & He).
    exists col, c, v, s. split_and!; [done..| |].
    + apply bound_at_elem; [done|]. exists bt, v, b. split_and!; [done|by eapply Hsub| |done].
      apply value_cmp_refl.
    + apply (Hok c v s b bt); [by eapply Hsub|done].
  - intros (col & c & v & s & Hc & Hn & Hb & Hsd).
    apply bound_at_elem in Hb as (bt & v' & b & Hm' & Hin & Hcmp & Hs); [|done].
    eexists. split; [apply list_elem_of_fmap_2, elem_of_map_to_list, Hm'|]. simpl. rewrite Hc, Hn.
    apply range_postings_spec. exists v', b, s.
    destruct (proj1 (Hok c v' s b bt Hin) (Hprop _ _ _ _ Hcmp Hsd)) as [? ?]. by split_and!.
Qed.

(** A row is past the bound of a leaf, or has its literal. *)
Definition leaf_holds (row : Row) (l : AccessLeaf) : Prop :=
  match l with
  | LEq col v => row !! col = Some v
  | LLower col v s => exists c, row !! col = Some c /\ value_is_null c = false /\
      (value_cmp c v = Gt \/ (s = false /\ value_cmp c v = Eq))
  | LUpper col v s => exists c, row !! col = Some c /\ value_is_null c = false /\
      (value_cmp c v = Lt \/ (s = false /\ value_cmp c v = Eq))
  end.

Lemma row_postings_spec t row sid :
  table_sorted t ->
  sid ∈ row_postings t row <-> exists l, posted t sid (Some l) /\ leaf_holds row l.
Proof.
  intros [Hl Hu]. unfold row_postings. rewrite !elem_of_union.
  rewrite (range_scan_spec (ti_lower t) row sid (bt_range_to value_cmp)
    (λ c v s, value_cmp c v = Gt \/ (s = false /\ value_cmp c v = Eq)) Hl).
  rewrite (range_scan_spec (ti_upper t) row sid (bt_range_from value_cmp)
    (λ c v s, value_cmp c v = Lt \/ (s = false /\ value_cmp c v = Eq)) Hu).
  2, 5: intros c v b bt; unfold bt_range_to, bt_range_from; rewrite list_elem_of_filter; by intros [_ ?].
  2, 4: intros c v v' s He; by rewrite !(cmp_eq_subst_r value_cmp v v' c).
  2: { intros c v s b bt Hin. unfold bt_range_from. rewrite list_elem_of_filter. simpl.
       pose proof (range_from_side v c s). naive_solver. }
  2: { intros c v s b bt Hin. unfold bt_range_to. rewrite list_elem_of_filter. simpl.
       pose proof (range_to_side v c s). naive_solver. }
  rewrite elem_of_union_list. split.
  - intros [[(X & ([col bv] & -> & Hin%elem_of_map_to_list)%list_elem_of_fmap & Hs)|H]|H].
    + simpl in Hs. destruct (row !! col) as [c|] eqn:Hc; [|set_solver].
      exists (LEq col c). split; [|done]. simpl. unfold eq_at. by rewrite Hin.
    + destruct H as (col & c & v & s & ?). exists (LLower col v s). simpl. naive_solver.
    + destruct H as (col & c & v & s & ?). exists (LUpper col v s). simpl. naive_solver.
  - intros ([col v|col v s|col v s] & Hp & Hh); simpl in *.
    + left; left. unfold eq_at in Hp. destruct (ti_eq t !! col) as [bv|] eqn:E; simpl in Hp; [|set_solver].
      eexists. split; [apply list_elem_of_fmap_2, elem_of_map_to_list, E|]. simpl. by rewrite Hh.
    + left; right. destruct Hh as (c & ?). exists col, c, v, s. naive_solver.
    + right. destruct Hh as (c & ?). exists col, c, v, s. naive_solver.
Qed.

(** Up to the equality of literals, holding is what the leaf admits. *)
Lemma leaf_holds_admits row l l' :
  leaf_norm l = leaf_norm l' -> value_is_null (leaf_value l') = false ->
  leaf_holds row l -> leaf_admits l' row.
Proof.
  destruct l as [c v|c v s|c v s], l' as [c' v'|c' v' s'|c' v' s']; simpl; try done.
  - intros [= -> Hv] Hn Hc. rewrite (cell_Some row c' v) by done. split; [|by apply value_eqb_vkey].
    destruct v; [|done..]. by destruct v' as [| | | |[]].
  - intros [= -> Hv ->] Hn (x & Hc & Hnull & Hs). rewrite (cell_Some row c' x) by done.
    rewrite !(cmp_eq_subst_r value_cmp v' v x) by (apply value_cmp_Eq_vkey; symmetry; exact Hv).
    split; [done|]. naive_solver.
  - intros [= -> Hv ->] Hn (x & Hc & Hnull & Hs). rewrite (cell_Some row c' x) by done.
    rewrite !(cmp_eq_subst_r value_cmp v' v x) by (apply value_cmp_Eq_vkey; symmetry; exact Hv).
    split; [done|]. naive_solver.
Qed.

Lemma leaf_admits_holds row l :
  leaf_admits l row -> exists l', leaf_norm l' = leaf_norm l /\ leaf_holds row l'.
Proof.
  destruct l as [c v|c v s|c v s]; simpl; intros [Hnull Ha]; pose proof (cell_present _ _ Hnull) as Hc.
  - exists (LEq c (cell row c)). simpl. split; [|done]. f_equal. by apply value_eqb_vkey.
  - exists (LLower c v s). split; [done|]. by exists (cell row c).
  - exists (LUpper c v s). split; [done|]. by exists (cell row c).
Qed.

(** The numbers filed where a delta looks. *)
Definition candidate_numbers (ix : SubqueryShapeIndex) (table : str) (delta : Delta) : bitmap :=
  ti_scan (default no_table (si_tables ix !! table)) ∪
  ⋃ ((λ rw : Row * Z, row_postings (default no_table (si_tables ix !! table)) rw.1) <$> delta).

Lemma candidate_numbers_spec ix reg table delta sid : shapes_indexed ix reg ->
  sid ∈ candidate_numbers ix table delta <->
  exists pl, si_placed ix !! sid = Some pl /\ pl_table pl = table /\
    match pl_leaf pl with
    | None => True
    | Some l => exists l' row w, leaf_norm l' = leaf_norm l /\ (row, w) ∈ delta /\ leaf_holds row l'
    end.
Proof.
  intros H. unfold candidate_numbers.
  pose proof (si_posted _ _ H table sid) as Hp.
  pose proof (table_sorted_at ix reg table H) as Hsort.
  set (t := default no_table (si_tables ix !! table)) in *. clearbody t.
  rewrite elem_of_union, elem_of_union_list. split.
  - intros [Hs|(X & ([row w] & -> & Hin)%list_elem_of_fmap & Hs)].
    + destruct (proj1 (Hp None) Hs) as (pl & Hpl & Ht & Hn). exists pl. split_and!; try done.
      by destruct (pl_leaf pl).
    + apply row_postings_spec in Hs as (l & Hl & Hh); [|done].
      destruct (proj1 (Hp _) Hl) as (pl & Hpl & Ht & Hn). exists pl. split_and!; try done.
      destruct (pl_leaf pl) as [l'|]; [|done]. simpl in Hn. injection Hn as Hn. by exists l, row, w.
  - intros (pl & Hpl & Ht & Hl). destruct (pl_leaf pl) as [l|] eqn:El.
    + right. destruct Hl as (l' & row & w & Hn & Hin & Hh).
      eexists. split; [by apply list_elem_of_fmap_2|]. apply row_postings_spec; [done|].
      exists l'. split; [|done]. apply Hp. exists pl. rewrite El; simpl. by rewrite Hn.
    + left. apply (Hp None). exists pl. by rewrite El.
Qed.

Lemma shape_candidates_unfold ix table delta : shape_candidates ix table delta =
  match si_tables ix !! table with
  | None => []
  | Some _ => omap (λ sid, mjoin (si_reverse ix !! Z.to_nat sid))
                (stable_sort Z.leb (elements (candidate_numbers ix table delta)))
  end.
Proof. unfold shape_candidates, candidate_numbers. by destruct (si_tables ix !! table). Qed.

Lemma NoDup_omap {A B : Type} (f : A -> option B) (l : list A) :
  (forall x y z, x ∈ l -> y ∈ l -> f x = Some z -> f y = Some z -> x = y) -> NoDup l -> NoDup (omap f l).
Proof.
  intros Hf Hnd. induction Hnd as [|x l Hx Hnd IH]; csimpl; [constructor|].
  assert (Hl : NoDup (omap f l)) by (apply IH; intros; eapply Hf; [by right|by right|done|done]).
  destruct (f x) as [z|] eqn:E; [|done]. constructor; [|done].
  intros (y & Hy & Hz)%list_elem_of_omap. apply Hx. by rewrite (Hf x y z) by (done || (by left) || (by right)).
Qed.

(** No shape is visited twice. *)
Lemma shape_candidates_nodup ix reg table delta : shapes_indexed ix reg -> NoDup (shape_candidates ix table delta).
Proof.
  intros H. rewrite shape_candidates_unfold. destruct (si_tables ix !! table); [|constructor].
  assert (Hin : forall sid, sid ∈ stable_sort Z.leb (elements (candidate_numbers ix table delta)) ->
            exists id, si_forward ix !! id = Some sid).
  { intros sid. rewrite stable_sort_perm, elem_of_elements, (candidate_numbers_spec ix reg) by done.
    intros (pl & Hpl & _). by apply (si_only _ _ H) in Hpl. }
  apply NoDup_omap.
  - intros x y z [ix' Hx]%Hin [iy Hy]%Hin Ez Ez'.
    apply (si_numbers _ _ H) in Hx as [Hx0 Hx], Hy as [Hy0 Hy]. rewrite Hx in Ez. rewrite Hy in Ez'.
    simpl in *. injection Ez as ->. injection Ez' as ->.
    assert (si_forward ix !! z = Some x) by (by apply (si_numbers _ _ H)).
    assert (si_forward ix !! z = Some y) by (by apply (si_numbers _ _ H)). congruence.
  - rewrite stable_sort_perm. apply NoDup_elements.
Qed.

Lemma shape_candidates_ok ix reg table delta id :
  shapes_indexed ix reg ->
  id ∈ shape_candidates ix table delta <->
  exists pred, reg !! id = Some (table, pred) /\
    match access_leaf pred with
    | None => True
    | Some l => exists row w, (row, w) ∈ delta /\ leaf_admits l row
    end.
Proof.
  intros H. pose proof (λ sid, candidate_numbers_spec ix reg table delta sid H) as Hmain. unfold candidate_numbers in Hmain.
  assert (Hcand : forall id, id ∈ shape_candidates ix table delta <->
    exists sid, si_forward ix !! id = Some sid /\
      sid ∈ ti_scan (default no_table (si_tables ix !! table)) ∪
      ⋃ ((λ rw : Row * Z, row_postings (default no_table (si_tables ix !! table)) rw.1) <$> delta)).
  { intros id'. unfold shape_candidates. destruct (si_tables ix !! table) as [t|] eqn:Et; simpl.
    - rewrite list_elem_of_omap. setoid_rewrite stable_sort_perm. setoid_rewrite elem_of_elements. split.
      + intros (sid & Hin & Hr). exists sid. split; [|done].
        apply Hmain in Hin as (pl & Hpl & _). apply (si_only _ _ H) in Hpl as [id2 Hf].
        pose proof Hf as [_ Hr2]%(si_numbers _ _ H). rewrite Hr2 in Hr. simpl in Hr. by injection Hr as ->.
      + intros (sid & Hf & Hin). exists sid. split; [done|].
        apply (si_numbers _ _ H) in Hf as [_ ->]. done.
    - split; [by intros ?%not_elem_of_nil|]. intros (sid & Hf & Hin). exfalso.
      rewrite elem_of_union, elem_of_union_list in Hin. destruct Hin as [Hin|(X & (rw & -> & _)%list_elem_of_fmap & Hin)].
      + by apply (no_table_posted sid None) in Hin.
      + apply row_postings_spec in Hin as (l & Hl & _); [by apply no_table_posted in Hl|].
        split; apply map_Forall_empty. }
  rewrite Hcand. setoid_rewrite Hmain. split.
  - intros (sid & Hf & pl & Hpl & Ht & Hl).
    destruct (si_where _ _ H _ _ Hf) as (pl' & pred & Hpl' & Hr & Hleaf).
    rewrite Hpl in Hpl'. injection Hpl' as <-. rewrite Ht in Hr. exists pred. split; [done|].
    rewrite <- Hleaf. destruct (pl_leaf pl) as [l|] eqn:El; [|done].
    destruct Hl as (l' & row & w & Hn & Hin & Hh). exists row, w. split; [done|].
    eapply leaf_holds_admits; [exact Hn| |exact Hh]. by eapply access_leaf_nonnull.
  - intros (pred & Hr & Hl). destruct (si_all _ _ H id) as [sid Hf]; [by rewrite Hr|].
    destruct (si_where _ _ H _ _ Hf) as (pl & pred' & Hpl & Hr' & Hleaf). simplify_eq.
    exists sid. split; [done|]. exists pl. split; [done|]. split; [done|]. rewrite Hleaf.
    destruct (access_leaf _) as [l|]; [|done].
    destruct Hl as (row & w & Hin & (l' & Hn & Hh)%leaf_admits_holds). by exists l', row, w.
Qed.

Lemma has_table_ok ix reg id table pred :
  shapes_indexed ix reg -> reg !! id = Some (table, pred) -> has_table ix table = true.
Proof.
  intros H Hr. apply bool_decide_eq_true. destruct (si_all _ _ H id) as [sid Hf]; [by rewrite Hr|].
  destruct (si_where _ _ H _ _ Hf) as (pl & pred' & Hpl & Hr' & Hleaf).
  rewrite Hr in Hr'. simplify_eq. destruct (si_tables ix !! pl_table pl) eqn:E; [done|].
  assert (posted (default no_table (si_tables ix !! pl_table pl)) sid (pl_leaf pl)) as Hp
    by (apply (si_posted _ _ H); by exists pl).
  rewrite E in Hp. by apply no_table_posted in Hp.
Qed.

(** ** Any history of registrations *)

Inductive ShapeIndexOp := SxInsert (id table : str) (pred : CompiledPredicate) | SxRemove (id : str).

Definition shape_index_op (ix : SubqueryShapeIndex) (op : ShapeIndexOp) : SubqueryShapeIndex :=
  match op with
  | SxInsert id table pred => shape_index_insert id table pred ix
  | SxRemove id => shape_index_remove id ix
  end.
Definition registered_op (reg : Registered) (op : ShapeIndexOp) : Registered :=
  match op with
  | SxInsert id table pred => <[id := (table, pred)]> reg
  | SxRemove id => delete id reg
  end.

Lemma shape_index_remove_length id ix : length (si_reverse (shape_index_remove id ix)) = length (si_reverse ix).
Proof.
  unfold shape_index_remove. destruct (_ !! id); [|done]. destruct (_ !! _); [|done]. simpl.
  apply length_insert.
Qed.

Lemma shape_index_op_length ix op : (length (si_reverse ix) <= length (si_reverse (shape_index_op ix op)))%nat.
Proof.
  destruct op as [id table pred|id]; simpl; [|by rewrite shape_index_remove_length].
  rewrite <- (shape_index_remove_length id ix). unfold shape_index_insert, intern.
  destruct (si_free _); simpl; rewrite ?length_app, ?length_insert; lia.
Qed.

Lemma shape_index_ops_ok ops :
  Z.of_nat (length (si_reverse (foldl shape_index_op shape_index_empty ops))) <= u32_max + 1 ->
  shapes_indexed (foldl shape_index_op shape_index_empty ops) (foldl registered_op ∅ ops).
Proof.
  induction ops as [|op ops IH] using rev_ind; intros Hlen; [apply shapes_indexed_empty|].
  rewrite !foldl_snoc in *.
  pose proof (shape_index_op_length (foldl shape_index_op shape_index_empty ops) op) as Hle.
  specialize (IH ltac:(lia)). destruct op as [id table pred|id]; simpl in *.
  - by apply shape_index_insert_ok.
  - by apply shape_index_remove_ok.
Qed.

(** The subquery index answers exactly, whatever was registered, replaced and removed before
    and however numbers were reused: the candidates of a delta are the shapes now registered on
    its table that have no indexed conjunct or whose conjunct admits some image of the delta, old or
    new; a table it does not know has no shape. *)
Theorem shape_candidates_spec (ops : list ShapeIndexOp) (table : str) (delta : Delta) (id : str) :
  let ix := foldl shape_index_op shape_index_empty ops in
  let reg := foldl registered_op ∅ ops in
  Z.of_nat (length (si_reverse ix)) <= u32_max + 1 ->
  (id ∈ shape_candidates ix table delta <->
   exists pred, reg !! id = Some (table, pred) /\
     match access_leaf pred with
     | None => True
     | Some l => exists row w, (row, w) ∈ delta /\ leaf_admits l row
     end) /\
  (has_table ix table = false -> forall pred, reg !! id <> Some (table, pred)).
Proof.
  intros ix reg Hlen. pose proof (shape_index_ops_ok ops Hlen) as H. fold ix reg in H.
  split; [by apply shape_candidates_ok|]. intros Hh pred Hr.
  rewrite (has_table_ok _ _ _ _ _ H Hr) in Hh. done.
Qed.
