(* ===== verification/SubqCircuit.v ===== *)
(** * Membership state: the circuit and the feed sets ([subq_circuit.rs], [subq_feed.rs])

    The contributors of every subquery node live in one dbsp relation, an upsert map from
    [(node id, primary-key id)] to the projected value; the circuit maps it to [(node id, value)],
    publishes that as the membership snapshot, and its [distinct] reports which values entered or
    left a node's set.  dbsp is outside the repository: an interface ([MembershipPipeline]) with the
    documented behaviour of the operators the circuit is built from ([MembershipLaws]).  Modelled
    here is what the source does around it: reading the published snapshots through their cursors,
    draining the output, and the keys delivered to each feed.

    Profiling, spilling and shutdown keep no state of the engine and are left out. *)

From S2P Require Import Prelude BTree Value.
From stdpp Require Import base option numbers strings gmap fin_maps sorting list.
#[local] Open Scope Z_scope.

(** [PkKey { id, pk }]. *)
Abbreviation PkKey := (Z * Z)%type.

(** [dbsp::operator::Update<Value, Value>], as far as it is used. *)
Inductive Assert := AInsert (v : Value) | ADelete.

Record MemberDelta := MkMemberDelta { md_node_id : Z; md_value : Value; md_delta : Z }.

(** [derive(Ord)] of [Row] and of [PkKey]. *)
Fixpoint row_cmp (a b : Row) : comparison :=
  match a, b with
  | [], [] => Eq
  | [], _ :: _ => Lt
  | _ :: _, [] => Gt
  | x :: a', y :: b' => match value_cmp x y with Eq => row_cmp a' b' | c => c end
  end.
Definition pk_key_cmp (a b : PkKey) : comparison := zlist_cmp [a.1; a.2] [b.1; b.2].

(** The circuit: a step fed with a batch of assertions yields the distinct's output, or fails; the
    two published snapshots, as their cursors walk them. *)
Class MembershipPipeline (D : Type) := {
  mp_start : D;
  mp_transaction : D -> list (PkKey * Assert) -> D * option (btree Row Z);
  mp_members : D -> btree Row Z;
  mp_contributors : D -> btree PkKey (list (Value * Z))
}.

Section circuit.
Context {D : Type} {MP : MembershipPipeline D}.

(** [drain_flips]. *)
Definition drain_flips (out : btree Row Z) : list MemberDelta :=
  omap (λ e : Row * Z,
          if e.2 =? 0 then None
          else match e.1 with
               | VInt node :: rest => Some (MkMemberDelta node (default VNull (head rest)) e.2)
               | _ => None
               end) out.

(** [MembershipCircuit::apply], and the thread's [Batch] command. *)
Definition circuit_apply (d : D) (asserts : list (PkKey * Assert)) : D * list MemberDelta :=
  if bool_decide (length asserts = 0%nat) then (d, [])
  else match mp_transaction d asserts with
       | (d', Some out) => (d', drain_flips out)
       | (d', None) => (d', [])
       end.

(** [contains]: seek the key, compare it, and look at its weight. *)
Definition circuit_contains (d : D) (node : Z) (v : Value) : bool :=
  0 <? default 0 (bt_lookup row_cmp [VInt node; v] (mp_members d)).

(** The first value with a positive weight, in [map_slice]. *)
Definition present_value (vs : list (Value * Z)) : option Value :=
  fst <$> head (filter (λ vw : Value * Z, 0 < vw.2) vs).

(** [map_slice]: seek the id's least key, then walk while the id matches. *)
Fixpoint walk_slice (id : Z) (m : btree PkKey (list (Value * Z))) : list (Z * Value) :=
  match m with
  | [] => []
  | (k, vs) :: m' =>
      if k.1 =? id then
        match present_value vs with
        | Some v => (k.2, v) :: walk_slice id m'
        | None => walk_slice id m'
        end
      else []
  end.
Fixpoint seek_slice (id : Z) (m : btree PkKey (list (Value * Z))) : btree PkKey (list (Value * Z)) :=
  match m with
  | [] => []
  | (k, vs) :: m' => match pk_key_cmp k (id, 0) with Lt => seek_slice id m' | _ => m end
  end.
Definition contributor_entries (d : D) (node : Z) : list (Z * Value) :=
  walk_slice node (seek_slice node (mp_contributors d)).
End circuit.

(* ------------------------------------------------------------------ *)
(** ** Feed sets *)

Abbreviation FeedSet := (gmap Z (gset Z)).

(** [FeedSet::insert], [remove] (with its answer, the delete gate) and [drop_feed]. *)
Definition feed_insert (feed pk : Z) (f : FeedSet) : FeedSet :=
  <[feed := {[ pk ]} ∪ default ∅ (f !! feed)]> f.
Definition feed_remove (feed pk : Z) (f : FeedSet) : FeedSet * bool :=
  match f !! feed with
  | Some bm => (<[feed := bm ∖ {[ pk ]}]> f, bool_decide (pk ∈ bm))
  | None => (f, false)
  end.
Definition drop_feed (feed : Z) (f : FeedSet) : FeedSet := delete feed f.

(* ================================================================== *)
(** * What dbsp documents *)

(** One update of an upsert map; values are up to the equality of the relation. *)
Definition assert_one (m : gmap PkKey Value) (a : PkKey * Assert) : gmap PkKey Value :=
  match a.2 with AInsert v => <[a.1 := vkey v]> m | ADelete => delete a.1 m end.

(** The contributors of a node that project to a value. *)
Definition supporters (held : gmap PkKey Value) (node : Z) (v : Value) : gmap PkKey Value :=
  filter (λ kv : PkKey * Value, kv.1.1 = node /\ kv.2 = vkey v) held.
Definition supported (held : gmap PkKey Value) (node : Z) (v : Value) : bool :=
  bool_decide (supporters held node v <> ∅).

Class MembershipLaws (D : Type) `{MembershipPipeline D} := {
  (* [add_input_map]: the relation is the fold of the updates *)
  mp_held : D -> gmap PkKey Value;
  held_start : mp_held mp_start = ∅;
  held_step : forall d asserts d' out, mp_transaction d asserts = (d', Some out) ->
    mp_held d' = foldl assert_one (mp_held d) asserts;
  (* [map] and [integrate_trace]: one tuple per contributor, weights added up *)
  members_sorted : forall d, bt_sorted row_cmp (mp_members d);
  members_weight : forall d node v,
    default 0 (bt_lookup row_cmp [VInt node; v] (mp_members d)) =
    Z.of_nat (size (supporters (mp_held d) node v));
  (* the integral of the map itself *)
  contributors_sorted : forall d, bt_sorted pk_key_cmp (mp_contributors d);
  contributors_held : forall d k, mp_held d !! k =
    (vs ← bt_lookup pk_key_cmp k (mp_contributors d); vkey <$> present_value vs);
  (* [distinct]: the change of the set of keys with a positive weight *)
  output_sorted : forall d asserts d' out, mp_transaction d asserts = (d', Some out) ->
    bt_sorted row_cmp out;
  output_rows : forall d asserts d' out e, mp_transaction d asserts = (d', Some out) ->
    e ∈ out -> exists node v, e.1 = [VInt node; v];
  output_weight : forall d asserts d' out node v, mp_transaction d asserts = (d', Some out) ->
    default 0 (bt_lookup row_cmp [VInt node; v] out) =
    Z.b2z (supported (mp_held d') node v) - Z.b2z (supported (mp_held d) node v)
}.

(* ================================================================== *)
(** * Facts *)

#[export] Instance row_cmp_total : TotalCmp row_cmp.
Proof.
  split.
  - induction a as [|x a IH]; intros [|y b]; simpl; try done.
    rewrite (cmp_antisym (cmp:=value_cmp) x y). destruct (value_cmp x y); simpl; auto.
  - induction a as [|x a IH]; intros [|y b] [|z c]; simpl; try done.
    destruct (value_cmp x y) eqn:E1; try done.
    + rewrite (cmp_eq_subst (cmp:=value_cmp) x y z E1). destruct (value_cmp y z); try done. apply IH.
    + intros _. destruct (value_cmp y z) eqn:E2; try done; intros _.
      * by rewrite <- (cmp_eq_subst_r value_cmp y z x E2), E1.
      * by rewrite (cmp_lt_trans (cmp:=value_cmp) x y z).
  - induction a as [|x a IH]; intros [|y b] [|z c]; simpl; try done.
    destruct (value_cmp x y) eqn:E1; try done. intros H.
    rewrite (cmp_eq_subst (cmp:=value_cmp) x y z E1). destruct (value_cmp y z); try done. by apply IH.
Qed.

#[export] Instance pk_key_cmp_total : TotalCmp pk_key_cmp.
Proof. by apply (total_of_key (λ k : PkKey, [k.1; k.2])). Qed.

Lemma pk_key_cmp_eq a b : pk_key_cmp a b = Eq <-> a = b.
Proof. unfold pk_key_cmp. rewrite zlist_cmp_eq. destruct a, b; simpl. naive_solver. Qed.

Lemma row_cmp_eq a b : row_cmp a b = Eq <-> rkey a = rkey b.
Proof.
  revert b; induction a as [|x a IH]; intros [|y b]; simpl; try done.
  destruct (value_cmp x y) eqn:E.
  - apply value_cmp_Eq_vkey in E. rewrite IH. unfold rkey. rewrite E. split; [by intros ->|by intros [= ?]].
  - split; [done|]. intros [= Hv _]. by rewrite (proj2 (value_cmp_Eq_vkey _ _) Hv) in E.
  - split; [done|]. intros [= Hv _]. by rewrite (proj2 (value_cmp_Eq_vkey _ _) Hv) in E.
Qed.

Lemma supported_spec held node v :
  supported held node v = true <-> exists pk, held !! (node, pk) = Some (vkey v).
Proof.
  unfold supported, supporters. rewrite bool_decide_eq_true. split.
  - intros ([n pk] & w & [H [Hn Hw]]%map_lookup_filter_Some)%map_choose. simpl in *. subst. eauto.
  - intros [pk H] He. apply (f_equal (.!! (node, pk))) in He. rewrite lookup_empty in He.
    rewrite map_lookup_filter_None in He. destruct He as [He|He]; [congruence|].
    by destruct (He (vkey v) H).
Qed.

(** Folding a batch of updates whose keys are touched at most once. *)
Lemma asserts_lookup asserts : forall held k,
  foldl assert_one held asserts !! k =
  match last (filter (λ a : PkKey * Assert, a.1 = k) asserts) with
  | Some (_, AInsert v) => Some (vkey v)
  | Some (_, ADelete) => None
  | None => held !! k
  end.
Proof.
  induction asserts as [|[k' a] asserts IH] using rev_ind; intros held k; [done|].
  rewrite foldl_snoc, filter_app. simpl. rewrite filter_cons, filter_nil. simpl.
  unfold assert_one at 1; simpl. destruct (decide (k' = k)) as [->|Hne].
  - rewrite last_snoc. destruct a; [by rewrite lookup_insert_eq|by rewrite lookup_delete_eq].
  - rewrite app_nil_r, <- IH. destruct a; [by rewrite lookup_insert_ne|by rewrite lookup_delete_ne].
Qed.

Section laws.
Context {D : Type} {MP : MembershipPipeline D} {ML : MembershipLaws D}.
Implicit Types (d : D).

Lemma circuit_contains_spec d node v :
  circuit_contains d node v = supported (mp_held d) node v.
Proof.
  unfold circuit_contains, supported. rewrite members_weight. apply eq_true_iff_eq.
  rewrite Z.ltb_lt, bool_decide_eq_true. rewrite <- (map_size_non_empty_iff (supporters _ _ _)). lia.
Qed.

Lemma walk_slice_spec id m pk v :
  bt_sorted pk_key_cmp m -> Forall (λ e : PkKey * list (Value * Z), pk_key_cmp e.1 (id, 0) <> Lt) m ->
  (pk, v) ∈ walk_slice id m <-> exists vs, ((id, pk), vs) ∈ m /\ present_value vs = Some v.
Proof.
  intros Hs. induction Hs as [|[[i p] vs] m Hm IH Hall]; intros Hge; simpl.
  { split; [by intros ?%not_elem_of_nil|by intros (? & ?%not_elem_of_nil & _)]. }
  apply Forall_cons in Hge as [Hk Hge]. specialize (IH Hge). simpl in *.
  destruct (Z.eqb_spec i id) as [->|Hne].
  - setoid_rewrite elem_of_cons. destruct (present_value vs) as [w|] eqn:E.
    + rewrite elem_of_cons, IH. naive_solver.
    + rewrite IH. naive_solver.
  - split; [by intros ?%not_elem_of_nil|]. intros (vs' & [[= -> _]|Hin]%elem_of_cons & _); [done|].
    exfalso. rewrite Forall_forall in Hall. specialize (Hall _ Hin). simpl in Hall.
    unfold pk_key_cmp in *; simpl in *. destruct (Z.compare_spec i id), (Z.compare_spec i id); try lia; try done.
Qed.

Lemma seek_slice_spec id m :
  bt_sorted pk_key_cmp m ->
  bt_sorted pk_key_cmp (seek_slice id m) /\
  Forall (λ e : PkKey * list (Value * Z), pk_key_cmp e.1 (id, 0) <> Lt) (seek_slice id m) /\
  forall k vs, pk_key_cmp k (id, 0) <> Lt -> (k, vs) ∈ seek_slice id m <-> (k, vs) ∈ m.
Proof.
  induction 1 as [|[k vs] m Hm IH Hall]; simpl; [by repeat split; [constructor|constructor|..]|].
  destruct (pk_key_cmp k (id, 0)) eqn:E.
  2: { destruct IH as (IH1 & IH2 & IH3). split_and!; [done..|]. intros k' vs' Hk'. rewrite IH3 by done.
       rewrite elem_of_cons. split; [by right|]. intros [[= -> ->]|]; [congruence|done]. }
  all: split_and!; [by constructor| |done]; constructor; simpl; [congruence|].
  all: eapply Forall_impl; [exact Hall|]; simpl; intros e He Hlt.
  all: by rewrite (cmp_lt_trans (cmp:=pk_key_cmp) _ _ _ He Hlt) in E.
Qed.

Lemma contributor_entries_spec d node pk :
  0 <= pk -> (exists v, (pk, v) ∈ contributor_entries d node) <-> is_Some (mp_held d !! (node, pk)).
Proof.
  intros Hpk. unfold contributor_entries.
  destruct (seek_slice_spec node (mp_contributors d) (contributors_sorted d)) as (Hs & Hf & Hin).
  assert (Hge : pk_key_cmp (node, pk) (node, 0) <> Lt).
  { unfold pk_key_cmp; simpl. rewrite Z.compare_refl. destruct (Z.compare_spec pk 0); try done. lia. }
  setoid_rewrite (walk_slice_spec node _ _ _ Hs Hf). setoid_rewrite (Hin (node, pk)); [|done].
  rewrite contributors_held. unfold is_Some. split.
  - intros (v & vs & Hm & Hp). exists (vkey v).
    rewrite (proj2 (bt_lookup_elem pk_key_cmp (node, pk) vs _ (contributors_sorted d)));
      [simpl; by rewrite Hp|exists (node, pk); split; [done|by apply pk_key_cmp_eq]].
  - intros [v (vs & Hl & Hp)%bind_Some].
    apply (bt_lookup_elem pk_key_cmp) in Hl as (k' & Hm & ->%pk_key_cmp_eq); [|apply contributors_sorted].
    apply fmap_Some in Hp as (w & Hw & ->). eauto.
Qed.

Lemma contributor_entries_node d node pk v :
  (pk, v) ∈ contributor_entries d node -> mp_held d !! (node, pk) = Some (vkey v).
Proof.
  unfold contributor_entries.
  destruct (seek_slice_spec node (mp_contributors d) (contributors_sorted d)) as (Hs & Hf & Hin).
  intros (vs & Hm & Hp)%walk_slice_spec; [|done..].
  assert (Hge : pk_key_cmp (node, pk) (node, 0) <> Lt)
    by (rewrite Forall_forall in Hf; by apply (Hf _ Hm)).
  apply Hin in Hm; [|done]. rewrite contributors_held.
  rewrite (proj2 (bt_lookup_elem pk_key_cmp (node, pk) vs _ (contributors_sorted d)));
    [simpl; by rewrite Hp|exists (node, pk); split; [done|by apply pk_key_cmp_eq]].
Qed.

(** A step that does not fail: the relation is the fold of the assertions, and the drained deltas
    are exactly the values whose membership changed, each once, with the sign of the change. *)
Lemma circuit_apply_spec d asserts d' flips :
  (asserts <> [] -> is_Some (mp_transaction d asserts).2) ->
  circuit_apply d asserts = (d', flips) ->
  mp_held d' = foldl assert_one (mp_held d) asserts /\
  (forall node v, (exists f, f ∈ flips /\ md_node_id f = node /\ vkey (md_value f) = vkey v) <->
     supported (mp_held d) node v <> supported (mp_held d') node v) /\
  (forall f, f ∈ flips -> (0 <? md_delta f) = supported (mp_held d') (md_node_id f) (md_value f)).
Proof.
  intros Hok. unfold circuit_apply. case_bool_decide as Hl.
  { apply nil_length_inv in Hl as ->. intros [= <- <-]. split_and!; [done| |by intros ? ?%not_elem_of_nil].
    intros node v. split; [by intros (? & ?%not_elem_of_nil & _)|done]. }
  destruct (mp_transaction d asserts) as [d1 [out|]] eqn:Et.
  2: { destruct Hok as [? ?]; [by destruct asserts|]. done. }
  intros [= <- <-]. split; [by eapply held_step|].
  pose proof (output_sorted _ _ _ _ Et) as Hs. pose proof (λ node v, output_weight d asserts d1 out node v Et) as Hw. cbv beta in Hw.
  assert (Hin : forall node v w, ([VInt node; v], w) ∈ out ->
            bt_lookup row_cmp [VInt node; v] out = Some w).
  { intros node v w H. apply (bt_lookup_elem row_cmp); [done|]. exists [VInt node; v].
    split; [done|]. apply (cmp_refl row_cmp). }
  assert (Hf : forall f, f ∈ drain_flips out <->
    ([VInt (md_node_id f); md_value f], md_delta f) ∈ out /\ md_delta f <> 0).
  { intros [node v w]. unfold drain_flips. rewrite list_elem_of_omap. simpl. split.
    - intros ([row w'] & H & Hd). destruct (output_rows _ _ _ _ _ Et H) as (n & v' & Hr). simpl in *. subst row.
      destruct (Z.eqb_spec w' 0); [done|]. simpl in Hd. by injection Hd as <- <- <-.
    - intros [H Hne]. eexists; split; [exact H|]. simpl. by destruct (Z.eqb_spec w 0). }
  split.
  - intros node v. specialize (Hw node v). split.
    + intros ([n v' w] & [H Hne]%Hf & <- & Hv). simpl in *.
      specialize (Hin _ _ _ H).
      assert (E : bt_lookup row_cmp [VInt n; v] out = Some w).
      { apply (bt_lookup_elem row_cmp); [done|]. exists [VInt n; v']. split; [done|].
        apply row_cmp_eq. simpl. by rewrite Hv. }
      rewrite E in Hw; simpl in Hw. intros Heq. rewrite Heq in Hw. lia.
    + intros Hne. destruct (bt_lookup row_cmp [VInt node; v] out) as [w|] eqn:E; simpl in Hw.
      2: { exfalso. apply Hne. by destruct (supported (mp_held d1) node v), (supported (mp_held d) node v). }
      apply (bt_lookup_elem row_cmp) in E as (row & H & Hc%row_cmp_eq); [|done].
      destruct (output_rows _ _ _ _ _ Et H) as (n & v' & Hr). simpl in Hr. subst row.
      simpl in Hc. injection Hc as <- Hv. exists (MkMemberDelta node v' w). simpl.
      split_and!; [apply Hf; simpl; split; [done|]|done|done].
      intros ->. apply Hne. by destruct (supported (mp_held d1) node v), (supported (mp_held d) node v).
  - intros f [H Hne]%Hf. specialize (Hw (md_node_id f) (md_value f)). rewrite (Hin _ _ _ H) in Hw.
    simpl in Hw. destruct (supported (mp_held d1) _ _), (supported (mp_held d) _ _); simpl in Hw;
      destruct (Z.ltb_spec 0 (md_delta f)); try done; lia.
Qed.
End laws.

(** ** Feeds *)

Lemma feed_insert_in f feed pk feed' pk' :
  pk' ∈ default ∅ (feed_insert feed pk f !! feed') <->
  (feed' = feed /\ pk' = pk) \/ pk' ∈ default ∅ (f !! feed').
Proof.
  unfold feed_insert. destruct (decide (feed' = feed)) as [->|Hne].
  - rewrite lookup_insert_eq. simpl. set_solver.
  - rewrite lookup_insert_ne by done. naive_solver.
Qed.

(** The delete gate: a removal answers whether the key was there, and takes it out. *)
Lemma feed_remove_in f feed pk :
  (feed_remove feed pk f).2 = bool_decide (pk ∈ default ∅ (f !! feed)) /\
  forall feed' pk', pk' ∈ default ∅ ((feed_remove feed pk f).1 !! feed') <->
    ~ (feed' = feed /\ pk' = pk) /\ pk' ∈ default ∅ (f !! feed').
Proof.
  unfold feed_remove. destruct (f !! feed) as [bm|] eqn:E; simpl.
  - split; [done|]. intros feed' pk'. destruct (decide (feed' = feed)) as [->|Hne].
    + rewrite lookup_insert_eq, E. simpl. set_solver.
    + rewrite lookup_insert_ne by done. naive_solver.
  - split; [done|]. intros feed' pk'. split; [|by intros [_ ?]]. intros H. split; [|done].
    intros [-> _]. rewrite E in H. simpl in H. set_solver.
Qed.
