(* ===== verification/Emission.v ===== *)
(** * Emission lanes ([engine/emission.rs])

    Emitters put a batch on the lane its stream's path hashes to; one writer per lane takes the
    batches in order, appends each, and only then counts it off the shared [pending] counter.  A
    state holds the lanes, the counter, what the writers have in hand and what is on the streams;
    an event is one atomic action of an emitter or of a writer, and a run is any interleaving.

    The hash of a path is [std]'s [DefaultHasher] and an argument of the model.  Appending is
    [append_reliable]: it returns when the batch is on the stream, or when the stream is retired. *)

From S2P Require Import Prelude BTree Value TableRef Schema Predicate Output.
From stdpp Require Import base option numbers strings gmap fin_maps list.
#[local] Open Scope Z_scope.

Record Batch := MkBatch { bt_path : str; bt_envs : list Envelope }.

(** What a writer is doing: waiting in [recv], holding a batch it has not appended, or about to
    count one off. *)
Inductive Hand := Waiting | Holding (b : Batch) | Landed.

Record Lane := MkLane { la_queue : list Batch; la_hand : Hand }.

Record EmissionLanes := MkLanes {
  em_lanes : list Lane;
  em_pending : Z;
  em_sending : option Batch;          (* counted by [enqueue], not yet sent *)
  em_streams : gmap str (list Envelope);
  em_retired : gset str
}.

(** [spawn]. *)
Definition spawn (n : nat) : EmissionLanes :=
  MkLanes (replicate (Nat.max n 1) (MkLane [] Waiting)) 0 None ∅ ∅.

Section lanes.
Context (path_hash : str -> N).

(** [lane_for]. *)
Definition lane_for (s : EmissionLanes) (path : str) : nat :=
  N.to_nat (path_hash path mod N.of_nat (length (em_lanes s))).

Inductive LaneEvent :=
  | EmCount (path : str) (envs : list Envelope)   (* [enqueue]: the counter *)
  | EmSend                                        (* [enqueue]: the channel *)
  | WrRecv (lane : nat)
  | WrAppend (lane : nat)                         (* [append_reliable] returned *)
  | WrDone (lane : nat)
  | StreamRetired (path : str).

Definition stream_of (s : EmissionLanes) (path : str) : list Envelope :=
  default [] (em_streams s !! path).

(** [append_reliable]: a retired stream discards. *)
Definition land (b : Batch) (s : EmissionLanes) : gmap str (list Envelope) :=
  if bool_decide (bt_path b ∈ em_retired s) then em_streams s
  else <[bt_path b := stream_of s (bt_path b) ++ bt_envs b]> (em_streams s).

Definition set_lane (i : nat) (l : Lane) (s : EmissionLanes) : EmissionLanes :=
  MkLanes (<[i := l]> (em_lanes s)) (em_pending s) (em_sending s) (em_streams s) (em_retired s).

(** One action; [None] is an action that is not enabled.  Emitters hold the registry lock for the
    whole of [enqueue], so a second one cannot count before the first has sent. *)
Definition lane_step (s : EmissionLanes) (e : LaneEvent) : option EmissionLanes :=
  match e with
  | EmCount path envs =>
      match em_sending s with
      | Some _ => None
      | None =>
          match envs with
          | [] => Some s
          | _ => Some (MkLanes (em_lanes s) (em_pending s + 1) (Some (MkBatch path envs))
                         (em_streams s) (em_retired s))
          end
      end
  | EmSend =>
      b ← em_sending s;
      let i := lane_for s (bt_path b) in
      l ← em_lanes s !! i;
      Some (MkLanes (<[i := MkLane (la_queue l ++ [b]) (la_hand l)]> (em_lanes s)) (em_pending s)
              None (em_streams s) (em_retired s))
  | WrRecv i =>
      l ← em_lanes s !! i;
      match la_hand l, la_queue l with
      | Waiting, b :: q => Some (set_lane i (MkLane q (Holding b)) s)
      | _, _ => None
      end
  | WrAppend i =>
      l ← em_lanes s !! i;
      match la_hand l with
      | Holding b =>
          Some (MkLanes (<[i := MkLane (la_queue l) Landed]> (em_lanes s)) (em_pending s)
                  (em_sending s) (land b s) (em_retired s))
      | _ => None
      end
  | WrDone i =>
      l ← em_lanes s !! i;
      match la_hand l with
      | Landed =>
          Some (MkLanes (<[i := MkLane (la_queue l) Waiting]> (em_lanes s)) (em_pending s - 1)
                  (em_sending s) (em_streams s) (em_retired s))
      | _ => None
      end
  | StreamRetired path =>
      Some (MkLanes (em_lanes s) (em_pending s) (em_sending s) (em_streams s)
              ({[ path ]} ∪ em_retired s))
  end.

Fixpoint lane_run (s : EmissionLanes) (es : list LaneEvent) : option EmissionLanes :=
  match es with
  | [] => Some s
  | e :: es => s ← lane_step s e; lane_run s es
  end.

(** ** What the run should have done *)

(** Everything emitted for a path, in the order of emission. *)
Definition emitted_for (path : str) (es : list LaneEvent) : list Envelope :=
  concat (omap (λ e, match e with
                     | EmCount p envs => if bool_decide (p = path) then Some envs else None
                     | _ => None
                     end) es).

Definition batch_for (path : str) (b : Batch) : list Envelope :=
  if bool_decide (bt_path b = path) then bt_envs b else [].
Definition in_hand (h : Hand) : list Batch := match h with Holding b => [b] | _ => [] end.

(** What is still on its way to a path. *)
Definition lane_rest (l : Lane) : list Batch := in_hand (la_hand l) ++ la_queue l.
Definition on_the_way (s : EmissionLanes) (path : str) : list Envelope :=
  concat (batch_for path <$> (default [] (lane_rest <$> em_lanes s !! lane_for s path)
                                ++ option_list (em_sending s))).

(** The batches that are counted. *)
Definition lane_count (l : Lane) : Z :=
  Z.of_nat (length (la_queue l)) + match la_hand l with Waiting => 0 | _ => 1 end.
Definition counted (s : EmissionLanes) : Z :=
  fold_right Z.add 0 (lane_count <$> em_lanes s) + Z.of_nat (length (option_list (em_sending s))).
End lanes.

(* ================================================================== *)
(** * Facts *)

Lemma fold_add_insert {A} (f : A -> Z) (l : list A) i x y :
  l !! i = Some x ->
  fold_right Z.add 0 (f <$> <[i := y]> l) = fold_right Z.add 0 (f <$> l) - f x + f y.
Proof.
  revert i; induction l as [|a l IH]; intros [|i]; csimpl; [done..| |].
  - intros [= ->]. lia.
  - intros H. rewrite (IH i) by done. lia.
Qed.

Lemma batch_for_eq b : batch_for (bt_path b) b = bt_envs b.
Proof. unfold batch_for. by rewrite bool_decide_eq_true_2. Qed.

Lemma batch_for_ne p b : bt_path b <> p -> batch_for p b = [].
Proof. intros H. unfold batch_for. by rewrite bool_decide_eq_false_2. Qed.

Section facts.
Context (path_hash : str -> N).
Notation lane_step := (lane_step path_hash).
Notation lane_run := (lane_run path_hash).
Notation lane_for := (lane_for path_hash).
Notation on_the_way := (on_the_way path_hash).

Record lanes_ok (es : list LaneEvent) (s : EmissionLanes) : Prop := {
  lo_some : em_lanes s <> [];
  lo_lane : forall i l b, em_lanes s !! i = Some l -> b ∈ lane_rest l -> lane_for s (bt_path b) = i;
  lo_streams : forall path, path ∉ em_retired s ->
    stream_of s path ++ on_the_way s path = emitted_for path es;
  lo_pending : em_pending s = counted s
}.

Lemma spawn_ok n : lanes_ok [] (spawn n).
Proof.
  assert (Hl : forall i l, em_lanes (spawn n) !! i = Some l -> l = MkLane [] Waiting)
    by (by intros i l [-> _]%lookup_replicate).
  split.
  - simpl. destruct n; simpl; [done|]. by destruct (n `max` 0)%nat.
  - intros i l b H%Hl Hb. subst l. by apply not_elem_of_nil in Hb.
  - intros path _. unfold stream_of, on_the_way, emitted_for. simpl. rewrite lookup_empty. simpl.
    destruct (replicate _ _ !! _) as [l|] eqn:E; [|done]. apply Hl in E. by subst l.
  - unfold counted, spawn; simpl. generalize (Nat.max n 1); intros k.
    assert (E : fold_right Z.add 0 (lane_count <$> replicate k (MkLane [] Waiting)) = 0)
      by (induction k as [|k IH]; csimpl; [done|by rewrite IH]). rewrite E. done.
Qed.

(** Changing one lane. *)
Lemma on_the_way_lane s i l l' path :
  em_lanes s !! i = Some l ->
  (i = lane_for s path ->
     concat (batch_for path <$> lane_rest l') = concat (batch_for path <$> lane_rest l)) ->
  on_the_way (MkLanes (<[i := l']> (em_lanes s)) (em_pending s) (em_sending s)
                (em_streams s) (em_retired s)) path = on_the_way s path.
Proof.
  intros Hl Heq. unfold on_the_way, Emission.lane_for. simpl. rewrite length_insert.
  fold (lane_for s path). destruct (decide (i = lane_for s path)) as [->|Hne].
  - rewrite list_lookup_insert_eq by (by eapply lookup_lt_Some). rewrite Hl. simpl.
    rewrite !fmap_app, !concat_app. by rewrite Heq.
  - by rewrite list_lookup_insert_ne.
Qed.

Lemma lane_for_lt s path : em_lanes s <> [] -> (lane_for s path < length (em_lanes s))%nat.
Proof.
  intros H. unfold Emission.lane_for. destruct (em_lanes s) as [|l ls] eqn:E; [done|].
  pose proof (N.mod_lt (path_hash path) (N.of_nat (length (l :: ls)))). simpl length in *. lia.
Qed.

Lemma emitted_for_snoc path es e :
  emitted_for path (es ++ [e]) = emitted_for path es ++
    match e with EmCount p envs => if bool_decide (p = path) then envs else [] | _ => [] end.
Proof.
  unfold emitted_for. rewrite omap_app, concat_app. f_equal. destruct e; csimpl; try done.
  case_bool_decide; simpl; [by rewrite app_nil_r|done].
Qed.

(** What an action on one lane leaves of the first two clauses, and of the count. *)
Lemma lane_placed s s' i l l' :
  em_lanes s <> [] ->
  (forall j m b, em_lanes s !! j = Some m -> b ∈ lane_rest m -> lane_for s (bt_path b) = j) ->
  em_lanes s !! i = Some l -> em_lanes s' = <[i := l']> (em_lanes s) ->
  (forall b, b ∈ lane_rest l' -> b ∈ lane_rest l \/ lane_for s (bt_path b) = i) ->
  em_lanes s' <> [] /\
  (forall j m b, em_lanes s' !! j = Some m -> b ∈ lane_rest m -> lane_for s' (bt_path b) = j) /\
  forall path, lane_for s' path = lane_for s path.
Proof.
  intros Hn Hl El Hs' Hnew.
  assert (Hf : forall path, lane_for s' path = lane_for s path).
  { intros path. unfold Emission.lane_for. by rewrite Hs', length_insert. }
  split_and!; [| |done].
  - rewrite Hs'. intros H. apply (f_equal length) in H. rewrite length_insert in H. by destruct (em_lanes s).
  - intros j m b Hj Hb. rewrite Hf. rewrite Hs' in Hj. destruct (decide (j = i)) as [->|Hne].
    + rewrite list_lookup_insert_eq in Hj by (by eapply lookup_lt_Some). injection Hj as <-.
      destruct (Hnew b Hb) as [H|H]; [by eapply Hl|done].
    + rewrite list_lookup_insert_ne in Hj by done. by eapply Hl.
Qed.

Lemma send_ok es s s' : lanes_ok es s -> lane_step s EmSend = Some s' -> lanes_ok (es ++ [EmSend]) s'.
Proof.
  intros [Hn Hl Hs Hp] He. simpl in He.
  apply bind_Some in He as (b & Eb & He). apply bind_Some in He as (l & El & He).
  destruct (lane_placed s s' _ l (MkLane (la_queue l ++ [b]) (la_hand l)) Hn Hl El) as (Hn' & Hl' & Hf).
  { by injection He as <-. }
  { intros b' Hb. unfold lane_rest in Hb; simpl in Hb. rewrite app_assoc in Hb.
    apply elem_of_app in Hb as [Hb|Hb%list_elem_of_singleton]; [by left|subst; by right]. }
  split; [done|done| |].
  - intros p Hpr. rewrite emitted_for_snoc, app_nil_r, <- Hs by (by injection He as <-).
    unfold Emission.on_the_way. rewrite Hf, Eb. injection He as <-. unfold stream_of; simpl. f_equal.
    destruct (decide (lane_for s (bt_path b) = lane_for s p)) as [Heq|Hne].
    + rewrite <- Heq, list_lookup_insert_eq by (by eapply lookup_lt_Some). rewrite El. simpl.
      unfold lane_rest; simpl. by rewrite app_nil_r, app_assoc.
    + rewrite list_lookup_insert_ne by done. rewrite !fmap_app, !concat_app. f_equal. simpl.
      unfold batch_for. destruct (decide (bt_path b = p)) as [<-|Hb]; [done|].
      by rewrite bool_decide_eq_false_2.
  - injection He as <-. unfold counted in *; simpl. rewrite (fold_add_insert _ _ _ _ _ El). rewrite Eb in Hp.
    simpl in Hp. unfold lane_count in *; simpl. rewrite length_app. simpl. lia.
Qed.

(** A writer's move between its queue and its hand. *)
Lemma hand_ok es s s' e i l l' d :
  lanes_ok es s -> em_lanes s !! i = Some l -> lane_rest l' = lane_rest l ->
  lane_count l' = lane_count l - d ->
  s' = MkLanes (<[i := l']> (em_lanes s)) (em_pending s - d) (em_sending s) (em_streams s) (em_retired s) ->
  (forall path, emitted_for path (es ++ [e]) = emitted_for path es) ->
  lanes_ok (es ++ [e]) s'.
Proof.
  intros [Hn Hl Hs Hp] El Hr Hc Es He.
  destruct (lane_placed s s' i l l' Hn Hl El) as (Hn' & Hl' & Hf); [by subst s'|rewrite Hr; by left|].
  split; [done|done| |].
  - intros p Hpr. rewrite He, <- Hs by (by subst s'). subst s'. f_equal.
    transitivity (on_the_way (MkLanes (<[i := l']> (em_lanes s)) (em_pending s) (em_sending s)
                                (em_streams s) (em_retired s)) p); [done|].
    apply (on_the_way_lane s i l); [done|]. by rewrite Hr.
  - subst s'. unfold counted in *; simpl. rewrite (fold_add_insert _ _ _ _ _ El). lia.
Qed.

Lemma append_ok es s s' i :
  lanes_ok es s -> lane_step s (WrAppend i) = Some s' -> lanes_ok (es ++ [WrAppend i]) s'.
Proof.
  intros [Hn Hl Hs Hp] He. simpl in He. apply bind_Some in He as (l & El & He).
  destruct (la_hand l) as [|b|] eqn:Eh; [done| |done].
  assert (Hrest : lane_rest l = b :: la_queue l) by (unfold lane_rest; by rewrite Eh).
  destruct (lane_placed s s' i l (MkLane (la_queue l) Landed) Hn Hl El) as (Hn' & Hl' & Hf).
  { by injection He as <-. }
  { intros b' Hb. left. rewrite Hrest. by right. }
  assert (Hb : lane_for s (bt_path b) = i) by (eapply Hl; [exact El|rewrite Hrest; by left]).
  split; [done|done| |].
  - intros p Hpr. rewrite emitted_for_snoc, app_nil_r.
    assert (Hpr' : p ∉ em_retired s) by (by injection He as <-). rewrite <- Hs by done.
    unfold Emission.on_the_way. rewrite Hf. injection He as <-. simpl.
    destruct (decide (bt_path b = p)) as [<-|Hne].
    + unfold stream_of; simpl. unfold land. rewrite bool_decide_eq_false_2 by done.
      rewrite lookup_insert_eq. unfold stream_of. simpl. rewrite Hb, list_lookup_insert_eq by (by eapply lookup_lt_Some).
      rewrite El. simpl. rewrite Hrest. unfold lane_rest. csimpl.
      by rewrite batch_for_eq, <- !app_assoc.
    + assert (Hst : land b s !! p = em_streams s !! p).
      { unfold land. case_bool_decide; [done|]. by rewrite lookup_insert_ne. }
      unfold stream_of; simpl. rewrite Hst. f_equal.
      destruct (decide (lane_for s p = i)) as [<-|Hi].
      * rewrite list_lookup_insert_eq by (by eapply lookup_lt_Some). rewrite El. simpl.
        rewrite Hrest. unfold lane_rest. csimpl. by rewrite batch_for_ne.
      * by rewrite list_lookup_insert_ne.
  - injection He as <-. unfold counted in *; simpl. rewrite (fold_add_insert _ _ _ _ _ El).
    unfold lane_count in *; simpl. rewrite Eh in *. lia.
Qed.

(** Each action keeps the account. *)
Lemma lane_step_ok es s e s' : lanes_ok es s -> lane_step s e = Some s' -> lanes_ok (es ++ [e]) s'.
Proof.
  intros Hok He. destruct e as [path envs| |i|i|i|path].
  - destruct Hok as [Hn Hl Hs Hp]. simpl in He. destruct (em_sending s) eqn:Es; [done|].
    destruct envs as [|e0 envs].
    { injection He as <-. split; [done|done| |done]. intros p Hpr. rewrite emitted_for_snoc, Hs by done.
      case_bool_decide; by rewrite app_nil_r. }
    injection He as <-. split; simpl; [done|exact Hl| |].
    + intros p Hpr. rewrite emitted_for_snoc, <- Hs by done. unfold stream_of, Emission.on_the_way; simpl.
      rewrite Es. simpl. rewrite !fmap_app, !concat_app, <- !app_assoc. csimpl.
      by rewrite app_nil_r.
    + unfold counted in *. simpl. rewrite Es in Hp. simpl in Hp. lia.
  - by eapply send_ok.
  - simpl in He. apply bind_Some in He as (l & El & He). destruct (la_hand l) eqn:Eh; [|done..].
    destruct (la_queue l) as [|b q] eqn:Eq; [done|]. injection He as <-.
    apply (hand_ok es s _ _ i l (MkLane q (Holding b)) 0); [done|done|unfold lane_rest; by rewrite Eh, Eq| | |].
    + unfold lane_count. rewrite Eh, Eq. simpl. lia.
    + unfold set_lane. by rewrite Z.sub_0_r.
    + intros path. by rewrite emitted_for_snoc, app_nil_r.
  - by eapply append_ok.
  - simpl in He. apply bind_Some in He as (l & El & He). destruct (la_hand l) eqn:Eh; [done..|].
    injection He as <-.
    apply (hand_ok es s _ _ i l (MkLane (la_queue l) Waiting) 1); [done|done|unfold lane_rest; by rewrite Eh| |done|].
    + unfold lane_count. rewrite Eh. simpl. lia.
    + intros path. by rewrite emitted_for_snoc, app_nil_r.
  - destruct Hok as [Hn Hl Hs Hp]. injection He as <-. split; [done|exact Hl| |exact Hp].
    intros p Hpr. rewrite emitted_for_snoc, app_nil_r. apply Hs. simpl in Hpr. set_solver.
Qed.

Lemma lane_run_ok es' : forall es s s', lanes_ok es s -> lane_run s es' = Some s' -> lanes_ok (es ++ es') s'.
Proof.
  induction es' as [|e es' IH]; intros es s s' Hok Hr; simpl in Hr.
  - injection Hr as <-. by rewrite app_nil_r.
  - apply bind_Some in Hr as (s1 & He & Hr). change (e :: es') with ([e] ++ es'). rewrite app_assoc.
    eapply IH; [|done]. by eapply lane_step_ok.
Qed.

(** ** Draining *)

Definition is_writer (e : LaneEvent) : Prop :=
  match e with WrRecv _ | WrAppend _ | WrDone _ => True | _ => False end.

(** The writer actions left to do. *)
Definition lane_work (l : Lane) : Z :=
  3 * Z.of_nat (length (la_queue l)) + match la_hand l with Waiting => 0 | Holding _ => 2 | Landed => 1 end.
Definition work (s : EmissionLanes) : Z := fold_right Z.add 0 (lane_work <$> em_lanes s).

Lemma writer_step_work s e s' : is_writer e -> lane_step s e = Some s' ->
  work s' = work s - 1 /\ em_sending s' = em_sending s /\ em_retired s' = em_retired s.
Proof.
  destruct e as [| |i|i|i|]; simpl; try done; intros _ He;
    apply bind_Some in He as (l & El & He); destruct (la_hand l) eqn:Eh; try done.
  1: destruct (la_queue l) eqn:Eq; [done|].
  all: injection He as <-; split_and!; [|done..]; unfold work; simpl;
    rewrite (fold_add_insert _ _ _ _ _ El); unfold lane_work; simpl; rewrite ?Eh, ?Eq; simpl; lia.
Qed.

Lemma writers_work ws : forall s s', Forall is_writer ws -> lane_run s ws = Some s' ->
  work s' = work s - Z.of_nat (length ws) /\ em_sending s' = em_sending s /\ em_retired s' = em_retired s.
Proof.
  induction ws as [|w ws IH]; intros s s' Hw Hr; simpl in Hr.
  - injection Hr as <-. simpl. split_and!; [lia|done..].
  - apply Forall_cons in Hw as [Hw Hws]. apply bind_Some in Hr as (s1 & He & Hr).
    destruct (writer_step_work _ _ _ Hw He) as (H1 & H2 & H3).
    destruct (IH _ _ Hws Hr) as (H4 & H5 & H6). split_and!; [simpl length; lia|congruence..].
Qed.

Lemma lane_work_nonneg l : 0 <= lane_work l.
Proof. unfold lane_work. destruct (la_hand l); lia. Qed.

Lemma work_nonneg s : 0 <= work s.
Proof.
  unfold work. induction (em_lanes s) as [|l ls IH]; csimpl; [lia|].
  pose proof (lane_work_nonneg l). lia.
Qed.

(** A lane whose writer can do nothing has nothing. *)
Lemma writer_stuck_lane s i l : em_lanes s !! i = Some l ->
  lane_step s (WrRecv i) = None -> lane_step s (WrAppend i) = None -> lane_step s (WrDone i) = None ->
  lane_rest l = [] /\ lane_count l = 0.
Proof.
  simpl. intros ->; simpl. unfold lane_rest, lane_count.
  destruct (la_hand l), (la_queue l); simpl; naive_solver.
Qed.

Lemma writers_stuck s : (forall e, is_writer e -> lane_step s e = None) ->
  em_sending s = None -> counted s = 0 /\ forall path, on_the_way s path = [].
Proof.
  intros Hst Hsend.
  assert (Hl : forall i l, em_lanes s !! i = Some l -> lane_rest l = [] /\ lane_count l = 0)
    by (intros; eapply writer_stuck_lane; [done|by apply Hst..]).
  split.
  - unfold counted. rewrite Hsend. simpl.
    assert (H : Forall (λ l, lane_count l = 0) (em_lanes s))
      by (apply Forall_lookup; intros i l ?%Hl; naive_solver).
    clear -H. induction H as [|l ls Hc _ IH]; csimpl in *; [done|lia].
  - intros path. unfold Emission.on_the_way. rewrite Hsend.
    destruct (em_lanes s !! _) as [l|] eqn:E; [|done]. simpl. by destruct (Hl _ _ E) as [-> _].
Qed.
End facts.

(* ================================================================== *)
(** * Properties *)

(** C30: however emitters and writers interleave, what is on a stream that is not retired, followed
    by what is on its way to it, is everything emitted for it, in the order of emission; and the
    counter is exactly the number of batches not yet accounted for, so when it is zero every
    emission is on its stream. *)
Theorem lanes_keep_order path_hash n es s :
  lane_run path_hash (spawn n) es = Some s ->
  (forall path, path ∉ em_retired s ->
     stream_of s path ++ on_the_way path_hash s path = emitted_for path es) /\
  em_pending s = counted s /\
  (em_pending s = 0 -> forall path, path ∉ em_retired s -> stream_of s path = emitted_for path es).
Proof.
  intros Hr. destruct (lane_run_ok path_hash es [] _ _ (spawn_ok path_hash n) Hr) as [Hn Hl Hs Hp].
  simpl in Hs. split_and!; [done|done|]. intros H0 path Hpr. rewrite <- (Hs path) by done.
  enough (on_the_way path_hash s path = []) as -> by (by rewrite app_nil_r).
  assert (Hc : forall l, l ∈ em_lanes s -> 0 <= lane_count l)
    by (intros l _; unfold lane_count; destruct (la_hand l); lia).
  rewrite Hp in H0. unfold counted in H0. unfold on_the_way.
  assert (Hsum : forall ls, (forall l : Lane, l ∈ ls -> 0 <= lane_count l) ->
            0 <= fold_right Z.add 0 (lane_count <$> ls) /\
            (fold_right Z.add 0 (lane_count <$> ls) = 0 -> forall l, l ∈ ls -> lane_count l = 0)).
  { induction ls as [|l ls IH]; csimpl; intros H; [split; [lia|by intros _ ? ?%not_elem_of_nil]|].
    destruct IH as [IH1 IH2]; [intros; apply H; by right|]. pose proof (H l ltac:(by left)).
    split; [lia|]. intros H2 m [->|Hm]%elem_of_cons; [lia|]. apply IH2; [lia|done]. }
  destruct (Hsum _ Hc) as [H1 H2].
  destruct (em_sending s); simpl in *; [lia|].
  destruct (em_lanes s !! _) as [l|] eqn:E; [|done]. simpl.
  pose proof (H2 ltac:(lia) l (list_elem_of_lookup_2 _ _ _ E)) as Hz. unfold lane_count in Hz.
  unfold lane_rest. destruct (la_hand l), (la_queue l); simpl in *; try done; lia.
Qed.

(** C31: draining always succeeds: after any run, once no batch is half-way into its channel, the
    writers can take only as many actions as there is work, whichever of them acts; and when none
    can act any more, the counter is zero and every emission is on its stream. *)
Theorem lanes_drain path_hash n es s ws s' :
  lane_run path_hash (spawn n) es = Some s -> em_sending s = None ->
  Forall is_writer ws -> lane_run path_hash s ws = Some s' ->
  Z.of_nat (length ws) <= work s /\
  ((forall e, is_writer e -> lane_step path_hash s' e = None) ->
   em_pending s' = 0 /\
   forall path, path ∉ em_retired s -> stream_of s' path = emitted_for path es).
Proof.
  intros Hr Hsend Hw Hr'.
  pose proof (lane_run_ok path_hash es [] _ _ (spawn_ok path_hash n) Hr) as Hok. simpl in Hok.
  pose proof (lane_run_ok path_hash ws _ _ _ Hok Hr') as [Hn Hl Hs Hp].
  destruct (writers_work path_hash ws s s' Hw Hr') as (Hk & Hse & Hre).
  split; [pose proof (work_nonneg s'); lia|]. intros Hst.
  destruct (writers_stuck path_hash s' Hst) as [Hc Ho]; [congruence|]. split; [by rewrite Hp|].
  intros path Hpr. pose proof (Hs path ltac:(congruence)) as H. rewrite Ho, app_nil_r in H. rewrite H. simpl.
  clear -Hw. unfold emitted_for. rewrite omap_app, concat_app.
  enough (omap (λ e, match e with EmCount p envs => if bool_decide (p = path) then Some envs else None
                     | _ => None end) ws = []) as -> by (by rewrite app_nil_r).
  induction Hw as [|w ws Hw _ IH]; [done|]. destruct w; csimpl; done.
Qed.
