(* ===== verification/Subquery.v ===== *)
(** * The subquery registry: state and live maintenance ([subquery.rs], [engine/membership.rs])

    One node per distinct inner query holds the set of projected values; edges say which rows of
    which dependents a change of the set can move.  This file has the registry's state, the
    assertion of contributions, the evaluation of a table change by templates, the one emission
    tail, [on_table_delta], and the registry-lock halves of a query-back.  Creation and removal are
    in [SubqCreate], the walk of flips in [SubqWalk].

    The registry is a value threaded through the operations: every operation runs under the
    registry lock.  A hash map is iterated in [map_to_list]'s order.  Delivering a batch appends it
    to [r_sent], the order in which batches are handed to the lanes of [Emission].  Traces, sizes
    and introspection are left out; [traced] keeps the one choice a trace subscriber makes. *)

From S2P Require Import Prelude BTree Value TableRef Schema Predicate Gate Output Executors.
From S2P Require Import Sequencer PkDict SubqIndex SubqCircuit.
From stdpp Require Import base option numbers strings gmap fin_maps sorting list.
#[local] Open Scope Z_scope.

(* ------------------------------------------------------------------ *)
(** ** Data *)

Abbreviation SubquerySig := str.
(** A commit stamp: the LSN (0 is unknown) and the xid, when the source has one. *)
Abbreviation Stamp := (Z * option Z)%type.

Inductive FlipDir := Enter | Leave.
Record Flip := MkFlip { fl_value : Value; fl_dir : FlipDir }.

Record BufferedDelta := MkBuffered { bf_lsn : Z; bf_xid : option Z; bf_delta : Delta }.

Inductive DeferredShapeWork :=
  | SWValue (connecting_col : nat) (value : Value) (txid : option str)
  | SWFull (txid : option str).
Inductive DeferredNodeWork :=
  | NWValue (connecting_col : nat) (value : Value)
  | NWFull.

Record SubqueryNode := MkNode {
  n_sig : SubquerySig;
  n_inner_table : TableRef;
  n_proj_col : nat;
  n_pk_col : nat;
  n_pred : CompiledPredicate;
  n_where_json : option PredicateJson;
  n_gate : SnapshotGate;
  n_seed_buffer : option (list BufferedDelta);
  n_deferred : list DeferredNodeWork;
  n_node_id : Z;
  n_template_key : str;
  n_bind : Row;
  n_refcount : nat;
  n_recent : gmap str Stamp;
  n_inflight : Z
}.

Record TemplateGroup := MkTemplate {
  tg_inner_table : TableRef;
  tg_proj_col : nat;
  tg_residual : CompiledPredicate;
  tg_param_cols : list nat;
  tg_binds : gmap Row SubquerySig;             (* keyed up to equality of rows *)
  tg_pk_nodes : gmap Z (gset SubquerySig)
}.

Inductive Dependent := DShape (shape_id : str) | DNode (sig : SubquerySig).
#[export] Instance Dependent_eq_dec : EqDecision Dependent.
Proof. solve_decision. Defined.

Record Edge := MkEdge {
  ed_node_sig : SubquerySig;
  ed_dependent : Dependent;
  ed_connecting_col : nat;
  ed_negated : bool;
  ed_null_sensitive : bool
}.

Record SubqueryShape := MkSubqShape {
  sh_shape_id : str;
  sh_outer_table : TableRef;
  sh_stream_path : str;
  sh_pred : CompiledPredicate;
  sh_out_cols : option (list nat);
  sh_gate : SnapshotGate;
  sh_emitted : Z;
  sh_feed_id : Z;
  sh_recent : gmap Z Stamp;
  sh_inflight : Z
}.

Record PendingSubqueryShape := MkPendingSubq {
  ps_shape_id : str;
  ps_outer_table : TableRef;
  ps_stream_path : str;
  ps_pred : CompiledPredicate;
  ps_out_cols : option (list nat);
  ps_changes_only : bool;
  ps_collect_log : list SubquerySig;
  ps_buffer : list BufferedDelta;
  ps_deferred : list DeferredShapeWork
}.

(** [EmissionSource]; [Live] and [Replay] have the same effect. *)
Inductive EmissionSource :=
  | SrcLive (lsn : Z) (xid : option Z)
  | SrcReplay (lsn : Z) (xid : option Z)
  | SrcQueryBack (gate : SnapshotGate).

Abbreviation SchemaMap := (gmap TableRef TableSchema).

Record SubqueryRegistry (D : Type) := MkRegistry {
  r_nodes : gmap SubquerySig SubqueryNode;
  r_edges : gmap SubquerySig (list Edge);
  r_staged_edges : list Edge;
  r_shapes : gmap str SubqueryShape;
  r_shape_index : SubqueryShapeIndex;
  r_circuit : D;
  r_pk_dict : PkDict;
  r_next_node_id : Z;
  r_node_by_id : gmap Z SubquerySig;
  r_next_feed_id : Z;
  r_feed_by_id : gmap Z str;
  r_feed_sets : FeedSet;
  r_templates : gmap str TemplateGroup;
  r_pending_seed : list SubquerySig;
  r_pending_shapes : list PendingSubqueryShape;
  r_collect_log : list SubquerySig;
  r_schemas : SchemaMap;
  r_sent : list (str * list Envelope)
}.
Arguments MkRegistry {D}. Arguments r_nodes {D}. Arguments r_edges {D}.
Arguments r_staged_edges {D}. Arguments r_shapes {D}. Arguments r_shape_index {D}.
Arguments r_circuit {D}. Arguments r_pk_dict {D}. Arguments r_next_node_id {D}.
Arguments r_node_by_id {D}. Arguments r_next_feed_id {D}. Arguments r_feed_by_id {D}.
Arguments r_feed_sets {D}. Arguments r_templates {D}. Arguments r_pending_seed {D}.
Arguments r_pending_shapes {D}. Arguments r_collect_log {D}. Arguments r_schemas {D}.
Arguments r_sent {D}.

(** ** Assignments to a field *)

Section setters.
Context {D : Type}.
Implicit Types (r : SubqueryRegistry D).

Definition set_nodes (x : gmap SubquerySig SubqueryNode) r : SubqueryRegistry D :=
  MkRegistry x (r_edges r) (r_staged_edges r) (r_shapes r) (r_shape_index r) (r_circuit r)
    (r_pk_dict r) (r_next_node_id r) (r_node_by_id r) (r_next_feed_id r) (r_feed_by_id r)
    (r_feed_sets r) (r_templates r) (r_pending_seed r) (r_pending_shapes r) (r_collect_log r)
    (r_schemas r) (r_sent r).
Definition set_edges (x : gmap SubquerySig (list Edge)) r : SubqueryRegistry D :=
  MkRegistry (r_nodes r) x (r_staged_edges r) (r_shapes r) (r_shape_index r) (r_circuit r)
    (r_pk_dict r) (r_next_node_id r) (r_node_by_id r) (r_next_feed_id r) (r_feed_by_id r)
    (r_feed_sets r) (r_templates r) (r_pending_seed r) (r_pending_shapes r) (r_collect_log r)
    (r_schemas r) (r_sent r).
Definition set_staged_edges (x : list Edge) r : SubqueryRegistry D :=
  MkRegistry (r_nodes r) (r_edges r) x (r_shapes r) (r_shape_index r) (r_circuit r) (r_pk_dict r)
    (r_next_node_id r) (r_node_by_id r) (r_next_feed_id r) (r_feed_by_id r) (r_feed_sets r)
    (r_templates r) (r_pending_seed r) (r_pending_shapes r) (r_collect_log r) (r_schemas r)
    (r_sent r).
Definition set_shapes (x : gmap str SubqueryShape) r : SubqueryRegistry D :=
  MkRegistry (r_nodes r) (r_edges r) (r_staged_edges r) x (r_shape_index r) (r_circuit r)
    (r_pk_dict r) (r_next_node_id r) (r_node_by_id r) (r_next_feed_id r) (r_feed_by_id r)
    (r_feed_sets r) (r_templates r) (r_pending_seed r) (r_pending_shapes r) (r_collect_log r)
    (r_schemas r) (r_sent r).
Definition set_shape_index (x : SubqueryShapeIndex) r : SubqueryRegistry D :=
  MkRegistry (r_nodes r) (r_edges r) (r_staged_edges r) (r_shapes r) x (r_circuit r) (r_pk_dict r)
    (r_next_node_id r) (r_node_by_id r) (r_next_feed_id r) (r_feed_by_id r) (r_feed_sets r)
    (r_templates r) (r_pending_seed r) (r_pending_shapes r) (r_collect_log r) (r_schemas r)
    (r_sent r).
Definition set_circuit (x : D) r : SubqueryRegistry D :=
  MkRegistry (r_nodes r) (r_edges r) (r_staged_edges r) (r_shapes r) (r_shape_index r) x
    (r_pk_dict r) (r_next_node_id r) (r_node_by_id r) (r_next_feed_id r) (r_feed_by_id r)
    (r_feed_sets r) (r_templates r) (r_pending_seed r) (r_pending_shapes r) (r_collect_log r)
    (r_schemas r) (r_sent r).
Definition set_pk_dict (x : PkDict) r : SubqueryRegistry D :=
  MkRegistry (r_nodes r) (r_edges r) (r_staged_edges r) (r_shapes r) (r_shape_index r)
    (r_circuit r) x (r_next_node_id r) (r_node_by_id r) (r_next_feed_id r) (r_feed_by_id r)
    (r_feed_sets r) (r_templates r) (r_pending_seed r) (r_pending_shapes r) (r_collect_log r)
    (r_schemas r) (r_sent r).
Definition set_next_node_id (x : Z) r : SubqueryRegistry D :=
  MkRegistry (r_nodes r) (r_edges r) (r_staged_edges r) (r_shapes r) (r_shape_index r)
    (r_circuit r) (r_pk_dict r) x (r_node_by_id r) (r_next_feed_id r) (r_feed_by_id r)
    (r_feed_sets r) (r_templates r) (r_pending_seed r) (r_pending_shapes r) (r_collect_log r)
    (r_schemas r) (r_sent r).
Definition set_node_by_id (x : gmap Z SubquerySig) r : SubqueryRegistry D :=
  MkRegistry (r_nodes r) (r_edges r) (r_staged_edges r) (r_shapes r) (r_shape_index r)
    (r_circuit r) (r_pk_dict r) (r_next_node_id r) x (r_next_feed_id r) (r_feed_by_id r)
    (r_feed_sets r) (r_templates r) (r_pending_seed r) (r_pending_shapes r) (r_collect_log r)
    (r_schemas r) (r_sent r).
Definition set_next_feed_id (x : Z) r : SubqueryRegistry D :=
  MkRegistry (r_nodes r) (r_edges r) (r_staged_edges r) (r_shapes r) (r_shape_index r)
    (r_circuit r) (r_pk_dict r) (r_next_node_id r) (r_node_by_id r) x (r_feed_by_id r)
    (r_feed_sets r) (r_templates r) (r_pending_seed r) (r_pending_shapes r) (r_collect_log r)
    (r_schemas r) (r_sent r).
Definition set_feed_by_id (x : gmap Z str) r : SubqueryRegistry D :=
  MkRegistry (r_nodes r) (r_edges r) (r_staged_edges r) (r_shapes r) (r_shape_index r)
    (r_circuit r) (r_pk_dict r) (r_next_node_id r) (r_node_by_id r) (r_next_feed_id r) x
    (r_feed_sets r) (r_templates r) (r_pending_seed r) (r_pending_shapes r) (r_collect_log r)
    (r_schemas r) (r_sent r).
Definition set_feed_sets (x : FeedSet) r : SubqueryRegistry D :=
  MkRegistry (r_nodes r) (r_edges r) (r_staged_edges r) (r_shapes r) (r_shape_index r)
    (r_circuit r) (r_pk_dict r) (r_next_node_id r) (r_node_by_id r) (r_next_feed_id r)
    (r_feed_by_id r) x (r_templates r) (r_pending_seed r) (r_pending_shapes r) (r_collect_log r)
    (r_schemas r) (r_sent r).
Definition set_templates (x : gmap str TemplateGroup) r : SubqueryRegistry D :=
  MkRegistry (r_nodes r) (r_edges r) (r_staged_edges r) (r_shapes r) (r_shape_index r)
    (r_circuit r) (r_pk_dict r) (r_next_node_id r) (r_node_by_id r) (r_next_feed_id r)
    (r_feed_by_id r) (r_feed_sets r) x (r_pending_seed r) (r_pending_shapes r) (r_collect_log r)
    (r_schemas r) (r_sent r).
Definition set_pending_seed (x : list SubquerySig) r : SubqueryRegistry D :=
  MkRegistry (r_nodes r) (r_edges r) (r_staged_edges r) (r_shapes r) (r_shape_index r)
    (r_circuit r) (r_pk_dict r) (r_next_node_id r) (r_node_by_id r) (r_next_feed_id r)
    (r_feed_by_id r) (r_feed_sets r) (r_templates r) x (r_pending_shapes r) (r_collect_log r)
    (r_schemas r) (r_sent r).
Definition set_pending_shapes (x : list PendingSubqueryShape) r : SubqueryRegistry D :=
  MkRegistry (r_nodes r) (r_edges r) (r_staged_edges r) (r_shapes r) (r_shape_index r)
    (r_circuit r) (r_pk_dict r) (r_next_node_id r) (r_node_by_id r) (r_next_feed_id r)
    (r_feed_by_id r) (r_feed_sets r) (r_templates r) (r_pending_seed r) x (r_collect_log r)
    (r_schemas r) (r_sent r).
Definition set_collect_log (x : list SubquerySig) r : SubqueryRegistry D :=
  MkRegistry (r_nodes r) (r_edges r) (r_staged_edges r) (r_shapes r) (r_shape_index r)
    (r_circuit r) (r_pk_dict r) (r_next_node_id r) (r_node_by_id r) (r_next_feed_id r)
    (r_feed_by_id r) (r_feed_sets r) (r_templates r) (r_pending_seed r) (r_pending_shapes r) x
    (r_schemas r) (r_sent r).
Definition set_sent (x : list (str * list Envelope)) r : SubqueryRegistry D :=
  MkRegistry (r_nodes r) (r_edges r) (r_staged_edges r) (r_shapes r) (r_shape_index r)
    (r_circuit r) (r_pk_dict r) (r_next_node_id r) (r_node_by_id r) (r_next_feed_id r)
    (r_feed_by_id r) (r_feed_sets r) (r_templates r) (r_pending_seed r) (r_pending_shapes r)
    (r_collect_log r) (r_schemas r) x.
End setters.

Definition node_with_gate (g : SnapshotGate) (n : SubqueryNode) : SubqueryNode :=
  MkNode (n_sig n) (n_inner_table n) (n_proj_col n) (n_pk_col n) (n_pred n) (n_where_json n) g
    (n_seed_buffer n) (n_deferred n) (n_node_id n) (n_template_key n) (n_bind n) (n_refcount n)
    (n_recent n) (n_inflight n).
Definition node_with_seed_buffer (b : option (list BufferedDelta)) (n : SubqueryNode) : SubqueryNode :=
  MkNode (n_sig n) (n_inner_table n) (n_proj_col n) (n_pk_col n) (n_pred n) (n_where_json n) (n_gate n)
    b (n_deferred n) (n_node_id n) (n_template_key n) (n_bind n) (n_refcount n) (n_recent n) (n_inflight n).
Definition node_with_deferred (w : list DeferredNodeWork) (n : SubqueryNode) : SubqueryNode :=
  MkNode (n_sig n) (n_inner_table n) (n_proj_col n) (n_pk_col n) (n_pred n) (n_where_json n) (n_gate n)
    (n_seed_buffer n) w (n_node_id n) (n_template_key n) (n_bind n) (n_refcount n) (n_recent n)
    (n_inflight n).
Definition node_with_refcount (c : nat) (n : SubqueryNode) : SubqueryNode :=
  MkNode (n_sig n) (n_inner_table n) (n_proj_col n) (n_pk_col n) (n_pred n) (n_where_json n) (n_gate n)
    (n_seed_buffer n) (n_deferred n) (n_node_id n) (n_template_key n) (n_bind n) c (n_recent n)
    (n_inflight n).
Definition node_with_recent (m : gmap str Stamp) (i : Z) (n : SubqueryNode) : SubqueryNode :=
  MkNode (n_sig n) (n_inner_table n) (n_proj_col n) (n_pk_col n) (n_pred n) (n_where_json n) (n_gate n)
    (n_seed_buffer n) (n_deferred n) (n_node_id n) (n_template_key n) (n_bind n) (n_refcount n) m i.
Definition template_with (binds : gmap Row SubquerySig) (pk_nodes : gmap Z (gset SubquerySig))
    (t : TemplateGroup) : TemplateGroup :=
  MkTemplate (tg_inner_table t) (tg_proj_col t) (tg_residual t) (tg_param_cols t) binds pk_nodes.
Definition shape_with_recent (m : gmap Z Stamp) (i : Z) (s : SubqueryShape) : SubqueryShape :=
  MkSubqShape (sh_shape_id s) (sh_outer_table s) (sh_stream_path s) (sh_pred s) (sh_out_cols s)
    (sh_gate s) (sh_emitted s) (sh_feed_id s) m i.
Definition shape_with_emitted (e : Z) (s : SubqueryShape) : SubqueryShape :=
  MkSubqShape (sh_shape_id s) (sh_outer_table s) (sh_stream_path s) (sh_pred s) (sh_out_cols s)
    (sh_gate s) e (sh_feed_id s) (sh_recent s) (sh_inflight s).
Definition pending_with (buffer : list BufferedDelta) (deferred : list DeferredShapeWork)
    (p : PendingSubqueryShape) : PendingSubqueryShape :=
  MkPendingSubq (ps_shape_id p) (ps_outer_table p) (ps_stream_path p) (ps_pred p) (ps_out_cols p)
    (ps_changes_only p) (ps_collect_log p) buffer deferred.

(** [self.nodes.get_mut(sig)] and the like: change the entry, if there is one. *)
Definition on_node {D} (sig : SubquerySig) (f : SubqueryNode -> SubqueryNode) (r : SubqueryRegistry D)
    : SubqueryRegistry D := set_nodes (alter f sig (r_nodes r)) r.
Definition on_shape {D} (id : str) (f : SubqueryShape -> SubqueryShape) (r : SubqueryRegistry D)
    : SubqueryRegistry D := set_shapes (alter f id (r_shapes r)) r.
Definition on_template {D} (key : str) (f : TemplateGroup -> TemplateGroup) (r : SubqueryRegistry D)
    : SubqueryRegistry D := set_templates (alter f key (r_templates r)) r.

(* ------------------------------------------------------------------ *)
(** ** Leaves *)

Record InLeaf := MkInLeaf {
  il_col : nat; il_sig : SubquerySig; il_negated : bool; il_null_sensitive : bool
}.

(** [collect_in_leaves]. *)
Fixpoint in_leaves (p : CompiledPredicate) (under_not : bool) : list InLeaf :=
  match p with
  | CAnd ps | COr ps => concat (map (λ q, in_leaves q under_not) ps)
  | CNot q => in_leaves q true
  | InSubquery col sig negated => [MkInLeaf col sig negated (negated || under_not)]
  | _ => []
  end.
Definition collect_in_leaves (p : CompiledPredicate) : list InLeaf := in_leaves p false.

(** [predicate_has_subquery]. *)
Fixpoint predicate_has_subquery (p : PredicateJson) : bool :=
  match p with
  | PIn _ _ _ => true
  | PAnd ps | POr ps => existsb predicate_has_subquery ps
  | PNot q => predicate_has_subquery q
  | _ => false
  end.

(** [referenced_tables]. *)
Fixpoint referenced_go (p : PredicateJson) (out : list TableRef) : list TableRef :=
  match p with
  | PIn _ (mkSubquery table _ w) _ =>
      let out := if bool_decide (table ∈ out) then out else out ++ [table] in
      match w with Some w => referenced_go w out | None => out end
  | PAnd ps | POr ps =>
      (fix go (ps : list PredicateJson) (out : list TableRef) :=
         match ps with [] => out | q :: qs => go qs (referenced_go q out) end) ps out
  | PNot q => referenced_go q out
  | _ => out
  end.
Definition referenced_tables (p : PredicateJson) : list TableRef := referenced_go p [].

(* ------------------------------------------------------------------ *)
(** ** Membership kernel *)

Section live.
Context {FT : FloatText} {FE : FaultEnv} {D : Type} {MP : MembershipPipeline D}.
Implicit Types (reg : SubqueryRegistry D).

Definition key_or_empty (ts : TableSchema) (row : Row) : str :=
  match key_string ts row with Ok k => k | Err _ => [] end.

(** [latest_rows_by_pk]. *)
Definition latest_rows (ts : TableSchema) (delta : Delta) : gmap str (Row * bool) :=
  foldl (λ m rw,
           let pk := key_or_empty ts rw.1 in
           if 0 <? rw.2 then <[pk := (rw.1, true)]> m
           else match m !! pk with Some _ => m | None => <[pk := (rw.1, false)]> m end) ∅ delta.
Definition latest_rows_by_pk (ts : TableSchema) (delta : Delta) : list (Row * bool) :=
  (map_to_list (latest_rows ts delta)).*2.

(** ** The evaluation context *)

(** [impl SubqueryEval for SubqueryRegistry]. *)
Definition node_contains reg (sig : SubquerySig) (v : Value) : bool :=
  match r_nodes reg !! sig with
  | Some n => circuit_contains (r_circuit reg) (n_node_id n) v
  | None => false
  end.
Definition reg_eval reg : SubqueryEval :=
  {| ev_contains := node_contains reg; ev_has_null := λ sig, node_contains reg sig VNull |}.

(** ** Contributions *)

(** [apply_asserts]. *)
Definition apply_asserts reg (asserts : list (PkKey * Assert))
    : SubqueryRegistry D * list (SubquerySig * Flip) :=
  let '(d, deltas) := circuit_apply (r_circuit reg) asserts in
  (set_circuit d reg,
   omap (λ m, sig ← r_node_by_id reg !! md_node_id m;
              Some (sig, MkFlip (md_value m) (if 0 <? md_delta m then Enter else Leave))) deltas).

(** The [pk_nodes] side of an assertion. *)
Definition holds_pk (t : TemplateGroup) (pk_id : Z) (sig : SubquerySig) : bool :=
  bool_decide (sig ∈ default ∅ (tg_pk_nodes t !! pk_id)).
Definition add_holder (pk_id : Z) (sig : SubquerySig) (t : TemplateGroup) : TemplateGroup :=
  template_with (tg_binds t)
    (<[pk_id := {[ sig ]} ∪ default ∅ (tg_pk_nodes t !! pk_id)]> (tg_pk_nodes t)) t.
Definition remove_holder (pk_id : Z) (sig : SubquerySig) (t : TemplateGroup) : TemplateGroup :=
  match tg_pk_nodes t !! pk_id with
  | None => t
  | Some set =>
      let set := set ∖ {[ sig ]} in
      template_with (tg_binds t)
        (if bool_decide (set = ∅) then delete pk_id (tg_pk_nodes t)
         else <[pk_id := set]> (tg_pk_nodes t)) t
  end.

(** [assert_node_row]. *)
Definition assert_node_row reg (sig : SubquerySig) (pk : str) (present : option Value)
    : SubqueryRegistry D * option (PkKey * Assert) :=
  match r_nodes reg !! sig with
  | None => (reg, None)
  | Some node =>
      let tkey := n_template_key node in
      let '(dict, pk_id) := get_or_insert (r_pk_dict reg) pk in
      let reg := set_pk_dict dict reg in
      let key := (n_node_id node, pk_id) in
      match present with
      | Some v => (on_template tkey (add_holder pk_id sig) reg, Some (key, AInsert v))
      | None =>
          let had := match r_templates reg !! tkey with Some t => holds_pk t pk_id sig | None => false end in
          (on_template tkey (remove_holder pk_id sig) reg, if had then Some (key, ADelete) else None)
      end
  end.

(** Asserting a batch for one node: the loop of [apply_node_evals] and of the seeds. *)
Definition assert_rows reg (sig : SubquerySig) (evals : list (str * option Value))
    : SubqueryRegistry D * list (PkKey * Assert) :=
  foldl (λ st e, let '(reg, a) := assert_node_row st.1 sig e.1 e.2 in (reg, st.2 ++ option_list a))
        (reg, []) evals.

(** [apply_node_evals]. *)
Definition apply_node_evals reg (sig : SubquerySig) (evals : list (str * option Value))
    : SubqueryRegistry D * list Flip :=
  let '(reg, asserts) := assert_rows reg sig evals in
  let '(reg, flips) := apply_asserts reg asserts in
  (reg, flips.*2).

(** ** Evaluating a change of an inner table *)

(** [node_present_values]. *)
Definition present_step (ts : TableSchema) (st : gmap str Row * list str) (rw : Row * Z)
    : gmap str Row * list str :=
  let pk := key_or_empty ts rw.1 in
  let seen := if bool_decide (pk ∈ st.2) then st.2 else st.2 ++ [pk] in
  (if 0 <? rw.2 then <[pk := rw.1]> st.1 else st.1, seen).
Definition contribution (pred : CompiledPredicate) (proj : nat) (row : Row) (ev : SubqueryEval)
    : option Value :=
  if matches_ctx pred row ev then Some (cell row proj) else None.
Definition node_present_values reg (sig : SubquerySig) (ts : TableSchema) (delta : Delta)
    : list (str * option Value) :=
  match r_nodes reg !! sig with
  | None => []
  | Some n =>
      let '(newrow, seen) := foldl (present_step ts) (∅, []) delta in
      map (λ pk, (pk, r ← (newrow : gmap str Row) !! pk;
                      contribution (n_pred n) (n_proj_col n) r (reg_eval reg))) seen
  end.

(** [node_queryback_evals]. *)
Definition node_queryback_evals reg (sig : SubquerySig) (ts : TableSchema) (rows : list Row)
    (gate : SnapshotGate) : option (list (str * option Value)) :=
  match r_nodes reg !! sig with
  | None => None
  | Some n =>
      Some (omap (λ r,
              let pk := key_or_empty ts r in
              let stale := match n_recent n !! pk with
                           | Some (lsn, xid) => negb (should_skip gate lsn xid)
                           | None => false
                           end in
              if stale then None
              else Some (pk, contribution (n_pred n) (n_proj_col n) r (reg_eval reg))) rows)
  end.

(** [template_present]. *)
Definition template_params (t : TemplateGroup) (row : Row) : Row := cell row <$> tg_param_cols t.
Definition template_target (t : TemplateGroup) (ev : SubqueryEval) (row : Row) : option (SubquerySig * Value) :=
  if matches_ctx (tg_residual t) row ev then
    sig ← tg_binds t !! rkey (template_params t row); Some (sig, cell row (tg_proj_col t))
  else None.
Definition template_present reg (tkey : str) (ts : TableSchema) (delta : Delta)
    : list (str * option (SubquerySig * Value)) :=
  match r_templates reg !! tkey with
  | None => []
  | Some t =>
      map (λ rb : Row * bool,
             (key_or_empty ts rb.1, if rb.2 then template_target t (reg_eval reg) rb.1 else None))
          (latest_rows_by_pk ts delta)
  end.

(** The [node_applies] closure. *)
Definition node_applies reg (lsn : Z) (xid : option Z) (sig : SubquerySig) : bool :=
  match r_nodes reg !! sig with
  | Some n => match n_seed_buffer n with Some _ => false | None => negb (should_skip (n_gate n) lsn xid) end
  | None => false
  end.

Definition record_recent (pk : str) (stamp : Stamp) reg (sig : SubquerySig) : SubqueryRegistry D :=
  on_node sig (λ n, node_with_recent (<[pk := stamp]> (n_recent n)) (n_inflight n) n) reg.

Definition is_target (target : option (SubquerySig * Value)) (sig : SubquerySig) : bool :=
  match target with Some (t, _) => bool_decide (t = sig) | None => false end.

Definition assert_if_applies (lsn : Z) (xid : option Z) (pk : str) (present : option Value)
    (st : SubqueryRegistry D * list (PkKey * Assert)) (sig : SubquerySig)
    : SubqueryRegistry D * list (PkKey * Assert) :=
  if node_applies st.1 lsn xid sig then
    let '(reg, a) := assert_node_row st.1 sig pk present in (reg, st.2 ++ option_list a)
  else st.

(** The body of the loop of [template_assertions], and the whole of it. *)
Definition template_assert (tkey : str) (fenced : list SubquerySig) (lsn : Z) (xid : option Z)
    (st : SubqueryRegistry D * list (PkKey * Assert)) (e : str * option (SubquerySig * Value))
    : SubqueryRegistry D * list (PkKey * Assert) :=
  let '(pk, target) := e in
  let reg := foldl (record_recent pk (lsn, xid)) st.1 fenced in
  let holders :=
    match pk_get (r_pk_dict reg) pk with
    | Some pk_id => match r_templates reg !! tkey with
                    | Some t => elements (default ∅ (tg_pk_nodes t !! pk_id))
                    | None => []
                    end
    | None => []
    end in
  let st := foldl (λ st sig, if is_target target sig then st
                             else assert_if_applies lsn xid pk None st sig) (reg, st.2) holders in
  match target with
  | Some (sig, v) => assert_if_applies lsn xid pk (Some v) st sig
  | None => st
  end.
Definition fenced_binds reg (tkey : str) (lsn : Z) (xid : option Z) : list SubquerySig :=
  match r_templates reg !! tkey with
  | None => []
  | Some t =>
      filter (λ sig, match r_nodes reg !! sig with
                     | Some n => (0 <? n_inflight n) && node_applies reg lsn xid sig
                     | None => false
                     end = true) (map_to_list (tg_binds t)).*2
  end.
Definition template_assertions reg (tkey : str) (evals : list (str * option (SubquerySig * Value)))
    (lsn : Z) (xid : option Z) : SubqueryRegistry D * list (PkKey * Assert) :=
  foldl (template_assert tkey (fenced_binds reg tkey lsn xid) lsn xid) (reg, []) evals.

(** ** The emission tail *)

(** What the evaluation of one shape's candidates has done so far. *)
Record Emitting := MkEmitting {
  eg_dict : PkDict;
  eg_feeds : FeedSet;
  eg_members : list Row;
  eg_evaluated : list Z;
  eg_deletes : list str
}.

Definition emit_candidate (ts : TableSchema) (pred : CompiledPredicate) (ev : SubqueryEval)
    (feed_id : Z) (record_recency : bool) (st : Emitting) (c : Row * bool) : Emitting :=
  let note id l := if record_recency then l ++ [id] else l in
  match key_string ts c.1 with
  | Err _ => st
  | Ok pk =>
      if c.2 && matches_ctx pred c.1 ev then
        let '(dict, id) := get_or_insert (eg_dict st) pk in
        MkEmitting dict (feed_insert feed_id id (eg_feeds st)) (eg_members st ++ [c.1])
          (note id (eg_evaluated st)) (eg_deletes st)
      else
        match pk_get (eg_dict st) pk with
        | Some id =>
            let '(feeds, had) := feed_remove feed_id id (eg_feeds st) in
            MkEmitting (eg_dict st) feeds (eg_members st) (note id (eg_evaluated st))
              (if had then eg_deletes st ++ [pk] else eg_deletes st)
        | None =>
            if record_recency then
              let '(dict, id) := get_or_insert (eg_dict st) pk in
              MkEmitting dict (eg_feeds st) (eg_members st) (note id (eg_evaluated st)) (eg_deletes st)
            else st
        end
  end.

Definition live_stamp (source : EmissionSource) : option Stamp :=
  match source with
  | SrcLive lsn xid | SrcReplay lsn xid => Some (lsn, xid)
  | SrcQueryBack _ => None
  end.

(** A query-back's candidates, less those a live decision it could not see has decided. *)
Definition stale_candidate (ts : TableSchema) (dict : PkDict) (recent : gmap Z Stamp)
    (gate : SnapshotGate) (row : Row) : bool :=
  match key_string ts row with
  | Err _ => false
  | Ok pk =>
      match (id ← pk_get dict pk; recent !! id) with
      | Some (lsn, xid) => negb (should_skip gate lsn xid)
      | None => false
      end
  end.
Definition current_candidates (ts : TableSchema) (dict : PkDict) (s : SubqueryShape)
    (source : EmissionSource) (candidates : list (Row * bool)) : list (Row * bool) :=
  match source with
  | SrcQueryBack gate =>
      filter (λ c : Row * bool, stale_candidate ts dict (sh_recent s) gate c.1 = false) candidates
  | _ => candidates
  end.

(** A live decision leaves its stamp on the keys it evaluated. *)
Definition record_stamps (source : EmissionSource) (evaluated : list Z) (s : SubqueryShape) : SubqueryShape :=
  match live_stamp source with
  | Some stamp =>
      shape_with_recent (foldl (λ m id, <[id := stamp]> m) (sh_recent s) evaluated) (sh_inflight s) s
  | None => s
  end.

(** The first phase, one shape at a time. *)
Definition emit_group (ts : TableSchema) (source : EmissionSource)
    (st : SubqueryRegistry D * list (str * list Row) * gmap str (list str))
    (g : str * list (Row * bool))
    : SubqueryRegistry D * list (str * list Row) * gmap str (list str) :=
  let '(reg, staged, deletes) := st in
  match r_shapes reg !! g.1 with
  | None => st
  | Some s =>
      let record := (0 <? sh_inflight s) &&
                    match live_stamp source with Some _ => true | None => false end in
      let e := foldl (emit_candidate ts (sh_pred s) (reg_eval reg) (sh_feed_id s) record)
                 (MkEmitting (r_pk_dict reg) (r_feed_sets reg) [] [] [])
                 (current_candidates ts (r_pk_dict reg) s source g.2) in
      let reg := set_pk_dict (eg_dict e) (set_feed_sets (eg_feeds e) reg) in
      let reg := on_shape g.1 (record_stamps source (eg_evaluated e)) reg in
      (reg, staged ++ [(g.1, eg_members e)],
       match eg_deletes e with
       | [] => deletes
       | dels => <[g.1 := default [] (deletes !! g.1) ++ dels]> deletes
       end)
  end.

(** [deliver]: with lanes, [enqueue]; an append otherwise. *)
Definition deliver (path : str) (envs : list Envelope) reg : SubqueryRegistry D :=
  set_sent (r_sent reg ++ [(path, envs)]) reg.

(** The last phase. *)
Definition deliver_group (ts : TableSchema) (txid : option str)
    (st : SubqueryRegistry D * gmap str (list str) * list (str * bool * Z)) (g : str * list Row)
    : SubqueryRegistry D * gmap str (list str) * list (str * bool * Z) :=
  let '(reg, deletes, results) := st in
  match r_shapes reg !! g.1 with
  | None => st
  | Some s =>
      let dels := default [] (deletes !! g.1) in
      let deletes := delete g.1 deletes in
      let net := Z.of_nat (length g.2) - Z.of_nat (length dels) in
      let envs := translate_output ts (map (λ r, (r, 1)) g.2) txid None (sh_out_cols s) ++
                  delete_envelopes ts dels txid in
      match envs with
      | [] => (reg, deletes, results ++ [(g.1, false, 0)])
      | _ =>
          let reg := on_shape g.1 (λ s, shape_with_emitted
                       (wrap_u64 (sh_emitted s + Z.of_nat (length envs))) s) reg in
          (deliver (sh_stream_path s) envs reg, deletes, results ++ [(g.1, true, net)])
      end
  end.

(** [emit_for_shapes]; it has no failing branch. *)
Definition emit_for_shapes reg (ts : TableSchema) (groups : list (str * list (Row * bool)))
    (txid : option str) (source : EmissionSource) : SubqueryRegistry D * list (str * bool * Z) :=
  let '(reg, staged, deletes) := foldl (emit_group ts source) (reg, [], ∅) groups in
  let '(reg, _, results) := foldl (deliver_group ts txid) (reg, deletes, []) staged in
  (reg, results).

(* ------------------------------------------------------------------ *)
(** ** A table change *)

(** [touches]. *)
Definition touches reg (table : TableRef) : bool :=
  has_table (r_shape_index reg) (TableRef_as_str table) ||
  existsb (λ e : str * SubqueryNode, bool_decide (n_inner_table e.2 = table)) (map_to_list (r_nodes reg)) ||
  existsb (λ p, bool_decide (ps_outer_table p = table)) (r_pending_shapes reg).

(** [outer_candidates]. *)
Definition outer_candidates reg (table : TableRef) (delta : Delta) : list str :=
  shape_candidates (r_shape_index reg) (TableRef_as_str table) delta.

Definition buffer_seed (lsn : Z) (xid : option Z) (delta : Delta) reg (sig : SubquerySig)
    : SubqueryRegistry D :=
  on_node sig (λ n, match n_seed_buffer n with
                    | Some buf => node_with_seed_buffer (Some (buf ++ [MkBuffered lsn xid delta])) n
                    | None => n
                    end) reg.

(** One template of the changed table. *)
Definition delta_template (ts : TableSchema) (delta : Delta) (lsn : Z) (xid : option Z)
    (st : SubqueryRegistry D * list (PkKey * Assert)) (tkey : str)
    : SubqueryRegistry D * list (PkKey * Assert) :=
  let sigs := match r_templates st.1 !! tkey with
              | Some t => (map_to_list (tg_binds t)).*2
              | None => []
              end in
  let reg := foldl (buffer_seed lsn xid delta) st.1 sigs in
  let evals := template_present reg tkey ts delta in
  let '(reg, asserts) := template_assertions reg tkey evals lsn xid in
  (reg, st.2 ++ asserts).

(** Step 1: the nodes. *)
Definition delta_nodes reg (ts : TableSchema) (delta : Delta) (lsn : Z) (xid : option Z)
    : SubqueryRegistry D * list (SubquerySig * Flip) :=
  let tkeys := (filter (λ kt : str * TemplateGroup, tg_inner_table kt.2 = ts_table ts)
                  (map_to_list (r_templates reg))).*1 in
  let '(reg, asserts) := foldl (delta_template ts delta lsn xid) (reg, []) tkeys in
  apply_asserts reg asserts.

(** Step 2: the installed shapes; a trace subscriber has every shape of the table visited. *)
Definition shape_skips reg (lsn : Z) (xid : option Z) (id : str) : bool :=
  match r_shapes reg !! id with Some s => should_skip (sh_gate s) lsn xid | None => false end.
Definition delta_shapes (traced : bool) reg (ts : TableSchema) (delta : Delta) (lsn : Z)
    (xid : option Z) (txid : option str) : SubqueryRegistry D * list (str * bool * Z) :=
  let ids := if traced
             then (filter (λ e : str * SubqueryShape, sh_outer_table e.2 = ts_table ts)
                     (map_to_list (r_shapes reg))).*1
             else outer_candidates reg (ts_table ts) delta in
  let groups := map (λ id, (id, latest_rows_by_pk ts delta))
                    (filter (λ id, shape_skips reg lsn xid id = false) ids) in
  emit_for_shapes reg ts groups txid (SrcLive lsn xid).

(** Step 2b: the shapes being created. *)
Definition buffer_outer (table : TableRef) (b : BufferedDelta) reg : SubqueryRegistry D :=
  set_pending_shapes
    (map (λ p, if bool_decide (ps_outer_table p = table)
               then pending_with (ps_buffer p ++ [b]) (ps_deferred p) p else p)
         (r_pending_shapes reg)) reg.

(** [on_table_delta]. *)
Definition on_table_delta (traced : bool) reg (ts : TableSchema) (delta : Delta) (lsn : Z)
    (xid : option Z) (txid : option str) : res str (SubqueryRegistry D * list (SubquerySig * Flip)) :=
  let '(reg, flips) := delta_nodes reg ts delta lsn xid in
  let '(reg, _) := delta_shapes traced reg ts delta lsn xid txid in
  Ok (buffer_outer (ts_table ts) (MkBuffered lsn xid delta) reg, flips).

(** The registry as the sequencer uses it. *)
#[export] Instance registry_interface : SubqRegistry (SubqueryRegistry D) (SubquerySig * Flip) := {|
  reg_touches := touches;
  reg_on_table_delta := on_table_delta false
|}.

(* ------------------------------------------------------------------ *)
(** ** The lock halves of a query-back

    The lock is released between a [begin] and its [end], while Postgres answers; counters are
    [u32] and saturate. *)

Definition sat_incr (z : Z) : Z := Z.min u32_max (z + 1).
Definition sat_decr (z : Z) : Z := Z.max 0 (z - 1).

(** [begin_queryback], [end_queryback] and their node versions. *)
Definition begin_queryback (id : str) reg : SubqueryRegistry D :=
  on_shape id (λ s, shape_with_recent (sh_recent s) (sat_incr (sh_inflight s)) s) reg.
Definition end_queryback (id : str) reg : SubqueryRegistry D :=
  on_shape id (λ s, let i := sat_decr (sh_inflight s) in
                    shape_with_recent (if i =? 0 then ∅ else sh_recent s) i s) reg.
Definition begin_node_queryback (sig : SubquerySig) reg : SubqueryRegistry D :=
  on_node sig (λ n, node_with_recent (n_recent n) (sat_incr (n_inflight n)) n) reg.
Definition end_node_queryback (sig : SubquerySig) reg : SubqueryRegistry D :=
  on_node sig (λ n, let i := sat_decr (n_inflight n) in
                    node_with_recent (if i =? 0 then ∅ else n_recent n) i n) reg.

(** [record_node_recency]. *)
Definition record_node_recency (sig : SubquerySig) (pks : list str) (lsn : Z) (xid : option Z) reg
    : SubqueryRegistry D :=
  on_node sig (λ n, if n_inflight n =? 0 then n
                    else node_with_recent (foldl (λ m pk, <[pk := (lsn, xid)]> m) (n_recent n) pks)
                           (n_inflight n) n) reg.
End live.
