(* ===== verification/SubqueryFacts.v ===== *)
(** * Facts about the live registry ([Subquery])

    Which rows a change of the inner sets can move, what a batch of assertions does to the sets,
    and what the emission tail does to a shape's subscribers. *)

From S2P Require Import Prelude BTree Value TableRef Schema Predicate PredicateFacts Gate Output.
From S2P Require Import Executors Refine Sequencer PkDict SubqIndex SubqCircuit Subquery.
From stdpp Require Import base option numbers strings gmap fin_maps sorting list.
#[local] Open Scope Z_scope.

(* ------------------------------------------------------------------ *)
(** ** The leaves of a predicate *)

(** The row is among those a query-back for the flip visits along the leaf's edge. *)
Definition leaf_reaches (row : Row) (sig : SubquerySig) (v : Value) (l : InLeaf) : bool :=
  bool_decide (il_sig l = sig) &&
  (if value_is_null v then il_null_sensitive l else value_eqb (cell row (il_col l)) v).

Section leaves.
Context {FE : FaultEnv}.

(** Two contexts that differ only at [diff]. *)
Definition agree_off (diff : SubquerySig -> Value -> Prop) (ev ev' : SubqueryEval) : Prop :=
  (forall sig v, ev_contains sig v (SubqueryEval := ev) <> ev_contains sig v (SubqueryEval := ev') ->
     exists u, diff sig u /\ vkey u = vkey v) /\
  (forall sig, ev_has_null sig (SubqueryEval := ev) <> ev_has_null sig (SubqueryEval := ev') ->
     exists u, diff sig u /\ value_is_null u = true).

Lemma value_is_null_vkey u v : vkey u = vkey v -> value_is_null u = value_is_null v.
Proof. destruct u as [| |f| |], v as [| |g| |]; simpl; try destruct f; try destruct g; done. Qed.

Lemma in_leaves_reach diff ev ev' row p : agree_off diff ev ev' ->
  forall under, (forall l, l ∈ in_leaves p under -> forall u, diff (il_sig l) u ->
                   leaf_reaches row (il_sig l) u l = false) ->
  eval_ctx p row ev = eval_ctx p row ev'.
Proof.
  intros [Hc Hn]. induction p as [| | |ps IH|ps IH|q IH|col sig neg] using CompiledPredicate_rect';
    intros under Hl; try done.
  - rewrite !eval_and. f_equal. apply map_ext_in. intros q Hq. rewrite List.Forall_forall in IH.
    apply (IH q Hq under). intros l Hin. apply Hl. simpl. apply list_elem_of_In, in_concat.
    exists (in_leaves q under). split; [by apply (in_map (λ q, in_leaves q under))|by apply list_elem_of_In].
  - rewrite !eval_or. f_equal. apply map_ext_in. intros q Hq. rewrite List.Forall_forall in IH.
    apply (IH q Hq under). intros l Hin. apply Hl. simpl. apply list_elem_of_In, in_concat.
    exists (in_leaves q under). split; [by apply (in_map (λ q, in_leaves q under))|by apply list_elem_of_In].
  - simpl. by rewrite (IH true) by exact Hl.
  - simpl. destruct (value_is_null (cell row col)) eqn:En; [done|].
    set (lf := MkInLeaf col sig neg (neg || under)).
    assert (Hlf : forall u, diff sig u -> leaf_reaches row sig u lf = false)
      by (intros u Hu; apply (Hl lf); [by left|done]).
    assert (E1 : ev_contains sig (cell row col) (SubqueryEval := ev) =
                 ev_contains sig (cell row col) (SubqueryEval := ev')).
    { destruct (decide (ev_contains sig (cell row col) (SubqueryEval := ev) =
                        ev_contains sig (cell row col) (SubqueryEval := ev'))) as [|Hne]; [done|].
      apply Hc in Hne as (u & Hu & Hk). specialize (Hlf u Hu). unfold leaf_reaches in Hlf. simpl in Hlf.
      rewrite bool_decide_eq_true_2, (value_is_null_vkey _ _ Hk), En in Hlf by done. simpl in Hlf.
      assert (value_eqb (cell row col) u = true) by (by apply value_eqb_vkey). congruence. }
    rewrite E1. destruct neg; [|done]. simpl.
    assert (E2 : ev_has_null sig (SubqueryEval := ev) = ev_has_null sig (SubqueryEval := ev')).
    { destruct (decide (ev_has_null sig (SubqueryEval := ev) = ev_has_null sig (SubqueryEval := ev')))
        as [|Hne]; [done|].
      apply Hn in Hne as (u & Hu & Hk). specialize (Hlf u Hu). unfold leaf_reaches in Hlf. simpl in Hlf.
      rewrite bool_decide_eq_true_2, Hk in Hlf by done. done. }
    by rewrite E2.
Qed.

(** If a change of the sets changes whether a row matches, then one of the changed values reaches
    the row along one of the predicate's leaves. *)
Lemma flips_reach (flips : list (SubquerySig * Value)) ev ev' row p :
  agree_off (λ sig u, (sig, u) ∈ flips) ev ev' ->
  matches_ctx p row ev <> matches_ctx p row ev' ->
  exists l u, l ∈ collect_in_leaves p /\ (il_sig l, u) ∈ flips /\ leaf_reaches row (il_sig l) u l = true.
Proof.
  intros Ha Hne.
  set (hit (l : InLeaf) (f : SubquerySig * Value) := bool_decide (f.1 = il_sig l) && leaf_reaches row (il_sig l) f.2 l).
  destruct (existsb (λ l, existsb (hit l) flips) (collect_in_leaves p)) eqn:E.
  - apply existsb_exists in E as (l & Hl & ([sig u] & Hu & [Hs%bool_decide_eq_true Hh]%andb_true_iff)%existsb_exists).
    simpl in *. subst sig. exists l, u. by rewrite !list_elem_of_In.
  - exfalso. apply Hne. unfold matches_ctx. rewrite (in_leaves_reach _ _ _ row p Ha false); [done|].
    intros l Hl u Hu. apply not_true_is_false. intros Ht.
    assert (existsb (λ l, existsb (hit l) flips) (collect_in_leaves p) = true); [|congruence].
    apply existsb_exists. exists l. split; [by apply list_elem_of_In|].
    apply existsb_exists. exists (il_sig l, u). split; [by apply list_elem_of_In|].
    unfold hit; simpl. by rewrite bool_decide_eq_true_2, Ht.
Qed.
End leaves.

(* ------------------------------------------------------------------ *)
(** ** What the assertions leave alone *)

(** A node without its recency and what its buffer holds, a template without its holders. *)
Definition node_core (n : SubqueryNode) : SubqueryNode :=
  node_with_recent ∅ (n_inflight n) (node_with_seed_buffer ((λ _, []) <$> n_seed_buffer n) n).
Definition template_core (t : TemplateGroup) : TemplateGroup := template_with (tg_binds t) ∅ t.
(** The part of a node that names its contributions. *)
Definition node_key (n : SubqueryNode) : Z * str * Row * (TableRef * nat) :=
  (n_node_id n, n_template_key n, n_bind n, (n_inner_table n, n_proj_col n)).

Section frame.
Context {FT : FloatText} {FE : FaultEnv} {D : Type} {MP : MembershipPipeline D}.
Implicit Types (reg : SubqueryRegistry D).

(** Between the two only recencies, what is buffered, holders and the dictionary differ, and the
    dictionary grew. *)
Record sets_frame reg reg' : Prop := {
  sf_nodes : forall s, node_core <$> r_nodes reg' !! s = node_core <$> r_nodes reg !! s;
  sf_templates : forall k, template_core <$> r_templates reg' !! k = template_core <$> r_templates reg !! k;
  sf_dict : dict_le (r_pk_dict reg) (r_pk_dict reg');
  sf_rest : reg' = set_nodes (r_nodes reg') (set_templates (r_templates reg')
                     (set_pk_dict (r_pk_dict reg') reg))
}.

#[export] Instance sets_frame_preorder : PreOrder sets_frame.
Proof.
  split.
  - intros reg. split; [done..|by destruct reg].
  - intros a b c [H1 H2 H3 H4] [G1 G2 G3 G4]. split.
    + intros s. by rewrite G1.
    + intros k. by rewrite G2.
    + by etransitivity.
    + rewrite G4 at 1. by rewrite H4 at 1.
Qed.

Lemma sf_circuit reg reg' : sets_frame reg reg' -> r_circuit reg' = r_circuit reg.
Proof. intros [_ _ _ ->]. done. Qed.
Lemma sf_node_by_id reg reg' : sets_frame reg reg' -> r_node_by_id reg' = r_node_by_id reg.
Proof. intros [_ _ _ ->]. done. Qed.

Lemma sf_node reg reg' s n : sets_frame reg reg' -> r_nodes reg !! s = Some n ->
  exists n', r_nodes reg' !! s = Some n' /\ node_core n' = node_core n.
Proof.
  intros [H _ _ _] Hs. specialize (H s). rewrite Hs in H. simpl in H.
  apply fmap_Some in H as (n' & -> & ->). eauto.
Qed.

Lemma node_core_key n n' : node_core n = node_core n' -> node_key n = node_key n'.
Proof. intros H. exact (f_equal node_key H). Qed.

Lemma node_core_applies n n' : node_core n = node_core n' ->
  (λ _, [] : list BufferedDelta) <$> n_seed_buffer n = (λ _, []) <$> n_seed_buffer n' /\
  n_gate n = n_gate n' /\ n_inflight n = n_inflight n'.
Proof.
  intros H. split_and!; [exact (f_equal n_seed_buffer H)|exact (f_equal n_gate H)|exact (f_equal n_inflight H)].
Qed.

Lemma sf_applies reg reg' lsn xid s : sets_frame reg reg' ->
  node_applies reg' lsn xid s = node_applies reg lsn xid s.
Proof.
  intros [H _ _ _]. specialize (H s). unfold node_applies.
  destruct (r_nodes reg' !! s) as [n'|], (r_nodes reg !! s) as [n|]; simpl in H; try done.
  apply (inj Some) in H.
  destruct (node_core_applies _ _ H) as (Hb & -> & _).
  by destruct (n_seed_buffer n'), (n_seed_buffer n).
Qed.

Lemma sf_contains reg reg' sig v : sets_frame reg reg' -> node_contains reg' sig v = node_contains reg sig v.
Proof.
  intros Hf. unfold node_contains. rewrite (sf_circuit _ _ Hf). pose proof (sf_nodes _ _ Hf sig) as H.
  destruct (r_nodes reg' !! sig) as [n'|], (r_nodes reg !! sig) as [n|]; simpl in H; try done.
  apply (inj Some) in H.
  apply node_core_key in H. injection H as Hid _ _ _ _. by rewrite Hid.
Qed.

Lemma alter_core {A B} (core : A -> B) (f : A -> A) (m : gmap str A) k k' :
  (forall x, core (f x) = core x) -> core <$> alter f k m !! k' = core <$> m !! k'.
Proof.
  intros Hf. destruct (decide (k = k')) as [->|Hne].
  - rewrite lookup_alter_eq. destruct (m !! k'); simpl; [by rewrite Hf|done].
  - by rewrite lookup_alter_ne.
Qed.

Lemma record_recent_frame pk stamp reg sig : sets_frame reg (record_recent pk stamp reg sig).
Proof.
  split; [|done|done|by destruct reg]. intros s. simpl. by apply alter_core.
Qed.

Lemma template_core_add id sig t : template_core (add_holder id sig t) = template_core t.
Proof. done. Qed.
Lemma template_core_remove id sig t : template_core (remove_holder id sig t) = template_core t.
Proof. unfold remove_holder. by destruct (tg_pk_nodes t !! id). Qed.

Lemma assert_node_row_frame reg sig pk present : sets_frame reg (assert_node_row reg sig pk present).1.
Proof.
  unfold assert_node_row. destruct (r_nodes reg !! sig) as [n|]; [|done].
  pose proof (pk_mint_le (r_pk_dict reg) pk) as Hd. rewrite <- get_or_insert_mint in Hd.
  destruct (get_or_insert (r_pk_dict reg) pk) as [d id]. simpl in Hd.
  destruct present; split; simpl; try done; intros k; apply alter_core; intros t;
    [apply template_core_add|apply template_core_remove].
Qed.

Lemma foldl_frame {A} (f : SubqueryRegistry D * list (PkKey * Assert) -> A ->
    SubqueryRegistry D * list (PkKey * Assert)) l :
  (forall st x, sets_frame st.1 (f st x).1) -> forall st, sets_frame st.1 (foldl f st l).1.
Proof.
  intros Hf. induction l as [|x l IH]; intros st; simpl; [done|].
  etransitivity; [apply Hf|apply IH].
Qed.

Lemma assert_if_applies_frame lsn xid pk present st sig :
  sets_frame st.1 (assert_if_applies lsn xid pk present st sig).1.
Proof.
  unfold assert_if_applies. destruct (node_applies _ _ _ _); [|done].
  pose proof (assert_node_row_frame st.1 sig pk present) as H.
  by destruct (assert_node_row st.1 sig pk present).
Qed.

Lemma record_all_frame pk stamp l : forall reg, sets_frame reg (foldl (record_recent pk stamp) reg l).
Proof.
  induction l as [|s l IH]; intros reg; simpl; [done|].
  etransitivity; [apply record_recent_frame|apply IH].
Qed.

Lemma drop_holders_frame lsn xid pk target hs st :
  sets_frame st.1 (foldl (λ st sig, if is_target target sig then st
                                    else assert_if_applies lsn xid pk None st sig) st hs).1.
Proof.
  apply (foldl_frame (λ st sig, if is_target target sig then st
                                else assert_if_applies lsn xid pk None st sig)).
  intros st' s. destruct (is_target target s); [done|apply assert_if_applies_frame].
Qed.

Lemma template_assert_frame tkey fenced lsn xid st e :
  sets_frame st.1 (template_assert tkey fenced lsn xid st e).1.
Proof.
  destruct e as [pk target]. unfold template_assert.
  pose proof (record_all_frame pk (lsn, xid) fenced st.1) as H1.
  set (reg := foldl (record_recent pk (lsn, xid)) st.1 fenced) in *.
  set (hs := match pk_get (r_pk_dict reg) pk with Some _ => _ | None => _ end).
  pose proof (drop_holders_frame lsn xid pk target hs (reg, st.2)) as H2.
  destruct target as [[sig v]|]; [|by etransitivity].
  etransitivity; [exact H1|]. etransitivity; [exact H2|]. apply assert_if_applies_frame.
Qed.

Lemma template_assertions_frame reg tkey evals lsn xid :
  sets_frame reg (template_assertions reg tkey evals lsn xid).1.
Proof.
  unfold template_assertions.
  apply (foldl_frame (template_assert tkey (fenced_binds reg tkey lsn xid) lsn xid) evals
           (λ st e, template_assert_frame _ _ _ _ st e) (reg, [])).
Qed.
End frame.

(* ------------------------------------------------------------------ *)
(** ** The sets behind the nodes *)

Abbreviation Held := (gmap PkKey Value).

Section sets.
Context {FT : FloatText} {FE : FaultEnv} {D : Type} {MP : MembershipPipeline D}.
Implicit Types (reg : SubqueryRegistry D) (H : Held).

(** What a key contributes to a node, the circuit's relation being [H]. *)
Definition holds reg H (sig : SubquerySig) (pk : str) : option Value :=
  n ← r_nodes reg !! sig; id ← pk_get (r_pk_dict reg) pk; H !! (n_node_id n, id).

(** The dictionary, the node numbers and the templates agree with the circuit's relation: a node is
    found under its number, and under its bind in its template, whose holder index is exactly who
    holds what. *)
Record sets_ok reg H : Prop := {
  so_dict : dict_ok (r_pk_dict reg);
  so_by_id : forall s n, r_nodes reg !! s = Some n -> r_node_by_id reg !! n_node_id n = Some s;
  so_numbered : forall i s, r_node_by_id reg !! i = Some s ->
    exists n, r_nodes reg !! s = Some n /\ n_node_id n = i;
  so_keys : forall i id, is_Some (H !! (i, id)) -> 0 <= id < Z.of_nat (pk_len (r_pk_dict reg));
  so_holders : forall s n, r_nodes reg !! s = Some n ->
    exists t, r_templates reg !! n_template_key n = Some t /\
      tg_binds t !! n_bind n = Some s /\
      tg_inner_table t = n_inner_table n /\ tg_proj_col t = n_proj_col n /\
      forall id, s ∈ default ∅ (tg_pk_nodes t !! id) <-> is_Some (H !! (n_node_id n, id));
  so_binds : forall k t b s, r_templates reg !! k = Some t -> tg_binds t !! b = Some s ->
    exists n, r_nodes reg !! s = Some n /\ n_template_key n = k /\ n_bind n = b;
  so_holder_nodes : forall k t id s, r_templates reg !! k = Some t ->
    s ∈ default ∅ (tg_pk_nodes t !! id) -> exists n, r_nodes reg !! s = Some n /\ n_template_key n = k
}.

Lemma so_inj reg H s1 s2 n1 n2 : sets_ok reg H ->
  r_nodes reg !! s1 = Some n1 -> r_nodes reg !! s2 = Some n2 -> n_node_id n1 = n_node_id n2 -> s1 = s2.
Proof.
  intros Hok H1%(so_by_id _ _ Hok) H2%(so_by_id _ _ Hok) He. rewrite He in H1. congruence.
Qed.

(** Only the keys of nodes and what they name matter. *)
Lemma sets_ok_nodes reg H m :
  (forall s, node_key <$> m !! s = node_key <$> r_nodes reg !! s) ->
  sets_ok reg H -> sets_ok (set_nodes m reg) H /\ forall s pk, holds (set_nodes m reg) H s pk = holds reg H s pk.
Proof.
  intros Hm Hok.
  assert (Hto : forall s n, m !! s = Some n ->
    exists n', r_nodes reg !! s = Some n' /\ node_key n = node_key n').
  { intros s n Hs. specialize (Hm s). rewrite Hs in Hm. symmetry in Hm. simpl in Hm.
    apply fmap_Some in Hm as (n' & ? & ?). eauto. }
  assert (Hfrom : forall s n, r_nodes reg !! s = Some n ->
    exists n', m !! s = Some n' /\ node_key n' = node_key n).
  { intros s n Hs. specialize (Hm s). rewrite Hs in Hm. simpl in Hm.
    apply fmap_Some in Hm as (n' & ? & ?). eauto. }
  split.
  - split; simpl.
    + apply Hok.
    + intros s n (n' & Hs & Hk)%Hto. injection Hk as -> _ _ _ _. by eapply so_by_id.
    + intros i s Hi. destruct (so_numbered _ _ Hok _ _ Hi) as (n & (n' & Hs & Hk)%Hfrom & <-).
      injection Hk as ? ? ? ? ?. eauto.
    + apply Hok.
    + intros s n (n' & Hs & Hk)%Hto. injection Hk as -> -> -> -> ->. by eapply so_holders.
    + intros k t b s Ht Hb. destruct (so_binds _ _ Hok _ _ _ _ Ht Hb) as (n & (n' & Hs & Hk)%Hfrom & <- & <-).
      injection Hk as ? ? ? ? ?. eauto.
    + intros k t id s Ht Hb. destruct (so_holder_nodes _ _ Hok _ _ _ _ Ht Hb) as (n & (n' & Hs & Hk)%Hfrom & <-).
      injection Hk as ? ? ? ? ?. eauto.
  - intros s pk. unfold holds. simpl. specialize (Hm s).
    destruct (m !! s) as [n|], (r_nodes reg !! s) as [n'|]; simpl in Hm; try done.
    apply (inj Some) in Hm. injection Hm as Hid _ _ _ _. simpl. by rewrite Hid.
Qed.

Lemma record_recent_sets pk stamp reg H sig : sets_ok reg H ->
  sets_ok (record_recent pk stamp reg sig) H /\
  forall s pk', holds (record_recent pk stamp reg sig) H s pk' = holds reg H s pk'.
Proof. apply sets_ok_nodes. intros s. by apply alter_core. Qed.

Lemma record_all_sets pk stamp H l : forall reg, sets_ok reg H ->
  sets_ok (foldl (record_recent pk stamp) reg l) H /\
  forall s pk', holds (foldl (record_recent pk stamp) reg l) H s pk' = holds reg H s pk'.
Proof.
  induction l as [|s l IH]; intros reg Hok; simpl; [done|].
  destruct (record_recent_sets pk stamp reg H s Hok) as [H1 H2].
  destruct (IH _ H1) as [H3 H4]. split; [done|]. intros. by rewrite H4, H2.
Qed.

(** The holder index after one change. *)
Lemma add_holder_in id sig t id' s :
  s ∈ default ∅ (tg_pk_nodes (add_holder id sig t) !! id') <->
  (id' = id /\ s = sig) \/ s ∈ default ∅ (tg_pk_nodes t !! id').
Proof.
  simpl. destruct (decide (id = id')) as [->|Hne].
  - rewrite lookup_insert_eq. simpl. set_solver.
  - rewrite lookup_insert_ne by done. naive_solver.
Qed.

Lemma remove_holder_in id sig t id' s :
  s ∈ default ∅ (tg_pk_nodes (remove_holder id sig t) !! id') <->
  ~ (id' = id /\ s = sig) /\ s ∈ default ∅ (tg_pk_nodes t !! id').
Proof.
  unfold remove_holder. destruct (tg_pk_nodes t !! id) as [set|] eqn:E; simpl.
  2: { split; [|by intros [_ ?]]. intros Hs. split; [|done]. intros [-> _]. rewrite E in Hs. simpl in Hs. set_solver. }
  destruct (decide (id = id')) as [<-|Hne].
  - rewrite E. simpl. case_bool_decide as He.
    + rewrite lookup_delete_eq. simpl. set_solver.
    + rewrite lookup_insert_eq. simpl. set_solver.
  - case_bool_decide; [rewrite lookup_delete_ne by done|rewrite lookup_insert_ne by done]; naive_solver.
Qed.

(** Replacing the holders of one node's template at one key, together with the relation there. *)
Lemma sets_ok_update reg H sig n pk id (f : TemplateGroup -> TemplateGroup) (v : option Value) :
  sets_ok reg H -> r_nodes reg !! sig = Some n -> pk_get (r_pk_dict reg) pk = Some id ->
  (forall t, template_core (f t) = template_core t) ->
  (forall t id' s, s ∈ default ∅ (tg_pk_nodes (f t) !! id') <->
     if decide (id' = id /\ s = sig) then is_Some v else s ∈ default ∅ (tg_pk_nodes t !! id')) ->
  let H' := partial_alter (λ _, v) (n_node_id n, id) H in
  let reg' := on_template (n_template_key n) f reg in
  sets_ok reg' H' /\
  forall s pk', holds reg' H' s pk' = if decide (s = sig /\ pk' = pk) then v else holds reg H s pk'.
Proof.
  intros Hok Hn Hid Hcore Hf H' reg'.
  assert (Ht' : forall k t, r_templates reg' !! k = Some t -> exists t0, r_templates reg !! k = Some t0 /\
            (if decide (k = n_template_key n) then t = f t0 else t = t0)).
  { intros k t Ht. unfold reg', on_template in Ht. simpl in Ht.
    rewrite (lookup_alter _ (r_templates reg)) in Ht. destruct (decide (n_template_key n = k)) as [<-|Hne].
    - apply fmap_Some in Ht as (t0 & ? & ->). exists t0. by rewrite decide_True.
    - exists t. by rewrite decide_False. }
  assert (Hbinds : forall t, tg_binds (f t) = tg_binds t)
    by (intros t; exact (f_equal tg_binds (Hcore t))).
  split.
  - split; simpl.
    + apply Hok.
    + apply Hok.
    + apply Hok.
    + intros i id' Hs. unfold H' in Hs. destruct (decide ((n_node_id n, id) = (i, id'))) as [[= <- <-]|Hne].
      * apply (do_ids _ (so_dict _ _ Hok)) in Hid as [H0 Hl]. apply lookup_lt_Some in Hl. unfold pk_len. lia.
      * rewrite lookup_partial_alter_ne in Hs by done. by eapply so_keys.
    + intros s m Hs. destruct (so_holders _ _ Hok _ _ Hs) as (t & Ht & Hb & Hi & Hp & Hh).
      rewrite (lookup_alter _ (r_templates reg)). destruct (decide (n_template_key n = n_template_key m)) as [He|Hne].
      * rewrite He, Ht. simpl. exists (f t). rewrite Hbinds. pose proof (Hcore t) as Hc.
        split_and!; [done..|by rewrite <- Hi; exact (f_equal tg_inner_table Hc)
                    |by rewrite <- Hp; exact (f_equal tg_proj_col Hc)|].
        intros id'. rewrite Hf. unfold H'. destruct (decide (id' = id /\ s = sig)) as [[-> ->]|Hd].
        -- assert (m = n) as -> by congruence. by rewrite lookup_partial_alter_eq.
        -- rewrite lookup_partial_alter_ne; [apply Hh|]. intros [= He' <-]. apply Hd. split; [done|].
           by eapply (so_inj _ _ _ _ _ _ Hok).
      * exists t. split_and!; [done..|]. intros id'. rewrite Hh. unfold H'. rewrite lookup_partial_alter_ne; [done|].
        intros [= He' _]. apply Hne. assert (sig = s) as -> by (by eapply (so_inj _ _ _ _ _ _ Hok)). congruence.
    + intros k t b s (t0 & Ht & Hd)%Ht' Hb. assert (Hb0 : tg_binds t0 !! b = Some s).
      { destruct (decide (k = n_template_key n)); subst t; [by rewrite <- Hbinds|done]. }
      by eapply so_binds.
    + intros k t id' s (t0 & Ht & Hd)%Ht' Hs. destruct (decide (k = n_template_key n)) as [->|]; subst t.
      * apply Hf in Hs. destruct (decide (id' = id /\ s = sig)) as [[_ ->]|_]; [eauto|by eapply so_holder_nodes].
      * by eapply so_holder_nodes.
  - intros s pk'. unfold holds, reg', H'. simpl. destruct (decide (s = sig /\ pk' = pk)) as [[-> ->]|Hd].
    + rewrite Hn. simpl. rewrite Hid. simpl. by rewrite lookup_partial_alter_eq.
    + destruct (r_nodes reg !! s) as [m|] eqn:Hs; [|done]. simpl.
      destruct (pk_get (r_pk_dict reg) pk') as [id'|] eqn:Hid'; [|done]. simpl.
      rewrite lookup_partial_alter_ne; [done|]. intros [= He <-]. apply Hd.
      split; [symmetry; by eapply (so_inj _ _ _ _ _ _ Hok)|by eapply dict_ok_inj; [apply Hok|..]].
Qed.

(** Interning a key changes nobody's contributions. *)
Lemma mint_sets reg H pk d id : sets_ok reg H -> get_or_insert (r_pk_dict reg) pk = (d, id) ->
  Z.of_nat (pk_len d) <= u32_max + 1 ->
  sets_ok (set_pk_dict d reg) H /\ pk_get d pk = Some id /\
  forall s pk', holds (set_pk_dict d reg) H s pk' = holds reg H s pk'.
Proof.
  intros Hok Hg Hs. rewrite get_or_insert_mint in Hg.
  pose proof (pk_mint_le (r_pk_dict reg) pk) as Hle. pose proof (pk_mint_get (r_pk_dict reg) pk) as Hget.
  pose proof (pk_mint_ok _ pk (so_dict _ _ Hok)) as Hd. rewrite Hg in *. simpl in *. specialize (Hd Hs).
  split_and!; [|done|].
  - split; simpl; [done|apply Hok|apply Hok| |apply Hok..].
    intros i id' Hi. apply (so_keys _ _ Hok) in Hi. apply dict_le_len in Hle. lia.
  - intros s pk'. unfold holds. simpl. destruct (r_nodes reg !! s) as [n|]; [|done]. simpl.
    destruct (pk_get (r_pk_dict reg) pk') as [id'|] eqn:E.
    + by rewrite (dict_le_get _ _ _ _ Hle E).
    + destruct (pk_get d pk') as [id'|] eqn:E'; [|done]. simpl. apply eq_None_not_Some. intros Hi.
      apply (so_keys _ _ Hok) in Hi. unfold pk_mint in Hg. destruct (pd_forward (r_pk_dict reg) !! pk) eqn:Ef.
      * injection Hg as <- <-. congruence.
      * injection Hg as <- <-. unfold pk_get in *. simpl in *. apply lookup_insert_Some in E' as [[_ <-]|[_ E']]; [|congruence].
        unfold pk_len in *. simpl in Hs. rewrite length_app in Hs. simpl in Hs.
        rewrite Z.mod_small in Hi by (unfold u32_max in *; lia). lia.
Qed.

(** [assert_node_row] makes the key's contribution what it is told, and touches no other. *)
Lemma assert_node_row_sets reg H sig n pk present :
  sets_ok reg H -> r_nodes reg !! sig = Some n ->
  Z.of_nat (pk_len (r_pk_dict (assert_node_row reg sig pk present).1)) <= u32_max + 1 ->
  let '(reg', a) := assert_node_row reg sig pk present in
  let H' := foldl assert_one H (option_list a) in
  sets_ok reg' H' /\
  forall s pk', holds reg' H' s pk' =
    if decide (s = sig /\ pk' = pk) then vkey <$> present else holds reg H s pk'.
Proof.
  intros Hok Hn. unfold assert_node_row. rewrite Hn.
  destruct (get_or_insert (r_pk_dict reg) pk) as [d id] eqn:Hg.
  assert (Hcases : Z.of_nat (pk_len d) <= u32_max + 1 ->
    sets_ok (set_pk_dict d reg) H /\ pk_get d pk = Some id /\
    forall s pk', holds (set_pk_dict d reg) H s pk' = holds reg H s pk') by (by apply mint_sets).
  destruct present as [v|]; cbn [fst]; intros Hs; destruct (Hcases Hs) as (Hok1 & Hid & Hh).
  - destruct (sets_ok_update (set_pk_dict d reg) H sig n pk id (add_holder id sig) (Some (vkey v)) Hok1 Hn Hid)
      as [H1 H2]; [done| |].
    { intros t id' s. rewrite add_holder_in. destruct (decide (id' = id /\ s = sig)) as [|Hne]; [naive_solver|]. naive_solver. }
    assert (E : foldl assert_one H (option_list (Some ((n_node_id n, id), AInsert v))) =
                partial_alter (λ _, Some (vkey v)) (n_node_id n, id) H) by done.
    rewrite E. split; [exact H1|]. intros s pk'. rewrite <- Hh. exact (H2 s pk').
  - destruct (sets_ok_update (set_pk_dict d reg) H sig n pk id (remove_holder id sig) None Hok1 Hn Hid)
      as [H1 H2]; [apply template_core_remove| |].
    { intros t id' s. rewrite remove_holder_in. destruct (decide (id' = id /\ s = sig)) as [|Hne];
        [split; [naive_solver|by intros [? ?]]|naive_solver]. }
    assert (E : foldl assert_one H (option_list
                  (if match r_templates (set_pk_dict d reg) !! n_template_key n with
                      | Some t => holds_pk t id sig | None => false end
                   then Some ((n_node_id n, id), ADelete) else None)) =
                partial_alter (λ _, None) (n_node_id n, id) H).
    { destruct (so_holders _ _ Hok1 _ _ Hn) as (t & Ht & _ & _ & _ & Hd). rewrite Ht. unfold holds_pk.
      destruct (decide (sig ∈ default ∅ (tg_pk_nodes t !! id))) as [Hi|Hi].
      - by rewrite bool_decide_eq_true_2.
      - rewrite bool_decide_eq_false_2 by done. simpl. symmetry. change (delete (n_node_id n, id) H = H).
        apply delete_id. apply eq_None_not_Some. by rewrite <- Hd. }
    simpl in E. simpl. rewrite E. split; [exact H1|]. intros s pk'. rewrite <- Hh. exact (H2 s pk').
Qed.

Definition dict_small reg : Prop := Z.of_nat (pk_len (r_pk_dict reg)) <= u32_max + 1.

Lemma dict_small_frame reg reg' : sets_frame reg reg' -> dict_small reg' -> dict_small reg.
Proof. intros [_ _ Hle _] Hs. apply dict_le_len in Hle. unfold dict_small in *. lia. Qed.

(** From [st] to [st'] some assertions [A] were added, which turn the relation [H] into one where the
    contributions are given by [c]. *)
Definition asserts_to H (st st' : SubqueryRegistry D * list (PkKey * Assert))
    (c : SubquerySig -> str -> option Value) : Prop :=
  exists A, st'.2 = st.2 ++ A /\ sets_ok st'.1 (foldl assert_one H A) /\
            forall s pk, holds st'.1 (foldl assert_one H A) s pk = c s pk.

Lemma asserts_to_refl H st c : sets_ok st.1 H -> (forall s pk, holds st.1 H s pk = c s pk) -> asserts_to H st st c.
Proof. intros Hok Hc. exists []. simpl. by rewrite app_nil_r. Qed.

Lemma assert_if_applies_sets lsn xid pk present st sig H :
  sets_ok st.1 H -> dict_small (assert_if_applies lsn xid pk present st sig).1 ->
  asserts_to H st (assert_if_applies lsn xid pk present st sig) (λ s pk',
    if decide (s = sig /\ pk' = pk /\ node_applies st.1 lsn xid s = true) then vkey <$> present
    else holds st.1 H s pk').
Proof.
  intros Hok. unfold assert_if_applies. destruct (node_applies st.1 lsn xid sig) eqn:Ha.
  - assert (exists n, r_nodes st.1 !! sig = Some n) as [n Hn].
    { unfold node_applies in Ha. destruct (r_nodes st.1 !! sig); [eauto|done]. }
    pose proof (assert_node_row_sets st.1 H sig n pk present Hok Hn) as Hs.
    destruct (assert_node_row st.1 sig pk present) as [reg' a]. simpl in *. intros Hd.
    destruct (Hs Hd) as [H1 H2]. exists (option_list a). split_and!; [done..|].
    intros s pk'. rewrite H2. destruct (decide (s = sig /\ pk' = pk)) as [[-> ->]|Hne].
    + by rewrite decide_True.
    + rewrite decide_False; [done|]. naive_solver.
  - intros _. apply asserts_to_refl; [done|]. intros s pk'. rewrite decide_False; [done|].
    intros (-> & _ & ?). congruence.
Qed.

Lemma drop_holders_sets lsn xid pk target hs : forall st H,
  let f st sig := if is_target target sig then st else assert_if_applies lsn xid pk None st sig in
  sets_ok st.1 H -> dict_small (foldl f st hs).1 ->
  asserts_to H st (foldl f st hs) (λ s pk',
    if decide (pk' = pk /\ s ∈ hs /\ is_target target s = false /\ node_applies st.1 lsn xid s = true)
    then None else holds st.1 H s pk').
Proof.
  induction hs as [|h hs IH]; intros st H f Hok Hs; simpl in *.
  { apply asserts_to_refl; [done|]. intros. rewrite decide_False; [done|].
    intros (_ & ?%not_elem_of_nil & _). done. }
  assert (Hst : dict_small (f st h).1).
  { eapply dict_small_frame; [|exact Hs]. apply drop_holders_frame. }
  assert (H1 : asserts_to H st (f st h) (λ s pk',
    if decide (s = h /\ pk' = pk /\ is_target target s = false /\ node_applies st.1 lsn xid s = true)
    then None else holds st.1 H s pk')).
  { unfold f in *. destruct (is_target target h) eqn:Et.
    - apply asserts_to_refl; [done|]. intros. rewrite decide_False; [done|]. intros (-> & _ & ? & _). congruence.
    - destruct (assert_if_applies_sets lsn xid pk None st h H Hok Hst) as (A & HA & Hk & Hc).
      exists A. split_and!; [done..|]. intros s pk'. rewrite Hc.
      destruct (decide (s = h /\ pk' = pk /\ node_applies st.1 lsn xid s = true)) as [(-> & -> & ?)|Hne].
      + by rewrite decide_True.
      + rewrite decide_False; [done|]. naive_solver. }
  destruct H1 as (A & HA & Hk & Hc).
  destruct (IH (f st h) (foldl assert_one H A) Hk Hs) as (B & HB & HkB & HcB).
  exists (A ++ B). rewrite foldl_app. split_and!; [by rewrite app_assoc, <- HA|done|].
  assert (Hap : forall s, node_applies (f st h).1 lsn xid s = node_applies st.1 lsn xid s).
  { intros s. apply sf_applies. unfold f. destruct (is_target target h); [done|apply assert_if_applies_frame]. }
  intros s pk'. rewrite HcB, Hc, Hap.
  destruct (decide (pk' = pk /\ s ∈ h :: hs /\ is_target target s = false /\ node_applies st.1 lsn xid s = true))
    as [(-> & Hin & ? & ?)|Hne].
  - apply elem_of_cons in Hin as [->|Hin].
    + destruct (decide (pk = pk /\ h ∈ hs /\ _)); [done|]. by rewrite decide_True.
    + by rewrite decide_True.
  - rewrite decide_False by (intros (? & ? & ?); apply Hne; split_and!; [done|by right|tauto..]).
    rewrite decide_False; [done|]. intros (-> & ? & ? & ?). apply Hne. split_and!; [done|by left|done..].
Qed.

(** The node belongs to the template. *)
Definition of_template reg (tkey : str) (s : SubquerySig) : bool :=
  match r_nodes reg !! s with Some n => bool_decide (n_template_key n = tkey) | None => false end.

Lemma of_template_frame reg reg' tkey s : sets_frame reg reg' -> of_template reg' tkey s = of_template reg tkey s.
Proof.
  intros [H _ _ _]. specialize (H s). unfold of_template.
  destruct (r_nodes reg' !! s) as [n'|], (r_nodes reg !! s) as [n|]; simpl in H; try done.
  apply (inj Some), node_core_key in H. injection H as _ Hk _ _ _. by rewrite Hk.
Qed.

(** The holders of a key in a template are the template's nodes it contributes to. *)
Lemma holders_spec reg H tkey pk s : sets_ok reg H ->
  s ∈ (match pk_get (r_pk_dict reg) pk with
       | Some pk_id => match r_templates reg !! tkey with
                       | Some t => elements (default ∅ (tg_pk_nodes t !! pk_id))
                       | None => []
                       end
       | None => []
       end) <-> of_template reg tkey s = true /\ is_Some (holds reg H s pk).
Proof.
  intros Hok. unfold of_template, holds. split.
  - destruct (pk_get _ pk) as [id|]; [|by intros ?%not_elem_of_nil].
    destruct (r_templates reg !! tkey) as [t|] eqn:Ht; [|by intros ?%not_elem_of_nil].
    rewrite elem_of_elements. intros Hs.
    destruct (so_holder_nodes _ _ Hok _ _ _ _ Ht Hs) as (n & Hn & Hk). rewrite Hn. simpl.
    rewrite bool_decide_eq_true_2 by done. split; [done|].
    destruct (so_holders _ _ Hok _ _ Hn) as (t' & Ht' & _ & _ & _ & Hh).
    assert (t' = t) as -> by congruence. by apply Hh.
  - destruct (r_nodes reg !! s) as [n|] eqn:Hn; [|by intros [? _]].
    intros [Hk%bool_decide_eq_true [v Hv]]. simpl in Hv. apply bind_Some in Hv as (id & Hid & Hv). rewrite Hid.
    destruct (so_holders _ _ Hok _ _ Hn) as (t & Ht & _ & _ & _ & Hh). rewrite <- Hk, Ht.
    apply elem_of_elements, Hh. eauto.
Qed.

(** One key: every node of the template that applies the change holds the key exactly when it is the
    target. *)
Definition target_value (target : option (SubquerySig * Value)) (s : SubquerySig) : option Value :=
  match target with Some (t, v) => if bool_decide (t = s) then Some (vkey v) else None | None => None end.

Lemma template_assert_sets tkey fenced lsn xid st pk target H :
  sets_ok st.1 H ->
  (forall s v, target = Some (s, v) -> of_template st.1 tkey s = true) ->
  dict_small (template_assert tkey fenced lsn xid st (pk, target)).1 ->
  asserts_to H st (template_assert tkey fenced lsn xid st (pk, target)) (λ s pk',
    if decide (pk' = pk /\ of_template st.1 tkey s = true /\ node_applies st.1 lsn xid s = true)
    then target_value target s else holds st.1 H s pk').
Proof.
  intros Hok Htgt. unfold template_assert.
  pose proof (record_all_frame pk (lsn, xid) fenced st.1) as F1.
  destruct (record_all_sets pk (lsn, xid) H fenced st.1 Hok) as [Hok1 Hh1].
  set (reg := foldl (record_recent pk (lsn, xid)) st.1 fenced) in *.
  pose proof (λ s, holders_spec reg H tkey pk s Hok1) as Hhs.
  set (hs := match pk_get (r_pk_dict reg) pk with Some _ => _ | None => _ end) in *.
  pose proof (drop_holders_frame lsn xid pk target hs (reg, st.2)) as F2.
  pose proof (drop_holders_sets lsn xid pk target hs (reg, st.2) H Hok1) as H2. cbv zeta in H2.
  set (st1 := foldl _ (reg, st.2) hs) in *. simpl in F2, H2.
  assert (Hap1 : forall s, node_applies reg lsn xid s = node_applies st.1 lsn xid s) by (intros; by apply sf_applies).
  assert (Hap2 : forall s, node_applies st1.1 lsn xid s = node_applies st.1 lsn xid s)
    by (intros; apply sf_applies; by etransitivity).
  intros Hs.
  assert (Hs1 : dict_small st1.1).
  { destruct target as [[t v]|]; [|done]. eapply dict_small_frame; [|exact Hs]. apply assert_if_applies_frame. }
  destruct (H2 Hs1) as (A & HA & HkA & HcA).
  assert (HcA' : forall s pk', holds st1.1 (foldl assert_one H A) s pk' =
    if decide (pk' = pk /\ of_template st.1 tkey s = true /\ node_applies st.1 lsn xid s = true /\
               is_target target s = false) then None else holds st.1 H s pk').
  { intros s pk'. rewrite HcA, Hap1, Hh1.
    assert (Hin : s ∈ hs <-> of_template st.1 tkey s = true /\ is_Some (holds st.1 H s pk))
      by (by rewrite Hhs, (of_template_frame st.1 reg tkey s F1), Hh1).
    destruct (decide (pk' = pk /\ s ∈ hs /\ _)) as [(-> & Hi & ? & ?)|Hne].
    - rewrite decide_True; [done|]. apply Hin in Hi. naive_solver.
    - destruct (decide (pk' = pk /\ of_template _ _ _ = true /\ _)) as [(-> & ? & ? & ?)|]; [|done].
      apply eq_None_not_Some. intros Hs'. apply Hne. split_and!; [done|by apply Hin|done..]. }
  destruct target as [[t v]|].
  - destruct (assert_if_applies_sets lsn xid pk (Some v) st1 t _ HkA Hs) as (B & HB & HkB & HcB).
    exists (A ++ B). rewrite foldl_app. split_and!; [by rewrite HB, HA, app_assoc|done|].
    intros s pk'. rewrite HcB, HcA', Hap2. unfold target_value, is_target.
    specialize (Htgt t v eq_refl).
    destruct (decide (s = t /\ pk' = pk /\ node_applies st.1 lsn xid s = true)) as [(-> & -> & ?)|Hne].
    + rewrite decide_True by done. by rewrite bool_decide_eq_true_2.
    + destruct (decide (pk' = pk /\ of_template st.1 tkey s = true /\ node_applies st.1 lsn xid s = true))
        as [(-> & ? & ?)|Hne'].
      * assert (t <> s) by naive_solver. rewrite decide_True; by rewrite bool_decide_eq_false_2.
      * rewrite decide_False; [done|]. naive_solver.
  - exists A. split_and!; [done..|]. intros s pk'. rewrite HcA'. unfold target_value, is_target.
    destruct (decide (pk' = pk /\ of_template st.1 tkey s = true /\ node_applies st.1 lsn xid s = true))
      as [?|Hne]; [rewrite decide_True; [done|naive_solver]|rewrite decide_False; [done|naive_solver]].
Qed.

Lemma target_ok_frame reg reg' tkey (target : option (SubquerySig * Value)) : sets_frame reg reg' ->
  (forall s v, target = Some (s, v) -> of_template reg tkey s = true) ->
  forall s v, target = Some (s, v) -> of_template reg' tkey s = true.
Proof. intros F Ht s v ->. rewrite (of_template_frame reg); [by eapply Ht|done]. Qed.

(** The whole of [template_assertions], for keys that are pairwise distinct. *)
Lemma template_asserts_sets tkey fenced lsn xid evals : forall st H,
  sets_ok st.1 H -> NoDup evals.*1 ->
  (forall pk target s v, (pk, target) ∈ evals -> target = Some (s, v) -> of_template st.1 tkey s = true) ->
  dict_small (foldl (template_assert tkey fenced lsn xid) st evals).1 ->
  asserts_to H st (foldl (template_assert tkey fenced lsn xid) st evals) (λ s pk,
    if of_template st.1 tkey s && node_applies st.1 lsn xid s then
      match (list_to_map evals : gmap str _) !! pk with
      | Some target => target_value target s
      | None => holds st.1 H s pk
      end
    else holds st.1 H s pk).
Proof.
  induction evals as [|[pk target] evals IH]; intros st H Hok Hnd Htgt Hs; csimpl in *.
  { apply asserts_to_refl; [done|]. intros. rewrite lookup_empty.
    by destruct (of_template _ _ _ && _). }
  apply NoDup_cons in Hnd as [Hpk Hnd].
  pose proof (template_assert_frame tkey fenced lsn xid st (pk, target)) as F1.
  set (st1 := template_assert tkey fenced lsn xid st (pk, target)) in *.
  assert (Hs1 : dict_small st1.1).
  { eapply dict_small_frame; [|exact Hs].
    apply (foldl_frame (template_assert tkey fenced lsn xid) evals (λ st e, template_assert_frame _ _ _ _ st e)). }
  destruct (template_assert_sets tkey fenced lsn xid st pk target H Hok) as (A & HA & HkA & HcA); [|done|].
  { intros s v Ht. eapply Htgt; [by left|exact Ht]. }
  destruct (IH st1 (foldl assert_one H A) HkA Hnd) as (B & HB & HkB & HcB); [|done|].
  { intros pk' target' s v Hin. eapply target_ok_frame; [exact F1|]. intros s' v' Ht.
    eapply Htgt; [by right|exact Ht]. }
  exists (A ++ B). rewrite foldl_app. split_and!; [etransitivity; [exact HB|]; rewrite app_assoc; f_equal; exact HA|exact HkB|].
  fold st1 in HcA. intros s pk'. transitivity (holds (foldl (template_assert tkey fenced lsn xid) st1 evals).1
    (foldl assert_one (foldl assert_one H A) B) s pk'); [done|]. rewrite HcB, (of_template_frame st.1 st1.1), (sf_applies st.1 st1.1), HcA by done.
  assert (Hnone : (list_to_map evals : gmap str (option (SubquerySig * Value))) !! pk = None)
    by (by apply not_elem_of_list_to_map_1).
  destruct (of_template st.1 tkey s && node_applies st.1 lsn xid s) eqn:E.
  - apply andb_true_iff in E as [E1 E2]. destruct (decide (pk = pk')) as [<-|Hne].
    + rewrite lookup_insert_eq, Hnone. by rewrite decide_True.
    + rewrite lookup_insert_ne by done. destruct (_ !! pk'); [done|]. rewrite decide_False; [done|]. naive_solver.
  - rewrite decide_False; [done|]. intros (-> & ? & ?). by rewrite H0, H1 in E.
Qed.

(** ** The latest row of a key *)

Lemma latest_rows_snoc ts delta rw : latest_rows ts (delta ++ [rw]) =
  let m := latest_rows ts delta in let pk := key_or_empty ts rw.1 in
  if 0 <? rw.2 then <[pk := (rw.1, true)]> m
  else match m !! pk with Some _ => m | None => <[pk := (rw.1, false)]> m end.
Proof. unfold latest_rows. by rewrite foldl_snoc. Qed.

Lemma latest_rows_key ts delta k rb : latest_rows ts delta !! k = Some rb -> key_or_empty ts rb.1 = k.
Proof.
  revert k rb. induction delta as [|rw delta IH] using rev_ind; intros k rb; [done|].
  rewrite latest_rows_snoc. cbv zeta. destruct (0 <? rw.2).
  - intros [[<- <-]|[_ H]]%lookup_insert_Some; [done|by apply IH].
  - destruct (latest_rows ts delta !! key_or_empty ts rw.1); [apply IH|].
    intros [[<- <-]|[_ H]]%lookup_insert_Some; [done|by apply IH].
Qed.

(** A list keyed by the rows' own keys is the map. *)
Lemma keyed_rows_map {B : Type} (ts : TableSchema) (m : gmap str (Row * bool)) (f : Row * bool -> B) :
  (forall k rb, m !! k = Some rb -> key_or_empty ts rb.1 = k) ->
  NoDup (map (λ rb : Row * bool, (key_or_empty ts rb.1, f rb)) (map_to_list m).*2).*1 /\
  forall k, (list_to_map (map (λ rb : Row * bool, (key_or_empty ts rb.1, f rb)) (map_to_list m).*2) : gmap str B) !! k
            = f <$> m !! k.
Proof.
  intros Hm.
  assert (E : map (λ rb : Row * bool, (key_or_empty ts rb.1, f rb)) (map_to_list m).*2 =
              prod_map id f <$> map_to_list m).
  { rewrite <- list_fmap_compose. apply list_fmap_ext. intros i [k rb] Hi. simpl. f_equal.
    apply Hm. apply elem_of_map_to_list. by eapply list_elem_of_lookup_2. }
  rewrite E. split.
  - rewrite <- list_fmap_compose. rewrite (list_fmap_ext _ fst) by (by intros i [k rb]). apply NoDup_fst_map_to_list.
  - intros k. rewrite <- lookup_fmap. f_equal.
    rewrite <- (list_to_map_to_list (f <$> m)). f_equal. by rewrite map_to_list_fmap.
Qed.

(** ** A whole table change *)

Lemma eval_ext ev ev' p row :
  (forall sig v, ev_contains sig v (SubqueryEval := ev) = ev_contains sig v (SubqueryEval := ev')) ->
  (forall sig, ev_has_null sig (SubqueryEval := ev) = ev_has_null sig (SubqueryEval := ev')) ->
  matches_ctx p row ev = matches_ctx p row ev'.
Proof.
  intros Hc Hn. unfold matches_ctx.
  rewrite (in_leaves_reach (λ _ _, False) ev ev' row p) with (under := false); [done| |done].
  split; intros; exfalso; auto.
Qed.

Lemma eval_frame reg reg' p row : sets_frame reg reg' ->
  matches_ctx p row (reg_eval reg') = matches_ctx p row (reg_eval reg).
Proof. intros F. apply eval_ext; intros; simpl; by apply sf_contains. Qed.

Lemma template_target_core t t' ev row : template_core t = template_core t' ->
  template_target t ev row = template_target t' ev row.
Proof.
  intros H. unfold template_target, template_params.
  pose proof (f_equal tg_residual H) as H1. pose proof (f_equal tg_binds H) as H2.
  pose proof (f_equal tg_param_cols H) as H3. pose proof (f_equal tg_proj_col H) as H4. simpl in *.
  by rewrite H1, H2, H3, H4.
Qed.

(** What a change makes of a key of a node, in the evaluation context before the change. *)
Definition node_match reg (n : SubqueryNode) (row : Row) : option Value :=
  match r_templates reg !! n_template_key n with
  | Some t => if matches_ctx (tg_residual t) row (reg_eval reg) &&
                 bool_decide (rkey (template_params t row) = n_bind n)
              then Some (vkey (cell row (n_proj_col n))) else None
  | None => None
  end.
Definition after_change reg H (ts : TableSchema) (delta : Delta) (s : SubquerySig) (pk : str) : option Value :=
  match latest_rows ts delta !! pk, r_nodes reg !! s with
  | Some (row, true), Some n => node_match reg n row
  | Some (_, false), Some _ => None
  | _, _ => holds reg H s pk
  end.

Lemma target_value_match reg H s n t row : sets_ok reg H -> r_nodes reg !! s = Some n ->
  r_templates reg !! n_template_key n = Some t ->
  target_value (template_target t (reg_eval reg) row) s = node_match reg n row.
Proof.
  intros Hok Hn Ht. unfold node_match, target_value, template_target. rewrite Ht.
  destruct (so_holders _ _ Hok _ _ Hn) as (t' & Ht' & Hb & _ & Hp & _). assert (t' = t) as -> by congruence.
  destruct (matches_ctx (tg_residual t) row (reg_eval reg)); simpl; [|done].
  destruct (tg_binds t !! rkey (template_params t row)) as [s'|] eqn:Eb; simpl.
  - destruct (so_binds _ _ Hok _ _ _ _ Ht Eb) as (n' & Hn' & _ & Hb').
    case_bool_decide as Hs.
    + subst s'. assert (n' = n) as -> by congruence. by rewrite bool_decide_eq_true_2, Hp.
    + rewrite bool_decide_eq_false_2; [done|]. intros He. apply Hs. rewrite He in Eb. congruence.
  - rewrite bool_decide_eq_false_2; [done|]. intros He. rewrite He in Eb. congruence.
Qed.

Lemma buffer_seed_frame lsn xid delta reg s : sets_frame reg (buffer_seed lsn xid delta reg s).
Proof.
  split; [|done|done|by destruct reg]. intros s'. simpl. apply alter_core. intros n.
  destruct (n_seed_buffer n) as [b|] eqn:E; [|done]. unfold node_core. simpl. by rewrite E.
Qed.

Lemma buffer_seeds_frame lsn xid delta l : forall reg, sets_frame reg (foldl (buffer_seed lsn xid delta) reg l).
Proof.
  induction l as [|s l IH]; intros reg; simpl; [done|]. etransitivity; [apply buffer_seed_frame|apply IH].
Qed.

(** Buffering changes nobody's contributions. *)
Lemma buffer_seeds_sets lsn xid delta l : forall reg H, sets_ok reg H ->
  sets_ok (foldl (buffer_seed lsn xid delta) reg l) H /\
  forall s pk, holds (foldl (buffer_seed lsn xid delta) reg l) H s pk = holds reg H s pk.
Proof.
  induction l as [|x l IH]; intros reg H Hok; simpl; [done|].
  destruct (sets_ok_nodes reg H (r_nodes (buffer_seed lsn xid delta reg x))) as [H1 H2]; [|done|].
  { intros s. simpl. apply alter_core. intros n. by destruct (n_seed_buffer n). }
  destruct (IH (buffer_seed lsn xid delta reg x) H H1) as [H3 H4]. split; [done|].
  intros s pk. by rewrite H4, <- H2.
Qed.

Lemma delta_template_frame ts delta lsn xid st tkey : sets_frame st.1 (delta_template ts delta lsn xid st tkey).1.
Proof.
  unfold delta_template. set (sigs := match r_templates st.1 !! tkey with Some _ => _ | None => _ end).
  pose proof (buffer_seeds_frame lsn xid delta sigs st.1) as F1.
  set (reg := foldl (buffer_seed lsn xid delta) st.1 sigs) in *.
  pose proof (template_assertions_frame reg tkey (template_present reg tkey ts delta) lsn xid) as F2.
  destruct (template_assertions reg tkey _ lsn xid) as [reg' a]. simpl in *. by etransitivity.
Qed.

(** The context in which a change is evaluated, seen through a later state. *)
Lemma node_match_frame reg reg' n n' row : sets_frame reg reg' -> node_core n' = node_core n ->
  node_match reg' n' row = node_match reg n row.
Proof.
  intros F Hn. pose proof (node_core_key _ _ Hn) as Hk. injection Hk as _ Hk Hb _ Hp.
  unfold node_match. rewrite Hk, Hb, Hp. pose proof (sf_templates _ _ F (n_template_key n)) as Ht.
  destruct (r_templates reg' !! _) as [t'|], (r_templates reg !! _) as [t|]; simpl in Ht; try done.
  apply (inj Some) in Ht. pose proof (f_equal tg_residual Ht) as H1.
  pose proof (f_equal tg_param_cols Ht) as H3. simpl in *.
  rewrite (eval_frame reg reg') by done. unfold template_params. by rewrite H1, H3.
Qed.

(** One template: its nodes that apply the change hold what [after_change] says. *)
Lemma delta_template_sets ts delta lsn xid st tkey H :
  sets_ok st.1 H -> dict_small (delta_template ts delta lsn xid st tkey).1 ->
  asserts_to H st (delta_template ts delta lsn xid st tkey) (λ s pk,
    if of_template st.1 tkey s && node_applies st.1 lsn xid s then after_change st.1 H ts delta s pk
    else holds st.1 H s pk).
Proof.
  intros Hok. unfold delta_template. set (sigs := match r_templates st.1 !! tkey with Some _ => _ | None => _ end).
  pose proof (buffer_seeds_frame lsn xid delta sigs st.1) as F1.
  destruct (buffer_seeds_sets lsn xid delta sigs st.1 H Hok) as [Hok1 Hh1].
  set (reg := foldl (buffer_seed lsn xid delta) st.1 sigs) in *. clearbody reg. clear sigs.
  destruct (template_assertions reg tkey (template_present reg tkey ts delta) lsn xid) as [reg' a] eqn:Ea.
  simpl. intros Hs. unfold template_assertions in Ea.
  set (evals := template_present reg tkey ts delta) in *.
  assert (Hkeys : NoDup evals.*1 /\ forall t, r_templates reg !! tkey = Some t -> forall pk,
    (list_to_map evals : gmap str (option (SubquerySig * Value))) !! pk =
    (λ rb : Row * bool, if rb.2 then template_target t (reg_eval reg) rb.1 else None) <$> latest_rows ts delta !! pk).
  { unfold evals, template_present. destruct (r_templates reg !! tkey) as [t|] eqn:Ht; [|split; [constructor|done]].
    destruct (keyed_rows_map ts (latest_rows ts delta)
      (λ rb, if rb.2 then template_target t (reg_eval reg) rb.1 else None)) as [H1 H2]; [apply latest_rows_key|].
    split; [exact H1|]. intros t' [= <-]. exact H2. }
  destruct Hkeys as [Hnd Hkeys].
  destruct (template_asserts_sets tkey (fenced_binds reg tkey lsn xid) lsn xid evals (reg, []) H Hok1 Hnd)
    as (A & HA & HkA & HcA).
  { intros pk target s v Hin ->. unfold evals, template_present in Hin.
    destruct (r_templates reg !! tkey) as [t|] eqn:Ht; [|by apply not_elem_of_nil in Hin].
    apply list_elem_of_In, in_map_iff in Hin as ([row [|]] & [= _ He] & _).
    unfold template_target in He. destruct (matches_ctx _ _ _); [|done].
    apply bind_Some in He as (s' & Hb & [= <- <-]).
    destruct (so_binds _ _ Hok1 _ _ _ _ Ht Hb) as (n & Hn & Hk & _). simpl. unfold of_template. rewrite Hn.
    by apply bool_decide_eq_true_2. }
  { rewrite Ea. exact Hs. }
  rewrite Ea in *. simpl in *. exists A. split_and!; [by rewrite HA|done|].
  intros s pk. rewrite HcA, (of_template_frame st.1 reg), (sf_applies st.1 reg), Hh1 by done.
  destruct (of_template st.1 tkey s && node_applies st.1 lsn xid s) eqn:E; [|done].
  apply andb_true_iff in E as [Ht _]. unfold of_template in Ht. unfold after_change.
  destruct (r_nodes st.1 !! s) as [n|] eqn:Hn; [|done]. apply bool_decide_eq_true in Ht.
  destruct (sf_node _ _ _ _ F1 Hn) as (n' & Hn' & Hcore).
  pose proof (node_core_key _ _ Hcore) as Hk'. injection Hk' as _ Hk' _ _ _.
  destruct (so_holders _ _ Hok1 _ _ Hn') as (t & Htt & _). rewrite Hk', Ht in Htt.
  rewrite (Hkeys _ Htt). destruct (latest_rows ts delta !! pk) as [[row [|]]|]; simpl; [|done|done].
  rewrite (target_value_match reg H s n' t row Hok1 Hn') by (by rewrite Hk', Ht).
  by apply node_match_frame.
Qed.

Lemma after_change_frame reg reg' H H' ts delta s pk : sets_frame reg reg' ->
  holds reg' H' s pk = holds reg H s pk -> after_change reg' H' ts delta s pk = after_change reg H ts delta s pk.
Proof.
  intros F Hh. unfold after_change. rewrite Hh. pose proof (sf_nodes _ _ F s) as Hn.
  destruct (r_nodes reg' !! s) as [n'|], (r_nodes reg !! s) as [n|]; simpl in Hn; try done.
  apply (inj Some) in Hn. destruct (latest_rows ts delta !! pk) as [[row [|]]|]; [|done|done].
  by apply node_match_frame.
Qed.

Lemma delta_templates_sets ts delta lsn xid tkeys : forall st H,
  sets_ok st.1 H -> NoDup tkeys -> dict_small (foldl (delta_template ts delta lsn xid) st tkeys).1 ->
  asserts_to H st (foldl (delta_template ts delta lsn xid) st tkeys) (λ s pk,
    if existsb (λ k, of_template st.1 k s) tkeys && node_applies st.1 lsn xid s
    then after_change st.1 H ts delta s pk else holds st.1 H s pk).
Proof.
  induction tkeys as [|k tkeys IH]; intros st H Hok Hnd Hs; simpl in *; [by apply asserts_to_refl|].
  apply NoDup_cons in Hnd as [Hk Hnd].
  pose proof (delta_template_frame ts delta lsn xid st k) as F1.
  assert (Hs1 : dict_small (delta_template ts delta lsn xid st k).1).
  { eapply dict_small_frame; [|exact Hs]. apply (foldl_frame (delta_template ts delta lsn xid)).
    intros st' k'. apply delta_template_frame. }
  destruct (delta_template_sets ts delta lsn xid st k H Hok Hs1) as (A & HA & HkA & HcA).
  set (st1 := delta_template ts delta lsn xid st k) in *.
  destruct (IH st1 _ HkA Hnd Hs) as (B & HB & HkB & HcB).
  exists (A ++ B). rewrite foldl_app. split_and!; [by rewrite HB, HA, app_assoc|done|].
  intros s pk. rewrite HcB, (sf_applies st.1 st1.1) by done.
  assert (Hex : existsb (λ k0, of_template st1.1 k0 s) tkeys = existsb (λ k0, of_template st.1 k0 s) tkeys).
  { clear -F1. induction tkeys as [|x l IHl]; [done|]. simpl. by rewrite IHl, (of_template_frame st.1 st1.1). }
  rewrite Hex. destruct (node_applies st.1 lsn xid s) eqn:Ea; [|by rewrite !andb_false_r, HcA, Ea, andb_false_r].
  rewrite !andb_true_r. destruct (of_template st.1 k s) eqn:Et; simpl.
  - assert (existsb (λ k0, of_template st.1 k0 s) tkeys = false) as ->.
    { apply not_true_iff_false. intros (k' & Hin & Hk')%existsb_exists. apply Hk.
      unfold of_template in *. destruct (r_nodes st.1 !! s); [|done].
      apply bool_decide_eq_true in Et, Hk'. subst. by apply list_elem_of_In. }
    by rewrite HcA, Et, Ea.
  - assert (Hh : holds st1.1 (foldl assert_one H A) s pk = holds st.1 H s pk) by (by rewrite HcA, Et).
    destruct (existsb (λ k0, of_template st.1 k0 s) tkeys); [|exact Hh]. by apply after_change_frame.
Qed.
End sets.

(* ------------------------------------------------------------------ *)
(** ** The nodes after a table change *)

Section nodes.
Context {FT : FloatText} {FE : FaultEnv} {D : Type} {MP : MembershipPipeline D} {ML : MembershipLaws D}.
Implicit Types (reg : SubqueryRegistry D).

(** The registry agrees with its circuit. *)
Definition registry_ok reg : Prop := sets_ok reg (mp_held (r_circuit reg)).
Definition node_holds reg (s : SubquerySig) (pk : str) : option Value :=
  holds reg (mp_held (r_circuit reg)) s pk.

(** The step of the circuit succeeds on whatever it is fed. *)
Definition circuit_runs (d : D) : Prop := forall asserts, is_Some (mp_transaction d asserts).2.

Lemma apply_asserts_sets reg asserts H :
  sets_ok reg (foldl assert_one (mp_held (r_circuit reg)) asserts) -> circuit_runs (r_circuit reg) ->
  H = foldl assert_one (mp_held (r_circuit reg)) asserts ->
  registry_ok (apply_asserts reg asserts).1 /\
  forall s pk, node_holds (apply_asserts reg asserts).1 s pk = holds reg H s pk.
Proof.
  intros Hok Hrun ->. unfold apply_asserts.
  destruct (circuit_apply (r_circuit reg) asserts) as [d flips] eqn:E.
  destruct (circuit_apply_spec (r_circuit reg) asserts d flips) as (Hh & _); [auto|done|].
  unfold registry_ok, node_holds. simpl. rewrite Hh. split; [|done].
  destruct Hok. by split.
Qed.

Lemma in_templates reg (P : TemplateGroup -> Prop) {HD : forall t, Decision (P t)} s n t H :
  sets_ok reg H -> r_nodes reg !! s = Some n -> r_templates reg !! n_template_key n = Some t ->
  existsb (λ k, of_template reg k s) (filter (λ kt : str * TemplateGroup, P kt.2) (map_to_list (r_templates reg))).*1
  = bool_decide (P t).
Proof.
  intros Hok Hn Ht. apply eq_true_iff_eq. rewrite bool_decide_eq_true, existsb_exists. split.
  - intros (k & Hin & Hk). apply list_elem_of_In, list_elem_of_fmap in Hin as ([k' t'] & -> & Hf).
    apply list_elem_of_filter in Hf as [HP Hf%elem_of_map_to_list]. unfold of_template in Hk. rewrite Hn in Hk.
    apply bool_decide_eq_true in Hk. simpl in *. subst k'. congruence.
  - intros HP. exists (n_template_key n). split.
    + apply list_elem_of_In, list_elem_of_fmap. exists (n_template_key n, t). split; [done|].
      by apply list_elem_of_filter; split; [|apply elem_of_map_to_list].
    + unfold of_template. rewrite Hn. by apply bool_decide_eq_true_2.
Qed.

(** Step 1 of [on_table_delta]. *)
Lemma delta_nodes_sets reg ts delta lsn xid :
  registry_ok reg -> circuit_runs (r_circuit reg) ->
  dict_small (delta_nodes reg ts delta lsn xid).1 ->
  registry_ok (delta_nodes reg ts delta lsn xid).1 /\
  forall s n pk, r_nodes reg !! s = Some n ->
    node_holds (delta_nodes reg ts delta lsn xid).1 s pk =
      if bool_decide (n_inner_table n = ts_table ts) && node_applies reg lsn xid s
      then after_change reg (mp_held (r_circuit reg)) ts delta s pk
      else node_holds reg s pk.
Proof.
  intros Hok Hrun. unfold delta_nodes.
  set (tkeys := (filter (λ kt : str * TemplateGroup, tg_inner_table kt.2 = ts_table ts)
                   (map_to_list (r_templates reg))).*1).
  pose proof (foldl_frame (delta_template ts delta lsn xid) tkeys (λ st k, delta_template_frame _ _ _ _ st k) (reg, [])) as F.
  pose proof (delta_templates_sets ts delta lsn xid tkeys (reg, []) _ Hok) as Hsets. simpl in F.
  destruct (foldl (delta_template ts delta lsn xid) (reg, []) tkeys) as [reg1 asserts]. simpl in *.
  intros Hs.
  assert (Hs1 : dict_small reg1).
  { unfold apply_asserts in Hs. by destruct (circuit_apply (r_circuit reg1) asserts). }
  destruct Hsets as (A & HA & HkA & HcA); [|done|].
  { unfold tkeys. apply NoDup_fmap_fst; [|apply NoDup_filter, NoDup_map_to_list].
    intros k t1 t2 [_ H1%elem_of_map_to_list]%list_elem_of_filter [_ H2%elem_of_map_to_list]%list_elem_of_filter. congruence. }
  simpl in HA. subst A. simpl in *. pose proof (sf_circuit _ _ F) as Hc.
  destruct (apply_asserts_sets reg1 asserts (foldl assert_one (mp_held (r_circuit reg1)) asserts)) as [H1 H2];
    [by rewrite Hc|by rewrite Hc|done|].
  split; [done|]. intros s n pk Hn. rewrite H2, Hc, HcA.
  destruct (so_holders _ _ Hok _ _ Hn) as (t & Ht & _ & Hi & _).
  assert (E : existsb (λ k, of_template reg k s) tkeys = bool_decide (tg_inner_table t = ts_table ts))
    by (exact (in_templates reg (λ t, tg_inner_table t = ts_table ts) s n t _ Hok Hn Ht)).
  by rewrite E, Hi.
Qed.
End nodes.
