(* ===== verification/SubqEmit.v ===== *)
(** * Facts about the emission tail ([Subquery.emit_for_shapes])

    What the candidates of a change do to a shape's feed and to the subscribers of its stream, for
    one shape and for all shapes of a change, and what a query-back may still decide. *)

From S2P Require Import Prelude BTree Value TableRef Schema Predicate PredicateFacts Gate Output.
From S2P Require Import Executors Refine Sequencer PkDict SubqIndex SubqCircuit Subquery SubqueryFacts.
From stdpp Require Import base option numbers strings gmap fin_maps sorting list.
#[local] Open Scope Z_scope.

(* ------------------------------------------------------------------ *)
(** ** The emission tail on one shape *)

Section emit.
Context {FT : FloatText} {FE : FaultEnv} (ts : TableSchema).

(** A key is in a feed. *)
Definition fed (d : PkDict) (feeds : FeedSet) (feed : Z) (pk : str) : bool :=
  match pk_get d pk with Some id => bool_decide (id ∈ default ∅ (feeds !! feed)) | None => false end.

(** The feeds hold only numbers of the dictionary. *)
Record feeds_ok (d : PkDict) (feeds : FeedSet) : Prop := {
  fo_dict : dict_ok d;
  fo_keys : forall feed id, id ∈ default ∅ (feeds !! feed) -> 0 <= id < Z.of_nat (pk_len d)
}.

Definition verdict (pred : CompiledPredicate) (ev : SubqueryEval) (c : Row * bool) : bool :=
  c.2 && matches_ctx pred c.1 ev.

(** Candidates with their keys, which are distinct. *)
Definition keyed (l : list (str * (Row * bool))) : Prop :=
  NoDup l.*1 /\ Forall (λ kc : str * (Row * bool), key_string ts kc.2.1 = Ok kc.1) l.

Lemma fed_mint d feeds pk d' id : feeds_ok d feeds -> get_or_insert d pk = (d', id) ->
  Z.of_nat (pk_len d') <= u32_max + 1 ->
  feeds_ok d' feeds /\ pk_get d' pk = Some id /\ dict_le d d' /\
  forall feed pk', fed d' feeds feed pk' = fed d feeds feed pk'.
Proof.
  intros [Hd Hk] Hg Hs. rewrite get_or_insert_mint in Hg.
  pose proof (pk_mint_le d pk) as Hle. pose proof (pk_mint_get d pk) as Hget.
  pose proof (pk_mint_ok d pk Hd) as Hok. rewrite Hg in *. simpl in *. specialize (Hok Hs).
  assert (Hf : feeds_ok d' feeds).
  { split; [done|]. intros feed i Hi%Hk. apply dict_le_len in Hle. lia. }
  split_and!; [done..|]. intros feed pk'. unfold fed.
  destruct (pk_get d pk') as [i|] eqn:E; [by rewrite (dict_le_get _ _ _ _ Hle E)|].
  destruct (pk_get d' pk') as [i|] eqn:E'; [|done]. apply bool_decide_eq_false. intros Hi%Hk.
  unfold pk_mint in Hg. destruct (pd_forward d !! pk) eqn:Ef; injection Hg as <- <-; [congruence|].
  unfold pk_get in *. simpl in E'. apply lookup_insert_Some in E' as [[_ <-]|[_ E']]; [|congruence].
  unfold pk_len in *. simpl in Hs. rewrite length_app in Hs. simpl in Hs.
  rewrite Z.mod_small in Hi by (unfold u32_max in *; lia). lia.
Qed.

Lemma fed_insert d feeds feed pk id feed' pk' : dict_ok d -> pk_get d pk = Some id ->
  fed d (feed_insert feed id feeds) feed' pk' =
  bool_decide (feed' = feed /\ pk' = pk) || fed d feeds feed' pk'.
Proof.
  intros Hd Hid. unfold fed. destruct (pk_get d pk') as [id'|] eqn:E.
  - apply eq_true_iff_eq. rewrite orb_true_iff, !bool_decide_eq_true, feed_insert_in.
    split; [|naive_solver]. intros [[-> ->]|?]; [left; split; [done|by eapply dict_ok_inj]|by right].
  - rewrite bool_decide_eq_false_2; [done|]. intros [_ ->]. congruence.
Qed.

Lemma fed_remove d feeds feed pk id feed' pk' : dict_ok d -> pk_get d pk = Some id ->
  (feed_remove feed id feeds).2 = fed d feeds feed pk /\
  fed d (feed_remove feed id feeds).1 feed' pk' =
    negb (bool_decide (feed' = feed /\ pk' = pk)) && fed d feeds feed' pk'.
Proof.
  intros Hd Hid. destruct (feed_remove_in feeds feed id) as [H1 H2]. split.
  - unfold fed. by rewrite Hid.
  - unfold fed. destruct (pk_get d pk') as [id'|] eqn:E; [|by rewrite andb_false_r].
    apply eq_true_iff_eq. rewrite andb_true_iff, negb_true_iff, bool_decide_eq_false, !bool_decide_eq_true, H2.
    split; intros [Hne ?]; (split; [|done]); intros [-> Hp]; apply Hne; split; try done.
    + subst pk'. congruence.
    + subst id'. by eapply dict_ok_inj.
Qed.

(** One candidate. *)
Lemma emit_candidate_spec pred ev feed rec st k c :
  feeds_ok (eg_dict st) (eg_feeds st) -> key_string ts c.1 = Ok k ->
  let st' := emit_candidate ts pred ev feed rec st c in
  dict_le (eg_dict st) (eg_dict st') /\
  (Z.of_nat (pk_len (eg_dict st')) <= u32_max + 1 ->
   feeds_ok (eg_dict st') (eg_feeds st') /\
   (forall f pk, fed (eg_dict st') (eg_feeds st') f pk =
      if decide (f = feed /\ pk = k) then verdict pred ev c else fed (eg_dict st) (eg_feeds st) f pk) /\
   eg_members st' = eg_members st ++ (if verdict pred ev c then [c.1] else []) /\
   eg_deletes st' = eg_deletes st ++
     (if negb (verdict pred ev c) && fed (eg_dict st) (eg_feeds st) feed k then [k] else []) /\
   eg_evaluated st' = eg_evaluated st ++ (if rec then option_list (pk_get (eg_dict st') k) else [])).
Proof.
  intros Hok Hk. cbv zeta. unfold emit_candidate. rewrite Hk. fold (verdict pred ev c).
  pose proof (fed_mint (eg_dict st) (eg_feeds st) k) as Hm.
  pose proof (pk_mint_le (eg_dict st) k) as Hle. rewrite <- get_or_insert_mint in Hle.
  destruct (verdict pred ev c).
  - destruct (get_or_insert (eg_dict st) k) as [d id]. simpl in *. split; [done|]. intros Hs.
    destruct (Hm d id Hok eq_refl Hs) as (Hok' & Hid & _ & Hf).
    split_and!; [|intros f pk|done|by rewrite app_nil_r|destruct rec; [by rewrite Hid|by rewrite app_nil_r]].
    + split; [apply Hok'|]. intros f i [[_ ->]|Hi]%feed_insert_in; [|by eapply fo_keys].
      apply (do_ids _ (fo_dict _ _ Hok')) in Hid as [? Hl%lookup_lt_Some]. unfold pk_len. lia.
    + rewrite (fed_insert d (eg_feeds st) feed k id f pk (fo_dict _ _ Hok') Hid), Hf.
      destruct (decide (f = feed /\ pk = k)); [by rewrite bool_decide_eq_true_2|by rewrite bool_decide_eq_false_2].
  - simpl. destruct (pk_get (eg_dict st) k) as [id|] eqn:Hid.
    + destruct (fed_remove (eg_dict st) (eg_feeds st) feed k id feed k (fo_dict _ _ Hok) Hid) as [Hhad _].
      pose proof (λ f pk, proj2 (fed_remove (eg_dict st) (eg_feeds st) feed k id f pk (fo_dict _ _ Hok) Hid)) as Hf.
      destruct (feed_remove_in (eg_feeds st) feed id) as [_ Hin].
      destruct (feed_remove feed id (eg_feeds st)) as [feeds had]. simpl in *. split; [done|]. intros _.
      split_and!; [|intros f pk|by rewrite app_nil_r| |destruct rec; [by rewrite Hid|by rewrite app_nil_r]].
      * split; [apply Hok|]. intros f i [_ Hi]%Hin. by eapply fo_keys.
      * rewrite Hf. destruct (decide (f = feed /\ pk = k)); [by rewrite bool_decide_eq_true_2|by rewrite bool_decide_eq_false_2].
      * rewrite <- Hhad. destruct had; [done|by rewrite app_nil_r].
    + assert (Hnf : fed (eg_dict st) (eg_feeds st) feed k = false) by (unfold fed; by rewrite Hid).
      destruct rec.
      * destruct (get_or_insert (eg_dict st) k) as [d id]. simpl in *. split; [done|]. intros Hs.
        destruct (Hm d id Hok eq_refl Hs) as (Hok' & Hid' & _ & Hf).
        split_and!; [done|intros f pk|by rewrite app_nil_r|by rewrite Hnf, app_nil_r|by rewrite Hid'].
        rewrite Hf. destruct (decide (f = feed /\ pk = k)) as [[-> ->]|]; [done|done].
      * split; [done|]. intros _. split_and!; [done|intros f pk|by rewrite app_nil_r|by rewrite Hnf, app_nil_r|by rewrite app_nil_r].
        destruct (decide (f = feed /\ pk = k)) as [[-> ->]|]; [done|done].
Qed.

Lemma filter_bool_cons {A} (f : A -> bool) x (l : list A) :
  filter (λ y, f y = true) (x :: l) = (if f x then [x] else []) ++ filter (λ y, f y = true) l.
Proof. rewrite filter_cons. destruct (f x); [by rewrite decide_True|by rewrite decide_False]. Qed.

Lemma filter_bool_ext {A} (f g : A -> bool) (l : list A) : (forall x, x ∈ l -> f x = g x) ->
  filter (λ y, f y = true) l = filter (λ y, g y = true) l.
Proof.
  induction l as [|x l IH]; intros H; [done|]. rewrite !filter_bool_cons, (H x) by by left. f_equal.
  apply IH. intros y Hy. apply H. by right.
Qed.

Lemma emit_candidates_le pred ev feed rec cs : forall st,
  dict_le (eg_dict st) (eg_dict (foldl (emit_candidate ts pred ev feed rec) st cs)).
Proof.
  induction cs as [|c cs IH]; intros st; simpl; [done|].
  transitivity (eg_dict (emit_candidate ts pred ev feed rec st c)); [|apply IH].
  unfold emit_candidate. destruct (key_string ts c.1) as [pk|]; [|done].
  pose proof (pk_mint_le (eg_dict st) pk) as H. rewrite <- get_or_insert_mint in H.
  destruct (get_or_insert (eg_dict st) pk).
  destruct (_ && _); [done|]. destruct (pk_get _ _); [by destruct (feed_remove _ _ _)|]. by destruct rec.
Qed.

(** All of them. *)
Lemma emit_candidates_spec pred ev feed rec l : forall st,
  feeds_ok (eg_dict st) (eg_feeds st) -> keyed l ->
  let st' := foldl (emit_candidate ts pred ev feed rec) st l.*2 in
  dict_le (eg_dict st) (eg_dict st') /\
  (Z.of_nat (pk_len (eg_dict st')) <= u32_max + 1 ->
   feeds_ok (eg_dict st') (eg_feeds st') /\
   (forall f pk, fed (eg_dict st') (eg_feeds st') f pk =
      match (if decide (f = feed) then (list_to_map l : gmap str (Row * bool)) !! pk else None) with
      | Some c => verdict pred ev c
      | None => fed (eg_dict st) (eg_feeds st) f pk
      end) /\
   eg_members st' = eg_members st ++ (filter (λ c, verdict pred ev c = true) l.*2).*1 /\
   eg_deletes st' = eg_deletes st ++
     (filter (λ kc : str * (Row * bool),
        negb (verdict pred ev kc.2) && fed (eg_dict st) (eg_feeds st) feed kc.1 = true) l).*1 /\
   eg_evaluated st' = eg_evaluated st ++ (if rec then omap (pk_get (eg_dict st')) l.*1 else []) /\
   (rec = true -> forall pk, pk ∈ l.*1 -> is_Some (pk_get (eg_dict st') pk))).
Proof.
  induction l as [|[k c] l IH]; intros st Hok [Hnd Hf].
  { simpl. split; [done|]. intros _. split_and!; [done| |by rewrite app_nil_r..| |].
    - intros f pk. rewrite lookup_empty. by destruct (decide _).
    - destruct rec; by rewrite app_nil_r.
    - by intros _ pk ?%not_elem_of_nil. }
  csimpl. apply NoDup_cons in Hnd as [Hk Hnd]. apply Forall_cons in Hf as [Hkc Hf]. simpl in Hkc.
  destruct (emit_candidate_spec pred ev feed rec st k c Hok Hkc) as [Hle1 H1].
  set (st1 := emit_candidate ts pred ev feed rec st c) in *.
  assert (Hle2 : dict_le (eg_dict st1) (eg_dict (foldl (emit_candidate ts pred ev feed rec) st1 l.*2))) by apply emit_candidates_le.
  split; [by etransitivity|]. intros Hs.
  assert (Hs1 : Z.of_nat (pk_len (eg_dict st1)) <= u32_max + 1) by (apply dict_le_len in Hle2; lia).
  destruct (H1 Hs1) as (Hok1 & Hfed1 & Hm1 & Hd1 & He1).
  destruct (IH st1 Hok1 (conj Hnd Hf)) as [_ H2]. destruct (H2 Hs) as (Hok2 & Hfed2 & Hm2 & Hd2 & He2 & Hi2).
  set (st2 := foldl (emit_candidate ts pred ev feed rec) st1 l.*2) in *.
  assert (Hnone : (list_to_map l : gmap str (Row * bool)) !! k = None) by (by apply not_elem_of_list_to_map_1).
  assert (Hsome : rec = true -> is_Some (pk_get (eg_dict st1) k)).
  { intros ->. unfold st1, emit_candidate. rewrite Hkc.
    pose proof (pk_mint_get (eg_dict st) k) as Hg. rewrite <- get_or_insert_mint in Hg.
    destruct (get_or_insert (eg_dict st) k) as [d id]. simpl in Hg.
    destruct (c.2 && matches_ctx pred c.1 ev); simpl; [by exists id|]. destruct (pk_get (eg_dict st) k) as [i|] eqn:E';
      [destruct (feed_remove _ _ _); by exists i|by exists id]. }
  split_and!; [done| | | | |].
  - intros f pk. rewrite Hfed2. destruct (decide (f = feed)) as [->|Hne].
    + destruct (decide (k = pk)) as [<-|Hnk].
      * rewrite Hnone, lookup_insert_eq, Hfed1. by rewrite decide_True.
      * rewrite lookup_insert_ne by done. destruct (_ !! pk); [done|]. rewrite Hfed1, decide_False; [done|naive_solver].
    + rewrite Hfed1, decide_False; [done|naive_solver].
  - rewrite Hm2, Hm1, filter_bool_cons, fmap_app, <- app_assoc. f_equal. f_equal. by destruct (verdict pred ev c).
  - rewrite Hd2, Hd1, <- app_assoc. f_equal.
    rewrite (filter_bool_cons (λ kc : str * (Row * bool), negb (verdict pred ev kc.2) &&
               fed (eg_dict st) (eg_feeds st) feed kc.1)), fmap_app. simpl. f_equal.
    + by destruct (negb _ && _).
    + f_equal. apply filter_bool_ext. intros [k' c'] Hin. simpl. rewrite Hfed1, decide_False; [done|].
      intros [_ ->]. apply Hk. apply list_elem_of_fmap. by exists (k, c').
  - rewrite He2, He1. destruct rec; [|by rewrite !app_nil_r]. rewrite <- app_assoc. f_equal.
    destruct (Hsome eq_refl) as [id E]. rewrite E, (dict_le_get _ _ _ _ Hle2 E). done.
  - intros Hr pk [->|Hin]%elem_of_cons; [|by apply Hi2].
    destruct (Hsome Hr) as [id E]. exists id. by eapply dict_le_get.
Qed.

Lemma keyed_filter (f : str * (Row * bool) -> bool) l : keyed l -> keyed (filter (λ kc, f kc = true) l).
Proof.
  intros [Hnd Hf]. split.
  - eapply sublist_NoDup; [exact Hnd|]. apply fmap_sublist. apply sublist_filter.
  - apply Forall_forall. intros x [_ Hx]%list_elem_of_filter. rewrite Forall_forall in Hf. by apply Hf.
Qed.

Lemma last_pos_members pred ev l k : keyed l ->
  last_pos ts (map (λ r, (r, 1)) (filter (λ c, verdict pred ev c = true) l.*2).*1) k =
  (c ← (list_to_map l : gmap str (Row * bool)) !! k; if verdict pred ev c then Some c.1 else None) /\
  has_neg ts (map (λ r, (r, 1)) (filter (λ c, verdict pred ev c = true) l.*2).*1) k = false.
Proof.
  intros [Hnd Hf]. split.
  - induction l as [|[k' c] l IH]; csimpl; [by rewrite lookup_empty|].
    apply NoDup_cons in Hnd as [Hk Hnd]. apply Forall_cons in Hf as [Hkc Hf]. simpl in Hkc.
    rewrite filter_bool_cons, fmap_app, map_app.
    assert (Hnone : (list_to_map l : gmap str (Row * bool)) !! k' = None) by (by apply not_elem_of_list_to_map_1).
    specialize (IH Hnd Hf). destruct (verdict pred ev c) eqn:Ev; simpl.
    + destruct (decide (k' = k)) as [<-|Hne].
      * rewrite IH, Hnone, lookup_insert_eq. simpl. rewrite Hkc, Ev. by rewrite bool_decide_eq_true_2.
      * rewrite lookup_insert_ne, IH by done. destruct (_ ≫= _); [done|].
        rewrite bool_decide_eq_false_2; [done|]. rewrite Hkc. congruence.
    + rewrite IH. destruct (decide (k' = k)) as [<-|Hne].
      * by rewrite Hnone, lookup_insert_eq; simpl; rewrite Ev.
      * by rewrite lookup_insert_ne.
  - unfold has_neg. apply not_true_iff_false. rewrite existsb_exists.
    intros ([r w] & Hin & Hb). apply in_map_iff in Hin as (r' & [= <- <-] & _).
    by rewrite andb_false_r in Hb.
Qed.

(** What a shape's candidates put on its stream. *)
Definition shape_envs (pred : CompiledPredicate) (ev : SubqueryEval) (cols : option (list nat))
    (txid : option str) (was_fed : str -> bool) (l : list (str * (Row * bool))) : list Envelope :=
  translate_output ts (map (λ r, (r, 1)) (filter (λ c, verdict pred ev c = true) l.*2).*1) txid None cols ++
  delete_envelopes ts
    (filter (λ kc : str * (Row * bool), negb (verdict pred ev kc.2) && was_fed kc.1 = true) l).*1 txid.

(** A subscriber that holds exactly the keys of the feed holds, afterwards, each candidate the
    predicate accepts and none of the others. *)
Lemma shape_envs_view pred ev cols txid was_fed l V k : drop_deletes = false -> keyed l ->
  (forall pk, is_Some (V !! pk) <-> was_fed pk = true) ->
  materialize V (shape_envs pred ev cols txid was_fed l) !! k =
  match (list_to_map l : gmap str (Row * bool)) !! k with
  | Some c => if verdict pred ev c then Some (row_to_json_cols ts c.1 cols) else None
  | None => V !! k
  end.
Proof.
  intros Hdd Hl HV. unfold shape_envs. rewrite materialize_app. unfold delete_envelopes. rewrite Hdd.
  set (dels := (filter _ l).*1).
  pose proof (materialize_deletes ts (λ _, true) txid None dels
    (materialize V (translate_output ts (map (λ r, (r, 1)) (filter (λ c, verdict pred ev c = true) l.*2).*1)
                      txid None cols)) k) as Hd.
  rewrite andb_true_r in Hd.
  assert (E : omap (λ pk, if true then Some (shape_envelope ts $"delete" pk None txid None) else None) dels =
              map (λ pk, shape_envelope ts $"delete" pk None txid None) dels)
    by (clear; induction dels; csimpl; congruence).
  rewrite E in Hd. rewrite Hd, materialize_translate by done. clear Hd E.
  destruct (last_pos_members pred ev l k Hl) as [-> ->].
  assert (Hin : k ∈ dels <-> exists c, (list_to_map l : gmap str (Row * bool)) !! k = Some c /\
                  verdict pred ev c = false /\ was_fed k = true).
  { unfold dels. rewrite list_elem_of_fmap. split.
    - intros ([k' c] & -> & [[Hv Hw]%andb_true_iff Hm]%list_elem_of_filter). exists c. simpl in *.
      apply negb_true_iff in Hv. split; [|done]. apply elem_of_list_to_map_1; [apply Hl|done].
    - intros (c & Hm & Hv & Hw). apply elem_of_list_to_map_2 in Hm. exists (k, c). split; [done|].
      apply list_elem_of_filter. simpl. by rewrite Hv, Hw. }
  destruct ((list_to_map l : gmap str (Row * bool)) !! k) as [c|] eqn:Ec; simpl.
  - destruct (verdict pred ev c) eqn:Ev.
    + rewrite bool_decide_eq_false_2; [done|]. intros (c' & ? & ? & _)%Hin. congruence.
    + destruct (was_fed k) eqn:Ew.
      * rewrite bool_decide_eq_true_2; [done|]. apply Hin. by exists c.
      * rewrite bool_decide_eq_false_2 by (intros (c' & _ & _ & ?)%Hin; congruence).
        apply eq_None_not_Some. rewrite HV. congruence.
  - rewrite bool_decide_eq_false_2; [done|]. intros (c' & ? & _)%Hin. congruence.
Qed.
End emit.

(* ------------------------------------------------------------------ *)
(** ** The tail on the registry *)

Section tail.
Context {FT : FloatText} {FE : FaultEnv} {D : Type} {MP : MembershipPipeline D}.
Implicit Types (reg : SubqueryRegistry D).

(** A shape without its recency and its counter. *)
Definition shape_core (s : SubqueryShape) : SubqueryShape :=
  shape_with_recent ∅ (sh_inflight s) (shape_with_emitted 0 s).

Record emit_frame reg reg' : Prop := {
  ef_shapes : forall id, shape_core <$> r_shapes reg' !! id = shape_core <$> r_shapes reg !! id;
  ef_dict : dict_le (r_pk_dict reg) (r_pk_dict reg');
  ef_rest : reg' = set_sent (r_sent reg') (set_shapes (r_shapes reg')
                     (set_feed_sets (r_feed_sets reg') (set_pk_dict (r_pk_dict reg') reg)))
}.

#[export] Instance emit_frame_preorder : PreOrder emit_frame.
Proof.
  split.
  - intros reg. split; [done..|by destruct reg].
  - intros a b c [H1 H2 H3] [G1 G2 G3]. split.
    + intros id. by rewrite G1.
    + by etransitivity.
    + rewrite G3 at 1. by rewrite H3 at 1.
Qed.

Definition reg_fed reg (feed : Z) (pk : str) : bool := fed (r_pk_dict reg) (r_feed_sets reg) feed pk.
Definition reg_feeds_ok reg : Prop := feeds_ok (r_pk_dict reg) (r_feed_sets reg).

Lemma ef_eval reg reg' : emit_frame reg reg' -> reg_eval reg' = reg_eval reg.
Proof. intros [_ _ ->]. done. Qed.

(** The candidates that are evaluated. *)
Definition current_keyed (ts : TableSchema) reg (s : SubqueryShape) (source : EmissionSource)
    (l : list (str * (Row * bool))) : list (str * (Row * bool)) :=
  match source with
  | SrcQueryBack gate =>
      filter (λ kc : str * (Row * bool),
        negb (stale_candidate ts (r_pk_dict reg) (sh_recent s) gate kc.2.1) = true) l
  | _ => l
  end.

Lemma current_keyed_ok ts reg s source l : keyed ts l -> keyed ts (current_keyed ts reg s source l) /\
  (current_keyed ts reg s source l).*2 = current_candidates ts (r_pk_dict reg) s source l.*2.
Proof.
  intros Hl. destruct source as [| |gate]; simpl; [done|done|]. split; [by apply keyed_filter|].
  clear Hl. induction l as [|[k c] l IH]; csimpl; [done|].
  destruct (stale_candidate ts (r_pk_dict reg) (sh_recent s) gate c.1) eqn:E.
  - rewrite filter_cons_False by (simpl; by rewrite E). rewrite filter_cons_False by (by rewrite E). done.
  - rewrite filter_cons_True by (simpl; by rewrite E). rewrite filter_cons_True by done. csimpl. by rewrite IH.
Qed.

(** What one shape's candidates come to. *)
Definition group_members reg (s : SubqueryShape) (cur : list (str * (Row * bool))) : list Row :=
  (filter (λ c, verdict (sh_pred s) (reg_eval reg) c = true) cur.*2).*1.
Definition group_deletes reg (s : SubqueryShape) (cur : list (str * (Row * bool))) : list str :=
  (filter (λ kc : str * (Row * bool), negb (verdict (sh_pred s) (reg_eval reg) kc.2) &&
             reg_fed reg (sh_feed_id s) kc.1 = true) cur).*1.
Definition group_fed reg (s : SubqueryShape) (cur : list (str * (Row * bool))) (f : Z) (pk : str) : bool :=
  match (if decide (f = sh_feed_id s) then (list_to_map cur : gmap str (Row * bool)) !! pk else None) with
  | Some c => verdict (sh_pred s) (reg_eval reg) c
  | None => reg_fed reg f pk
  end.

Lemma fold_insert_lookup {K} `{Countable K} {A} (x : A) ks : forall (m : gmap K A) k,
  foldl (λ m k, <[k := x]> m) m ks !! k = if bool_decide (k ∈ ks) then Some x else m !! k.
Proof.
  induction ks as [|k' ks IH]; intros m k; simpl; [done|]. rewrite IH.
  destruct (decide (k ∈ ks)) as [Hin|Hn].
  - rewrite !bool_decide_eq_true_2; [done|by right|done].
  - rewrite bool_decide_eq_false_2 by done. destruct (decide (k = k')) as [->|Hne].
    + rewrite lookup_insert_eq, bool_decide_eq_true_2; [done|by left].
    + rewrite lookup_insert_ne, bool_decide_eq_false_2; [done| |done]. by intros [?|?]%elem_of_cons.
Qed.

(** The stamp a shape's recency has for a key. *)
Definition recent_of reg (id pk : str) : option Stamp :=
  s ← r_shapes reg !! id; i ← pk_get (r_pk_dict reg) pk; sh_recent s !! i.

(** Feeds and recencies hold only numbers of the dictionary. *)
Record tail_ok reg : Prop := {
  tk_feeds : reg_feeds_ok reg;
  tk_recent : forall id s i, r_shapes reg !! id = Some s -> is_Some (sh_recent s !! i) ->
    0 <= i < Z.of_nat (pk_len (r_pk_dict reg))
}.

(** A number the dictionary did not have before it grew. *)
Lemma dict_fresh d d' pk i : dict_ok d -> dict_ok d' -> dict_le d d' -> pk_get d pk = None -> pk_get d' pk = Some i ->
  Z.of_nat (pk_len d) <= i.
Proof.
  intros Hd Hd' [Hp Hf] Hn Hs. apply (do_ids _ Hd') in Hs as Hi. destruct Hi as [H0 Hi].
  destruct (decide (Z.of_nat (pk_len d) <= i)) as [|Hlt]; [done|]. exfalso.
  destruct (lookup_lt_is_Some_2 (pd_reverse d) (Z.to_nat i)) as [pk' Hpk']; [unfold pk_len in *; lia|].
  assert (pk' = pk) as -> by (eapply prefix_lookup_Some in Hpk'; [|exact Hp]; congruence).
  assert (pk_get d pk = Some i) by (by apply (do_ids _ Hd)). congruence.
Qed.

(** A growing dictionary gives no key a recency. *)
Lemma recent_grow d d' (m : gmap Z Stamp) pk : dict_ok d -> dict_ok d' -> dict_le d d' ->
  (forall i, is_Some (m !! i) -> 0 <= i < Z.of_nat (pk_len d)) ->
  (i ← pk_get d' pk; m !! i) = (i ← pk_get d pk; m !! i).
Proof.
  intros Hd Hd' Hle Hm. destruct (pk_get d pk) as [i|] eqn:E; simpl; [by rewrite (dict_le_get _ _ _ _ Hle E)|].
  destruct (pk_get d' pk) as [i|] eqn:E'; simpl; [|done]. apply eq_None_not_Some. intros Hi%Hm.
  pose proof (dict_fresh _ _ _ _ Hd Hd' Hle E E'). lia.
Qed.

Lemma emit_group_spec ts source reg staged deletes id s l :
  tail_ok reg -> keyed ts l -> r_shapes reg !! id = Some s ->
  let cur := current_keyed ts reg s source l in
  let '(reg', staged', deletes') := emit_group ts source (reg, staged, deletes) (id, l.*2) in
  emit_frame reg reg' /\ r_sent reg' = r_sent reg /\
  (forall id', id' <> id -> r_shapes reg' !! id' = r_shapes reg !! id') /\
  (dict_small reg' ->
   tail_ok reg' /\
   (forall f pk, reg_fed reg' f pk = group_fed reg s cur f pk) /\
   staged' = staged ++ [(id, group_members reg s cur)] /\
   (forall id', default [] (deletes' !! id') =
      default [] (deletes !! id') ++ if decide (id' = id) then group_deletes reg s cur else []) /\
   (forall id' pk, recent_of reg' id' pk =
      match live_stamp source with
      | Some stamp => if decide (id' = id /\ 0 < sh_inflight s /\ pk ∈ cur.*1) then Some stamp
                      else recent_of reg id' pk
      | None => recent_of reg id' pk
      end)).
Proof.
  intros [Hok Hrec] Hl Hs cur. destruct (current_keyed_ok ts reg s source l Hl) as [Hcur Ecur]. fold cur in Hcur, Ecur.
  unfold emit_group. cbn [fst snd]. rewrite Hs. cbv zeta. rewrite <- Ecur.
  set (rec := (0 <? sh_inflight s) && match live_stamp source with Some _ => true | None => false end).
  destruct (emit_candidates_spec ts (sh_pred s) (reg_eval reg) (sh_feed_id s) rec cur
              (MkEmitting (r_pk_dict reg) (r_feed_sets reg) [] [] []) Hok Hcur) as [Hle Hspec].
  set (e := foldl _ _ cur.*2) in *. simpl in Hle, Hspec.
  assert (Hcore : forall ids s, shape_core (record_stamps source ids s) = shape_core s)
    by (intros ids s'; unfold record_stamps; by destruct (live_stamp source)).
  split_and!.
  - split; [|exact Hle|by destruct reg]. intros id'. simpl. by apply alter_core.
  - done.
  - intros id' Hne. simpl. by rewrite lookup_alter_ne.
  - intros Hsm. destruct (Hspec Hsm) as (Hok' & Hfed & Hm & Hd & He & Hi).
    pose proof (fo_dict _ _ Hok) as Hd0. pose proof (fo_dict _ _ Hok') as Hd1.
    assert (Hgrow : forall id' s', r_shapes reg !! id' = Some s' -> forall pk,
      (i ← pk_get (eg_dict e) pk; sh_recent s' !! i) = (i ← pk_get (r_pk_dict reg) pk; sh_recent s' !! i)).
    { intros id' s' Hs' pk. apply recent_grow; [done..|]. intros i. by eapply Hrec. }
    assert (Hat : forall i, sh_recent (record_stamps source (eg_evaluated e) s) !! i =
      match live_stamp source with
      | Some stamp => if bool_decide (0 < sh_inflight s /\ i ∈ omap (pk_get (eg_dict e)) cur.*1)
                      then Some stamp else sh_recent s !! i
      | None => sh_recent s !! i
      end).
    { intros i. unfold record_stamps. unfold rec in He. destruct (live_stamp source) as [stamp|]; [|done].
      simpl. rewrite fold_insert_lookup, He, andb_true_r. destruct (Z.ltb_spec 0 (sh_inflight s)).
      - by rewrite (bool_decide_ext (i ∈ omap (pk_get (eg_dict e)) cur.*1) (0 < sh_inflight s /\ i ∈ omap (pk_get (eg_dict e)) cur.*1)) by tauto.
      - rewrite !bool_decide_eq_false_2; [done|lia|by intros ?%not_elem_of_nil]. }
    split_and!.
    + split; [exact Hok'|]. intros id' s' i. simpl. destruct (decide (id' = id)) as [->|Hne].
      * rewrite lookup_alter_eq, Hs. intros [= <-]. rewrite Hat. apply dict_le_len in Hle as Hlen.
        destruct (live_stamp source); [|intros Hi'; specialize (Hrec _ _ _ Hs Hi'); lia].
        case_bool_decide as Hb; [|intros Hi'; specialize (Hrec _ _ _ Hs Hi'); lia]. intros _.
        destruct Hb as [_ (pk & _ & Hpk)%list_elem_of_omap].
        apply (do_ids _ Hd1) in Hpk as [? Hl'%lookup_lt_Some]. unfold pk_len. lia.
      * rewrite lookup_alter_ne by done. intros Hs' Hi'. specialize (Hrec _ _ _ Hs' Hi').
        apply dict_le_len in Hle. lia.
    + exact Hfed.
    + by rewrite Hm.
    + intros id'. assert (Hd' : eg_deletes e = group_deletes reg s cur) by exact Hd. rewrite Hd'.
      destruct (decide (id' = id)) as [->|Hne].
      * destruct (group_deletes reg s cur) as [|d ds]; [by rewrite app_nil_r|by rewrite lookup_insert_eq].
      * rewrite app_nil_r. destruct (group_deletes reg s cur); [done|by rewrite lookup_insert_ne].
    + intros id' pk. unfold recent_of. simpl. destruct (decide (id' = id)) as [->|Hne].
      * rewrite lookup_alter_eq, Hs. simpl. destruct (live_stamp source) as [stamp|] eqn:El.
        -- destruct (decide (id = id /\ 0 < sh_inflight s /\ pk ∈ cur.*1)) as [(_ & Hpos & Hin)|Hn].
           ++ destruct (Hi ltac:(unfold rec; rewrite andb_true_r; by apply Z.ltb_lt) pk Hin) as [i Hpk].
              rewrite Hpk. simpl. rewrite Hat, bool_decide_eq_true_2; [done|]. split; [done|].
              apply list_elem_of_omap. by exists pk.
           ++ rewrite <- (Hgrow _ _ Hs). destruct (pk_get (eg_dict e) pk) as [i|] eqn:Hpk; [|done]. simpl.
              rewrite Hat, bool_decide_eq_false_2; [done|]. intros [Hpos (pk' & Hin & Hpk')%list_elem_of_omap].
              apply Hn. split_and!; [done|done|]. by rewrite (dict_ok_inj _ _ _ _ Hd1 Hpk Hpk').
        -- rewrite <- (Hgrow _ _ Hs). destruct (pk_get (eg_dict e) pk); [|done]. simpl. by rewrite Hat.
      * rewrite lookup_alter_ne by done.
        assert (E : (s ← r_shapes reg !! id'; i ← pk_get (eg_dict e) pk; sh_recent s !! i) =
                    (s ← r_shapes reg !! id'; i ← pk_get (r_pk_dict reg) pk; sh_recent s !! i)).
        { destruct (r_shapes reg !! id') as [s'|] eqn:Hs'; [|done]. simpl. by apply (Hgrow id'). }
        rewrite E. destruct (live_stamp source); [|done]. rewrite decide_False; [done|]. naive_solver.
Qed.

(** No two installed shapes share a feed or a stream. *)
Record shapes_distinct reg : Prop := {
  sd_feed : forall i1 i2 s1 s2, r_shapes reg !! i1 = Some s1 -> r_shapes reg !! i2 = Some s2 ->
    sh_feed_id s1 = sh_feed_id s2 -> i1 = i2;
  sd_path : forall i1 i2 s1 s2, r_shapes reg !! i1 = Some s1 -> r_shapes reg !! i2 = Some s2 ->
    sh_stream_path s1 = sh_stream_path s2 -> i1 = i2
}.

Lemma ef_shape reg reg' id s : emit_frame reg reg' -> r_shapes reg !! id = Some s ->
  exists s', r_shapes reg' !! id = Some s' /\ shape_core s' = shape_core s.
Proof.
  intros [H _ _] Hs. specialize (H id). rewrite Hs in H. simpl in H.
  apply fmap_Some in H as (s' & -> & ->). eauto.
Qed.

Lemma ef_shape_back reg reg' id s' : emit_frame reg reg' -> r_shapes reg' !! id = Some s' ->
  exists s, r_shapes reg !! id = Some s /\ shape_core s' = shape_core s.
Proof.
  intros [H _ _] Hs. specialize (H id). rewrite Hs in H. symmetry in H. simpl in H.
  apply fmap_Some in H as (s & -> & ->). eauto.
Qed.

Lemma shape_core_fields s s' : shape_core s' = shape_core s ->
  sh_feed_id s' = sh_feed_id s /\ sh_stream_path s' = sh_stream_path s /\ sh_pred s' = sh_pred s /\
  sh_out_cols s' = sh_out_cols s /\ sh_gate s' = sh_gate s /\ sh_outer_table s' = sh_outer_table s /\
  sh_inflight s' = sh_inflight s.
Proof.
  intros H. split_and!;
    [exact (f_equal sh_feed_id H)|exact (f_equal sh_stream_path H)|exact (f_equal sh_pred H)
    |exact (f_equal sh_out_cols H)|exact (f_equal sh_gate H)|exact (f_equal sh_outer_table H)
    |exact (f_equal sh_inflight H)].
Qed.

Lemma shapes_distinct_frame reg reg' : emit_frame reg reg' -> shapes_distinct reg -> shapes_distinct reg'.
Proof.
  intros F [H1 H2].
  assert (H : forall i s, r_shapes reg' !! i = Some s -> exists t, r_shapes reg !! i = Some t /\
            sh_feed_id s = sh_feed_id t /\ sh_stream_path s = sh_stream_path t).
  { intros i s (t & Ht & (? & ? & _)%shape_core_fields)%(ef_shape_back _ _ _ _ F). by exists t. }
  split; intros i1 i2 s1 s2 (t1 & Ht1 & Hf1 & Hp1)%H (t2 & Ht2 & Hf2 & Hp2)%H He;
    [apply (H1 i1 i2 t1 t2 Ht1 Ht2)|apply (H2 i1 i2 t1 t2 Ht1 Ht2)]; congruence.
Qed.

Lemma emit_group_frame ts source st g : emit_frame st.1.1 (emit_group ts source st g).1.1.
Proof.
  destruct st as [[reg staged] deletes]. unfold emit_group. simpl.
  destruct (r_shapes reg !! g.1) as [s|]; [|done]. cbn [fst]. split; [| |by destruct reg].
  - intros id'. simpl. apply alter_core. intros s'. unfold record_stamps. by destruct (live_stamp source).
  - simpl. apply (emit_candidates_le ts _ _ _ _ _ (MkEmitting (r_pk_dict reg) (r_feed_sets reg) [] [] [])).
Qed.

Lemma emit_groups_frame ts source gs : forall st, emit_frame st.1.1 (foldl (emit_group ts source) st gs).1.1.
Proof.
  induction gs as [|g gs IH]; intros st; simpl; [done|].
  transitivity (emit_group ts source st g).1.1; [apply emit_group_frame|apply IH].
Qed.

Lemma emit_group_sent ts source st g : r_sent (emit_group ts source st g).1.1 = r_sent st.1.1.
Proof.
  destruct st as [[reg staged] deletes]. unfold emit_group. simpl. by destruct (r_shapes reg !! g.1).
Qed.

Lemma emit_groups_sent ts source gs : forall st, r_sent (foldl (emit_group ts source) st gs).1.1 = r_sent st.1.1.
Proof. induction gs as [|g gs IH]; intros st; simpl; [done|]. by rewrite IH, emit_group_sent. Qed.

(** The first phase of a live decision, over all shapes. *)
Lemma emit_groups_live ts source stamp gs : live_stamp source = Some stamp ->
  forall reg staged deletes, tail_ok reg -> shapes_distinct reg ->
  Forall (λ g : str * list (str * (Row * bool)), keyed ts g.2) gs -> NoDup gs.*1 ->
  let '(reg', staged', deletes') :=
    foldl (emit_group ts source) (reg, staged, deletes) (map (λ g, (g.1, g.2.*2)) gs) in
  dict_small reg' ->
   tail_ok reg' /\
   (forall id s pk, r_shapes reg !! id = Some s ->
      reg_fed reg' (sh_feed_id s) pk =
      match (list_to_map gs : gmap str _) !! id with
      | Some l => group_fed reg s l (sh_feed_id s) pk
      | None => reg_fed reg (sh_feed_id s) pk
      end) /\
   staged' = staged ++ omap (λ g, s ← r_shapes reg !! g.1; Some (g.1, group_members reg s g.2)) gs /\
   (forall id s, r_shapes reg !! id = Some s ->
      default [] (deletes' !! id) = default [] (deletes !! id) ++
        match (list_to_map gs : gmap str _) !! id with Some l => group_deletes reg s l | None => [] end) /\
   (forall id s pk, r_shapes reg !! id = Some s ->
      recent_of reg' id pk =
      match (list_to_map gs : gmap str _) !! id with
      | Some l => if decide (0 < sh_inflight s /\ pk ∈ l.*1) then Some stamp else recent_of reg id pk
      | None => recent_of reg id pk
      end).
Proof.
  intros Hlive. induction gs as [|[id l] gs IH]; intros reg staged deletes Hok Hsd Hl Hnd.
  { simpl. intros _. split_and!; [done|intros; by rewrite lookup_empty|by rewrite app_nil_r| |].
    - intros. by rewrite lookup_empty, app_nil_r.
    - intros. by rewrite lookup_empty. }
  cbn [map foldl fst snd]. csimpl in Hnd. apply Forall_cons in Hl as [Hl1 Hl]. apply NoDup_cons in Hnd as [Hid Hnd]. simpl in Hl1.
  assert (Hnone : (list_to_map gs : gmap str (list (str * (Row * bool)))) !! id = None)
    by (by apply not_elem_of_list_to_map_1).
  destruct (r_shapes reg !! id) as [s|] eqn:Hs.
  2: { assert (Hskip : emit_group ts source (reg, staged, deletes) (id, l.*2) = (reg, staged, deletes))
         by (unfold emit_group; cbn [fst snd]; by rewrite Hs).
       rewrite Hskip. specialize (IH reg staged deletes Hok Hsd Hl Hnd).
       destruct (foldl (emit_group ts source) (reg, staged, deletes) _) as [[reg' staged'] deletes'].
       intros Hsm. destruct (IH Hsm) as (H1 & H2 & H3 & H4 & H5). csimpl. rewrite Hs. simpl. split_and!; [done| |done| |].
       - intros id' s' pk Hs'. rewrite lookup_insert_ne by (intros ->; congruence). by apply H2.
       - intros id' s' Hs'. rewrite lookup_insert_ne by (intros ->; congruence). by apply H4.
       - intros id' s' pk Hs'. rewrite lookup_insert_ne by (intros ->; congruence). by apply H5. }
  pose proof (emit_group_spec ts source reg staged deletes id s l Hok Hl1 Hs) as Hg. cbv zeta in Hg.
  assert (Hcur : current_keyed ts reg s source l = l) by (unfold current_keyed; by destruct source).
  rewrite Hcur in Hg. destruct (emit_group ts source (reg, staged, deletes) (id, l.*2)) as [[reg1 staged1] deletes1].
  destruct Hg as (F1 & _ & Hother & Hg).
  pose proof (emit_groups_frame ts source (map (λ g, (g.1, g.2.*2)) gs) (reg1, staged1, deletes1)) as F2.
  specialize (IH reg1 staged1 deletes1). simpl in F2.
  destruct (foldl (emit_group ts source) (reg1, staged1, deletes1) _) as [[reg' staged'] deletes'].
  simpl in F2. intros Hsm.
  assert (Hsm1 : dict_small reg1) by (pose proof (dict_le_len _ _ (ef_dict _ _ F2)); unfold dict_small in *; lia).
  destruct (Hg Hsm1) as (Hok1 & Hfed1 & -> & Hd1 & Hr1).
  destruct (IH Hok1 (shapes_distinct_frame _ _ F1 Hsd) Hl Hnd Hsm) as (Hok2 & Hfed2 & -> & Hd2 & Hr2).
  destruct (ef_shape _ _ _ _ F1 Hs) as (s1 & Hs1 & Hcore).
  pose proof (shape_core_fields _ _ Hcore) as (Hf1 & _).
  assert (Hoth : forall id' s' l', id' <> id -> r_shapes reg !! id' = Some s' ->
            group_members reg1 s' l' = group_members reg s' l' /\
            group_deletes reg1 s' l' = group_deletes reg s' l' /\
            forall pk, reg_fed reg1 (sh_feed_id s') pk = reg_fed reg (sh_feed_id s') pk /\
              group_fed reg1 s' l' (sh_feed_id s') pk = group_fed reg s' l' (sh_feed_id s') pk).
  { intros id' s' l' Hne Hs'.
    assert (Hfed : forall pk, reg_fed reg1 (sh_feed_id s') pk = reg_fed reg (sh_feed_id s') pk).
    { intros pk. rewrite Hfed1. unfold group_fed. rewrite decide_False; [done|].
      intros He. apply Hne. by eapply (sd_feed _ Hsd). }
    unfold group_members, group_deletes, group_fed. rewrite (ef_eval _ _ F1). split_and!; [done| |].
    - f_equal. apply filter_bool_ext. intros kc _. by rewrite Hfed.
    - intros pk. split; [done|]. by rewrite !Hfed. }
  rewrite Hlive in Hr1. csimpl. split_and!; [done| | | |].
  - intros id' s' pk Hs'. destruct (decide (id = id')) as [<-|Hne].
    + assert (s' = s) as -> by congruence. rewrite lookup_insert_eq, <- Hf1, (Hfed2 id s1 pk Hs1), Hnone, Hf1. apply Hfed1.
    + rewrite lookup_insert_ne by done. rewrite (Hfed2 id' s' pk) by (by rewrite Hother by done).
      destruct ((list_to_map gs : gmap str (list (str * (Row * bool)))) !! id') as [l'|]; [|by apply (Hoth id' s' [])]. by apply (Hoth id' s' l').
  - rewrite Hs. simpl. rewrite <- app_assoc. f_equal. simpl. f_equal. clear -Hother Hid Hoth.
    induction gs as [|[id' l'] gs IHg]; csimpl; [done|]. csimpl in Hid. apply not_elem_of_cons in Hid as [Hne Hid].
    rewrite Hother by done. rewrite IHg by done. destruct (r_shapes reg !! id') as [s'|] eqn:Hs'; [|done]. simpl.
    f_equal. f_equal. by apply (Hoth id' s' l').
  - intros id' s' Hs'. destruct (decide (id = id')) as [<-|Hne].
    + assert (s' = s) as -> by congruence. rewrite lookup_insert_eq, (Hd2 id s1 Hs1), Hnone, app_nil_r, Hd1.
      by rewrite decide_True.
    + rewrite lookup_insert_ne by done. rewrite (Hd2 id' s') by (by rewrite Hother by done).
      rewrite Hd1, decide_False, app_nil_r by done. f_equal.
      destruct ((list_to_map gs : gmap str (list (str * (Row * bool)))) !! id') as [l'|]; [|done]. by apply (Hoth id' s' l').
  - intros id' s' pk Hs'. destruct (decide (id = id')) as [<-|Hne].
    + assert (s' = s) as -> by congruence. rewrite lookup_insert_eq, (Hr2 id s1 pk Hs1), Hnone, Hr1.
      destruct (decide (id = id /\ 0 < sh_inflight s /\ pk ∈ l.*1)) as [(_ & ? & ?)|Hn].
      * by rewrite decide_True.
      * rewrite decide_False; [done|]. naive_solver.
    + rewrite lookup_insert_ne by done. rewrite (Hr2 id' s' pk) by (by rewrite Hother by done).
      assert (Hr : recent_of reg1 id' pk = recent_of reg id' pk) by (rewrite Hr1, decide_False; [done|naive_solver]).
      rewrite Hr. done.
Qed.

(** ** Delivery *)

(** Everything handed over for a stream. *)
Definition sent_to reg (path : str) : list Envelope :=
  concat (filter (λ b : str * list Envelope, b.1 = path) (r_sent reg)).*2.

Definition group_envs (ts : TableSchema) (txid : option str) (s : SubqueryShape) (members : list Row)
    (dels : list str) : list Envelope :=
  translate_output ts (map (λ r, (r, 1)) members) txid None (sh_out_cols s) ++ delete_envelopes ts dels txid.

Lemma sent_to_deliver path envs reg path' : sent_to (deliver path envs reg) path' =
  sent_to reg path' ++ if decide (path = path') then envs else [].
Proof.
  unfold sent_to, deliver. simpl. rewrite filter_app, fmap_app, concat_app. f_equal.
  destruct (decide (path = path')) as [->|Hne].
  - rewrite filter_cons_True by done. simpl. by rewrite app_nil_r.
  - by rewrite filter_cons_False.
Qed.

Lemma deliver_group_spec ts txid reg deletes results id members s :
  r_shapes reg !! id = Some s ->
  let dels := default [] (deletes !! id) in
  let '(reg', deletes', results') := deliver_group ts txid (reg, deletes, results) (id, members) in
  emit_frame reg reg' /\ r_pk_dict reg' = r_pk_dict reg /\ r_feed_sets reg' = r_feed_sets reg /\
  deletes' = delete id deletes /\
  (forall id', sh_recent <$> r_shapes reg' !! id' = sh_recent <$> r_shapes reg !! id') /\
  (forall path, sent_to reg' path =
     sent_to reg path ++ if decide (sh_stream_path s = path) then group_envs ts txid s members dels else []).
Proof.
  intros Hs dels. unfold deliver_group. cbn [fst snd]. rewrite Hs. cbv zeta. fold dels.
  fold (group_envs ts txid s members dels).
  destruct (group_envs ts txid s members dels) as [|e es] eqn:E.
  { split_and!; [done..|]. intros path. destruct (decide _); by rewrite app_nil_r. }
  set (reg1 := on_shape id _ reg).
  assert (F : emit_frame reg reg1).
  { split; [|done|by destruct reg]. intros id'. simpl. by apply alter_core. }
  split_and!; [|done..| |].
  - transitivity reg1; [done|]. split; [done|done|]. by destruct reg1.
  - intros id'. by apply alter_core.
  - intros path. by rewrite sent_to_deliver.
Qed.

Lemma deliver_groups_frame ts txid staged : forall st,
  emit_frame st.1.1 (foldl (deliver_group ts txid) st staged).1.1.
Proof.
  induction staged as [|[id members] staged IH]; intros [[reg deletes] results]; cbn [foldl]; [done|].
  transitivity (deliver_group ts txid (reg, deletes, results) (id, members)).1.1; [|apply IH].
  destruct (r_shapes reg !! id) as [s|] eqn:Hs.
  - pose proof (deliver_group_spec ts txid reg deletes results id members s Hs) as H. cbv zeta in H.
    destruct (deliver_group ts txid (reg, deletes, results) (id, members)) as [[? ?] ?]. apply H.
  - unfold deliver_group. cbn [fst snd]. by rewrite Hs.
Qed.

Lemma deliver_groups_spec ts txid staged : forall reg deletes results,
  shapes_distinct reg -> NoDup staged.*1 ->
  let '(reg', _, _) := foldl (deliver_group ts txid) (reg, deletes, results) staged in
  emit_frame reg reg' /\ r_pk_dict reg' = r_pk_dict reg /\ r_feed_sets reg' = r_feed_sets reg /\
  (forall id', sh_recent <$> r_shapes reg' !! id' = sh_recent <$> r_shapes reg !! id') /\
  (forall id s, r_shapes reg !! id = Some s -> sent_to reg' (sh_stream_path s) =
     sent_to reg (sh_stream_path s) ++
     match (list_to_map staged : gmap str (list Row)) !! id with
     | Some members => group_envs ts txid s members (default [] (deletes !! id))
     | None => []
     end).
Proof.
  induction staged as [|[id members] staged IH]; intros reg deletes results Hsd Hnd.
  { simpl. split_and!; [done..|]. intros. by rewrite lookup_empty, app_nil_r. }
  cbn [foldl]. csimpl in Hnd. apply NoDup_cons in Hnd as [Hid Hnd].
  assert (Hnone : (list_to_map staged : gmap str (list Row)) !! id = None) by (by apply not_elem_of_list_to_map_1).
  destruct (r_shapes reg !! id) as [s|] eqn:Hs.
  2: { assert (Hskip : deliver_group ts txid (reg, deletes, results) (id, members) = (reg, deletes, results))
         by (unfold deliver_group; cbn [fst snd]; by rewrite Hs).
       rewrite Hskip. specialize (IH reg deletes results Hsd Hnd).
       destruct (foldl (deliver_group ts txid) (reg, deletes, results) staged) as [[reg' ?] ?].
       destruct IH as (H1 & H2 & H3 & H4 & H5). split_and!; [done..|]. intros id' s' Hs'. csimpl.
       rewrite lookup_insert_ne by (intros ->; congruence). by apply H5. }
  pose proof (deliver_group_spec ts txid reg deletes results id members s Hs) as H1. cbv zeta in H1.
  destruct (deliver_group ts txid (reg, deletes, results) (id, members)) as [[reg1 deletes1] results1].
  destruct H1 as (F1 & Hd1 & Hf1 & -> & Hr1 & Hp1).
  specialize (IH reg1 (delete id deletes) results1 (shapes_distinct_frame _ _ F1 Hsd) Hnd).
  destruct (foldl (deliver_group ts txid) (reg1, delete id deletes, results1) staged) as [[reg' ?] ?].
  destruct IH as (F2 & Hd2 & Hf2 & Hr2 & Hp2). split_and!; [by etransitivity|congruence|congruence| |].
  - intros. by rewrite Hr2, Hr1.
  - intros id' s' Hs'. csimpl. destruct (ef_shape _ _ _ _ F1 Hs') as (s1 & Hs1 & Hcore).
    destruct (shape_core_fields _ _ Hcore) as (_ & Hpath & _ & Hcols & _).
    assert (Hge : forall m ds, group_envs ts txid s1 m ds = group_envs ts txid s' m ds)
      by (intros; unfold group_envs; by rewrite Hcols).
    specialize (Hp2 id' s1 Hs1). rewrite Hpath in Hp2. rewrite Hp2, Hp1.
    destruct (decide (id = id')) as [<-|Hne].
    + assert (s' = s) as -> by congruence. by rewrite decide_True, Hnone, lookup_insert_eq, app_nil_r by done.
    + rewrite decide_False by (intros He; apply Hne; by eapply (sd_path _ Hsd)).
      rewrite app_nil_r, lookup_insert_ne by done.
      destruct ((list_to_map staged : gmap str (list Row)) !! id'); [|done]. by rewrite Hge, lookup_delete_ne.
Qed.

Lemma recents_kept reg reg' : r_pk_dict reg' = r_pk_dict reg ->
  (forall id, sh_recent <$> r_shapes reg' !! id = sh_recent <$> r_shapes reg !! id) ->
  r_feed_sets reg' = r_feed_sets reg ->
  (forall id pk, recent_of reg' id pk = recent_of reg id pk) /\ (tail_ok reg -> tail_ok reg').
Proof.
  intros Hd Hs Hf. split.
  - intros id pk. unfold recent_of. rewrite Hd. specialize (Hs id).
    destruct (r_shapes reg' !! id), (r_shapes reg !! id); simpl in *; try done.
    apply (inj Some) in Hs. by rewrite Hs.
  - intros [H1 H2]. split; [unfold reg_feeds_ok; by rewrite Hd, Hf|]. intros id s i Hi. specialize (Hs id).
    rewrite Hi in Hs. symmetry in Hs. simpl in Hs. apply fmap_Some in Hs as (s0 & Hs0 & ->). rewrite Hd. by eapply H2.
Qed.

(** What is staged, as a map. *)
Lemma staged_members reg (gs : list (str * list (str * (Row * bool)))) :
  NoDup gs.*1 ->
  let st := omap (λ g, s ← r_shapes reg !! g.1; Some (g.1, group_members reg s g.2)) gs in
  NoDup st.*1 /\ forall id s, r_shapes reg !! id = Some s ->
    (list_to_map st : gmap str (list Row)) !! id =
    (l ← (list_to_map gs : gmap str (list (str * (Row * bool)))) !! id; Some (group_members reg s l)).
Proof.
  induction gs as [|[id l] gs IH]; csimpl; [intros _; split; [constructor|done]|].
  intros Hnd. apply NoDup_cons in Hnd as [Hid Hnd]. destruct (IH Hnd) as [IH1 IH2]. clear IH.
  assert (Hsub : forall i, i ∈ (omap (λ g, s ← r_shapes reg !! g.1; Some (g.1, group_members reg s g.2)) gs).*1 ->
            i ∈ gs.*1).
  { intros i ([i' m] & -> & (g & Hg & Hx)%list_elem_of_omap)%list_elem_of_fmap.
    destruct (r_shapes reg !! g.1); [|done]. injection Hx as Hx _. apply list_elem_of_fmap. exists g. by rewrite Hx. }
  destruct (r_shapes reg !! id) as [s|] eqn:Hs; csimpl.
  - split; [constructor; [by intros ?%Hsub|done]|]. intros id' s' Hs'. destruct (decide (id = id')) as [<-|Hne].
    + rewrite !lookup_insert_eq. simpl. congruence.
    + rewrite !lookup_insert_ne by done. by apply IH2.
  - split; [done|]. intros id' s' Hs'. rewrite lookup_insert_ne by (intros ->; congruence). by apply IH2.
Qed.

(** A live decision over all the shapes of a change. *)
Lemma emit_live_spec ts source stamp txid gs reg : live_stamp source = Some stamp ->
  tail_ok reg -> shapes_distinct reg ->
  Forall (λ g : str * list (str * (Row * bool)), keyed ts g.2) gs -> NoDup gs.*1 ->
  let reg' := (emit_for_shapes reg ts (map (λ g, (g.1, g.2.*2)) gs) txid source).1 in
  emit_frame reg reg' /\
  (dict_small reg' -> tail_ok reg' /\
   forall id s, r_shapes reg !! id = Some s ->
     match (list_to_map gs : gmap str _) !! id with
     | Some l =>
         sent_to reg' (sh_stream_path s) = sent_to reg (sh_stream_path s) ++
           shape_envs ts (sh_pred s) (reg_eval reg) (sh_out_cols s) txid (reg_fed reg (sh_feed_id s)) l /\
         (forall pk, reg_fed reg' (sh_feed_id s) pk = group_fed reg s l (sh_feed_id s) pk) /\
         (forall pk, recent_of reg' id pk =
            if decide (0 < sh_inflight s /\ pk ∈ l.*1) then Some stamp else recent_of reg id pk)
     | None =>
         sent_to reg' (sh_stream_path s) = sent_to reg (sh_stream_path s) /\
         (forall pk, reg_fed reg' (sh_feed_id s) pk = reg_fed reg (sh_feed_id s) pk) /\
         (forall pk, recent_of reg' id pk = recent_of reg id pk)
     end).
Proof.
  intros Hlive Hok Hsd Hl Hnd reg'. unfold reg', emit_for_shapes. clear reg'.
  pose proof (emit_groups_live ts source stamp gs Hlive reg [] ∅ Hok Hsd Hl Hnd) as H1.
  pose proof (emit_groups_frame ts source (map (λ g, (g.1, g.2.*2)) gs) (reg, [], ∅)) as F1.
  pose proof (emit_groups_sent ts source (map (λ g, (g.1, g.2.*2)) gs) (reg, [], ∅)) as S1.
  destruct (foldl (emit_group ts source) (reg, [], ∅) _) as [[reg1 staged] deletes]. simpl in F1, S1.
  pose proof (deliver_groups_spec ts txid staged reg1 deletes [] (shapes_distinct_frame _ _ F1 Hsd)) as H2.
  pose proof (deliver_groups_frame ts txid staged (reg1, deletes, [])) as F2.
  destruct (foldl (deliver_group ts txid) (reg1, deletes, []) staged) as [[reg2 ?] ?]. simpl in F2. simpl.
  split; [by etransitivity|]. intros Hsm.
  assert (Hsm1 : dict_small reg1) by (pose proof (dict_le_len _ _ (ef_dict _ _ F2)); unfold dict_small in *; lia).
  destruct (H1 Hsm1) as (Hok1 & Hfed1 & -> & Hd1 & Hr1). clear H1. simpl in H2.
  set (st := omap (λ g, s ← r_shapes reg !! g.1; Some (g.1, group_members reg s g.2)) gs) in *.
  assert (Hst : NoDup st.*1 /\ forall id s, r_shapes reg !! id = Some s ->
            (list_to_map st : gmap str (list Row)) !! id =
            (l ← (list_to_map gs : gmap str (list (str * (Row * bool)))) !! id; Some (group_members reg s l)))
    by exact (staged_members reg gs Hnd).
  destruct Hst as [Hndst Hst]. destruct (H2 Hndst) as (_ & Hd2 & Hf2 & Hr2 & Hp2).
  destruct (recents_kept _ _ Hd2 Hr2 Hf2) as [Hrec Htail]. split; [by apply Htail|]. intros id s Hs.
  destruct (ef_shape _ _ _ _ F1 Hs) as (s1 & Hs1 & Hcore).
  destruct (shape_core_fields _ _ Hcore) as (_ & Hpath & _ & Hcols & _).
  specialize (Hp2 id s1 Hs1). rewrite Hpath, (Hst id s Hs) in Hp2.
  assert (Hsent : sent_to reg1 (sh_stream_path s) = sent_to reg (sh_stream_path s))
    by (unfold sent_to; by rewrite S1).
  assert (Hfed : forall f pk, reg_fed reg2 f pk = reg_fed reg1 f pk)
    by (intros; unfold reg_fed; by rewrite Hd2, Hf2).
  specialize (Hfed1 id s). specialize (Hd1 id s Hs). specialize (Hr1 id s).
  destruct ((list_to_map gs : gmap str (list (str * (Row * bool)))) !! id) as [lg|]; simpl in *.
  - split_and!.
    + rewrite Hp2, Hsent, Hd1, lookup_empty. f_equal. unfold group_envs, shape_envs. by rewrite Hcols.
    + intros pk. rewrite Hfed. by apply Hfed1.
    + intros pk. rewrite Hrec. by apply Hr1.
  - split_and!.
    + by rewrite Hp2, Hsent, app_nil_r.
    + intros pk. rewrite Hfed. by apply Hfed1.
    + intros pk. rewrite Hrec. by apply Hr1.
Qed.

(** One shape, whatever the source. *)
Lemma emit_one_spec ts source txid reg id s l :
  tail_ok reg -> shapes_distinct reg -> keyed ts l -> r_shapes reg !! id = Some s ->
  let reg' := (emit_for_shapes reg ts [(id, l.*2)] txid source).1 in
  let cur := current_keyed ts reg s source l in
  emit_frame reg reg' /\
  (dict_small reg' -> tail_ok reg' /\
   (forall id' s', r_shapes reg !! id' = Some s' -> sent_to reg' (sh_stream_path s') =
      sent_to reg (sh_stream_path s') ++
      if decide (id' = id)
      then shape_envs ts (sh_pred s) (reg_eval reg) (sh_out_cols s) txid (reg_fed reg (sh_feed_id s)) cur
      else []) /\
   (forall f pk, reg_fed reg' f pk = group_fed reg s cur f pk) /\
   (forall id' pk, recent_of reg' id' pk =
      match live_stamp source with
      | Some stamp => if decide (id' = id /\ 0 < sh_inflight s /\ pk ∈ cur.*1) then Some stamp
                      else recent_of reg id' pk
      | None => recent_of reg id' pk
      end)).
Proof.
  intros Hok Hsd Hl Hs. cbv zeta. unfold emit_for_shapes. cbn [foldl].
  pose proof (emit_group_spec ts source reg [] ∅ id s l Hok Hl Hs) as H1. cbv zeta in H1.
  destruct (emit_group ts source (reg, [], ∅) (id, l.*2)) as [[reg1 staged] deletes].
  destruct H1 as (F1 & S1 & _ & H1).
  pose proof (deliver_groups_frame ts txid staged (reg1, deletes, [])) as F2.
  pose proof (deliver_groups_spec ts txid staged reg1 deletes [] (shapes_distinct_frame _ _ F1 Hsd)) as H2.
  destruct (foldl (deliver_group ts txid) (reg1, deletes, []) staged) as [[reg2 ?] ?]. simpl in F2. simpl.
  split; [by etransitivity|]. intros Hsm.
  assert (Hsm1 : dict_small reg1) by (pose proof (dict_le_len _ _ (ef_dict _ _ F2)); unfold dict_small in *; lia).
  destruct (H1 Hsm1) as (Hok1 & Hfed1 & -> & Hd1 & Hr1). simpl in H2.
  destruct (H2 ltac:(apply NoDup_singleton)) as (_ & Hd2 & Hf2 & Hr2 & Hp2).
  destruct (recents_kept _ _ Hd2 Hr2 Hf2) as [Hrec Htail].
  assert (Hfed : forall f pk, reg_fed reg2 f pk = reg_fed reg1 f pk)
    by (intros; unfold reg_fed; by rewrite Hd2, Hf2).
  split_and!; [by apply Htail| |intros; by rewrite Hfed|intros; by rewrite Hrec].
  intros id' s' Hs'. destruct (ef_shape _ _ _ _ F1 Hs') as (s1 & Hs1 & Hcore).
  destruct (shape_core_fields _ _ Hcore) as (_ & Hpath & _ & Hcols & _).
  specialize (Hp2 id' s1 Hs1). rewrite Hpath in Hp2. rewrite Hp2.
  assert (Hsent : sent_to reg1 (sh_stream_path s') = sent_to reg (sh_stream_path s'))
    by (unfold sent_to; by rewrite S1).
  rewrite Hsent. f_equal. destruct (decide (id' = id)) as [->|Hne].
  - assert (s' = s) as -> by congruence. rewrite lookup_insert_eq, Hd1, lookup_empty, decide_True by done.
    unfold group_envs, shape_envs. by rewrite Hcols.
  - by rewrite lookup_insert_ne, lookup_empty by done.
Qed.

Lemma emit_for_shapes_frame ts groups txid source reg :
  emit_frame reg (emit_for_shapes reg ts groups txid source).1.
Proof.
  unfold emit_for_shapes.
  pose proof (emit_groups_frame ts source groups (reg, [], ∅)) as F1.
  destruct (foldl (emit_group ts source) (reg, [], ∅) groups) as [[reg1 staged] deletes]. simpl in F1.
  pose proof (deliver_groups_frame ts txid staged (reg1, deletes, [])) as F2.
  destruct (foldl (deliver_group ts txid) (reg1, deletes, []) staged) as [[reg2 ?] ?]. simpl in *. by etransitivity.
Qed.
End tail.
