(* ===== verification/SubqLive.v ===== *)
(** * A table change, node sets and subquery shapes

    What [on_table_delta] promises: the sets of the changed table's nodes follow their rows, every
    shape's stream is put right at the touched keys, and the flips it returns reach every other row
    whose membership the change can have moved. *)

From S2P Require Import Prelude BTree Value TableRef Schema Predicate PredicateFacts Gate Output.
From S2P Require Import Executors Refine Sequencer PkDict SubqIndex SubqCircuit Subquery SubqueryFacts SubqEmit.
From stdpp Require Import base option numbers strings gmap fin_maps sorting list.
#[local] Open Scope Z_scope.

(* ------------------------------------------------------------------ *)
(** ** The latest rows of a delta *)

Section latest.
Context {FT : FloatText} {FE : FaultEnv} (ts : TableSchema).
Implicit Types (T : gmap str Row).

Lemma key_or_empty_ok row k : key_string ts row = Ok k -> key_or_empty ts row = k.
Proof. unfold key_or_empty. by intros ->. Qed.

(** A delta of a table says of each key whether it is touched, and by what. *)
Lemma latest_rows_delta T delta T' : table_ok ts T -> delta_of ts T delta T' ->
  (forall k, match latest_rows ts delta !! k with
             | Some (r, true) => T' !! k = Some r
             | Some (r, false) => T' !! k = None /\ T !! k = Some r
             | None => T' !! k = T !! k
             end) /\
  (forall k rb, latest_rows ts delta !! k = Some rb -> key_string ts rb.1 = Ok k) /\
  (forall k r b, latest_rows ts delta !! k = Some (r, b) ->
     (b = true -> (r, 1) ∈ delta) /\
     (forall r0, T !! k = Some r0 -> (r0, -1) ∈ delta)).
Proof.
  intros Hok Hd. destruct Hd as [|new k Hk Hfr|old new ko kn Hin Hk Hfr|old ko Hin]; unfold latest_rows; simpl.
  - split_and!; intros k; rewrite lookup_empty; done.
  - rewrite (key_or_empty_ok _ _ Hk). split_and!.
    + intros k'. destruct (decide (k = k')) as [<-|Hne]; [by rewrite !lookup_insert_eq|].
      by rewrite !lookup_insert_ne, lookup_empty by done.
    + intros k' rb [[<- <-]|[_ ?]]%lookup_insert_Some; [done|by rewrite lookup_empty in *].
    + intros k' r b [[<- [= <- <-]]|[_ H]]%lookup_insert_Some; [|by rewrite lookup_empty in H].
      split; [by left|]. intros r0 Hr0. congruence.
  - pose proof (Hok _ _ Hin) as Hko. rewrite (key_or_empty_ok _ _ Hk), (key_or_empty_ok _ _ Hko), lookup_empty.
    split_and!.
    + intros k'. destruct (decide (kn = k')) as [<-|Hne]; [by rewrite !lookup_insert_eq|].
      rewrite !(lookup_insert_ne _ kn) by done. destruct (decide (ko = k')) as [<-|Hne'].
      * rewrite lookup_insert_eq, lookup_delete_eq. done.
      * by rewrite lookup_insert_ne, lookup_delete_ne, lookup_empty by done.
    + intros k' rb [[<- <-]|[_ [[<- <-]|[_ H]]%lookup_insert_Some]]%lookup_insert_Some;
        [done|done|by rewrite lookup_empty in H].
    + intros k' r b [[<- [= <- <-]]|[Hne [[<- [= <- <-]]|[_ H]]%lookup_insert_Some]]%lookup_insert_Some;
        [| |by rewrite lookup_empty in H].
      * split; [intros _; right; by left|]. intros r0 Hr0. destruct Hfr as [->|Hfr]; [|congruence].
        assert (r0 = old) as -> by congruence. by left.
      * split; [done|]. intros r0 Hr0. assert (r0 = old) as -> by congruence. by left.
  - pose proof (Hok _ _ Hin) as Hko. rewrite (key_or_empty_ok _ _ Hko), lookup_empty. split_and!.
    + intros k'. destruct (decide (ko = k')) as [<-|Hne]; [by rewrite lookup_insert_eq, lookup_delete_eq|].
      by rewrite lookup_insert_ne, lookup_delete_ne, lookup_empty by done.
    + intros k' rb [[<- <-]|[_ H]]%lookup_insert_Some; [done|by rewrite lookup_empty in H].
    + intros k' r b [[<- [= <- <-]]|[_ H]]%lookup_insert_Some; [|by rewrite lookup_empty in H].
      split; [done|]. intros r0 Hr0. assert (r0 = old) as -> by congruence. by left.
Qed.

Definition keyed_latest (delta : Delta) : list (str * (Row * bool)) := map_to_list (latest_rows ts delta).

Lemma keyed_latest_ok T delta T' : table_ok ts T -> delta_of ts T delta T' ->
  keyed ts (keyed_latest delta) /\ (keyed_latest delta).*2 = latest_rows_by_pk ts delta /\
  forall k, (list_to_map (keyed_latest delta) : gmap str (Row * bool)) !! k = latest_rows ts delta !! k.
Proof.
  intros Hok Hd. destruct (latest_rows_delta T delta T' Hok Hd) as (_ & Hk & _). unfold keyed_latest. split_and!.
  - split; [apply NoDup_fst_map_to_list|]. apply Forall_forall. intros [k rb] Hin%elem_of_map_to_list. by apply Hk.
  - done.
  - intros k. by rewrite list_to_map_to_list.
Qed.
End latest.

(* ------------------------------------------------------------------ *)
(** ** Step 1 seen from outside *)

Section step1.
Context {FT : FloatText} {FE : FaultEnv} {D : Type} {MP : MembershipPipeline D} {ML : MembershipLaws D}.
Implicit Types (reg : SubqueryRegistry D).

(** Everything but the nodes' recencies and buffers, the holders, the dictionary and the circuit. *)
Record nodes_frame reg reg' : Prop := {
  nf_nodes : forall s, node_core <$> r_nodes reg' !! s = node_core <$> r_nodes reg !! s;
  nf_dict : dict_le (r_pk_dict reg) (r_pk_dict reg');
  nf_rest : reg' = set_circuit (r_circuit reg') (set_nodes (r_nodes reg') (set_templates (r_templates reg')
                     (set_pk_dict (r_pk_dict reg') reg)))
}.

Lemma delta_nodes_unfold reg ts delta lsn xid : exists reg1 asserts,
  sets_frame reg reg1 /\ delta_nodes reg ts delta lsn xid = apply_asserts reg1 asserts.
Proof.
  unfold delta_nodes.
  set (tkeys := (filter (λ kt : str * TemplateGroup, tg_inner_table kt.2 = ts_table ts)
                   (map_to_list (r_templates reg))).*1).
  pose proof (foldl_frame (delta_template ts delta lsn xid) tkeys (λ st k, delta_template_frame _ _ _ _ st k) (reg, [])) as F.
  destruct (foldl (delta_template ts delta lsn xid) (reg, []) tkeys) as [reg1 asserts]. by exists reg1, asserts.
Qed.

Lemma apply_asserts_frame reg asserts : nodes_frame reg (apply_asserts reg asserts).1.
Proof.
  unfold apply_asserts. destruct (circuit_apply (r_circuit reg) asserts). split; [done|done|by destruct reg].
Qed.

Lemma sets_nodes_frame reg reg1 reg2 : sets_frame reg reg1 -> nodes_frame reg1 reg2 -> nodes_frame reg reg2.
Proof.
  intros [H1 H2 H3 H4] [G1 G2 G3]. split.
  - intros s. by rewrite G1.
  - by etransitivity.
  - rewrite G3 at 1. by rewrite H4 at 1.
Qed.

Lemma delta_nodes_frame reg ts delta lsn xid : nodes_frame reg (delta_nodes reg ts delta lsn xid).1.
Proof.
  destruct (delta_nodes_unfold reg ts delta lsn xid) as (reg1 & asserts & F & ->).
  eapply sets_nodes_frame; [exact F|apply apply_asserts_frame].
Qed.

(** The flips are exactly the values whose membership changed. *)
Definition flipped (flips : list (SubquerySig * Flip)) : list (SubquerySig * Value) :=
  map (λ sf : SubquerySig * Flip, (sf.1, fl_value sf.2)) flips.

Lemma node_contains_supported reg s n v : r_nodes reg !! s = Some n ->
  node_contains reg s v = supported (mp_held (r_circuit reg)) (n_node_id n) v.
Proof. intros Hs. unfold node_contains. rewrite Hs. apply circuit_contains_spec. Qed.

Lemma apply_asserts_flips reg asserts s n : circuit_runs (r_circuit reg) ->
  (forall s n, r_nodes reg !! s = Some n -> r_node_by_id reg !! n_node_id n = Some s) ->
  (forall i s, r_node_by_id reg !! i = Some s -> exists n, r_nodes reg !! s = Some n /\ n_node_id n = i) ->
  r_nodes reg !! s = Some n -> forall v,
  node_contains reg s v <> node_contains (apply_asserts reg asserts).1 s v <->
  exists u, (s, u) ∈ flipped (apply_asserts reg asserts).2 /\ vkey u = vkey v.
Proof.
  intros Hrun Hby Hback Hs v. unfold apply_asserts.
  destruct (circuit_apply (r_circuit reg) asserts) as [d flips] eqn:E.
  destruct (circuit_apply_spec (r_circuit reg) asserts d flips) as (_ & Hspec & _); [auto|done|].
  rewrite (node_contains_supported _ _ _ _ Hs).
  rewrite (node_contains_supported (set_circuit d reg) _ _ _ Hs). simpl. rewrite <- Hspec. split.
  - intros (f & Hf & Hid & Hv). exists (md_value f). split; [|done]. unfold flipped.
    apply list_elem_of_In, in_map_iff. eexists (s, MkFlip (md_value f) _). split; [done|].
    apply list_elem_of_In, list_elem_of_omap. exists f. split; [done|]. rewrite Hid, (Hby _ _ Hs). done.
  - intros (u & Hin & Hv). unfold flipped in Hin.
    apply list_elem_of_In, in_map_iff in Hin as ([s' fl] & [= -> <-] & Hin).
    apply list_elem_of_In, list_elem_of_omap in Hin as (f & Hf & Hx).
    apply bind_Some in Hx as (s' & Hs' & [= -> <-]). simpl in Hv. exists f. split_and!; [done| |done].
    destruct (Hback _ _ Hs') as (n' & Hn' & <-). congruence.
Qed.

(** The two contexts around step 1 differ only where a flip says so. *)
Lemma delta_nodes_agree reg ts delta lsn xid : registry_ok reg -> circuit_runs (r_circuit reg) ->
  agree_off (λ s u, (s, u) ∈ flipped (delta_nodes reg ts delta lsn xid).2)
    (reg_eval reg) (reg_eval (delta_nodes reg ts delta lsn xid).1).
Proof.
  intros Hok Hrun. destruct (delta_nodes_unfold reg ts delta lsn xid) as (reg1 & asserts & F & ->).
  assert (Hby : forall s n, r_nodes reg1 !! s = Some n -> r_node_by_id reg1 !! n_node_id n = Some s).
  { intros s n Hs. rewrite (sf_node_by_id _ _ F). pose proof (sf_nodes _ _ F s) as Hn. rewrite Hs in Hn.
    symmetry in Hn. simpl in Hn. apply fmap_Some in Hn as (n0 & Hn0 & Hc%node_core_key). injection Hc as -> _ _ _ _.
    by apply (so_by_id _ _ Hok). }
  assert (Hback : forall i s, r_node_by_id reg1 !! i = Some s -> exists n, r_nodes reg1 !! s = Some n /\ n_node_id n = i).
  { intros i s. rewrite (sf_node_by_id _ _ F). intros (n & Hs & <-)%(so_numbered _ _ Hok).
    destruct (sf_node _ _ _ _ F Hs) as (n' & ? & Hc%node_core_key). injection Hc as ? _ _ _ _. eauto. }
  assert (Hrun1 : circuit_runs (r_circuit reg1)) by (by rewrite (sf_circuit _ _ F)).
  assert (Hmain : forall s v, node_contains reg s v <> node_contains (apply_asserts reg1 asserts).1 s v ->
            exists u, (s, u) ∈ flipped (apply_asserts reg1 asserts).2 /\ vkey u = vkey v).
  { intros s v. rewrite <- (sf_contains _ _ _ _ F). destruct (r_nodes reg1 !! s) as [n|] eqn:Hs.
    - by apply apply_asserts_flips with (n := n).
    - intros Hne. exfalso. apply Hne. unfold node_contains. rewrite Hs.
      pose proof (apply_asserts_frame reg1 asserts) as [Hn _ _]. specialize (Hn s). rewrite Hs in Hn.
      by destruct (r_nodes (apply_asserts reg1 asserts).1 !! s). }
  split; [exact Hmain|]. intros s Hne. apply Hmain in Hne as (u & Hu & Hv). exists u. split; [done|].
  by apply value_is_null_vkey in Hv.
Qed.
End step1.

(* ------------------------------------------------------------------ *)
(** ** Growth of the dictionary *)

Section growth.
Context {FT : FloatText} {FE : FaultEnv} {D : Type} {MP : MembershipPipeline D}.
Implicit Types (reg : SubqueryRegistry D).

Lemma sets_ok_dict reg H d : sets_ok reg H -> dict_ok d -> dict_le (r_pk_dict reg) d ->
  sets_ok (set_pk_dict d reg) H /\ forall s pk, holds (set_pk_dict d reg) H s pk = holds reg H s pk.
Proof.
  intros Hok Hd Hle. split.
  - split; simpl; [done|apply Hok|apply Hok| |apply Hok..].
    intros i id Hi. apply (so_keys _ _ Hok) in Hi. apply dict_le_len in Hle. lia.
  - intros s pk. unfold holds. simpl. destruct (r_nodes reg !! s) as [n|]; [|done]. simpl.
    destruct (pk_get (r_pk_dict reg) pk) as [i|] eqn:E; simpl; [by rewrite (dict_le_get _ _ _ _ Hle E)|].
    destruct (pk_get d pk) as [i|] eqn:E'; simpl; [|done]. apply eq_None_not_Some. intros Hi%(so_keys _ _ Hok).
    pose proof (dict_fresh _ _ _ _ (so_dict _ _ Hok) Hd Hle E E'). lia.
Qed.

Lemma sets_ok_emit reg reg' H : emit_frame reg reg' -> dict_ok (r_pk_dict reg') -> sets_ok reg H ->
  sets_ok reg' H /\ forall s pk, holds reg' H s pk = holds reg H s pk.
Proof.
  intros [_ Hle Hr] Hd Hok. destruct (sets_ok_dict reg H (r_pk_dict reg') Hok Hd Hle) as [H1 H2].
  rewrite Hr. split; [|exact H2]. destruct H1. by split.
Qed.

Lemma feeds_ok_dict d d' feeds : feeds_ok d feeds -> dict_ok d' -> dict_le d d' ->
  feeds_ok d' feeds /\ forall f pk, fed d' feeds f pk = fed d feeds f pk.
Proof.
  intros [Hd Hk] Hd' Hle. split.
  - split; [done|]. intros f i Hi%Hk. apply dict_le_len in Hle. lia.
  - intros f pk. unfold fed. destruct (pk_get d pk) as [i|] eqn:E; [by rewrite (dict_le_get _ _ _ _ Hle E)|].
    destruct (pk_get d' pk) as [i|] eqn:E'; [|done]. apply bool_decide_eq_false. intros Hi%Hk.
    pose proof (dict_fresh _ _ _ _ Hd Hd' Hle E E'). lia.
Qed.

(** The shapes' side through step 1. *)
Lemma tail_ok_nodes reg reg' : nodes_frame reg reg' -> dict_ok (r_pk_dict reg') -> tail_ok reg ->
  tail_ok reg' /\ (forall f pk, reg_fed reg' f pk = reg_fed reg f pk) /\
  (forall path, sent_to reg' path = sent_to reg path) /\ r_shapes reg' = r_shapes reg /\
  (forall id pk, recent_of reg' id pk = recent_of reg id pk).
Proof.
  intros [_ Hle Hr] Hd [Hf Hrec]. destruct (feeds_ok_dict _ _ _ Hf Hd Hle) as [H1 H2].
  assert (Hs : r_shapes reg' = r_shapes reg) by (by rewrite Hr).
  assert (Hfs : r_feed_sets reg' = r_feed_sets reg) by (by rewrite Hr).
  split_and!; [| | |done|].
  - split; [unfold reg_feeds_ok; by rewrite Hfs|]. intros id s i. rewrite Hs. intros Hi Hx.
    specialize (Hrec _ _ _ Hi Hx). apply dict_le_len in Hle. lia.
  - intros f pk. unfold reg_fed. by rewrite Hfs.
  - intros path. unfold sent_to. by rewrite Hr.
  - intros id pk. unfold recent_of. rewrite Hs. destruct (r_shapes reg !! id) as [s|] eqn:Hi; [|done]. simpl.
    apply recent_grow; [apply Hf|done|done|]. intros i. by eapply Hrec.
Qed.

(** Step 2b touches nothing that is installed. *)
Lemma buffer_outer_frame table b reg : exists ps, buffer_outer table b reg = set_pending_shapes ps reg.
Proof. by eexists. Qed.
End growth.

(* ------------------------------------------------------------------ *)
(** ** The whole of [on_table_delta] *)

Section live.
Context {FT : FloatText} {FE : FaultEnv} {D : Type} {MP : MembershipPipeline D} {ML : MembershipLaws D}.
Implicit Types (reg : SubqueryRegistry D) (T : gmap str Row) (V : gmap str json).

(** The installed shapes, as their index has them. *)
Definition shape_reg reg : Registered :=
  (λ s, (TableRef_as_str (sh_outer_table s), sh_pred s)) <$> r_shapes reg.

(** A registry between changes. *)
Record live_ok reg : Prop := {
  lv_sets : registry_ok reg;
  lv_tail : tail_ok reg;
  lv_distinct : shapes_distinct reg;
  lv_index : shapes_indexed (r_shape_index reg) (shape_reg reg);
  lv_runs : forall d : D, circuit_runs d
}.

Lemma shape_reg_frame reg reg' : (forall id, shape_core <$> r_shapes reg' !! id = shape_core <$> r_shapes reg !! id) ->
  shape_reg reg' = shape_reg reg.
Proof.
  intros H. apply map_eq. intros id. unfold shape_reg. rewrite !lookup_fmap. specialize (H id).
  destruct (r_shapes reg' !! id) as [s'|], (r_shapes reg !! id) as [s|]; simpl in *; try done.
  apply (inj Some), shape_core_fields in H as (_ & _ & -> & _ & _ & -> & _). done.
Qed.

(** The shapes step 2 visits. *)
Definition visited (traced : bool) reg (ts : TableSchema) (delta : Delta) : list str :=
  if traced then (filter (λ e : str * SubqueryShape, sh_outer_table e.2 = ts_table ts)
                    (map_to_list (r_shapes reg))).*1
  else outer_candidates reg (ts_table ts) delta.
Definition live_groups (traced : bool) reg (ts : TableSchema) (delta : Delta) (lsn : Z) (xid : option Z)
    : list (str * list (str * (Row * bool))) :=
  map (λ id, (id, keyed_latest ts delta))
      (filter (λ id, shape_skips reg lsn xid id = false) (visited traced reg ts delta)).

Lemma visited_nodup traced reg ts delta : shapes_indexed (r_shape_index reg) (shape_reg reg) ->
  NoDup (visited traced reg ts delta).
Proof.
  intros Hix. unfold visited. destruct traced; [|by eapply shape_candidates_nodup].
  apply NoDup_fmap_fst; [|apply NoDup_filter, NoDup_map_to_list].
  intros k t1 t2 [_ H1%elem_of_map_to_list]%list_elem_of_filter [_ H2%elem_of_map_to_list]%list_elem_of_filter.
  congruence.
Qed.

(** The indexed conjunct of the shape admits the row. *)
Definition admissible (pred : CompiledPredicate) (row : Row) : Prop :=
  match access_leaf pred with Some l => leaf_admits l row | None => True end.

Lemma matches_admissible pred row ev : matches_ctx pred row ev = true -> admissible pred row.
Proof. unfold admissible. destruct (access_leaf pred) as [l|] eqn:E; [|done]. by apply access_leaf_admits. Qed.

(** A shape of the table that is not visited has no image of the change it admits. *)
Lemma not_visited traced reg ts delta id s row w : shapes_indexed (r_shape_index reg) (shape_reg reg) ->
  r_shapes reg !! id = Some s -> sh_outer_table s = ts_table ts ->
  id ∉ visited traced reg ts delta -> (row, w) ∈ delta -> ~ admissible (sh_pred s) row.
Proof.
  intros Hix Hs Ht Hn Hin Ha. apply Hn. unfold visited. destruct traced.
  - apply list_elem_of_fmap. exists (id, s). split; [done|].
    by apply list_elem_of_filter; split; [|apply elem_of_map_to_list].
  - apply (shape_candidates_ok _ _ _ _ _ Hix). exists (sh_pred s). split.
    + unfold shape_reg. by rewrite lookup_fmap, Hs, <- Ht.
    + unfold admissible in Ha. destruct (access_leaf (sh_pred s)); [|done]. eauto.
Qed.

Lemma delta_shapes_groups traced reg ts delta lsn xid txid :
  delta_shapes traced reg ts delta lsn xid txid =
  emit_for_shapes reg ts (map (λ g, (g.1, g.2.*2)) (live_groups traced reg ts delta lsn xid)) txid (SrcLive lsn xid).
Proof. unfold delta_shapes, live_groups. rewrite map_map. done. Qed.

Lemma live_groups_lookup traced reg ts delta lsn xid id :
  (list_to_map (live_groups traced reg ts delta lsn xid) : gmap str (list (str * (Row * bool)))) !! id =
  if bool_decide (id ∈ visited traced reg ts delta) && negb (shape_skips reg lsn xid id)
  then Some (keyed_latest ts delta) else None.
Proof.
  unfold live_groups. induction (visited traced reg ts delta) as [|x l IH].
  { simpl. by rewrite lookup_empty. }
  rewrite filter_cons. destruct (shape_skips reg lsn xid x) eqn:Ex.
  - rewrite decide_False, IH by done. destruct (decide (id = x)) as [->|Hne].
    + by rewrite Ex, !andb_false_r.
    + by rewrite (bool_decide_ext (id ∈ x :: l) (id ∈ l)) by set_solver.
  - rewrite decide_True by done. csimpl. destruct (decide (x = id)) as [->|Hne].
    + rewrite lookup_insert_eq, Ex, bool_decide_eq_true_2; [done|by left].
    + rewrite lookup_insert_ne, IH by done. by rewrite (bool_decide_ext (id ∈ x :: l) (id ∈ l)) by set_solver.
Qed.

(** Step by step: the nodes, then the shapes, then the buffers of the shapes being created. *)
Lemma on_table_delta_steps traced reg ts delta lsn xid txid reg' flips :
  on_table_delta traced reg ts delta lsn xid txid = Ok (reg', flips) ->
  let reg1 := (delta_nodes reg ts delta lsn xid).1 in
  let reg2 := (emit_for_shapes reg1 ts (map (λ g, (g.1, g.2.*2)) (live_groups traced reg1 ts delta lsn xid))
                 txid (SrcLive lsn xid)).1 in
  flips = (delta_nodes reg ts delta lsn xid).2 /\
  reg' = buffer_outer (ts_table ts) (MkBuffered lsn xid delta) reg2.
Proof.
  unfold on_table_delta. rewrite <- delta_shapes_groups. destruct (delta_nodes reg ts delta lsn xid) as [reg1 fl].
  simpl. destruct (delta_shapes traced reg1 ts delta lsn xid txid) as [reg2 ?].
  intros [= <- <-]. done.
Qed.

(** What every proof about a change starts from. *)
Lemma on_table_delta_ok traced reg ts delta lsn xid txid reg' flips T T' :
  live_ok reg -> table_ok ts T -> delta_of ts T delta T' ->
  on_table_delta traced reg ts delta lsn xid txid = Ok (reg', flips) -> dict_small reg' ->
  let reg1 := (delta_nodes reg ts delta lsn xid).1 in
  let gs := live_groups traced reg1 ts delta lsn xid in
  let reg2 := (emit_for_shapes reg1 ts (map (λ g, (g.1, g.2.*2)) gs) txid (SrcLive lsn xid)).1 in
  reg' = buffer_outer (ts_table ts) (MkBuffered lsn xid delta) reg2 /\
  flips = (delta_nodes reg ts delta lsn xid).2 /\
  dict_small reg1 /\ registry_ok reg1 /\ tail_ok reg1 /\ shapes_distinct reg1 /\
  r_shapes reg1 = r_shapes reg /\ r_shape_index reg1 = r_shape_index reg /\
  (forall f pk, reg_fed reg1 f pk = reg_fed reg f pk) /\
  (forall path, sent_to reg1 path = sent_to reg path) /\
  (forall id pk, recent_of reg1 id pk = recent_of reg id pk) /\
  emit_frame reg1 reg2 /\ tail_ok reg2 /\
  Forall (λ g : str * list (str * (Row * bool)), keyed ts g.2) gs /\ NoDup gs.*1.
Proof.
  intros [Hsets Htail Hdist Hix Hruns] HT Hd Hrun Hsm reg1 gs reg2.
  destruct (on_table_delta_steps _ _ _ _ _ _ _ _ _ Hrun) as [-> ->]. fold reg1 gs reg2 in Hsm |- *.
  pose proof (delta_nodes_frame reg ts delta lsn xid) as F1. fold reg1 in F1.
  assert (Hk : Forall (λ g : str * list (str * (Row * bool)), keyed ts g.2) gs).
  { apply Forall_forall. intros [id l] (id' & [= <- <-] & _)%list_elem_of_In%in_map_iff.
    by eapply keyed_latest_ok. }
  assert (Hsh : r_shapes reg1 = r_shapes reg) by (by rewrite (nf_rest _ _ F1)).
  assert (Hsi : r_shape_index reg1 = r_shape_index reg) by (by rewrite (nf_rest _ _ F1)).
  assert (Hnd : NoDup gs.*1).
  { unfold gs, live_groups. rewrite <- list_fmap_compose. unfold compose. simpl. rewrite list_fmap_id.
    apply NoDup_filter. apply visited_nodup.
    rewrite Hsi. unfold shape_reg. by rewrite Hsh. }
  assert (Hle2 : emit_frame reg1 reg2) by apply emit_for_shapes_frame.
  assert (Hsm1 : dict_small reg1).
  { pose proof (dict_le_len _ _ (ef_dict _ _ Hle2)). unfold dict_small in *. simpl in Hsm. lia. }
  destruct (delta_nodes_sets reg ts delta lsn xid Hsets (Hruns _) Hsm1) as [Hok1 _].
  destruct (tail_ok_nodes reg reg1 F1 (so_dict _ _ Hok1) Htail) as (Ht1 & Hf1 & Hp1 & _ & Hr1).
  assert (Hd1 : shapes_distinct reg1) by (destruct Hdist; split; by rewrite Hsh).
  destruct (emit_live_spec ts (SrcLive lsn xid) (lsn, xid) txid gs reg1 eq_refl Ht1 Hd1 Hk Hnd) as [_ He].
  destruct (He Hsm) as [Ht2 _]. by split_and!.
Qed.

Lemma live_ok_emit reg reg' : emit_frame reg reg' -> tail_ok reg' -> live_ok reg -> live_ok reg'.
Proof.
  intros F Ht [Hs _ Hd Hix Hr].
  destruct (sets_ok_emit _ _ _ F (fo_dict _ _ (tk_feeds _ Ht)) Hs) as [Hok _]. split.
  - unfold registry_ok. assert (Hc : r_circuit reg' = r_circuit reg) by (by rewrite (ef_rest _ _ F)). by rewrite Hc.
  - done.
  - by eapply shapes_distinct_frame.
  - rewrite (shape_reg_frame _ _ (ef_shapes _ _ F)).
    assert (Hi : r_shape_index reg' = r_shape_index reg) by (by rewrite (ef_rest _ _ F)). by rewrite Hi.
  - done.
Qed.

Lemma change_live traced reg ts delta lsn xid txid reg' flips T T' :
  live_ok reg -> table_ok ts T -> delta_of ts T delta T' ->
  on_table_delta traced reg ts delta lsn xid txid = Ok (reg', flips) -> dict_small reg' -> live_ok reg'.
Proof.
  intros Hlive HT Hd Hrun Hsm.
  destruct (on_table_delta_ok _ _ _ _ _ _ _ _ _ _ _ Hlive HT Hd Hrun Hsm)
    as (-> & _ & Hsm1 & Hok1 & Ht1 & Hd1 & Hsh & Hsi & _ & _ & _ & F2 & Ht2 & _ & _).
  set (reg2 := (emit_for_shapes _ _ _ _ _).1) in *.
  assert (Hlive1 : live_ok (delta_nodes reg ts delta lsn xid).1).
  { split; [done..| |apply (lv_runs _ Hlive)]. rewrite Hsi. unfold shape_reg. rewrite Hsh. apply (lv_index _ Hlive). }
  destruct (live_ok_emit _ _ F2 Ht2 Hlive1) as [Hs2 Ht Hd2 Hi2 Hr2].
  split; [destruct Hs2; by split|destruct Ht; by split|destruct Hd2; by split|done|done].
Qed.

(** a table change keeps the registry in order: dictionary, node numbers, templates, holder
    indexes, feeds, recencies and the shape index all agree with the membership circuit and with
    each other after it, as before. *)
Theorem table_change_keeps_registry traced reg ts delta lsn xid txid reg' flips T T' :
  live_ok reg -> table_ok ts T -> delta_of ts T delta T' ->
  on_table_delta traced reg ts delta lsn xid txid = Ok (reg', flips) -> dict_small reg' -> live_ok reg'.
Proof. apply change_live. Qed.

(** ** The nodes *)

(** The template of a node stands for its predicate. *)
Definition template_stands reg (n : SubqueryNode) : Prop :=
  exists t, r_templates reg !! n_template_key n = Some t /\ forall row ev,
    matches_ctx (n_pred n) row ev =
    matches_ctx (tg_residual t) row ev && bool_decide (rkey (template_params t row) = n_bind n).

(** What the rows of a table contribute, by key. *)
Definition contributions (n : SubqueryNode) (ev : SubqueryEval) (T : gmap str Row) (pk : str) : option Value :=
  r ← T !! pk; vkey <$> contribution (n_pred n) (n_proj_col n) r ev.

(** the set of a live node follows its table: if it holds what the rows of the table contribute
    in the present context, then after a change of the table it holds, in that same context, what
    the rows of the changed table contribute.  A node that is being seeded, or whose seed has seen
    the commit, is left as it is. *)
Theorem node_set_follows traced reg ts delta lsn xid txid reg' flips T T' sig n :
  live_ok reg -> table_ok ts T -> delta_of ts T delta T' ->
  r_nodes reg !! sig = Some n -> n_inner_table n = ts_table ts -> template_stands reg n ->
  on_table_delta traced reg ts delta lsn xid txid = Ok (reg', flips) -> dict_small reg' ->
  (forall pk, node_holds reg sig pk = contributions n (reg_eval reg) T pk) ->
  forall pk, node_holds reg' sig pk =
    contributions n (reg_eval reg) (if node_applies reg lsn xid sig then T' else T) pk.
Proof.
  intros Hlive HT Hd Hn Hti (t & Ht & Hstands) Hrun Hsm Hbefore pk.
  destruct (on_table_delta_ok _ _ _ _ _ _ _ _ _ _ _ Hlive HT Hd Hrun Hsm)
    as (-> & _ & Hsm1 & Hok1 & Ht1 & _ & _ & _ & _ & _ & _ & F2 & Ht2 & _ & _).
  set (reg2 := (emit_for_shapes _ _ _ _ _).1) in *.
  destruct (sets_ok_emit _ _ _ F2 (fo_dict _ _ (tk_feeds _ Ht2)) Hok1) as [_ Hh2].
  assert (Hc : r_circuit reg2 = r_circuit (delta_nodes reg ts delta lsn xid).1) by (by rewrite (ef_rest _ _ F2)).
  transitivity (node_holds (delta_nodes reg ts delta lsn xid).1 sig pk).
  { unfold node_holds at 1. simpl. rewrite Hc. apply Hh2. }
  destruct (delta_nodes_sets reg ts delta lsn xid (lv_sets _ Hlive) (lv_runs _ Hlive _) Hsm1) as [_ Hstep].
  rewrite (Hstep sig n pk Hn), bool_decide_eq_true_2 by done. simpl.
  destruct (node_applies reg lsn xid sig); [|apply Hbefore].
  destruct (latest_rows_delta ts T delta T' HT Hd) as (Hlatest & _). specialize (Hlatest pk).
  unfold after_change. rewrite Hn. unfold contributions.
  destruct (latest_rows ts delta !! pk) as [[row [|]]|].
  - rewrite Hlatest. simpl. unfold node_match, contribution. rewrite Ht, Hstands.
    by destruct (_ && _).
  - destruct Hlatest as [-> _]. done.
  - rewrite Hlatest. apply Hbefore.
Qed.

(** ** The shapes *)

(** What a subscriber has is what the feed records, and every row delivered is one of the table's
    that the indexed conjunct admits. *)
Record delivered reg (s : SubqueryShape) T V : Prop := {
  dl_feed : forall pk, is_Some (V !! pk) <-> reg_fed reg (sh_feed_id s) pk = true;
  dl_rows : forall pk, is_Some (V !! pk) -> exists r, T !! pk = Some r /\ admissible (sh_pred s) r
}.

(** What a subscriber should have for a key. *)
Definition shown (ts : TableSchema) (s : SubqueryShape) (ev : SubqueryEval) T (pk : str) : option json :=
  r ← T !! pk; if matches_ctx (sh_pred s) r ev then Some (row_to_json_cols ts r (sh_out_cols s)) else None.

(** A flip reaches the row of a key along one of the shape's leaves. *)
Definition reached (s : SubqueryShape) (flips : list (SubquerySig * Flip)) T (pk : str) : Prop :=
  exists r l u, T !! pk = Some r /\ l ∈ collect_in_leaves (sh_pred s) /\
    (il_sig l, u) ∈ flipped flips /\ leaf_reaches r (il_sig l) u l = true.

(** What step 2 puts on the stream of a shape of the table, whether it visits the shape or not. *)
Lemma shapes_step traced reg ts delta lsn xid txid T T' V id s :
  drop_deletes = false -> tail_ok reg -> shapes_distinct reg ->
  shapes_indexed (r_shape_index reg) (shape_reg reg) -> table_ok ts T -> delta_of ts T delta T' ->
  r_shapes reg !! id = Some s -> sh_outer_table s = ts_table ts -> should_skip (sh_gate s) lsn xid = false ->
  delivered reg s T V ->
  let gs := live_groups traced reg ts delta lsn xid in
  let reg' := (emit_for_shapes reg ts (map (λ g, (g.1, g.2.*2)) gs) txid (SrcLive lsn xid)).1 in
  NoDup gs.*1 -> dict_small reg' ->
  exists envs, sent_to reg' (sh_stream_path s) = sent_to reg (sh_stream_path s) ++ envs /\
    forall pk, reg_fed reg' (sh_feed_id s) pk = bool_decide (is_Some (materialize V envs !! pk)) /\
      materialize V envs !! pk =
        match latest_rows ts delta !! pk with
        | Some _ => shown ts s (reg_eval reg) T' pk
        | None => V !! pk
        end.
Proof.
  intros Hdd Ht Hdist Hix HT Hd Hs Htab Hskip [Hfeed Hrows] gs reg' Hnd Hsm.
  destruct (latest_rows_delta ts T delta T' HT Hd) as (Hlatest & _ & Himg).
  destruct (keyed_latest_ok ts T delta T' HT Hd) as (Hkl & _ & Hlookup).
  assert (Hk : Forall (λ g : str * list (str * (Row * bool)), keyed ts g.2) gs).
  { apply Forall_forall. intros [i l] (id' & [= <- <-] & _)%list_elem_of_In%in_map_iff. exact Hkl. }
  destruct (emit_live_spec ts (SrcLive lsn xid) (lsn, xid) txid gs reg eq_refl Ht Hdist Hk Hnd) as [_ He].
  destruct (He Hsm) as [_ Hgroup]. specialize (Hgroup id s Hs). clear He.
  unfold gs in Hgroup. rewrite live_groups_lookup in Hgroup.
  assert (Hnskip : shape_skips reg lsn xid id = false) by (unfold shape_skips; by rewrite Hs).
  rewrite Hnskip, andb_true_r in Hgroup. fold gs in Hgroup. fold reg' in Hgroup.
  destruct (decide (id ∈ visited traced reg ts delta)) as [Hv|Hnv].
  - rewrite bool_decide_eq_true_2 in Hgroup by done. destruct Hgroup as (Hsent & Hfd & _).
    eexists. split; [exact Hsent|]. intros pk.
    assert (HV := shape_envs_view ts (sh_pred s) (reg_eval reg) (sh_out_cols s) txid (reg_fed reg (sh_feed_id s))
              (keyed_latest ts delta) V pk Hdd Hkl Hfeed).
    rewrite Hlookup in HV. rewrite Hfd. unfold group_fed. rewrite decide_True, Hlookup by done.
    rewrite HV. unfold shown, verdict. specialize (Hlatest pk).
    destruct (latest_rows ts delta !! pk) as [[r [|]]|]; simpl.
    + rewrite Hlatest. simpl. by destruct (matches_ctx (sh_pred s) r (reg_eval reg)).
    + destruct Hlatest as [-> _]. done.
    + split; [|done]. apply eq_true_iff_eq. by rewrite bool_decide_eq_true, Hfeed.
  - rewrite bool_decide_eq_false_2 in Hgroup by done. destruct Hgroup as (Hsent & Hfd & _).
    exists []. split; [by rewrite app_nil_r|]. intros pk. simpl. rewrite Hfd. split.
    { apply eq_true_iff_eq. by rewrite bool_decide_eq_true, Hfeed. }
    destruct (latest_rows ts delta !! pk) as [[r b]|] eqn:El; [|done].
    destruct (Himg pk r b El) as [Hnew Hold]. specialize (Hlatest pk). rewrite El in Hlatest.
    transitivity (None : option json).
    + apply eq_None_not_Some. intros (r0 & Hr0 & Ha)%Hrows.
      by eapply (not_visited traced reg ts delta id s r0 (-1) Hix Hs Htab Hnv); [apply Hold|].
    + symmetry. unfold shown. destruct b; [|by destruct Hlatest as [-> _]]. rewrite Hlatest. simpl.
      destruct (matches_ctx (sh_pred s) r (reg_eval reg)) eqn:Em; [|done]. exfalso.
      eapply (not_visited traced reg ts delta id s r 1 Hix Hs Htab Hnv); [by apply Hnew|by eapply matches_admissible].
Qed.

(** C18: a change of a shape's own table, in any state of the inner sets: whatever the index lets
    [on_table_delta] skip, every touched key is afterwards exactly what the predicate says of the
    table's row in the present inner sets, no other key has moved, and subscriber, feed and table
    agree as before.  A key that was right stays right, unless one of the flips returned reaches its
    row along one of the shape's leaves. *)
Theorem live_change_exact traced reg ts delta lsn xid txid reg' flips T T' V id s :
  drop_deletes = false ->
  live_ok reg -> table_ok ts T -> delta_of ts T delta T' ->
  r_shapes reg !! id = Some s -> sh_outer_table s = ts_table ts -> should_skip (sh_gate s) lsn xid = false ->
  delivered reg s T V ->
  on_table_delta traced reg ts delta lsn xid txid = Ok (reg', flips) -> dict_small reg' ->
  exists s' envs, r_shapes reg' !! id = Some s' /\ shape_core s' = shape_core s /\
    sent_to reg' (sh_stream_path s) = sent_to reg (sh_stream_path s) ++ envs /\
    delivered reg' s' T' (materialize V envs) /\
    forall pk,
      materialize V envs !! pk =
        match latest_rows ts delta !! pk with
        | Some _ => shown ts s (reg_eval reg') T' pk
        | None => V !! pk
        end /\
      (V !! pk = shown ts s (reg_eval reg) T pk ->
       materialize V envs !! pk = shown ts s (reg_eval reg') T' pk \/ reached s flips T' pk).
Proof.
  intros Hdd Hlive HT Hd Hs Htab Hskip [Hfeed Hrows] Hrun Hsm.
  destruct (on_table_delta_ok _ _ _ _ _ _ _ _ _ _ _ Hlive HT Hd Hrun Hsm)
    as (-> & Hflips & Hsm1 & Hok1 & Ht1 & Hd1 & Hsh & Hsi & Hfed1 & Hsent1 & _ & F2 & Ht2 & _ & Hnd).
  pose proof (delta_nodes_agree reg ts delta lsn xid (lv_sets _ Hlive) (lv_runs _ Hlive _)) as Hag.
  rewrite <- Hflips in Hag. set (reg1 := (delta_nodes reg ts delta lsn xid).1) in *.
  set (gs := live_groups traced reg1 ts delta lsn xid) in *.
  assert (Hs1 : r_shapes reg1 !! id = Some s) by (by rewrite Hsh).
  assert (Hix1 : shapes_indexed (r_shape_index reg1) (shape_reg reg1)).
  { rewrite Hsi. unfold shape_reg. rewrite Hsh. apply (lv_index _ Hlive). }
  assert (Hdel : delivered reg1 s T V) by (split; [intros pk; by rewrite Hfed1|done]).
  destruct (shapes_step traced reg1 ts delta lsn xid txid T T' V id s Hdd Ht1 Hd1 Hix1 HT Hd Hs1 Htab Hskip Hdel Hnd Hsm)
    as (envs & Hsent & HV). fold gs in Hsent, HV.
  set (reg2 := (emit_for_shapes reg1 ts _ txid _).1) in *.
  destruct (ef_shape _ _ _ _ F2 Hs1) as (s' & Hs' & Hcore).
  destruct (shape_core_fields _ _ Hcore) as (Hf' & _ & Hp' & _).
  destruct (latest_rows_delta ts T delta T' HT Hd) as (Hlatest & _ & _).
  assert (Hev : reg_eval (buffer_outer (ts_table ts) (MkBuffered lsn xid delta) reg2) = reg_eval reg1)
    by exact (ef_eval _ _ F2).
  rewrite Hev. exists s', envs. split_and!; [done|done|by rewrite <- Hsent1| |].
  - split.
    + intros pk. rewrite Hf'. destruct (HV pk) as [Hb _]. transitivity (reg_fed reg2 (sh_feed_id s) pk = true); [|done].
      by rewrite Hb, bool_decide_eq_true.
    + intros pk. destruct (HV pk) as [_ ->]. specialize (Hlatest pk). rewrite Hp'.
      destruct (latest_rows ts delta !! pk) as [[r b]|].
      * intros [j Hj]. unfold shown in Hj. apply bind_Some in Hj as (r' & Hr' & Hj). exists r'. split; [done|].
        destruct (matches_ctx _ _ _) eqn:Em; [|done]. by eapply matches_admissible.
      * intros Hi. rewrite Hlatest. by apply Hrows.
  - intros pk. destruct (HV pk) as [_ HVpk]. split; [done|]. intros Hright. rewrite HVpk.
    specialize (Hlatest pk). destruct (latest_rows ts delta !! pk) as [[r b]|]; [by left|].
    unfold shown in *. rewrite Hright, Hlatest. destruct (T !! pk) as [r|] eqn:Er; simpl; [|by left].
    destruct (decide (matches_ctx (sh_pred s) r (reg_eval reg) = matches_ctx (sh_pred s) r (reg_eval reg1)))
      as [->|Hne]; [by left|right].
    destruct (flips_reach (flipped flips) _ _ r (sh_pred s) Hag Hne) as (l & u & Hl & Hu & Hr).
    exists r, l, u. by rewrite Hlatest.
Qed.

(** the flips a change returns are enough: whatever predicate a dependent has, over whatever
    row, if the change of the inner sets changes whether the row matches, then one of the flips
    reaches the row along one of the predicate's leaves; a null reaches it only along a leaf that is
    sensitive to nulls. *)
Theorem flips_cover traced reg ts delta lsn xid txid reg' flips T T' pred row :
  live_ok reg -> table_ok ts T -> delta_of ts T delta T' ->
  on_table_delta traced reg ts delta lsn xid txid = Ok (reg', flips) -> dict_small reg' ->
  matches_ctx pred row (reg_eval reg) <> matches_ctx pred row (reg_eval reg') ->
  exists l u, l ∈ collect_in_leaves pred /\ (il_sig l, u) ∈ flipped flips /\
    if value_is_null u then il_null_sensitive l = true else value_eqb (cell row (il_col l)) u = true.
Proof.
  intros Hlive HT Hd Hrun Hsm Hne.
  destruct (on_table_delta_ok _ _ _ _ _ _ _ _ _ _ _ Hlive HT Hd Hrun Hsm)
    as (-> & Hflips & _ & _ & _ & _ & _ & _ & _ & _ & _ & F2 & _).
  pose proof (delta_nodes_agree reg ts delta lsn xid (lv_sets _ Hlive) (lv_runs _ Hlive _)) as Hag.
  rewrite <- Hflips in Hag.
  destruct (flips_reach (flipped flips) _ _ row pred Hag) as (l & u & Hl & Hu & Hr).
  { intros He. apply Hne. rewrite He. by rewrite <- (ef_eval _ _ F2). }
  exists l, u. split_and!; [done..|]. apply andb_true_iff in Hr as [_ Hr]. by destruct (value_is_null u).
Qed.
End live.
