(* ===== verification/SubqFence.v ===== *)
(** * Query-backs and recency

    A query-back reads Postgres with the registry lock released and evaluates what it read later.
    While one is in flight every live decision leaves its commit stamp on the shape; the query-back
    drops the rows whose stamp its snapshot could not see.  Here: what a query-back's evaluation
    does key by key, and that over any run of table changes it never overrides a decision it could
    not have seen. *)

From S2P Require Import Prelude BTree Value TableRef Schema Predicate PredicateFacts Gate Output.
From S2P Require Import Executors Refine Sequencer PkDict SubqIndex SubqCircuit Subquery SubqueryFacts SubqEmit.
From S2P Require Import SubqLive.
From stdpp Require Import base option numbers strings gmap fin_maps sorting list.
#[local] Open Scope Z_scope.

Section fence.
Context {FT : FloatText} {FE : FaultEnv} {D : Type} {MP : MembershipPipeline D} {ML : MembershipLaws D}.
Implicit Types (reg : SubqueryRegistry D) (T : gmap str Row) (V : gmap str json).

(** The rows of a read, by key, as candidates. *)
Definition read_candidates (rows : gmap str Row) : list (str * (Row * bool)) :=
  map (λ kr : str * Row, (kr.1, (kr.2, true))) (map_to_list rows).

Lemma read_candidates_ok ts rows : table_ok ts rows -> keyed ts (read_candidates rows) /\
  (read_candidates rows).*2 = map (λ r, (r, true)) (map_to_list rows).*2 /\
  forall k, (list_to_map (read_candidates rows) : gmap str (Row * bool)) !! k = (λ r, (r, true)) <$> rows !! k.
Proof.
  intros Hok. unfold read_candidates. split_and!.
  - split.
    + rewrite <- list_fmap_compose. rewrite (list_fmap_ext _ fst) by done. apply NoDup_fst_map_to_list.
    + apply Forall_forall. intros [k c] ([k' r] & [= <- <-] & Hin)%list_elem_of_In%in_map_iff.
      apply Hok. by apply elem_of_map_to_list, list_elem_of_In.
  - rewrite map_map. rewrite <- list_fmap_compose. done.
  - intros k. rewrite <- lookup_fmap. f_equal. rewrite <- (list_to_map_to_list ((λ r, (r, true)) <$> rows)).
    f_equal. rewrite map_to_list_fmap. done.
Qed.

(** A read in any order. *)
Lemma candidates_of ts R rows : table_ok ts R -> rows ≡ₚ (map_to_list R).*2 -> exists l, keyed ts l /\
  l.*2 = map (λ r, (r, true)) rows /\
  forall k, (list_to_map l : gmap str (Row * bool)) !! k = (λ r, (r, true)) <$> R !! k.
Proof.
  intros (Hk & Hr & Hl)%read_candidates_ok Hp.
  assert (Hm : map (λ r, (r, true)) rows ≡ₚ map snd (read_candidates R)).
  { change (map snd ?l) with (l.*2). by rewrite Hp, Hr. }
  apply Permutation_map_inv in Hm as (l & He & Hpl).
  exists l. split_and!; [|by rewrite He|].
  - split; [rewrite <- Hpl; apply Hk|]. rewrite <- Hpl. apply Hk.
  - intros k. rewrite <- Hl. symmetry. f_equal. apply list_to_map_proper; [apply Hk|done].
Qed.

(** A live decision on the key that the snapshot of the read could not see. *)
Definition undercut reg (id : str) (gate : SnapshotGate) (pk : str) : bool :=
  match recent_of reg id pk with Some (lsn, xid) => negb (should_skip gate lsn xid) | None => false end.

Lemma stale_undercut ts reg id s gate row k : r_shapes reg !! id = Some s -> key_string ts row = Ok k ->
  stale_candidate ts (r_pk_dict reg) (sh_recent s) gate row = undercut reg id gate k.
Proof. intros Hs Hk. unfold stale_candidate, undercut, recent_of. by rewrite Hk, Hs. Qed.

Lemma filter_keyed_lookup {A : Type} (f : str * A -> bool) (l : list (str * A)) k : NoDup l.*1 ->
  (list_to_map (filter (λ kc, f kc = true) l) : gmap str A) !! k =
  (c ← (list_to_map l : gmap str A) !! k; if f (k, c) then Some c else None).
Proof.
  induction l as [|[k' c] l IH]; intros Hnd; csimpl; [by rewrite lookup_empty|].
  csimpl in Hnd. apply NoDup_cons in Hnd as [Hk Hnd]. rewrite filter_bool_cons.
  assert (Hn : (list_to_map l : gmap str A) !! k' = None) by (by apply not_elem_of_list_to_map_1).
  destruct (decide (k' = k)) as [<-|Hne].
  - rewrite lookup_insert_eq. simpl. destruct (f (k', c)); simpl; [by rewrite lookup_insert_eq|].
    by rewrite IH, Hn.
  - rewrite lookup_insert_ne by done. destruct (f (k', c)); simpl; [rewrite lookup_insert_ne by done|]; by apply IH.
Qed.

(** The evaluation of what a query-back read: a row that a live decision undercuts is left alone, any
    other is decided absolutely, and nothing else moves. *)
Lemma queryback_step reg ts gate txid rows read V id s :
  drop_deletes = false -> tail_ok reg -> shapes_distinct reg -> r_shapes reg !! id = Some s ->
  table_ok ts rows -> read ≡ₚ (map_to_list rows).*2 -> (forall pk, is_Some (V !! pk) <-> reg_fed reg (sh_feed_id s) pk = true) ->
  let reg' := (emit_for_shapes reg ts [(id, map (λ r, (r, true)) read)] txid (SrcQueryBack gate)).1 in
  dict_small reg' ->
  exists envs, sent_to reg' (sh_stream_path s) = sent_to reg (sh_stream_path s) ++ envs /\
    forall pk, reg_fed reg' (sh_feed_id s) pk = bool_decide (is_Some (materialize V envs !! pk)) /\
      materialize V envs !! pk =
        match rows !! pk with
        | Some r => if undercut reg id gate pk then V !! pk else shown ts s (reg_eval reg) rows pk
        | None => V !! pk
        end.
Proof.
  intros Hdd Ht Hdist Hs Hrows Hread HV reg' Hsm. destruct (candidates_of ts rows read Hrows Hread) as (l & Hk & Hr & Hl).
  unfold reg' in *. clear reg'. rewrite <- Hr in *.
  destruct (emit_one_spec ts (SrcQueryBack gate) txid reg id s _ Ht Hdist Hk Hs) as [_ He].
  destruct (He Hsm) as (_ & Hsent & Hfed & _). clear He. set (reg' := (emit_for_shapes _ _ _ _ _).1) in *.
  destruct (current_keyed_ok ts reg s (SrcQueryBack gate) _ Hk) as [Hcur _].
  specialize (Hsent id s Hs). rewrite decide_True in Hsent by done. eexists. split; [exact Hsent|]. intros pk.
  pose proof (shape_envs_view ts (sh_pred s) (reg_eval reg) (sh_out_cols s) txid (reg_fed reg (sh_feed_id s))
                _ V pk Hdd Hcur HV) as Hview.
  rewrite Hfed. unfold group_fed. rewrite decide_True by done.
  assert (Hc : (list_to_map (current_keyed ts reg s (SrcQueryBack gate) l) : gmap str (Row * bool)) !! pk =
               (r ← rows !! pk; if undercut reg id gate pk then None else Some (r, true))).
  { simpl. rewrite (filter_keyed_lookup (λ kc : str * (Row * bool),
      negb (stale_candidate ts (r_pk_dict reg) (sh_recent s) gate kc.2.1))) by apply Hk.
    rewrite Hl. destruct (rows !! pk) as [r|] eqn:Er; [|done]. simpl.
    rewrite (stale_undercut ts reg id s gate r pk Hs) by (by apply Hrows). by destruct (undercut reg id gate pk). }
  rewrite Hc in *. rewrite Hview. unfold shown, verdict.
  assert (Hkeep : reg_fed reg (sh_feed_id s) pk = bool_decide (is_Some (V !! pk)))
    by (apply eq_true_iff_eq; by rewrite bool_decide_eq_true, HV).
  destruct (rows !! pk) as [r|]; simpl; [|done].
  destruct (undercut reg id gate pk); simpl; [done|]. by destruct (matches_ctx (sh_pred s) r (reg_eval reg)).
Qed.

(* ------------------------------------------------------------------ *)
(** ** What can happen while the lock is released *)

Record TChange := MkTChange {
  tc_ts : TableSchema; tc_delta : Delta; tc_lsn : Z; tc_xid : option Z; tc_txid : option str
}.

Inductive FenceEvent :=
  | EvChange (c : TChange)
  | EvBegin (id : str) | EvEnd (id : str)
  | EvBeginNode (sig : SubquerySig) | EvEndNode (sig : SubquerySig)
  | EvQueryBack (id : str) (ts : TableSchema) (rows : gmap str Row) (gate : SnapshotGate)
      (txid : option str).

(** The rows of the tables, as the change stream has them. *)
Abbreviation World := (gmap TableRef (gmap str Row)).
Definition rows_of (W : World) (t : TableRef) : gmap str Row := default ∅ (W !! t).

(** One operation under the lock.  The query-back of [id] that is under way is not the one an
    [EvEnd] ends. *)
Inductive fence_step (id : str) : SubqueryRegistry D * World -> FenceEvent -> SubqueryRegistry D * World -> Prop :=
  | fs_change traced reg W c reg' flips T' :
      table_ok (tc_ts c) (rows_of W (ts_table (tc_ts c))) ->
      delta_of (tc_ts c) (rows_of W (ts_table (tc_ts c))) (tc_delta c) T' ->
      on_table_delta traced reg (tc_ts c) (tc_delta c) (tc_lsn c) (tc_xid c) (tc_txid c) = Ok (reg', flips) ->
      dict_small reg' ->
      fence_step id (reg, W) (EvChange c) (reg', <[ts_table (tc_ts c) := T']> W)
  | fs_begin reg W id' : fence_step id (reg, W) (EvBegin id') (begin_queryback id' reg, W)
  | fs_end reg W id' :
      (id' = id -> exists s, r_shapes reg !! id = Some s /\ 1 < sh_inflight s) ->
      fence_step id (reg, W) (EvEnd id') (end_queryback id' reg, W)
  | fs_begin_node reg W sig : fence_step id (reg, W) (EvBeginNode sig) (begin_node_queryback sig reg, W)
  | fs_end_node reg W sig : fence_step id (reg, W) (EvEndNode sig) (end_node_queryback sig reg, W)
  | fs_queryback reg W id' ts rows gate txid :
      table_ok ts rows ->
      let reg' := (emit_for_shapes reg ts [(id', map (λ r, (r, true)) (map_to_list rows).*2)] txid
                     (SrcQueryBack gate)).1 in
      dict_small reg' ->
      fence_step id (reg, W) (EvQueryBack id' ts rows gate txid) (reg', W).

Inductive fence_run (id : str) : SubqueryRegistry D * World -> list FenceEvent -> SubqueryRegistry D * World -> Prop :=
  | fr_nil st : fence_run id st [] st
  | fr_cons st e st1 es st2 : fence_step id st e st1 -> fence_run id st1 es st2 ->
      fence_run id st (e :: es) st2.

(** The keys an event's change touches. *)
Definition touches_key (e : FenceEvent) (pk : str) : Prop :=
  match e with EvChange c => is_Some (latest_rows (tc_ts c) (tc_delta c) !! pk) | _ => False end.
(** A change a snapshot does not contain. *)
Definition unseen (gate : SnapshotGate) (e : FenceEvent) : Prop :=
  match e with EvChange c => should_skip gate (tc_lsn c) (tc_xid c) = false | _ => True end.

(* ------------------------------------------------------------------ *)
(** ** The registry through an event *)

(** A shape less everything that varies between a [begin] and its [end]. *)
Definition shape_fixed (s : SubqueryShape) : SubqueryShape :=
  shape_with_recent ∅ 0 (shape_with_emitted 0 s).

Lemma shape_fixed_core s s' : shape_core s' = shape_core s -> shape_fixed s' = shape_fixed s.
Proof. intros Hc. exact (f_equal (shape_with_recent ∅ 0) Hc). Qed.
Lemma shape_fixed_fields s s' : shape_fixed s' = shape_fixed s ->
  sh_feed_id s' = sh_feed_id s /\ sh_stream_path s' = sh_stream_path s /\ sh_pred s' = sh_pred s /\
  sh_out_cols s' = sh_out_cols s /\ sh_gate s' = sh_gate s /\ sh_outer_table s' = sh_outer_table s.
Proof.
  intros H. split_and!;
    [exact (f_equal sh_feed_id H)|exact (f_equal sh_stream_path H)|exact (f_equal sh_pred H)
    |exact (f_equal sh_out_cols H)|exact (f_equal sh_gate H)|exact (f_equal sh_outer_table H)].
Qed.

(** [begin_queryback] and [end_queryback] change a counter and may forget stamps. *)
Lemma live_ok_shape reg id f :
  (forall s, shape_fixed (f s) = shape_fixed s /\ sh_recent (f s) ⊆ sh_recent s) ->
  live_ok reg -> live_ok (on_shape id f reg).
Proof.
  intros Hf [Hs [Hfd Hrc] [Hd1 Hd2] Hix Hr].
  assert (Hback : forall i s', r_shapes (on_shape id f reg) !! i = Some s' -> exists s,
            r_shapes reg !! i = Some s /\ shape_fixed s' = shape_fixed s /\ sh_recent s' ⊆ sh_recent s).
  { intros i s'. simpl. rewrite lookup_alter. case_decide as He; [subst i|].
    - destruct (r_shapes reg !! id) as [s|]; simpl; [|done]. intros [= <-]. exists s. by destruct (Hf s).
    - eauto. }
  split.
  - destruct Hs. by split.
  - split; [done|]. intros i s' k (s & Hi & _ & Hsub)%Hback [st Hk]. apply (Hrc i s k Hi).
    exists st. by eapply lookup_weaken.
  - split; intros i1 i2 s1 s2 (t1 & Ht1 & (Hf1 & Hp1 & _)%shape_fixed_fields & _)%Hback
      (t2 & Ht2 & (Hf2 & Hp2 & _)%shape_fixed_fields & _)%Hback He;
      [apply (Hd1 i1 i2 t1 t2 Ht1 Ht2)|apply (Hd2 i1 i2 t1 t2 Ht1 Ht2)]; congruence.
  - assert (He : shape_reg (on_shape id f reg) = shape_reg reg); [|by rewrite He].
    apply map_eq. intros i. unfold shape_reg. rewrite !lookup_fmap. simpl. rewrite lookup_alter.
    case_decide; [subst i|done]. destruct (r_shapes reg !! id) as [s|]; [|done]. simpl.
    destruct (Hf s) as [(_ & _ & -> & _ & _ & ->)%shape_fixed_fields _]. done.
  - done.
Qed.

Lemma live_ok_node reg sig f : (forall n, node_key (f n) = node_key n) -> live_ok reg -> live_ok (on_node sig f reg).
Proof.
  intros Hf [Hs Ht Hd Hix Hr]. split; [|by destruct Ht|by destruct Hd|done|done].
  apply sets_ok_nodes; [|exact Hs]. intros s. by apply alter_core.
Qed.

(** What a step does to the shape under way: it stays installed with its query-back counted, keeps
    what a decision unseen by a snapshot has decided, and every stamp it gains is a change's. *)
Definition in_flight reg (id : str) (s0 : SubqueryShape) : Prop :=
  exists s, r_shapes reg !! id = Some s /\ shape_fixed s = shape_fixed s0 /\ 0 < sh_inflight s.

Lemma in_flight_same reg reg' id s0 : r_shapes reg' !! id = r_shapes reg !! id ->
  in_flight reg id s0 -> in_flight reg' id s0.
Proof. unfold in_flight. by intros ->. Qed.

Lemma in_flight_core reg reg' id s0 :
  shape_core <$> r_shapes reg' !! id = shape_core <$> r_shapes reg !! id ->
  in_flight reg id s0 -> in_flight reg' id s0.
Proof.
  intros Hc (s & Hs & Hf & Hi). rewrite Hs in Hc. simpl in Hc. apply fmap_Some in Hc as (s' & Hs' & Hc).
  exists s'. split_and!; [done| |].
  - symmetry in Hc. by rewrite (shape_fixed_core _ _ Hc).
  - symmetry in Hc. destruct (shape_core_fields _ _ Hc) as (_ & _ & _ & _ & _ & _ & ->). done.
Qed.

Lemma undercut_same reg reg' id gate pk : recent_of reg' id pk = recent_of reg id pk ->
  undercut reg' id gate pk = undercut reg id gate pk.
Proof. unfold undercut. by intros ->. Qed.

(** A change stamps the keys it touches on the shapes it visits, and nothing else. *)
Lemma change_stamps traced reg ts delta lsn xid txid reg' flips T T' id s :
  live_ok reg -> table_ok ts T -> delta_of ts T delta T' ->
  r_shapes reg !! id = Some s -> should_skip (sh_gate s) lsn xid = false -> 0 < sh_inflight s ->
  on_table_delta traced reg ts delta lsn xid txid = Ok (reg', flips) -> dict_small reg' ->
  shape_core <$> r_shapes reg' !! id = Some (shape_core s) /\
  forall pk, recent_of reg' id pk =
    if bool_decide (id ∈ visited traced reg ts delta) && bool_decide (is_Some (latest_rows ts delta !! pk))
    then Some (lsn, xid) else recent_of reg id pk.
Proof.
  intros Hlive HT Hd Hs Hskip Hfl Hrun Hsm.
  destruct (on_table_delta_ok _ _ _ _ _ _ _ _ _ _ _ Hlive HT Hd Hrun Hsm)
    as (-> & _ & _ & _ & Ht1 & Hd1 & Hsh & Hsi & _ & _ & Hrec1 & F2 & _ & Hk & Hnd).
  set (reg1 := (delta_nodes reg ts delta lsn xid).1) in *.
  destruct (emit_live_spec ts (SrcLive lsn xid) (lsn, xid) txid _ reg1 eq_refl Ht1 Hd1 Hk Hnd) as [_ He].
  destruct (He Hsm) as [_ Hgroup]. clear He.
  assert (Hs1 : r_shapes reg1 !! id = Some s) by (by rewrite Hsh). specialize (Hgroup id s Hs1).
  rewrite live_groups_lookup in Hgroup.
  assert (Hns : shape_skips reg1 lsn xid id = false) by (unfold shape_skips; by rewrite Hs1).
  assert (Hv : visited traced reg1 ts delta = visited traced reg ts delta)
    by (unfold visited, outer_candidates; by rewrite Hsh, Hsi).
  rewrite Hns, Hv, andb_true_r in Hgroup. split.
  - pose proof (ef_shapes _ _ F2 id) as Hc. rewrite Hs1 in Hc. exact Hc.
  - intros pk. set (reg2 := (emit_for_shapes _ _ _ _ _).1) in *.
    change (recent_of (buffer_outer _ _ reg2) id pk) with (recent_of reg2 id pk).
    destruct (bool_decide (id ∈ visited traced reg ts delta)); simpl in *.
    + destruct Hgroup as (_ & _ & ->). rewrite Hrec1.
      assert (Hin : pk ∈ (keyed_latest ts delta).*1 <-> is_Some (latest_rows ts delta !! pk)).
      { unfold keyed_latest. rewrite list_elem_of_fmap. split.
        - intros ([k rb] & -> & Hin%elem_of_map_to_list). by exists rb.
        - intros [rb Hrb]. exists (pk, rb). by rewrite elem_of_map_to_list. }
      case_decide as Hx; [rewrite bool_decide_eq_true_2|rewrite bool_decide_eq_false_2]; [done| |done|]; tauto.
    + destruct Hgroup as (_ & _ & ->). by rewrite Hrec1.
Qed.

(* ------------------------------------------------------------------ *)
(** ** The invariant of a query-back under way *)

(** For every row read: a decision the snapshot could not see has been taken on its key, or the row
    is still the table's, or neither it nor what the table has now can be in the shape.  A key is
    only ever fenced because a change touched it. *)
Record fence_inv (id : str) (s0 : SubqueryShape) (gate : SnapshotGate) (rows : gmap str Row)
    (touched : str -> Prop) (st : SubqueryRegistry D * World) : Prop := {
  fi_live : live_ok st.1;
  fi_flight : in_flight st.1 id s0;
  fi_fresh : forall pk r, rows !! pk = Some r ->
    undercut st.1 id gate pk = true \/ rows_of st.2 (sh_outer_table s0) !! pk = Some r \/
    (~ admissible (sh_pred s0) r /\
     forall r', rows_of st.2 (sh_outer_table s0) !! pk = Some r' -> ~ admissible (sh_pred s0) r');
  fi_why : forall pk, undercut st.1 id gate pk = true -> touched pk
}.

(** A step that moves no stamp of the shape and no row. *)
Lemma fence_quiet id s0 gate rows touched reg reg' W : live_ok reg' -> in_flight reg' id s0 ->
  (forall pk, recent_of reg' id pk = recent_of reg id pk) ->
  fence_inv id s0 gate rows touched (reg, W) -> fence_inv id s0 gate rows touched (reg', W).
Proof.
  intros Hl Hf Hr [_ _ Hfr Hw]. split; [done|done| |]; simpl in *.
  - intros pk r Hpk. rewrite (undercut_same _ _ _ _ _ (Hr pk)). by apply Hfr.
  - intros pk. rewrite (undercut_same _ _ _ _ _ (Hr pk)). apply Hw.
Qed.

Lemma recent_on_shape reg id f id' pk : sh_recent <$> (f <$> r_shapes reg !! id) = sh_recent <$> r_shapes reg !! id ->
  recent_of (on_shape id f reg) id' pk = recent_of reg id' pk.
Proof.
  intros Hf. unfold recent_of. simpl. rewrite lookup_alter. case_decide; [subst id'|done].
  destruct (r_shapes reg !! id) as [s|]; [|done]. simpl in *. by apply (inj Some) in Hf as ->.
Qed.

Lemma fence_begin id s0 gate rows touched reg W id' : fence_inv id s0 gate rows touched (reg, W) ->
  fence_inv id s0 gate rows touched (begin_queryback id' reg, W).
Proof.
  intros Hi. apply (fence_quiet _ _ _ _ _ reg); [| | |done].
  - apply live_ok_shape; [|apply Hi]. by intros s.
  - destruct (fi_flight _ _ _ _ _ _ Hi) as (s & Hs & Hf & Hp). unfold in_flight. simpl in *. rewrite lookup_alter.
    case_decide; [subst id'|by eauto]. rewrite Hs. eexists. split; [done|]. split; [done|].
    simpl. unfold sat_incr, u32_max. lia.
  - intros pk. apply recent_on_shape. by destruct (r_shapes reg !! id').
Qed.

Lemma fence_end id s0 gate rows touched reg W id' :
  (id' = id -> exists s, r_shapes reg !! id = Some s /\ 1 < sh_inflight s) ->
  fence_inv id s0 gate rows touched (reg, W) -> fence_inv id s0 gate rows touched (end_queryback id' reg, W).
Proof.
  intros Hmore Hi. destruct (fi_flight _ _ _ _ _ _ Hi) as (s & Hs & Hf & Hp). simpl in *.
  apply (fence_quiet _ _ _ _ _ reg); [| | |done].
  - apply live_ok_shape; [|apply Hi]. intros s'. split; [done|]. simpl. case_match; [apply map_empty_subseteq|done].
  - unfold in_flight. simpl. rewrite lookup_alter. case_decide as He; [|by eauto].
    destruct (Hmore He) as (s' & Hs' & Hgt). subst id'. rewrite Hs'. assert (s' = s) as -> by congruence.
    eexists. split; [done|]. split; [done|]. simpl. unfold sat_decr. lia.
  - intros pk. destruct (decide (id' = id)) as [He|Hne].
    + apply recent_on_shape. destruct (Hmore He) as (s' & Hs' & Hgt). subst id'. rewrite Hs'. simpl.
      unfold sat_decr. case_match; [lia|done].
    + unfold recent_of. simpl. by rewrite lookup_alter_ne.
Qed.

Lemma fence_node id s0 gate rows touched reg W sig f : (forall n, node_key (f n) = node_key n) ->
  fence_inv id s0 gate rows touched (reg, W) -> fence_inv id s0 gate rows touched (on_node sig f reg, W).
Proof.
  intros Hf Hi. apply (fence_quiet _ _ _ _ _ reg); [|by apply Hi|done|done]. apply live_ok_node; [done|apply Hi].
Qed.

Lemma fence_queryback id s0 gate rows touched reg W id' ts rows' gate' txid : table_ok ts rows' ->
  let reg' := (emit_for_shapes reg ts [(id', map (λ r, (r, true)) (map_to_list rows').*2)] txid
                 (SrcQueryBack gate')).1 in
  dict_small reg' ->
  fence_inv id s0 gate rows touched (reg, W) -> fence_inv id s0 gate rows touched (reg', W).
Proof.
  intros Hrows reg' Hsm Hi. destruct (fi_live _ _ _ _ _ _ Hi) as [Hs Ht Hd Hix Hr] eqn:E. simpl in *.
  destruct (r_shapes reg !! id') as [s'|] eqn:Hs'.
  - destruct (read_candidates_ok ts rows' Hrows) as (Hk & Hrw & _). unfold reg' in *. clear reg'.
    rewrite <- Hrw in *.
    destruct (emit_one_spec ts (SrcQueryBack gate') txid reg id' s' _ Ht Hd Hk Hs') as [F He].
    destruct (He Hsm) as (Ht' & _ & _ & Hrec). apply (fence_quiet _ _ _ _ _ reg); [| | |done].
    + by eapply live_ok_emit; [exact F|..|apply Hi].
    + eapply in_flight_core; [apply F|apply Hi].
    + intros pk. apply Hrec.
  - assert (reg' = reg) as ->; [|done]. unfold reg', emit_for_shapes. simpl. by rewrite Hs'.
Qed.

(** A row read, through a change of the shape's table that leaves no stamp on it. *)
Lemma row_follows traced reg ts delta T T' id s pk r : shapes_indexed (r_shape_index reg) (shape_reg reg) ->
  table_ok ts T -> delta_of ts T delta T' -> r_shapes reg !! id = Some s -> ts_table ts = sh_outer_table s ->
  bool_decide (id ∈ visited traced reg ts delta) = false \/
    bool_decide (is_Some (latest_rows ts delta !! pk)) = false ->
  T !! pk = Some r \/ (~ admissible (sh_pred s) r /\
    forall r', T !! pk = Some r' -> ~ admissible (sh_pred s) r') ->
  T' !! pk = Some r \/ (~ admissible (sh_pred s) r /\
    forall r', T' !! pk = Some r' -> ~ admissible (sh_pred s) r').
Proof.
  intros Hix HT Hd Hs Htab Hhit Hrow.
  destruct (latest_rows_delta ts T delta T' HT Hd) as (Hlatest & _ & Himg). specialize (Hlatest pk).
  destruct (latest_rows ts delta !! pk) as [[l b]|] eqn:El; [|by rewrite Hlatest].
  destruct Hhit as [Hnv%bool_decide_eq_false|Hx%bool_decide_eq_false]; [|exfalso; apply Hx; by eexists].
  destruct (Himg pk l b El) as [Hnew Hold].
  assert (Hout : forall row w, (row, w) ∈ delta -> ~ admissible (sh_pred s) row) by (intros; by eapply not_visited).
  right. split.
  - destruct Hrow as [Hr|[Hr _]]; [|done]. eapply Hout. by apply Hold.
  - intros r' Hr'. destruct b; [|by destruct Hlatest; congruence].
    assert (r' = l) as -> by congruence. eapply Hout. by apply Hnew.
Qed.

(** A change the snapshot does not contain. *)
Lemma fence_change id s0 gate rows touched traced reg W c reg' flips T' :
  should_skip gate (tc_lsn c) (tc_xid c) = false -> should_skip (sh_gate s0) (tc_lsn c) (tc_xid c) = false ->
  table_ok (tc_ts c) (rows_of W (ts_table (tc_ts c))) ->
  delta_of (tc_ts c) (rows_of W (ts_table (tc_ts c))) (tc_delta c) T' ->
  on_table_delta traced reg (tc_ts c) (tc_delta c) (tc_lsn c) (tc_xid c) (tc_txid c) = Ok (reg', flips) ->
  dict_small reg' ->
  fence_inv id s0 gate rows touched (reg, W) ->
  fence_inv id s0 gate rows (λ pk, touched pk \/ touches_key (EvChange c) pk)
    (reg', <[ts_table (tc_ts c) := T']> W).
Proof.
  intros Hun Hskip HT Hd Hrun Hsm [Hlive (s & Hs & Hfix & Hfl) Hfresh Hwhy]. simpl in *.
  destruct (shape_fixed_fields _ _ Hfix) as (_ & _ & Hp & _ & Hg & Ht).
  destruct (change_stamps traced reg _ _ (tc_lsn c) (tc_xid c) (tc_txid c) reg' flips _ T' id s Hlive HT Hd Hs) as [Hcore Hrec];
    [by rewrite Hg|done|done|done|].
  set (hit := λ pk, bool_decide (id ∈ visited traced reg (tc_ts c) (tc_delta c)) &&
               bool_decide (is_Some (latest_rows (tc_ts c) (tc_delta c) !! pk))).
  assert (Hund : forall pk, undercut reg' id gate pk = hit pk || undercut reg id gate pk).
  { intros pk. unfold undercut. rewrite Hrec. fold (hit pk). destruct (hit pk); simpl; [by rewrite Hun|done]. }
  split; simpl.
  - by eapply change_live.
  - eapply (in_flight_core reg); [|by exists s]. by rewrite Hs.
  - intros pk r Hpk. rewrite Hund. destruct (hit pk) eqn:Eh; [by left|]. simpl.
    destruct (Hfresh pk r Hpk) as [Hu|Hrow]; [by left|right]. rewrite <- Hp, <- Ht in *.
    destruct (decide (ts_table (tc_ts c) = sh_outer_table s)) as [He|Hne];
      [|unfold rows_of in *; by rewrite lookup_insert_ne by done].
    rewrite He in *.
    assert (Hn : rows_of (<[sh_outer_table s := T']> W) (sh_outer_table s) = T')
      by (unfold rows_of; by rewrite lookup_insert_eq).
    rewrite Hn.
    eapply row_follows; eauto using lv_index. by apply andb_false_iff in Eh.
  - intros pk. rewrite Hund. intros [[_ Hb%bool_decide_eq_true]%andb_true_iff|Hu]%orb_true_iff; [by right|left; auto].
Qed.

Lemma fence_step_inv id s0 gate rows touched st e st' :
  unseen gate e -> unseen (sh_gate s0) e -> fence_step id st e st' ->
  fence_inv id s0 gate rows touched st ->
  fence_inv id s0 gate rows (λ pk, touched pk \/ touches_key e pk) st'.
Proof.
  intros Hun Hskip Hstep Hi. destruct Hstep as [traced reg W c reg' flips T' HT Hd Hrun Hsm| | | | |]; simpl in *.
  { by eapply fence_change. }
  all: assert (Hi' : fence_inv id s0 gate rows (λ pk, touched pk \/ False) (reg, W))
         by (destruct Hi; split; simpl in *; auto).
  - by apply fence_begin.
  - by apply fence_end.
  - by apply fence_node.
  - by apply fence_node.
  - by apply fence_queryback.
Qed.

Lemma fence_run_inv id s0 gate rows st es st' : fence_run id st es st' ->
  forall touched, Forall (λ e, unseen gate e /\ unseen (sh_gate s0) e) es ->
  fence_inv id s0 gate rows touched st ->
  fence_inv id s0 gate rows (λ pk, touched pk \/ exists e, e ∈ es /\ touches_key e pk) st'.
Proof.
  induction 1 as [st|st e st1 es st2 Hstep Hrun IH]; intros touched Hall Hi.
  - destruct Hi. split; auto.
  - apply Forall_cons in Hall as [[H1 H2] Hall].
    destruct (IH _ Hall (fence_step_inv _ _ _ _ _ _ _ _ H1 H2 Hstep Hi)) as [G1 G2 G3 G4].
    split; [done..|]. intros pk [[Hp|Hp]|(e' & He' & Hp)]%G4; [by left|..]; right.
    + exists e. split; [by left|done].
    + exists e'. split; [by right|done].
Qed.

(** C20: a query-back over a snapshot of the past decides as one over the present would.  Let it have
    read rows of the shape's table, and let any changes, query-backs and their [begin]s and [end]s
    run before its result is evaluated, the changes being commits its snapshot does not contain.
    Then every row it read is put right against the table and the inner sets as they are now, except
    where one of those changes has itself decided the key, which is left as that change left it;
    keys it did not read do not move. *)
Theorem query_back_is_current id s gate ts rows reg0 W0 es reg W txid V reg' :
  drop_deletes = false ->
  live_ok reg0 -> r_shapes reg0 !! id = Some s -> 0 < sh_inflight s ->
  (forall pk, undercut reg0 id gate pk = false) ->
  table_ok ts rows -> rows ⊆ rows_of W0 (sh_outer_table s) ->
  fence_run id (reg0, W0) es (reg, W) ->
  Forall (λ e, unseen gate e /\ unseen (sh_gate s) e) es ->
  (forall pk, is_Some (V !! pk) <-> reg_fed reg (sh_feed_id s) pk = true) ->
  (emit_for_shapes reg ts [(id, map (λ r, (r, true)) (map_to_list rows).*2)] txid
     (SrcQueryBack gate)).1 = reg' -> dict_small reg' ->
  exists envs, sent_to reg' (sh_stream_path s) = sent_to reg (sh_stream_path s) ++ envs /\
    forall pk, match rows !! pk with
      | Some _ =>
          materialize V envs !! pk = shown ts s (reg_eval reg) (rows_of W (sh_outer_table s)) pk \/
          (materialize V envs !! pk = V !! pk /\ exists e, e ∈ es /\ touches_key e pk)
      | None => materialize V envs !! pk = V !! pk
      end.
Proof.
  intros Hdd Hlive Hs Hfl Hund Hrows Hsub Hrun Hall HV <- Hsm.
  destruct (fence_run_inv id s gate rows _ _ _ Hrun (λ _, False) Hall) as [Hl (s' & Hs' & Hfix & _) Hfresh Hwhy].
  { split; simpl; [done|by exists s| |intros pk; by rewrite Hund].
    intros pk r Hpk. right. left. by eapply lookup_weaken. }
  simpl in *. destruct (shape_fixed_fields _ _ Hfix) as (Hf & Hpath & Hp & Hc & _ & _). rewrite <- Hf, <- Hpath in *.
  destruct (queryback_step reg ts gate txid rows _ V id s' Hdd (lv_tail _ Hl) (lv_distinct _ Hl) Hs' Hrows
              (reflexivity _) HV Hsm)
    as (envs & Hsent & Hkeys).
  exists envs. split; [done|]. intros pk. destruct (Hkeys pk) as [_ ->]. clear Hkeys.
  destruct (rows !! pk) as [r|] eqn:Hpk; [|done]. destruct (undercut reg id gate pk) eqn:Eu.
  { right. split; [done|]. by destruct (Hwhy pk Eu). }
  left. assert (Hsh : forall T, shown ts s' (reg_eval reg) T pk = shown ts s (reg_eval reg) T pk)
    by (intros; unfold shown; by rewrite Hp, Hc).
  rewrite <- Hsh. unfold shown. rewrite Hpk. destruct (Hfresh pk r Hpk) as [Hx|[->|[Hr Hnow]]]; [congruence|done|].
  simpl. rewrite Hp. destruct (matches_ctx (sh_pred s) r (reg_eval reg)) eqn:Em; [by apply matches_admissible in Em|].
  destruct (rows_of W (sh_outer_table s) !! pk) as [r'|]; [|done]. simpl.
  destruct (matches_ctx (sh_pred s) r' (reg_eval reg)) eqn:Em'; [|done].
  apply matches_admissible in Em'. by apply Hnow in Em'.
Qed.
End fence.
