(* ===== verification/SubqCreate.v ===== *)
(** * The subquery registry: creation and removal ([subquery.rs])

    A create has three phases: [begin_create] compiles the predicate under the lock, registering or
    sharing one node per subquery; Postgres is read with the lock released; [finish_create] installs
    what was read and replays what arrived meanwhile.  [abort_create] undoes it in any phase,
    [drop_subquery_shape] removes an installed shape and every node nothing depends on any more. *)

From S2P Require Import Prelude BTree Value TableRef Schema Predicate Gate Output Executors.
From S2P Require Import Sequencer PkDict SubqIndex SubqCircuit Subquery.
From stdpp Require Import base option numbers strings gmap fin_maps sorting list.
#[local] Open Scope Z_scope.

Section create.
Context {FT : FloatText} {FE : FaultEnv} {SJ : SerdeJson} {D : Type} {MP : MembershipPipeline D}.
Implicit Types (reg : SubqueryRegistry D).

(** [SubqueryRegistry::new]. *)
Definition registry_new : SubqueryRegistry D :=
  MkRegistry ∅ ∅ [] ∅ shape_index_empty mp_start pk_dict_new 1 ∅ 1 ∅ ∅ ∅ [] [] [] ∅ [].

Definition set_schemas (x : SchemaMap) reg : SubqueryRegistry D :=
  MkRegistry (r_nodes reg) (r_edges reg) (r_staged_edges reg) (r_shapes reg) (r_shape_index reg)
    (r_circuit reg) (r_pk_dict reg) (r_next_node_id reg) (r_node_by_id reg) (r_next_feed_id reg)
    (r_feed_by_id reg) (r_feed_sets reg) (r_templates reg) (r_pending_seed reg) (r_pending_shapes reg)
    (r_collect_log reg) x (r_sent reg).

(* ------------------------------------------------------------------ *)
(** ** Edges *)

(** [edges_of], [add_edge]. *)
Definition edges_of reg (sig : SubquerySig) : list Edge := default [] (r_edges reg !! sig).
Definition add_edge reg (e : Edge) : SubqueryRegistry D :=
  set_edges (<[ed_node_sig e := edges_of reg (ed_node_sig e) ++ [e]]> (r_edges reg)) reg.

(** [retain] on one node's list, dropping the list when it empties. *)
Definition retain_edges (keep : Edge -> bool) reg (sig : SubquerySig) : SubqueryRegistry D :=
  match r_edges reg !! sig with
  | None => reg
  | Some v =>
      let v := filter (λ e, keep e = true) v in
      set_edges (match v with [] => delete sig (r_edges reg) | _ => <[sig := v]> (r_edges reg) end) reg
  end.
Definition not_dependent (d : Dependent) (e : Edge) : bool := negb (bool_decide (ed_dependent e = d)).

Definition leaf_sigs (pred : CompiledPredicate) : list SubquerySig := map il_sig (collect_in_leaves pred).

(** [remove_shape_edges], [remove_node_edges]. *)
Definition remove_shape_edges (pred : CompiledPredicate) (shape_id : str) reg : SubqueryRegistry D :=
  foldl (retain_edges (not_dependent (DShape shape_id))) reg (leaf_sigs pred).
Definition remove_node_edges (sig : SubquerySig) (children : list SubquerySig) reg : SubqueryRegistry D :=
  foldl (retain_edges (not_dependent (DNode sig))) (set_edges (delete sig (r_edges reg)) reg) children.

(** The edges a dependent has, one for each of its leaves. *)
Definition leaf_edges (dep : Dependent) (pred : CompiledPredicate) : list Edge :=
  map (λ l, MkEdge (il_sig l) dep (il_col l) (il_negated l) (il_null_sensitive l)) (collect_in_leaves pred).
Definition stage_edges (es : list Edge) reg : SubqueryRegistry D :=
  set_staged_edges (r_staged_edges reg ++ es) reg.

(* ------------------------------------------------------------------ *)
(** ** Collecting nodes *)

Definition log_collect (sig : SubquerySig) reg : SubqueryRegistry D :=
  set_collect_log (r_collect_log reg ++ [sig]) reg.

(** The bind of a template: each column's index and its literal, coerced to the column. *)
Fixpoint bind_columns (ts : TableSchema) (lits : list (str * json)) : res str (list nat * Row) :=
  match lits with
  | [] => Ok ([], [])
  | (col, lit) :: lits =>
      idx ← column_index ts col;
      ty ← ok_or $"column index out of range" (column_type ts idx);
      v ← literal_from_json lit ty;
      cr ← bind_columns ts lits;
      Ok (idx :: cr.1, v :: cr.2)
  end.

(** [SigOnly]. *)
Definition SigOnly : SubqueryCollector unit := λ s table project w, (s, Ok (subquery_sig table project w)).
Definition residual_of (ts : TableSchema) (residual : list PredicateJson) : res str CompiledPredicate :=
  match residual with
  | [] => Ok MatchAll
  | _ => (compile_with (C := SigOnly) (PAnd residual) ts tt).2
  end.

(** Registering the template, when it is new, and the bind in it. *)
Definition enter_template (tkey : str) (fresh : res str TemplateGroup) (bind : Row) (sig : SubquerySig) reg
    : SubqueryRegistry D * res str () :=
  let add reg := on_template tkey (λ t, template_with (<[bind := sig]> (tg_binds t)) (tg_pk_nodes t) t) reg in
  match r_templates reg !! tkey with
  | Some _ => (add reg, Ok ())
  | None =>
      match fresh with
      | Err e => (reg, Err e)
      | Ok t => (add (set_templates (<[tkey := t]> (r_templates reg)) reg), Ok ())
      end
  end.

(** [SubqueryNode::new] and the assignments after it; a bind is kept up to equality of rows. *)
Definition fresh_node (sig : SubquerySig) (table : TableRef) (proj pk : nat) (pred : CompiledPredicate)
    (w : option PredicateJson) (id : Z) (tkey : str) (bind : Row) : SubqueryNode :=
  MkNode sig table proj pk pred w gate_passthrough None [] id tkey bind 1 ∅ 0.

(** What [collect] does once the inner predicate is compiled. *)
Definition register_node (sig : SubquerySig) (table : TableRef) (project : str) (w : option PredicateJson)
    (ts : TableSchema) (pred : CompiledPredicate) reg : SubqueryRegistry D * res str SubquerySig :=
  let reg := stage_edges (leaf_edges (DNode sig) pred) reg in
  match column_index ts project with
  | Err e => (reg, Err e)
  | Ok proj =>
      let id := r_next_node_id reg in
      let reg := set_next_node_id (wrap_i64 (id + 1)) reg in
      let '(tkey, lits, residual) := subquery_template table project w in
      match bind_columns ts lits with
      | Err e => (reg, Err e)
      | Ok (cols, vals) =>
          let bind := rkey vals in
          let fresh := res ← residual_of ts residual; Ok (MkTemplate table proj res cols ∅ ∅) in
          match enter_template tkey fresh bind sig reg with
          | (reg, Err e) => (reg, Err e)
          | (reg, Ok _) =>
              let node := fresh_node sig table proj (ts_pk_index ts) pred w id tkey bind in
              let reg := set_nodes (<[sig := node]> (r_nodes reg)) reg in
              let reg := set_node_by_id (<[id := sig]> (r_node_by_id reg)) reg in
              let reg := log_collect sig reg in
              (set_pending_seed (r_pending_seed reg ++ [sig]) reg, Ok sig)
          end
      end
  end.

(** [collect], which recurs through [compile_with]; the fuel is the nesting of subqueries. *)
Fixpoint collect_node (fuel : nat) reg (table : TableRef) (project : str) (w : option PredicateJson)
    : SubqueryRegistry D * res str SubquerySig :=
  let sig := subquery_sig table project w in
  match r_nodes reg !! sig with
  | Some _ => (log_collect sig (on_node sig (λ n, node_with_refcount (S (n_refcount n)) n) reg), Ok sig)
  | None =>
      match r_schemas reg !! table with
      | None => (reg, Err $"subquery: unknown inner table")
      | Some ts =>
          match fuel with
          | O => (reg, Err $"out of fuel")
          | S fuel =>
              match compile_opt_with (C := collect_node fuel) w ts reg with
              | (reg, Err e) => (reg, Err e)
              | (reg, Ok pred) => register_node sig table project w ts pred reg
              end
          end
      end
  end.

(** The nesting of subqueries in a predicate. *)
Fixpoint sub_depth (p : PredicateJson) : nat :=
  match p with
  | PAnd ps | POr ps => list_max (map sub_depth ps)
  | PNot q => sub_depth q
  | PIn _ (mkSubquery _ _ w) _ => S (match w with Some q => sub_depth q | None => 0 end)
  | _ => 0
  end.

(* ------------------------------------------------------------------ *)
(** ** Undoing references *)

(** [remove_node_entry]. *)
Definition remove_node_entry (n : SubqueryNode) reg : SubqueryRegistry D :=
  let reg := set_node_by_id (delete (n_node_id n) (r_node_by_id reg)) reg in
  match r_templates reg !! n_template_key n with
  | None => reg
  | Some t =>
      let binds := delete (n_bind n) (tg_binds t) in
      set_templates (if bool_decide (binds = ∅) then delete (n_template_key n) (r_templates reg)
                     else <[n_template_key n := template_with binds (tg_pk_nodes t) t]> (r_templates reg)) reg
  end.

Definition forget_seed (sig : SubquerySig) reg : SubqueryRegistry D :=
  set_pending_seed (filter (λ s, s <> sig) (r_pending_seed reg)) reg.

(** [rollback_refs]. *)
Definition rollback_ref reg (sig : SubquerySig) : SubqueryRegistry D :=
  match r_nodes reg !! sig with
  | None => reg
  | Some n =>
      let n := node_with_refcount (Nat.pred (n_refcount n)) n in
      if bool_decide (n_refcount n = 0%nat)
      then forget_seed sig (remove_node_entry n (set_nodes (delete sig (r_nodes reg)) reg))
      else set_nodes (<[sig := n]> (r_nodes reg)) reg
  end.
Definition rollback_refs (log : list SubquerySig) reg : SubqueryRegistry D :=
  foldl rollback_ref (set_staged_edges [] reg) log.

(* ------------------------------------------------------------------ *)
(** ** Phase A *)

Definition is_seeding reg (sig : SubquerySig) : bool :=
  match r_nodes reg !! sig with
  | Some n => match n_seed_buffer n with Some _ => true | None => false end
  | None => false
  end.

Definition start_seeding reg (sig : SubquerySig) : SubqueryRegistry D :=
  on_node sig (node_with_seed_buffer (Some [])) reg.
Definition seeds_of reg (fresh : list SubquerySig)
    : list (SubquerySig * TableRef * option PredicateJson) :=
  omap (λ sig, n ← r_nodes reg !! sig; Some (sig, n_inner_table n, n_where_json n)) fresh.

(** [begin_create]. *)
Definition begin_create reg (shape_id : str) (outer_table : TableRef) (stream_path : str)
    (where_json : PredicateJson) (out_cols : option (list nat)) (changes_only : bool)
    : SubqueryRegistry D * res str (list (SubquerySig * TableRef * option PredicateJson)) :=
  match r_schemas reg !! outer_table with
  | None => (reg, Err $"subquery shape: unknown outer table")
  | Some outer_ts =>
      let reg := set_collect_log [] (set_staged_edges [] reg) in
      match compile_with (C := collect_node (sub_depth where_json)) where_json outer_ts reg with
      | (reg, Err e) =>
          let log := r_collect_log reg in
          (rollback_refs log (set_collect_log [] reg), Err e)
      | (reg, Ok pred) =>
          let log := r_collect_log reg in
          let fresh := r_pending_seed reg in
          let reg := set_pending_seed [] (set_collect_log [] reg) in
          if existsb (λ sig, negb (bool_decide (sig ∈ fresh)) && is_seeding reg sig) log
          then (rollback_refs log reg,
                Err $"subquery create conflict: shares a node another create is seeding")
          else
            let seeds := seeds_of reg fresh in
            let reg := foldl start_seeding reg fresh in
            let reg := stage_edges (leaf_edges (DShape shape_id) pred) reg in
            let reg := foldl add_edge (set_staged_edges [] reg) (r_staged_edges reg) in
            (set_pending_shapes
               (r_pending_shapes reg ++
                [MkPendingSubq shape_id outer_table stream_path pred out_cols changes_only log [] []]) reg,
             Ok seeds)
      end
  end.

(* ------------------------------------------------------------------ *)
(** ** Deferred work *)

Definition is_full (w : DeferredShapeWork) : bool := match w with SWFull _ => true | SWValue _ _ _ => false end.
Definition same_value (c : nat) (v : Value) (w : DeferredShapeWork) : bool :=
  match w with SWValue c' v' _ => Nat.eqb c' c && value_eqb v' v | SWFull _ => false end.

(** The queueing rule of [queue_deferred]. *)
Definition enqueue_work (work : DeferredShapeWork) (q : list DeferredShapeWork) : list DeferredShapeWork :=
  let has_full := existsb is_full q in
  match work with
  | SWFull _ => if has_full then q else [work]
  | SWValue c v _ => if has_full || existsb (same_value c v) q then q else q ++ [work]
  end.

Fixpoint on_pending (shape_id : str) (f : PendingSubqueryShape -> PendingSubqueryShape)
    (l : list PendingSubqueryShape) : option (list PendingSubqueryShape) :=
  match l with
  | [] => None
  | p :: l => if bool_decide (ps_shape_id p = shape_id) then Some (f p :: l)
              else cons p <$> on_pending shape_id f l
  end.

(** [queue_deferred]. *)
Definition queue_deferred reg (shape_id : str) (work : DeferredShapeWork) : SubqueryRegistry D * bool :=
  match on_pending shape_id (λ p, pending_with (ps_buffer p) (enqueue_work work (ps_deferred p)) p)
          (r_pending_shapes reg) with
  | Some l => (set_pending_shapes l reg, true)
  | None => (reg, false)
  end.

Definition is_node_full (w : DeferredNodeWork) : bool := match w with NWFull => true | NWValue _ _ => false end.
Definition same_node_value (c : nat) (v : Value) (w : DeferredNodeWork) : bool :=
  match w with NWValue c' v' => Nat.eqb c' c && value_eqb v' v | NWFull => false end.
Definition enqueue_node_work (work : DeferredNodeWork) (q : list DeferredNodeWork) : list DeferredNodeWork :=
  let has_full := existsb is_node_full q in
  match work with
  | NWFull => if has_full then q else [work]
  | NWValue c v => if has_full || existsb (same_node_value c v) q then q else q ++ [work]
  end.

(** [queue_node_deferred]. *)
Definition queue_node_deferred reg (sig : SubquerySig) (work : DeferredNodeWork) : SubqueryRegistry D * bool :=
  match r_nodes reg !! sig with
  | None => (reg, false)
  | Some n =>
      match n_seed_buffer n with
      | None => (reg, false)
      | Some _ => (on_node sig (λ n, node_with_deferred (enqueue_node_work work (n_deferred n)) n) reg, true)
      end
  end.

(* ------------------------------------------------------------------ *)
(** ** Phase C *)

Record FinishedCreate := MkFinished {
  fc_work : list (SubquerySig * Flip);
  fc_deferred : list DeferredShapeWork;
  fc_node_work : list (SubquerySig * DeferredNodeWork)
}.

(** The replay of one buffered delta of a node. *)
Definition replay_node_delta (sig : SubquerySig) (ts : TableSchema)
    (st : SubqueryRegistry D * list (SubquerySig * Flip)) (b : BufferedDelta)
    : SubqueryRegistry D * list (SubquerySig * Flip) :=
  let evals := node_present_values st.1 sig ts (bf_delta b) in
  let reg := record_node_recency sig evals.*1 (bf_lsn b) (bf_xid b) st.1 in
  let '(reg, flips) := apply_node_evals reg sig evals in
  (reg, st.2 ++ map (λ f, (sig, f)) flips).

(** Step 1 of [finish_create], one node: the seed, the replay, the queue. *)
Definition install_seed reg (sig : SubquerySig) (rows : list Row) (gate : SnapshotGate)
    : SubqueryRegistry D * res str (list (SubquerySig * Flip) * list (SubquerySig * DeferredNodeWork)) :=
  match r_nodes reg !! sig with
  | None => (reg, Err $"finish_create: node vanished")
  | Some n =>
      match r_schemas reg !! n_inner_table n with
      | None => (reg, Err $"unknown inner table")
      | Some ts =>
          let reg := on_node sig (node_with_gate gate) reg in
          let '(reg, seed) :=
            assert_rows reg sig (map (λ r, (key_or_empty ts r, Some (cell r (n_proj_col n)))) rows) in
          let '(reg, _) := apply_asserts reg seed in
          let buffered := default [] (n ← r_nodes reg !! sig; n_seed_buffer n) in
          let reg := on_node sig (node_with_seed_buffer None) reg in
          let '(reg, work) := foldl (replay_node_delta sig ts) (reg, []) buffered in
          let queue := match r_nodes reg !! sig with Some n => n_deferred n | None => [] end in
          (on_node sig (node_with_deferred []) reg, Ok (work, map (λ w, (sig, w)) queue))
      end
  end.
Fixpoint install_seeds reg (seeds : list (SubquerySig * list Row * SnapshotGate))
    : SubqueryRegistry D * res str (list (SubquerySig * Flip) * list (SubquerySig * DeferredNodeWork)) :=
  match seeds with
  | [] => (reg, Ok ([], []))
  | (sig, rows, gate) :: seeds =>
      match install_seed reg sig rows gate with
      | (reg, Err e) => (reg, Err e)
      | (reg, Ok (work, nodes)) =>
          match install_seeds reg seeds with
          | (reg, Err e) => (reg, Err e)
          | (reg, Ok (work', nodes')) => (reg, Ok (work ++ work', nodes ++ nodes'))
          end
      end
  end.

(** [position] and [remove]. *)
Fixpoint take_pending (shape_id : str) (l : list PendingSubqueryShape)
    : option (PendingSubqueryShape * list PendingSubqueryShape) :=
  match l with
  | [] => None
  | p :: l => if bool_decide (ps_shape_id p = shape_id) then Some (p, l)
              else pl ← take_pending shape_id l; Some (pl.1, p :: pl.2)
  end.

(** [install_shape]. *)
Definition install_shape (s : SubqueryShape) reg : SubqueryRegistry D :=
  let reg := set_feed_by_id (<[sh_feed_id s := sh_shape_id s]> (r_feed_by_id reg)) reg in
  let reg := set_shape_index (shape_index_insert (sh_shape_id s) (TableRef_as_str (sh_outer_table s))
                                (sh_pred s) (r_shape_index reg)) reg in
  set_shapes (<[sh_shape_id s := s]> (r_shapes reg)) reg.

Definition seed_feed (feed : Z) reg (pk : str) : SubqueryRegistry D :=
  let '(dict, id) := get_or_insert (r_pk_dict reg) pk in
  set_feed_sets (feed_insert feed id (r_feed_sets reg)) (set_pk_dict dict reg).

(** The replay of one buffered delta of the shape. *)
Definition replay_outer (shape_id : str) (ts : TableSchema) reg (b : BufferedDelta) : SubqueryRegistry D :=
  (emit_for_shapes reg ts [(shape_id, latest_rows_by_pk ts (bf_delta b))] None
     (SrcReplay (bf_lsn b) (bf_xid b))).1.

(** [finish_create]; [drop] at any of its awaits leaves the state reached. *)
Definition finish_create reg (shape_id : str) (node_seeds : list (SubquerySig * list Row * SnapshotGate))
    (outer_gate : SnapshotGate) (seeded : Z) (seeded_pks : gset str)
    : SubqueryRegistry D * res str FinishedCreate :=
  if negb (existsb (λ p, bool_decide (ps_shape_id p = shape_id)) (r_pending_shapes reg))
  then (reg, Err $"finish_create: pending shape vanished")
  else
    match install_seeds reg node_seeds with
    | (reg, Err e) => (reg, Err e)
    | (reg, Ok (work, node_work)) =>
        match take_pending shape_id (r_pending_shapes reg) with
        | None => (reg, Err $"finish_create: pending shape vanished")
        | Some (p, rest) =>
            match r_schemas reg !! ps_outer_table p with
            | None => (reg, Err $"finish_create: unknown outer table")
            | Some ts =>
                let reg := set_pending_shapes rest reg in
                let feed := r_next_feed_id reg in
                let reg := set_next_feed_id (wrap_i64 (feed + 1)) reg in
                let reg := install_shape
                  (MkSubqShape shape_id (ps_outer_table p) (ps_stream_path p) (ps_pred p) (ps_out_cols p)
                     outer_gate seeded feed ∅ 0) reg in
                let reg := foldl (seed_feed feed) reg (elements seeded_pks) in
                let reg := foldl (replay_outer shape_id ts) reg (ps_buffer p) in
                (reg, Ok (MkFinished work (ps_deferred p) node_work))
            end
        end
    end.

(* ------------------------------------------------------------------ *)
(** ** Removal *)

(** [remove_node_with_state]. *)
Definition remove_node_with_state reg (sig : SubquerySig)
    : SubqueryRegistry D * list (PkKey * Assert) * list SubquerySig :=
  match r_nodes reg !! sig with
  | None => (reg, [], [])
  | Some n =>
      let reg := set_nodes (delete sig (r_nodes reg)) reg in
      let children := leaf_sigs (n_pred n) in
      let held := (contributor_entries (r_circuit reg) (n_node_id n)).*1 in
      let reg := foldl (λ reg id, on_template (n_template_key n) (remove_holder id sig) reg) reg held in
      let reg := remove_node_edges sig children (remove_node_entry n reg) in
      (reg, map (λ id, ((n_node_id n, id), ADelete)) held, children)
  end.

(** [decref_nodes]: the stack is popped at its end, here its head.  Every node is removed once, so
    the leaves of all nodes bound what is pushed. *)
Fixpoint decref_loop (fuel : nat) reg (asserts : list (PkKey * Assert)) (stack : list SubquerySig)
    : SubqueryRegistry D * list (PkKey * Assert) * list SubquerySig :=
  match fuel, stack with
  | _, [] | O, _ => (reg, asserts, stack)
  | S fuel, sig :: stack =>
      match r_nodes reg !! sig with
      | None => decref_loop fuel reg asserts stack
      | Some n =>
          let n := node_with_refcount (Nat.pred (n_refcount n)) n in
          let reg := set_nodes (<[sig := n]> (r_nodes reg)) reg in
          if bool_decide (n_refcount n = 0%nat) then
            let '(reg, more, children) := remove_node_with_state reg sig in
            decref_loop fuel reg (asserts ++ more) (reverse children ++ stack)
          else decref_loop fuel reg asserts stack
      end
  end.
Definition node_leaves reg : nat :=
  length (concat (map (λ e : str * SubqueryNode, leaf_sigs (n_pred e.2)) (map_to_list (r_nodes reg)))).
Definition decref_nodes reg (sigs : list SubquerySig) : SubqueryRegistry D :=
  let '(reg, asserts, _) := decref_loop (length sigs + node_leaves reg) reg [] (reverse sigs) in
  (apply_asserts reg asserts).1.

(** [drop_subquery_shape]. *)
Definition drop_subquery_shape reg (shape_id : str) : SubqueryRegistry D :=
  match r_shapes reg !! shape_id with
  | None => reg
  | Some s =>
      let reg := set_shapes (delete shape_id (r_shapes reg)) reg in
      let reg := remove_shape_edges (sh_pred s) shape_id reg in
      let reg := set_shape_index (shape_index_remove shape_id (r_shape_index reg)) reg in
      let reg := set_feed_by_id (delete (sh_feed_id s) (r_feed_by_id reg)) reg in
      let reg := set_feed_sets (drop_feed (sh_feed_id s) (r_feed_sets reg)) reg in
      decref_nodes reg (leaf_sigs (sh_pred s))
  end.

(** [abort_create]. *)
Definition abort_ref (st : SubqueryRegistry D * list (PkKey * Assert)) (sig : SubquerySig)
    : SubqueryRegistry D * list (PkKey * Assert) :=
  match r_nodes st.1 !! sig with
  | None => st
  | Some n =>
      let n := node_with_refcount (Nat.pred (n_refcount n)) n in
      let reg := set_nodes (<[sig := n]> (r_nodes st.1)) st.1 in
      if bool_decide (n_refcount n = 0%nat) then
        let '(reg, more, _) := remove_node_with_state reg sig in
        (forget_seed sig reg, st.2 ++ more)
      else (reg, st.2)
  end.
Definition abort_create reg (shape_id : str) : SubqueryRegistry D :=
  if bool_decide (is_Some (r_shapes reg !! shape_id)) then drop_subquery_shape reg shape_id
  else
    match take_pending shape_id (r_pending_shapes reg) with
    | None => reg
    | Some (p, rest) =>
        let reg := remove_shape_edges (ps_pred p) (ps_shape_id p) (set_pending_shapes rest reg) in
        let '(reg, asserts) := foldl abort_ref (reg, []) (ps_collect_log p) in
        (apply_asserts reg asserts).1
    end.
End create.
