(* ===== verification/SubqCompile.v ===== *)
(** * Compiling a predicate into the registry

    [begin_create] threads the registry through [compile_with], which calls [collect] at every
    subquery, which compiles the inner predicate in turn.  Here: what is true of any collector
    threaded through a compilation, and of the registry as one: the compile log is a debt of
    references that rolling back pays exactly. *)

From S2P Require Import Prelude BTree Value TableRef Schema Predicate Gate Output Executors.
From S2P Require Import Sequencer PkDict SubqIndex SubqCircuit Subquery SubqueryFacts SubqCreate.
From stdpp Require Import base option numbers strings gmap fin_maps sorting list.
#[local] Open Scope Z_scope.

(* ------------------------------------------------------------------ *)
(** ** Occurrences *)

Section occurrences.
Context {A : Type} `{EqDecision A}.

Definition occ (x : A) (l : list A) : nat := length (filter (λ y, y = x) l).

Lemma occ_app x l l' : occ x (l ++ l') = (occ x l + occ x l')%nat.
Proof. unfold occ. by rewrite filter_app, length_app. Qed.
Lemma occ_cons x y l : occ x (y :: l) = ((if decide (y = x) then 1 else 0) + occ x l)%nat.
Proof. unfold occ. rewrite filter_cons. by destruct (decide (y = x)). Qed.
Lemma occ_nil x : occ x [] = 0%nat.
Proof. done. Qed.
#[export] Instance occ_perm x : Proper ((≡ₚ) ==> eq) (occ x).
Proof. intros l l' Hl. unfold occ. by rewrite Hl. Qed.
Lemma occ_in x l : (0 < occ x l)%nat <-> x ∈ l.
Proof.
  induction l as [|y l IH]; [rewrite occ_nil, elem_of_nil; lia|]. rewrite occ_cons, elem_of_cons.
  destruct (decide (y = x)) as [->|Hne]; [split; [by left|lia]|]. simpl. rewrite IH. naive_solver.
Qed.
End occurrences.

(* ------------------------------------------------------------------ *)
(** ** Any collector *)

Abbreviation Query := (TableRef * str * option PredicateJson)%type.

(** The subqueries of a predicate, the outermost and all of them. *)
Fixpoint sub_queries (p : PredicateJson) : list Query :=
  match p with
  | PAnd ps | POr ps => concat (map sub_queries ps)
  | PNot q => sub_queries q
  | PIn _ (mkSubquery t pr w) _ => [(t, pr, w)]
  | _ => []
  end.
Fixpoint nested (p : PredicateJson) : list Query :=
  match p with
  | PAnd ps | POr ps => concat (map nested ps)
  | PNot q => nested q
  | PIn _ (mkSubquery t pr w) _ => (t, pr, w) :: match w with Some q => nested q | None => [] end
  | _ => []
  end.
Definition inner (w : option PredicateJson) : list Query := match w with Some q => nested q | None => [] end.

Lemma sub_queries_nested p t pr w : (t, pr, w) ∈ sub_queries p ->
  forall q, q ∈ (t, pr, w) :: inner w -> q ∈ nested p.
Proof.
  induction p as [| |ps IH|ps IH|p IH|c t' pr' w' n _] using PredicateJson_rect'; simpl;
    try (by intros ?%elem_of_nil); [| |done|].
  1,2: induction IH as [|p ps Hp _ IHps]; simpl; [by intros ?%elem_of_nil|];
       intros [Hin|Hin]%elem_of_app q Hq; apply elem_of_app; [left; by apply Hp|right; by apply IHps].
  by intros [= -> -> ->]%list_elem_of_singleton q Hq.
Qed.

Lemma sub_queries_depth p t pr w : (t, pr, w) ∈ sub_queries p ->
  (S (match w with Some q => sub_depth q | None => 0 end) <= sub_depth p)%nat.
Proof.
  induction p as [| |ps IH|ps IH|p IH|c t' pr' w' n _] using PredicateJson_rect'; simpl;
    try (by intros ?%elem_of_nil); [| |done|].
  1,2: induction IH as [|p ps Hp _ IHps]; simpl; [by intros ?%elem_of_nil|];
       intros [Hin|Hin]%elem_of_app; [apply Hp in Hin|apply IHps in Hin]; lia.
  by intros [= -> -> ->]%list_elem_of_singleton.
Qed.

Lemma leaf_sigs_flip p b : map il_sig (in_leaves p b) = leaf_sigs p.
Proof.
  unfold leaf_sigs, collect_in_leaves.
  assert (H : forall b', map il_sig (in_leaves p b) = map il_sig (in_leaves p b')); [|by rewrite (H false)].
  revert b. induction p as [| | |ps IH|ps IH|p IH|c s n] using CompiledPredicate_rect'; intros b0 b'; simpl; try done.
  1,2: induction IH as [|p ps Hp _ IHps]; simpl; [done|]; by rewrite !map_app, (Hp b0 b'), IHps.
Qed.

(** A relation on the states of a collector that composes along a compilation: [n] bounds the
    subqueries met, and the last argument is the leaves compiled, or nothing on an error. *)
Record Composes {S : Type} (R : nat -> S -> S -> option (list str) -> Prop) : Prop := {
  cp_nil : forall s, R 0%nat s s (Some []);
  cp_err : forall s, R 0%nat s s None;
  cp_app : forall a b s1 s2 s3 l1 l2, R a s1 s2 (Some l1) -> R b s2 s3 l2 ->
    R (a + b)%nat s1 s3 (app l1 <$> l2);
  cp_stop : forall a b s1 s2, R a s1 s2 None -> R (a + b)%nat s1 s2 None
}.

Definition leaves_of (r : res str CompiledPredicate) : option (list str) :=
  match r with Ok c => Some (leaf_sigs c) | Err _ => None end.
Definition sig_of (r : res str str) : option (list str) :=
  match r with Ok s => Some [s] | Err _ => None end.

Section any.
Context {FT : FloatText} {S : Type} {C : SubqueryCollector S}.
Context (R : nat -> S -> S -> option (list str) -> Prop) (HR : Composes R).

(** The children of a conjunction or a disjunction. *)
Fixpoint compile_all (ps : list PredicateJson) (ts : TableSchema) (s : S)
    : S * res str (list CompiledPredicate) :=
  match ps with
  | [] => (s, Ok [])
  | q :: qs =>
      match compile_with q ts s with
      | (s, Err e) => (s, Err e)
      | (s, Ok c) => match compile_all qs ts s with
                     | (s, Err e) => (s, Err e)
                     | (s, Ok cs) => (s, Ok (c :: cs))
                     end
      end
  end.
Lemma compile_with_all ps ts s :
  compile_with (PAnd ps) ts s = (let '(s, r) := compile_all ps ts s in (s, CAnd <$> r)) /\
  compile_with (POr ps) ts s = (let '(s, r) := compile_all ps ts s in (s, COr <$> r)).
Proof.
  simpl. set (go := fix go (ps : list PredicateJson) (s : S) : S * _ := _).
  assert (H : go ps s = compile_all ps ts s); [|by rewrite H].
  revert s. induction ps as [|p ps IH]; intros s; simpl; [done|].
  destruct (compile_with p ts s) as [s1 [c|e]]; [|done]. by rewrite IH.
Qed.

Lemma compile_all_runs ps ts : Forall (λ p, forall s,
    R (length (nested p)) s (compile_with p ts s).1 (leaves_of (compile_with p ts s).2)) ps ->
  forall s, R (length (concat (map nested ps))) s (compile_all ps ts s).1
    (match (compile_all ps ts s).2 with Ok cs => Some (concat (map leaf_sigs cs)) | Err _ => None end).
Proof.
  induction 1 as [|p ps Hp _ IHps]; intros s; simpl in *; [apply HR|]. rewrite length_app. specialize (Hp s).
  destruct (compile_with p ts s) as [s1 [c|e]]; simpl in *; [|by apply HR].
  specialize (IHps s1). pose proof (cp_app _ HR _ _ _ _ _ _ _ Hp IHps) as Ha.
  by destruct (compile_all ps ts s1) as [s2 [cs|e]].
Qed.

Lemma leaf_sigs_children cs b : map il_sig (concat (map (λ q, in_leaves q b) cs)) = concat (map leaf_sigs cs).
Proof.
  induction cs as [|c cs IH]; simpl; [done|]. by rewrite map_app, leaf_sigs_flip, IH.
Qed.

Lemma compile_with_runs p : (forall t pr w s, (t, pr, w) ∈ sub_queries p ->
    R (length ((t, pr, w) :: inner w)) s (collect s t pr w).1 (sig_of (collect s t pr w).2)) ->
  forall ts s, R (length (nested p)) s (compile_with p ts s).1 (leaves_of (compile_with p ts s).2).
Proof.
  induction p as [c o v|c b|ps IH|ps IH|p IH|c t pr w n _] using PredicateJson_rect'; intros Hc ts s.
  1: simpl; destruct (column_index ts c) as [idx|e]; simpl; [|apply HR];
     destruct (ok_or _ _) as [ty|e]; simpl; [|apply HR]; destruct (literal_from_json v ty); simpl; apply HR.
  1: simpl; destruct (column_index ts c); simpl; apply HR.
  1,2: destruct (compile_with_all ps ts s) as [Ha Ho]; first [rewrite Ha; clear Ho|rewrite Ho; clear Ha];
       specialize (compile_all_runs ps ts);
       intros Hall; specialize (Hall ltac:(apply Forall_forall; intros q Hq s'; rewrite Forall_forall in IH;
         apply IH; [done|]; intros t pr w s'' Hin; apply Hc; simpl;
         apply list_elem_of_In, in_concat; exists (sub_queries q); split;
         [by apply in_map, list_elem_of_In|by apply list_elem_of_In]) s);
       destruct (compile_all ps ts s) as [s1 [cs|e]]; simpl in *; [|done];
       unfold leaf_sigs, collect_in_leaves; simpl; by rewrite leaf_sigs_children.
  - simpl. specialize (IH Hc ts s). destruct (compile_with p ts s) as [s1 [c|e]]; simpl in *; [|done].
    unfold leaf_sigs, collect_in_leaves. simpl. by rewrite leaf_sigs_flip.
  - simpl. destruct (column_index ts c) as [idx|e]; [|by apply (cp_stop _ HR 0), HR].
    specialize (Hc t pr w s ltac:(by left)). simpl in Hc.
    destruct (collect s t pr w) as [s1 [sig|e]]; done.
Qed.

Lemma compile_opt_with_runs w : (forall t pr w' s, (t, pr, w') ∈ match w with Some p => sub_queries p | None => [] end ->
    R (length ((t, pr, w') :: inner w')) s (collect s t pr w').1 (sig_of (collect s t pr w').2)) ->
  forall ts s, R (length (inner w)) s (compile_opt_with w ts s).1 (leaves_of (compile_opt_with w ts s).2).
Proof. destruct w as [p|]; simpl; [apply compile_with_runs|intros _ ts s; apply HR]. Qed.
End any.

(* ------------------------------------------------------------------ *)
(** ** The registry as a collector *)

Section undo.
Context {FT : FloatText} {FE : FaultEnv} {SJ : SerdeJson} {D : Type} {MP : MembershipPipeline D}.
Implicit Types (reg : SubqueryRegistry D).

(** The node bound to a bind of a template. *)
Definition bound reg (k : str) (b : Row) : option SubquerySig :=
  t ← r_templates reg !! k; (tg_binds t !! b).

Definition query_sig (q : Query) : SubquerySig := subquery_sig q.1.1 q.1.2 q.2.

(** Where a query is filed among the templates. *)
Definition slot (schemas : SchemaMap) (q : Query) : option (str * Row) :=
  ts ← schemas !! q.1.1;
  let '(tkey, lits, _) := subquery_template q.1.1 q.1.2 q.2 in
  match bind_columns ts lits with Ok (_, vals) => Some (tkey, rkey vals) | Err _ => None end.

(** What a create starts from. *)
Record creatable reg : Prop := {
  cr_refs : forall s n, r_nodes reg !! s = Some n -> (0 < n_refcount n)%nat;
  cr_ids : forall i s, r_node_by_id reg !! i = Some s -> is_Some (r_nodes reg !! s);
  cr_low : forall i s, r_node_by_id reg !! i = Some s -> i < r_next_node_id reg;
  cr_binds : forall k b s, bound reg k b = Some s -> is_Some (r_nodes reg !! s);
  cr_filled : forall k t, r_templates reg !! k = Some t -> tg_binds t <> ∅;
  cr_next : 0 < r_next_node_id reg;
  cr_idle : r_pending_seed reg = [] /\ r_staged_edges reg = [] /\ r_collect_log reg = []
}.

(** Two queries of a create, or one of them and a registered node, are never filed in one place
    unless they are the same. *)
Definition clash_free reg (Q : list Query) : Prop :=
  forall q k b, q ∈ Q -> slot (r_schemas reg) q = Some (k, b) ->
    (forall s, bound reg k b = Some s -> s = query_sig q) /\
    (forall q', q' ∈ Q -> slot (r_schemas reg) q' = Some (k, b) -> query_sig q' = query_sig q).

(** Everything a compilation leaves alone. *)
Definition untouched reg :=
  (r_edges reg, r_shapes reg, r_shape_index reg, r_circuit reg, r_pk_dict reg, r_next_feed_id reg,
   r_feed_by_id reg, r_feed_sets reg, r_pending_shapes reg, r_schemas reg, r_sent reg).

Context (reg0 : SubqueryRegistry D) (Q : list Query).

Definition is_fresh reg (s : SubquerySig) (n : SubqueryNode) : Prop :=
  r_nodes reg0 !! s = None /\ r_nodes reg !! s = Some n.

(** [reg] is [reg0] with the references of [l] taken on top. *)
Record undoable reg (l : list SubquerySig) : Prop := {
  ud_old : forall s n, r_nodes reg0 !! s = Some n ->
    r_nodes reg !! s = Some (node_with_refcount (n_refcount n + occ s l) n);
  ud_new : forall s, r_nodes reg0 !! s = None ->
    match r_nodes reg !! s with
    | Some n => n_refcount n = occ s l /\ (0 < occ s l)%nat
    | None => occ s l = 0%nat
    end;
  ud_ids : forall i s, r_node_by_id reg !! i = Some s <->
    r_node_by_id reg0 !! i = Some s \/ exists n, is_fresh reg s n /\ n_node_id n = i;
  ud_low : forall i s, r_node_by_id reg !! i = Some s -> i < r_next_node_id reg;
  ud_binds : forall k b s, bound reg k b = Some s <->
    bound reg0 k b = Some s \/ exists n, is_fresh reg s n /\ n_template_key n = k /\ n_bind n = b;
  ud_templates : forall k t, r_templates reg0 !! k = Some t -> exists t',
    r_templates reg !! k = Some t' /\ t' = template_with (tg_binds t') (tg_pk_nodes t) t;
  ud_filled : forall k t, r_templates reg !! k = Some t -> tg_binds t <> ∅;
  ud_slots : forall s n, is_fresh reg s n -> exists q, q ∈ Q /\ s = query_sig q /\
    slot (r_schemas reg0) q = Some (n_template_key n, n_bind n);
  ud_seeds : forall s, s ∈ r_pending_seed reg -> exists n, is_fresh reg s n;
  ud_rest : untouched reg = untouched reg0
}.

Lemma fresh_old reg l s n n0 : undoable reg l -> r_nodes reg0 !! s = Some n0 -> ~ is_fresh reg s n.
Proof. intros _ Hs [? _]. congruence. Qed.

Lemma undo_start : creatable reg0 -> undoable (set_collect_log [] (set_staged_edges [] reg0)) [].
Proof.
  intros [Hr Hi Hl Hb Hf Hn (Hp & _ & _)].
  assert (Hno : forall s n, ~ is_fresh (set_collect_log [] (set_staged_edges [] reg0)) s n)
    by (intros s n [? ?]; simpl in *; congruence).
  split; simpl.
  - intros s n Hs. rewrite Hs. f_equal. rewrite occ_nil, Nat.add_0_r. by destruct n.
  - intros s Hs. by rewrite Hs.
  - intros i s. split; [by left|]. intros [?|(n & Hx & _)]; [done|]. by destruct (Hno s n).
  - exact Hl.
  - intros k b s. split; [by left|]. intros [?|(n & Hx & _)]; [done|]. by destruct (Hno s n).
  - intros k t Ht. exists t. split; [done|by destruct t].
  - exact Hf.
  - intros s n Hx. by destruct (Hno s n).
  - rewrite Hp. by intros s ?%elem_of_nil.
  - done.
Qed.

(** Nothing left to undo. *)
Lemma undo_done reg : creatable reg0 -> undoable reg [] ->
  reg = set_staged_edges (r_staged_edges reg) (set_collect_log (r_collect_log reg)
          (set_next_node_id (r_next_node_id reg) reg0)).
Proof.
  intros Hc Hu.
  assert (Hno : forall s n, ~ is_fresh reg s n).
  { intros s n [Hs Hn]. pose proof (ud_new _ _ Hu s Hs) as H. rewrite Hn, occ_nil in H. lia. }
  assert (Hnodes : r_nodes reg = r_nodes reg0).
  { apply map_eq. intros s. destruct (r_nodes reg0 !! s) as [n|] eqn:E.
    - rewrite (ud_old _ _ Hu _ _ E), occ_nil, Nat.add_0_r. by destruct n.
    - destruct (r_nodes reg !! s) as [n|] eqn:E'; [|done]. by destruct (Hno s n). }
  assert (Hids : r_node_by_id reg = r_node_by_id reg0).
  { apply map_eq. intros i. apply option_eq. intros s. rewrite (ud_ids _ _ Hu). split; [|by left].
    intros [?|(n & Hx & _)]; [done|]. by destruct (Hno s n). }
  assert (Hbinds : forall k b, bound reg k b = bound reg0 k b).
  { intros k b. apply option_eq. intros s. rewrite (ud_binds _ _ Hu). split; [|by left].
    intros [?|(n & Hx & _)]; [done|]. by destruct (Hno s n). }
  assert (Htemplates : r_templates reg = r_templates reg0).
  { apply map_eq. intros k. destruct (r_templates reg0 !! k) as [t|] eqn:E.
    - destruct (ud_templates _ _ Hu _ _ E) as (t' & Ht' & He). rewrite Ht'. f_equal. rewrite He.
      assert (Hb : tg_binds t' = tg_binds t).
      { apply map_eq. intros b. specialize (Hbinds k b). unfold bound in Hbinds. by rewrite Ht', E in Hbinds. }
      rewrite Hb. by destruct t.
    - destruct (r_templates reg !! k) as [t|] eqn:E'; [|done]. exfalso.
      destruct (map_choose _ (ud_filled _ _ Hu _ _ E')) as (b & s & Hb). specialize (Hbinds k b).
      unfold bound in Hbinds. rewrite E', E in Hbinds. simpl in Hbinds. congruence. }
  assert (Hseed : r_pending_seed reg = r_pending_seed reg0).
  { rewrite (proj1 (cr_idle _ Hc)). destruct (r_pending_seed reg) as [|s l] eqn:E; [done|].
    destruct (ud_seeds _ _ Hu s) as [n Hn]; [rewrite E; by left|]. by destruct (Hno s n). }
  pose proof (ud_rest _ _ Hu) as Hrest. clear Hno Hbinds Hu Hc. destruct reg, reg0. unfold untouched in Hrest. simpl in *.
  injection Hrest as -> -> -> -> -> -> -> -> -> -> ->. by subst.
Qed.
(** ** Changing reference counts *)

Definition node_entry (n : SubqueryNode) := (n_node_id n, n_template_key n, n_bind n).

Lemma undo_nodes reg l m l' : undoable reg l ->
  (forall s, node_entry <$> m !! s = node_entry <$> r_nodes reg !! s) ->
  (forall s n, r_nodes reg0 !! s = Some n -> m !! s = Some (node_with_refcount (n_refcount n + occ s l') n)) ->
  (forall s, r_nodes reg0 !! s = None ->
    match m !! s with Some n => n_refcount n = occ s l' /\ (0 < occ s l')%nat | None => occ s l' = 0%nat end) ->
  undoable (set_nodes m reg) l'.
Proof.
  intros Hu Hm Hold Hnew.
  assert (Hto : forall s n, is_fresh (set_nodes m reg) s n -> exists n', is_fresh reg s n' /\ node_entry n' = node_entry n).
  { intros s n [Hs Hn]. simpl in Hn. specialize (Hm s). rewrite Hn in Hm. symmetry in Hm. simpl in Hm.
    apply fmap_Some in Hm as (n' & Hn' & He). by exists n'. }
  assert (Hfrom : forall s n, is_fresh reg s n -> exists n', is_fresh (set_nodes m reg) s n' /\ node_entry n' = node_entry n).
  { intros s n [Hs Hn]. specialize (Hm s). rewrite Hn in Hm. simpl in Hm.
    apply fmap_Some in Hm as (n' & Hn' & He). by exists n'. }
  split; simpl; [done|done| |apply Hu| |apply Hu|apply Hu| | |apply Hu].
  - intros i s. rewrite (ud_ids _ _ Hu). f_equiv. split.
    + intros (n & (n' & Hx & He)%Hfrom & <-). exists n'. split; [done|]. by injection He.
    + intros (n & (n' & Hx & He)%Hto & <-). exists n'. split; [done|]. by injection He.
  - intros k b s. change (bound (set_nodes m reg) k b) with (bound reg k b). rewrite (ud_binds _ _ Hu). f_equiv. split.
    + intros (n & (n' & Hx & He)%Hfrom & <- & <-). exists n'. injection He as _ ? ?. by split_and!.
    + intros (n & (n' & Hx & He)%Hto & <- & <-). exists n'. injection He as _ ? ?. by split_and!.
  - intros s n (n' & Hx & He)%Hto. injection He as _ <- <-. by apply (ud_slots _ _ Hu).
  - intros s (n & Hx)%(ud_seeds _ _ Hu). destruct (Hfrom _ _ Hx) as (n' & ? & _). by exists n'.
Qed.

(** One more or one fewer reference to a node that stays. *)
Lemma undo_recount reg l s n c l' : undoable reg l -> r_nodes reg !! s = Some n ->
  (forall s', s' <> s -> occ s' l' = occ s' l) ->
  (forall n0, r_nodes reg0 !! s = Some n0 -> c = (n_refcount n0 + occ s l')%nat) ->
  (r_nodes reg0 !! s = None -> c = occ s l' /\ (0 < occ s l')%nat) ->
  undoable (set_nodes (<[s := node_with_refcount c n]> (r_nodes reg)) reg) l'.
Proof.
  intros Hu Hn Hoff Hold Hnew. apply (undo_nodes reg l); [done|..].
  - intros s'. destruct (decide (s' = s)) as [->|Hne]; [by rewrite lookup_insert_eq, Hn|by rewrite lookup_insert_ne].
  - intros s' n0 Hs'. pose proof (ud_old _ _ Hu _ _ Hs') as Ho. destruct (decide (s' = s)) as [->|Hne].
    + rewrite lookup_insert_eq. rewrite Ho in Hn. injection Hn as <-. by rewrite (Hold _ Hs').
    + by rewrite lookup_insert_ne, Hoff.
  - intros s' Hs'. destruct (decide (s' = s)) as [->|Hne].
    + rewrite lookup_insert_eq. by destruct (Hnew Hs').
    + rewrite lookup_insert_ne, Hoff by done. by apply (ud_new _ _ Hu).
Qed.

(** Removing a fresh node whose last reference goes. *)
Lemma undo_remove reg l s n c : creatable reg0 -> undoable reg (s :: l) -> is_fresh reg s n -> occ s l = 0%nat ->
  undoable (forget_seed s (remove_node_entry (node_with_refcount c n) (set_nodes (delete s (r_nodes reg)) reg))) l.
Proof.
  intros Hc Hu [Hs0 Hn] Hz.
  assert (Hfr : forall reg', r_nodes reg' = delete s (r_nodes reg) -> forall s' n', is_fresh reg' s' n' <-> s' <> s /\ is_fresh reg s' n').
  { intros reg' Hr s' n'. unfold is_fresh. rewrite Hr, lookup_delete_Some. naive_solver. }
  set (reg1 := remove_node_entry _ _).
  assert (Hnodes : r_nodes reg1 = delete s (r_nodes reg))
    by (unfold reg1, remove_node_entry; simpl; by destruct (r_templates reg !! n_template_key n)).
  assert (Hids : r_node_by_id reg1 = delete (n_node_id n) (r_node_by_id reg))
    by (unfold reg1, remove_node_entry; simpl; by destruct (r_templates reg !! n_template_key n)).
  assert (Hbs : bound reg (n_template_key n) (n_bind n) = Some s)
    by (apply (ud_binds _ _ Hu); right; exists n; by split_and!).
  apply bind_Some in Hbs as (t & Ht & Htb).
  assert (Ht1 : r_templates reg1 = if bool_decide (delete (n_bind n) (tg_binds t) = ∅)
            then delete (n_template_key n) (r_templates reg)
            else <[n_template_key n := template_with (delete (n_bind n) (tg_binds t)) (tg_pk_nodes t) t]> (r_templates reg)).
  { unfold reg1, remove_node_entry. simpl. by rewrite Ht. }
  assert (Hb1 : forall k b, bound reg1 k b = if decide (k = n_template_key n /\ b = n_bind n) then None else bound reg k b).
  { intros k b. unfold bound. rewrite Ht1. case_bool_decide as He.
    - destruct (decide (k = n_template_key n)) as [->|Hk].
      + rewrite lookup_delete_eq, Ht. simpl. case_decide as Hkb; [done|].
        apply (f_equal (.!! b)) in He. rewrite lookup_empty, lookup_delete_ne in He; [done|]. naive_solver.
      + rewrite lookup_delete_ne by done. rewrite decide_False by naive_solver. done.
    - destruct (decide (k = n_template_key n)) as [->|Hk].
      + rewrite lookup_insert_eq, Ht. simpl. case_decide as Hkb; [destruct Hkb as [_ ->]; by rewrite lookup_delete_eq|].
        rewrite lookup_delete_ne; [done|]. naive_solver.
      + rewrite lookup_insert_ne by done. rewrite decide_False by naive_solver. done. }
  assert (Hsame : forall i s', r_node_by_id reg !! i = Some s' -> i = n_node_id n -> s' = s).
  { intros i s' Hi ->. assert (r_node_by_id reg !! n_node_id n = Some s); [|congruence].
    apply (ud_ids _ _ Hu). right. by exists n. }
  assert (Hsameb : forall s', bound reg (n_template_key n) (n_bind n) = Some s' -> s' = s)
    by (intros s' Hx; unfold bound in Hx; rewrite Ht in Hx; simpl in Hx; congruence).
  split; simpl.
  - intros s' n0 Hs'. rewrite Hnodes, lookup_delete_ne by congruence.
    rewrite (ud_old _ _ Hu _ _ Hs'), occ_cons, decide_False by congruence. done.
  - intros s' Hs'. rewrite Hnodes. destruct (decide (s' = s)) as [->|Hne]; [by rewrite lookup_delete_eq|].
    rewrite lookup_delete_ne by done. pose proof (ud_new _ _ Hu s' Hs') as H.
    rewrite occ_cons, decide_False in H by done. exact H.
  - intros i s'. rewrite Hids, lookup_delete_Some, (ud_ids _ _ Hu). setoid_rewrite (Hfr reg1 Hnodes). split.
    + intros [Hi [H|(n' & Hx & He)]]; [by left|right]. exists n'. split_and!; [|done|done]. intros ->.
      destruct Hx as [_ Hx]. congruence.
    + intros H. assert (Hi : r_node_by_id reg !! i = Some s').
      { apply (ud_ids _ _ Hu). destruct H as [H|(n' & [_ Hx] & He)]; [by left|right; eauto]. }
      split; [|destruct H as [H|(n' & [_ Hx] & He)]; [by left|right; eauto]].
      intros <-. pose proof (Hsame _ _ Hi eq_refl) as ->. destruct H as [H|(n' & [Hne _] & _)]; [|done].
      apply (cr_ids _ Hc) in H as [? ?]. congruence.
  - intros i s'. rewrite Hids, lookup_delete_Some. intros [_ Hi]. unfold reg1, remove_node_entry. simpl.
    apply (ud_low _ _ Hu) in Hi. by destruct (r_templates reg !! n_template_key n).
  - intros k b s'. change (bound (forget_seed s reg1) k b) with (bound reg1 k b).
    rewrite Hb1. setoid_rewrite (Hfr (forget_seed s reg1) Hnodes).
    destruct (decide (k = n_template_key n /\ b = n_bind n)) as [Hkb|Hkb].
    + destruct Hkb as [-> ->]. split; [done|]. intros H. exfalso.
      assert (Hx : bound reg (n_template_key n) (n_bind n) = Some s').
      { apply (ud_binds _ _ Hu). destruct H as [H|(n' & [_ Hx] & He)]; [by left|right; eauto]. }
      pose proof (Hsameb _ Hx) as ->. destruct H as [H|(n' & [Hne _] & _)]; [|done].
      apply (cr_binds _ Hc) in H as [? ?]. congruence.
    + rewrite (ud_binds _ _ Hu). split.
      * intros [H|(n' & Hx & Hk & Hb)]; [by left|right]. exists n'. split_and!; [|done..]. intros ->.
        destruct Hx as [_ Hx]. rewrite Hn in Hx. injection Hx as <-. by apply Hkb.
      * intros [H|(n' & [_ Hx] & He)]; [by left|right; eauto].
  - intros k t0 Hk. destruct (ud_templates _ _ Hu _ _ Hk) as (t' & Ht' & He). rewrite Ht1.
    destruct (decide (k = n_template_key n)) as [->|Hne].
    + assert (t' = t) as -> by congruence. rewrite bool_decide_eq_false_2.
      * rewrite lookup_insert_eq. eexists. split; [done|]. rewrite He at 2 3. simpl. rewrite He. done.
      * intros Hem. destruct (map_choose _ (cr_filled _ Hc _ _ Hk)) as (b & s' & Hb).
        assert (H0 : bound reg0 (n_template_key n) b = Some s') by (unfold bound; by rewrite Hk).
        assert (H1 : bound reg (n_template_key n) b = Some s') by (apply (ud_binds _ _ Hu); by left).
        unfold bound in H1. rewrite Ht in H1. simpl in H1.
        assert (b <> n_bind n).
        { intros ->. assert (s' = s) as -> by congruence. apply (cr_binds _ Hc) in H0 as [? ?]. congruence. }
        apply (f_equal (.!! b)) in Hem. rewrite lookup_empty, lookup_delete_ne in Hem by done. congruence.
    + exists t'. split; [|done]. case_bool_decide; [by rewrite lookup_delete_ne|by rewrite lookup_insert_ne].
  - intros k t'. rewrite Ht1. case_bool_decide as He.
    + rewrite lookup_delete_Some. intros [_ Hk]. by eapply ud_filled.
    + rewrite lookup_insert_Some. intros [[_ <-]|[_ Hk]]; [done|by eapply ud_filled].
  - intros s' n' (Hne & Hx)%(Hfr (forget_seed s reg1) Hnodes). by apply (ud_slots _ _ Hu).
  - intros s' [Hne Hin]%list_elem_of_filter.
    assert (Hp : r_pending_seed reg1 = r_pending_seed reg)
      by (unfold reg1, remove_node_entry; simpl; by destruct (r_templates reg !! n_template_key n)).
    rewrite Hp in Hin. apply (ud_seeds _ _ Hu) in Hin as (n' & Hx). exists n'.
    by apply (Hfr (forget_seed s reg1) Hnodes).
  - rewrite <- (ud_rest _ _ Hu). unfold reg1, remove_node_entry. simpl.
    by destruct (r_templates reg !! n_template_key n).
Qed.

Lemma undo_rollback reg s l : creatable reg0 -> undoable reg (s :: l) -> undoable (rollback_ref reg s) l.
Proof.
  intros Hc Hu. unfold rollback_ref.
  destruct (r_nodes reg0 !! s) as [n0|] eqn:E0.
  - pose proof (ud_old _ _ Hu _ _ E0) as Hn. rewrite Hn. pose proof (cr_refs _ Hc _ _ E0) as Hp.
    rewrite occ_cons, decide_True in Hn |- * by done. simpl.
    rewrite bool_decide_eq_false_2 by lia. eapply undo_recount; [exact Hu|exact Hn|..].
    + intros s' Hne. by rewrite occ_cons, decide_False.
    + intros n Hn0. rewrite E0 in Hn0. injection Hn0 as <-. lia.
    + congruence.
  - pose proof (ud_new _ _ Hu s E0) as Hn. rewrite occ_cons, decide_True in Hn by done.
    destruct (r_nodes reg !! s) as [n|] eqn:En; [|lia]. destruct Hn as [Hr _]. simpl. case_bool_decide as Hz.
    + apply undo_remove; [done..|lia].
    + eapply undo_recount; [exact Hu|exact En|..].
      * intros s' Hne. by rewrite occ_cons, decide_False.
      * congruence.
      * lia.
Qed.

(** Rolling back the whole log restores the registry, up to the next node number. *)
Lemma undo_rollbacks l : forall reg, creatable reg0 -> undoable reg l -> undoable (foldl rollback_ref reg l) [].
Proof.
  induction l as [|s l IH]; intros reg Hc Hu; simpl; [done|]. apply IH; [done|]. by apply undo_rollback.
Qed.
(** ** Registering a node *)

Lemma enter_template_ok tkey fresh bind sig reg reg' : enter_template tkey fresh bind sig reg = (reg', Ok ()) ->
  (forall t, fresh = Ok t -> tg_binds t = ∅) ->
  exists t, (r_templates reg !! tkey = Some t \/ (r_templates reg !! tkey = None /\ fresh = Ok t)) /\
    reg' = set_templates (<[tkey := template_with (<[bind := sig]> (tg_binds t)) (tg_pk_nodes t) t]> (r_templates reg)) reg.
Proof.
  unfold enter_template. intros He Hf. destruct (r_templates reg !! tkey) as [t|] eqn:E.
  - injection He as <-. exists t. split; [by left|]. unfold on_template. f_equal. apply map_eq. intros k.
    rewrite lookup_alter. case_decide; [subst k|by rewrite lookup_insert_ne]. by rewrite E, lookup_insert_eq.
  - destruct fresh as [t|e]; [|done]. injection He as <-. exists t. split; [by right|].
    unfold on_template. simpl. unfold set_templates. simpl. f_equal. apply map_eq. intros k.
    rewrite lookup_alter. case_decide; [subst k|by rewrite !lookup_insert_ne]. by rewrite !lookup_insert_eq.
Qed.

Lemma enter_template_err tkey fresh bind sig reg reg' e :
  enter_template tkey fresh bind sig reg = (reg', Err e) -> reg' = reg.
Proof. unfold enter_template. destruct (r_templates reg !! tkey); [done|]. destruct fresh; [done|]. by intros [= <-]. Qed.

Lemma occ_snoc {A : Type} `{EqDecision A} (x y : A) l : occ x (l ++ [y]) = (occ x l + if decide (y = x) then 1 else 0)%nat.
Proof. rewrite occ_app, occ_cons, occ_nil. lia. Qed.

(** The slot of an unregistered query is free. *)
Lemma slot_free reg l q k b : creatable reg0 -> clash_free reg0 Q -> undoable reg l -> q ∈ Q ->
  slot (r_schemas reg0) q = Some (k, b) -> r_nodes reg !! query_sig q = None -> bound reg k b = None.
Proof.
  intros Hc Hcf Hu Hq Hs Hn. destruct (Hcf q k b Hq Hs) as [H1 H2]. apply eq_None_not_Some.
  intros [s [Hb|(n & Hx & <- & <-)]%(ud_binds _ _ Hu)].
  - pose proof (H1 _ Hb) as ->. apply (cr_binds _ Hc) in Hb as [n0 Hn0].
    apply (ud_old _ _ Hu) in Hn0. congruence.
  - destruct (ud_slots _ _ Hu _ _ Hx) as (q' & Hq' & -> & Hs'). destruct Hx as [_ Hx].
    rewrite (H2 q' Hq' Hs') in Hx. congruence.
Qed.

Lemma undo_register reg l q t node : creatable reg0 -> clash_free reg0 Q -> undoable reg l -> q ∈ Q ->
  let sig := query_sig q in let id := n_node_id node in
  let tkey := n_template_key node in let bind := n_bind node in
  r_nodes reg !! sig = None -> slot (r_schemas reg0) q = Some (tkey, bind) ->
  n_refcount node = 1%nat -> (forall i s, r_node_by_id reg !! i = Some s -> i < id) -> id < r_next_node_id reg ->
  (r_templates reg !! tkey = Some t \/ (r_templates reg !! tkey = None /\ tg_binds t = ∅)) ->
  undoable (set_pending_seed (r_pending_seed reg ++ [sig]) (log_collect sig
    (set_node_by_id (<[id := sig]> (r_node_by_id reg)) (set_nodes (<[sig := node]> (r_nodes reg))
      (set_templates (<[tkey := template_with (<[bind := sig]> (tg_binds t)) (tg_pk_nodes t) t]> (r_templates reg)) reg)))))
    (l ++ [sig]).
Proof.
  intros Hc Hcf Hu Hq sig id tkey bind Hn Hslot Hrc Hlow Hid Ht. set (reg' := set_pending_seed _ _).
  pose proof (slot_free _ _ _ _ _ Hc Hcf Hu Hq Hslot Hn) as Hfree. fold sig in Hn.
  assert (Hn0 : r_nodes reg0 !! sig = None).
  { destruct (r_nodes reg0 !! sig) as [n0|] eqn:E; [|done]. apply (ud_old _ _ Hu) in E. congruence. }
  assert (Hocc : occ sig l = 0%nat) by (pose proof (ud_new _ _ Hu _ Hn0) as H; by rewrite Hn in H).
  assert (Hfr : forall s n, is_fresh reg' s n <-> (s = sig /\ n = node) \/ is_fresh reg s n).
  { intros s n. unfold is_fresh. change (r_nodes reg') with (<[sig := node]> (r_nodes reg)).
    rewrite lookup_insert_Some. split; [intros [? [[<- <-]|[? ?]]]; auto|].
    intros [[-> ->]|[? ?]]; [by auto|]. split; [done|]. right. split; [|done]. intros <-. congruence. }
  assert (Hb : forall k b, bound reg' k b = if decide (k = tkey /\ b = bind) then Some sig else bound reg k b).
  { intros k b. unfold bound.
    change (r_templates reg') with (<[tkey := template_with (<[bind := sig]> (tg_binds t)) (tg_pk_nodes t) t]> (r_templates reg)).
    destruct (decide (k = tkey)) as [->|Hk].
    - rewrite lookup_insert_eq. simpl. destruct (decide (b = bind)) as [->|Hbn].
      + by rewrite lookup_insert_eq, decide_True.
      + rewrite lookup_insert_ne, decide_False by naive_solver. destruct Ht as [->|[-> ->]]; [done|]. by rewrite lookup_empty.
    - rewrite lookup_insert_ne by done. by rewrite decide_False by naive_solver. }
  split.
  - intros s n Hs. change (r_nodes reg') with (<[sig := node]> (r_nodes reg)). rewrite lookup_insert_ne by congruence.
    rewrite (ud_old _ _ Hu _ _ Hs), occ_snoc, decide_False by congruence. by rewrite Nat.add_0_r.
  - intros s Hs. change (r_nodes reg') with (<[sig := node]> (r_nodes reg)). rewrite occ_snoc.
    destruct (decide (sig = s)) as [<-|Hne]; [rewrite lookup_insert_eq; lia|].
    rewrite lookup_insert_ne, Nat.add_0_r by done. by apply (ud_new _ _ Hu).
  - intros i s. change (r_node_by_id reg') with (<[id := sig]> (r_node_by_id reg)). setoid_rewrite Hfr.
    rewrite lookup_insert_Some, (ud_ids _ _ Hu). split.
    + intros [[<- <-]|[_ [H|(n & Hx & He)]]]; [right; exists node; by auto|by left|right; by eauto].
    + intros H. destruct (decide (id = i)) as [<-|Hne].
      * left. split; [done|]. destruct H as [H|(n & [[-> _]|Hx] & He)]; [|done|].
        -- exfalso. enough (id < id) by lia. apply (Hlow id s). apply (ud_ids _ _ Hu). by left.
        -- exfalso. enough (id < id) by lia. apply (Hlow id s). apply (ud_ids _ _ Hu). right. by exists n.
      * right. split; [done|]. destruct H as [H|(n & [[-> ->]|Hx] & He)]; [by left|done|right; by eauto].
  - intros i s. change (r_node_by_id reg') with (<[id := sig]> (r_node_by_id reg)).
    change (r_next_node_id reg') with (r_next_node_id reg).
    rewrite lookup_insert_Some. intros [[<- _]|[_ Hi]]; [done|by apply (ud_low _ _ Hu) in Hi].
  - intros k b s. rewrite Hb. setoid_rewrite Hfr. case_decide as Hkb.
    + destruct Hkb as [-> ->]. split; [intros [= <-]; right; exists node; by auto|].
      intros H. f_equal. destruct H as [H|(n & [[-> _]|Hx] & He)]; [|done|]; exfalso.
      * enough (bound reg tkey bind = Some s) by congruence. apply (ud_binds _ _ Hu). by left.
      * enough (bound reg tkey bind = Some s) by congruence. apply (ud_binds _ _ Hu). right. by exists n.
    + rewrite (ud_binds _ _ Hu). split.
      * intros [H|(n & Hx & He)]; [by left|right; by eauto].
      * intros [H|(n & [[-> ->]|Hx] & He)]; [by left| |right; by eauto]. exfalso. apply Hkb. by destruct He as [<- <-].
  - intros k t0 Hk.
    change (r_templates reg') with (<[tkey := template_with (<[bind := sig]> (tg_binds t)) (tg_pk_nodes t) t]> (r_templates reg)).
    destruct (ud_templates _ _ Hu _ _ Hk) as (t' & Ht' & He). destruct (decide (k = tkey)) as [->|Hne].
    + rewrite lookup_insert_eq. eexists. split; [done|]. destruct Ht as [Ht|[Ht _]]; [|congruence].
      assert (t' = t) as -> by congruence. rewrite He at 2 3. simpl. by rewrite He.
    + exists t'. by rewrite lookup_insert_ne.
  - intros k t'.
    change (r_templates reg') with (<[tkey := template_with (<[bind := sig]> (tg_binds t)) (tg_pk_nodes t) t]> (r_templates reg)).
    rewrite lookup_insert_Some. intros [[_ <-]|[_ Hk]]; [|by eapply ud_filled]. simpl. apply insert_non_empty.
  - intros s n [[-> ->]|Hx]%Hfr; [by exists q|by apply (ud_slots _ _ Hu)].
  - intros s. change (r_pending_seed reg') with (r_pending_seed reg ++ [sig]). rewrite elem_of_app, list_elem_of_singleton.
    setoid_rewrite Hfr. intros [(n & Hx)%(ud_seeds _ _ Hu)| ->]; [by eauto|]. exists node. by auto.
  - exact (ud_rest _ _ Hu).
Qed.
End undo.
