(* ===== verification/SubqAtomic.v ===== *)
(** * Creates are atomic and counted

    A create that is refused, by an unknown table or column, a bad literal or a conflict with
    another create, leaves the registry as it was; one that is accepted takes exactly the references
    its dependents need. *)

From S2P Require Import Prelude BTree Value TableRef Schema Predicate Gate Output Executors.
From S2P Require Import Sequencer PkDict SubqIndex SubqCircuit Subquery SubqueryFacts SubqCreate SubqCompile.
From stdpp Require Import base option numbers strings gmap fin_maps sorting list.
#[local] Open Scope Z_scope.

#[export] Instance Edge_eq_dec : EqDecision Edge.
Proof. solve_decision. Defined.

Section atomic.
Context {FT : FloatText} {FE : FaultEnv} {SJ : SerdeJson} {D : Type} {MP : MembershipPipeline D}.
Implicit Types (reg : SubqueryRegistry D).

(** ** What the nodes depend on *)

Definition node_preds reg : gmap str CompiledPredicate := n_pred <$> r_nodes reg.
(** The references the nodes take, and the edges that say so. *)
Definition refs_of (ps : gmap str CompiledPredicate) : list SubquerySig :=
  concat (map (λ sp, leaf_sigs sp.2) (map_to_list ps)).
Definition edges_from (ps : gmap str CompiledPredicate) : list Edge :=
  concat (map (λ sp, leaf_edges (DNode sp.1) sp.2) (map_to_list ps)).

Lemma refs_of_insert ps s p : ps !! s = None -> refs_of (<[s := p]> ps) ≡ₚ leaf_sigs p ++ refs_of ps.
Proof. intros Hs. unfold refs_of. by rewrite (map_to_list_insert _ _ _ Hs). Qed.
Lemma edges_from_insert ps s p : ps !! s = None ->
  edges_from (<[s := p]> ps) ≡ₚ leaf_edges (DNode s) p ++ edges_from ps.
Proof. intros Hs. unfold edges_from. by rewrite (map_to_list_insert _ _ _ Hs). Qed.

(** ** The relation that composes *)

(** ** A signature is longer than any it contains *)

Lemma str_join_length sep ws w : w ∈ ws -> (length w <= length (str_join sep ws))%nat.
Proof.
  induction ws as [|v ws IH]; [by intros ?%elem_of_nil|]. intros [->|Hin]%elem_of_cons.
  - destruct ws; simpl; [done|]. rewrite length_app. lia.
  - specialize (IH Hin). destruct ws as [|v' ws]; [by apply elem_of_nil in Hin|].
    change (str_join sep (v :: v' :: ws)) with (v ++ sep ++ str_join sep (v' :: ws)). rewrite !length_app. lia.
Qed.

Lemma canonical_pred_children (f : PredicateJson -> str) sep ps p : p ∈ ps ->
  (length (f p) <= length (str_join sep (stable_sort str_leb (map f ps))))%nat.
Proof.
  intros Hp. apply str_join_length. assert (Hs : stable_sort str_leb (map f ps) ≡ₚ map f ps) by apply stable_sort_perm.
  rewrite Hs. by apply list_elem_of_In, in_map, list_elem_of_In.
Qed.

Lemma sub_query_shorter p q : q ∈ sub_queries p -> (length (query_sig q) < length (canonical_pred p))%nat.
Proof.
  induction p as [| |ps IH|ps IH|p IH|c t pr w n _] using PredicateJson_rect'; simpl; try (by intros ?%elem_of_nil).
  - intros Hq%list_elem_of_In. apply in_concat in Hq as (l & (p & <- & Hp)%in_map_iff & Hq).
    apply list_elem_of_In in Hp. rewrite Forall_forall in IH. apply list_elem_of_In, (IH p Hp) in Hq.
    pose proof (canonical_pred_children canonical_pred $"," ps p Hp). rewrite !length_app. lia.
  - intros Hq%list_elem_of_In. apply in_concat in Hq as (l & (p & <- & Hp)%in_map_iff & Hq).
    apply list_elem_of_In in Hp. rewrite Forall_forall in IH. apply list_elem_of_In, (IH p Hp) in Hq.
    pose proof (canonical_pred_children canonical_pred $"," ps p Hp). rewrite !length_app. lia.
  - intros Hq%IH. rewrite !length_app. lia.
  - intros ->%list_elem_of_singleton. unfold query_sig, subquery_sig.
    do 4 (rewrite ?length_app; simpl). lia.
Qed.

Lemma query_sig_where t pr p : (length (canonical_pred p) <= length (subquery_sig t pr (Some p)))%nat.
Proof. unfold subquery_sig, sig_text. rewrite !length_app. lia. Qed.

(** A collection registers only nodes whose signature is no longer than its own. *)
Definition news (L : nat) (_ : nat) reg reg' (_ : option (list SubquerySig)) : Prop :=
  forall s, r_nodes reg !! s = None -> is_Some (r_nodes reg' !! s) -> (length s < L)%nat.

Lemma news_same L n reg reg' o : r_nodes reg' = r_nodes reg -> news L n reg reg' o.
Proof. intros He s Hs. rewrite He, Hs. by intros [? ?]. Qed.

Lemma news_composes L : Composes (news L).
Proof.
  split; [by intros; apply news_same..| |].
  - intros a b r1 r2 r3 l1 l2 H1 H2 s Hs Hs3. destruct (r_nodes r2 !! s) eqn:E; [apply H1; [done|]; by eexists|by apply H2].
  - intros a b r1 r2 H. exact H.
Qed.

Lemma register_node_nodes sig t pr w ts pred reg :
  r_nodes (register_node sig t pr w ts pred reg).1 = r_nodes reg \/
  exists node, r_nodes (register_node sig t pr w ts pred reg).1 = <[sig := node]> (r_nodes reg).
Proof.
  unfold register_node. destruct (column_index ts pr) as [proj|e]; [|by left].
  destruct (subquery_template t pr w) as [[tkey lits] residual].
  destruct (bind_columns ts lits) as [[cols vals]|e]; [|by left]. unfold enter_template. simpl.
  destruct (r_templates reg !! tkey); [right; by eexists|].
  destruct (residual_of ts residual); simpl; [right; by eexists|by left].
Qed.

(** The same of the inner predicate of a query, less the query itself. *)
Lemma compile_where_news (C : SubqueryCollector (SubqueryRegistry D)) t pr w :
  (forall t pr w reg n o, news (S (length (subquery_sig t pr w))) n reg (C reg t pr w).1 o) ->
  forall ts reg s, r_nodes reg !! s = None -> is_Some (r_nodes (compile_opt_with w ts reg).1 !! s) ->
  (length s < length (subquery_sig t pr w))%nat.
Proof.
  intros HC ts reg. change (news (length (subquery_sig t pr w)) (length (inner w)) reg (compile_opt_with w ts reg).1
                             (leaves_of (compile_opt_with w ts reg).2)).
  apply (compile_opt_with_runs _ (news_composes _)). intros t' pr' w' reg' Hin s Hs Hx.
  assert (Hl : (length s < S (length (subquery_sig t' pr' w')))%nat) by (by apply (HC t' pr' w' reg' 0%nat None)).
  destruct w as [p|]; [|by apply elem_of_nil in Hin].
  pose proof (sub_query_shorter p _ Hin). pose proof (query_sig_where t pr p). unfold query_sig in *. simpl in *. lia.
Qed.

Lemma collect_node_news fuel : forall t pr w reg n o,
  news (S (length (subquery_sig t pr w))) n reg (collect_node fuel reg t pr w).1 o.
Proof.
  induction fuel as [|fuel IH]; intros t pr w reg n o; simpl.
  all: destruct (r_nodes reg !! subquery_sig t pr w) as [n1|] eqn:En.
  1,3: intros s Hs Hx; simpl in Hx; destruct (decide (s = subquery_sig t pr w)) as [->|Hne]; [lia|];
       rewrite lookup_alter_ne in Hx by done; rewrite Hs in Hx; by destruct Hx.
  all: destruct (r_schemas reg !! t) as [ts|]; [|by apply news_same].
  { by apply news_same. }
  pose proof (compile_where_news (collect_node fuel) t pr w IH ts reg) as Hrun.
  destruct (compile_opt_with w ts reg) as [reg1 [pred|e]]; simpl in *.
  - intros s Hs Hx. destruct (decide (s = subquery_sig t pr w)) as [->|Hne]; [lia|].
    enough (length s < length (subquery_sig t pr w))%nat by lia. apply Hrun; [done|].
    destruct (register_node_nodes (subquery_sig t pr w) t pr w ts pred reg1) as [He|[node He]]; rewrite He in Hx; [done|].
    by rewrite lookup_insert_ne in Hx.
  - intros s Hs Hx. specialize (Hrun s Hs Hx). lia.
Qed.

Section relation.
Context (reg0 : SubqueryRegistry D) (Q : list Query).

(** The log and the staged edges grow by what was compiled and by what its new nodes depend on. *)
Definition balanced reg reg' (ls : list SubquerySig) : Prop :=
  (forall s, (occ s (r_collect_log reg') + occ s (refs_of (node_preds reg)) =
              occ s (r_collect_log reg) + occ s ls + occ s (refs_of (node_preds reg')))%nat) /\
  (forall e, (occ e (r_staged_edges reg') + occ e (edges_from (node_preds reg)) =
              occ e (r_staged_edges reg) + occ e (edges_from (node_preds reg')))%nat).

Definition collects (n : nat) reg reg' (o : option (list SubquerySig)) : Prop :=
  0 < r_next_node_id reg -> r_next_node_id reg + Z.of_nat n <= i64_max ->
  undoable reg0 Q reg (r_collect_log reg) ->
  r_next_node_id reg <= r_next_node_id reg' <= r_next_node_id reg + Z.of_nat n /\
  undoable reg0 Q reg' (r_collect_log reg') /\
  match o with Some ls => balanced reg reg' ls | None => True end.

Lemma collects_composes : Composes collects.
Proof.
  split.
  - intros reg _ _ Hu. split_and!; [lia|lia|done|]. split; intros x; rewrite ?occ_nil; lia.
  - intros reg _ _ Hu. split_and!; [lia|lia|done|done].
  - intros a b r1 r2 r3 l1 l2 H1 H2 Hp Hn Hu. destruct H1 as (N1 & U1 & B1 & C1); [lia|lia|done|].
    destruct H2 as (N2 & U2 & B2); [lia|lia|done|]. split_and!; [lia|lia|done|]. destruct l2 as [l2|]; [|done].
    destruct B2 as [B2 C2]. split; intros x; [specialize (B1 x); specialize (B2 x); rewrite occ_app; lia|].
    specialize (C1 x). specialize (C2 x). lia.
  - intros a b r1 r2 H1 Hp Hn Hu. destruct H1 as (N1 & U1 & _); [lia|lia|done|]. split_and!; [lia|lia|done|done].
Qed.

(** ** Small steps *)

(** Fields that [undoable] does not look at, or only from above. *)
Lemma undoable_stage reg l es : undoable reg0 Q reg l -> undoable reg0 Q (stage_edges es reg) l.
Proof. intros [? ? ? ? ? ? ? ? ? ?]. by split. Qed.
Lemma undoable_log reg l log : undoable reg0 Q reg l -> undoable reg0 Q (set_collect_log log reg) l.
Proof. intros [? ? ? ? ? ? ? ? ? ?]. by split. Qed.
Lemma undoable_seed reg l : undoable reg0 Q reg l -> undoable reg0 Q (set_pending_seed [] reg) l.
Proof. intros [? ? ? ? ? ? ? ? ? ?]. split; try done. by intros s ?%elem_of_nil. Qed.
Lemma undoable_next reg l i : r_next_node_id reg <= i -> undoable reg0 Q reg l -> undoable reg0 Q (set_next_node_id i reg) l.
Proof. intros Hi [? ? ? Hlow ? ? ? ? ? ?]. split; try done. intros j s Hj%Hlow. simpl. lia. Qed.
Lemma undoable_unstage reg l : undoable reg0 Q reg l -> undoable reg0 Q (set_staged_edges [] reg) l.
Proof. intros [? ? ? ? ? ? ? ? ? ?]. by split. Qed.

Lemma share_node reg s n : r_nodes reg !! s = Some n -> undoable reg0 Q reg (r_collect_log reg) ->
  let reg' := log_collect s (on_node s (λ n, node_with_refcount (S (n_refcount n)) n) reg) in
  undoable reg0 Q reg' (r_collect_log reg') /\ balanced reg reg' [s].
Proof.
  intros Hn Hu reg'.
  assert (Hm : alter (λ n, node_with_refcount (S (n_refcount n)) n) s (r_nodes reg) =
               <[s := node_with_refcount (S (n_refcount n)) n]> (r_nodes reg)).
  { apply map_eq. intros k. rewrite lookup_alter. case_decide; [subst k|by rewrite lookup_insert_ne].
    by rewrite Hn, lookup_insert_eq. }
  split.
  - unfold reg', log_collect. apply undoable_log. unfold on_node. rewrite Hm. simpl.
    eapply undo_recount; [exact Hu|done|..].
    + intros s' Hne. by rewrite occ_snoc, decide_False, Nat.add_0_r.
    + intros n0 Hn0. rewrite (ud_old _ _ _ _ Hu _ _ Hn0) in Hn. injection Hn as <-. simpl.
      rewrite occ_snoc, decide_True by done. lia.
    + intros Hn0. pose proof (ud_new _ _ _ _ Hu s Hn0) as H. rewrite Hn in H. rewrite occ_snoc, decide_True by done. lia.
  - assert (Hp : node_preds reg' = node_preds reg).
    { unfold node_preds. change (r_nodes reg') with (alter (λ n, node_with_refcount (S (n_refcount n)) n) s (r_nodes reg)).
      rewrite Hm, fmap_insert. simpl. apply insert_id. by rewrite lookup_fmap, Hn. }
    split; intros x; rewrite Hp; [|done]. change (r_collect_log reg') with (r_collect_log reg ++ [s]).
    rewrite occ_app. lia.
Qed.

(** [register_node], on every branch. *)
Lemma register_node_runs reg t pr w ts pred : creatable reg0 -> clash_free reg0 Q -> (t, pr, w) ∈ Q ->
  r_schemas reg0 !! t = Some ts -> r_nodes reg !! subquery_sig t pr w = None ->
  0 < r_next_node_id reg -> r_next_node_id reg + 1 <= i64_max -> undoable reg0 Q reg (r_collect_log reg) ->
  let '(reg', r) := register_node (subquery_sig t pr w) t pr w ts pred reg in
  r_next_node_id reg <= r_next_node_id reg' <= r_next_node_id reg + 1 /\
  undoable reg0 Q reg' (r_collect_log reg') /\
  match r with
  | Ok sig => sig = subquery_sig t pr w /\
      (forall s, (occ s (r_collect_log reg') = occ s (r_collect_log reg) + occ s [sig])%nat) /\
      (forall s, (occ s (refs_of (node_preds reg')) = occ s (refs_of (node_preds reg)) + occ s (leaf_sigs pred))%nat) /\
      (forall e, (occ e (r_staged_edges reg') = occ e (r_staged_edges reg) + occ e (leaf_edges (DNode sig) pred))%nat) /\
      (forall e, (occ e (edges_from (node_preds reg')) =
                  occ e (edges_from (node_preds reg)) + occ e (leaf_edges (DNode sig) pred))%nat)
  | Err _ => True
  end.
Proof.
  intros Hc Hcf Hq Hts Hn Hpos Hid Hu. set (sig := subquery_sig t pr w) in *. unfold register_node.
  set (id := r_next_node_id reg) in *.
  assert (Hw : wrap_i64 (id + 1) = id + 1) by (apply wrap_i_small; unfold i64_max in *; lia).
  set (reg1 := stage_edges (leaf_edges (DNode sig) pred) reg).
  assert (Hu1 : undoable reg0 Q reg1 (r_collect_log reg1)) by (by apply undoable_stage).
  change (r_next_node_id reg1) with id. rewrite Hw.
  destruct (column_index ts pr) as [proj|e];
    [|change (r_next_node_id reg1) with id; split_and!; [done|lia|done|done]]. set (reg2 := set_next_node_id (id + 1) reg1).
  assert (Hu2 : undoable reg0 Q reg2 (r_collect_log reg2)) by (apply undoable_next; [simpl; lia|done]).
  destruct (subquery_template t pr w) as [[tkey lits] residual] eqn:Et.
  destruct (bind_columns ts lits) as [[cols vals]|e] eqn:Eb; [|simpl; split_and!; [lia|lia|done|done]].
  set (fresh := residual_of ts residual ≫= _).
  assert (Hslot : slot (r_schemas reg0) (t, pr, w) = Some (tkey, rkey vals))
    by (unfold slot; simpl; by rewrite Hts; simpl; rewrite Et, Eb).
  destruct (enter_template tkey fresh (rkey vals) sig reg2) as [reg3 [[]|e]] eqn:Ee.
  2: { apply enter_template_err in Ee as ->. simpl. split_and!; [lia|lia|done|done]. }
  apply enter_template_ok in Ee as (tpl & Htpl & ->).
  2: { intros tpl. unfold fresh. destruct (residual_of ts residual); simpl; [by intros [= <-]|done]. }
  set (node := fresh_node sig t proj (ts_pk_index ts) pred w id tkey (rkey vals)).
  assert (Hpreds : node_preds (set_nodes (<[sig := node]> (r_nodes reg)) reg) = <[sig := pred]> (node_preds reg))
    by (unfold node_preds; simpl; by rewrite fmap_insert).
  assert (Hnp : node_preds reg !! sig = None) by (unfold node_preds; by rewrite lookup_fmap, Hn).
  split_and!.
  - simpl. lia.
  - simpl. lia.
  - apply (undo_register reg0 Q reg2 (r_collect_log reg) (t, pr, w) tpl node Hc Hcf Hu2 Hq); simpl;
      [done|done|done| |lia|].
    + intros i s Hi. by apply (ud_low _ _ _ _ Hu) in Hi.
    + destruct Htpl as [Ht|[Ht Hf]]; [by left|right]. split; [done|].
      unfold fresh in Hf. destruct (residual_of ts residual); simpl in Hf; [by injection Hf as <-|done].
  - done.
  - intros s. apply occ_app.
  - intros s. match goal with |- context [node_preds ?r] =>
      lazymatch r with reg => fail | _ => change (node_preds r) with (node_preds (set_nodes (<[sig := node]> (r_nodes reg)) reg)) end end.
    rewrite Hpreds, (refs_of_insert _ _ _ Hnp), occ_app. lia.
  - intros e. apply occ_app.
  - intros e. match goal with |- context [node_preds ?r] =>
      lazymatch r with reg => fail | _ => change (node_preds r) with (node_preds (set_nodes (<[sig := node]> (r_nodes reg)) reg)) end end.
    rewrite Hpreds, (edges_from_insert _ _ _ Hnp), occ_app. lia.
Qed.

(** [collect], whatever the fuel. *)
Lemma collect_node_runs (Hc : creatable reg0) (Hcf : clash_free reg0 Q) fuel : forall t pr w reg,
  (forall q, q ∈ (t, pr, w) :: inner w -> q ∈ Q) ->
  collects (length ((t, pr, w) :: inner w)) reg (collect_node fuel reg t pr w).1
    (sig_of (collect_node fuel reg t pr w).2).
Proof.
  induction fuel as [|fuel IH]; intros t pr w reg HQ Hpos Hn Hu; simpl.
  all: destruct (r_nodes reg !! subquery_sig t pr w) as [n|] eqn:En;
    [destruct (share_node reg _ n En Hu); simpl; split_and!; [lia|simpl in *; lia|done|done]|].
  all: assert (Hsc : r_schemas reg = r_schemas reg0) by (pose proof (ud_rest _ _ _ _ Hu) as H; by injection H).
  all: destruct (r_schemas reg !! t) as [ts|] eqn:Ets; [|simpl; split_and!; [lia|simpl in *; lia|done|done]].
  { simpl. split_and!; [lia|simpl in *; lia|done|done]. }
  assert (Hrun : collects (length (inner w)) reg (compile_opt_with (C := collect_node fuel) w ts reg).1
                   (leaves_of (compile_opt_with (C := collect_node fuel) w ts reg).2)).
  { apply (compile_opt_with_runs collects collects_composes). intros t' pr' w' reg' Hin. apply IH.
    intros q Hq. apply HQ. right. destruct w as [p|]; [|by apply elem_of_nil in Hin]. simpl.
    by eapply sub_queries_nested. }
  cbn [length] in Hn. destruct Hrun as (N1 & U1 & B1); [lia|lia|done|].
  destruct (compile_opt_with w ts reg) as [reg1 [pred|e]] eqn:Ec; simpl in *; [|split_and!; [lia|lia|done|done]].
  assert (Hsc1 : r_schemas reg1 = r_schemas reg0) by (pose proof (ud_rest _ _ _ _ U1) as H; by injection H).
  assert (En1 : r_nodes reg1 !! subquery_sig t pr w = None).
  { apply eq_None_not_Some. intros Hx. enough (length (subquery_sig t pr w) < length (subquery_sig t pr w))%nat by lia.
    apply (compile_where_news (collect_node fuel) t pr w (collect_node_news fuel) ts reg _ En). by rewrite Ec. }
  pose proof (register_node_runs reg1 t pr w ts pred Hc Hcf (HQ _ ltac:(by left))) as Hr.
  destruct (register_node (subquery_sig t pr w) t pr w ts pred reg1) as [reg2 r].
  destruct Hr as (N2 & U2 & B2); [by rewrite <- Hsc|done|lia|lia|done|]. cbn [fst snd].
  split_and!; [lia|lia|done|]. destruct r as [sig|e]; simpl; [|done].
  destruct B2 as (-> & L2 & R2 & S2 & E2). destruct B1 as [B1 C1]. split; intros x.
  - specialize (B1 x). specialize (L2 x). specialize (R2 x). lia.
  - specialize (C1 x). specialize (S2 x). specialize (E2 x). lia.
Qed.
End relation.

(* ------------------------------------------------------------------ *)
(** ** A refused create *)

Lemma rollback_ref_frame reg s : r_staged_edges (rollback_ref reg s) = r_staged_edges reg /\
  r_collect_log (rollback_ref reg s) = r_collect_log reg.
Proof.
  unfold rollback_ref. destruct (r_nodes reg !! s) as [n|]; [|done]. simpl. case_bool_decide; [|done].
  unfold remove_node_entry. simpl. by destruct (r_templates reg !! n_template_key n).
Qed.
Lemma rollback_refs_frame l : forall reg, r_staged_edges (foldl rollback_ref reg l) = r_staged_edges reg /\
  r_collect_log (foldl rollback_ref reg l) = r_collect_log reg.
Proof.
  induction l as [|s l IH]; intros reg; simpl; [done|].
  destruct (IH (rollback_ref reg s)) as [-> ->]. apply rollback_ref_frame.
Qed.

Lemma rollback_restores reg0 Q reg log : creatable reg0 -> undoable reg0 Q reg log -> r_collect_log reg = [] ->
  let reg' := rollback_refs log reg in reg' = set_next_node_id (r_next_node_id reg') reg0.
Proof.
  intros Hc Hu Hlog reg'. unfold reg', rollback_refs.
  pose proof (undo_rollbacks reg0 Q log _ Hc (undoable_unstage reg0 Q _ _ Hu)) as Hd.
  destruct (rollback_refs_frame log (set_staged_edges [] reg)) as [Hs Hl].
  set (r := foldl rollback_ref _ log) in *. pose proof (undo_done reg0 Q _ Hc Hd) as He.
  rewrite Hs, Hl in He. simpl in He. rewrite Hlog in He. destruct (cr_idle _ Hc) as (_ & H1 & H2).
  rewrite He at 1. destruct reg0; simpl in *. by subst.
Qed.

(** The compilation of a create, from any registry between operations. *)
Lemma begin_compile_runs reg where_json ts : creatable reg -> clash_free reg (nested where_json) ->
  r_next_node_id reg + Z.of_nat (length (nested where_json)) <= i64_max ->
  let reg1 := set_collect_log [] (set_staged_edges [] reg) in
  let c := compile_with (C := collect_node (sub_depth where_json)) where_json ts reg1 in
  r_next_node_id reg <= r_next_node_id c.1 /\
  undoable reg (nested where_json) c.1 (r_collect_log c.1) /\
  match c.2 with Ok pred => balanced reg1 c.1 (leaf_sigs pred) | Err _ => True end.
Proof.
  intros Hc Hcf Hn reg1 c.
  assert (Hrun : collects reg (nested where_json) (length (nested where_json)) reg1 c.1 (leaves_of c.2)).
  { apply (compile_with_runs _ (collects_composes reg (nested where_json))). intros t pr w reg' Hin.
    apply collect_node_runs; [done..|]. intros q Hq. by eapply sub_queries_nested. }
  destruct Hrun as ([Hle _] & Hu & Hb); [apply Hc|done|by apply undo_start|].
  split_and!; [done|done|]. by destruct c.2.
Qed.

(** a refused create leaves no trace: whether its outer or an inner table or column is unknown, a
    literal does not fit its column, or it shares a node that another create is still seeding, the
    registry is what it was before, up to the number the next node will get. *)
Theorem begin_create_atomic reg id outer path where_json cols co reg' e :
  creatable reg -> clash_free reg (nested where_json) ->
  r_next_node_id reg + Z.of_nat (length (nested where_json)) <= i64_max ->
  begin_create reg id outer path where_json cols co = (reg', Err e) ->
  reg' = set_next_node_id (r_next_node_id reg') reg.
Proof.
  intros Hc Hcf Hn. unfold begin_create.
  destruct (r_schemas reg !! outer) as [ts|]; [|intros [= <- <-]; by destruct reg].
  pose proof (begin_compile_runs reg where_json ts Hc Hcf Hn) as (_ & Hu & _).
  destruct (compile_with where_json ts _) as [reg1 [pred|e1]]; simpl in Hu.
  - destruct (existsb _ _); [|done]. intros [= <- <-].
    apply (rollback_restores reg (nested where_json)); [done| |done]. by apply undoable_seed, undoable_log.
  - intros [= <- <-]. apply (rollback_restores reg (nested where_json)); [done| |done]. by apply undoable_log.
Qed.
End atomic.
