(* ===== verification/SubqDeps.v ===== *)
(** * References and edges

    Every installed shape, every shape being created and every node refers to the nodes of its
    predicate's leaves: each reference is an edge under the node's signature and one of the node's
    reference count.  Creation and removal keep that account exactly, so a node lives as long as
    something depends on it, and flips find every dependent. *)

From S2P Require Import Prelude BTree Value TableRef Schema Predicate Gate Output Executors.
From S2P Require Import Sequencer PkDict SubqIndex SubqCircuit Subquery SubqueryFacts SubqCreate SubqCompile.
From S2P Require Import SubqAtomic.
From stdpp Require Import base option numbers strings gmap fin_maps sorting list.
#[local] Open Scope Z_scope.

(* ------------------------------------------------------------------ *)
(** ** Lists as multisets *)

Section occs.
Context {A : Type} `{EqDecision A}.

Lemma occ_perm_iff (l l' : list A) : l ≡ₚ l' <-> forall x, occ x l = occ x l'.
Proof.
  split; [intros H x; by rewrite H|]. revert l'. induction l as [|x l IH]; intros l' H.
  - destruct l' as [|y l']; [done|]. specialize (H y). rewrite occ_nil, occ_cons, decide_True in H by done. lia.
  - assert (Hin : x ∈ l') by (apply occ_in; rewrite <- H, occ_cons, decide_True by done; lia).
    apply elem_of_Permutation in Hin as [l2 Hl2]. rewrite Hl2. constructor. apply IH. intros y.
    specialize (H y). rewrite Hl2, !occ_cons in H. lia.
Qed.

Lemma occ_filter (P : A -> Prop) `{forall x, Decision (P x)} x (l : list A) :
  occ x (filter P l) = if decide (P x) then occ x l else 0%nat.
Proof.
  induction l as [|y l IH]; [by destruct (decide (P x))|]. rewrite filter_cons.
  destruct (decide (P y)) as [Hy|Hy]; rewrite ?occ_cons, IH; destruct (decide (P x)) as [Hx|Hx], (decide (y = x)) as [->|];
    try done.
Qed.

Lemma occ_map {B : Type} `{EqDecision B} (f : A -> B) y (l : list A) :
  occ y (map f l) = length (filter (λ x, f x = y) l).
Proof.
  induction l as [|x l IH]; [done|]. simpl. rewrite occ_cons, filter_cons, IH.
  destruct (decide (f x = y)); done.
Qed.
End occs.

Section deps.
Context {FT : FloatText} {FE : FaultEnv} {SJ : SerdeJson} {D : Type} {MP : MembershipPipeline D}.
Implicit Types (reg : SubqueryRegistry D).

(* ------------------------------------------------------------------ *)
(** ** The account *)

Definition shape_edges reg : list Edge :=
  concat (map (λ e : str * SubqueryShape, leaf_edges (DShape e.1) (sh_pred e.2)) (map_to_list (r_shapes reg))).
Definition pending_edges reg : list Edge :=
  concat (map (λ p, leaf_edges (DShape (ps_shape_id p)) (ps_pred p)) (r_pending_shapes reg)).
Definition expected reg : list Edge := shape_edges reg ++ pending_edges reg ++ edges_from (node_preds reg).

(** The edges are the expected ones, and reference counts count them, together with the references
    in [owed], which have been given up by their dependents and not yet been dropped. *)
Record deps_ok reg (owed : list SubquerySig) : Prop := {
  dp_edges : forall e s, occ e (edges_of reg s) = if decide (ed_node_sig e = s) then occ e (expected reg) else 0%nat;
  dp_refs : forall s, match r_nodes reg !! s with
    | Some n => n_refcount n = (length (edges_of reg s) + occ s owed)%nat /\ (0 < n_refcount n)%nat
    | None => edges_of reg s = [] /\ occ s owed = 0%nat
    end;
  dp_filled : forall s l, r_edges reg !! s = Some l -> l <> []
}.

Lemma leaf_edges_sigs dep p : map ed_node_sig (leaf_edges dep p) = leaf_sigs p.
Proof. unfold leaf_edges, leaf_sigs. by rewrite map_map. Qed.

(** The references of the nodes are the targets of their edges. *)
Lemma refs_of_edges ps : refs_of ps = map ed_node_sig (edges_from ps).
Proof.
  unfold refs_of, edges_from. rewrite concat_map, map_map. f_equal. apply map_ext. intros sp.
  by rewrite leaf_edges_sigs.
Qed.

(** The edges of a node, counted. *)
Definition targets reg : list SubquerySig := map ed_node_sig (expected reg).
Lemma edges_length reg s :
  (forall e, occ e (edges_of reg s) = if decide (ed_node_sig e = s) then occ e (expected reg) else 0%nat) ->
  length (edges_of reg s) = occ s (targets reg).
Proof.
  intros He. unfold targets. rewrite occ_map. apply Permutation_length, occ_perm_iff. intros e.
  rewrite He, occ_filter. done.
Qed.

(** ** Adding edges *)

Lemma edges_of_add reg e s : edges_of (add_edge reg e) s = edges_of reg s ++ if decide (ed_node_sig e = s) then [e] else [].
Proof.
  unfold add_edge, edges_of at 1. simpl. destruct (decide (ed_node_sig e = s)) as [<-|Hne].
  - by rewrite lookup_insert_eq.
  - by rewrite lookup_insert_ne, app_nil_r.
Qed.

Lemma add_edges_spec es : forall reg,
  (forall e s, occ e (edges_of (foldl add_edge reg es) s) =
     (occ e (edges_of reg s) + if decide (ed_node_sig e = s) then occ e es else 0)%nat) /\
  foldl add_edge reg es = set_edges (r_edges (foldl add_edge reg es)) reg /\
  ((forall s l, r_edges reg !! s = Some l -> l <> []) ->
   forall s l, r_edges (foldl add_edge reg es) !! s = Some l -> l <> []).
Proof.
  induction es as [|e0 es IH]; intros reg; simpl.
  { split_and!; [|by destruct reg|done]. intros e s. rewrite occ_nil. by destruct (decide _). }
  destruct (IH (add_edge reg e0)) as (H1 & H2 & H3). split_and!.
  - intros e s. rewrite H1, edges_of_add, occ_app, occ_cons.
    destruct (decide (ed_node_sig e0 = s)), (decide (ed_node_sig e = s)), (decide (e0 = e)); subst;
      rewrite ?occ_cons, ?occ_nil, ?decide_True, ?decide_False by done; try lia; congruence.
  - rewrite H2 at 1. done.
  - intros Hf. apply H3. intros s l. unfold add_edge. simpl. rewrite lookup_insert_Some.
    intros [[_ <-]|[_ Hl]]; [|by eapply Hf]. by destruct (edges_of reg (ed_node_sig e0)).
Qed.

(** ** An accepted create *)

Lemma start_seedings l : forall reg, exists m, foldl start_seeding reg l = set_nodes m reg /\
  forall s, (λ n, (n_refcount n, n_pred n, n_node_id n, n_template_key n, n_bind n)) <$> m !! s =
            (λ n, (n_refcount n, n_pred n, n_node_id n, n_template_key n, n_bind n)) <$> r_nodes reg !! s.
Proof.
  induction l as [|s l IH]; intros reg; simpl; [exists (r_nodes reg); split; [by destruct reg|done]|].
  destruct (IH (start_seeding reg s)) as (m & -> & Hm). exists m. split; [done|]. intros s'. rewrite Hm. simpl.
  rewrite lookup_alter. case_decide; [subst s'|done]. by destruct (r_nodes reg !! s).
Qed.

(** The parts of an accepted create. *)
Lemma begin_create_ok reg id outer path where_json cols co reg' seeds :
  creatable reg -> clash_free reg (nested where_json) ->
  r_next_node_id reg + Z.of_nat (length (nested where_json)) <= i64_max ->
  begin_create reg id outer path where_json cols co = (reg', Ok seeds) ->
  exists reg1 pred m es,
    let log := r_collect_log reg1 in
    undoable reg (nested where_json) reg1 log /\ r_next_node_id reg <= r_next_node_id reg1 /\
    balanced (set_collect_log [] (set_staged_edges [] reg)) reg1 (leaf_sigs pred) /\
    (forall s, (λ n, (n_refcount n, n_pred n, n_node_id n, n_template_key n, n_bind n)) <$> m !! s =
               (λ n, (n_refcount n, n_pred n, n_node_id n, n_template_key n, n_bind n)) <$> r_nodes reg1 !! s) /\
    es = r_edges (foldl add_edge reg (r_staged_edges reg1 ++ leaf_edges (DShape id) pred)) /\
    reg' = set_pending_shapes (r_pending_shapes reg ++ [MkPendingSubq id outer path pred cols co log [] []])
             (set_edges es (set_staged_edges [] (set_nodes m (set_pending_seed [] (set_collect_log [] reg1))))).
Proof.
  intros Hc Hcf Hn. unfold begin_create.
  destruct (r_schemas reg !! outer) as [ts|]; [|done].
  pose proof (begin_compile_runs reg where_json ts Hc Hcf Hn) as (Hle & Hu & Hb).
  destruct (compile_with where_json ts _) as [reg1 [pred|e1]]; simpl in Hu, Hb; [|done].
  destruct (existsb _ _); [done|]. intros [= <- <-].
  destruct (start_seedings (r_pending_seed reg1) (set_pending_seed [] (set_collect_log [] reg1))) as (m & -> & Hm).
  simpl. set (staged := r_staged_edges reg1 ++ leaf_edges (DShape id) pred). fold staged.
  set (reg4 := set_staged_edges [] (stage_edges _ _)).
  assert (Hed : r_edges reg1 = r_edges reg) by (pose proof (ud_rest _ _ _ _ Hu) as H; by injection H).
  assert (Hpe : r_pending_shapes reg1 = r_pending_shapes reg) by (pose proof (ud_rest _ _ _ _ Hu) as H; by injection H).
  assert (Hes : forall es (r1 r2 : SubqueryRegistry D), r_edges r1 = r_edges r2 ->
            r_edges (foldl add_edge r1 es) = r_edges (foldl add_edge r2 es)).
  { clear. induction es as [|e es IH]; intros r1 r2 H; simpl; [done|]. apply IH. unfold add_edge, edges_of. simpl. by rewrite H. }
  exists reg1, pred, m, (r_edges (foldl add_edge reg4 staged)). split_and!; try done.
  - by apply Hes.
  - destruct (add_edges_spec staged reg4) as (_ & He & _). rewrite He. simpl. by rewrite Hpe.
Qed.

(** The node predicates of two registries that agree on what [begin_create_ok] compares. *)
Lemma preds_same (m m' : gmap str SubqueryNode) :
  (forall s, (λ n, (n_refcount n, n_pred n, n_node_id n, n_template_key n, n_bind n)) <$> m !! s =
             (λ n, (n_refcount n, n_pred n, n_node_id n, n_template_key n, n_bind n)) <$> m' !! s) ->
  n_pred <$> m = n_pred <$> m'.
Proof.
  intros H. apply map_eq. intros s. rewrite !lookup_fmap. specialize (H s).
  destruct (m !! s), (m' !! s); simpl in *; congruence.
Qed.

Lemma accepted_account reg id outer path where_json cols co reg' seeds :
  creatable reg -> deps_ok reg [] -> clash_free reg (nested where_json) ->
  r_next_node_id reg + Z.of_nat (length (nested where_json)) <= i64_max ->
  begin_create reg id outer path where_json cols co = (reg', Ok seeds) -> deps_ok reg' [].
Proof.
  intros Hc [Hedges Hrefs Hfilled] Hcf Hn Hb.
  destruct (begin_create_ok _ _ _ _ _ _ _ _ _ Hc Hcf Hn Hb) as (reg1 & pred & m & es & Hu & _ & [Hlog Hst] & Hm & -> & ->).
  clear Hb. set (log := r_collect_log reg1) in *. set (staged := r_staged_edges reg1 ++ leaf_edges (DShape id) pred).
  destruct (add_edges_spec staged reg) as (Hadd & _ & Hfill).
  assert (Hsh : r_shapes reg1 = r_shapes reg) by (pose proof (ud_rest _ _ _ _ Hu) as H; by injection H).
  change (forall e, (occ e (r_staged_edges reg1) + occ e (edges_from (node_preds reg)) =
            occ e [] + occ e (edges_from (node_preds reg1)))%nat) in Hst.
  change (forall s, (occ s log + occ s (refs_of (node_preds reg)) =
            occ s [] + occ s (leaf_sigs pred) + occ s (refs_of (node_preds reg1)))%nat) in Hlog.
  setoid_rewrite occ_nil in Hst. setoid_rewrite occ_nil in Hlog.
  set (reg' := set_pending_shapes _ _).
  assert (Hpreds : node_preds reg' = node_preds reg1) by (by apply preds_same).
  assert (Hexp : forall e, (occ e (expected reg') + occ e (edges_from (node_preds reg)) =
            occ e (expected reg) + occ e (leaf_edges (DShape id) pred) + occ e (edges_from (node_preds reg1)))%nat).
  { intros e. unfold expected. rewrite Hpreds, !occ_app.
    assert (H1 : shape_edges reg' = shape_edges reg) by (unfold shape_edges; by change (r_shapes reg') with (r_shapes reg1); rewrite Hsh).
    assert (H2 : pending_edges reg' = pending_edges reg ++ leaf_edges (DShape id) pred).
    { unfold pending_edges. change (r_pending_shapes reg') with (r_pending_shapes reg ++ [MkPendingSubq id outer path pred cols co log [] []]).
      rewrite map_app, concat_app. simpl. by rewrite app_nil_r. }
    rewrite H1, H2, occ_app. lia. }
  assert (He : forall e s, occ e (edges_of reg' s) = if decide (ed_node_sig e = s) then occ e (expected reg') else 0%nat).
  { intros e s. change (edges_of reg' s) with (edges_of (foldl add_edge reg staged) s). rewrite Hadd, Hedges.
    destruct (decide (ed_node_sig e = s)); [|done]. specialize (Hexp e). specialize (Hst e). unfold staged. rewrite occ_app. lia. }
  assert (Htg : forall s, (occ s (targets reg') + occ s (refs_of (node_preds reg)) =
            occ s (targets reg) + occ s (leaf_sigs pred) + occ s (refs_of (node_preds reg1)))%nat).
  { intros s. rewrite !refs_of_edges, <- (leaf_edges_sigs (DShape id)). unfold targets.
    rewrite <- !occ_app, <- !map_app. apply occ_perm_iff, Permutation_map, occ_perm_iff. intros e.
    rewrite !occ_app. specialize (Hexp e). lia. }
  assert (Hcount : forall s, occ s (targets reg') = (occ s (targets reg) + occ s log)%nat).
  { intros s. specialize (Htg s). specialize (Hlog s). lia. }
  split; [exact He| |by apply Hfill]. intros s. rewrite occ_nil, Nat.add_0_r, (edges_length reg' s (λ e, He e s)), Hcount.
  specialize (Hrefs s). specialize (Hm s). change (r_nodes reg') with m.
  rewrite occ_nil, ?Nat.add_0_r, (edges_length reg s (λ e, Hedges e s)) in Hrefs.
  assert (Hnil : forall n, length (edges_of reg' s) = n -> n = 0%nat -> edges_of reg' s = [])
    by (intros n <- Hz; by apply nil_length_inv).
  rewrite (edges_length reg' s (λ e, He e s)), Hcount in Hnil.
  destruct (r_nodes reg !! s) as [n0|] eqn:E0.
  - rewrite (ud_old _ _ _ _ Hu _ _ E0) in Hm. destruct (m !! s) as [n|]; [|done]. simpl in Hm.
    injection Hm as Hr _ _ _ _. rewrite Hr. fold log. lia.
  - assert (Hz : occ s (targets reg) = 0%nat).
    { destruct Hrefs as [Hz _]. rewrite <- (edges_length reg s (λ e, Hedges e s)), Hz. done. }
    pose proof (ud_new _ _ _ _ Hu _ E0) as Hnew. fold log in Hnew.
    destruct (r_nodes reg1 !! s) as [n1|]; simpl in Hm; destruct (m !! s) as [n|]; try done; simpl in Hm.
    + injection Hm as Hr _ _ _ _. rewrite Hr. lia.
    + split; [|done]. eapply Hnil; [done|]. lia.
Qed.

(** A create starts from, and ends in, a registry between operations. *)
Lemma accepted_creatable reg id outer path where_json cols co reg' seeds :
  creatable reg -> clash_free reg (nested where_json) ->
  r_next_node_id reg + Z.of_nat (length (nested where_json)) <= i64_max ->
  begin_create reg id outer path where_json cols co = (reg', Ok seeds) -> creatable reg'.
Proof.
  intros Hc Hcf Hn Hb.
  destruct (begin_create_ok _ _ _ _ _ _ _ _ _ Hc Hcf Hn Hb) as (reg1 & pred & m & es & Hu & Hle & _ & Hm & -> & ->).
  clear Hb. set (reg' := set_pending_shapes _ _).
  assert (Hsome : forall s, is_Some (r_nodes reg1 !! s) -> is_Some (r_nodes reg' !! s)).
  { intros s [n Hs]. specialize (Hm s). rewrite Hs in Hm. change (r_nodes reg' !! s) with (m !! s).
    destruct (m !! s); [by eexists|done]. }
  assert (Hold : forall s, is_Some (r_nodes reg !! s) -> is_Some (r_nodes reg1 !! s))
    by (intros s [n Hs]; rewrite (ud_old _ _ _ _ Hu _ _ Hs); by eexists).
  split; simpl.
  - intros s n Hs. specialize (Hm s). rewrite Hs in Hm. destruct (r_nodes reg1 !! s) as [n1|] eqn:E1; [|done].
    simpl in Hm. injection Hm as Hr _ _ _ _. rewrite Hr. destruct (r_nodes reg !! s) as [n0|] eqn:E0.
    + rewrite (ud_old _ _ _ _ Hu _ _ E0) in E1. injection E1 as <-. simpl. pose proof (cr_refs _ Hc _ _ E0). lia.
    + pose proof (ud_new _ _ _ _ Hu _ E0) as H. rewrite E1 in H. lia.
  - intros i s [Hi|(n & [_ Hx] & _)]%(ud_ids _ _ _ _ Hu); apply Hsome; [by apply Hold, (cr_ids _ Hc _ _ Hi)|by eexists].
  - apply (ud_low _ _ _ _ Hu).
  - intros k b s Hb. change (bound reg' k b) with (bound reg1 k b) in Hb.
    apply (ud_binds _ _ _ _ Hu) in Hb as [Hb|(n & [_ Hx] & _)]; apply Hsome; [by apply Hold, (cr_binds _ Hc _ _ _ Hb)|by eexists].
  - apply (ud_filled _ _ _ _ Hu).
  - pose proof (cr_next _ Hc). lia.
  - done.
Qed.

(** Only edges, reference counts and predicates matter. *)
Lemma deps_frame reg reg' owed :
  r_edges reg' = r_edges reg ->
  (forall s, (λ n, (n_refcount n, n_pred n)) <$> r_nodes reg' !! s = (λ n, (n_refcount n, n_pred n)) <$> r_nodes reg !! s) ->
  (forall id, sh_pred <$> r_shapes reg' !! id = sh_pred <$> r_shapes reg !! id) ->
  map (λ p, (ps_shape_id p, ps_pred p)) (r_pending_shapes reg') = map (λ p, (ps_shape_id p, ps_pred p)) (r_pending_shapes reg) ->
  deps_ok reg owed -> deps_ok reg' owed.
Proof.
  intros He Hn Hs Hp [D1 D2 D3].
  assert (Hedges : forall s, edges_of reg' s = edges_of reg s) by (intros s; unfold edges_of; by rewrite He).
  assert (H1 : node_preds reg' = node_preds reg).
  { apply map_eq. intros s. unfold node_preds. rewrite !lookup_fmap. specialize (Hn s).
    destruct (r_nodes reg' !! s), (r_nodes reg !! s); simpl in *; congruence. }
  assert (H2 : forall r : SubqueryRegistry D, shape_edges r =
            concat (map (λ e : str * CompiledPredicate, leaf_edges (DShape e.1) e.2) (map_to_list (sh_pred <$> r_shapes r)))).
  { intros r. unfold shape_edges. rewrite map_to_list_fmap.
    induction (map_to_list (r_shapes r)) as [|e l IH]; [done|]. simpl. by rewrite IH. }
  assert (H3 : shape_edges reg' = shape_edges reg).
  { rewrite !H2. assert (E : sh_pred <$> r_shapes reg' = sh_pred <$> r_shapes reg); [|by rewrite E].
    apply map_eq. intros id. by rewrite !lookup_fmap. }
  assert (H4 : forall l : list PendingSubqueryShape, concat (map (λ p, leaf_edges (DShape (ps_shape_id p)) (ps_pred p)) l) =
            concat (map (λ ip : str * CompiledPredicate, leaf_edges (DShape ip.1) ip.2) (map (λ p, (ps_shape_id p, ps_pred p)) l)))
    by (intros l; by rewrite map_map).
  assert (Hexp : expected reg' = expected reg)
    by (unfold expected; rewrite H1, H3; unfold pending_edges; by rewrite !H4, Hp).
  split.
  - intros e s. by rewrite Hedges, Hexp.
  - intros s. specialize (D2 s). specialize (Hn s). rewrite Hedges.
    destruct (r_nodes reg' !! s), (r_nodes reg !! s); simpl in *; congruence.
  - by rewrite He.
Qed.
End deps.

Section theorem.
Context {FT : FloatText} {FE : FaultEnv} {SJ : SerdeJson} {D : Type} {MP : MembershipPipeline D}.
Implicit Types (reg : SubqueryRegistry D).

(** an accepted create takes exactly the references its dependents need.  Every leaf of the
    shape's predicate and of every node it added is one edge under its node's signature, and a node's
    reference count is the number of its edges, before as after, whatever subqueries are shared; and
    the next create or removal starts from a registry as orderly as this one did. *)
Theorem create_counts_references reg id outer path where_json cols co reg' seeds :
  creatable reg -> deps_ok reg [] -> clash_free reg (nested where_json) ->
  r_next_node_id reg + Z.of_nat (length (nested where_json)) <= i64_max ->
  begin_create reg id outer path where_json cols co = (reg', Ok seeds) ->
  deps_ok reg' [] /\ creatable reg' /\
  exists p, r_pending_shapes reg' = r_pending_shapes reg ++ [p] /\ ps_shape_id p = id /\
    forall l, l ∈ collect_in_leaves (ps_pred p) -> exists n, r_nodes reg' !! il_sig l = Some n /\
      MkEdge (il_sig l) (DShape id) (il_col l) (il_negated l) (il_null_sensitive l) ∈ edges_of reg' (il_sig l) /\
      n_refcount n = length (edges_of reg' (il_sig l)).
Proof.
  intros Hc Hd Hcf Hn Hb. pose proof (accepted_account _ _ _ _ _ _ _ _ _ Hc Hd Hcf Hn Hb) as Hd'.
  split_and!; [done|by eapply accepted_creatable|].
  destruct (begin_create_ok _ _ _ _ _ _ _ _ _ Hc Hcf Hn Hb) as (reg1 & pred & m & es & _ & _ & _ & _ & _ & Hreg).
  exists (MkPendingSubq id outer path pred cols co (r_collect_log reg1) [] []).
  assert (Hp : r_pending_shapes reg' = r_pending_shapes reg ++ [MkPendingSubq id outer path pred cols co (r_collect_log reg1) [] []])
    by (rewrite Hreg; done).
  split_and!; [done..|]. clear Hreg Hb. simpl. intros l Hl.
  set (e := MkEdge _ _ _ _ _).
  assert (Hin : e ∈ edges_of reg' (il_sig l)).
  { apply occ_in. rewrite (dp_edges _ _ Hd'), decide_True by done. apply occ_in. unfold expected, pending_edges.
    rewrite Hp, map_app, concat_app. simpl. rewrite app_nil_r. rewrite !elem_of_app. right; left; right.
    apply list_elem_of_In, in_map_iff. exists l. split; [done|]. by apply list_elem_of_In. }
  pose proof (dp_refs _ _ Hd' (il_sig l)) as Hr. destruct (r_nodes reg' !! il_sig l) as [n|].
  - exists n. rewrite occ_nil in Hr. split_and!; [done..|lia].
  - destruct Hr as [Hz _]. rewrite Hz in Hin. by apply not_elem_of_nil in Hin.
Qed.
End theorem.
