(* ===== verification/SubqDrop.v ===== *)
(** * Removal

    Dropping a shape gives up its references; a node whose last reference goes is removed with its
    state, which gives up the references of its own predicate in turn.  Here: the cascade ends, keeps
    the account of references, removes exactly the nodes nothing depends on any more, retracts all
    they contributed, and touches no other set. *)

From S2P Require Import Prelude BTree Value TableRef Schema Predicate PredicateFacts Gate Output Executors.
From S2P Require Import Refine Sequencer PkDict SubqIndex SubqCircuit Subquery SubqueryFacts SubqEmit SubqLive.
From S2P Require Import SubqCreate SubqCompile SubqAtomic SubqDeps.
From stdpp Require Import base option numbers strings gmap fin_maps sorting list.
#[local] Open Scope Z_scope.

Section edges.
Context {FT : FloatText} {FE : FaultEnv} {D : Type} {MP : MembershipPipeline D}.
Implicit Types (reg : SubqueryRegistry D).

(* ------------------------------------------------------------------ *)
(** ** Edges of a removed dependent *)

Lemma retain_edges_spec keep reg s :
  retain_edges keep reg s = set_edges (r_edges (retain_edges keep reg s)) reg /\
  (forall s', edges_of (retain_edges keep reg s) s' =
     if decide (s' = s) then filter (λ e, keep e = true) (edges_of reg s') else edges_of reg s') /\
  ((forall s l, r_edges reg !! s = Some l -> l <> []) ->
   forall s' l, r_edges (retain_edges keep reg s) !! s' = Some l -> l <> []).
Proof.
  unfold retain_edges. destruct (r_edges reg !! s) as [v|] eqn:E.
  - split_and!; [done| |].
    + intros s'. unfold edges_of at 1. simpl. unfold edges_of. destruct (decide (s' = s)) as [->|Hne].
      * rewrite E. simpl. destruct (filter _ v) eqn:Ef; [by rewrite lookup_delete_eq|by rewrite lookup_insert_eq].
      * destruct (filter _ v); [by rewrite lookup_delete_ne|by rewrite lookup_insert_ne].
    + intros Hf s' l. simpl. destruct (filter _ v) as [|e v'] eqn:Ef.
      * rewrite lookup_delete_Some. intros [_ Hl]. by eapply Hf.
      * rewrite lookup_insert_Some. intros [[_ <-]|[_ Hl]]; [done|by eapply Hf].
  - split_and!; [by destruct reg| |done]. intros s'. destruct (decide (s' = s)) as [->|]; [|done].
    unfold edges_of. by rewrite E.
Qed.

Lemma retain_all_spec keep ss : forall reg,
  foldl (retain_edges keep) reg ss = set_edges (r_edges (foldl (retain_edges keep) reg ss)) reg /\
  (forall s', edges_of (foldl (retain_edges keep) reg ss) s' =
     if decide (s' ∈ ss) then filter (λ e, keep e = true) (edges_of reg s') else edges_of reg s') /\
  ((forall s l, r_edges reg !! s = Some l -> l <> []) ->
   forall s' l, r_edges (foldl (retain_edges keep) reg ss) !! s' = Some l -> l <> []).
Proof.
  induction ss as [|s ss IH]; intros reg; simpl.
  { split_and!; [by destruct reg| |done]. intros s'. done. }
  destruct (retain_edges_spec keep reg s) as (H1 & H2 & H3).
  destruct (IH (retain_edges keep reg s)) as (G1 & G2 & G3). split_and!.
  - rewrite G1 at 1. rewrite H1 at 2. done.
  - intros s'. rewrite G2, H2. destruct (decide (s' = s)) as [->|Hne].
    + destruct (decide (s ∈ s :: ss)) as [_|Hn]; [|exfalso; apply Hn; by left].
      destruct (decide (s = s)) as [_|]; [|done]. destruct (decide (s ∈ ss)); [|done].
      rewrite list_filter_filter_l; [done|]. tauto.
    + destruct (decide (s' = s)) as [|_]; [done|].
      destruct (decide (s' ∈ ss)), (decide (s' ∈ s :: ss)) as [Hin|Hn]; try done.
      * exfalso. apply Hn. by right.
      * apply elem_of_cons in Hin. naive_solver.
  - intros Hf. by apply G3, H3.
Qed.

(** Taking away every edge of a dependent, from the lists where they are. *)
Lemma retain_dependent reg dep pred (E : list Edge) :
  (forall e s, occ e (edges_of reg s) = if decide (ed_node_sig e = s) then occ e E else 0%nat) ->
  (forall e, ed_dependent e = dep -> occ e E = occ e (leaf_edges dep pred)) ->
  forall e s, occ e (edges_of (foldl (retain_edges (not_dependent dep)) reg (leaf_sigs pred)) s) =
    if decide (ed_node_sig e = s) then (if decide (ed_dependent e = dep) then 0 else occ e E)%nat else 0%nat.
Proof.
  intros He Hdep e s. destruct (retain_all_spec (not_dependent dep) (leaf_sigs pred) reg) as (_ & Hs & _).
  rewrite Hs. clear Hs. specialize (He e s).
  assert (Hf : occ e (filter (λ e, not_dependent dep e = true) (edges_of reg s)) =
               if decide (ed_dependent e = dep) then 0%nat else occ e (edges_of reg s)).
  { rewrite occ_filter. unfold not_dependent.
    destruct (decide (ed_dependent e = dep)) as [Hd|Hd], (decide (negb _ = true)) as [Hb|Hb]; try done.
    - by rewrite bool_decide_eq_true_2 in Hb.
    - exfalso. apply Hb. by rewrite bool_decide_eq_false_2. }
  destruct (decide (s ∈ leaf_sigs pred)) as [Hin|Hn].
  - rewrite Hf, He. by destruct (decide (ed_node_sig e = s)), (decide (ed_dependent e = dep)).
  - rewrite He. destruct (decide (ed_node_sig e = s)) as [<-|]; [|done].
    destruct (decide (ed_dependent e = dep)) as [Hd|]; [|done]. rewrite (Hdep e Hd).
    destruct (occ e (leaf_edges dep pred)) eqn:Eo; [done|]. exfalso. apply Hn.
    rewrite <- (leaf_edges_sigs dep). apply list_elem_of_In, in_map, list_elem_of_In, occ_in. lia.
Qed.

(** A dependent that goes, with the edges it had, leaves its references owed. *)
Lemma deps_release reg reg' dep pred owed' :
  (forall e s, occ e (edges_of reg s) = if decide (ed_node_sig e = s) then occ e (expected reg) else 0%nat) ->
  (forall e, occ e (expected reg) = occ e (expected reg') + occ e (leaf_edges dep pred))%nat ->
  (forall e, ed_dependent e = dep -> occ e (expected reg') = 0%nat) ->
  (forall s, edges_of reg' s = edges_of (foldl (retain_edges (not_dependent dep)) reg (leaf_sigs pred)) s) ->
  (forall s l, r_edges reg' !! s = Some l -> l <> []) ->
  (forall s, match r_nodes reg' !! s with
     | Some n => (n_refcount n + occ s (leaf_sigs pred) = length (edges_of reg s) + occ s owed')%nat /\
                 (0 < n_refcount n)%nat
     | None => length (edges_of reg s) = 0%nat /\ occ s owed' = 0%nat end) ->
  deps_ok reg' owed'.
Proof.
  intros He Hexp Hnone Hed Hf' Hn.
  assert (He' : forall e s, occ e (edges_of reg' s) = if decide (ed_node_sig e = s) then occ e (expected reg') else 0%nat).
  { intros e s. rewrite Hed, (retain_dependent reg dep pred (expected reg) He).
    - destruct (decide (ed_node_sig e = s)); [|done]. destruct (decide (ed_dependent e = dep)) as [Hd|Hd].
      + by rewrite (Hnone e Hd).
      + rewrite Hexp. assert (occ e (leaf_edges dep pred) = 0%nat); [|lia].
        destruct (occ e (leaf_edges dep pred)) eqn:Eo; [done|]. exfalso. apply Hd.
        assert (Hin : e ∈ leaf_edges dep pred) by (apply occ_in; lia).
        by apply list_elem_of_In, in_map_iff in Hin as (l & <- & _).
    - intros e' Hd. rewrite Hexp, (Hnone e' Hd). done. }
  assert (Hlen : forall s, length (edges_of reg s) = (length (edges_of reg' s) + occ s (leaf_sigs pred))%nat).
  { intros s. rewrite (edges_length reg s (λ e, He e s)), (edges_length reg' s (λ e, He' e s)).
    unfold targets. rewrite <- (leaf_edges_sigs dep), <- occ_app, <- map_app.
    apply occ_perm_iff, Permutation_map, occ_perm_iff. intros e. by rewrite occ_app, Hexp. }
  split; [exact He'| |exact Hf']. intros s. specialize (Hn s). specialize (Hlen s).
  destruct (r_nodes reg' !! s) as [n|]; [lia|]. destruct Hn as [Hz Ho]. split; [|done].
  apply nil_length_inv. lia.
Qed.
End edges.

(* ------------------------------------------------------------------ *)
(** ** Removing one node *)

Section node.
Context {FT : FloatText} {FE : FaultEnv} {D : Type} {MP : MembershipPipeline D} {ML : MembershipLaws D}.
Implicit Types (reg : SubqueryRegistry D).

Lemma retain_only_edges keep ss : forall reg1 reg2, r_edges reg1 = r_edges reg2 ->
  r_edges (foldl (retain_edges keep) reg1 ss) = r_edges (foldl (retain_edges keep) reg2 ss).
Proof.
  induction ss as [|s ss IH]; intros reg1 reg2 H; simpl; [done|]. apply IH. unfold retain_edges. rewrite H.
  by destruct (r_edges reg2 !! s).
Qed.

Definition drop_holders (sig : SubquerySig) (held : list Z) (t : TemplateGroup) : TemplateGroup :=
  foldl (λ t id, remove_holder id sig t) t held.

Lemma drop_holders_core sig held : forall t, template_core (drop_holders sig held t) = template_core t.
Proof.
  induction held as [|id held IH]; intros t; [done|].
  change (drop_holders sig (id :: held) t) with (drop_holders sig held (remove_holder id sig t)).
  by rewrite IH, template_core_remove.
Qed.
Lemma drop_holders_in sig held id s : forall t,
  s ∈ default ∅ (tg_pk_nodes (drop_holders sig held t) !! id) <->
  ~ (id ∈ held /\ s = sig) /\ s ∈ default ∅ (tg_pk_nodes t !! id).
Proof.
  induction held as [|id0 held IH]; intros t.
  { split; [|by intros [_ ?]]. intros ?. split; [|done]. by intros [?%not_elem_of_nil _]. }
  change (drop_holders sig (id0 :: held) t) with (drop_holders sig held (remove_holder id0 sig t)).
  rewrite IH, remove_holder_in, elem_of_cons. naive_solver.
Qed.
Lemma fold_holders k sig held : forall reg,
  foldl (λ reg id, on_template k (remove_holder id sig) reg) reg held =
  set_templates (alter (drop_holders sig held) k (r_templates reg)) reg.
Proof.
  induction held as [|id held IH]; intros reg; simpl.
  - assert (E : alter (drop_holders sig []) k (r_templates reg) = r_templates reg); [|rewrite E; by destruct reg].
    apply map_eq. intros k'. rewrite lookup_alter. destruct (decide (k = k')) as [->|]; [|done].
    destruct (r_templates reg !! k'); reflexivity.
  - rewrite IH. unfold on_template. simpl.
    assert (E : alter (drop_holders sig held) k (alter (remove_holder id sig) k (r_templates reg)) =
                alter (drop_holders sig (id :: held)) k (r_templates reg)); [|by rewrite E].
    apply map_eq. intros k'. destruct (decide (k = k')) as [->|].
    + rewrite !lookup_alter_eq. destruct (r_templates reg !! k'); reflexivity.
    + by rewrite !lookup_alter_ne.
Qed.

(** The parts of a removal. *)
Definition held_keys reg (n : SubqueryNode) : list Z := (contributor_entries (r_circuit reg) (n_node_id n)).*1.
Definition templates_without (sig : SubquerySig) (n : SubqueryNode) (held : list Z)
    (m : gmap str TemplateGroup) : gmap str TemplateGroup :=
  match m !! n_template_key n with
  | None => m
  | Some t =>
      let t' := drop_holders sig held t in
      let binds := delete (n_bind n) (tg_binds t) in
      if bool_decide (binds = ∅) then delete (n_template_key n) m
      else <[n_template_key n := template_with binds (tg_pk_nodes t') t']> m
  end.

Lemma remove_node_parts reg sig n : r_nodes reg !! sig = Some n ->
  exists es,
  remove_node_with_state reg sig =
    (set_edges es (set_templates (templates_without sig n (held_keys reg n) (r_templates reg))
       (set_node_by_id (delete (n_node_id n) (r_node_by_id reg)) (set_nodes (delete sig (r_nodes reg)) reg))),
     map (λ id, ((n_node_id n, id), ADelete)) (held_keys reg n), leaf_sigs (n_pred n)) /\
  es = r_edges (remove_node_edges sig (leaf_sigs (n_pred n)) reg).
Proof.
  intros Hn. eexists. split; [|done]. unfold remove_node_with_state. rewrite Hn. cbv zeta. rewrite fold_holders.
  match goal with |- (?a, ?b, ?c) = (?a', _, _) => cut (a = a'); [by intros ->|] end. unfold remove_node_edges at 1.
  match goal with |- foldl _ (set_edges ?m ?r) _ = _ => set (reg2 := r) end.
  destruct (retain_all_spec (not_dependent (DNode sig)) (leaf_sigs (n_pred n)) (set_edges (delete sig (r_edges reg2)) reg2))
    as (-> & _ & _).
  assert (H2 : reg2 = set_templates (templates_without sig n (held_keys reg n) (r_templates reg))
       (set_node_by_id (delete (n_node_id n) (r_node_by_id reg)) (set_nodes (delete sig (r_nodes reg)) reg))).
  { unfold reg2, remove_node_entry, templates_without. simpl. rewrite lookup_alter_eq.
    destruct (r_templates reg !! n_template_key n) as [t|] eqn:Et; simpl.
    - assert (Hb : tg_binds (drop_holders sig (held_keys reg n) t) = tg_binds t)
        by exact (f_equal tg_binds (drop_holders_core sig (held_keys reg n) t)).
      unfold held_keys in *. rewrite Hb. unfold set_templates, set_node_by_id, set_nodes. simpl. f_equal.
      case_bool_decide; apply map_eq; intros k.
      + destruct (decide (k = n_template_key n)) as [->|]; [by rewrite !lookup_delete_eq|].
        by rewrite !lookup_delete_ne, lookup_alter_ne.
      + destruct (decide (k = n_template_key n)) as [->|]; [by rewrite !lookup_insert_eq|].
        by rewrite !lookup_insert_ne, lookup_alter_ne.
    - unfold set_templates, set_node_by_id, set_nodes. simpl. f_equal. apply map_eq. intros k.
      rewrite lookup_alter. case_decide; [subst k; by rewrite Et|done]. }
  rewrite <- H2. unfold remove_node_edges.
  rewrite (retain_only_edges _ _ (set_edges (delete sig (r_edges reg)) reg) (set_edges (delete sig (r_edges reg2)) reg2)).
  - done.
  - simpl. by rewrite H2.
Qed.
(** ** Its effect on the sets *)

Lemma fold_deletes i held : forall (H : Held) j id,
  foldl assert_one H (map (λ id, ((i, id), ADelete)) held) !! (j, id) =
  if decide (j = i /\ id ∈ held) then None else H !! (j, id).
Proof.
  induction held as [|id0 held IH]; intros H j id; simpl.
  { rewrite decide_False; [done|]. by intros [_ ?%not_elem_of_nil]. }
  rewrite IH. unfold assert_one. simpl. destruct (decide (j = i /\ id ∈ held)) as [[-> Hin]|Hn].
  - rewrite decide_True; [done|]. split; [done|by right].
  - destruct (decide (j = i /\ id ∈ id0 :: held)) as [[-> [->|Hin]%elem_of_cons]|Hn'].
    + by rewrite lookup_delete_eq.
    + by destruct Hn.
    + rewrite lookup_delete_ne; [done|]. intros [= <- <-]. apply Hn'. split; [done|by left].
Qed.

(** The relation without a node's contributions. *)
Lemma held_keys_in reg H n id : sets_ok reg H ->
  (forall id, mp_held (r_circuit reg) !! (n_node_id n, id) = H !! (n_node_id n, id)) ->
  id ∈ held_keys reg n <-> is_Some (H !! (n_node_id n, id)).
Proof.
  intros Hok Hsame. unfold held_keys. rewrite list_elem_of_fmap. split.
  - intros ([id' v] & -> & Hin). apply contributor_entries_node in Hin. simpl. rewrite <- Hsame. by eexists.
  - intros Hs. destruct (so_keys _ _ Hok _ _ Hs) as [Hge _]. rewrite <- Hsame in Hs.
    apply contributor_entries_spec in Hs as [v Hv]; [|done]. by exists (id, v).
Qed.

Lemma remove_relation reg H n i id : sets_ok reg H ->
  (forall id, mp_held (r_circuit reg) !! (n_node_id n, id) = H !! (n_node_id n, id)) ->
  foldl assert_one H (map (λ id, ((n_node_id n, id), ADelete)) (held_keys reg n)) !! (i, id) =
  if decide (i = n_node_id n) then None else H !! (i, id).
Proof.
  intros Hok Hsame. rewrite fold_deletes. destruct (decide (i = n_node_id n)) as [->|Hne].
  - destruct (decide (n_node_id n = n_node_id n /\ id ∈ held_keys reg n)) as [|Hn]; [done|].
    apply eq_None_not_Some. intros Hs. apply Hn. split; [done|]. by apply (held_keys_in reg H).
  - rewrite decide_False; [done|]. naive_solver.
Qed.

Lemma templates_without_lookup sig n held m k t' : templates_without sig n held m !! k = Some t' ->
  exists t, m !! k = Some t /\
    (if decide (k = n_template_key n)
     then t' = template_with (delete (n_bind n) (tg_binds t)) (tg_pk_nodes (drop_holders sig held t)) t
     else t' = t).
Proof.
  unfold templates_without. destruct (m !! n_template_key n) as [t|] eqn:Et.
  - assert (He : forall b p, template_with b p (drop_holders sig held t) = template_with b p t).
    { intros b p. pose proof (drop_holders_core sig held t) as Hc.
      exact (f_equal (template_with b p) Hc). }
    case_bool_decide as Hb.
    + intros [Hne Hk]%lookup_delete_Some. exists t'. by rewrite decide_False by done.
    + intros [[<- <-]|[Hne Hk]]%lookup_insert_Some.
      * exists t. by rewrite decide_True, He by done.
      * exists t'. by rewrite decide_False by done.
  - intros Hk. exists t'. rewrite decide_False; [done|]. congruence.
Qed.

Lemma templates_without_filled (sig : SubquerySig) (n : SubqueryNode) (held : list Z) (m : gmap str TemplateGroup) :
  (forall k t, m !! k = Some t -> tg_binds t <> ∅) ->
  forall k t, templates_without sig n held m !! k = Some t -> tg_binds t <> ∅.
Proof.
  intros Hm k t. unfold templates_without. destruct (m !! n_template_key n) as [t0|]; [|apply Hm].
  case_bool_decide as Hb.
  - intros [_ Hk]%lookup_delete_Some. by eapply Hm.
  - by intros [[_ <-]|[_ Hk]]%lookup_insert_Some; [|eapply Hm].
Qed.

Lemma templates_kept sig n held m k t : m !! k = Some t ->
  (k = n_template_key n -> delete (n_bind n) (tg_binds t) <> ∅) ->
  templates_without sig n held m !! k = Some
    (if decide (k = n_template_key n)
     then template_with (delete (n_bind n) (tg_binds t)) (tg_pk_nodes (drop_holders sig held t)) t else t).
Proof.
  intros Hk Hb. unfold templates_without. destruct (decide (k = n_template_key n)) as [->|Hne].
  - rewrite Hk. rewrite bool_decide_eq_false_2 by (by apply Hb). rewrite lookup_insert_eq.
    pose proof (drop_holders_core sig held t) as Hc. f_equal. exact (f_equal (template_with _ _) Hc).
  - destruct (m !! n_template_key n); [|done].
    case_bool_decide; [by rewrite lookup_delete_ne|by rewrite lookup_insert_ne].
Qed.

Lemma remove_sets reg H sig n es : sets_ok reg H -> r_nodes reg !! sig = Some n ->
  (forall id, mp_held (r_circuit reg) !! (n_node_id n, id) = H !! (n_node_id n, id)) ->
  sets_ok (set_edges es (set_templates (templates_without sig n (held_keys reg n) (r_templates reg))
            (set_node_by_id (delete (n_node_id n) (r_node_by_id reg)) (set_nodes (delete sig (r_nodes reg)) reg))))
    (foldl assert_one H (map (λ id, ((n_node_id n, id), ADelete)) (held_keys reg n))).
Proof.
  intros Hok Hn Hsame. pose proof (λ i id, remove_relation reg H n i id Hok Hsame) as HH.
  set (H' := foldl assert_one H _) in *.
  assert (Hother : forall s m, r_nodes reg !! s = Some m -> s <> sig -> n_node_id m <> n_node_id n)
    by (intros s m Hs Hne He; apply Hne; by eapply (so_inj _ _ _ _ _ _ Hok)).
  split; simpl.
  - apply Hok.
  - intros s m [Hne Hs]%lookup_delete_Some. rewrite lookup_delete_ne; [by eapply so_by_id|].
    intros He. by apply (Hother s m).
  - intros i s [Hne Hi]%lookup_delete_Some. destruct (so_numbered _ _ Hok _ _ Hi) as (m & Hs & <-).
    exists m. rewrite lookup_delete_ne; [done|]. intros <-. apply Hne. congruence.
  - intros i id Hs. rewrite HH in Hs. destruct (decide (i = n_node_id n)); [by destruct Hs|]. by eapply so_keys.
  - intros s m [Hne Hs]%lookup_delete_Some.
    destruct (so_holders _ _ Hok _ _ Hs) as (t & Ht & Hb & Hi & Hp & Hh).
    assert (Hbind : n_template_key m = n_template_key n -> n_bind m <> n_bind n).
    { intros Hk He. destruct (so_holders _ _ Hok _ _ Hn) as (t' & Ht' & Hb' & _). rewrite Hk in Ht. congruence. }
    eexists. split; [apply templates_kept; [done|]|].
    + intros Hk He. apply (f_equal (.!! n_bind m)) in He. rewrite lookup_delete_ne in He; [|by apply not_eq_sym, Hbind].
      rewrite lookup_empty in He. congruence.
    + assert (Hx : forall id, s ∈ default ∅ (tg_pk_nodes t !! id) <-> is_Some (H' !! (n_node_id m, id))).
      { intros id. rewrite HH, decide_False by (by apply (Hother s m)). apply Hh. }
      destruct (decide (n_template_key m = n_template_key n)) as [Hk|]; [|done]. simpl. split_and!; [|done..|].
      * rewrite lookup_delete_ne; [done|]. by apply not_eq_sym, Hbind.
      * intros id. rewrite drop_holders_in, <- Hx. naive_solver.
  - intros k t b s (t0 & Ht0 & Ht)%templates_without_lookup Hb.
    assert (Hb0 : tg_binds t0 !! b = Some s /\ (k = n_template_key n -> b <> n_bind n)).
    { destruct (decide (k = n_template_key n)); subst t; [|done]. simpl in Hb.
      apply lookup_delete_Some in Hb as [? ?]. split; [done|congruence]. }
    destruct Hb0 as [Hb0 Hne]. destruct (so_binds _ _ Hok _ _ _ _ Ht0 Hb0) as (m & Hs & <- & <-).
    exists m. rewrite lookup_delete_ne; [done|]. intros <-. assert (m = n) as -> by congruence. by apply Hne.
  - intros k t id s (t0 & Ht0 & Ht)%templates_without_lookup Hs.
    assert (Hs0 : s ∈ default ∅ (tg_pk_nodes t0 !! id) /\ (k = n_template_key n -> ~ (id ∈ held_keys reg n /\ s = sig))).
    { destruct (decide (k = n_template_key n)); subst t; [|done]. simpl in Hs. by apply drop_holders_in in Hs as [? ?]. }
    destruct Hs0 as [Hs0 Hno]. destruct (so_holder_nodes _ _ Hok _ _ _ _ Ht0 Hs0) as (m & Hm & <-).
    exists m. rewrite lookup_delete_ne; [done|]. intros <-. assert (m = n) as -> by congruence.
    apply (Hno eq_refl). split; [|done]. apply (held_keys_in reg H); [done..|].
    destruct (so_holders _ _ Hok _ _ Hn) as (t1 & Ht1 & _ & _ & _ & Hh). apply Hh.
    assert (t1 = t0) as -> by congruence. done.
Qed.
End node.

(* ------------------------------------------------------------------ *)
(** ** The cascade *)

Section cascade.
Context {FT : FloatText} {FE : FaultEnv} {D : Type} {MP : MembershipPipeline D} {ML : MembershipLaws D}.
Implicit Types (reg : SubqueryRegistry D).

Definition owing reg : nat := length (refs_of (node_preds reg)).

Lemma node_preds_delete reg s : n_pred <$> delete s (r_nodes reg) = delete s (node_preds reg).
Proof. unfold node_preds. by rewrite fmap_delete. Qed.

Lemma edges_from_node e s ps : ed_dependent e = DNode s -> ps !! s = None -> occ e (edges_from ps) = 0%nat.
Proof.
  intros Hd Hs. destruct (occ e (edges_from ps)) eqn:E; [done|]. exfalso.
  assert (Hin : e ∈ edges_from ps) by (apply occ_in; lia).
  apply list_elem_of_In, in_concat in Hin as (l & ([s' p] & <- & Hp)%in_map_iff & Hl).
  apply in_map_iff in Hl as (lf & <- & _). injection Hd as ->. apply list_elem_of_In, elem_of_map_to_list in Hp.
  simpl in *. congruence.
Qed.
Lemma edges_from_shape e id ps : ed_dependent e = DShape id -> occ e (edges_from ps) = 0%nat.
Proof.
  intros Hd. destruct (occ e (edges_from ps)) eqn:E; [done|]. exfalso.
  assert (Hin : e ∈ edges_from ps) by (apply occ_in; lia).
  apply list_elem_of_In, in_concat in Hin as (l & ([s' p] & <- & Hp)%in_map_iff & Hl).
  by apply in_map_iff in Hl as (lf & <- & _).
Qed.
Lemma shape_edges_dep e reg s : ed_dependent e = DNode s -> occ e (shape_edges reg ++ pending_edges reg) = 0%nat.
Proof.
  intros Hd. destruct (occ e _) eqn:E; [done|]. exfalso.
  assert (Hin : e ∈ shape_edges reg ++ pending_edges reg) by (apply occ_in; lia).
  apply elem_of_app in Hin as [Hin|Hin];
    apply list_elem_of_In, in_concat in Hin as (l & (x & <- & _)%in_map_iff & Hl); by apply in_map_iff in Hl as (lf & <- & _).
Qed.

(** Giving up the last reference to a node. *)
Lemma remove_deps reg sig n es m i stack : deps_ok reg (sig :: stack) -> r_nodes reg !! sig = Some n ->
  n_refcount n = 1%nat -> es = r_edges (remove_node_edges sig (leaf_sigs (n_pred n)) reg) ->
  deps_ok (set_edges es (set_templates m (set_node_by_id i (set_nodes (delete sig (r_nodes reg)) reg))))
    (reverse (leaf_sigs (n_pred n)) ++ stack).
Proof.
  intros [He Hr Hf] Hn H1 ->. set (reg' := set_edges _ _).
  pose proof (Hr sig) as Hsig. rewrite Hn, H1, occ_cons, decide_True in Hsig by done.
  assert (Hnil : edges_of reg sig = []) by (apply nil_length_inv; lia).
  assert (Hps : node_preds reg = <[sig := n_pred n]> (delete sig (node_preds reg))).
  { rewrite insert_delete_eq, insert_id; [done|]. unfold node_preds. by rewrite lookup_fmap, Hn. }
  assert (Hps' : node_preds reg' = delete sig (node_preds reg)) by apply node_preds_delete.
  assert (Hexp : forall e, occ e (expected reg) = (occ e (expected reg') + occ e (leaf_edges (DNode sig) (n_pred n)))%nat).
  { intros e. unfold expected. rewrite Hps', !occ_app. change (shape_edges reg') with (shape_edges reg).
    change (pending_edges reg') with (pending_edges reg). rewrite Hps at 1.
    rewrite edges_from_insert by apply lookup_delete_eq. rewrite occ_app. lia. }
  assert (Hsame : forall s, edges_of (set_edges (delete sig (r_edges reg)) reg) s = edges_of reg s).
  { intros s. unfold edges_of. simpl. destruct (decide (s = sig)) as [->|]; [|by rewrite lookup_delete_ne].
    rewrite lookup_delete_eq. symmetry. exact Hnil. }
  assert (Ht : targets reg ≡ₚ targets reg' ++ leaf_sigs (n_pred n)).
  { rewrite <- (leaf_edges_sigs (DNode sig)). unfold targets. rewrite <- map_app. apply Permutation_map, occ_perm_iff.
    intros e. by rewrite Hexp, occ_app. }
  destruct (retain_all_spec (not_dependent (DNode sig)) (leaf_sigs (n_pred n)) (set_edges (delete sig (r_edges reg)) reg))
    as (_ & Hed & Hfill).
  apply (deps_release reg reg' (DNode sig) (n_pred n)); [done|done| | | |].
  - intros e Hd. unfold expected. rewrite app_assoc, occ_app, (shape_edges_dep e reg' sig Hd), Hps'.
    rewrite (edges_from_node e sig); [done|done|apply lookup_delete_eq].
  - intros s. change (edges_of reg' s) with (edges_of (remove_node_edges sig (leaf_sigs (n_pred n)) reg) s).
    unfold remove_node_edges. rewrite Hed, Hsame.
    destruct (retain_all_spec (not_dependent (DNode sig)) (leaf_sigs (n_pred n)) reg) as (_ & -> & _). done.
  - apply Hfill. simpl. intros s l [_ Hl]%lookup_delete_Some. by eapply Hf.
  - intros s. simpl. assert (Ho : occ s (reverse (leaf_sigs (n_pred n)) ++ stack) =
      (occ s (leaf_sigs (n_pred n)) + occ s stack)%nat) by (by rewrite occ_app, reverse_Permutation).
    assert (Hl : length (edges_of reg s) = (occ s (targets reg') + occ s (leaf_sigs (n_pred n)))%nat)
      by (by rewrite (edges_length reg s (λ e, He e s)), Ht, occ_app).
    specialize (Hr s). destruct (decide (s = sig)) as [->|Hne].
    + rewrite lookup_delete_eq, Ho, Hnil. rewrite Hnil in Hl. simpl in Hl |- *. lia.
    + rewrite lookup_delete_ne by done. rewrite occ_cons, decide_False in Hr by congruence.
      destruct (r_nodes reg !! s) as [n'|]; rewrite Ho; [lia|]. destruct Hr as [Hz Hs]. rewrite Hz in Hl |- *.
      simpl in Hl |- *. lia.
Qed.

(** Giving up a reference that is not the last. *)
Lemma unref_deps reg sig n stack : deps_ok reg (sig :: stack) -> r_nodes reg !! sig = Some n ->
  n_refcount n <> 1%nat ->
  deps_ok (set_nodes (<[sig := node_with_refcount (Nat.pred (n_refcount n)) n]> (r_nodes reg)) reg) stack.
Proof.
  intros [He Hr Hf] Hn H1.
  assert (Hps : node_preds (set_nodes (<[sig := node_with_refcount (Nat.pred (n_refcount n)) n]> (r_nodes reg)) reg) =
                node_preds reg).
  { unfold node_preds. simpl. rewrite fmap_insert. apply insert_id. by rewrite lookup_fmap, Hn. }
  set (reg' := set_nodes _ reg) in *.
  assert (Hexp : expected reg' = expected reg) by (unfold expected; by rewrite Hps).
  split; [by rewrite Hexp| |done]. intros s. specialize (Hr s). change (edges_of reg' s) with (edges_of reg s).
  unfold reg'. simpl. rewrite occ_cons in Hr. destruct (decide (s = sig)) as [->|Hne].
  - rewrite lookup_insert_eq. rewrite Hn, decide_True in Hr by done. simpl. lia.
  - rewrite lookup_insert_ne by done. by rewrite decide_False in Hr by congruence.
Qed.
End cascade.

Section loop.
Context {FT : FloatText} {FE : FaultEnv} {D : Type} {MP : MembershipPipeline D} {ML : MembershipLaws D}.
Implicit Types (reg : SubqueryRegistry D).

(** The relation once the assertions collected so far are applied. *)
Definition to_be reg (asserts : list (PkKey * Assert)) : Held := foldl assert_one (mp_held (r_circuit reg)) asserts.

(** The loop, started from [reg0], with [asserts] collected and [stack] to do. *)
Record dropping reg0 reg (asserts : list (PkKey * Assert)) (stack : list SubquerySig) : Prop := {
  dr_deps : deps_ok reg stack;
  dr_sets : sets_ok reg (to_be reg0 asserts);
  dr_rest : reg = set_edges (r_edges reg) (set_templates (r_templates reg)
                    (set_node_by_id (r_node_by_id reg) (set_nodes (r_nodes reg) reg0)));
  dr_nodes : forall s n, r_nodes reg !! s = Some n ->
    exists n0, r_nodes reg0 !! s = Some n0 /\ n = node_with_refcount (n_refcount n) n0;
  dr_held : forall s n id, r_nodes reg0 !! s = Some n ->
    to_be reg0 asserts !! (n_node_id n, id) =
      match r_nodes reg !! s with Some _ => mp_held (r_circuit reg0) !! (n_node_id n, id) | None => None end;
  dr_filled : (forall k t, r_templates reg0 !! k = Some t -> tg_binds t <> ∅) ->
    forall k t, r_templates reg !! k = Some t -> tg_binds t <> ∅
}.

Lemma to_be_app reg a b : to_be reg (a ++ b) = foldl assert_one (to_be reg a) b.
Proof. apply foldl_app. Qed.

Lemma drop_unref reg0 reg asserts sig n stack : dropping reg0 reg asserts (sig :: stack) ->
  r_nodes reg !! sig = Some n -> n_refcount n <> 1%nat ->
  dropping reg0 (set_nodes (<[sig := node_with_refcount (Nat.pred (n_refcount n)) n]> (r_nodes reg)) reg) asserts stack.
Proof.
  intros [Hd Hs Hr Hn Hh Hf] E H1. destruct (Hn _ _ E) as (n0 & E0 & Hn0). split; [| | | | |done].
  - by apply unref_deps.
  - apply sets_ok_nodes; [|done]. intros s. destruct (decide (s = sig)) as [->|Hne];
      [by rewrite lookup_insert_eq, E|by rewrite lookup_insert_ne].
  - rewrite Hr at 2. done.
  - intros s m. simpl. intros [[<- <-]|[_ Hm]]%lookup_insert_Some; [|by apply Hn].
    exists n0. split; [done|]. by rewrite Hn0.
  - intros s m id Hm. rewrite (Hh _ _ _ Hm). simpl. destruct (decide (s = sig)) as [->|Hne];
      [by rewrite lookup_insert_eq, E|by rewrite lookup_insert_ne].
Qed.

Lemma drop_remove reg0 reg asserts sig n stack : sets_ok reg0 (mp_held (r_circuit reg0)) ->
  dropping reg0 reg asserts (sig :: stack) ->
  r_nodes reg !! sig = Some n -> n_refcount n = 1%nat ->
  exists reg' more,
    remove_node_with_state (set_nodes (<[sig := node_with_refcount 0 n]> (r_nodes reg)) reg) sig =
      (reg', more, leaf_sigs (n_pred n)) /\
    r_nodes reg' = delete sig (r_nodes reg) /\
    dropping reg0 reg' (asserts ++ more) (reverse (leaf_sigs (n_pred n)) ++ stack).
Proof.
  intros Hok0 [Hd Hs Hr Hn Hh Hf] E H1. destruct (Hn _ _ E) as (n0 & E0 & Hn0).
  set (reg1 := set_nodes _ reg). set (n1 := node_with_refcount 0 n).
  assert (E1 : r_nodes reg1 !! sig = Some n1) by apply lookup_insert_eq.
  assert (Hdel : delete sig (r_nodes reg1) = delete sig (r_nodes reg)) by apply delete_insert_eq.
  assert (Hid : n_node_id n1 = n_node_id n0) by exact (f_equal n_node_id Hn0).
  destruct (remove_node_parts reg1 sig n1 E1) as (es & -> & Hes). rewrite Hdel.
  assert (Hs1 : sets_ok reg1 (to_be reg0 asserts)).
  { apply sets_ok_nodes; [|done]. intros s. destruct (decide (s = sig)) as [->|Hne];
      [by rewrite lookup_insert_eq, E|by rewrite lookup_insert_ne]. }
  assert (Hc : r_circuit reg1 = r_circuit reg0) by (change (r_circuit reg1) with (r_circuit reg); by rewrite Hr).
  assert (Hsame : forall id, mp_held (r_circuit reg1) !! (n_node_id n1, id) = to_be reg0 asserts !! (n_node_id n1, id)).
  { intros id. by rewrite Hid, (Hh _ _ _ E0), E, Hc. }
  do 2 eexists. split; [done|]. split; [done|].
  pose proof (remove_sets reg1 _ sig n1 es Hs1 E1 Hsame) as Hsets. rewrite Hdel in Hsets. split; simpl.
  - refine (remove_deps reg sig n es _ _ stack Hd E H1 _). rewrite Hes. by apply retain_only_edges.
  - rewrite to_be_app. exact Hsets.
  - unfold reg1. rewrite Hr. reflexivity.
  - intros s m [_ Hm]%lookup_delete_Some. by apply Hn.
  - intros s m id Hm. rewrite to_be_app, (remove_relation reg1 _ n1 _ _ Hs1 Hsame), Hid.
    destruct (decide (s = sig)) as [->|Hne].
    + rewrite lookup_delete_eq. assert (m = n0) as -> by congruence. by rewrite decide_True.
    + rewrite lookup_delete_ne by done. rewrite decide_False; [by apply Hh|].
      intros He. apply Hne. by eapply (so_inj _ _ _ _ _ _ Hok0).
  - intros H0. by apply templates_without_filled, Hf.
Qed.

(** Enough fuel: every node that goes takes its references with it. *)
Lemma decref_loop_ok reg0 fuel : sets_ok reg0 (mp_held (r_circuit reg0)) ->
  forall reg asserts stack, (length stack + owing reg <= fuel)%nat -> dropping reg0 reg asserts stack ->
  exists reg' asserts', decref_loop fuel reg asserts stack = (reg', asserts', []) /\ dropping reg0 reg' asserts' [].
Proof.
  intros Hok0. induction fuel as [|fuel IH]; intros reg asserts [|sig stack] Hf Hdr; simpl in Hf |- *;
    [by eauto|lia|by eauto|].
  pose proof (dp_refs _ _ (dr_deps _ _ _ _ Hdr) sig) as Hsig. rewrite occ_cons, decide_True in Hsig by done.
  destruct (r_nodes reg !! sig) as [n|] eqn:E; [|lia]. simpl. case_bool_decide as H0.
  - assert (H1 : n_refcount n = 1%nat) by lia.
    destruct (drop_remove reg0 reg asserts sig n stack Hok0 Hdr E H1) as (reg' & more & Hrm & Hns & Hdr').
    rewrite H1. simpl. rewrite Hrm. apply IH; [|done]. rewrite length_app, length_reverse.
    assert (Hps : node_preds reg = <[sig := n_pred n]> (node_preds reg')).
    { unfold node_preds. rewrite Hns, fmap_delete, insert_delete_eq, insert_id; [done|]. by rewrite lookup_fmap, E. }
    unfold owing in Hf. rewrite Hps, refs_of_insert in Hf.
    + rewrite length_app in Hf. unfold owing. lia.
    + unfold node_preds. by rewrite Hns, lookup_fmap, lookup_delete_eq.
  - apply IH; [|by apply drop_unref; [..|lia]].
    assert (Hps : node_preds (set_nodes (<[sig := node_with_refcount (Nat.pred (n_refcount n)) n]> (r_nodes reg)) reg) =
                  node_preds reg).
    { unfold node_preds. simpl. rewrite fmap_insert. apply insert_id. by rewrite lookup_fmap, E. }
    unfold owing. rewrite Hps. unfold owing in Hf. lia.
Qed.

Lemma node_leaves_owing reg : node_leaves reg = owing reg.
Proof.
  unfold node_leaves, owing, refs_of, node_preds. rewrite map_to_list_fmap. f_equal. f_equal.
  induction (map_to_list (r_nodes reg)) as [|e l IH]; [done|]. simpl. by rewrite IH.
Qed.

(** Dropping a list of references that the account has as owed. *)
Lemma decref_nodes_ok reg sigs : sets_ok reg (mp_held (r_circuit reg)) -> circuit_runs (r_circuit reg) ->
  deps_ok reg sigs ->
  exists reg1 asserts, dropping reg reg1 asserts [] /\
    decref_nodes reg sigs = set_circuit (r_circuit (decref_nodes reg sigs)) reg1 /\
    mp_held (r_circuit (decref_nodes reg sigs)) = to_be reg asserts.
Proof.
  intros Hok Hrun Hd. unfold decref_nodes.
  destruct (decref_loop_ok reg (length sigs + node_leaves reg) Hok reg [] (reverse sigs)) as (reg1 & asserts & -> & Hdr).
  { by rewrite length_reverse, node_leaves_owing. }
  { split; [|done|by destruct reg| | |done].
    - destruct Hd as [He Hr Hf]. split; [done| |done]. intros s. specialize (Hr s).
      destruct (r_nodes reg !! s); by rewrite reverse_Permutation.
    - intros s n Hs. exists n. split; [done|by destruct n].
    - intros s n id Hs. by rewrite Hs. }
  assert (Hc : r_circuit reg1 = r_circuit reg) by (by rewrite (dr_rest _ _ _ _ Hdr)).
  exists reg1, asserts. split; [done|]. unfold apply_asserts.
  destruct (circuit_apply (r_circuit reg1) asserts) as [d ds] eqn:Ea. simpl. split; [done|].
  rewrite Hc in Ea. destruct (circuit_apply_spec _ _ _ _ (λ _, Hrun asserts) Ea) as (-> & _). done.
Qed.
End loop.

(* ------------------------------------------------------------------ *)
(** ** Dropping a shape *)

Section drop.
Context {FT : FloatText} {FE : FaultEnv} {D : Type} {MP : MembershipPipeline D} {ML : MembershipLaws D}.
Implicit Types (reg : SubqueryRegistry D).

(** The registry once the shape itself is gone, its references not yet given up. *)
Definition shape_gone reg (id : str) (s : SubqueryShape) : SubqueryRegistry D :=
  let reg := set_shapes (delete id (r_shapes reg)) reg in
  let reg := remove_shape_edges (sh_pred s) id reg in
  let reg := set_shape_index (shape_index_remove id (r_shape_index reg)) reg in
  let reg := set_feed_by_id (delete (sh_feed_id s) (r_feed_by_id reg)) reg in
  set_feed_sets (drop_feed (sh_feed_id s) (r_feed_sets reg)) reg.

Lemma shape_gone_parts reg id s : exists es, shape_gone reg id s =
  set_edges es (set_feed_sets (drop_feed (sh_feed_id s) (r_feed_sets reg))
    (set_feed_by_id (delete (sh_feed_id s) (r_feed_by_id reg))
    (set_shape_index (shape_index_remove id (r_shape_index reg)) (set_shapes (delete id (r_shapes reg)) reg)))) /\
  es = r_edges (remove_shape_edges (sh_pred s) id reg).
Proof.
  eexists. split; [|done]. unfold shape_gone, remove_shape_edges.
  destruct (retain_all_spec (not_dependent (DShape id)) (leaf_sigs (sh_pred s)) (set_shapes (delete id (r_shapes reg)) reg))
    as (-> & _ & _).
  rewrite (retain_only_edges _ _ (set_shapes (delete id (r_shapes reg)) reg) reg) by done. done.
Qed.

Lemma shape_edges_other e reg id : ed_dependent e = DShape id -> r_shapes reg !! id = None ->
  Forall (λ p, ps_shape_id p <> id) (r_pending_shapes reg) -> occ e (expected reg) = 0%nat.
Proof.
  intros Hd Hs Hp. unfold expected. rewrite !occ_app, (edges_from_shape e id) by done.
  destruct (occ e (shape_edges reg)) eqn:E1.
  - destruct (occ e (pending_edges reg)) eqn:E2; [done|]. exfalso.
    assert (Hin : e ∈ pending_edges reg) by (apply occ_in; lia).
    apply list_elem_of_In, in_concat in Hin as (l & (p & <- & Hin)%in_map_iff & Hl).
    apply in_map_iff in Hl as (lf & <- & _). injection Hd as Hd. rewrite Forall_forall in Hp.
    by apply (Hp p); [apply list_elem_of_In|].
  - exfalso. assert (Hin : e ∈ shape_edges reg) by (apply occ_in; lia).
    apply list_elem_of_In, in_concat in Hin as (l & ([i s] & <- & Hin)%in_map_iff & Hl).
    apply in_map_iff in Hl as (lf & <- & _). injection Hd as ->.
    apply list_elem_of_In, elem_of_map_to_list in Hin. simpl in *. congruence.
Qed.

Lemma shape_gone_deps reg id s : deps_ok reg [] -> r_shapes reg !! id = Some s ->
  Forall (λ p, ps_shape_id p <> id) (r_pending_shapes reg) -> deps_ok (shape_gone reg id s) (leaf_sigs (sh_pred s)).
Proof.
  intros [He Hr Hf] Hs Hp. destruct (shape_gone_parts reg id s) as (es & -> & ->). set (reg' := set_edges _ _).
  destruct (retain_all_spec (not_dependent (DShape id)) (leaf_sigs (sh_pred s)) reg) as (_ & Hed & Hfill).
  apply (deps_release reg reg' (DShape id) (sh_pred s)); [done| | |done|by apply Hfill|].
  - intros e. unfold expected. rewrite !occ_app. change (pending_edges reg') with (pending_edges reg).
    change (node_preds reg') with (node_preds reg). unfold shape_edges. change (r_shapes reg') with (delete id (r_shapes reg)).
    rewrite <- (insert_id _ _ _ Hs) at 1. rewrite <- insert_delete_eq, (map_to_list_insert _ _ _ (lookup_delete_eq _ _)).
    simpl. rewrite occ_app. lia.
  - intros e Hd. apply (shape_edges_other e reg' id Hd); [apply lookup_delete_eq|done].
  - intros s'. specialize (Hr s'). change (r_nodes reg' !! s') with (r_nodes reg !! s').
    destruct (r_nodes reg !! s') as [n|]; rewrite occ_nil in Hr; [lia|]. destruct Hr as [Hz _]. rewrite Hz. split; [done|].
    destruct (occ s' (leaf_sigs (sh_pred s))) eqn:Eo; [done|]. exfalso.
    assert (Hin : s' ∈ leaf_sigs (sh_pred s)) by (apply occ_in; lia).
    rewrite <- (leaf_edges_sigs (DShape id)) in Hin.
    apply list_elem_of_In, in_map_iff in Hin as (e & <- & Hin). specialize (He e (ed_node_sig e)).
    rewrite decide_True, Hz, occ_nil in He by done.
    assert (e ∈ expected reg); [|by apply occ_in in H; lia].
    unfold expected, shape_edges. apply elem_of_app. left. apply list_elem_of_In, in_concat.
    exists (leaf_edges (DShape id) (sh_pred s)). split; [|done].
    apply in_map_iff. exists (id, s). split; [done|]. by apply list_elem_of_In, elem_of_map_to_list.
Qed.

Lemma drop_live reg reg1 id s d : live_ok reg ->
  reg1 = set_edges (r_edges reg1) (set_templates (r_templates reg1) (set_node_by_id (r_node_by_id reg1)
           (set_nodes (r_nodes reg1) (shape_gone reg id s)))) ->
  sets_ok reg1 (mp_held d) -> live_ok (set_circuit d reg1).
Proof.
  intros [_ [Hfe Hre] [Hf Hp] Hix Hrun] Hr Hs. destruct (shape_gone_parts reg id s) as (es & Hg & _). rewrite Hg in Hr.
  set (reg' := set_circuit d reg1).
  assert (Hsh : r_shapes reg' = delete id (r_shapes reg)) by (change (r_shapes reg') with (r_shapes reg1); by rewrite Hr).
  assert (Hdi : r_pk_dict reg' = r_pk_dict reg) by (change (r_pk_dict reg') with (r_pk_dict reg1); by rewrite Hr).
  assert (Hfs : r_feed_sets reg' = drop_feed (sh_feed_id s) (r_feed_sets reg))
    by (change (r_feed_sets reg') with (r_feed_sets reg1); by rewrite Hr).
  assert (Hsi : r_shape_index reg' = shape_index_remove id (r_shape_index reg))
    by (change (r_shape_index reg') with (r_shape_index reg1); by rewrite Hr).
  clear Hr Hg. split.
  - destruct Hs. by split.
  - split.
    + unfold reg_feeds_ok. rewrite Hdi, Hfs. destruct Hfe as [Hd Hk]. split; [done|]. intros feed pk.
      unfold drop_feed. destruct (decide (feed = sh_feed_id s)) as [->|]; [by rewrite lookup_delete_eq|].
      rewrite lookup_delete_ne by done. apply Hk.
    + intros i s' k. rewrite Hsh, Hdi. intros [_ Hi]%lookup_delete_Some. by eapply Hre.
  - split; intros i1 i2 s1 s2; rewrite Hsh; intros [_ H1]%lookup_delete_Some [_ H2]%lookup_delete_Some; [by eapply Hf|by eapply Hp].
  - rewrite Hsi. unfold shape_reg. rewrite Hsh, fmap_delete. by apply shape_index_remove_ok.
  - done.
Qed.

Lemma filled_refs reg sig n : deps_ok reg [] -> r_nodes reg !! sig = Some n ->
  edges_of reg sig <> [] /\ n_refcount n = length (edges_of reg sig).
Proof.
  intros Hd Hn. pose proof (dp_refs _ _ Hd sig) as H. rewrite Hn, occ_nil in H.
  split; [|lia]. destruct (edges_of reg sig); [simpl in H; lia|done].
Qed.

(** What is left of a node after a removal. *)
Definition node_left reg reg' (sig : SubquerySig) (n : SubqueryNode) : Prop :=
  match r_nodes reg' !! sig with
  | Some n' =>
      edges_of reg' sig <> [] /\ n' = node_with_refcount (length (edges_of reg' sig)) n /\
      forall pk, node_holds reg' sig pk = node_holds reg sig pk
  | None => edges_of reg' sig = [] /\ forall id, mp_held (r_circuit reg') !! (n_node_id n, id) = None
  end.

(** dropping a shape removes exactly what only it kept alive.  The shape is no longer installed,
    indexed or fed; the account of references stays exact; a node with a remaining dependent (an
    installed shape, a create in flight or a remaining node) stays, with the references it still has
    and the set it had; a node without one is gone, with every contribution it made to the membership
    relation; and the registry stays in order. *)
Theorem drop_removes_exactly reg id s :
  live_ok reg -> deps_ok reg [] -> r_shapes reg !! id = Some s ->
  Forall (λ p, ps_shape_id p <> id) (r_pending_shapes reg) ->
  let reg' := drop_subquery_shape reg id in
  live_ok reg' /\ deps_ok reg' [] /\ r_shapes reg' = delete id (r_shapes reg) /\
  (forall sig, r_nodes reg !! sig = None -> r_nodes reg' !! sig = None) /\
  (forall sig n, r_nodes reg !! sig = Some n -> node_left reg reg' sig n).
Proof.
  intros Hlive Hd Hs Hp reg'. pose proof (lv_sets _ Hlive) as Hok. pose proof (shape_gone_deps reg id s Hd Hs Hp) as Hd2.
  destruct (shape_gone_parts reg id s) as (es & Hg & _). set (reg2 := shape_gone reg id s) in *.
  assert (Hc2 : r_circuit reg2 = r_circuit reg) by (by rewrite Hg).
  assert (Hn2 : r_nodes reg2 = r_nodes reg) by (by rewrite Hg).
  assert (Hk2 : r_pk_dict reg2 = r_pk_dict reg) by (by rewrite Hg).
  assert (Hok2 : sets_ok reg2 (mp_held (r_circuit reg2))) by (rewrite Hc2, Hg; destruct Hok; by split).
  assert (Hrun : circuit_runs (r_circuit reg2)) by apply (lv_runs _ Hlive).
  destruct (decref_nodes_ok reg2 (leaf_sigs (sh_pred s)) Hok2 Hrun Hd2) as (reg1 & asserts & [D1 D2 D3 D4 D5 _] & Heq & Hheld).
  assert (Hreg' : reg' = decref_nodes reg2 (leaf_sigs (sh_pred s))) by (unfold reg', drop_subquery_shape; by rewrite Hs).
  rewrite <- Hreg' in Heq, Hheld. clear Hreg' Hd2. clearbody reg'.
  assert (Hsets : sets_ok reg1 (mp_held (r_circuit reg'))) by (by rewrite Hheld).
  assert (Hd' : deps_ok reg' []) by (rewrite Heq; destruct D1; by split).
  assert (Hnodes : r_nodes reg' = r_nodes reg1) by (by rewrite Heq).
  split_and!.
  - rewrite Heq. eapply drop_live; [done|exact D3|exact Hsets].
  - done.
  - rewrite Heq. change (r_shapes reg1 = delete id (r_shapes reg)). by rewrite D3, Hg.
  - intros sig Hno. rewrite Hnodes. destruct (r_nodes reg1 !! sig) as [n1|] eqn:E1; [|done].
    apply D4 in E1 as (n & Hn & _). rewrite Hn2 in Hn. congruence.
  - intros sig n Hn. unfold node_left. destruct (r_nodes reg' !! sig) as [n'|] eqn:E.
    + destruct (filled_refs _ _ _ Hd' E) as [Hne Hrc]. rewrite Hnodes in E. destruct (D4 _ _ E) as (n0 & Hn0 & Hn').
      rewrite Hn2 in Hn0. assert (n0 = n) as -> by congruence. rewrite <- Hrc. split_and!; [done|done|].
      intros pk. unfold node_holds, holds. rewrite Hnodes, E, Hn, Hheld. simpl.
      assert (Hdict : r_pk_dict reg' = r_pk_dict reg)
        by (rewrite Heq; change (r_pk_dict reg1 = r_pk_dict reg); by rewrite D3, <- Hk2).
      rewrite Hdict, <- Hc2. destruct (pk_get (r_pk_dict reg) pk) as [k|]; [|done]. simpl.
      rewrite <- Hn2 in Hn. specialize (D5 sig n k Hn). rewrite E in D5. etransitivity; [|exact D5]. by rewrite Hn'.
    + pose proof (dp_refs _ _ Hd' sig) as H. rewrite E in H. split; [by apply H|]. intros k. rewrite Hheld.
      rewrite Hnodes in E. rewrite <- Hn2 in Hn. specialize (D5 sig n k Hn). by rewrite E in D5.
Qed.
End drop.
