(* ===== verification/SubqFinish.v ===== *)
(** * The end of a create

    [finish_create] installs what phase B read and replays what arrived while it was read.  Here:
    what a node's set and a shape's subscriber come to, key by key; that they are exact when every
    commit the snapshot contains has reached the engine; that the hand-off of deferred work loses
    nothing; and that a failure leaves the create where [abort_create] finds it. *)

From S2P Require Import Prelude BTree Value TableRef Schema Predicate PredicateFacts Gate Output Executors.
From S2P Require Import Refine Sequencer PkDict SubqIndex SubqCircuit Subquery SubqueryFacts SubqEmit SubqLive.
From S2P Require Import SubqCreate SubqCompile.
From stdpp Require Import base option numbers strings gmap fin_maps sorting list.
#[local] Open Scope Z_scope.

(* ------------------------------------------------------------------ *)
(** ** A batch of contributions *)

(** The last thing a batch says of a key. *)
Definition last_eval (evals : list (str * option Value)) (pk : str) : option (option Value) :=
  snd <$> last (filter (λ e : str * option Value, e.1 = pk) evals).

Lemma last_eval_snoc evals k p pk : last_eval (evals ++ [(k, p)]) pk = if decide (k = pk) then Some p else last_eval evals pk.
Proof.
  unfold last_eval. rewrite filter_app, filter_cons, filter_nil. simpl. destruct (decide (k = pk)).
  - by rewrite last_snoc.
  - by rewrite app_nil_r.
Qed.
Lemma last_eval_nodup evals pk p : NoDup evals.*1 -> (pk, p) ∈ evals -> last_eval evals pk = Some p.
Proof.
  induction evals as [|[k q] evals IH] using rev_ind; [by intros _ ?%not_elem_of_nil|].
  rewrite fmap_app. intros (Hnd & Hd & _)%NoDup_app Hin. rewrite last_eval_snoc. apply elem_of_app in Hin as [Hin|Hin].
  - destruct (decide (k = pk)) as [->|]; [|by apply IH]. exfalso.
    apply (Hd pk); [|by left]. apply list_elem_of_fmap. by exists (pk, p).
  - apply list_elem_of_singleton in Hin. injection Hin as -> ->. by rewrite decide_True.
Qed.
Lemma last_eval_none evals pk : pk ∉ evals.*1 -> last_eval evals pk = None.
Proof.
  intros Hn. unfold last_eval. destruct (last (filter _ evals)) as [e|] eqn:E; [|done]. exfalso. apply Hn.
  apply last_Some_elem_of, list_elem_of_filter in E as [<- He]. apply list_elem_of_fmap. by exists e.
Qed.

Section batch.
Context {FT : FloatText} {FE : FaultEnv} {D : Type} {MP : MembershipPipeline D} {ML : MembershipLaws D}.
Implicit Types (reg : SubqueryRegistry D) (H : Held).

Lemma assert_rows_snoc reg sig evals e : assert_rows reg sig (evals ++ [e]) =
  let '(reg1, a) := assert_node_row (assert_rows reg sig evals).1 sig e.1 e.2 in
  (reg1, (assert_rows reg sig evals).2 ++ option_list a).
Proof. unfold assert_rows. by rewrite foldl_snoc. Qed.

Lemma assert_rows_frame reg sig evals : sets_frame reg (assert_rows reg sig evals).1.
Proof.
  unfold assert_rows.
  refine (foldl_frame (λ st e, let '(reg, a) := assert_node_row st.1 sig e.1 e.2 in (reg, st.2 ++ option_list a))
            evals _ (reg, [])).
  intros st e. pose proof (assert_node_row_frame st.1 sig e.1 e.2) as Hf. by destruct (assert_node_row st.1 sig e.1 e.2).
Qed.

(** Asserting touches no node. *)
Lemma assert_node_row_nodes reg sig pk p : r_nodes (assert_node_row reg sig pk p).1 = r_nodes reg.
Proof.
  unfold assert_node_row. destruct (r_nodes reg !! sig); [|done].
  destruct (get_or_insert (r_pk_dict reg) pk). by destruct p.
Qed.
Lemma assert_rows_nodes reg sig evals : r_nodes (assert_rows reg sig evals).1 = r_nodes reg.
Proof.
  induction evals as [|e evals IH] using rev_ind; [done|]. rewrite assert_rows_snoc.
  pose proof (assert_node_row_nodes (assert_rows reg sig evals).1 sig e.1 e.2) as Hn.
  destruct (assert_node_row _ _ _ _). simpl in *. congruence.
Qed.

Definition batch_holds reg H sig (evals : list (str * option Value)) (s : SubquerySig) (pk : str) : option Value :=
  match (if decide (s = sig) then last_eval evals pk else None) with
  | Some p => vkey <$> p
  | None => holds reg H s pk
  end.

Lemma assert_rows_sets reg H sig n evals : sets_ok reg H -> r_nodes reg !! sig = Some n ->
  dict_small (assert_rows reg sig evals).1 ->
  asserts_to H (reg, []) (assert_rows reg sig evals) (batch_holds reg H sig evals).
Proof.
  intros Hok Hn. induction evals as [|[k p] evals IH] using rev_ind; intros Hs.
  { apply asserts_to_refl; [done|]. intros s pk. unfold batch_holds. by destruct (decide (s = sig)). }
  rewrite assert_rows_snoc in *.
  pose proof (assert_node_row_frame (assert_rows reg sig evals).1 sig k p) as F.
  pose proof (λ H' Hok' Hn', assert_node_row_sets (assert_rows reg sig evals).1 H' sig n k p Hok' Hn') as Hstep.
  destruct (assert_node_row _ sig k p) as [reg1 a] eqn:Ea. cbn [fst snd] in *. rewrite Ea in *. cbn [fst snd] in *.
  destruct IH as (A & HA & HkA & HcA); [by eapply dict_small_frame|].
  destruct (Hstep (foldl assert_one H A) HkA) as [H1 H2]; [by rewrite assert_rows_nodes|done|].
  exists (A ++ option_list a). rewrite foldl_app. split_and!; [simpl in *; by rewrite HA|done|].
  intros s pk. simpl. rewrite H2, HcA. unfold batch_holds. rewrite last_eval_snoc.
  destruct (decide (s = sig /\ pk = k)) as [[-> ->]|Hne].
  - by rewrite !decide_True.
  - destruct (decide (s = sig)) as [->|]; [|done]. rewrite decide_False; [done|]. naive_solver.
Qed.

Lemma apply_evals_sets reg sig n asserts_evals : registry_ok reg -> circuit_runs (r_circuit reg) ->
  r_nodes reg !! sig = Some n ->
  let st := assert_rows reg sig asserts_evals in
  let reg' := (apply_asserts st.1 st.2).1 in
  dict_small reg' ->
  registry_ok reg' /\ nodes_frame reg reg' /\ r_nodes reg' = r_nodes reg /\
  forall s pk, node_holds reg' s pk = batch_holds reg (mp_held (r_circuit reg)) sig asserts_evals s pk.
Proof.
  intros Hok Hrun Hn st reg' Hs. pose proof (assert_rows_frame reg sig asserts_evals) as F. fold st in F.
  assert (Hsm : dict_small st.1).
  { unfold reg', apply_asserts in Hs. by destruct (circuit_apply (r_circuit st.1) st.2). }
  destruct (assert_rows_sets reg _ sig n asserts_evals Hok Hn Hsm) as (A & HA & HkA & HcA). fold st in HA, HkA, HcA.
  simpl in HA. pose proof (sf_circuit _ _ F) as Hc.
  destruct (apply_asserts_sets st.1 st.2 (foldl assert_one (mp_held (r_circuit reg)) A)) as [H1 H2];
    [by rewrite Hc, HA|by rewrite Hc|by rewrite Hc, HA|].
  split_and!; [done| | |].
  - eapply sets_nodes_frame; [exact F|apply apply_asserts_frame].
  - unfold reg', apply_asserts. destruct (circuit_apply (r_circuit st.1) st.2). simpl. apply assert_rows_nodes.
  - intros s pk. unfold reg'. by rewrite H2, HcA.
Qed.
End batch.

(* ------------------------------------------------------------------ *)
(** ** Replaying one buffered delta *)

Section replay.
Context {FT : FloatText} {FE : FaultEnv} {D : Type} {MP : MembershipPipeline D} {ML : MembershipLaws D}.
Implicit Types (reg : SubqueryRegistry D) (T : gmap str Row).

Lemma last_eval_single k p pk : last_eval [(k, p)] pk = if decide (k = pk) then Some p else None.
Proof. apply (last_eval_snoc []). Qed.

Lemma present_values_spec reg sig n ts T delta T' : table_ok ts T -> delta_of ts T delta T' -> r_nodes reg !! sig = Some n ->
  forall pk, last_eval (node_present_values reg sig ts delta) pk =
    match latest_rows ts delta !! pk with
    | Some _ => Some (r ← T' !! pk; contribution (n_pred n) (n_proj_col n) r (reg_eval reg))
    | None => None
    end.
Proof.
  intros Hok Hd Hn pk. unfold node_present_values. rewrite Hn. unfold latest_rows.
  destruct Hd as [|new k Hk Hfr|old new ko kn Hin Hk Hfr|old ko Hin]; try (assert (Hko := Hok _ _ Hin)).
  - done.
  - unfold foldl, present_step; cbn [fst snd]. rewrite (key_or_empty_ok _ _ _ Hk).
    rewrite (bool_decide_eq_false_2 (k ∈ [])) by apply not_elem_of_nil. change (0 <? 1) with true. cbn [app map].
    rewrite lookup_insert_eq, last_eval_single. destruct (decide (k = pk)) as [->|Hne].
    + by rewrite !lookup_insert_eq.
    + by rewrite lookup_insert_ne, lookup_empty by done.
  - unfold foldl, present_step; cbn [fst snd]. rewrite (key_or_empty_ok _ _ _ Hk), (key_or_empty_ok _ _ _ Hko).
    rewrite (bool_decide_eq_false_2 (ko ∈ [])) by apply not_elem_of_nil.
    change (0 <? 1) with true. change (0 <? -1) with false. cbn [app]. rewrite lookup_empty.
    destruct (decide (kn = ko)) as [->|Hne].
    + rewrite bool_decide_eq_true_2 by (by left). cbn [map]. rewrite lookup_insert_eq, last_eval_single.
      destruct (decide (ko = pk)) as [->|Hne].
      * by rewrite !lookup_insert_eq.
      * by rewrite !lookup_insert_ne, lookup_empty by done.
    + rewrite bool_decide_eq_false_2 by (by intros ?%list_elem_of_singleton). cbn [app map].
      rewrite lookup_insert_eq, lookup_insert_ne, lookup_empty by done.
      change [(ko, ?a); (kn, ?b)] with ([(ko, a)] ++ [(kn, b)]). rewrite last_eval_snoc, last_eval_single.
      destruct (decide (kn = pk)) as [->|Hne1]; [|destruct (decide (ko = pk)) as [->|Hne2]].
      * by rewrite !lookup_insert_eq.
      * by rewrite lookup_insert_ne, lookup_insert_eq, lookup_insert_ne, lookup_delete_eq by done.
      * by rewrite !lookup_insert_ne, lookup_empty by done.
  - unfold foldl, present_step; cbn [fst snd]. rewrite (key_or_empty_ok _ _ _ Hko).
    rewrite (bool_decide_eq_false_2 (ko ∈ [])) by apply not_elem_of_nil. change (0 <? -1) with false. cbn [app map].
    rewrite !lookup_empty, last_eval_single. destruct (decide (ko = pk)) as [->|Hne].
    + by rewrite lookup_insert_eq, lookup_delete_eq.
    + by rewrite lookup_insert_ne, lookup_empty by done.
Qed.

(** A node without its recency. *)
Definition calm (n : SubqueryNode) : SubqueryNode := node_with_recent ∅ (n_inflight n) n.

(** Only recencies, holders, the dictionary and the circuit differ. *)
Record replay_frame reg reg' : Prop := {
  rf_nodes : forall s, calm <$> r_nodes reg' !! s = calm <$> r_nodes reg !! s;
  rf_frame : nodes_frame reg reg'
}.
#[export] Instance replay_frame_preorder : PreOrder replay_frame.
Proof.
  split.
  - intros reg. split; [done|]. split; [done|done|by destruct reg].
  - intros a b c [H1 [H2 H3 H4]] [G1 [G2 G3 G4]]. split; [intros s; by rewrite G1|]. split.
    + intros s. by rewrite G2.
    + by etransitivity.
    + rewrite G4 at 1. by rewrite H4 at 1.
Qed.

Lemma replay_frame_small reg reg' : replay_frame reg reg' -> dict_small reg' -> dict_small reg.
Proof. intros [_ [_ Hd _]] Hs. apply dict_le_len in Hd. unfold dict_small in *. lia. Qed.

Lemma record_node_recency_frame sig pks lsn xid reg :
  replay_frame reg (record_node_recency sig pks lsn xid reg) /\ r_circuit (record_node_recency sig pks lsn xid reg) = r_circuit reg /\
  forall H, sets_ok reg H -> sets_ok (record_node_recency sig pks lsn xid reg) H /\
    forall s pk, holds (record_node_recency sig pks lsn xid reg) H s pk = holds reg H s pk.
Proof.
  assert (Hc : forall {B : Type} (core : SubqueryNode -> B) f s, (forall n, core (f n) = core n) ->
            core <$> r_nodes (on_node sig f reg) !! s = core <$> r_nodes reg !! s) by (intros; by apply alter_core).
  unfold record_node_recency. split_and!; [|done|].
  - split; [intros s; apply Hc; intros n; by destruct (n_inflight n =? 0)|]. split; [|done|by destruct reg].
    intros s. apply Hc. intros n. by destruct (n_inflight n =? 0).
  - intros H. apply sets_ok_nodes. intros s. apply Hc. intros n. by destruct (n_inflight n =? 0).
Qed.

Lemma apply_node_evals_frame reg sig evals : replay_frame reg (apply_node_evals reg sig evals).1.
Proof.
  unfold apply_node_evals. pose proof (assert_rows_frame reg sig evals) as F. pose proof (assert_rows_nodes reg sig evals) as N.
  destruct (assert_rows reg sig evals) as [reg1 asserts]. simpl in *.
  pose proof (apply_asserts_frame reg1 asserts) as F2.
  assert (N2 : r_nodes (apply_asserts reg1 asserts).1 = r_nodes reg1)
    by (unfold apply_asserts; by destruct (circuit_apply (r_circuit reg1) asserts)).
  destruct (apply_asserts reg1 asserts) as [reg2 flips]. simpl in *. split; [by intros s; rewrite N2, N|].
  by eapply sets_nodes_frame.
Qed.

Lemma replay_node_delta_frame sig ts st b : replay_frame st.1 (replay_node_delta sig ts st b).1.
Proof.
  unfold replay_node_delta. set (evals := node_present_values st.1 sig ts (bf_delta b)).
  destruct (record_node_recency_frame sig evals.*1 (bf_lsn b) (bf_xid b) st.1) as [F1 _].
  pose proof (apply_node_evals_frame (record_node_recency sig evals.*1 (bf_lsn b) (bf_xid b) st.1) sig evals) as F2.
  destruct (apply_node_evals _ sig evals). simpl in *. by etransitivity.
Qed.

(** Membership in a set is somebody's contribution. *)
Lemma contains_holds reg s v : registry_ok reg ->
  node_contains reg s v = true <-> exists pk, node_holds reg s pk = Some (vkey v).
Proof.
  intros Hok. unfold node_holds, holds, node_contains. destruct (r_nodes reg !! s) as [n|]; [|split; [done|by intros [? ?]]].
  rewrite circuit_contains_spec, supported_spec. simpl. split.
  - intros [k Hk]. destruct (so_keys _ _ Hok (n_node_id n) k) as [H0 Hl]; [by eexists|].
    destruct (lookup_lt_is_Some_2 (pd_reverse (r_pk_dict reg)) (Z.to_nat k)) as [pk Hpk]; [unfold pk_len in Hl; lia|].
    exists pk. unfold pk_get. rewrite (proj2 (do_ids _ (so_dict _ _ Hok) pk k)) by done. done.
  - intros [pk Hpk]. destruct (pk_get (r_pk_dict reg) pk) as [k|]; [|done]. by exists k.
Qed.

(** A node's own set is not one its predicate asks for. *)
Lemma eval_own reg reg' sig pred row : registry_ok reg -> registry_ok reg' -> sig ∉ leaf_sigs pred ->
  (forall s pk, s <> sig -> node_holds reg' s pk = node_holds reg s pk) ->
  matches_ctx pred row (reg_eval reg') = matches_ctx pred row (reg_eval reg).
Proof.
  intros H1 H2 Hn Hh.
  assert (Hc : forall s v, s <> sig -> node_contains reg' s v = node_contains reg s v).
  { intros s v Hs. apply eq_true_iff_eq. rewrite !contains_holds by done. by setoid_rewrite Hh. }
  unfold matches_ctx. f_equal. rewrite (in_leaves_reach (λ s _, s = sig) (reg_eval reg') (reg_eval reg) row pred) with (under := false); [done| |].
  - split; simpl; intros s; [intros v|]; intros Hne; (destruct (decide (s = sig)) as [->|Hs]; [|by rewrite Hc in Hne]);
      [by exists v|by exists VNull].
  - intros l Hl u Hs. exfalso. apply Hn. rewrite <- Hs. apply list_elem_of_In, in_map, list_elem_of_In. done.
Qed.
End replay.

(* ------------------------------------------------------------------ *)
(** ** A node's buffer *)

Section node.
Context {FT : FloatText} {FE : FaultEnv} {SJ : SerdeJson} {D : Type} {MP : MembershipPipeline D} {ML : MembershipLaws D}.
Implicit Types (reg : SubqueryRegistry D) (T : gmap str Row).

(** Consecutive changes of a table, as they were buffered. *)
Inductive changes (ts : TableSchema) : gmap str Row -> list BufferedDelta -> gmap str Row -> Prop :=
  | ch_nil T : changes ts T [] T
  | ch_cons T b T1 bs T2 : delta_of ts T (bf_delta b) T1 -> changes ts T1 bs T2 -> changes ts T (b :: bs) T2.

Definition touches_in (ts : TableSchema) (bs : list BufferedDelta) (pk : str) : bool :=
  existsb (λ b, match latest_rows ts (bf_delta b) !! pk with Some _ => true | None => false end) bs.

Lemma changes_untouched ts T bs T' pk : table_ok ts T -> changes ts T bs T' -> touches_in ts bs pk = false -> T' !! pk = T !! pk.
Proof.
  intros Hok Hc. revert Hok. induction Hc as [T|T b T1 bs T2 Hd Hc IH]; intros Hok; simpl; [done|].
  intros [H1 H2]%orb_false_iff. rewrite IH; [|by eapply delta_table_ok|done].
  destruct (latest_rows_delta ts T _ T1 Hok Hd) as (Hl & _). specialize (Hl pk).
  by destruct (latest_rows ts (bf_delta b) !! pk).
Qed.

Definition set_after (n : SubqueryNode) (ev : SubqueryEval) (hit : bool) (old : option Value) T (pk : str) : option Value :=
  if hit then contributions n ev T pk else old.

Lemma replay_delta_spec reg sig n ts b T T' work : registry_ok reg -> (forall d : D, circuit_runs d) ->
  r_nodes reg !! sig = Some n -> sig ∉ leaf_sigs (n_pred n) -> table_ok ts T -> delta_of ts T (bf_delta b) T' ->
  let st := replay_node_delta sig ts (reg, work) b in
  dict_small st.1 ->
  registry_ok st.1 /\ forall s pk, node_holds st.1 s pk =
    if decide (s = sig) then set_after n (reg_eval reg) (touches_in ts [b] pk) (node_holds reg s pk) T' pk
    else node_holds reg s pk.
Proof.
  intros Hok Hrun Hn Hleaf HT Hd st Hs. unfold st, replay_node_delta in *. cbn [fst snd] in *.
  set (evals := node_present_values reg sig ts (bf_delta b)) in *.
  destruct (record_node_recency_frame sig evals.*1 (bf_lsn b) (bf_xid b) reg) as ([F1 _] & Hc & Hkeep).
  destruct (Hkeep _ Hok) as [Hok1 Hh1]. set (reg1 := record_node_recency _ _ _ _ reg) in *.
  assert (Hn1 : exists n1, r_nodes reg1 !! sig = Some n1).
  { specialize (F1 sig). rewrite Hn in F1. destruct (r_nodes reg1 !! sig); [by eexists|done]. }
  destruct Hn1 as [n1 Hn1]. assert (Hok1' : registry_ok reg1) by (unfold registry_ok; by rewrite Hc).
  pose proof (apply_evals_sets reg1 sig n1 evals Hok1' (Hrun _) Hn1) as Ha. cbv zeta in Ha.
  unfold apply_node_evals in *. destruct (assert_rows reg1 sig evals) as [reg2 asserts].
  destruct (apply_asserts reg2 asserts) as [reg3 flips] eqn:Ea. cbn [fst snd] in *. rewrite Ea in Ha. cbn [fst] in Ha.
  destruct (Ha Hs) as (Hok3 & _ & _ & Hh3). split; [done|].
  intros s pk. rewrite Hh3. unfold batch_holds. rewrite Hc, Hh1. destruct (decide (s = sig)) as [->|]; [|done].
  unfold evals. rewrite (present_values_spec reg sig n ts T _ T' HT Hd Hn). unfold set_after, touches_in. simpl. rewrite orb_false_r.
  destruct (latest_rows ts (bf_delta b) !! pk) as [x|]; [|done].
  unfold contributions. by destruct (T' !! pk).
Qed.

(** The whole buffer: a key a buffered change touched is decided by the table after the last of them,
    any other keeps what the seed said. *)
Lemma replay_buffer_spec sig n ts bs : forall reg work T T', registry_ok reg -> (forall d : D, circuit_runs d) ->
  calm <$> r_nodes reg !! sig = Some (calm n) -> sig ∉ leaf_sigs (n_pred n) -> table_ok ts T -> changes ts T bs T' ->
  let st := foldl (replay_node_delta sig ts) (reg, work) bs in
  dict_small st.1 ->
  registry_ok st.1 /\ replay_frame reg st.1 /\ forall s pk, node_holds st.1 s pk =
    if decide (s = sig) then set_after n (reg_eval reg) (touches_in ts bs pk) (node_holds reg s pk) T' pk
    else node_holds reg s pk.
Proof.
  induction bs as [|b bs IH]; intros reg work T T' Hok Hrun Hn Hleaf HT Hc st Hs.
  { inversion Hc; subst. split_and!; [done|done|]. intros s pk. by destruct (decide (s = sig)). }
  inversion Hc as [|? ? T1 ? ? Hd Hc']; subst. unfold st in *. simpl in *.
  pose proof (replay_node_delta_frame sig ts (reg, work) b) as F. simpl in F.
  assert (Hn0 : exists n0, r_nodes reg !! sig = Some n0 /\ calm n0 = calm n).
  { destruct (r_nodes reg !! sig) as [n0|]; [|done]. exists n0. split; [done|]. by apply (inj Some) in Hn. }
  destruct Hn0 as (n0 & Hn0 & Hcalm).
  assert (Hp0 : n_pred n0 = n_pred n /\ n_proj_col n0 = n_proj_col n)
    by (split; [exact (f_equal n_pred Hcalm)|exact (f_equal n_proj_col Hcalm)]).
  pose proof (replay_delta_spec reg sig n0 ts b T T1 work Hok Hrun Hn0) as H1.
  destruct (replay_node_delta sig ts (reg, work) b) as [reg1 work1] eqn:E1. cbn [fst snd] in *.
  destruct (IH reg1 work1 T1 T') as (Hok2 & F2 & Hh2); [|done| |done|by eapply delta_table_ok|done|done|].
  { apply H1; [by rewrite (proj1 Hp0)|done|done|]. eapply replay_frame_small; [|exact Hs].
    clear. generalize reg1 work1. induction bs as [|b bs IH]; intros r w; simpl; [done|].
    pose proof (replay_node_delta_frame sig ts (r, w) b) as F. destruct (replay_node_delta sig ts (r, w) b) as [r1 w1].
    simpl in F. etransitivity; [exact F|apply IH]. }
  { rewrite (rf_nodes _ _ F), Hn0. simpl. by rewrite Hcalm. }
  destruct H1 as [Hok1 Hh1]; [by rewrite (proj1 Hp0)|done|done|by eapply replay_frame_small|].
  split_and!; [done|by etransitivity|]. intros s pk. rewrite Hh2. destruct (decide (s = sig)) as [->|Hne].
  - rewrite Hh1, decide_True by done. unfold set_after. simpl. destruct (touches_in ts bs pk) eqn:Et.
    + rewrite orb_true_r. unfold contributions. destruct (T' !! pk) as [r|]; [|done]. simpl. unfold contribution.
      rewrite (eval_own reg reg1 sig); [done|done|done|done|].
      intros s' pk' Hs'. by rewrite Hh1, decide_False.
    + rewrite !orb_false_r. destruct (latest_rows ts (bf_delta b) !! pk); [|done].
      assert (HT' : T' !! pk = T1 !! pk) by (eapply changes_untouched; [by eapply delta_table_ok|done|done]).
      unfold contributions. rewrite HT'. by rewrite (proj1 Hp0), (proj2 Hp0).
  - by rewrite Hh1, decide_False.
Qed.

Lemma replay_buffer_frame sig ts bs : forall st : SubqueryRegistry D * list (SubquerySig * Flip),
  replay_frame st.1 (foldl (replay_node_delta sig ts) st bs).1.
Proof.
  induction bs as [|b bs IH]; intros st; simpl; [done|]. etransitivity; [apply replay_node_delta_frame|apply IH].
Qed.

(** ** Installing a seed *)

(** What a node is once it is live. *)
Definition live_node (gate : SnapshotGate) (n : SubqueryNode) : SubqueryNode :=
  node_with_deferred [] (node_with_seed_buffer None (node_with_gate gate n)).

(** Everything but the nodes, the holders, the dictionary and the circuit. *)
Definition sets_only reg reg' : Prop :=
  reg' = set_circuit (r_circuit reg') (set_nodes (r_nodes reg') (set_templates (r_templates reg')
           (set_pk_dict (r_pk_dict reg') reg))).

Lemma sets_only_trans reg1 reg2 reg3 : sets_only reg1 reg2 -> sets_only reg2 reg3 -> sets_only reg1 reg3.
Proof. intros H1 H2. unfold sets_only in *. rewrite H2 at 1. by rewrite H1 at 1. Qed.
Lemma sets_only_refl reg : sets_only reg reg.
Proof. by destruct reg. Qed.
Lemma sets_only_replay reg reg' : replay_frame reg reg' -> sets_only reg reg'.
Proof. intros [_ [_ _ H]]. exact H. Qed.

(** The evaluations of a seed. *)
Definition seed_evals (ts : TableSchema) (proj : nat) (rows : list Row) : list (str * option Value) :=
  map (λ r, (key_or_empty ts r, Some (cell r proj))) rows.

(** The registry after the seed, before the replay. *)
Definition seed_step reg sig (evals : list (str * option Value)) (gate : SnapshotGate) : SubqueryRegistry D :=
  let st := assert_rows (on_node sig (node_with_gate gate) reg) sig evals in (apply_asserts st.1 st.2).1.

Lemma install_seed_unfold reg sig rows gate n ts : r_nodes reg !! sig = Some n -> r_schemas reg !! n_inner_table n = Some ts ->
  let reg2 := seed_step reg sig (seed_evals ts (n_proj_col n) rows) gate in
  let st := foldl (replay_node_delta sig ts) (on_node sig (node_with_seed_buffer None) reg2, []) (default [] (n_seed_buffer n)) in
  r_nodes reg2 = r_nodes (on_node sig (node_with_gate gate) reg) /\
  install_seed reg sig rows gate =
    (on_node sig (node_with_deferred []) st.1, Ok (st.2, map (λ w, (sig, w)) (n_deferred n))).
Proof.
  intros Hn Hts. unfold install_seed, seed_step. rewrite Hn, Hts. fold (seed_evals ts (n_proj_col n) rows).
  set (reg0 := on_node sig (node_with_gate gate) reg).
  pose proof (assert_rows_nodes reg0 sig (seed_evals ts (n_proj_col n) rows)) as N1.
  destruct (assert_rows reg0 sig (seed_evals ts (n_proj_col n) rows)) as [reg1 seed]. cbn [fst snd] in *.
  assert (N2 : r_nodes (apply_asserts reg1 seed).1 = r_nodes reg0).
  { rewrite <- N1. unfold apply_asserts. by destruct (circuit_apply (r_circuit reg1) seed). }
  destruct (apply_asserts reg1 seed) as [reg2 fl]. cbn [fst snd] in *. split; [done|].
  assert (E0 : r_nodes reg0 !! sig = Some (node_with_gate gate n)) by (unfold reg0; simpl; by rewrite lookup_alter_eq, Hn).
  rewrite N2, E0. simpl.
  pose proof (replay_buffer_frame sig ts (default [] (n_seed_buffer n)) (on_node sig (node_with_seed_buffer None) reg2, [])) as F.
  destruct (foldl _ _ _) as [reg4 work]. cbn [fst snd] in *. f_equal. f_equal. f_equal. f_equal.
  pose proof (rf_nodes _ _ F sig) as Hc. simpl in Hc. rewrite lookup_alter_eq, N2, E0 in Hc.
  destruct (r_nodes reg4 !! sig) as [n4|]; [|done]. apply (inj Some) in Hc. exact (f_equal n_deferred Hc).
Qed.

Lemma install_seed_frame reg sig rows gate reg' r : install_seed reg sig rows gate = (reg', r) ->
  sets_only reg reg' /\ dict_le (r_pk_dict reg) (r_pk_dict reg') /\
  match r with
  | Err _ => reg' = reg
  | Ok (_, queue) => exists n, r_nodes reg !! sig = Some n /\ queue = map (λ w, (sig, w)) (n_deferred n) /\
      forall s, calm <$> r_nodes reg' !! s = calm <$> (if decide (s = sig) then Some (live_node gate n) else r_nodes reg !! s)
  end.
Proof.
  destruct (r_nodes reg !! sig) as [n|] eqn:Hn.
  2: { unfold install_seed. rewrite Hn. intros [= <- <-]. split_and!; [apply sets_only_refl|done..]. }
  destruct (r_schemas reg !! n_inner_table n) as [ts|] eqn:Hts.
  2: { unfold install_seed. rewrite Hn, Hts. intros [= <- <-]. split_and!; [apply sets_only_refl|done..]. }
  destruct (install_seed_unfold reg sig rows gate n ts Hn Hts) as [N2 ->]. intros [= <- <-].
  set (reg2 := seed_step _ _ _ _) in *. set (bs := default [] (n_seed_buffer n)).
  pose proof (replay_buffer_frame sig ts bs (on_node sig (node_with_seed_buffer None) reg2, [])) as F. cbn [fst] in F.
  set (st := foldl _ _ bs) in *.
  assert (F2 : sets_only reg reg2 /\ dict_le (r_pk_dict reg) (r_pk_dict reg2)).
  { unfold reg2, seed_step. set (reg0 := on_node sig (node_with_gate gate) reg).
    pose proof (assert_rows_frame reg0 sig (seed_evals ts (n_proj_col n) rows)) as G.
    destruct (assert_rows reg0 sig _) as [reg1 seed]. cbn [fst snd] in *.
    destruct (sets_nodes_frame _ _ _ G (apply_asserts_frame reg1 seed)) as [_ G2 G3]. split; [|exact G2].
    eapply sets_only_trans; [|exact G3]. by destruct reg. }
  destruct F2 as [F2 D2]. split_and!.
  - eapply sets_only_trans; [exact F2|]. eapply (sets_only_trans _ (on_node sig (node_with_seed_buffer None) reg2)); [by destruct reg2|].
    eapply sets_only_trans; [apply sets_only_replay, F|]. by destruct (st.1).
  - etransitivity; [exact D2|]. apply (nf_dict _ _ (rf_frame _ _ F)).
  - exists n. split_and!; [done..|]. intros s. pose proof (rf_nodes _ _ F s) as Hc. simpl in Hc |- *.
    destruct (decide (s = sig)) as [->|Hne].
    + rewrite lookup_alter_eq in Hc |- *. rewrite N2 in Hc. simpl in Hc. rewrite lookup_alter_eq, Hn in Hc. simpl in Hc.
      destruct (r_nodes st.1 !! sig) as [n4|]; [|done]. apply (inj Some) in Hc. simpl. f_equal.
      exact (f_equal (node_with_deferred []) Hc).
    + rewrite lookup_alter_ne in Hc |- * by done. rewrite N2 in Hc. simpl in Hc. by rewrite lookup_alter_ne in Hc.
Qed.

(** ** What the set of a seeded node comes to *)

(** The rows a seed query selects from a table. *)
Definition selection reg (n : SubqueryNode) (S : gmap str Row) : gmap str Row :=
  filter (λ kr : str * Row, matches_ctx (n_pred n) kr.2 (reg_eval reg) = true) S.
Definition selects reg (n : SubqueryNode) (S : gmap str Row) (rows : list Row) : Prop :=
  rows ≡ₚ (map_to_list (selection reg n S)).*2.

Lemma seed_evals_spec reg (n : SubqueryNode) (ts : TableSchema) (S : gmap str Row) (rows : list Row) : table_ok ts S -> selects reg n S rows ->
  forall pk, last_eval (seed_evals ts (n_proj_col n) rows) pk =
    (r ← S !! pk; if matches_ctx (n_pred n) r (reg_eval reg) then Some (Some (cell r (n_proj_col n))) else None).
Proof.
  intros HS Hsel pk. unfold selects in Hsel. set (sel := selection reg n S) in Hsel.
  assert (Hkeys : (seed_evals ts (n_proj_col n) rows).*1 ≡ₚ (map_to_list sel).*1).
  { unfold seed_evals. rewrite Hsel.
    change (map ?f ?l) with (f <$> l). rewrite <- !list_fmap_compose.
    apply Permutation_refl', list_fmap_ext. intros i [k r] Hi. simpl. apply list_elem_of_lookup_2, elem_of_map_to_list in Hi.
    apply map_lookup_filter_Some in Hi as [Hi _]. apply key_or_empty_ok. by apply HS. }
  assert (Hnd : NoDup (seed_evals ts (n_proj_col n) rows).*1) by (rewrite Hkeys; apply NoDup_fst_map_to_list).
  assert (Hin : forall k, k ∈ (seed_evals ts (n_proj_col n) rows).*1 <-> is_Some (sel !! k)).
  { intros k. rewrite Hkeys, list_elem_of_fmap. split.
    - intros ([k' r] & -> & Hm%elem_of_map_to_list). by exists r.
    - intros [r Hr]. exists (k, r). by rewrite elem_of_map_to_list. }
  destruct (sel !! pk) as [r|] eqn:Es.
  - apply map_lookup_filter_Some in Es as [Er Hm]. simpl in Hm. rewrite Er. simpl. rewrite Hm.
    apply last_eval_nodup; [done|]. unfold seed_evals. apply list_elem_of_In, in_map_iff. exists r. split.
    + by rewrite (key_or_empty_ok ts r pk) by (by apply HS).
    + apply list_elem_of_In. rewrite Hsel. apply list_elem_of_fmap. exists (pk, r). split; [done|].
      apply elem_of_map_to_list, map_lookup_filter_Some. done.
  - rewrite last_eval_none by (rewrite Hin, Es; by intros [? ?]).
    destruct (S !! pk) as [r|] eqn:Er; [|done]. simpl. apply map_lookup_filter_None in Es as [Es|Es]; [congruence|].
    specialize (Es r Er). simpl in Es. by destruct (matches_ctx (n_pred n) r (reg_eval reg)).
Qed.

Lemma set_gate_ok reg sig gate : registry_ok reg -> registry_ok (on_node sig (node_with_gate gate) reg) /\
  forall s pk, node_holds (on_node sig (node_with_gate gate) reg) s pk = node_holds reg s pk.
Proof.
  intros Hok. apply sets_ok_nodes; [|exact Hok]. intros s. by apply alter_core.
Qed.
End node.

Section theorems.
Context {FT : FloatText} {FE : FaultEnv} {SJ : SerdeJson} {D : Type} {MP : MembershipPipeline D} {ML : MembershipLaws D}.
Implicit Types (reg : SubqueryRegistry D) (T S : gmap str Row).

(** what the set of a node comes to when its seed is installed: a key that a change buffered
    during the read touched is decided by the table after the last of those changes, any other by the
    table as the read saw it, and no other set moves.  So once every commit that the read saw has
    reached the engine, the set is exactly what the present table contributes. *)
Theorem seeded_node_set reg sig n ts rows gate S T0 T reg' r :
  registry_ok reg -> (forall d : D, circuit_runs d) ->
  r_nodes reg !! sig = Some n -> r_schemas reg !! n_inner_table n = Some ts -> sig ∉ leaf_sigs (n_pred n) ->
  (forall pk, node_holds reg sig pk = None) ->
  table_ok ts S -> selects reg n S rows ->
  table_ok ts T0 -> changes ts T0 (default [] (n_seed_buffer n)) T ->
  install_seed reg sig rows gate = (reg', r) -> dict_small reg' ->
  registry_ok reg' /\
  (forall s pk, s <> sig -> node_holds reg' s pk = node_holds reg s pk) /\
  (forall pk, node_holds reg' sig pk =
     contributions n (reg_eval reg) (if touches_in ts (default [] (n_seed_buffer n)) pk then T else S) pk) /\
  ((forall pk, touches_in ts (default [] (n_seed_buffer n)) pk = false -> S !! pk = T !! pk) ->
   forall pk, node_holds reg' sig pk = contributions n (reg_eval reg) T pk).
Proof.
  intros Hok Hrun Hn Hts Hleaf Hnew HS Hsel HT0 Hch Hrun' Hs.
  destruct (install_seed_unfold reg sig rows gate n ts Hn Hts) as [N2 E]. rewrite E in Hrun'. clear E.
  injection Hrun' as <- <-. set (reg2 := seed_step _ _ _ _) in *. set (bs := default [] (n_seed_buffer n)) in *.
  set (reg3 := on_node sig (node_with_seed_buffer None) reg2) in *.
  pose proof (replay_buffer_frame sig ts bs (reg3, [])) as F3. cbn [fst] in F3.
  set (st := foldl _ _ bs) in *. set (reg0 := on_node sig (node_with_gate gate) reg) in *.
  destruct (set_gate_ok reg sig gate Hok) as [Hok0 Hh0]. fold reg0 in Hok0, Hh0.
  assert (Hn0 : r_nodes reg0 !! sig = Some (node_with_gate gate n)) by (unfold reg0; simpl; by rewrite lookup_alter_eq, Hn).
  destruct (apply_evals_sets reg0 sig _ (seed_evals ts (n_proj_col n) rows) Hok0 (Hrun _) Hn0) as (Hok2 & _ & _ & Hh2).
  { change (dict_small reg2). change (dict_small reg3). by eapply replay_frame_small. }
  change (registry_ok reg2) in Hok2. change (forall s pk, node_holds reg2 s pk = batch_holds reg0 (mp_held (r_circuit reg0)) sig (seed_evals ts (n_proj_col n) rows) s pk) in Hh2.
  destruct (sets_ok_nodes reg2 (mp_held (r_circuit reg2)) (r_nodes reg3)) as [Hok3 Hh3]; [intros s; by apply alter_core|exact Hok2|].
  change (registry_ok reg3) in Hok3. change (forall s pk, node_holds reg3 s pk = node_holds reg2 s pk) in Hh3.
  assert (Hn3 : calm <$> r_nodes reg3 !! sig = Some (calm (node_with_seed_buffer None (node_with_gate gate n))))
    by (unfold reg3; simpl; by rewrite lookup_alter_eq, N2, Hn0).
  destruct (replay_buffer_spec sig _ ts bs reg3 [] T0 T Hok3 Hrun Hn3 Hleaf HT0 Hch) as (Hok4 & _ & Hh4); [exact Hs|].
  fold st in Hok4, Hh4.
  destruct (sets_ok_nodes st.1 (mp_held (r_circuit st.1)) (r_nodes (on_node sig (node_with_deferred []) st.1))) as [Hok5 Hh5];
    [intros s; by apply alter_core|exact Hok4|].
  set (reg' := on_node sig (node_with_deferred []) st.1) in *.
  change (registry_ok reg') in Hok5. change (forall s pk, node_holds reg' s pk = node_holds st.1 s pk) in Hh5.
  assert (Hseed : forall s pk, node_holds reg3 s pk =
            if decide (s = sig) then contributions n (reg_eval reg) S pk else node_holds reg s pk).
  { intros s pk. rewrite Hh3, Hh2. unfold batch_holds. destruct (decide (s = sig)) as [->|]; [|apply Hh0].
    rewrite (seed_evals_spec reg n ts S rows HS Hsel). unfold contributions, contribution.
    assert (H0 : holds reg0 (mp_held (r_circuit reg0)) sig pk = None) by (rewrite <- (Hnew pk); apply Hh0).
    destruct (S !! pk) as [r|]; simpl; [destruct (matches_ctx (n_pred n) r (reg_eval reg)); [done|]|]; exact H0. }
  assert (Hev : forall row, matches_ctx (n_pred n) row (reg_eval reg3) = matches_ctx (n_pred n) row (reg_eval reg)).
  { intros row. apply (eval_own reg reg3 sig); [done..|]. intros s pk Hne. by rewrite Hseed, decide_False. }
  assert (Hall : forall pk, node_holds reg' sig pk =
            contributions n (reg_eval reg) (if touches_in ts bs pk then T else S) pk).
  { intros pk. rewrite Hh5, Hh4, decide_True, Hseed, decide_True by done. unfold set_after.
    destruct (touches_in ts bs pk); [|done]. unfold contributions, contribution. simpl.
    destruct (T !! pk); [|done]. simpl. by rewrite Hev. }
  split_and!; [done| |done|].
  - intros s pk Hne. by rewrite Hh5, Hh4, decide_False, Hseed, decide_False.
  - intros Hcu pk. rewrite Hall. destruct (touches_in ts bs pk) eqn:Et; [done|]. unfold contributions. by rewrite (Hcu pk Et).
Qed.
End theorems.
