(* ===== verification/SubqInstall.v ===== *)
(** * Installing the shape

    The tail of [finish_create]: the pending entry becomes an installed shape, its feed holds the
    backfilled keys, and the changes buffered meanwhile are emitted.  Here: what the shape's
    subscriber comes to have, key by key; what is handed over; and that a create which fails on the
    way is still pending. *)

From S2P Require Import Prelude BTree Value TableRef Schema Predicate PredicateFacts Gate Output Executors.
From S2P Require Import Refine Sequencer PkDict SubqIndex SubqCircuit Subquery SubqueryFacts SubqEmit SubqLive.
From S2P Require Import SubqCreate SubqCompile SubqAtomic SubqDeps SubqFinish.
From stdpp Require Import base option numbers strings gmap fin_maps sorting list.
#[local] Open Scope Z_scope.

(* ------------------------------------------------------------------ *)
(** ** Replaying the shape's buffer *)

Section replay.
Context {FT : FloatText} {FE : FaultEnv} {SJ : SerdeJson} {D : Type} {MP : MembershipPipeline D}.
Implicit Types (reg : SubqueryRegistry D) (T : gmap str Row) (V : gmap str json).

(** The subscriber [V] of the installed shape has exactly the keys of its feed. *)
Record in_step reg (id : str) (s : SubqueryShape) V : Prop := {
  is_tail : tail_ok reg;
  is_distinct : shapes_distinct reg;
  is_shape : exists s', r_shapes reg !! id = Some s' /\ shape_core s' = shape_core s;
  is_feed : forall pk, is_Some (V !! pk) <-> reg_fed reg (sh_feed_id s) pk = true
}.

Lemma replay_outer_frame id ts reg b : emit_frame reg (replay_outer id ts reg b).
Proof. apply emit_for_shapes_frame. Qed.
Lemma replay_outers_frame id ts bs : forall reg, emit_frame reg (foldl (replay_outer id ts) reg bs).
Proof. induction bs as [|b bs IH]; intros reg; simpl; [done|]. etransitivity; [apply replay_outer_frame|apply IH]. Qed.
Lemma emit_frame_small reg reg' : emit_frame reg reg' -> dict_small reg' -> dict_small reg.
Proof. intros [_ Hd _] Hs. apply dict_le_len in Hd. unfold dict_small in *. lia. Qed.

Lemma shown_fields ts s s' ev T pk : sh_pred s' = sh_pred s -> sh_out_cols s' = sh_out_cols s ->
  shown ts s' ev T pk = shown ts s ev T pk.
Proof. intros Hp Hc. unfold shown. by rewrite Hp, Hc. Qed.

Lemma replay_outer_step id ts reg b s V T T' : drop_deletes = false -> in_step reg id s V ->
  table_ok ts T -> delta_of ts T (bf_delta b) T' ->
  let reg' := replay_outer id ts reg b in
  dict_small reg' ->
  exists envs, sent_to reg' (sh_stream_path s) = sent_to reg (sh_stream_path s) ++ envs /\
    in_step reg' id s (materialize V envs) /\
    forall pk, materialize V envs !! pk =
      if touches_in ts [b] pk then shown ts s (reg_eval reg) T' pk else V !! pk.
Proof.
  intros Hdd [Ht Hdist (s' & Hs' & Hcore) HV] HT Hd reg' Hsm.
  destruct (shape_core_fields _ _ Hcore) as (Hf & Hpath & Hp & Hc & _ & _ & _).
  destruct (keyed_latest_ok ts T _ T' HT Hd) as (Hk & Hl2 & Hlook).
  pose proof (replay_outer_frame id ts reg b) as F. fold reg' in F.
  unfold reg', replay_outer in *. rewrite <- Hl2 in *.
  destruct (emit_one_spec ts (SrcReplay (bf_lsn b) (bf_xid b)) None reg id s' _ Ht Hdist Hk Hs') as [_ He].
  destruct (He Hsm) as (Ht' & Hsent & Hfed & _). clear He. set (reg2 := (emit_for_shapes _ _ _ _ _).1) in *.
  specialize (Hsent id s' Hs'). rewrite decide_True, Hpath in Hsent by done.
  eexists. split; [exact Hsent|].
  rewrite Hf in *.
  pose proof (λ pk, shape_envs_view ts (sh_pred s') (reg_eval reg) (sh_out_cols s') None (reg_fed reg (sh_feed_id s))
                (keyed_latest ts (bf_delta b)) V pk Hdd Hk HV) as Hview.
  simpl current_keyed in *.
  assert (Hkeys : forall pk, materialize V (shape_envs ts (sh_pred s') (reg_eval reg) (sh_out_cols s') None
            (reg_fed reg (sh_feed_id s)) (keyed_latest ts (bf_delta b))) !! pk =
            if touches_in ts [b] pk then shown ts s (reg_eval reg) T' pk else V !! pk).
  { intros pk. rewrite Hview, Hlook. unfold touches_in. simpl. rewrite orb_false_r.
    destruct (latest_rows_delta ts T _ T' HT Hd) as (Hla & _). specialize (Hla pk).
    destruct (latest_rows ts (bf_delta b) !! pk) as [[row [|]]|]; [| |done]; unfold shown, verdict; simpl.
    - rewrite Hla. simpl. by rewrite Hp, Hc.
    - by rewrite (proj1 Hla). }
  split; [|exact Hkeys]. split; [done|by eapply shapes_distinct_frame| |].
  - destruct (ef_shape _ _ _ _ F Hs') as (s2 & Hs2 & Hc2). exists s2. split; [done|congruence].
  - intros pk. rewrite Hview, Hfed. unfold group_fed. rewrite Hf, decide_True, Hlook by done.
    destruct (latest_rows ts (bf_delta b) !! pk) as [c|]; [|apply HV].
    destruct (verdict (sh_pred s') (reg_eval reg) c); simpl; [by split; [|eexists]|by split; [intros [? ?]|]].
Qed.

Lemma replay_outers_spec id ts bs : forall reg s V T T', drop_deletes = false -> in_step reg id s V ->
  table_ok ts T -> changes ts T bs T' ->
  let reg' := foldl (replay_outer id ts) reg bs in
  dict_small reg' ->
  exists envs, sent_to reg' (sh_stream_path s) = sent_to reg (sh_stream_path s) ++ envs /\
    in_step reg' id s (materialize V envs) /\
    forall pk, materialize V envs !! pk =
      if touches_in ts bs pk then shown ts s (reg_eval reg) T' pk else V !! pk.
Proof.
  induction bs as [|b bs IH]; intros reg s V T T' Hdd Hin HT Hc reg' Hsm.
  { inversion Hc; subst. exists []. split_and!; [by rewrite app_nil_r|done|done]. }
  inversion Hc as [|? ? T1 ? ? Hd Hc']; subst. unfold reg' in *. simpl in *.
  pose proof (replay_outers_frame id ts bs (replay_outer id ts reg b)) as F.
  destruct (replay_outer_step id ts reg b s V T T1 Hdd Hin HT Hd) as (e1 & Hs1 & Hin1 & Hk1); [by eapply emit_frame_small|].
  destruct (IH _ s _ T1 T' Hdd Hin1) as (e2 & Hs2 & Hin2 & Hk2); [by eapply delta_table_ok|done|done|].
  exists (e1 ++ e2). rewrite materialize_app. split_and!; [by rewrite Hs2, Hs1, app_assoc|done|].
  intros pk. rewrite Hk2, Hk1. rewrite (ef_eval _ _ (replay_outer_frame id ts reg b)).
  simpl. destruct (touches_in ts bs pk) eqn:Et; [by rewrite orb_true_r|]. rewrite !orb_false_r.
  destruct (latest_rows ts (bf_delta b) !! pk); [|done]. unfold shown.
  by rewrite (changes_untouched ts T1 bs T' pk) by (by eauto using delta_table_ok).
Qed.

(** ** Seeding the feed *)

Lemma seed_feed_spec feed reg pk : reg_feeds_ok reg -> dict_small (seed_feed feed reg pk) ->
  reg_feeds_ok (seed_feed feed reg pk) /\ dict_le (r_pk_dict reg) (r_pk_dict (seed_feed feed reg pk)) /\
  forall f pk', reg_fed (seed_feed feed reg pk) f pk' = bool_decide (f = feed /\ pk' = pk) || reg_fed reg f pk'.
Proof.
  intros Hok. unfold seed_feed. destruct (get_or_insert (r_pk_dict reg) pk) as [d i] eqn:Eg. intros Hsm.
  destruct (fed_mint _ _ pk d i Hok Eg Hsm) as (Hok' & Hi & Hle & Hfed). split_and!.
  - split; [apply Hok'|]. intros f k. simpl. rewrite feed_insert_in. intros [[-> ->]|Hk]; [|by eapply fo_keys].
    apply (do_ids _ (fo_dict _ _ Hok')) in Hi as [H0 Hl]. apply lookup_lt_Some in Hl. unfold pk_len. lia.
  - exact Hle.
  - intros f pk'. unfold reg_fed. simpl. by rewrite (fed_insert d _ feed pk i f pk' (fo_dict _ _ Hok') Hi), Hfed.
Qed.

Lemma seed_feeds_le feed pks : forall reg, dict_le (r_pk_dict reg) (r_pk_dict (foldl (seed_feed feed) reg pks)).
Proof.
  induction pks as [|pk pks IH]; intros reg; simpl; [done|]. etransitivity; [|apply IH].
  unfold seed_feed. pose proof (pk_mint_le (r_pk_dict reg) pk) as H. rewrite <- get_or_insert_mint in H.
  by destruct (get_or_insert (r_pk_dict reg) pk).
Qed.

Lemma seed_feeds_spec feed pks : forall reg, reg_feeds_ok reg -> dict_small (foldl (seed_feed feed) reg pks) ->
  reg_feeds_ok (foldl (seed_feed feed) reg pks) /\
  foldl (seed_feed feed) reg pks = set_feed_sets (r_feed_sets (foldl (seed_feed feed) reg pks))
    (set_pk_dict (r_pk_dict (foldl (seed_feed feed) reg pks)) reg) /\
  forall f pk, reg_fed (foldl (seed_feed feed) reg pks) f pk = bool_decide (f = feed /\ pk ∈ pks) || reg_fed reg f pk.
Proof.
  induction pks as [|pk0 pks IH]; intros reg Hok Hsm; simpl in *.
  { split_and!; [done|by destruct reg|]. intros f pk. rewrite bool_decide_eq_false_2; [done|]. by intros [_ ?%not_elem_of_nil]. }
  pose proof (seed_feeds_le feed pks (seed_feed feed reg pk0)) as Hle.
  destruct (seed_feed_spec feed reg pk0 Hok) as (Hok1 & _ & Hf1).
  { apply dict_le_len in Hle. unfold dict_small in *. lia. }
  destruct (IH _ Hok1 Hsm) as (Hok2 & E2 & Hf2). split_and!; [done| |].
  - rewrite E2 at 1.
    assert (E1 : forall f d, set_feed_sets f (set_pk_dict d (seed_feed feed reg pk0)) = set_feed_sets f (set_pk_dict d reg))
      by (intros f d; unfold seed_feed; by destruct (get_or_insert (r_pk_dict reg) pk0)).
    apply E1.
  - intros f pk. rewrite Hf2, Hf1. apply eq_true_iff_eq. rewrite !orb_true_iff, !bool_decide_eq_true, elem_of_cons. naive_solver.
Qed.
End replay.

(* ------------------------------------------------------------------ *)
(** ** All the seeds of a create *)

Section seeds.
Context {FT : FloatText} {FE : FaultEnv} {SJ : SerdeJson} {D : Type} {MP : MembershipPipeline D}.
Implicit Types (reg : SubqueryRegistry D).

(** The dictionary stays one. *)
Definition dict_kept reg reg' : Prop :=
  dict_le (r_pk_dict reg) (r_pk_dict reg') /\ (dict_ok (r_pk_dict reg) -> dict_small reg' -> dict_ok (r_pk_dict reg')).

Lemma dict_kept_trans reg1 reg2 reg3 : dict_kept reg1 reg2 -> dict_kept reg2 reg3 -> dict_kept reg1 reg3.
Proof.
  intros [L1 K1] [L2 K2]. split; [by etransitivity|]. intros Hok Hs. apply K2; [|done]. apply K1; [done|].
  apply dict_le_len in L2. unfold dict_small in *. lia.
Qed.
Lemma dict_kept_same reg reg' : r_pk_dict reg' = r_pk_dict reg -> dict_kept reg reg'.
Proof. intros E. split; [by rewrite E|by rewrite E]. Qed.

Lemma assert_node_row_dict reg sig pk p : dict_kept reg (assert_node_row reg sig pk p).1.
Proof.
  unfold assert_node_row. destruct (r_nodes reg !! sig); [|by apply dict_kept_same].
  pose proof (pk_mint_le (r_pk_dict reg) pk) as Hle. pose proof (λ H, pk_mint_ok (r_pk_dict reg) pk H) as Hok.
  rewrite <- get_or_insert_mint in *. destruct (get_or_insert (r_pk_dict reg) pk) as [d i]. simpl in *.
  destruct p; split; simpl; auto.
Qed.
Lemma assert_rows_dict reg sig evals : dict_kept reg (assert_rows reg sig evals).1.
Proof.
  induction evals as [|e evals IH] using rev_ind; [by apply dict_kept_same|]. rewrite assert_rows_snoc.
  pose proof (assert_node_row_dict (assert_rows reg sig evals).1 sig e.1 e.2) as H.
  destruct (assert_node_row _ _ _ _). simpl in *. by eapply dict_kept_trans.
Qed.
Lemma apply_asserts_dict reg asserts : r_pk_dict (apply_asserts reg asserts).1 = r_pk_dict reg.
Proof. unfold apply_asserts. by destruct (circuit_apply (r_circuit reg) asserts). Qed.

Lemma replay_buffer_dict sig ts bs : forall st : SubqueryRegistry D * list (SubquerySig * Flip),
  dict_kept st.1 (foldl (replay_node_delta sig ts) st bs).1.
Proof.
  induction bs as [|b bs IH]; intros st; simpl; [by apply dict_kept_same|].
  eapply dict_kept_trans; [|apply IH]. unfold replay_node_delta, apply_node_evals.
  set (evals := node_present_values _ _ _ _). set (reg1 := record_node_recency _ _ _ _ _).
  pose proof (assert_rows_dict reg1 sig evals) as H. destruct (assert_rows reg1 sig evals) as [reg2 asserts]. simpl in H.
  pose proof (apply_asserts_dict reg2 asserts) as H2. destruct (apply_asserts reg2 asserts). simpl in *.
  eapply (dict_kept_trans _ reg1); [by apply dict_kept_same|]. eapply dict_kept_trans; [exact H|by apply dict_kept_same].
Qed.

Lemma install_seed_dict reg sig rows gate : dict_kept reg (install_seed reg sig rows gate).1.
Proof.
  destruct (r_nodes reg !! sig) as [n|] eqn:Hn; [|unfold install_seed; rewrite Hn; by apply dict_kept_same].
  destruct (r_schemas reg !! n_inner_table n) as [ts|] eqn:Hts; [|unfold install_seed; rewrite Hn, Hts; by apply dict_kept_same].
  destruct (install_seed_unfold reg sig rows gate n ts Hn Hts) as [_ ->]. cbn [fst].
  set (reg2 := seed_step _ _ _ _). set (reg3 := on_node sig (node_with_seed_buffer None) reg2).
  pose proof (replay_buffer_dict sig ts (default [] (n_seed_buffer n)) (reg3, [])) as H4. cbn [fst] in H4.
  set (st := foldl _ _ _) in *.
  assert (H2 : dict_kept reg reg2).
  { unfold reg2, seed_step. eapply (dict_kept_trans _ (on_node sig (node_with_gate gate) reg)); [by apply dict_kept_same|].
    eapply dict_kept_trans; [apply assert_rows_dict|]. apply dict_kept_same. apply apply_asserts_dict. }
  eapply dict_kept_trans; [exact H2|]. eapply (dict_kept_trans _ reg3); [by apply dict_kept_same|].
  eapply dict_kept_trans; [exact H4|by apply dict_kept_same].
Qed.

Definition queue_of reg (sig : SubquerySig) : list (SubquerySig * DeferredNodeWork) :=
  match r_nodes reg !! sig with Some n => map (λ w, (sig, w)) (n_deferred n) | None => [] end.

Lemma install_seeds_frame seeds : forall reg reg' r, install_seeds reg seeds = (reg', r) ->
  sets_only reg reg' /\ dict_kept reg reg' /\
  (forall s, s ∉ seeds.*1.*1 -> calm <$> r_nodes reg' !! s = calm <$> r_nodes reg !! s) /\
  (forall s, (λ n, (n_refcount n, n_pred n)) <$> r_nodes reg' !! s = (λ n, (n_refcount n, n_pred n)) <$> r_nodes reg !! s) /\
  match r with
  | Err _ => True
  | Ok (_, queue) => NoDup seeds.*1.*1 ->
      queue = concat (map (queue_of reg) seeds.*1.*1) /\
      forall sig rows gate, (sig, rows, gate) ∈ seeds -> exists n, r_nodes reg !! sig = Some n /\
        calm <$> r_nodes reg' !! sig = Some (calm (live_node gate n))
  end.
Proof.
  induction seeds as [|[[sig rows] gate] seeds IH]; intros reg reg' r; simpl.
  { intros [= <- <-]. split_and!; [apply sets_only_refl|by apply dict_kept_same|done|done|].
    intros _. split; [done|]. by intros ? ? ? ?%not_elem_of_nil. }
  pose proof (install_seed_dict reg sig rows gate) as Hd.
  destruct (install_seed reg sig rows gate) as [reg1 r1] eqn:E1.
  destruct (install_seed_frame _ _ _ _ _ _ E1) as (F1 & _ & Hr1). simpl in Hd.
  destruct r1 as [[work queue]|e]; [|intros [= <- <-]; subst reg1; split_and!; done].
  destruct Hr1 as (n & Hn & -> & Hcalm).
  assert (Hcore : forall s, (λ n, (n_refcount n, n_pred n)) <$> r_nodes reg1 !! s = (λ n, (n_refcount n, n_pred n)) <$> r_nodes reg !! s).
  { intros s. specialize (Hcalm s). destruct (decide (s = sig)) as [->|Hne].
    - rewrite Hn. destruct (r_nodes reg1 !! sig) as [n1|]; [|done]. apply (inj Some) in Hcalm. simpl. f_equal.
      exact (f_equal (λ n, (n_refcount n, n_pred n)) Hcalm).
    - destruct (r_nodes reg1 !! s) as [n1|], (r_nodes reg !! s) as [n2|]; try done. apply (inj Some) in Hcalm. simpl. f_equal.
      exact (f_equal (λ n, (n_refcount n, n_pred n)) Hcalm). }
  destruct (install_seeds reg1 seeds) as [reg2 r2] eqn:E2. destruct (IH _ _ _ E2) as (F2 & D2 & N2 & C2 & R2).
  intros Hr. assert (reg' = reg2) as -> by (destruct r2 as [[? ?]|]; congruence). split_and!.
  - by eapply sets_only_trans.
  - by eapply dict_kept_trans.
  - intros s Hs. apply not_elem_of_cons in Hs as [Hne Hs]. rewrite (N2 s Hs), Hcalm. by rewrite decide_False.
  - intros s. by rewrite C2.
  - destruct r2 as [[work2 queue2]|e2]; simplify_eq; [|done]. intros [Hni Hnd]%NoDup_cons. destruct (R2 Hnd) as [-> Hall]. split.
    + unfold queue_of at 2. rewrite Hn. f_equal. f_equal. apply map_ext_in. intros s Hs. unfold queue_of.
      specialize (Hcalm s). rewrite decide_False in Hcalm by (intros ->; by apply Hni, list_elem_of_In).
      destruct (r_nodes reg1 !! s) as [n1|], (r_nodes reg !! s) as [n2|]; try done. apply (inj Some) in Hcalm. f_equal.
      exact (f_equal n_deferred Hcalm).
    + intros s rs g [[= -> -> ->]|Hin]%elem_of_cons.
      * exists n. split; [done|]. rewrite (N2 sig Hni), Hcalm. by rewrite decide_True.
      * destruct (Hall _ _ _ Hin) as (n1 & Hn1 & Hl). assert (Hs : s ∈ seeds.*1.*1).
        { apply list_elem_of_fmap. exists (s, rs). split; [done|]. apply list_elem_of_fmap. by exists (s, rs, g). }
        specialize (Hcalm s). rewrite decide_False in Hcalm by (intros ->; done). rewrite Hn1 in Hcalm. simpl in Hcalm.
        destruct (r_nodes reg !! s) as [n2|]; [|done]. apply (inj Some) in Hcalm. exists n2. split; [done|]. rewrite Hl. f_equal.
        exact (f_equal (live_node g) Hcalm).
Qed.
End seeds.

(* ------------------------------------------------------------------ *)
(** ** The whole of it *)

Section finish.
Context {FT : FloatText} {FE : FaultEnv} {SJ : SerdeJson} {D : Type} {MP : MembershipPipeline D}.
Implicit Types (reg : SubqueryRegistry D) (T S : gmap str Row) (V : gmap str json).

(** The shape a pending entry becomes. *)
Definition new_shape (p : PendingSubqueryShape) (id : str) (gate : SnapshotGate) (seeded feed : Z) : SubqueryShape :=
  MkSubqShape id (ps_outer_table p) (ps_stream_path p) (ps_pred p) (ps_out_cols p) gate seeded feed ∅ 0.
(** The registry with the shape installed and its feed empty. *)
Definition installed reg (id : str) (p : PendingSubqueryShape) (rest : list PendingSubqueryShape) (gate : SnapshotGate) (seeded : Z)
    : SubqueryRegistry D :=
  install_shape (new_shape p id gate seeded (r_next_feed_id reg))
    (set_next_feed_id (wrap_i64 (r_next_feed_id reg + 1)) (set_pending_shapes rest reg)).

Lemma take_pending_in id l p rest : take_pending id l = Some (p, rest) -> ps_shape_id p = id /\ l ≡ₚ p :: rest.
Proof.
  revert p rest. induction l as [|q l IH]; intros p rest; [done|]. simpl. case_bool_decide as Hq; [by intros [= <- <-]|].
  destruct (take_pending id l) as [[p' rest']|]; [|done]. simpl. intros [= <- <-]. destruct (IH _ _ eq_refl) as [? ->].
  split; [done|]. apply Permutation_swap.
Qed.
Lemma take_pending_some id l : existsb (λ p, bool_decide (ps_shape_id p = id)) l = true -> is_Some (take_pending id l).
Proof.
  induction l as [|q l IH]; [done|]. simpl. case_bool_decide; [by eexists|]. intros Hl.
  destruct (IH Hl) as [[p rest] ->]. by eexists.
Qed.

Lemma finish_create_unfold reg id seeds gate seeded pks : existsb (λ p, bool_decide (ps_shape_id p = id)) (r_pending_shapes reg) = true ->
  finish_create reg id seeds gate seeded pks =
  match install_seeds reg seeds with
  | (reg1, Err e) => (reg1, Err e)
  | (reg1, Ok (work, node_work)) =>
      match take_pending id (r_pending_shapes reg1) with
      | None => (reg1, Err $"finish_create: pending shape vanished")
      | Some (p, rest) =>
          match r_schemas reg1 !! ps_outer_table p with
          | None => (reg1, Err $"finish_create: unknown outer table")
          | Some ts =>
              (foldl (replay_outer id ts)
                 (foldl (seed_feed (r_next_feed_id reg1)) (installed reg1 id p rest gate seeded) (elements pks)) (ps_buffer p),
               Ok (MkFinished work (ps_deferred p) node_work))
          end
      end
  end.
Proof. intros Hp. unfold finish_create. rewrite Hp. done. Qed.

Lemma sets_only_fields reg reg' : sets_only reg reg' ->
  r_pending_shapes reg' = r_pending_shapes reg /\ r_schemas reg' = r_schemas reg /\ r_shapes reg' = r_shapes reg /\
  r_edges reg' = r_edges reg /\ r_next_feed_id reg' = r_next_feed_id reg /\ r_feed_sets reg' = r_feed_sets reg /\
  r_sent reg' = r_sent reg /\ r_feed_by_id reg' = r_feed_by_id reg /\ r_shape_index reg' = r_shape_index reg.
Proof. intros ->. done. Qed.

Lemma seed_feeds_frame feed pks : forall reg, exists f d,
  foldl (seed_feed feed) reg pks = set_feed_sets f (set_pk_dict d reg).
Proof.
  induction pks as [|pk pks IH]; intros reg; simpl; [exists (r_feed_sets reg), (r_pk_dict reg); by destruct reg|].
  destruct (IH (seed_feed feed reg pk)) as (f & d & ->). exists f, d. unfold seed_feed.
  by destruct (get_or_insert (r_pk_dict reg) pk).
Qed.

(** What a finished create leaves of the registry between the seeds and the end. *)
Lemma finish_parts reg id seeds gate seeded pks reg' fin :
  finish_create reg id seeds gate seeded pks = (reg', Ok fin) ->
  exists reg1 work queue p rest ts,
    install_seeds reg seeds = (reg1, Ok (work, queue)) /\
    take_pending id (r_pending_shapes reg) = Some (p, rest) /\ r_schemas reg !! ps_outer_table p = Some ts /\
    fin = MkFinished work (ps_deferred p) queue /\
    let reg2 := foldl (seed_feed (r_next_feed_id reg)) (installed reg1 id p rest gate seeded) (elements pks) in
    reg' = foldl (replay_outer id ts) reg2 (ps_buffer p) /\ emit_frame reg2 reg'.
Proof.
  intros Hf. destruct (existsb (λ p, bool_decide (ps_shape_id p = id)) (r_pending_shapes reg)) eqn:Ep.
  2: { unfold finish_create in Hf. rewrite Ep in Hf. done. }
  rewrite finish_create_unfold in Hf by done. destruct (install_seeds reg seeds) as [reg1 [[work queue]|e]] eqn:Es; [|done].
  destruct (install_seeds_frame _ _ _ _ Es) as (F & _).
  destruct (sets_only_fields _ _ F) as (Hp & Hsc & _ & _ & Hnf & _). rewrite Hp, Hsc, Hnf in Hf.
  destruct (take_pending id (r_pending_shapes reg)) as [[p rest]|] eqn:Et; [|done].
  destruct (r_schemas reg !! ps_outer_table p) as [ts|] eqn:Ets; [|done]. injection Hf as <- <-.
  exists reg1, work, queue, p, rest, ts. split_and!; [done..|]. cbv zeta. split; [done|apply replay_outers_frame].
Qed.

(** The references of the pending entry are the shape's. *)
Lemma finished_account reg reg1 reg' id p rest gate seeded f d : deps_ok reg [] -> r_shapes reg !! id = None ->
  take_pending id (r_pending_shapes reg) = Some (p, rest) -> sets_only reg reg1 ->
  (forall s, (λ n, (n_refcount n, n_pred n)) <$> r_nodes reg1 !! s = (λ n, (n_refcount n, n_pred n)) <$> r_nodes reg !! s) ->
  emit_frame (set_feed_sets f (set_pk_dict d (installed reg1 id p rest gate seeded))) reg' -> deps_ok reg' [].
Proof.
  intros [D1 D2 D3] Hno Et F1 Hcore F. destruct (sets_only_fields _ _ F1) as (_ & _ & Hsh & Hed & _).
  destruct (take_pending_in _ _ _ _ Et) as [<- Hperm]. set (reg2 := set_feed_sets _ _) in F.
  assert (Hes : forall s, edges_of reg2 s = edges_of reg s)
    by (intros s'; unfold edges_of; by change (r_edges reg2) with (r_edges reg1); rewrite Hed).
  assert (Hexp : forall e, occ e (expected reg2) = occ e (expected reg)).
  { intros e. unfold expected. rewrite !occ_app. assert (Hn : node_preds reg2 = node_preds reg).
    { apply map_eq. intros s'. unfold node_preds. rewrite !lookup_fmap. specialize (Hcore s').
      change (r_nodes reg2) with (r_nodes reg1). destruct (r_nodes reg1 !! s'), (r_nodes reg !! s'); simpl in *; congruence. }
    rewrite Hn. unfold shape_edges, pending_edges. change (r_pending_shapes reg2) with rest.
    change (r_shapes reg2) with (<[ps_shape_id p := new_shape p (ps_shape_id p) gate seeded (r_next_feed_id reg1)]> (r_shapes reg1)).
    rewrite Hsh, (map_to_list_insert _ _ _ Hno), Hperm. simpl. rewrite !occ_app. simpl. lia. }
  assert (Hd2 : deps_ok reg2 []).
  { split.
    - intros e s'. by rewrite Hes, Hexp.
    - intros s'. specialize (D2 s'). specialize (Hcore s'). rewrite Hes. change (r_nodes reg2) with (r_nodes reg1).
      destruct (r_nodes reg1 !! s'), (r_nodes reg !! s'); simpl in *; congruence.
    - change (r_edges reg2) with (r_edges reg1). by rewrite Hed. }
  pose proof (ef_rest _ _ F) as E. eapply (deps_frame reg2); [by rewrite E| | |by rewrite E|done].
  - intros s'. by rewrite E.
  - intros i. pose proof (ef_shapes _ _ F i) as Hi. destruct (r_shapes reg' !! i), (r_shapes reg2 !! i); try done.
    apply (inj Some) in Hi. simpl. f_equal. exact (f_equal sh_pred Hi).
Qed.

(** the hand-off at the end of a create loses nothing.  When it succeeds, the create is no longer
    pending and its shape is installed, indexed and fed, in one step; every piece of work that was
    queued on the pending entry or on a node being seeded is in the hand-over, in its order; the
    seeded nodes are live, with the gates of their reads; and the account of references is as it was.
    When it fails, the create is still pending, no shape is installed, and what was seeded is left
    for the abort. *)
Theorem finish_create_hands_over reg id seeds gate seeded pks reg' r :
  NoDup seeds.*1.*1 -> finish_create reg id seeds gate seeded pks = (reg', r) ->
  match r with
  | Ok fin => exists p rest s,
      take_pending id (r_pending_shapes reg) = Some (p, rest) /\ r_pending_shapes reg' = rest /\
      r_shapes reg' !! id = Some s /\ shape_core s = shape_core (new_shape p id gate seeded (r_next_feed_id reg)) /\
      r_feed_by_id reg' !! r_next_feed_id reg = Some id /\
      r_shape_index reg' = shape_index_insert id (TableRef_as_str (ps_outer_table p)) (ps_pred p) (r_shape_index reg) /\
      fc_deferred fin = ps_deferred p /\ fc_node_work fin = concat (map (queue_of reg) seeds.*1.*1) /\
      (forall sig rows g, (sig, rows, g) ∈ seeds -> exists n, r_nodes reg' !! sig = Some n /\
         n_seed_buffer n = None /\ n_deferred n = [] /\ n_gate n = g) /\
      (deps_ok reg [] -> r_shapes reg !! id = None -> deps_ok reg' [])
  | Err _ => r_pending_shapes reg' = r_pending_shapes reg /\ r_shapes reg' = r_shapes reg
  end.
Proof.
  intros Hnd Hf. destruct r as [fin|e].
  - destruct (finish_parts _ _ _ _ _ _ _ _ Hf) as (reg1 & work & queue & p & rest & ts & Es & Et & Ets & -> & _ & F).
    destruct (install_seeds_frame _ _ _ _ Es) as (F1 & _ & _ & Hcore & Hq). destruct (Hq Hnd) as [-> Hlive]. clear Hq Hf.
    destruct (sets_only_fields _ _ F1) as (Hp & _ & Hsh & Hed & Hnf & _ & _ & Hfb & Hsi).
    destruct (seed_feeds_frame (r_next_feed_id reg) (elements pks) (installed reg1 id p rest gate seeded)) as (f & d & E2).
    rewrite E2 in F. clear E2. pose proof F as F0. set (reg2 := set_feed_sets _ _) in F.
    assert (Hs2 : r_shapes reg2 = <[id := new_shape p id gate seeded (r_next_feed_id reg)]> (r_shapes reg))
      by (change (r_shapes reg2) with (<[id := new_shape p id gate seeded (r_next_feed_id reg1)]> (r_shapes reg1)); by rewrite Hnf, Hsh).
    destruct (ef_shape reg2 reg' id (new_shape p id gate seeded (r_next_feed_id reg)) F) as (s & Hs & Hc);
      [by rewrite Hs2, lookup_insert_eq|].
    pose proof (ef_rest _ _ F) as E. exists p, rest, s. simpl.
    assert (Hn' : r_nodes reg' = r_nodes reg1) by (by rewrite E). split_and!; try done.
    + by rewrite E.
    + rewrite E. simpl. by rewrite Hnf, lookup_insert_eq.
    + rewrite E. simpl. by rewrite Hsi.
    + intros sig rows g (n & _ & Hl)%Hlive. rewrite Hn'. destruct (r_nodes reg1 !! sig) as [n1|]; [|done].
      apply (inj Some) in Hl. exists n1. split_and!;
        [done|exact (f_equal n_seed_buffer Hl)|exact (f_equal n_deferred Hl)|exact (f_equal n_gate Hl)].
    + intros Hd Hno. exact (finished_account reg reg1 reg' id p rest gate seeded f d Hd Hno Et F1 Hcore F0).
  - destruct (existsb (λ p, bool_decide (ps_shape_id p = id)) (r_pending_shapes reg)) eqn:Ep.
    2: { unfold finish_create in Hf. rewrite Ep in Hf. by injection Hf as <- _. }
    rewrite finish_create_unfold in Hf by done. destruct (install_seeds reg seeds) as [reg1 r1] eqn:Es.
    destruct (install_seeds_frame _ _ _ _ Es) as (F1 & _). destruct (sets_only_fields _ _ F1) as (Hp & _ & Hsh & _).
    destruct r1 as [[work queue]|e1]; [|injection Hf as <- _; by split].
    destruct (take_pending id (r_pending_shapes reg1)) as [[p rest]|]; [|injection Hf as <- _; by split].
    destruct (r_schemas reg1 !! ps_outer_table p); [done|]. injection Hf as <- _. by split.
Qed.

(** The installed shape, its feed seeded, before the replay. *)
Lemma installed_in_step reg reg1 (id : str) (p : PendingSubqueryShape) (rest : list PendingSubqueryShape)
    (gate : SnapshotGate) (seeded : Z) (pks : gset str) V :
  tail_ok reg -> shapes_distinct reg -> r_feed_sets reg !! r_next_feed_id reg = None ->
  map_Forall (λ _ s, sh_feed_id s <> r_next_feed_id reg /\ sh_stream_path s <> ps_stream_path p) (r_shapes reg) ->
  sets_only reg reg1 -> dict_kept reg reg1 ->
  (forall pk, is_Some (V !! pk) <-> pk ∈ pks) ->
  let reg2 := foldl (seed_feed (r_next_feed_id reg)) (installed reg1 id p rest gate seeded) (elements pks) in
  dict_small reg2 ->
  in_step reg2 id (new_shape p id gate seeded (r_next_feed_id reg)) V /\ r_sent reg2 = r_sent reg.
Proof.
  intros [Hfe Hre] [Hsf Hsp] Hfeed Hfresh F1 [Hle1 Hdk] HV.
  destruct (sets_only_fields _ _ F1) as (_ & _ & Hsh & _ & Hnf & Hfs & Hsent & _).
  set (feed := r_next_feed_id reg) in *. set (reg1' := installed reg1 id p rest gate seeded) in *. intros reg2 Hsm2.
  assert (Hsm1 : dict_small reg1).
  { pose proof (seed_feeds_le feed (elements pks) reg1') as Hl. change (r_pk_dict reg1') with (r_pk_dict reg1) in Hl.
    apply dict_le_len in Hl. unfold dict_small in *. fold reg2 in Hl. lia. }
  assert (Hfe1 : reg_feeds_ok reg1').
  { unfold reg_feeds_ok. change (r_pk_dict reg1') with (r_pk_dict reg1). change (r_feed_sets reg1') with (r_feed_sets reg1).
    rewrite Hfs. eapply feeds_ok_dict; [exact Hfe| |exact Hle1]. apply Hdk; [apply Hfe|done]. }
  destruct (seed_feeds_spec feed (elements pks) reg1' Hfe1 Hsm2) as (Hfe2 & E2 & Hfed). fold reg2 in Hfe2, E2, Hfed.
  set (s0 := new_shape p id gate seeded feed).
  assert (Hs2 : r_shapes reg2 = <[id := s0]> (r_shapes reg)).
  { rewrite E2. change (r_shapes reg1') with (<[id := new_shape p id gate seeded (r_next_feed_id reg1)]> (r_shapes reg1)).
    simpl. by rewrite Hnf, Hsh. }
  split; [|by rewrite E2]. split.
  - split; [exact Hfe2|]. intros i s k. rewrite Hs2. intros [[_ <-]|[_ Hi]]%lookup_insert_Some Hk; [by destruct Hk|].
    apply (Hre i s k Hi) in Hk. pose proof (seed_feeds_le feed (elements pks) reg1') as Hl. fold reg2 in Hl.
    change (r_pk_dict reg1') with (r_pk_dict reg1) in Hl. apply dict_le_len in Hl, Hle1. lia.
  - rewrite map_Forall_lookup in Hfresh.
    split; intros i1 i2 s1 s2; rewrite Hs2; intros [[<- <-]|[? H1]]%lookup_insert_Some [[<- <-]|[? H2]]%lookup_insert_Some He;
      try done; [by apply Hfresh in H2 as [? _]|by apply Hfresh in H1 as [? _]|by eapply Hsf
                |by apply Hfresh in H2 as [_ ?]|by apply Hfresh in H1 as [_ ?]|by eapply Hsp].
  - exists s0. by rewrite Hs2, lookup_insert_eq.
  - intros pk. change (sh_feed_id s0) with feed. rewrite HV, Hfed, orb_true_iff, bool_decide_eq_true, elem_of_elements.
    assert (Hz : reg_fed reg1' feed pk = false); [|rewrite Hz; naive_solver].
    unfold reg_fed, fed. change (r_feed_sets reg1') with (r_feed_sets reg1). rewrite Hfs, Hfeed.
    destruct (pk_get _ pk); [|done]. by apply bool_decide_eq_false_2.
Qed.

(** what the subscriber of a new shape comes to have.  [V] being the backfill, a key that a change
    buffered during the read touched is shown, after the create, exactly as the table and the inner
    sets have it after the last of those changes; any other key is as it was backfilled; and the feed
    holds exactly the subscriber's keys.  So once every commit the backfill saw has reached the
    engine, what is shown is exactly the present result. *)
Theorem finished_shape_shown reg id seeds gate seeded pks reg' fin p rest ts T0 T V :
  drop_deletes = false -> tail_ok reg -> shapes_distinct reg ->
  r_shapes reg !! id = None -> r_feed_sets reg !! r_next_feed_id reg = None ->
  map_Forall (λ _ s, sh_feed_id s <> r_next_feed_id reg /\ sh_stream_path s <> ps_stream_path p) (r_shapes reg) ->
  take_pending id (r_pending_shapes reg) = Some (p, rest) -> r_schemas reg !! ps_outer_table p = Some ts ->
  table_ok ts T0 -> changes ts T0 (ps_buffer p) T ->
  (forall pk, is_Some (V !! pk) <-> pk ∈ pks) ->
  finish_create reg id seeds gate seeded pks = (reg', Ok fin) -> dict_small reg' ->
  exists s envs, r_shapes reg' !! id = Some s /\ shape_core s = shape_core (new_shape p id gate seeded (r_next_feed_id reg)) /\
    sent_to reg' (ps_stream_path p) = sent_to reg (ps_stream_path p) ++ envs /\
    tail_ok reg' /\ shapes_distinct reg' /\
    (forall pk, is_Some (materialize V envs !! pk) <-> reg_fed reg' (sh_feed_id s) pk = true) /\
    (forall pk, materialize V envs !! pk =
       if touches_in ts (ps_buffer p) pk then shown ts s (reg_eval reg') T pk else V !! pk) /\
    forall S, (forall pk, V !! pk = shown ts s (reg_eval reg') S pk) ->
      (forall pk, touches_in ts (ps_buffer p) pk = false -> S !! pk = T !! pk) ->
      forall pk, materialize V envs !! pk = shown ts s (reg_eval reg') T pk.
Proof.
  intros Hdd Htail Hdist Hno Hfeed Hfresh Et Ets HT0 Hch HV Hf Hsm.
  destruct (finish_parts _ _ _ _ _ _ _ _ Hf) as (reg1 & work & queue & p' & rest' & ts' & Es & Et' & Ets' & -> & Hreg & F).
  assert (p' = p /\ rest' = rest) as [-> ->] by (split; congruence). assert (ts' = ts) as -> by congruence. clear Et' Ets' Hf.
  destruct (install_seeds_frame _ _ _ _ Es) as (F1 & D1 & _).
  set (s0 := new_shape p id gate seeded (r_next_feed_id reg)) in *. set (reg2 := foldl (seed_feed _) _ _) in *.
  destruct (installed_in_step reg reg1 id p rest gate seeded pks V Htail Hdist Hfeed Hfresh F1 D1 HV) as [Hin Hsent];
    [by eapply emit_frame_small|]. fold s0 reg2 in Hin, Hsent.
  destruct (replay_outers_spec id ts (ps_buffer p) reg2 s0 V T0 T Hdd Hin HT0 Hch) as (envs & Hsent' & Hin' & Hkeys); [by rewrite <- Hreg|].
  rewrite <- Hreg in *. destruct Hin' as [Ht' Hd' (s & Hs & Hc) Hv']. exists s, envs.
  destruct (shape_core_fields _ _ Hc) as (Hf & _ & Hp & Hcols & _).
  assert (Hkeys' : forall pk, materialize V envs !! pk =
            if touches_in ts (ps_buffer p) pk then shown ts s (reg_eval reg') T pk else V !! pk).
  { intros pk. rewrite Hkeys, (ef_eval _ _ F). by rewrite (shown_fields ts s0 s). }
  split_and!; [done|done| |done|done|by rewrite Hf|exact Hkeys'|].
  - change (sent_to reg' (sh_stream_path s0) = sent_to reg (sh_stream_path s0) ++ envs). rewrite Hsent'. f_equal.
    unfold sent_to. by rewrite Hsent.
  - intros S HVS Hcu pk. rewrite Hkeys'. destruct (touches_in ts (ps_buffer p) pk) eqn:Et2; [done|].
    rewrite HVS. unfold shown. by rewrite (Hcu pk Et2).
Qed.
End finish.
