(* ===== verification/SubqWalk.v ===== *)
(** * The flip walk ([subquery.rs]: [propagate_flips] and its callers)

    A change of an inner set moves the dependents of its node: outer shapes, and parent nodes whose
    own set may then change in turn.  The walk runs beside the sequencer.  It takes the registry
    lock only to snapshot what a query-back needs and to evaluate what the query-back returned;
    between the two Postgres is read and every other task may take the lock.  A step of the walk is
    therefore a computation over the registry in which each acquisition of the lock is preceded by
    whatever the other tasks did, and each read is answered by Postgres. *)

From S2P Require Import Prelude BTree Value TableRef Schema Predicate Gate Output Executors.
From S2P Require Import Sequencer PkDict SubqIndex SubqCircuit Subquery SubqCreate.
From stdpp Require Import base option numbers strings gmap fin_maps sorting list.
#[local] Open Scope Z_scope.

(** [FLIP_ATTEMPTS], [FLIP_BACKOFF_START], [FLIP_BACKOFF_MAX]; milliseconds, the production values. *)
Definition FLIP_ATTEMPTS : Z := 5.
Definition FLIP_BACKOFF_START : Z := 50.
Definition FLIP_BACKOFF_MAX : Z := 2000.

(** The event of [emit_flip_trace]; the hops are [table:<source>], [node:<sig>] and the dependent. *)
Record FlipTrace := MkFlipTrace {
  ft_table : TableRef;
  ft_source : TableRef;
  ft_node : SubquerySig;
  ft_dependent : Dependent;
  ft_shapes : list str;
  ft_net : Z;
  ft_lsn : option str;
  ft_txid : option str
}.

(** [flip_net]. *)
Definition flip_net (flips : list Flip) : Z :=
  foldl (λ n f, n + match fl_dir f with Enter => 1 | Leave => -1 end) 0 flips.

(* ------------------------------------------------------------------ *)
(** ** The walk beside the other tasks *)

(** What the walk does not control: what the other tasks have done to the registry before its
    [n]-th acquisition of the lock; what Postgres answers its [n]-th read, of all rows of a table
    or of those with a value in a column; whether somebody follows the trace. *)
Record WalkEnv (D : Type) := MkWalkEnv {
  we_others : nat -> SubqueryRegistry D -> SubqueryRegistry D;
  we_reads : nat -> TableSchema -> option (nat * Value) -> res str (list Row * SnapshotGate);
  we_traced : bool
}.
Arguments MkWalkEnv {D}. Arguments we_others {D}. Arguments we_reads {D}. Arguments we_traced {D}.

(** The registry, the queue of flips left to walk, and what has been counted, sent and slept. *)
Record Walking (D : Type) := MkWalking {
  wk_reg : SubqueryRegistry D;
  wk_work : list (SubquerySig * Flip);
  wk_locks : nat;
  wk_reads : nat;
  wk_traces : list FlipTrace;
  wk_slept : list Z
}.
Arguments MkWalking {D}. Arguments wk_reg {D}. Arguments wk_work {D}. Arguments wk_locks {D}.
Arguments wk_reads {D}. Arguments wk_traces {D}. Arguments wk_slept {D}.

Section walk.
Context {FT : FloatText} {FE : FaultEnv} {D : Type} {MP : MembershipPipeline D}.
Context (E : WalkEnv D).
Implicit Types (reg : SubqueryRegistry D) (w : Walking D).

Definition set_work (q : list (SubquerySig * Flip)) w : Walking D :=
  MkWalking (wk_reg w) q (wk_locks w) (wk_reads w) (wk_traces w) (wk_slept w).

(** A computation that may fail; what it did before failing stays done. *)
Definition Walk (A : Type) : Type := Walking D -> res str A * Walking D.
#[export] Instance walk_ret : MRet Walk := λ A x w, (Ok x, w).
#[export] Instance walk_bind : MBind Walk := λ A B f m w,
  match m w with (Ok x, w) => f x w | (Err e, w) => (Err e, w) end.

(** [registry.lock().await], held for one computation on the registry. *)
Definition locked {A} (f : SubqueryRegistry D -> res str A * SubqueryRegistry D) : Walk A := λ w,
  let '(r, reg) := f (we_others E (wk_locks w) (wk_reg w)) in
  (r, MkWalking reg (wk_work w) (S (wk_locks w)) (wk_reads w) (wk_traces w) (wk_slept w)).

(** [query_candidates], [query_all]: an answer, error or not. *)
Definition query (ts : TableSchema) (filter : option (nat * Value))
    : Walk (res str (list Row * SnapshotGate)) := λ w,
  (Ok (we_reads E (wk_reads w) ts filter),
   MkWalking (wk_reg w) (wk_work w) (wk_locks w) (S (wk_reads w)) (wk_traces w) (wk_slept w)).

Definition push_flips (sig : SubquerySig) (flips : list Flip) : Walk unit := λ w,
  (Ok tt, set_work (wk_work w ++ map (pair sig) flips) w).

(** [emit_flip_trace]. *)
Definition emit_flip_trace (t : FlipTrace) : Walk unit := λ w,
  (Ok tt, if we_traced E
          then MkWalking (wk_reg w) (wk_work w) (wk_locks w) (wk_reads w) (wk_traces w ++ [t]) (wk_slept w)
          else w).

Fixpoint walk_each {A} (f : A -> Walk unit) (l : list A) : Walk unit :=
  match l with
  | [] => mret tt
  | x :: l => f x ≫= λ _, walk_each f l
  end.

(** [snapshot_for_table]. *)
Definition snapshot_for_table reg (table : TableRef) : res str TableSchema :=
  ok_or ($"unknown table '" ++ TableRef_as_str table ++ $"'") (r_schemas reg !! table).

(* ------------------------------------------------------------------ *)
(** ** Moving a dependent *)

(** The first lock of [move_shape_for_value] and of [rederive_shape]. *)
Definition start_shape (shape_id : str) (work : DeferredShapeWork) reg
    : res str (option TableSchema) * SubqueryRegistry D :=
  let '(reg, queued) := queue_deferred reg shape_id work in
  if queued then (Ok None, reg)
  else match r_shapes reg !! shape_id with
       | None => (Ok None, reg)
       | Some s =>
           match snapshot_for_table reg (sh_outer_table s) with
           | Err e => (Err e, reg)
           | Ok ts => (Ok (Some ts), begin_queryback shape_id reg)
           end
       end.

(** The second: evaluate, assert and deliver in one piece. *)
Definition finish_shape (shape_id : str) (ts : TableSchema) (rows : list Row) (gate : SnapshotGate)
    (txid : option str) reg : res str (list (str * bool * Z)) * SubqueryRegistry D :=
  let '(reg, emitted) := emit_for_shapes reg ts [(shape_id, map (λ r, (r, true)) rows)] txid
                           (SrcQueryBack gate) in
  (Ok emitted, end_queryback shape_id reg).

Definition abandon {A} (undo : SubqueryRegistry D -> SubqueryRegistry D) (r : res str A) : Walk A :=
  locked (λ reg, (r, undo reg)).

(** [move_shape_for_value]. *)
Definition move_shape_for_value (shape_id : str) (connecting_col : nat) (value : Value)
    (txid : option str) : Walk (option (TableRef * Z)) :=
  snapshot ← locked (start_shape shape_id (SWValue connecting_col value txid));
  match snapshot with
  | None => mret None
  | Some ts =>
      answer ← query ts (Some (connecting_col, value));
      match answer with
      | Err e => abandon (end_queryback shape_id) (Err e)
      | Ok ([], _) => abandon (end_queryback shape_id) (Ok None)
      | Ok (rows, gate) =>
          emitted ← locked (finish_shape shape_id ts rows gate txid);
          mret match emitted with
               | (_, true, net) :: _ => Some (ts_table ts, net)
               | _ => None
               end
      end
  end.

(** [rederive_shape]. *)
Definition rederive_shape (shape_id : str) (txid : option str) : Walk unit :=
  snapshot ← locked (start_shape shape_id (SWFull txid));
  match snapshot with
  | None => mret tt
  | Some ts =>
      answer ← query ts None;
      match answer with
      | Err e => abandon (end_queryback shape_id) (Err e)
      | Ok (rows, gate) => locked (finish_shape shape_id ts rows gate txid) ≫= λ _, mret tt
      end
  end.

(** The first lock of [requery_and_reconcile_parent]. *)
Definition start_node (sig : SubquerySig) (work : DeferredNodeWork) reg
    : res str (option TableSchema) * SubqueryRegistry D :=
  let '(reg, queued) := queue_node_deferred reg sig work in
  if queued then (Ok None, reg)
  else match r_nodes reg !! sig with
       | None => (Ok None, reg)
       | Some n =>
           match snapshot_for_table reg (n_inner_table n) with
           | Err e => (Err e, reg)
           | Ok ts => (Ok (Some ts), begin_node_queryback sig reg)
           end
       end.

Definition finish_node (sig : SubquerySig) (ts : TableSchema) (rows : list Row) (gate : SnapshotGate) reg
    : res str (option (TableRef * list Flip)) * SubqueryRegistry D :=
  match node_queryback_evals reg sig ts rows gate with
  | None => (Ok None, end_node_queryback sig reg)
  | Some evals =>
      let '(reg, flips) := apply_node_evals reg sig evals in
      (Ok (Some (ts_table ts, flips)), end_node_queryback sig reg)
  end.

Definition node_work (filter : option (nat * Value)) : DeferredNodeWork :=
  match filter with Some (col, v) => NWValue col v | None => NWFull end.

(** [requery_and_reconcile_parent]. *)
Definition requery_and_reconcile_parent (parent_sig : SubquerySig) (filter : option (nat * Value))
    : Walk (option (TableRef * list Flip)) :=
  snapshot ← locked (start_node parent_sig (node_work filter));
  match snapshot with
  | None => mret None
  | Some ts =>
      answer ← query ts filter;
      match answer with
      | Err e => abandon (end_node_queryback parent_sig) (Err e)
      | Ok (rows, gate) => locked (finish_node parent_sig ts rows gate)
      end
  end.

(** [rederive_dependent]. *)
Definition rederive_dependent (edge : Edge) (txid : option str) : Walk unit :=
  match ed_dependent edge with
  | DShape id => rederive_shape id txid
  | DNode parent_sig =>
      derived ← requery_and_reconcile_parent parent_sig None;
      match derived with
      | Some (_, flips) => push_flips parent_sig flips
      | None => mret tt
      end
  end.

(* ------------------------------------------------------------------ *)
(** ** The walk *)

(** The body of [propagate_one]'s loop. *)
Definition walk_edge (sig : SubquerySig) (flip : Flip) (txid lsn : option str)
    (source_table : option TableRef) (edge : Edge) : Walk unit :=
  if value_is_null (fl_value flip) then
    if ed_null_sensitive edge then rederive_dependent edge txid else mret tt
  else
    match ed_dependent edge with
    | DShape id =>
        moved ← move_shape_for_value id (ed_connecting_col edge) (fl_value flip) txid;
        match moved, source_table with
        | Some (outer, net), Some src =>
            emit_flip_trace (MkFlipTrace outer src sig (DShape id) [id] net lsn txid)
        | _, _ => mret tt
        end
    | DNode parent_sig =>
        derived ← requery_and_reconcile_parent parent_sig (Some (ed_connecting_col edge, fl_value flip));
        match derived with
        | Some (_, flips) =>
            (match flips, source_table with
             | _ :: _, Some src =>
                 emit_flip_trace (MkFlipTrace src src sig (DNode parent_sig) [] (flip_net flips) lsn txid)
             | _, _ => mret tt
             end) ≫= λ _, push_flips parent_sig flips
        | None => mret tt
        end
    end.

(** [propagate_one]. *)
Definition propagate_one (sig : SubquerySig) (flip : Flip) (txid lsn : option str) : Walk unit :=
  head ← locked (λ reg, (Ok (edges_of reg sig, n_inner_table <$> r_nodes reg !! sig), reg));
  walk_each (walk_edge sig flip txid lsn head.2) head.1.

(** [propagate_flips]: [None] is a loop the fuel did not cover. *)
Fixpoint propagate_flips (fuel : nat) (txid lsn : option str) w : option (res str unit * Walking D) :=
  match wk_work w with
  | [] => Some (Ok tt, w)
  | (sig, flip) :: rest =>
      match fuel with
      | O => None
      | S fuel =>
          match propagate_one sig flip txid lsn (set_work rest w) with
          | (Ok _, w) => propagate_flips fuel txid lsn w
          | (Err e, w) => Some (Err e, set_work ((sig, flip) :: wk_work w) w)
          end
      end
  end.

(** [propagate_deferred_shape_work]; the queue is the second component. *)
Fixpoint propagate_deferred_shape_work (shape_id : str) (work : list DeferredShapeWork) w
    : res str unit * (list DeferredShapeWork * Walking D) :=
  match work with
  | [] => (Ok tt, ([], w))
  | item :: rest =>
      let run := match item with
                 | SWValue col v txid => move_shape_for_value shape_id col v txid ≫= λ _, mret tt
                 | SWFull txid => rederive_shape shape_id txid
                 end in
      match run w with
      | (Ok _, w) => propagate_deferred_shape_work shape_id rest w
      | (Err e, w) => (Err e, (item :: rest, w))
      end
  end.

(** The loop of [propagate_deferred_node_work]. *)
Fixpoint rederive_nodes (work : list (SubquerySig * DeferredNodeWork)) w
    : res str unit * (list (SubquerySig * DeferredNodeWork) * Walking D) :=
  match work with
  | [] => (Ok tt, ([], w))
  | (sig, item) :: rest =>
      let filter := match item with NWValue col v => Some (col, v) | NWFull => None end in
      let run := requery_and_reconcile_parent sig filter ≫= λ derived,
                 match derived with Some (_, flips) => push_flips sig flips | None => mret tt end in
      match run w with
      | (Ok _, w) => rederive_nodes rest w
      | (Err e, w) => (Err e, ((sig, item) :: rest, w))
      end
  end.

(** [propagate_deferred_node_work]. *)
Definition propagate_deferred_node_work (fuel : nat)
    (st : list (SubquerySig * DeferredNodeWork) * Walking D)
    : option (res str unit * (list (SubquerySig * DeferredNodeWork) * Walking D)) :=
  match rederive_nodes st.1 st.2 with
  | (Err e, st) => Some (Err e, st)
  | (Ok _, (work, w)) =>
      match propagate_flips fuel None None w with
      | None => None
      | Some (r, w) => Some (r, (work, w))
      end
  end.

(* ------------------------------------------------------------------ *)
(** ** Retries *)

Definition sleep (ms : Z) w : Walking D :=
  MkWalking (wk_reg w) (wk_work w) (wk_locks w) (wk_reads w) (wk_traces w) (wk_slept w ++ [ms]).

(** The loop the three entry points share, over the state a failed attempt leaves behind. *)
Fixpoint retry_loop {S : Type} (pause : Z -> S -> S) (body : S -> option (res str unit * S))
    (fuel : nat) (attempt backoff : Z) (st : S) : option (res str unit * S) :=
  match body st with
  | Some (Err e, st) =>
      if FLIP_ATTEMPTS <=? attempt then Some (Err e, st)
      else match fuel with
           | O => None
           | Datatypes.S fuel =>
               retry_loop pause body fuel (attempt + 1) (Z.min (backoff * 2) FLIP_BACKOFF_MAX) (pause backoff st)
           end
  | r => r
  end.
Definition with_retry {S : Type} (pause : Z -> S -> S) (body : S -> option (res str unit * S)) (st : S)
    : option (res str unit * S) :=
  retry_loop pause body (Z.to_nat FLIP_ATTEMPTS) 1 FLIP_BACKOFF_START st.

(** [propagate_with_retry]. *)
Definition propagate_with_retry (fuel : nat) (txid lsn : option str) w : option (res str unit * Walking D) :=
  with_retry sleep (propagate_flips fuel txid lsn) w.

(** [propagate_deferred_with_retry]. *)
Definition propagate_deferred_with_retry (shape_id : str)
    (st : list DeferredShapeWork * Walking D) : option (res str unit * (list DeferredShapeWork * Walking D)) :=
  with_retry (λ ms st, (st.1, sleep ms st.2))
    (λ st, Some (propagate_deferred_shape_work shape_id st.1 st.2)) st.

(** [propagate_deferred_node_with_retry]. *)
Definition propagate_deferred_node_with_retry (fuel : nat)
    (st : list (SubquerySig * DeferredNodeWork) * Walking D)
    : option (res str unit * (list (SubquerySig * DeferredNodeWork) * Walking D)) :=
  with_retry (λ ms st, (st.1, sleep ms st.2)) (propagate_deferred_node_work fuel) st.
End walk.
