(* ===== verification/SubqWalkFacts.v ===== *)
(** * Facts about the flip walk: what it never loses and never leaves behind

    A small Hoare logic for the computations of [SubqWalk], and with it: the counters a query-back
    raises are lowered on every exit; a failed walk leaves exactly the work it has not done; the
    retries follow the backoff schedule; and the walk ends on any graph without a cycle, whatever
    the other tasks and Postgres do. *)

From S2P Require Import Prelude BTree Value TableRef Schema Predicate Gate Output Executors.
From S2P Require Import Sequencer PkDict SubqIndex SubqCircuit Subquery SubqueryFacts SubqEmit SubqLive.
From S2P Require Import SubqCreate SubqFinish SubqWalk.
From stdpp Require Import base option numbers strings gmap fin_maps sorting list.
#[local] Open Scope Z_scope.

(* ------------------------------------------------------------------ *)
(** ** The multiset order on queues *)

Section multiset.
Implicit Types (l t new : list nat).

(** One element is replaced by any number of smaller ones. *)
Definition shrinks l' l : Prop :=
  exists x t new, l ≡ₚ x :: t /\ l' ≡ₚ new ++ t /\ Forall (λ y, (y < x)%nat) new.

Lemma shrinks_perm l1 l2 : l1 ≡ₚ l2 -> Acc shrinks l1 -> Acc shrinks l2.
Proof.
  intros Hp [H]. constructor. intros l' (x & t & new & H1 & H2 & H3). apply H. exists x, t, new.
  split_and!; [by rewrite Hp|done|done].
Qed.

Lemma shrinks_cons x : forall l, Acc shrinks l -> Acc shrinks (x :: l).
Proof.
  induction (lt_wf x) as [x _ IHx]. intros l Hl. induction Hl as [l Hl IHl].
  constructor. intros l' (y & t & new & Hp & Hp' & Hnew).
  apply (shrinks_perm (new ++ t)); [by symmetry|].
  destruct (decide (y = x)) as [->|Hne].
  - apply (inj (cons x)) in Hp. clear Hp'. induction Hnew as [|z new Hz Hnew IH]; simpl.
    + apply (shrinks_perm l); [done|]. by constructor.
    + by apply IHx.
  - assert (Hy : y ∈ x :: l) by (rewrite Hp; left). apply elem_of_cons in Hy as [?|Hy]; [done|].
    apply elem_of_Permutation in Hy as [l1 Hl1].
    assert (Ht : t ≡ₚ x :: l1).
    { apply (inj (cons y)). rewrite <- Hp, Hl1. by rewrite Permutation_swap. }
    apply (shrinks_perm (x :: new ++ l1)); [by rewrite Ht, Permutation_middle|]. apply IHl.
    exists y, l1, new. done.
Qed.

Lemma shrinks_wf l : Acc shrinks l.
Proof.
  induction l as [|x l IH]; [|by apply shrinks_cons].
  constructor. intros l' (x & t & new & Hp & _). by apply Permutation_nil_cons in Hp.
Qed.
End multiset.

(* ------------------------------------------------------------------ *)
(** ** Triples *)

Section triples.
Context {FT : FloatText} {FE : FaultEnv} {D : Type} {MP : MembershipPipeline D}.
Context (E : WalkEnv D).
Implicit Types (reg : SubqueryRegistry D) (w : Walking D).

Definition triple {A} (P : Walking D -> Prop) (m : Walk (D := D) A) (Q : res str A -> Walking D -> Prop) : Prop :=
  forall w, P w -> Q (m w).1 (m w).2.

Lemma triple_ret {A} (x : A) (Q : res str A -> Walking D -> Prop) : triple (Q (Ok x)) (mret x) Q.
Proof. by intros w Hw. Qed.

Lemma triple_bind {A B} P (R : A -> Walking D -> Prop) (m : Walk A) (f : A -> Walk B) (Q : res str B -> Walking D -> Prop) :
  triple P m (λ r w, match r with Ok x => R x w | Err e => Q (Err e) w end) ->
  (forall x, triple (R x) (f x) Q) -> triple P (m ≫= f) Q.
Proof.
  intros Hm Hf w Hw. specialize (Hm w Hw). unfold mbind, walk_bind.
  destruct (m w) as [[x|e] w1]; simpl in *; [by apply Hf|done].
Qed.

Lemma triple_weaken {A} (P P' : Walking D -> Prop) (m : Walk A) (Q Q' : res str A -> Walking D -> Prop) :
  triple P m Q -> (forall w, P' w -> P w) -> (forall r w, Q r w -> Q' r w) -> triple P' m Q'.
Proof. intros H HP HQ w Hw. by apply HQ, H, HP. Qed.

Lemma triple_each {A} (I : Walking D -> Prop) (f : A -> Walk unit) l :
  (forall x, x ∈ l -> triple I (f x) (λ _, I)) -> triple I (walk_each f l) (λ _, I).
Proof.
  induction l as [|x l IH]; intros H; [by intros w Hw|]. simpl.
  apply (triple_bind _ (λ _, I)).
  - intros w Hw. specialize (H x ltac:(by left) w Hw). by destruct (f x w).1.
  - intros _. apply IH. intros y Hy. apply H. by right.
Qed.

(** A lock, through what the others did before it. *)
Lemma triple_locked {A} (P : Walking D -> Prop) f (Q : res str A -> Walking D -> Prop) :
  (forall w, P w -> let reg := we_others E (wk_locks w) (wk_reg w) in
     Q (f reg).1 (MkWalking (f reg).2 (wk_work w) (S (wk_locks w)) (wk_reads w) (wk_traces w) (wk_slept w))) ->
  triple P (locked E f) Q.
Proof. intros H w Hw. specialize (H w Hw). cbv zeta in H. unfold locked.
  by destruct (f (we_others E (wk_locks w) (wk_reg w))). Qed.

(** Steps that touch neither the registry nor what is counted of the locks. *)
Lemma triple_query (I : Walking D -> Prop) ts filter :
  (forall w w', I w -> wk_reg w' = wk_reg w -> wk_work w' = wk_work w -> wk_locks w' = wk_locks w -> I w') ->
  triple I (query E ts filter) (λ r w, match r with Ok _ => I w | Err _ => False end).
Proof. intros H w Hw. simpl. by eapply H. Qed.

Lemma triple_trace (I : Walking D -> Prop) t :
  (forall w w', I w -> wk_reg w' = wk_reg w -> wk_work w' = wk_work w -> wk_locks w' = wk_locks w -> I w') ->
  triple I (emit_flip_trace E t) (λ _, I).
Proof. intros H w Hw. unfold emit_flip_trace. simpl. destruct (we_traced E); [by eapply H|done]. Qed.
End triples.

(* ------------------------------------------------------------------ *)
(** ** The counters *)

Inductive Counter := CShape (shape_id : str) | CNode (sig : SubquerySig).
#[export] Instance Counter_eq_dec : EqDecision Counter.
Proof. solve_decision. Defined.

Section counters.
Context {FT : FloatText} {FE : FaultEnv} {D : Type} {MP : MembershipPipeline D}.
Context (E : WalkEnv D).
Implicit Types (reg : SubqueryRegistry D) (w : Walking D).

(** The query-backs a shape or a node counts as in flight. *)
Definition in_flight_of reg (c : Counter) : Z :=
  match c with
  | CShape id => match r_shapes reg !! id with Some s => sh_inflight s | None => 0 end
  | CNode sig => match r_nodes reg !! sig with Some n => n_inflight n | None => 0 end
  end.

Lemma queue_deferred_counts reg id work c :
  in_flight_of (queue_deferred reg id work).1 c = in_flight_of reg c.
Proof. unfold queue_deferred. destruct (on_pending _ _ _); [by destruct c|done]. Qed.

Lemma alter_inflight {A} (f : A -> A) (g : A -> Z) (m : gmap str A) k k' : (forall a, g (f a) = g a) ->
  match alter f k m !! k' with Some a => g a | None => 0 end = match m !! k' with Some a => g a | None => 0 end.
Proof.
  intros H. destruct (decide (k = k')) as [<-|Hne].
  - rewrite lookup_alter_eq. destruct (m !! k); simpl; [apply H|done].
  - by rewrite lookup_alter_ne.
Qed.

Lemma on_node_counts reg sig f c : (forall n, n_inflight (f n) = n_inflight n) ->
  in_flight_of (on_node sig f reg) c = in_flight_of reg c.
Proof. intros H. destruct c; [done|]. by apply (alter_inflight f n_inflight). Qed.

Lemma queue_node_deferred_counts reg sig work c :
  in_flight_of (queue_node_deferred reg sig work).1 c = in_flight_of reg c.
Proof.
  unfold queue_node_deferred. destruct (r_nodes reg !! sig) as [n|]; [|done].
  destruct (n_seed_buffer n); [|done]. by apply on_node_counts.
Qed.

(** The emission tail and the assertions count nothing. *)
Lemma emit_counts reg ts groups txid source c :
  in_flight_of (emit_for_shapes reg ts groups txid source).1 c = in_flight_of reg c.
Proof.
  destruct (emit_for_shapes_frame ts groups txid source reg) as [Hs _ Hr]. destruct c as [id|sig]; simpl.
  - specialize (Hs id). destruct (r_shapes reg !! id) as [s|] eqn:E1, (r_shapes (emit_for_shapes _ _ _ _ _).1 !! id);
      simpl in Hs; try done. apply (inj Some), shape_core_fields in Hs. naive_solver.
  - by rewrite Hr.
Qed.

Lemma node_evals_counts reg sig evals c : in_flight_of (apply_node_evals reg sig evals).1 c = in_flight_of reg c.
Proof.
  unfold apply_node_evals, apply_asserts. pose proof (assert_rows_frame reg sig evals) as [Hn _ _ Hr].
  pose proof (assert_rows_nodes reg sig evals) as Hsame. destruct (assert_rows reg sig evals) as [reg1 asserts].
  destruct (circuit_apply (r_circuit reg1) asserts). simpl in *. destruct c as [id|s]; simpl; [by rewrite Hr|by rewrite Hsame].
Qed.

(** One more, one less. *)
Definition one (c c' : Counter) : Z := if decide (c = c') then 1 else 0.

Lemma alter_count {A} (f : A -> A) (g : A -> Z) (m : gmap str A) k k' d : (forall a, g (f a) <= Z.max 0 (g a + d)) ->
  match alter f k m !! k' with Some a => g a | None => 0 end <=
  Z.max 0 (match m !! k' with Some a => g a | None => 0 end + if decide (k = k') then d else 0).
Proof.
  intros H. destruct (decide (k = k')) as [<-|Hne].
  - rewrite lookup_alter_eq. destruct (m !! k); simpl; [apply H|lia].
  - rewrite lookup_alter_ne by done. destruct (m !! k'); lia.
Qed.

Lemma begin_counts reg c0 c :
  in_flight_of (match c0 with CShape id => begin_queryback id reg | CNode sig => begin_node_queryback sig reg end) c <=
  Z.max 0 (in_flight_of reg c + one c0 c).
Proof.
  destruct c0 as [id|sig], c as [id'|sig']; simpl; unfold one;
    [etransitivity; [apply (alter_count _ sh_inflight _ _ _ 1)|]|rewrite decide_False by done; destruct (_ !! sig'); lia|rewrite decide_False by done; destruct (_ !! id'); lia
    |etransitivity; [apply (alter_count _ n_inflight _ _ _ 1)|]];
    try (intros a; simpl; unfold sat_incr; lia); repeat case_decide; simplify_eq; lia.
Qed.

Lemma end_counts reg c0 c :
  in_flight_of (match c0 with CShape id => end_queryback id reg | CNode sig => end_node_queryback sig reg end) c <=
  Z.max 0 (in_flight_of reg c - one c0 c).
Proof.
  destruct c0 as [id|sig], c as [id'|sig']; simpl; unfold one;
    [etransitivity; [apply (alter_count _ sh_inflight _ _ _ (-1))|]|rewrite decide_False by done; destruct (_ !! sig'); lia|rewrite decide_False by done; destruct (_ !! id'); lia
    |etransitivity; [apply (alter_count _ n_inflight _ _ _ (-1))|]];
    try (intros a; simpl; unfold sat_decr; lia); repeat case_decide; simplify_eq; lia.
Qed.

(** The query-backs the other tasks have under way, at each acquisition of the lock: what they do to
    a counter in between is at most what changed of that, and dropping a shape or a node is free. *)
Context (A : nat -> Counter -> Z).
Hypothesis A_pos : forall n c, 0 <= A n c.
Hypothesis others_settle : forall n reg c, in_flight_of (we_others E n reg) c + A n c <= in_flight_of reg c + A (S n) c.

(** No counter is above what the others account for; but for one query-back of the walk's own. *)
Definition settled w : Prop := forall c, in_flight_of (wk_reg w) c <= A (wk_locks w) c.
Definition owing (c0 : Counter) w : Prop := forall c, in_flight_of (wk_reg w) c <= A (wk_locks w) c + one c0 c.

Lemma settled_stable w w' : settled w -> wk_reg w' = wk_reg w -> wk_locks w' = wk_locks w -> settled w'.
Proof. unfold settled. by intros H -> ->. Qed.

(** A lock that starts with [k] owed and leaves [k'] owed. *)
Lemma triple_counts {X} (k : Counter -> Z) (k' : res str X -> Counter -> Z) f :
  (forall reg a, (forall c, 0 <= a c) -> (forall c, in_flight_of reg c <= a c + k c) ->
     forall c, in_flight_of (f reg).2 c <= a c + k' (f reg).1 c) ->
  triple (λ w, forall c, in_flight_of (wk_reg w) c <= A (wk_locks w) c + k c) (locked E f)
    (λ r w, forall c, in_flight_of (wk_reg w) c <= A (wk_locks w) c + k' r c).
Proof.
  intros H. apply triple_locked. intros w Hw reg. simpl. apply H; [intros; apply A_pos|].
  intros c. specialize (Hw c). pose proof (others_settle (wk_locks w) (wk_reg w) c). unfold reg. lia.
Qed.

(** What the first lock of a query-back leaves owed. *)
Definition started {X} (c0 : Counter) (r : res str (option X)) (c : Counter) : Z :=
  match r with Ok (Some _) => one c0 c | _ => 0 end.

Lemma start_shape_settles id work :
  triple settled (locked E (start_shape id work))
    (λ r w, forall c, in_flight_of (wk_reg w) c <= A (wk_locks w) c + started (CShape id) r c).
Proof.
  eapply triple_weaken; [apply (triple_counts (λ _, 0) (started (CShape id)))| |done].
  - intros reg a Ha Hk c. unfold start_shape. pose proof (queue_deferred_counts reg id work c) as Hq.
    specialize (Ha c). specialize (Hk c). destruct (queue_deferred reg id work) as [reg1 []]; simpl in *; [lia|].
    destruct (r_shapes reg1 !! id) as [s|]; simpl; [|lia].
    destruct (snapshot_for_table reg1 (sh_outer_table s)) as [ts|e]; simpl; [|lia].
    pose proof (begin_counts reg1 (CShape id) c) as Hb. unfold one in *. simpl in Hb. case_decide; lia.
  - intros w Hw c. specialize (Hw c). simpl. lia.
Qed.

Lemma start_node_settles sig work :
  triple settled (locked E (start_node sig work))
    (λ r w, forall c, in_flight_of (wk_reg w) c <= A (wk_locks w) c + started (CNode sig) r c).
Proof.
  eapply triple_weaken; [apply (triple_counts (λ _, 0) (started (CNode sig)))| |done].
  - intros reg a Ha Hk c. unfold start_node. pose proof (queue_node_deferred_counts reg sig work c) as Hq.
    specialize (Ha c). specialize (Hk c). destruct (queue_node_deferred reg sig work) as [reg1 []]; simpl in *; [lia|].
    destruct (r_nodes reg1 !! sig) as [s|]; simpl; [|lia].
    destruct (snapshot_for_table reg1 (n_inner_table s)) as [ts|e]; simpl; [|lia].
    pose proof (begin_counts reg1 (CNode sig) c) as Hb. unfold one in *. simpl in Hb. case_decide; lia.
  - intros w Hw c. specialize (Hw c). simpl. lia.
Qed.

(** Any second lock: it counts nothing itself and ends the query-back. *)
Lemma finish_settles {X} c0 (f : SubqueryRegistry D -> res str X * SubqueryRegistry D) :
  (forall reg, exists reg', (forall c, in_flight_of reg' c = in_flight_of reg c) /\
     (f reg).2 = match c0 with CShape id => end_queryback id reg' | CNode sig => end_node_queryback sig reg' end) ->
  triple (owing c0) (locked E f) (λ _, settled).
Proof.
  intros Hf. eapply triple_weaken; [apply (triple_counts (one c0) (λ _ _, 0))|done|].
  - intros reg a Ha Hk c. destruct (Hf reg) as (reg' & Hc & ->). pose proof (end_counts reg' c0 c) as He.
    specialize (Ha c). specialize (Hk c). specialize (Hc c). lia.
  - intros r w Hw c. specialize (Hw c). simpl in Hw. lia.
Qed.

Lemma abandon_settles {X} c0 (r : res str X) :
  triple (owing c0) (abandon E (match c0 with CShape id => end_queryback id | CNode sig => end_node_queryback sig end) r)
    (λ _, settled).
Proof. apply finish_settles. intros reg. exists reg. by destruct c0. Qed.

Lemma finish_shape_settles id ts rows gate txid :
  triple (owing (CShape id)) (locked E (finish_shape id ts rows gate txid)) (λ _, settled).
Proof.
  apply finish_settles. intros reg. unfold finish_shape.
  pose proof (emit_counts reg ts [(id, map (λ r, (r, true)) rows)] txid (SrcQueryBack gate)) as Hc.
  destruct (emit_for_shapes _ _ _ _ _) as [reg' emitted]. by exists reg'.
Qed.

Lemma finish_node_settles sig ts rows gate :
  triple (owing (CNode sig)) (locked E (finish_node sig ts rows gate)) (λ _, settled).
Proof.
  apply finish_settles. intros reg. unfold finish_node.
  destruct (node_queryback_evals reg sig ts rows gate) as [evals|]; [|by exists reg].
  pose proof (node_evals_counts reg sig evals) as Hc. destruct (apply_node_evals reg sig evals). by eexists.
Qed.

Lemma query_owes c0 ts filter : triple (owing c0) (query E ts filter)
  (λ r w, match r with Ok _ => owing c0 w | Err _ => False end).
Proof. apply triple_query. unfold owing. by intros w w' H -> _ ->. Qed.

(** A query-back: whatever follows the first lock settles what it left owed. *)
Lemma started_settles {X Y} c0 (f : SubqueryRegistry D -> res str (option X) * SubqueryRegistry D) (k : X -> Walk Y) (d : Y) :
  triple settled (locked E f) (λ r w, forall c, in_flight_of (wk_reg w) c <= A (wk_locks w) c + started c0 r c) ->
  (forall x, triple (owing c0) (k x) (λ _, settled)) ->
  triple settled (locked E f ≫= λ o, match o with None => mret d | Some x => k x end) (λ _, settled).
Proof.
  intros Hf Hk. apply (triple_bind _ (λ o w, match o with None => settled w | Some _ => owing c0 w end)).
  - eapply triple_weaken; [exact Hf|done|]. intros [[x|]|e] w Hw; simpl in *; [done| |];
      (intros c; specialize (Hw c); simpl in Hw; lia).
  - intros [x|]; [apply Hk|by intros w Hw].
Qed.

Lemma move_shape_settles id col v txid : triple settled (move_shape_for_value E id col v txid) (λ _, settled).
Proof.
  unfold move_shape_for_value. apply (started_settles (CShape id)); [apply start_shape_settles|]. intros ts.
  apply (triple_bind _ (λ _, owing (CShape id))).
  - eapply triple_weaken; [apply query_owes|done|]. by intros [].
  - intros [[[|r rows] gate]|e]; [apply (abandon_settles (CShape id))| |apply (abandon_settles (CShape id))].
    apply (triple_bind _ (λ _, settled)); [|by intros x w Hw].
    eapply triple_weaken; [apply finish_shape_settles|done|]. by intros [].
Qed.

Lemma rederive_shape_settles id txid : triple settled (rederive_shape E id txid) (λ _, settled).
Proof.
  unfold rederive_shape. apply (started_settles (CShape id)); [apply start_shape_settles|]. intros ts.
  apply (triple_bind _ (λ _, owing (CShape id))).
  - eapply triple_weaken; [apply query_owes|done|]. by intros [].
  - intros [[rows gate]|e]; [|apply (abandon_settles (CShape id))].
    apply (triple_bind _ (λ _, settled)); [|by intros x w Hw].
    eapply triple_weaken; [apply finish_shape_settles|done|]. by intros [].
Qed.

Lemma requery_settles sig filter : triple settled (requery_and_reconcile_parent E sig filter) (λ _, settled).
Proof.
  unfold requery_and_reconcile_parent. apply (started_settles (CNode sig)); [apply start_node_settles|]. intros ts.
  apply (triple_bind _ (λ _, owing (CNode sig))).
  - eapply triple_weaken; [apply query_owes|done|]. by intros [].
  - intros [[rows gate]|e]; [apply finish_node_settles|apply (abandon_settles (CNode sig))].
Qed.

Lemma trace_settles t : triple settled (emit_flip_trace E t) (λ _, settled).
Proof. apply triple_trace. intros w w' H He _ Hl. by eapply settled_stable. Qed.

Lemma push_settles sig flips : triple (D := D) settled (push_flips sig flips) (λ _, settled).
Proof. by intros w Hw. Qed.

Lemma then_settles {X Y} (m : Walk (D := D) X) (f : X -> Walk Y) : triple settled m (λ _, settled) ->
  (forall x, triple settled (f x) (λ _, settled)) -> triple settled (m ≫= f) (λ _, settled).
Proof.
  intros Hm Hf. apply (triple_bind _ (λ _, settled)); [|done].
  eapply triple_weaken; [exact Hm|done|]. by intros [].
Qed.

Lemma ret_settles {X} (x : X) : triple settled (mret x : Walk (D := D) X) (λ _, settled).
Proof. by intros w Hw. Qed.

Lemma rederive_dependent_settles edge txid : triple settled (rederive_dependent E edge txid) (λ _, settled).
Proof.
  unfold rederive_dependent. destruct (ed_dependent edge); [apply rederive_shape_settles|].
  apply then_settles; [apply requery_settles|]. intros [[t flips]|]; [apply push_settles|apply ret_settles].
Qed.

Lemma walk_edge_settles sig flip txid lsn src edge : triple settled (walk_edge E sig flip txid lsn src edge) (λ _, settled).
Proof.
  unfold walk_edge. destruct (value_is_null _).
  { destruct (ed_null_sensitive edge); [apply rederive_dependent_settles|apply ret_settles]. }
  destruct (ed_dependent edge); (apply then_settles; [first [apply move_shape_settles|apply requery_settles]|]).
  - intros [[outer net]|]; [destruct src; [apply trace_settles|]|]; apply ret_settles.
  - intros [[t flips]|]; [|apply ret_settles]. apply then_settles; [|intros; apply push_settles].
    destruct flips; [apply ret_settles|]. destruct src; [apply trace_settles|apply ret_settles].
Qed.

Lemma propagate_one_settles sig flip txid lsn : triple settled (propagate_one E sig flip txid lsn) (λ _, settled).
Proof.
  unfold propagate_one. apply then_settles; [|intros h; apply triple_each; intros; apply walk_edge_settles].
  eapply triple_weaken; [apply (triple_counts (λ _, 0) (λ _ _, 0)); by intros|..].
  - intros w Hw c. specialize (Hw c). lia.
  - intros r w Hw c. specialize (Hw c). simpl in Hw. lia.
Qed.

Lemma propagate_flips_settles txid lsn fuel : forall w r w', settled w ->
  propagate_flips E fuel txid lsn w = Some (r, w') -> settled w'.
Proof.
  induction fuel as [|fuel IH]; intros w r w' Hw; simpl; destruct (wk_work w) as [|[sig flip] rest]; try done;
    [by intros [= <- <-]..|].
  pose proof (propagate_one_settles sig flip txid lsn (set_work rest w) Hw) as Hone.
  destruct (propagate_one E sig flip txid lsn (set_work rest w)) as [[u|e] w1]; simpl in Hone; [by apply IH|].
  by intros [= <- <-].
Qed.

Lemma deferred_shape_settles id work : forall w, settled w ->
  settled (propagate_deferred_shape_work E id work w).2.2.
Proof.
  induction work as [|item rest IH]; intros w Hw; [done|]. simpl.
  set (run := match item with SWValue _ _ _ => _ | SWFull _ => _ end).
  assert (H : triple settled run (λ _, settled)).
  { subst run. destruct item; [|apply rederive_shape_settles].
    apply then_settles; [apply move_shape_settles|intros; apply ret_settles]. }
  specialize (H w Hw). destruct (run w) as [[u|e] w1]; simpl in *; [by apply IH|done].
Qed.

Lemma rederive_nodes_settles work : forall w, settled w -> settled (rederive_nodes E work w).2.2.
Proof.
  induction work as [|[sig item] rest IH]; intros w Hw; [done|]. cbn [rederive_nodes].
  set (filter := match item with NWValue _ _ => _ | NWFull => _ end).
  set (run := requery_and_reconcile_parent E sig filter ≫= _).
  assert (H : triple settled run (λ _, settled)).
  { apply then_settles; [apply requery_settles|]. intros [[t flips]|]; [apply push_settles|apply ret_settles]. }
  specialize (H w Hw). destruct (run w) as [[u|e] w1]; simpl in *; [by apply IH|done].
Qed.

Lemma deferred_nodes_settles fuel st r st' : settled st.2 ->
  propagate_deferred_node_work E fuel st = Some (r, st') -> settled st'.2.
Proof.
  intros Hst. unfold propagate_deferred_node_work. pose proof (rederive_nodes_settles st.1 st.2 Hst) as Hw.
  destruct (rederive_nodes E st.1 st.2) as [[u|e] [work w]]; simpl in Hw; [|by intros [= <- <-]].
  destruct (propagate_flips E fuel None None w) as [[r' w']|] eqn:Ep; [|done]. intros [= <- <-].
  by eapply propagate_flips_settles.
Qed.
End counters.

(* ------------------------------------------------------------------ *)
(** ** Retries *)

Section retry.
Context {S : Type} (pause : Z -> S -> S) (body : S -> option (res str unit * S)).

(** Failed attempts, each followed by its pause. *)
Inductive tried : list Z -> S -> S -> Prop :=
  | tried_nil st : tried [] st st
  | tried_cons ms delays st e st1 st2 : body st = Some (Err e, st1) -> tried delays (pause ms st1) st2 ->
      tried (ms :: delays) st st2.

(** The pauses between attempts. *)
Definition backoff_schedule : list Z := [50; 100; 200; 400].
Fixpoint pauses (n : nat) (backoff : Z) : list Z :=
  match n with
  | O => []
  | Datatypes.S n => backoff :: pauses n (Z.min (backoff * 2) FLIP_BACKOFF_MAX)
  end.

Lemma retry_loop_spec n : forall fuel attempt backoff st r st',
  Z.of_nat n = FLIP_ATTEMPTS - attempt -> (n <= fuel)%nat ->
  retry_loop pause body fuel attempt backoff st = Some (r, st') ->
  exists delays st1, delays `prefix_of` pauses n backoff /\ tried delays st st1 /\ body st1 = Some (r, st') /\
    (r <> Ok tt -> delays = pauses n backoff).
Proof.
  induction n as [|n IH]; intros fuel attempt backoff st r st' Hn Hf;
    (destruct fuel as [|fuel]; [try lia|]); cbn [retry_loop];
    destruct (body st) as [[[u|e] st1]|] eqn:Eb; try done;
    try (destruct u; intros [= <- <-]; exists [], st; split_and!; [apply prefix_nil|constructor|done|done]).
  - rewrite (proj2 (Z.leb_le _ _)) by lia. intros [= <- <-]. exists [], st. split_and!; [done|constructor|done|done].
  - rewrite (proj2 (Z.leb_le _ _)) by lia. intros [= <- <-]. exists [], st. split_and!; [done|constructor|done|done].
  - rewrite (proj2 (Z.leb_gt _ _)) by lia. intros Hr.
    destruct (IH fuel (attempt + 1) _ _ _ _ ltac:(lia) ltac:(lia) Hr) as (delays & st2 & Hp & Ht & Hb & He).
    exists (backoff :: delays), st2. split_and!; [by apply prefix_cons|by econstructor|done|].
    intros Hne. simpl. by rewrite <- He.
Qed.

Lemma retry_spec st r st' : with_retry pause body st = Some (r, st') ->
  exists delays st1, delays `prefix_of` backoff_schedule /\ tried delays st st1 /\ body st1 = Some (r, st') /\
    (r <> Ok tt -> delays = backoff_schedule).
Proof. apply (retry_loop_spec 4); [done|vm_compute; lia]. Qed.

Lemma retry_total_loop n : forall fuel attempt backoff st, (forall st, is_Some (body st)) ->
  Z.of_nat n = FLIP_ATTEMPTS - attempt -> (n <= fuel)%nat -> is_Some (retry_loop pause body fuel attempt backoff st).
Proof.
  induction n as [|n IH]; intros fuel attempt backoff st Hb Hn Hf; destruct fuel as [|fuel]; try lia; cbn [retry_loop];
    destruct (Hb st) as [[[u|e] st1] ->]; try (by eexists).
  - rewrite (proj2 (Z.leb_le _ _)) by lia. by eexists.
  - rewrite (proj2 (Z.leb_le _ _)) by lia. by eexists.
  - rewrite (proj2 (Z.leb_gt _ _)) by lia. apply IH; [done|lia|lia].
Qed.

Lemma retry_total st : (forall st, is_Some (body st)) -> is_Some (with_retry pause body st).
Proof. intros Hb. apply (retry_total_loop 4); [done|done|vm_compute; lia]. Qed.

(** What every attempt and every pause keeps, a run of attempts keeps. *)
Lemma retry_keeps (I : S -> Prop) st r st' :
  (forall st r st', I st -> body st = Some (r, st') -> I st') -> (forall ms st, I st -> I (pause ms st)) ->
  I st -> with_retry pause body st = Some (r, st') -> I st'.
Proof.
  intros Hb Hp Hst Hr. destruct (retry_spec _ _ _ Hr) as (delays & st1 & _ & Ht & He & _).
  assert (I st1) by (clear He Hr; induction Ht; eauto). by eapply Hb.
Qed.
End retry.

(* ------------------------------------------------------------------ *)
(** ** What a failed walk leaves *)

Section resume.
Context {FT : FloatText} {FE : FaultEnv} {D : Type} {MP : MembershipPipeline D}.
Context (E : WalkEnv D) (txid lsn : option str).
Implicit Types (w : Walking D).

(** A computation only appends to the queue, and does not sleep. *)
Definition grown (q : list (SubquerySig * Flip)) (s : list Z) w : Prop := q `prefix_of` wk_work w /\ wk_slept w = s.
Definition appends {A} (m : Walk (D := D) A) : Prop := forall q s, triple (grown q s) m (λ _, grown q s).

Lemma appends_ret {A} (x : A) : appends (mret x).
Proof. by intros q s w Hw. Qed.
Lemma appends_locked {A} (f : SubqueryRegistry D -> res str A * SubqueryRegistry D) : appends (locked E f).
Proof. intros q s. apply triple_locked. by intros w Hw. Qed.
Lemma appends_query ts filter : appends (query E ts filter).
Proof. by intros q s w Hw. Qed.
Lemma appends_push sig flips : appends (push_flips sig flips).
Proof. intros q s w [Hq Hs]. split; [simpl; by apply prefix_app_r|done]. Qed.
Lemma appends_trace t : appends (emit_flip_trace E t).
Proof. intros q s w Hw. unfold emit_flip_trace. simpl. by destruct (we_traced E). Qed.
Lemma appends_bind {A B} (m : Walk A) (f : A -> Walk B) : appends m -> (forall x, appends (f x)) -> appends (m ≫= f).
Proof.
  intros Hm Hf q s. apply (triple_bind _ (λ _, grown q s)); [|intros; apply Hf].
  eapply triple_weaken; [apply (Hm q s)|done|]. by intros [].
Qed.
Lemma appends_each {A} (f : A -> Walk unit) l : (forall x, appends (f x)) -> appends (walk_each f l).
Proof. intros Hf q s. apply triple_each. intros x _. apply Hf. Qed.

Ltac appends := repeat first
  [ apply appends_bind; [|intros ?] | apply appends_ret | apply appends_locked | apply appends_query
  | apply appends_push | apply appends_trace | case_match ].

Lemma appends_one sig flip : appends (propagate_one E sig flip txid lsn).
Proof.
  unfold propagate_one. apply appends_bind; [apply appends_locked|]. intros h. apply appends_each. intros edge.
  unfold walk_edge, rederive_dependent, rederive_shape, move_shape_for_value, requery_and_reconcile_parent, abandon.
  appends.
Qed.

Lemma propagate_one_appends sig flip rest w : let w' := (propagate_one E sig flip txid lsn (set_work rest w)).2 in
  (exists pushed, wk_work w' = rest ++ pushed) /\ wk_slept w' = wk_slept w.
Proof.
  by destruct (appends_one sig flip rest (wk_slept w) (set_work rest w)) as [[p Hp] Hs]; [|split; [exists p|]].
Qed.

(** A walk with its retries: flips taken from the front and carried out, failures that put the flip
    back at the front, pauses. *)
Inductive runs : Walking D -> list (SubquerySig * Flip) -> Walking D -> Prop :=
  | runs_done w : runs w [] w
  | runs_flip w sig flip rest w1 l w2 :
      wk_work w = (sig, flip) :: rest -> propagate_one E sig flip txid lsn (set_work rest w) = (Ok tt, w1) ->
      runs w1 l w2 -> runs w ((sig, flip) :: l) w2
  | runs_fail w sig flip rest e w1 l w2 :
      wk_work w = (sig, flip) :: rest -> propagate_one E sig flip txid lsn (set_work rest w) = (Err e, w1) ->
      runs (set_work ((sig, flip) :: wk_work w1) w1) l w2 -> runs w l w2
  | runs_sleep w ms l w2 : runs (sleep ms w) l w2 -> runs w l w2.

Lemma runs_trans w l w1 l' w2 : runs w l w1 -> runs w1 l' w2 -> runs w (l ++ l') w2.
Proof. induction 1; intros; [done|eapply runs_flip|eapply runs_fail|eapply runs_sleep]; eauto. Qed.

(** First in, first out, and nothing is lost. *)
Lemma runs_queue w l w' : runs w l w' -> exists pushed, wk_work w ++ pushed = l ++ wk_work w'.
Proof.
  induction 1 as [w|w sig flip rest w1 l w2 Hq Ho _ [pushed IH]|w sig flip rest e w1 l w2 Hq Ho _ [pushed IH]|w ms l w2 _ IH].
  - exists []. by rewrite app_nil_r.
  - pose proof (propagate_one_appends sig flip rest w) as [[p Hp] _]. rewrite Ho in Hp. simpl in Hp.
    exists (p ++ pushed). rewrite Hq. simpl. f_equal. by rewrite app_assoc, <- Hp.
  - pose proof (propagate_one_appends sig flip rest w) as [[p Hp] _]. rewrite Ho in Hp. simpl in Hp, IH.
    exists (p ++ pushed). rewrite <- IH, Hq, Hp. simpl. by rewrite app_assoc.
  - exact IH.
Qed.

Lemma propagate_flips_runs fuel : forall w r w', propagate_flips E fuel txid lsn w = Some (r, w') ->
  (exists l, runs w l w') /\ (r = Ok tt <-> wk_work w' = []) /\ wk_slept w' = wk_slept w.
Proof.
  induction fuel as [|fuel IH]; intros w r w'; simpl; destruct (wk_work w) as [|[sig flip] rest] eqn:Hq; try done;
    try (intros [= <- <-]; split; [exists []; constructor|done]).
  destruct (propagate_one_appends sig flip rest w) as [_ Hs].
  destruct (propagate_one E sig flip txid lsn (set_work rest w)) as [[[]|e] w1] eqn:Ho; simpl in Hs.
  - intros ([l Hl] & Hr & Hs')%IH. split; [exists ((sig, flip) :: l); by eapply runs_flip|]. by rewrite Hs', Hs.
  - intros [= <- <-]. split; [|done]. exists []. eapply runs_fail; [done..|constructor].
Qed.

(** What the attempts of a retried walk come to. *)
Lemma retried_runs fuel w r w' : propagate_with_retry E fuel txid lsn w = Some (r, w') ->
  exists l delays, runs w l w' /\ (r = Ok tt <-> wk_work w' = []) /\ wk_slept w' = wk_slept w ++ delays /\
    delays `prefix_of` backoff_schedule /\ (r <> Ok tt -> delays = backoff_schedule).
Proof.
  intros Hr. destruct (retry_spec _ _ _ _ _ Hr) as (delays & w1 & Hp & Ht & Hb & Hd). clear Hr.
  destruct (propagate_flips_runs _ _ _ _ Hb) as ([l Hl] & He & Hs). clear Hb.
  assert (H : exists l, runs w l w1 /\ wk_slept w1 = wk_slept w ++ delays).
  { clear -Ht. induction Ht as [w|ms delays w e w2 w3 Hb _ (l & Hl & Hs)]; [exists []; by split; [constructor|rewrite app_nil_r]|].
    destruct (propagate_flips_runs _ _ _ _ Hb) as ([l1 Hl1] & _ & Hs1). exists (l1 ++ l).
    split; [eapply runs_trans; [done|by eapply runs_sleep]|]. rewrite Hs. simpl. by rewrite Hs1, <- app_assoc. }
  destruct H as (l0 & Hl0 & Hs0). exists (l0 ++ l), delays. split_and!; [by eapply runs_trans|apply He|by rewrite Hs|done|done].
Qed.
End resume.

(* ------------------------------------------------------------------ *)
(** ** The walk ends *)

Section terminates.
Context {FT : FloatText} {FE : FaultEnv} {D : Type} {MP : MembershipPipeline D}.
Context (E : WalkEnv D) (height : SubquerySig -> nat).
Implicit Types (reg : SubqueryRegistry D) (w : Walking D).

(** Every node is above the nodes that depend on it: the graph has no cycle. *)
Definition acyclic reg : Prop :=
  forall sig e p, e ∈ edges_of reg sig -> ed_dependent e = DNode p -> (height p < height sig)%nat.

Definition keeps_edges {A} (f : SubqueryRegistry D -> res str A * SubqueryRegistry D) : Prop :=
  forall reg, r_edges (f reg).2 = r_edges reg.

Lemma start_shape_edges id work : keeps_edges (start_shape id work).
Proof.
  intros reg. unfold start_shape, queue_deferred. destruct (on_pending _ _ _); [done|].
  destruct (r_shapes reg !! id); [|done]. by destruct (snapshot_for_table _ _).
Qed.

Lemma start_node_edges sig work : keeps_edges (start_node sig work).
Proof.
  intros reg. unfold start_node, queue_node_deferred. destruct (r_nodes reg !! sig) as [n|] eqn:Hn; [|by rewrite Hn].
  destruct (n_seed_buffer n); [done|]. rewrite Hn. by destruct (snapshot_for_table _ _).
Qed.

Lemma finish_shape_edges id ts rows gate txid : keeps_edges (finish_shape id ts rows gate txid).
Proof.
  intros reg. unfold finish_shape.
  destruct (emit_for_shapes_frame ts [(id, map (λ r, (r, true)) rows)] txid (SrcQueryBack gate) reg) as [_ _ Hr].
  destruct (emit_for_shapes _ _ _ _ _). simpl in *. by rewrite Hr.
Qed.

Lemma finish_node_edges sig ts rows gate : keeps_edges (finish_node sig ts rows gate).
Proof.
  intros reg. unfold finish_node. destruct (node_queryback_evals _ _ _ _ _) as [evals|]; [|done].
  unfold apply_node_evals, apply_asserts. destruct (assert_rows_frame reg sig evals) as [_ _ _ Hr].
  destruct (assert_rows reg sig evals) as [reg1 asserts]. destruct (circuit_apply _ _). simpl in *. by rewrite Hr.
Qed.

Context (others_acyclic : forall n reg, acyclic reg -> acyclic (we_others E n reg)).

(** What has been pushed since the queue was [q] is below [b]. *)
Definition low (b : nat) (q : list (SubquerySig * Flip)) w : Prop :=
  acyclic (wk_reg w) /\
  exists new, wk_work w = q ++ new /\ Forall (λ f : SubquerySig * Flip, (height f.1 < b)%nat) new.
Definition lowers {A} (b : nat) (m : Walk (D := D) A) : Prop := forall q, triple (low b q) m (λ _, low b q).

Lemma lowers_ret {A} b (x : A) : lowers b (mret x).
Proof. by intros q w Hw. Qed.
Lemma lowers_locked {A} b (f : SubqueryRegistry D -> res str A * SubqueryRegistry D) : keeps_edges f -> lowers b (locked E f).
Proof.
  intros Hf q. apply triple_locked. intros w [Ha Hq] reg. split; [|exact Hq]. simpl.
  apply (others_acyclic (wk_locks w)) in Ha. fold reg in Ha. unfold acyclic, edges_of in *. by rewrite Hf.
Qed.
Lemma lowers_query b ts filter : lowers b (query E ts filter).
Proof. by intros q w Hw. Qed.
Lemma lowers_trace b t : lowers b (emit_flip_trace E t).
Proof. intros q w Hw. unfold emit_flip_trace. simpl. by destruct (we_traced E). Qed.
Lemma lowers_push b sig flips : (height sig < b)%nat -> lowers b (push_flips sig flips).
Proof.
  intros Hb q w [Ha (new & Hq & Hn)]. split; [done|]. exists (new ++ map (pair sig) flips). split.
  - simpl. by rewrite Hq, app_assoc.
  - apply Forall_app. split; [done|]. by apply Forall_forall; intros f (x & <- & _)%list_elem_of_In%in_map_iff.
Qed.
Lemma lowers_bind {A B} b (m : Walk A) (f : A -> Walk B) : lowers b m -> (forall x, lowers b (f x)) -> lowers b (m ≫= f).
Proof.
  intros Hm Hf q. apply (triple_bind _ (λ _, low b q)); [|intros; apply Hf].
  eapply triple_weaken; [apply (Hm q)|done|]. by intros [].
Qed.

Ltac lowers := repeat first
  [ apply lowers_bind; [|intros ?] | apply lowers_ret | apply lowers_query | apply lowers_trace
  | apply lowers_push; assumption
  | apply lowers_locked; first [apply start_shape_edges|apply start_node_edges|apply finish_shape_edges
                               |apply finish_node_edges|done]
  | case_match ].

Lemma walk_edge_lowers txid lsn sig flip src edge b :
  (forall p, ed_dependent edge = DNode p -> (height p < b)%nat) -> lowers b (walk_edge E sig flip txid lsn src edge).
Proof.
  intros Hb. unfold walk_edge, rederive_dependent. destruct (value_is_null _).
  - destruct (ed_null_sensitive edge); [|apply lowers_ret].
    destruct (ed_dependent edge) as [id|p]; [|specialize (Hb p eq_refl)];
      unfold rederive_shape, requery_and_reconcile_parent, abandon; lowers.
  - destruct (ed_dependent edge) as [id|p]; [|specialize (Hb p eq_refl)];
      unfold move_shape_for_value, requery_and_reconcile_parent, abandon; lowers.
Qed.

Lemma propagate_one_lowers txid lsn sig flip rest w : acyclic (wk_reg w) -> wk_work w = rest ->
  low (height sig) rest (propagate_one E sig flip txid lsn w).2.
Proof.
  intros Ha Hq. apply (triple_bind (low (height sig) rest)
    (λ h w, low (height sig) rest w /\ forall e p, e ∈ h.1 -> ed_dependent e = DNode p -> (height p < height sig)%nat)
    _ _ (λ _, low (height sig) rest)).
  - apply triple_locked. intros w1 [Ha1 Hq1] reg. simpl. pose proof (others_acyclic (wk_locks w1) _ Ha1) as Ha2.
    split; [by split|]. intros e p. apply Ha2.
  - intros [edges src] w1 [Hl He]. simpl in *. revert w1 Hl.
    refine (triple_each (low (height sig) rest) _ edges _). intros e Hin.
    apply walk_edge_lowers. intros p. by apply He.
  - split; [done|]. exists []. by rewrite app_nil_r.
Qed.

Lemma propagate_flips_ends txid lsn w : acyclic (wk_reg w) ->
  exists fuel r w', propagate_flips E fuel txid lsn w = Some (r, w') /\ acyclic (wk_reg w').
Proof.
  remember (map (height ∘ fst) (wk_work w)) as hs eqn:Hhs. revert w Hhs.
  induction (shrinks_wf hs) as [hs _ IH]. intros w -> Ha.
  destruct (wk_work w) as [|[sig flip] rest] eqn:Hq.
  { exists 0%nat, (Ok tt), w. simpl. by rewrite Hq. }
  destruct (propagate_one_lowers txid lsn sig flip rest (set_work rest w) Ha eq_refl) as (Ha1 & new & Hq1 & Hn).
  destruct (propagate_one E sig flip txid lsn (set_work rest w)) as [[u|e] w1] eqn:Ho; simpl in *.
  - destruct (IH (map (height ∘ fst) (wk_work w1))) with (w := w1) as (fuel & r & w' & Hr & Ha'); [|done|done|].
    + exists (height sig), (map (height ∘ fst) rest), (map (height ∘ fst) new). split_and!; [done| |].
      * rewrite Hq1, map_app. apply Permutation_app_comm.
      * by apply Forall_fmap, (Forall_impl _ _ _ Hn).
    + exists (S fuel), r, w'. simpl. by rewrite Hq, Ho.
  - exists 1%nat, (Err e), (set_work ((sig, flip) :: wk_work w1) w1). simpl. by rewrite Hq, Ho.
Qed.

Lemma propagate_flips_more fuel fuel' txid lsn : (fuel <= fuel')%nat -> forall w o,
  propagate_flips E fuel txid lsn w = Some o -> propagate_flips E fuel' txid lsn w = Some o.
Proof.
  revert fuel'. induction fuel as [|fuel IH]; intros fuel' Hf w o.
  - simpl. destruct fuel'; simpl; by destruct (wk_work w) as [|[sig flip] rest].
  - destruct fuel' as [|fuel']; [lia|]. simpl. destruct (wk_work w) as [|[sig flip] rest]; [done|].
    destruct (propagate_one E sig flip txid lsn (set_work rest w)) as [[u|e] w1]; [|done]. apply IH. lia.
Qed.

Lemma retry_more {S} (pause : Z -> S -> S) (body body' : S -> option (res str unit * S)) :
  (forall st o, body st = Some o -> body' st = Some o) ->
  forall fuel attempt backoff st o, retry_loop pause body fuel attempt backoff st = Some o ->
    retry_loop pause body' fuel attempt backoff st = Some o.
Proof.
  intros Hb. induction fuel as [|fuel IH]; intros attempt backoff st o; cbn [retry_loop];
    destruct (body st) as [[[u|e] st1]|] eqn:Hbs; try done; rewrite (Hb _ _ Hbs); try done;
    by destruct (FLIP_ATTEMPTS <=? attempt); [|apply IH].
Qed.

Lemma retried_ends txid lsn n : forall tries attempt backoff w, acyclic (wk_reg w) ->
  Z.of_nat n = FLIP_ATTEMPTS - attempt -> (n <= tries)%nat ->
  exists fuel, is_Some (retry_loop sleep (propagate_flips E fuel txid lsn) tries attempt backoff w).
Proof.
  induction n as [|n IH]; intros tries attempt backoff w Ha Hn Ht;
    destruct (propagate_flips_ends txid lsn w Ha) as (fuel & r & w1 & Hr & Ha1).
  - exists fuel. destruct tries; cbn [retry_loop]; rewrite Hr; destruct r; try (by eexists);
      (rewrite (proj2 (Z.leb_le _ _)) by lia); by eexists.
  - destruct tries as [|tries]; [lia|]. destruct r as [u|e].
    { exists fuel. cbn [retry_loop]. rewrite Hr. by eexists. }
    destruct (IH tries (attempt + 1) (Z.min (backoff * 2) FLIP_BACKOFF_MAX) (sleep backoff w1)) as [fuel2 [o Ho]];
      [done|lia|lia|].
    exists (Nat.max fuel fuel2). cbn [retry_loop].
    rewrite (propagate_flips_more fuel _ txid lsn (Nat.le_max_l _ _) _ _ Hr).
    rewrite (proj2 (Z.leb_gt _ _)) by lia. exists o. eapply retry_more; [|exact Ho].
    intros st o'. apply propagate_flips_more. lia.
Qed.
End terminates.

(* ================================================================== *)
(** * Properties *)

Section properties.
Context {FT : FloatText} {FE : FaultEnv} {D : Type} {MP : MembershipPipeline D}.
Implicit Types (reg : SubqueryRegistry D) (w : Walking D).

(** whatever the other tasks do between two acquisitions of the lock, whatever Postgres answers
    and however the walk ends, with its retries or without success, it leaves no query-back counted:
    a counter that exceeded by nothing what the other tasks account for still exceeds it by nothing,
    for the live walk and for both kinds of deferred work. *)
Theorem walk_settles_counters (E : WalkEnv D) (A : nat -> Counter -> Z) fuel txid lsn id :
  (forall n c, 0 <= A n c) ->
  (forall n reg c, in_flight_of (we_others E n reg) c + A n c <= in_flight_of reg c + A (S n) c) ->
  (forall w r w', settled A w -> propagate_with_retry E fuel txid lsn w = Some (r, w') -> settled A w') /\
  (forall st r st', settled A st.2 -> propagate_deferred_with_retry E id st = Some (r, st') -> settled A st'.2) /\
  (forall st r st', settled A st.2 -> propagate_deferred_node_with_retry E fuel st = Some (r, st') -> settled A st'.2).
Proof.
  intros HA Ho. split_and!.
  - intros w r w' Hw. apply (retry_keeps sleep _ (settled A)); [|by intros ms st Hst|done].
    intros w1 r1 w2 H1. by apply propagate_flips_settles.
  - intros st r st' Hst. apply (retry_keeps _ _ (λ st, settled A st.2)); [|by intros ms [work w] Hw|done].
    intros st1 r1 st2 H1 [= Hr]. pose proof (deferred_shape_settles E A HA Ho id st1.1 st1.2 H1) as H. by rewrite Hr in H.
  - intros st r st' Hst. apply (retry_keeps _ _ (λ st, settled A st.2)); [|by intros ms [work w] Hw|done].
    intros st1 r1 st2 H1. by apply deferred_nodes_settles.
Qed.

(** C21: a walk with its retries takes flips from the front of the queue only, carries out each one it
    takes away, and keeps every other in order: what was queued and what was pushed is what was carried
    out followed by what is left.  It succeeds exactly when nothing is left; it gives up only after
    five attempts and the pauses of 50, 100, 200 and 400 milliseconds between them. *)
Theorem walk_loses_nothing (E : WalkEnv D) fuel txid lsn w r w' :
  propagate_with_retry E fuel txid lsn w = Some (r, w') ->
  exists walked pushed delays, runs E txid lsn w walked w' /\
    wk_work w ++ pushed = walked ++ wk_work w' /\ (r = Ok tt <-> wk_work w' = []) /\
    wk_slept w' = wk_slept w ++ delays /\ delays `prefix_of` [50; 100; 200; 400] /\
    (r <> Ok tt -> delays = [50; 100; 200; 400]).
Proof.
  intros (l & delays & Hl & He & Hs & Hp & Hd)%retried_runs. destruct (runs_queue _ _ _ _ _ _ Hl) as [pushed Hq].
  by exists l, pushed, delays.
Qed.

(** C22: on a graph of nodes without a cycle, which the other tasks may change but leave without one,
    the walk with its retries ends, whatever flips Postgres' answers make it derive on the way. *)
Theorem walk_terminates (E : WalkEnv D) (height : SubquerySig -> nat) txid lsn w :
  (forall n reg, acyclic height reg -> acyclic height (we_others E n reg)) ->
  acyclic height (wk_reg w) ->
  exists fuel r w', propagate_with_retry E fuel txid lsn w = Some (r, w').
Proof.
  intros Ho Ha. destruct (retried_ends E height Ho txid lsn 4 5 1 FLIP_BACKOFF_START w Ha eq_refl ltac:(lia)) as [fuel [[r w'] Hr]].
  by exists fuel, r, w'.
Qed.
End properties.
