(* ===== verification/SubqConverge.v ===== *)
(** * The flip walk converges

    After a change of an inner set the streams of the outer shapes and the sets of the parent nodes
    are behind; the flips the change returned say where.  Here: when nothing else happens and every
    read that succeeds returns the table's rows, a walk that ends leaves every installed shape's
    subscribers with exactly the rows its predicate selects under the sets as they are, and every
    set with exactly what its node's predicate selects, however deep the nesting. *)

From S2P Require Import Prelude BTree Value TableRef Schema Predicate PredicateFacts Gate Output.
From S2P Require Import Executors Refine Sequencer PkDict SubqIndex SubqCircuit Subquery SubqueryFacts SubqEmit.
From S2P Require Import SubqLive SubqFence SubqCreate SubqAtomic SubqDeps SubqFinish SubqWalk SubqWalkFacts.
From stdpp Require Import base option numbers strings gmap fin_maps sorting list.
#[local] Open Scope Z_scope.

(* ------------------------------------------------------------------ *)
(** ** Steps that change nothing that is claimed *)

(** A node without its recency, its counter and what waits for its seed. *)
Definition node_fixed (n : SubqueryNode) : SubqueryNode :=
  node_with_recent ∅ 0 (node_with_deferred [] n).

Lemma node_fixed_fields n n' : node_fixed n' = node_fixed n ->
  n_inner_table n' = n_inner_table n /\ n_pred n' = n_pred n /\ n_proj_col n' = n_proj_col n /\
  n_seed_buffer n' = n_seed_buffer n /\ node_key n' = node_key n.
Proof.
  intros H. split_and!; [exact (f_equal n_inner_table H)|exact (f_equal n_pred H)|exact (f_equal n_proj_col H)
    |exact (f_equal n_seed_buffer H)|exact (f_equal node_key H)].
Qed.

Section idle.
Context {FT : FloatText} {FE : FaultEnv} {D : Type} {MP : MembershipPipeline D} {ML : MembershipLaws D}.
Implicit Types (reg : SubqueryRegistry D).

Inductive idle reg : SubqueryRegistry D -> Prop :=
  | idle_none : idle reg reg
  | idle_shape id f : (forall s, shape_fixed (f s) = shape_fixed s /\ sh_recent (f s) ⊆ sh_recent s) ->
      idle reg (on_shape id f reg)
  | idle_node sig f : (forall n, node_fixed (f n) = node_fixed n /\ n_recent (f n) ⊆ n_recent n) ->
      idle reg (on_node sig f reg)
  | idle_pending l : map ps_shape_id l = map ps_shape_id (r_pending_shapes reg) ->
      idle reg (set_pending_shapes l reg).

Lemma begin_idle id reg : idle reg (begin_queryback id reg).
Proof. by apply idle_shape. Qed.
Lemma end_idle id reg : idle reg (end_queryback id reg).
Proof. apply idle_shape. intros s. split; [done|]. simpl. case_match; [apply map_empty_subseteq|done]. Qed.
Lemma begin_node_idle sig reg : idle reg (begin_node_queryback sig reg).
Proof. by apply idle_node. Qed.
Lemma end_node_idle sig reg : idle reg (end_node_queryback sig reg).
Proof. apply idle_node. intros s. split; [done|]. simpl. case_match; [apply map_empty_subseteq|done]. Qed.

Lemma on_pending_ids id f l l' : (forall p, ps_shape_id (f p) = ps_shape_id p) -> on_pending id f l = Some l' ->
  map ps_shape_id l' = map ps_shape_id l /\ id ∈ map ps_shape_id l.
Proof.
  intros Hf. revert l'. induction l as [|p l IH]; intros l'; simpl; [done|]. case_bool_decide as He.
  - intros [= <-]. simpl. rewrite Hf, He. split; [done|by left].
  - destruct (on_pending id f l) as [l1|]; simpl; [|done]. intros [= <-].
    destruct (IH l1 eq_refl) as [H1 H2]. simpl. rewrite H1. split; [done|by right].
Qed.

Lemma queue_deferred_idle reg id work : idle reg (queue_deferred reg id work).1 /\
  ((queue_deferred reg id work).2 = true -> id ∈ map ps_shape_id (r_pending_shapes reg)) /\
  ((queue_deferred reg id work).2 = false -> (queue_deferred reg id work).1 = reg).
Proof.
  unfold queue_deferred. destruct (on_pending _ _ _) as [l|] eqn:Ho; [|split_and!; [constructor|done|done]].
  apply on_pending_ids in Ho as [H1 H2]; [|done]. by split_and!; [apply idle_pending|..].
Qed.

Lemma queue_node_deferred_idle reg sig work : idle reg (queue_node_deferred reg sig work).1 /\
  ((queue_node_deferred reg sig work).2 = true -> exists n, r_nodes reg !! sig = Some n /\ n_seed_buffer n <> None) /\
  ((queue_node_deferred reg sig work).2 = false -> (queue_node_deferred reg sig work).1 = reg /\
     forall n, r_nodes reg !! sig = Some n -> n_seed_buffer n = None).
Proof.
  unfold queue_node_deferred. destruct (r_nodes reg !! sig) as [n|] eqn:Hn; [|by split_and!; [constructor|..]].
  destruct (n_seed_buffer n) eqn:Hb; split_and!; try done; [by apply idle_node| |constructor|].
  - intros _. exists n. by rewrite Hb.
  - intros _. split; [done|]. by intros n' [= <-].
Qed.
End idle.

(* ------------------------------------------------------------------ *)
(** ** What is claimed *)

(** Two contexts in which every predicate says the same. *)
Definition same_eval {FE : FaultEnv} (ev ev' : SubqueryEval) : Prop :=
  forall p row, matches_ctx p row ev = matches_ctx p row ev'.

Lemma shown_ext {FT : FloatText} {FE : FaultEnv} ts s s' ev ev' T pk : sh_pred s' = sh_pred s -> sh_out_cols s' = sh_out_cols s ->
  same_eval ev ev' -> shown ts s' ev T pk = shown ts s ev' T pk.
Proof. intros Hp Hc He. unfold shown. rewrite Hp, Hc. destruct (T !! pk); simpl; [by rewrite He|done]. Qed.

Lemma contributions_ext {FE : FaultEnv} n n' ev ev' T pk : n_pred n' = n_pred n -> n_proj_col n' = n_proj_col n ->
  same_eval ev ev' -> contributions n' ev T pk = contributions n ev' T pk.
Proof. intros Hp Hc He. unfold contributions, contribution. rewrite Hp, Hc. destruct (T !! pk); simpl; [by rewrite He|done]. Qed.

Section claims.
Context {FT : FloatText} {FE : FaultEnv} {D : Type} {MP : MembershipPipeline D} {ML : MembershipLaws D}.
Context (W : gmap TableRef (gmap str Row)) (base : str -> gmap str json) (edges : SubquerySig -> list Edge).
Implicit Types (reg : SubqueryRegistry D) (w : Walking D).

(** The table and the predicate of a dependent; a node waiting for its seed has nothing to claim. *)
Definition dep_of reg (dep : Dependent) : option (TableRef * CompiledPredicate) :=
  match dep with
  | DShape id => s ← r_shapes reg !! id; Some (sh_outer_table s, sh_pred s)
  | DNode sig => n ← r_nodes reg !! sig;
                 match n_seed_buffer n with None => Some (n_inner_table n, n_pred n) | Some _ => None end
  end.

(** What a subscriber of a stream has, who had [base] when the streams were last empty. *)
Definition view reg (path : str) : gmap str json := materialize (base path) (sent_to reg path).

(** A dependent is as its predicate says, for one key of its table. *)
Definition right reg (dep : Dependent) (pk : str) : Prop :=
  match dep with
  | DShape id => forall s ts, r_shapes reg !! id = Some s -> r_schemas reg !! sh_outer_table s = Some ts ->
      view reg (sh_stream_path s) !! pk = shown ts s (reg_eval reg) (rows_of W (sh_outer_table s)) pk
  | DNode sig => forall n, r_nodes reg !! sig = Some n -> n_seed_buffer n = None ->
      node_holds reg sig pk = contributions n (reg_eval reg) (rows_of W (n_inner_table n)) pk
  end.

(** A flip of a value reaches a row of a dependent along one of the edges. *)
Definition edge_reaches (e : Edge) (v : Value) (r : Row) : bool :=
  if value_is_null v then ed_null_sensitive e else value_eqb (cell r (ed_connecting_col e)) v.
Definition via (es : list Edge) (v : Value) (dep : Dependent) (r : Row) : Prop :=
  exists e, e ∈ es /\ ed_dependent e = dep /\ edge_reaches e v r = true.
Definition queued (fs : list (SubquerySig * Flip)) (dep : Dependent) (r : Row) : Prop :=
  exists f, f ∈ fs /\ via (edges f.1) (fl_value f.2) dep r.

(** Whatever is not right is waiting: for a queued flip, or for [extra]. *)
Definition covered reg (work : list (SubquerySig * Flip)) (extra : Dependent -> Row -> Prop) : Prop :=
  forall dep t pred pk, dep_of reg dep = Some (t, pred) ->
    right reg dep pk \/ exists r, rows_of W t !! pk = Some r /\ (queued work dep r \/ extra dep r).

Record walkable reg : Prop := {
  wl_live : live_ok reg;
  wl_tables : forall t ts, r_schemas reg !! t = Some ts -> ts_table ts = t /\ table_ok ts (rows_of W t);
  wl_named : forall t, is_Some (r_schemas reg !! t) -> TableRef_wf t;
  wl_schemas : forall id s, r_shapes reg !! id = Some s -> is_Some (r_schemas reg !! sh_outer_table s);
  wl_pending : forall id, is_Some (r_shapes reg !! id) -> id ∉ map ps_shape_id (r_pending_shapes reg);
  wl_recent : forall id pk, recent_of reg id pk = None;
  wl_node_recent : forall sig n, r_nodes reg !! sig = Some n -> n_recent n = ∅;
  wl_edges : forall sig, edges_of reg sig = edges sig;
  wl_leaves : forall dep t pred l, dep_of reg dep = Some (t, pred) -> l ∈ collect_in_leaves pred ->
    MkEdge (il_sig l) dep (il_col l) (il_negated l) (il_null_sensitive l) ∈ edges (il_sig l);
  wl_own : forall sig n, r_nodes reg !! sig = Some n -> sig ∉ leaf_sigs (n_pred n);
  wl_feed : forall id s pk, r_shapes reg !! id = Some s ->
    is_Some (view reg (sh_stream_path s) !! pk) <-> reg_fed reg (sh_feed_id s) pk = true
}.

(** A step of the registry: what was right, or is made right, is right afterwards, or waits for the
    flips the step returns. *)
Record improves reg reg' (new : list (SubquerySig * Flip)) (fixed : Dependent -> Row -> Prop) : Prop := {
  im_walkable : walkable reg';
  im_dep : forall dep, dep_of reg' dep = dep_of reg dep;
  im_right : forall dep t pred pk, dep_of reg dep = Some (t, pred) ->
    right reg dep pk \/ (exists r, rows_of W t !! pk = Some r /\ fixed dep r) ->
    right reg' dep pk \/ exists r, rows_of W t !! pk = Some r /\ queued new dep r
}.

Lemma covered_improves reg reg' work new fixed (extra extra' : Dependent -> Row -> Prop) : improves reg reg' new fixed ->
  covered reg work extra -> (forall dep r, extra dep r -> fixed dep r \/ extra' dep r) ->
  covered reg' work (λ dep r, extra' dep r \/ queued new dep r).
Proof.
  intros [_ Hd Hr] Hc He dep t pred pk Hdep. rewrite Hd in Hdep.
  destruct (Hc dep t pred pk Hdep) as [Hp|(r & Hpk & Hq)].
  - destruct (Hr dep t pred pk Hdep (or_introl Hp)) as [|(r & ? & ?)]; [by left|right; exists r; tauto].
  - destruct Hq as [Hq|[Hf|He']%He]; [right; exists r; tauto| |right; exists r; tauto].
    destruct (Hr dep t pred pk Hdep) as [|(r' & ? & ?)]; [right; by exists r|by left|right; exists r'; tauto].
Qed.

Lemma node_fixed_eval reg sig f : (forall n, node_key (f n) = node_key n) ->
  same_eval (reg_eval (on_node sig f reg)) (reg_eval reg).
Proof.
  intros Hf p row. assert (Hc : forall s v, node_contains (on_node sig f reg) s v = node_contains reg s v).
  { intros s v. unfold node_contains. simpl. destruct (decide (sig = s)) as [<-|Hne].
    - rewrite lookup_alter_eq. destruct (r_nodes reg !! sig) as [n|]; simpl; [|done].
      by rewrite (f_equal (λ k : Z * str * Row * (TableRef * nat), k.1.1.1) (Hf n) : n_node_id (f n) = n_node_id n).
    - by rewrite lookup_alter_ne. }
  apply eval_ext; [apply Hc|intros s; apply Hc].
Qed.

Lemma on_shape_back id f reg : (forall s, shape_fixed (f s) = shape_fixed s /\ sh_recent (f s) ⊆ sh_recent s) ->
  forall i s', r_shapes (on_shape id f reg) !! i = Some s' ->
    exists s, r_shapes reg !! i = Some s /\ shape_fixed s' = shape_fixed s /\ sh_recent s' ⊆ sh_recent s.
Proof.
  intros Hf i s'. simpl. destruct (decide (id = i)) as [<-|Hne]; [|rewrite lookup_alter_ne by done; eauto].
  rewrite lookup_alter_eq. destruct (r_shapes reg !! id) as [s|]; simpl; [|done]. intros [= <-]. exists s. by destruct (Hf s).
Qed.

Lemma on_node_back sig f reg : (forall n, node_fixed (f n) = node_fixed n /\ n_recent (f n) ⊆ n_recent n) ->
  forall i n', r_nodes (on_node sig f reg) !! i = Some n' ->
    exists n, r_nodes reg !! i = Some n /\ node_fixed n' = node_fixed n /\ n_recent n' ⊆ n_recent n.
Proof.
  intros Hf i n'. simpl. destruct (decide (sig = i)) as [<-|Hne]; [|rewrite lookup_alter_ne by done; eauto].
  rewrite lookup_alter_eq. destruct (r_nodes reg !! sig) as [n|]; simpl; [|done]. intros [= <-]. exists n. by destruct (Hf n).
Qed.

Lemma on_shape_dep id f reg : (forall s, shape_fixed (f s) = shape_fixed s) ->
  forall dep, dep_of (on_shape id f reg) dep = dep_of reg dep.
Proof.
  intros Hf [i|s]; [|done]. simpl. destruct (decide (id = i)) as [<-|Hne]; [|by rewrite lookup_alter_ne].
  rewrite lookup_alter_eq. destruct (r_shapes reg !! id) as [s|]; simpl; [|done].
  by destruct (shape_fixed_fields _ _ (Hf s)) as (_ & _ & -> & _ & _ & ->).
Qed.

Lemma on_node_dep sig f reg : (forall n, node_fixed (f n) = node_fixed n) ->
  forall dep, dep_of (on_node sig f reg) dep = dep_of reg dep.
Proof.
  intros Hf [i|s]; [done|]. simpl. destruct (decide (sig = s)) as [<-|Hne]; [|by rewrite lookup_alter_ne].
  rewrite lookup_alter_eq. destruct (r_nodes reg !! sig) as [n|]; simpl; [|done].
  by destruct (node_fixed_fields _ _ (Hf n)) as (-> & -> & _ & -> & _).
Qed.

Lemma subset_empty {K A} `{Countable K} (m m' : gmap K A) : m' ⊆ m -> m = ∅ -> m' = ∅.
Proof. intros Hs ->. apply map_eq. intros k. rewrite lookup_empty. apply eq_None_not_Some. intros [x Hx].
  by apply (lookup_weaken _ _ _ _ Hx), lookup_empty_Some in Hs. Qed.

Lemma on_shape_improves id f reg : (forall s, shape_fixed (f s) = shape_fixed s /\ sh_recent (f s) ⊆ sh_recent s) ->
  walkable reg -> improves reg (on_shape id f reg) [] (λ _ _, False).
Proof.
  intros Hf Hw. pose proof (on_shape_back id f reg Hf) as Hback. pose proof (on_shape_dep id f reg (λ s, proj1 (Hf s))) as Hdep.
  destruct Hw as [Hl Ht Hnm Hsc Hp Hr Hnr He Hlv Ho Hfd]. split; [split|done|].
  - by apply live_ok_shape.
  - done.
  - done.
  - intros i s' (s & Hs & (_ & _ & _ & _ & _ & ->)%shape_fixed_fields & _)%Hback. by apply (Hsc i).
  - intros i [s' (s & Hs & _)%Hback]. apply Hp. by exists s.
  - intros i pk. apply eq_None_not_Some. intros [st Hst]. unfold recent_of in Hst.
    apply bind_Some in Hst as (s' & (s & Hs & _ & Hsub)%Hback & (k & Hk & Hst)%bind_Some).
    specialize (Hr i pk). unfold recent_of in Hr. rewrite Hs in Hr. simpl in Hr. change (pk_get (r_pk_dict reg) pk = Some k) in Hk.
    rewrite Hk in Hr. simpl in Hr. by rewrite (lookup_weaken _ _ _ _ Hst Hsub) in Hr.
  - done.
  - done.
  - intros dep t pred l. rewrite Hdep. apply Hlv.
  - done.
  - intros i s' pk (s & Hs & (-> & -> & _)%shape_fixed_fields & _)%Hback. exact (Hfd i s pk Hs).
  - intros dep t pred pk _ [Hright|(r & _ & [])]. left. destruct dep as [i|s]; [|done].
    intros s' ts (s & Hs & (_ & Hpath & Hpred & Hcols & _ & Htab)%shape_fixed_fields & _)%Hback Hts. simpl in Hts.
    rewrite Htab in Hts. specialize (Hright s ts Hs Hts). rewrite Hpath, Htab.
    rewrite (shown_ext ts s s' _ (reg_eval reg)) by done. exact Hright.
Qed.

Lemma on_node_improves sig f reg : (forall n, node_fixed (f n) = node_fixed n /\ n_recent (f n) ⊆ n_recent n) ->
  walkable reg -> improves reg (on_node sig f reg) [] (λ _ _, False).
Proof.
  intros Hf Hw. pose proof (on_node_back sig f reg Hf) as Hback. pose proof (on_node_dep sig f reg (λ s, proj1 (Hf s))) as Hdep.
  assert (Hkey : forall n, node_key (f n) = node_key n) by (intros n; by apply node_fixed_fields, Hf).
  pose proof (node_fixed_eval reg sig f Hkey) as Hev.
  destruct Hw as [Hl Ht Hnm Hsc Hp Hr Hnr He Hlv Ho Hfd].
  assert (Hkeys : forall s, node_key <$> r_nodes (on_node sig f reg) !! s = node_key <$> r_nodes reg !! s)
    by (intros s; by apply alter_core).
  destruct (sets_ok_nodes reg _ (r_nodes (on_node sig f reg)) Hkeys (lv_sets _ Hl)) as [_ Hholds].
  split; [split|done|].
  - by apply live_ok_node.
  - done.
  - done.
  - done.
  - done.
  - done.
  - intros i n' (n & Hn & _ & Hsub)%Hback. by apply (subset_empty _ _ Hsub), (Hnr i n).
  - done.
  - intros dep t pred l. rewrite Hdep. apply Hlv.
  - intros i n' (n & Hn & (_ & -> & _)%node_fixed_fields & _)%Hback. by apply Ho.
  - done.
  - intros dep t pred pk _ [Hright|(r & _ & [])]. left. destruct dep as [i|s].
    + intros s ts Hs Hts. rewrite (shown_ext ts s s _ (reg_eval reg)) by done. by apply Hright.
    + intros n' (n & Hn & (Htab & Hpred & Hproj & Hseed & _)%node_fixed_fields & _)%Hback Hb.
      rewrite Htab, (contributions_ext n n' _ (reg_eval reg)) by done. rewrite <- Hright by congruence. apply Hholds.
Qed.

Lemma idle_improves reg reg' : idle reg reg' -> walkable reg -> improves reg reg' [] (λ _ _, False).
Proof.
  intros [|id f Hf|sig f Hf|l Hl] Hw.
  - split; [done|done|]. intros dep t pred pk _ [?|(? & _ & [])]. by left.
  - by apply on_shape_improves.
  - by apply on_node_improves.
  - destruct Hw as [[Hs [Ht1 Ht2] [Hd1 Hd2] Hix Hrn] Ht Hnm Hsc Hp Hr Hnr He Hlv Ho Hfd]. split; [split|done|]; try done.
    + by split; [destruct Hs| | | |].
    + intros id Hid. simpl. rewrite Hl. by apply Hp.
    + intros dep t pred pk _ [?|(? & _ & [])]. by left.
Qed.

(** What a read returns: rows of the table, in any order, with all those it was asked for. *)
Definition picked (filter : option (nat * Value)) (r : Row) : bool :=
  match filter with Some (col, v) => value_eqb (cell r col) v | None => true end.
Definition answers (T : gmap str Row) (filter : option (nat * Value)) (rows : list Row) : Prop :=
  exists R, rows ≡ₚ (map_to_list R).*2 /\ R ⊆ T /\
    forall pk r, T !! pk = Some r -> picked filter r = true -> R !! pk = Some r.

Lemma view_app reg reg' path envs : sent_to reg' path = sent_to reg path ++ envs ->
  view reg' path = materialize (view reg path) envs.
Proof. intros H. unfold view. by rewrite H, materialize_app. Qed.

Lemma table_ok_subset (ts : TableSchema) (T R : gmap str Row) : table_ok ts T -> R ⊆ T -> table_ok ts R.
Proof. intros HT Hs k r Hr. apply HT. by eapply lookup_weaken. Qed.

Lemma emit_dep reg reg' : emit_frame reg reg' -> forall dep, dep_of reg' dep = dep_of reg dep.
Proof.
  intros F [i|s]; simpl; [|by rewrite (ef_rest _ _ F)]. pose proof (ef_shapes _ _ F i) as Hs.
  destruct (r_shapes reg !! i), (r_shapes reg' !! i); simpl in *; try done.
  apply (inj Some), shape_core_fields in Hs as (_ & _ & -> & _ & _ & -> & _). done.
Qed.

Lemma emit_improves reg id s ts rows gate txid filter : drop_deletes = false -> walkable reg ->
  r_shapes reg !! id = Some s -> r_schemas reg !! sh_outer_table s = Some ts ->
  answers (rows_of W (sh_outer_table s)) filter rows ->
  let reg' := (emit_for_shapes reg ts [(id, map (λ r, (r, true)) rows)] txid (SrcQueryBack gate)).1 in
  dict_small reg' ->
  improves reg reg' [] (λ dep r, dep = DShape id /\ picked filter r = true).
Proof.
  intros Hdd Hw Hs Hts (R & Hrows & Hsub & Hall) reg' Hsm. unfold reg' in *. clear reg'.
  destruct (wl_tables _ Hw _ _ Hts) as [_ HT]. pose proof (table_ok_subset _ _ _ HT Hsub) as HR.
  destruct (queryback_step reg ts gate txid R rows (view reg (sh_stream_path s)) id s Hdd
              (lv_tail _ (wl_live _ Hw)) (lv_distinct _ (wl_live _ Hw)) Hs HR Hrows
              (λ pk, wl_feed _ Hw id s pk Hs) Hsm) as (envs & Hsent & Hpk).
  destruct (candidates_of ts R rows HR Hrows) as (l & Hk & Hl & _).
  pose proof (emit_one_spec ts (SrcQueryBack gate) txid reg id s l (lv_tail _ (wl_live _ Hw))
                (lv_distinct _ (wl_live _ Hw)) Hk Hs) as He. rewrite Hl in He. destruct He as [F He].
  destruct (He Hsm) as (Htail & Hsent' & Hfed & Hrec). clear He.
  set (reg' := (emit_for_shapes _ _ _ _ _).1) in *.
  pose proof (emit_dep _ _ F) as Hdep. pose proof (ef_rest _ _ F) as Hrest.
  assert (Hschemas : r_schemas reg' = r_schemas reg) by (by rewrite Hrest).
  assert (Hnodes : r_nodes reg' = r_nodes reg) by (by rewrite Hrest).
  assert (Hview : forall i s', r_shapes reg !! i = Some s' -> i <> id -> view reg' (sh_stream_path s') = view reg (sh_stream_path s')).
  { intros i s' Hi Hne. unfold view. rewrite (Hsent' i s' Hi), decide_False by done. by rewrite app_nil_r. }
  assert (Hundercut : forall pk, undercut reg id gate pk = false).
  { intros pk. unfold undercut. by rewrite (wl_recent _ Hw). }
  apply view_app in Hsent. split; [split|done|].
  - by apply (live_ok_emit reg), wl_live.
  - rewrite Hschemas. apply Hw.
  - rewrite Hschemas. apply Hw.
  - intros i s' (s0 & Hs0 & Hc)%(ef_shape_back _ _ _ _ F).
    destruct (shape_core_fields _ _ Hc) as (_ & _ & _ & _ & _ & -> & _). rewrite Hschemas. by apply (wl_schemas _ Hw i).
  - intros i [s' (s0 & Hs0 & _)%(ef_shape_back _ _ _ _ F)]. rewrite Hrest. apply (wl_pending _ Hw). by exists s0.
  - intros i pk. by rewrite Hrec, (wl_recent _ Hw).
  - rewrite Hnodes. apply Hw.
  - intros sig. rewrite Hrest. apply (wl_edges _ Hw).
  - intros dep t pred lf. rewrite Hdep. apply Hw.
  - rewrite Hnodes. apply Hw.
  - intros i s' pk (s0 & Hs0 & Hc)%(ef_shape_back _ _ _ _ F).
    destruct (shape_core_fields _ _ Hc) as (-> & -> & _). destruct (decide (i = id)) as [->|Hne].
    + assert (s0 = s) as -> by congruence. destruct (Hpk pk) as [Hb _]. by rewrite Hb, Hsent, bool_decide_eq_true.
    + rewrite (Hview i s0 Hs0 Hne), Hfed. unfold group_fed. rewrite decide_False; [by apply (wl_feed _ Hw i)|].
      intros Heq. apply Hne. by apply (sd_feed _ (lv_distinct _ (wl_live _ Hw)) _ _ _ _ Hs0 Hs).
  - intros dep t pred pk Hd Hor. left. destruct dep as [i|sig].
    + intros s' ts' (s0 & Hs0 & Hc)%(ef_shape_back _ _ _ _ F) Hts'.
      destruct (shape_core_fields _ _ Hc) as (_ & Hpath & Hpred & Hcols & _ & Htab & _).
      rewrite Hschemas, Htab in Hts'. rewrite Hpath, Htab, (shown_ext ts' s0 s' _ (reg_eval reg)); [|done..|].
      2: { by rewrite (ef_eval _ _ F). }
      simpl in Hd. rewrite Hs0 in Hd. injection Hd as <- <-. destruct (decide (i = id)) as [->|Hne].
      * assert (s0 = s) as -> by congruence. assert (ts' = ts) as -> by congruence.
        destruct (Hpk pk) as [_ Hm]. rewrite Hsent, Hm, Hundercut. destruct (R !! pk) as [r|] eqn:Er.
        { unfold shown. by rewrite Er, (lookup_weaken _ _ _ _ Er Hsub). }
        destruct Hor as [Hright|(r & Hr & _ & Hp)]; [by apply Hright|]. by rewrite (Hall _ _ Hr Hp) in Er.
      * rewrite (Hview i s0 Hs0 Hne). destruct Hor as [Hright|(r & _ & [= ?] & _)]; [by apply Hright|done].
    + destruct Hor as [Hright|(r & _ & ? & _)]; [|done]. intros n Hn Hb. rewrite Hnodes in Hn.
      rewrite (contributions_ext n n _ (reg_eval reg)); [|done..|by rewrite (ef_eval _ _ F)].
      rewrite <- (Hright n Hn Hb). unfold node_holds. replace (r_circuit reg') with (r_circuit reg) by (by rewrite Hrest).
      apply (sets_ok_emit reg reg'); [done|apply Htail|apply wl_live, Hw].
Qed.

(** *** A parent node is re-derived *)

Lemma mapped_evals (ts : TableSchema) (T : gmap str Row) (rows : list Row) (f : Row -> option Value) pk :
  table_ok ts T -> rows ≡ₚ (map_to_list T).*2 ->
  last_eval (map (λ r, (key_or_empty ts r, f r)) rows) pk = f <$> T !! pk.
Proof.
  intros HT Hrows. set (evals := map _ rows).
  assert (Hp : evals ≡ₚ map (λ kr : str * Row, (kr.1, f kr.2)) (map_to_list T)).
  { unfold evals. rewrite Hrows. change ((map_to_list T).*2) with (map snd (map_to_list T)). rewrite map_map.
    erewrite map_ext_in; [done|]. intros [k r] Hin. simpl. f_equal. apply key_or_empty_ok, HT.
    by apply elem_of_map_to_list, list_elem_of_In. }
  assert (Hk : evals.*1 ≡ₚ (map_to_list T).*1).
  { rewrite Hp. change (map fst (map (λ kr : str * Row, (kr.1, f kr.2)) (map_to_list T)) ≡ₚ map fst (map_to_list T)).
    by rewrite map_map. }
  assert (Hnd : NoDup evals.*1) by (rewrite Hk; apply NoDup_fst_map_to_list).
  destruct (T !! pk) as [r|] eqn:Er; simpl.
  - apply last_eval_nodup; [done|]. rewrite Hp. apply list_elem_of_In, in_map_iff. exists (pk, r).
    split; [done|]. by apply list_elem_of_In, elem_of_map_to_list.
  - apply last_eval_none. rewrite Hk. intros ([k r] & -> & Hin)%list_elem_of_fmap.
    apply elem_of_map_to_list in Hin. simpl in Er. congruence.
Qed.

Lemma queryback_evals_map reg sig n (ts : TableSchema) rows gate : r_nodes reg !! sig = Some n -> n_recent n = ∅ ->
  node_queryback_evals reg sig ts rows gate =
    Some (map (λ r, (key_or_empty ts r, contribution (n_pred n) (n_proj_col n) r (reg_eval reg))) rows).
Proof.
  intros Hn Hr. unfold node_queryback_evals. rewrite Hn. f_equal. induction rows as [|r rows IH]; [done|].
  simpl. rewrite Hr, lookup_empty. simpl. by f_equal.
Qed.

(** The flips of a re-derivation are its own node's, and tell the contexts apart. *)
Lemma requery_flips reg sig n evals : live_ok reg -> r_nodes reg !! sig = Some n ->
  let st := assert_rows reg sig evals in
  let out := apply_asserts st.1 st.2 in
  dict_small out.1 ->
  (forall s u, (s, u) ∈ flipped out.2 -> s = sig) /\
  agree_off (λ s u, (s, u) ∈ flipped out.2) (reg_eval reg) (reg_eval out.1).
Proof.
  intros Hl Hn st out Hsm.
  destruct (apply_evals_sets reg sig n evals (lv_sets _ Hl) (lv_runs _ Hl _) Hn Hsm) as (Hok & F & Hnodes & Hholds).
  fold st out in Hok, F, Hnodes, Hholds. pose proof (assert_rows_frame reg sig evals) as G. fold st in G.
  assert (Hsame : r_nodes st.1 = r_nodes reg) by apply assert_rows_nodes.
  assert (Hid : r_node_by_id st.1 = r_node_by_id reg) by (by apply sf_node_by_id).
  assert (Hdiff : forall s n', r_nodes reg !! s = Some n' -> forall v,
            node_contains reg s v <> node_contains out.1 s v <-> exists u, (s, u) ∈ flipped out.2 /\ vkey u = vkey v).
  { intros s n' Hs v. rewrite <- (sf_contains _ _ s v G). apply apply_asserts_flips with (n := n').
    - apply (lv_runs _ Hl).
    - rewrite Hsame, Hid. apply (so_by_id _ _ (lv_sets _ Hl)).
    - rewrite Hsame, Hid. apply (so_numbered _ _ (lv_sets _ Hl)).
    - by rewrite Hsame. }
  assert (Hreg : forall s u, (s, u) ∈ flipped out.2 -> is_Some (r_nodes reg !! s)).
  { intros s u Hin. unfold out, apply_asserts in Hin. destruct (circuit_apply _ _) as [d deltas]. simpl in Hin.
    unfold flipped in Hin. apply list_elem_of_In, in_map_iff in Hin as ([s' fl] & [= -> _] & Hin).
    apply list_elem_of_In, list_elem_of_omap in Hin as (m & _ & Hx). apply bind_Some in Hx as (s' & Hs' & [= -> _]).
    rewrite Hid in Hs'. destruct (so_numbered _ _ (lv_sets _ Hl) _ _ Hs') as (n' & Hn' & _). by exists n'. }
  assert (Hgone : forall s v, r_nodes reg !! s = None -> node_contains reg s v = node_contains out.1 s v).
  { intros s v Hs. unfold node_contains. by rewrite Hnodes, Hs. }
  split.
  - intros s u Hin. destruct (decide (s = sig)) as [|Hne]; [done|]. exfalso. destruct (Hreg s u Hin) as [n' Hn'].
    apply (proj2 (Hdiff s n' Hn' u)); [by exists u|]. apply eq_true_iff_eq. rewrite !contains_holds by (done || apply Hl).
    assert (Hh : forall pk, node_holds out.1 s pk = node_holds reg s pk); [|by setoid_rewrite Hh].
    intros pk. rewrite Hholds. unfold batch_holds. by rewrite decide_False.
  - split; simpl.
    + intros s v Hne. destruct (r_nodes reg !! s) as [n'|] eqn:Hs; [by apply (Hdiff s n')|by rewrite Hgone in Hne].
    + intros s Hne. destruct (r_nodes reg !! s) as [n'|] eqn:Hs; [|by rewrite Hgone in Hne].
      apply (Hdiff s n' Hs VNull) in Hne as (u & Hu & Hv). exists u. split; [done|]. by rewrite (value_is_null_vkey u VNull).
Qed.

(** What a re-derivation leaves alone, what it does to its own node, and whom its flips reach. *)
Record requeried reg (sig : SubquerySig) (n : SubqueryNode) (R : gmap str Row) reg' (flips : list Flip) : Prop := {
  rq_walkable : walkable reg';
  rq_shapes : r_shapes reg' = r_shapes reg;
  rq_nodes : r_nodes reg' = r_nodes reg;
  rq_schemas : r_schemas reg' = r_schemas reg;
  rq_view : forall path, view reg' path = view reg path;
  rq_holds : forall s pk, node_holds reg' s pk =
    match (if decide (s = sig) then R !! pk else None) with
    | Some r => vkey <$> contribution (n_pred n) (n_proj_col n) r (reg_eval reg)
    | None => node_holds reg s pk
    end;
  rq_match : forall dep t pred r, dep_of reg dep = Some (t, pred) ->
    matches_ctx pred r (reg_eval reg') = matches_ctx pred r (reg_eval reg) \/ queued (map (pair sig) flips) dep r;
  rq_own : forall r, matches_ctx (n_pred n) r (reg_eval reg') = matches_ctx (n_pred n) r (reg_eval reg)
}.

Lemma requery_effect reg sig n (ts : TableSchema) rows gate R : walkable reg ->
  r_nodes reg !! sig = Some n -> table_ok ts R -> rows ≡ₚ (map_to_list R).*2 ->
  exists evals, node_queryback_evals reg sig ts rows gate = Some evals /\
    (dict_small (apply_node_evals reg sig evals).1 ->
     requeried reg sig n R (apply_node_evals reg sig evals).1 (apply_node_evals reg sig evals).2).
Proof.
  intros Hw Hn HR Hrows. rewrite (queryback_evals_map _ _ n) by (done || by eapply wl_node_recent).
  eexists. split; [done|]. set (evals := map _ rows). intros Hsm. pose proof (wl_live _ Hw) as Hl.
  set (st := assert_rows reg sig evals). set (out := apply_asserts st.1 st.2).
  assert (Eout : apply_node_evals reg sig evals = (out.1, out.2.*2)).
  { unfold apply_node_evals, out. fold st. destruct st as [reg1 asserts]. simpl. by destruct (apply_asserts reg1 asserts). }
  rewrite Eout in *. cbn [fst snd] in *.
  destruct (apply_evals_sets reg sig n evals (lv_sets _ Hl) (lv_runs _ Hl _) Hn Hsm) as (Hok & F & Hnodes & Hholds).
  destruct (requery_flips reg sig n evals Hl Hn Hsm) as [Hown Hagree].
  fold st out in Hok, F, Hnodes, Hholds, Hown, Hagree.
  destruct (tail_ok_nodes reg out.1 F (so_dict _ _ Hok) (lv_tail _ Hl)) as (Htail & Hfed & Hsent & Hshapes & Hrec).
  assert (Hdep : forall dep, dep_of out.1 dep = dep_of reg dep).
  { intros [i|s]; simpl; [by rewrite Hshapes|by rewrite Hnodes]. }
  assert (Hschemas : r_schemas out.1 = r_schemas reg) by (by rewrite (nf_rest _ _ F)).
  assert (Hview : forall path, view out.1 path = view reg path) by (intros path; unfold view; by rewrite Hsent).
  assert (Hmatch : forall dep t pred r, dep_of reg dep = Some (t, pred) ->
            matches_ctx pred r (reg_eval out.1) = matches_ctx pred r (reg_eval reg) \/
            queued (map (pair sig) out.2.*2) dep r).
  { intros dep t pred r Hd. destruct (decide (matches_ctx pred r (reg_eval reg) = matches_ctx pred r (reg_eval out.1)))
      as [|Hne]; [by left|right].
    destruct (flips_reach (flipped out.2) _ _ r pred Hagree Hne) as (l & u & Hlf & Hin & Hr).
    apply andb_true_iff in Hr as [_ Hr]. pose proof (Hown _ _ Hin) as Hsig. rewrite Hsig in Hin.
    unfold flipped in Hin. apply list_elem_of_In, in_map_iff in Hin as ([s fl] & [= -> <-] & Hin).
    exists (sig, fl). split.
    - apply list_elem_of_In, in_map, list_elem_of_In. apply list_elem_of_fmap. exists (sig, fl). split; [done|].
      by apply list_elem_of_In.
    - exists (MkEdge (il_sig l) dep (il_col l) (il_negated l) (il_null_sensitive l)). split_and!; [|done|exact Hr].
      pose proof (wl_leaves _ Hw _ _ _ l Hd Hlf) as He. by rewrite Hsig in He |- *. }
  assert (Hbatch : forall s pk, node_holds out.1 s pk =
    match (if decide (s = sig) then R !! pk else None) with
    | Some r => vkey <$> contribution (n_pred n) (n_proj_col n) r (reg_eval reg)
    | None => node_holds reg s pk
    end).
  { intros s pk. rewrite Hholds. unfold batch_holds. destruct (decide (s = sig)); [|done].
    unfold evals. rewrite (mapped_evals ts R) by done. by destruct (R !! pk). }
  split; [split|done|done|done|done|done|done|].
  - split; [done|done| |rewrite (nf_rest _ _ F); apply (lv_index _ Hl)|apply Hl].
    destruct (lv_distinct _ Hl). by split; rewrite Hshapes.
  - rewrite Hschemas. apply Hw.
  - rewrite Hschemas. apply Hw.
  - rewrite Hschemas, Hshapes. apply Hw.
  - intros i. rewrite Hshapes. rewrite (nf_rest _ _ F). apply (wl_pending _ Hw).
  - intros i pk. rewrite Hrec. apply Hw.
  - rewrite Hnodes. apply Hw.
  - intros s. rewrite (nf_rest _ _ F). apply (wl_edges _ Hw).
  - intros dep t pred l. rewrite Hdep. apply Hw.
  - rewrite Hnodes. apply Hw.
  - intros i s pk. rewrite Hshapes, Hview, Hfed. apply (wl_feed _ Hw).
  - intros r. apply (eval_own _ _ sig); [apply Hl|done|by apply (wl_own _ Hw sig)|].
    intros s pk Hne. by rewrite Hbatch, decide_False.
Qed.

(** A key's row is as the predicate says in the new context too, or a flip reaches it. *)
Lemma requeried_right reg sig n R reg' flips T dep t pred pk : requeried reg sig n R reg' flips ->
  r_nodes reg !! sig = Some n -> R ⊆ rows_of W (n_inner_table n) -> dep_of reg dep = Some (t, pred) -> T = rows_of W t ->
  right reg dep pk \/ (dep = DNode sig /\ is_Some (R !! pk)) ->
  right reg' dep pk \/ exists r, T !! pk = Some r /\ queued (map (pair sig) flips) dep r.
Proof.
  intros Hq Hn Hsub Hd -> Hor.
  assert (Hm : (forall r, rows_of W t !! pk = Some r ->
            matches_ctx pred r (reg_eval reg') = matches_ctx pred r (reg_eval reg)) \/
            exists r, rows_of W t !! pk = Some r /\ queued (map (pair sig) flips) dep r).
  { destruct (rows_of W t !! pk) as [r|]; [|by left]. destruct (rq_match _ _ _ _ _ _ Hq dep t pred r Hd) as [H|H].
    - left. by intros r' [= <-].
    - right. by exists r. }
  destruct Hm as [Hm|]; [left|by right]. destruct dep as [i|s]; simpl in Hd.
  - destruct Hor as [Hr|[? _]]; [|done]. intros s ts. rewrite (rq_shapes _ _ _ _ _ _ Hq), (rq_schemas _ _ _ _ _ _ Hq).
    intros Hs Hts. rewrite (rq_view _ _ _ _ _ _ Hq), (Hr s ts Hs Hts). rewrite Hs in Hd. injection Hd as <- <-.
    unfold shown. destruct (rows_of W (sh_outer_table s) !! pk) as [r|] eqn:Er; simpl; [by rewrite Hm|done].
  - intros n' Hn' Hb. rewrite (rq_nodes _ _ _ _ _ _ Hq) in Hn'. rewrite Hn' in Hd. simpl in Hd. rewrite Hb in Hd.
    injection Hd as <- <-. rewrite (rq_holds _ _ _ _ _ _ Hq). unfold contributions, contribution.
    assert (Hkeep : right reg (DNode s) pk -> node_holds reg s pk =
      (r ← rows_of W (n_inner_table n') !! pk;
       vkey <$> (if matches_ctx (n_pred n') r (reg_eval reg') then Some (cell r (n_proj_col n')) else None))).
    { intros Hr. rewrite (Hr n' Hn' Hb). unfold contributions, contribution.
      destruct (rows_of W (n_inner_table n') !! pk) as [r|]; simpl; [by rewrite Hm|done]. }
    destruct (decide (s = sig)) as [->|Hne].
    + assert (n' = n) as -> by congruence. destruct (R !! pk) as [r|] eqn:Er.
      * by rewrite (lookup_weaken _ _ _ _ Er Hsub), <- (rq_own _ _ _ _ _ _ Hq).
      * apply Hkeep. by destruct Hor as [|[_ [? ?]]].
    + apply Hkeep. by destruct Hor as [|[[= ?] _]].
Qed.

Lemma requery_improves reg sig n ts rows gate filter : walkable reg ->
  r_nodes reg !! sig = Some n -> r_schemas reg !! n_inner_table n = Some ts ->
  answers (rows_of W (n_inner_table n)) filter rows ->
  exists evals, node_queryback_evals reg sig ts rows gate = Some evals /\
    (dict_small (apply_node_evals reg sig evals).1 ->
     improves reg (apply_node_evals reg sig evals).1 (map (pair sig) (apply_node_evals reg sig evals).2)
       (λ dep r, dep = DNode sig /\ picked filter r = true)).
Proof.
  intros Hw Hn Hts (R & Hrows & Hsub & Hall). destruct (wl_tables _ Hw _ _ Hts) as [_ HT].
  destruct (requery_effect reg sig n ts rows gate R Hw Hn (table_ok_subset _ _ _ HT Hsub) Hrows) as (evals & He & Hq).
  exists evals. split; [done|]. intros Hsm. specialize (Hq Hsm). split; [apply Hq| |].
  - intros [i|s]; simpl; [by rewrite (rq_shapes _ _ _ _ _ _ Hq)|by rewrite (rq_nodes _ _ _ _ _ _ Hq)].
  - intros dep t pred pk Hd Hor. eapply requeried_right; [done..|].
    destruct Hor as [|(r & Hr & -> & Hp)]; [by left|right]. split; [done|]. exists r.
    simpl in Hd. rewrite Hn in Hd. simpl in Hd. destruct (n_seed_buffer n); [done|]. injection Hd as <- _. by apply Hall.
Qed.
End claims.

(* ------------------------------------------------------------------ *)
(** ** The walk *)

Section converges.
Context {FT : FloatText} {FE : FaultEnv} {D : Type} {MP : MembershipPipeline D} {ML : MembershipLaws D}.
Context (W : gmap TableRef (gmap str Row)) (base : str -> gmap str json) (edges : SubquerySig -> list Edge).
Implicit Types (reg : SubqueryRegistry D) (w : Walking D) (extra : Dependent -> Row -> Prop).

(** The walk is alone, and a read that succeeds returns the table's rows. *)
Context (E : WalkEnv D).
Hypothesis quiet : forall n reg, we_others E n reg = reg.
Hypothesis reads : forall n ts filter rows gate, we_reads E n ts filter = Ok (rows, gate) ->
  answers (rows_of W (ts_table ts)) filter rows.
Hypothesis deletes : drop_deletes = false.

(** As long as the dictionary has numbers left, whatever is not right waits for a queued flip or for
    [extra]. *)
Definition good extra w : Prop :=
  (forall sig, edges_of (wk_reg w) sig = edges sig) /\
  (dict_small (wk_reg w) -> walkable W base edges (wk_reg w) /\ covered W base edges (wk_reg w) (wk_work w) extra).

Lemma good_mono extra extra' w : good extra w ->
  (dict_small (wk_reg w) -> walkable W base edges (wk_reg w) -> forall dep t pred pk r,
     dep_of (wk_reg w) dep = Some (t, pred) -> rows_of W t !! pk = Some r -> extra dep r -> extra' dep r) ->
  good extra' w.
Proof.
  intros [He Hg] Hm. split; [done|]. intros Hs. destruct (Hg Hs) as [Hw Hc]. split; [done|].
  intros dep t pred pk Hd. destruct (Hc dep t pred pk Hd) as [|(r & Hr & [?|?])]; [by left|right; exists r; tauto|].
  right. exists r. split; [done|]. right. by apply (Hm Hs Hw dep t pred pk r).
Qed.

(** A locked computation that improves the registry. *)
Lemma good_step w reg' k fixed new extra extra' : good extra w ->
  r_edges reg' = r_edges (wk_reg w) -> (dict_small reg' -> dict_small (wk_reg w)) ->
  (dict_small reg' -> walkable W base edges (wk_reg w) -> improves W base edges (wk_reg w) reg' new fixed) ->
  (forall dep r, extra dep r -> fixed dep r \/ extra' dep r) ->
  good (λ dep r, extra' dep r \/ queued edges new dep r)
    (MkWalking reg' (wk_work w) k (wk_reads w) (wk_traces w) (wk_slept w)).
Proof.
  intros [He Hg] Hed Hsm Him Hx. split; [intros sig; simpl; unfold edges_of; by rewrite Hed, <- He|].
  intros Hs. simpl in *. destruct (Hg (Hsm Hs)) as [Hw Hc]. specialize (Him Hs Hw). split; [apply Him|].
  by eapply covered_improves.
Qed.

Lemma no_queue dep r : ~ queued edges [] dep r.
Proof. intros (f & Hf & _). by apply not_elem_of_nil in Hf. Qed.

Lemma good_idle w reg' k extra : good extra w -> idle (wk_reg w) reg' ->
  good extra (MkWalking reg' (wk_work w) k (wk_reads w) (wk_traces w) (wk_slept w)).
Proof.
  intros Hg Hi. eapply good_mono; [eapply (good_step w reg' k (λ _ _, False) [] extra extra Hg)|].
  - by destruct Hi.
  - by destruct Hi.
  - intros _. by apply idle_improves.
  - by right.
  - intros _ _ dep t pred pk r _ _ [?|H]; [done|by apply no_queue in H].
Qed.

(** *** A shape *)

Lemma start_shape_good id work extra :
  triple (good extra) (locked E (start_shape id work)) (λ r w, good extra w /\
    match r with
    | Ok None => dict_small (wk_reg w) -> dep_of (wk_reg w) (DShape id) = None
    | Ok (Some ts) => exists s, r_shapes (wk_reg w) !! id = Some s /\ r_schemas (wk_reg w) !! sh_outer_table s = Some ts
    | Err _ => True
    end).
Proof.
  apply triple_locked. intros w Hg reg. subst reg. rewrite quiet. unfold start_shape.
  destruct (queue_deferred_idle (wk_reg w) id work) as (Hi & Hyes & Hno).
  destruct (queue_deferred (wk_reg w) id work) as [reg1 [|]] eqn:Eq; simpl in *.
  - split; [by apply good_idle|]. intros Hs. pose proof (proj1 (proj2 (good_idle w reg1 0 extra Hg Hi) Hs)) as Hw1.
    simpl in Hw1. destruct (r_shapes reg1 !! id) as [s|] eqn:Es; [|done]. exfalso.
    apply (wl_pending _ _ _ _ Hw1 id); [by exists s|]. specialize (Hyes eq_refl).
    unfold queue_deferred in Eq. destruct (on_pending _ _ _) as [l|] eqn:Ho; [|done]. injection Eq as <-.
    apply on_pending_ids in Ho as [Hids _]; [|done]. simpl. by rewrite Hids.
  - rewrite (Hno eq_refl). clear Hi Hyes Hno Eq. destruct (r_shapes (wk_reg w) !! id) as [s|] eqn:Es.
    + unfold snapshot_for_table. destruct (r_schemas (wk_reg w) !! sh_outer_table s) as [ts|] eqn:Ets; simpl.
      * split; [apply good_idle; [done|apply begin_idle]|]. rewrite lookup_alter_eq, Es. simpl. eexists. split; [done|]. done.
      * split; [|done]. apply good_idle; [done|constructor].
    + split; [apply good_idle; [done|constructor]|]. simpl. by rewrite Es.
Qed.

Lemma finish_shape_good id s ts rows gate txid filter extra extra' :
  answers (rows_of W (ts_table ts)) filter rows ->
  (forall dep r, extra dep r -> (dep = DShape id /\ picked filter r = true) \/ extra' dep r) ->
  triple (λ w, good extra w /\ r_shapes (wk_reg w) !! id = Some s /\ r_schemas (wk_reg w) !! sh_outer_table s = Some ts)
    (locked E (finish_shape id ts rows gate txid))
    (λ r w, match r with Ok _ => good extra' w | Err _ => False end).
Proof.
  intros Ha Hx. apply triple_locked. intros w (Hg & Hs & Hts) reg. subst reg. rewrite quiet.
  pose proof (finish_shape_edges id ts rows gate txid (wk_reg w)) as Hed. unfold finish_shape in *.
  pose proof (emit_for_shapes_frame ts [(id, map (λ r, (r, true)) rows)] txid (SrcQueryBack gate) (wk_reg w)) as F.
  pose proof (λ Hw Ha, emit_improves W base edges (wk_reg w) id s ts rows gate txid filter deletes Hw Hs Hts Ha) as Him.
  destruct (emit_for_shapes _ _ _ _ _) as [reg' emitted]. simpl in *.
  eapply (good_idle (MkWalking reg' (wk_work w) 0 (wk_reads w) (wk_traces w) (wk_slept w))); [|apply end_idle].
  eapply good_mono; [eapply (good_step w reg' 0 _ [] extra extra' Hg)|].
  - exact Hed.
  - intros Hsm. unfold dict_small in *. pose proof (dict_le_len _ _ (ef_dict _ _ F)). lia.
  - intros Hsm Hw. destruct (wl_tables _ _ _ _ Hw _ _ Hts) as [Htab _]. rewrite Htab in Ha. by apply Him.
  - exact Hx.
  - intros _ _ dep t pred pk r _ _ [?|H]; [done|by apply no_queue in H].
Qed.

(** What a query-back does to what is waiting: on success the rows it picked are dealt with. *)
Definition deals {X} (m : Walk (D := D) X) extra (after : X -> Dependent -> Row -> Prop) : Prop :=
  triple (good extra) m (λ r w, match r with Ok x => good (after x) w | Err _ => good extra w end).

Lemma deals_bind {X Y} (m : Walk X) (f : X -> Walk Y) extra mid (after : Y -> Dependent -> Row -> Prop) :
  deals m extra mid -> (forall x, triple (good (mid x)) (f x) (λ r w, match r with Ok y => good (after y) w | Err _ => good extra w end)) ->
  deals (m ≫= f) extra after.
Proof. intros Hm Hf. by apply (triple_bind _ (λ x w, good (mid x) w)). Qed.

Lemma deals_ret {X} (x : X) extra : deals (mret x) extra (λ _, extra).
Proof. by intros w Hw. Qed.

Lemma abandon_good {X} (undo : SubqueryRegistry D -> SubqueryRegistry D) (r : res str X) extra :
  (forall reg, idle reg (undo reg)) -> triple (good extra) (abandon E undo r) (λ _, good extra).
Proof. intros Hu. apply triple_locked. intros w Hg reg. subst reg. rewrite quiet. by apply good_idle. Qed.

Lemma absent_good dep0 extra extra' w : good extra w -> (dict_small (wk_reg w) -> dep_of (wk_reg w) dep0 = None) ->
  (forall dep r, extra dep r -> dep = dep0 \/ extra' dep r) -> good extra' w.
Proof.
  intros Hg Hn Hx. apply (good_mono _ _ _ Hg). intros Hs _ dep t pred pk r Hd _ [->|]%Hx; [|done].
  by rewrite Hn in Hd.
Qed.

(** What the locked part of a query-back has seen is still there when Postgres answers. *)
Lemma query_good (P : Walking D -> Prop) ts filter :
  (forall w w', P w -> wk_reg w' = wk_reg w -> wk_work w' = wk_work w -> P w') ->
  triple P (query E ts filter) (λ r w, P w /\
    match r with
    | Ok (Ok (rows, gate)) => answers (rows_of W (ts_table ts)) filter rows
    | Ok (Err _) => True
    | Err _ => False
    end).
Proof.
  intros HP w Hw. simpl. split; [by eapply HP|].
  destruct (we_reads E (wk_reads w) ts filter) as [[rows gate]|e] eqn:Er; [by eapply reads|done].
Qed.

Lemma good_same extra w w' : good extra w -> wk_reg w' = wk_reg w -> wk_work w' = wk_work w -> good extra w'.
Proof. unfold good. by intros H -> ->. Qed.

Lemma picked_none (T : gmap str Row) filter (pk : str) (r : Row) : answers T filter [] -> T !! pk = Some r -> picked filter r = false.
Proof.
  intros (R & Hp & _ & Hall) Hr. destruct (picked filter r) eqn:E1; [|done]. specialize (Hall _ _ Hr E1).
  apply elem_of_map_to_list in Hall. assert (Hin : r ∈ (map_to_list R).*2) by (apply list_elem_of_fmap; by exists (pk, r)).
  rewrite <- Hp in Hin. by apply not_elem_of_nil in Hin.
Qed.

(** A read for a shape the lock has seen. *)
Definition seen_shape_at id (ts : TableSchema) extra w : Prop := good extra w /\
  exists s, r_shapes (wk_reg w) !! id = Some s /\ r_schemas (wk_reg w) !! sh_outer_table s = Some ts.

Lemma seen_shape {X} id ts filter extra extra' (f : res str (list Row * SnapshotGate) -> Walk X) :
  (forall a, triple (λ w, seen_shape_at id ts extra w /\
       match a with Ok (rows, _) => answers (rows_of W (ts_table ts)) filter rows | Err _ => True end) (f a)
     (λ r w, match r with Ok _ => good extra' w | Err _ => good extra w end)) ->
  triple (seen_shape_at id ts extra) (query E ts filter ≫= f)
    (λ r w, match r with Ok _ => good extra' w | Err _ => good extra w end).
Proof.
  intros Hf. eapply triple_bind; [|exact Hf].
  eapply triple_weaken; [apply (query_good (seen_shape_at id ts extra) ts filter)|done|].
  - intros w w' [Hg Hs] Hr Hq. split; [by eapply good_same|by rewrite Hr].
  - by intros [[[rows gate]|e]|e] w [Hp Ha].
Qed.

Lemma seen_finish id ts rows gate txid filter extra extra' :
  (forall dep r, extra dep r -> (dep = DShape id /\ picked filter r = true) \/ extra' dep r) ->
  triple (λ w, seen_shape_at id ts extra w /\ answers (rows_of W (ts_table ts)) filter rows)
    (locked E (finish_shape id ts rows gate txid))
    (λ r w, match r with Ok _ => good extra' w | Err _ => False end).
Proof.
  intros Hx w [(Hg & s & Hs & Hts) Ha].
  by apply (finish_shape_good id s ts rows gate txid filter extra extra' Ha Hx w).
Qed.

Lemma start_then {X} id work (d : X) (k : TableSchema -> Walk X) extra extra' :
  (forall dep r, extra dep r -> dep = DShape id \/ extra' dep r) ->
  (forall ts, triple (seen_shape_at id ts extra) (k ts) (λ r w, match r with Ok _ => good extra' w | Err _ => good extra w end)) ->
  triple (good extra) (locked E (start_shape id work) ≫= λ o, match o with None => mret d | Some ts => k ts end)
    (λ r w, match r with Ok _ => good extra' w | Err _ => good extra w end).
Proof.
  intros Hx Hk. eapply (triple_bind _ (λ o w, match o with None => good extra' w | Some ts => seen_shape_at id ts extra w end)).
  - eapply triple_weaken; [apply (start_shape_good id work extra)|done|]. intros [[ts|]|e] w [Hg Hs]; [by split| |done].
    by apply (absent_good (DShape id) _ _ _ Hg Hs).
  - intros [ts|]; [apply Hk|by intros w Hw].
Qed.

Lemma move_shape_good id col v txid extra extra' :
  (forall dep r, extra dep r -> (dep = DShape id /\ value_eqb (cell r col) v = true) \/ extra' dep r) ->
  deals (move_shape_for_value E id col v txid) extra (λ _, extra').
Proof.
  intros Hx. unfold move_shape_for_value.
  apply (start_then id _ _ _ extra extra'); [intros dep r [[-> _]|]%Hx; [by left|by right]|]. intros ts.
  apply (seen_shape id ts (Some (col, v)) extra extra'). intros [[[|r rows] gate]|e].
  - intros w [(Hg & s & Hs & Hts) Ha]. eapply abandon_good; [apply end_idle|].
    apply (good_mono _ _ _ Hg). intros Hsm Hw dep t pred pk r Hd Hr [[-> Hp]|]%Hx; [|done]. exfalso.
    destruct (wl_tables _ _ _ _ Hw _ _ Hts) as [Htab _]. simpl in Hd. rewrite Hs in Hd. injection Hd as <- _.
    rewrite <- Htab in Hr. pose proof (picked_none _ _ _ _ Ha Hr) as Hno. simpl in Hno. congruence.
  - eapply triple_bind; [eapply triple_weaken; [exact (seen_finish id ts (r :: rows) gate txid (Some (col, v)) extra extra' Hx)|done|]|].
    + by intros [x|e] w Hw; [exact Hw|].
    + by intros x w Hw.
  - intros w [[Hg _] _]. by eapply abandon_good; [apply end_idle|].
Qed.

Lemma rederive_shape_good id txid extra extra' : (forall dep r, extra dep r -> dep = DShape id \/ extra' dep r) ->
  deals (rederive_shape E id txid) extra (λ _, extra').
Proof.
  intros Hx. unfold rederive_shape. apply (start_then id _ _ _ extra extra' Hx). intros ts.
  apply (seen_shape id ts None extra extra'). intros [[rows gate]|e].
  - eapply triple_bind; [eapply triple_weaken; [apply (seen_finish id ts rows gate txid None extra extra')|done|]|].
    + intros dep r [->|]%Hx; [by left|by right].
    + by intros [x|e] w Hw; [exact Hw|].
    + by intros x w Hw.
  - intros w [[Hg _] _]. by eapply abandon_good; [apply end_idle|].
Qed.

(** *** A parent node *)

Definition seen_node_at sig (ts : TableSchema) extra w : Prop := good extra w /\
  exists n, r_nodes (wk_reg w) !! sig = Some n /\ r_schemas (wk_reg w) !! n_inner_table n = Some ts.

Lemma start_node_good sig work extra :
  triple (good extra) (locked E (start_node sig work)) (λ r w,
    match r with
    | Ok None => good extra w /\ dep_of (wk_reg w) (DNode sig) = None
    | Ok (Some ts) => seen_node_at sig ts extra w
    | Err _ => good extra w
    end).
Proof.
  apply triple_locked. intros w Hg reg. subst reg. rewrite quiet. unfold start_node.
  destruct (queue_node_deferred_idle (wk_reg w) sig work) as (Hi & Hyes & Hno).
  destruct (queue_node_deferred (wk_reg w) sig work) as [reg1 [|]] eqn:Eq; simpl in *.
  - split; [by apply good_idle|]. destruct (Hyes eq_refl) as (n & Hn & Hb).
    unfold queue_node_deferred in Eq. rewrite Hn in Eq. destruct (n_seed_buffer n) eqn:Es; [|done]. injection Eq as <-.
    simpl. rewrite lookup_alter_eq, Hn. simpl. by rewrite Es.
  - destruct (Hno eq_refl) as [-> _]. clear Hi Hyes Hno Eq. destruct (r_nodes (wk_reg w) !! sig) as [n|] eqn:En.
    + unfold snapshot_for_table. destruct (r_schemas (wk_reg w) !! n_inner_table n) as [ts|] eqn:Ets; simpl.
      * split; [apply good_idle; [done|apply begin_node_idle]|]. simpl. rewrite lookup_alter_eq, En. simpl. eexists. split; [done|]. done.
      * apply good_idle; [done|constructor].
    + split; [apply good_idle; [done|constructor]|]. simpl. by rewrite En.
Qed.

(** What is left to deal with after a re-derivation: what it did not pick, and what its flips reach. *)
Definition after_requery (sig : SubquerySig) extra' (o : option (TableRef * list Flip)) : Dependent -> Row -> Prop :=
  match o with
  | Some (_, flips) => λ dep r, extra' dep r \/ queued edges (map (pair sig) flips) dep r
  | None => extra'
  end.

Lemma finish_node_good sig (ts : TableSchema) rows gate filter extra extra' :
  (forall dep r, extra dep r -> (dep = DNode sig /\ picked filter r = true) \/ extra' dep r) ->
  triple (λ w, seen_node_at sig ts extra w /\ answers (rows_of W (ts_table ts)) filter rows)
    (locked E (finish_node sig ts rows gate))
    (λ r w, match r with Ok o => good (after_requery sig extra' o) w | Err _ => False end).
Proof.
  intros Hx. apply triple_locked. intros w [(Hg & n & Hn & Hts) Ha] reg. subst reg. rewrite quiet.
  pose proof (finish_node_edges sig ts rows gate (wk_reg w)) as Hed. unfold finish_node in *.
  destruct (node_queryback_evals (wk_reg w) sig ts rows gate) as [evals|] eqn:Ee.
  2: { unfold node_queryback_evals in Ee. by rewrite Hn in Ee. }
  assert (Hle : dict_le (r_pk_dict (wk_reg w)) (r_pk_dict (apply_node_evals (wk_reg w) sig evals).1)).
  { unfold apply_node_evals. pose proof (assert_rows_frame (wk_reg w) sig evals) as [_ _ Hd _].
    destruct (assert_rows (wk_reg w) sig evals) as [reg1 asserts]. unfold apply_asserts.
    by destruct (circuit_apply (r_circuit reg1) asserts). }
  pose proof (λ Hw Ha, requery_improves W base edges (wk_reg w) sig n ts rows gate filter Hw Hn Hts Ha) as Him.
  destruct (apply_node_evals (wk_reg w) sig evals) as [reg' flips] eqn:Eo. simpl in *.
  eapply (good_idle (MkWalking reg' (wk_work w) 0 (wk_reads w) (wk_traces w) (wk_slept w))); [|apply end_node_idle].
  eapply (good_step w reg' 0 _ (map (pair sig) flips) extra extra' Hg).
  - exact Hed.
  - intros Hsm. unfold dict_small in *. pose proof (dict_le_len _ _ Hle). lia.
  - intros Hsm Hw. destruct (wl_tables _ _ _ _ Hw _ _ Hts) as [Htab _]. rewrite Htab in Ha.
    destruct (Him Hw Ha) as (evals' & He & H). rewrite Ee in He. injection He as <-. rewrite Eo in H. by apply H.
  - exact Hx.
Qed.

Lemma requery_good sig filter extra extra' :
  (forall dep r, extra dep r -> (dep = DNode sig /\ picked filter r = true) \/ extra' dep r) ->
  deals (requery_and_reconcile_parent E sig filter) extra (after_requery sig extra').
Proof.
  intros Hx. unfold requery_and_reconcile_parent.
  eapply (triple_bind _ (λ o w, match o with None => good extra' w | Some ts => seen_node_at sig ts extra w end)).
  { eapply triple_weaken; [apply (start_node_good sig _ extra)|done|]. intros [[ts|]|e] w Hw; [done| |done].
    destruct Hw as [Hg Hd]. apply (absent_good (DNode sig) _ _ _ Hg (λ _, Hd)). intros dep r [[-> _]|]%Hx; [by left|by right]. }
  intros [ts|]; [|by intros w Hw].
  eapply (triple_bind _ (λ a w, seen_node_at sig ts extra w /\
    match a with Ok (rows, _) => answers (rows_of W (ts_table ts)) filter rows | Err _ => True end)).
  { eapply triple_weaken; [apply (query_good (seen_node_at sig ts extra) ts filter)|done|].
    - intros w w' [Hg Hs] Hr Hq. split; [by eapply good_same|by rewrite Hr].
    - by intros [[[rows gate]|e]|e] w [Hp Ha]. }
  intros [[rows gate]|e].
  - eapply triple_weaken; [exact (finish_node_good sig ts rows gate filter extra extra' Hx)|done|].
    by intros [o|e] w Hw; [exact Hw|].
  - intros w [[Hg _] _]. by eapply abandon_good; [apply end_node_idle|].
Qed.

(** *** The flips *)

Lemma push_good sig flips extra w : good (λ dep r, extra dep r \/ queued edges (map (pair sig) flips) dep r) w ->
  good extra (set_work (wk_work w ++ map (pair sig) flips) w).
Proof.
  intros [He Hg]. split; [done|]. simpl. intros Hs. destruct (Hg Hs) as [Hw Hc]. split; [done|].
  intros dep t pred pk Hd. destruct (Hc dep t pred pk Hd) as [|(r & Hr & Hor)]; [by left|right].
  exists r. split; [done|]. destruct Hor as [(f & Hf & Hv)|[|(f & Hf & Hv)]]; [|by right|];
    left; exists f; (split; [|done]); apply elem_of_app; tauto.
Qed.

Lemma trace_good t extra : deals (emit_flip_trace E t) extra (λ _, extra).
Proof. intros w Hg. unfold emit_flip_trace. simpl. destruct (we_traced E); [by eapply good_same|done]. Qed.

(** The rest of an edge never fails. *)
Definition sure {X} (m : Walk (D := D) X) extra extra' : Prop :=
  triple (good extra) m (λ r w, match r with Ok _ => good extra' w | Err _ => False end).

Lemma push_sure sig flips extra :
  sure (push_flips sig flips) (λ dep r, extra dep r \/ queued edges (map (pair sig) flips) dep r) extra.
Proof. intros w Hg. simpl. by apply push_good. Qed.

Lemma trace_sure t extra : sure (emit_flip_trace E t) extra extra.
Proof. exact (trace_good t extra). Qed.

Lemma ret_sure {X} (x : X) extra : sure (mret x) extra extra.
Proof. by intros w Hw. Qed.

Lemma deals_sure {X} (m : Walk X) (f : X -> Walk unit) extra mid extra' : deals m extra mid ->
  (forall x, sure (f x) (mid x) extra') -> deals (m ≫= f) extra (λ _, extra').
Proof.
  intros Hm Hf. apply (deals_bind _ _ _ mid); [done|]. intros x. eapply triple_weaken; [apply Hf|done|].
  by intros [y|e] w Hw.
Qed.

(** An edge takes with it what only it reaches. *)
Lemma via_split e es v dep r : via (e :: es) v dep r ->
  (dep = ed_dependent e /\ edge_reaches e v r = true) \/ via es v dep r.
Proof. intros (e' & [->|Hin]%elem_of_cons & Hd & Hr); [by left|right; by exists e']. Qed.

Lemma rederive_dependent_good e es v txid :
  deals (rederive_dependent E e txid) (via (e :: es) v) (λ _, via es v).
Proof.
  unfold rederive_dependent. destruct (ed_dependent e) as [id|p] eqn:Ed.
  - apply rederive_shape_good. intros dep r [[-> _]|]%via_split; [left; congruence|by right].
  - eapply deals_sure; [apply (requery_good p None _ (via es v))|].
    + intros dep r [[-> _]|]%via_split; [left; split; [congruence|done]|by right].
    + intros [[t flips]|]; [apply push_sure|apply ret_sure].
Qed.

Lemma walk_edge_good sig flip txid lsn src e es :
  deals (walk_edge E sig flip txid lsn src e) (via (e :: es) (fl_value flip)) (λ _, via es (fl_value flip)).
Proof.
  unfold walk_edge. destruct (value_is_null (fl_value flip)) eqn:Hnull.
  { destruct (ed_null_sensitive e) eqn:Hns; [apply rederive_dependent_good|].
    intros w Hg. apply (good_mono _ _ _ Hg). intros _ _ dep t pred pk r _ _ [[_ H]|]%via_split; [|done].
    unfold edge_reaches in H. by rewrite Hnull, Hns in H. }
  assert (Hx : forall dep r, via (e :: es) (fl_value flip) dep r ->
            (dep = ed_dependent e /\ value_eqb (cell r (ed_connecting_col e)) (fl_value flip) = true) \/ via es (fl_value flip) dep r).
  { intros dep r [[-> H]|]%via_split; [left|by right]. unfold edge_reaches in H. by rewrite Hnull in H. }
  destruct (ed_dependent e) as [id|p]; eapply deals_sure; [by apply move_shape_good| |by apply requery_good|].
  - intros [[outer net]|]; [destruct src; [apply trace_sure|]|]; apply ret_sure.
  - intros [[t flips]|]; [|apply ret_sure]. apply (triple_bind _ (λ _, good (after_requery p (via es (fl_value flip)) (Some (t, flips)))));
      [|intros _; apply push_sure].
    destruct flips as [|f fs]; [by intros w Hw|]. destruct src; [|by intros w Hw]. apply trace_sure.
Qed.

Lemma walk_each_good sig flip txid lsn src es :
  deals (walk_each (walk_edge E sig flip txid lsn src) es) (via es (fl_value flip)) (λ _ _ _, False).
Proof.
  induction es as [|e es IH]; simpl.
  - intros w Hg. apply (good_mono _ _ _ Hg). intros _ _ dep t pred pk r _ _ (e & He & _). by apply not_elem_of_nil in He.
  - eapply deals_bind; [apply walk_edge_good|]. intros x. eapply triple_weaken; [exact IH|done|].
    intros [[]|e'] w Hg; [done|]. apply (good_mono _ _ _ Hg). intros _ _ dep t pred pk r _ _ (e0 & He & Hd & Hr).
    exists e0. split; [by right|done].
Qed.

Lemma propagate_one_good sig flip txid lsn :
  deals (propagate_one E sig flip txid lsn) (via (edges sig) (fl_value flip)) (λ _ _ _, False).
Proof.
  unfold propagate_one.
  eapply (triple_bind _ (λ h w, good (via (edges sig) (fl_value flip)) w /\ h.1 = edges sig)).
  - apply triple_locked. intros w Hg reg. subst reg. rewrite quiet. simpl. split; [|exact (proj1 Hg sig)].
    apply good_idle; [done|constructor].
  - intros [es src] w [Hg He]. simpl in *. subst es. by apply walk_each_good.
Qed.

Lemma walk_step_good sig flip rest txid lsn w : good (λ _ _, False) w -> wk_work w = (sig, flip) :: rest ->
  match propagate_one E sig flip txid lsn (set_work rest w) with
  | (Ok _, w1) => good (λ _ _, False) w1
  | (Err _, w1) => good (λ _ _, False) (set_work ((sig, flip) :: wk_work w1) w1)
  end.
Proof.
  intros [He Hg] Hq.
  assert (Hstart : good (via (edges sig) (fl_value flip)) (set_work rest w)).
  { split; [done|]. simpl. intros Hs. destruct (Hg Hs) as [Hw Hc]. split; [done|]. intros dep t pred pk Hd.
    destruct (Hc dep t pred pk Hd) as [|(r & Hr & [(f & Hf & Hv)|[]])]; [by left|right]. exists r. split; [done|].
    rewrite Hq in Hf. apply elem_of_cons in Hf as [->|Hf]; [by right|left; by exists f]. }
  pose proof (propagate_one_good sig flip txid lsn _ Hstart) as Hone.
  destruct (propagate_one E sig flip txid lsn (set_work rest w)) as [[u|e] w1]; [exact Hone|]. destruct Hone as [He1 Hg1].
  split; [done|]. simpl. intros Hs. destruct (Hg1 Hs) as [Hw Hc]. split; [done|]. intros dep t pred pk Hd.
  destruct (Hc dep t pred pk Hd) as [|(r & Hr & [(f & Hf & Hv)|Hv])]; [by left|right..]; exists r; (split; [done|left]).
  - exists f. split; [by right|done].
  - exists (sig, flip). split; [by left|done].
Qed.

Lemma propagate_flips_good fuel txid lsn : forall w r w', good (λ _ _, False) w ->
  propagate_flips E fuel txid lsn w = Some (r, w') -> good (λ _ _, False) w'.
Proof.
  induction fuel as [|fuel IH]; intros w r w' Hg; simpl; destruct (wk_work w) as [|[sig flip] rest] eqn:Hq; try done;
    [by intros [= <- <-]..|].
  pose proof (walk_step_good sig flip rest txid lsn w Hg Hq) as Hstep.
  destruct (propagate_one E sig flip txid lsn (set_work rest w)) as [[u|e] w1]; [by apply IH|]. by intros [= <- <-].
Qed.

Lemma walk_good fuel txid lsn w r w' : good (λ _ _, False) w ->
  propagate_with_retry E fuel txid lsn w = Some (r, w') -> good (λ _ _, False) w'.
Proof.
  intros Hg. apply (retry_keeps sleep _ (good (λ _ _, False))); [|by intros ms w1|done].
  intros w1 r1 w2. by apply propagate_flips_good.
Qed.

Lemma walk_done fuel txid lsn w w' : good (λ _ _, False) w -> dict_small (wk_reg w') ->
  propagate_with_retry E fuel txid lsn w = Some (Ok tt, w') ->
  forall dep pk, is_Some (dep_of (wk_reg w') dep) -> right W base (wk_reg w') dep pk.
Proof.
  intros Hg Hs Hr dep pk [[t pred] Hd]. destruct (proj2 (walk_good _ _ _ _ _ _ Hg Hr) Hs) as [_ Hc].
  destruct (retried_runs _ _ _ _ _ _ _ Hr) as (l & delays & _ & [He _] & _).
  destruct (Hc dep t pred pk Hd) as [|(r & _ & [Hno|[]])]; [done|].
  rewrite (He eq_refl) in Hno. by apply no_queue in Hno.
Qed.
End converges.

(* ================================================================== *)
(** * Properties *)

Section properties.
Context {FT : FloatText} {FE : FaultEnv} {D : Type} {MP : MembershipPipeline D} {ML : MembershipLaws D}.
Implicit Types (reg : SubqueryRegistry D) (w : Walking D).

(** C19: a walk alone with the registry, whose reads fail or return the table's rows: if at its start
    whatever is not as its predicate says waits for a queued flip, then so it is at its end, and when
    the walk succeeds every subscriber of every installed shape has exactly the rows its predicate
    selects under the sets as they then are, and every set holds exactly what its node's predicate
    contributes: for nested subqueries of any depth, and after any number of failed attempts. *)
Theorem walk_converges (W : gmap TableRef (gmap str Row)) base edges (E : WalkEnv D) fuel txid lsn w r w' :
  drop_deletes = false -> (forall n reg, we_others E n reg = reg) ->
  (forall n ts filter rows gate, we_reads E n ts filter = Ok (rows, gate) -> answers (rows_of W (ts_table ts)) filter rows) ->
  walkable W base edges (wk_reg w) -> covered W base edges (wk_reg w) (wk_work w) (λ _ _, False) ->
  propagate_with_retry E fuel txid lsn w = Some (r, w') -> dict_small (wk_reg w') ->
  walkable W base edges (wk_reg w') /\ covered W base edges (wk_reg w') (wk_work w') (λ _ _, False) /\
  (r = Ok tt -> forall dep pk, is_Some (dep_of (wk_reg w') dep) -> right W base (wk_reg w') dep pk).
Proof.
  intros Hdd Hq Hreads Hw Hc Hr Hs.
  assert (Hg : good W base edges (λ _ _, False) w) by (split; [apply Hw|done]).
  destruct (proj2 (walk_good W base edges E Hq Hreads Hdd _ _ _ _ _ _ Hg Hr) Hs) as [Hw' Hc'].
  split_and!; [done|done|]. intros ->. by apply (walk_done W base edges E Hq Hreads Hdd fuel txid lsn w).
Qed.
End properties.
