(* ===== verification/SubqSteady.v ===== *)
(** * A change and its walk

    [on_table_delta] decides the shapes of the changed table and the sets of the nodes over it, and
    returns the flips; the walk moves everything else.  Together they keep a registry at rest: with
    every subscriber and every set exactly as the predicates say of the tables. *)

From S2P Require Import Prelude BTree Value TableRef Schema Predicate PredicateFacts Gate Output.
From S2P Require Import Executors Refine Sequencer PkDict SubqIndex SubqCircuit Subquery SubqueryFacts SubqEmit.
From S2P Require Import SubqLive SubqFence SubqCreate SubqAtomic SubqFinish SubqWalk SubqWalkFacts SubqConverge.
From stdpp Require Import base option numbers strings gmap fin_maps sorting list.
#[local] Open Scope Z_scope.

(* ------------------------------------------------------------------ *)
(** ** Nodes without a query-back in flight record nothing *)

Section calm.
Context {FT : FloatText} {FE : FaultEnv} {D : Type} {MP : MembershipPipeline D}.
Implicit Types (reg : SubqueryRegistry D).

Definition nodes_calm reg : Prop :=
  forall sig n, r_nodes reg !! sig = Some n -> n_recent n = ∅ /\ n_inflight n <= 0.

Lemma buffer_seeds_calm lsn xid delta l : forall reg, nodes_calm reg -> nodes_calm (foldl (buffer_seed lsn xid delta) reg l).
Proof.
  induction l as [|s l IH]; intros reg Hc; [done|]. simpl. apply IH. intros sig n. simpl.
  destruct (decide (s = sig)) as [<-|Hne]; [|rewrite lookup_alter_ne by done; apply Hc].
  rewrite lookup_alter_eq. destruct (r_nodes reg !! s) as [n0|] eqn:E; simpl; [|done]. intros [= <-].
  destruct (Hc _ _ E). by destruct (n_seed_buffer n0).
Qed.

Lemma assert_if_applies_nodes lsn xid pk p (st : SubqueryRegistry D * list (PkKey * Assert)) sig :
  r_nodes (assert_if_applies lsn xid pk p st sig).1 = r_nodes st.1.
Proof.
  unfold assert_if_applies. destruct (node_applies _ _ _ _); [|done].
  pose proof (assert_node_row_nodes st.1 sig pk p) as H. by destruct (assert_node_row st.1 sig pk p).
Qed.

Lemma drop_holders_nodes lsn xid pk target hs : forall st : SubqueryRegistry D * list (PkKey * Assert),
  r_nodes (foldl (λ st sig, if is_target target sig then st else assert_if_applies lsn xid pk None st sig) st hs).1 = r_nodes st.1.
Proof.
  induction hs as [|h hs IH]; intros st; [done|]. simpl. rewrite IH.
  destruct (is_target target h); [done|apply assert_if_applies_nodes].
Qed.

Lemma template_asserts_nodes tkey lsn xid evals : forall st : SubqueryRegistry D * list (PkKey * Assert),
  r_nodes (foldl (template_assert tkey [] lsn xid) st evals).1 = r_nodes st.1.
Proof.
  induction evals as [|[pk target] evals IH]; intros st; [done|]. simpl. rewrite IH. unfold template_assert. simpl.
  destruct target as [[sig v]|]; [rewrite assert_if_applies_nodes|]; (etransitivity; [apply drop_holders_nodes|done]).
Qed.

Lemma delta_template_calm ts delta lsn xid (st : SubqueryRegistry D * list (PkKey * Assert)) tkey : nodes_calm st.1 -> nodes_calm (delta_template ts delta lsn xid st tkey).1.
Proof.
  intros Hc. unfold delta_template. set (sigs := match r_templates st.1 !! tkey with Some _ => _ | None => _ end).
  pose proof (buffer_seeds_calm lsn xid delta sigs st.1 Hc) as Hc1. set (reg := foldl _ st.1 sigs) in *.
  unfold template_assertions.
  assert (Hf : fenced_binds reg tkey lsn xid = []).
  { unfold fenced_binds. destruct (r_templates reg !! tkey) as [t|]; [|done].
    destruct (filter _ _) as [|sig l] eqn:Ef; [done|]. exfalso.
    assert (Hin : sig ∈ sig :: l) by (by left). rewrite <- Ef in Hin. apply list_elem_of_filter in Hin as [Hx _].
    destruct (r_nodes reg !! sig) as [n|] eqn:En; [|done]. destruct (Hc1 _ _ En) as [_ Hi].
    rewrite (proj2 (Z.ltb_ge _ _)) in Hx by lia. done. }
  rewrite Hf. pose proof (template_asserts_nodes tkey lsn xid (template_present reg tkey ts delta) (reg, [])) as Hn.
  destruct (foldl (template_assert tkey [] lsn xid) (reg, []) (template_present reg tkey ts delta)) as [reg' a].
  simpl in *. unfold nodes_calm. by rewrite Hn.
Qed.

Lemma delta_nodes_calm reg ts delta lsn xid : nodes_calm reg -> nodes_calm (delta_nodes reg ts delta lsn xid).1.
Proof.
  intros Hc. unfold delta_nodes. set (tkeys := (filter _ _).*1).
  assert (H : forall st, nodes_calm st.1 -> nodes_calm (foldl (delta_template ts delta lsn xid) st tkeys).1).
  { induction tkeys as [|k l IH]; intros st Hst; [done|]. simpl. by apply IH, delta_template_calm. }
  specialize (H (reg, []) Hc). destruct (foldl _ _ _) as [reg1 asserts]. unfold apply_asserts.
  by destruct (circuit_apply _ _).
Qed.
End calm.

(** A change counts no query-back. *)
Section counts.
Context {FT : FloatText} {FE : FaultEnv} {D : Type} {MP : MembershipPipeline D} {ML : MembershipLaws D}.
Implicit Types (reg : SubqueryRegistry D).

Lemma table_delta_counts traced reg ts delta lsn xid txid reg' flips c :
  on_table_delta traced reg ts delta lsn xid txid = Ok (reg', flips) -> in_flight_of reg' c = in_flight_of reg c.
Proof.
  intros [_ ->]%on_table_delta_steps. set (reg1 := (delta_nodes reg ts delta lsn xid).1).
  set (groups := map _ _). transitivity (in_flight_of (emit_for_shapes reg1 ts groups txid (SrcLive lsn xid)).1 c);
    [by destruct c|]. rewrite emit_counts. destruct (delta_nodes_frame reg ts delta lsn xid) as [Hn _ Hr]. fold reg1 in Hn, Hr.
  destruct c as [id|sig]; simpl; [by rewrite Hr|]. specialize (Hn sig).
  destruct (r_nodes reg !! sig), (r_nodes reg1 !! sig); simpl in Hn; try done.
  apply (inj Some) in Hn. exact (f_equal n_inflight Hn).
Qed.
End counts.

(* ------------------------------------------------------------------ *)
(** ** At rest *)

Section steady.
Context {FT : FloatText} {FE : FaultEnv} {D : Type} {MP : MembershipPipeline D} {ML : MembershipLaws D}.
Context (base : str -> gmap str json) (edges : SubquerySig -> list Edge).
Implicit Types (reg : SubqueryRegistry D) (W : gmap TableRef (gmap str Row)).

Record at_rest W reg : Prop := {
  ar_walkable : walkable W base edges reg;
  ar_right : forall dep pk, is_Some (dep_of reg dep) -> right W base reg dep pk;
  ar_idle : forall c, in_flight_of reg c <= 0
}.

(** A change of one table that no gate holds back. *)
Record change_of W reg (ts : TableSchema) (delta : Delta) (lsn : Z) (xid : option Z) (T' : gmap str Row) : Prop := {
  ch_schema : r_schemas reg !! ts_table ts = Some ts;
  ch_delta : delta_of ts (rows_of W (ts_table ts)) delta T';
  ch_shapes : forall id s, r_shapes reg !! id = Some s -> sh_outer_table s = ts_table ts ->
    should_skip (sh_gate s) lsn xid = false;
  ch_nodes : forall sig n, r_nodes reg !! sig = Some n -> n_seed_buffer n = None -> n_inner_table n = ts_table ts ->
    template_stands reg n /\ should_skip (n_gate n) lsn xid = false
}.

Section change.
Context (W : gmap TableRef (gmap str Row)) (reg : SubqueryRegistry D).
Context (traced : bool) (ts : TableSchema) (delta : Delta) (lsn : Z) (xid : option Z) (txid : option str).
Context (T' : gmap str Row) (reg' : SubqueryRegistry D) (flips : list (SubquerySig * Flip)).
Hypothesis deletes : drop_deletes = false.
Hypothesis rest : at_rest W reg.
Hypothesis change : change_of W reg ts delta lsn xid T'.
Hypothesis run : on_table_delta traced reg ts delta lsn xid txid = Ok (reg', flips).
Hypothesis small : dict_small reg'.
Let t := ts_table ts.
Let T := rows_of W t.
Let W' := <[t := T']> W.
Let reg1 := (delta_nodes reg ts delta lsn xid).1.

Lemma rest_live : live_ok reg.
Proof. apply wl_live with (W := W) (base := base) (edges := edges), rest. Qed.
Lemma rest_table : table_ok ts T.
Proof. apply (wl_tables _ _ _ _ (ar_walkable _ _ rest) _ _ (ch_schema _ _ _ _ _ _ _ change)). Qed.

Lemma rows_of_change t0 : rows_of W' t0 = if decide (t0 = t) then T' else rows_of W t0.
Proof.
  unfold W', rows_of. destruct (decide (t0 = t)) as [->|Hne]; [by rewrite lookup_insert_eq|by rewrite lookup_insert_ne].
Qed.

(** The shapes of other tables are not visited. *)
Lemma visited_table id s : id ∈ visited traced reg1 ts delta -> r_shapes reg !! id = Some s -> sh_outer_table s = t.
Proof.
  destruct (on_table_delta_ok _ _ _ _ _ _ _ _ _ _ _ rest_live rest_table (ch_delta _ _ _ _ _ _ _ change) run small)
    as (_ & _ & _ & _ & _ & _ & Hsh & Hsi & _). fold reg1 in Hsh, Hsi.
  intros Hv Hs. unfold visited in Hv. destruct traced.
  - apply list_elem_of_fmap in Hv as ([i s'] & -> & [Ht Hin]%list_elem_of_filter).
    apply elem_of_map_to_list in Hin. rewrite Hsh in Hin. simpl in *. assert (s' = s) as -> by congruence. exact Ht.
  - unfold outer_candidates in Hv. rewrite Hsi in Hv.
    apply (shape_candidates_ok _ _ _ _ _ (lv_index _ rest_live)) in Hv as (pred & Hreg & _).
    unfold shape_reg in Hreg. rewrite lookup_fmap, Hs in Hreg. injection Hreg as Ht _.
    apply TableRef_as_str_inj; [| |done].
    + apply (wl_named _ _ _ _ (ar_walkable _ _ rest)). by apply (wl_schemas _ _ _ _ (ar_walkable _ _ rest) id).
    + apply (wl_named _ _ _ _ (ar_walkable _ _ rest)). unfold t. rewrite (ch_schema _ _ _ _ _ _ _ change). by exists ts.
Qed.

(** What the change puts on the stream of every installed shape. *)
Lemma change_shape id s : r_shapes reg !! id = Some s ->
  exists envs, sent_to reg' (sh_stream_path s) = sent_to reg (sh_stream_path s) ++ envs /\
    forall pk, let V' := materialize (view base reg (sh_stream_path s)) envs in
      reg_fed reg' (sh_feed_id s) pk = bool_decide (is_Some (V' !! pk)) /\
      V' !! pk = match (if decide (sh_outer_table s = t) then latest_rows ts delta !! pk else None) with
                 | Some _ => shown ts s (reg_eval reg1) T' pk
                 | None => view base reg (sh_stream_path s) !! pk
                 end.
Proof.
  intros Hs. pose proof (ch_delta _ _ _ _ _ _ _ change) as Hd. fold t T in Hd.
  destruct (on_table_delta_ok _ _ _ _ _ _ _ _ _ _ _ rest_live rest_table Hd run small)
    as (He & Hflips & Hsm1 & Hok1 & Ht1 & Hd1 & Hsh & Hsi & Hfed1 & Hsent1 & _ & F2 & Ht2 & Hk & Hnd).
  fold reg1 in He, Hsm1, Hok1, Ht1, Hd1, Hsh, Hsi, Hfed1, Hsent1, F2, Ht2, Hk, Hnd.
  rewrite He. set (gs := live_groups traced reg1 ts delta lsn xid) in *.
  set (reg2 := (emit_for_shapes reg1 ts _ txid _).1) in *.
  set (V := view base reg (sh_stream_path s)).
  assert (HV : forall pk, is_Some (V !! pk) <-> reg_fed reg (sh_feed_id s) pk = true)
    by (intros pk; apply (wl_feed _ _ _ _ (ar_walkable _ _ rest) id s pk Hs)).
  assert (Hs1 : r_shapes reg1 !! id = Some s) by (by rewrite Hsh).
  assert (Hsm2 : dict_small reg2) by (rewrite He in small; exact small).
  destruct (decide (sh_outer_table s = t)) as [Htab|Htab].
  - assert (Hix1 : shapes_indexed (r_shape_index reg1) (shape_reg reg1)).
    { rewrite Hsi. unfold shape_reg. rewrite Hsh. apply (lv_index _ rest_live). }
    assert (Hdel : delivered reg1 s T V).
    { split; [intros pk; by rewrite Hfed1|]. intros pk Hi.
      pose proof (ar_right _ _ rest (DShape id) pk) as Hr. simpl in Hr. rewrite Hs in Hr. specialize (Hr ltac:(by eexists)).
      specialize (Hr s ts eq_refl). rewrite Htab in Hr. specialize (Hr (ch_schema _ _ _ _ _ _ _ change)).
      fold V T in Hr. rewrite Hr in Hi. destruct Hi as [j Hj]. unfold shown in Hj.
      apply bind_Some in Hj as (r & HT & Hj). exists r. split; [done|].
      destruct (matches_ctx _ _ _) eqn:Em; [|done]. by eapply matches_admissible. }
    destruct (shapes_step traced reg1 ts delta lsn xid txid T T' V id s deletes Ht1 Hd1 Hix1 rest_table Hd Hs1 Htab
                (ch_shapes _ _ _ _ _ _ _ change id s Hs Htab) Hdel Hnd Hsm2) as (envs & Hsent & HVpk).
    fold gs in Hsent, HVpk. exists envs. rewrite <- Hsent1. split; [exact Hsent|exact HVpk].
  - destruct (emit_live_spec ts (SrcLive lsn xid) (lsn, xid) txid gs reg1 eq_refl Ht1 Hd1 Hk Hnd) as [_ Hemit].
    destruct (Hemit Hsm2) as [_ Hgroup]. specialize (Hgroup id s Hs1). unfold gs in Hgroup. rewrite live_groups_lookup in Hgroup.
    rewrite bool_decide_eq_false_2 in Hgroup by (intros Hv; by apply Htab, (visited_table id s)). simpl in Hgroup.
    fold gs in Hgroup. fold reg2 in Hgroup. destruct Hgroup as (Hsent & Hfed & _). exists [].
    split; [rewrite app_nil_r, <- Hsent1; exact Hsent|]. intros pk. simpl. split; [|done].
    transitivity (reg_fed reg2 (sh_feed_id s) pk); [done|]. rewrite Hfed, Hfed1.
    apply eq_true_iff_eq. by rewrite bool_decide_eq_true, HV.
Qed.

(** What the change leaves of the registry. *)
Record changed : Prop := {
  cg_live : live_ok reg';
  cg_edges : r_edges reg' = r_edges reg;
  cg_schemas : r_schemas reg' = r_schemas reg;
  cg_pending : map ps_shape_id (r_pending_shapes reg') = map ps_shape_id (r_pending_shapes reg);
  cg_shapes : forall id, shape_core <$> r_shapes reg' !! id = shape_core <$> r_shapes reg !! id;
  cg_nodes : forall sig, node_core <$> r_nodes reg' !! sig = node_core <$> r_nodes reg !! sig;
  cg_calm : nodes_calm reg';
  cg_recent : forall id pk, recent_of reg' id pk = None;
  cg_eval : same_eval (reg_eval reg') (reg_eval reg1);
  cg_holds : forall sig pk, node_holds reg' sig pk = node_holds reg1 sig pk;
  cg_flips : flips = (delta_nodes reg ts delta lsn xid).2;
  cg_small : dict_small reg1
}.

Lemma rest_calm : nodes_calm reg.
Proof.
  intros sig n Hn. split; [by eapply wl_node_recent; [apply rest|]|].
  pose proof (ar_idle _ _ rest (CNode sig)) as Hi. simpl in Hi. by rewrite Hn in Hi.
Qed.

Lemma change_changed : changed.
Proof.
  pose proof (ch_delta _ _ _ _ _ _ _ change) as Hd. fold t T in Hd.
  pose proof (change_live _ _ _ _ _ _ _ _ _ _ _ rest_live rest_table Hd run small) as Hlive.
  destruct (on_table_delta_ok _ _ _ _ _ _ _ _ _ _ _ rest_live rest_table Hd run small)
    as (He & Hflips & Hsm1 & Hok1 & Ht1 & Hd1 & Hsh & Hsi & Hfed1 & Hsent1 & Hrec1 & F2 & Ht2 & Hk & Hnd).
  fold reg1 in He, Hsm1, Hok1, Ht1, Hd1, Hsh, Hsi, Hfed1, Hsent1, Hrec1, F2, Ht2, Hk, Hnd.
  pose proof (delta_nodes_frame reg ts delta lsn xid) as F1. fold reg1 in F1.
  set (gs := live_groups traced reg1 ts delta lsn xid) in *.
  set (reg2 := (emit_for_shapes reg1 ts _ txid _).1) in *.
  assert (Hsm2 : dict_small reg2) by (rewrite He in small; exact small).
  pose proof (ef_rest _ _ F2) as Hr2. pose proof (nf_rest _ _ F1) as Hr1.
  split; try done; rewrite ?He.
  - simpl. rewrite Hr2. simpl. by rewrite Hr1.
  - simpl. rewrite Hr2. simpl. by rewrite Hr1.
  - simpl. rewrite map_map. rewrite (map_ext _ ps_shape_id) by (intros p; by case_bool_decide).
    rewrite Hr2. simpl. by rewrite Hr1.
  - intros id. simpl. by rewrite (ef_shapes _ _ F2), Hsh.
  - intros sig. simpl. rewrite Hr2. simpl. apply (nf_nodes _ _ F1).
  - unfold nodes_calm. simpl. rewrite Hr2. simpl. apply delta_nodes_calm, rest_calm.
  - intros id pk. change (recent_of (buffer_outer _ _ reg2) id pk) with (recent_of reg2 id pk).
    destruct (r_shapes reg1 !! id) as [s|] eqn:Hs.
    + destruct (emit_live_spec ts (SrcLive lsn xid) (lsn, xid) txid gs reg1 eq_refl Ht1 Hd1 Hk Hnd) as [_ Hemit].
      destruct (Hemit Hsm2) as [_ Hgroup]. specialize (Hgroup id s Hs).
      pose proof (wl_recent _ _ _ _ (ar_walkable _ _ rest) id pk) as Hno.
      pose proof (ar_idle _ _ rest (CShape id)) as Hi. simpl in Hi. rewrite <- Hsh, Hs in Hi.
      destruct (list_to_map gs !! id) as [l|]; destruct Hgroup as (_ & _ & Hrec); unfold reg2; rewrite Hrec, Hrec1, Hno; [|done].
      rewrite decide_False; [done|]. intros [? _]. lia.
    + unfold recent_of. pose proof (ef_shapes _ _ F2 id) as Hc. rewrite Hs in Hc. by destruct (r_shapes reg2 !! id).
  - intros p row. change (reg_eval (buffer_outer _ _ reg2)) with (reg_eval reg2). by rewrite (ef_eval _ _ F2).
  - intros sig pk. change (node_holds (buffer_outer _ _ reg2) sig pk) with (node_holds reg2 sig pk).
    unfold node_holds. replace (r_circuit reg2) with (r_circuit reg1) by (by rewrite Hr2).
    apply (sets_ok_emit reg1 reg2); [done|apply Ht2|exact Hok1].
Qed.

Lemma node_core_fields n n' : node_core n' = node_core n ->
  n_inner_table n' = n_inner_table n /\ n_pred n' = n_pred n /\ n_proj_col n' = n_proj_col n /\
  n_inflight n' = n_inflight n /\ n_gate n' = n_gate n /\ (n_seed_buffer n' = None <-> n_seed_buffer n = None).
Proof.
  intros H. split_and!; [exact (f_equal n_inner_table H)|exact (f_equal n_pred H)|exact (f_equal n_proj_col H)
    |exact (f_equal n_inflight H)|exact (f_equal n_gate H)|].
  pose proof (f_equal n_seed_buffer H) as Hb. simpl in Hb. by destruct (n_seed_buffer n'), (n_seed_buffer n).
Qed.

Lemma change_dep : forall dep, dep_of reg' dep = dep_of reg dep.
Proof.
  pose proof change_changed as C. intros [id|sig]; simpl.
  - pose proof (cg_shapes C id) as Hc. destruct (r_shapes reg !! id), (r_shapes reg' !! id); simpl in *; try done.
    apply (inj Some), shape_core_fields in Hc as (_ & _ & -> & _ & _ & -> & _). done.
  - pose proof (cg_nodes C sig) as Hc. destruct (r_nodes reg !! sig) as [n|], (r_nodes reg' !! sig) as [n'|]; simpl in *; try done.
    apply (inj Some), node_core_fields in Hc as (-> & -> & _ & _ & _ & Hb).
    destruct (n_seed_buffer n'), (n_seed_buffer n); naive_solver.
Qed.

Lemma change_walkable : walkable W' base edges reg'.
Proof.
  pose proof change_changed as C. pose proof (ar_walkable _ _ rest) as Hw. split.
  - apply (cg_live C).
  - rewrite (cg_schemas C). intros t0 ts0 Hts. destruct (wl_tables _ _ _ _ Hw _ _ Hts) as [Ht0 Htab]. split; [done|].
    rewrite rows_of_change. destruct (decide (t0 = t)) as [->|]; [|done].
    unfold t in Hts. rewrite (ch_schema _ _ _ _ _ _ _ change) in Hts. injection Hts as <-.
    eapply delta_table_ok; [exact rest_table|]. apply (ch_delta _ _ _ _ _ _ _ change).
  - rewrite (cg_schemas C). apply Hw.
  - intros id s' Hs'. pose proof (cg_shapes C id) as Hc. rewrite Hs' in Hc. rewrite (cg_schemas C).
    destruct (r_shapes reg !! id) as [s|] eqn:Hs; [|done]. simpl in Hc.
    apply (inj Some), shape_core_fields in Hc as (_ & _ & _ & _ & _ & -> & _). by apply (wl_schemas _ _ _ _ Hw id).
  - intros id [s' Hs']. rewrite (cg_pending C). apply (wl_pending _ _ _ _ Hw). pose proof (cg_shapes C id) as Hc.
    rewrite Hs' in Hc. by destruct (r_shapes reg !! id).
  - apply (cg_recent C).
  - intros sig n Hn. apply (cg_calm C sig n Hn).
  - intros sig. unfold edges_of. rewrite (cg_edges C). apply (wl_edges _ _ _ _ Hw).
  - intros dep t0 pred l. rewrite change_dep. apply Hw.
  - intros sig n' Hn'. pose proof (cg_nodes C sig) as Hc. rewrite Hn' in Hc.
    destruct (r_nodes reg !! sig) as [n|] eqn:Hn; [|done]. simpl in Hc.
    apply (inj Some), node_core_fields in Hc as (_ & -> & _). by apply (wl_own _ _ _ _ Hw).
  - intros id s' pk Hs'. pose proof (cg_shapes C id) as Hc. rewrite Hs' in Hc.
    destruct (r_shapes reg !! id) as [s|] eqn:Hs; [|done]. simpl in Hc.
    apply (inj Some), shape_core_fields in Hc as (-> & -> & _).
    destruct (change_shape id s Hs) as (envs & Hsent & Hpk). destruct (Hpk pk) as [Hb _].
    by rewrite (view_app _ _ _ _ _ Hsent), Hb, bool_decide_eq_true.
Qed.

(** A row is as the predicate said before, or a flip reaches it. *)
Lemma change_match dep t0 pred r : dep_of reg dep = Some (t0, pred) ->
  matches_ctx pred r (reg_eval reg') = matches_ctx pred r (reg_eval reg) \/ queued edges flips dep r.
Proof.
  intros Hd. pose proof change_changed as C. rewrite (cg_eval C).
  destruct (decide (matches_ctx pred r (reg_eval reg) = matches_ctx pred r (reg_eval reg1))) as [|Hne]; [by left|right].
  pose proof (delta_nodes_agree reg ts delta lsn xid (lv_sets _ rest_live) (lv_runs _ rest_live _)) as Hag.
  rewrite <- (cg_flips C) in Hag. destruct (flips_reach (flipped flips) _ _ r pred Hag Hne) as (l & u & Hl & Hin & Hr).
  apply andb_true_iff in Hr as [_ Hr]. unfold flipped in Hin.
  apply list_elem_of_In, in_map_iff in Hin as ([s fl] & [= Hs <-] & Hin). exists (s, fl). split; [by apply list_elem_of_In|].
  exists (MkEdge (il_sig l) dep (il_col l) (il_negated l) (il_null_sensitive l)). split_and!; [|done|exact Hr].
  simpl. rewrite Hs. by apply (wl_leaves _ _ _ _ (ar_walkable _ _ rest) dep t0 pred).
Qed.

(** What every node's set comes to. *)
Lemma change_node sig n pk : r_nodes reg !! sig = Some n -> n_seed_buffer n = None ->
  node_holds reg' sig pk = contributions n (reg_eval reg) (rows_of W' (n_inner_table n)) pk.
Proof.
  intros Hn Hb. pose proof change_changed as C. rewrite (cg_holds C).
  pose proof (ar_right _ _ rest (DNode sig) pk) as Hr. simpl in Hr. rewrite Hn in Hr. simpl in Hr. rewrite Hb in Hr.
  specialize (Hr ltac:(by eexists) n eq_refl Hb).
  destruct (delta_nodes_sets reg ts delta lsn xid (lv_sets _ rest_live) (lv_runs _ rest_live _) (cg_small C)) as [_ Hstep].
  fold reg1 in Hstep. rewrite (Hstep sig n pk Hn), rows_of_change. clear Hstep. fold t. destruct (decide (n_inner_table n = t)) as [Ht|Hne].
  - rewrite bool_decide_eq_true_2 by done.
    destruct (ch_nodes _ _ _ _ _ _ _ change sig n Hn Hb Ht) as [(tp & Htp & Hstands) Hskip].
    unfold node_applies. rewrite Hn, Hb, Hskip. simpl. rewrite Ht in Hr. fold T in Hr.
    destruct (latest_rows_delta ts T delta T' rest_table (ch_delta _ _ _ _ _ _ _ change)) as (Hl & _). specialize (Hl pk).
    unfold after_change. rewrite Hn. unfold contributions in *. destruct (latest_rows ts delta !! pk) as [[row [|]]|].
    + rewrite Hl. simpl. unfold node_match, contribution. rewrite Htp, Hstands. by destruct (_ && _).
    + by destruct Hl as [-> _].
    + rewrite Hl. exact Hr.
  - by rewrite bool_decide_eq_false_2.
Qed.

Lemma change_covered : covered W' base edges reg' flips (λ _ _, False).
Proof.
  pose proof change_changed as C. intros dep t0 pred pk Hd. rewrite change_dep in Hd.
  assert (Hm : (forall r, rows_of W' t0 !! pk = Some r -> matches_ctx pred r (reg_eval reg') = matches_ctx pred r (reg_eval reg)) \/
               exists r, rows_of W' t0 !! pk = Some r /\ queued edges flips dep r).
  { destruct (rows_of W' t0 !! pk) as [r|]; [|by left]. destruct (change_match dep t0 pred r Hd) as [H|H].
    - left. by intros r' [= <-].
    - right. by exists r. }
  destruct Hm as [Hm|(r & Hr & Hq)]; [left|right; exists r; tauto]. destruct dep as [id|sig].
  - intros s' ts' Hs' Hts'. rewrite (cg_schemas C) in Hts'. pose proof (cg_shapes C id) as Hc. rewrite Hs' in Hc.
    simpl in Hd. destruct (r_shapes reg !! id) as [s|] eqn:Hs; [|done]. simpl in Hc, Hd. injection Hd as <- <-.
    apply (inj Some), shape_core_fields in Hc as (_ & -> & Hp & Hcols & _ & Ht & _). rewrite Ht in *.
    destruct (change_shape id s Hs) as (envs & Hsent & Hpk). destruct (Hpk pk) as [_ Hv].
    rewrite (view_app _ _ _ _ _ Hsent), Hv.
    rewrite (shown_ext ts' s s' _ (reg_eval reg')) by done.
    pose proof (ar_right _ _ rest (DShape id) pk) as Hr. simpl in Hr. rewrite Hs in Hr.
    specialize (Hr ltac:(by eexists) s ts' eq_refl Hts').
    assert (Hsame : shown ts' s (reg_eval reg) (rows_of W' (sh_outer_table s)) pk =
                    shown ts' s (reg_eval reg') (rows_of W' (sh_outer_table s)) pk).
    { unfold shown. destruct (rows_of W' (sh_outer_table s) !! pk) as [r|] eqn:Er; simpl; [by rewrite Hm|done]. }
    rewrite <- Hsame, Hr. rewrite rows_of_change in Hsame |- *. destruct (decide (sh_outer_table s = t)) as [Et|Ht'].
    + assert (ts' = ts) as ->.
      { rewrite Et in Hts'. unfold t in Hts'. rewrite (ch_schema _ _ _ _ _ _ _ change) in Hts'. by injection Hts'. }
      destruct (latest_rows_delta ts T delta T' rest_table (ch_delta _ _ _ _ _ _ _ change)) as (Hl & _). specialize (Hl pk).
      destruct (latest_rows ts delta !! pk) as [[row b]|].
      * rewrite Hsame. apply shown_ext; [done..|]. intros p r. symmetry. apply (cg_eval C).
      * rewrite Et. fold T. unfold shown. by rewrite Hl.
    + done.
  - intros n' Hn' Hb'. pose proof (cg_nodes C sig) as Hc. rewrite Hn' in Hc.
    simpl in Hd. destruct (r_nodes reg !! sig) as [n|] eqn:Hn; [|done]. simpl in Hc, Hd.
    apply (inj Some), node_core_fields in Hc as (Ht & Hp & Hproj & _ & _ & Hb). apply Hb in Hb'. rewrite Hb' in Hd.
    injection Hd as <- <-. rewrite Ht, (change_node sig n pk Hn Hb').
    rewrite (contributions_ext n n' _ (reg_eval reg')) by done. unfold contributions, contribution.
    destruct (rows_of W' (n_inner_table n) !! pk) as [r|]; simpl; [by rewrite Hm|done].
Qed.
End change.
End steady.

(* ================================================================== *)
(** * Properties *)

Section properties.
Context {FT : FloatText} {FE : FaultEnv} {D : Type} {MP : MembershipPipeline D} {ML : MembershipLaws D}.
Implicit Types (reg : SubqueryRegistry D) (w : Walking D).

(** C2: the registry maintains its views.  At rest every subscriber of every installed shape has exactly
    the rows its predicate selects and every inner set holds exactly what its node contributes; a change of a
    table, which no gate holds back, followed by its walk with whatever retries, alone and over the table as
    the change left it, brings the registry to rest again, now for the changed table: whatever shapes and
    nodes are over the table, and however deep the subqueries nest. *)
Theorem change_and_walk_steady base edges W reg traced ts delta lsn xid txid lsn_text T' reg1 flips
    (E : WalkEnv D) fuel w' :
  drop_deletes = false -> at_rest base edges W reg -> change_of W reg ts delta lsn xid T' ->
  on_table_delta traced reg ts delta lsn xid txid = Ok (reg1, flips) ->
  (forall n reg, we_others E n reg = reg) ->
  (forall n ts0 filter rows gate, we_reads E n ts0 filter = Ok (rows, gate) ->
     answers (rows_of (<[ts_table ts := T']> W) (ts_table ts0)) filter rows) ->
  propagate_with_retry E fuel txid lsn_text (MkWalking reg1 flips 0 0 [] []) = Some (Ok tt, w') ->
  dict_small (wk_reg w') ->
  at_rest base edges (<[ts_table ts := T']> W) (wk_reg w').
Proof.
  intros Hdd Hrest Hch Hrun Hq Hreads Hwalk Hsm.
  set (w := MkWalking reg1 flips 0 0 [] []) in *.
  assert (Hg : good (<[ts_table ts := T']> W) base edges (λ _ _, False) w).
  { split.
    - intros sig. destruct (on_table_delta_steps _ _ _ _ _ _ _ _ _ Hrun) as [_ ->]. simpl.
      unfold edges_of. simpl. rewrite (ef_rest _ _ (emit_for_shapes_frame _ _ _ _ _)). simpl.
      rewrite (nf_rest _ _ (delta_nodes_frame reg ts delta lsn xid)). simpl. apply (wl_edges _ _ _ _ (ar_walkable _ _ _ _ Hrest)).
    - intros Hs. split.
      + by eapply change_walkable.
      + by eapply change_covered. }
  split.
  - apply (proj2 (walk_good _ _ _ E Hq Hreads Hdd fuel txid lsn_text _ _ _ Hg Hwalk) Hsm).
  - by apply (walk_done _ _ _ E Hq Hreads Hdd fuel txid lsn_text _ _ Hg).
  - assert (Hset : settled (λ _ _, 0) w').
    { eapply (retry_keeps sleep _ (settled (λ _ _, 0)) w); [| | |exact Hwalk].
      - intros w1 r1 w2 H1. apply (propagate_flips_settles E (λ _ _, 0)); [done|intros; by rewrite Hq|done].
      - by intros ms w1.
      - intros c. simpl. rewrite (table_delta_counts _ _ _ _ _ _ _ _ _ c Hrun). apply (ar_idle _ _ _ _ Hrest). }
    exact Hset.
Qed.
End properties.
