(* ===== verification/PredicateTypes.v ===== *)
(** * Compiled predicates are well typed

    Compilation resolves names to columns and literals to values of the columns' types, or fails; so
    evaluation never reads past a row and never compares across types. *)

From S2P Require Import Prelude BTree Value TableRef Schema Predicate PredicateFacts Subquery SubqCreate SubqCompile.
From stdpp Require Import base option numbers strings gmap fin_maps sorting list.
#[local] Open Scope Z_scope.

(* ------------------------------------------------------------------ *)
(** ** Types *)

(** A value of a column's type, or null. *)
Definition kind_ok (v : Value) (ty : ColumnType) : Prop :=
  match v, ty with
  | VNull, _ | VInt _, TyInt | VText _, TyText | VBool _, TyBool | VFloat _, TyFloat => True
  | _, _ => False
  end.

Fixpoint typed (ts : TableSchema) (p : CompiledPredicate) : Prop :=
  match p with
  | MatchAll => True
  | Cmp col _ v => exists ty, column_type ts col = Some ty /\ kind_ok v ty
  | CIsNull col _ | InSubquery col _ _ => is_Some (column_type ts col)
  | CAnd ps | COr ps => foldr (λ q, and (typed ts q)) True ps
  | CNot q => typed ts q
  end.

(** The comparisons of a predicate. *)
Fixpoint comparisons (p : CompiledPredicate) : list (nat * LeafOp * Value) :=
  match p with
  | Cmp col op v => [(col, op, v)]
  | CAnd ps | COr ps => concat (map comparisons ps)
  | CNot q => comparisons q
  | _ => []
  end.

(** Every name of the index is a column. *)
Definition indexed (ts : TableSchema) : Prop :=
  map_Forall (λ _ i, is_Some (column_type ts i)) (ts_index ts).

Lemma columns_index_bound cols c i : columns_index cols !! c = Some i -> (i < length cols)%nat.
Proof.
  unfold columns_index.
  assert (H : forall l (m : gmap str nat) n, (forall c i, m !! c = Some i -> (i < n)%nat) ->
            Forall (λ e : nat * str, (e.1 < n)%nat) l ->
            foldl (λ m '(i, c), <[c := i]> m) m l !! c = Some i -> (i < n)%nat).
  { clear. induction l as [|[j d] l IH]; intros m n Hm Hl; simpl; [by apply Hm|].
    apply Forall_cons in Hl as [Hj Hl]. apply IH; [|done]. intros c' i' [[<- <-]|[_ H]]%lookup_insert_Some; [done|by eapply Hm]. }
  apply H; [intros c' i'; by rewrite lookup_empty|].
  apply Forall_lookup. intros k [j d] Hk. rewrite list_lookup_imap in Hk.
  destruct (cols !! k) as [x|] eqn:E; [|done]. simpl in Hk. injection Hk as <- <-. simpl. by apply lookup_lt_Some in E.
Qed.

Lemma from_def_indexed table def ts : TableSchema_from_def table def = Ok ts -> indexed ts.
Proof.
  unfold TableSchema_from_def. case_bool_decide; [done|].
  destruct (try_map _ (td_primary_key def)) as [pk|e]; simpl; [|done]. intros [= <-].
  intros c i Hi. unfold column_type. simpl in *. apply columns_index_bound, lookup_lt_is_Some_2 in Hi as [x Hx].
  rewrite Hx. by eexists.
Qed.

Section literals.
Context {FT : FloatText}.

Lemma ok_or_kind {A : Type} (f : A -> Value) e (o : option A) v ty : (forall a, kind_ok (f a) ty) ->
  f <$> (ok_or e o : res str A) = Ok v -> kind_ok v ty.
Proof. intros Hf. destruct o; simpl; [|done]. intros [= <-]. apply Hf. Qed.

Lemma from_json_kind j ty v : from_json j ty = Ok v -> kind_ok v ty.
Proof.
  unfold from_json. destruct (is_null j); [by intros [= <-]|]. destruct ty; [destruct j|..]; by apply ok_or_kind.
Qed.

Lemma literal_kind j ty v : literal_from_json j ty = Ok v -> kind_ok v ty.
Proof.
  unfold literal_from_json. destruct j as [|b|n|s|l|m]; try apply from_json_kind.
  destruct ty; try (by apply ok_or_kind); try (by intros [= <-]).
  destruct (decide _); [by intros [= <-]|]. destruct (decide _); [by intros [= <-]|done].
Qed.
End literals.

(* ------------------------------------------------------------------ *)
(** ** Compilation *)

Section compile.
Context {FT : FloatText} {S : Type} {C : SubqueryCollector S}.

Lemma typed_all ts cs : (forall c, c ∈ cs -> typed ts c) -> foldr (λ q, and (typed ts q)) True cs.
Proof.
  induction cs as [|c cs IH]; intros H; simpl; [done|]. split; [apply H; by left|apply IH]. intros d Hd. apply H. by right.
Qed.

Lemma compile_all_typed ts ps : Forall (λ p, forall s s' c, compile_with p ts s = (s', Ok c) -> typed ts c) ps ->
  forall s s' cs, compile_all ps ts s = (s', Ok cs) -> forall c, c ∈ cs -> typed ts c.
Proof.
  induction 1 as [|p ps Hp _ IH]; intros s s' cs; simpl; [by intros [= <- <-] c ?%not_elem_of_nil|].
  destruct (compile_with p ts s) as [s1 [c|e]] eqn:E1; [|done]. destruct (compile_all ps ts s1) as [s2 [cs'|e]] eqn:E2; [|done].
  intros [= <- <-] d [->|Hd]%elem_of_cons; [by eapply Hp|by eapply IH].
Qed.

Lemma compile_with_typed ts p : indexed ts -> forall s s' c, compile_with p ts s = (s', Ok c) -> typed ts c.
Proof.
  intros Hix. assert (Hcol : forall col idx, column_index ts col = Ok idx -> is_Some (column_type ts idx)).
  { intros col idx. unfold column_index. destruct (ts_index ts !! col) as [i|] eqn:E; simpl; [|done]. intros [= <-].
    by apply (Hix col). }
  induction p as [col op v|col b|ps IH|ps IH|p IH|col t pr w n _] using PredicateJson_rect'; intros s s' c; simpl.
  - destruct (column_index ts col) as [idx|e]; simpl; [|done]. destruct (column_type ts idx) as [ty|] eqn:Et; simpl; [|done].
    destruct (literal_from_json v ty) as [w|e] eqn:El; simpl; [|done]. intros [= <- <-]. simpl. exists ty.
    split; [done|by eapply literal_kind].
  - destruct (column_index ts col) as [idx|e] eqn:E; simpl; [|done]. intros [= <- <-]. by eapply Hcol.
  - destruct (compile_with_all ps ts s) as [Ha _]. simpl in Ha. rewrite Ha. clear Ha.
    destruct (compile_all ps ts s) as [s1 [cs|e]] eqn:E; simpl; [|done]. intros [= <- <-]. simpl.
    apply typed_all. by eapply compile_all_typed.
  - destruct (compile_with_all ps ts s) as [_ Ho]. simpl in Ho. rewrite Ho. clear Ho.
    destruct (compile_all ps ts s) as [s1 [cs|e]] eqn:E; simpl; [|done]. intros [= <- <-]. simpl.
    apply typed_all. by eapply compile_all_typed.
  - destruct (compile_with p ts s) as [s1 [d|e]] eqn:E; simpl; [|done]. intros [= <- <-]. exact (IH _ _ _ E).
  - destruct (column_index ts col) as [idx|e] eqn:E; simpl; [|done]. destruct (collect s t pr w) as [s1 [sig|e]]; simpl; [|done].
    intros [= <- <-]. by eapply Hcol.
Qed.
End compile.

(* ------------------------------------------------------------------ *)
(** ** Evaluation *)

Lemma typed_comparison ts p : typed ts p -> forall col op v, (col, op, v) ∈ comparisons p ->
  exists ty, column_type ts col = Some ty /\ kind_ok v ty.
Proof.
  induction p as [|col op v|col b|ps IH|ps IH|p IH|col sig n] using CompiledPredicate_rect'; simpl; intros Ht col' op' v' Hin;
    try (by apply not_elem_of_nil in Hin); [|revert Ht Hin|revert Ht Hin|by eapply IH].
  - apply list_elem_of_singleton in Hin. injection Hin as -> -> ->. done.
  - induction IH as [|q qs Hq _ IHqs]; simpl; [by intros _ ?%not_elem_of_nil|].
    intros [H1 H2] [Hin|Hin]%elem_of_app; [by eapply Hq|by eapply IHqs].
  - induction IH as [|q qs Hq _ IHqs]; simpl; [by intros _ ?%not_elem_of_nil|].
    intros [H1 H2] [Hin|Hin]%elem_of_app; [by eapply Hq|by eapply IHqs].
Qed.

Lemma cell_kind ts row col ty : row_typed ts row -> column_type ts col = Some ty ->
  is_Some (row !! col) /\ kind_ok (cell row col) ty.
Proof.
  intros Hr Hc. unfold column_type in Hc. destruct (ts_columns ts !! col) as [[c ty']|] eqn:E; [|done]. injection Hc as ->.
  destruct (Forall2_lookup_r _ _ _ _ _ Hr E) as (v & Hv & Hk). split; [by exists v|]. unfold cell. rewrite Hv. simpl in *.
  by destruct v, ty.
Qed.

Section eval.
Context {FT : FloatText} {FE : FaultEnv}.

(** A comparison of two values of one type is unknown only on account of a null, or of LIKE on
    something that is not a text. *)
Lemma cmp_known a op v ty : kind_ok a ty -> kind_ok v ty ->
  cmp_tri a op v = TUnknown <-> value_is_null a = true \/ value_is_null v = true \/ (op = OpLike /\ ty <> TyText).
Proof.
  intros Ha Hv. unfold cmp_tri. destruct (value_is_null a) eqn:Ea; [simpl; tauto|].
  destruct (value_is_null v) eqn:Ev; [simpl; tauto|]. simpl.
  assert (Hb : forall b, Tri_from_bool b <> TUnknown) by (by intros []).
  destruct a, ty, v; simpl in *; try done; destruct op; simpl;
    (split; [intros Hx; first [by apply Hb in Hx|by right; right]|intros [?|[?|[? ?]]]; done]).
Qed.

(** C29: compiled predicates are well typed, whatever collects their subqueries.  Every column they
    name exists; every literal has its column's type or is null; and so, on every row of the table,
    each comparison finds its cell and compares two values of one type: it is unknown exactly when
    one of them is null, or for LIKE on a column that is not text. *)
Theorem compile_typed {S : Type} {C : SubqueryCollector S} table def ts p (s s' : S) c :
  TableSchema_from_def table def = Ok ts -> compile_with p ts s = (s', Ok c) ->
  typed ts c /\
  forall row col op v, row_typed ts row -> (col, op, v) ∈ comparisons c ->
    exists ty, column_type ts col = Some ty /\ kind_ok v ty /\ is_Some (row !! col) /\ kind_ok (cell row col) ty /\
      (cmp_tri (cell row col) op v = TUnknown <->
         value_is_null (cell row col) = true \/ value_is_null v = true \/ (op = OpLike /\ ty <> TyText)).
Proof.
  intros Hts%from_def_indexed Hc. pose proof (compile_with_typed ts p Hts s s' c Hc) as Ht. split; [done|].
  intros row col op v Hr Hin. destruct (typed_comparison ts c Ht col op v Hin) as (ty & Hty & Hk).
  destruct (cell_kind ts row col ty Hr Hty) as [Hs Hcell]. exists ty. split_and!; [done..|]. by apply cmp_known.
Qed.
End eval.
