(* ===== verification/WhereSql.v ===== *)
(** * WHERE clauses ([src/apps/engine/src/where_sql.rs])

    The clause of [GET /v1/shape?where=...]: [tokenize], the recursive-descent [Parser] and
    [parse_where_typed].  A position in the source's vectors is the suffix that starts there.  What
    the error messages say is kept as data ([WhereError]); the text of a token in them is the
    derived [Debug] of the standard library. *)

From S2P Require Import Prelude BTree Value TableRef Schema Predicate.
From Stdlib Require Import SpecFloat.
From stdpp Require Import base option numbers strings gmap fin_maps sorting list.
#[local] Open Scope Z_scope.

(** [char::is_alphabetic], [char::is_numeric]: Unicode tables of the standard library, of which only
    the ASCII part is relied on. *)
Definition is_ascii_letter (c : char) : bool :=
  ((65 <=? c)%N && (c <=? 90)%N) || ((97 <=? c)%N && (c <=? 122)%N).
Class CharClass := {
  is_alphabetic : char -> bool;
  is_numeric : char -> bool;
  is_alphabetic_ascii : forall c, (c < 128)%N -> is_alphabetic c = is_ascii_letter c;
  is_numeric_ascii : forall c, (c < 128)%N -> is_numeric c = is_ascii_digit c
}.
Definition is_alphanumeric `{CharClass} (c : char) : bool := is_alphabetic c || is_numeric c.

Inductive Tok : Type :=
  | TIdent (s : str)
  | TStr (s : str)
  | TNum (s : str)
  | TOp (s : str)
  | TLParen | TRParen | TComma
  | TAnd | TOr | TNot | TLike | TBetween | TIn | TSelect | TFrom | TWhere
  | TTrue | TFalse | TIs | TNull.

#[export] Instance Tok_eq_dec : EqDecision Tok.
Proof. solve_decision. Defined.

(** The [bail!]s of the file, and the errors of what it calls. *)
Inductive WhereError : Type :=
  | EUnterminatedString
  | EUnterminatedIdent
  | EBadNumber (buf : str)
  | EBadChar (c : char)
  | EExpectedTok (t : Tok) (got : option Tok)
  | EExpectedIdent (got : option Tok)
  | EExpectedLiteral (got : option Tok)
  | EExpectedOp
  | EExpectedPredicate (col : str) (got : option Tok)
  | ENotBeforeIs
  | EUnsupportedOp (op : str)
  | EQualifiedTable (raw : str)
  | ETable (msg : str)
  | EColumn (msg : str)
  | EInvalidNumber (n : str)
  | ENumberRange (n : str)
  | ETrailing (pos : nat) (got : option Tok)
  | EFuel.   (** no case of the source: never returned ([WhereFacts.parse_where_total]) *)

Definition map_err {E F A} (f : E -> F) (r : res E A) : res F A :=
  match r with Ok a => Ok a | Err e => Err (f e) end.

(* ------------------------------------------------------------------ *)
(** ** Tokens *)

Section lexer.
Context {CC : CharClass}.

Fixpoint span (f : char -> bool) (s : str) : str * str :=
  match s with
  | c :: s' => if f c then let p := span f s' in (c :: p.1, p.2) else ([], s)
  | [] => ([], [])
  end.

(** The body of a quoted literal or identifier, up to the closing quote; a doubled quote is one. *)
Fixpoint read_quoted (q : char) (s : str) : option (str * str) :=
  match s with
  | [] => None
  | c :: s' =>
      if (c =? q)%N then
        match s' with
        | d :: s'' =>
            if (d =? q)%N then p ← read_quoted q s''; Some (q :: p.1, p.2) else Some ([], s')
        | [] => Some ([], [])
        end
      else p ← read_quoted q s'; Some (c :: p.1, p.2)
  end.

Definition digit_next (s : str) : bool := match s with c :: _ => is_ascii_digit c | [] => false end.

(** [starts_number], at the first character of [c :: s]; 46 is the dot, 45 the minus. *)
Definition starts_number (c : char) (s : str) : bool :=
  if is_ascii_digit c then true
  else if (c =? 46)%N then digit_next s
  else if (c =? 45)%N then
    digit_next s || match s with d :: s' => (d =? 46)%N && digit_next s' | [] => false end
  else false.

(** Digits with at most one dot among them. *)
Fixpoint scan_mantissa (seen_dot : bool) (s : str) : str * str :=
  match s with
  | c :: s' =>
      if is_ascii_digit c || ((c =? 46)%N && negb seen_dot)
      then let p := scan_mantissa (seen_dot || (c =? 46)%N) s' in (c :: p.1, p.2)
      else ([], s)
  | [] => ([], [])
  end.

(** An exponent is taken only whole; 101 and 69 are the letters [e] and [E], 43 the plus. *)
Definition scan_exponent (s : str) : str * str :=
  match s with
  | c :: s1 =>
      if (c =? 101)%N || (c =? 69)%N then
        let '(sign, s2) := match s1 with
                           | d :: s2 => if (d =? 43)%N || (d =? 45)%N then ([d], s2) else ([], s1)
                           | [] => ([], [])
                           end in
        if digit_next s2 then let p := span is_ascii_digit s2 in (c :: sign ++ p.1, p.2)
        else ([], s)
      else ([], s)
  | [] => ([], [])
  end.

Definition lex_number (s : str) : res WhereError (Tok * str) :=
  let '(sign, s1) := match s with
                     | c :: s' => if (c =? 45)%N then ([c], s') else ([], s)
                     | [] => ([], [])
                     end in
  let '(mantissa, s2) := scan_mantissa false s1 in
  let '(exponent, s3) := scan_exponent s2 in
  let buf := sign ++ mantissa ++ exponent in
  if match s3 with c :: _ => (c =? 46)%N || is_alphanumeric c || (c =? 95)%N | [] => false end
  then Err (EBadNumber buf) else Ok (TNum buf, s3).

Definition keywords : list (str * Tok) :=
  [($"AND", TAnd); ($"OR", TOr); ($"NOT", TNot); ($"LIKE", TLike); ($"BETWEEN", TBetween);
   ($"IN", TIn); ($"SELECT", TSelect); ($"FROM", TFrom); ($"WHERE", TWhere); ($"TRUE", TTrue);
   ($"FALSE", TFalse); ($"IS", TIs); ($"NULL", TNull)].

Definition word_token (buf : str) : Tok :=
  match find (λ kt, bool_decide (kt.1 = map to_ascii_uppercase buf)) keywords with
  | Some kt => kt.2
  | None => TIdent buf
  end.

(** One turn of [tokenize]'s loop at [c :: s']: the token, if there is one, and what follows.  39 and 34
    are the quotes, 40 and 41 the parentheses, 44 the comma, 95 the underscore. *)
Definition lex (c : char) (s' : str) : res WhereError (option Tok * str) :=
  if is_whitespace c then Ok (None, s')
  else if (c =? 39)%N then
    match read_quoted 39%N s' with
    | Some (buf, rest) => Ok (Some (TStr buf), rest)
    | None => Err EUnterminatedString
    end
  else if (c =? 40)%N then Ok (Some TLParen, s')
  else if (c =? 41)%N then Ok (Some TRParen, s')
  else if (c =? 44)%N then Ok (Some TComma, s')
  else if str_contains c $"=<>!" then
    let p := span (λ d, str_contains d $"=<>!") (c :: s') in Ok (Some (TOp p.1), p.2)
  else if (c =? 34)%N then
    match read_quoted 34%N s' with
    | Some (buf, rest) => Ok (Some (TIdent buf), rest)
    | None => Err EUnterminatedIdent
    end
  else if starts_number c s' then
    p ← lex_number (c :: s'); Ok (Some p.1, p.2)
  else if is_alphabetic c || (c =? 95)%N then
    let p := span (λ d, is_alphanumeric d || (d =? 95)%N) (c :: s') in
    Ok (Some (word_token p.1), p.2)
  else Err (EBadChar c).

Fixpoint tokenize_loop (fuel : nat) (s : str) : res WhereError (list Tok) :=
  match s with
  | [] => Ok []
  | c :: s' =>
      match fuel with
      | O => Err EFuel
      | S fuel =>
          step ← lex c s';
          toks ← tokenize_loop fuel step.2;
          Ok (option_list step.1 ++ toks)
      end
  end.

(** [tokenize]; every turn takes a character. *)
Definition tokenize (s : str) : res WhereError (list Tok) := tokenize_loop (length s) s.
End lexer.

(* ------------------------------------------------------------------ *)
(** ** The parser *)

Section parser.
Context {FT : FloatText}.

(** [num_literal]. *)
Definition num_literal (n : str) : res WhereError json :=
  let float := f ← ok_or (EInvalidNumber n) (f64_parse n);
               if f64_is_finite f then Ok (JNumber (NFloat f)) else Err (ENumberRange n) in
  if str_contains 46%N n || str_contains (101%N) n || str_contains (69%N) n then float
  else match parse_i64 n with
       | Some i => Ok (JNumber (NInt i))
       | None => float
       end.

(** The order [eval_const] compares two literals by. *)
Definition const_order (lhs rhs : json) : option comparison :=
  match lhs, rhs with
  | JNumber a, JNumber b =>
      match as_f64 lhs, as_f64 rhs with
      | Some x, Some y => SFcompare x y
      | _, _ => None
      end
  | JString a, JString b => Some (str_cmp a b)
  | JBool a, JBool b => Some (bool_cmp a b)
  | _, _ => None
  end.

Definition ord_is (l : list comparison) (o : option comparison) : bool :=
  match o with Some c => bool_decide (c ∈ l) | None => false end.

(** [eval_const]. *)
Definition eval_const (lhs : json) (op : str) (rhs : json) : bool :=
  let ord := const_order lhs rhs in
  if decide (op = $"=") then json_eqb lhs rhs
  else if decide (op = $"<>" \/ op = $"!=") then negb (json_eqb lhs rhs)
  else if decide (op = $"<") then ord_is [Lt] ord
  else if decide (op = $"<=") then ord_is [Lt; Eq] ord
  else if decide (op = $">") then ord_is [Gt] ord
  else if decide (op = $">=") then ord_is [Gt; Eq] ord
  else false.

(** A parser takes a prefix of the tokens. *)
Definition Parses (A : Type) : Type := list Tok -> res WhereError (A * list Tok).
Context (schema : option TableSchema).

(** [Parser::eat], [parse_ident], [parse_literal]. *)
Definition eat (t : Tok) : Parses unit := λ ts,
  match ts with
  | got :: ts' => if decide (got = t) then Ok (tt, ts') else Err (EExpectedTok t (Some got))
  | [] => Err (EExpectedTok t None)
  end.
Definition parse_ident : Parses str := λ ts,
  match ts with
  | TIdent s :: ts' => Ok (s, ts')
  | other => Err (EExpectedIdent (head other))
  end.
Definition token_literal (t : Tok) : res WhereError json :=
  match t with
  | TStr s => Ok (JString s)
  | TTrue => Ok (JBool true)
  | TFalse => Ok (JBool false)
  | TNum n => num_literal n
  | other => Err (EExpectedLiteral (Some other))
  end.
Definition parse_literal : Parses json := λ ts,
  match ts with
  | t :: ts' => v ← token_literal t; Ok (v, ts')
  | [] => Err (EExpectedLiteral None)
  end.

Definition is_literal (t : Tok) : bool :=
  match t with TStr _ | TNum _ | TTrue | TFalse => true | _ => false end.

Definition leaf_op (op : str) : res WhereError LeafOp :=
  if decide (op = $"=") then Ok OpEq
  else if decide (op = $"<>" \/ op = $"!=") then Ok OpNeq
  else if decide (op = $"<") then Ok OpLt
  else if decide (op = $"<=") then Ok OpLte
  else if decide (op = $">") then Ok OpGt
  else if decide (op = $">=") then Ok OpGte
  else Err (EUnsupportedOp op).

(** The literals after the first of a list. *)
Fixpoint more_literals (ts : list Tok) : res WhereError (list json * list Tok) :=
  match ts with
  | TComma :: ts' =>
      match ts' with
      | t :: ts'' =>
          v ← token_literal t; q ← more_literals ts''; Ok (v :: q.1, q.2)
      | [] => Err (EExpectedLiteral None)
      end
  | _ => Ok ([], ts)
  end.

(** The [IS] arm of [parse_predicate], after the keyword. *)
Definition parse_is (col : str) (negated : bool) : Parses PredicateJson := λ ts,
  let '(is_not, ts) := match ts with TNot :: ts' => (true, ts') | _ => (false, ts) end in
  '(_, ts) ← eat TNull ts;
  if negated then Err ENotBeforeIs
  else match schema with
       | Some s => _ ← map_err EColumn (column_index s col); Ok (PIsNull col (negb is_not), ts)
       | None => Ok (PIsNull col (negb is_not), ts)
       end.

(** The constant comparison. *)
Definition parse_const : Parses PredicateJson := λ ts,
  '(lhs, ts) ← parse_literal ts;
  match ts with
  | TOp op :: ts =>
      '(rhs, ts) ← parse_literal ts;
      Ok (if eval_const lhs op rhs then PAnd [] else POr [], ts)
  | _ => Err EExpectedOp
  end.

Section levels.
(** [parse_or], for what is nested in parentheses or in a subquery. *)
Context (parse_or : Parses PredicateJson).

(** The subquery arm, after [IN ( SELECT]. *)
Definition parse_subquery (col : str) (negated : bool) : Parses PredicateJson := λ ts,
  '(project, ts) ← parse_ident ts;
  '(_, ts) ← eat TFrom ts;
  '(raw, ts) ← parse_ident ts;
  if str_contains 46%N raw then Err (EQualifiedTable raw)
  else
    table ← map_err ETable (TableRef_parse raw);
    '(where_, ts) ← match ts with
                    | TWhere :: ts' => p ← parse_or ts'; Ok (Some p.1, p.2)
                    | _ => Ok (None, ts)
                    end;
    '(_, ts) ← eat TRParen ts;
    Ok (PIn col (mkSubquery table project where_) negated, ts).

(** The arms whose result the caller negates. *)
Definition parse_comparison (col : str) : Parses PredicateJson := λ ts,
  match ts with
  | TOp op :: ts =>
      '(value, ts) ← parse_literal ts;
      o ← leaf_op op;
      Ok (PLeaf col o value, ts)
  | TLike :: ts =>
      '(value, ts) ← parse_literal ts;
      Ok (PLeaf col OpLike value, ts)
  | TBetween :: ts =>
      '(lo, ts) ← parse_literal ts;
      '(_, ts) ← eat TAnd ts;
      '(hi, ts) ← parse_literal ts;
      Ok (PAnd [PLeaf col OpGte lo; PLeaf col OpLte hi], ts)
  | other => Err (EExpectedPredicate col (head other))
  end.
Definition parse_list (col : str) : Parses PredicateJson := λ ts,
  '(v, ts) ← parse_literal ts;
  '(vs, ts) ← more_literals ts;
  '(_, ts) ← eat TRParen ts;
  Ok (POr (map (PLeaf col OpEq) (v :: vs)), ts).

Definition negate (negated : bool) (p : PredicateJson) : PredicateJson :=
  if negated then PNot p else p.

(** [parse_predicate]. *)
Definition parse_predicate : Parses PredicateJson := λ ts,
  match ts with
  | t :: _ =>
      if is_literal t then parse_const ts
      else
        '(col, ts) ← parse_ident ts;
        let '(negated, ts) := match ts with TNot :: ts' => (true, ts') | _ => (false, ts) end in
        match ts with
        | TIs :: ts => parse_is col negated ts
        | TIn :: ts =>
            '(_, ts) ← eat TLParen ts;
            match ts with
            | TSelect :: ts => parse_subquery col negated ts
            | _ => '(p, ts) ← parse_list col ts; Ok (negate negated p, ts)
            end
        | _ => '(p, ts) ← parse_comparison col ts; Ok (negate negated p, ts)
        end
  | [] => Err (EExpectedIdent None)
  end.

(** [parse_primary], [parse_not]. *)
Definition parse_primary : Parses PredicateJson := λ ts,
  match ts with
  | TLParen :: ts =>
      '(e, ts) ← parse_or ts;
      '(_, ts) ← eat TRParen ts;
      Ok (e, ts)
  | _ => parse_predicate ts
  end.
Fixpoint parse_not (ts : list Tok) : res WhereError (PredicateJson * list Tok) :=
  match ts with
  | TNot :: ts' => '(inner, rest) ← parse_not ts'; Ok (PNot inner, rest)
  | _ => parse_primary ts
  end.
End levels.

(** [while peek() == sep { next(); parts.push(item()?) }]. *)
Fixpoint sep_rest (fuel : nat) (item : Parses PredicateJson) (sep : Tok) (ts : list Tok)
    : res WhereError (list PredicateJson * list Tok) :=
  match ts with
  | t :: ts' =>
      if decide (t = sep) then
        match fuel with
        | O => Err EFuel
        | S fuel =>
            '(p, ts) ← item ts';
            '(ps, ts) ← sep_rest fuel item sep ts;
            Ok (p :: ps, ts)
        end
      else Ok ([], ts)
  | [] => Ok ([], [])
  end.
Definition parse_sep (item : Parses PredicateJson) (sep : Tok)
    (wrap : list PredicateJson -> PredicateJson) : Parses PredicateJson := λ ts,
  '(p, rest) ← item ts;
  '(ps, rest) ← sep_rest (length ts) item sep rest;
  Ok (match ps with [] => p | _ => wrap (p :: ps) end, rest).

(** [parse_and], [parse_or]; the fuel bounds the nesting. *)
Definition parse_and (parse_or : Parses PredicateJson) : Parses PredicateJson :=
  parse_sep (parse_not parse_or) TAnd PAnd.
Fixpoint parse_or (fuel : nat) (ts : list Tok) : res WhereError (PredicateJson * list Tok) :=
  match fuel with
  | O => Err EFuel
  | S fuel => parse_sep (parse_and (parse_or fuel)) TOr POr ts
  end.

(** [parse_where_typed]. *)
Definition parse_where_typed `{CharClass} (sql : str) : res WhereError (option PredicateJson) :=
  let trimmed := trim sql in
  if decide (trimmed = [] \/ map to_ascii_lowercase trimmed = $"true") then Ok None
  else
    toks ← tokenize trimmed;
    '(pred, rest) ← parse_or (S (length toks)) toks;
    match rest with
    | [] => Ok (Some pred)
    | t :: _ => Err (ETrailing (length toks - length rest)%nat (Some t))
    end.
End parser.

(** [parse_where]. *)
Definition parse_where `{FloatText, CharClass} (sql : str) : res WhereError (option PredicateJson) :=
  parse_where_typed None sql.
