(* ===== verification/WhereFacts.v ===== *)
(** * The WHERE parser decides a grammar

    [says] is the grammar of a clause, with what each phrase means; the parser accepts its sentences
    and no others, reads each in one way, and always answers.  [print] and [render] write a
    predicate back as a clause. *)

From S2P Require Import Prelude BTree Value TableRef Schema Predicate WhereSql.
From stdpp Require Import base option numbers strings gmap fin_maps sorting list.
#[local] Open Scope Z_scope.

(* ------------------------------------------------------------------ *)
(** ** The grammar *)

Inductive cat : Type := GOr | GOrs | GAnd | GAnds | GNot | GPrim.

Definition maybe_not (negated : bool) : list Tok := if negated then [TNot] else [].
Definition collapse (wrap : list PredicateJson -> PredicateJson) (ps : list PredicateJson) : PredicateJson :=
  match ps with [p] => p | _ => wrap ps end.

Section grammar.
Context {FT : FloatText} (schema : option TableSchema).

Inductive literals : list Tok -> list json -> Prop :=
  | lits_one t v : token_literal t = Ok v -> literals [t] [v]
  | lits_more t v ts vs : token_literal t = Ok v -> literals ts vs -> literals (t :: TComma :: ts) (v :: vs).

Definition has_column (col : str) : Prop :=
  match schema with Some s => is_Some (ts_index s !! col) | None => True end.
(** The inner table of a subquery. *)
Definition names_table (raw : str) (table : TableRef) : Prop :=
  str_contains 46%N raw = false /\ TableRef_parse raw = Ok table.

Inductive says : cat -> list Tok -> list PredicateJson -> Prop :=
  | s_or ts ps : says GOrs ts ps -> says GOr ts [collapse POr ps]
  | s_or_one ts p : says GAnd ts [p] -> says GOrs ts [p]
  | s_or_more ts p ts' ps : says GAnd ts [p] -> says GOrs ts' ps -> says GOrs (ts ++ TOr :: ts') (p :: ps)
  | s_and ts ps : says GAnds ts ps -> says GAnd ts [collapse PAnd ps]
  | s_and_one ts p : says GNot ts [p] -> says GAnds ts [p]
  | s_and_more ts p ts' ps : says GNot ts [p] -> says GAnds ts' ps -> says GAnds (ts ++ TAnd :: ts') (p :: ps)
  | s_not ts p : says GNot ts [p] -> says GNot (TNot :: ts) [PNot p]
  | s_prim ts p : says GPrim ts [p] -> says GNot ts [p]
  | s_paren ts p : says GOr ts [p] -> says GPrim (TLParen :: ts ++ [TRParen]) [p]
  | s_const a v op b w : token_literal a = Ok v -> token_literal b = Ok w ->
      says GPrim [a; TOp op; b] [if eval_const v op w then PAnd [] else POr []]
  | s_is_null col is_not : has_column col ->
      says GPrim (TIdent col :: TIs :: maybe_not is_not ++ [TNull]) [PIsNull col (negb is_not)]
  | s_compare col neg op o t v : leaf_op op = Ok o -> token_literal t = Ok v ->
      says GPrim (TIdent col :: maybe_not neg ++ [TOp op; t]) [negate neg (PLeaf col o v)]
  | s_like col neg t v : token_literal t = Ok v ->
      says GPrim (TIdent col :: maybe_not neg ++ [TLike; t]) [negate neg (PLeaf col OpLike v)]
  | s_between col neg a lo b hi : token_literal a = Ok lo -> token_literal b = Ok hi ->
      says GPrim (TIdent col :: maybe_not neg ++ [TBetween; a; TAnd; b])
        [negate neg (PAnd [PLeaf col OpGte lo; PLeaf col OpLte hi])]
  | s_in_list col neg ts vs : literals ts vs ->
      says GPrim (TIdent col :: maybe_not neg ++ TIn :: TLParen :: ts ++ [TRParen])
        [negate neg (POr (map (PLeaf col OpEq) vs))]
  | s_in_table col neg project raw table : names_table raw table ->
      says GPrim (TIdent col :: maybe_not neg ++ [TIn; TLParen; TSelect; TIdent project; TFrom; TIdent raw; TRParen])
        [PIn col (mkSubquery table project None) neg]
  | s_in_query col neg project raw table ts w : names_table raw table -> says GOr ts [w] ->
      says GPrim (TIdent col :: maybe_not neg ++ TIn :: TLParen :: TSelect :: TIdent project :: TFrom ::
                  TIdent raw :: TWhere :: ts ++ [TRParen])
        [PIn col (mkSubquery table project (Some w)) neg].

Lemma says_nonempty c ts ps : says c ts ps -> ts <> [].
Proof. induction 1; try done; by destruct ts. Qed.

(* ------------------------------------------------------------------ *)
(** ** What the parser accepts is a sentence *)

Definition takes {A} (f : Parses A) (G : list Tok -> A -> Prop) : Prop :=
  forall ts a rest, f ts = Ok (a, rest) -> exists used, ts = used ++ rest /\ G used a.

Ltac bind_inv := repeat
  match goal with
  | H : (_ ≫= _) = Ok _ |- _ => apply res_bind_ok in H as ([? ?] & ? & H); simpl in H
  | H : Ok _ = Ok _ |- _ => injection H; clear H; intros; subst
  | H : Err _ = Ok _ |- _ => discriminate H
  end.

Lemma eat_takes t ts u rest : eat t ts = Ok (u, rest) -> ts = t :: rest.
Proof. destruct ts as [|got ts]; [done|]. simpl. case_decide; [|done]. intros [= _ <-]. by subst. Qed.

Lemma ident_takes ts s rest : parse_ident ts = Ok (s, rest) -> ts = TIdent s :: rest.
Proof. destruct ts as [|[] ts]; try done. by intros [= <- <-]. Qed.

Lemma literal_takes ts v rest : parse_literal ts = Ok (v, rest) -> exists t, ts = t :: rest /\ token_literal t = Ok v.
Proof.
  destruct ts as [|t ts]; [done|]. simpl. intros (v' & Hv & [= -> ->])%res_bind_ok. by exists t.
Qed.

Lemma literal_is t v : token_literal t = Ok v -> is_literal t = true.
Proof. by destruct t. Qed.

Lemma more_literals_take ts vs rest t v : token_literal t = Ok v -> more_literals ts = Ok (vs, rest) ->
  exists used, ts = used ++ rest /\ literals (t :: used) (v :: vs).
Proof.
  remember (length ts) as n eqn:Hn. revert ts vs t v Hn.
  induction (lt_wf n) as [n _ IH]; intros ts vs t v -> Ht.
  destruct ts as [|t1 ts]; [intros [= <- <-]; exists []; split; [done|by constructor]|].
  destruct t1; try (intros [= <- <-]; exists []; split; [done|by constructor]).
  destruct ts as [|t2 ts]; [done|]. simpl. intros (v2 & H2 & ([vs' rest'] & Hm & [= <- <-])%res_bind_ok)%res_bind_ok.
  destruct (IH (length ts) ltac:(simpl; lia) ts vs' t2 v2 eq_refl H2 Hm) as (used & -> & Hl).
  exists (TComma :: t2 :: used). split; [done|]. by constructor.
Qed.

Lemma parse_is_takes col neg ts p rest : parse_is schema col neg ts = Ok (p, rest) ->
  neg = false /\ exists is_not, ts = maybe_not is_not ++ TNull :: rest /\ has_column col /\ p = PIsNull col (negb is_not).
Proof.
  unfold parse_is. set (m := match ts with TNot :: ts' => (true, ts') | _ => (false, ts) end).
  assert (Hm : ts = maybe_not m.1 ++ m.2) by (unfold m; by destruct ts as [|[]]).
  destruct m as [is_not ts1]. simpl in *. intros ([u ts2] & He%eat_takes & H)%res_bind_ok. subst ts1.
  destruct neg; [done|]. split; [done|]. exists is_not. unfold has_column. destruct schema as [s|].
  - apply res_bind_ok in H as (i & Hi & [= <- <-]). unfold column_index in Hi. by destruct (ts_index s !! col).
  - by injection H as <- <-.
Qed.

Lemma parse_const_takes ts p rest : parse_const ts = Ok (p, rest) -> exists used, ts = used ++ rest /\ says GPrim used [p].
Proof.
  unfold parse_const. intros ([v ts1] & (a & -> & Ha)%literal_takes & H)%res_bind_ok.
  destruct ts1 as [|[] ts1]; try done. apply res_bind_ok in H as ([w ts2] & (b & -> & Hb)%literal_takes & [= <- <-]).
  eexists [a; TOp _; b]. split; [done|by constructor].
Qed.

Lemma parse_comparison_takes col neg ts p rest : parse_comparison col ts = Ok (p, rest) ->
  exists used, ts = used ++ rest /\ says GPrim (TIdent col :: maybe_not neg ++ used) [negate neg p].
Proof.
  destruct ts as [|[] ts]; try done; simpl.
  - intros ([v ts1] & (t & -> & Ht)%literal_takes & (o & Ho & [= <- <-])%res_bind_ok)%res_bind_ok.
    eexists [_; t]. split; [done|by constructor].
  - intros ([v ts1] & (t & -> & Ht)%literal_takes & [= <- <-])%res_bind_ok.
    exists [TLike; t]. split; [done|by constructor].
  - intros ([v ts1] & (a & -> & Ha)%literal_takes & H)%res_bind_ok.
    apply res_bind_ok in H as ([u ts2] & ->%eat_takes & H).
    apply res_bind_ok in H as ([w ts3] & (b & -> & Hb)%literal_takes & [= <- <-]).
    exists [TBetween; a; TAnd; b]. split; [done|by constructor].
Qed.

Lemma parse_list_takes col ts p rest : parse_list col ts = Ok (p, rest) ->
  exists used vs, ts = used ++ TRParen :: rest /\ literals used vs /\ p = POr (map (PLeaf col OpEq) vs).
Proof.
  unfold parse_list. intros ([v ts1] & (t & -> & Ht)%literal_takes & H)%res_bind_ok.
  apply res_bind_ok in H as ([vs ts2] & (used & -> & Hl)%(more_literals_take _ _ _ t v Ht) & H).
  apply res_bind_ok in H as ([u ts3] & ->%eat_takes & [= <- <-]). by exists (t :: used), (v :: vs).
Qed.

Section levels.
Context (expr : Parses PredicateJson) (expr_takes : takes expr (λ ts p, says GOr ts [p])).

Lemma parse_subquery_takes col neg ts p rest : parse_subquery expr col neg ts = Ok (p, rest) ->
  exists used, ts = used ++ rest /\ says GPrim (TIdent col :: maybe_not neg ++ TIn :: TLParen :: TSelect :: used) [p].
Proof.
  unfold parse_subquery. intros ([project ts1] & ->%ident_takes & H)%res_bind_ok.
  apply res_bind_ok in H as ([u ts2] & ->%eat_takes & H). apply res_bind_ok in H as ([raw ts3] & ->%ident_takes & H).
  simpl in H. destruct (str_contains 46 raw) eqn:Hd; [done|].
  apply res_bind_ok in H as (table & Ht & H).
  assert (Hn : names_table raw table) by (split; [done|]; destruct (TableRef_parse raw); [by injection Ht as ->|done]).
  apply res_bind_ok in H as ([w ts4] & Hw & H). apply res_bind_ok in H as ([u' ts5] & ->%eat_takes & [= <- <-]).
  assert (Hnone : match ts3 with TWhere :: _ => False | _ => True end -> w = None /\ ts3 = TRParen :: ts5).
  { intros Hh. by destruct ts3 as [|[] ?]; try done; injection Hw as <- ->. }
  destruct ts3 as [|t3 ts3]; [destruct (Hnone I) as [_ ?]; done|].
  destruct (decide (t3 = TWhere)) as [->|Hne].
  - apply res_bind_ok in Hw as ([q ts6] & (used & -> & Hs)%expr_takes & [= <- ->]).
    exists (TIdent project :: TFrom :: TIdent raw :: TWhere :: used ++ [TRParen]).
    split; [by rewrite <- !app_comm_cons, <- app_assoc|by apply s_in_query].
  - destruct (Hnone ltac:(by destruct t3)) as [-> [= -> ->]].
    exists [TIdent project; TFrom; TIdent raw; TRParen]. split; [done|by apply s_in_table].
Qed.

Lemma parse_predicate_takes : takes (parse_predicate schema expr) (λ ts p, says GPrim ts [p]).
Proof.
  intros [|t ts] p rest; [done|]. unfold parse_predicate. destruct (is_literal t); [apply parse_const_takes|].
  intros ([col ts1] & E%ident_takes & H)%res_bind_ok. injection E as -> ->.
  set (m := match ts1 with TNot :: ts' => (true, ts') | _ => (false, ts1) end) in H.
  assert (Hm : ts1 = maybe_not m.1 ++ m.2) by (unfold m; by destruct ts1 as [|[]]). rewrite Hm. clear Hm.
  destruct m as [neg ts2]. simpl in *.
  assert (Hcmp : (parse_comparison col ts2 ≫= λ '(p, ts), Ok (negate neg p, ts)) = Ok (p, rest) ->
            exists used, TIdent col :: maybe_not neg ++ ts2 = used ++ rest /\ says GPrim used [p]).
  { intros ([q ts3] & (used & -> & Hs)%(parse_comparison_takes col neg) & [= <- <-])%res_bind_ok.
    exists (TIdent col :: maybe_not neg ++ used). by rewrite <- !app_comm_cons, <- app_assoc. }
  destruct ts2 as [|[] ts2]; try (by apply Hcmp).
  - clear Hcmp. apply res_bind_ok in H as ([u ts3] & ->%eat_takes & H).
    assert (Hlist : (parse_list col ts3 ≫= λ '(p, ts), Ok (negate neg p, ts)) = Ok (p, rest) ->
              exists used, TIdent col :: maybe_not neg ++ TIn :: TLParen :: ts3 = used ++ rest /\ says GPrim used [p]).
    { intros ([q ts4] & (used & vs & -> & Hl & ->)%parse_list_takes & [= <- <-])%res_bind_ok.
      exists (TIdent col :: maybe_not neg ++ TIn :: TLParen :: used ++ [TRParen]). split; [|by apply s_in_list].
      simpl. rewrite <- !app_assoc. simpl. by rewrite <- app_assoc. }
    destruct ts3 as [|[] ts3]; try (by apply Hlist).
    apply parse_subquery_takes in H as (used & -> & Hs).
    exists (TIdent col :: maybe_not neg ++ TIn :: TLParen :: TSelect :: used). split; [|done].
    simpl. by rewrite <- app_assoc.
  - apply parse_is_takes in H as (-> & is_not & -> & Hc & ->).
    exists (TIdent col :: TIs :: maybe_not is_not ++ [TNull]). split; [simpl; by rewrite <- app_assoc|by constructor].
Qed.

Lemma parse_primary_takes : takes (parse_primary schema expr) (λ ts p, says GPrim ts [p]).
Proof.
  intros ts p rest H.
  assert (Hp : parse_predicate schema expr ts = Ok (p, rest) -> exists used, ts = used ++ rest /\ says GPrim used [p])
    by apply parse_predicate_takes.
  destruct ts as [|[] ts]; try (by apply Hp). clear Hp. simpl in H.
  apply res_bind_ok in H as ([q ts1] & (used & -> & Hs)%expr_takes & H).
  apply res_bind_ok in H as ([u ts2] & ->%eat_takes & [= <- <-]).
  exists (TLParen :: used ++ [TRParen]). split; [simpl; by rewrite <- app_assoc|by constructor].
Qed.

Lemma parse_not_takes : takes (parse_not schema expr) (λ ts p, says GNot ts [p]).
Proof.
  intros ts. induction ts as [|t ts IH]; intros p rest H.
  - apply (parse_primary_takes []) in H as (used & -> & Hs). exists used. split; [done|by constructor].
  - assert (Hp : parse_primary schema expr (t :: ts) = Ok (p, rest) -> exists used, t :: ts = used ++ rest /\ says GNot used [p]).
    { intros (used & E & Hs)%parse_primary_takes. exists used. split; [done|by constructor]. }
    destruct t; try (by apply Hp). clear Hp. simpl in H.
    apply res_bind_ok in H as ([q ts1] & (used & -> & Hs)%IH & [= <- <-]).
    exists (TNot :: used). split; [done|by constructor].
Qed.
End levels.

(** A level of the grammar over the one below it. *)
Section separated.
Context (item : Parses PredicateJson) (sep : Tok) (wrap : list PredicateJson -> PredicateJson) (c cs c' : cat).
Context (one : forall ts p, says c ts [p] -> says cs ts [p]).
Context (more : forall ts p ts' ps, says c ts [p] -> says cs ts' ps -> says cs (ts ++ sep :: ts') (p :: ps)).
Context (close : forall ts ps, says cs ts ps -> says c' ts [collapse wrap ps]).
Context (item_takes : takes item (λ ts p, says c ts [p])).

Lemma sep_rest_takes fuel ts ps rest used p : says c used [p] -> sep_rest fuel item sep ts = Ok (ps, rest) ->
  exists used', ts = used' ++ rest /\ says cs (used ++ used') (p :: ps).
Proof.
  assert (Hstop : forall ts used p, says c used [p] -> exists used', ts = used' ++ ts /\ says cs (used ++ used') [p]).
  { intros l u q Hu. exists []. split; [done|]. rewrite app_nil_r. by apply one. }
  revert ts ps rest used p. induction fuel as [|fuel IH]; intros ts ps rest used p Hp; destruct ts as [|t ts]; cbn [sep_rest];
    try (intros [= <- <-]; by apply Hstop).
  - case_decide; [done|]. intros [= <- <-]. by apply Hstop.
  - case_decide as Ht.
    + subst t. intros ([q ts1] & (used1 & -> & Hq)%item_takes & H)%res_bind_ok.
      apply res_bind_ok in H as ([ps' ts2] & (used2 & -> & Hs)%(IH _ _ _ _ _ Hq) & [= <- <-]).
      exists (sep :: used1 ++ used2). split; [by rewrite <- app_comm_cons, app_assoc|by apply more].
    + intros [= <- <-]. by apply Hstop.
Qed.

Lemma parse_sep_takes : takes (parse_sep item sep wrap) (λ ts p, says c' ts [p]).
Proof.
  intros ts p rest. unfold parse_sep. intros ([q ts1] & (used & -> & Hq)%item_takes & H)%res_bind_ok.
  apply res_bind_ok in H as ([ps ts2] & (used' & -> & Hs)%(sep_rest_takes _ _ _ _ _ _ Hq) & [= <- <-]).
  exists (used ++ used'). split; [by rewrite app_assoc|]. destruct ps; by apply close in Hs.
Qed.
End separated.

Lemma parse_or_takes fuel : takes (parse_or schema fuel) (λ ts p, says GOr ts [p]).
Proof.
  induction fuel as [|fuel IH]; [done|]. intros ts p rest. simpl.
  apply (parse_sep_takes _ _ _ GAnd GOrs GOr); [apply s_or_one|apply s_or_more|apply s_or|].
  apply (parse_sep_takes _ _ _ GNot GAnds GAnd); [apply s_and_one|apply s_and_more|apply s_and|].
  by apply parse_not_takes.
Qed.

(* ------------------------------------------------------------------ *)
(** ** Every sentence is accepted *)

(** What may not follow a phrase of a level: a separator that would go on with it. *)
Definition ends (seps : list Tok) (rest : list Tok) : Prop := match rest with t :: _ => t ∉ seps | [] => True end.

Lemma more_literals_give vs used rest : literals used vs -> forall t, t <> TComma ->
  exists u us v vs', used = u :: us /\ vs = v :: vs' /\ token_literal u = Ok v /\
    more_literals (us ++ t :: rest) = Ok (vs', t :: rest).
Proof.
  intros Hl t Ht. induction Hl as [u v Hu|u v us vs Hu _ (u' & us' & v' & vs' & -> & -> & Hu' & IH)].
  - exists u, [], v, []. split_and!; try done. by destruct t.
  - exists u, (TComma :: u' :: us'), v, (v' :: vs'). split_and!; try done. cbn [app more_literals]. rewrite Hu'. simpl. by rewrite IH.
Qed.

Lemma leaf_op_const ts : match ts with TNot :: _ => False | _ => True end ->
  match ts with TNot :: ts' => (true, ts') | _ => (false, ts) end = (false, ts).
Proof. by destruct ts as [|[]]. Qed.

Lemma maybe_not_split neg ts : match ts with TNot :: _ => False | _ => True end ->
  match maybe_not neg ++ ts with TNot :: ts' => (true, ts') | _ => (false, maybe_not neg ++ ts) end = (neg, ts).
Proof. destruct neg; [done|apply leaf_op_const]. Qed.

Lemma literal_give t v ts : token_literal t = Ok v -> parse_literal (t :: ts) = Ok (v, ts).
Proof. intros H. simpl. by rewrite H. Qed.

Lemma eat_give t ts : eat t (t :: ts) = Ok (tt, ts).
Proof. simpl. by rewrite decide_True. Qed.

Lemma parse_or_S fuel ts : parse_or schema (S fuel) ts = parse_sep (parse_and schema (parse_or schema fuel)) TOr POr ts.
Proof. done. Qed.

(** What each level gives back for its sentences, with enough fuel for those nested in them. *)
Definition given (c : cat) (ts : list Tok) (ps : list PredicateJson) : Prop :=
  forall fuel rest, (length ts <= fuel)%nat ->
  let item := parse_not schema (parse_or schema fuel) in
  let level := parse_and schema (parse_or schema fuel) in
  match c with
  | GPrim => exists p, ps = [p] /\ parse_primary schema (parse_or schema fuel) (ts ++ rest) = Ok (p, rest) /\
             match ts with TNot :: _ => False | _ => True end
  | GNot => exists p, ps = [p] /\ item (ts ++ rest) = Ok (p, rest)
  | GAnds => ends [TAnd] rest -> exists p ps' mid, ps = p :: ps' /\ item (ts ++ rest) = Ok (p, mid) /\
             forall n, (length mid <= n)%nat -> sep_rest n item TAnd mid = Ok (ps', rest)
  | GAnd => ends [TAnd] rest -> exists p, ps = [p] /\ level (ts ++ rest) = Ok (p, rest)
  | GOrs => ends [TAnd; TOr] rest -> exists p ps' mid, ps = p :: ps' /\ level (ts ++ rest) = Ok (p, mid) /\
             forall n, (length mid <= n)%nat -> sep_rest n level TOr mid = Ok (ps', rest)
  | GOr => ends [TAnd; TOr] rest -> exists p, ps = [p] /\ parse_or schema (S fuel) (ts ++ rest) = Ok (p, rest)
  end.

Lemma sep_rest_stops n item sep rest : ends [sep] rest -> sep_rest n item sep rest = Ok ([], rest).
Proof.
  destruct rest as [|t rest]; [by destruct n|]. intros H. cbn [ends] in H.
  destruct n; cbn [sep_rest]; rewrite decide_False; try done; intros ->; apply H; by left.
Qed.

Lemma takes_shorter {A} (f : Parses A) G ts a rest : takes f G -> (forall u a, G u a -> u <> []) ->
  f ts = Ok (a, rest) -> (length rest < length ts)%nat.
Proof.
  intros Ht Hne (used & -> & Hg)%Ht. apply Hne in Hg. rewrite length_app. destruct used; [done|simpl; lia].
Qed.

Lemma parse_sep_give item sep wrap p ps ts mid rest : item ts = Ok (p, mid) -> (length mid < length ts)%nat ->
  (forall n, (length mid <= n)%nat -> sep_rest n item sep mid = Ok (ps, rest)) ->
  parse_sep item sep wrap ts = Ok (collapse wrap (p :: ps), rest).
Proof. intros Hi Hl Hs. unfold parse_sep. rewrite Hi. simpl. rewrite Hs by lia. simpl. by destruct ps. Qed.

Lemma not_shorter fuel ts p rest : parse_not schema (parse_or schema fuel) ts = Ok (p, rest) -> (length rest < length ts)%nat.
Proof.
  apply (takes_shorter _ (λ ts p, says GNot ts [p])); [by apply parse_not_takes, parse_or_takes|].
  intros u a. by apply says_nonempty.
Qed.
Lemma and_takes fuel : takes (parse_and schema (parse_or schema fuel)) (λ ts p, says GAnd ts [p]).
Proof.
  apply (parse_sep_takes _ _ _ GNot GAnds GAnd); [apply s_and_one|apply s_and_more|apply s_and|].
  by apply parse_not_takes, parse_or_takes.
Qed.
Lemma and_shorter fuel ts p rest : parse_and schema (parse_or schema fuel) ts = Ok (p, rest) -> (length rest < length ts)%nat.
Proof.
  apply (takes_shorter _ (λ ts p, says GAnd ts [p])); [apply and_takes|]. intros u a. by apply says_nonempty.
Qed.

Lemma primary_is_predicate expr ts : match ts with TLParen :: _ => False | _ => True end ->
  parse_primary schema expr ts = parse_predicate schema expr ts.
Proof. by destruct ts as [|[]]. Qed.

Lemma predicate_of_column expr col neg ts : match ts with TNot :: _ => False | _ => True end ->
  parse_predicate schema expr (TIdent col :: maybe_not neg ++ ts) =
  match ts with
  | TIs :: ts => parse_is schema col neg ts
  | TIn :: ts =>
      '(_, ts) ← eat TLParen ts;
      match ts with
      | TSelect :: ts => parse_subquery expr col neg ts
      | _ => '(p, ts) ← parse_list col ts; Ok (negate neg p, ts)
      end
  | _ => '(p, ts) ← parse_comparison col ts; Ok (negate neg p, ts)
  end.
Proof. intros H. unfold parse_predicate. simpl. by rewrite maybe_not_split. Qed.

Lemma literals_head ts vs : literals ts vs -> exists t ts' v vs', ts = t :: ts' /\ vs = v :: vs' /\ token_literal t = Ok v.
Proof. destruct 1; by repeat eexists. Qed.

Lemma given_list col neg ts vs : literals ts vs ->
  given GPrim (TIdent col :: maybe_not neg ++ TIn :: TLParen :: ts ++ [TRParen]) [negate neg (POr (map (PLeaf col OpEq) vs))].
Proof.
  intros Hl fuel rest Hn. cbn [app]. eexists. split_and!; [done| |done].
  rewrite <- app_assoc, <- !app_comm_cons, <- app_assoc, primary_is_predicate, predicate_of_column by done.
  rewrite eat_give. simpl.
  destruct (more_literals_give _ _ rest Hl TRParen ltac:(done)) as (u & us & v & vs' & -> & -> & Hu & Hm).
  assert (Hp : parse_list col (u :: us ++ TRParen :: rest) = Ok (POr (map (PLeaf col OpEq) (v :: vs')), rest)).
  { unfold parse_list. rewrite (literal_give _ _ _ Hu). simpl. rewrite Hm. simpl. done. }
  simpl. by destruct u; try done; rewrite Hp.
Qed.

Lemma subquery_give fuel col neg project raw table (q : option PredicateJson) ts rest : names_table raw table ->
  match q with
  | Some w => (forall rest, ends [TAnd; TOr] rest -> parse_or schema fuel (ts ++ rest) = Ok (w, rest))
  | None => True
  end ->
  parse_subquery (parse_or schema fuel) col neg
    (TIdent project :: TFrom :: TIdent raw :: match q with Some _ => TWhere :: ts | None => [] end ++ TRParen :: rest) =
  Ok (PIn col (mkSubquery table project q) neg, rest).
Proof.
  intros [Hd Ht] Hq. unfold parse_subquery. simpl. rewrite Hd, Ht. simpl. destruct q as [w|]; simpl; [|done].
  rewrite Hq; [done|]. by intros [?|[?|?%not_elem_of_nil]%elem_of_cons]%elem_of_cons.
Qed.

Lemma says_given c ts ps : says c ts ps -> given c ts ps.
Proof.
  induction 1 as [ts ps H IH|ts p H IH|ts p ts' ps H IH H' IH'|ts ps H IH|ts p H IH|ts p ts' ps H IH H' IH'
    |ts p H IH|ts p H IH|ts p H IH|a v op b w Ha Hb|col is_not Hc|col neg op o t v Ho Ht|col neg t v Ht
    |col neg a lo b hi Ha Hb|col neg ts vs Hl|col neg project raw table Hn|col neg project raw table ts w Hn H IH].
  - intros fuel rest Hf. cbv beta iota zeta. intros Hr. destruct (IH fuel rest Hf Hr) as (p & ps' & mid & -> & Hi & Hs).
    eexists. split; [done|]. rewrite parse_or_S. by apply (parse_sep_give _ _ _ _ _ _ _ _ Hi (and_shorter _ _ _ _ Hi)).
  - intros fuel rest Hf. simpl. intros Hr.
    destruct (IH fuel rest Hf) as (p' & [= <-] & Hi); [destruct rest; [done|]; intros ?; apply Hr; set_solver|].
    exists p, [], rest. split_and!; [done..|]. intros n _. apply sep_rest_stops. destruct rest; [done|]. intros ?; apply Hr; set_solver.
  - intros fuel rest Hf. rewrite length_app in Hf. simpl in Hf. simpl. intros Hr.
    destruct (IH fuel (TOr :: ts' ++ rest) ltac:(lia)) as (p' & [= <-] & Hi); [simpl; set_solver|].
    destruct (IH' fuel rest ltac:(lia) Hr) as (q & qs & mid & -> & Hq & Hs).
    exists p, (q :: qs), (TOr :: ts' ++ rest). split_and!; [done|by rewrite <- app_assoc|].
    intros [|n]; simpl length; [lia|]. intros Hlen. cbn [sep_rest]. rewrite decide_True, Hq by done. simpl.
    rewrite Hs; [done|]. apply and_shorter in Hq. lia.
  - intros fuel rest Hf. simpl. intros Hr. destruct (IH fuel rest Hf Hr) as (p & ps' & mid & -> & Hi & Hs).
    eexists. split; [done|]. by apply (parse_sep_give _ _ _ _ _ _ _ _ Hi (not_shorter _ _ _ _ Hi)).
  - intros fuel rest Hf. simpl. intros Hr. destruct (IH fuel rest Hf) as (p' & [= <-] & Hi).
    exists p, [], rest. split_and!; [done..|]. intros n _. by apply sep_rest_stops.
  - intros fuel rest Hf. rewrite length_app in Hf. simpl in Hf. simpl. intros Hr.
    destruct (IH fuel (TAnd :: ts' ++ rest) ltac:(lia)) as (p' & [= <-] & Hi).
    destruct (IH' fuel rest ltac:(lia) Hr) as (q & qs & mid & -> & Hq & Hs).
    exists p, (q :: qs), (TAnd :: ts' ++ rest). split_and!; [done|by rewrite <- app_assoc|].
    intros [|n]; simpl length; [lia|]. intros Hlen. cbn [sep_rest]. rewrite decide_True, Hq by done. simpl.
    rewrite Hs; [done|]. apply not_shorter in Hq. lia.
  - intros fuel rest Hf. simpl in *. destruct (IH fuel rest ltac:(lia)) as (p' & [= <-] & Hi).
    eexists. split; [done|]. by rewrite Hi.
  - intros fuel rest Hf. simpl. destruct (IH fuel rest Hf) as (p' & [= <-] & Hi & Hh). exists p. split; [done|].
    assert (E : forall l, match l with TNot :: _ => False | _ => True end -> parse_not schema (parse_or schema fuel) l =
      parse_primary schema (parse_or schema fuel) l) by (by intros [|[]]).
    rewrite E, Hi; [done|]. apply says_nonempty in H. by destruct ts.
  - intros fuel rest Hf. simpl in Hf. rewrite length_app in Hf. simpl in Hf. destruct fuel as [|fuel]; [lia|].
    simpl. destruct (IH fuel (TRParen :: rest) ltac:(lia)) as (p' & [= <-] & Hi).
    { by intros [?|[?|?%not_elem_of_nil]%elem_of_cons]%elem_of_cons. }
    exists p. split_and!; [done| |done]. rewrite <- app_assoc. simpl in Hi. simpl. by rewrite Hi.
  - intros fuel rest _. cbn [app]. eexists. split_and!; [done| |by destruct a]. rewrite primary_is_predicate by (by destruct a).
    unfold parse_predicate. rewrite (literal_is _ _ Ha). unfold parse_const. rewrite (literal_give _ _ _ Ha). simpl.
    by rewrite Hb.
  - intros fuel rest _. cbn [app]. eexists. split_and!; [done| |done].
    pose proof (predicate_of_column (parse_or schema fuel) col false (TIs :: (maybe_not is_not ++ [TNull]) ++ rest) I) as E.
    cbn [maybe_not app] in E. rewrite primary_is_predicate, E by done. unfold parse_is.
    rewrite <- app_assoc, maybe_not_split by done. simpl. unfold has_column in Hc. unfold column_index.
    destruct schema as [s|]; [|done]. by destruct Hc as [i ->].
  - intros fuel rest _. cbn [app]. eexists. split_and!; [done| |done].
    rewrite <- app_assoc, primary_is_predicate, predicate_of_column by done. simpl. rewrite Ht. simpl. by rewrite Ho.
  - intros fuel rest _. cbn [app]. eexists. split_and!; [done| |done].
    rewrite <- app_assoc, primary_is_predicate, predicate_of_column by done. simpl. by rewrite Ht.
  - intros fuel rest _. cbn [app]. eexists. split_and!; [done| |done].
    rewrite <- app_assoc, primary_is_predicate, predicate_of_column by done. simpl. rewrite Ha. simpl. by rewrite Hb.
  - by apply given_list.
  - intros fuel rest _. cbn [app]. eexists. split_and!; [done| |done].
    rewrite <- app_assoc, primary_is_predicate, predicate_of_column by done. cbn [app]. rewrite eat_give. simpl.
    exact (subquery_give fuel col neg project raw table None [] rest Hn I).
  - intros fuel rest Hf. cbn [app]. eexists. split_and!; [done| |done].
    rewrite <- app_assoc, <- !app_comm_cons, <- app_assoc, primary_is_predicate, predicate_of_column by done. rewrite eat_give. simpl.
    apply (subquery_give fuel col neg project raw table (Some w) ts rest Hn).
    simpl in Hf. rewrite length_app in Hf. simpl in Hf. rewrite length_app in Hf. simpl in Hf.
    destruct fuel as [|fuel]; [lia|]. intros rest' Hr. by destruct (IH fuel rest' ltac:(lia) Hr) as (p' & [= <-] & Hi).
Qed.

(* ------------------------------------------------------------------ *)
(** ** The parser answers *)

Definition answers_all {A} (r : res WhereError A) : Prop := r <> Err EFuel.

Lemma answers_bind {A B} (r : res WhereError A) (f : A -> res WhereError B) :
  answers_all r -> (forall a, r = Ok a -> answers_all (f a)) -> answers_all (r ≫= f).
Proof. unfold answers_all. destruct r; simpl; [eauto|by intros ? _ [= ->]]. Qed.

Ltac answer := repeat
  match goal with
  | |- answers_all (Ok _) => discriminate
  | |- answers_all (Err _) => discriminate
  | |- answers_all (_ ≫= _) => apply answers_bind; [|intros [? ?] ?]
  | |- answers_all (match ?x with _ => _ end) => destruct x
  end.

Lemma num_literal_answers n : answers_all (num_literal n).
Proof.
  unfold num_literal.
  assert (H : answers_all (f ← ok_or (EInvalidNumber n) (f64_parse n);
                           if f64_is_finite f then Ok (JNumber (NFloat f)) else Err (ENumberRange n))).
  { apply answers_bind; [by destruct (f64_parse n)|]. intros a _. by destruct (f64_is_finite a). }
  by repeat (match goal with |- context [if ?b then _ else _] => destruct b | |- context [match ?b with Some _ => _ | None => _ end] => destruct b end).
Qed.

Lemma literal_answers ts : answers_all (parse_literal ts).
Proof.
  destruct ts as [|t ts]; [done|]. apply answers_bind; [|intros a _; done]. destruct t; try done. apply num_literal_answers.
Qed.
Lemma more_literals_answer ts : answers_all (more_literals ts).
Proof.
  remember (length ts) as n eqn:Hn. revert ts Hn. induction (lt_wf n) as [n _ IH]; intros ts ->.
  destruct ts as [|[] ts]; try done. destruct ts as [|t ts]; [done|]. simpl.
  apply answers_bind; [destruct t; try done; apply num_literal_answers|]. intros v _.
  apply answers_bind; [by apply (IH (length ts)); [simpl; lia|]|]. by intros q _.
Qed.
Lemma eat_answers t ts : answers_all (eat t ts).
Proof. destruct ts; simpl; [done|]. by case_decide. Qed.
Lemma ident_answers ts : answers_all (parse_ident ts).
Proof. by destruct ts as [|[]]. Qed.
#[local] Hint Resolve literal_answers more_literals_answer eat_answers ident_answers : core.

Lemma comparison_answers col ts : answers_all (parse_comparison col ts).
Proof.
  destruct ts as [|[] ts]; try done; simpl; answer; auto.
  apply answers_bind; [|by intros]. unfold leaf_op. by repeat case_decide.
Qed.
Lemma list_answers col ts : answers_all (parse_list col ts).
Proof. unfold parse_list. answer; auto. Qed.
Lemma is_answers col neg ts : answers_all (parse_is schema col neg ts).
Proof.
  unfold parse_is. destruct (match ts with TNot :: ts' => (true, ts') | _ => (false, ts) end). answer; auto.
  apply answers_bind; [|by intros]. unfold column_index. by destruct (_ !! _).
Qed.
#[local] Hint Resolve comparison_answers list_answers is_answers : core.

Section levels_answer.
Context (expr : Parses PredicateJson) (n : nat) (expr_answers : forall ts, (length ts < n)%nat -> answers_all (expr ts)).

Lemma subquery_answers col neg ts : (length ts < n)%nat -> answers_all (parse_subquery expr col neg ts).
Proof.
  intros Hn. unfold parse_subquery. apply answers_bind; [auto|]. intros [project ts1] ->%ident_takes.
  apply answers_bind; [auto|]. intros [u ts2] ->%eat_takes. apply answers_bind; [auto|]. intros [raw ts3] ->%ident_takes.
  simpl. destruct (str_contains 46 raw); [done|]. apply answers_bind; [by destruct (TableRef_parse raw)|]. intros table _.
  apply answers_bind; [|intros [w ts4] _; answer; auto]. simpl in Hn.
  destruct ts3 as [|[] ts3]; try done. apply answers_bind; [apply expr_answers; simpl in Hn; lia|by intros].
Qed.

Lemma predicate_answers ts : (length ts <= n)%nat -> answers_all (parse_predicate schema expr ts).
Proof.
  destruct ts as [|t ts]; [done|]. intros Hn. unfold parse_predicate. destruct (is_literal t).
  { unfold parse_const. apply answers_bind; [auto|]. intros [v [|[] ts1]] _; try done. answer; auto. }
  apply answers_bind; [auto|]. intros [col ts1] E%ident_takes. injection E as -> ->. simpl in Hn.
  set (m := match ts1 with TNot :: ts' => (true, ts') | _ => (false, ts1) end).
  assert (Hm : (length m.2 <= length ts1)%nat) by (subst m; destruct ts1 as [|[]]; simpl; lia).
  destruct m as [neg ts2]. simpl in Hm.
  assert (Hcmp : answers_all (parse_comparison col ts2 ≫= λ '(p, ts), Ok (negate neg p, ts))) by (answer; auto).
  destruct ts2 as [|[] ts2]; try exact Hcmp; [|auto].
  apply answers_bind; [auto|]. intros [u ts3] ->%eat_takes.
  assert (Hlist : answers_all (parse_list col ts3 ≫= λ '(p, ts), Ok (negate neg p, ts))) by (answer; auto).
  destruct ts3 as [|[] ts3]; try exact Hlist. apply subquery_answers. simpl in Hm. lia.
Qed.

Lemma not_answers ts : (length ts <= n)%nat -> answers_all (parse_not schema expr ts).
Proof.
  assert (Hprim : forall ts, (length ts <= n)%nat -> answers_all (parse_primary schema expr ts)).
  { intros l Hl. destruct l as [|t l]; [done|]. destruct t; try (by apply predicate_answers).
    simpl. apply answers_bind; [apply expr_answers; simpl in Hl; lia|]. intros [e l1] _. answer; auto. }
  induction ts as [|t ts IH]; intros Hn; [by apply Hprim|]. destruct t; try (by apply Hprim).
  simpl. apply answers_bind; [apply IH; simpl in Hn; lia|]. by intros [].
Qed.
End levels_answer.

Section separated_answers.
Context (item : Parses PredicateJson) (sep : Tok) (wrap : list PredicateJson -> PredicateJson) (n : nat).
Context (item_shorter : forall ts p rest, item ts = Ok (p, rest) -> (length rest < length ts)%nat).
Context (item_answers : forall ts, (length ts <= n)%nat -> answers_all (item ts)).

Lemma sep_rest_answers fuel ts : (length ts <= fuel)%nat -> (length ts <= n)%nat -> answers_all (sep_rest fuel item sep ts).
Proof.
  revert ts. induction fuel as [|fuel IH]; intros [|t ts]; cbn [sep_rest]; try done; [simpl; lia|].
  intros Hf Hn. simpl in Hf, Hn. case_decide; [|done].
  apply answers_bind; [apply item_answers; lia|]. intros [p ts1] Hi%item_shorter.
  apply answers_bind; [apply IH; lia|]. by intros [].
Qed.
Lemma sep_answers ts : (length ts <= n)%nat -> answers_all (parse_sep item sep wrap ts).
Proof.
  intros Hn. unfold parse_sep. apply answers_bind; [auto|]. intros [p rest] Hi%item_shorter.
  apply answers_bind; [apply sep_rest_answers; lia|]. by intros [].
Qed.
End separated_answers.

Lemma parse_or_answers fuel ts : (length ts < fuel)%nat -> answers_all (parse_or schema fuel ts).
Proof.
  revert ts. induction fuel as [|fuel IH]; intros ts Hf; [lia|]. rewrite parse_or_S.
  apply (sep_answers _ _ _ fuel); [apply and_shorter| |lia]. intros l Hl.
  apply (sep_answers _ _ _ fuel); [apply not_shorter| |done]. intros l' Hl'. by apply (not_answers _ fuel).
Qed.
End grammar.

Section tokens.
Context {FT : FloatText} {CC : CharClass}.

Lemma span_app f s : (span f s).1 ++ (span f s).2 = s.
Proof. induction s as [|c s IH]; simpl; [done|]. destruct (f c); simpl; by rewrite ?IH. Qed.

Lemma read_quoted_shorter q n s buf rest : (length s <= n)%nat -> read_quoted q s = Some (buf, rest) -> (length rest < length s)%nat.
Proof.
  revert s buf rest. induction n as [|n IH]; intros [|c s] buf rest Hn; simpl in *; try lia; try done.
  destruct (c =? q)%N.
  - destruct s as [|d s]; [intros [= <- <-]; simpl; lia|]. destruct (d =? q)%N; [|intros [= <- <-]; simpl; lia].
    intros ([b r] & H & [= <- <-])%bind_Some. simpl in *. apply IH in H; lia.
  - intros ([b r] & H & [= <- <-])%bind_Some. simpl. apply IH in H; lia.
Qed.

Lemma scan_mantissa_app b s : (scan_mantissa b s).1 ++ (scan_mantissa b s).2 = s.
Proof. revert b. induction s as [|c s IH]; intros b; simpl; [done|]. case_match; simpl; by rewrite ?IH. Qed.
Lemma scan_exponent_app s : (scan_exponent s).1 ++ (scan_exponent s).2 = s.
Proof.
  destruct s as [|c s]; [done|]. simpl. destruct (_ || _); [|done].
  assert (H : forall sign s2, sign ++ s2 = s ->
    (if digit_next s2 then (c :: sign ++ (span is_ascii_digit s2).1, (span is_ascii_digit s2).2) else ([], c :: s)).1 ++
    (if digit_next s2 then (c :: sign ++ (span is_ascii_digit s2).1, (span is_ascii_digit s2).2) else ([], c :: s)).2 = c :: s).
  { intros sign s2 <-. destruct (digit_next s2); [|done]. simpl. by rewrite <- app_assoc, span_app. }
  destruct s as [|d s]; [by apply (H [] [])|]. destruct (_ || _); [by apply (H [d] s)|by apply (H [] (d :: s))].
Qed.

(** A number takes a character when one starts there. *)
Lemma lex_number_splits s t rest : lex_number s = Ok (t, rest) -> exists buf, t = TNum buf /\ s = buf ++ rest.
Proof.
  unfold lex_number. destruct (match s with [] => ([], []) | c :: s' => if (c =? 45)%N then ([c], s') else ([], s) end) as [sign s1] eqn:E1.
  assert (H1 : sign ++ s1 = s) by (destruct s as [|c s]; [by injection E1 as <- <-|]; destruct (c =? 45)%N; by injection E1 as <- <-).
  pose proof (scan_mantissa_app false s1) as H2. destruct (scan_mantissa false s1) as [m s2].
  pose proof (scan_exponent_app s2) as H3. destruct (scan_exponent s2) as [e s3]. simpl in *.
  destruct (match s3 with [] => false | _ => _ end); [done|]. intros [= <- <-]. eexists. split; [done|].
  rewrite <- H1, <- H2, <- H3. by rewrite <- !app_assoc.
Qed.
Lemma lex_number_shorter c s t rest : starts_number c s = true -> lex_number (c :: s) = Ok (t, rest) -> (length rest < length (c :: s))%nat.
Proof.
  intros Hs H. destruct (lex_number_splits _ _ _ H) as (buf & -> & Hb). destruct buf as [|b buf].
  - exfalso. unfold lex_number, starts_number in *. destruct (c =? 45)%N eqn:E45.
    + destruct (scan_mantissa false s) as [m s2], (scan_exponent s2) as [e s3].
      destruct (match s3 with [] => false | _ => _ end); [done|]. by injection H.
    + assert (Hc : is_ascii_digit c || ((c =? 46)%N && negb false) = true).
      { destruct (is_ascii_digit c); [done|]. by destruct (c =? 46)%N. }
      cbn [scan_mantissa] in H. rewrite Hc in H. destruct (scan_mantissa (false || (c =? 46)%N) s) as [m s2]. simpl in H.
      destruct (scan_exponent s2) as [e s3]. destruct (match s3 with [] => false | _ => _ end); [done|]. by injection H.
  - rewrite Hb. rewrite length_app. simpl. lia.
Qed.

Lemma span_shorter f c s : f c = true -> (length (span f (c :: s)).2 < length (c :: s))%nat.
Proof.
  intros Hc. simpl. rewrite Hc. simpl. rewrite <- (span_app f s) at 2. rewrite length_app. lia.
Qed.

(** Every turn of the lexer takes a character. *)
Lemma lex_shorter c s o rest : lex c s = Ok (o, rest) -> (length rest < length (c :: s))%nat.
Proof.
  unfold lex. destruct (is_whitespace c); [intros [= _ <-]; simpl; lia|].
  destruct (c =? 39)%N.
  { destruct (read_quoted 39 s) as [[b r]|] eqn:E; [|done]. intros [= _ <-]. apply (read_quoted_shorter _ (length s)) in E; simpl; lia. }
  do 3 (match goal with |- context [if ?b then _ else _] => destruct b end; [intros [= _ <-]; simpl; lia|]).
  destruct (str_contains c _) eqn:Hop.
  { intros [= _ <-]. by apply (span_shorter (λ d, str_contains d $"=<>!")). }
  destruct (c =? 34)%N.
  { destruct (read_quoted 34 s) as [[b r]|] eqn:E; [|done]. intros [= _ <-]. apply (read_quoted_shorter _ (length s)) in E; simpl; lia. }
  destruct (starts_number c s) eqn:Hn.
  { intros ([t r] & H & [= _ <-])%res_bind_ok. by eapply lex_number_shorter. }
  destruct (is_alphabetic c || (c =? 95)%N) eqn:Ha; [|done]. intros [= _ <-].
  apply (span_shorter (λ d, is_alphanumeric d || (d =? 95)%N)). unfold is_alphanumeric. destruct (is_alphabetic c); [done|].
  simpl in *. by rewrite Ha, orb_true_r.
Qed.

Lemma lex_answers c s : answers_all (lex c s).
Proof.
  assert (Hn : answers_all (p ← lex_number (c :: s); Ok (Some p.1, p.2))).
  { apply answers_bind; [|by intros]. unfold lex_number. by repeat (case_match; try done). }
  unfold lex. by repeat (case_match; try done).
Qed.

Lemma tokenize_loop_answers fuel s : (length s <= fuel)%nat -> answers_all (tokenize_loop fuel s).
Proof.
  revert s. induction fuel as [|fuel IH]; intros [|c s]; simpl; try done; [lia|]. intros Hf.
  apply answers_bind; [apply lex_answers|]. intros [o rest] H%lex_shorter. simpl in *.
  apply answers_bind; [apply IH; lia|by intros].
Qed.

Lemma tokenize_fuel fuel s : (length s <= fuel)%nat -> tokenize_loop fuel s = tokenize s.
Proof.
  assert (H : forall f1 f2 s, (length s <= f1)%nat -> (length s <= f2)%nat -> tokenize_loop f1 s = tokenize_loop f2 s).
  { induction f1 as [|f1 IH]; intros f2 [|c l] H1 H2; simpl in *; try lia; [by destruct f2..|].
    destruct f2 as [|f2]; [lia|]. simpl. destruct (lex c l) as [[o rest]|e] eqn:E; [|done]. simpl.
    apply lex_shorter in E. simpl in E. by rewrite (IH f2 rest) by lia. }
  intros Hf. unfold tokenize. by apply H.
Qed.

(** The loop of [tokenize] without its fuel. *)
Lemma tokenize_cons c s : tokenize (c :: s) =
  step ← lex c s; toks ← tokenize step.2; Ok (option_list step.1 ++ toks).
Proof.
  unfold tokenize at 1. simpl. destruct (lex c s) as [[o rest]|e] eqn:E; [|done]. simpl. apply lex_shorter in E. simpl in E.
  rewrite tokenize_fuel; [done|lia].
Qed.

Lemma parse_where_total schema sql : answers_all (parse_where_typed schema sql).
Proof.
  unfold parse_where_typed. case_decide; [done|]. apply answers_bind; [by apply tokenize_loop_answers|]. intros toks _.
  apply answers_bind; [apply parse_or_answers; lia|]. intros [p [|t rest]] _; done.
Qed.

(** C25: a WHERE clause is read as the predicate p exactly when it is neither blank nor [true] and its
    tokens are a sentence of the grammar that means p, whatever the nesting; every sentence means one
    predicate; and the parser always answers. *)
Theorem parse_where_decides_grammar schema sql :
  (forall p, parse_where_typed schema sql = Ok (Some p) <->
     ~ (trim sql = [] \/ map to_ascii_lowercase (trim sql) = $"true") /\
     exists toks, tokenize (trim sql) = Ok toks /\ says schema GOr toks [p]) /\
  (forall toks p q, says schema GOr toks [p] -> says schema GOr toks [q] -> p = q) /\
  parse_where_typed schema sql <> Err EFuel.
Proof.
  assert (Hgive : forall toks p, says schema GOr toks [p] -> parse_or schema (S (length toks)) toks = Ok (p, [])).
  { intros toks p H%says_given. destruct (H (length toks) [] ltac:(done) I) as (p' & [= <-] & E). by rewrite app_nil_r in E. }
  split_and!; [|intros toks p q Hp%Hgive Hq%Hgive; rewrite Hp in Hq; by injection Hq|apply parse_where_total].
  intros p. unfold parse_where_typed. case_decide as Ht; [split; [done|by intros [? _]]|]. split.
  - intros (toks & Hk & ([q rest] & Hp & H)%res_bind_ok)%res_bind_ok. destruct rest; [|done]. injection H as ->.
    split; [done|]. exists toks. split; [done|]. apply parse_or_takes in Hp as (used & -> & Hs). by rewrite app_nil_r.
  - intros (_ & toks & -> & Hs). cbn [mbind res_bind]. by rewrite (Hgive _ _ Hs).
Qed.
End tokens.
