(* ===== verification/Params.v ===== *)
(** * Query parameters ([src/apps/engine/src/params.rs])

    The [params] of [GET /v1/shape]: what they are ([parse_params]) and how each [$N] of the WHERE
    clause is replaced by its value as a string literal ([substitute]), before the clause is lexed. *)

From S2P Require Import Prelude BTree Value Predicate WhereSql.
From stdpp Require Import base option numbers strings gmap fin_maps sorting list.
#[local] Open Scope Z_scope.

(** [serde_json::from_str] into a [Value]. *)
Class JsonParse := json_from_str : str -> option json.

Inductive ParamError : Type :=
  | EParamsJson
  | EParamsObject
  | EParamKey
  | EParamSequence
  | EParamMissing (num : str)
  | EParamFuel.   (** no case of the source: never returned ([ParamsFacts.substitute_total]) *)

(** The body of the 400. *)
Definition ParamError_message (e : ParamError) : str :=
  match e with
  | EParamsJson => $"params must be valid JSON"
  | EParamsObject => $"params must be a JSON object"
  | EParamKey => $"Parameters can only use numbers as keys"
  | EParamSequence => $"Parameters must be numbered sequentially, starting from 1"
  | EParamMissing num => $"parameter $" ++ num ++ $" was not provided"
  | EParamFuel => []
  end.

(** [json_to_param_string]. *)
Definition json_to_param_string {SJ : SerdeJson} (v : json) : str :=
  match v with
  | JString s => s
  | JNull => []
  | other => json_to_string other
  end.

(** The loop over the sorted keys: the [i]-th is [i + 1]. *)
Fixpoint sequential (i : Z) (nums : list Z) : bool :=
  match nums with
  | [] => true
  | n :: nums => (n =? i + 1) && sequential (i + 1) nums
  end.

(** [validate_param_keys]; the order of the keys does not matter. *)
Definition validate_param_keys (m : gmap str str) : res ParamError unit :=
  if decide (m = ∅) then Ok tt
  else
    nums ← try_map (λ k, ok_or EParamKey (parse_i64 k)) (map_to_list m).*1;
    if sequential 0 (stable_sort Z.leb nums) then Ok tt else Err EParamSequence.

(** [strip_prefix("params[")] and [strip_suffix(']')]. *)
Definition bracket_key (k : str) : option str :=
  inner ← str_strip_prefix $"params[" k; str_strip_suffix $"]" inner.

(** [parse_params]. *)
Definition parse_params {SJ : SerdeJson} {JP : JsonParse} (pairs : list (str * str))
    : res ParamError (gmap str str) :=
  let bracket := foldl (λ m kv, match bracket_key kv.1 with
                                | Some inner => <[inner := kv.2]> m
                                | None => m
                                end) (∅ : gmap str str) pairs in
  m ← (if decide (bracket = ∅) then
         match find (λ kv, bool_decide (kv.1 = $"params")) pairs with
         | Some kv =>
             decoded ← ok_or EParamsJson (json_from_str kv.2);
             obj ← ok_or EParamsObject (as_object decoded);
             Ok (foldl (λ m kv, <[kv.1 := json_to_param_string kv.2]> m) (∅ : gmap str str) obj)
         | None => Ok ∅
         end
       else Ok bracket);
  _ ← validate_param_keys m;
  Ok m.

(** The loop that writes a value: quotes doubled. *)
Fixpoint escape (q : char) (s : str) : str :=
  match s with
  | [] => []
  | c :: s' => if (c =? q)%N then q :: q :: escape q s' else c :: escape q s'
  end.

(** The loop of [substitute]; 39 is the single quote, 36 the dollar sign. *)
Fixpoint substitute_loop (fuel : nat) (params : gmap str str) (in_quote : bool) (s : str)
    : res ParamError str :=
  match s with
  | [] => Ok []
  | c :: s' =>
      match fuel with
      | O => Err EParamFuel
      | S fuel =>
          if in_quote then
            if (c =? 39)%N then
              match s' with
              | d :: s'' =>
                  if (d =? 39)%N then
                    out ← substitute_loop fuel params true s''; Ok (39%N :: 39%N :: out)
                  else out ← substitute_loop fuel params false s'; Ok (39%N :: out)
              | [] => Ok [39%N]
              end
            else out ← substitute_loop fuel params true s'; Ok (c :: out)
          else if (c =? 39)%N then out ← substitute_loop fuel params true s'; Ok (39%N :: out)
          else if (c =? 36)%N && digit_next s' then
            let p := span is_ascii_digit s' in
            match params !! p.1 with
            | Some v =>
                out ← substitute_loop fuel params false p.2;
                Ok (39%N :: escape 39%N v ++ 39%N :: out)
            | None => Err (EParamMissing p.1)
            end
          else out ← substitute_loop fuel params false s'; Ok (c :: out)
      end
  end.

(** [substitute]; every turn takes a character. *)
Definition substitute (where_ : str) (params : gmap str str) : res ParamError str :=
  substitute_loop (length where_) params false where_.
