(* ===== verification/WhereRound.v ===== *)
(** * Clauses that are written back

    [render] writes tokens as text and [print] predicates as tokens; the lexer and the parser read
    both back. *)

From S2P Require Import Prelude BTree Value TableRef Schema Predicate Gate WhereSql WhereFacts Params.
From stdpp Require Import base option numbers strings gmap fin_maps sorting list.
#[local] Open Scope Z_scope.

(* ------------------------------------------------------------------ *)
(** ** Quoted text *)

Lemma read_quoted_escape q b rest : match rest with d :: _ => d <> q | [] => True end ->
  read_quoted q (escape q b ++ q :: rest) = Some (b, rest).
Proof.
  intros Hr. induction b as [|c b IH]; simpl.
  - rewrite N.eqb_refl. destruct rest as [|d rest]; [done|]. by rewrite (proj2 (N.eqb_neq d q)).
  - destruct (N.eqb_spec c q) as [->|Hne]; simpl.
    + rewrite !N.eqb_refl. by rewrite IH.
    + rewrite (proj2 (N.eqb_neq c q)) by done. by rewrite IH.
Qed.

(** Two literals side by side read as one with a quote between. *)
Lemma read_quoted_glue q b s : read_quoted q (escape q b ++ q :: q :: s) = p ← read_quoted q s; Some (b ++ q :: p.1, p.2).
Proof.
  induction b as [|c b IH]; simpl.
  - rewrite !N.eqb_refl. by destruct (read_quoted q s) as [[b r]|].
  - destruct (N.eqb_spec c q) as [->|Hne]; simpl.
    + rewrite !N.eqb_refl, IH. by destruct (read_quoted q s) as [[b' r]|].
    + rewrite (proj2 (N.eqb_neq c q)) by done. rewrite IH. by destruct (read_quoted q s) as [[b' r]|].
Qed.

(* ------------------------------------------------------------------ *)
(** ** Tokens as text *)

Definition tok_text (t : Tok) : str :=
  match t with
  | TIdent s => 34%N :: escape 34%N s ++ [34%N]
  | TStr s => 39%N :: escape 39%N s ++ [39%N]
  | TNum n => n
  | TOp o => o
  | TLParen => $"(" | TRParen => $")" | TComma => $","
  | TAnd => $"AND" | TOr => $"OR" | TNot => $"NOT" | TLike => $"LIKE" | TBetween => $"BETWEEN"
  | TIn => $"IN" | TSelect => $"SELECT" | TFrom => $"FROM" | TWhere => $"WHERE"
  | TTrue => $"TRUE" | TFalse => $"FALSE" | TIs => $"IS" | TNull => $"NULL"
  end.
Definition is_op_char (c : char) : bool := str_contains c $"=<>!".
Definition tok_ok (t : Tok) : Prop :=
  match t with
  | TNum n => exists z, n = Z_to_str z
  | TOp o => o <> [] /\ Forall (λ c, is_op_char c = true) o
  | _ => True
  end.
Definition render (ts : list Tok) : str := str_join [32%N] (map tok_text ts).

Section lexing.
Context {CC : CharClass}.

Lemma span_all f u rest : Forall (λ c, f c = true) u -> match rest with c :: _ => f c = false | [] => True end ->
  span f (u ++ rest) = (u, rest).
Proof.
  intros Hu Hr. induction Hu as [|c u Hc Hu IH]; simpl; [destruct rest as [|c rest]; [done|]; simpl; by rewrite Hr|].
  by rewrite Hc, IH.
Qed.

Definition gap (rest : str) : Prop := match rest with c :: _ => c = 32%N | [] => True end.

Lemma alphanumeric_ascii c : (c < 128)%N -> is_alphanumeric c = is_ascii_letter c || is_ascii_digit c.
Proof. intros H. unfold is_alphanumeric. by rewrite is_alphabetic_ascii, is_numeric_ascii. Qed.

Lemma whitespace_ranges c : is_whitespace c = true -> ((9 <= c <= 13) \/ c = 32 \/ 133 <= c)%N.
Proof.
  unfold is_whitespace. intros H.
  repeat match goal with
         | H : _ || _ = true |- _ => apply orb_true_iff in H as [H|H]
         | H : _ && _ = true |- _ => destruct (proj1 (andb_true_iff _ _) H) as [?%N.leb_le ?%N.leb_le]; clear H
         | H : (_ =? _)%N = true |- _ => apply N.eqb_eq in H
         end; lia.
Qed.
Lemma not_whitespace c : (c < 133 -> 13 < c -> c <> 32 -> is_whitespace c = false)%N.
Proof. intros H1 H2 H3. apply not_true_is_false. intros H%whitespace_ranges. lia. Qed.

Lemma is_op_char_in c : is_op_char c = true -> c ∈ [61; 60; 62; 33]%N.
Proof.
  unfold is_op_char, str_contains. intros (d & Hd & He%N.eqb_eq)%existsb_exists. subst d. by apply list_elem_of_In.
Qed.
Lemma not_op_char c : c ∉ [61; 60; 62; 33]%N -> str_contains c $"=<>!" = false.
Proof. intros H. apply not_true_is_false. by intros ?%is_op_char_in. Qed.

Definition is_upper (c : char) : bool := (65 <=? c)%N && (c <=? 90)%N.

(** The tests a letter or a digit fails. *)
Lemma plain_tests c : (48 <= c <= 57)%N \/ (65 <= c <= 90)%N ->
  is_whitespace c = false /\ (c =? 39)%N = false /\ (c =? 40)%N = false /\ (c =? 41)%N = false /\
  (c =? 44)%N = false /\ str_contains c $"=<>!" = false /\ (c =? 34)%N = false /\ (c =? 45)%N = false /\ (c =? 46)%N = false.
Proof.
  intros H. split_and!; try (apply N.eqb_neq; lia); [apply not_whitespace; lia|].
  apply not_op_char. intros Hin. repeat (apply elem_of_cons in Hin as [->|Hin]; [lia|]). by apply not_elem_of_nil in Hin.
Qed.

Lemma lex_word c w rest : Forall (λ c, is_upper c = true) (c :: w) -> gap rest ->
  lex c (w ++ rest) = Ok (Some (word_token (c :: w)), rest).
Proof.
  intros Hw Hr. pose proof (Forall_inv Hw) as Hc. unfold is_upper in Hc. apply andb_true_iff in Hc as [Hc1%N.leb_le Hc2%N.leb_le].
  destruct (plain_tests c ltac:(right; lia)) as (E1 & E2 & E3 & E4 & E5 & E6 & E7 & E8 & E9).
  assert (Hd : is_ascii_digit c = false) by (unfold is_ascii_digit; apply andb_false_iff; right; apply N.leb_gt; lia).
  unfold lex, starts_number. rewrite E1, E2, E3, E4, E5, E6, E7, Hd, E9, E8.
  rewrite is_alphabetic_ascii by lia. unfold is_ascii_letter.
  rewrite (proj2 (N.leb_le 65 c)), (proj2 (N.leb_le c 90)) by lia. simpl orb. cbv iota zeta.
  rewrite (span_all (λ d, is_alphanumeric d || (d =? 95)%N) (c :: w) rest); [done| |].
  - eapply Forall_impl; [exact Hw|]. intros d Hd'. unfold is_upper in Hd'. apply andb_true_iff in Hd' as [H1%N.leb_le H2%N.leb_le].
    simpl. rewrite alphanumeric_ascii by lia. unfold is_ascii_letter.
    by rewrite (proj2 (N.leb_le 65 d)), (proj2 (N.leb_le d 90)) by lia.
  - destruct rest as [|d rest]; [done|]. simpl in Hr. subst d. by rewrite alphanumeric_ascii.
Qed.

Lemma lex_digits n rest : Forall (λ c, is_ascii_digit c = true) n -> gap rest -> forall b,
  scan_mantissa b (n ++ rest) = (n, rest).
Proof.
  intros Hn Hr. induction Hn as [|c n Hc Hn IH]; intros b.
  - destruct rest as [|c rest]; [done|]. simpl in *. by subst c.
  - simpl. rewrite Hc. simpl. apply is_ascii_digit_not_sign in Hc as H45.
    by rewrite IH.
Qed.
Lemma exponent_gap rest : gap rest -> scan_exponent rest = ([], rest).
Proof. destruct rest as [|c rest]; [done|]. intros ->. done. Qed.

Lemma lex_minus s : digit_next s = true -> lex 45%N s = p ← lex_number (45%N :: s); Ok (Some p.1, p.2).
Proof.
  intros H. assert (E : starts_number 45%N s = true) by (unfold starts_number; by rewrite H).
  unfold lex. by rewrite E.
Qed.

Lemma lex_number_text z rest : gap rest -> exists c n, Z_to_str z = c :: n /\ lex c (n ++ rest) = Ok (Some (TNum (Z_to_str z)), rest).
Proof.
  intros Hr. assert (Hg : (match rest with c :: _ => (c =? 46)%N || is_alphanumeric c || (c =? 95)%N | [] => false end) = false).
  { destruct rest as [|c rest]; [done|]. simpl in Hr. subst c. by rewrite alphanumeric_ascii. }
  assert (Hnum : forall sign n, (sign = [] \/ sign = [45%N]) -> n <> [] -> Forall (λ c, is_ascii_digit c = true) n ->
                   lex_number (sign ++ n ++ rest) = Ok (TNum (sign ++ n), rest)).
  { intros sign n Hs Hn Hd. unfold lex_number.
    assert (E : match sign ++ n ++ rest with [] => ([], []) | c :: s' => if (c =? 45)%N then ([c], s') else ([], sign ++ n ++ rest) end =
            (sign, n ++ rest)).
    { destruct Hs as [-> | ->]; [|done]. destruct n as [|c n]; [done|]. simpl. apply Forall_inv in Hd.
      apply is_ascii_digit_not_sign in Hd as [_ ->]. done. }
    rewrite E, (lex_digits n rest Hd Hr), (exponent_gap rest Hr), Hg. by rewrite app_nil_r. }
  assert (Hdig : forall m, exists c n, N_to_str m = c :: n /\ is_ascii_digit c = true /\ Forall (λ c, is_ascii_digit c = true) (c :: n)).
  { intros m. destruct (N_to_str_cons m) as (c & n & E & Hc). exists c, n. split_and!; [done..|]. rewrite <- E. apply N_to_str_digits. }
  unfold Z_to_str. destruct (z <? 0).
  - exists 45%N, (N_to_str (Z.to_N (- z))). split; [done|]. destruct (Hdig (Z.to_N (- z))) as (c & n & E & Hc & Hf). rewrite E.
    rewrite lex_minus by done. pose proof (Hnum [45%N] (c :: n) ltac:(by right) ltac:(done) Hf) as H.
    cbn [app] in H. cbn [app]. by rewrite H.
  - destruct (Hdig (Z.to_N z)) as (c & n & E & Hc & Hf). exists c, n. split; [done|]. rewrite E.
    assert (Hr' : (48 <= c <= 57)%N) by (unfold is_ascii_digit in Hc; bool_prop; lia).
    destruct (plain_tests c ltac:(by left)) as (E1 & E2 & E3 & E4 & E5 & E6 & E7 & _).
    unfold lex, starts_number. rewrite E1, E2, E3, E4, E5, E6, E7, Hc.
    pose proof (Hnum [] (c :: n) ltac:(by left) ltac:(done) Hf) as H. cbn [app] in H. cbn [app]. by rewrite H.
Qed.

Lemma lex_op c s : is_op_char c = true ->
  is_whitespace c = false /\ lex c s = let p := span (λ d, str_contains d $"=<>!") (c :: s) in Ok (Some (TOp p.1), p.2).
Proof.
  intros Hc%is_op_char_in.
  repeat (apply elem_of_cons in Hc as [->|Hc]; [split; reflexivity|]). by apply not_elem_of_nil in Hc.
Qed.

Lemma lex_tok t rest : tok_ok t -> gap rest ->
  exists c s, tok_text t = c :: s /\ is_whitespace c = false /\ lex c (s ++ rest) = Ok (Some t, rest).
Proof.
  intros Ht Hr.
  assert (Hq : forall d, d = 39%N \/ d = 34%N -> match rest with e :: _ => e <> d | [] => True end).
  { intros d Hd. destruct rest as [|e rest]; [done|]. simpl in Hr. subst e. destruct Hd as [-> | ->]; done. }
  destruct t as [s|s|n|o| | | | | | | | | | | | | | | |]; simpl in Ht;
    try (eexists _, _; split; [reflexivity|]; split; [reflexivity|];
         rewrite lex_word; [reflexivity|repeat constructor|done]);
    try (eexists _, _; split; [reflexivity|]; split; [reflexivity|]; reflexivity).
  - eexists _, _. split; [reflexivity|]. split; [done|]. rewrite <- app_assoc. unfold lex. simpl.
    rewrite read_quoted_escape; [done|apply Hq; by right].
  - eexists _, _. split; [reflexivity|]. split; [done|]. rewrite <- app_assoc. unfold lex. simpl.
    rewrite read_quoted_escape; [done|apply Hq; by left].
  - destruct Ht as [z ->]. destruct (lex_number_text z rest Hr) as (c & n & E & Hl). exists c, n. split_and!; [done| |done].
    unfold lex in Hl. by destruct (is_whitespace c).
  - destruct Ht as [Hne Ho]. destruct o as [|c o]; [done|]. exists c, o. split; [done|].
    destruct (lex_op c (o ++ rest) (Forall_inv Ho)) as [Hw ->]. split; [done|]. cbv zeta.
    rewrite (span_all _ (c :: o) rest); [done|done|]. destruct rest as [|d rest]; [done|]. simpl in Hr. by subst d.
Qed.

Lemma lex_space s : lex 32%N s = Ok (None, s).
Proof. done. Qed.

Lemma render_cons t ts : render (t :: ts) = tok_text t ++ match ts with [] => [] | _ => 32%N :: render ts end.
Proof. unfold render. destruct ts; simpl; [by rewrite app_nil_r|done]. Qed.

Lemma tokenize_render ts : Forall tok_ok ts -> tokenize (render ts) = Ok ts.
Proof.
  induction 1 as [|t ts Ht Hts IH]; [done|]. rewrite render_cons.
  destruct (lex_tok t (match ts with [] => [] | _ => 32%N :: render ts end) Ht) as (c & s & E & _ & Hl); [by destruct ts|].
  rewrite E, <- app_comm_cons, tokenize_cons, Hl. cbn [mbind res_bind fst snd].
  destruct ts as [|t' ts]; [done|]. rewrite tokenize_cons, lex_space. cbn [mbind res_bind fst snd]. by rewrite IH.
Qed.
End lexing.

(* ------------------------------------------------------------------ *)
(** ** Predicates as tokens *)

Definition op_text (op : LeafOp) : str :=
  match op with
  | OpEq => $"=" | OpNeq => $"<>" | OpLt => $"<" | OpLte => $"<=" | OpGt => $">" | OpGte => $">=" | OpLike => []
  end.
Definition op_tok (op : LeafOp) : Tok := match op with OpLike => TLike | _ => TOp (op_text op) end.
Definition literal_tok (v : json) : Tok :=
  match v with
  | JString s => TStr s
  | JBool b => if b then TTrue else TFalse
  | JNumber (NInt z) => TNum (Z_to_str z)
  | _ => TNull
  end.
Definition raw_name (t : TableRef) : str := default [] (TableRef_name t).

Fixpoint sep_by (sep : Tok) (l : list (list Tok)) : list Tok :=
  match l with
  | [] => []
  | [x] => x
  | x :: l => x ++ sep :: sep_by sep l
  end.
Definition in_parens (ts : list Tok) : list Tok := TLParen :: ts ++ [TRParen].
Definition one_compared (op : LeafOp) : list Tok := [TNum (Z_to_str 1); op_tok op; TNum (Z_to_str 1)].

Fixpoint print (p : PredicateJson) : list Tok :=
  match p with
  | PLeaf col op v => [TIdent col; op_tok op; literal_tok v]
  | PIsNull col b => TIdent col :: TIs :: maybe_not (negb b) ++ [TNull]
  | PAnd [] => one_compared OpEq
  | PAnd ps => sep_by TAnd (map (λ q, in_parens (print q)) ps)
  | POr [] => one_compared OpNeq
  | POr ps => sep_by TOr (map (λ q, in_parens (print q)) ps)
  | PNot q => TNot :: in_parens (print q)
  | PIn col (mkSubquery table project w) negated =>
      TIdent col :: maybe_not negated ++ TIn :: TLParen :: TSelect :: TIdent project :: TFrom ::
      TIdent (raw_name table) :: match w with Some q => TWhere :: print q | None => [] end ++ [TRParen]
  end.

(** The predicates a clause can say: text, booleans and 64-bit integers as literals, subqueries on
    tables of the public schema, and no connective of one operand. *)
Definition literal_ok (v : json) : Prop :=
  match v with JString _ | JBool _ => True | JNumber (NInt z) => in_i64 z | _ => False end.
Fixpoint sayable (schema : option TableSchema) (p : PredicateJson) : Prop :=
  match p with
  | PLeaf _ _ v => literal_ok v
  | PIsNull col _ => has_column schema col
  | PAnd ps | POr ps => length ps <> 1%nat /\ foldr (λ q P, sayable schema q /\ P) True ps
  | PNot q => sayable schema q
  | PIn _ (mkSubquery table _ w) _ =>
      names_table (raw_name table) table /\ match w with Some q => sayable schema q | None => True end
  end.

Section printing.
Context {FT : FloatText} {CC : CharClass} (schema : option TableSchema).

Lemma sayable_all ps : foldr (λ q P, sayable schema q /\ P) True ps <-> Forall (sayable schema) ps.
Proof.
  induction ps as [|p ps IH]; simpl; [by split; [constructor|]|]. rewrite IH. split; [by intros []; constructor|by inversion 1].
Qed.

Lemma Z_to_str_plain z : Forall (λ c, is_ascii_digit c = true \/ c = 45%N) (Z_to_str z).
Proof.
  unfold Z_to_str. assert (H : forall n, Forall (λ c, is_ascii_digit c = true \/ c = 45%N) (N_to_str n)).
  { intros n. eapply Forall_impl; [apply N_to_str_digits|]. by left. }
  destruct (z <? 0); [constructor; [by right|]|]; apply H.
Qed.

Lemma num_literal_int z : in_i64 z -> num_literal (Z_to_str z) = Ok (JNumber (NInt z)).
Proof.
  intros Hz. unfold num_literal. pose proof (Z_to_str_plain z) as Hp.
  assert (Hno : forall d, is_ascii_digit d = false -> d <> 45%N -> str_contains d (Z_to_str z) = false).
  { intros d Hd H45. apply str_contains_false. intros Hin. rewrite Forall_forall in Hp. destruct (Hp d Hin); congruence. }
  rewrite !Hno by done. simpl. unfold parse_i64. by rewrite (parse_int_Z_to_str i64_min i64_max z Hz).
Qed.
Lemma literal_said v : literal_ok v -> token_literal (literal_tok v) = Ok v.
Proof. destruct v as [|[]|[z|f]|s|l|m]; try done. intros Hz. simpl. by apply num_literal_int. Qed.

Lemma print_leaf col op v : literal_ok v -> says schema GPrim [TIdent col; op_tok op; literal_tok v] [PLeaf col op v].
Proof.
  intros Hv%literal_said. destruct op; simpl;
    try (by apply (s_compare schema col false _ _ _ v)); by apply (s_like schema col false _ v).
Qed.

Lemma prim_or ts p : says schema GPrim ts [p] -> says schema GOr ts [p].
Proof.
  intros H. apply (s_or schema ts [p]), s_or_one, (s_and schema ts [p]), s_and_one. by apply s_prim.
Qed.

Lemma one_said op : op = OpEq \/ op = OpNeq ->
  says schema GPrim (one_compared op) [match op with OpEq => PAnd [] | _ => POr [] end].
Proof.
  assert (H1 : token_literal (TNum (Z_to_str 1)) = Ok (JNumber (NInt 1))) by (apply num_literal_int; unfold in_i64, i64_min, i64_max; lia).
  intros [-> | ->]; [exact (s_const schema _ _ (op_text OpEq) _ _ H1 H1)|exact (s_const schema _ _ (op_text OpNeq) _ _ H1 H1)].
Qed.

Lemma print_says p : sayable schema p -> says schema GOr (print p) [p].
Proof.
  induction p as [col op v|col b|ps IH|ps IH|p IH|col t pr w n IH] using PredicateJson_rect'; simpl; intros Hp.
  - by apply prim_or, print_leaf.
  - apply prim_or. rewrite <- (negb_involutive b) at 2. by apply s_is_null.
  - destruct Hp as [Hlen Hp%sayable_all]. destruct ps as [|p ps]; [by apply prim_or, (one_said OpEq); left|].
    apply (s_or schema _ [PAnd (p :: ps)]), s_or_one.
    assert (H : says schema GAnds (sep_by TAnd (map (λ q, in_parens (print q)) (p :: ps))) (p :: ps)).
    { clear Hlen. induction ps as [|q ps IHps] in p, IH, Hp |- *.
      - apply Forall_inv in IH, Hp. simpl. by apply s_and_one, s_prim, s_paren, IH.
      - inversion IH as [|? ? Ih IH']; inversion Hp as [|? ? Hq Hp']; subst.
        apply (s_and_more schema (in_parens (print p)) p (sep_by TAnd (map (λ q, in_parens (print q)) (q :: ps))) (q :: ps)); [by apply s_prim, s_paren, Ih|]. by apply (IHps q IH' Hp'). }
    apply s_and in H. destruct ps; [done|exact H].
  - destruct Hp as [Hlen Hp%sayable_all]. destruct ps as [|p ps]; [by apply prim_or, (one_said OpNeq); right|].
    assert (H : says schema GOrs (sep_by TOr (map (λ q, in_parens (print q)) (p :: ps))) (p :: ps)).
    { clear Hlen. assert (Hone : forall q, says schema GOr (print q) [q] -> says schema GAnd (in_parens (print q)) [q]).
      { intros q Hq. apply (s_and schema _ [q]), s_and_one. by apply s_prim, s_paren. }
      induction ps as [|q ps IHps] in p, IH, Hp |- *.
      - apply Forall_inv in IH, Hp. simpl. by apply s_or_one, Hone, IH.
      - inversion IH as [|? ? Ih IH']; inversion Hp as [|? ? Hq Hp']; subst.
        apply (s_or_more schema (in_parens (print p)) p (sep_by TOr (map (λ q, in_parens (print q)) (q :: ps))) (q :: ps)); [by apply Hone, Ih|]. by apply (IHps q IH' Hp'). }
    apply s_or in H. destruct ps; [done|exact H].
  - apply (s_or schema _ [PNot p]), s_or_one, (s_and schema _ [PNot p]), s_and_one.
    by apply s_not, s_prim, s_paren, IH.
  - destruct Hp as [Hn Hw]. apply prim_or. destruct w as [q|].
    + apply s_in_query; [done|]. by apply IH.
    + by apply s_in_table.
Qed.

Lemma literal_tok_ok v : literal_ok v -> tok_ok (literal_tok v).
Proof. destruct v as [|[]|[z|f]|s|l|m]; try done. intros _. by exists z. Qed.
Lemma op_tok_ok op : tok_ok (op_tok op).
Proof. destruct op; try done; (split; [done|]; repeat constructor). Qed.
Lemma in_parens_ok ts : Forall tok_ok ts -> Forall tok_ok (in_parens ts).
Proof. intros H. constructor; [done|]. apply Forall_app. by repeat constructor. Qed.
Lemma sep_by_ok sep l : tok_ok sep -> Forall (Forall tok_ok) l -> Forall tok_ok (sep_by sep l).
Proof.
  intros Hs H. induction H as [|x l Hx Hl IH]; [constructor|]. simpl. destruct l; [done|].
  apply Forall_app; split; [done|]. by constructor.
Qed.
Lemma maybe_not_ok b : Forall tok_ok (maybe_not b).
Proof. destruct b; by repeat constructor. Qed.

Lemma print_ok p : sayable schema p -> Forall tok_ok (print p).
Proof.
  assert (Hall : forall ps, Forall (λ p, sayable schema p -> Forall tok_ok (print p)) ps -> Forall (sayable schema) ps ->
             Forall (Forall tok_ok) (map (λ q, in_parens (print q)) ps)).
  { intros ps IH Hp. induction IH as [|q ps H _ IHps]; [constructor|]. inversion Hp; subst. simpl.
    constructor; [by apply in_parens_ok, H|by apply IHps]. }
  assert (Hone : forall op, Forall tok_ok (one_compared op)).
  { intros op. repeat constructor; [by exists 1|apply op_tok_ok|by exists 1]. }
  induction p as [col op v|col b|ps IH|ps IH|p IH|col t pr w n IH] using PredicateJson_rect'; simpl; intros Hp.
  - repeat constructor; [apply op_tok_ok|by apply literal_tok_ok].
  - do 2 (constructor; [done|]). apply Forall_app; split; [apply maybe_not_ok|by repeat constructor].
  - destruct Hp as [_ Hp%sayable_all]. destruct ps; [apply Hone|]. by apply sep_by_ok, Hall.
  - destruct Hp as [_ Hp%sayable_all]. destruct ps; [apply Hone|]. by apply sep_by_ok, Hall.
  - constructor; [done|]. by apply in_parens_ok, IH.
  - destruct Hp as [_ Hw]. constructor; [done|]. apply Forall_app; split; [apply maybe_not_ok|].
    do 6 (constructor; [done|]). destruct w as [q|]; [|by repeat constructor].
    simpl. constructor; [done|]. apply Forall_app; split; [by apply (IH q)|by repeat constructor].
Qed.

(** ** The text of a clause *)

Lemma says_two c ts ps : says schema c ts ps -> (2 <= length ts)%nat.
Proof. induction 1; simpl; rewrite ?length_app; simpl; lia. Qed.

Lemma tok_text_ends t : tok_ok t -> exists s c, tok_text t = s ++ [c] /\ is_whitespace c = false.
Proof.
  assert (Hconst : forall s c, is_whitespace c = false -> exists s' c', s ++ [c] = s' ++ [c'] /\ is_whitespace c' = false)
    by (intros s c Hc; by exists s, c).
  assert (Hlast : forall s, s <> [] -> Forall (λ c, is_whitespace c = false) s -> exists s' c', s = s' ++ [c'] /\ is_whitespace c' = false).
  { intros s. destruct s as [|c s] using rev_ind; [done|]. intros _ [_ H%Forall_inv]%Forall_app. by exists s, c. }
  destruct t as [s|s|n|o| | | | | | | | | | | | | | | |]; intros Ht;
    try (apply Hlast; [done|by repeat constructor]).
  - by apply (Hconst (34%N :: escape 34%N s)).
  - by apply (Hconst (39%N :: escape 39%N s)).
  - destruct Ht as [z ->]. apply Hlast.
    + unfold Z_to_str. destruct (z <? 0); [done|]. simpl. by destruct (N_to_str_cons (Z.to_N z)) as (c & s & -> & _).
    + eapply Forall_impl; [apply Z_to_str_plain|]. intros c [Hc | ->]; [|done].
      unfold is_ascii_digit in Hc. apply andb_true_iff in Hc as [?%N.leb_le ?%N.leb_le]. apply not_whitespace; lia.
  - destruct Ht as [Hne Ho]. apply Hlast; [done|]. eapply Forall_impl; [exact Ho|]. intros c Hc. by destruct (lex_op c [] Hc).
Qed.

Lemma render_ends ts : ts <> [] -> Forall tok_ok ts -> exists s c, render ts = s ++ [c] /\ is_whitespace c = false.
Proof.
  intros Hne H. induction H as [|t ts Ht Hts IH]; [done|]. rewrite render_cons. destruct ts as [|t' ts].
  - rewrite app_nil_r. by apply tok_text_ends.
  - destruct IH as (s & c & -> & Hc); [done|]. exists (tok_text t ++ 32%N :: s), c. split; [|done]. by rewrite <- app_assoc.
Qed.

Lemma render_trim ts : Forall tok_ok ts -> trim (render ts) = render ts.
Proof.
  intros H. destruct ts as [|t ts]; [done|]. apply trim_id.
  - rewrite render_cons. destruct (lex_tok t [] (Forall_inv H) I) as (c & s & -> & Hc & _). simpl. by intros ? [= <-].
  - destruct (render_ends (t :: ts) ltac:(done) H) as (s & c & -> & Hc). rewrite last_snoc. by intros ? [= <-].
Qed.

(** C26: a predicate that a clause can say comes back from the text written for it: the names and the
    text literals it holds are quoted so that no character of theirs is lost or taken for syntax. *)
Theorem printed_clause_parses p : sayable schema p -> parse_where_typed schema (render (print p)) = Ok (Some p).
Proof.
  intros Hp. pose proof (print_ok p Hp) as Hok. pose proof (print_says p Hp) as Hs.
  unfold parse_where_typed. rewrite render_trim by done.
  pose proof (says_two _ _ _ Hs) as Hlen. destruct (print p) as [|t [|t' ts]] eqn:E; simpl in Hlen; try lia.
  rewrite decide_False.
  - rewrite tokenize_render by done. cbn [mbind res_bind].
    destruct (says_given _ _ _ _ Hs (length (t :: t' :: ts)) [] ltac:(done) I) as (p' & [= <-] & H). rewrite app_nil_r in H. by rewrite H.
  - rewrite render_cons. destruct (lex_tok t [] (Forall_inv Hok) I) as (c & s & -> & _). intros [?|Ht]; [done|].
    assert (Hin : 32%N ∈ $"true"); [|by vm_compute in Hin; repeat (apply elem_of_cons in Hin as [?|Hin]; [done|]); apply not_elem_of_nil in Hin].
    rewrite <- Ht. apply list_elem_of_fmap. exists 32%N. split; [done|]. apply elem_of_app. right. by left.
Qed.
End printing.
