(* ===== verification/ParamsFacts.v ===== *)
(** * A bound value is data

    However a parameter's value is spelled, it ends inside the one string literal its placeholder
    stood for: the tokens of the clause are fixed by the template. *)

From S2P Require Import Prelude BTree Value TableRef Schema Predicate WhereSql WhereFacts Params WhereRound.
From stdpp Require Import base option numbers strings gmap fin_maps sorting list.
#[local] Open Scope Z_scope.

(* ------------------------------------------------------------------ *)
(** ** The loop without its fuel *)

Lemma span_rest_short f s : (length (span f s).2 <= length s)%nat.
Proof. rewrite <- (span_app f s) at 2. rewrite length_app. lia. Qed.

Lemma substitute_loop_fuel ps : forall f1 f2 b s, (length s <= f1)%nat -> (length s <= f2)%nat ->
  substitute_loop f1 ps b s = substitute_loop f2 ps b s.
Proof.
  induction f1 as [|f1 IH]; intros f2 b [|c s] H1 H2; simpl in *; try lia; [by destruct f2..|].
  destruct f2 as [|f2]; [lia|]. simpl.
  pose proof (span_rest_short is_ascii_digit s) as Hs.
  destruct b; [destruct (c =? 39)%N|destruct (c =? 39)%N; [|destruct ((c =? 36)%N && digit_next s)]].
  - destruct s as [|d s]; [done|]. simpl in *. destruct (d =? 39)%N; [by rewrite (IH f2) by lia|by rewrite (IH f2) by (simpl; lia)].
  - by rewrite (IH f2) by lia.
  - by rewrite (IH f2) by lia.
  - destruct (ps !! _); [|done]. by rewrite (IH f2) by lia.
  - by rewrite (IH f2) by lia.
Qed.

(** [substitute], from inside or outside of a literal. *)
Definition subst (ps : gmap str str) (b : bool) (s : str) : res ParamError str := substitute_loop (length s) ps b s.

Lemma subst_fuel ps b s fuel : (length s <= fuel)%nat -> substitute_loop fuel ps b s = subst ps b s.
Proof. intros H. by apply substitute_loop_fuel. Qed.

Lemma subst_plain ps c s : c <> 39%N -> c <> 36%N -> subst ps false (c :: s) = out ← subst ps false s; Ok (c :: out).
Proof.
  intros H1 H2. unfold subst. simpl. by rewrite (proj2 (N.eqb_neq c 39)), (proj2 (N.eqb_neq c 36)) by done.
Qed.
Lemma subst_dollar ps s : digit_next s = false -> subst ps false (36%N :: s) = out ← subst ps false s; Ok (36%N :: out).
Proof. intros H. unfold subst. simpl. by rewrite H. Qed.
Lemma subst_param ps s : digit_next s = true ->
  subst ps false (36%N :: s) = match ps !! (span is_ascii_digit s).1 with
                               | Some v => out ← subst ps false (span is_ascii_digit s).2; Ok (39%N :: escape 39%N v ++ 39%N :: out)
                               | None => Err (EParamMissing (span is_ascii_digit s).1)
                               end.
Proof.
  intros H. unfold subst at 1. simpl. rewrite H. destruct (ps !! _); [|done].
  rewrite subst_fuel; [done|]. apply span_rest_short.
Qed.
Lemma subst_open ps s : subst ps false (39%N :: s) = out ← subst ps true s; Ok (39%N :: out).
Proof. done. Qed.
Lemma subst_inside ps c s : c <> 39%N -> subst ps true (c :: s) = out ← subst ps true s; Ok (c :: out).
Proof. intros H. unfold subst. simpl. by rewrite (proj2 (N.eqb_neq c 39)). Qed.

Lemma subst_two ps d s : subst ps true (39%N :: d :: s) =
  if (d =? 39)%N then out ← substitute_loop (length (d :: s)) ps true s; Ok (39%N :: 39%N :: out)
  else out ← subst ps false (d :: s); Ok (39%N :: out).
Proof. done. Qed.
Lemma subst_doubled ps s : subst ps true (39%N :: 39%N :: s) = out ← subst ps true s; Ok (39%N :: 39%N :: out).
Proof. rewrite subst_two, N.eqb_refl. by rewrite subst_fuel by (simpl; lia). Qed.
Lemma subst_close ps s : match s with d :: _ => d <> 39%N | [] => True end ->
  subst ps true (39%N :: s) = out ← subst ps false s; Ok (39%N :: out).
Proof. destruct s as [|d s]; [done|]. intros Hd. by rewrite subst_two, (proj2 (N.eqb_neq d 39)). Qed.

(** What stands in a literal is copied. *)
Lemma subst_literal ps b s : match s with d :: _ => d <> 39%N | [] => True end ->
  subst ps true (escape 39%N b ++ 39%N :: s) = out ← subst ps false s; Ok (escape 39%N b ++ 39%N :: out).
Proof.
  intros Hs. induction b as [|c b IH]; simpl; [by apply subst_close|].
  destruct (N.eqb_spec c 39) as [->|Hne]; cbn [app].
  - rewrite subst_doubled, IH. by destruct (subst ps false s).
  - rewrite subst_inside, IH by done. by destruct (subst ps false s).
Qed.
Lemma subst_unterminated ps s : read_quoted 39%N s = None -> subst ps true s = Ok s.
Proof.
  remember (length s) as n eqn:Hn. revert s Hn. induction (lt_wf n) as [n _ IH]; intros s ->. destruct s as [|c s]; [done|]. simpl.
  destruct (N.eqb_spec c 39) as [->|Hne].
  - destruct s as [|d s]; [done|]. destruct (N.eqb_spec d 39) as [->|Hd]; [|done]. intros H.
    assert (Hs : read_quoted 39 s = None) by (by destruct (read_quoted 39 s)).
    by rewrite subst_doubled, (IH (length s) ltac:(simpl; lia) s eq_refl Hs).
  - intros H. assert (Hs : read_quoted 39 s = None) by (by destruct (read_quoted 39 s)).
    by rewrite subst_inside, (IH (length s) ltac:(simpl; lia) s eq_refl Hs) by done.
Qed.

Lemma substitute_total where_ ps : substitute where_ ps <> Err EParamFuel.
Proof.
  assert (H : forall fuel b s, (length s <= fuel)%nat -> substitute_loop fuel ps b s <> Err EParamFuel); [|by apply H].
  assert (Hb : forall (r : res ParamError str) f, r <> Err EParamFuel -> (out ← r; Ok (f out : str)) <> Err EParamFuel)
    by (by intros [|[]]).
  induction fuel as [|fuel IH]; intros b [|c s] Hs; simpl in *; try done; [lia|].
  pose proof (span_rest_short is_ascii_digit s) as Hl.
  destruct b; [destruct (c =? 39)%N|destruct (c =? 39)%N; [|destruct ((c =? 36)%N && digit_next s)]].
  - destruct s as [|d s]; [done|]. simpl in *. destruct (d =? 39)%N; apply Hb, IH; simpl; lia.
  - apply Hb, IH; lia.
  - apply Hb, IH; lia.
  - destruct (ps !! _); [|done]. apply Hb, IH; lia.
  - apply Hb, IH; lia.
Qed.

(* ------------------------------------------------------------------ *)
(** ** Lexing up to a quote *)

(** The single quote, the double quote, the dollar sign. *)
Definition special (c : char) : Prop := c = 39%N \/ c = 34%N \/ c = 36%N.
Definition plain (u : str) : Prop := Forall (λ c, ~ special c) u.
Definition stop (r : str) : Prop := match r with c :: _ => special c | [] => True end.

Section lexing.
Context {CC : CharClass}.

(** What precedes a stop is lexed as if the text ended there. *)
Definition with_rest {A} (r : res WhereError (A * str)) (rest : str) : res WhereError (A * str) :=
  match r with Ok (a, s) => Ok (a, s ++ rest) | Err e => Err e end.

Lemma span_local f u r : (forall c, special c -> f c = false) -> stop r ->
  span f (u ++ r) = ((span f u).1, (span f u).2 ++ r).
Proof.
  intros Hf Hr. induction u as [|c u IH]; simpl; [destruct r as [|c r]; [done|]; simpl; by rewrite Hf|].
  destruct (f c); [by rewrite IH|done].
Qed.

Lemma special_not_digit c : special c -> is_ascii_digit c = false.
Proof. by intros [->|[->| ->]]. Qed.
Lemma digit_local u r : stop r -> digit_next (u ++ r) = digit_next u.
Proof. intros Hr. destruct u; [|done]. destruct r as [|c r]; [done|]. by apply special_not_digit. Qed.
Lemma mantissa_local u r : stop r -> forall b, scan_mantissa b (u ++ r) = ((scan_mantissa b u).1, (scan_mantissa b u).2 ++ r).
Proof.
  intros Hr. induction u as [|c u IH]; intros b; simpl.
  - destruct r as [|c r]; [done|]. simpl in *. by destruct Hr as [->|[->| ->]].
  - destruct (_ || _); [by rewrite IH|done].
Qed.
Lemma exponent_local u r : stop r -> scan_exponent (u ++ r) = ((scan_exponent u).1, (scan_exponent u).2 ++ r).
Proof.
  intros Hr. destruct u as [|c u]; simpl.
  { destruct r as [|c r]; [done|]. simpl in *. by destruct Hr as [->|[->| ->]]. }
  destruct (_ || _); [|done].
  assert (H : forall sign s2, (if digit_next (s2 ++ r) then (c :: sign ++ (span is_ascii_digit (s2 ++ r)).1, (span is_ascii_digit (s2 ++ r)).2) else ([], c :: u ++ r)) =
     ((if digit_next s2 then (c :: sign ++ (span is_ascii_digit s2).1, (span is_ascii_digit s2).2) else ([], c :: u)).1,
      (if digit_next s2 then (c :: sign ++ (span is_ascii_digit s2).1, (span is_ascii_digit s2).2) else ([], c :: u)).2 ++ r)).
  { intros sign s2. rewrite digit_local by done. destruct (digit_next s2); [|done].
    by rewrite (span_local _ _ _ special_not_digit Hr). }
  destruct u as [|d u]; simpl.
  - destruct r as [|d r]; [done|]. simpl in Hr. by destruct Hr as [->|[->| ->]].
  - destruct (_ || _); [by apply (H [d] u)|by apply (H [] (d :: u))].
Qed.

Lemma lex_number_local c u r : stop r -> lex_number ((c :: u) ++ r) = with_rest (lex_number (c :: u)) r.
Proof.
  intros Hr. unfold lex_number. cbn [app].
  assert (E : (if (c =? 45)%N then ([c], u ++ r) else ([], c :: u ++ r)) =
     ((if (c =? 45)%N then ([c], u) else ([], c :: u)).1, (if (c =? 45)%N then ([c], u) else ([], c :: u)).2 ++ r)) by (by destruct (c =? 45)%N).
  rewrite E. destruct (if (c =? 45)%N then ([c], u) else ([], c :: u)) as [sign s1]. simpl.
  rewrite mantissa_local by done. destruct (scan_mantissa false s1) as [m s2]. simpl.
  rewrite exponent_local by done. destruct (scan_exponent s2) as [e s3]. simpl.
  assert (Hc : match s3 ++ r with [] => false | d :: _ => (d =? 46)%N || is_alphanumeric d || (d =? 95)%N end =
               match s3 with [] => false | d :: _ => (d =? 46)%N || is_alphanumeric d || (d =? 95)%N end).
  { destruct s3; [|done]. destruct r as [|d r]; [done|]. simpl in Hr.
    destruct Hr as [->|[->| ->]]; simpl; by rewrite ?alphanumeric_ascii. }
  rewrite Hc. by destruct (match s3 with [] => false | _ => _ end).
Qed.

Lemma starts_number_local c u r : stop r -> starts_number c (u ++ r) = starts_number c u.
Proof.
  intros Hr. unfold starts_number. rewrite !digit_local by done. destruct u as [|d u]; simpl; [|by rewrite digit_local].
  destruct r as [|d r]; [done|]. simpl in Hr. by destruct Hr as [->|[->| ->]].
Qed.

Lemma lex_local c u r : ~ special c -> stop r -> lex c (u ++ r) = with_rest (lex c u) r.
Proof.
  intros Hc Hr. unfold lex. rewrite starts_number_local by done.
  destruct (is_whitespace c); [done|]. destruct (N.eqb_spec c 39) as [->|_]; [by destruct Hc; left|].
  do 3 (match goal with |- context [if ?b then _ else _] => destruct b end; [done|]).
  destruct (str_contains c _).
  { rewrite app_comm_cons, (span_local _ (c :: u) r); [done| |done]. by intros d [->|[->| ->]]. }
  destruct (N.eqb_spec c 34) as [->|_]; [by destruct Hc; right; left|].
  destruct (starts_number c u).
  { rewrite app_comm_cons, lex_number_local by done. by destruct (lex_number (c :: u)) as [[t s]|]. }
  destruct (_ || _); [|done]. rewrite app_comm_cons, (span_local _ (c :: u) r); [done| |done].
  intros d Hd. destruct Hd as [->|[->| ->]]; by rewrite alphanumeric_ascii.
Qed.

Lemma lex_suffix c s o rest : lex c s = Ok (o, rest) -> ~ special c -> rest `suffix_of` c :: s.
Proof.
  intros H Hc. unfold lex in H. destruct (is_whitespace c); [injection H as _ <-; by exists [c]|].
  destruct (N.eqb_spec c 39) as [->|_]; [by destruct Hc; left|].
  do 3 (match goal with H : context [if ?b then _ else _] |- _ => destruct b end; [injection H as _ <-; by exists [c]|]).
  destruct (str_contains c _).
  { injection H as _ <-. eexists. symmetry. apply (span_app (λ d, str_contains d $"=<>!") (c :: s)). }
  destruct (N.eqb_spec c 34) as [->|_]; [by destruct Hc; right; left|].
  destruct (starts_number c s).
  { apply res_bind_ok in H as ([t r] & (buf & _ & Hb)%lex_number_splits & [= _ <-]). by exists buf. }
  destruct (_ || _); [|done]. injection H as _ <-.
  eexists. symmetry. apply (span_app (λ d, is_alphanumeric d || (d =? 95)%N) (c :: s)).
Qed.

Lemma tokenize_local u r : plain u -> stop r ->
  tokenize (u ++ r) = toks ← tokenize u; toks' ← tokenize r; Ok (toks ++ toks').
Proof.
  remember (length u) as n eqn:Hn. revert u Hn. induction (lt_wf n) as [n _ IH]; intros u -> Hu Hr.
  destruct u as [|c u]; [simpl; by destruct (tokenize r)|].
  rewrite <- app_comm_cons, !tokenize_cons, lex_local by (done || by apply Forall_inv in Hu).
  destruct (lex c u) as [[o rest]|e] eqn:E; [|done]. cbn [with_rest mbind res_bind fst snd].
  pose proof (lex_shorter _ _ _ _ E) as Hl. simpl in Hl.
  rewrite (IH (length rest)); [|simpl; lia|done| |done].
  - destruct (tokenize rest); [|done]. simpl. destruct (tokenize r); [|done]. simpl. by rewrite app_assoc.
  - apply lex_suffix in E as [p Ep]; [|by apply Forall_inv in Hu]. unfold plain in *. rewrite Ep in Hu. by apply Forall_app in Hu as [_ ?].
Qed.

Lemma lex_quote s : lex 39%N s = match read_quoted 39%N s with
                               | Some (buf, rest) => Ok (Some (TStr buf), rest)
                               | None => Err EUnterminatedString
                               end.
Proof. done. Qed.
Lemma lex_dquote s : lex 34%N s = match read_quoted 34%N s with
                                | Some (buf, rest) => Ok (Some (TIdent buf), rest)
                                | None => Err EUnterminatedIdent
                                end.
Proof. done. Qed.
Lemma lex_dollar s : lex 36%N s = Err (EBadChar 36%N).
Proof. unfold lex. simpl. by rewrite is_alphabetic_ascii. Qed.

(** A literal, alone or before another. *)
Lemma tokenize_literal b s : match s with d :: _ => d <> 39%N | [] => True end ->
  tokenize (39%N :: escape 39%N b ++ 39%N :: s) = toks ← tokenize s; Ok (TStr b :: toks).
Proof. intros Hs. by rewrite tokenize_cons, lex_quote, read_quoted_escape. Qed.

Definition glue (b : str) (r : res WhereError (list Tok)) : res WhereError (list Tok) :=
  match r with Ok (TStr x :: toks) => Ok (TStr (b ++ 39%N :: x) :: toks) | r => r end.
Lemma tokenize_glue b s : tokenize (39%N :: escape 39%N b ++ 39%N :: 39%N :: s) = glue b (tokenize (39%N :: s)).
Proof.
  rewrite !tokenize_cons, !lex_quote, read_quoted_glue. destruct (read_quoted 39 s) as [[x rest]|]; [|done].
  simpl. by destruct (tokenize rest).
Qed.
End lexing.

(* ------------------------------------------------------------------ *)
(** ** The tokens of a template *)

Inductive piece : Type :=
  | PieceText (s : str)
  | PieceParam (num : str).
(** A token that is there whatever the values, or a literal made of values and of fixed text. *)
Inductive template_tok : Type :=
  | TFixed (t : Tok)
  | TFilled (p : piece) (l : list piece).

Definition piece_value (ps : gmap str str) (p : piece) : str :=
  match p with PieceText s => s | PieceParam n => default [] (ps !! n) end.
Definition fill (ps : gmap str str) (t : template_tok) : Tok :=
  match t with
  | TFixed t => t
  | TFilled p l => TStr (str_join [39%N] (map (piece_value ps) (p :: l)))
  end.

(** The clauses whose double-quoted identifiers hold neither a placeholder nor a single quote. *)
Inductive clean : str -> Prop :=
  | clean_nil : clean []
  | clean_char c s : c <> 39%N -> c <> 34%N -> clean s -> clean (c :: s)
  | clean_literal b s : match s with d :: _ => d <> 39%N | [] => True end -> clean s -> clean (39%N :: escape 39%N b ++ 39%N :: s)
  | clean_open s : read_quoted 39%N s = None -> clean (39%N :: s)
  | clean_ident b s : 36%N ∉ b -> 39%N ∉ b -> match s with d :: _ => d <> 34%N | [] => True end -> clean s ->
      clean (34%N :: escape 34%N b ++ 34%N :: s).

Section template.
Context {CC : CharClass}.

Definition starts_literal (w : str) : bool :=
  match w with c :: s => (c =? 39)%N || ((c =? 36)%N && digit_next s) | [] => false end.

(** What the clause's tokens are, for every map of values that covers its placeholders. *)
Definition determined (w : str) : Prop :=
  (exists tt, (starts_literal w = true -> exists p l tt', tt = TFilled p l :: tt') /\
     forall ps s, subst ps false w = Ok s -> tokenize s = Ok (map (fill ps) tt)) \/
  (forall ps s, subst ps false w = Ok s -> exists e, tokenize s = Err e).

Lemma subst_head ps w s : subst ps false w = Ok s ->
  match w with
  | [] => s = []
  | c :: _ => exists d s', s = d :: s' /\ (d = c \/ d = 39%N) /\ (d = 39%N <-> starts_literal w = true)
  end.
Proof.
  destruct w as [|c w]; [by intros [= <-]|]. simpl. destruct (N.eqb_spec c 39) as [->|Hc].
  - rewrite subst_open. intros (out & _ & [= <-])%res_bind_ok. exists 39%N, out. by split_and!; [|left|].
  - destruct (N.eqb_spec c 36) as [->|Hd]; simpl; [destruct (digit_next w) eqn:E|].
    + rewrite subst_param by done. destruct (ps !! _) as [v|]; [|done]. intros (out & _ & [= <-])%res_bind_ok.
      eexists 39%N, _. by split_and!; [|right|].
    + rewrite subst_dollar by done. intros (out & _ & [= <-])%res_bind_ok. exists 36%N, out. by split_and!; [|left|].
    + rewrite subst_plain by done. intros (out & _ & [= <-])%res_bind_ok. exists c, out. by split_and!; [|left|].
Qed.

Lemma subst_not_quote ps w s : subst ps false w = Ok s -> starts_literal w = false ->
  match s with d :: _ => d <> 39%N | [] => True end.
Proof.
  intros H%subst_head Hw. destruct w as [|c w]; [by subst|]. destruct H as (d & s' & -> & _ & Hd). intros ->.
  rewrite (proj1 Hd eq_refl) in Hw. done.
Qed.

Lemma subst_prefix ps u w : Forall (λ c, c <> 39%N /\ c <> 36%N) u ->
  subst ps false (u ++ w) = out ← subst ps false w; Ok (u ++ out).
Proof.
  induction 1 as [|c u [H1 H2] _ IH]; [by simpl; destruct (subst ps false w)|]. cbn [app]. rewrite subst_plain, IH by done.
  by destruct (subst ps false w).
Qed.

Lemma determined_prefix u w : plain u -> stop w -> determined w -> determined (u ++ w).
Proof.
  intros Hu Hw Hd. destruct u as [|c u]; [done|].
  assert (Hpre : forall ps s, subst ps false ((c :: u) ++ w) = Ok s -> exists out, subst ps false w = Ok out /\ s = (c :: u) ++ out /\ stop out).
  { intros ps s. rewrite subst_prefix; [|eapply Forall_impl; [exact Hu|]; intros d Hd'; split; intros ->; apply Hd'; unfold special; tauto].
    intros (out & Ho & [= <-])%res_bind_ok. exists out. split_and!; [done..|]. apply subst_head in Ho.
    destruct w as [|d w]; [by subst|]. destruct Ho as (d' & s' & -> & [->| ->] & _); [done|by left]. }
  assert (Hs : starts_literal ((c :: u) ++ w) = false).
  { simpl. apply Forall_inv in Hu. destruct (N.eqb_spec c 39) as [->|_]; [by destruct Hu; left|].
    destruct (N.eqb_spec c 36) as [->|_]; [by destruct Hu; right; right|done]. }
  destruct (tokenize (c :: u)) as [toks|e] eqn:E.
  - destruct Hd as [(tt & _ & Htt)|He].
    + left. exists (map TFixed toks ++ tt). rewrite Hs. split; [done|]. intros ps s (out & Ho & -> & Hst)%Hpre.
      rewrite tokenize_local, E, (Htt _ _ Ho) by done. simpl. f_equal. rewrite map_app, map_map. simpl. by rewrite map_id.
    + right. intros ps s (out & Ho & -> & Hst)%Hpre. destruct (He _ _ Ho) as [e He'].
      exists e. by rewrite tokenize_local, E, He'.
  - right. intros ps s (out & _ & -> & Hst)%Hpre. exists e. by rewrite tokenize_local, E.
Qed.

(** A literal of the template, or a placeholder: [p] is what it holds, [s] what follows it. *)
Lemma determined_piece (p : piece) w s : starts_literal w = true -> determined s ->
  (forall ps out, subst ps false w = Ok out -> exists out', subst ps false s = Ok out' /\
     out = 39%N :: escape 39%N (piece_value ps p) ++ 39%N :: out') ->
  determined w.
Proof.
  intros Hw Hd Hsub. destruct (starts_literal s) eqn:Hs.
  - assert (Hq : forall ps out', subst ps false s = Ok out' -> exists t, out' = 39%N :: t).
    { intros ps out' H%subst_head. destruct s as [|c s]; [done|]. destruct H as (d & s' & -> & _ & [_ Hd']).
      rewrite Hd' by done. by exists s'. }
    destruct Hd as [(tt & Ht & Htt)|He].
    + left. destruct (Ht Hs) as (q & l & tt' & ->). exists (TFilled p (q :: l) :: tt'). split; [by repeat eexists|].
      intros ps out (out' & Ho & ->)%Hsub. destruct (Hq _ _ Ho) as [t ->]. rewrite tokenize_glue, (Htt _ _ Ho). done.
    + right. intros ps out (out' & Ho & ->)%Hsub. destruct (Hq _ _ Ho) as [t ->]. destruct (He _ _ Ho) as [e E].
      exists e. by rewrite tokenize_glue, E.
  - destruct Hd as [(tt & _ & Htt)|He].
    + left. exists (TFilled p [] :: tt). split; [by repeat eexists|]. intros ps out (out' & Ho & ->)%Hsub.
      rewrite tokenize_literal, (Htt _ _ Ho) by (by apply (subst_not_quote ps s)). done.
    + right. intros ps out (out' & Ho & ->)%Hsub. destruct (He _ _ Ho) as [e E].
      exists e. rewrite tokenize_literal, E by (by apply (subst_not_quote ps s)). done.
Qed.

Lemma escape_plain q b : Forall (λ c, c <> 39%N /\ c <> 36%N) b -> q <> 39%N /\ q <> 36%N ->
  Forall (λ c, c <> 39%N /\ c <> 36%N) (escape q b).
Proof. intros Hb Hq. induction Hb as [|c b Hc _ IH]; simpl; [constructor|]. destruct (c =? q)%N; repeat apply Forall_cons_2; done. Qed.

Lemma determined_ident b s : 36%N ∉ b -> 39%N ∉ b -> match s with d :: _ => d <> 34%N | [] => True end ->
  determined s -> determined (34%N :: escape 34%N b ++ 34%N :: s).
Proof.
  intros H36 H39 Hs Hd.
  assert (Hsub : forall ps out, subst ps false (34%N :: escape 34%N b ++ 34%N :: s) = Ok out ->
            exists out', subst ps false s = Ok out' /\ tokenize out = toks ← tokenize out'; Ok (TIdent b :: toks)).
  { intros ps out. replace (34%N :: escape 34%N b ++ 34%N :: s) with ((34%N :: escape 34%N b ++ [34%N]) ++ s) by (simpl; by rewrite <- app_assoc).
    rewrite subst_prefix.
    - intros (out' & Ho & [= <-])%res_bind_ok. exists out'. split; [done|].
      rewrite <- app_assoc. cbn [app]. rewrite tokenize_cons, lex_dquote, read_quoted_escape; [done|].
      apply subst_head in Ho. destruct s as [|c s]; [by subst|]. by destruct Ho as (d & s' & -> & [->| ->] & _).
    - constructor; [done|]. apply Forall_app. split; [|by repeat constructor]. apply escape_plain; [|done].
      apply Forall_forall. intros c Hc. split; intros ->; contradiction. }
  destruct Hd as [(tt & _ & Htt)|He].
  - left. exists (TFixed (TIdent b) :: tt). split; [done|]. intros ps out (out' & Ho & E)%Hsub. by rewrite E, (Htt _ _ Ho).
  - right. intros ps out (out' & Ho & E)%Hsub. destruct (He _ _ Ho) as [e E']. exists e. by rewrite E, E'.
Qed.

Definition is_special (c : char) : bool := (c =? 39)%N || (c =? 34)%N || (c =? 36)%N.
Lemma is_special_spec c : is_special c = true <-> special c.
Proof. unfold is_special, special. rewrite !orb_true_iff, !N.eqb_eq. tauto. Qed.

Lemma clean_prefix u w : plain u -> clean (u ++ w) -> clean w.
Proof.
  induction 1 as [|c u Hc _ IH]; [done|]. intros H. inversion H as [|? ? ? ? H'| | |]; subst; [by apply IH|..];
    exfalso; apply Hc; unfold special; tauto.
Qed.

Lemma clean_digits n w : Forall (λ c, is_ascii_digit c = true) n -> clean (n ++ w) -> clean w.
Proof.
  intros Hn. apply clean_prefix. eapply Forall_impl; [exact Hn|]. intros c Hc Hs%special_not_digit. congruence.
Qed.
Lemma span_true f s : Forall (λ c, f c = true) (span f s).1.
Proof. induction s as [|c s IH]; simpl; [constructor|]. destruct (f c) eqn:E; [by constructor|constructor]. Qed.
Lemma span_stops f s : match (span f s).2 with c :: _ => f c = false | [] => True end.
Proof. induction s as [|c s IH]; simpl; [done|]. by destruct (f c) eqn:E. Qed.

Lemma clean_determined w : clean w -> determined w.
Proof.
  remember (length w) as n eqn:Hn. revert w Hn. induction (lt_wf n) as [n _ IH]; intros w -> Hc.
  rewrite <- (span_app (λ c, negb (is_special c)) w) in *. pose proof (span_true (λ c, negb (is_special c)) w) as Hu.
  pose proof (span_stops (λ c, negb (is_special c)) w) as Hs. destruct (span _ w) as [u w']. simpl in *.
  assert (Hplain : plain u).
  { eapply Forall_impl; [exact Hu|]. intros c Hc' Hsp%is_special_spec. simpl in Hc'. by rewrite Hsp in Hc'. }
  assert (Hstop : stop w').
  { destruct w' as [|c w']; [done|]. apply negb_false_iff, is_special_spec in Hs. done. }
  apply clean_prefix in Hc; [|done]. apply determined_prefix; [done..|].
  assert (IH' : forall s, (length s < length w')%nat -> clean s -> determined s).
  { intros s Hl. apply (IH (length s)); [rewrite length_app; lia|done]. }
  clear IH Hu Hs Hplain u. destruct Hc as [|c s H39 H34 Hc|b s Hh Hc|s Hr|b s H36 H39 Hh Hc].
  - left. exists []. split; [done|]. by intros ps s [= <-].
  - simpl in Hstop. destruct Hstop as [->|[->| ->]]; [done..|]. destruct (digit_next s) eqn:Hd.
    + pose proof (span_true is_ascii_digit s) as Hn. pose proof (span_app is_ascii_digit s) as Hsa.
      apply (determined_piece (PieceParam (span is_ascii_digit s).1) _ (span is_ascii_digit s).2); [simpl; by rewrite Hd| |].
      * apply IH'; [simpl; pose proof (span_rest_short is_ascii_digit s); lia|]. rewrite <- Hsa in Hc. by apply clean_digits in Hc.
      * intros ps out. rewrite subst_param by done. simpl. destruct (ps !! _) as [v|]; [|done].
        intros (out' & Ho & [= <-])%res_bind_ok. by exists out'.
    + right. intros ps out. rewrite subst_dollar by done. intros (out' & _ & [= <-])%res_bind_ok.
      eexists. by rewrite tokenize_cons, lex_dollar.
  - apply (determined_piece (PieceText b) _ s); [done| |].
    + apply IH'; [|done]. simpl. rewrite length_app. simpl. lia.
    + intros ps out. rewrite subst_open, subst_literal by done. intros (out1 & (out' & Ho & [= <-])%res_bind_ok & [= <-])%res_bind_ok.
      by exists out'.
  - right. intros ps out. rewrite subst_open, subst_unterminated by done. intros [= <-].
    exists EUnterminatedString. by rewrite tokenize_cons, lex_quote, Hr.
  - apply determined_ident; [done..|]. apply IH'; [|done]. simpl. rewrite length_app. simpl. lia.
Qed.

End template.
