(* ===== verification/SqlText.v ===== *)
(** * The SQL the engine sends ([src/apps/engine/src/sql.rs], the query texts of [pg.rs] and
      [engine/membership.rs])

    A predicate becomes a WHERE fragment with numbered placeholders and the texts bound to them;
    [build] works on the compiled form, [build_json] on the JSON form, which keeps subqueries.
    [None] is a panic: a column index out of range, or the [unreachable!] of a subquery leaf. *)

From S2P Require Import Prelude BTree Value TableRef Schema Predicate Subquery.
From stdpp Require Import base option numbers strings gmap fin_maps sorting list.
#[local] Open Scope Z_scope.

(** [text_param_cmp]; 36 is the dollar sign. *)
Definition text_param_cmp (name op : str) (n : Z) (pg_type : option str) : str :=
  match pg_type with
  | Some ty => name ++ $" " ++ op ++ $" $" ++ Z_to_str n ++ $"::text::" ++ quote_ident ty
  | None => name ++ $"::text " ++ op ++ $" $" ++ Z_to_str n
  end.

(** [op_sql]. *)
Definition op_sql (op : LeafOp) : str :=
  match op with
  | OpEq => $"=" | OpNeq => $"<>" | OpLt => $"<" | OpLte => $"<=" | OpGt => $">" | OpGte => $">="
  | OpLike => $"LIKE"
  end.

(** The operators a collation matters to. *)
Definition is_ordering (op : LeafOp) : bool :=
  match op with OpLt | OpLte | OpGt | OpGte => true | _ => false end.
Definition collated (name : str) : str := name ++ $" collate " ++ [34%N] ++ $"C" ++ [34%N].

Definition is_null_sql (name : str) (is_null : bool) : str :=
  name ++ $" IS " ++ (if is_null then [] else $"NOT ") ++ $"NULL".

(** Operands joined by a connective, in parentheses; a connective of none is its unit. *)
Definition connect (unit_ op : str) (parts : list str) : str :=
  match parts with [] => unit_ | _ => $"(" ++ str_join op parts ++ $")" end.

Section compiled.
Context {FT : FloatText}.

Fixpoint build (p : CompiledPredicate) (ts : TableSchema) (params : list str) : option (str * list str) :=
  let build_all := fix go (ps : list CompiledPredicate) (params : list str) : option (list str * list str) :=
    match ps with
    | [] => Some ([], params)
    | q :: qs =>
        '(text, params) ← build q ts params;
        '(texts, params) ← go qs params;
        Some (text :: texts, params)
    end in
  match p with
  | MatchAll => Some ($"TRUE", params)
  | Cmp col op value =>
      column ← ts_columns ts !! col;
      let name := quote_ident column.1 in
      let o := op_sql op in
      match value with
      | VNull => Some (name ++ $" " ++ o ++ $" NULL", params)
      | VInt i => Some (name ++ $" " ++ o ++ $" " ++ Z_to_str i, params)
      | VFloat f => Some (name ++ $" " ++ o ++ $" " ++ f64_display f, params)
      | VBool b => Some (name ++ $" " ++ o ++ $" " ++ bool_str b, params)
      | VText s =>
          let params := params ++ [s] in
          let lhs := if is_ordering op && is_collatable_text ts col then collated name else name in
          Some (text_param_cmp lhs o (Z.of_nat (length params)) (mjoin (ts_pg_types ts !! col)), params)
      end
  | CIsNull col is_null =>
      column ← ts_columns ts !! col; Some (is_null_sql (quote_ident column.1) is_null, params)
  | CAnd ps => '(parts, params) ← build_all ps params; Some (connect $"TRUE" $" AND " parts, params)
  | COr ps => '(parts, params) ← build_all ps params; Some (connect $"FALSE" $" OR " parts, params)
  | CNot q => '(text, params) ← build q ts params; Some ($"(NOT " ++ text ++ $")", params)
  | InSubquery _ _ _ => None
  end.

(** [predicate_to_sql]: no fragment for [MatchAll]. *)
Definition predicate_to_sql (pred : CompiledPredicate) (ts : TableSchema) : option (option (str * list str)) :=
  match pred with
  | MatchAll => Some None
  | _ => Some <$> build pred ts []
  end.

(** [value_eq_sql]. *)
Definition value_eq_sql (col : str) (value : Value) (pg_type : option str) : str * list str :=
  let name := quote_ident col in
  match value with
  | VNull => (name ++ $" IS NULL", [])
  | VInt i => (name ++ $" = " ++ Z_to_str i, [])
  | VFloat f => (name ++ $" = " ++ f64_display f, [])
  | VBool b => (name ++ $" = " ++ bool_str b, [])
  | VText s => (text_param_cmp name $"=" 1 pg_type, [s])
  end.
End compiled.

Section json_form.
Context {SJ : SerdeJson} (schemas : gmap TableRef TableSchema) (start : Z).

(** The closures of [build_json]. *)
Definition json_pg_type (table : TableRef) (col : str) : option str :=
  ts ← schemas !! table; pg_type_of ts col.
Definition json_lhs (table : TableRef) (col : str) (op : LeafOp) : str :=
  let name := quote_ident col in
  let collatable := match schemas !! table with
                    | Some ts => match ts_index ts !! col with Some i => is_collatable_text ts i | None => false end
                    | None => false
                    end in
  if is_ordering op && collatable then collated name else name.
Definition json_param_cmp (table : TableRef) (col : str) (op : LeafOp) (params : list str) : str :=
  text_param_cmp (json_lhs table col op) (op_sql op) (start + Z.of_nat (length params) - 1) (json_pg_type table col).

Fixpoint build_json (p : PredicateJson) (table : TableRef) (params : list str) : option (str * list str) :=
  let build_all := fix go (ps : list PredicateJson) (params : list str) : option (list str * list str) :=
    match ps with
    | [] => Some ([], params)
    | q :: qs =>
        '(text, params) ← build_json q table params;
        '(texts, params) ← go qs params;
        Some (text :: texts, params)
    end in
  match p with
  | PLeaf col op value =>
      let name := quote_ident col in
      let o := op_sql op in
      match value with
      | JNull => Some (name ++ $" " ++ o ++ $" NULL", params)
      | JBool b => Some (name ++ $" " ++ o ++ $" " ++ bool_str b, params)
      | JNumber n => Some (name ++ $" " ++ o ++ $" " ++ json_to_string (JNumber n), params)
      | JString s => let params := params ++ [s] in Some (json_param_cmp table col op params, params)
      | other => let params := params ++ [json_to_string other] in Some (json_param_cmp table col op params, params)
      end
  | PIsNull col is_null => Some (is_null_sql (quote_ident col) is_null, params)
  | PAnd ps => '(parts, params) ← build_all ps params; Some (connect $"TRUE" $" AND " parts, params)
  | POr ps => '(parts, params) ← build_all ps params; Some (connect $"FALSE" $" OR " parts, params)
  | PNot q => '(text, params) ← build_json q table params; Some ($"(NOT " ++ text ++ $")", params)
  | PIn col (mkSubquery inner_table project where_) negated =>
      '(inner, params) ← match where_ with
                         | Some w => '(text, params) ← build_json w inner_table params; Some ($" WHERE " ++ text, params)
                         | None => Some ([], params)
                         end;
      from ← quote_qualified inner_table;
      Some (quote_ident col ++ $" " ++ (if negated then $"NOT IN" else $"IN") ++ $" (SELECT " ++
            quote_ident project ++ $" FROM " ++ from ++ inner ++ $")", params)
  end.

(** [predicate_json_to_sql]. *)
Definition predicate_json_to_sql (pred : PredicateJson) (table : TableRef) : option (str * list str) :=
  build_json pred table [].
End json_form.

(* ------------------------------------------------------------------ *)
(** ** The statements *)

(** [str::replace] of the single quote by two. *)
Definition sql_literal (s : str) : str :=
  [39%N] ++ concat ((λ c, if (c =? 39)%N then [39; 39]%N else [c]) <$> s) ++ [39%N].

(** The pair of arguments for one column of a row. *)
Definition column_args (column : str * ColumnType) : str :=
  let qi := quote_ident column.1 in
  match column.2 with
  | TyText => sql_literal column.1 ++ $", t." ++ qi ++ $"::text"
  | _ => sql_literal column.1 ++ $", to_jsonb(t." ++ qi ++ $")"
  end.

(** [slice::chunks]. *)
Fixpoint chunks_of {A} (fuel n : nat) (l : list A) : list (list A) :=
  match fuel, l with
  | S fuel, _ :: _ => take n l :: chunks_of fuel n (drop n l)
  | _, _ => []
  end.

(** [row_json_expr]: at most forty columns to a call. *)
Definition row_json_expr (ts : TableSchema) : str :=
  str_join $" || " (map (λ chunk, $"jsonb_build_object(" ++ str_join $", " (map column_args chunk) ++ $")")
                      (chunks_of (length (ts_columns ts)) 40 (ts_columns ts))).

Definition where_clause (where_sql : option (str * list str)) : str * list str :=
  match where_sql with Some (w, ps) => ($" where " ++ w, ps) | None => ([], []) end.

(** The [SELECT] of [backfill_open_in_txn]. *)
Definition backfill_select (ts : TableSchema) (where_sql : option (str * list str)) : option (str * list str) :=
  from ← quote_qualified (ts_table ts);
  let '(w, ps) := where_clause where_sql in
  Some ($"select " ++ row_json_expr ts ++ $" from " ++ from ++ $" t" ++ w, ps).

(** [order_term]. *)
Definition order_term (ts : TableSchema) (col : nat) (dir : str) : option str :=
  column ← ts_columns ts !! col;
  let ident := quote_ident column.1 in
  Some ((if is_collatable_text ts col then collated ident else ident) ++ $" " ++ dir).

(** The [SELECT] of [query_subset_in_txn]. *)
Definition subset_select (ts : TableSchema) (where_sql : option (str * list str))
    (order : option (nat * bool)) (limit offset : option Z) : option (str * list str) :=
  from ← quote_qualified (ts_table ts);
  let '(w, ps) := where_clause where_sql in
  order_sql ← match order with
              | Some (col, desc) =>
                  let d := if desc : bool then $"desc" else $"asc" in
                  t ← order_term ts col d; k ← order_term ts (ts_pk_index ts) d;
                  Some ($" order by " ++ t ++ $", " ++ k)
              | None =>
                  match limit, offset with
                  | None, None => Some []
                  | _, _ => k ← order_term ts (ts_pk_index ts) $"asc"; Some ($" order by " ++ k)
                  end
              end;
  let limit_sql := match limit with Some n => $" limit " ++ Z_to_str (Z.max n 0) | None => [] end in
  let offset_sql := match offset with Some n => $" offset " ++ Z_to_str (Z.max n 0) | None => [] end in
  Some ($"select " ++ row_json_expr ts ++ $" from " ++ from ++ $" t" ++ w ++ order_sql ++ limit_sql ++ offset_sql, ps).

(** The [SELECT] of [group_counts_in_txn]. *)
Definition group_counts_select (ts : TableSchema) (group_cols : list nat) : res str str :=
  cols ← try_map (λ i, ok_or ($"group col " ++ Z_to_str (Z.of_nat i) ++ $" out of range") (ts_columns ts !! i)) group_cols;
  from ← ok_or [] (quote_qualified (ts_table ts));
  Ok ($"select jsonb_build_object(" ++ str_join $", " (map column_args cols) ++ $"), count(*)::bigint from " ++
      from ++ $" t group by " ++ str_join $", " (map (λ c, $"t." ++ quote_ident c.1) cols)).

(** The fragment [Engine::query_subset] asks for. *)
Definition subset_where `{FloatText, SerdeJson} (schemas : gmap TableRef TableSchema) (ts : TableSchema)
    (where_ : option PredicateJson) : option (res str (option (str * list str))) :=
  match where_ with
  | Some p =>
      if predicate_has_subquery p then (λ x, Ok (Some x)) <$> predicate_json_to_sql schemas 1 p (ts_table ts)
      else match compile p ts with
           | Ok cp => Ok <$> predicate_to_sql cp ts
           | Err e => Some (Err e)
           end
  | None => Some (Ok None)
  end.
