(* ===== verification/SqlFacts.v ===== *)
(** * What the emitted SQL says

    Text never reaches the statement except through a numbered placeholder, and the fragment of a
    compiled predicate is a condition whose three-valued value on a row is the engine's own. *)

From S2P Require Import Prelude BTree Value TableRef Schema Predicate PredicateFacts PredicateTypes SqlText.
From stdpp Require Import base option numbers strings gmap fin_maps sorting list.
#[local] Open Scope Z_scope.

(* ------------------------------------------------------------------ *)
(** ** The JSON emitter: values stay out of the text *)

(** The texts a predicate holds as literals, in reading order, and the predicate without them. *)
Fixpoint text_literals {SJ : SerdeJson} (p : PredicateJson) : list str :=
  match p with
  | PLeaf _ _ value =>
      match value with
      | JNull | JBool _ | JNumber _ => []
      | JString s => [s]
      | other => [json_to_string other]
      end
  | PIsNull _ _ => []
  | PAnd ps | POr ps => concat (map text_literals ps)
  | PNot q => text_literals q
  | PIn _ (mkSubquery _ _ w) _ => match w with Some q => text_literals q | None => [] end
  end.
Fixpoint erase (p : PredicateJson) : PredicateJson :=
  match p with
  | PLeaf col op value =>
      PLeaf col op match value with JNull | JBool _ | JNumber _ => value | _ => JString [] end
  | PIsNull col b => PIsNull col b
  | PAnd ps => PAnd (map erase ps)
  | POr ps => POr (map erase ps)
  | PNot q => PNot (erase q)
  | PIn col (mkSubquery t pr w) negated =>
      PIn col (mkSubquery t pr match w with Some q => Some (erase q) | None => None end) negated
  end.

(** A fragment as fixed text and placeholders. *)
Inductive frag : Type := Fixed (s : str) | Hole (n : Z).
Definition frag_text (f : frag) : str := match f with Fixed s => s | Hole n => $"$" ++ Z_to_str n end.
Definition frags_text (fs : list frag) : str := concat (map frag_text fs).
Definition holes (fs : list frag) : list Z := omap (λ f, match f with Hole n => Some n | Fixed _ => None end) fs.

Lemma frags_text_app fs gs : frags_text (fs ++ gs) = frags_text fs ++ frags_text gs.
Proof. unfold frags_text. by rewrite map_app, concat_app. Qed.
Lemma holes_app fs gs : holes (fs ++ gs) = holes fs ++ holes gs.
Proof. apply omap_app. Qed.

(** A text whose placeholders are the next [n] from [k]. *)
Definition numbered (k : Z) (n : nat) (text : str) : Prop :=
  exists fs, text = frags_text fs /\ holes fs = seqZ k (Z.of_nat n).

Lemma numbered_fixed k s : numbered k 0 s.
Proof. exists [Fixed s]. split; [unfold frags_text; simpl; by rewrite app_nil_r|done]. Qed.
Lemma numbered_app k n m s t : numbered k n s -> numbered (k + Z.of_nat n) m t -> numbered k (n + m) (s ++ t).
Proof.
  intros (fs & -> & Hf) (gs & -> & Hg). exists (fs ++ gs). split; [by rewrite frags_text_app|].
  rewrite holes_app, Hf, Hg, Nat2Z.inj_add, seqZ_app by lia. done.
Qed.
Lemma numbered_around k n a s b : numbered k n s -> numbered k n (a ++ s ++ b).
Proof.
  intros H. replace n with (0 + (n + 0))%nat by lia. apply numbered_app; [apply numbered_fixed|].
  rewrite Z.add_0_r. apply numbered_app; [done|apply numbered_fixed].
Qed.
Lemma numbered_param name op k cast : numbered k 1 (text_param_cmp name op k cast).
Proof.
  assert (H : numbered k 1 ($"$" ++ Z_to_str k)).
  { exists [Hole k]. split; [unfold frags_text; simpl; by rewrite app_nil_r|]. simpl. by rewrite seqZ_cons, seqZ_nil. }
  unfold text_param_cmp. destruct cast as [ty|].
  - apply (numbered_around _ _ (name ++ $" " ++ op ++ $" ") _ ($"::text::" ++ quote_ident ty)) in H.
    by rewrite <- !app_assoc in H.
  - apply (numbered_around _ _ (name ++ $"::text " ++ op ++ $" ") _ []) in H. by rewrite <- !app_assoc, app_nil_r in H.
Qed.

(** Texts emitted one after the other. *)
Inductive numbered_all : Z -> nat -> list str -> Prop :=
  | numbered_none k : numbered_all k 0 []
  | numbered_some k n m t ts : numbered k n t -> numbered_all (k + Z.of_nat n) m ts -> numbered_all k (n + m) (t :: ts).

Lemma numbered_join sep k n ts : numbered_all k n ts -> numbered k n (str_join sep ts).
Proof.
  induction 1 as [k|k n m t ts Ht Hts IH]; [apply numbered_fixed|].
  destruct ts as [|t' ts]; [inversion Hts; subst; by rewrite Nat.add_0_r|].
  change (str_join sep (t :: t' :: ts)) with (t ++ sep ++ str_join sep (t' :: ts)).
  apply numbered_app; [done|]. replace m with (0 + m)%nat by lia. apply numbered_app; [apply numbered_fixed|].
  by rewrite Z.add_0_r.
Qed.
Lemma numbered_connect unit_ op k n ts : numbered_all k n ts -> numbered k n (connect unit_ op ts).
Proof.
  intros H. destruct ts as [|t ts]; [inversion H; subst; apply numbered_fixed|].
  unfold connect. by apply numbered_around, numbered_join.
Qed.

Section json_form.
Context {SJ : SerdeJson} (schemas : gmap TableRef TableSchema) (start : Z).

Fixpoint build_jsons (ps : list PredicateJson) (table : TableRef) (params : list str) : option (list str * list str) :=
  match ps with
  | [] => Some ([], params)
  | q :: qs =>
      '(text, params) ← build_json schemas start q table params;
      '(texts, params) ← build_jsons qs table params;
      Some (text :: texts, params)
  end.
Lemma build_json_connectives ps table params :
  build_json schemas start (PAnd ps) table params =
  ('(parts, params) ← build_jsons ps table params; Some (connect $"TRUE" $" AND " parts, params)) /\
  build_json schemas start (POr ps) table params =
  ('(parts, params) ← build_jsons ps table params; Some (connect $"FALSE" $" OR " parts, params)).
Proof.
  cbn [build_json]. set (go := fix go (ps : list PredicateJson) (params : list str) : option (list str * list str) := _).
  assert (H : forall ps params, go ps params = build_jsons ps table params); [|by rewrite H].
  clear. induction ps as [|p ps IH]; intros params; simpl; [done|].
  destruct (build_json schemas start p table params) as [[t out]|]; simpl; [|done]. by rewrite IH.
Qed.
Lemma build_json_and ps table params : build_json schemas start (PAnd ps) table params =
  '(parts, params) ← build_jsons ps table params; Some (connect $"TRUE" $" AND " parts, params).
Proof. apply build_json_connectives. Qed.
Lemma build_json_or ps table params : build_json schemas start (POr ps) table params =
  '(parts, params) ← build_jsons ps table params; Some (connect $"FALSE" $" OR " parts, params).
Proof. apply build_json_connectives. Qed.

Definition in_head (col : str) (negated : bool) (project from : str) : str :=
  quote_ident col ++ $" " ++ (if negated then $"NOT IN" else $"IN") ++ $" (SELECT " ++ quote_ident project ++
  $" FROM " ++ from ++ $" WHERE ".
Lemma build_json_in col t project q negated table params :
  build_json schemas start (PIn col (mkSubquery t project (Some q)) negated) table params =
  '(text, params) ← build_json schemas start q t params;
  from ← quote_qualified t;
  Some (in_head col negated project from ++ text ++ $")", params).
Proof.
  cbn [build_json]. destruct (build_json schemas start q t params) as [[text out]|]; [|done]. cbn [mbind option_bind].
  destruct (quote_qualified t) as [from|]; [|done]. cbn [mbind option_bind]. do 2 f_equal. unfold in_head.
  by rewrite <- !app_assoc.
Qed.
#[local] Opaque in_head.

(** The text depends on the predicate without its literals and on how many parameters precede it. *)
Definition splits (p : PredicateJson) : Prop := forall table params blanks, length blanks = length params ->
  build_json schemas start p table params =
  (λ t, (t, params ++ text_literals p)) <$> (fst <$> build_json schemas start (erase p) table blanks) /\
  forall t out, build_json schemas start (erase p) table blanks = Some (t, out) ->
    out = blanks ++ text_literals (erase p) /\ length (text_literals (erase p)) = length (text_literals p).

Lemma build_jsons_split ps : Forall splits ps -> forall table params blanks, length blanks = length params ->
  build_jsons ps table params =
  (λ t, (t, params ++ concat (map text_literals ps))) <$> (fst <$> build_jsons (map erase ps) table blanks) /\
  forall t out, build_jsons (map erase ps) table blanks = Some (t, out) ->
    out = blanks ++ concat (map text_literals (map erase ps)) /\
    length (concat (map text_literals (map erase ps))) = length (concat (map text_literals ps)).
Proof.
  induction 1 as [|p ps Hp _ IH]; intros table params blanks Hl; simpl.
  { split; [by rewrite app_nil_r|]. intros t out [= <- <-]. by rewrite app_nil_r. }
  destruct (Hp table params blanks Hl) as [E Ho]. rewrite E.
  destruct (build_json schemas start (erase p) table blanks) as [[t out]|] eqn:Ep; simpl; [|done].
  destruct (Ho t out eq_refl) as [-> Hn].
  destruct (IH table (params ++ text_literals p) (blanks ++ text_literals (erase p))) as [E' Ho'].
  { rewrite !length_app. lia. }
  rewrite E'. destruct (build_jsons (map erase ps) table (blanks ++ text_literals (erase p))) as [[ts out]|] eqn:Eps; simpl; [|done].
  destruct (Ho' ts out eq_refl) as [-> Hn']. rewrite <- app_assoc. split; [done|]. intros t' out' [= _ <-].
  rewrite !length_app, <- app_assoc. by rewrite Hn, Hn'.
Qed.

Lemma build_json_splits p : splits p.
Proof.
  induction p as [col op v|col b|ps IH|ps IH|p IH|col t pr w neg IH] using PredicateJson_rect'; intros table params blanks Hl.
  - assert (Ht : forall s, build_json schemas start (PLeaf col op (JString [])) table blanks =
        Some (json_param_cmp schemas start table col op (blanks ++ [[]]), blanks ++ [[]]) /\
        json_param_cmp schemas start table col op (params ++ [s]) = json_param_cmp schemas start table col op (blanks ++ [[]])).
    { intros s. split; [done|]. unfold json_param_cmp. by rewrite !length_app, Hl. }
    destruct v as [|b|n|s|l|m]; simpl; (split; [|intros t out [= <- <-]; by rewrite ?app_nil_r]); rewrite ?app_nil_r; try done;
      f_equal; f_equal; unfold json_param_cmp; by rewrite !length_app, Hl.
  - simpl. split; [by rewrite app_nil_r|]. intros t out [= <- <-]. by rewrite app_nil_r.
  - simpl erase. rewrite !build_json_and. destruct (build_jsons_split ps IH table params blanks Hl) as [E Ho]. rewrite E.
    destruct (build_jsons (map erase ps) table blanks) as [[ts out]|] eqn:Eps; [|done]. destruct (Ho ts out eq_refl) as [-> Hn].
    simpl. split; [done|]. by intros t out [= <- <-].
  - simpl erase. rewrite !build_json_or. destruct (build_jsons_split ps IH table params blanks Hl) as [E Ho]. rewrite E.
    destruct (build_jsons (map erase ps) table blanks) as [[ts out]|] eqn:Eps; [|done]. destruct (Ho ts out eq_refl) as [-> Hn].
    simpl. split; [done|]. by intros t out [= <- <-].
  - simpl. destruct (IH table params blanks Hl) as [E Ho]. rewrite E.
    destruct (build_json schemas start (erase p) table blanks) as [[t out]|] eqn:Ep; [|done]. destruct (Ho t out eq_refl) as [-> Hn].
    simpl. split; [done|]. by intros t' out [= <- <-].
  - simpl. destruct w as [q|]; simpl.
    + destruct (IH q eq_refl t params blanks Hl) as [E Ho]. rewrite E.
      destruct (build_json schemas start (erase q) t blanks) as [[t' out]|] eqn:Ep; [|done]. destruct (Ho t' out eq_refl) as [-> Hn].
      simpl. destruct (quote_qualified t); [|done]. simpl. split; [done|]. by intros ? ? [= <- <-].
    + destruct (quote_qualified t); [|done]. simpl. split; [by rewrite app_nil_r|]. intros ? ? [= <- <-]. by rewrite app_nil_r.
Qed.

(** Its placeholders are the numbers of its own parameters. *)
Definition numbers (p : PredicateJson) : Prop := forall table params t out,
  build_json schemas start p table params = Some (t, out) ->
  exists n, length out = (length params + n)%nat /\ numbered (start + Z.of_nat (length params)) n t.

Lemma build_jsons_number ps : Forall numbers ps -> forall table params ts out,
  build_jsons ps table params = Some (ts, out) ->
  exists n, length out = (length params + n)%nat /\ numbered_all (start + Z.of_nat (length params)) n ts.
Proof.
  induction 1 as [|p ps Hp _ IH]; intros table params ts out; simpl.
  { intros [= <- <-]. exists 0%nat. split; [lia|constructor]. }
  intros ([t out1] & (n & Hn & Ht)%Hp & H)%bind_Some. apply bind_Some in H as ([ts' out2] & (m & Hm & Hts)%IH & [= <- <-]).
  exists (n + m)%nat. split; [lia|]. constructor; [done|]. by replace (start + Z.of_nat (length params) + Z.of_nat n) with (start + Z.of_nat (length out1)) by lia.
Qed.

Lemma build_json_numbers p : numbers p.
Proof.
  induction p as [col op v|col b|ps IH|ps IH|p IH|col t pr w neg IH] using PredicateJson_rect'; intros table params text out.
  - assert (Hp : forall s, exists n, length (params ++ [s : str]) = (length params + n)%nat /\
        numbered (start + Z.of_nat (length params)) n (json_param_cmp schemas start table col op (params ++ [s]))).
    { intros s. exists 1%nat. split; [by rewrite length_app|]. unfold json_param_cmp. rewrite length_app. simpl.
      replace (start + Z.of_nat (length params + 1) - 1) with (start + Z.of_nat (length params)) by lia. apply numbered_param. }
    destruct v as [|b|n|s|l|m]; simpl; intros [= <- <-]; try apply Hp;
      (exists 0%nat; split; [lia|apply numbered_fixed]).
  - intros [= <- <-]. exists 0%nat. split; [lia|apply numbered_fixed].
  - rewrite build_json_and. intros ([ts out'] & (n & Hn & Ht)%(build_jsons_number ps IH) & [= <- <-])%bind_Some.
    exists n. split; [done|by apply numbered_connect].
  - rewrite build_json_or. intros ([ts out'] & (n & Hn & Ht)%(build_jsons_number ps IH) & [= <- <-])%bind_Some.
    exists n. split; [done|by apply numbered_connect].
  - simpl. intros ([t out'] & (n & Hn & Ht)%IH & [= <- <-])%bind_Some. exists n. split; [done|]. by apply (numbered_around _ _ $"(NOT ").
  - destruct w as [q|].
    + rewrite build_json_in. intros ([t' out'] & (n & Hn & Ht)%(IH q eq_refl) & H)%bind_Some.
      apply bind_Some in H as (from & _ & [= <- <-]). exists n. split; [done|]. by apply numbered_around.
    + simpl. intros (from & _ & [= <- <-])%bind_Some. exists 0%nat. split; [lia|apply numbered_fixed].
Qed.

(** whatever a predicate holds as text is sent as a bound parameter: the parameters are its text
    literals in reading order, the placeholders of the fragment are numbered one to one with them, and
    the fragment itself is the same for every predicate that differs only in what those texts are. *)
Theorem bound_text_stays_out_of_sql p table text params :
  predicate_json_to_sql schemas start p table = Some (text, params) ->
  params = text_literals p /\
  (exists fs, text = frags_text fs /\ holes fs = seqZ start (Z.of_nat (length params))) /\
  (forall q, erase q = erase p -> predicate_json_to_sql schemas start q table = Some (text, text_literals q)).
Proof.
  unfold predicate_json_to_sql. intros H. pose proof H as Hnum. apply build_json_numbers in Hnum as (n & Hn & Hf). simpl in Hn, Hf.
  destruct (build_json_splits p table [] [] eq_refl) as [E _]. rewrite E in H.
  destruct (build_json schemas start (erase p) table []) as [[t out]|] eqn:Ep; [|done]. injection H as <- <-. split; [done|]. split.
  - rewrite Z.add_0_r, <- Hn in Hf. exact Hf.
  - intros q Hq. destruct (build_json_splits q table [] [] eq_refl) as [-> _]. by rewrite Hq, Ep.
Qed.
End json_form.
