(* ===== verification/SqlMeaning.v ===== *)
(** * The fragment of a compiled predicate filters as the engine does

    [cond] is the SQL the engine writes and [cond_value] what Postgres makes of it on a row: the
    three-valued logic, the comparisons of integers, doubles and booleans, the equality of plain text
    and its order under the collation "C".  What depends on a native type or another collation has no
    value here. *)

From S2P Require Import Prelude BTree Value TableRef Schema Predicate PredicateFacts PredicateTypes SqlText.
From stdpp Require Import base option numbers strings gmap fin_maps sorting list.
#[local] Open Scope Z_scope.

(* ------------------------------------------------------------------ *)
(** ** Conditions *)

Inductive operand : Type :=
  | ONull
  | OInt (i : Z)
  | OFloat (f : f64)
  | OBool (b : bool)
  | OParam (n : Z) (cast : option str).
Inductive cond : Type :=
  | QCompare (col : str) (collate_c : bool) (op : LeafOp) (rhs : operand)
  | QNull (col : str) (is_null : bool)
  | QConst (b : bool)
  | QAnd (cs : list cond)
  | QOr (cs : list cond)
  | QNot (c : cond).

Definition tri_all (vs : list (option Tri)) : option Tri := foldr tri_and TTrue <$> mapM id vs.
Definition tri_any (vs : list (option Tri)) : option Tri := foldr tri_or TFalse <$> mapM id vs.

Section meaning.
Context {FT : FloatText}.

Definition operand_text (o : operand) : str :=
  match o with
  | ONull => $"NULL"
  | OInt i => Z_to_str i
  | OFloat f => f64_display f
  | OBool b => bool_str b
  | OParam n cast => $"$" ++ Z_to_str n ++ match cast with Some ty => $"::text::" ++ quote_ident ty | None => [] end
  end.
(** Without a native type the column itself is read as text. *)
Definition column_text (col : str) (collate_c : bool) (rhs : operand) : str :=
  quote_ident col ++ (if collate_c then $" collate " ++ [34%N] ++ $"C" ++ [34%N] else []) ++
  match rhs with OParam _ None => $"::text" | _ => [] end.
Fixpoint cond_text (c : cond) : str :=
  match c with
  | QCompare col collate_c op rhs => column_text col collate_c rhs ++ $" " ++ op_sql op ++ $" " ++ operand_text rhs
  | QNull col b => quote_ident col ++ (if b then $" IS NULL" else $" IS NOT NULL")
  | QConst b => if b then $"TRUE" else $"FALSE"
  | QAnd cs => $"(" ++ str_join $" AND " (map cond_text cs) ++ $")"
  | QOr cs => $"(" ++ str_join $" OR " (map cond_text cs) ++ $")"
  | QNot c => $"(NOT " ++ cond_text c ++ $")"
  end.

Definition operand_value (params : list str) (o : operand) : option Value :=
  match o with
  | ONull => Some VNull
  | OInt i => Some (VInt i)
  | OFloat f => if f64_is_finite f then Some (VFloat f) else None
  | OBool b => Some (VBool b)
  | OParam n _ => VText <$> params !! Z.to_nat (n - 1)
  end.

Definition by_order (op : LeafOp) (o : comparison) : option Tri :=
  match op with
  | OpEq => Some (Tri_from_bool match o with Eq => true | _ => false end)
  | OpNeq => Some (Tri_from_bool match o with Eq => false | _ => true end)
  | OpLt => Some (Tri_from_bool match o with Lt => true | _ => false end)
  | OpLte => Some (Tri_from_bool match o with Gt => false | _ => true end)
  | OpGt => Some (Tri_from_bool match o with Gt => true | _ => false end)
  | OpGte => Some (Tri_from_bool match o with Lt => false | _ => true end)
  | OpLike => None
  end.

(** The types whose equality is that of the characters and whose order under "C" is that of the
    code points. *)
Definition plain_type (cast : option str) : bool :=
  match cast with None => true | Some ty => bool_decide (ty ∈ [$"text"; $"varchar"; $"name"]) end.
Definition compare_value (collate_c : bool) (op : LeafOp) (rhs : operand) (a b : Value) : option Tri :=
  if value_is_null a || value_is_null b then Some TUnknown
  else match a, b with
       | VInt x, VInt y => by_order op (Z.compare x y)
       | VFloat x, VFloat y => by_order op (ordered_float_cmp x y)
       | VBool x, VBool y => by_order op (bool_cmp x y)
       | VText x, VText y =>
           if match rhs with OParam _ cast => plain_type cast | _ => false end && (negb (is_ordering op) || collate_c)
           then by_order op (str_cmp x y) else None
       | _, _ => None
       end.

Fixpoint cond_value (cols : str -> Value) (params : list str) (c : cond) : option Tri :=
  match c with
  | QCompare col collate_c op rhs => v ← operand_value params rhs; compare_value collate_c op rhs (cols col) v
  | QNull col b => Some (Tri_from_bool (Bool.eqb (value_is_null (cols col)) b))
  | QConst b => Some (Tri_from_bool b)
  | QAnd cs => tri_all (map (cond_value cols params) cs)
  | QOr cs => tri_any (map (cond_value cols params) cs)
  | QNot c => Tri_not <$> cond_value cols params c
  end.

(** A row as Postgres names its columns. *)
Definition named_cell (ts : TableSchema) (row : Row) (col : str) : Value :=
  match list_find (λ c : str * ColumnType, c.1 = col) (ts_columns ts) with
  | Some (i, _) => cell row i
  | None => VNull
  end.

(** The predicates all of whose comparisons have a value: no [LIKE], finite doubles, and text only
    against columns of a plain type, ordered only where the collation is fixed. *)
Definition portable_leaf (ts : TableSchema) (col : nat) (op : LeafOp) (v : Value) : bool :=
  match op with OpLike => false | _ => true end &&
  match v with
  | VFloat f => f64_is_finite f
  | VText _ => plain_type (mjoin (ts_pg_types ts !! col)) && (negb (is_ordering op) || is_collatable_text ts col)
  | _ => true
  end.
Fixpoint portable (ts : TableSchema) (p : CompiledPredicate) : bool :=
  match p with
  | MatchAll | CIsNull _ _ => true
  | Cmp col op v => portable_leaf ts col op v
  | CAnd ps | COr ps => forallb (portable ts) ps
  | CNot q => portable ts q
  | InSubquery _ _ _ => false
  end.
End meaning.

Section emitter.
Context {FT : FloatText} {FE : FaultEnv} (ts : TableSchema) (ev : SubqueryEval).
Context (names : NoDup (ts_columns ts).*1) (no_fault : fault_active <> OffByOneCmp).

Lemma named_cell_at col name ty row : ts_columns ts !! col = Some (name, ty) -> named_cell ts row name = cell row col.
Proof.
  intros Hc. unfold named_cell. destruct (list_find _ _) as [[i c]|] eqn:E.
  - apply list_find_Some in E as (Hi & He & _). f_equal. eapply NoDup_lookup; [exact names| |].
    + rewrite list_lookup_fmap, Hi. simpl. by rewrite He.
    + by rewrite list_lookup_fmap, Hc.
  - exfalso. apply list_find_None in E. rewrite Forall_lookup in E. by apply (E col (name, ty)).
Qed.

(** A comparison of two values of one type. *)
Lemma cmp_by_order a op b : value_is_null a || value_is_null b = false -> forall o, ordering a b = Some o ->
  value_cmp a b = o -> op <> OpLike -> by_order op o = Some (cmp_tri a op b).
Proof.
  intros Hn o Ho Hv Hop. unfold cmp_tri. rewrite Hn, Ho. unfold value_eqb. rewrite Hv.
  destruct op, o; try done; simpl; by destruct fault_active.
Qed.

Lemma leaf_value op v ty a (rhs : operand) collate_c : kind_ok v ty -> kind_ok a ty -> op <> OpLike ->
  match v with
  | VText _ => match rhs with OParam _ c => plain_type c | _ => false end && (negb (is_ordering op) || collate_c) = true
  | _ => True
  end ->
  compare_value collate_c op rhs a v = Some (cmp_tri a op v).
Proof.
  intros Hv Ha Hop Htext. unfold compare_value. destruct (value_is_null a || value_is_null v) eqn:Hn.
  { unfold cmp_tri. by rewrite Hn. }
  destruct a as [|x|x|x|x], v as [|y|y|y|y], ty; try done; try (by apply cmp_by_order).
  rewrite Htext. by apply cmp_by_order.
Qed.

Fixpoint builds (ps : list CompiledPredicate) (params : list str) : option (list str * list str) :=
  match ps with
  | [] => Some ([], params)
  | q :: qs =>
      '(text, params) ← build q ts params;
      '(texts, params) ← builds qs params;
      Some (text :: texts, params)
  end.
Lemma build_connectives ps params :
  build (CAnd ps) ts params = ('(parts, params) ← builds ps params; Some (connect $"TRUE" $" AND " parts, params)) /\
  build (COr ps) ts params = ('(parts, params) ← builds ps params; Some (connect $"FALSE" $" OR " parts, params)).
Proof.
  cbn [build]. set (go := fix go (ps : list CompiledPredicate) (params : list str) : option (list str * list str) := _).
  assert (H : forall ps params, go ps params = builds ps params); [|by rewrite H].
  clear. induction ps as [|p ps IH]; intros params; simpl; [done|].
  destruct (build p ts params) as [[t out]|]; simpl; [|done]. by rewrite IH.
Qed.

(** The fragment emitted after [params] is a condition with the engine's value on every row. *)
Definition means (p : CompiledPredicate) : Prop := portable ts p = true -> typed ts p -> forall params,
  exists more q, build p ts params = Some (cond_text q, params ++ more) /\
    forall row tail, row_typed ts row ->
      cond_value (named_cell ts row) (params ++ more ++ tail) q = Some (eval_ctx p row ev).

Lemma builds_mean ps : Forall means ps -> forallb (portable ts) ps = true -> foldr (λ q, and (typed ts q)) True ps ->
  forall params, exists more qs, builds ps params = Some (map cond_text qs, params ++ more) /\ length qs = length ps /\
    forall row tail, row_typed ts row ->
      mapM id (map (cond_value (named_cell ts row) (params ++ more ++ tail)) qs) = Some (map (λ p, eval_ctx p row ev) ps).
Proof.
  induction 1 as [|p ps Hp _ IH]; simpl.
  { intros _ _ params. exists [], []. rewrite app_nil_r. done. }
  intros [Hpp Hps]%andb_true_iff [Ht Hts] params. destruct (Hp Hpp Ht params) as (more & q & Hb & Hq). rewrite Hb. simpl.
  destruct (IH Hps Hts (params ++ more)) as (more' & qs & Hbs & Hlen & Hqs). rewrite Hbs. simpl.
  exists (more ++ more'), (q :: qs). split_and!; [by rewrite app_assoc|simpl; by rewrite Hlen|].
  intros row tail Hr. specialize (Hq row (more' ++ tail) Hr). specialize (Hqs row tail Hr).
  rewrite <- !app_assoc in *. simpl. rewrite Hq. simpl. by rewrite Hqs.
Qed.

Ltac emit :=
  cbn [build]; match goal with H : ts_columns ts !! _ = Some _ |- _ => rewrite H end;
  cbn [mbind option_bind fst cond_text operand_text]; unfold column_text; rewrite ?app_nil_l, ?app_nil_r; reflexivity.

Lemma leaf_means col op v : means (Cmp col op v).
Proof.
  simpl. intros Hp (ty & Hty & Hk) params. unfold column_type in Hty.
  destruct (ts_columns ts !! col) as [[name ty']|] eqn:Hc; [|done]. injection Hty as ->.
  apply andb_true_iff in Hp as [Hop Hp].
  assert (Hlike : op <> OpLike) by (by destruct op).
  assert (Hval : forall row, row_typed ts row -> kind_ok (named_cell ts row name) ty /\ named_cell ts row name = cell row col).
  { intros row Hr. rewrite (named_cell_at col name ty row Hc). split; [|done]. apply (cell_kind ts row col ty Hr). unfold column_type. by rewrite Hc. }
  assert (Hscalar : forall o, (forall ps, operand_value ps o = Some v) -> (forall s, v <> VText s) ->
            forall row ps, row_typed ts row ->
              cond_value (named_cell ts row) ps (QCompare name false op o) = Some (cmp_tri (cell row col) op v)).
  { intros o Ho Hv row ps Hr. simpl. rewrite Ho. simpl. destruct (Hval row Hr) as [Ha <-].
    apply (leaf_value op v ty); [done..|]. by destruct v; try done; destruct (Hv s). }
  destruct v as [|i|s|b|f].
  - exists [], (QCompare name false op ONull). rewrite app_nil_r. split; [|intros row tail Hr; by apply Hscalar].
    emit.
  - exists [], (QCompare name false op (OInt i)). rewrite app_nil_r. split; [|intros row tail Hr; by apply Hscalar].
    emit.
  - set (cast := mjoin (ts_pg_types ts !! col)) in *. apply andb_true_iff in Hp as [Hplain Hord].
    exists [s], (QCompare name (is_ordering op && is_collatable_text ts col) op (OParam (Z.of_nat (length (params ++ [s]))) cast)). split.
    + cbn [build]. rewrite Hc. cbn [mbind option_bind fst cond_text operand_text]. fold cast. unfold column_text, text_param_cmp, collated.
      destruct (is_ordering op && is_collatable_text ts col), cast; rewrite ?app_nil_l, ?app_nil_r, <- ?app_assoc; reflexivity.
    + intros row tail Hr. simpl. rewrite length_app. simpl.
      replace (Z.to_nat (Z.of_nat (length params + 1) - 1)) with (length params) by lia.
      rewrite list_lookup_middle by done. simpl. destruct (Hval row Hr) as [Ha <-].
      apply (leaf_value op (VText s) ty); [done..|]. rewrite Hplain. simpl.
      by destruct (is_ordering op), (is_collatable_text ts col).
  - exists [], (QCompare name false op (OBool b)). rewrite app_nil_r. split; [|intros row tail Hr; by apply Hscalar].
    emit.
  - exists [], (QCompare name false op (OFloat f)). rewrite app_nil_r. split.
    + emit.
    + intros row tail Hr. apply Hscalar; [|done|done]. intros ps. simpl. by rewrite Hp.
Qed.

Lemma build_means p : means p.
Proof.
  induction p as [|col op v|col b|ps IH|ps IH|p IH|col sig neg] using CompiledPredicate_rect'.
  - intros _ _ params. exists [], (QConst true). by rewrite app_nil_r.
  - apply leaf_means.
  - simpl. intros _ [ty Hty] params. unfold column_type in Hty. destruct (ts_columns ts !! col) as [[name ty']|] eqn:Hc; [|done].
    exists [], (QNull name b). rewrite app_nil_r. split; [cbn [build]; rewrite Hc; by destruct b|]. intros row tail Hr. simpl.
    by rewrite (named_cell_at col name ty' row Hc).
  - intros Hp Ht params. destruct (builds_mean ps IH Hp Ht params) as (more & qs & Hb & Hlen & Hq).
    rewrite (proj1 (build_connectives ps params)), Hb. destruct qs as [|q qs].
    + exists more, (QConst true). split; [done|]. intros row tail _. by destruct ps.
    + exists more, (QAnd (q :: qs)). split; [done|]. intros row tail Hr. cbn [cond_value]. unfold tri_all.
      rewrite (Hq row tail Hr). simpl. by rewrite <- eval_and.
  - intros Hp Ht params. destruct (builds_mean ps IH Hp Ht params) as (more & qs & Hb & Hlen & Hq).
    rewrite (proj2 (build_connectives ps params)), Hb. destruct qs as [|q qs].
    + exists more, (QConst false). split; [done|]. intros row tail _. by destruct ps.
    + exists more, (QOr (q :: qs)). split; [done|]. intros row tail Hr. cbn [cond_value]. unfold tri_any.
      rewrite (Hq row tail Hr). simpl. by rewrite <- eval_or.
  - intros Hp Ht params. destruct (IH Hp Ht params) as (more & q & Hb & Hq). exists more, (QNot q). simpl. rewrite Hb.
    split; [done|]. intros row tail Hr. simpl. by rewrite Hq.
  - done.
Qed.

End emitter.
