(* ===== verification/MembershipModel.v ===== *)
(** * A membership pipeline in one process

    The subquery registry is proved against dbsp's documented behaviour, the interface
    [MembershipPipeline] and its laws [MembershipLaws].  Here is an executable pipeline that keeps
    those laws: the relation is a finite map, and the published snapshots are tabulated from it.
    The worked instances run the registry over it. *)

From S2P Require Import Prelude BTree Value TableRef Schema Predicate Gate Output SubqCircuit Subquery SubqueryFacts.
From stdpp Require Import base option numbers strings gmap fin_maps sorting list.
#[local] Open Scope Z_scope.

(* ------------------------------------------------------------------ *)
(** ** Tabulating a function *)

Section tabulate.
Context {K V : Type} (cmp : K -> K -> comparison) `{!TotalCmp cmp} (f : K -> V).

Definition bt_tabulate (ks : list K) : btree K V := foldr (λ k m, bt_insert cmp k (f k) m) [] ks.

Lemma bt_tabulate_sorted ks : bt_sorted cmp (bt_tabulate ks).
Proof. induction ks as [|k ks IH]; simpl; [constructor|by apply bt_insert_sorted]. Qed.

Lemma bt_tabulate_lookup ks k : (forall k', cmp k k' = Eq -> f k' = f k) ->
  bt_lookup cmp k (bt_tabulate ks) = if existsb (λ k', match cmp k k' with Eq => true | _ => false end) ks
                                     then Some (f k) else None.
Proof.
  intros Hf. induction ks as [|k' ks IH]; simpl; [done|].
  rewrite bt_lookup_insert; [|done|apply bt_tabulate_sorted]. destruct (cmp k k') eqn:E; simpl; [by rewrite Hf|done..].
Qed.

Lemma bt_tabulate_in ks e : e ∈ bt_tabulate ks -> exists k, k ∈ ks /\ cmp e.1 k = Eq.
Proof.
  assert (H : forall ks, Forall (λ e : K * V, exists k, k ∈ ks /\ cmp e.1 k = Eq) (bt_tabulate ks)).
  { clear ks e. induction ks as [|k ks IH]; simpl; [constructor|]. apply bt_insert_Forall; [done|..].
    - intros k' Hk. exists k. split; [by left|]. simpl. by apply cmp_sym_eq.
    - eapply Forall_impl; [exact IH|]. intros e0 (k' & Hk' & Hc). exists k'. split; [by right|done]. }
  intros He. specialize (H ks). rewrite Forall_forall in H. by apply H.
Qed.
End tabulate.

(* ------------------------------------------------------------------ *)
(** ** The pipeline *)

Abbreviation Relation := (gmap PkKey Value).

Definition member_row (kv : PkKey * Value) : Row := [VInt kv.1.1; kv.2].
Definition rows_in (m : Relation) : list Row := map member_row (map_to_list m).

(** The number of contributors to a member's row. *)
Definition row_weight (m : Relation) (r : Row) : Z :=
  match r with [VInt node; v] => Z.of_nat (size (supporters (vkey <$> m) node v)) | _ => 0 end.
Definition row_change (m m' : Relation) (r : Row) : Z :=
  match r with
  | [VInt node; v] => Z.b2z (supported (vkey <$> m') node v) - Z.b2z (supported (vkey <$> m) node v)
  | _ => 0
  end.
Definition raw_assert (m : Relation) (a : PkKey * Assert) : Relation :=
  match a.2 with AInsert v => <[a.1 := v]> m | ADelete => delete a.1 m end.

#[export] Instance memory_pipeline : MembershipPipeline Relation := {|
  mp_start := ∅;
  mp_transaction m asserts :=
    let m' := foldl raw_assert m asserts in
    (m', Some (bt_tabulate row_cmp (row_change m m') (rows_in m ++ rows_in m')));
  mp_members m := bt_tabulate row_cmp (row_weight m) (rows_in m);
  mp_contributors m := bt_tabulate pk_key_cmp (λ k, [(default VNull (m !! k), 1)]) (map_to_list m).*1
|}.

(* ------------------------------------------------------------------ *)
(** ** It keeps the laws *)

Lemma supporters_vkey m node v v' : vkey v = vkey v' -> supporters m node v = supporters m node v'.
Proof. intros Hv. unfold supporters. by rewrite Hv. Qed.

Lemma member_row_eq node v r : row_cmp [VInt node; v] r = Eq ->
  exists v', r = [VInt node; v'] /\ vkey v' = vkey v.
Proof.
  intros Hc%row_cmp_eq. destruct r as [|z [|w [|]]]; try discriminate Hc. simpl in Hc.
  injection Hc as Hz Hv. exists w. split; [|done].
  f_equal. destruct z as [| | | |[]]; simpl in Hz; congruence.
Qed.

Lemma row_weight_eq m node v r : row_cmp [VInt node; v] r = Eq -> row_weight m r = row_weight m [VInt node; v].
Proof. intros (v' & -> & Hv)%member_row_eq. simpl. by rewrite (supporters_vkey _ _ _ _ Hv). Qed.
Lemma row_change_eq m m' node v r : row_cmp [VInt node; v] r = Eq ->
  row_change m m' r = row_change m m' [VInt node; v].
Proof. intros (v' & -> & Hv)%member_row_eq. simpl. unfold supported. by rewrite !(supporters_vkey _ _ _ _ Hv). Qed.

(** Whether a row is among the tabulated ones is whether it has a contributor. *)
Lemma rows_in_supported m node v :
  existsb (λ r, match row_cmp [VInt node; v] r with Eq => true | _ => false end) (rows_in m) =
  supported (vkey <$> m) node v.
Proof.
  apply eq_true_iff_eq. rewrite supported_spec, existsb_exists. unfold rows_in. split.
  - intros (r & ([[n pk] w] & <- & Hin%list_elem_of_In%elem_of_map_to_list)%in_map_iff & Hc).
    unfold member_row in Hc. cbn [fst snd] in Hc. destruct (row_cmp _ _) eqn:E; try done.
    apply member_row_eq in E as (v' & [= <- ->] & Hv). exists pk. by rewrite lookup_fmap, Hin, <- Hv.
  - intros [pk Hpk]. rewrite lookup_fmap in Hpk. apply fmap_Some in Hpk as (w & Hw & Hv).
    exists [VInt node; w]. split.
    + apply in_map_iff. exists ((node, pk), w). split; [done|]. by apply list_elem_of_In, elem_of_map_to_list.
    + assert (E : row_cmp [VInt node; v] [VInt node; w] = Eq) by (apply row_cmp_eq; simpl; by rewrite Hv).
      by rewrite E.
Qed.

Lemma foldl_raw m asserts : vkey <$> foldl raw_assert m asserts = foldl assert_one (vkey <$> m) asserts.
Proof.
  revert m. induction asserts as [|[k a] asserts IH]; intros m; simpl; [done|]. rewrite IH. f_equal.
  unfold raw_assert, assert_one. destruct a; simpl; [by rewrite fmap_insert|by rewrite fmap_delete].
Qed.

Lemma unsupported_size m node v : supported m node v = false -> size (supporters m node v) = 0%nat.
Proof.
  unfold supported. intros Hs%bool_decide_eq_false. apply map_size_empty_iff.
  by destruct (decide (supporters m node v = ∅)).
Qed.

#[export] Instance memory_laws : MembershipLaws Relation.
Proof.
  refine {| mp_held m := vkey <$> m |}; simpl.
  - apply fmap_empty.
  - intros m asserts m' out [= <- <-]. apply foldl_raw.
  - intros m. apply bt_tabulate_sorted, _.
  - intros m node v. rewrite bt_tabulate_lookup; [|apply _|apply row_weight_eq].
    rewrite rows_in_supported. destruct (supported (vkey <$> m) node v) eqn:E; [done|].
    by rewrite (unsupported_size _ _ _ E).
  - intros m. apply bt_tabulate_sorted, _.
  - intros m k. rewrite bt_tabulate_lookup; [|apply _|by intros k' ->%pk_key_cmp_eq]. rewrite lookup_fmap.
    destruct (m !! k) as [v|] eqn:E.
    + assert (Hx : existsb (λ k', match pk_key_cmp k k' with Eq => true | _ => false end) (map_to_list m).*1 = true).
      { apply existsb_exists. exists k. split; [|by rewrite (proj2 (pk_key_cmp_eq k k))].
        apply list_elem_of_In, list_elem_of_fmap. exists (k, v). split; [done|]. by apply elem_of_map_to_list. }
      by rewrite Hx.
    + destruct (existsb _ _) eqn:Hx; [|done]. exfalso. apply existsb_exists in Hx as (k' & Hin & Hc).
      destruct (pk_key_cmp k k') eqn:Hk; try done. apply pk_key_cmp_eq in Hk as <-.
      apply list_elem_of_In, list_elem_of_fmap in Hin as ([k2 v] & -> & Hin%elem_of_map_to_list). simpl in E. congruence.
  - intros m asserts m' out [= <- <-]. apply bt_tabulate_sorted, _.
  - intros m asserts m' out e [= <- <-] (r & Hr & Hc)%bt_tabulate_in; [|apply _].
    assert (Hrow : exists n v, r = [VInt n; v]).
    { unfold rows_in in Hr. apply elem_of_app in Hr as [Hr|Hr]; apply list_elem_of_In, in_map_iff in Hr as (kv & <- & _);
        by exists kv.1.1, kv.2. }
    destruct Hrow as (n & v & ->). apply (cmp_sym_eq row_cmp) in Hc. apply member_row_eq in Hc as (v' & -> & _). eauto.
  - intros m asserts m' out node v [= <- <-]. rewrite bt_tabulate_lookup; [|apply _|apply row_change_eq].
    rewrite existsb_app, !rows_in_supported.
    destruct (supported (vkey <$> m) node v) eqn:E1, (supported (vkey <$> foldl raw_assert m asserts) node v) eqn:E2;
      simpl; by rewrite ?E1, ?E2.
Defined.

Lemma memory_runs (m : Relation) : circuit_runs m.
Proof. intros asserts. by eexists. Qed.
