(* ===== verification/Catalog.v ===== *)
(** * The durable shape catalog ([src/apps/engine/src/engine/catalog.rs])

    The events of the append-only stream [meta/catalog], what a boot folds them into, the checks
    that refuse a catalog this engine must not read, and the writer's verdicts and schedule.

    Reading an event out of its JSON is serde's derived code, not in the repository: a parameter
    ([decode]).  The guards that run on the raw JSON before it are modelled as they are. *)

From S2P Require Import Prelude BTree Value TableRef Schema Predicate Gate Output Aggregates ChangeLog.
From stdpp Require Import base option numbers strings gmap fin_maps sorting list.
#[local] Open Scope Z_scope.

Definition CATALOG_STREAM : str := $"meta/catalog".

(* ------------------------------------------------------------------ *)
(** ** Events *)

(** [AggInfo], [ShapeRecord] of [engine/introspection.rs]. *)
Record AggInfo : Type := mkAggInfo { ai_func : AggFn; ai_col : option str }.

Record ShapeRecord : Type := mkShapeRecord {
  rec_id : str;
  rec_table : TableRef;
  rec_stream_path : str;
  rec_changes_only : bool;
  rec_where : option PredicateJson;
  rec_columns : option (list str);
  rec_family_key : option (list str);
  rec_is_subquery : bool;
  rec_aggregate : option AggInfo;
  rec_fingerprint : option SchemaFingerprint;
  rec_backfill_rows : option Z;
  rec_backfill_bytes : option Z
}.

(** [StoreIdentityV1], [StoreBound] of [store_identity.rs]. *)
Record StoreIdentity : Type := mkStoreIdentity {
  si_store_id : str;
  si_store_generation : str;
  si_protocol_version : Z;
  si_layout_version : Z;
  si_durability_mode : str;
  si_wal_shard_count : Z;
  si_stream_lane_count : Z;
  si_filesystem_uuid : str
}.
#[export] Instance StoreIdentity_eq_dec : EqDecision StoreIdentity.
Proof. solve_decision. Defined.

Record StoreBound : Type := mkStoreBound {
  sb_store : StoreIdentity;
  sb_stack_namespace : str;
  sb_ingest_epoch : str;
  sb_query_generation : str
}.
#[export] Instance StoreBound_eq_dec : EqDecision StoreBound.
Proof. solve_decision. Defined.

(** [SlotBinding] of [engine/epoch.rs], [SourceDrainReceipt] of [engine/mod.rs]. *)
Record SlotBinding : Type := mkSlotBinding {
  sl_system_identifier : str;
  sl_timeline_id : Z;
  sl_slot : str;
  sl_bound_at : str
}.

Record SourceDrainReceipt : Type := mkDrainReceipt { dr_commit_id : str; dr_commit_lsn : str }.

Inductive CatalogEvent : Type :=
  | EvStoreBound (b : StoreBound)
  | EvCreated (rec : ShapeRecord) (sig : option str) (subscription : str) (at_ : Z)
  | EvJoined (id subscription : str) (at_ : Z)
  | EvLeft (id subscription : str) (lapsed : bool)
  | EvDormant (id : str) (resume : LogPosition) (gate : SnapshotGate)
  | EvReactivated (id : str)
  | EvBackfillSized (id : str) (rows bytes : Z)
  | EvDropped (id : str)
  | EvRetired (id : str)
  | EvOffset (pos : LogPosition) (highwater : option (Z * Z))
  | EvChangesRotated (segment at_ : Z)
  | EvChangesSegmentDeleted (segment : Z)
  | EvConsumerPinned (id : str) (position : LogPosition)
  | EvConsumerEvicted (id : str)
  | EvSchemaChanged (table : TableRef) (fingerprint : SchemaFingerprint)
  | EvSourceDrained (r : SourceDrainReceipt)
  | EvSlotBound (b : SlotBinding).

(** [event_kind]. *)
Definition event_kind (ev : CatalogEvent) : str :=
  match ev with
  | EvStoreBound _ => $"storeBound"
  | EvCreated _ _ _ _ => $"created"
  | EvJoined _ _ _ => $"joined"
  | EvLeft _ _ _ => $"left"
  | EvDormant _ _ _ => $"dormant"
  | EvReactivated _ => $"reactivated"
  | EvBackfillSized _ _ _ => $"backfillSized"
  | EvDropped _ => $"dropped"
  | EvRetired _ => $"retired"
  | EvOffset _ _ => $"offset"
  | EvChangesRotated _ _ => $"changesRotated"
  | EvChangesSegmentDeleted _ => $"changesSegmentDeleted"
  | EvConsumerPinned _ _ => $"consumerPinned"
  | EvConsumerEvicted _ => $"consumerEvicted"
  | EvSchemaChanged _ _ => $"schemaChanged"
  | EvSourceDrained _ => $"sourceDrained"
  | EvSlotBound _ => $"slotBound"
  end.

(* ------------------------------------------------------------------ *)
(** ** The fold *)

(** [Restored]: a shape as the fold rebuilt it. *)
Record Restored : Type := mkRestored {
  r_rec : ShapeRecord;
  r_sig : option str;
  r_subs : gmap str Z;
  r_dormant : option (LogPosition * SnapshotGate)
}.

(** [CatalogFold]. *)
Record CatalogFold : Type := mkFold {
  cf_recs : gmap str Restored;
  cf_pending_retire : gmap str str;
  cf_max_shape_id : option Z;
  cf_start_pos : LogPosition;
  cf_start_highwater : option (Z * Z);
  cf_current_segment : Z;
  cf_segment_starts : gmap Z Z;
  cf_consumers : gmap str LogPosition;
  cf_binding : option SlotBinding;
  cf_source_receipts : gmap str SourceDrainReceipt;
  cf_last_source_receipt : option SourceDrainReceipt;
  cf_seen : gset str
}.

(** [CatalogFold::default]. *)
Definition fold_default : CatalogFold := {|
  cf_recs := ∅; cf_pending_retire := ∅; cf_max_shape_id := None;
  cf_start_pos := pos_start; cf_start_highwater := None;
  cf_current_segment := 0; cf_segment_starts := ∅; cf_consumers := ∅;
  cf_binding := None; cf_source_receipts := ∅; cf_last_source_receipt := None;
  cf_seen := ∅ |}.

(** [shape_id_num]. *)
Definition shape_id_num (id : str) : option Z :=
  n ← str_strip_prefix $"s" id; parse_u64 n.

(** Fields replaced, the others kept. *)
Definition with_recs (g : gmap str Restored) (f : CatalogFold) : CatalogFold :=
  mkFold g (cf_pending_retire f) (cf_max_shape_id f) (cf_start_pos f) (cf_start_highwater f)
    (cf_current_segment f) (cf_segment_starts f) (cf_consumers f) (cf_binding f)
    (cf_source_receipts f) (cf_last_source_receipt f) (cf_seen f).
Definition with_pending (p : gmap str str) (f : CatalogFold) : CatalogFold :=
  mkFold (cf_recs f) p (cf_max_shape_id f) (cf_start_pos f) (cf_start_highwater f)
    (cf_current_segment f) (cf_segment_starts f) (cf_consumers f) (cf_binding f)
    (cf_source_receipts f) (cf_last_source_receipt f) (cf_seen f).
Definition with_max (m : option Z) (f : CatalogFold) : CatalogFold :=
  mkFold (cf_recs f) (cf_pending_retire f) m (cf_start_pos f) (cf_start_highwater f)
    (cf_current_segment f) (cf_segment_starts f) (cf_consumers f) (cf_binding f)
    (cf_source_receipts f) (cf_last_source_receipt f) (cf_seen f).
Definition with_start (p : LogPosition) (hw : option (Z * Z)) (f : CatalogFold) : CatalogFold :=
  mkFold (cf_recs f) (cf_pending_retire f) (cf_max_shape_id f) p hw
    (cf_current_segment f) (cf_segment_starts f) (cf_consumers f) (cf_binding f)
    (cf_source_receipts f) (cf_last_source_receipt f) (cf_seen f).
Definition with_segments (cur : Z) (starts : gmap Z Z) (f : CatalogFold) : CatalogFold :=
  mkFold (cf_recs f) (cf_pending_retire f) (cf_max_shape_id f) (cf_start_pos f)
    (cf_start_highwater f) cur starts (cf_consumers f) (cf_binding f)
    (cf_source_receipts f) (cf_last_source_receipt f) (cf_seen f).
Definition with_consumers (c : gmap str LogPosition) (f : CatalogFold) : CatalogFold :=
  mkFold (cf_recs f) (cf_pending_retire f) (cf_max_shape_id f) (cf_start_pos f)
    (cf_start_highwater f) (cf_current_segment f) (cf_segment_starts f) c (cf_binding f)
    (cf_source_receipts f) (cf_last_source_receipt f) (cf_seen f).
Definition with_binding (b : option SlotBinding) (f : CatalogFold) : CatalogFold :=
  mkFold (cf_recs f) (cf_pending_retire f) (cf_max_shape_id f) (cf_start_pos f)
    (cf_start_highwater f) (cf_current_segment f) (cf_segment_starts f) (cf_consumers f) b
    (cf_source_receipts f) (cf_last_source_receipt f) (cf_seen f).
Definition with_receipts (m : gmap str SourceDrainReceipt) (last : option SourceDrainReceipt)
    (f : CatalogFold) : CatalogFold :=
  mkFold (cf_recs f) (cf_pending_retire f) (cf_max_shape_id f) (cf_start_pos f)
    (cf_start_highwater f) (cf_current_segment f) (cf_segment_starts f) (cf_consumers f)
    (cf_binding f) m last (cf_seen f).
Definition with_seen (s : gset str) (f : CatalogFold) : CatalogFold :=
  mkFold (cf_recs f) (cf_pending_retire f) (cf_max_shape_id f) (cf_start_pos f)
    (cf_start_highwater f) (cf_current_segment f) (cf_segment_starts f) (cf_consumers f)
    (cf_binding f) (cf_source_receipts f) (cf_last_source_receipt f) s.

(** A change of one restored shape, if there is one. *)
Definition alter_rec (id : str) (g : Restored -> Restored) (f : CatalogFold) : CatalogFold :=
  with_recs (alter g id (cf_recs f)) f.

(** The lease of a subscription: inserted, or moved forward. *)
Definition lease (sub : str) (at_ : Z) (subs : gmap str Z) : gmap str Z :=
  <[sub := match subs !! sub with Some old => Z.max old at_ | None => at_ end]> subs.

Definition set_subs (g : gmap str Z -> gmap str Z) (r : Restored) : Restored :=
  mkRestored (r_rec r) (r_sig r) (g (r_subs r)) (r_dormant r).
Definition set_dormant (d : option (LogPosition * SnapshotGate)) (r : Restored) : Restored :=
  mkRestored (r_rec r) (r_sig r) (r_subs r) d.
Definition sized (rows bytes : Z) (c : ShapeRecord) : ShapeRecord :=
  mkShapeRecord (rec_id c) (rec_table c) (rec_stream_path c) (rec_changes_only c) (rec_where c)
    (rec_columns c) (rec_family_key c) (rec_is_subquery c) (rec_aggregate c) (rec_fingerprint c)
    (Some rows) (Some bytes).
Definition set_size (rows bytes : Z) (r : Restored) : Restored :=
  mkRestored (sized rows bytes (r_rec r)) (r_sig r) (r_subs r) (r_dormant r).

(** The id mark of [max_shape_id] after a create. *)
Definition max_id (id : str) (m : option Z) : option Z :=
  match shape_id_num id with
  | Some num => Some (match m with Some cur => Z.max cur num | None => num end)
  | None => m
  end.

(** [CatalogFold::apply]. *)
Definition apply_event (ev : CatalogEvent) (f : CatalogFold) : CatalogFold :=
  match ev with
  | EvStoreBound _ => f
  | EvCreated rec sig subscription at_ =>
      with_recs (<[rec_id rec := mkRestored rec sig {[subscription := at_]} None]> (cf_recs f))
        (with_max (max_id (rec_id rec) (cf_max_shape_id f)) f)
  | EvJoined id subscription at_ => alter_rec id (set_subs (lease subscription at_)) f
  | EvLeft id subscription _ => alter_rec id (set_subs (delete subscription)) f
  | EvDormant id resume gate => alter_rec id (set_dormant (Some (resume, gate))) f
  | EvReactivated id => alter_rec id (set_dormant None) f
  | EvBackfillSized id rows bytes => alter_rec id (set_size rows bytes) f
  | EvDropped id =>
      match cf_recs f !! id with
      | Some r => with_recs (delete id (cf_recs f))
                    (with_pending (<[id := rec_stream_path (r_rec r)]> (cf_pending_retire f)) f)
      | None => f
      end
  | EvRetired id => with_pending (delete id (cf_pending_retire f)) f
  | EvOffset pos highwater => with_start pos highwater f
  | EvChangesRotated segment at_ =>
      with_segments (Z.max (cf_current_segment f) segment)
        (<[segment := at_]> (cf_segment_starts f)) f
  | EvChangesSegmentDeleted segment =>
      with_segments (cf_current_segment f) (delete segment (cf_segment_starts f)) f
  | EvConsumerPinned id position => with_consumers (<[id := position]> (cf_consumers f)) f
  | EvConsumerEvicted id => with_consumers (delete id (cf_consumers f)) f
  | EvSchemaChanged _ _ => f
  | EvSourceDrained r =>
      match cf_source_receipts f !! dr_commit_id r with
      | Some _ => f
      | None => with_receipts (<[dr_commit_id r := r]> (cf_source_receipts f)) (Some r) f
      end
  | EvSlotBound binding => with_binding (Some binding) f
  end.

(** [CatalogFold::apply_once]. *)
Definition apply_once (eid : str) (ev : CatalogEvent) (f : CatalogFold) : CatalogFold :=
  if decide (eid ∈ cf_seen f) then f
  else apply_event ev (with_seen ({[eid]} ∪ cf_seen f) f).

(** A log folded event by event, and the same without the check for repeats. *)
Definition fold_once (l : list (str * CatalogEvent)) (f : CatalogFold) : CatalogFold :=
  foldl (λ f e, apply_once e.1 e.2 f) f l.
Definition fold_events (l : list CatalogEvent) (f : CatalogFold) : CatalogFold :=
  foldl (λ f e, apply_event e f) f l.

(** [pending_retirements], [is_empty]. *)
Definition pair_leb (a b : str * str) : bool :=
  match str_cmp a.1 b.1 with Lt => true | Gt => false | Eq => str_leb a.2 b.2 end.
Definition pending_retirements (f : CatalogFold) : list (str * str) :=
  stable_sort pair_leb (map_to_list (cf_pending_retire f)).
Definition fold_is_empty (f : CatalogFold) : bool :=
  bool_decide (cf_recs f = ∅) && bool_decide (cf_start_pos f = pos_start).

(* ------------------------------------------------------------------ *)
(** ** Reading a catalog *)

(** [CatalogStoreBindingError] and the three typed refusals of a catalog written before a field
    the engine needs. *)
Inductive BindingError : Type :=
  | EmptyWithoutInitialization
  | BindingMissing
  | DuplicateOrReordered
  | Malformed (detail : str)
  | Mismatch (expected observed : StoreBound).

Inductive FoldError : Type :=
  | BadBinding (e : BindingError)
  | PredatesQualification (table id : str)
  | BareOffset (offset : json)
  | BareResumeOffset (offset : json) (id : str)
  | NoEid (kind : str)
  | NoSubscription (kind : str)
  | NoLeaseTimestamp (kind : str).

Section reading.
(** serde's derived reader of an event. *)
Context (decode : json -> res str CatalogEvent).

(** The event's tag, as the guards read it. *)
Definition event_tag (ev : json) : option str := get_str $"t" ev.

(** [validate_store_binding]. *)
Definition validate_store_binding (events : list json) (expected : StoreBound)
    : res BindingError unit :=
  match events with
  | [] => Err BindingMissing
  | first :: rest =>
      match decode first with
      | Err detail => Err (Malformed detail)
      | Ok (EvStoreBound observed) =>
          if negb (bool_decide (observed = expected)) then Err (Mismatch expected observed)
          else if existsb (λ ev, bool_decide (event_tag ev = Some $"storeBound")) rest
          then Err DuplicateOrReordered
          else Ok tt
      | Ok _ => Err BindingMissing
      end
  end.

(** [predates_subscriptions]. *)
Definition predates_subscriptions (ev : json) : option FoldError :=
  let kind := default $"<untagged>" (event_tag ev) in
  let one_of := λ l, bool_decide (kind ∈ l) in
  if negb (bool_decide (is_Some (get_str $"eid" ev))) then Some (NoEid kind)
  else if one_of [$"created"; $"joined"; $"left"]
          && negb (bool_decide (is_Some (get_str $"subscription" ev)))
  then Some (NoSubscription kind)
  else if one_of [$"created"; $"joined"] && negb (bool_decide (is_Some (get_u64 $"at" ev)))
  then Some (NoLeaseTimestamp kind)
  else None.

(** [predates_segmentation]. *)
Definition predates_segmentation (ev : json) : option FoldError :=
  let bare k := match json_get k ev with Some (JString s) => Some (JString s) | _ => None end in
  if bool_decide (event_tag ev = Some $"offset") then BareOffset <$> bare $"offset"
  else if bool_decide (event_tag ev = Some $"dormant")
  then (λ j, BareResumeOffset j (default $"<unknown>" (get_str $"id" ev))) <$> bare $"resume_offset"
  else None.

(** The record of a [Created] whose table is not in canonical form ([fold_catalog]). *)
Definition predates_qualification (ev : json) : option FoldError :=
  rec ← json_get $"rec" ev;
  raw ← get_str $"table" rec;
  match TableRef_parse raw with
  | Ok t => if bool_decide (TableRef_as_str t = raw) then None
            else Some (PredatesQualification raw (default $"<unknown>" (get_str $"id" rec)))
  | Err _ => None
  end.

(** One event of [fold_catalog]: refused, skipped or applied once. *)
Definition fold_one (ev : json) (f : CatalogFold) : res FoldError CatalogFold :=
  match predates_qualification ev with
  | Some e => Err e
  | None =>
      match predates_segmentation ev with
      | Some e => Err e
      | None =>
          match predates_subscriptions ev with
          | Some e => Err e
          | None =>
              match decode ev with
              | Err _ => Ok f
              | Ok e => Ok (apply_once (default [] (get_str $"eid" ev)) e f)
              end
          end
      end
  end.

Fixpoint fold_from (events : list json) (f : CatalogFold) : res FoldError CatalogFold :=
  match events with
  | [] => Ok f
  | ev :: rest => f' ← fold_one ev f; fold_from rest f'
  end.

(** [fold_catalog]. *)
Definition fold_catalog (store_bound : option StoreBound) (events : list json)
    : res FoldError CatalogFold :=
  match store_bound with
  | Some expected =>
      match validate_store_binding events expected with
      | Err e => Err (BadBinding e)
      | Ok _ => fold_from events fold_default
      end
  | None => fold_from events fold_default
  end.

(** [admit_store]: what it reads, and what it reads again after writing event zero. *)
Definition admit_store (events reread : list json) (initialize : bool) (expected : StoreBound)
    : res BindingError StoreBound :=
  match events with
  | [] => if initialize
          then (_ ← validate_store_binding reread expected; Ok expected)
          else Err EmptyWithoutInitialization
  | _ => _ ← validate_store_binding events expected; Ok expected
  end.

End reading.

(** [schema_moved_while_down]: [None] is a record that may resume. *)
Definition schema_moved_while_down (c : ShapeRecord) (compiled : gmap TableRef TableSchema)
    : option (list str) :=
  ts ← compiled !! rec_table c;
  now ← ts_fingerprint ts;
  match rec_fingerprint c with
  | Some old => if still_serves old now then None else Some (describe_drift old now)
  | None => Some [$"the record predates schema fingerprinting"]
  end.

(* ------------------------------------------------------------------ *)
(** ** What a failed append means *)

(** The typed causes an error of [ds.rs] carries; of a [reqwest] error, the kinds that are asked. *)
Inductive Cause : Type :=
  | CauseStreamGone (path : str) (status : Z)
  | CauseDsUnavailable (op path : str) (status : Z)
  | CauseReqwest (builder decode_ connect timeout request body : bool)
  | CauseOther (what : str).

Definition is_gone_cause (c : Cause) : bool :=
  match c with CauseStreamGone _ _ => true | _ => false end.
(** [is_stream_gone], [is_unavailable] over the chain of causes. *)
Definition is_stream_gone (chain : list Cause) : bool := existsb is_gone_cause chain.
Definition is_unavailable (chain : list Cause) : bool :=
  if existsb is_gone_cause chain then false
  else if existsb (λ c, match c with CauseDsUnavailable _ _ _ => true | _ => false end) chain
  then true
  else existsb (λ c, match c with
                     | CauseReqwest builder decode_ connect timeout request body =>
                         negb builder && negb decode_ && (connect || timeout || request || body)
                     | _ => false
                     end) chain.

(** [status_error]: a response that is not a success. *)
Definition status_error (op path : str) (status : Z) (body : str) : list Cause :=
  if (500 <=? status) && (status <? 600) then [CauseDsUnavailable op path status]
  else [CauseOther (op ++ $" " ++ path ++ $" -> " ++ Z_to_str status
                    ++ (if bool_decide (body = []) then [] else $": " ++ body))].

Inductive AppendVerdict : Type := VRetry | VRefused.
(** [classify_append]. *)
Definition classify_append (chain : list Cause) : AppendVerdict :=
  if is_unavailable chain then VRetry else VRefused.

(** [catalog_backoff], in milliseconds. *)
Definition CATALOG_BACKOFF_MAX : Z := 5000.
Definition catalog_backoff (attempt : Z) : Z :=
  Z.min (sat_mul_u64 100 (2 ^ Z.min (sat_sub_u64 attempt 1) 6)) CATALOG_BACKOFF_MAX.
(** [retire_backoff] of [engine/retirement.rs]. *)
Definition retire_backoff (attempt : Z) : Z :=
  Z.min (sat_mul_u64 500 (2 ^ Z.min (sat_sub_u64 attempt 1) 4)) 5000.
