(* ===== verification/CatalogWriter.v ===== *)
(** * The catalog writer ([engine/catalog.rs]: [CatalogWriter], [spawn_catalog_writer])

    Any number of tasks enqueue events; one task appends them, one at a time and in queue order,
    repeating an append until storage has said yes.  A request whose answer was lost may have been
    carried out, and may be carried out later still; the fold of a boot ignores an event id it has
    seen ([Catalog.apply_once]).

    The tasks, the network and storage are one transition system over [World]: [wstep] is what one
    action does, [wrun] a schedule of them.  [AMint] and [APush] are the two halves of [enqueue],
    which is not atomic; [ALand] is storage carrying out a request; [AOk] is an answer that says
    so, and storage gives it only for a record that is in the stream. *)

From S2P Require Import Prelude BTree Value TableRef Schema Predicate Gate Output ChangeLog Catalog.
From stdpp Require Import base option numbers strings gmap fin_maps sorting list.
#[local] Open Scope Z_scope.

(** [CatalogSend]. *)
Record CatalogSend : Type := mkSend {
  sd_ev : CatalogEvent;
  sd_seq : Z;
  sd_eid : str;
  sd_done : bool
}.

(** The record of an event in the stream. *)
Definition record_of (s : CatalogSend) : str * CatalogEvent := (sd_eid s, sd_ev s).

(** The event the writer is at: how often it failed, and whether a request is out. *)
Record Sending : Type := mkSending { sg_send : CatalogSend; sg_attempt : Z; sg_waiting : bool }.

Record World : Type := mkWorld {
  w_nonce : str;
  w_next_eid : Z;
  w_in_flight : Z;
  w_minted : list CatalogSend;
  w_chan : list CatalogSend;
  w_cur : option Sending;
  w_ensured : bool;
  w_landed_seq : Z;
  w_durable : option LogPosition;
  w_acked : list CatalogSend;
  w_exited : bool;
  w_copies : list (str * CatalogEvent);
  w_log : list (str * CatalogEvent)
}.

(** [spawn_catalog_writer] over a stream that already holds [base]. *)
Definition world_start (nonce : str) (base : list (str * CatalogEvent)) : World :=
  mkWorld nonce 1 0 [] [] None false 0 None [] false [] base.

(** The id of the [n]-th event of a process, [n] in lower-case hexadecimal. *)
Definition lower_hex (n : N) : str := to_ascii_lowercase <$> hex_text n.
Definition eid_of (nonce : str) (n : Z) : str := nonce ++ $"-" ++ lower_hex (Z.to_N n).

(** [if g.is_none_or(|cur| cur < pos) { *g = Some(pos) }]. *)
Definition raise_durable (pos : LogPosition) (g : option LogPosition) : option LogPosition :=
  match g with
  | Some cur => match pos_cmp cur pos with Lt => Some pos | _ => Some cur end
  | None => Some pos
  end.
Definition checkpoint_of (ev : CatalogEvent) : option LogPosition :=
  match ev with EvOffset pos _ => Some pos | _ => None end.
(** [seed_durable_offset]. *)
Definition seed_durable_offset (pos : LogPosition) (w : World) : World :=
  mkWorld (w_nonce w) (w_next_eid w) (w_in_flight w) (w_minted w) (w_chan w) (w_cur w)
    (w_ensured w) (w_landed_seq w) (raise_durable pos (w_durable w)) (w_acked w) (w_exited w)
    (w_copies w) (w_log w).

Inductive WAct : Type :=
  | AMint (ev : CatalogEvent) (done : bool)
  | APush (i : nat)
  | ARecv
  | ASend (ensured : bool)
  | ALand (i : nat)
  | AOk
  | AErr (chain : list Cause).

(** The first half of [enqueue]: the id and the count. *)
Definition mint (ev : CatalogEvent) (done : bool) (w : World) : World :=
  mkWorld (w_nonce w) (w_next_eid w + 1) (w_in_flight w + 1)
    (w_minted w ++ [mkSend ev (w_next_eid w) (eid_of (w_nonce w) (w_next_eid w)) done])
    (w_chan w) (w_cur w) (w_ensured w) (w_landed_seq w) (w_durable w) (w_acked w) (w_exited w)
    (w_copies w) (w_log w).

(** Its second half: into the channel. *)
Definition push (i : nat) (w : World) : option World :=
  s ← w_minted w !! i;
  Some (mkWorld (w_nonce w) (w_next_eid w) (w_in_flight w) (delete i (w_minted w))
    (w_chan w ++ [s]) (w_cur w) (w_ensured w) (w_landed_seq w) (w_durable w) (w_acked w)
    (w_exited w) (w_copies w) (w_log w)).

(** The task takes the next event. *)
Definition recv (w : World) : option World :=
  match w_cur w, w_chan w with
  | None, s :: rest =>
      Some (mkWorld (w_nonce w) (w_next_eid w) (w_in_flight w) (w_minted w) rest
        (Some (mkSending s 0 false)) (w_ensured w) (w_landed_seq w) (w_durable w) (w_acked w)
        (w_exited w) (w_copies w) (w_log w))
  | _, _ => None
  end.

(** One attempt: the stream is made sure of if it never was, and the request goes out. *)
Definition send_attempt (ens : bool) (w : World) : option World :=
  match w_cur w with
  | Some (mkSending s n false) =>
      Some (mkWorld (w_nonce w) (w_next_eid w) (w_in_flight w) (w_minted w) (w_chan w)
        (Some (mkSending s n true)) (w_ensured w || ens) (w_landed_seq w) (w_durable w)
        (w_acked w) (w_exited w) (w_copies w ++ [record_of s]) (w_log w))
  | _ => None
  end.

(** Storage carries out a request. *)
Definition land (i : nat) (w : World) : option World :=
  c ← w_copies w !! i;
  Some (mkWorld (w_nonce w) (w_next_eid w) (w_in_flight w) (w_minted w) (w_chan w) (w_cur w)
    (w_ensured w) (w_landed_seq w) (w_durable w) (w_acked w) (w_exited w)
    (delete i (w_copies w)) (w_log w ++ [c])).

(** The answer that the record is in the stream, and everything done on it. *)
Definition answer_ok (w : World) : option World :=
  match w_cur w with
  | Some (mkSending s n true) =>
      if decide (sd_eid s ∈ (w_log w).*1) then
        Some (mkWorld (w_nonce w) (w_next_eid w) (w_in_flight w - 1) (w_minted w) (w_chan w) None
          (w_ensured w) (sd_seq s)
          (match checkpoint_of (sd_ev s) with
           | Some pos => raise_durable pos (w_durable w)
           | None => w_durable w
           end)
          (w_acked w ++ [s]) (w_exited w) (w_copies w) (w_log w))
      else None
  | _ => None
  end.

(** Any other answer: again, or the end of the process. *)
Definition answer_err (chain : list Cause) (w : World) : option World :=
  match w_cur w with
  | Some (mkSending s n true) =>
      match (if w_ensured w then classify_append chain else VRetry) with
      | VRetry =>
          Some (mkWorld (w_nonce w) (w_next_eid w) (w_in_flight w) (w_minted w) (w_chan w)
            (Some (mkSending s (n + 1) false)) (w_ensured w) (w_landed_seq w) (w_durable w)
            (w_acked w) (w_exited w) (w_copies w) (w_log w))
      | VRefused =>
          Some (mkWorld (w_nonce w) (w_next_eid w) (w_in_flight w) (w_minted w) (w_chan w)
            (w_cur w) (w_ensured w) (w_landed_seq w) (w_durable w) (w_acked w) true
            (w_copies w) (w_log w))
      end
  | _ => None
  end.

Definition wstep (a : WAct) (w : World) : option World :=
  match a with
  | ALand i => land i w
  | _ =>
      if w_exited w then None
      else match a with
           | AMint ev done => Some (mint ev done w)
           | APush i => push i w
           | ARecv => recv w
           | ASend ens => send_attempt ens w
           | ALand i => land i w
           | AOk => answer_ok w
           | AErr chain => answer_err chain w
           end
  end.

Fixpoint wrun (acts : list WAct) (w : World) : option World :=
  match acts with
  | [] => Some w
  | a :: rest => w' ← wstep a w; wrun rest w'
  end.

(** [drain] reports the queue empty when the count is not positive; [wait_durable] waits for the
    position of the last id handed out. *)
Definition drained (w : World) : bool := w_in_flight w <=? 0.
Definition barrier_target (w : World) : Z := sat_sub_u64 (w_next_eid w) 1.
Definition barrier_passed (target : Z) (w : World) : bool := target <=? w_landed_seq w.
