(* ===== verification/CatalogFacts.v ===== *)
(** * The catalog's log: repeats, and the writer that makes them

    [firsts] is a log without the repeats of an event id.  A boot folds a log like its [firsts]
    ([fold_once_firsts]); and whatever storage and the network do with the writer's requests, the
    [firsts] of the stream are the events in the order they were queued, every acknowledged one
    among them ([writer_inv_run]).

    So the stream folds like the events queued, each once and in queue order, with every
    acknowledged one among them ([catalog_survives_retries]); an empty count means that nothing is
    left ([drained_is_durable]); and [wait_durable] waits for everything queued before it, provided
    the two halves of every [enqueue] run together ([barrier_is_durable]) and not otherwise
    ([barrier_overtaken]). *)

From S2P Require Import Prelude BTree Value TableRef Schema Predicate Gate Output ChangeLog.
From S2P Require Import Catalog CatalogWriter.
From stdpp Require Import base option numbers strings gmap fin_maps sorting list.
#[local] Open Scope Z_scope.

(* ------------------------------------------------------------------ *)
(** ** A log without its repeats *)

Fixpoint firsts {A : Type} (seen : gset str) (l : list (str * A)) : list (str * A) :=
  match l with
  | [] => []
  | (k, e) :: l => if decide (k ∈ seen) then firsts seen l
                   else (k, e) :: firsts ({[k]} ∪ seen) l
  end.

(** The ids of a log. *)
Definition eids {A : Type} (l : list (str * A)) : gset str := list_to_set l.*1.

Lemma elem_of_eids {A} k (l : list (str * A)) : k ∈ eids l <-> k ∈ l.*1.
Proof. apply elem_of_list_to_set. Qed.

Lemma firsts_app {A} (l1 l2 : list (str * A)) seen :
  firsts seen (l1 ++ l2) = firsts seen l1 ++ firsts (eids l1 ∪ seen) l2.
Proof.
  revert seen. induction l1 as [|[k e] l1 IH]; intros seen; simpl.
  - unfold eids. simpl. by rewrite (left_id_L ∅ (∪)).
  - unfold eids in *. simpl. case_decide.
    + rewrite IH. do 2 f_equal. set_solver.
    + rewrite IH. simpl. do 3 f_equal. set_solver.
Qed.

Lemma firsts_fresh {A} (l : list (str * A)) seen :
  NoDup l.*1 -> (forall k, k ∈ l.*1 -> k ∉ seen) -> firsts seen l = l.
Proof.
  revert seen. induction l as [|[k e] l IH]; intros seen Hnd Hs; [done|]. simpl in *.
  apply NoDup_cons in Hnd as [Hk Hnd]. rewrite decide_False by (apply Hs; left).
  f_equal. apply IH; [done|]. intros k' Hk'. pose proof (Hs k' ltac:(by right)). set_solver.
Qed.

Lemma firsts_old {A} (l : list (str * A)) seen :
  (forall k, k ∈ l.*1 -> k ∈ seen) -> firsts seen l = [].
Proof.
  revert seen. induction l as [|[k e] l IH]; intros seen Hs; [done|]. simpl in *.
  rewrite decide_True by (apply Hs; left). apply IH. intros k' Hk'. apply Hs. by right.
Qed.

(** The fold is the fold of the log without its repeats. *)
Lemma apply_event_with_seen ev s f : apply_event ev (with_seen s f) = with_seen s (apply_event ev f).
Proof. destruct ev, f; simpl; try done; by case_match. Qed.

Lemma fold_events_with_seen l s f : fold_events l (with_seen s f) = with_seen s (fold_events l f).
Proof.
  unfold fold_events. revert f. induction l as [|e l IH]; intros f; simpl; [done|].
  by rewrite apply_event_with_seen, IH.
Qed.

Lemma apply_event_seen ev f : cf_seen (apply_event ev f) = cf_seen f.
Proof. destruct ev; simpl; try done; by case_match. Qed.

Lemma with_seen_twice s s' f : with_seen s (with_seen s' f) = with_seen s f.
Proof. done. Qed.

Lemma fold_once_firsts l f :
  fold_once l f = with_seen (eids l ∪ cf_seen f) (fold_events (firsts (cf_seen f) l).*2 f).
Proof.
  revert f. induction l as [|[k e] l IH]; intros f.
  { unfold eids. simpl. rewrite (left_id_L ∅ (∪)). by destruct f. }
  change (fold_once l (apply_once k e f) =
    with_seen (eids ((k, e) :: l) ∪ cf_seen f) (fold_events (firsts (cf_seen f) ((k, e) :: l)).*2 f)).
  rewrite IH. unfold apply_once. cbn [firsts]. case_decide as Hk.
  - f_equal. unfold eids. simpl. set_solver.
  - rewrite apply_event_seen, apply_event_with_seen, fold_events_with_seen, with_seen_twice.
    assert (eids l ∪ cf_seen (with_seen ({[k]} ∪ cf_seen f) f) = eids ((k, e) :: l) ∪ cf_seen f)
      as -> by (unfold eids; simpl; set_solver).
    done.
Qed.

(** What a boot has of a fold: everything but the ids. *)
Definition folded (f : CatalogFold) : CatalogFold := with_seen ∅ f.

Lemma folded_fold_once l :
  folded (fold_once l fold_default) = fold_events (firsts ∅ l).*2 fold_default.
Proof.
  rewrite fold_once_firsts. unfold folded.
  assert (E : cf_seen (fold_events (firsts ∅ l).*2 fold_default) = ∅).
  { unfold fold_events. generalize (firsts ∅ l).*2. intros evs.
    enough (forall f, cf_seen f = ∅ -> cf_seen (foldl (λ f e, apply_event e f) f evs) = ∅) by auto.
    induction evs as [|e evs IH]; intros f Hf; simpl; [done|]. apply IH. by rewrite apply_event_seen. }
  destruct (fold_events _ _). simpl in *. by subst.
Qed.

(* ------------------------------------------------------------------ *)
(** ** The ids of a process differ *)

Lemma hex_val_lower c d : hex_val c = Some d -> hex_val (to_ascii_lowercase c) = Some d.
Proof.
  unfold hex_val, to_ascii_lowercase, is_ascii_digit. intros H.
  repeat match goal with
  | _ : context [N.leb ?a ?b] |- _ => destruct (N.leb_spec a b); simpl in *
  | |- context [N.leb ?a ?b] => destruct (N.leb_spec a b); simpl in *
  end; simplify_eq; try done; try lia; f_equal; lia.
Qed.

Lemma hex_digits_lower s a :
  Forall (λ c, is_Some (hex_val c)) s ->
  hex_digits_val a (to_ascii_lowercase <$> s) = hex_digits_val a s.
Proof.
  intros H. revert a. induction H as [|c s [d Hd] H IH]; intros a; simpl; [done|].
  rewrite (hex_val_lower _ _ Hd), Hd. simpl. apply IH.
Qed.

#[export] Instance lower_hex_inj : Inj (=) (=) lower_hex.
Proof.
  intros a b E. pose proof (hex_digits_hex_text a) as Ha. pose proof (hex_digits_hex_text b) as Hb.
  rewrite <- hex_digits_lower in Ha, Hb by apply hex_text_chars.
  unfold lower_hex in E. rewrite E in Ha. congruence.
Qed.

Lemma eid_of_inj nonce a b : 0 <= a -> 0 <= b -> eid_of nonce a = eid_of nonce b -> a = b.
Proof.
  unfold eid_of. intros Ha Hb E. do 2 apply app_inv_head in E. apply lower_hex_inj in E. lia.
Qed.

(* ------------------------------------------------------------------ *)
(** ** The writer *)

(** The event at hand. *)
Definition at_hand (w : World) : list CatalogSend :=
  match w_cur w with Some c => [sg_send c] | None => [] end.

(** Everything queued, in queue order: acknowledged, at hand, waiting. *)
Definition queued (w : World) : list CatalogSend := w_acked w ++ at_hand w ++ w_chan w.

(** What the stream has of it: all that was acknowledged and perhaps the event at hand. *)
Definition in_stream (w : World) : list CatalogSend :=
  w_acked w ++ filter (λ s, sd_eid s ∈ (w_log w).*1) (at_hand w).

Record writer_inv (base : list (str * CatalogEvent)) (w : World) : Prop := {
  wi_base : forall n, 0 <= n -> eid_of (w_nonce w) n ∉ base.*1;
  wi_next : 1 <= w_next_eid w;
  wi_ids : forall s, s ∈ queued w ++ w_minted w ->
    sd_eid s = eid_of (w_nonce w) (sd_seq s) /\ 1 <= sd_seq s < w_next_eid w;
  wi_nodup : NoDup (sd_seq <$> queued w ++ w_minted w);
  wi_copies : forall c, c ∈ w_copies w -> exists s, s ∈ w_acked w ++ at_hand w /\ c = record_of s;
  wi_acked : forall s, s ∈ w_acked w -> sd_eid s ∈ (w_log w).*1;
  wi_log : exists tail, w_log w = base ++ tail /\
    (forall c, c ∈ tail -> exists s, s ∈ w_acked w ++ at_hand w /\ c = record_of s) /\
    firsts (eids base) tail = record_of <$> in_stream w;
  wi_count : w_in_flight w = Z.of_nat (length (w_minted w) + length (at_hand w) + length (w_chan w))
}.

Lemma in_queued s w : s ∈ w_acked w ++ at_hand w -> s ∈ queued w ++ w_minted w.
Proof. unfold queued. rewrite !elem_of_app. tauto. Qed.

Section invariant.
Context (base : list (str * CatalogEvent)) (w : World).
Hypothesis HI : writer_inv base w.

Lemma eid_inj s t :
  s ∈ queued w ++ w_minted w -> t ∈ queued w ++ w_minted w -> sd_eid s = sd_eid t -> sd_seq s = sd_seq t.
Proof.
  intros Hs Ht E. destruct (wi_ids _ _ HI s Hs) as [Es ?], (wi_ids _ _ HI t Ht) as [Et ?].
  rewrite Es, Et in E. apply eid_of_inj in E; lia.
Qed.

Lemma eids_nodup l :
  (forall s, s ∈ l -> s ∈ queued w ++ w_minted w) -> NoDup (sd_seq <$> l) -> NoDup (sd_eid <$> l).
Proof.
  induction l as [|s l IH]; intros Hl Hnd; [constructor|]. simpl in *.
  apply NoDup_cons in Hnd as [Hn Hnd]. apply NoDup_cons. split.
  - intros Hin. apply list_elem_of_fmap in Hin as (t & E & Ht). apply Hn.
    rewrite (eid_inj s t); [by apply list_elem_of_fmap_2| | |done]; apply Hl; [by left|by right].
  - apply IH; [|done]. intros t Ht. apply Hl. by right.
Qed.

Lemma inv_mint ev done : writer_inv base (mint ev done w).
Proof.
  destruct HI as [Hb Hn Hid Hnd Hc Ha Hl Hct].
  assert (Hq : queued (mint ev done w) ++ w_minted (mint ev done w)
    = (queued w ++ w_minted w) ++ [mkSend ev (w_next_eid w) (eid_of (w_nonce w) (w_next_eid w)) done])
    by (unfold queued, at_hand; simpl; by rewrite <- !app_assoc).
  split; try done.
  - simpl. lia.
  - intros s. rewrite Hq, elem_of_app, list_elem_of_singleton. intros [Hs| ->]; simpl.
    + destruct (Hid s Hs). split; [done|lia].
    + split; [done|lia].
  - rewrite Hq, fmap_app. apply NoDup_app. split_and!; [done| |apply NoDup_singleton].
    intros n Hin. apply list_elem_of_fmap in Hin as (s & -> & Hs). destruct (Hid s Hs) as [_ ?].
    simpl. rewrite list_elem_of_singleton. lia.
  - unfold at_hand in *. simpl in *. rewrite length_app. simpl. lia.
Qed.

Lemma inv_perm w' :
  w_nonce w' = w_nonce w -> w_next_eid w' = w_next_eid w -> w_acked w' = w_acked w ->
  w_log w' = w_log w -> w_in_flight w' = w_in_flight w ->
  (forall s, s ∈ at_hand w -> s ∈ at_hand w') ->
  (forall c, c ∈ w_copies w' -> c ∈ w_copies w \/ exists s, s ∈ at_hand w' /\ c = record_of s) ->
  in_stream w' = in_stream w ->
  queued w' ++ w_minted w' ≡ₚ queued w ++ w_minted w ->
  writer_inv base w'.
Proof.
  destruct HI as [Hb Hn Hid Hnd Hc Ha Hl Hct]. intros En Ex Ea El Ei Hh Hc' Hs Hp.
  assert (Hgrow : forall s, s ∈ w_acked w ++ at_hand w -> s ∈ w_acked w' ++ at_hand w').
  { intros s. rewrite Ea, !elem_of_app. naive_solver. }
  split.
  - by rewrite En.
  - by rewrite Ex.
  - intros s. rewrite Hp, En, Ex. apply Hid.
  - by rewrite Hp.
  - intros c [Hc0|(s & Hs' & ->)]%Hc'; [destruct (Hc c Hc0) as (s & ? & ->)|]; exists s; split; auto.
    rewrite elem_of_app. by right.
  - by rewrite Ea, El.
  - destruct Hl as (tail & E & Ht & Hf). exists tail. rewrite El, Hs. split_and!; [done| |done].
    intros c Hct'. destruct (Ht c Hct') as (s & ? & ->). eauto.
  - rewrite Ei, Hct. f_equal. pose proof (Permutation_length Hp) as Hlen.
    unfold queued in Hlen. rewrite !length_app, Ea in Hlen. lia.
Qed.

Lemma inv_push i w' : push i w = Some w' -> writer_inv base w'.
Proof.
  unfold push. destruct (w_minted w !! i) as [s|] eqn:E; simpl; [|done]. intros [= <-].
  apply inv_perm; simpl; try done; [auto|].
  unfold queued, at_hand. simpl. rewrite (delete_Permutation (w_minted w) i s E) at 2.
  solve_Permutation.
Qed.

Lemma inv_recv w' : recv w = Some w' -> writer_inv base w'.
Proof.
  unfold recv. destruct (w_cur w) eqn:E; [done|]. destruct (w_chan w) as [|s rest] eqn:Ec; [done|].
  intros [= <-]. apply inv_perm; simpl; try done; unfold at_hand, in_stream, queued; simpl.
  - rewrite E. set_solver.
  - auto.
  - unfold at_hand. simpl. rewrite E. simpl. f_equal. rewrite filter_cons_False; [done|].
    intros Hin. destruct HI as [Hb Hn Hid Hnd Hc Ha (tail & El & Ht & Hf) Hct].
    assert (Hs : s ∈ queued w ++ w_minted w) by (unfold queued; rewrite Ec; set_solver).
    destruct (Hid s Hs) as [Es ?]. rewrite El, fmap_app, elem_of_app in Hin. destruct Hin as [Hin|Hin].
    + apply (Hb (sd_seq s)); [lia|]. by rewrite <- Es.
    + apply list_elem_of_fmap in Hin as (c & E' & Hc'). destruct (Ht c Hc') as (t & Htin & ->).
      simpl in E'. assert (Hseq : sd_seq s = sd_seq t) by (apply eid_inj; auto using in_queued).
      unfold queued, at_hand in Hnd. rewrite E, Ec in Hnd. unfold at_hand in Htin. rewrite E in Htin.
      simpl in *. rewrite app_nil_r in Htin. rewrite !fmap_app, !NoDup_app in Hnd. simpl in Hnd.
      destruct Hnd as ((_ & Hd & _) & _). apply (Hd (sd_seq t)); [by apply list_elem_of_fmap_2|].
      rewrite Hseq. left.
  - unfold at_hand. simpl. by rewrite E, Ec.
Qed.

Lemma inv_send ens w' : send_attempt ens w = Some w' -> writer_inv base w'.
Proof.
  unfold send_attempt. destruct (w_cur w) as [[s n []]|] eqn:E; try done. intros [= <-].
  apply inv_perm; simpl; unfold at_hand, in_stream, queued, at_hand; simpl; rewrite ?E; simpl; try done.
  intros c. rewrite elem_of_app, list_elem_of_singleton. intros [?| ->]; [by left|right].
  exists s. split; [left|done].
Qed.

Lemma inv_err chain w' : answer_err chain w = Some w' -> writer_inv base w'.
Proof.
  unfold answer_err. destruct (w_cur w) as [[s n []]|] eqn:E; try done.
  destruct (if w_ensured w then _ else _); intros [= <-];
    apply inv_perm; simpl; unfold at_hand, in_stream, queued, at_hand; simpl; rewrite ?E; simpl;
    try done; auto.
Qed.

(** A record that lands is new only if it is the one of the event at hand. *)
Lemma landed_new s :
  s ∈ w_acked w ++ at_hand w -> sd_eid s ∉ (w_log w).*1 -> at_hand w = [s].
Proof.
  intros Hs Hn. apply elem_of_app in Hs as [Hs|Hs]; [by destruct Hn; apply HI|].
  unfold at_hand in *. destruct (w_cur w) as [c|]; [|by apply not_elem_of_nil in Hs].
  by apply list_elem_of_singleton in Hs as ->.
Qed.

Lemma in_stream_land s (w' : World) :
  s ∈ w_acked w ++ at_hand w -> w_acked w' = w_acked w -> at_hand w' = at_hand w ->
  w_log w' = w_log w ++ [record_of s] ->
  in_stream w ++ (if decide (sd_eid s ∈ (w_log w).*1) then [] else [s]) = in_stream w'.
Proof.
  intros Hs Ea Eh El. unfold in_stream. rewrite Ea, Eh, El, <- app_assoc. f_equal. case_decide as Hd.
  - rewrite app_nil_r. apply list_filter_iff. intros t. rewrite fmap_app, elem_of_app. simpl.
    rewrite list_elem_of_singleton. split; [by left|]. intros [?| ->]; done.
  - rewrite (landed_new s Hs Hd), (filter_cons_False _ s) by done. symmetry. rewrite filter_cons_True; [done|].
    rewrite fmap_app, elem_of_app. right. simpl. by left.
Qed.

Lemma inv_land i w' : land i w = Some w' -> writer_inv base w'.
Proof.
  unfold land. destruct (w_copies w !! i) as [c|] eqn:E; simpl; [|done]. intros [= <-].
  pose proof HI as [Hb Hn Hid Hnd Hc Ha (tail & El & Ht & Hf) Hct].
  destruct (Hc c (list_elem_of_lookup_2 _ _ _ E)) as (s & Hs & ->).
  split; simpl; try done.
  - intros c Hin. apply Hc. by eapply list_elem_of_delete_inv.
  - intros t Htin. rewrite fmap_app, elem_of_app. left. by apply Ha.
  - exists (tail ++ [record_of s]). split_and!.
    + by rewrite El, app_assoc.
    + intros c. rewrite elem_of_app, list_elem_of_singleton. intros [?| ->]; [by apply Ht|by exists s].
    + rewrite firsts_app, Hf.
      transitivity (record_of <$> in_stream w ++ (if decide (sd_eid s ∈ (w_log w).*1) then [] else [s])).
      * rewrite fmap_app. f_equal. unfold record_of at 1. simpl.
        assert (Hlog : sd_eid s ∈ (w_log w).*1 <-> sd_eid s ∈ eids tail ∪ eids base)
          by (rewrite El, fmap_app, elem_of_app, elem_of_union, !elem_of_eids; tauto).
        by destruct (decide _) as [?|?], (decide _) as [?|?]; try tauto.
      * f_equal. by apply in_stream_land.
Qed.

Lemma inv_ok w' : answer_ok w = Some w' -> writer_inv base w'.
Proof.
  unfold answer_ok. destruct (w_cur w) as [[s n []]|] eqn:E; try done. case_decide as Hd; [|done].
  intros [= <-]. pose proof HI as [Hb Hn Hid Hnd Hc Ha (tail & El & Ht & Hf) Hct].
  assert (Hh : at_hand w = [s]) by (unfold at_hand; by rewrite E).
  unfold queued in *. rewrite Hh in *.
  assert (Hmem : forall t, t ∈ w_acked w ++ [s] -> t ∈ (w_acked w ++ [s]) ++ []) by (intros t; by rewrite app_nil_r).
  split; unfold queued, at_hand; simpl; try done.
  - intros t. rewrite <- (app_assoc (w_acked w)). apply Hid.
  - by rewrite <- (app_assoc (w_acked w)).
  - intros c Hin. destruct (Hc c Hin) as (t & ? & ->). eauto.
  - intros t. rewrite elem_of_app, list_elem_of_singleton. intros [?| ->]; [by apply Ha|done].
  - exists tail. split_and!; [done| |].
    + intros c Hin. destruct (Ht c Hin) as (t & ? & ->). eauto.
    + rewrite Hf. unfold in_stream, at_hand. simpl. rewrite E. simpl.
      by rewrite filter_cons_True, app_nil_r by done.
  - rewrite Hct. simpl. lia.
Qed.
End invariant.

Lemma writer_inv_step base a w w' : writer_inv base w -> wstep a w = Some w' -> writer_inv base w'.
Proof.
  intros HI. unfold wstep. destruct a; try destruct (w_exited w); try done.
  - intros [= <-]. by apply inv_mint.
  - by apply inv_push.
  - by apply inv_recv.
  - by apply inv_send.
  - by apply inv_land.
  - by apply inv_land.
  - by apply inv_ok.
  - by apply inv_err.
Qed.

Lemma writer_inv_run base acts w w' :
  writer_inv base w -> wrun acts w = Some w' -> writer_inv base w'.
Proof.
  revert w. induction acts as [|a acts IH]; intros w HI Hr; simpl in Hr; [by simplify_eq|].
  destruct (wstep a w) as [w1|] eqn:E; simpl in Hr; [|done]. eauto using writer_inv_step.
Qed.

Lemma writer_inv_start nonce base :
  (forall n, 0 <= n -> eid_of nonce n ∉ base.*1) -> writer_inv base (world_start nonce base).
Proof.
  intros Hb. split; unfold queued, in_stream, at_hand, world_start; simpl; try done.
  - intros s Hs. by apply not_elem_of_nil in Hs.
  - constructor.
  - intros c Hc. by apply not_elem_of_nil in Hc.
  - intros s Hs. by apply not_elem_of_nil in Hs.
  - exists []. rewrite app_nil_r. split_and!; [done| |done]. intros c Hc. by apply not_elem_of_nil in Hc.
Qed.

(* ------------------------------------------------------------------ *)
(** ** What the writer promises *)

Lemma in_stream_between w :
  exists l, w_acked w ++ l = in_stream w /\ l `prefix_of` at_hand w.
Proof.
  eexists. split; [reflexivity|]. unfold at_hand. destruct (w_cur w) as [c|]; [|exists []; done].
  destruct (decide (sd_eid (sg_send c) ∈ (w_log w).*1)).
  - rewrite filter_cons_True by done. by exists [].
  - rewrite filter_cons_False by done. by exists [sg_send c].
Qed.

(** C10: Whatever requests are lost, repeated or carried out late, a boot's fold of the stream is
    the fold of what it held at the start followed by the queued events in queue order, each once:
    every acknowledged one, and beyond them at most the event at hand. *)
Theorem catalog_survives_retries (nonce : str) (base : list (str * CatalogEvent))
    (acts : list WAct) (w : World) :
  (forall n, 0 <= n -> eid_of nonce n ∉ base.*1) ->
  wrun acts (world_start nonce base) = Some w ->
  exists sent,
    folded (fold_once (w_log w) fold_default)
      = fold_events (sd_ev <$> sent) (folded (fold_once base fold_default)) /\
    w_acked w `prefix_of` sent /\ sent `prefix_of` w_acked w ++ at_hand w.
Proof.
  intros Hb Hr. pose proof (writer_inv_run _ _ _ _ (writer_inv_start _ _ Hb) Hr) as HI.
  destruct (wi_log _ _ HI) as (tail & El & _ & Hf). destruct (in_stream_between w) as (l & Hl & [l' Hl']).
  exists (in_stream w). split_and!.
  - rewrite !folded_fold_once, El, firsts_app, (right_id_L ∅ (∪)), Hf, fmap_app.
    unfold fold_events. rewrite foldl_app. f_equal. by rewrite <- list_fmap_compose.
  - rewrite <- Hl. by exists l.
  - rewrite <- Hl, Hl'. exists l'. by rewrite app_assoc.
Qed.

(** An empty count: every event handed out is acknowledged. *)
Theorem drained_is_durable nonce base acts w :
  (forall n, 0 <= n -> eid_of nonce n ∉ base.*1) ->
  wrun acts (world_start nonce base) = Some w -> drained w = true ->
  w_acked w = queued w /\ w_minted w = [].
Proof.
  intros Hb Hr Hd. pose proof (writer_inv_run _ _ _ _ (writer_inv_start _ _ Hb) Hr) as HI.
  pose proof (wi_count _ _ HI) as Hc. unfold drained in Hd. bool_prop.
  unfold queued in *. destruct (w_minted w), (at_hand w), (w_chan w); simpl in *; try lia.
  by rewrite app_nil_r.
Qed.

(* ------------------------------------------------------------------ *)
(** ** The durability barrier *)

(** Both halves of every [enqueue] together: nothing overtakes. *)
Definition in_order (acts : list WAct) : Prop :=
  Forall (λ a, match a with APush i => i = 0%nat | _ => True end) acts.

(** The queue positions handed out: [n], [n + 1], ... *)
Definition positions (n len : nat) : list Z := Z.of_nat <$> seq n len.

Record barrier_inv (w : World) : Prop := {
  bi_seq : sd_seq <$> queued w ++ w_minted w
    = positions 1 (length (queued w ++ w_minted w));
  bi_next : w_next_eid w = Z.of_nat (S (length (queued w ++ w_minted w)));
  bi_landed : w_landed_seq w = Z.of_nat (length (w_acked w))
}.

Lemma positions_snoc n len : positions n (S len) = positions n len ++ [Z.of_nat (n + len)].
Proof. unfold positions. rewrite seq_S, fmap_app. done. Qed.

Lemma barrier_inv_same w w' :
  barrier_inv w -> queued w' ++ w_minted w' = queued w ++ w_minted w ->
  w_next_eid w' = w_next_eid w -> w_landed_seq w' = w_landed_seq w -> w_acked w' = w_acked w ->
  barrier_inv w'.
Proof. intros [Hs Hn Hl] Eq En El Ea. split; by rewrite ?Eq, ?En, ?El, ?Ea. Qed.

Lemma barrier_inv_step a w w' :
  barrier_inv w -> in_order [a] -> wstep a w = Some w' -> barrier_inv w'.
Proof.
  intros HI Ho. unfold wstep. destruct a as [ev done| | | |i| |chain]; try destruct (w_exited w); try (intros; discriminate).
  - intros [= <-]. destruct HI as [Hs Hn Hl].
    assert (Hq : queued (mint ev done w) ++ w_minted (mint ev done w)
      = (queued w ++ w_minted w) ++ [mkSend ev (w_next_eid w) (eid_of (w_nonce w) (w_next_eid w)) done])
      by (unfold queued, at_hand; simpl; by rewrite <- !app_assoc).
    split; [|rewrite Hq, length_app; simpl; lia|done].
    rewrite Hq, fmap_app, length_app, Hs. simpl. rewrite Nat.add_1_r, positions_snoc. f_equal.
    rewrite Hn. simpl. do 2 f_equal.
  - inversion Ho; subst. unfold push. destruct (w_minted w) as [|s rest] eqn:E; simpl; [done|].
    intros [= <-]. apply (barrier_inv_same w); try done. unfold queued, at_hand. simpl. rewrite E.
    by rewrite <- !app_assoc.
  - unfold recv. destruct (w_cur w) eqn:E; [done|]. destruct (w_chan w) as [|s rest] eqn:Ec; [done|].
    intros [= <-]. apply (barrier_inv_same w); try done. unfold queued, at_hand. simpl. by rewrite E, Ec.
  - unfold send_attempt. destruct (w_cur w) as [[s n []]|] eqn:E; try done. intros [= <-].
    apply (barrier_inv_same w); try done. unfold queued, at_hand. simpl. by rewrite E.
  - unfold land. destruct (w_copies w !! i); simpl; [|done]. intros [= <-].
    by apply (barrier_inv_same w).
  - unfold land. destruct (w_copies w !! i); simpl; [|done]. intros [= <-].
    by apply (barrier_inv_same w).
  - unfold answer_ok. destruct (w_cur w) as [[s n []]|] eqn:E; try done. case_decide; [|done].
    intros [= <-]. destruct HI as [Hs Hn Hl].
    assert (Hq : queued w ++ w_minted w = w_acked w ++ s :: w_chan w ++ w_minted w)
      by (unfold queued, at_hand; rewrite E; by rewrite <- !app_assoc).
    assert (Hlk : (sd_seq <$> queued w ++ w_minted w) !! length (w_acked w) = Some (sd_seq s))
      by (rewrite Hq, list_lookup_fmap, lookup_app_r, Nat.sub_diag by lia; done).
    unfold positions in Hs. rewrite Hs, list_lookup_fmap, lookup_seq_lt in Hlk
      by (rewrite Hq, length_app; simpl; lia).
    injection Hlk as Hlk.
    assert (Hq' : ((w_acked w ++ [s]) ++ [] ++ w_chan w) ++ w_minted w = queued w ++ w_minted w)
      by (rewrite Hq; by rewrite <- !app_assoc).
    split; unfold queued, at_hand in *; cbn [w_acked w_cur w_chan w_minted w_next_eid w_landed_seq];
      rewrite ?Hq'; try done. rewrite length_app. simpl. lia.
  - unfold answer_err. destruct (w_cur w) as [[s n []]|] eqn:E; try done.
    destruct (if w_ensured w then _ else _); intros [= <-]; apply (barrier_inv_same w); try done;
      unfold queued, at_hand; simpl; by rewrite E.
Qed.

Lemma barrier_inv_run acts w w' :
  barrier_inv w -> in_order acts -> wrun acts w = Some w' -> barrier_inv w'.
Proof.
  revert w. induction acts as [|a acts IH]; intros w HI Ho Hr; simpl in Hr; [by simplify_eq|].
  destruct (wstep a w) as [w1|] eqn:E; simpl in Hr; [|done]. inversion Ho; subst.
  eapply IH; [|done|done]. eapply barrier_inv_step; [done| |done]. by constructor.
Qed.

(** What is handed out stays: at its place, until acknowledged. *)
Lemma handed_out_step a w w' :
  in_order [a] -> wstep a w = Some w' -> queued w ++ w_minted w `prefix_of` queued w' ++ w_minted w'.
Proof.
  intros Ho. unfold wstep. destruct a as [ev done| | | |i| |chain]; try destruct (w_exited w); try (intros; discriminate).
  - intros [= <-]. unfold queued, at_hand. simpl. eexists. by rewrite <- !app_assoc.
  - inversion Ho; subst. unfold push. destruct (w_minted w) as [|s rest] eqn:E; simpl; [done|].
    intros [= <-]. unfold queued, at_hand. simpl. exists []. rewrite app_nil_r. by rewrite <- !app_assoc.
  - unfold recv. destruct (w_cur w) eqn:E; [done|]. destruct (w_chan w) as [|s rest] eqn:Ec; [done|].
    intros [= <-]. unfold queued, at_hand. simpl. rewrite E, Ec. reflexivity.
  - unfold send_attempt. destruct (w_cur w) as [[s n []]|] eqn:E; try done. intros [= <-].
    unfold queued, at_hand. simpl. rewrite E. reflexivity.
  - unfold land. destruct (w_copies w !! i); simpl; [|done]. intros [= <-]. reflexivity.
  - unfold land. destruct (w_copies w !! i); simpl; [|done]. intros [= <-]. reflexivity.
  - unfold answer_ok. destruct (w_cur w) as [[s n []]|] eqn:E; try done. case_decide; [|done].
    intros [= <-]. unfold queued, at_hand. simpl. rewrite E. simpl. exists []. rewrite app_nil_r.
    by rewrite <- !app_assoc.
  - unfold answer_err. destruct (w_cur w) as [[s n []]|] eqn:E; try done.
    destruct (if w_ensured w then _ else _); intros [= <-]; unfold queued, at_hand; simpl; rewrite E; reflexivity.
Qed.

Lemma handed_out_run acts w w' :
  in_order acts -> wrun acts w = Some w' -> queued w ++ w_minted w `prefix_of` queued w' ++ w_minted w'.
Proof.
  revert w. induction acts as [|a acts IH]; intros w Ho Hr; simpl in Hr; [by simplify_eq|].
  destruct (wstep a w) as [w1|] eqn:E; simpl in Hr; [|done]. inversion Ho; subst.
  etransitivity; [|by apply IH]. eapply handed_out_step; [|done]. by constructor.
Qed.

(** With every [enqueue] in one piece, a passed barrier means that every event queued when it was
    set has been acknowledged. *)
Theorem barrier_is_durable nonce base acts acts' w w' :
  in_order acts -> in_order acts' ->
  wrun acts (world_start nonce base) = Some w -> wrun acts' w = Some w' ->
  barrier_passed (barrier_target w) w' = true ->
  queued w ++ w_minted w `prefix_of` w_acked w'.
Proof.
  intros Ho Ho' Hr Hr' Hp.
  assert (HI : barrier_inv w) by (eapply barrier_inv_run; [|exact Ho|exact Hr]; by split).
  pose proof (barrier_inv_run _ _ _ HI Ho' Hr') as HI'.
  pose proof (handed_out_run _ _ _ Ho' Hr') as Hpre.
  unfold barrier_passed, barrier_target, sat_sub_u64 in Hp. bool_prop.
  rewrite (bi_landed _ HI'), (bi_next _ HI) in Hp.
  assert (Hl : (length (queued w ++ w_minted w) <= length (w_acked w'))%nat) by lia.
  assert (Ha : w_acked w' `prefix_of` queued w' ++ w_minted w').
  { unfold queued. rewrite <- app_assoc. by eexists. }
  destruct (prefix_weak_total _ _ _ Hpre Ha) as [|Hle]; [done|].
  by rewrite (prefix_length_eq _ _ Hle Hl).
Qed.

(** Two enqueues whose halves cross: the second event overtakes the first on its way into the
    channel.  The barrier set after both is passed when the second has landed, with the first
    still in the queue; and once the first has landed too the position is back below the target,
    so a barrier set only now waits for an event that nobody may ever send. *)
Theorem barrier_overtaken :
  let ev := EvReactivated $"s1" in
  let late := EvDropped $"s2" in
  let one := [ARecv; ASend true; ALand 0; AOk] in
  exists w w1 w2 first_,
    wrun [AMint ev true; AMint late false; APush 1; APush 0] (world_start $"n" []) = Some w /\
    wrun one w = Some w1 /\ barrier_passed (barrier_target w) w1 = true /\
    first_ ∈ w_chan w1 /\ first_ ∈ queued w /\ sd_ev first_ = ev /\
    wrun one w1 = Some w2 /\ drained w2 = true /\ barrier_passed (barrier_target w2) w2 = false.
Proof.
  do 4 eexists. split_and!; try (vm_compute; reflexivity).
  - vm_compute. left.
  - vm_compute. right. left.
  - vm_compute. reflexivity.
Qed.
