(* ===== verification/Lifecycle.v ===== *)
(** * Shapes, shares and subscriptions ([engine/mod.rs]: [EngineState]; [engine/lifecycle.rs])

    The half of [EngineState] that says which shapes exist, which of them are shared under which
    signature, who holds them and in which generation of a schema they were made; and the critical
    sections of the engine that change it, each with the catalog events it enqueues.

    [Engine] is that state with the lifecycle of each shape, the catalog events enqueued so far
    ([en_log]), what tasks have decided to enqueue but have not yet (they gave up the lock first,
    [en_unsent]) and the streams that are to be retired ([en_dying]).  Clocks are inputs: seconds
    for leases, nanoseconds for idleness.  Storage, the sequencer and the wait for a creator are not
    here: their outcomes are which operation comes next. *)

From S2P Require Import Prelude BTree Value TableRef Schema Predicate Gate Output ChangeLog.
From S2P Require Import Subquery Retention Catalog.
From stdpp Require Import base option numbers strings gmap fin_maps sorting list.
#[local] Open Scope Z_scope.

(* ------------------------------------------------------------------ *)
(** ** State *)

(** [ShareOutcome]. *)
Inductive ShareOutcome : Type := SharePending | ShareReady | ShareFailed | ShareDegraded | ShareRaced.

(** [FeedShare]: a subscription's value is the second its lease was last renewed at. *)
Record FeedShare : Type := mkShare { fs_sig : str; fs_subs : gmap str Z; fs_ready : ShareOutcome }.

(** [FeedShare::refcount]. *)
Definition share_refcount (s : FeedShare) : Z := Z.of_nat (size (fs_subs s)).

Record EngineState : Type := mkState {
  es_shapes : gmap str ShapeRecord;
  es_next_shape_id : Z;
  es_feed_by_sig : gmap str str;
  es_feed_shares : gmap str FeedShare;
  es_schema_gen : gmap TableRef Z;
  es_unresolved : gset TableRef;
  es_epoch_gen : Z;
  es_subs_by_id : gmap str str;
  es_next_minted : Z
}.

Definition with_shapes (m : gmap str ShapeRecord) (st : EngineState) : EngineState :=
  mkState m (es_next_shape_id st) (es_feed_by_sig st) (es_feed_shares st) (es_schema_gen st)
    (es_unresolved st) (es_epoch_gen st) (es_subs_by_id st) (es_next_minted st).
Definition with_next (n : Z) (st : EngineState) : EngineState :=
  mkState (es_shapes st) n (es_feed_by_sig st) (es_feed_shares st) (es_schema_gen st)
    (es_unresolved st) (es_epoch_gen st) (es_subs_by_id st) (es_next_minted st).
Definition with_feeds (by_sig : gmap str str) (shares : gmap str FeedShare) (st : EngineState)
    : EngineState :=
  mkState (es_shapes st) (es_next_shape_id st) by_sig shares (es_schema_gen st)
    (es_unresolved st) (es_epoch_gen st) (es_subs_by_id st) (es_next_minted st).
Definition with_owners (m : gmap str str) (st : EngineState) : EngineState :=
  mkState (es_shapes st) (es_next_shape_id st) (es_feed_by_sig st) (es_feed_shares st)
    (es_schema_gen st) (es_unresolved st) (es_epoch_gen st) m (es_next_minted st).
Definition with_gens (g : gmap TableRef Z) (epoch : Z) (st : EngineState) : EngineState :=
  mkState (es_shapes st) (es_next_shape_id st) (es_feed_by_sig st) (es_feed_shares st) g
    (es_unresolved st) epoch (es_subs_by_id st) (es_next_minted st).
Definition with_minted (n : Z) (st : EngineState) : EngineState :=
  mkState (es_shapes st) (es_next_shape_id st) (es_feed_by_sig st) (es_feed_shares st)
    (es_schema_gen st) (es_unresolved st) (es_epoch_gen st) (es_subs_by_id st) n.

(* ------------------------------------------------------------------ *)
(** ** Generations *)

(** [SchemaGens]. *)
Record SchemaGens : Type := mkGens { sg_tables : list (TableRef * Z); sg_epoch : Z }.

Definition gen_of (st : EngineState) (t : TableRef) : Z := default 0 (es_schema_gen st !! t).

(** [capture_gens], [drifted_since], [epoch_reset_since], [first_unresolved]. *)
Definition capture_gens (tables : list TableRef) (st : EngineState) : SchemaGens :=
  mkGens ((λ t, (t, gen_of st t)) <$> tables) (es_epoch_gen st).
Definition drifted_since (gens : SchemaGens) (st : EngineState) : option TableRef :=
  fst <$> head (filter (λ p, gen_of st p.1 <> p.2) (sg_tables gens)).
Definition epoch_reset_since (gens : SchemaGens) (st : EngineState) : bool :=
  negb (es_epoch_gen st =? sg_epoch gens).
Definition first_unresolved (tables : list TableRef) (st : EngineState) : option TableRef :=
  head (filter (λ t, t ∈ es_unresolved st) tables).

(** Why a create or a join is refused. *)
Inductive Refusal : Type :=
  | Degraded
  | SchemaUnresolved (t : TableRef)
  | SchemaResolving (t : TableRef)
  | SubscriptionConflict (subscription shape : str)
  | EpochReset
  | SchemaChanged (t : TableRef)
  | Raced.

(** [ensure_schema_resolved]; [resolving] are the tables whose resolution is under way. *)
Definition ensure_schema_resolved (resolving : gset TableRef) (tables : list TableRef)
    (st : EngineState) : res Refusal unit :=
  match first_unresolved tables st with
  | Some t => Err (SchemaUnresolved t)
  | None => match head (filter (λ t, t ∈ resolving) tables) with
            | Some t => Err (SchemaResolving t)
            | None => Ok tt
            end
  end.

(** [ensure_schema_unchanged]. *)
Definition ensure_schema_unchanged (gens : SchemaGens) (st : EngineState) : res Refusal unit :=
  if epoch_reset_since gens st then Err EpochReset
  else match drifted_since gens st with Some t => Err (SchemaChanged t) | None => Ok tt end.

(** [recheck_after_durability]. *)
Definition recheck_after_durability (degraded : bool) (id stream_path : str) (gens : SchemaGens)
    (st : EngineState) : res Refusal unit :=
  if degraded then Err Degraded
  else match ensure_schema_unchanged gens st with
       | Err _ => Err Raced
       | Ok _ => match es_shapes st !! id with
                 | Some rec => if bool_decide (rec_stream_path rec = stream_path) then Ok tt
                               else Err Raced
                 | None => Err Raced
                 end
       end.

(* ------------------------------------------------------------------ *)
(** ** Subscriptions *)

(** [subscription_owner]. *)
Definition subscription_owner (sub : str) (st : EngineState) : option str := es_subs_by_id st !! sub.

Definition set_share_subs (subs : gmap str Z) (s : FeedShare) : FeedShare :=
  mkShare (fs_sig s) subs (fs_ready s).

(** [subscribe]: whether the claim is new, and the state. *)
Definition subscribe (shape sub : str) (at_ : Z) (st : EngineState) : bool * EngineState :=
  match es_feed_shares st !! shape with
  | None => (false, st)
  | Some share =>
      (bool_decide (fs_subs share !! sub = None),
       with_owners (<[sub := shape]> (es_subs_by_id st))
         (with_feeds (es_feed_by_sig st)
            (<[shape := set_share_subs (lease sub at_ (fs_subs share)) share]> (es_feed_shares st)) st))
  end.

(** The owner index without an id that still points at the shape. *)
Definition disown (shape sub : str) (owners : gmap str str) : gmap str str :=
  if bool_decide (owners !! sub = Some shape) then delete sub owners else owners.

(** [unsubscribe]: whether the claim was held, and the state. *)
Definition unsubscribe (shape sub : str) (st : EngineState) : bool * EngineState :=
  match es_feed_shares st !! shape with
  | None => (false, st)
  | Some share =>
      match fs_subs share !! sub with
      | None => (false, st)
      | Some _ =>
          (true,
           with_owners (disown shape sub (es_subs_by_id st))
             (with_feeds (es_feed_by_sig st)
                (<[shape := set_share_subs (delete sub (fs_subs share)) share]> (es_feed_shares st)) st))
      end
  end.

(** [MINTED_SUB_PREFIX] is the tilde, 126; 45 is the hyphen. *)
Definition is_minted (sub : str) : bool := match sub with c :: _ => (c =? 126)%N | [] => false end.
(** [minted_seq]. *)
Definition minted_seq (id : str) : option Z := p ← rsplit_once 45 id; parse_u64 p.2.

(** The key [min_by_key] compares claims by: the lease, the minted counter, the id. *)
Definition claim_cmp (a b : str * Z) : comparison :=
  match Z.compare a.2 b.2 with
  | Eq => match minted_seq a.1, minted_seq b.1 with
          | Some x, Some y => match Z.compare x y with Eq => str_cmp a.1 b.1 | c => c end
          | None, None => str_cmp a.1 b.1
          | None, Some _ => Lt
          | Some _, None => Gt
          end
  | c => c
  end.
Definition older (a b : str * Z) : str * Z := match claim_cmp b a with Lt => b | _ => a end.
Definition oldest (l : list (str * Z)) : option (str * Z) :=
  match l with [] => None | a :: l => Some (foldl older a l) end.
Definition pick (minted : bool) (subs : gmap str Z) : option str :=
  fst <$> oldest (filter (λ p, is_minted p.1 = minted) (map_to_list subs)).

(** [unsubscribe_anonymous]: the claim that was dropped, and the state. *)
Definition unsubscribe_anonymous (shape : str) (st : EngineState) : option str * EngineState :=
  match (share ← es_feed_shares st !! shape;
         match pick true (fs_subs share) with Some v => Some v | None => pick false (fs_subs share) end) with
  | Some victim => let '(held, st') := unsubscribe shape victim st in
                   (if held then Some victim else None, st')
  | None => (None, st)
  end.

(** [forget_subscriptions]. *)
Definition forget_subscriptions (shape : str) (st : EngineState) : EngineState :=
  match es_feed_shares st !! shape with
  | Some share =>
      with_owners (foldr (disown shape) (es_subs_by_id st) (map_to_list (fs_subs share)).*1) st
  | None => st
  end.

(** [lapsed_subscriptions], sorted as the source sorts it. *)
Definition lapsed_subscriptions (window : Duration) (now : Z) (st : EngineState) : list (str * str) :=
  if window =? 0 then []
  else
    let secs := Z.max (as_secs window) 1 in
    stable_sort pair_leb
      ('(shape, share) ← map_to_list (es_feed_shares st);
       (λ p, (shape, p.1)) <$>
         filter (λ p, secs < sat_sub_u64 now p.2) (map_to_list (fs_subs share))).

(** [ensure_subscription_free]. *)
Definition ensure_subscription_free (sub shape : str) (st : EngineState) : res Refusal unit :=
  match subscription_owner sub st with
  | Some owner => if bool_decide (owner = shape) then Ok tt else Err (SubscriptionConflict sub owner)
  | None => Ok tt
  end.

(** [mint_subscription]. *)
Definition mint_subscription (nonce : str) (st : EngineState) : str * EngineState :=
  (126%N :: nonce ++ $"-" ++ Z_to_str (es_next_minted st), with_minted (es_next_minted st + 1) st).

(* ------------------------------------------------------------------ *)
(** ** The engine *)

(** [LifeState], [ShapeLife] of [retention.rs]; the channels others wait on are not state here. *)
Inductive LifeState : Type :=
  | LActive
  | LDeactivating
  | LDormant (since : Z) (resume : LogPosition) (gate : SnapshotGate)
  | LReactivating (resume : LogPosition).

Record ShapeLife : Type := mkLife { life_last_read : Z; life_state : LifeState }.

(** What a task will enqueue after it gave up the lock. *)
Inductive Unsent : Type :=
  | ULeft (shape sub : str)
  | UDormant (id : str) (resume : LogPosition) (gate : SnapshotGate)
  | UDropped (id path : str).

Record Engine : Type := mkEngine {
  en_state : EngineState;
  en_lives : gmap str ShapeLife;
  en_log : list CatalogEvent;
  en_unsent : list Unsent;
  en_dying : gmap str str
}.

Definition with_state (st : EngineState) (en : Engine) : Engine :=
  mkEngine st (en_lives en) (en_log en) (en_unsent en) (en_dying en).
Definition with_lives (m : gmap str ShapeLife) (en : Engine) : Engine :=
  mkEngine (en_state en) m (en_log en) (en_unsent en) (en_dying en).
Definition enqueue (ev : CatalogEvent) (en : Engine) : Engine :=
  mkEngine (en_state en) (en_lives en) (en_log en ++ [ev]) (en_unsent en) (en_dying en).
Definition hold (us : list Unsent) (en : Engine) : Engine :=
  mkEngine (en_state en) (en_lives en) (en_log en) (en_unsent en ++ us) (en_dying en).
Definition with_dying (m : gmap str str) (en : Engine) : Engine :=
  mkEngine (en_state en) (en_lives en) (en_log en) (en_unsent en) m.

(** [touch_shape]. *)
Definition touch_shape (id : str) (now : Z) (en : Engine) : Engine :=
  with_lives (alter (λ l, mkLife now (life_state l)) id (en_lives en)) en.

(** A lifecycle entry set, if there is one. *)
Definition set_life (id : str) (s : LifeState) (en : Engine) : Engine :=
  with_lives (alter (λ l, mkLife (life_last_read l) s) id (en_lives en)) en.
Definition set_life_at (id : str) (now : Z) (s : LifeState) (en : Engine) : Engine :=
  with_lives (alter (λ _, mkLife now s) id (en_lives en)) en.

(* ------------------------------------------------------------------ *)
(** ** Creating and joining *)

Definition shape_id_of (n : Z) : str := $"s" ++ Z_to_str n.
Definition stream_path_of (id : str) : str := $"shape/" ++ id.

(** A record under its id and stream. *)
Definition named (id : str) (proto : ShapeRecord) : ShapeRecord :=
  mkShapeRecord id (rec_table proto) (stream_path_of id) (rec_changes_only proto) (rec_where proto)
    (rec_columns proto) (rec_family_key proto) (rec_is_subquery proto) (rec_aggregate proto)
    (rec_fingerprint proto) None None.

(** What a create asks for and finds: the shape it describes, its signature if it may be shared,
    the claim, the tables it reads, those under resolution, the degradation latch, and the clocks
    ([cr_at] of the event, [cr_now] of the share or the join, [cr_read] of the lifecycle). *)
Record CreateReq : Type := mkReq {
  cr_proto : ShapeRecord;
  cr_sig : option str;
  cr_sub : str;
  cr_tables : list TableRef;
  cr_resolving : gset TableRef;
  cr_degraded : bool;
  cr_at : Z;
  cr_now : Z;
  cr_read : Z
}.

Inductive CreateOutcome : Type := OJoined (id : str) (fresh : bool) | OCreated (id : str).

(** The shape an identical create shares. *)
Definition join_target (sig : option str) (st : EngineState) : option str :=
  s ← sig; id ← es_feed_by_sig st !! s; _ ← es_shapes st !! id; Some id.

(** The join half of [create_shape_once], under the lock. *)
Definition join_shape (r : CreateReq) (id : str) (en : Engine) : res Refusal CreateOutcome * Engine :=
  match ensure_schema_resolved (cr_resolving r) (cr_tables r) (en_state en) with
  | Err e => (Err e, en)
  | Ok _ =>
      match ensure_subscription_free (cr_sub r) id (en_state en) with
      | Err e => (Err e, en)
      | Ok _ =>
          let '(fresh, st) := subscribe id (cr_sub r) (cr_now r) (en_state en) in
          (Ok (OJoined id fresh), enqueue (EvJoined id (cr_sub r) (cr_now r)) (with_state st en))
      end
  end.

(** What a create registers. *)
Definition add_share (id : str) (sig : option str) (st : EngineState) : EngineState :=
  match sig with
  | Some s => with_feeds (<[s := id]> (es_feed_by_sig st))
                (<[id := mkShare s ∅ SharePending]> (es_feed_shares st)) st
  | None => st
  end.
Definition register_shape (r : CreateReq) (id : str) (en : Engine) : Engine :=
  let st := en_state en in
  let rec := named id (cr_proto r) in
  let st1 := add_share id (cr_sig r) (with_shapes (<[id := rec]> (es_shapes st)) st) in
  let st2 := match cr_sig r with
             | Some _ => (subscribe id (cr_sub r) (cr_now r) st1).2
             | None => st1
             end in
  enqueue (EvCreated rec (cr_sig r) (cr_sub r) (cr_at r))
    (with_lives (<[id := mkLife (cr_read r) LActive]> (en_lives en)) (with_state st2 en)).

(** The create half: the id is taken before the checks that can still refuse. *)
Definition register (r : CreateReq) (en : Engine) : res Refusal CreateOutcome * Engine :=
  match ensure_subscription_free (cr_sub r) [] (en_state en) with
  | Err e => (Err e, en)
  | Ok _ =>
      let n := es_next_shape_id (en_state en) in
      let id := shape_id_of n in
      let en1 := with_state (with_next (n + 1) (en_state en)) en in
      match ensure_schema_resolved (cr_resolving r) (cr_tables r) (en_state en1) with
      | Err e => (Err e, en1)
      | Ok _ => if cr_degraded r then (Err Degraded, en1)
                else (Ok (OCreated id), register_shape r id en1)
      end
  end.

(** [create_shape_once] up to the release of the lock.  [create_aggregate_once] is the same, but looks
    at the schemas once only, before the lock it registers under: with no tables here. *)
Definition create_locked (r : CreateReq) (en : Engine) : res Refusal CreateOutcome * Engine :=
  match join_target (cr_sig r) (en_state en) with
  | Some id => join_shape r id en
  | None => register r en
  end.

(** What the creator tells the joiners. *)
Definition publish (id : str) (o : ShareOutcome) (en : Engine) : Engine :=
  let st := en_state en in
  with_state (with_feeds (es_feed_by_sig st)
    (alter (λ s, mkShare (fs_sig s) (fs_subs s) o) id (es_feed_shares st)) st) en.

(* ------------------------------------------------------------------ *)
(** ** Releasing and removing *)

(** [release_subscription_inner]. *)
Definition release_subscription (id : str) (sub : option str) (now : Z) (en : Engine) : Engine :=
  let '(released, st) :=
    match sub with
    | Some s => let '(held, st) := unsubscribe id s (en_state en) in (if held then Some s else None, st)
    | None => unsubscribe_anonymous id (en_state en)
    end in
  let en1 := with_state st en in
  touch_shape id now
    (match released with Some s => enqueue (EvLeft id s false) en1 | None => en1 end).

(** [renew_subscription_local]. *)
Definition renew_subscription_local (id sub : str) (now : Z) (en : Engine) : Engine :=
  with_state (subscribe id sub now (en_state en)).2 en.

(** The share entry of a shape removed; the signature's pointer with it. *)
Definition remove_share (id : str) (st : EngineState) : EngineState :=
  match es_feed_shares st !! id with
  | Some share => with_feeds (delete (fs_sig share) (es_feed_by_sig st)) (delete id (es_feed_shares st)) st
  | None => st
  end.
Definition remove_share_if_ours (id : str) (st : EngineState) : EngineState :=
  match es_feed_shares st !! id with
  | Some share => with_feeds (disown id (fs_sig share) (es_feed_by_sig st)) (delete id (es_feed_shares st)) st
  | None => st
  end.

(** The record removed; a [Dropped] and a stream to retire if there was one. *)
Definition drop_record (id : str) (en : Engine) : Engine :=
  let st := en_state en in
  let en1 := with_state (with_shapes (delete id (es_shapes st)) st) en in
  match es_shapes st !! id with
  | Some rec => with_dying (<[id := rec_stream_path rec]> (en_dying en1)) (enqueue (EvDropped id) en1)
  | None => en1
  end.

(** [purge_shape_inner], under the lock. *)
Definition purge_shape (id : str) (en : Engine) : Engine :=
  drop_record id
    (with_state (remove_share id (forget_subscriptions id (en_state en)))
       (with_lives (delete id (en_lives en)) en)).

(** [rollback_create]: the [Dropped] is enqueued after the lock. *)
Definition rollback_create (id : str) (en : Engine) : Engine :=
  let st := en_state en in
  let st1 := remove_share_if_ours id
               (forget_subscriptions id (with_shapes (delete id (es_shapes st)) st)) in
  let en1 := with_lives (delete id (en_lives en)) (with_state st1 en) in
  match es_shapes st !! id with
  | Some rec => hold [UDropped id (rec_stream_path rec)] en1
  | None => en1
  end.

Definition parkable (rec : ShapeRecord) : bool :=
  negb (rec_is_subquery rec) && negb (bool_decide (is_Some (rec_aggregate rec)))
  && negb (rec_changes_only rec).
Definition live_claims (id : str) (st : EngineState) : Z :=
  match es_feed_shares st !! id with Some s => share_refcount s | None => 0 end.
Definition elapsed (now since : Z) : Z := Z.max 0 (now - since).

(** [evict_shape]: whether the shape is gone, and the state. *)
Definition evictable (cfg : RetentionConfig) (rec : ShapeRecord) (life : option ShapeLife) (now : Z) : bool :=
  match life with
  | Some (mkLife _ (LDormant _ _ _)) => true
  | Some (mkLife read LActive) =>
      negb (parkable rec) && (idle_timeout cfg + dormant_ttl cfg <=? elapsed now read)
  | _ => false
  end.
Definition provisional (life : option ShapeLife) (reason : EvictReason) : bool :=
  match life, reason with
  | Some (mkLife _ (LDormant _ _ _)), (ReplayBudget | ChangeLogRetention) => true
  | _, _ => false
  end.
Definition evict_shape (cfg : RetentionConfig) (id : str) (reason : EvictReason) (now : Z) (en : Engine)
    : bool * Engine :=
  match es_shapes (en_state en) !! id with
  | None => (true, en)
  | Some rec =>
      let life := en_lives en !! id in
      if negb (evictable cfg rec life now) then (false, en)
      else if negb (provisional life reason) && (0 <? live_claims id (en_state en)) then (false, en)
      else (true, purge_shape id en)
  end.

(** [sweep_leases]: the claims are released under the lock, their [Left]s enqueued after it. *)
Definition sweep_leases (window : Duration) (now : Z) (en : Engine) : Engine :=
  let expired := lapsed_subscriptions window now (en_state en) in
  hold ((λ p, ULeft p.1 p.2) <$> expired)
    (with_state (foldl (λ st p, (unsubscribe p.1 p.2 st).2) (en_state en) expired) en).

(* ------------------------------------------------------------------ *)
(** ** Parking and waking *)

(** [deactivate_shape] up to the sequencer, and after its answer. *)
Definition deactivate_begin (cfg : RetentionConfig) (id : str) (now : Z) (en : Engine) : bool * Engine :=
  match es_shapes (en_state en) !! id with
  | None => (false, en)
  | Some rec =>
      if negb (parkable rec) || (0 <? live_claims id (en_state en)) then (false, en)
      else match en_lives en !! id with
           | Some (mkLife read LActive) =>
               if elapsed now read <? idle_timeout cfg then (false, en)
               else (true, set_life id LDeactivating en)
           | _ => (false, en)
           end
  end.
Definition deactivate_end (id : str) (answer : option (LogPosition * SnapshotGate)) (now : Z)
    (en : Engine) : Engine :=
  match en_lives en !! id with
  | None => en
  | Some _ =>
      match answer with
      | Some (resume, gate) => hold [UDormant id resume gate] (set_life id (LDormant now resume gate) en)
      | None => set_life_at id now LActive en
      end
  end.

(** [ensure_active], one look at the lifecycle. *)
Inductive ActiveStep : Type := StepDone | WaitDeactivate | WaitReactivate (resume : option (LogPosition * SnapshotGate)).
Definition ensure_active_step (id : str) (now : Z) (en : Engine) : ActiveStep * Engine :=
  match en_lives en !! id with
  | None => (StepDone, en)
  | Some life =>
      let en1 := touch_shape id now en in
      match life_state life with
      | LActive => (StepDone, en1)
      | LDeactivating => (WaitDeactivate, en1)
      | LReactivating _ => (WaitReactivate None, en1)
      | LDormant _ resume gate =>
          (WaitReactivate (Some (resume, gate)), set_life id (LReactivating resume) en1)
      end
  end.

(** The detached task: the end of [resume_dormant], the shape set active, or parked again. *)
Definition resume_recorded (id : str) (en : Engine) : Engine := enqueue (EvReactivated id) en.
Definition reactivated (id : str) (now : Z) (en : Engine) : Engine := set_life_at id now LActive en.
Definition reparked (id : str) (resume : LogPosition) (gate : SnapshotGate) (now : Z) (en : Engine)
    : Engine := set_life id (LDormant now resume gate) en.

(* ------------------------------------------------------------------ *)
(** ** Retirement *)

(** The oldest-first sends of the tasks, in whatever order they come. *)
Definition remove_unsent (i : nat) (en : Engine) : Engine :=
  mkEngine (en_state en) (en_lives en) (en_log en) (delete i (en_unsent en)) (en_dying en).
Definition send_unsent (i : nat) (en : Engine) : Engine :=
  match en_unsent en !! i with
  | Some (ULeft shape sub) => enqueue (EvLeft shape sub true) (remove_unsent i en)
  | Some (UDormant id resume gate) => enqueue (EvDormant id resume gate) (remove_unsent i en)
  | Some (UDropped id path) =>
      with_dying (<[id := path]> (en_dying en)) (enqueue (EvDropped id) (remove_unsent i en))
  | None => en
  end.

(** [retire_shape_stream], the queue's worker and the end of [rollback_create]: storage accepted
    the deletion of a stream whose [Dropped] is enqueued, or it did not. *)
Definition retire_attempt (id : str) (deleted : bool) (en : Engine) : Engine :=
  match en_dying en !! id with
  | Some _ => if deleted then with_dying (delete id (en_dying en)) (enqueue (EvRetired id) en) else en
  | None => en
  end.

(* ------------------------------------------------------------------ *)
(** ** Drift and epochs *)

(** [retire_dependents] and [reset_epoch], the sections that say which shapes go: the purges
    follow, one critical section each. *)
Definition depends_on (table : TableRef) (rec : ShapeRecord) : bool :=
  bool_decide (rec_table rec = table)
  || match rec_where rec with Some w => bool_decide (table ∈ referenced_tables w) | None => false end.
Definition retire_begin (table : TableRef) (en : Engine) : list str * Engine :=
  let st := en_state en in
  (fst <$> filter (λ p, depends_on table p.2) (map_to_list (es_shapes st)),
   with_state (with_gens (<[table := gen_of st table + 1]> (es_schema_gen st)) (es_epoch_gen st) st) en).
Definition reset_begin (en : Engine) : list str * Engine :=
  let st := en_state en in
  ((map_to_list (es_shapes st)).*1,
   with_state (with_gens (es_schema_gen st) (es_epoch_gen st + 1) st) en).

(** Undisturbed, the whole of [retire_dependents]. *)
Definition retire_dependents (table : TableRef) (en : Engine) : Engine :=
  let '(ids, en1) := retire_begin table en in foldl (λ en id, purge_shape id en) en1 ids.

(* ------------------------------------------------------------------ *)
(** ** Schedules *)

(** The events that say nothing about a shape. *)
Definition shapeless (ev : CatalogEvent) : bool :=
  match ev with
  | EvStoreBound _ | EvOffset _ _ | EvChangesRotated _ _ | EvChangesSegmentDeleted _
  | EvConsumerPinned _ _ | EvConsumerEvicted _ | EvSchemaChanged _ _ | EvSourceDrained _
  | EvSlotBound _ => true
  | _ => false
  end.

Inductive Act : Type :=
  | ACreate (r : CreateReq)
  | APublish (id : str) (o : ShareOutcome)
  | ARelease (id : str) (sub : option str) (now : Z)
  | ARenewLocal (id sub : str) (now : Z)
  | APurge (id : str)
  | ARollback (id : str)
  | AEvict (cfg : RetentionConfig) (id : str) (reason : EvictReason) (now : Z)
  | ASweepLeases (window : Duration) (now : Z)
  | ADeactivate (cfg : RetentionConfig) (id : str) (now : Z)
  | ADeactivated (id : str) (answer : option (LogPosition * SnapshotGate)) (now : Z)
  | AEnsureActive (id : str) (now : Z)
  | AResumeRecorded (id : str)
  | AReactivated (id : str) (now : Z)
  | AReparked (id : str) (resume : LogPosition) (gate : SnapshotGate) (now : Z)
  | ASized (id : str) (rows bytes : Z)
  | ASendUnsent (i : nat)
  | ARetire (id : str) (deleted : bool)
  | ADrift (table : TableRef)
  | AReset
  | AMintSub (nonce : str)
  | AOther (ev : CatalogEvent).

(** One critical section. *)
Definition estep (a : Act) (en : Engine) : Engine :=
  match a with
  | ACreate r => (create_locked r en).2
  | APublish id o => publish id o en
  | ARelease id sub now => release_subscription id sub now en
  | ARenewLocal id sub now => renew_subscription_local id sub now en
  | APurge id => purge_shape id en
  | ARollback id => rollback_create id en
  | AEvict cfg id reason now => (evict_shape cfg id reason now en).2
  | ASweepLeases window now => sweep_leases window now en
  | ADeactivate cfg id now => (deactivate_begin cfg id now en).2
  | ADeactivated id answer now => deactivate_end id answer now en
  | AEnsureActive id now => (ensure_active_step id now en).2
  | AResumeRecorded id => resume_recorded id en
  | AReactivated id now => reactivated id now en
  | AReparked id resume gate now => reparked id resume gate now en
  | ASized id rows bytes => enqueue (EvBackfillSized id rows bytes) en
  | ASendUnsent i => send_unsent i en
  | ARetire id deleted => retire_attempt id deleted en
  | ADrift table => (retire_begin table en).2
  | AReset => (reset_begin en).2
  | AMintSub nonce => with_state (mint_subscription nonce (en_state en)).2 en
  | AOther ev => if shapeless ev then enqueue ev en else en
  end.

Definition erun (acts : list Act) (en : Engine) : Engine := foldl (λ en a, estep a en) en acts.

(** A fresh engine over an empty catalog. *)
Definition engine_start : Engine :=
  mkEngine (mkState ∅ 1 ∅ ∅ ∅ ∅ 0 ∅ 1) ∅ [] [] ∅.

(** The fold of a boot, of the events enqueued. *)
Definition fold_of (en : Engine) : CatalogFold := fold_events (en_log en) fold_default.
