(* ===== verification/LifecycleInv.v ===== *)
(** * The log and the engine agree on which shapes exist

    [inv]: the records of the fold are the engine's shapes and those whose [Dropped] is still on its
    way; what the fold has dropped and not retired is what the engine still has to retire; ids only
    go up.  Every critical section keeps it ([inv_step]), and so does a boot over any part of the
    log ([inv_restart], in [Restore]). *)

From S2P Require Import Prelude BTree Value TableRef Schema Predicate Gate Output ChangeLog.
From S2P Require Import Subquery Retention Catalog Lifecycle.
From stdpp Require Import base option numbers strings gmap fin_maps sorting list.
#[local] Open Scope Z_scope.

(* ------------------------------------------------------------------ *)
(** ** Ids *)

Lemma shape_id_num_of n : 0 <= n <= u64_max -> shape_id_num (shape_id_of n) = Some n.
Proof.
  intros Hn. unfold shape_id_num, shape_id_of. rewrite str_strip_prefix_app. simpl.
  unfold parse_u64. by apply parse_int_Z_to_str.
Qed.

#[export] Instance shape_id_of_inj : Inj (=) (=) shape_id_of.
Proof. intros a b E. apply Z_to_str_inj. by apply app_inv_head in E. Qed.

(* ------------------------------------------------------------------ *)
(** ** Logs *)

Lemma fold_snoc l ev f : fold_events (l ++ [ev]) f = apply_event ev (fold_events l f).
Proof. unfold fold_events. by rewrite foldl_app. Qed.

Lemma fold_of_enqueue ev en : fold_of (enqueue ev en) = apply_event ev (fold_of en).
Proof. apply fold_snoc. Qed.

(** A record without its sizes; what a fold keeps of a shape that no later event changes. *)
Definition bare (c : ShapeRecord) : ShapeRecord :=
  mkShapeRecord (rec_id c) (rec_table c) (rec_stream_path c) (rec_changes_only c) (rec_where c)
    (rec_columns c) (rec_family_key c) (rec_is_subquery c) (rec_aggregate c) (rec_fingerprint c)
    None None.
Definition core (f : CatalogFold) (id : str) : option (ShapeRecord * option str) :=
  (λ r, (bare (r_rec r), r_sig r)) <$> cf_recs f !! id.

(** An event that neither makes nor removes a shape. *)
Definition quiet (ev : CatalogEvent) : bool :=
  match ev with EvCreated _ _ _ _ | EvDropped _ | EvRetired _ => false | _ => true end.

Lemma quiet_core ev f id : quiet ev = true -> core (apply_event ev f) id = core f id.
Proof.
  assert (Ha : forall g i, (forall r, bare (r_rec (g r)) = bare (r_rec r) /\ r_sig (g r) = r_sig r) ->
    core (alter_rec i g f) id = core f id).
  { intros g i Hg. unfold core, alter_rec. simpl. destruct (decide (i = id)) as [->|Hi].
    - rewrite lookup_alter_eq. destruct (cf_recs f !! id) as [r|]; simpl; [|done].
      by destruct (Hg r) as [-> ->].
    - by rewrite lookup_alter_ne. }
  destruct ev; simpl; try done; intros _; try (by apply Ha).
  by case_match.
Qed.

Lemma quiet_rest ev f : quiet ev = true ->
  cf_pending_retire (apply_event ev f) = cf_pending_retire f /\
  cf_max_shape_id (apply_event ev f) = cf_max_shape_id f.
Proof. destruct ev; simpl; try done. by case_match. Qed.

(** What the engine's own logs are: every [Created] names a new, higher id and its stream. *)
Definition ev_ok (ev : CatalogEvent) (f : CatalogFold) : Prop :=
  match ev with
  | EvCreated c _ _ _ => exists n, rec_id c = shape_id_of n /\ rec_stream_path c = stream_path_of (rec_id c) /\
      1 <= n <= u64_max /\ forall m, cf_max_shape_id f = Some m -> m < n
  | _ => True
  end.
Inductive log_ok : list CatalogEvent -> Prop :=
  | log_nil : log_ok []
  | log_snoc l ev : log_ok l -> ev_ok ev (fold_events l fold_default) -> log_ok (l ++ [ev]).

Lemma written_take k l : log_ok l -> log_ok (take k l).
Proof.
  intros H. induction H as [|l ev H IH Hev]; [rewrite take_nil; constructor|].
  destruct (decide (k <= length l)%nat).
  - by rewrite take_app_le.
  - rewrite take_ge; [by constructor|]. rewrite length_app. simpl. lia.
Qed.

Lemma log_ok_quiet l ev : log_ok l -> quiet ev = true -> log_ok (l ++ [ev]).
Proof. intros H Hq. constructor; [done|]. by destruct ev. Qed.

(** An id the log has made. *)
Definition made (f : CatalogFold) (id : str) : Prop :=
  exists n m, id = shape_id_of n /\ 1 <= n /\ cf_max_shape_id f = Some m /\ n <= m <= u64_max.

Record fold_ok (f : CatalogFold) : Prop := {
  fo_recs : forall id c s, core f id = Some (c, s) ->
    rec_id c = id /\ rec_stream_path c = stream_path_of id /\ made f id;
  fo_pending : forall id path, cf_pending_retire f !! id = Some path ->
    path = stream_path_of id /\ core f id = None /\ made f id
}.

Lemma made_mono ev f id : ev_ok ev f -> made f id -> made (apply_event ev f) id.
Proof.
  intros Hev (n & m & -> & Hn & Hm & Hnm). destruct (quiet ev) eqn:Hq.
  { destruct (quiet_rest ev f Hq) as [_ Em]. exists n, m. by rewrite Em. }
  destruct ev; simpl in *; try done.
  - destruct Hev as (k & -> & _ & Hk & Hmax). unfold max_id. rewrite shape_id_num_of by lia. rewrite Hm.
    specialize (Hmax m Hm). exists n, (Z.max m k). split_and!; try done; lia.
  - exists n, m. by destruct (cf_recs f !! id).
  - by exists n, m.
Qed.

Lemma fold_ok_step ev f : ev_ok ev f -> fold_ok f -> fold_ok (apply_event ev f).
Proof.
  intros Hev [Hr Hp]. destruct (quiet ev) eqn:Hq.
  { destruct (quiet_rest ev f Hq) as [Ep _]. split.
    - intros id c s. rewrite quiet_core by done. intros Hc. destruct (Hr _ _ _ Hc) as (?&?&?).
      split_and!; try done. by apply made_mono.
    - intros id path. rewrite Ep, quiet_core by done. intros Hc. destruct (Hp _ _ Hc) as (?&?&?).
      split_and!; try done. by apply made_mono. }
  pose proof (λ id, made_mono ev f id Hev) as Hmono.
  destruct ev as [|c sig sub at_| | | | | |i|i| | | | | | | | ]; simpl in Hev, Hmono; try done.
  - destruct Hev as (n & En & Ep & Hn & Hmax).
    assert (Hnew : forall id, made f id -> id <> rec_id c).
    { intros id (k & m & -> & _ & Hm & Hkm) E. rewrite En in E. apply shape_id_of_inj in E as ->.
      specialize (Hmax m Hm). lia. }
    assert (Hme : made (apply_event (EvCreated c sig sub at_) f) (rec_id c)).
    { simpl. rewrite En. eexists n, _. split_and!; [done|lia| | |].
      - simpl. unfold max_id. by rewrite shape_id_num_of by lia.
      - simpl. destruct (cf_max_shape_id f); lia.
      - simpl. destruct (cf_max_shape_id f) as [m|] eqn:Em; [specialize (Hmax m eq_refl)|]; lia. }
    split; intros id; unfold core; simpl.
    + intros c' s'. destruct (decide (rec_id c = id)) as [<-|Hi].
      * rewrite lookup_insert_eq. simpl. intros [= <- <-]. by split_and!.
      * rewrite lookup_insert_ne by done. intros Hc. destruct (Hr _ _ _ Hc) as (?&?&?). split_and!; try done.
        by apply Hmono.
    + intros path Hpath. destruct (Hp _ _ Hpath) as (?&Hn'&Hm). split_and!; try done; [|by apply Hmono].
      rewrite lookup_insert_ne by (intros E; by apply (Hnew id Hm)). done.
  - unfold core in *. simpl. destruct (cf_recs f !! i) as [r|] eqn:E; [|done]. split; intros id; simpl.
    + unfold core. simpl. intros c' s'.
      destruct (decide (i = id)) as [<-|Hi]; [by rewrite lookup_delete_eq|].
      rewrite lookup_delete_ne by done. intros Hc. destruct (Hr _ _ _ Hc) as (?&?&?).
      by split_and!.
    + intros path. unfold core. simpl. destruct (decide (i = id)) as [<-|Hi].
      * rewrite lookup_insert_eq, lookup_delete_eq. intros [= <-].
        specialize (Hr i (bare (r_rec r)) (r_sig r)). rewrite E in Hr. destruct (Hr eq_refl) as (?&?&?).
        by split_and!.
      * rewrite lookup_insert_ne, lookup_delete_ne by done. intros Hc. destruct (Hp _ _ Hc) as (?&?&?).
        by split_and!.
  - split; intros id; simpl.
    + intros c' s' Hc. destruct (Hr _ _ _ Hc) as (?&?&?). split_and!; try done.
    + intros path. rewrite lookup_delete_Some. intros [_ Hc]. destruct (Hp _ _ Hc) as (?&?&?).
      split_and!; try done.
Qed.

Lemma fold_ok_log l : log_ok l -> fold_ok (fold_events l fold_default).
Proof.
  intros H. induction H as [|l ev H IH Hev]; [by split|]. rewrite fold_snoc. by apply fold_ok_step.
Qed.

(* ------------------------------------------------------------------ *)
(** ** The engine beside its log *)

(** The [Dropped]s on their way. *)
Definition dropped_of (u : Unsent) : option (str * str) :=
  match u with UDropped id path => Some (id, path) | _ => None end.
Definition late_drops (en : Engine) : list (str * str) := omap dropped_of (en_unsent en).

Definition shape_at (en : Engine) (id : str) : option ShapeRecord := es_shapes (en_state en) !! id.
Definition share_at (en : Engine) (id : str) : option FeedShare := es_feed_shares (en_state en) !! id.

Record inv (en : Engine) : Prop := {
  iv_log : log_ok (en_log en);
  iv_next : 1 <= es_next_shape_id (en_state en) <= u64_max;
  iv_max : forall m, cf_max_shape_id (fold_of en) = Some m -> m < es_next_shape_id (en_state en);
  iv_shapes : forall id c, shape_at en id = Some c -> exists s, core (fold_of en) id = Some (bare c, s) /\
    (forall sh, share_at en id = Some sh -> s = Some (fs_sig sh));
  iv_recs : forall id c s, core (fold_of en) id = Some (c, s) ->
    is_Some (shape_at en id) \/ (id, rec_stream_path c) ∈ late_drops en;
  iv_shares : forall id, is_Some (share_at en id) -> is_Some (shape_at en id);
  iv_late : forall id path, (id, path) ∈ late_drops en -> shape_at en id = None /\
    exists c s, core (fold_of en) id = Some (c, s) /\ path = rec_stream_path c;
  iv_once : NoDup (late_drops en).*1;
  iv_dying : en_dying en = cf_pending_retire (fold_of en)
}.

Lemma core_events evs f id : Forall (λ ev, quiet ev = true) evs ->
  core (fold_events evs f) id = core f id /\
  cf_pending_retire (fold_events evs f) = cf_pending_retire f /\
  cf_max_shape_id (fold_events evs f) = cf_max_shape_id f.
Proof.
  intros H. revert f. induction H as [|ev evs Hq H IH]; intros f; [done|].
  change (fold_events (ev :: evs) f) with (fold_events evs (apply_event ev f)).
  destruct (IH (apply_event ev f)) as (-> & -> & ->). rewrite quiet_core by done.
  by destruct (quiet_rest ev f Hq) as [-> ->].
Qed.

Lemma log_ok_quiets l evs : log_ok l -> Forall (λ ev, quiet ev = true) evs -> log_ok (l ++ evs).
Proof.
  intros Hl H. revert l Hl. induction H as [|ev evs Hq H IH]; intros l Hl; [by rewrite app_nil_r|].
  change (ev :: evs) with ([ev] ++ evs). rewrite app_assoc. apply IH. by apply log_ok_quiet.
Qed.

(** What leaves the shapes, the shares' signatures, the drops on their way and the streams to retire
    as they are, and enqueues only quiet events, keeps the invariant. *)
Lemma inv_frame en en' evs :
  inv en ->
  es_shapes (en_state en') = es_shapes (en_state en) ->
  es_next_shape_id (en_state en) <= es_next_shape_id (en_state en') <= u64_max ->
  (forall id, fs_sig <$> share_at en' id = fs_sig <$> share_at en id) ->
  en_log en' = en_log en ++ evs -> Forall (λ ev, quiet ev = true) evs ->
  late_drops en' = late_drops en -> en_dying en' = en_dying en ->
  inv en'.
Proof.
  intros [Hlog Hn Hm Hs Hr Hsh Hl Ho Hd] Es En Ef El Hq Eu Ed.
  assert (Hf : fold_of en' = fold_events evs (fold_of en))
    by (unfold fold_of; rewrite El; unfold fold_events; by rewrite foldl_app).
  destruct (core_events evs (fold_of en) [] Hq) as (_ & Hp & Hx).
  assert (Hc : forall id, core (fold_of en') id = core (fold_of en) id)
    by (intros id; rewrite Hf; by apply core_events).
  split; unfold shape_at in *; rewrite ?Es, ?Eu, ?Ed; try done.
  - rewrite El. by apply log_ok_quiets.
  - lia.
  - intros m. rewrite Hf, Hx. intros E. specialize (Hm m E). lia.
  - intros id c E. destruct (Hs id c E) as (s & Ec & Hsig). exists s. rewrite Hc. split; [done|].
    intros sh Esh. specialize (Ef id). rewrite Esh in Ef. destruct (share_at en id) as [sh0|] eqn:E0; [|done].
    injection Ef as ->. by apply Hsig.
  - intros id c s. rewrite Hc. apply Hr.
  - intros id [sh Esh]. apply Hsh. specialize (Ef id). rewrite Esh in Ef.
    destruct (share_at en id); [by eexists|done].
  - intros id path Hin. destruct (Hl id path Hin) as (? & c & s & Ec & ?). split; [done|].
    exists c, s. by rewrite Hc.
  - by rewrite Hf, Hp.
Qed.

(** Operations on shares and claims. *)
Lemma subscribe_shares shape sub at_ st id :
  fs_sig <$> es_feed_shares (subscribe shape sub at_ st).2 !! id = fs_sig <$> es_feed_shares st !! id.
Proof.
  unfold subscribe. destruct (es_feed_shares st !! shape) as [sh|] eqn:E; [|done]. simpl.
  destruct (decide (shape = id)) as [<-|Hi]; [by rewrite lookup_insert_eq, E|by rewrite lookup_insert_ne].
Qed.

Lemma unsubscribe_shares shape sub st id :
  fs_sig <$> es_feed_shares (unsubscribe shape sub st).2 !! id = fs_sig <$> es_feed_shares st !! id.
Proof.
  unfold unsubscribe. destruct (es_feed_shares st !! shape) as [sh|] eqn:E; [|done].
  destruct (fs_subs sh !! sub); [|done]. simpl.
  destruct (decide (shape = id)) as [<-|Hi]; [by rewrite lookup_insert_eq, E|by rewrite lookup_insert_ne].
Qed.

(** The rest of the state under them. *)
Lemma subscribe_rest shape sub at_ st :
  es_shapes (subscribe shape sub at_ st).2 = es_shapes st /\
  es_next_shape_id (subscribe shape sub at_ st).2 = es_next_shape_id st /\
  es_feed_by_sig (subscribe shape sub at_ st).2 = es_feed_by_sig st.
Proof. unfold subscribe. by destruct (es_feed_shares st !! shape). Qed.

Lemma unsubscribe_rest shape sub st :
  es_shapes (unsubscribe shape sub st).2 = es_shapes st /\
  es_next_shape_id (unsubscribe shape sub st).2 = es_next_shape_id st /\
  es_feed_by_sig (unsubscribe shape sub st).2 = es_feed_by_sig st.
Proof.
  unfold unsubscribe. destruct (es_feed_shares st !! shape) as [sh|]; [|done].
  by destruct (fs_subs sh !! sub).
Qed.

Lemma unsubscribe_all_rest l st :
  let st' := foldl (λ st p, (unsubscribe p.1 p.2 st).2) st l in
  es_shapes st' = es_shapes st /\ es_next_shape_id st' = es_next_shape_id st /\
  es_feed_by_sig st' = es_feed_by_sig st /\
  (forall id, fs_sig <$> es_feed_shares st' !! id = fs_sig <$> es_feed_shares st !! id).
Proof.
  revert st. induction l as [|p l IH]; intros st; simpl; [done|].
  destruct (IH (unsubscribe p.1 p.2 st).2) as (-> & -> & -> & Hs).
  destruct (unsubscribe_rest p.1 p.2 st) as (-> & -> & ->). split_and!; try done.
  intros id. by rewrite Hs, unsubscribe_shares.
Qed.

Lemma forget_rest shape st :
  es_shapes (forget_subscriptions shape st) = es_shapes st /\
  es_next_shape_id (forget_subscriptions shape st) = es_next_shape_id st /\
  es_feed_by_sig (forget_subscriptions shape st) = es_feed_by_sig st /\
  es_feed_shares (forget_subscriptions shape st) = es_feed_shares st.
Proof. unfold forget_subscriptions. by destruct (es_feed_shares st !! shape). Qed.

(** The claim an anonymous release drops is released like a named one. *)
Lemma anonymous_release shape st :
  (exists v, unsubscribe_anonymous shape st =
     (if (unsubscribe shape v st).1 then Some v else None, (unsubscribe shape v st).2)) \/
  unsubscribe_anonymous shape st = (None, st).
Proof.
  unfold unsubscribe_anonymous. destruct (_ ≫= _) as [v|]; [left|by right].
  exists v. by destruct (unsubscribe shape v st).
Qed.

(* ------------------------------------------------------------------ *)
(** ** Every critical section keeps it *)

(** The side conditions of [inv_frame] that are immediate. *)
Ltac frame HI :=
  try done; try (by rewrite app_nil_r); try (by constructor); try (split; [done|apply HI]).

(** Frames that touch only lifecycles, or the state without its shapes. *)
Lemma inv_lives m en : inv en -> inv (with_lives m en).
Proof.
  intros HI. apply (inv_frame en _ []); frame HI.
Qed.

Lemma inv_quiet ev en : inv en -> quiet ev = true -> inv (enqueue ev en).
Proof.
  intros HI Hq. apply (inv_frame en _ [ev]); frame HI.
Qed.

Lemma inv_state st en :
  inv en -> es_shapes st = es_shapes (en_state en) ->
  es_next_shape_id (en_state en) <= es_next_shape_id st <= u64_max ->
  (forall id, fs_sig <$> es_feed_shares st !! id = fs_sig <$> es_feed_shares (en_state en) !! id) ->
  inv (with_state st en).
Proof.
  intros HI Hs Hn Hf. apply (inv_frame en _ []); frame HI.
Qed.

Lemma inv_same_next st en :
  inv en -> es_shapes st = es_shapes (en_state en) ->
  es_next_shape_id st = es_next_shape_id (en_state en) ->
  (forall id, fs_sig <$> es_feed_shares st !! id = fs_sig <$> es_feed_shares (en_state en) !! id) ->
  inv (with_state st en).
Proof. intros HI Hs Hn Hf. apply inv_state; try done. rewrite Hn. split; [done|apply HI]. Qed.

Lemma late_drops_app us en : late_drops (hold us en) = late_drops en ++ omap dropped_of us.
Proof. unfold late_drops. simpl. apply omap_app. Qed.

Lemma inv_hold us en : inv en -> omap dropped_of us = [] -> inv (hold us en).
Proof.
  intros HI Hu. apply (inv_frame en _ []); frame HI. by rewrite late_drops_app, Hu, app_nil_r.
Qed.

Lemma inv_join r id en : inv en -> inv (join_shape r id en).2.
Proof.
  intros HI. unfold join_shape. destruct (ensure_schema_resolved _ _ _); [|done].
  destruct (ensure_subscription_free _ _ _); [|done].
  destruct (subscribe id (cr_sub r) (cr_now r) (en_state en)) as [fresh st] eqn:E. simpl.
  assert (Est : st = (subscribe id (cr_sub r) (cr_now r) (en_state en)).2) by by rewrite E.
  apply inv_quiet; [|done]. destruct (subscribe_rest id (cr_sub r) (cr_now r) (en_state en)) as (Hs & Hn & _).
  rewrite <- Est in Hs, Hn. apply inv_same_next; try done. intros i. rewrite Est. apply subscribe_shares.
Qed.

Lemma inv_release id sub now en : inv en -> inv (release_subscription id sub now en).
Proof.
  intros HI. unfold release_subscription.
  set (p := match sub with Some _ => _ | None => _ end).
  assert (Hp : es_shapes p.2 = es_shapes (en_state en) /\
    es_next_shape_id p.2 = es_next_shape_id (en_state en) /\
    (forall i, fs_sig <$> es_feed_shares p.2 !! i = fs_sig <$> es_feed_shares (en_state en) !! i)).
  { assert (Hu : forall s, let st := (unsubscribe id s (en_state en)).2 in
      es_shapes st = es_shapes (en_state en) /\ es_next_shape_id st = es_next_shape_id (en_state en) /\
      (forall i, fs_sig <$> es_feed_shares st !! i = fs_sig <$> es_feed_shares (en_state en) !! i)).
    { intros s. destruct (unsubscribe_rest id s (en_state en)) as (? & ? & _). split_and!; try done.
      intros i. apply unsubscribe_shares. }
    subst p. destruct sub as [s|].
    - specialize (Hu s). by destruct (unsubscribe id s (en_state en)).
    - destruct (anonymous_release id (en_state en)) as [[v ->]| ->]; [apply Hu|done]. }
  destruct p as [released st]. simpl in Hp. destruct Hp as (Hs & Hn & Hf).
  apply inv_lives. destruct released; [apply inv_quiet; [|done]|]; by apply inv_same_next.
Qed.

Lemma lefts_drop_nothing (l : list (str * str)) :
  omap dropped_of ((λ p, ULeft p.1 p.2) <$> l) = [].
Proof. by induction l. Qed.

Lemma inv_sweep window now en : inv en -> inv (sweep_leases window now en).
Proof.
  intros HI. unfold sweep_leases. set (l := lapsed_subscriptions _ _ _).
  destruct (unsubscribe_all_rest l (en_state en)) as (Hs & Hn & _ & Hf).
  apply inv_hold; [by apply inv_same_next|]. apply lefts_drop_nothing.
Qed.

(** A new shape. *)
Lemma add_share_at id sig st i :
  es_feed_shares (add_share id sig st) !! i
  = if decide (i = id) then match sig with Some s => Some (mkShare s ∅ SharePending)
                                      | None => es_feed_shares st !! id end
    else es_feed_shares st !! i.
Proof.
  unfold add_share. case_decide as Hi; [subst|]; destruct sig; simpl; try done;
    [by rewrite lookup_insert_eq|by rewrite lookup_insert_ne].
Qed.

Lemma inv_register_shape r id en :
  inv en -> (exists n, id = shape_id_of n /\ 1 <= n < es_next_shape_id (en_state en) /\
    forall m, cf_max_shape_id (fold_of en) = Some m -> m < n) ->
  inv (register_shape r id en).
Proof.
  intros HI (n & -> & Hn & Hmax). set (id := shape_id_of n). set (en' := register_shape r id en).
  set (c := named id (cr_proto r)). set (ev := EvCreated c (cr_sig r) (cr_sub r) (cr_at r)).
  pose proof (fold_ok_log _ (iv_log _ HI)) as [Hfr Hfp]. fold (fold_of en) in Hfr, Hfp.
  assert (Hnew : ~ made (fold_of en) id).
  { intros (k & m & E & _ & Hm & Hkm). apply shape_id_of_inj in E as <-. specialize (Hmax m Hm). lia. }
  assert (Hnone : core (fold_of en) id = None).
  { destruct (core (fold_of en) id) as [[c' s]|] eqn:E; [|done]. by apply Hfr in E as (_ & _ & ?). }
  assert (Hev : ev_ok ev (fold_of en)).
  { exists n. split_and!; try done; [lia|]. pose proof (iv_next _ HI). lia. }
  assert (Hf : fold_of en' = apply_event ev (fold_of en))
    by (unfold en', register_shape; by rewrite fold_of_enqueue).
  assert (Hst : es_shapes (en_state en') = <[id := c]> (es_shapes (en_state en)) /\
    es_next_shape_id (en_state en') = es_next_shape_id (en_state en) /\
    forall i, fs_sig <$> share_at en' i
      = if decide (i = id) then match cr_sig r with Some s => Some s | None => fs_sig <$> share_at en id end
        else fs_sig <$> share_at en i).
  { unfold en', register_shape, share_at. cbn [en_state enqueue with_lives with_state]. fold c.
    destruct (cr_sig r) as [s|].
    - destruct (subscribe_rest id (cr_sub r) (cr_now r)
        (add_share id (Some s) (with_shapes (<[id := c]> (es_shapes (en_state en))) (en_state en)))) as (-> & -> & _).
      split_and!; [done|done|]. intros i. rewrite subscribe_shares, add_share_at. by case_decide.
    - simpl. split_and!; try done. intros i. by case_decide; subst. }
  destruct Hst as (Hs & Hx & Hsh).
  assert (Hcore : forall i, core (fold_of en') i
    = if decide (i = id) then Some (bare c, cr_sig r) else core (fold_of en) i).
  { intros i. rewrite Hf. unfold core. simpl. case_decide as Hi; [subst; by rewrite lookup_insert_eq|].
    by rewrite lookup_insert_ne. }
  assert (Hold : forall i, is_Some (shape_at en i) -> i <> id).
  { intros i [c' E] ->. destruct (iv_shapes _ HI _ _ E) as (s & E' & _). congruence. }
  assert (Hat : forall i, shape_at en' i = if decide (i = id) then Some c else shape_at en i).
  { intros i. unfold shape_at. rewrite Hs. case_decide as Hi; [subst; by rewrite lookup_insert_eq|].
    by rewrite lookup_insert_ne. }
  split.
  - simpl. constructor; [apply HI|done].
  - rewrite Hx. apply HI.
  - intros m. rewrite Hf, Hx. simpl. unfold max_id, id.
    rewrite shape_id_num_of by (pose proof (iv_next _ HI); lia). intros [= <-].
    destruct (cf_max_shape_id (fold_of en)) as [m0|] eqn:E; [specialize (Hmax m0 eq_refl)|]; lia.
  - intros i c'. rewrite Hat, Hcore. case_decide as Hi; subst.
    + intros [= <-]. eexists. split; [done|]. intros sh Esh. specialize (Hsh id).
      rewrite Esh, decide_True in Hsh by done. simpl in Hsh. destruct (cr_sig r); [congruence|].
      destruct (share_at en id) eqn:E; [|done]. exfalso. by apply (Hold id); [apply HI; eexists|].
    + intros E. destruct (iv_shapes _ HI _ _ E) as (s & Ec & Hsig). exists s. split; [done|].
      intros sh Esh. specialize (Hsh i). rewrite Esh, decide_False in Hsh by done.
      destruct (share_at en i) as [sh0|] eqn:E0; [|done]. injection Hsh as ->. by apply Hsig.
  - intros i c' s. rewrite Hcore, Hat. case_decide; [by left; eexists|]. apply HI.
  - intros i [sh Esh]. rewrite Hat. case_decide as Hi; [by eexists|]. apply HI.
    specialize (Hsh i). rewrite Esh, decide_False in Hsh by done. by destruct (share_at en i).
  - intros i path Hin. destruct (iv_late _ HI i path Hin) as (E & c' & s & Ec & Hp).
    assert (i <> id) by congruence. rewrite Hat, Hcore, !decide_False by done. eauto.
  - apply HI.
  - rewrite Hf. apply HI.
Qed.

Lemma inv_create r en :
  inv en -> es_next_shape_id (en_state (create_locked r en).2) <= u64_max -> inv (create_locked r en).2.
Proof.
  intros HI. unfold create_locked. destruct (join_target _ _) as [id|]; [intros _; by apply inv_join|].
  unfold register. destruct (ensure_subscription_free _ _ _); [|done].
  set (n := es_next_shape_id (en_state en)). set (en1 := with_state (with_next (n + 1) (en_state en)) en).
  intros Hn. pose proof (iv_next _ HI) as Hx. fold n in Hx.
  assert (HI1 : n + 1 <= u64_max -> inv en1) by (intros; apply inv_state; try done; simpl; lia).
  destruct (ensure_schema_resolved _ _ _); [|simpl in *; auto].
  destruct (cr_degraded r); [simpl in *; auto|]. simpl in *.
  assert (Hn' : n + 1 <= u64_max).
  { revert Hn. unfold register_shape. cbn [en_state enqueue with_lives with_state].
    destruct (cr_sig r) as [s|]; [|done].
    match goal with |- context [subscribe ?i ?s ?a ?st] =>
      destruct (subscribe_rest i s a st) as (_ & E & _) end.
    by rewrite E. }
  apply inv_register_shape; [auto|]. exists n. simpl. split_and!; [done|lia|lia|]. apply HI.
Qed.

(** A shape removed, its [Dropped] enqueued or on its way. *)
Lemma remove_share_at f id st i :
  f = remove_share \/ f = remove_share_if_ours ->
  es_shapes (f id st) = es_shapes st /\ es_next_shape_id (f id st) = es_next_shape_id st /\
  es_feed_shares (f id st) !! i = if decide (i = id) then None else es_feed_shares st !! i.
Proof.
  intros [-> | ->]; unfold remove_share, remove_share_if_ours;
    destruct (es_feed_shares st !! id) as [sh|] eqn:E; simpl; split_and!; try done; case_decide; subst;
    rewrite ?lookup_delete_eq, ?lookup_delete_ne by done; done.
Qed.

(** The common part: the share and the record of [id] are gone. *)
Record removed (id : str) (en en' : Engine) : Prop := {
  rm_next : es_next_shape_id (en_state en') = es_next_shape_id (en_state en);
  rm_shape : forall i, shape_at en' i = if decide (i = id) then None else shape_at en i;
  rm_share : forall i, share_at en' i = if decide (i = id) then None else share_at en i
}.

Lemma removed_sections f id m en :
  f = remove_share \/ f = remove_share_if_ours ->
  removed id en (with_lives m (with_state (f id (forget_subscriptions id
    (with_shapes (delete id (es_shapes (en_state en))) (en_state en)))) en)).
Proof.
  intros Hf. set (st := forget_subscriptions _ _).
  destruct (forget_rest id (with_shapes (delete id (es_shapes (en_state en))) (en_state en)))
    as (Hs & Hn & _ & Hsh). fold st in Hs, Hn, Hsh. simpl in Hs, Hn, Hsh.
  split; unfold shape_at, share_at; simpl.
  - destruct (remove_share_at f id st [] Hf) as (_ & -> & _). done.
  - intros i. destruct (remove_share_at f id st i Hf) as (-> & _ & _). rewrite Hs.
    case_decide; subst; [by rewrite lookup_delete_eq|by rewrite lookup_delete_ne].
  - intros i. destruct (remove_share_at f id st i Hf) as (_ & _ & ->). by rewrite Hsh.
Qed.

Lemma purge_gone id en :
  let en' := purge_shape id en in
  removed id en en' /\ en_unsent en' = en_unsent en /\
  match shape_at en id with
  | Some c => en_log en' = en_log en ++ [EvDropped id] /\ en_dying en' = <[id := rec_stream_path c]> (en_dying en)
  | None => en_log en' = en_log en /\ en_dying en' = en_dying en
  end.
Proof.
  simpl. unfold purge_shape, drop_record. simpl.
  set (st := remove_share id (forget_subscriptions id (en_state en))).
  assert (Hst : es_shapes st = es_shapes (en_state en) /\
     es_next_shape_id st = es_next_shape_id (en_state en) /\
     forall i, es_feed_shares st !! i = if decide (i = id) then None else share_at en i).
  { destruct (forget_rest id (en_state en)) as (Hs & Hn & _ & Hsh). unfold st.
    destruct (remove_share_at remove_share id (forget_subscriptions id (en_state en)) [] (or_introl eq_refl))
      as (-> & -> & _). split_and!; try done. intros i.
    destruct (remove_share_at remove_share id (forget_subscriptions id (en_state en)) i (or_introl eq_refl))
      as (_ & _ & ->). unfold share_at. by rewrite Hsh. }
  destruct Hst as (Hs & Hn & Hsh). unfold shape_at. rewrite Hs.
  destruct (es_shapes (en_state en) !! id) as [c|] eqn:E; simpl; split_and!; try done;
    (split; unfold shape_at, share_at; simpl; [done| |done]);
    intros i; rewrite ?Hs; case_decide; subst;
    rewrite ?lookup_delete_eq, ?lookup_delete_ne by done; done.
Qed.

Lemma rollback_gone id en :
  let en' := rollback_create id en in
  removed id en en' /\ en_log en' = en_log en /\ en_dying en' = en_dying en /\
  en_unsent en' = en_unsent en ++ match shape_at en id with
                                   | Some c => [UDropped id (rec_stream_path c)] | None => [] end.
Proof.
  simpl. unfold rollback_create. change (es_shapes (en_state en) !! id) with (shape_at en id).
  pose proof (removed_sections remove_share_if_ours id (delete id (en_lives en)) en (or_intror eq_refl)) as [H1 H2 H3].
  destruct (shape_at en id); simpl; split_and!; try done. by rewrite app_nil_r.
Qed.

(** A drop enqueued now. *)
Lemma core_drop id f i :
  core (apply_event (EvDropped id) f) i = if decide (i = id) then None else core f i.
Proof.
  unfold core. simpl. destruct (cf_recs f !! id) as [r|] eqn:E; simpl; case_decide; subst; try done.
  - by rewrite lookup_delete_eq.
  - by rewrite lookup_delete_ne.
  - by rewrite E.
Qed.
Lemma pending_drop id f c s :
  core f id = Some (c, s) ->
  cf_pending_retire (apply_event (EvDropped id) f) = <[id := rec_stream_path c]> (cf_pending_retire f) /\
  cf_max_shape_id (apply_event (EvDropped id) f) = cf_max_shape_id f.
Proof. unfold core. simpl. destruct (cf_recs f !! id) as [r|]; simpl; [|done]. by intros [= <- <-]. Qed.

Lemma inv_purge id en : inv en -> inv (purge_shape id en).
Proof.
  intros HI. pose proof (purge_gone id en) as H. simpl in H. set (en' := purge_shape id en) in *.
  destruct H as ([Hn Hat Hsh] & Hu & H).
  assert (Hlate : late_drops en' = late_drops en) by (unfold late_drops; by rewrite Hu).
  destruct (shape_at en id) as [c|] eqn:E; destruct H as [Hl Hd].
  - destruct (iv_shapes _ HI id c E) as (s & Ec & _).
    destruct (pending_drop id (fold_of en) (bare c) s Ec) as [Hp Hm].
    assert (Hf : fold_of en' = apply_event (EvDropped id) (fold_of en))
      by (unfold fold_of at 1; rewrite Hl; apply fold_snoc).
    split; rewrite ?Hlate, ?Hn; try apply HI.
    + rewrite Hl. constructor; [apply HI|done].
    + intros m. rewrite Hf, Hm. apply HI.
    + intros i c'. rewrite Hat, Hsh, Hf, core_drop. case_decide; [done|]. apply HI.
    + intros i c' s'. rewrite Hat, Hf, core_drop. case_decide; [done|]. apply HI.
    + intros i [sh Es]. rewrite Hat. rewrite Hsh in Es. case_decide; [done|]. apply HI. by eexists.
    + intros i path Hin. destruct (iv_late _ HI i path Hin) as (En & c' & s' & Ec' & Hpath).
      rewrite Hat, Hf, core_drop. case_decide; [subst; congruence|]. eauto.
    + rewrite Hd, Hf, Hp. by rewrite (iv_dying _ HI).
  - apply (inv_frame en _ []); try done.
    + apply map_eq. intros i. specialize (Hat i). unfold shape_at in *. rewrite Hat. by case_decide; subst.
    + rewrite Hn. split; [done|apply HI].
    + intros i. rewrite Hsh. case_decide as Hi; [subst|done].
      destruct (share_at en id) eqn:Es; [|done]. destruct (iv_shares _ HI id) as [c' ?]; [by eexists|congruence].
    + by rewrite app_nil_r.
Qed.

Lemma inv_rollback id en : inv en -> inv (rollback_create id en).
Proof.
  intros HI. pose proof (rollback_gone id en) as H. simpl in H. set (en' := rollback_create id en) in *.
  destruct H as ([Hn Hat Hsh] & Hl & Hd & Hu).
  assert (Hf : fold_of en' = fold_of en) by (unfold fold_of; by rewrite Hl).
  assert (Hlate : late_drops en' = late_drops en ++
    match shape_at en id with Some c => [(id, rec_stream_path c)] | None => [] end).
  { unfold late_drops. rewrite Hu, omap_app. f_equal. by destruct (shape_at en id). }
  split; rewrite ?Hf, ?Hl, ?Hn, ?Hd; try apply HI.
  - intros i c'. rewrite Hat, Hsh. case_decide; [done|]. apply HI.
  - intros i c' s' Ec. rewrite Hat, Hlate, elem_of_app. case_decide as Hi; subst.
    + right. destruct (iv_recs _ HI _ _ _ Ec) as [[c E]|]; [|by left]. right. rewrite E.
      destruct (iv_shapes _ HI _ _ E) as (s & Ec' & _). rewrite Ec in Ec'. injection Ec' as -> ->. by left.
    + destruct (iv_recs _ HI _ _ _ Ec) as [?|?]; [by left|right; by left].
  - intros i [sh Es]. rewrite Hat. rewrite Hsh in Es. case_decide; [done|]. apply HI. by eexists.
  - intros i path. rewrite Hlate, elem_of_app, Hat. intros [Hin|Hin].
    + destruct (iv_late _ HI i path Hin) as (En & ?). split; [by case_decide|done].
    + destruct (shape_at en id) as [c|] eqn:E; [|by apply not_elem_of_nil in Hin].
      apply list_elem_of_singleton in Hin as [= -> ->]. rewrite decide_True by done. split; [done|].
      destruct (iv_shapes _ HI _ _ E) as (s & Ec & _). eauto.
  - rewrite Hlate, fmap_app. apply NoDup_app. split_and!; [apply HI| |].
    + intros i Hin Hin2. apply list_elem_of_fmap in Hin as ([i' p] & -> & Hin).
      destruct (iv_late _ HI i' p Hin) as (En & _). simpl in Hin2.
      destruct (shape_at en id) eqn:E; simpl in Hin2; [|by apply not_elem_of_nil in Hin2].
      apply list_elem_of_singleton in Hin2 as ->. congruence.
    + destruct (shape_at en id); simpl; [apply NoDup_singleton|constructor].
Qed.

Lemma inv_evict cfg id reason now en : inv en -> inv (evict_shape cfg id reason now en).2.
Proof.
  intros HI. unfold evict_shape. destruct (es_shapes (en_state en) !! id); [|done].
  repeat case_match; try done. by apply inv_purge.
Qed.

(** A send of what was decided under the lock. *)
Lemma late_drops_delete i u en :
  en_unsent en !! i = Some u ->
  late_drops en ≡ₚ omap dropped_of [u] ++ late_drops (remove_unsent i en).
Proof.
  intros E. unfold late_drops. simpl. rewrite (delete_Permutation _ _ _ E) at 1. simpl.
  by destruct (dropped_of u).
Qed.

Lemma omap_delete {A B} (f : A -> option B) (l : list A) i x :
  l !! i = Some x -> f x = None -> omap f (delete i l) = omap f l.
Proof.
  revert i. induction l as [|y l IH]; intros [|i] E Hx; simplify_eq/=; [by rewrite Hx|].
  rewrite (IH i) by done. done.
Qed.

Lemma inv_send_unsent i en : inv en -> inv (send_unsent i en).
Proof.
  intros HI. unfold send_unsent. destruct (en_unsent en !! i) as [[sh sub|id resume gate|id path]|] eqn:E; [..|done].
  - apply inv_quiet; [|done]. apply (inv_frame en _ []); frame HI. by eapply omap_delete.
  - apply inv_quiet; [|done]. apply (inv_frame en _ []); frame HI. by eapply omap_delete.
  - pose proof (late_drops_delete _ _ _ E) as Hp. simpl in Hp.
    set (en' := with_dying _ _). assert (Hlate : late_drops en' = late_drops (remove_unsent i en)) by done.
    assert (Hf : fold_of en' = apply_event (EvDropped id) (fold_of en)) by apply fold_snoc.
    assert (Hin : (id, path) ∈ late_drops en) by (rewrite Hp; by left).
    destruct (iv_late _ HI id path Hin) as (En & c & s & Ec & ->).
    destruct (pending_drop id (fold_of en) c s Ec) as [Hpend Hm].
    pose proof (iv_once _ HI) as Hnd. rewrite Hp in Hnd. simpl in Hnd. apply NoDup_cons in Hnd as [Hni Hnd].
    split; rewrite ?Hlate; try apply HI.
    + simpl. constructor; [apply HI|done].
    + intros m. rewrite Hf, Hm. apply HI.
    + intros j c'. rewrite Hf, core_drop. intros Ej. change (shape_at en j = Some c') in Ej.
      rewrite decide_False by (intros ->; congruence). by apply HI.
    + intros j c' s'. rewrite Hf, core_drop. case_decide as Hj; [done|]. intros Ec'.
      destruct (iv_recs _ HI _ _ _ Ec') as [?|Hj']; [by left|right]. rewrite Hp in Hj'.
      apply elem_of_cons in Hj' as [[= -> _]|?]; done.
    + intros j p' Hj. assert (Hj' : (j, p') ∈ late_drops en) by (rewrite Hp; by right).
      destruct (iv_late _ HI j p' Hj') as (Ej & c' & s' & Ec' & ?). split; [done|].
      rewrite Hf, core_drop, decide_False; [eauto|]. intros ->. apply Hni.
      by apply (list_elem_of_fmap_2 fst) in Hj.
    + done.
    + rewrite Hf, Hpend. simpl. by rewrite (iv_dying _ HI).
Qed.

Lemma inv_retire id deleted en : inv en -> inv (retire_attempt id deleted en).
Proof.
  intros HI. unfold retire_attempt. destruct (en_dying en !! id); [|done]. destruct deleted; [|done].
  set (en' := with_dying _ _). assert (Hf : fold_of en' = apply_event (EvRetired id) (fold_of en)) by apply fold_snoc.
  split; try apply HI.
  - simpl. constructor; [apply HI|done].
  - intros m. rewrite Hf. apply HI.
  - intros j c'. rewrite Hf. apply HI.
  - intros j c' s'. rewrite Hf. apply HI.
  - intros j p' Hj. rewrite Hf. by apply HI.
  - rewrite Hf. simpl. by rewrite (iv_dying _ HI).
Qed.

Lemma inv_step a en :
  inv en -> es_next_shape_id (en_state (estep a en)) <= u64_max -> inv (estep a en).
Proof.
  intros HI Hn.
  destruct a as [r|id o|id sub now|id sub now|id|id|cfg id reason now|window now|cfg id now|id answer now
    |id now|id|id now|id resume gate now|id rows bytes|i|id deleted|t| |nonce|ev]; simpl in *.
  - by apply inv_create.
  - apply inv_same_next; try done. intros i. simpl. destruct (decide (id = i)) as [<-|].
    + rewrite lookup_alter_eq. by destruct (es_feed_shares (en_state en) !! id).
    + by rewrite lookup_alter_ne.
  - by apply inv_release.
  - unfold renew_subscription_local. destruct (subscribe_rest id sub now (en_state en)) as (? & ? & _).
    apply inv_same_next; try done. intros i. apply subscribe_shares.
  - by apply inv_purge.
  - by apply inv_rollback.
  - by apply inv_evict.
  - by apply inv_sweep.
  - unfold deactivate_begin. repeat case_match; try done. by apply inv_lives.
  - unfold deactivate_end. repeat case_match; try done; [|by apply inv_lives].
    apply inv_hold; [by apply inv_lives|done].
  - unfold ensure_active_step. repeat case_match; try done; simpl; repeat apply inv_lives; done.
  - by apply inv_quiet.
  - by apply inv_lives.
  - by apply inv_lives.
  - by apply inv_quiet.
  - by apply inv_send_unsent.
  - by apply inv_retire.
  - by apply inv_same_next.
  - by apply inv_same_next.
  - by apply inv_same_next.
  - destruct (shapeless ev) eqn:E; [|done]. apply inv_quiet; [done|by destruct ev].
Qed.

Lemma inv_start : inv engine_start.
Proof.
  split; unfold shape_at, share_at, late_drops, fold_of; simpl; try done.
  - constructor.
  - intros id [sh Es]. by rewrite lookup_empty in Es.
  - intros id path Hin. by apply not_elem_of_nil in Hin.
  - constructor.
Qed.
