(* ===== verification/Restore.v ===== *)
(** * A boot: the catalog installed ([engine/catalog.rs]: [apply_catalog])

    What a new process makes of a folded catalog: which retirements it takes over, where the id
    counter starts, which records it drops (their stream gone, their schema moved, a subquery's),
    which it parks over a broken epoch, and which it shares, wakes and re-registers.

    A boot finds storage and the schemas as they are ([Boot]); [HashMap]s are read in some order,
    the list [recs].  The sequencer's side of a resume is in [Sequencer] and [Activation].

    [inv] holds through boots too ([reachable_inv]), whatever part of the queue a crash loses.  So
    the catalog describes the engine's shapes ([durable_record]), a retirement never names the
    stream of a live shape ([retirement_spares_the_living]), and an id in the log is never given
    again ([ids_never_reused]); an id whose [Created] was lost can be ([unlanded_id_is_reused]). *)

From S2P Require Import Prelude BTree Value TableRef Schema Predicate Gate Output ChangeLog.
From S2P Require Import Subquery Retention Catalog Lifecycle LifecycleInv.
From stdpp Require Import base option numbers strings gmap fin_maps sorting list.
#[local] Open Scope Z_scope.

(** [RestoreMode]. *)
Inductive RestoreMode : Type := Resume | Park.

(** What the boot finds: the mode the epoch check chose, the schemas just introspected, the retained
    segments, what a [HEAD] of a stream says ([None]: not there; else whether it is closed), and the
    clock. *)
Record Boot : Type := mkBoot {
  bt_mode : RestoreMode;
  bt_compiled : gmap TableRef TableSchema;
  bt_retained : gset Z;
  bt_head : str -> option bool;
  bt_now : Z
}.

(** [CatalogConsumerSegmentMissing]. *)
Record ConsumerSegmentMissing : Type := mkMissing { cm_id : str; cm_position : LogPosition }.

Definition missing_consumer (b : Boot) (f : CatalogFold) : option ConsumerSegmentMissing :=
  (λ p, mkMissing p.1 p.2) <$>
    head (filter (λ p, lp_segment p.2 ∉ bt_retained b) (map_to_list (cf_consumers f))).

(** A record the boot will not resume whatever its stream says. *)
Definition not_resumable (b : Boot) (c : ShapeRecord) : bool :=
  rec_is_subquery c || bool_decide (is_Some (schema_moved_while_down c (bt_compiled b))).

(** [preflight_catalog_streams] of one record: its stream is missing or closed. *)
Definition stream_lost (b : Boot) (c : ShapeRecord) : bool :=
  negb (not_resumable b c)
  && match bt_head b (rec_stream_path c) with None => true | Some closed => closed end.

(** A record dropped at boot: the intent enqueued, its stream to be retired. *)
Definition boot_drop (en : Engine) (p : str * Restored) : Engine :=
  with_dying (<[p.1 := rec_stream_path (r_rec p.2)]> (en_dying en)) (enqueue (EvDropped p.1) en).

(** A record parked: its shape, and nothing else. *)
Definition park_one (en : Engine) (p : str * Restored) : Engine :=
  with_state (with_shapes (<[p.1 := r_rec p.2]> (es_shapes (en_state en))) (en_state en)) en.

(** The share of a restored shape, live at once, and its claims with their leases. *)
Definition restore_share (id : str) (r : Restored) (st : EngineState) : EngineState :=
  match r_sig r with
  | Some sig =>
      foldl (λ st c, (subscribe id c.1 c.2 st).2)
        (with_feeds (<[sig := id]> (es_feed_by_sig st))
           (<[id := mkShare sig ∅ ShareReady]> (es_feed_shares st)) st)
        (map_to_list (r_subs r))
  | None => st
  end.

(** The lifecycle of a restored shape. *)
Definition restored_life (now : Z) (r : Restored) : ShapeLife :=
  match r_dormant r with
  | Some (resume, gate) => mkLife now (LDormant now resume gate)
  | None => mkLife now LActive
  end.

(** A record installed. *)
Definition install_one (b : Boot) (en : Engine) (p : str * Restored) : Engine :=
  let st := en_state en in
  let st1 := with_shapes (<[p.1 := r_rec p.2]> (es_shapes st)) st in
  with_lives (<[p.1 := restored_life (bt_now b) p.2]> (en_lives en))
    (with_state (restore_share p.1 p.2 st1) en).

(** How a record that was active resumes: from the change log alone, or seeded from Postgres. *)
Inductive ResumeKind : Type := ReplayOnly | Reseed.
Definition resume_kind (c : ShapeRecord) : ResumeKind :=
  match rec_aggregate c with Some _ => Reseed | None => ReplayOnly end.
Definition resumes (l : list (str * Restored)) : list (ShapeRecord * ResumeKind) :=
  (λ p, (r_rec p.2, resume_kind (r_rec p.2))) <$> filter (λ p, r_dormant p.2 = None) l.

(** The new process over the log it read: ids resume past every id the log has minted, and every
    retirement outstanding is taken over. *)
Definition boot_engine (log : list CatalogEvent) (f : CatalogFold) : Engine :=
  mkEngine
    (mkState ∅ (match cf_max_shape_id f with Some m => Z.max 1 (m + 1) | None => 1 end)
       ∅ ∅ ∅ ∅ 0 ∅ 1)
    ∅ log [] (list_to_map (pending_retirements f)).

(** One record of the restore loop. *)
Definition resume_one (b : Boot) (en : Engine) (p : str * Restored) : Engine :=
  if not_resumable b (r_rec p.2) then boot_drop en p else install_one b en p.

(** The records whose streams a [Resume] finds lost, by id. *)
Definition by_id (a b : str * Restored) : bool := str_leb a.1 b.1.
Definition is_lost (b : Boot) (p : str * Restored) : bool :=
  match bt_mode b with Resume => stream_lost b (r_rec p.2) | Park => false end.
Definition lost (b : Boot) (recs : list (str * Restored)) : list (str * Restored) :=
  stable_sort by_id (filter (λ p, is_lost b p = true) recs).
Definition kept (b : Boot) (recs : list (str * Restored)) : list (str * Restored) :=
  filter (λ p, is_lost b p = false) recs.

(** [apply_catalog] over the log it read, its records taken in the order [recs]. *)
Definition restart (b : Boot) (log : list CatalogEvent) (recs : list (str * Restored))
    : res ConsumerSegmentMissing Engine :=
  let f := fold_events log fold_default in
  match missing_consumer b f with
  | Some e => Err e
  | None =>
      let en := foldl boot_drop (boot_engine log f) (lost b recs) in
      if bool_decide (kept b recs = []) && bool_decide (cf_start_pos f = pos_start) then Ok en
      else Ok (match bt_mode b with
               | Park => foldl park_one en (kept b recs)
               | Resume => foldl (resume_one b) en (kept b recs)
               end)
  end.

(** The records of a log, in the order of a [HashMap]. *)
Definition order_of (log : list CatalogEvent) (recs : list (str * Restored)) : Prop :=
  recs ≡ₚ map_to_list (cf_recs (fold_events log fold_default)).

(** Engines that can be: of a first process, after a critical section (while the counter of ids is
    within its 64 bits), and after the process died with part of its queue not yet in storage. *)
Inductive reachable : Engine -> Prop :=
  | reach_start : reachable engine_start
  | reach_step en a :
      reachable en -> es_next_shape_id (en_state (estep a en)) <= u64_max -> reachable (estep a en)
  | reach_restart en k b recs en' :
      reachable en -> order_of (take k (en_log en)) recs ->
      restart b (take k (en_log en)) recs = Ok en' -> reachable en'.

(* ================================================================== *)
(** * Properties *)

Lemma max_mono l1 l2 m :
  cf_max_shape_id (fold_events l1 fold_default) = Some m ->
  exists m', cf_max_shape_id (fold_events (l1 ++ l2) fold_default) = Some m' /\ m <= m'.
Proof.
  intros Hm. induction l2 as [|ev l2 IH] using rev_ind; [rewrite app_nil_r; eauto with lia|].
  destruct IH as (m' & E & Hle). rewrite app_assoc, fold_snoc.
  set (f := fold_events (l1 ++ l2) fold_default) in *.
  assert (Hsame : cf_max_shape_id (apply_event ev f) = cf_max_shape_id f ->
    exists m', cf_max_shape_id (apply_event ev f) = Some m' /\ m <= m') by (intros ->; eauto).
  destruct ev; simpl in *; auto; try (apply Hsame; by case_match).
  unfold max_id. rewrite E. destruct (shape_id_num _); eexists; (split; [done|lia]).
Qed.

(** A boot on its way: [todo] are the records it has not come to. *)
Record boot_inv (todo : list (str * Restored)) (en : Engine) : Prop := {
  bi_log : log_ok (en_log en);
  bi_next : 1 <= es_next_shape_id (en_state en) <= u64_max;
  bi_max : forall m, cf_max_shape_id (fold_of en) = Some m -> m < es_next_shape_id (en_state en);
  bi_shapes : forall id c, shape_at en id = Some c -> exists s, core (fold_of en) id = Some (bare c, s) /\
    (forall sh, share_at en id = Some sh -> s = Some (fs_sig sh));
  bi_recs : forall id c s, core (fold_of en) id = Some (c, s) -> is_Some (shape_at en id) \/ id ∈ todo.*1;
  bi_shares : forall id, is_Some (share_at en id) -> is_Some (shape_at en id);
  bi_unsent : en_unsent en = [];
  bi_dying : en_dying en = cf_pending_retire (fold_of en);
  bi_todo : forall p, p ∈ todo -> cf_recs (fold_of en) !! p.1 = Some p.2 /\ shape_at en p.1 = None;
  bi_nodup : NoDup todo.*1
}.

Lemma boot_inv_done en : boot_inv [] en -> inv en.
Proof.
  intros []. assert (late_drops en = []) as Hl by (unfold late_drops; by rewrite bi_unsent0).
  split; rewrite ?Hl; try done.
  - intros id c s Ec. destruct (bi_recs0 _ _ _ Ec) as [|Hin]; [by left|by apply not_elem_of_nil in Hin].
  - intros id path Hin. by apply not_elem_of_nil in Hin.
Qed.

Lemma boot_inv_perm todo todo' en : todo ≡ₚ todo' -> boot_inv todo en -> boot_inv todo' en.
Proof.
  intros Hp []. split; try done.
  - intros id c s Ec. rewrite <- Hp. eauto.
  - intros p. rewrite <- Hp. auto.
  - by rewrite <- Hp.
Qed.

Lemma boot_inv_start k en recs :
  inv en -> order_of (take k (en_log en)) recs ->
  boot_inv recs (boot_engine (take k (en_log en)) (fold_events (take k (en_log en)) fold_default)).
Proof.
  intros HI Ho. set (l := take k (en_log en)) in *. unfold order_of in Ho.
  set (f := fold_events l fold_default) in *.
  assert (Hkeys : NoDup recs.*1) by (rewrite Ho; apply NoDup_fst_map_to_list).
  assert (Hin : forall p, p ∈ recs -> cf_recs f !! p.1 = Some p.2)
    by (intros [i r]; rewrite Ho; apply elem_of_map_to_list).
  split; unfold fold_of, shape_at, share_at; simpl; try done.
  - apply written_take, HI.
  - destruct (cf_max_shape_id f) as [m|] eqn:E; [|by vm_compute].
    destruct (max_mono l (drop k (en_log en)) m E) as (m' & E' & Hle). unfold l in E'.
    rewrite take_drop in E'. pose proof (iv_max _ HI m' E'). pose proof (iv_next _ HI). lia.
  - intros m E. fold f in E. rewrite E. lia.
  - intros id c s Ec. right. fold f in Ec. unfold core in Ec.
    destruct (cf_recs f !! id) as [r|] eqn:E; [|done]. apply list_elem_of_fmap. exists (id, r).
    split; [done|]. rewrite Ho. by apply elem_of_map_to_list.
  - intros id [sh E]. by rewrite lookup_empty in E.
  - unfold pending_retirements. fold f. symmetry. rewrite <- (list_to_map_to_list (cf_pending_retire f)) at 1.
    apply list_to_map_proper; [apply NoDup_fst_map_to_list|]. by rewrite stable_sort_perm.
  - intros p Hp. split; [by apply Hin|done].
Qed.

(** One record dropped. *)
Lemma boot_inv_drop p todo en : boot_inv (p :: todo) en -> boot_inv todo (boot_drop en p).
Proof.
  intros []. destruct p as [id r]. set (en' := boot_drop en (id, r)).
  destruct (bi_todo0 (id, r)) as [Er Es]; [by left|]. simpl in Er, Es.
  assert (Hf : fold_of en' = apply_event (EvDropped id) (fold_of en)) by apply fold_snoc.
  assert (Ec : core (fold_of en) id = Some (bare (r_rec r), r_sig r)) by (unfold core; by rewrite Er).
  destruct (pending_drop id (fold_of en) _ _ Ec) as [Hp Hm].
  simpl in bi_nodup0. apply NoDup_cons in bi_nodup0 as [Hni Hnd].
  split; try done.
  - simpl. by constructor.
  - intros m. rewrite Hf, Hm. apply bi_max0.
  - intros j c' Ej. rewrite Hf, core_drop. rewrite decide_False by (intros ->; unfold shape_at in *; simpl in *; congruence).
    by apply bi_shapes0.
  - intros j c' s'. rewrite Hf, core_drop. case_decide as Hj; [done|]. intros Ec'.
    destruct (bi_recs0 _ _ _ Ec') as [|Hin]; [by left|]. simpl in Hin. right. set_solver.
  - rewrite Hf, Hp. simpl. by rewrite bi_dying0.
  - intros [j q] Hin. destruct (bi_todo0 (j, q)) as [Ej Esj]; [by right|]. simpl in *. split; [|done].
    assert (j <> id) by (intros ->; apply Hni; by apply (list_elem_of_fmap_2 fst) in Hin).
    rewrite Hf. simpl. rewrite Er. simpl. by rewrite lookup_delete_ne.
Qed.

(** One record installed, with a share under its signature or none. *)
Lemma boot_inv_add p todo en st lives :
  boot_inv (p :: todo) en ->
  es_shapes st = <[p.1 := r_rec p.2]> (es_shapes (en_state en)) ->
  es_next_shape_id st = es_next_shape_id (en_state en) ->
  (forall i, i <> p.1 -> fs_sig <$> es_feed_shares st !! i = fs_sig <$> share_at en i) ->
  (forall sh, es_feed_shares st !! p.1 = Some sh -> r_sig p.2 = Some (fs_sig sh)) ->
  boot_inv todo (with_lives lives (with_state st en)).
Proof.
  intros [] Hs Hn Hsh Hme. destruct p as [id r]. simpl in *.
  destruct (bi_todo0 (id, r)) as [Er Es]; [by left|]. simpl in Er, Es.
  apply NoDup_cons in bi_nodup0 as [Hni Hnd].
  set (en' := with_lives lives (with_state st en)).
  assert (Hf : fold_of en' = fold_of en) by done.
  assert (Hat : forall i, shape_at en' i = if decide (i = id) then Some (r_rec r) else shape_at en i).
  { intros i. unfold shape_at. simpl. rewrite Hs. case_decide; subst; [by rewrite lookup_insert_eq|].
    by rewrite lookup_insert_ne. }
  split; rewrite ?Hf; try done.
  - simpl. by rewrite Hn.
  - intros m E. simpl. rewrite Hn. by apply bi_max0.
  - intros i c'. rewrite Hat. case_decide as Hi; subst.
    + intros [= <-]. exists (r_sig r). split; [unfold core; by rewrite Er|]. apply Hme.
    + intros E. destruct (bi_shapes0 _ _ E) as (s & Ec & Hsig). exists s. split; [done|].
      intros sh Esh. specialize (Hsh i Hi). unfold share_at in Esh. simpl in Esh. rewrite Esh in Hsh.
      destruct (share_at en i) as [sh0|] eqn:E0; [|done]. injection Hsh as ->. by apply Hsig.
  - intros i c' s' Ec. rewrite Hat. case_decide; [left; by eexists|].
    destruct (bi_recs0 _ _ _ Ec) as [|Hin]; [by left|]. right. set_solver.
  - intros i [sh Esh]. rewrite Hat. case_decide as Hi; [by eexists|]. apply bi_shares0.
    specialize (Hsh i Hi). unfold share_at in Esh. simpl in Esh. rewrite Esh in Hsh.
    destruct (share_at en i); [by eexists|done].
  - intros [j q] Hin. destruct (bi_todo0 (j, q)) as [Ej Esj]; [by right|]. split; [done|]. simpl in *.
    rewrite Hat, decide_False; [done|]. intros ->. apply Hni. by apply (list_elem_of_fmap_2 fst) in Hin.
Qed.

Lemma subscribe_all_rest id l st :
  let st' := foldl (λ st (c : str * Z), (subscribe id c.1 c.2 st).2) st l in
  es_shapes st' = es_shapes st /\ es_next_shape_id st' = es_next_shape_id st /\
  es_feed_by_sig st' = es_feed_by_sig st /\
  (forall i, fs_sig <$> es_feed_shares st' !! i = fs_sig <$> es_feed_shares st !! i).
Proof.
  revert st. induction l as [|p l IH]; intros st; simpl; [done|].
  destruct (IH (subscribe id p.1 p.2 st).2) as (-> & -> & -> & Hs).
  destruct (subscribe_rest id p.1 p.2 st) as (-> & -> & ->). split_and!; try done.
  intros i. by rewrite Hs, subscribe_shares.
Qed.

Lemma restore_share_rest id r st :
  es_shapes (restore_share id r st) = es_shapes st /\
  es_next_shape_id (restore_share id r st) = es_next_shape_id st /\
  (forall i, fs_sig <$> es_feed_shares (restore_share id r st) !! i
     = if decide (i = id) then match r_sig r with Some s => Some s | None => fs_sig <$> es_feed_shares st !! id end
       else fs_sig <$> es_feed_shares st !! i).
Proof.
  unfold restore_share. destruct (r_sig r) as [sig|].
  2: { split_and!; try done. intros i. by case_decide; subst. }
  match goal with |- context [foldl _ ?s0 (map_to_list (r_subs r))] =>
    destruct (subscribe_all_rest id (map_to_list (r_subs r)) s0) as (-> & -> & _ & Hs) end.
  split_and!; try done. intros i. rewrite Hs. simpl.
  case_decide; subst; [by rewrite lookup_insert_eq|by rewrite lookup_insert_ne].
Qed.

Lemma boot_inv_install b p todo en : boot_inv (p :: todo) en -> boot_inv todo (install_one b en p).
Proof.
  intros HB. unfold install_one.
  destruct (restore_share_rest p.1 p.2 (with_shapes (<[p.1 := r_rec p.2]> (es_shapes (en_state en))) (en_state en)))
    as (Hs & Hn & Hsh).
  apply (boot_inv_add p); try done.
  - intros i Hi. rewrite Hsh, decide_False by done. done.
  - intros sh Esh. specialize (Hsh p.1). rewrite Esh, decide_True in Hsh by done.
    destruct (r_sig p.2) as [s|]; [simpl in Hsh; congruence|]. simpl in Hsh.
    exfalso. destruct (bi_todo _ _ HB p) as [_ En]; [by left|].
    destruct (bi_shares _ _ HB p.1) as [c Ec]; [|congruence]. unfold share_at.
    destruct (es_feed_shares (en_state en) !! p.1); [by eexists|done].
Qed.

Lemma boot_inv_park p todo en : boot_inv (p :: todo) en -> boot_inv todo (park_one en p).
Proof.
  intros HB. change (park_one en p) with (with_lives (en_lives en) (park_one en p)).
  apply (boot_inv_add p); try done. simpl. intros sh Esh. exfalso.
  destruct (bi_todo _ _ HB p) as [_ En]; [by left|].
  destruct (bi_shares _ _ HB p.1) as [c Ec]; [by eexists|congruence].
Qed.

Lemma boot_inv_each (f : Engine -> str * Restored -> Engine) l todo en :
  (forall p todo en, boot_inv (p :: todo) en -> boot_inv todo (f en p)) ->
  boot_inv (l ++ todo) en -> boot_inv todo (foldl f en l).
Proof.
  intros Hf. revert en. induction l as [|p l IH]; intros en HB; simpl; [done|]. apply IH. by apply Hf.
Qed.

Lemma partition_perm {A} (f : A -> bool) (l : list A) :
  filter (λ x, f x = true) l ++ filter (λ x, f x = false) l ≡ₚ l.
Proof.
  induction l as [|x l IH]; [done|]. rewrite !filter_cons. destruct (f x); simpl.
  - by rewrite IH.
  - rewrite <- Permutation_middle. by rewrite IH.
Qed.

Lemma inv_restart en k b recs en' :
  inv en -> order_of (take k (en_log en)) recs ->
  restart b (take k (en_log en)) recs = Ok en' -> inv en'.
Proof.
  intros HI Ho. unfold restart. destruct (missing_consumer _ _); [done|].
  pose proof (boot_inv_start k en recs HI Ho) as HB.
  apply (boot_inv_perm _ (lost b recs ++ kept b recs)) in HB.
  2: { unfold lost, kept. rewrite stable_sort_perm. symmetry. apply partition_perm. }
  apply (boot_inv_each boot_drop) in HB; [|intros; by apply boot_inv_drop].
  set (en1 := foldl boot_drop _ _) in *. intros Hr. apply boot_inv_done.
  destruct (bool_decide (kept b recs = []) && bool_decide (cf_start_pos _ = pos_start)) eqn:E.
  - injection Hr as <-. apply andb_prop in E as [E _]. apply bool_decide_eq_true in E.
    by rewrite E in HB.
  - injection Hr as <-. rewrite <- (app_nil_r (kept b recs)) in HB.
    destruct (bt_mode b); (eapply boot_inv_each; [|exact HB]); intros p todo en2 HB2.
    + unfold resume_one. destruct (not_resumable _ _);
        [by apply boot_inv_drop|by apply boot_inv_install].
    + by apply boot_inv_park.
Qed.

Lemma reachable_inv en : reachable en -> inv en.
Proof.
  induction 1; [apply inv_start|by apply inv_step|by eapply inv_restart].
Qed.

(* ------------------------------------------------------------------ *)
(** ** What the catalog promises of the shapes *)

(** C9: The catalog describes the engine: every shape is a record of the fold, the same up to its
    sizes; every record of the fold is a shape or one whose [Dropped] a task is about to enqueue;
    and what the fold has dropped and not retired is exactly what the engine still has to retire.
    This holds of every engine that can be, through crashes that lose any part of the queue. *)
Theorem durable_record (en : Engine) :
  reachable en ->
  (forall id c, shape_at en id = Some c ->
     exists r, cf_recs (fold_of en) !! id = Some r /\ bare (r_rec r) = bare c) /\
  (forall id r, cf_recs (fold_of en) !! id = Some r ->
     is_Some (shape_at en id) \/ UDropped id (rec_stream_path (r_rec r)) ∈ en_unsent en) /\
  en_dying en = cf_pending_retire (fold_of en).
Proof.
  intros HR. pose proof (reachable_inv en HR) as HI. split_and!; [| |apply HI].
  - intros id c E. destruct (iv_shapes _ HI id c E) as (s & Ec & _). unfold core in Ec.
    destruct (cf_recs (fold_of en) !! id) as [r|]; [|done]. exists r. split; [done|]. simpl in Ec. congruence.
  - intros id r E. destruct (iv_recs _ HI id (bare (r_rec r)) (r_sig r)) as [?|Hin];
      [unfold core; by rewrite E|by left|right].
    apply list_elem_of_omap in Hin as (u & Hu & Hd). by destruct u; simplify_eq/=.
Qed.

(** The made ids are those of the log's [Created]s. *)
Lemma created_made l c sig sub at_ :
  log_ok l -> EvCreated c sig sub at_ ∈ l -> made (fold_events l fold_default) (rec_id c).
Proof.
  intros H. induction H as [|l ev H IH Hev]; intros Hin; [by apply not_elem_of_nil in Hin|].
  rewrite fold_snoc. apply elem_of_app in Hin as [Hin|Hin]; [apply made_mono; auto|].
  apply list_elem_of_singleton in Hin as <-. destruct Hev as (n & En & _ & Hn & Hmax).
  rewrite En. eexists n, _. simpl. unfold max_id. rewrite En, shape_id_num_of by lia.
  split_and!; [done|lia|done| |]; destruct (cf_max_shape_id _) as [m|] eqn:Em;
    try specialize (Hmax m eq_refl); lia.
Qed.

(** C14: An id in the log is never given again: what a create makes has an id that no [Created] of
    the log names, whose stream no record has and no retirement is outstanding for. *)
Theorem ids_never_reused (en : Engine) (r : CreateReq) (id : str) :
  reachable en -> (create_locked r en).1 = Ok (OCreated id) ->
  (forall c sig sub at_, EvCreated c sig sub at_ ∈ en_log en -> rec_id c <> id) /\
  cf_recs (fold_of en) !! id = None /\ en_dying en !! id = None /\
  (forall i path, en_dying en !! i = Some path -> path <> stream_path_of id).
Proof.
  intros HR Hc. pose proof (reachable_inv en HR) as HI.
  assert (Hid : id = shape_id_of (es_next_shape_id (en_state en))).
  { unfold create_locked in Hc. destruct (join_target _ _) as [j|].
    - unfold join_shape in Hc. repeat case_match; simplify_eq/=; done.
    - unfold register in Hc. repeat case_match; simplify_eq/=; done. }
  assert (Hnew : ~ made (fold_of en) id).
  { intros (n & m & E & _ & Hm & Hnm). rewrite Hid in E. apply shape_id_of_inj in E.
    pose proof (iv_max _ HI m Hm). lia. }
  pose proof (fold_ok_log _ (iv_log _ HI)) as [Hfr Hfp]. fold (fold_of en) in Hfr, Hfp.
  assert (Hd : en_dying en !! id = None).
  { destruct (en_dying en !! id) as [path|] eqn:E; [|done]. rewrite (iv_dying _ HI) in E.
    by destruct (Hfp _ _ E) as (_ & _ & ?). }
  split_and!.
  - intros c sig sub at_ Hin <-. by apply Hnew, (created_made (en_log en) c sig sub at_); [apply HI|].
  - destruct (cf_recs (fold_of en) !! id) as [x|] eqn:E; [|done].
    destruct (Hfr id (bare (r_rec x)) (r_sig x)) as (_ & _ & ?); [unfold core; by rewrite E|done].
  - done.
  - intros i path E Hp. assert (Hi : i <> id) by congruence. rewrite (iv_dying _ HI) in E.
    destruct (Hfp _ _ E) as (-> & _). by apply app_inv_head in Hp.
Qed.

(** A retirement never names the stream of a live shape. *)
Theorem retirement_spares_the_living (en : Engine) (dead id : str) (path : str) (c : ShapeRecord) :
  reachable en -> en_dying en !! dead = Some path -> shape_at en id = Some c ->
  rec_stream_path c <> path.
Proof.
  intros HR Hd Hs. pose proof (reachable_inv en HR) as HI.
  pose proof (fold_ok_log _ (iv_log _ HI)) as [Hfr Hfp]. fold (fold_of en) in Hfr, Hfp.
  rewrite (iv_dying _ HI) in Hd. destruct (Hfp _ _ Hd) as (-> & Hnone & _).
  destruct (iv_shapes _ HI _ _ Hs) as (s & Ec & _). destruct (Hfr _ _ _ Ec) as (_ & Hp & _).
  simpl in Hp. rewrite Hp. intros E. apply app_inv_head in E as ->. congruence.
Qed.
