(* ===== verification/ClaimsFacts.v ===== *)
(** * The log and the engine agree on who holds what

    A claim of the fold is one the engine holds, or one whose [Left] is about to be enqueued, on
    every schedule ([no_ghost_claims]); a claim the engine holds is in the fold, its lease no newer,
    on the [orderly] ones ([no_lost_claims]): those in which nobody joins under an id whose [Left]
    is still on its way, and a local renewal finds the claim it renews.  The sweep of the leases
    does enqueue its [Left]s after it gave up the lock, so other schedules exist
    ([rejoin_is_forgotten], in [WorkedCatalog]). *)

From S2P Require Import Prelude BTree Value TableRef Schema Predicate Gate Output ChangeLog.
From S2P Require Import Subquery Retention Catalog Lifecycle LifecycleInv Restore.
From stdpp Require Import base option numbers strings gmap fin_maps sorting list.
#[local] Open Scope Z_scope.

(** The lease of a claim in the engine and in a fold. *)
Definition claim_in (st : EngineState) (id sub : str) : option Z :=
  sh ← es_feed_shares st !! id; fs_subs sh !! sub.
Definition claim_at (en : Engine) : str -> str -> option Z := claim_in (en_state en).
Definition record_claim (f : CatalogFold) (id sub : str) : option Z :=
  r ← cf_recs f !! id; r_subs r !! sub.

Definition renewed (old : option Z) (at_ : Z) : Z :=
  match old with Some o => Z.max o at_ | None => at_ end.

(* ------------------------------------------------------------------ *)
(** ** Operations, claim by claim *)

Lemma claim_subscribe shape sub at_ st i s :
  claim_in (subscribe shape sub at_ st).2 i s
  = if decide ((i, s) = (shape, sub))
    then (_ ← es_feed_shares st !! shape; Some (renewed (claim_in st shape sub) at_))
    else claim_in st i s.
Proof.
  unfold subscribe, claim_in. destruct (es_feed_shares st !! shape) as [sh|] eqn:E; simpl.
  - case_decide as H; [injection H as -> ->|].
    + rewrite lookup_insert_eq. simpl. unfold lease. by rewrite lookup_insert_eq.
    + destruct (decide (i = shape)) as [->|Hi]; [|by rewrite lookup_insert_ne].
      rewrite lookup_insert_eq, E. simpl. unfold lease. rewrite lookup_insert_ne; [done|congruence].
  - case_decide as H; [injection H as -> ->; by rewrite E|done].
Qed.

Lemma claim_unsubscribe shape sub st i s :
  claim_in (unsubscribe shape sub st).2 i s
  = if decide ((i, s) = (shape, sub)) then None else claim_in st i s.
Proof.
  unfold unsubscribe, claim_in. destruct (es_feed_shares st !! shape) as [sh|] eqn:E; simpl.
  2: { case_decide as H; [injection H as -> ->; by rewrite E|done]. }
  destruct (fs_subs sh !! sub) eqn:Es; simpl.
  - case_decide as H; [injection H as -> ->|].
    + rewrite lookup_insert_eq. simpl. by rewrite lookup_delete_eq.
    + destruct (decide (i = shape)) as [->|Hi]; [|by rewrite lookup_insert_ne].
      rewrite lookup_insert_eq, E. simpl. rewrite lookup_delete_ne; [done|congruence].
  - case_decide as H; [injection H as -> ->; by rewrite E|done].
Qed.

Lemma claim_unsubscribe_all l st i s :
  claim_in (foldl (λ st p, (unsubscribe p.1 p.2 st).2) st l) i s
  = if decide ((i, s) ∈ l) then None else claim_in st i s.
Proof.
  revert st. induction l as [|[i' s'] l IH]; intros st; [done|]. cbn [foldl].
  rewrite IH, claim_unsubscribe. cbn [fst snd]. pose proof (elem_of_cons l (i, s) (i', s')) as Hc.
  destruct (decide ((i, s) ∈ l)), (decide ((i, s) = (i', s'))), (decide ((i, s) ∈ (i', s') :: l)); tauto.
Qed.

Lemma claim_share st i s : is_Some (claim_in st i s) -> is_Some (es_feed_shares st !! i).
Proof. unfold claim_in. destruct (es_feed_shares st !! i); [by eexists|by intros [? ?]]. Qed.

(** Events, claim by claim. *)
Definition claims_event (ev : CatalogEvent) : bool :=
  match ev with EvCreated _ _ _ _ | EvJoined _ _ _ | EvLeft _ _ _ | EvDropped _ => true | _ => false end.

Lemma record_alter g id f i s :
  record_claim (alter_rec id (set_subs g) f) i s
  = if decide (i = id) then (r ← cf_recs f !! id; g (r_subs r) !! s) else record_claim f i s.
Proof.
  unfold record_claim, alter_rec. simpl. case_decide as H; subst.
  - rewrite lookup_alter_eq. by destruct (cf_recs f !! id).
  - by rewrite lookup_alter_ne.
Qed.

Lemma record_joined id sub at_ f i s :
  record_claim (apply_event (EvJoined id sub at_) f) i s
  = if decide ((i, s) = (id, sub))
    then (_ ← cf_recs f !! id; Some (renewed (record_claim f id sub) at_))
    else record_claim f i s.
Proof.
  simpl. rewrite record_alter. unfold record_claim. case_decide as H; subst.
  - destruct (cf_recs f !! id) as [r|] eqn:E; simpl; [|by case_decide].
    unfold lease. case_decide as H; [injection H as ->; by rewrite lookup_insert_eq|].
    rewrite lookup_insert_ne; [done|congruence].
  - by rewrite decide_False by congruence.
Qed.

Lemma record_left id sub b f i s :
  record_claim (apply_event (EvLeft id sub b) f) i s
  = if decide ((i, s) = (id, sub)) then None else record_claim f i s.
Proof.
  simpl. rewrite record_alter. unfold record_claim. case_decide as H; subst.
  - destruct (cf_recs f !! id) as [r|] eqn:E; simpl; [|by case_decide].
    case_decide as H; [injection H as ->; by rewrite lookup_delete_eq|].
    rewrite lookup_delete_ne; [done|congruence].
  - by rewrite decide_False by congruence.
Qed.

Lemma record_created c sig sub at_ f i s :
  record_claim (apply_event (EvCreated c sig sub at_) f) i s
  = if decide (i = rec_id c) then (if decide (s = sub) then Some at_ else None) else record_claim f i s.
Proof.
  unfold record_claim. simpl. case_decide as H; subst.
  - rewrite lookup_insert_eq. simpl. case_decide; subst; [by rewrite lookup_singleton_eq|].
    by rewrite lookup_singleton_ne.
  - by rewrite lookup_insert_ne.
Qed.

Lemma record_dropped id f i s :
  record_claim (apply_event (EvDropped id) f) i s = if decide (i = id) then None else record_claim f i s.
Proof.
  unfold record_claim. simpl. destruct (cf_recs f !! id) eqn:E; simpl; case_decide; subst; try done.
  - by rewrite lookup_delete_eq.
  - by rewrite lookup_delete_ne.
  - by rewrite E.
Qed.

Lemma record_other ev f i s :
  claims_event ev = false -> record_claim (apply_event ev f) i s = record_claim f i s.
Proof.
  assert (Ha : forall g j, (forall r, r_subs (g r) = r_subs r) ->
    record_claim (alter_rec j g f) i s = record_claim f i s).
  { intros g j Hg. unfold record_claim, alter_rec. simpl. destruct (decide (i = j)) as [->|Hi].
    - rewrite lookup_alter_eq. destruct (cf_recs f !! j); simpl; [by rewrite Hg|done].
    - by rewrite lookup_alter_ne. }
  destruct ev; simpl; try done; intros _; try (by apply Ha). by case_match.
Qed.

(* ------------------------------------------------------------------ *)
(** ** The two directions *)

Definition pending_left (en : Engine) (id sub : str) : Prop := ULeft id sub ∈ en_unsent en.

(** Nothing in the fold that nobody holds; nothing held that is not in the fold. *)
Definition no_ghosts (en : Engine) : Prop := forall id s,
  is_Some (share_at en id) -> is_Some (record_claim (fold_of en) id s) ->
  is_Some (claim_at en id s) \/ pending_left en id s.
Definition no_losses (en : Engine) : Prop := forall id s at_,
  claim_at en id s = Some at_ ->
  ~ pending_left en id s /\ exists at', record_claim (fold_of en) id s = Some at' /\ at' <= at_.

(** A step that changes no claim of the shares it leaves. *)
Definition same_claims (en en' : Engine) : Prop := forall id s,
  is_Some (share_at en' id) ->
  is_Some (share_at en id) /\ claim_at en' id s = claim_at en id s /\
  record_claim (fold_of en') id s = record_claim (fold_of en) id s /\
  (pending_left en' id s <-> pending_left en id s).

Lemma same_claims_ghosts en en' : same_claims en en' -> no_ghosts en -> no_ghosts en'.
Proof. intros H Hg id s Hs. destruct (H id s Hs) as (Hs0 & -> & -> & ->). by apply Hg. Qed.

Lemma same_claims_losses en en' : same_claims en en' -> no_losses en -> no_losses en'.
Proof.
  intros H Hl id s at_ Hc. destruct (H id s) as (Hs0 & Ec & -> & ->); [by eapply claim_share|].
  apply Hl. congruence.
Qed.

Lemma same_claims_trans en1 en2 en3 : same_claims en1 en2 -> same_claims en2 en3 -> same_claims en1 en3.
Proof.
  intros H1 H2 id s Hs. destruct (H2 id s Hs) as (Hs2 & -> & -> & ->). by apply H1.
Qed.

Lemma same_claims_quiet ev en : claims_event ev = false -> same_claims en (enqueue ev en).
Proof.
  intros Hq id s Hs. split_and!; try done. rewrite fold_of_enqueue. by apply record_other.
Qed.
Lemma same_claims_lives m en : same_claims en (with_lives m en).
Proof. by intros id s Hs. Qed.
Lemma same_claims_refl en : same_claims en en.
Proof. by intros id s Hs. Qed.

(** Another state with the same claims. *)
Lemma same_claims_state st en :
  (forall id, is_Some (es_feed_shares st !! id) -> is_Some (share_at en id)) ->
  (forall id s, is_Some (es_feed_shares st !! id) -> claim_in st id s = claim_at en id s) ->
  same_claims en (with_state st en).
Proof. intros Hs Hc id s Hid. split_and!; [by apply Hs|by apply Hc|done|done]. Qed.

Lemma same_claims_gone en en' id :
  removed id en en' ->
  (forall i s, i <> id -> record_claim (fold_of en') i s = record_claim (fold_of en) i s) ->
  (forall i s, i <> id -> pending_left en' i s <-> pending_left en i s) ->
  same_claims en en'.
Proof.
  intros [_ _ Hsh] Hr Hp i s Hs. rewrite Hsh in Hs. case_decide as Hi; [by destruct Hs|].
  split_and!; try done; [|by apply Hr|by apply Hp].
  unfold claim_at, claim_in. specialize (Hsh i). rewrite decide_False in Hsh by done.
  unfold share_at in Hsh. by rewrite Hsh.
Qed.

Lemma same_claims_purge id en : same_claims en (purge_shape id en).
Proof.
  destruct (purge_gone id en) as (Hrm & Hu & H). apply (same_claims_gone _ _ id Hrm).
  - intros i s Hi. destruct (shape_at en id) as [c|]; destruct H as [Hl _]; unfold fold_of; rewrite Hl; [|done].
    by rewrite fold_snoc, record_dropped, decide_False.
  - intros i s _. unfold pending_left. by rewrite Hu.
Qed.

Lemma same_claims_rollback id en : same_claims en (rollback_create id en).
Proof.
  destruct (rollback_gone id en) as (Hrm & Hl & _ & Hu). apply (same_claims_gone _ _ id Hrm).
  - intros i s _. unfold fold_of. by rewrite Hl.
  - intros i s _. unfold pending_left. rewrite Hu, elem_of_app. split; [|by left]. intros [?|Hin]; [done|].
    destruct (shape_at en id); [by apply list_elem_of_singleton in Hin|by apply not_elem_of_nil in Hin].
Qed.

Lemma pending_left_send i u en j s :
  en_unsent en !! i = Some u -> u <> ULeft j s ->
  pending_left (remove_unsent i en) j s <-> pending_left en j s.
Proof.
  intros E Hu. unfold pending_left. simpl. rewrite (delete_Permutation _ _ _ E) at 2.
  rewrite elem_of_cons. naive_solver.
Qed.

Lemma same_claims_send i u en :
  inv en -> en_unsent en !! i = Some u -> (forall j s, u <> ULeft j s) -> same_claims en (send_unsent i en).
Proof.
  intros HI E Hu. unfold send_unsent. rewrite E. destruct u as [j s|id resume gate|id path]; [by destruct (Hu j s)|..].
  - intros j s Hs. split_and!; try done.
    + rewrite fold_of_enqueue. by apply record_other.
    + by apply (pending_left_send i (UDormant id resume gate)).
  - destruct (iv_late _ HI id path) as (En & _).
    { unfold late_drops. apply list_elem_of_omap. exists (UDropped id path).
      split; [by eapply list_elem_of_lookup_2|done]. }
    intros j s Hs. split_and!; try done.
    + change (fold_of (with_dying _ _)) with (fold_of (enqueue (EvDropped id) (remove_unsent i en))).
      rewrite fold_of_enqueue, record_dropped, decide_False; [done|]. intros ->.
      destruct (iv_shares _ HI id Hs) as [c Ec]. congruence.
    + by apply (pending_left_send i (UDropped id path)).
Qed.

(** The actions that touch no claim. *)
Definition claimless (a : Act) : bool :=
  match a with ACreate _ | ARelease _ _ _ | ARenewLocal _ _ _ | ASweepLeases _ _ | ASendUnsent _ => false | _ => true end.

Lemma same_claims_step a en : inv en -> claimless a = true -> same_claims en (estep a en).
Proof.
  intros HI Ha.
  destruct a as [r|id o|id sub now|id sub now|id|id|cfg id reason now|window now|cfg id now|id answer now
    |id now|id|id now|id resume gate now|id rows bytes|i|id deleted|t| |nonce|ev]; simpl in *; try done.
  - apply same_claims_state; simpl; intros i.
    + unfold share_at. destruct (decide (id = i)) as [->|]; [rewrite lookup_alter_eq|by rewrite lookup_alter_ne].
      by destruct (es_feed_shares (en_state en) !! i).
    + intros s. unfold claim_at, claim_in. simpl. destruct (decide (id = i)) as [->|]; [|by rewrite lookup_alter_ne].
      rewrite lookup_alter_eq. by destruct (es_feed_shares (en_state en) !! i).
  - apply same_claims_purge.
  - apply same_claims_rollback.
  - unfold evict_shape. repeat case_match; try apply same_claims_refl. apply same_claims_purge.
  - unfold deactivate_begin. repeat case_match; first [apply same_claims_refl|apply same_claims_lives].
  - unfold deactivate_end. repeat case_match; try first [apply same_claims_refl|apply same_claims_lives].
    intros j sub Hs. split_and!; try done. unfold pending_left. simpl. rewrite elem_of_app.
    split; [|by left]. intros [?|Hin]; [done|]. by apply list_elem_of_singleton in Hin.
  - unfold ensure_active_step. repeat case_match; simpl;
      repeat first [apply same_claims_refl|eapply same_claims_trans; [|apply same_claims_lives]].
  - by apply same_claims_quiet.
  - by apply same_claims_quiet.
  - unfold retire_attempt. repeat case_match; try apply same_claims_refl.
    intros i s Hs. split_and!; try done. change (fold_of (with_dying _ _)) with (fold_of (enqueue (EvRetired id) en)).
    rewrite fold_of_enqueue. by apply record_other.
  - destruct (shapeless ev) eqn:E; [|apply same_claims_refl]. apply same_claims_quiet. by destruct ev.
Qed.

(* ------------------------------------------------------------------ *)
(** ** The actions that change claims *)

Lemma share_core en id : inv en -> is_Some (share_at en id) ->
  is_Some (cf_recs (fold_of en) !! id) /\ made (fold_of en) id.
Proof.
  intros HI Hs. destruct (iv_shares _ HI id Hs) as [c Ec]. destruct (iv_shapes _ HI id c Ec) as (s & Hc & _).
  split; [unfold core in Hc; destruct (cf_recs (fold_of en) !! id); [by eexists|done]|].
  pose proof (fold_ok_log _ (iv_log _ HI)) as [Hfr _]. by apply (Hfr _ _ _ Hc).
Qed.

Lemma subscribed_share shape sub at_ st id :
  is_Some (es_feed_shares (subscribe shape sub at_ st).2 !! id) <-> is_Some (es_feed_shares st !! id).
Proof. rewrite <- !(fmap_is_Some fs_sig). by rewrite subscribe_shares. Qed.

(** Joining, seen claim by claim. *)
Definition joined (id sub : str) (now : Z) (en : Engine) : Engine :=
  enqueue (EvJoined id sub now) (with_state (subscribe id sub now (en_state en)).2 en).

Lemma joined_ghosts id sub now en : no_ghosts en -> no_ghosts (joined id sub now en).
Proof.
  intros Hg i s Hs. apply subscribed_share in Hs. unfold joined. rewrite fold_of_enqueue, record_joined.
  unfold claim_at. simpl. rewrite claim_subscribe. case_decide as H; [|by apply Hg].
  injection H as -> ->. destruct Hs as [sh Hs]. intros _. left. rewrite Hs. by eexists.
Qed.

Lemma joined_losses id sub now en :
  inv en -> no_ghosts en -> no_losses en -> ~ pending_left en id sub -> no_losses (joined id sub now en).
Proof.
  intros HI Hg Hl Hp i s at_. unfold joined. rewrite fold_of_enqueue, record_joined.
  unfold claim_at. simpl. rewrite claim_subscribe. case_decide as H; [|by apply Hl].
  injection H as -> ->. destruct (es_feed_shares (en_state en) !! id) as [sh|] eqn:Es; simpl; [|done].
  intros [= <-]. split; [done|].
  destruct (share_core en id HI) as [[r Er] _]; [unfold share_at; by eexists|].
  change (fold_of (with_state _ _)) with (fold_of en).
  eexists. rewrite Er. simpl. split; [done|]. unfold renewed.
  destruct (claim_in (en_state en) id sub) as [o|] eqn:Ec.
  - destruct (Hl _ _ _ Ec) as (_ & at' & -> & ?). lia.
  - destruct (record_claim (fold_of en) id sub) eqn:Er'; [|done].
    destruct (Hg id sub) as [[? ?]|?]; [unfold share_at; by eexists|by eexists| |done].
    unfold claim_at in *. congruence.
Qed.

(** Registering. *)
Lemma registered_claims r id en i s :
  claim_at (register_shape r id en) i s
  = match cr_sig r with
    | Some _ => if decide (i = id) then (if decide (s = cr_sub r) then Some (cr_now r) else None)
                else claim_at en i s
    | None => claim_at en i s
    end.
Proof.
  unfold claim_at, register_shape. cbn [en_state enqueue with_lives with_state].
  destruct (cr_sig r) as [sig|]; [|done]. rewrite claim_subscribe. simpl. rewrite lookup_insert_eq. simpl.
  unfold claim_in. simpl. case_decide as H; [injection H as -> ->|].
  - rewrite lookup_insert_eq. simpl. rewrite lookup_empty. simpl. by rewrite !decide_True.
  - case_decide; subst.
    + rewrite lookup_insert_eq. simpl. rewrite lookup_empty, decide_False; [done|congruence].
    + by rewrite lookup_insert_ne.
Qed.

Lemma registered_record r id en i s :
  record_claim (fold_of (register_shape r id en)) i s
  = if decide (i = id) then (if decide (s = cr_sub r) then Some (cr_at r) else None)
    else record_claim (fold_of en) i s.
Proof. unfold register_shape. by rewrite fold_of_enqueue, record_created. Qed.

Lemma registered_share r id en i :
  i <> id -> is_Some (share_at (register_shape r id en) i) -> is_Some (share_at en i).
Proof.
  intros Hi. unfold share_at, register_shape. cbn [en_state enqueue with_lives with_state].
  destruct (cr_sig r) as [sig|]; [|done]. rewrite subscribed_share, add_share_at. by rewrite decide_False.
Qed.

Lemma registered_ghosts r id en :
  share_at en id = None -> no_ghosts en -> no_ghosts (register_shape r id en).
Proof.
  intros Hnew Hg i s Hs. rewrite registered_record, registered_claims. case_decide as Hi.
  - subst. case_decide; [|by intros [? ?]]. intros _. left. destruct (cr_sig r) as [sig|] eqn:E; [by eexists|].
    exfalso. unfold share_at, register_shape in Hs. cbn [en_state enqueue with_lives with_state] in Hs.
    rewrite E in Hs. unfold share_at in Hnew. simpl in Hs. rewrite Hnew in Hs. by destruct Hs.
  - intros Hr. destruct (Hg i s) as [?|?]; [by eapply registered_share|done| |by right].
    left. by destruct (cr_sig r).
Qed.

Lemma registered_losses r id en :
  share_at en id = None -> (forall s, ~ pending_left en id s) -> cr_at r <= cr_now r ->
  no_losses en -> no_losses (register_shape r id en).
Proof.
  intros Hnew Hp Hc Hl i s at_. rewrite registered_record, registered_claims.
  assert (Hold : claim_at en i s = Some at_ -> i <> id).
  { intros E ->. assert (is_Some (share_at en id)) as [? ?] by (eapply claim_share; by eexists). congruence. }
  destruct (cr_sig r); [case_decide; subst|].
  - case_decide; [|done]. intros [= <-]. split; [apply Hp|eauto].
  - intros E. destruct (Hl _ _ _ E) as (? & ?). done.
  - intros E. rewrite decide_False by auto. destruct (Hl _ _ _ E) as (? & ?). done.
Qed.

(** Releasing. *)
Lemma released_claims shape sub en :
  same_claims en (with_state (unsubscribe shape sub (en_state en)).2 en) \/
  (unsubscribe shape sub (en_state en)).1 = true.
Proof.
  destruct (unsubscribe shape sub (en_state en)) as [held st] eqn:E. destruct held; [by right|left].
  enough (st = en_state en) as -> by (by intros i s Hs).
  unfold unsubscribe in E. repeat case_match; congruence.
Qed.

Lemma unsubscribed_share shape sub st id :
  is_Some (es_feed_shares (unsubscribe shape sub st).2 !! id) <-> is_Some (es_feed_shares st !! id).
Proof. rewrite <- !(fmap_is_Some fs_sig). by rewrite unsubscribe_shares. Qed.

(** A claim released and its [Left] enqueued, in one section. *)
Definition left_now (shape sub : str) (b : bool) (en : Engine) : Engine :=
  enqueue (EvLeft shape sub b) (with_state (unsubscribe shape sub (en_state en)).2 en).

Lemma left_now_ghosts shape sub b en : no_ghosts en -> no_ghosts (left_now shape sub b en).
Proof.
  intros Hg i s Hs. apply unsubscribed_share in Hs. unfold left_now. rewrite fold_of_enqueue, record_left.
  unfold claim_at. simpl. rewrite claim_unsubscribe. case_decide as H; [by intros [? ?]|by apply Hg].
Qed.

Lemma left_now_losses shape sub b en : no_losses en -> no_losses (left_now shape sub b en).
Proof.
  intros Hl i s at_. unfold left_now. rewrite fold_of_enqueue, record_left.
  unfold claim_at. simpl. rewrite claim_unsubscribe. case_decide as H; [done|by apply Hl].
Qed.

(** A release is one of the two, then a touch. *)
Lemma release_cases id sub now en :
  (exists en1, same_claims en en1 /\ release_subscription id sub now en = touch_shape id now en1) \/
  (exists s, release_subscription id sub now en = touch_shape id now (left_now id s false en)).
Proof.
  unfold release_subscription.
  assert (Hu : forall s, let '(held, st) := unsubscribe id s (en_state en) in
    (held = false /\ same_claims en (with_state st en)) \/
    (held = true /\ left_now id s false en = enqueue (EvLeft id s false) (with_state st en))).
  { intros s. pose proof (released_claims id s en) as H. unfold left_now.
    destruct (unsubscribe id s (en_state en)) as [[] st] eqn:E; [by right|left].
    destruct H as [H|H]; [by split|done]. }
  destruct sub as [s|].
  - specialize (Hu s). destruct (unsubscribe id s (en_state en)) as [held st].
    destruct Hu as [[-> H]|[-> H]]; [left; by eexists|right]. exists s. by rewrite H.
  - destruct (anonymous_release id (en_state en)) as [[v ->]| ->].
    + specialize (Hu v). destruct (unsubscribe id v (en_state en)) as [held st].
      destruct Hu as [[-> H]|[-> H]]; [left; by eexists|right]. exists v. simpl. by rewrite H.
    + left. exists (with_state (en_state en) en). split; [by intros i s Hs|done].
Qed.

(** The lease sweep. *)
Lemma pending_sweep window now en id s :
  pending_left (sweep_leases window now en) id s <->
  pending_left en id s \/ (id, s) ∈ lapsed_subscriptions window now (en_state en).
Proof.
  unfold pending_left, sweep_leases. simpl. rewrite elem_of_app. split; (intros [?|Hin]; [by left|right]).
  - apply list_elem_of_fmap in Hin as ([i s'] & [= -> ->] & Hin). done.
  - by apply (list_elem_of_fmap_2 (λ p : str * str, ULeft p.1 p.2)) in Hin.
Qed.

Lemma sweep_ghosts window now en : no_ghosts en -> no_ghosts (sweep_leases window now en).
Proof.
  intros Hg i s Hs. rewrite pending_sweep. unfold claim_at, sweep_leases. simpl.
  rewrite claim_unsubscribe_all. case_decide as H; [auto|]. intros Hr.
  destruct (Hg i s) as [?|?]; [|done|auto|auto].
  unfold share_at, sweep_leases in Hs. simpl in Hs.
  destruct (unsubscribe_all_rest (lapsed_subscriptions window now (en_state en)) (en_state en)) as (_ & _ & _ & Hsh).
  unfold share_at. rewrite <- (fmap_is_Some fs_sig), <- Hsh. by rewrite fmap_is_Some.
Qed.

Lemma sweep_losses window now en : no_losses en -> no_losses (sweep_leases window now en).
Proof.
  intros Hl i s at_. rewrite pending_sweep. unfold claim_at, sweep_leases. simpl.
  rewrite claim_unsubscribe_all. case_decide as H; [done|]. intros Hc.
  destruct (Hl _ _ _ Hc) as (? & ?). split; [tauto|done].
Qed.

Lemma lapsed_share window now st id s :
  (id, s) ∈ lapsed_subscriptions window now st -> is_Some (es_feed_shares st !! id).
Proof.
  unfold lapsed_subscriptions. case_match; [by intros ?%not_elem_of_nil|].
  rewrite stable_sort_perm. intros Hin. apply list_elem_of_bind in Hin as ([i sh] & Hin & Hm).
  apply elem_of_map_to_list in Hm. apply list_elem_of_fmap in Hin as (p & [= -> ->] & _). by eexists.
Qed.

(** A [Left] on its way is enqueued. *)
Lemma sent_left i id s en :
  en_unsent en !! i = Some (ULeft id s) ->
  send_unsent i en = enqueue (EvLeft id s true) (remove_unsent i en).
Proof. intros E. unfold send_unsent. by rewrite E. Qed.

Lemma sent_left_pending i id s en j t :
  en_unsent en !! i = Some (ULeft id s) ->
  (pending_left (send_unsent i en) j t -> pending_left en j t) /\
  ((j, t) <> (id, s) -> pending_left en j t -> pending_left (send_unsent i en) j t).
Proof.
  intros E. rewrite (sent_left i id s en E). unfold pending_left. simpl.
  rewrite (delete_Permutation _ _ _ E) at 2 3. rewrite !elem_of_cons. naive_solver.
Qed.

Lemma send_ghosts i en : inv en -> no_ghosts en -> no_ghosts (send_unsent i en).
Proof.
  intros HI Hg. destruct (en_unsent en !! i) as [u|] eqn:E; [|by unfold send_unsent; rewrite E].
  destruct u as [id s|id resume gate|id path]; [|by (eapply same_claims_ghosts; [by eapply same_claims_send|done])..].
  intros j t Hs Hr. pose proof (sent_left_pending i id s en j t E) as [_ Hp].
  rewrite (sent_left i id s en E), fold_of_enqueue, record_left in Hr.
  case_decide as H; [by destruct Hr|]. rewrite (sent_left i id s en E) in Hs.
  destruct (Hg j t Hs Hr) as [?|?]; [left|right; auto]. by rewrite (sent_left i id s en E).
Qed.

Lemma send_losses i en : inv en -> no_losses en -> no_losses (send_unsent i en).
Proof.
  intros HI Hl. destruct (en_unsent en !! i) as [u|] eqn:E; [|by unfold send_unsent; rewrite E].
  destruct u as [id s|id resume gate|id path]; [|by (eapply same_claims_losses; [by eapply same_claims_send|done])..].
  intros j t at_ Hc. pose proof (sent_left_pending i id s en j t E) as [Hp _].
  assert (Hc0 : claim_at en j t = Some at_) by (by rewrite (sent_left i id s en E) in Hc).
  destruct (Hl _ _ _ Hc0) as (Hnp & at' & Hr & ?). split; [tauto|]. exists at'.
  rewrite (sent_left i id s en E), fold_of_enqueue, record_left, decide_False; [done|].
  intros [= -> ->]. apply Hnp. by eapply list_elem_of_lookup_2.
Qed.

(** A local renewal. *)
Lemma renew_ghosts id sub now en : no_ghosts en -> no_ghosts (renew_subscription_local id sub now en).
Proof.
  intros Hg i s Hs Hr. apply subscribed_share in Hs. destruct (Hg i s Hs Hr) as [Hc|?]; [left|by right].
  unfold claim_at, renew_subscription_local. simpl. rewrite claim_subscribe.
  case_decide as H; [|done]. injection H as -> ->. destruct Hs as [sh Es]. rewrite Es. by eexists.
Qed.

Lemma renew_losses id sub now en :
  is_Some (claim_at en id sub) \/ share_at en id = None ->
  no_losses en -> no_losses (renew_subscription_local id sub now en).
Proof.
  intros Ho Hl i s at_. unfold claim_at, renew_subscription_local. simpl. rewrite claim_subscribe.
  case_decide as H; [|apply Hl]. injection H as -> ->.
  destruct (es_feed_shares (en_state en) !! id) as [sh|] eqn:Es; simpl; [|done]. intros [= <-].
  destruct Ho as [[o Ho]|Ho]; [|unfold share_at in Ho; congruence].
  destruct (Hl _ _ _ Ho) as (? & at' & ? & ?). split; [done|]. exists at'. split; [done|].
  unfold claim_at in Ho. rewrite Ho. simpl. lia.
Qed.

(* ------------------------------------------------------------------ *)
(** ** Schedules *)

(** Every [Left] on its way is for a shape the log has made. *)
Definition lefts_made (en : Engine) : Prop := forall id s, pending_left en id s -> made (fold_of en) id.

Lemma log_grows a en : exists evs, en_log (estep a en) = en_log en ++ evs.
Proof.
  assert (Hrefl : exists evs, en_log en = en_log en ++ evs) by (exists []; by rewrite app_nil_r).
  destruct a as [r|id o|id sub now|id sub now|id|id|cfg id reason now|window now|cfg id now|id answer now
    |id now|id|id now|id resume gate now|id rows bytes|i|id deleted|t| |nonce|ev]; simpl; try done; try by eexists.
  - unfold create_locked, join_shape, register, register_shape. repeat case_match; simpl; try done; by eexists.
  - destruct (release_cases id sub now en) as [(en1 & _ & _)|(s & ->)]; [|by eexists].
    unfold release_subscription. destruct (match sub with Some _ => _ | None => _ end) as [[] st]; simpl; [by eexists|done].
  - destruct (purge_gone id en) as (_ & _ & H). destruct (shape_at en id); destruct H as [-> _]; [by eexists|done].
  - destruct (rollback_gone id en) as (_ & -> & _). done.
  - unfold evict_shape. repeat case_match; try done. simpl.
    destruct (purge_gone id en) as (_ & _ & Hp). destruct (shape_at en id); destruct Hp as [-> _]; [by eexists|done].
  - unfold deactivate_begin. by repeat case_match.
  - unfold deactivate_end. by repeat case_match.
  - unfold ensure_active_step. by repeat case_match.
  - unfold send_unsent. destruct (en_unsent en !! i) as [[]|]; simpl; try done; by eexists.
  - unfold retire_attempt. destruct (en_dying en !! id), deleted; simpl; try done; by eexists.
  - case_match; simpl; [by eexists|done].
Qed.

Lemma made_grows l l' id :
  log_ok (l ++ l') -> made (fold_events l fold_default) id -> made (fold_events (l ++ l') fold_default) id.
Proof.
  revert l. induction l' as [|ev l' IH]; intros l Hl Hm; [by rewrite app_nil_r|].
  change (ev :: l') with ([ev] ++ l'). rewrite app_assoc. apply IH; [by rewrite <- app_assoc|].
  rewrite fold_snoc. apply made_mono; [|done].
  assert (Hl1 : log_ok (l ++ [ev])).
  { replace (l ++ [ev]) with (take (length (l ++ [ev])) (l ++ ev :: l')); [by apply written_take|].
    change (l ++ ev :: l') with (l ++ [ev] ++ l'). rewrite app_assoc. apply take_app_length. }
  inversion Hl1 as [Hnil|l1 ev1 ? Hev Heq]; [by destruct l|].
  apply app_inj_tail in Heq as [-> ->]. done.
Qed.

Lemma pending_step a en id s :
  pending_left (estep a en) id s -> pending_left en id s \/ is_Some (share_at en id).
Proof.
  assert (Hsame : forall en', en_unsent en' = en_unsent en -> pending_left en' id s ->
    pending_left en id s \/ is_Some (share_at en id)) by (intros en' E; unfold pending_left; rewrite E; by left).
  destruct a as [r|j o|j sub now|j sub now|j|j|cfg j reason now|window now|cfg j now|j answer now
    |j now|j|j now|j resume gate now|j rows bytes|i|j deleted|t| |nonce|ev]; simpl; try (by apply Hsame).
  - apply Hsame. unfold create_locked, join_shape, register, register_shape. by repeat case_match.
  - apply Hsame. unfold release_subscription. by destruct (match sub with Some _ => _ | None => _ end) as [[] st].
  - apply Hsame. by destruct (purge_gone j en) as (_ & -> & _).
  - destruct (rollback_gone j en) as (_ & _ & _ & Hu). unfold pending_left. rewrite Hu, elem_of_app.
    intros [?|Hin]; [by left|]. destruct (shape_at en j); [by apply list_elem_of_singleton in Hin|by apply not_elem_of_nil in Hin].
  - apply Hsame. destruct (purge_gone j en) as (_ & Hu & _). unfold evict_shape. by repeat case_match.
  - rewrite pending_sweep. intros [?|Hin]; [by left|right]. by eapply lapsed_share.
  - apply Hsame. unfold deactivate_begin. by repeat case_match.
  - unfold deactivate_end. destruct (en_lives en !! j); [|by left]. destruct answer as [[resume gate]|]; [|by left].
    unfold pending_left. simpl. rewrite elem_of_app. intros [?|Hin]; [by left|]. by apply list_elem_of_singleton in Hin.
  - apply Hsame. unfold ensure_active_step. by repeat case_match.
  - unfold send_unsent, pending_left. destruct (en_unsent en !! i) as [[]|]; simpl; intros Hin; left;
      try (by eapply list_elem_of_delete_inv). done.
  - apply Hsame. unfold retire_attempt. by repeat case_match.
  - apply Hsame. by case_match.
Qed.

Lemma lefts_made_step a en : inv en -> inv (estep a en) -> lefts_made en -> lefts_made (estep a en).
Proof.
  intros HI HI' Hm id s Hp. destruct (log_grows a en) as [evs El]. unfold fold_of. rewrite El.
  apply made_grows; [rewrite <- El; apply HI'|].
  destruct (pending_step a en id s Hp) as [?|Hs]; [by eapply Hm|by apply share_core].
Qed.

Lemma ghosts_step a en : inv en -> no_ghosts en -> no_ghosts (estep a en).
Proof.
  intros HI Hg. destruct (claimless a) eqn:Hc.
  { eapply same_claims_ghosts; [by apply same_claims_step|done]. }
  destruct a as [r| |id sub now|id sub now| | | |window now| | | | | | | |i| | | | | ]; try done; simpl.
  - unfold create_locked. destruct (join_target _ _) as [id|] eqn:Ej; simpl.
    + unfold join_shape. destruct (ensure_schema_resolved _ _ _); [|done].
      destruct (ensure_subscription_free _ _ _); [|done].
      pose proof (joined_ghosts id (cr_sub r) (cr_now r) en Hg) as H. unfold joined in H.
      by destruct (subscribe id (cr_sub r) (cr_now r) (en_state en)).
    + unfold register. destruct (ensure_subscription_free _ _ _); [|done].
      repeat case_match; try done. simpl. apply registered_ghosts; [|done].
      destruct (share_at en (shape_id_of (es_next_shape_id (en_state en)))) eqn:Es; [|done].
      destruct (share_core en _ HI ltac:(by eexists)) as [_ (n & m & E & _ & Hm & Hnm)].
      apply shape_id_of_inj in E. pose proof (iv_max _ HI m Hm). lia.
  - destruct (release_cases id sub now en) as [(en1 & Hs & ->)|(s & ->)].
    + eapply same_claims_ghosts; [apply same_claims_lives|]. by eapply same_claims_ghosts.
    + eapply same_claims_ghosts; [apply same_claims_lives|]. by apply left_now_ghosts.
  - by apply renew_ghosts.
  - by apply sweep_ghosts.
  - by apply send_ghosts.
Qed.

(** The actions after which the log can still be right: a create's clocks do not run backwards, a
    join does not overtake the [Left] of the same claim, and what a local renewal renews is held. *)
Definition orderly (a : Act) (en : Engine) : Prop :=
  match a with
  | ACreate r => cr_at r <= cr_now r /\
      forall id, join_target (cr_sig r) (en_state en) = Some id -> ~ pending_left en id (cr_sub r)
  | ARenewLocal id sub _ => is_Some (claim_at en id sub) \/ share_at en id = None
  | _ => True
  end.

Lemma losses_step a en :
  inv en -> lefts_made en -> no_ghosts en -> orderly a en -> no_losses en -> no_losses (estep a en).
Proof.
  intros HI Hm Hg Ho Hl. destruct (claimless a) eqn:Hc.
  { eapply same_claims_losses; [by apply same_claims_step|done]. }
  destruct a as [r| |id sub now|id sub now| | | |window now| | | | | | | |i| | | | | ]; try done; simpl in *.
  - destruct Ho as [Hclock Ho]. unfold create_locked. destruct (join_target _ _) as [id|] eqn:Ej; simpl.
    + unfold join_shape. destruct (ensure_schema_resolved _ _ _); [|done].
      destruct (ensure_subscription_free _ _ _); [|done].
      pose proof (joined_losses id (cr_sub r) (cr_now r) en HI Hg Hl (Ho id eq_refl)) as H. unfold joined in H.
      by destruct (subscribe id (cr_sub r) (cr_now r) (en_state en)).
    + unfold register. destruct (ensure_subscription_free _ _ _); [|done].
      set (n := es_next_shape_id (en_state en)).
      assert (Hnew : ~ made (fold_of en) (shape_id_of n)).
      { intros (k & m & E & _ & Hk & Hkm). apply shape_id_of_inj in E. pose proof (iv_max _ HI m Hk). lia. }
      repeat case_match; try done. simpl. apply registered_losses; try done.
      * destruct (share_at _ (shape_id_of n)) eqn:Es; [|done].
        by destruct (share_core en (shape_id_of n) HI ltac:(by eexists)).
      * intros s Hp. by apply Hnew, (Hm _ s).
  - destruct (release_cases id sub now en) as [(en1 & Hs & ->)|(s & ->)].
    + eapply same_claims_losses; [apply same_claims_lives|]. by eapply same_claims_losses.
    + eapply same_claims_losses; [apply same_claims_lives|]. by apply left_now_losses.
  - by apply renew_losses.
  - by apply sweep_losses.
  - by apply send_losses.
Qed.

(* ------------------------------------------------------------------ *)
(** ** Boots *)

Definition claims_restored (en : Engine) : Prop := en_unsent en = [] /\
  forall id s, is_Some (share_at en id) -> claim_at en id s = record_claim (fold_of en) id s.

Lemma restored_claims id l st i s :
  is_Some (es_feed_shares st !! id) -> NoDup l.*1 ->
  claim_in (foldl (λ st (c : str * Z), (subscribe id c.1 c.2 st).2) st l) i s
  = if decide (i = id) then
      match (list_to_map l : gmap str Z) !! s with
      | Some at_ => Some (renewed (claim_in st id s) at_)
      | None => claim_in st id s
      end
    else claim_in st i s.
Proof.
  revert st. induction l as [|[s' at_] l IH]; intros st Hs Hnd.
  { simpl. rewrite lookup_empty. by case_decide; subst. }
  cbn [foldl fst snd]. simpl in Hnd. apply NoDup_cons in Hnd as [Hn Hnd].
  rewrite IH by (by rewrite ?subscribed_share). rewrite !claim_subscribe. destruct Hs as [sh Es]. rewrite Es.
  case_decide as Hi; subst; simpl.
  - destruct (decide (s = s')) as [->|Hne].
    + rewrite lookup_insert_eq, decide_True by done.
      by rewrite (not_elem_of_list_to_map_1 l s') by done.
    + rewrite lookup_insert_ne by done. by rewrite decide_False by congruence.
  - by rewrite decide_False by congruence.
Qed.

Lemma claims_drop p todo en :
  boot_inv (p :: todo) en -> claims_restored en -> claims_restored (boot_drop en p).
Proof.
  intros HB [Hu Hc]. split; [done|]. intros i s Hs.
  change (fold_of (boot_drop en p)) with (fold_of (enqueue (EvDropped p.1) en)).
  rewrite fold_of_enqueue, record_dropped, decide_False; [by apply Hc|]. intros ->.
  destruct (bi_todo _ _ HB p) as [_ En]; [by left|].
  destruct (bi_shares _ _ HB p.1) as [c Ec]; [done|congruence].
Qed.

Lemma claims_install b p todo en :
  boot_inv (p :: todo) en -> claims_restored en -> claims_restored (install_one b en p).
Proof.
  intros HB [Hu Hc]. split; [done|]. destruct (bi_todo _ _ HB p) as [Er En]; [by left|].
  assert (Hnone : share_at en p.1 = None).
  { destruct (share_at en p.1) eqn:E; [|done]. destruct (bi_shares _ _ HB p.1) as [c ?]; [by eexists|congruence]. }
  intros i s. change (fold_of (install_one b en p)) with (fold_of en).
  unfold share_at, claim_at, install_one, restore_share. simpl.
  destruct (r_sig p.2) as [sig|] eqn:Esig; [|apply Hc].
  match goal with |- context [foldl _ ?s0 (map_to_list (r_subs p.2))] =>
    destruct (subscribe_all_rest p.1 (map_to_list (r_subs p.2)) s0) as (_ & _ & _ & Hsh) end.
  specialize (Hsh i). rewrite <- (fmap_is_Some fs_sig), Hsh, fmap_is_Some. clear Hsh. simpl.
  rewrite restored_claims; [|simpl; rewrite lookup_insert_eq; by eexists|apply NoDup_fst_map_to_list].
  rewrite list_to_map_to_list. case_decide as Hi; [subst|].
  - intros _. unfold claim_in, record_claim. simpl. rewrite lookup_insert_eq, Er. simpl. rewrite lookup_empty.
    by destruct (r_subs p.2 !! s).
  - unfold claim_in. simpl. rewrite !lookup_insert_ne by done. apply Hc.
Qed.

Lemma claims_each (f : Engine -> str * Restored -> Engine) l todo en :
  (forall p todo en, boot_inv (p :: todo) en -> boot_inv todo (f en p)) ->
  (forall p todo en, boot_inv (p :: todo) en -> claims_restored en -> claims_restored (f en p)) ->
  boot_inv (l ++ todo) en -> claims_restored en -> claims_restored (foldl f en l).
Proof.
  intros Hf Hg. revert en. induction l as [|p l IH]; intros en HB Hc; simpl; [done|].
  apply IH; [by apply Hf|by eapply Hg].
Qed.

Lemma claims_restart en k b recs en' :
  inv en -> order_of (take k (en_log en)) recs ->
  restart b (take k (en_log en)) recs = Ok en' -> claims_restored en'.
Proof.
  intros HI Ho. unfold restart. destruct (missing_consumer _ _); [done|].
  pose proof (boot_inv_start k en recs HI Ho) as HB.
  apply (boot_inv_perm _ (lost b recs ++ kept b recs)) in HB.
  2: { unfold lost, kept. rewrite stable_sort_perm. symmetry. apply partition_perm. }
  assert (Hc : claims_restored (boot_engine (take k (en_log en)) (fold_events (take k (en_log en)) fold_default))).
  { split; [done|]. intros i s [sh E]. unfold share_at in E. simpl in E. by rewrite lookup_empty in E. }
  assert (Hd : forall p todo en, boot_inv (p :: todo) en -> boot_inv todo (boot_drop en p))
    by (intros; by apply boot_inv_drop).
  pose proof (claims_each boot_drop _ _ _ Hd claims_drop HB Hc) as Hc1.
  apply (boot_inv_each boot_drop) in HB; [|done]. set (en1 := foldl boot_drop _ _) in *.
  destruct (_ && _); intros [= <-]; [done|]. rewrite <- (app_nil_r (kept b recs)) in HB.
  destruct (bt_mode b); (eapply claims_each; [| |exact HB|done]); intros p todo en2 HB2; unfold resume_one.
  - destruct (not_resumable _ _); [by apply boot_inv_drop|by apply boot_inv_install].
  - intros Hc2. destruct (not_resumable _ _); [by eapply claims_drop|by eapply claims_install].
  - by apply boot_inv_park.
  - done.
Qed.

Lemma restored_ghosts en : claims_restored en -> no_ghosts en.
Proof. intros [_ Hc] id s Hs Hr. left. by rewrite Hc. Qed.
Lemma restored_losses en : claims_restored en -> no_losses en.
Proof.
  intros [Hu Hc] id s at_ E. split; [unfold pending_left; rewrite Hu; apply not_elem_of_nil|].
  exists at_. rewrite <- Hc by (eapply claim_share; by eexists). done.
Qed.
Lemma restored_lefts en : claims_restored en -> lefts_made en.
Proof. intros [Hu _] id s. unfold pending_left. rewrite Hu. by intros ?%not_elem_of_nil. Qed.

(** Engines reached by orderly actions, through any boots. *)
Inductive orderly_reachable : Engine -> Prop :=
  | orderly_start : orderly_reachable engine_start
  | orderly_step en a :
      orderly_reachable en -> orderly a en -> es_next_shape_id (en_state (estep a en)) <= u64_max ->
      orderly_reachable (estep a en)
  | orderly_restart en k b recs en' :
      orderly_reachable en -> order_of (take k (en_log en)) recs ->
      restart b (take k (en_log en)) recs = Ok en' -> orderly_reachable en'.

Lemma orderly_is_reachable en : orderly_reachable en -> reachable en.
Proof. induction 1; [constructor|by constructor|by econstructor]. Qed.

(** C12: On every schedule, a claim of the fold on a shared shape is one the engine holds, or one it
    has released and whose [Left] is about to be enqueued. *)
Theorem no_ghost_claims (en : Engine) (id sub : str) (at_ : Z) :
  reachable en -> is_Some (share_at en id) -> record_claim (fold_of en) id sub = Some at_ ->
  is_Some (claim_at en id sub) \/ ULeft id sub ∈ en_unsent en.
Proof.
  intros HR Hs Hr. enough (Hg : no_ghosts en) by (apply Hg; [done|by eexists]).
  clear Hs Hr. induction HR as [|en a HR IH Hn|en k b recs en' HR IH Ho Hb].
  - intros i s [sh E]. unfold share_at in E. simpl in E. by rewrite lookup_empty in E.
  - apply ghosts_step; [by apply reachable_inv|done].
  - eapply restored_ghosts, claims_restart; [by apply reachable_inv|done..].
Qed.

(** C11: On the orderly schedules, through any boots, a claim the engine holds is in the fold with a
    lease no newer than the engine's, and no [Left] for it is on its way: a restart loses none. *)
Theorem no_lost_claims (en : Engine) (id sub : str) (at_ : Z) :
  orderly_reachable en -> claim_at en id sub = Some at_ ->
  ULeft id sub ∉ en_unsent en /\
  exists at', record_claim (fold_of en) id sub = Some at' /\ at' <= at_.
Proof.
  intros HR. enough (H : inv en /\ lefts_made en /\ no_ghosts en /\ no_losses en) by apply H.
  induction HR as [|en a HR IH Ho Hn|en k b recs en' HR IH Ho Hb].
  - split_and!; [apply inv_start|intros i s ?%not_elem_of_nil; done| |].
    + intros i s [sh E]. unfold share_at in E. simpl in E. by rewrite lookup_empty in E.
    + intros i s a E. unfold claim_at, claim_in in E. simpl in E. by rewrite lookup_empty in E.
  - destruct IH as (HI & Hm & Hg & Hl). pose proof (inv_step a en HI Hn) as HI'.
    split_and!; [done|by apply lefts_made_step|by apply ghosts_step|by apply losses_step].
  - pose proof (claims_restart en k b recs en' (proj1 IH) Ho Hb) as Hc.
    split_and!; [by eapply inv_restart; [apply IH|..]|by apply restored_lefts|by apply restored_ghosts
      |by apply restored_losses].
Qed.
