(* ===== verification/ShareFacts.v ===== *)
(** * One shape per signature, one shape per claim

    In the life of a process, on the orderly schedules: the two indexes of [EngineState] are the
    shares read backwards ([feeds_ok], [owners_ok]).  So identical creates share one stream, and a
    subscription id names one shape. *)

From S2P Require Import Prelude BTree Value TableRef Schema Predicate Gate Output ChangeLog.
From S2P Require Import Subquery Retention Catalog Lifecycle LifecycleInv Restore ClaimsFacts.
From stdpp Require Import base option numbers strings gmap fin_maps sorting list.
#[local] Open Scope Z_scope.

Definition owners_ok (st : EngineState) : Prop :=
  forall sub id, es_subs_by_id st !! sub = Some id <-> is_Some (claim_in st id sub).
Definition feeds_ok (st : EngineState) : Prop :=
  forall sig id, es_feed_by_sig st !! sig = Some id <-> fs_sig <$> es_feed_shares st !! id = Some sig.

Lemma feeds_same st st' :
  es_feed_by_sig st' = es_feed_by_sig st ->
  (forall i, fs_sig <$> es_feed_shares st' !! i = fs_sig <$> es_feed_shares st !! i) ->
  feeds_ok st -> feeds_ok st'.
Proof. intros Eb Es H sig id. by rewrite Eb, Es. Qed.

Lemma owners_subscribe shape sub at_ st :
  (es_subs_by_id st !! sub = None \/ es_subs_by_id st !! sub = Some shape) ->
  owners_ok st -> owners_ok (subscribe shape sub at_ st).2.
Proof.
  intros Hf Ho t id. rewrite claim_subscribe. unfold subscribe.
  destruct (es_feed_shares st !! shape) as [sh|] eqn:E; simpl.
  - destruct (decide (t = sub)) as [->|Ht].
    + rewrite lookup_insert_eq. case_decide as H; [injection H as ->; split; [by eexists|done]|].
      split; [congruence|]. intros Hc. apply Ho in Hc. destruct Hf; congruence.
    + rewrite lookup_insert_ne, decide_False by congruence. apply Ho.
  - case_decide as H; [|apply Ho]. injection H as -> ->. split; [intros [? Hv]%Ho; unfold claim_in in Hv; by rewrite E in Hv|intros [? ?]; discriminate].
Qed.

Lemma owners_unsubscribe shape sub st : owners_ok st -> owners_ok (unsubscribe shape sub st).2.
Proof.
  intros Ho t id. rewrite claim_unsubscribe. unfold unsubscribe.
  destruct (es_feed_shares st !! shape) as [sh|] eqn:E; simpl.
  2: { case_decide as H; [|apply Ho]. injection H as -> ->. split; [|intros [? ?]; discriminate].
       intros [? Hv]%Ho. unfold claim_in in Hv. by rewrite E in Hv. }
  destruct (fs_subs sh !! sub) as [v|] eqn:Es; simpl.
  2: { case_decide as H; [|apply Ho]. injection H as -> ->. split; [|intros [? ?]; discriminate].
       intros [? Hv]%Ho. unfold claim_in in Hv. rewrite E in Hv. simpl in Hv. congruence. }
  assert (Hown : es_subs_by_id st !! sub = Some shape).
  { apply Ho. unfold claim_in. rewrite E. simpl. rewrite Es. by eexists. }
  unfold disown. rewrite bool_decide_true by done.
  destruct (decide (t = sub)) as [->|Ht].
  - rewrite lookup_delete_eq. case_decide as H; [split; [done|intros [? ?]; discriminate]|].
    split; [done|]. intros Hc. apply Ho in Hc. congruence.
  - rewrite lookup_delete_ne, decide_False by congruence. apply Ho.
Qed.

Lemma owners_unsubscribe_all l st :
  owners_ok st -> owners_ok (foldl (λ st p, (unsubscribe p.1 p.2 st).2) st l).
Proof.
  revert st. induction l as [|p l IH]; intros st Ho; [done|]. apply IH. by apply owners_unsubscribe.
Qed.

(** A shape's claims and share removed. *)
Lemma disown_all (shape : str) (l : list str) (m : gmap str str) (s : str) :
  foldr (disown shape) m l !! s
  = if decide (s ∈ l /\ m !! s = Some shape) then None else m !! s.
Proof.
  induction l as [|x l IH]; cbn [foldr].
  { rewrite decide_False; [done|]. by intros [?%not_elem_of_nil _]. }
  assert (Hd : disown shape x (foldr (disown shape) m l) !! s
    = if decide (s = x /\ foldr (disown shape) m l !! s = Some shape) then None
      else foldr (disown shape) m l !! s).
  { unfold disown at 1. destruct (decide (s = x)) as [->|Hx].
    - case_bool_decide as H; [by rewrite lookup_delete_eq, decide_True|].
      by rewrite decide_False by tauto.
    - rewrite (decide_False (P := s = x /\ _)) by tauto. case_bool_decide; [by rewrite lookup_delete_ne|done]. }
  rewrite Hd, IH. pose proof (elem_of_cons l s x) as Hc.
  destruct (decide (s ∈ l /\ m !! s = Some shape)) as [Ha|Ha].
  - rewrite decide_False by (by intros [_ ?]). by rewrite decide_True by tauto.
  - destruct (decide (s = x /\ m !! s = Some shape)) as [Hb|Hb];
      [by rewrite decide_True by tauto|by rewrite decide_False by tauto].
Qed.

Lemma owners_removed id st st' :
  owners_ok st ->
  es_subs_by_id st' = es_subs_by_id (forget_subscriptions id st) ->
  (forall i, es_feed_shares st' !! i = if decide (i = id) then None else es_feed_shares st !! i) ->
  owners_ok st'.
Proof.
  intros Ho Eo Es sub i. unfold claim_in. rewrite Es, Eo.
  assert (Hf : es_subs_by_id (forget_subscriptions id st) !! sub
    = if decide (es_subs_by_id st !! sub = Some id) then None else es_subs_by_id st !! sub).
  { unfold forget_subscriptions. destruct (es_feed_shares st !! id) as [sh|] eqn:E; simpl.
    - rewrite disown_all. case_decide as H; [by rewrite decide_True by tauto|].
      rewrite decide_False; [done|]. intros Hown. apply H. split; [|done].
      apply Ho in Hown as [v Hv]. unfold claim_in in Hv. rewrite E in Hv. simpl in Hv.
      apply list_elem_of_fmap. exists (sub, v). split; [done|]. by apply elem_of_map_to_list.
    - rewrite decide_False; [done|]. intros [v Hv]%Ho. unfold claim_in in Hv. by rewrite E in Hv. }
  rewrite Hf. specialize (Ho sub i). unfold claim_in in Ho. case_decide as H; case_decide as Hi; subst.
  - split; [done|intros [? ?]; discriminate].
  - split; [done|]. intros Hc. apply Ho in Hc. congruence.
  - split; [congruence|intros [? ?]; discriminate].
  - done.
Qed.

Lemma feeds_removed id st st' f :
  f = remove_share \/ f = remove_share_if_ours -> feeds_ok st ->
  es_feed_by_sig st' = es_feed_by_sig (f id st) -> es_feed_shares st' = es_feed_shares (f id st) ->
  feeds_ok st'.
Proof.
  intros Hf Hg Eb Es sig i. rewrite Eb, Es.
  destruct (remove_share_at f id st i Hf) as (_ & _ & ->).
  assert (Hb : es_feed_by_sig (f id st) !! sig
    = if decide (es_feed_by_sig st !! sig = Some id) then None else es_feed_by_sig st !! sig).
  { destruct (es_feed_shares st !! id) as [sh|] eqn:E.
    - assert (Hsig : es_feed_by_sig st !! fs_sig sh = Some id) by (apply Hg; by rewrite E).
      assert (Hdel : es_feed_by_sig (f id st) = delete (fs_sig sh) (es_feed_by_sig st)).
      { destruct Hf as [-> | ->]; unfold remove_share, remove_share_if_ours; rewrite E; simpl; [done|].
        unfold disown. by rewrite bool_decide_true. }
      rewrite Hdel. case_decide as H.
      + assert (sig = fs_sig sh) as -> by (apply Hg in H; rewrite E in H; simpl in H; congruence).
        apply lookup_delete_eq.
      + apply lookup_delete_ne. congruence.
    - rewrite decide_False by (intros H%Hg; by rewrite E in H).
      destruct Hf as [-> | ->]; unfold remove_share, remove_share_if_ours; by rewrite E. }
  rewrite Hb. specialize (Hg sig i). case_decide as H; case_decide as Hi; subst.
  - split; intros; discriminate.
  - split; [done|]. intros Hc. apply Hg in Hc. congruence.
  - split; intros; [congruence|discriminate].
  - done.
Qed.

(* ------------------------------------------------------------------ *)
(** ** The life of a process *)

Definition indexes_ok (en : Engine) : Prop := owners_ok (en_state en) /\ feeds_ok (en_state en).

Inductive first_life : Engine -> Prop :=
  | first_start : first_life engine_start
  | first_step en a :
      first_life en -> orderly a en -> es_next_shape_id (en_state (estep a en)) <= u64_max ->
      first_life (estep a en).

Lemma first_life_orderly en : first_life en -> orderly_reachable en.
Proof. induction 1; by constructor. Qed.

Lemma indexes_same en en' :
  es_subs_by_id (en_state en') = es_subs_by_id (en_state en) ->
  es_feed_by_sig (en_state en') = es_feed_by_sig (en_state en) ->
  es_feed_shares (en_state en') = es_feed_shares (en_state en) ->
  indexes_ok en -> indexes_ok en'.
Proof.
  intros Eo Eb Es [Ho Hg]. split.
  - intros sub id. unfold claim_in. rewrite Eo, Es. apply Ho.
  - intros sig id. rewrite Eb, Es. apply Hg.
Qed.

Lemma indexes_purge id en : indexes_ok en -> indexes_ok (purge_shape id en).
Proof.
  intros [Ho Hg]. unfold purge_shape, drop_record. cbn [en_state with_state with_lives].
  set (st := remove_share id (forget_subscriptions id (en_state en))).
  destruct (forget_rest id (en_state en)) as (_ & _ & Eb & Es).
  assert (Hst : owners_ok st /\ feeds_ok st).
  { split.
    - apply (owners_removed id (en_state en)); [done| |].
      + unfold st, remove_share. by destruct (es_feed_shares _ !! id).
      + intros i. destruct (remove_share_at remove_share id (forget_subscriptions id (en_state en)) i) as (_ & _ & Hi);
          [by left|]. unfold st. by rewrite Hi, Es.
    - apply (feeds_removed id (forget_subscriptions id (en_state en)) _ remove_share); [by left| |done|done].
      eapply feeds_same; [exact Eb| |exact Hg]. intros i. by rewrite Es. }
  destruct (es_shapes st !! id); (eapply (indexes_same (mkEngine st ∅ [] [] ∅)); [| | |exact Hst]); done.
Qed.

Lemma indexes_rollback id en : indexes_ok en -> indexes_ok (rollback_create id en).
Proof.
  intros [Ho Hg]. unfold rollback_create.
  set (st0 := with_shapes (delete id (es_shapes (en_state en))) (en_state en)).
  set (st := remove_share_if_ours id (forget_subscriptions id st0)).
  destruct (forget_rest id st0) as (_ & _ & Eb & Es).
  assert (Hst : owners_ok st /\ feeds_ok st).
  { split.
    - apply (owners_removed id st0); [exact Ho| |].
      + unfold st, remove_share_if_ours. by destruct (es_feed_shares _ !! id).
      + intros i. destruct (remove_share_at remove_share_if_ours id (forget_subscriptions id st0) i) as (_ & _ & Hi);
          [by right|]. unfold st. by rewrite Hi, Es.
    - apply (feeds_removed id (forget_subscriptions id st0) _ remove_share_if_ours); [by right| |done|done].
      eapply feeds_same; [exact Eb| |exact Hg]. intros i. by rewrite Es. }
  destruct (es_shapes (en_state en) !! id); (eapply (indexes_same (mkEngine st ∅ [] [] ∅)); [| | |exact Hst]); done.
Qed.

Lemma free_owner sub shape st :
  ensure_subscription_free sub shape st = Ok tt ->
  es_subs_by_id st !! sub = None \/ es_subs_by_id st !! sub = Some shape.
Proof.
  unfold ensure_subscription_free, subscription_owner. destruct (es_subs_by_id st !! sub) as [o|]; [|by left].
  case_bool_decide; [subst; by right|done].
Qed.

Lemma indexes_join r id en : indexes_ok en -> indexes_ok (join_shape r id en).2.
Proof.
  intros [Ho Hg]. unfold join_shape. destruct (ensure_schema_resolved _ _ _); [|done].
  destruct (ensure_subscription_free _ _ _) as [[]|] eqn:Ef; [|done].
  pose proof (owners_subscribe id (cr_sub r) (cr_now r) (en_state en) (free_owner _ _ _ Ef) Ho) as Ho'.
  destruct (subscribe_rest id (cr_sub r) (cr_now r) (en_state en)) as (_ & _ & Eb).
  pose proof (subscribe_shares id (cr_sub r) (cr_now r) (en_state en)) as Es.
  destruct (subscribe id (cr_sub r) (cr_now r) (en_state en)) as [fresh st]. split; [done|].
  by eapply feeds_same.
Qed.

(** A new shape. *)
Lemma indexes_register r id en :
  share_at en id = None -> (forall s, cr_sig r = Some s -> es_feed_by_sig (en_state en) !! s = None) ->
  es_subs_by_id (en_state en) !! cr_sub r = None ->
  indexes_ok en -> indexes_ok (register_shape r id en).
Proof.
  intros Hnew Hsig Hfree [Ho Hg]. unfold register_shape.
  set (st1 := add_share id (cr_sig r) _).
  assert (H1 : owners_ok st1 /\ feeds_ok st1).
  { unfold st1, add_share, share_at in *. destruct (cr_sig r) as [sig|]; [|done]. split.
    - intros sub i. unfold claim_in. simpl. rewrite (Ho sub i). unfold claim_in.
      destruct (decide (i = id)) as [->|Hi]; [|by rewrite lookup_insert_ne].
      rewrite lookup_insert_eq, Hnew. simpl. by rewrite lookup_empty.
    - intros s i. simpl. specialize (Hsig sig eq_refl). destruct (decide (i = id)) as [->|Hi].
      + rewrite lookup_insert_eq. simpl. destruct (decide (s = sig)) as [->|Hs]; [by rewrite lookup_insert_eq|].
        rewrite lookup_insert_ne by done. split; [|congruence]. intros Hc%Hg. rewrite Hnew in Hc. discriminate.
      + rewrite (lookup_insert_ne (es_feed_shares (en_state en))) by done.
        destruct (decide (s = sig)) as [->|Hs]; [|rewrite lookup_insert_ne by done; apply Hg].
        rewrite lookup_insert_eq. split; [congruence|]. intros Hc%Hg. congruence. }
  destruct (cr_sig r) as [sig|]; [|exact H1]. destruct H1 as [Ho1 Hg1].
  split; cbn [en_state enqueue with_lives with_state].
  - apply owners_subscribe; [left|done]. done.
  - eapply feeds_same; [apply subscribe_rest|apply subscribe_shares|done].
Qed.

Lemma indexes_create r en : inv en -> indexes_ok en -> indexes_ok (create_locked r en).2.
Proof.
  intros HI HX. unfold create_locked. destruct (join_target _ _) as [id|] eqn:Ej; [by apply indexes_join|].
  unfold register. destruct (ensure_subscription_free _ _ _) as [[]|] eqn:Ef; [|done].
  set (n := es_next_shape_id (en_state en)).
  assert (Hfresh : forall i, is_Some (share_at en i) -> i <> shape_id_of n /\ i <> []).
  { intros i Hs. destruct (share_core en i HI Hs) as [_ (k & m & -> & _ & Hm & Hkm)]. split; [|done].
    intros E. apply shape_id_of_inj in E. pose proof (iv_max _ HI m Hm). lia. }
  repeat case_match; try done. simpl. apply indexes_register; try done.
  - destruct (share_at _ _) eqn:Es; [|done]. by destruct (Hfresh (shape_id_of n)); [by eexists|].
  - intros s Es. simpl. destruct (es_feed_by_sig (en_state en) !! s) as [id|] eqn:E; [exfalso|done].
    pose proof (proj1 (proj2 HX s id) E) as Hsh. unfold join_target in Ej. rewrite Es in Ej. simpl in Ej.
    rewrite E in Ej. simpl in Ej. destruct (iv_shares _ HI id) as [c Ec].
    + unfold share_at. destruct (es_feed_shares (en_state en) !! id); [by eexists|done].
    + unfold shape_at in Ec. by rewrite Ec in Ej.
  - simpl. destruct (free_owner _ _ _ Ef) as [?|E]; [done|exfalso].
    apply HX in E. by destruct (Hfresh [] (claim_share _ _ _ E)).
Qed.

Lemma indexes_step a en : inv en -> orderly a en -> indexes_ok en -> indexes_ok (estep a en).
Proof.
  intros HI Hor HX.
  assert (Hsame : forall en', en_state en' = en_state en -> indexes_ok en')
    by (intros en' E; eapply indexes_same; [..|exact HX]; by rewrite E).
  destruct a as [r|id o|id sub now|id sub now|id|id|cfg id reason now|window now|cfg id now|id answer now
    |id now|id|id now|id resume gate now|id rows bytes|i|id deleted|t| |nonce|ev]; simpl in *;
    try (by apply Hsame); try (by (eapply indexes_same; [| | |exact HX])).
  - by apply indexes_create.
  - destruct HX as [Ho Hg]. assert (Es : forall i, fs_sig <$> es_feed_shares (en_state (publish id o en)) !! i
      = fs_sig <$> es_feed_shares (en_state en) !! i).
    { intros i. simpl. destruct (decide (id = i)) as [->|]; [rewrite lookup_alter_eq|by rewrite lookup_alter_ne].
      by destruct (es_feed_shares (en_state en) !! i). }
    split; [|by apply (feeds_same (en_state en))]. intros s i. unfold claim_in. simpl. rewrite (Ho s i). unfold claim_in.
    destruct (decide (id = i)) as [->|]; [rewrite lookup_alter_eq|by rewrite lookup_alter_ne].
    by destruct (es_feed_shares (en_state en) !! i).
  - destruct HX as [Ho Hg].
    assert (Hu : forall s, indexes_ok (with_state (unsubscribe id s (en_state en)).2 en)).
    { intros s. split; [by apply owners_unsubscribe|]. eapply feeds_same; [apply unsubscribe_rest|apply unsubscribe_shares|done]. }
    unfold release_subscription. destruct sub as [s|].
    + specialize (Hu s). destruct (unsubscribe id s (en_state en)) as [[] st]; (eapply indexes_same; [| | |exact Hu]); done.
    + destruct (anonymous_release id (en_state en)) as [[v ->]| ->]; [|by apply Hsame].
      specialize (Hu v). destruct (unsubscribe id v (en_state en)) as [[] st]; (eapply indexes_same; [| | |exact Hu]); done.
  - destruct HX as [Ho Hg]. split.
    + destruct Hor as [Hc|Hn]; [apply owners_subscribe; [right; by apply Ho|done]|].
      unfold renew_subscription_local, subscribe. unfold share_at in Hn. by rewrite Hn.
    + eapply feeds_same; [apply subscribe_rest|apply subscribe_shares|done].
  - by apply indexes_purge.
  - by apply indexes_rollback.
  - unfold evict_shape. repeat case_match; try done. by apply indexes_purge.
  - destruct HX as [Ho Hg]. destruct (unsubscribe_all_rest (lapsed_subscriptions window now (en_state en)) (en_state en))
      as (_ & _ & Eb & Es). split; [by apply owners_unsubscribe_all|by apply (feeds_same (en_state en))].
  - apply Hsame. unfold deactivate_begin. by repeat case_match.
  - apply Hsame. unfold deactivate_end. by repeat case_match.
  - apply Hsame. unfold ensure_active_step. by repeat case_match.
  - apply Hsame. unfold send_unsent. by destruct (en_unsent en !! i) as [[]|].
  - apply Hsame. unfold retire_attempt. by destruct (en_dying en !! id), deleted.
  - apply Hsame. by destruct (shapeless ev).
Qed.

Lemma first_life_indexes en : first_life en -> indexes_ok en.
Proof.
  induction 1 as [|en a HF IH Ho Hn].
  - split; intros a b; unfold claim_in; simpl; rewrite !lookup_empty; split; intros H; try done; by destruct H.
  - apply indexes_step; [|done|done]. by apply reachable_inv, orderly_is_reachable, first_life_orderly.
Qed.

