(* ===== verification/CreateGuard.v ===== *)
(** * What a create's closing check rules out

    A create captures the generations of the tables it reads and of the epoch, works without the
    lock, waits for storage, and checks again ([recheck_after_durability]).  Whatever the other
    tasks did meanwhile, a check that passes means that none of those tables drifted, the epoch was
    not reset and the shape is still the one it made; and a drift that comes later finds it. *)

From S2P Require Import Prelude BTree Value TableRef Schema Predicate Gate Output ChangeLog.
From S2P Require Import Subquery Retention Catalog Lifecycle LifecycleInv.
From stdpp Require Import base option numbers strings gmap fin_maps sorting list.
#[local] Open Scope Z_scope.

(** The generations of two states agree. *)
Definition same_gens (st st' : EngineState) : Prop :=
  es_schema_gen st' = es_schema_gen st /\ es_epoch_gen st' = es_epoch_gen st.

Lemma gens_refl st : same_gens st st.
Proof. done. Qed.
Lemma gens_trans st1 st2 st3 : same_gens st1 st2 -> same_gens st2 st3 -> same_gens st1 st3.
Proof. unfold same_gens. intros [-> ->] [-> ->]. done. Qed.

Lemma gens_subscribe shape sub at_ st : same_gens st (subscribe shape sub at_ st).2.
Proof. unfold subscribe. by destruct (es_feed_shares st !! shape). Qed.
Lemma gens_unsubscribe shape sub st : same_gens st (unsubscribe shape sub st).2.
Proof.
  unfold unsubscribe. destruct (es_feed_shares st !! shape) as [sh|]; [|done]. by destruct (fs_subs sh !! sub).
Qed.
Lemma gens_anonymous shape st : same_gens st (unsubscribe_anonymous shape st).2.
Proof. destruct (anonymous_release shape st) as [[v ->]| ->]; [apply gens_unsubscribe|done]. Qed.
Lemma gens_unsubscribe_all l st : same_gens st (foldl (λ st p, (unsubscribe p.1 p.2 st).2) st l).
Proof.
  revert st. induction l as [|p l IH]; intros st; [done|]. eapply gens_trans; [apply gens_unsubscribe|apply IH].
Qed.
Lemma gens_removed f id st : f = remove_share \/ f = remove_share_if_ours ->
  same_gens st (f id (forget_subscriptions id st)).
Proof.
  assert (Hf : same_gens st (forget_subscriptions id st))
    by (unfold forget_subscriptions; by destruct (es_feed_shares st !! id)).
  intros [-> | ->]; (eapply gens_trans; [exact Hf|]); unfold remove_share, remove_share_if_ours;
    by destruct (es_feed_shares _ !! id).
Qed.

Lemma gens_purge id en : same_gens (en_state en) (en_state (purge_shape id en)).
Proof.
  unfold purge_shape, drop_record. cbn [en_state with_state with_lives].
  pose proof (gens_removed remove_share id (en_state en) (or_introl eq_refl)).
  by destruct (es_shapes _ !! id).
Qed.

Lemma gens_create r en : same_gens (en_state en) (en_state (create_locked r en).2).
Proof.
  unfold create_locked. destruct (join_target _ _) as [id|].
  - unfold join_shape. destruct (ensure_schema_resolved _ _ _); [|done].
    destruct (ensure_subscription_free _ _ _); [|done].
    pose proof (gens_subscribe id (cr_sub r) (cr_now r) (en_state en)) as H.
    by destruct (subscribe id (cr_sub r) (cr_now r) (en_state en)).
  - unfold register, register_shape. repeat case_match; try done; simpl.
    all: match goal with |- same_gens _ (subscribe ?i ?s ?a ?st).2 => exact (gens_subscribe i s a st) end.
Qed.

(** What an action does to the generations. *)
Lemma gens_step a en :
  (forall t, gen_of (en_state (estep a en)) t
     = gen_of (en_state en) t + match a with ADrift t' => if decide (t = t') then 1 else 0 | _ => 0 end) /\
  es_epoch_gen (en_state (estep a en)) = es_epoch_gen (en_state en) + match a with AReset => 1 | _ => 0 end.
Proof.
  assert (Hsame : forall en', same_gens (en_state en) (en_state en') ->
    (forall t, gen_of (en_state en') t = gen_of (en_state en) t + 0) /\
    es_epoch_gen (en_state en') = es_epoch_gen (en_state en) + 0).
  { intros en' [Hg He]. unfold gen_of. rewrite Hg, He. split; intros; lia. }
  destruct a as [r|id o|id sub now|id sub now|id|id|cfg id reason now|window now|cfg id now|id answer now
    |id now|id|id now|id resume gate now|id rows bytes|i|id deleted|t| |nonce|ev]; simpl; try (by apply Hsame).
  - apply Hsame, gens_create.
  - apply Hsame. unfold release_subscription. destruct sub as [s|].
    + pose proof (gens_unsubscribe id s (en_state en)) as H. by destruct (unsubscribe id s (en_state en)) as [[] st].
    + pose proof (gens_anonymous id (en_state en)) as H. by destruct (unsubscribe_anonymous id (en_state en)) as [[] st].
  - exact (Hsame (renew_subscription_local id sub now en) (gens_subscribe id sub now (en_state en))).
  - apply Hsame, gens_purge.
  - apply Hsame. unfold rollback_create.
    pose proof (gens_removed remove_share_if_ours id (with_shapes (delete id (es_shapes (en_state en))) (en_state en))
      (or_intror eq_refl)). by destruct (es_shapes (en_state en) !! id).
  - apply Hsame. pose proof (gens_purge id en). unfold evict_shape. by repeat case_match.
  - exact (Hsame (sweep_leases window now en)
      (gens_unsubscribe_all (lapsed_subscriptions window now (en_state en)) (en_state en))).
  - apply Hsame. unfold deactivate_begin. by repeat case_match.
  - apply Hsame. unfold deactivate_end. by repeat case_match.
  - apply Hsame. unfold ensure_active_step. by repeat case_match.
  - apply Hsame. unfold send_unsent. by destruct (en_unsent en !! i) as [[]|].
  - apply Hsame. unfold retire_attempt. by destruct (en_dying en !! id), deleted.
  - split; [|lia]. intros t'. unfold gen_of. simpl. case_decide; [subst; by rewrite lookup_insert_eq|].
    rewrite lookup_insert_ne by done. lia.
  - split; [intros; unfold gen_of; simpl; lia|done].
  - apply Hsame. by destruct (shapeless ev).
Qed.

Lemma gens_run acts en :
  (forall t, gen_of (en_state en) t <= gen_of (en_state (erun acts en)) t /\
     (ADrift t ∈ acts -> gen_of (en_state en) t < gen_of (en_state (erun acts en)) t)) /\
  es_epoch_gen (en_state en) <= es_epoch_gen (en_state (erun acts en)) /\
  (AReset ∈ acts -> es_epoch_gen (en_state en) < es_epoch_gen (en_state (erun acts en))).
Proof.
  revert en. induction acts as [|a acts IH]; intros en.
  { split_and!; try done; [|by intros ?%not_elem_of_nil]. intros t. split; [done|by intros ?%not_elem_of_nil]. }
  cbn [erun foldl]. destruct (IH (estep a en)) as (Ht & He & Hr). destruct (gens_step a en) as [Hg Hep].
  unfold erun in *. split_and!.
  - intros t. specialize (Ht t). specialize (Hg t). destruct Ht as [Hle Hlt].
    split; [repeat case_match; lia|]. intros [<-|Hin]%elem_of_cons.
    + rewrite decide_True in Hg by done. lia.
    + specialize (Hlt Hin). repeat case_match; lia.
  - case_match; lia.
  - intros [<-|Hin]%elem_of_cons; [lia|]. specialize (Hr Hin). case_match; lia.
Qed.

Lemma undrifted gens st t n :
  drifted_since gens st = None -> (t, n) ∈ sg_tables gens -> gen_of st t = n.
Proof.
  unfold drifted_since. intros H Hin. destruct (filter _ (sg_tables gens)) as [|p l] eqn:E; [|done].
  destruct (decide (gen_of st t = n)) as [|Hne]; [done|]. exfalso.
  assert (Hf : (t, n) ∈ filter (λ p : TableRef * Z, gen_of st p.1 <> p.2) (sg_tables gens))
    by (by apply list_elem_of_filter).
  rewrite E in Hf. by apply not_elem_of_nil in Hf.
Qed.

