(* ===== verification/Wakeup.v ===== *)
(** * Waking, refusing and forgetting ([engine/lifecycle.rs], [engine/epoch.rs])

    The decisions around the critical sections of [Lifecycle]: what a dormant shape's replay would
    scan and whether it may run, how the detached task that replays settles the shape, what an
    append that found its stream gone does, what the retention sweep and the change log's sweep
    see and do, and what a boot may do with its replication slot.

    Storage's answers ([HEAD]s, deletions) are inputs; [res str _] is an answer or a failed call. *)

From S2P Require Import Prelude BTree Value TableRef Schema Predicate Gate Output ChangeLog.
From S2P Require Import Subquery Retention Catalog Lifecycle.
From stdpp Require Import base option numbers strings gmap fin_maps sorting list.
#[local] Open Scope Z_scope.

(* ------------------------------------------------------------------ *)
(** ** What a replay scans *)

(** The segments of [resume.segment..=tail.segment]. *)
Definition segments_between (a b : Z) : list Z := seqZ a (b - a + 1).

(** One segment's part of the span: to the tail in the last, from the cursor in the first. *)
Definition segment_end (tail : LogPosition) (segment head : Z) : Z :=
  if segment =? lp_segment tail then default head (offset_bytes (lp_offset tail)) else head.
Definition segment_start (resume : LogPosition) (segment : Z) : Z :=
  if segment =? lp_segment resume then default 0 (offset_bytes (lp_offset resume)) else 0.
Definition add_segment (tail resume : LogPosition) (segment head total : Z) : Z :=
  sat_add_u64 total (sat_sub_u64 (segment_end tail segment head) (segment_start resume segment)).

(** A [HEAD] of a segment: the offset after its last byte, if there is such a stream. *)
Abbreviation Heads := (Z -> res str (option str)).
Definition head_bytes (h : Heads) (segment : Z) : res str (option Z) :=
  match h segment with Ok (Some o) => Ok (offset_bytes o) | Ok None => Ok None | Err e => Err e end.

(** [dormant_replay_span_result_cached]. *)
Fixpoint span_result (h : Heads) (tail resume : LogPosition) (l : list Z) (total : Z)
    : res str (option Z) :=
  match l with
  | [] => Ok (Some total)
  | n :: rest =>
      match head_bytes h n with
      | Err e => Err e
      | Ok None => Ok None
      | Ok (Some head) => span_result h tail resume rest (add_segment tail resume n head total)
      end
  end.
Definition dormant_replay_span_result (h : Heads) (tail resume : LogPosition) : res str (option Z) :=
  if lp_segment tail <? lp_segment resume then Ok (Some 0)
  else span_result h tail resume (segments_between (lp_segment resume) (lp_segment tail)) 0.

(** [dormant_replay_span_cached]: a call that failed is a stream that is not there. *)
Fixpoint span_option (h : Heads) (tail resume : LogPosition) (l : list Z) (total : Z) : option Z :=
  match l with
  | [] => Some total
  | n :: rest =>
      head ← match head_bytes h n with Ok o => o | Err _ => None end;
      span_option h tail resume rest (add_segment tail resume n head total)
  end.
Definition dormant_replay_span (h : Heads) (tail resume : LogPosition) : option Z :=
  if lp_segment tail <? lp_segment resume then Some 0
  else span_option h tail resume (segments_between (lp_segment resume) (lp_segment tail)) 0.

(** [reactivation_admission]. *)
Inductive AdmissionError : Type := HeadUnavailable | CursorExpired.
Definition reactivation_admission (cfg : RetentionConfig) (h : Heads) (tail resume : LogPosition)
    (id : str) (st : EngineState) : res AdmissionError bool :=
  match dormant_replay_span_result h tail resume with
  | Err _ => Err HeadUnavailable
  | Ok None => Err CursorExpired
  | Ok (Some span) =>
      Ok (span <=? replay_budget cfg (c ← es_shapes st !! id; rec_backfill_bytes c))
  end.

(* ------------------------------------------------------------------ *)
(** ** The detached task of a wake *)

(** How [resume_dormant] came back. *)
Inductive ResumeOutcome : Type := Resumed | BufferOverflow | SegmentGone | ResumeFailed.

(** The critical sections the task of [ensure_active] goes through, and what it publishes. *)
Definition wake_acts (cfg : RetentionConfig) (id : str) (resume : LogPosition) (gate : SnapshotGate)
    (now : Z) (admission : res AdmissionError bool) (outcome : ResumeOutcome) : list Act * bool :=
  let park := AReparked id resume gate now in
  let evict reason := AEvict cfg id reason now in
  match admission with
  | Err HeadUnavailable => ([park], false)
  | Err CursorExpired => ([park; evict ChangeLogRetention], false)
  | Ok false => ([park; evict ReplayBudget], false)
  | Ok true =>
      match outcome with
      | Resumed => ([AResumeRecorded id; AReactivated id now], true)
      | BufferOverflow => ([park; evict ReplayBudget], false)
      | SegmentGone => ([park; evict ChangeLogRetention], false)
      | ResumeFailed => ([park], false)
      end
  end.

(** What one who waited for it is told. *)
Inductive WakeAnswer : Type := Awake | Recreate | Deferred.
Definition wake_answer (published : bool) (id : str) (en : Engine) : WakeAnswer :=
  if published then Awake
  else match en_lives en !! id with None => Recreate | Some _ => Deferred end.

(** [await_share_ready]: [None] is to go on waiting. *)
Inductive JoinFailure : Type := JoinDegraded | JoinRaced | JoinFailed.
Definition await_share_ready (o : ShareOutcome) (creator_alive : bool) : option (res JoinFailure unit) :=
  match o with
  | ShareReady => Some (Ok tt)
  | ShareDegraded => Some (Err JoinDegraded)
  | ShareRaced => Some (Err JoinRaced)
  | ShareFailed => Some (Err JoinFailed)
  | SharePending => if creator_alive then None else Some (Err JoinFailed)
  end.

(** [retry_create] and the loop of [create_shape_as]: [outcomes] are those of the attempts. *)
Inductive CreateFailure : Type := CreateRaced | RecreateOverBudget | RecreateTimedOut | CreateOther.
Definition CREATE_RACE_ATTEMPTS : Z := 3.
Definition redoable (e : CreateFailure) : bool := match e with CreateOther => false | _ => true end.
Definition retry_create {A} (r : res CreateFailure A) (attempt : Z) : option (res CreateFailure A) :=
  match r with
  | Err e => if redoable e && (attempt <? CREATE_RACE_ATTEMPTS) then None else Some (Err e)
  | Ok a => Some (Ok a)
  end.
Fixpoint create_attempts {A} (attempt : Z) (outcomes : list (res CreateFailure A))
    : option (res CreateFailure A) :=
  match outcomes with
  | [] => None
  | r :: rest => match retry_create r attempt with Some out => Some out | None => create_attempts (attempt + 1) rest end
  end.

(* ------------------------------------------------------------------ *)
(** ** Streams that are gone *)

(** [reconcile_gone_shape_stream]: the verdict, and whether the shape is purged. *)
Inductive GoneVerdict : Type := GvDiscard | GvRetry.
Definition reconcile_gone_shape_stream (path : str) (shutting_down : bool) (head : res str (option bool))
    (st : EngineState) : GoneVerdict * option str :=
  match str_strip_prefix $"shape/" path with
  | None => (GvDiscard, None)
  | Some id =>
      match es_shapes st !! id with
      | Some rec =>
          if negb (bool_decide (rec_stream_path rec = path)) || shutting_down then (GvDiscard, None)
          else match head with
               | Ok (Some false) => (GvRetry, None)
               | Ok _ => (GvDiscard, Some id)
               | Err _ => (GvRetry, None)
               end
      | None => (GvDiscard, None)
      end
  end.

(** [retire_join_target_if_stream_lost]: the shape whose stream is asked for, and the answers of
    its attempts read as lost, not lost or unknown; an [Err] holds whether storage is unavailable. *)
Definition join_probe (sig : str) (st : EngineState) : option (str * str) :=
  id ← es_feed_by_sig st !! sig;
  sh ← es_feed_shares st !! id;
  match fs_ready sh with
  | ShareReady => c ← es_shapes st !! id; Some (id, rec_stream_path c)
  | _ => None
  end.
Fixpoint stream_lost_after (attempt : Z) (answers : list (res bool (option bool))) : option (res unit bool) :=
  match answers with
  | [] => None
  | Ok (Some closed) :: _ => Some (Ok closed)
  | Ok None :: _ => Some (Ok true)
  | Err unavailable :: rest =>
      if (3 <=? attempt + 1) || negb unavailable then Some (Err tt) else stream_lost_after (attempt + 1) rest
  end.

(* ------------------------------------------------------------------ *)
(** ** The retention sweep *)

(** The status of a shape in [retention_sweep]'s snapshot; [bytes] is what its stream was appended,
    [span] the cursor's scan of a dormant one. *)
Definition sweep_shape (now : Z) (bytes : str -> Z) (span : LogPosition -> res str (option Z))
    (en : Engine) (c : ShapeRecord) : SweepShape :=
  let life := en_lives en !! rec_id c in
  let at_rest := match life with
                 | None => (0, None, true)
                 | Some l =>
                     (elapsed now (life_last_read l),
                      match life_state l with LDormant since _ _ => Some (elapsed now since) | _ => None end,
                      match life_state l with LActive | LDormant _ _ _ => false | _ => true end)
                 end in
  let scan := match life with
              | Some (mkLife _ (LDormant _ resume _)) => Some (span resume)
              | _ => None
              end in
  MkSweepShape (rec_id c) (live_claims (rec_id c) (en_state en)) at_rest.1.1 at_rest.1.2 at_rest.2
    (parkable c) (bytes (rec_stream_path c))
    (match scan with Some (Ok o) => o | _ => None end)
    (match scan with Some (Err _) => true | _ => false end)
    (rec_backfill_bytes c).

(** [segment_pins]. *)
Definition life_pin (p : str * ShapeLife) : option SegmentPin :=
  match life_state p.2 with
  | LDormant _ resume _ => Some (mkPin p.1 (lp_segment resume) true)
  | LReactivating resume => Some (mkPin p.1 (lp_segment resume) false)
  | LActive | LDeactivating => None
  end.
Definition consumer_pin (p : str * LogPosition) : SegmentPin :=
  mkPin ($"consumer:" ++ p.1) (lp_segment p.2) true.

(** What the change log's sweep reads beside the engine: the log's segments and the current one,
    the durable checkpoint, the consumers. *)
Record LogSide : Type := mkLogSide {
  ls_segments : btree Z Z;
  ls_current : Z;
  ls_durable : option LogPosition;
  ls_consumers : gmap str LogPosition
}.
Definition segment_pins (en : Engine) (ls : LogSide) : list SegmentPin :=
  omap life_pin (map_to_list (en_lives en)) ++ (consumer_pin <$> map_to_list (ls_consumers ls)).
Definition deletion_floor (ls : LogSide) : Z := default 0 (lp_segment <$> ls_durable ls).

(** Without a sequencer nothing is left to read what is behind the current segment. *)
Definition advance_idle_log (has_sequencer : bool) (ls : LogSide) : option CatalogEvent :=
  let target := pos_start_of (ls_current ls) in
  if has_sequencer then None
  else match ls_durable ls with
       | Some d => match pos_cmp d target with Lt => Some (EvOffset target None) | _ => None end
       | None => Some (EvOffset target None)
       end.

(** The first half of [sweep_change_log]: what it evicts.  The second, over the state it then
    finds: what it deletes; [evicted_all] is that every eviction happened. *)
Definition sweep_evictions (en : Engine) (ls : LogSide) (retain now : Z) : list str :=
  pl_evict (plan_segment_deletion (ls_segments ls) (ls_current ls) (deletion_floor ls)
    (segment_pins en ls) retain now).
Definition deactivating (en : Engine) : bool :=
  existsb (λ p, match life_state p.2 with LDeactivating => true | _ => false end) (map_to_list (en_lives en)).
Definition sweep_deletions (evicted_all : bool) (en : Engine) (ls : LogSide) (now : Z) : list Z :=
  if negb evicted_all || deactivating en then []
  else pl_delete (plan_segment_deletion (ls_segments ls) (ls_current ls) (deletion_floor ls)
         (segment_pins en ls) 0 now).

(** The deletions carried out: those storage accepts are forgotten and recorded. *)
Definition delete_segments (accepted : Z -> bool) (l : list Z) (en : Engine) : Engine :=
  foldl (λ en n, if accepted n then enqueue (EvChangesSegmentDeleted n) en else en) en l.

(** [pin_consumer] up to the wait for its record: refused, nothing to do, or the event. *)
Inductive PinRefusal : Type := BadConsumerId | UnretainedSegment | MovesBackwards.
Definition is_ascii_alphanumeric (c : char) : bool :=
  is_ascii_digit c || ((65 <=? c) && (c <=? 90))%N || ((97 <=? c) && (c <=? 122))%N.
Definition consumer_id_ok (id : str) : bool :=
  negb (bool_decide (id = [])) && (Z.of_nat (length id) <=? 128)
  && forallb (λ c, is_ascii_alphanumeric c || (c =? 95)%N || (c =? 45)%N) id.
Definition pin_consumer (id : str) (position : LogPosition) (ls : LogSide)
    : res PinRefusal (option CatalogEvent) :=
  if negb (consumer_id_ok id) then Err BadConsumerId
  else if (ls_current ls <? lp_segment position)
          || (negb (lp_segment position =? ls_current ls)
              && negb (bool_decide (is_Some (bt_lookup Z.compare (lp_segment position) (ls_segments ls)))))
  then Err UnretainedSegment
  else match ls_consumers ls !! id with
       | Some old => match pos_cmp position old with
                     | Lt => Err MovesBackwards
                     | _ => if bool_decide (old = position) then Ok None
                            else Ok (Some (EvConsumerPinned id position))
                     end
       | None => Ok (Some (EvConsumerPinned id position))
       end.

(** After it: the registry. *)
Definition consumer_pinned (id : str) (position : LogPosition) (ls : LogSide) : LogSide :=
  mkLogSide (ls_segments ls) (ls_current ls) (ls_durable ls) (<[id := position]> (ls_consumers ls)).
Definition consumer_removed (id : str) (ls : LogSide) : LogSide :=
  mkLogSide (ls_segments ls) (ls_current ls) (ls_durable ls) (delete id (ls_consumers ls)).

(* ------------------------------------------------------------------ *)
(** ** The epoch *)

(** [SlotRow], [SlotObservation], as far as the verdict reads them. *)
Record SlotRow : Type := mkSlotRow {
  sr_active : bool;
  sr_active_pid : option Z;
  sr_wal_status : option str;
  sr_plugin : option str
}.
Record SlotObservation : Type := mkObservation {
  so_system_identifier : str;
  so_timeline_id : Z;
  so_slot : option SlotRow
}.

Inductive EpochBreakReason : Type := SlotLost | SlotWalLost | SystemIdentifierMismatch.
Inductive Verdict : Type :=
  | FirstBoot
  | EpochOk (timeline_changed : bool)
  | Busy (active_pid : option Z)
  | Break (reason : EpochBreakReason).

(** [verdict]. *)
Definition verdict (obs : SlotObservation) (bound : option SlotBinding) : Verdict :=
  match bound with
  | None => FirstBoot
  | Some bound =>
      if negb (bool_decide (sl_system_identifier bound = so_system_identifier obs))
      then Break SystemIdentifierMismatch
      else match so_slot obs with
           | None => Break SlotLost
           | Some slot =>
               if negb (bool_decide (sr_plugin slot = Some $"pgoutput")) then Break SlotLost
               else if bool_decide (sr_wal_status slot = Some $"lost") then Break SlotWalLost
               else if sr_active slot && bool_decide (is_Some (sr_active_pid slot))
               then Busy (sr_active_pid slot)
               else EpochOk (negb (sl_timeline_id bound =? so_timeline_id obs))
           end
  end.

(** [boot_epoch_action]. *)
Inductive BootEpochAction : Type := BootRestore | BootPark (r : EpochBreakReason) | BootWait (pid : option Z).
Definition boot_epoch_action (v : Verdict) : BootEpochAction :=
  match v with
  | FirstBoot | EpochOk _ => BootRestore
  | Busy pid => BootWait pid
  | Break reason => BootPark reason
  end.

(* ================================================================== *)
(** * Properties *)

(** ** The span *)

Lemma span_option_result h tail resume l total :
  span_option h tail resume l total = match span_result h tail resume l total with Ok o => o | Err _ => None end.
Proof.
  revert total. induction l as [|n l IH]; intros total; simpl; [done|].
  by destruct (head_bytes h n) as [[head|]|]; simpl.
Qed.

(** The two spans agree, a failed call counting as a missing stream. *)
Lemma spans_agree h tail resume :
  dormant_replay_span h tail resume
  = match dormant_replay_span_result h tail resume with Ok o => o | Err _ => None end.
Proof.
  unfold dormant_replay_span, dormant_replay_span_result. case_match; [done|]. apply span_option_result.
Qed.

(** The bytes of the log from one position to another, [size] being what each segment holds. *)
Definition zsum (l : list Z) : Z := foldr Z.add 0 l.
Definition log_bytes (size : Z -> Z) (from : Z * Z) (to : Z * Z) : Z :=
  zsum (size <$> seqZ from.1 (to.1 - from.1)) + to.2 - from.2.

Lemma zsum_cons x l : zsum (x :: l) = x + zsum l.
Proof. done. Qed.
Lemma zsum_app l k : zsum (l ++ k) = zsum l + zsum k.
Proof. induction l as [|x l IH]; [done|]. cbn [app]. rewrite !zsum_cons, IH. lia. Qed.
Lemma zsum_zero (g : Z -> Z) l : (forall n, n ∈ l -> g n = 0) -> zsum (g <$> l) = 0.
Proof.
  induction l as [|x l IH]; intros Hg; [done|]. rewrite fmap_cons, zsum_cons, Hg, IH; [done| |by left].
  intros n Hn. apply Hg. by right.
Qed.
Lemma zsum_sub (f g : Z -> Z) l : zsum ((λ n, f n - g n) <$> l) = zsum (f <$> l) - zsum (g <$> l).
Proof. induction l as [|x l IH]; [done|]. rewrite !fmap_cons, !zsum_cons, IH. lia. Qed.
Lemma zsum_nonneg (g : Z -> Z) l : (forall n, n ∈ l -> 0 <= g n) -> 0 <= zsum (g <$> l).
Proof.
  induction l as [|x l IH]; intros Hg; [done|]. rewrite fmap_cons, zsum_cons.
  assert (0 <= g x) by (apply Hg; by left). assert (0 <= zsum (g <$> l)); [|lia].
  apply IH. intros n Hn. apply Hg. by right.
Qed.

(** No step saturates while the whole stays in range. *)
Lemma span_result_sum h tail resume size l total :
  (forall n, n ∈ l -> head_bytes h n = Ok (Some (size n)) /\
     segment_start resume n <= segment_end tail n (size n)) ->
  0 <= total ->
  total + zsum ((λ n, segment_end tail n (size n) - segment_start resume n) <$> l) <= u64_max ->
  span_result h tail resume l total
  = Ok (Some (total + zsum ((λ n, segment_end tail n (size n) - segment_start resume n) <$> l))).
Proof.
  revert total. induction l as [|n l IH]; intros total Hl Ht Hu; [simpl; by rewrite Z.add_0_r|]. cbn [span_result].
  destruct (Hl n) as [-> Hle]; [by left|].
  assert (Hr : forall m, m ∈ l -> head_bytes h m = Ok (Some (size m)) /\
    segment_start resume m <= segment_end tail m (size m)) by (intros; apply Hl; by right).
  assert (Hn : 0 <= zsum ((λ m, segment_end tail m (size m) - segment_start resume m) <$> l)).
  { apply zsum_nonneg. intros m Hm. destruct (Hr m Hm). lia. }
  rewrite fmap_cons, zsum_cons in Hu.
  assert (Ha : add_segment tail resume n (size n) total
    = total + (segment_end tail n (size n) - segment_start resume n))
    by (unfold add_segment, sat_add_u64, sat_sub_u64; lia).
  rewrite Ha, IH; [|done|lia|lia]. do 2 f_equal. rewrite fmap_cons, zsum_cons. lia.
Qed.

(** The span admission weighs is the number of bytes of the log from the parked cursor to the
    sequencer's position, when every segment between is there. *)
Theorem span_is_distance h tail resume (size : Z -> Z) r t :
  offset_bytes (lp_offset resume) = Some r -> offset_bytes (lp_offset tail) = Some t ->
  0 <= r -> 0 <= t -> lp_segment resume <= lp_segment tail ->
  (forall n, lp_segment resume <= n <= lp_segment tail -> head_bytes h n = Ok (Some (size n)) /\ 0 <= size n) ->
  (if lp_segment resume =? lp_segment tail then r <= t else r <= size (lp_segment resume)) ->
  log_bytes size (lp_segment resume, r) (lp_segment tail, t) <= u64_max ->
  dormant_replay_span_result h tail resume
  = Ok (Some (log_bytes size (lp_segment resume, r) (lp_segment tail, t))).
Proof.
  intros Er Et Hr Ht Hle Hh Hfirst Hu. set (a := lp_segment resume) in *. set (b := lp_segment tail) in *.
  assert (Hsum : zsum ((λ n, segment_end tail n (size n) - segment_start resume n) <$> segments_between a b)
    = log_bytes size (a, r) (b, t)).
  { rewrite zsum_sub. unfold log_bytes, segments_between. simpl.
    assert (Es : seqZ a (b - a + 1) = seqZ a (b - a) ++ [b]).
    { rewrite (seqZ_app a (b - a) 1) by lia. by replace (a + (b - a)) with b by lia. }
    assert (Ee : zsum ((λ n, segment_end tail n (size n)) <$> seqZ a (b - a + 1)) = zsum (size <$> seqZ a (b - a)) + t).
    { rewrite Es, fmap_app, zsum_app. f_equal.
      - f_equal. apply list_fmap_ext. intros i n Hn%list_elem_of_lookup_2. apply elem_of_seqZ in Hn.
        unfold segment_end. fold b. by rewrite (proj2 (Z.eqb_neq n b)) by lia.
      - cbn [fmap list_fmap]. rewrite zsum_cons. unfold segment_end. fold b. rewrite Z.eqb_refl, Et. simpl. lia. }
    assert (Eb : zsum (segment_start resume <$> seqZ a (b - a + 1)) = r).
    { rewrite seqZ_cons, fmap_cons, zsum_cons by lia.
      rewrite zsum_zero; [unfold segment_start; fold a; rewrite Z.eqb_refl, Er; simpl; lia|].
      intros n Hn%elem_of_seqZ. unfold segment_start. fold a. by rewrite (proj2 (Z.eqb_neq n a)) by lia. }
    rewrite Ee, Eb. lia. }
  unfold dormant_replay_span_result. fold a b. rewrite (proj2 (Z.ltb_ge b a)) by lia.
  rewrite (span_result_sum h tail resume size), Hsum; [done| |lia|by rewrite Hsum].
  intros n Hn%elem_of_seqZ. destruct (Hh n ltac:(lia)) as [Hn1 Hn2]. split; [done|].
  unfold segment_start, segment_end. fold a b. rewrite Er, Et. simpl.
  destruct (Z.eqb_spec n b) as [Eb|], (Z.eqb_spec n a) as [Ea|]; try lia.
  - rewrite Ea in Eb. rewrite Eb, Z.eqb_refl in Hfirst. lia.
  - rewrite Ea in *. destruct (Z.eqb_spec a b); lia.
Qed.

(* ------------------------------------------------------------------ *)
(** ** A wake settles *)

(** A shape that is gone from the engine, its intent in the log and its stream to be retired. *)
Definition gone_from (id path : str) (en en' : Engine) : Prop :=
  es_shapes (en_state en') !! id = None /\ es_feed_shares (en_state en') !! id = None /\
  en_lives en' !! id = None /\ en_log en' = en_log en ++ [EvDropped id] /\ en_dying en' !! id = Some path.

Lemma purge_goes id c en : es_shapes (en_state en) !! id = Some c ->
  gone_from id (rec_stream_path c) en (purge_shape id en).
Proof.
  intros E. unfold purge_shape, drop_record. cbn [en_state with_state with_lives].
  assert (Hf : es_shapes (remove_share id (forget_subscriptions id (en_state en))) = es_shapes (en_state en) /\
    es_feed_shares (remove_share id (forget_subscriptions id (en_state en))) !! id = None).
  { unfold remove_share, forget_subscriptions. destruct (es_feed_shares (en_state en) !! id) eqn:Es; simpl; rewrite Es; simpl;
      [by rewrite lookup_delete_eq|done]. }
  destruct Hf as [Hs Hsh]. rewrite Hs, E. unfold gone_from. simpl.
  split_and!; [apply lookup_delete_eq|done|apply lookup_delete_eq|done|apply lookup_insert_eq].
Qed.

(** A parked shape evicted because its replay cannot run goes, whoever holds it. *)
Lemma evict_parked cfg id reason now c read since resume gate en :
  es_shapes (en_state en) !! id = Some c -> en_lives en !! id = Some (mkLife read (LDormant since resume gate)) ->
  reason = ReplayBudget \/ reason = ChangeLogRetention ->
  evict_shape cfg id reason now en = (true, purge_shape id en).
Proof.
  intros Es El Hr. unfold evict_shape. rewrite Es, El. simpl. by destruct Hr as [-> | ->].
Qed.

Lemma park_then_evict cfg id reason now c read resume gate s en :
  es_shapes (en_state en) !! id = Some c -> en_lives en !! id = Some (mkLife read s) ->
  reason = ReplayBudget \/ reason = ChangeLogRetention ->
  gone_from id (rec_stream_path c) en (erun [AReparked id resume gate now; AEvict cfg id reason now] en).
Proof.
  intros Es El Hr. set (en1 := reparked id resume gate now en).
  assert (El1 : en_lives en1 !! id = Some (mkLife read (LDormant now resume gate)))
    by (unfold en1, reparked, set_life; simpl; by rewrite lookup_alter_eq, El).
  cbn [erun foldl estep]. fold en1. rewrite (evict_parked cfg id reason now c read now resume gate en1 Es El1 Hr).
  apply (purge_goes id c en1 Es).
Qed.

(** C16: The task of a wake always settles the shape it took: awake, with its [Reactivated] in the log;
    parked again where it was, with nothing in the log, when another touch may do better; or gone,
    when no replay can bring it up to date, although joiners may hold claims on it.  Those who
    waited are told which. *)
Theorem wake_settles cfg id resume gate now admission outcome c read en :
  es_shapes (en_state en) !! id = Some c ->
  en_lives en !! id = Some (mkLife read (LReactivating resume)) ->
  let '(acts, published) := wake_acts cfg id resume gate now admission outcome in
  let en' := erun acts en in
  match wake_answer published id en' with
  | Awake => admission = Ok true /\ outcome = Resumed /\
      en_lives en' !! id = Some (mkLife now LActive) /\ en_log en' = en_log en ++ [EvReactivated id]
  | Deferred => (admission = Err HeadUnavailable \/ admission = Ok true /\ outcome = ResumeFailed) /\
      en_lives en' !! id = Some (mkLife read (LDormant now resume gate)) /\ en_log en' = en_log en
  | Recreate => (admission = Err CursorExpired \/ admission = Ok false \/
      admission = Ok true /\ (outcome = BufferOverflow \/ outcome = SegmentGone)) /\
      gone_from id (rec_stream_path c) en en'
  end.
Proof.
  intros Es El.
  assert (Hgone : forall reason, reason = ReplayBudget \/ reason = ChangeLogRetention ->
    gone_from id (rec_stream_path c) en (erun [AReparked id resume gate now; AEvict cfg id reason now] en))
    by (intros; by eapply park_then_evict).
  assert (Hg1 := Hgone ReplayBudget (or_introl eq_refl)).
  assert (Hg2 := Hgone ChangeLogRetention (or_intror eq_refl)). clear Hgone.
  assert (Hpark : en_lives (erun [AReparked id resume gate now] en) !! id = Some (mkLife read (LDormant now resume gate)))
    by (simpl; by rewrite lookup_alter_eq, El).
  destruct admission as [[|]|[|]]; [destruct outcome|..]; cbn [wake_acts]; unfold wake_answer.
  1: { simpl. rewrite lookup_alter_eq, El. done. }
  all: try (rewrite Hpark; split_and!; [tauto|done|done]).
  all: match goal with
       | |- context [erun [_; AEvict _ _ ReplayBudget _] _] => pose proof Hg1 as (_ & _ & Hl & _)
       | _ => pose proof Hg2 as (_ & _ & Hl & _)
       end; rewrite Hl; split; [tauto|done].
Qed.

(* ------------------------------------------------------------------ *)
(** ** The sweeps *)

(** C17: What the change log's sweep deletes nobody can need any more: it is behind the current segment
    and the durable checkpoint, behind every cursor a shape or a consumer still has, and nothing is
    deleted while a cursor is being captured or a planned eviction did not happen. *)
Theorem sweep_keeps_what_is_needed evicted_all en ls now n :
  n ∈ sweep_deletions evicted_all en ls now ->
  evicted_all = true /\ n < ls_current ls /\
  (exists d, ls_durable ls = Some d /\ n < lp_segment d \/ ls_durable ls = None /\ n < 0) /\
  (forall id life, en_lives en !! id = Some life ->
     match life_state life with
     | LActive => True
     | LDeactivating => False
     | LDormant _ resume _ | LReactivating resume => n < lp_segment resume
     end) /\
  (forall id position, ls_consumers ls !! id = Some position -> n < lp_segment position).
Proof.
  unfold sweep_deletions. destruct evicted_all; [|intros ?%not_elem_of_nil; done]. simpl.
  destruct (deactivating en) eqn:Ed; [intros ?%not_elem_of_nil; done|]. intros Hn.
  destruct (plan_segment_deletion_safe (ls_segments ls) (ls_current ls) (deletion_floor ls)
    (segment_pins en ls) 0 now) as (Hd & _ & _). destruct (Hd n Hn) as (Hc & Hf & _).
  assert (Hp : forall p, p ∈ segment_pins en ls -> n < sp_segment p).
  { intros p Hin. unfold plan_segment_deletion in Hn. cbv zeta in Hn. cbn [pl_delete] in Hn.
    apply list_elem_of_filter in Hn as [[Hn _] _].
    assert (Ha : sp_segment p ∈ sp_segment <$>
      filter (λ p, pin_stale (ls_segments ls) (ls_current ls) 0 now p = false) (segment_pins en ls)).
    { apply list_elem_of_fmap_2, list_elem_of_filter. split; [|done]. unfold pin_stale.
      rewrite Z.eqb_refl. by rewrite andb_false_r. }
    revert Hn Ha. generalize (sp_segment <$>
      filter (λ p, pin_stale (ls_segments ls) (ls_current ls) 0 now p = false) (segment_pins en ls)).
    intros l. induction l as [|x l IH]; simpl; intros Hn; [by intros ?%not_elem_of_nil|].
    intros [->|Hx]%elem_of_cons; [lia|]. apply IH; [lia|done]. }
  split_and!; [done|done| | |].
  - unfold deletion_floor in Hf. destruct (ls_durable ls) as [d|]; simpl in Hf; [exists d; by left|].
    exists pos_start. by right.
  - intros id life E. apply elem_of_map_to_list in E. destruct (life_state life) as [| |since resume gate|resume] eqn:Es; [done| | |].
    + unfold deactivating in Ed. apply not_true_iff_false in Ed. apply Ed, existsb_exists.
      exists (id, life). split; [by apply list_elem_of_In|]. simpl. by rewrite Es.
    + apply (Hp (mkPin id (lp_segment resume) true)), elem_of_app. left. apply list_elem_of_omap.
      exists (id, life). split; [done|]. unfold life_pin. simpl. by rewrite Es.
    + apply (Hp (mkPin id (lp_segment resume) false)), elem_of_app. left. apply list_elem_of_omap.
      exists (id, life). split; [done|]. unfold life_pin. simpl. by rewrite Es.
  - intros id position E. apply elem_of_map_to_list in E.
    apply (Hp (consumer_pin (id, position))), elem_of_app. right. by apply list_elem_of_fmap_2.
Qed.

(** The plan and the executor agree: over the state the plan was made from, a planned parking is
    carried out. *)
Lemma planned_parking_happens cfg now bytes span en c :
  es_shapes (en_state en) !! rec_id c = Some c ->
  goes_dormant cfg (sweep_shape now bytes span en c) = true ->
  (deactivate_begin cfg (rec_id c) now en).1 = true.
Proof.
  intros Es H. unfold goes_dormant, sweep_shape, is_dormant in H. simpl in H. bool_prop.
  unfold deactivate_begin. rewrite Es.
  destruct (en_lives en !! rec_id c) as [[read s]|]; [|done]. simpl in *.
  destruct s; simpl in *; try done.
  replace (parkable c) with true by congruence. simpl.
  destruct (Z.ltb_spec 0 (live_claims (rec_id c) (en_state en))); [lia|].
  destruct (Z.ltb_spec (elapsed now read) (idle_timeout cfg)); [lia|done].
Qed.

(* ------------------------------------------------------------------ *)
(** ** The epoch *)

(** A boot restores exactly when nothing is bound yet, or the bound cluster still has a slot of our
    plugin whose WAL is whole and that no other walsender holds; the timeline never decides. *)
Lemma boot_restores_iff obs bound :
  boot_epoch_action (verdict obs bound) = BootRestore <->
  bound = None \/ exists b slot, bound = Some b /\ sl_system_identifier b = so_system_identifier obs /\
    so_slot obs = Some slot /\ sr_plugin slot = Some $"pgoutput" /\ sr_wal_status slot <> Some $"lost" /\
    (sr_active slot = false \/ sr_active_pid slot = None).
Proof.
  unfold verdict. destruct bound as [b|]; simpl; [|naive_solver].
  case_bool_decide as Hs; simpl; [|naive_solver]. destruct (so_slot obs) as [slot|]; [|naive_solver].
  case_bool_decide as Hp; simpl; [|naive_solver]. case_bool_decide as Hw; [naive_solver|].
  assert (Hr : sr_active slot = false \/ sr_active_pid slot = None ->
    Some b = None \/ exists b0 slot0, Some b = Some b0 /\ sl_system_identifier b0 = so_system_identifier obs /\
      Some slot = Some slot0 /\ sr_plugin slot0 = Some $"pgoutput" /\ sr_wal_status slot0 <> Some $"lost" /\
      (sr_active slot0 = false \/ sr_active_pid slot0 = None)) by (intros ?; right; by exists b, slot).
  destruct (sr_active slot) eqn:Ea; simpl; [|split; [intros _; apply Hr; by left|done]].
  destruct (sr_active_pid slot) eqn:Ei; simpl; [|split; [intros _; apply Hr; by right|done]].
  split; [done|]. intros [?|(b0 & slot0 & _ & _ & [= <-] & _ & _ & [?|?])]; congruence.
Qed.

(** An append that finds the stream of a live shape gone gives its batch up only when the shape is
    purged for it, or the process is ending. *)
Lemma live_batch_not_lost path stopping head st id c p :
  str_strip_prefix $"shape/" path = Some id -> es_shapes st !! id = Some c -> rec_stream_path c = path ->
  reconcile_gone_shape_stream path stopping head st = (GvDiscard, p) -> p = Some id \/ stopping = true.
Proof.
  intros E Ec Ep. unfold reconcile_gone_shape_stream. rewrite E, Ec, bool_decide_eq_true_2 by done. simpl.
  destruct stopping; [by right|]. destruct head as [[[|]|]|]; intros [= <-]; by left.
Qed.

(** The loop of attempts always comes to an answer within its three. *)
Lemma create_attempts_end {A} (outcomes : list (res CreateFailure A)) :
  (3 <= length outcomes)%nat -> is_Some (create_attempts 1 outcomes).
Proof.
  destruct outcomes as [|a [|b [|c rest]]]; simpl; intros H; try lia.
  repeat case_match; try done; unfold retry_create in *; repeat case_match; simplify_eq/=; try done;
    bool_prop; unfold CREATE_RACE_ATTEMPTS in *; by rewrite ?andb_false_r in *.
Qed.
