(* ===== verification/Worked.v ===== *)
(** * Worked instances

    One concrete engine: the table [public.orders(id int primary key, status text)], a few shapes
    over it, and closed instances of the development's theorems there.  They show that the
    theorems' hypotheses hold together, and run the definitions on data. *)

From S2P Require Import Prelude BTree Value TableRef Schema Predicate Like PredicateFacts Gate Output.
From S2P Require Import Executors Aggregates Refine ChangeLog Sequencer SequencerFacts Activation.
From S2P Require Import Planning Counts CountsFacts RuntimeAuthority Txn ExecInv TxnFacts Pages PagesFacts.
From stdpp Require Import base option numbers strings gmap fin_maps sorting list.
#[local] Open Scope Z_scope.

(* ------------------------------------------------------------------ *)
(** ** Instances of the interfaces *)

#[local] Instance w_float : FloatText := float_text_numeral.
#[local] Instance w_fault : FaultEnv := FaultNone.
#[local] Instance w_cost : MemoryCost := λ _, 100.
#[local] Instance w_json : SerdeJson := λ j,
  match j with JString s => s | JNumber (NInt z) => Z_to_str z | JBool true => $"true" | _ => [] end.

(** A registry with no subquery node. *)
#[local] Instance w_registry : SubqRegistry unit unit := {|
  reg_touches _ _ := false;
  reg_on_table_delta _ _ _ _ _ _ := Ok (tt, [])
|}.

(* ------------------------------------------------------------------ *)
(** ** A table *)

Definition w_table : TableRef := mkTableRef $"public.orders" 6.
Definition w_def : TableDef := {|
  td_columns := [($"id", {| cd_ty := TyInt; cd_pg_type := Some $"int8"; cd_has_default := false |});
                 ($"status", {| cd_ty := TyText; cd_pg_type := Some $"text"; cd_has_default := false |})];
  td_primary_key := [$"id"];
  td_fingerprint := None
|}.
Definition w_ts : TableSchema := {|
  ts_table := w_table;
  ts_columns := [($"id", TyInt); ($"status", TyText)];
  ts_index := <[$"status" := 1%nat]> {[ $"id" := 0%nat ]};
  ts_pk_index := 0;
  ts_pk_name := $"id";
  ts_pk_type := TyInt;
  ts_pk_cols := [0%nat];
  ts_pg_types := [Some $"int8"; Some $"text"];
  ts_has_defaults := [false; false];
  ts_fingerprint := None
|}.

Lemma w_compiles : TableSchema_from_def w_table w_def = Ok w_ts.
Proof. vm_compute. reflexivity. Qed.

Definition w_row (id : Z) (status : str) : Row := [VInt id; VText status].
Definition w_json_row (id : Z) (status : str) : json :=
  JObject [($"id", JNumber (NInt id)); ($"status", JString status)].

Lemma key_string_inj_witness :
  pk_cells w_ts (w_row 7 $"open") = pk_cells w_ts (w_row 7 $"done").
Proof.
  apply (key_string_inj w_ts _ _ $"7"); try reflexivity;
    (constructor; [|constructor]; exists (VInt 7), TyInt; split_and!; try reflexivity; try discriminate; split; discriminate).
Defined.

Lemma row_from_json_to_json_witness :
  exists m, row_to_json w_ts (w_row 7 $"open") = JObject m /\ row_from_json w_ts m = Ok (w_row 7 $"open").
Proof.
  apply (row_from_json_to_json w_ts (w_row 7 $"open")).
  - apply (bool_decide_unpack _). vm_compute. exact I.
  - repeat constructor; discriminate.
Defined.

Definition w_fp (replident : Z) (pk : option (list str)) : SchemaFingerprint := {|
  fp_columns := [{| fc_name := $"id"; fc_type_oid := 20; fc_typmod := -1 |};
                 {| fc_name := $"status"; fc_type_oid := 25; fc_typmod := -1 |}];
  fp_replident := replident;
  fp_pk := pk
|}.

Lemma still_serves_iff_no_drift_witness :
  still_serves (w_fp 102 (Some [$"id"])) (w_fp 102 None) = true <->
  describe_drift (w_fp 102 (Some [$"id"])) (w_fp 102 None) = [].
Proof.
  apply (still_serves_iff_no_drift (w_fp 102 (Some [$"id"])) (w_fp 102 None));
    apply (bool_decide_unpack _); vm_compute; exact I.
Defined.

(* ------------------------------------------------------------------ *)
(** ** Predicates *)

(** [status = 'open'], [id > 5 AND status = 'open'], and [id > 5 OR status = 'open']. *)
Definition w_open : PredicateJson := PLeaf $"status" OpEq (JString $"open").
Definition w_late : PredicateJson := PLeaf $"id" OpGt (JNumber (NInt 5)).
Definition w_eq_pred : CompiledPredicate := Cmp 1 OpEq (VText $"open").
Definition w_or_pred : CompiledPredicate := COr [Cmp 0 OpGt (VInt 5); w_eq_pred].

Lemma w_pred_compiles :
  compile w_open w_ts = Ok w_eq_pred /\ compile (POr [w_late; w_open]) w_ts = Ok w_or_pred.
Proof. split; reflexivity. Qed.

Lemma equality_template_sound_witness :
  [(1%nat, VText $"open")] <> [] /\ NoDup [(1%nat, VText $"open")].*1 /\
  Forall (λ cv, value_is_null cv.2 = false) [(1%nat, VText $"open")] /\
  forall row ev, matches_ctx w_eq_pred row ev = true <-> eqs_hold row [(1%nat, VText $"open")].
Proof. apply (equality_template_sound w_eq_pred). reflexivity. Defined.

Lemma access_leaf_necessary_witness :
  value_is_null (VInt 5) = false /\
  (matches_ctx (CAnd [Cmp 0 OpGt (VInt 5); Cmp 1 OpLike (VText $"o%")]) (w_row 7 $"open") PanicEval = true ->
   leaf_admits (LLower 0 (VInt 5) true) (w_row 7 $"open")).
Proof.
  apply (access_leaf_necessary (CAnd [Cmp 0 OpGt (VInt 5); Cmp 1 OpLike (VText $"o%")])
           (LLower 0 (VInt 5) true) (w_row 7 $"open") PanicEval).
  reflexivity.
Defined.

Lemma eval_ctx_kleene_witness :
  eval_ctx (CNot (Cmp 1 OpEq VNull)) (w_row 7 $"open") PanicEval = TUnknown.
Proof.
  destruct (eval_ctx_kleene [] (Cmp 1 OpEq VNull) (w_row 7 $"open") PanicEval) as (_ & _ & -> & _ & _ & H).
  by rewrite (H 1%nat OpEq VNull eq_refl).
Defined.

Lemma not_in_disagrees_witness :
  let ev := {| ev_contains := λ _ _, false; ev_has_null := λ _, true |} in
  eval_ctx (CNot (InSubquery 0 $"q" false)) (w_row 7 $"open") ev = TTrue /\
  eval_ctx (InSubquery 0 $"q" true) (w_row 7 $"open") ev = TUnknown.
Proof.
  intros ev. apply (not_in_disagrees 0 $"q" (w_row 7 $"open") ev); reflexivity.
Defined.

Lemma canonical_pred_equiv_witness :
  canonical_pred (PNot (POr [w_late; w_open])) = canonical_pred (PNot (POr [w_open; w_late])).
Proof.
  apply (canonical_pred_equiv (PNot (POr [w_late; w_open])) (PNot (POr [w_open; w_late]))).
  constructor. apply (pe_or _ [w_late; w_open]); [repeat constructor|apply Permutation_swap].
Defined.

Lemma subquery_template_sound_witness :
  let lifted := [($"status", JString $"open")] in
  NoDup lifted.*1 /\ Forall (λ l, is_null l.2 = false) lifted /\
  StronglySorted (λ a b : str, str_leb a b = true) lifted.*1 /\
  (forall ts row, sat ts row (PAnd [w_open; w_late]) <->
     Forall (sat ts row) (map eq_leaf lifted) /\ Forall (sat ts row) [w_late]).
Proof.
  apply (subquery_template_sound w_table $"id" (Some (PAnd [w_open; w_late]))
           (subquery_template w_table $"id" (Some (PAnd [w_open; w_late]))).1.1).
  reflexivity.
Defined.

Lemma candidates_spec_witness :
  $"v" ∈ candidates (foldl index_op index_empty [IxInsert $"v" (Cmp 0 OpGt (VInt 5)); IxInsert $"w" MatchAll;
                                                 IxRemove $"w"]) [(w_row 7 $"open", 1)].
Proof.
  apply (proj2 (candidates_spec [IxInsert $"v" (Cmp 0 OpGt (VInt 5)); IxInsert $"w" MatchAll; IxRemove $"w"]
           [(w_row 7 $"open", 1)] $"v" ltac:(vm_compute; repeat split))).
  exists (Cmp 0 OpGt (VInt 5)). split; [vm_compute; reflexivity|]. simpl.
  exists (w_row 7 $"open"), 1. split; [by left|]. vm_compute. eauto.
Defined.

(* ------------------------------------------------------------------ *)
(** ** Circuit placement *)

Definition w_cs : Constraints := [Some {[vkey (VText $"open")]}].

Lemma plan_circuit_agg_sound_witness :
  exists pred, compile_opt (Some w_open) w_ts = Ok pred /\
    forall row, group_matches w_cs (project row [1%nat]) = matches pred row.
Proof.
  apply (plan_circuit_agg_sound w_ts [1%nat] (Some w_open) w_cs).
  - apply (bool_decide_unpack _). vm_compute. exact I.
  - constructor; [|constructor]. apply (bool_decide_unpack (VNull ∉ {[vkey (VText $"open")]})).
    vm_compute. exact I.
Defined.

(** a null literal defeats circuit placement: [status = null] is planned as a constraint that
    the group of a null status satisfies, so the served COUNT counts those rows, while the compiled
    WHERE is never true. *)
Lemma plan_null_literal :
  let where_ := Some (PLeaf $"status" OpEq JNull) in
  let row := [VInt 7; VNull] in
  plan_circuit_agg w_ts [1%nat] where_ = Some [Some {[vkey VNull]}] /\
  group_matches [Some {[vkey VNull]}] (project row [1%nat]) = true /\
  exists pred, compile_opt where_ w_ts = Ok pred /\ matches pred row = false.
Proof.
  split_and!; [apply (bool_decide_unpack _); vm_compute; exact I..|]. by exists (Cmp 1 OpEq VNull).
Qed.

(* ------------------------------------------------------------------ *)
(** ** An executor with three shapes *)

Definition w_path (sid : str) : str := $"shape/" ++ sid.
Definition w_num (sid : str) : Z := Z.pos (encode sid).

#[local] Instance w_path_inj : Inj (=) (=) w_path.
Proof. intros a b H. by apply app_inv_head in H. Qed.
#[local] Instance w_num_inj : Inj (=) (=) w_num.
Proof. intros a b [= H]. by apply encode_inj in H. Qed.

(** Taken after transaction 100 and while 105 was running. *)
Definition w_gate : SnapshotGate := gate_parse $"100:110:105" $"0/5".

Definition w_begin (e : TableExec) (sid : str) (pred : CompiledPredicate) (kind : CreateKind) : TableExec :=
  begin_shape e sid (w_num sid) (w_path sid) pred None kind.
Definition w_add (e : TableExec) (sid : str) (pred : CompiledPredicate) (kind : CreateKind)
    (seed : option AggTerms) : TableExec :=
  (activate_shape (w_begin e sid pred kind) sid w_gate seed true).1.

(** The tables before and after a row is inserted. *)
Definition w_T0 : gmap str Row := {[ $"3" := w_row 3 $"open" ]}.
Definition w_T1 : gmap str Row := <[ $"7" := w_row 7 $"open" ]> w_T0.

Definition w_sum : CreateKind := CreateAggregate AggSumFn (Some 0%nat).
Definition w_seed : AggTerms := backfill_seed w_eq_pred AggSumFn (Some 0%nat) [[w_row 3 $"open"]].

Definition w_exec1 : TableExec := w_add (TableExec_new w_ts) $"v" w_or_pred CreatePlain None.
Definition w_exec2 : TableExec := w_add w_exec1 $"r" w_eq_pred CreatePlain None.
Definition w_exec : TableExec := w_add w_exec2 $"n" w_eq_pred w_sum (Some w_seed).

Notation w_step := (exec_step (R := unit) (W := unit) w_path w_num).

Lemma w_add_steps e sid pred kind seed : unused e sid -> rtc w_step e (w_add e sid pred kind seed).
Proof.
  intros Hu. eapply rtc_l; [by apply es_begin|]. eapply rtc_l; [apply es_activate|]. apply rtc_refl.
Qed.

Lemma w_unused :
  unused (TableExec_new w_ts) $"v" /\ unused w_exec1 $"r" /\ unused w_exec2 $"n".
Proof. unfold unused. split_and!; vm_compute; reflexivity. Qed.

Lemma w_exec_steps : rtc w_step (TableExec_new w_ts) w_exec.
Proof.
  destruct w_unused as (H1 & H2 & H3).
  etransitivity; [by apply w_add_steps|]. etransitivity; [by apply w_add_steps|]. by apply w_add_steps.
Qed.

Lemma w_exec_wf : exec_wf w_path w_num w_exec.
Proof.
  destruct w_unused as (H1 & H2 & H3). unfold w_exec, w_exec2, w_exec1, w_add, w_begin in *.
  repeat (apply activate_shape_wf, begin_shape_wf); try done; apply _ || apply exec_wf_new.
Qed.

Lemma w_exec_ok :
  exec_ok (te_shapes w_exec) (te_shape_index w_exec) (te_families w_exec) (te_aggregates w_exec)
          (te_agg_index w_exec).
Proof. apply (exec_wf_ok w_path w_num), w_exec_wf. Qed.

Lemma executor_invariant_witness :
  exec_wf w_path w_num w_exec /\
  exec_ok (te_shapes w_exec) (te_shape_index w_exec) (te_families w_exec) (te_aggregates w_exec)
          (te_agg_index w_exec).
Proof. apply (executor_invariant (R := unit) (W := unit) w_path w_num w_ts w_exec). apply w_exec_steps. Defined.

(* ------------------------------------------------------------------ *)
(** ** A change through it *)

(** An envelope of transaction [xid] at the [seq]-th place. *)
Definition w_headers (op xid lsn : str) (seq : Z) (ends : option bool) : EnvelopeHeaders :=
  mkHeaders op (Some xid) None (Some lsn) (Some seq) ends.
Definition w_insert (id : Z) (xid lsn : str) (seq : Z) (ends : option bool) : Envelope :=
  mkEnvelope $"public.orders" (Z_to_str id) (Some (w_json_row id $"open")) None
             (w_headers $"insert" xid lsn seq ends).

Lemma w_T0_ok : table_ok w_ts w_T0.
Proof. unfold w_T0. intros k r [<- <-]%lookup_singleton_Some. vm_compute. reflexivity. Qed.

Lemma w_change xid lsn seq ends : change w_ts (w_insert 7 xid lsn seq ends) w_T0 w_T1.
Proof.
  apply (ch_insert w_ts (w_insert 7 xid lsn seq ends) w_T0 (w_json_row 7 $"open") (w_row 7 $"open") $"7");
    vm_compute; reflexivity.
Qed.

Definition w_env : Envelope := w_insert 7 $"200" $"0/10" 0 (Some true).

Lemma w_registry_answers : registry_answers (R := unit) (W := unit) tt w_ts.
Proof. left. reflexivity. Qed.

Lemma row_shape_refines_witness :
  exists pr,
    process_envelope w_ts false false (te_shapes w_exec) (te_shape_index w_exec) (te_families w_exec)
      (te_aggregates w_exec) (te_agg_index w_exec) tt w_env ∅ = Ok pr /\
    table_ok w_ts w_T1 /\
    forall pred gate cols path, live_shape (te_shapes w_exec) (te_families w_exec) pred gate cols path ->
      exists out, emitted (pr_staged pr) path = emitted ∅ path ++ out /\
        (if already_seeded w_env gate then out = []
         else materialize (filtered w_ts pred cols w_T0) out = filtered w_ts pred cols w_T1).
Proof.
  apply (row_shape_refines w_ts false false _ _ _ _ _ tt w_env ∅ w_T0 w_T1);
    [exact w_exec_ok|exact w_registry_answers|reflexivity|reflexivity|exact w_T0_ok|apply w_change].
Defined.

(** The routed shape is live, and what its stream gets is the new row. *)
Lemma w_live_r :
  live_shape (te_shapes w_exec) (te_families w_exec) w_eq_pred w_gate None $"shape/r".
Proof.
  apply (live_routed _ _ w_eq_pred [(1%nat, VText $"open")] (mkRouted (w_num $"r") $"shape/r" w_gate None)).
  - reflexivity.
  - eexists _, _. split; [vm_compute; reflexivity|]. split; [vm_compute; reflexivity|]. left.
Qed.

Definition w_agg : AggShape :=
  mkAgg w_eq_pred AggSumFn (Some 0%nat) $"shape/n" w_gate w_seed (Some (JNumber (NInt 3))).

Lemma w_agg_at : te_aggregates w_exec !! $"n" = Some w_agg.
Proof. vm_compute. reflexivity. Qed.

Lemma w_typed_row id status : in_i64 id -> typed_row (Some 0%nat) true (w_row id status).
Proof. by intros H _ ci [= <-] _. Qed.
Lemma w_typed0 k r : w_T0 !! k = Some r -> typed_row (Some 0%nat) true r.
Proof. unfold w_T0. intros [<- <-]%lookup_singleton_Some. by apply w_typed_row. Qed.
Lemma w_typed k r : w_T1 !! k = Some r -> typed_row (Some 0%nat) true r.
Proof.
  unfold w_T1. intros [[<- <-]|[_ H]]%lookup_insert_Some; [by apply w_typed_row|by eapply w_typed0].
Qed.

Lemma w_chunk : concat [[w_row 3 $"open"]] ≡ₚ (map_to_list w_T0).*2.
Proof. unfold w_T0. by rewrite map_to_list_singleton. Qed.

Lemma w_foldable0 : foldable (Some 0%nat) true w_T0.
Proof. split; [vm_compute; reflexivity|exact w_typed0]. Qed.
Lemma w_foldable1 : foldable (Some 0%nat) true w_T1.
Proof. split; [vm_compute; reflexivity|exact w_typed]. Qed.


(** A library-mode delete that names only the key. *)
Definition w_blind : Envelope :=
  mkEnvelope $"public.orders" $"3" None None (mkHeaders $"delete" None None None None None).

Lemma absolute_refines_witness :
  exists pr,
    process_envelope w_ts false true (te_shapes w_exec) (te_shape_index w_exec) (te_families w_exec)
      (te_aggregates w_exec) (te_agg_index w_exec) tt w_blind ∅ = Ok pr /\
    forall pred gate cols path, live_shape (te_shapes w_exec) (te_families w_exec) pred gate cols path ->
      exists out, emitted (pr_staged pr) path = emitted ∅ path ++ out /\
        (if already_seeded w_blind gate then out = []
         else forall m, (forall k, k <> $"3" -> m !! k = filtered w_ts pred cols w_T0 !! k) ->
              materialize m out = filtered w_ts pred cols (delete $"3" w_T0)).
Proof.
  apply (absolute_refines w_ts false _ _ _ _ _ tt w_blind ∅ w_T0 (delete $"3" w_T0));
    [exact w_exec_ok|exact w_registry_answers|reflexivity|].
  by apply (bc_delete w_ts w_blind).
Defined.

(* ------------------------------------------------------------------ *)
(** ** Two shapes being created *)

(** Begun, then two changes buffered: one the snapshot holds, one it does not. *)
Definition w_seen : Envelope := w_insert 3 $"90" $"0/4" 0 (Some true).
Definition w_buffer (e : TableExec) (env : Envelope) : TableExec :=
  set_pending e ((λ p, (buffer_pending p env 0).1) <$> te_pending e).
Definition w_creating (kind : CreateKind) : TableExec :=
  w_buffer (w_buffer (w_begin w_exec $"p" w_eq_pred kind) w_seen) w_env.
Definition w_creating_p (kind : CreateKind) : PendingShape :=
  mkPending (w_num $"p") $"shape/p" w_eq_pred None kind [w_seen; w_env] 200 false.

Lemma w_creating_at kind : te_pending (w_creating kind) !! $"p" = Some (w_creating_p kind).
Proof. vm_compute. reflexivity. Qed.

Lemma w_change_seen : change w_ts w_seen ∅ w_T0.
Proof.
  apply (ch_insert w_ts w_seen ∅ (w_json_row 3 $"open") (w_row 3 $"open") $"3"); vm_compute; reflexivity.
Qed.

Lemma w_changes_seen (P : gmap str Row -> Prop) : P ∅ -> P w_T0 -> changes w_ts P [w_seen] ∅ w_T0.
Proof. intros H0 H1. eapply chs_cons; [done|apply w_change_seen|by apply chs_nil]. Qed.
Lemma w_changes_unseen (P : gmap str Row -> Prop) : P w_T0 -> P w_T1 -> changes w_ts P [w_env] w_T0 w_T1.
Proof. intros H0 H1. eapply chs_cons; [done|apply w_change|by apply chs_nil]. Qed.

Lemma w_gate_seen : Forall (λ e, already_seeded e w_gate = true) [w_seen].
Proof. by repeat constructor. Qed.
Lemma w_gate_unseen : Forall (λ e, already_seeded e w_gate = false) [w_env].
Proof. by repeat constructor. Qed.

Lemma w_chunks_of : chunks_of w_T0 [[w_row 3 $"open"]].
Proof.
  intros r. cbn [concat app]. rewrite list_elem_of_singleton. unfold w_T0. split.
  - intros ->. exists $"3". apply lookup_singleton_eq.
  - by intros [k [_ <-]%lookup_singleton_Some].
Qed.

Lemma w_foldable_nil : foldable (Some 0%nat) true ∅.
Proof. split; [vm_compute; reflexivity|]. intros k r H. by rewrite lookup_empty in H. Qed.


Lemma aggregate_activation_converges_witness :
  exists e' agg first rest,
    activate_shape (w_creating w_sum) $"p" w_gate
      (Some (backfill_seed w_eq_pred AggSumFn (Some 0%nat) [[w_row 3 $"open"]])) true =
      (e', Ok [($"shape/p", first :: rest)]) /\
    te_aggregates e' = <[$"p" := agg]> (te_aggregates (w_creating w_sum)) /\
    ag_pred agg = w_eq_pred /\ ag_func agg = AggSumFn /\ ag_col agg = Some 0%nat /\
    terms_of AggSumFn (Some 0%nat) true (matching_rows w_eq_pred w_T1) (ag_terms agg) /\
    agg_result AggSumFn (Some 0%nat) (matching_rows w_eq_pred w_T1) (agg_value agg).
Proof.
  apply (aggregate_activation_converges (w_creating w_sum) $"p" (w_creating_p w_sum) AggSumFn (Some 0%nat)
           true w_gate [[w_row 3 $"open"]] [w_seen] [w_env] ∅ w_T0 w_T1);
    [apply w_creating_at|reflexivity..| |
    |by apply w_changes_seen; [exact w_foldable_nil|exact w_foldable0]
    |by apply w_changes_unseen; [exact w_foldable0|exact w_foldable1]
    |exact w_gate_seen|exact w_gate_unseen|exact w_chunk]; [done|].
  intros k r H. by rewrite lookup_empty in H.
Defined.

(* ------------------------------------------------------------------ *)
(** ** A served COUNT *)

(** The pipeline of [public.orders] groups by [status]; it is seeded while the table is empty. *)
Definition w_arr (d : MapCounts) : Arrangements MapCounts :=
  mkArr {[ w_table := [1%nat] ]} {[ w_table ]} None d.
Definition w_served : TableExec :=
  set_circuit_aggs w_exec {[ $"c" := mkCircuitAgg $"shape/c" w_cs 0 ]}.
Definition w_execs : gmap str TableExec := {[ $"public.orders" := w_served ]}.
Definition w_sd : StampedDelta := mkStamped w_table [(w_row 3 $"open", 1)] (Some 16) (Some 0).

Lemma w_table_wf : TableRef_wf w_table.
Proof.
  exists $"public", $"orders". split_and!; [| |discriminate|reflexivity];
    (split_and!; [discriminate|apply (bool_decide_unpack _); vm_compute; exact I..]).
Qed.

Lemma w_no_null : no_null w_cs.
Proof.
  constructor; [|constructor]. apply (bool_decide_unpack (VNull ∉ {[vkey (VText $"open")]})).
  vm_compute. exact I.
Qed.

Lemma w_empty_ok : table_ok w_ts ∅.
Proof. intros k r H. by rewrite lookup_empty in H. Qed.

Lemma w_serves : serves (w_arr ∅) w_execs w_ts w_table [1%nat] ∅ $"c" $"shape/c" w_cs w_eq_pred.
Proof.
  split.
  - apply map_Forall_singleton. exact w_table_wf.
  - reflexivity.
  - intros g. reflexivity.
  - exact w_empty_ok.
  - vm_compute. reflexivity.
  - unfold w_execs. intros n e s a [<- <-]%lookup_singleton_Some Ha _.
    change (te_circuit_aggs w_served) with ({[ $"c" := mkCircuitAgg $"shape/c" w_cs 0 ]} : gmap str CircuitAgg) in Ha.
    by apply lookup_singleton_Some in Ha as [<- _].
  - exists w_served. split; vm_compute; reflexivity.
Qed.

Lemma w_feed : table_feed w_ts w_table ∅ [w_sd] w_T0.
Proof.
  eapply (tf_here _ _ w_sd); [reflexivity| |constructor]. apply (d_insert w_ts ∅ (w_row 3 $"open") $"3").
  - reflexivity.
  - apply lookup_empty.
Qed.


(** The pipeline of the table with one row. *)
Definition w_counts : MapCounts := mc_feed ∅ (w_table, [([VText $"open"], 1)]).

Lemma w_tracks : tracks w_counts w_table [1%nat] w_T0.
Proof.
  intros g. unfold w_counts, w_T0. change (cp_weight (D := MapCounts)) with mc_weight. rewrite mc_feed_weight.
  change {[ $"3" := w_row 3 $"open" ]} with (<[ $"3" := w_row 3 $"open" ]> (∅ : gmap str Row)).
  rewrite count_where_insert by apply lookup_empty. rewrite bool_decide_eq_true_2 by done. cbn [fst snd].
  rewrite weight_where_cons. cbn [fst snd].
  change (project (w_row 3 $"open") [1%nat]) with [VText $"open"].
  change (mc_weight ∅ w_table g) with 0. change (count_where (λ r, same_group g (project r [1%nat])) ∅) with 0.
  change (weight_where (same_group g) []) with 0. lia.
Qed.

Lemma create_circuit_agg_exact_witness :
  create_circuit_agg (Some (w_arr w_counts)) w_execs ∅ w_table $"d" $"shape/d" w_cs true =
  (<[ $"public.orders" := set_circuit_aggs w_served
        (<[ $"d" := mkCircuitAgg $"shape/d" w_cs 1 ]> (te_circuit_aggs w_served)) ]> w_execs,
   Ok (agg_envelope w_table (JNumber (NInt 1)) 1 None None)).
Proof.
  exact (create_circuit_agg_exact (w_arr w_counts) w_execs w_execs ∅ w_table [1%nat] w_ts w_T0 $"d" $"shape/d"
    (Some w_open) w_cs w_eq_pred w_served eq_refl w_no_null eq_refl eq_refl w_tracks eq_refl eq_refl).
Defined.

(* ------------------------------------------------------------------ *)
(** ** Runtime receipts *)

(** Two identifiers. *)
Definition w_uuid (b : bool) : str :=
  if b then $"00000000-0000-4000-8000-000000000001" else $"00000000-0000-4000-8000-000000000002".
#[local] Instance w_uuids : UuidText bool.
Proof.
  refine {| uuid_parse s := if bool_decide (s = w_uuid true) then Some true
                            else if bool_decide (s = w_uuid false) then Some false else None;
            uuid_to_string := w_uuid |}; intros []; vm_compute; reflexivity.
Defined.

Definition w_marker : AuthorityMarker := mkMarker (w_uuid true) (w_uuid false) (replicate 64 97%N).
Definition w_fence : RuntimeFence := mkFence w_marker true.

Lemma fence_envelope_roundtrip_witness : from_envelope (into_envelope w_fence) = Some w_fence.
Proof. apply (fence_envelope_roundtrip w_fence). split_and!; vm_compute; reflexivity. Defined.

Definition w_cache : RuntimeReceipts (U := bool) := mkReceipts true ∅ [].

Lemma receipt_cache_sound_witness :
  let r' := publish w_cache true [w_fence] $"0/10" 5 in
  cache_ok 5 r' /\ (length (rr_fifo r') <= RECEIPT_CAPACITY)%nat /\
  (forall m x, rr_receipts r' !! m = Some x ->
     rr_receipts w_cache !! m = Some x \/
     x = ($"0/10", 5) /\ true = rr_incarnation w_cache /\
     exists f, f ∈ [w_fence] /\ rf_marker f = m /\ rf_incarnation f = rr_incarnation w_cache) /\
  (forall answer, (receipt_get w_cache w_marker 5).2 = Some answer ->
     exists inserted, rr_receipts w_cache !! w_marker = Some (answer, inserted) /\
                      5 - inserted < RECEIPT_TTL).
Proof.
  apply (receipt_cache_sound w_cache true [w_fence] $"0/10" 0 5 w_marker); [|lia].
  split; [apply (invalidate_ok true w_cache)|constructor|].
  intros m x H. discriminate H.
Defined.

(* ------------------------------------------------------------------ *)
(** ** A transaction *)

Definition w_en : Env := mkEnv {[ w_table := w_ts ]} ∅ false false 0.
Definition w_oc : Outcome := mkOutcome true true 5.
Definition w_seq : SeqState (R := unit) (W := unit) (D := MapCounts) (U := bool) :=
  mkSeq {[ $"public.orders" := w_exec ]} tt [] (Some (4, 0)) None ∅ w_cache (mkProgress 0 ∅ None) ∅ None false.

(** Transaction 200 inserts rows 7 and 8. *)
Definition w_txn : list Envelope :=
  [w_insert 7 $"200" $"0/10" 0 None; w_insert 8 $"200" $"0/10" 1 (Some true)].
Definition w_T2 : gmap str Row := <[ $"8" := w_row 8 $"open" ]> w_T1.

Lemma w_only n e : sq_execs w_seq !! n = Some e -> n = $"public.orders" /\ e = w_exec.
Proof. unfold w_seq. cbn [sq_execs]. by intros [<- <-]%lookup_singleton_Some. Qed.

Lemma w_execs_ok : execs_ok w_en (sq_execs w_seq) $"public.orders" $"shape/r".
Proof.
  split; intros n e [-> ->]%w_only.
  - exact w_exec_ok.
  - exists w_table. split; vm_compute; reflexivity.
  - done.
  - intros (sid & agg & Ha & _). revert Ha. change (te_circuit_aggs w_exec) with (∅ : gmap str CircuitAgg).
    by rewrite lookup_empty.
Qed.

Lemma w_txn_changes : txn_changes w_en $"public.orders" w_ts w_txn w_T0 w_T2.
Proof.
  eapply tc_here; [reflexivity|apply w_change|]. eapply tc_here; [reflexivity| |apply tc_nil].
  apply (ch_insert w_ts _ w_T1 (w_json_row 8 $"open") (w_row 8 $"open") $"8"); vm_compute; reflexivity.
Qed.

Lemma w_all_answer (reg : unit) ts : registry_answers (R := unit) (W := unit) reg ts.
Proof. left. reflexivity. Qed.

Lemma txn_row_shape_refines_witness :
  exists s' out exec', run_txn w_en w_oc w_seq w_txn = (s', None) /\ table_ok w_ts w_T2 /\
    default [] (sq_streams s' !! $"shape/r") = default [] (sq_streams w_seq !! $"shape/r") ++ out /\
    (if gate_skips (change_of [] (Some $"200") (Some $"0/10")) w_gate then out = []
     else materialize (filtered w_ts w_eq_pred None w_T0) out = filtered w_ts w_eq_pred None w_T2) /\
    sq_execs s' !! $"public.orders" = Some exec' /\
    live_shape (te_shapes exec') (te_families exec') w_eq_pred w_gate None $"shape/r".
Proof.
  apply (txn_row_shape_refines w_all_answer w_en w_oc w_seq w_txn $"public.orders" $"shape/r" w_ts w_exec
           w_eq_pred w_gate None (Some $"200") (Some $"0/10") w_T0 w_T2);
    [reflexivity|reflexivity|discriminate|discriminate|exact w_execs_ok|reflexivity|reflexivity|exact w_live_r
    |by repeat constructor|by repeat split|exact w_T0_ok|exact w_txn_changes|reflexivity].
Defined.

Lemma redelivered_txn_noop_witness :
  run_txn w_en w_oc (run_txn w_en w_oc w_seq w_txn).1 w_txn = ((run_txn w_en w_oc w_seq w_txn).1, None).
Proof.
  apply (redelivered_txn_noop w_en w_oc (run_txn w_en w_oc w_seq w_txn).1 w_txn).
  - by repeat constructor.
  - assert (E : sq_arr (run_txn w_en w_oc w_seq w_txn).1 = None) by (vm_compute; reflexivity).
    intros arr H. by rewrite E in H.
Defined.

(** A row that is not of its table. *)
Definition w_bad : Envelope :=
  mkEnvelope $"public.orders" $"9" (Some JNull) None (w_headers $"insert" $"201" $"0/20" 0 (Some true)).

Lemma failed_txn_atomic_witness :
  let s' := (run_txn w_en w_oc w_seq [w_bad]).1 in
  sq_highwater s' = sq_highwater w_seq /\ sq_source_receipts s' = sq_source_receipts w_seq /\
  sq_last_receipt s' = sq_last_receipt w_seq /\
  sq_streams s' = sq_streams w_seq /\ sq_arr s' = sq_arr w_seq /\ sq_receipts s' = sq_receipts w_seq /\
  sq_progress s' = sq_progress w_seq.
Proof.
  apply (failed_txn_atomic w_en w_oc w_seq [w_bad] _ (EnvelopeFailed $"envelope row is not an object")).
  reflexivity.
Defined.

(* ------------------------------------------------------------------ *)
(** ** Pages *)

(** The log: transaction 200, then transaction 201; a first read stops inside the first one, a
    second brings the rest. *)
Definition w_txn' : list Envelope := [w_insert 9 $"201" $"0/20" 0 (Some true)].
Definition w_log : list (list Envelope) := [w_txn; w_txn'].
Definition w_read (envs : list Envelope) (next : str) : ReadResult := mkRead envs (Some next) false.
Definition w_reads : list (MapStore * Z * ReadResult) :=
  [(∅, 5000, w_read (take 1 w_txn) $"1"); (∅, 9000, w_read (drop 1 w_txn ++ w_txn') $"3")].
Definition w_loop : Loop (R := unit) (W := unit) (D := MapCounts) (U := bool) :=
  mkLoop w_seq (mkPos 0 $"0") None [] None (mkPos 0 $"0") (mkPos 0 $"0", None) 0 [] None.

Lemma w_txn_wf : txn_wf (Some $"200", Some $"0/10") w_txn.
Proof.
  split.
  - by repeat constructor.
  - intros [|[|i]] e H; try discriminate H; injection H as <-; by eexists.
  - intros [|[|i]] [|[|j]] a b x y Hij Ha Hb Hx Hy; try lia; try discriminate Ha; try discriminate Hb.
    injection Ha as <-; injection Hb as <-. injection Hx as <-; injection Hy as <-. done.
  - exists [w_insert 7 $"200" $"0/10" 0 None], (w_insert 8 $"200" $"0/10" 1 (Some true)).
    split_and!; [done..|]. by repeat constructor.
Qed.

Lemma w_txn_wf' : txn_wf (Some $"201", Some $"0/20") w_txn'.
Proof.
  split.
  - by repeat constructor.
  - intros [|i] e H; try discriminate H; injection H as <-; by eexists.
  - intros [|i] [|j] a b x y Hij Ha Hb Hx Hy; try lia; discriminate Hb.
  - exists [], (w_insert 9 $"201" $"0/20" 0 (Some true)). by split_and!.
Qed.

Lemma w_log_ok : log_ok None w_log.
Proof.
  eexists. split; [exact w_txn_wf|]. split; [done|]. eexists. split; [exact w_txn_wf'|]. by split.
Qed.

Definition w_end : Loop := pages w_en (λ _, w_oc) w_loop w_reads.

Lemma pages_run_transactions_witness :
  exists m part, concat w_log = concat (take m w_log) ++ part /\
    proper_part part (drop m w_log) /\
    run_txns w_en (λ _, w_oc) w_seq (take m w_log) = (lo_seq w_end, lo_failed w_end) /\
    (lo_failed w_end = None -> lo_held w_end = part).
Proof.
  apply (pages_run_transactions w_en (λ _, w_oc) w_loop w_reads w_log []);
    [exact w_log_ok|reflexivity|reflexivity|reflexivity].
Defined.

(** What the log holds from each position. *)
Definition w_from (p : LogPosition) : list Envelope :=
  if bool_decide (lp_offset p = $"0") then concat w_log
  else if bool_decide (lp_offset p = $"1") then drop 1 (concat w_log) else [].

Lemma checkpoints_lose_nothing_witness :
  Forall (checkpoint_ok w_from w_en (λ _, w_oc) w_seq w_log) (lo_checkpoints (stop false w_end)).
Proof.
  apply (checkpoints_lose_nothing w_from w_en (λ _, w_oc) w_loop w_reads w_log);
    [exact w_log_ok|reflexivity..|]. split; [reflexivity|]. split; [by intros|].
  assert (E : lo_failed (page w_en (λ _, w_oc) ∅ 5000 w_loop (w_read (take 1 w_txn) $"1")) = None)
    by (vm_compute; reflexivity).
  rewrite E. split; [vm_compute; reflexivity|]. split; [by intros|]. by case_match.
Defined.

Lemma reattach_redelivery_witness :
  reattach (take 1 w_txn) (drop 0 w_txn ++ w_txn') = (w_txn ++ w_txn', Some (Some $"200", Some $"0/10")).
Proof.
  apply (reattach_redelivery (Some $"200", Some $"0/10") w_txn 0 0 w_txn');
    [exact w_txn_wf| |lia|vm_compute; lia].
  intros e [= <-]. discriminate.
Defined.

(* ------------------------------------------------------------------ *)
(** ** Segment deletion *)

(** Three segments, a checkpoint in the last, and an old pin on the second. *)
Definition w_segments : list (Z * Z) := [(0, 100); (1, 200); (2, 300)].

Lemma plan_segment_deletion_safe_witness :
  let plan := plan_segment_deletion w_segments 2 2 [mkPin $"old" 1 true] 50 1000 in
  (0 < 2 /\ 0 < 2 /\ (forall p, p ∈ [mkPin $"old" 1 true] -> sp_segment p <= 0 ->
     sp_shape_id p ∈ pl_evict plan /\ sp_evictable p = true /\
     exists at_, bt_lookup Z.compare (sp_segment p + 1) w_segments = Some at_ /\
                 50 <= sat_sub_u64 1000 at_)).
Proof.
  apply (proj1 (plan_segment_deletion_safe w_segments 2 2 [mkPin $"old" 1 true] 50 1000) 0).
  apply (bool_decide_unpack _). vm_compute. exact I.
Defined.
