(* ===== verification/WorkedIngest.v ===== *)
(** * Worked instances of the ingestor

    The table of [Worked] on the wire: the bytes of a relation message and of three inserts in two
    transactions, decoded, buffered, appended, and read back by the sequencer of [Worked]. *)

From S2P Require Import Prelude BTree Value TableRef Schema Predicate Like PredicateFacts Gate Output.
From S2P Require Import Executors Aggregates Refine ChangeLog Sequencer SequencerFacts Activation.
From S2P Require Import Planning Counts CountsFacts RuntimeAuthority Txn ExecInv TxnFacts Pages PagesFacts.
From S2P Require Import TxnBuffer TxnBufferFacts Pgoutput Ingest IngestFacts Replicator EndToEnd Worked.
From stdpp Require Import base option numbers strings gmap fin_maps sorting list.
#[local] Open Scope Z_scope.

#[local] Existing Instances w_float w_fault w_cost w_json w_registry w_uuids.

(** ** The schema of the table *)

Lemma w_ts_ok : schema_ok w_ts.
Proof.
  apply (from_def_ok w_table w_def); [exact w_compiles|].
  apply (bool_decide_unpack _). vm_compute. exact I.
Qed.

Definition i_columns : list str := [$"id"; $"status"].
Definition i_tables : gmap TableRef TableSchema := {[ w_table := w_ts ]}.
Definition i_relation : Message :=
  MRelation 42 $"public" $"orders" 102 [MkRelColumn $"id" 20 (-1) true; MkRelColumn $"status" 25 (-1) false].
Definition i_dec : Decoder (U := bool) :=
  (on_relation i_tables 42 $"public" $"orders" 102
     [MkRelColumn $"id" 20 (-1) true; MkRelColumn $"status" 25 (-1) false] decoder_new).1.
Definition i_insert (id : Z) : Message := MInsert 42 [CText (Z_to_str id); CText $"open"].


Lemma i_message_ok : message_ok (i_insert 7).
Proof.
  split; [split; [discriminate|reflexivity]|]. split; [|reflexivity].
  constructor; [by apply low_text_ok|]. constructor; [by apply low_text_ok|constructor].
Qed.

Lemma i_shows : tuple_shows w_ts i_columns [CText (Z_to_str 7); CText $"open"] (w_row 7 $"open").
Proof.
  split; [apply (bool_decide_unpack _); vm_compute; exact I|]. split; [reflexivity|].
  intros [|[|i]] name ty v Hi Hv; [| |discriminate Hi].
  - injection Hi as <- <-. injection Hv as <-. exists 0%nat, (CText (Z_to_str 7)). by split_and!.
  - injection Hi as <- <-. injection Hv as <-. exists 1%nat, (CText $"open"). by split_and!.
Qed.

Lemma i_wire : wire_change w_ts i_columns w_T0 (i_insert 7) $"7" w_T1.
Proof.
  apply (wc_insert w_ts i_columns w_T0 42 _ (w_row 7 $"open") $"7"); [exact i_shows| |reflexivity|].
  - intros [|[|i]] f Hin Hf; try discriminate Hf.
  - reflexivity.
Qed.

Lemma wire_change_envelope_witness :
  exists env, (Pgoutput.decode (put_message (i_insert 7)) = Ok (i_insert 7) /\
               on_change i_tables (i_insert 7) i_dec = DecEnv env) /\
    change w_ts env w_T0 w_T1 /\ unstamped env /\ e_key env = $"7" /\ e_type env = $"public.orders".
Proof.
  apply (wire_change_envelope i_tables i_dec w_table w_ts i_columns w_T0 w_T1 (i_insert 7) 42 $"7").
  - reflexivity.
  - exact w_ts_ok.
  - apply (bool_decide_unpack _). vm_compute. exact I.
  - reflexivity.
  - vm_compute. reflexivity.
  - exact i_message_ok.
  - exact i_wire.
Defined.

(** ** The stream *)

(** A serializer for the three rows; nothing spills. *)
Definition i_built (id : Z) : Envelope :=
  mkEnvelope $"public.orders" (Z_to_str id) (Some (w_json_row id $"open")) None
             (mkHeaders $"insert" None None None None None).
#[local] Instance i_json : EnvelopeJson :=
  {| env_to_vec := e_key;
     env_from_slice bs := snd <$> list_find (λ e, e_key e = bs) (i_built <$> [7; 8; 9]) |}.
#[local] Instance i_process : SpillEnv := {| process_id := 7; default_spill_dir := $"/tmp" |}.

Definition i_config : TxnBufferConfig := MkTxnBufferConfig 0 1000 $"/tmp".
Definition i_out : Outside := MkOutside i_tables true None (λ _, None).
Definition i_data (id : Z) : ReplicationEvent := EvXLogData (put_message (i_insert id)).
Definition i_events : list (Outside * ReplicationEvent) :=
  (λ ev, (i_out, ev)) <$>
  [EvBegin 200; EvXLogData (put_message i_relation); i_data 7; i_data 8; EvCommit 16 24;
   EvKeepAlive 30; EvBegin 201; i_data 9; EvCommit 32 40].
Definition i_connect : Stream (U := bool) := connect true $"0/0" 0.
Definition i_end : Turn (U := bool) := stream i_config i_events i_connect.

Lemma i_log : sr_log (turn_state i_end) = w_log.
Proof. vm_compute. reflexivity. Qed.

Lemma i_transactions :
  transactions i_events (sr_dec i_connect) None
  = [(200, 16, [i_built 7; i_built 8]); (201, 32, [i_built 9])].
Proof. vm_compute. reflexivity. Qed.

Lemma i_stable : stable_stream i_events (sr_dec i_connect) None.
Proof.
  unfold stable_stream. rewrite i_transactions.
  assert (H : forall id, id ∈ [7; 8; 9] -> json_stable (i_built id)).
  { intros id Hid. rewrite !elem_of_cons, elem_of_nil in Hid.
    destruct Hid as [->|[->|[->|[]]]]; (split; [vm_compute; reflexivity|]);
      apply (bool_decide_unpack _); vm_compute; exact I. }
  pose proof (H 7 ltac:(left)) as H7. pose proof (H 8 ltac:(right; left)) as H8.
  pose proof (H 9 ltac:(right; right; left)) as H9.
  apply Forall_cons; split; [by apply Forall_cons; split; [|apply Forall_singleton]|].
  by apply Forall_singleton, Forall_singleton.
Qed.

Lemma i_cost (e : Envelope) : 0 <= envelope_memory_bytes e.
Proof. vm_compute. discriminate. Qed.

Lemma wire_to_sequencer_witness :
  exists n m part,
    let log := on_log <$> nonempty (take n (transactions i_events (sr_dec i_connect) None)) in
    concat w_log = concat (take m log) ++ part /\ proper_part part (drop m log) /\
    run_txns w_en (λ _, w_oc) w_seq (take m log) = (lo_seq w_end, lo_failed w_end) /\
    (lo_failed w_end = None -> lo_held w_end = part) /\
    (([] : list Envelope) = [] -> take m log = log) /\
    (Forall (λ oe, ou_current oe.1 = true) i_events ->
       nonempty (take n (transactions i_events (sr_dec i_connect) None))
       = nonempty (transactions i_events (sr_dec i_connect) None)).
Proof.
  apply (wire_to_sequencer i_config i_events true $"0/0" 0 w_en (λ _, w_oc) w_loop w_reads []).
  - exact i_cost.
  - exact i_stable.
  - change (sr_dec (connect true _ 0)) with (sr_dec i_connect). rewrite i_transactions.
    apply (bool_decide_unpack _). vm_compute. exact I.
  - intros H. assert (E : exists s, i_end = Ended s) by (eexists; vm_compute; reflexivity).
    destruct E as [s E]. unfold i_end, i_connect in E. by rewrite E in H.
  - reflexivity.
  - reflexivity.
  - change (stream i_config i_events (connect true $"0/0" 0)) with i_end. rewrite i_log. reflexivity.
Defined.

(** The second commit is acknowledged once its chunk is on the log. *)
Definition i_before : Stream (U := bool) := turn_state (stream i_config (take 8 i_events) i_connect).

Definition i_open : TxnBuffer :=
  MkTxnBuffer 201 i_config [i_built 9] 100 None 1 100 23 None.

Lemma i_open_rep : buf_rep i_open [i_built 9].
Proof. split; try reflexivity; [by intros _ ?|by intros [? ?]]. Qed.

Lemma i_before_open : sr_txn i_before = Some i_open.
Proof. vm_compute. reflexivity. Qed.

Lemma i_holds : holds i_config (sr_txn i_before) (Some (201, [i_built 9])).
Proof. rewrite i_before_open. split; [exact i_open_rep|split; reflexivity]. Qed.

Lemma acknowledged_is_appended_witness :
  exists s', turn i_out (EvCommit 32 40) i_config i_before = Next s' /\
    ((exists lsn end_lsn xid es part, EvCommit 32 40 = EvCommit lsn end_lsn /\
        Some (201, [i_built 9]) = Some (xid, es) /\
        sr_acked s' = Some end_lsn /\ sr_log s' = sr_log i_before ++ part /\
        concat part = on_log (xid, lsn, es)) \/
     (exists wal_end, EvCommit 32 40 = EvKeepAlive wal_end /\ Some (201, [i_built 9]) = None /\
        sr_acked s' = Some wal_end /\ sr_log s' = sr_log i_before)).
Proof.
  apply (acknowledged_is_appended i_config i_cost i_out (EvCommit 32 40)
           i_before (Some (201, [i_built 9])) (turn i_out (EvCommit 32 40) i_config i_before)).
  - exact i_holds.
  - pose proof i_stable as H. unfold stable_stream in H. rewrite i_transactions in H.
    by apply Forall_cons in H as [_ [H _]%Forall_cons].
  - reflexivity.
  - vm_compute. discriminate.
Defined.
