(* ===== verification/WorkedSubq.v ===== *)
(** * Worked instances of the subquery registry

    One registry over the table of [Worked]: the shape [status IN (SELECT status FROM orders WHERE
    id = 5)] and its node, before any row.  Order 5 is inserted, which puts its status into the set
    and the order into the shape; closed instances of the registry's theorems follow that change. *)

From S2P Require Import Prelude BTree Value TableRef Schema Predicate Like PredicateFacts Gate Output.
From S2P Require Import Executors Refine Sequencer PkDict SubqIndex SubqCircuit Emission.
From S2P Require Import Subquery SubqueryFacts SubqEmit SubqLive SubqFence SubqCreate.
From S2P Require Import SubqCompile SubqAtomic SubqDeps SubqDrop SubqFinish SubqInstall PredicateTypes MembershipModel Worked.
From stdpp Require Import base option numbers strings gmap fin_maps sorting list.
#[local] Open Scope Z_scope.
#[local] Existing Instances w_float w_fault w_json.

(* ------------------------------------------------------------------ *)
(** ** The registry *)

Definition q_node : SubqueryNode :=
  MkNode $"s" w_table 1 0 (Cmp 0 OpEq (VInt 5)) None gate_passthrough None [] 1 $"t" [VInt 5] 1 ∅ 0.
Definition q_template : TemplateGroup := MkTemplate w_table 1 MatchAll [0%nat] {[ [VInt 5] := $"s" ]} ∅.
Definition q_pred : CompiledPredicate := InSubquery 1 $"s" false.
Definition q_shape (inflight : Z) : SubqueryShape :=
  MkSubqShape $"q" w_table $"shape/q" q_pred None gate_passthrough 0 1 ∅ inflight.

(** [inflight] query-backs of the shape are under way. *)
Definition q_reg (inflight : Z) : SubqueryRegistry Relation :=
  set_nodes {[ $"s" := q_node ]} (set_templates {[ $"t" := q_template ]} (set_node_by_id {[ 1 := $"s" ]}
    (set_shapes {[ $"q" := q_shape inflight ]} (set_edges {[ $"s" := leaf_edges (DShape $"q") q_pred ]}
      (set_shape_index (shape_index_insert $"q" $"public.orders" q_pred shape_index_empty)
        (set_schemas {[ w_table := w_ts ]} (set_next_node_id 2 registry_new))))))).

Lemma q_sets i : registry_ok (q_reg i).
Proof.
  unfold registry_ok. split; simpl.
  - exact dict_ok_new.
  - intros s n [<- <-]%lookup_singleton_Some. by rewrite lookup_singleton_eq.
  - intros j s [<- <-]%lookup_singleton_Some. exists q_node. by rewrite lookup_singleton_eq.
  - intros j id [v Hv]. by rewrite lookup_fmap, lookup_empty in Hv.
  - intros s n [<- <-]%lookup_singleton_Some. exists q_template. split_and!; [done..|].
    intros id. simpl. rewrite lookup_fmap, !lookup_empty. simpl. split; [set_solver|by intros [? ?]].
  - intros k t b s [<- <-]%lookup_singleton_Some. simpl. intros [<- <-]%lookup_singleton_Some. by exists q_node.
  - intros k t id s [<- <-]%lookup_singleton_Some. simpl. rewrite lookup_empty. set_solver.
Qed.

Lemma q_live i : live_ok (q_reg i).
Proof.
  split; [apply q_sets| | | |apply memory_runs].
  - split; simpl.
    + split; [exact dict_ok_new|]. intros f j. simpl. rewrite lookup_empty. set_solver.
    + intros id s j [<- <-]%lookup_singleton_Some [? H]. simpl in H. by rewrite lookup_empty in H.
  - split; simpl; intros i1 i2 s1 s2 [<- <-]%lookup_singleton_Some [<- <-]%lookup_singleton_Some _; done.
  - assert (He : shape_reg (q_reg i) = foldl registered_op ∅ [SxInsert $"q" $"public.orders" q_pred]).
    { apply map_eq. intros id. unfold shape_reg. simpl. rewrite lookup_fmap.
      destruct (decide (id = $"q")) as [->|Hne]; [done|]. by rewrite !lookup_singleton_ne, lookup_insert_ne by done. }
    rewrite He. apply (shape_index_ops_ok [SxInsert $"q" $"public.orders" q_pred]). by vm_compute.
Qed.

(* ------------------------------------------------------------------ *)
(** ** The change *)

Definition q_delta : Delta := [(w_row 5 $"open", 1)].
Definition q_table : gmap str Row := {[ $"5" := w_row 5 $"open" ]}.
Definition q_step (inflight : Z) : SubqueryRegistry Relation * list (SubquerySig * Flip) :=
  match on_table_delta false (q_reg inflight) w_ts q_delta 10 None None with Ok p => p | Err _ => (q_reg inflight, []) end.

Lemma q_runs i : on_table_delta false (q_reg i) w_ts q_delta 10 None None = Ok ((q_step i).1, (q_step i).2).
Proof.
  unfold q_step. destruct (on_table_delta false (q_reg i) w_ts q_delta 10 None None) as [[reg fl]|e] eqn:E; [done|].
  exfalso. revert E. unfold on_table_delta. destruct (delta_nodes _ _ _ _ _). by destruct (delta_shapes _ _ _ _ _ _ _).
Qed.
Lemma q_empty_ok : table_ok w_ts ∅.
Proof. intros k r. by rewrite lookup_empty. Qed.
Lemma q_delta_of : delta_of w_ts ∅ q_delta q_table.
Proof. by apply (d_insert w_ts ∅ (w_row 5 $"open") $"5"). Qed.
Lemma q_small : dict_small (q_step 0).1 /\ dict_small (q_step 1).1.
Proof. split; by vm_compute. Qed.

Lemma table_change_keeps_registry_witness : live_ok (q_step 0).1.
Proof.
  apply (table_change_keeps_registry false (q_reg 0) w_ts q_delta 10 None None (q_step 0).1 (q_step 0).2 ∅ q_table
           (q_live 0) q_empty_ok q_delta_of (q_runs 0) (proj1 q_small)).
Defined.

Lemma node_set_follows_witness : node_holds (q_step 0).1 $"s" $"5" = Some (VText $"open").
Proof.
  rewrite (node_set_follows false (q_reg 0) w_ts q_delta 10 None None (q_step 0).1 (q_step 0).2 ∅ q_table $"s" q_node
           (q_live 0) q_empty_ok q_delta_of).
  - by vm_compute.
  - done.
  - done.
  - exists q_template. split; [done|]. intros row ev. unfold matches_ctx, template_params. simpl. unfold cmp_tri.
    destruct (cell row 0) as [|z|t|b|f]; [done| |by destruct t|by destruct b|by destruct f].
    simpl. destruct (decide (z = 5)) as [->|Hne]; [done|].
    rewrite (bool_decide_eq_false_2 ([VInt z] = [VInt 5])) by (by intros [= ?]).
    destruct (value_eqb (VInt z) (VInt 5)) eqn:E; [|done]. apply value_eqb_vkey in E. by injection E.
  - apply q_runs.
  - apply q_small.
  - intros pk. unfold contributions. rewrite lookup_empty. unfold node_holds, holds. by destruct (pk_get _ pk).
Defined.

Lemma q_delivered i : delivered (q_reg i) (q_shape i) ∅ ∅.
Proof.
  split; intros pk; rewrite lookup_empty; [|by intros [? ?]].
  split; [by intros [? ?]|]. unfold reg_fed, fed. simpl. by destruct (pk_get _ pk).
Qed.

(** The order enters the shape in the same step that its status enters the set. *)
Lemma live_change_exact_witness : exists envs,
  materialize ∅ envs !! $"5" = Some (w_json_row 5 $"open").
Proof.
  destruct (live_change_exact (FE := w_fault) false (q_reg 0) w_ts q_delta 10 None None (q_step 0).1 (q_step 0).2 ∅ q_table ∅ $"q"
              (q_shape 0) eq_refl (q_live 0) q_empty_ok q_delta_of eq_refl eq_refl eq_refl (q_delivered 0) (q_runs 0)
              (proj1 q_small)) as (_ & envs & _ & _ & _ & _ & Hkeys).
  exists envs. destruct (Hkeys $"5") as [-> _]. by vm_compute.
Defined.

(** The flip of the status reaches every order that has it. *)
Lemma flips_cover_witness : exists l u, l ∈ collect_in_leaves q_pred /\ (il_sig l, u) ∈ flipped (q_step 0).2 /\
  value_eqb (VText $"open") u = true.
Proof.
  destruct (flips_cover false (q_reg 0) w_ts q_delta 10 None None (q_step 0).1 (q_step 0).2 ∅ q_table q_pred
              (w_row 8 $"open") (q_live 0) q_empty_ok q_delta_of (q_runs 0) (proj1 q_small)) as (l & u & Hl & Hu & Hc).
  - vm_compute. discriminate.
  - exists l, u. split_and!; [done..|]. apply list_elem_of_singleton in Hl as ->.
    destruct (value_is_null u); [done|]. exact Hc.
Defined.

(* ------------------------------------------------------------------ *)
(** ** A query-back *)

(** A snapshot taken before commit 10 of transaction 7 read no order 5; the one here read it when
    its status was another. *)
Definition q_stale : gmap str Row := {[ $"5" := w_row 5 $"stale" ]}.
Definition q_gate : SnapshotGate := mkGate 9 7 7 ∅.
Definition q_change : TChange := MkTChange w_ts [(w_row 5 $"stale", -1); (w_row 5 $"open", 1)] 10 (Some 7) None.
Definition q_world : gmap TableRef (gmap str Row) := {[ w_table := q_stale ]}.
Definition q_after : SubqueryRegistry Relation :=
  match on_table_delta false (q_reg 1) w_ts (tc_delta q_change) 10 (Some 7) None with
  | Ok p => p.1 | Err _ => q_reg 1 end.
Definition q_done : SubqueryRegistry Relation :=
  (emit_for_shapes q_after w_ts [($"q", map (λ r, (r, true)) (map_to_list q_stale).*2)] None
     (SrcQueryBack q_gate)).1.
Definition q_view : gmap str json := {[ $"5" := w_json_row 5 $"open" ]}.

Lemma q_stale_ok : table_ok w_ts q_stale.
Proof. intros k r. unfold q_stale. by intros [<- <-]%lookup_singleton_Some. Qed.

Lemma q_run : fence_run $"q" (q_reg 1, q_world) [EvChange q_change]
  (q_after, <[w_table := q_table]> q_world).
Proof.
  eapply fr_cons; [|apply fr_nil].
  destruct (on_table_delta false (q_reg 1) w_ts (tc_delta q_change) 10 (Some 7) None) as [[reg fl]|e] eqn:E.
  - assert (Hr : q_after = reg) by (unfold q_after; by rewrite E). rewrite Hr.
    apply (fs_change $"q" false (q_reg 1) q_world q_change reg fl q_table); [| |exact E|].
    + exact q_stale_ok.
    + assert (Hq : q_table = <[$"5" := w_row 5 $"open"]> (delete $"5" q_stale)) by done.
      rewrite Hq. by apply (d_update w_ts _ (w_row 5 $"stale") (w_row 5 $"open") $"5" $"5"); [..|left].
    + rewrite <- Hr. by vm_compute.
  - exfalso. revert E. unfold on_table_delta. destruct (delta_nodes _ _ _ _ _). by destruct (delta_shapes _ _ _ _ _ _ _).
Qed.

(** The stale read does not touch what the change decided. *)
Lemma query_back_is_current_witness : exists envs,
  sent_to q_done $"shape/q" = sent_to q_after $"shape/q" ++ envs /\
  (materialize q_view envs !! $"5" = Some (w_json_row 5 $"open")).
Proof.
  destruct (query_back_is_current (FE := w_fault) $"q" (q_shape 1) q_gate w_ts q_stale (q_reg 1) q_world
              [EvChange q_change] q_after (<[w_table := q_table]> q_world) None q_view q_done
              eq_refl (q_live 1) eq_refl eq_refl) as (envs & Hsent & Hkeys).
  - intros pk. unfold undercut, recent_of. simpl. by destruct (pk_get _ pk).
  - exact q_stale_ok.
  - done.
  - exact q_run.
  - by repeat constructor.
  - intros pk. unfold q_view. destruct (decide (pk = $"5")) as [->|Hne]; [split; [by vm_compute|by eexists]|].
    rewrite lookup_singleton_ne by done. split; [by intros [? ?]|]. unfold reg_fed, fed.
    assert (Hd : r_pk_dict q_after = (get_or_insert pk_dict_new $"5").1) by (by vm_compute).
    rewrite Hd. change (pk_get _ pk) with ((<[$"5" := 0]> (∅ : gmap str Z)) !! pk).
    by rewrite lookup_insert_ne, lookup_empty by done.
  - done.
  - by vm_compute.
  - exists envs. split; [exact Hsent|]. specialize (Hkeys $"5"). simpl in Hkeys.
    destruct Hkeys as [->|[-> _]]; by vm_compute.
Defined.

(* ------------------------------------------------------------------ *)
(** ** Lanes and the index *)

Definition q_env (txid : str) : Envelope :=
  shape_envelope w_ts $"delete" $"5" None (Some txid) None.
Definition q_events : list LaneEvent :=
  [EmCount $"a" [q_env $"1"]; EmSend; EmCount $"b" [q_env $"2"]; EmSend; WrRecv 0; EmCount $"a" [q_env $"3"]; EmSend].
Definition q_lanes : EmissionLanes := default (spawn 1) (lane_run (λ _, 0%N) (spawn 1) q_events).
Definition q_writes : list LaneEvent :=
  [WrAppend 0; WrDone 0; WrRecv 0; WrAppend 0; WrDone 0; WrRecv 0; WrAppend 0; WrDone 0].

Lemma lanes_keep_order_witness :
  stream_of q_lanes $"a" ++ on_the_way (λ _, 0%N) q_lanes $"a" = [q_env $"1"; q_env $"3"] /\ em_pending q_lanes = 3.
Proof.
  destruct (lanes_keep_order (λ _, 0%N) 1 q_events q_lanes) as (Ho & Hp & _); [done|].
  split; [by rewrite Ho by (by vm_compute)|]. rewrite Hp. done.
Defined.

Lemma lanes_drain_witness :
  stream_of (default q_lanes (lane_run (λ _, 0%N) q_lanes q_writes)) $"a" = [q_env $"1"; q_env $"3"].
Proof.
  destruct (lanes_drain (λ _, 0%N) 1 q_events q_lanes q_writes
              (default q_lanes (lane_run (λ _, 0%N) q_lanes q_writes))) as [_ Hs]; [done|done|by repeat constructor|done|].
  destruct Hs as [_ Hs].
  - intros [| |[|i]|[|i]|[|i]|] He; done.
  - by rewrite Hs by (by vm_compute).
Defined.

Lemma shape_candidates_spec_witness :
  let ops := [SxInsert $"q" $"public.orders" (Cmp 1 OpEq (VText $"open")); SxInsert $"r" $"public.orders" q_pred; SxRemove $"q";
              SxInsert $"u" $"public.orders" (Cmp 1 OpEq (VText $"done"))] in
  $"r" ∈ shape_candidates (foldl shape_index_op shape_index_empty ops) $"public.orders" q_delta.
Proof.
  intros ops. apply (shape_candidates_spec ops $"public.orders" q_delta $"r"); [by vm_compute|].
  exists q_pred. split; [by vm_compute|done].
Defined.

(* ------------------------------------------------------------------ *)
(** ** Creation and removal *)

Lemma q_deps i : deps_ok (q_reg i) [].
Proof.
  assert (He : expected (q_reg i) = leaf_edges (DShape $"q") q_pred) by (by vm_compute).
  split.
  - intros e s. rewrite He. unfold edges_of. simpl. destruct (decide (s = $"s")) as [->|Hne].
    + rewrite lookup_singleton_eq. simpl. unfold leaf_edges. simpl. rewrite occ_cons, occ_nil.
      destruct (decide (_ = e)) as [<-|]; [done|]. by destruct (decide _).
    + rewrite lookup_singleton_ne by done. simpl. rewrite occ_nil. destruct (decide (ed_node_sig e = s)) as [Hs|]; [|done].
      unfold leaf_edges. simpl. rewrite occ_cons, occ_nil. destruct (decide (_ = e)) as [<-|]; [|done]. by destruct Hne.
  - intros s. unfold edges_of. simpl. destruct (decide (s = $"s")) as [->|Hne].
    + rewrite !lookup_singleton_eq. simpl. rewrite occ_nil. lia.
    + by rewrite !lookup_singleton_ne.
  - intros s l. simpl. by intros [<- <-]%lookup_singleton_Some.
Qed.

Lemma q_creatable i : creatable (q_reg i).
Proof.
  split; simpl.
  - intros s n [<- <-]%lookup_singleton_Some. simpl. lia.
  - intros j s [<- <-]%lookup_singleton_Some. by exists q_node.
  - intros j s [<- <-]%lookup_singleton_Some. lia.
  - intros k b s. unfold bound. simpl. intros (t & [<- <-]%lookup_singleton_Some & Hb)%bind_Some.
    simpl in Hb. apply lookup_singleton_Some in Hb as [<- <-]. by exists q_node.
  - intros k t [<- <-]%lookup_singleton_Some. simpl. apply insert_non_empty.
  - lia.
  - done.
Qed.

(** The dropped shape was the only dependent of its node, whose one contribution goes with it. *)
Lemma drop_removes_exactly_witness :
  mp_held (r_circuit (q_step 0).1) !! (1, 0) = Some (vkey (VText $"open")) /\
  let reg' := drop_subquery_shape (q_step 0).1 $"q" in
  r_nodes reg' !! $"s" = None /\ mp_held (r_circuit reg') !! (1, 0) = None.
Proof.
  split; [by vm_compute|]. intros reg'.
  assert (Hlive : live_ok (q_step 0).1).
  { apply (change_live false (q_reg 0) w_ts q_delta 10 None None (q_step 0).1 (q_step 0).2 ∅ q_table
           (q_live 0) q_empty_ok q_delta_of (q_runs 0) (proj1 q_small)). }
  assert (Hn : r_nodes reg' !! $"s" = None) by (by vm_compute).
  destruct (drop_removes_exactly (q_step 0).1 $"q" (default (q_shape 0) (r_shapes (q_step 0).1 !! $"q")) Hlive)
    as (_ & _ & _ & _ & Hleft).
  - apply (deps_frame (q_reg 0)); [by vm_compute| | |by vm_compute|apply q_deps].
    + intros s. assert (E : (λ n, (n_refcount n, n_pred n)) <$> r_nodes (q_step 0).1 =
                            (λ n, (n_refcount n, n_pred n)) <$> r_nodes (q_reg 0)) by (by vm_compute).
      rewrite <- !lookup_fmap. by rewrite E.
    + intros id. assert (E : sh_pred <$> r_shapes (q_step 0).1 = sh_pred <$> r_shapes (q_reg 0)) by (by vm_compute).
      rewrite <- !lookup_fmap. by rewrite E.
  - by vm_compute.
  - assert (E : r_pending_shapes (q_step 0).1 = []) by (by vm_compute). rewrite E. constructor.
  - specialize (Hleft $"s" (default q_node (r_nodes (q_step 0).1 !! $"s"))). split; [exact Hn|].
    unfold node_left in Hleft. fold reg' in Hleft. rewrite Hn in Hleft. apply Hleft. by vm_compute.
Defined.

Definition q_subquery : PredicateJson := PLeaf $"id" OpEq (JNumber (NInt 6)).
Definition q_where : PredicateJson := PIn $"status" (mkSubquery w_table $"status" (Some q_subquery)) false.
Definition q_refused : PredicateJson := PAnd [q_where; PIsNull $"nope" true].

Lemma q_clash w : nested w = [(w_table, $"status", Some q_subquery)] -> clash_free (q_reg 0) (nested w).
Proof.
  intros -> q k b ->%list_elem_of_singleton Hs. split; [|by intros q' ->%list_elem_of_singleton].
  intros s. unfold bound. simpl. intros (t & [<- <-]%lookup_singleton_Some & _)%bind_Some.
  exfalso. revert Hs. by vm_compute.
Qed.

(** The new shape's subquery is one more node, with one reference and one edge. *)
Lemma create_counts_references_witness :
  let reg' := (begin_create (q_reg 0) $"r" w_table $"shape/r" q_where None false).1 in
  exists n, r_nodes reg' !! subquery_sig w_table $"status" (Some q_subquery) = Some n /\ n_refcount n = 1%nat.
Proof.
  intros reg'.
  destruct (create_counts_references (q_reg 0) $"r" w_table $"shape/r" q_where None false reg'
              [(subquery_sig w_table $"status" (Some q_subquery), w_table, Some q_subquery)]
              (q_creatable 0) (q_deps 0)) as (_ & _ & p & Hp & _ & Hl).
  - apply q_clash. by vm_compute.
  - by vm_compute.
  - vm_compute. reflexivity.
  - assert (E : r_pending_shapes reg' = [default p (head (r_pending_shapes reg'))]) by (by vm_compute).
    rewrite E in Hp. injection Hp as Hp.
    destruct (Hl (MkInLeaf 1 (subquery_sig w_table $"status" (Some q_subquery)) false false)) as (n & Hn & _ & Hc).
    + rewrite <- Hp. vm_compute. by left.
    + exists n. split; [exact Hn|]. rewrite Hc. by vm_compute.
Defined.

(** The second conjunct names no column; the node of the first is taken back. *)
Lemma begin_create_atomic_witness :
  let reg' := (begin_create (q_reg 0) $"r" w_table $"shape/r" q_refused None false).1 in
  r_next_node_id reg' = 3 /\ reg' = set_next_node_id 3 (q_reg 0).
Proof.
  intros reg'. assert (H3 : r_next_node_id reg' = 3) by (by vm_compute). split; [exact H3|]. rewrite <- H3.
  destruct (begin_create (q_reg 0) $"r" w_table $"shape/r" q_refused None false) as [reg1 [seeds|e]] eqn:E.
  { exfalso. apply (f_equal snd) in E. revert E. vm_compute. discriminate. }
  apply (begin_create_atomic (q_reg 0) $"r" w_table $"shape/r" q_refused None false reg' e (q_creatable 0)).
  - apply q_clash. by vm_compute.
  - by vm_compute.
  - unfold reg'. by rewrite E.
Defined.

(* ------------------------------------------------------------------ *)
(** ** A create while changes arrive

    Orders whose status is that of order 6.  Transactions 7 and 8 insert order 7 as open and mark it
    done; a create starts, its reads see both, and the engine receives 7 before the create finishes
    and 8 after. *)

Definition c_gate : SnapshotGate := mkGate 12 9 9 ∅.
Definition c_begun : SubqueryRegistry Relation * res str (list (SubquerySig * TableRef * option PredicateJson)) :=
  begin_create (set_schemas {[ w_table := w_ts ]} registry_new) $"r" w_table $"shape/r" q_where None false.
Definition c_change (reg : SubqueryRegistry Relation) (delta : Delta) (lsn xid : Z) : SubqueryRegistry Relation :=
  match on_table_delta false reg w_ts delta lsn (Some xid) None with Ok p => p.1 | Err _ => reg end.
Definition c_seven : SubqueryRegistry Relation := c_change c_begun.1 [(w_row 7 $"open", 1)] 10 7.
Definition c_seeds : list (SubquerySig * list Row * SnapshotGate) :=
  [(subquery_sig w_table $"status" (Some q_subquery), [w_row 6 $"open"], c_gate)].
Definition c_finished : SubqueryRegistry Relation * res str FinishedCreate :=
  finish_create c_seven $"r" c_seeds c_gate 1 {[ $"6" ]}.
Definition c_eight : SubqueryRegistry Relation :=
  c_change c_finished.1 [(w_row 7 $"open", -1); (w_row 7 $"done", 1)] 11 8.
(** The table, and what the create's reads were appended as. *)
Definition c_table : gmap str Row := <[ $"7" := w_row 7 $"done" ]> {[ $"6" := w_row 6 $"open" ]}.
Definition c_backfill : gmap str json := {[ $"6" := w_json_row 6 $"open" ]}.

(** the replay at the end of a create is not gated.  A commit that the backfill's snapshot
    contains, and that reaches the engine during the create, is replayed over the newer rows of the
    backfill; the later commit that the snapshot also contains is then skipped by the shape's gate,
    so the older version stays: here order 7 is shown as open, is done in the table, and does not
    match the shape. *)
Theorem replay_outruns_backfill :
  should_skip c_gate 10 (Some 7) = true /\ should_skip c_gate 11 (Some 8) = true /\
  c_finished.2 = Ok (MkFinished [] [] []) /\
  materialize c_backfill (sent_to c_eight $"shape/r") !! $"7" = Some (w_json_row 7 $"open") /\
  exists s, r_shapes c_eight !! $"r" = Some s /\
    shown w_ts s (reg_eval c_eight) c_table $"7" = None /\
    shown w_ts s (reg_eval c_eight) c_table $"6" = Some (w_json_row 6 $"open").
Proof.
  split_and!; [by vm_compute..|]. exists (default (q_shape 0) (r_shapes c_eight !! $"r")). split_and!; by vm_compute.
Qed.

(** The same create when both commits arrive in time. *)
Definition c_sig : SubquerySig := subquery_sig w_table $"status" (Some q_subquery).
Definition c_both : SubqueryRegistry Relation := c_change c_seven [(w_row 7 $"open", -1); (w_row 7 $"done", 1)] 11 8.
Definition c_node : SubqueryNode := default q_node (r_nodes c_both !! c_sig).
Definition c_template : TemplateGroup := default q_template (r_templates c_both !! n_template_key c_node).
Definition c_end : SubqueryRegistry Relation * res str FinishedCreate := finish_create c_both $"r" c_seeds c_gate 1 {[ $"6" ]}.
Definition c_before : gmap str Row := {[ $"6" := w_row 6 $"open" ]}.

(** A registry of one node, which holds nothing. *)
Lemma single_sets (reg : SubqueryRegistry Relation) (sig : SubquerySig) (n : SubqueryNode) (t : TemplateGroup) :
  r_nodes reg = {[ sig := n ]} -> r_templates reg = {[ n_template_key n := t ]} -> r_node_by_id reg = {[ n_node_id n := sig ]} ->
  r_pk_dict reg = pk_dict_new -> mp_held (r_circuit reg) = ∅ -> tg_binds t = {[ n_bind n := sig ]} -> tg_pk_nodes t = ∅ ->
  tg_inner_table t = n_inner_table n -> tg_proj_col t = n_proj_col n -> registry_ok reg.
Proof.
  intros En Et Ei Ed Eh Eb Ep Eit Epc. unfold registry_ok. rewrite Eh. split; rewrite ?En, ?Et, ?Ei, ?Ed.
  - exact dict_ok_new.
  - intros s m [<- <-]%lookup_singleton_Some. by rewrite lookup_singleton_eq.
  - intros j s [<- <-]%lookup_singleton_Some. exists n. by rewrite lookup_singleton_eq.
  - intros j id [v Hv]. by rewrite lookup_empty in Hv.
  - intros s m [<- <-]%lookup_singleton_Some. exists t. rewrite lookup_singleton_eq, Eb, lookup_singleton_eq.
    split_and!; [done..|]. intros id. rewrite Ep, !lookup_empty. simpl. split; [set_solver|by intros [? ?]].
  - intros k t' b s [<- <-]%lookup_singleton_Some. rewrite Eb. intros [<- <-]%lookup_singleton_Some. exists n.
    by rewrite lookup_singleton_eq.
  - intros k t' id s [<- <-]%lookup_singleton_Some. rewrite Ep, lookup_empty. set_solver.
Qed.
Lemma c_sets : registry_ok c_both.
Proof. apply (single_sets c_both c_sig c_node c_template); vm_compute; reflexivity. Qed.

Lemma c_before_ok : table_ok w_ts c_before /\ table_ok w_ts c_table.
Proof.
  split; intros k r; unfold c_table, c_before; [by intros [<- <-]%lookup_singleton_Some|].
  intros [[<- <-]|[_ [<- <-]%lookup_singleton_Some]]%lookup_insert_Some; done.
Qed.
Lemma c_changes : changes w_ts c_before
  [MkBuffered 10 (Some 7) [(w_row 7 $"open", 1)]; MkBuffered 11 (Some 8) [(w_row 7 $"open", -1); (w_row 7 $"done", 1)]] c_table.
Proof.
  eapply ch_cons; [by apply (d_insert w_ts c_before (w_row 7 $"open") $"7")|].
  assert (E : c_table = <[ $"7" := w_row 7 $"done" ]> (delete $"7" (<[ $"7" := w_row 7 $"open" ]> c_before))) by (by vm_compute).
  rewrite E. eapply ch_cons; [|apply ch_nil].
  by apply (d_update w_ts _ (w_row 7 $"open") (w_row 7 $"done") $"7" $"7"); [..|left].
Qed.

Lemma seeded_node_set_witness :
  let reg' := (install_seed c_both c_sig [w_row 6 $"open"] c_gate).1 in
  node_holds reg' c_sig $"6" = Some (VText $"open") /\ node_holds reg' c_sig $"7" = None.
Proof.
  intros reg'.
  destruct (seeded_node_set c_both c_sig c_node w_ts [w_row 6 $"open"] c_gate c_table c_before c_table reg'
              (install_seed c_both c_sig [w_row 6 $"open"] c_gate).2 c_sets memory_runs) as (_ & _ & Hset & _).
  - by vm_compute.
  - by vm_compute.
  - vm_compute. by intros ?%not_elem_of_nil.
  - intros pk. assert (E : r_circuit c_both = ∅ /\ r_pk_dict c_both = pk_dict_new) by (split; by vm_compute).
    destruct E as [E1 E2]. unfold node_holds, holds. rewrite E1, E2. destruct (r_nodes c_both !! c_sig); [|done]. simpl.
    unfold pk_get. simpl. by rewrite lookup_empty.
  - apply c_before_ok.
  - assert (E : (map_to_list (selection c_both c_node c_table)).*2 = [w_row 6 $"open"]) by (by vm_compute).
    unfold selects. by rewrite E.
  - apply c_before_ok.
  - assert (E : default [] (n_seed_buffer c_node) =
      [MkBuffered 10 (Some 7) [(w_row 7 $"open", 1)]; MkBuffered 11 (Some 8) [(w_row 7 $"open", -1); (w_row 7 $"done", 1)]]) by (by vm_compute).
    rewrite E. exact c_changes.
  - unfold reg'. by destruct (install_seed c_both c_sig [w_row 6 $"open"] c_gate).
  - by vm_compute.
  - split; rewrite Hset; by vm_compute.
Defined.

Lemma finish_create_hands_over_witness : r_pending_shapes c_end.1 = [] /\ exists s, r_shapes c_end.1 !! $"r" = Some s.
Proof.
  pose proof (finish_create_hands_over c_both $"r" c_seeds c_gate 1 {[ $"6" ]} c_end.1 c_end.2) as H.
  assert (E : exists fin, c_end.2 = Ok fin).
  { destruct c_end.2 as [fin|e] eqn:E; [by exists fin|]. exfalso. revert E. vm_compute. discriminate. }
  destruct E as [fin E]. rewrite E in H. destruct H as (p & rest & s & Ht & Hr & Hs & _).
  - apply NoDup_singleton.
  - rewrite <- E. apply surjective_pairing.
  - split; [|exists s; exact Hs]. rewrite Hr.
    assert (E2 : (λ pr, pr.2) <$> take_pending $"r" (r_pending_shapes c_both) = Some []) by (vm_compute; reflexivity).
    rewrite Ht in E2. exact (inj Some _ _ E2).
Defined.

(** A registry with no shape and no feed. *)
Lemma bare_tail (reg : SubqueryRegistry Relation) : r_shapes reg = ∅ -> r_feed_sets reg = ∅ -> r_pk_dict reg = pk_dict_new ->
  tail_ok reg /\ shapes_distinct reg.
Proof.
  intros Es E1 E2. split.
  - split.
    + unfold reg_feeds_ok. rewrite E1, E2. split; [exact dict_ok_new|]. intros f j. rewrite lookup_empty. set_solver.
    + intros id s j. by rewrite Es.
  - split; intros i1 i2 s1 s2; by rewrite Es.
Qed.
Lemma c_tail : tail_ok c_both /\ shapes_distinct c_both.
Proof. apply bare_tail; vm_compute; reflexivity. Qed.

Definition c_entry : PendingSubqueryShape :=
  default (MkPendingSubq $"r" w_table $"shape/r" q_pred None false [] [] []) (head (r_pending_shapes c_both)).
Lemma c_keys pk : is_Some (c_backfill !! pk) <-> pk ∈ ({[ $"6" ]} : gset str).
Proof.
  unfold c_backfill. rewrite elem_of_singleton. destruct (decide (pk = $"6")) as [->|Hne].
  - split; [done|by eexists].
  - rewrite lookup_singleton_ne by done. by split; [intros [? ?]|].
Qed.
Lemma c_facts : touches_in w_ts (ps_buffer c_entry) $"6" = false /\ touches_in w_ts (ps_buffer c_entry) $"7" = true /\
  (λ s, matches_ctx (sh_pred s) (w_row 7 $"done") (reg_eval c_end.1)) <$> r_shapes c_end.1 !! $"r" = Some false.
Proof. split_and!; vm_compute; reflexivity. Qed.

(** Order 7 is not shown: both its versions were replayed, in their order. *)
Lemma finished_shape_shown_witness : exists envs,
  materialize c_backfill envs !! $"7" = None /\ materialize c_backfill envs !! $"6" = Some (w_json_row 6 $"open").
Proof.
  destruct c_end.2 as [fin|e] eqn:Ee; [|exfalso; revert Ee; vm_compute; discriminate].
  assert (Es : r_shapes c_both = ∅) by (vm_compute; reflexivity).
  destruct (finished_shape_shown (FE := w_fault) c_both $"r" c_seeds c_gate 1 {[ $"6" ]} c_end.1 fin c_entry [] w_ts c_before c_table c_backfill
              eq_refl) as (s & envs & Hs & _ & _ & _ & _ & _ & Hk & _).
  - apply c_tail.
  - apply c_tail.
  - by rewrite Es.
  - vm_compute. reflexivity.
  - rewrite Es. apply map_Forall_empty.
  - vm_compute. reflexivity.
  - vm_compute. reflexivity.
  - apply c_before_ok.
  - assert (E : ps_buffer c_entry =
      [MkBuffered 10 (Some 7) [(w_row 7 $"open", 1)]; MkBuffered 11 (Some 8) [(w_row 7 $"open", -1); (w_row 7 $"done", 1)]]) by (vm_compute; reflexivity).
    rewrite E. exact c_changes.
  - exact c_keys.
  - rewrite <- Ee. apply surjective_pairing.
  - vm_compute. discriminate.
  - exists envs. destruct c_facts as (H6 & H7 & Hm). rewrite Hs in Hm. apply (inj Some) in Hm.
    split; rewrite Hk; [rewrite H7|rewrite H6; reflexivity]. unfold shown.
    change (c_table !! $"7") with (Some (w_row 7 $"done")). simpl. rewrite Hm. reflexivity.
Defined.

(* ------------------------------------------------------------------ *)
(** ** Types *)

Lemma compile_typed_witness :
  cmp_tri (cell (w_row 7 $"open") 1) OpLike (VText $"open") <> TUnknown.
Proof.
  destruct (compile_typed w_table w_def w_ts (PNot (PLeaf $"status" OpLike (JString $"open"))) tt tt
              (CNot (Cmp 1 OpLike (VText $"open"))) w_compiles) as [_ H]; [vm_compute; reflexivity|].
  destruct (H (w_row 7 $"open") 1%nat OpLike (VText $"open")) as (ty & Ht & _ & _ & _ & Hiff).
  - constructor; [|constructor; [done|constructor]]. simpl. vm_compute. split; discriminate.
  - by left.
  - intros [Hx|[Hx|[_ Hx]]]%Hiff; [discriminate Hx|discriminate Hx|]. apply Hx. injection Ht as <-. reflexivity.
Defined.

(* ------------------------------------------------------------------ *)
(** ** Two signatures, one bind *)

Definition b_flat : PredicateJson := PAnd [PLeaf $"id" OpEq (JNumber (NInt 6)); PLeaf $"status" OpEq (JString $"open")].
Definition b_nested : PredicateJson := PAnd [b_flat].
Definition b_create (reg : SubqueryRegistry Relation) (id : str) (w : PredicateJson) : SubqueryRegistry Relation :=
  (begin_create reg id w_table (id ++ $"/") (PIn $"status" (mkSubquery w_table $"status" (Some w)) false) None false).1.
Definition b_reg : SubqueryRegistry Relation :=
  b_create (b_create (set_schemas {[ w_table := w_ts ]} registry_new) $"a" b_nested) $"b" b_flat.
Definition b_sig (w : PredicateJson) : SubquerySig := subquery_sig w_table $"status" (Some w).

(** Subqueries that differ in the nesting of a conjunction are two nodes and one bind of one template:
    the second takes the bind, and the first is no longer found by its table's changes. *)
Lemma nested_and_clash : b_sig b_nested <> b_sig b_flat /\
  exists n, r_nodes b_reg !! b_sig b_nested = Some n /\ n_inner_table n = w_table /\
    bound b_reg (n_template_key n) (n_bind n) = Some (b_sig b_flat).
Proof.
  split; [vm_compute; discriminate|]. exists (default q_node (r_nodes b_reg !! b_sig b_nested)).
  split_and!; vm_compute; reflexivity.
Qed.
