(* ===== verification/WorkedWalk.v ===== *)
(** * Worked instances of the flip walk

    The registry of [WorkedSubq] over a table that already has order 8 as open: it is in no shape until
    order 5 is inserted with the same status, and then only the walk can move it. *)

From S2P Require Import Prelude BTree Value TableRef Schema Predicate Like PredicateFacts Gate Output.
From S2P Require Import Executors Refine Sequencer PkDict SubqIndex SubqCircuit.
From S2P Require Import Subquery SubqueryFacts SubqEmit SubqLive SubqFence SubqCreate SubqFinish.
From S2P Require Import SubqWalk SubqWalkFacts SubqConverge SubqSteady MembershipModel Worked WorkedSubq.
From stdpp Require Import base option numbers strings gmap fin_maps sorting list.
#[local] Open Scope Z_scope.
#[local] Existing Instances w_float w_fault w_json.

(** A Postgres that holds the tables. *)
Definition picked_rows (T : gmap str Row) (filter_ : option (nat * Value)) : gmap str Row :=
  filter (λ kr : str * Row, picked filter_ kr.2 = true) T.
Definition memory_reads (W : gmap TableRef (gmap str Row)) (ts : TableSchema) (filter_ : option (nat * Value))
    : res str (list Row * SnapshotGate) :=
  Ok ((map_to_list (picked_rows (rows_of W (ts_table ts)) filter_)).*2, gate_passthrough).
Lemma memory_answers W ts filter_ rows gate : memory_reads W ts filter_ = Ok (rows, gate) ->
  answers (rows_of W (ts_table ts)) filter_ rows.
Proof.
  intros [= <- _]. exists (picked_rows (rows_of W (ts_table ts)) filter_). split_and!; [done|apply map_filter_subseteq|].
  intros pk r Hr Hp. by apply map_lookup_filter_Some.
Qed.

Definition v_T : gmap str Row := {[ $"8" := w_row 8 $"open" ]}.
Definition v_W : gmap TableRef (gmap str Row) := {[ w_table := v_T ]}.
Definition v_T' : gmap str Row := <[ $"5" := w_row 5 $"open" ]> v_T.
Definition v_W' : gmap TableRef (gmap str Row) := <[ w_table := v_T' ]> v_W.
Definition v_base (path : str) : gmap str json := ∅.
Definition v_edges (sig : SubquerySig) : list Edge := edges_of (q_reg 0) sig.
Definition v_env : WalkEnv Relation := MkWalkEnv (λ _ reg, reg) (λ _, memory_reads v_W') true.
Definition v_start : Walking Relation := MkWalking (q_step 0).1 (q_step 0).2 0 0 [] [].
Definition v_run : option (res str unit * Walking Relation) := propagate_with_retry v_env 9 None None v_start.
Definition v_end : Walking Relation := default v_start (snd <$> v_run).

Lemma v_table_ok : table_ok w_ts v_T.
Proof. intros k r. unfold v_T. by intros [<- <-]%lookup_singleton_Some. Qed.

Lemma v_contains sig v : node_contains (q_reg 0) sig v = false.
Proof.
  unfold node_contains. simpl. destruct (decide (sig = $"s")) as [->|Hne]; [|by rewrite lookup_singleton_ne].
  rewrite lookup_singleton_eq. apply not_true_is_false. intros Hc.
  pose proof (q_sets 0) as Hs. assert (node_contains (q_reg 0) $"s" v = true) as H.
  { unfold node_contains. simpl. rewrite lookup_singleton_eq. exact Hc. }
  apply (contains_holds _ _ _ Hs) in H as [pk H]. unfold node_holds, holds in H. simpl in H.
  rewrite lookup_singleton_eq in H. simpl in H. unfold pk_get in H. simpl in H. by rewrite lookup_empty in H.
Qed.

Lemma v_match r : matches_ctx q_pred r (reg_eval (q_reg 0)) = false.
Proof.
  unfold matches_ctx. simpl. rewrite !v_contains. by destruct (value_is_null _).
Qed.

Lemma v_named : TableRef_wf w_table.
Proof. apply (TableRef_parse_wf $"public.orders"). by vm_compute. Qed.

Lemma v_walkable : walkable v_W v_base v_edges (q_reg 0).
Proof.
  split; simpl.
  - apply q_live.
  - intros t ts [<- <-]%lookup_singleton_Some. split; [done|]. unfold rows_of, v_W. rewrite lookup_singleton_eq.
    exact v_table_ok.
  - intros t [ts [<- _]%lookup_singleton_Some]. exact v_named.
  - intros id s [<- <-]%lookup_singleton_Some. simpl. by exists w_ts.
  - intros id _. by intros ?%not_elem_of_nil.
  - intros id pk. unfold recent_of. simpl. destruct (decide (id = $"q")) as [->|Hne]; [|by rewrite lookup_singleton_ne].
    rewrite lookup_singleton_eq. simpl. by destruct (pk_get _ pk).
  - intros sig n [<- <-]%lookup_singleton_Some. done.
  - done.
  - intros [id|sig] t pred l; simpl.
    + intros (s & [<- <-]%lookup_singleton_Some & [= <- <-])%bind_Some Hl. by apply list_elem_of_singleton in Hl as ->; left.
    + intros (n & [<- <-]%lookup_singleton_Some & [= <- <-])%bind_Some Hl. by apply not_elem_of_nil in Hl.
  - intros sig n [<- <-]%lookup_singleton_Some. simpl. by intros ?%not_elem_of_nil.
  - intros id s pk [<- <-]%lookup_singleton_Some. unfold view, v_base. simpl. rewrite lookup_empty.
    split; [by intros [? ?]|]. unfold reg_fed, fed. simpl. by destruct (pk_get _ pk).
Qed.

Lemma v_rows : rows_of v_W w_table = v_T.
Proof. unfold rows_of, v_W. by rewrite lookup_singleton_eq. Qed.

Lemma v_right_shape pk : right v_W v_base (q_reg 0) (DShape $"q") pk.
Proof.
  intros s ts Hs _. change (r_shapes (q_reg 0)) with ({[ $"q" := q_shape 0 ]} : gmap str SubqueryShape) in Hs.
  rewrite lookup_singleton_eq in Hs. injection Hs as <-. unfold view, v_base, shown.
  change (sent_to (q_reg 0) (sh_stream_path (q_shape 0))) with (@nil Envelope). change (sh_outer_table (q_shape 0)) with w_table.
  change (materialize ∅ []) with (∅ : gmap str json). rewrite lookup_empty, v_rows. destruct (v_T !! pk) as [r|]; [|done].
  change (sh_pred (q_shape 0)) with q_pred. cbn [mbind option_bind]. by rewrite v_match.
Qed.

Lemma v_holds pk : node_holds (q_reg 0) $"s" pk = None.
Proof.
  unfold node_holds, holds. change (r_nodes (q_reg 0)) with ({[ $"s" := q_node ]} : gmap str SubqueryNode).
  rewrite lookup_singleton_eq. change (r_pk_dict (q_reg 0)) with pk_dict_new. cbn [mbind option_bind].
  assert (E : pk_get pk_dict_new pk = None) by (unfold pk_get; simpl; by rewrite lookup_empty). by rewrite E.
Qed.

Lemma v_right_node pk : right v_W v_base (q_reg 0) (DNode $"s") pk.
Proof.
  intros n Hn _. change (r_nodes (q_reg 0)) with ({[ $"s" := q_node ]} : gmap str SubqueryNode) in Hn.
  rewrite lookup_singleton_eq in Hn. injection Hn as <-. rewrite v_holds. change (n_inner_table q_node) with w_table. rewrite v_rows.
  unfold contributions. destruct (v_T !! pk) as [r|] eqn:E; [|done]. unfold v_T in E.
  apply lookup_singleton_Some in E as [_ <-]. cbn [mbind option_bind]. unfold contribution.
  assert (Hm : matches_ctx (n_pred q_node) (w_row 8 $"open") (reg_eval (q_reg 0)) = false) by reflexivity. by rewrite Hm.
Qed.

Lemma v_idle c : in_flight_of (q_reg 0) c <= 0.
Proof.
  destruct c as [id|sig]; simpl.
  - destruct (decide (id = $"q")) as [->|Hne]; [by rewrite lookup_singleton_eq|by rewrite lookup_singleton_ne].
  - destruct (decide (sig = $"s")) as [->|Hne]; [by rewrite lookup_singleton_eq|by rewrite lookup_singleton_ne].
Qed.

Lemma v_rest : at_rest v_base v_edges v_W (q_reg 0).
Proof.
  split; [exact v_walkable| |exact v_idle]. intros [id|sig] pk [x Hx].
  - destruct (decide (id = $"q")) as [->|Hne]; [apply v_right_shape|]. exfalso. cbn [dep_of] in Hx.
    apply bind_Some in Hx as (s & Hs & _). change (r_shapes (q_reg 0)) with ({[ $"q" := q_shape 0 ]} : gmap str SubqueryShape) in Hs.
    by apply lookup_singleton_Some in Hs as [<- _].
  - destruct (decide (sig = $"s")) as [->|Hne]; [apply v_right_node|]. exfalso. cbn [dep_of] in Hx.
    apply bind_Some in Hx as (n & Hn & _). change (r_nodes (q_reg 0)) with ({[ $"s" := q_node ]} : gmap str SubqueryNode) in Hn.
    by apply lookup_singleton_Some in Hn as [<- _].
Qed.

Lemma v_stands : template_stands (q_reg 0) q_node.
Proof.
  exists q_template. split; [done|]. intros row ev. unfold matches_ctx, template_params. simpl. unfold cmp_tri.
  destruct (cell row 0) as [|z|t|b|f]; [done| |by destruct t|by destruct b|by destruct f].
  simpl. destruct (decide (z = 5)) as [->|Hne]; [done|].
  rewrite (bool_decide_eq_false_2 ([VInt z] = [VInt 5])) by (by intros [= ?]).
  destruct (value_eqb (VInt z) (VInt 5)) eqn:E; [|done]. apply value_eqb_vkey in E. by injection E.
Qed.

Lemma v_change : change_of v_W (q_reg 0) w_ts q_delta 10 None v_T'.
Proof.
  split.
  - done.
  - assert (E : rows_of v_W (ts_table w_ts) = v_T) by (unfold rows_of, v_W; by rewrite lookup_singleton_eq).
    rewrite E. by apply (d_insert w_ts v_T (w_row 5 $"open") $"5").
  - simpl. intros id s [<- <-]%lookup_singleton_Some _. done.
  - simpl. intros sig n [<- <-]%lookup_singleton_Some _ _. split; [exact v_stands|done].
Qed.

Lemma v_runs : v_run = Some (Ok tt, v_end).
Proof.
  assert (E : fst <$> v_run = Some (Ok tt)) by (vm_compute; reflexivity).
  unfold v_end. destruct v_run as [[r w]|]; [|discriminate E]. injection E as ->. reflexivity.
Qed.
Lemma v_small : dict_small (wk_reg v_end).
Proof. vm_compute. discriminate. Qed.

(** Order 8, which the change does not touch, is in the shape when the walk has ended, next to order 5. *)
Lemma change_and_walk_steady_witness :
  view v_base (wk_reg v_end) $"shape/q" !! $"8" = Some (w_json_row 8 $"open") /\
  view v_base (wk_reg v_end) $"shape/q" !! $"5" = Some (w_json_row 5 $"open").
Proof.
  pose proof (change_and_walk_steady (FE := w_fault) v_base v_edges v_W (q_reg 0) false w_ts q_delta 10 None None None v_T'
    (q_step 0).1 (q_step 0).2 v_env 9 v_end eq_refl v_rest v_change (q_runs 0) (λ _ _, eq_refl)
    (λ _ ts f rows gate, memory_answers v_W' ts f rows gate) v_runs v_small) as [_ Hright _].
  assert (Hs : (λ s, (sh_stream_path s, sh_outer_table s)) <$> r_shapes (wk_reg v_end) !! $"q" = Some ($"shape/q", w_table))
    by (vm_compute; reflexivity).
  assert (Hts : r_schemas (wk_reg v_end) !! w_table = Some w_ts) by (vm_compute; reflexivity).
  assert (Hm : forall i, i = 8 \/ i = 5 -> (λ s, shown w_ts s (reg_eval (wk_reg v_end)) v_T' (Z_to_str i)) <$> r_shapes (wk_reg v_end) !! $"q" =
                 Some (Some (w_json_row i $"open"))).
  { intros i [-> | ->]; vm_compute; reflexivity. }
  destruct (r_shapes (wk_reg v_end) !! $"q") as [s|] eqn:Es; [|discriminate Hs]. injection Hs as Hpath Htab.
  rewrite <- Hpath.
  assert (Hr : forall pk, view v_base (wk_reg v_end) (sh_stream_path s) !! pk = shown w_ts s (reg_eval (wk_reg v_end)) v_T' pk).
  { intros pk. rewrite (Hright (DShape $"q") pk ltac:(simpl; rewrite Es; by eexists) s w_ts Es); rewrite Htab; [|exact Hts].
    unfold rows_of. by rewrite lookup_insert_eq. }
  split; rewrite Hr; [exact (inj Some _ _ (Hm 8 (or_introl eq_refl)))|exact (inj Some _ _ (Hm 5 (or_intror eq_refl)))].
Defined.

Lemma v_read n ts filter_ rows gate : we_reads v_env n ts filter_ = Ok (rows, gate) ->
  answers (rows_of v_W' (ts_table ts)) filter_ rows.
Proof. apply memory_answers. Qed.
Lemma v_step_small : dict_small (q_step 0).1.
Proof. vm_compute. discriminate. Qed.
Lemma v_step_walkable : walkable v_W' v_base v_edges (q_step 0).1.
Proof.
  exact (change_walkable (FE := w_fault) v_base v_edges v_W (q_reg 0) false w_ts q_delta 10 None None v_T'
           (q_step 0).1 (q_step 0).2 eq_refl v_rest v_change (q_runs 0) v_step_small).
Qed.
Lemma v_step_covered : covered v_W' v_base v_edges (q_step 0).1 (q_step 0).2 (λ _ _, False).
Proof.
  exact (change_covered (FE := w_fault) v_base v_edges v_W (q_reg 0) false w_ts q_delta 10 None None v_T'
           (q_step 0).1 (q_step 0).2 eq_refl v_rest v_change (q_runs 0) v_step_small).
Qed.

(** The walk's part: behind before it, exact after it. *)
Lemma walk_converges_witness :
  view v_base (q_step 0).1 $"shape/q" !! $"8" = None /\ right v_W' v_base (wk_reg v_end) (DShape $"q") $"8".
Proof.
  split; [vm_compute; reflexivity|].
  destruct (walk_converges (FE := w_fault) v_W' v_base v_edges v_env 9 None None v_start (Ok tt) v_end eq_refl
              (λ _ _, eq_refl) v_read v_step_walkable v_step_covered v_runs v_small) as (_ & _ & H).
  apply H; [reflexivity|]. assert (Hs : fst <$> dep_of (wk_reg v_end) (DShape $"q") = Some w_table) by (vm_compute; reflexivity).
  apply (fmap_is_Some fst). rewrite Hs. by eexists.
Defined.

(** *** A walk whose reads all fail *)

Definition f_env : WalkEnv Relation := MkWalkEnv (λ _ reg, reg) (λ _ _ _, Err $"connection closed") false.
Definition f_run : option (res str unit * Walking Relation) := propagate_with_retry f_env 9 None None v_start.
Definition f_end : Walking Relation := default v_start (snd <$> f_run).
Lemma f_runs : propagate_with_retry f_env 9 None None v_start = Some (Err $"connection closed", f_end).
Proof.
  assert (E : fst <$> f_run = Some (Err $"connection closed")) by (vm_compute; reflexivity).
  change (f_run = Some (Err $"connection closed", f_end)). unfold f_end. destruct f_run as [[r w]|]; [|discriminate E]. injection E as ->. reflexivity.
Qed.

(** Five attempts, and the flip is still at the front of the queue. *)
Lemma walk_loses_nothing_witness :
  wk_work f_end = wk_work v_start /\ wk_slept f_end = [50; 100; 200; 400] /\ wk_reads f_end = 5%nat.
Proof.
  destruct (walk_loses_nothing (FE := w_fault) f_env 9 None None v_start (Err $"connection closed") f_end f_runs)
    as (walked & pushed & delays & _ & _ & _ & Hs & _ & Hd).
  split_and!; [vm_compute; reflexivity| |vm_compute; reflexivity].
  rewrite Hs, Hd by discriminate. reflexivity.
Defined.

(** Another task begins a query-back of the shape before each of the walk's locks; the walk leaves the
    counter at what those account for. *)
Definition b_env : WalkEnv Relation := MkWalkEnv (λ _, begin_queryback $"q") (λ _, memory_reads v_W') false.
Definition b_run : option (res str unit * Walking Relation) := propagate_with_retry b_env 9 None None v_start.
Definition b_end : Walking Relation := default v_start (snd <$> b_run).
Definition b_allowed (n : nat) (c : Counter) : Z := Z.of_nat n * one (CShape $"q") c.

Lemma b_others (n : nat) (reg : SubqueryRegistry Relation) (c : Counter) :
  in_flight_of (we_others b_env n reg) c + b_allowed n c <= in_flight_of reg c + b_allowed (S n) c.
Proof.
  unfold b_allowed, one. destruct c as [id|sig]; cbn [in_flight_of we_others b_env];
    [|rewrite decide_False by done; unfold begin_queryback; cbn; lia].
  unfold begin_queryback, on_shape. cbn [r_shapes set_shapes]. destruct (decide (id = $"q")) as [->|Hne].
  - rewrite lookup_alter_eq. rewrite decide_True by done. destruct (r_shapes reg !! $"q"); cbn [fmap option_fmap option_map sh_inflight shape_with_recent]; unfold sat_incr; lia.
  - rewrite lookup_alter_ne, decide_False by congruence. lia.
Qed.
Lemma b_runs : propagate_with_retry b_env 9 None None v_start = Some (Ok tt, b_end).
Proof.
  assert (E : fst <$> b_run = Some (Ok tt)) by (vm_compute; reflexivity).
  change (b_run = Some (Ok tt, b_end)). unfold b_end. destruct b_run as [[r w]|]; [|discriminate E]. injection E as ->. reflexivity.
Qed.
Lemma walk_settles_counters_witness : in_flight_of (wk_reg b_end) (CShape $"q") <= 3.
Proof.
  destruct (walk_settles_counters (FE := w_fault) b_env b_allowed 9 None None $"q") as (H & _ & _).
  - intros n c. unfold b_allowed, one. case_decide; lia.
  - exact b_others.
  - apply (H v_start (Ok tt) b_end); [|exact b_runs]. intros c.
    assert (Hc : in_flight_of (wk_reg v_start) c <= 0); [|exact Hc].
    change (wk_reg v_start) with (q_step 0).1. rewrite (table_delta_counts _ _ _ _ _ _ _ _ _ c (q_runs 0)). apply v_idle.
Defined.

(** A node under another. *)
Definition t_reg : SubqueryRegistry Relation :=
  set_edges {[ $"s" := [MkEdge $"s" (DNode $"p") 1 false false; MkEdge $"s" (DShape $"q") 1 false false] ]} (q_step 0).1.
Definition t_start : Walking Relation := MkWalking t_reg (q_step 0).2 0 0 [] [].
Definition t_height (sig : SubquerySig) : nat := if decide (sig = $"s") then 1%nat else 0%nat.
Lemma walk_terminates_witness : exists fuel r w', propagate_with_retry v_env fuel None None t_start = Some (r, w').
Proof.
  apply (walk_terminates v_env t_height); [by intros n reg|]. intros sig e p. unfold edges_of. simpl.
  destruct (decide (sig = $"s")) as [->|Hne]; [|rewrite lookup_singleton_ne by done; by intros ?%not_elem_of_nil].
  rewrite lookup_singleton_eq. simpl. intros [->|[->|?%not_elem_of_nil]%elem_of_cons]%elem_of_cons; [|done|done].
  intros [= <-]. vm_compute. lia.
Defined.
