(* ===== verification/WorkedWhere.v ===== *)
(** * Worked clauses

    The front end of [WhereSql] and [Params] on concrete texts, with a character table that knows the
    ASCII letters. *)

From S2P Require Import Prelude BTree Value TableRef Schema Predicate WhereSql WhereFacts Params WhereRound ParamsFacts.
From S2P Require Import Subquery PredicateTypes SqlText SqlFacts SqlMeaning Worked.
From stdpp Require Import base option numbers strings gmap fin_maps sorting list.
#[local] Open Scope Z_scope.
#[local] Existing Instances w_float w_fault w_json.

#[local] Instance ascii_chars : CharClass.
Proof. by refine {| is_alphabetic := is_ascii_letter; is_numeric := is_ascii_digit |}. Defined.

(** [("status" = 'it''s') AND (NOT ("id" IN (SELECT "id" FROM "t" WHERE "n" IS NOT NULL)))]. *)
Definition x_pred : PredicateJson :=
  PAnd [PLeaf $"status" OpEq (JString $"it's");
        PNot (PIn $"id" (mkSubquery (mkTableRef $"public.t" 6) $"id" (Some (PIsNull $"n" false))) false)].
Lemma printed_clause_parses_witness : parse_where (render (print x_pred)) = Ok (Some x_pred).
Proof. apply (printed_clause_parses None). vm_compute. by split_and!. Defined.

(** A clause that parses is a sentence. *)
Lemma parse_where_decides_grammar_witness : exists toks,
  tokenize $"a = 1 and not b" = Ok toks /\ ~ exists p, says None GOr toks [p].
Proof.
  destruct (parse_where_decides_grammar None $"a = 1 and not b") as (H & _ & _).
  exists [TIdent $"a"; TOp $"="; TNum $"1"; TAnd; TNot; TIdent $"b"]. split; [vm_compute; reflexivity|].
  intros [p Hp]. assert (E : parse_where $"a = 1 and not b" = Ok (Some p)).
  { apply H. split; [intros [E|E]; by vm_compute in E|]. eexists. split; [vm_compute; reflexivity|exact Hp]. }
  by vm_compute in E.
Defined.

Definition x_template : str := $"author = $1 AND note <> 'for $1'".
Lemma x_clean : clean x_template.
Proof.
  unfold x_template. change $"author = $1 AND note <> 'for $1'" with ($"author = $1 AND note <> " ++ 39%N :: escape 39%N $"for $1" ++ 39%N :: []).
  simpl. repeat (apply clean_char; [done|done|]). apply (clean_literal $"for $1" []); [done|constructor].
Qed.

(** Inside a quoted identifier a value is syntax: here it adds a disjunct to the clause. *)
Theorem identifier_placeholder_is_syntax : exists w ps1 ps2 s1 s2 t1 t2,
  substitute w ps1 = Ok s1 /\ substitute w ps2 = Ok s2 /\ dom ps1 = dom ps2 /\
  tokenize s1 = Ok t1 /\ tokenize s2 = Ok t2 /\ TOr ∉ t1 /\ TOr ∈ t2.
Proof.
  exists ([34%N] ++ $"a$1" ++ [34%N] ++ $" = 1"), {[ $"1" := $"x" ]}, {[ $"1" := $"x" ++ [34%N] ++ $"=1 OR " ++ [34%N] ]}.
  do 4 eexists. split_and!; [vm_compute; reflexivity|vm_compute; reflexivity|by rewrite !dom_singleton_L|
    vm_compute; reflexivity|vm_compute; reflexivity|set_solver|set_solver].
Qed.

(** A quote inside a quoted identifier hides the placeholders after it. *)
Theorem identifier_quote_hides_placeholder : exists w s,
  substitute w {[ $"1" := $"x" ]} = Ok s /\ s = w /\ tokenize s = Err (EBadChar 36%N).
Proof.
  exists ([34%N] ++ $"it's" ++ [34%N] ++ $" = $1"). eexists. split_and!; vm_compute; reflexivity.
Qed.

(** Constant comparisons: equality tells 1 from 1.0, which the orders do not. *)
Theorem constant_equality_is_not_numeric : exists a b,
  eval_const a $"=" b = false /\ eval_const a $"<=" b = true /\ eval_const b $"<=" a = true.
Proof. exists (JNumber (NInt 1)), (JNumber (NFloat (f64_of_Z 1))). split_and!; vm_compute; reflexivity. Qed.

(** The column of an [IS NULL] inside a subquery is looked up in the outer table. *)
Theorem inner_null_test_refused : exists sql,
  (exists p, parse_where sql = Ok (Some p)) /\
  parse_where_typed (Some w_ts) sql = Err (EColumn $"unknown column 'n'").
Proof. exists $"id IN (SELECT id FROM t WHERE n IS NULL)". split; [eexists|]; vm_compute; reflexivity. Qed.

(* ------------------------------------------------------------------ *)
(** ** Statements *)

Definition y_pred : PredicateJson :=
  PAnd [PLeaf $"status" OpEq (JString $"x'; DROP TABLE t; --"); PLeaf $"id" OpGt (JNumber (NInt 3));
        PIn $"id" (mkSubquery (mkTableRef $"public.t" 6) $"id" (Some (PLeaf $"n" OpNeq (JString $"$1")))) true].
Lemma bound_text_stays_out_of_sql_witness :
  text_literals y_pred = [$"x'; DROP TABLE t; --"; $"$1"] /\
  exists text, predicate_json_to_sql ∅ 1 y_pred w_table = Some (text, text_literals y_pred) /\
    exists fs, text = frags_text fs /\ holes fs = [1; 2].
Proof.
  split; [vm_compute; reflexivity|].
  destruct (predicate_json_to_sql ∅ 1 y_pred w_table) as [[text params]|] eqn:E; [|vm_compute in E; discriminate].
  destruct (bound_text_stays_out_of_sql ∅ 1 y_pred w_table text params E) as (-> & (fs & Ht & Hh) & _).
  exists text. split; [done|]. by exists fs.
Defined.

Definition z_pred : CompiledPredicate := CNot (COr [Cmp 1 OpEq (VText $"it's"); CIsNull 0 true; CAnd []]).
