(* ===== verification/WorkedCatalog.v ===== *)
(** * Worked instances of the catalog and of the lifecycle of shapes

    One table, [public.orders]; a create that may be shared, its client renewed, released, swept,
    parked, rolled back and restored.  The instances the theorems are applied at, and the schedules
    on which the log and the engine part. *)

From S2P Require Import Prelude BTree Value TableRef Schema Predicate Gate Output ChangeLog.
From S2P Require Import Subquery Retention Catalog CatalogWriter CatalogFacts Lifecycle.
From S2P Require Import LifecycleInv Restore ClaimsFacts ShareFacts CreateGuard Wakeup.
From stdpp Require Import base option numbers strings gmap fin_maps sorting list.
#[local] Open Scope Z_scope.

(* ------------------------------------------------------------------ *)
(** ** Runs, decided *)

Fixpoint ids_fit (acts : list Act) (en : Engine) : bool :=
  match acts with
  | [] => true
  | a :: rest => (es_next_shape_id (en_state (estep a en)) <=? u64_max) && ids_fit rest (estep a en)
  end.

Definition left_for (id sub : str) (u : Unsent) : bool :=
  match u with ULeft i s => bool_decide (i = id) && bool_decide (s = sub) | _ => false end.
Definition orderly_here (a : Act) (en : Engine) : bool :=
  match a with
  | ACreate r =>
      (cr_at r <=? cr_now r)
      && match join_target (cr_sig r) (en_state en) with
         | Some id => negb (existsb (left_for id (cr_sub r)) (en_unsent en))
         | None => true
         end
  | ARenewLocal id sub _ =>
      match claim_at en id sub, share_at en id with None, Some _ => false | _, _ => true end
  | _ => true
  end.

Fixpoint orderly_run (acts : list Act) (en : Engine) : bool :=
  match acts with
  | [] => true
  | a :: rest => orderly_here a en && (es_next_shape_id (en_state (estep a en)) <=? u64_max)
                 && orderly_run rest (estep a en)
  end.

Lemma orderly_here_spec a en : orderly_here a en = true -> orderly a en.
Proof.
  destruct a; simpl; try done.
  - intros [Hc%Z.leb_le H]%andb_true_iff. split; [lia|]. intros id Hj. rewrite Hj in H.
    apply negb_true_iff in H. intros Hin. apply not_true_iff_false in H. apply H, existsb_exists.
    exists (ULeft id (cr_sub r)). split; [by apply list_elem_of_In|]. simpl. by rewrite !bool_decide_eq_true_2.
  - destruct (claim_at en id sub); [left; by eexists|]. by destruct (share_at en id); [|right].
Qed.

Lemma fits_reachable acts en : reachable en -> ids_fit acts en = true -> reachable (erun acts en).
Proof.
  revert en. induction acts as [|a acts IH]; intros en HR H; [done|]. simpl in H.
  apply andb_true_iff in H as [H1%Z.leb_le H2]. apply IH; [|done]. constructor; [done|lia].
Qed.
Lemma run_orderly acts en : orderly_reachable en -> orderly_run acts en = true -> orderly_reachable (erun acts en).
Proof.
  revert en. induction acts as [|a acts IH]; intros en HR H; [done|]. simpl in H.
  apply andb_true_iff in H as [[H1 H2%Z.leb_le]%andb_true_iff H3]. apply IH; [|done]. constructor; [done|by apply orderly_here_spec|lia].
Qed.
Lemma run_first_life acts en : first_life en -> orderly_run acts en = true -> first_life (erun acts en).
Proof.
  revert en. induction acts as [|a acts IH]; intros en HR H; [done|]. simpl in H.
  apply andb_true_iff in H as [[H1 H2%Z.leb_le]%andb_true_iff H3]. apply IH; [|done]. constructor; [done|by apply orderly_here_spec|lia].
Qed.

(** A boot over the first [k] events enqueued, its records in the order the map gives them. *)
Definition recs_of (log : list CatalogEvent) : list (str * Restored) :=
  map_to_list (cf_recs (fold_events log fold_default)).
Definition reboot (b : Boot) (k : nat) (en : Engine) : Engine :=
  match restart b (take k (en_log en)) (recs_of (take k (en_log en))) with Ok en' => en' | Err _ => en end.
Lemma reboot_reachable b k en : reachable en -> reachable (reboot b k en).
Proof. intros HR. unfold reboot. destruct (restart _ _ _) eqn:E; [|done].
  apply (reach_restart en k b (recs_of (take k (en_log en))) _ HR); [apply Permutation_refl|exact E]. Qed.
Lemma reboot_orderly b k en : orderly_reachable en -> orderly_reachable (reboot b k en).
Proof. intros HR. unfold reboot. destruct (restart _ _ _) eqn:E; [|done].
  apply (orderly_restart en k b (recs_of (take k (en_log en))) _ HR); [apply Permutation_refl|exact E]. Qed.

(* ------------------------------------------------------------------ *)
(** ** The instances *)

Definition k_table : TableRef := mkTableRef $"public.orders" 6.
Definition k_rec : ShapeRecord :=
  mkShapeRecord [] k_table [] false None None None false None None None None.
(** A client asks for all of [public.orders]. *)
Definition k_req (sub : str) (now : Z) : CreateReq :=
  mkReq k_rec (Some $"orders") sub [k_table] ∅ false now now now.
(** And for the same, not to be shared. *)
Definition k_own (sub : str) (now : Z) : CreateReq :=
  mkReq k_rec None sub [k_table] ∅ false now now now.
Definition k_boot : Boot := mkBoot Resume ∅ {[0]} (λ _, Some false) 0.
Definition k_cfg : RetentionConfig :=
  MkRetentionConfig (from_secs 60) (from_secs 60) (from_secs 60) 0 0 100 0 (from_secs 1) (from_secs 1) 0.

(** Two clients on one shape, one that lets go and one renewed; a shape of its own, parked and
    purged, its stream not yet retired. *)
Definition k_acts : list Act :=
  [ACreate (k_req $"a" 5); APublish $"s1" ShareReady; ASized $"s1" 3 90; ACreate (k_req $"b" 6);
   ARenewLocal $"s1" $"b" 9; ARelease $"s1" (Some $"a") 7; ACreate (k_own $"c" 8);
   ADeactivate k_cfg $"s2" (from_secs 100);
   ADeactivated $"s2" (Some (pos_start, gate_passthrough)) (from_secs 100); ASendUnsent 0; APurge $"s2"].
Definition k_engine : Engine := erun k_acts engine_start.
(** Its boot: one record shared again with its claim, one stream left to retire. *)
Definition k_rebooted : Engine := reboot k_boot 9 k_engine.

Lemma k_reachable : reachable k_engine.
Proof. apply fits_reachable; [constructor|vm_compute; reflexivity]. Qed.
Lemma k_first_life : first_life k_engine.
Proof. apply run_first_life; [constructor|vm_compute; reflexivity]. Qed.
Lemma k_again : reachable k_rebooted.
Proof. apply reboot_reachable, k_reachable. Qed.
Lemma k_again_orderly : orderly_reachable k_rebooted.
Proof. apply reboot_orderly, first_life_orderly, k_first_life. Qed.

Definition k_rec1 : ShapeRecord := sized 3 90 (named $"s1" k_rec).

Lemma durable_record_witness :
  reachable k_rebooted /\ shape_at k_rebooted $"s1" = Some k_rec1 /\
  en_dying k_rebooted = {[ $"s2" := $"shape/s2" ]} /\
  (exists r, cf_recs (fold_of k_rebooted) !! $"s1" = Some r /\ bare (r_rec r) = bare k_rec1) /\
  en_dying k_rebooted = cf_pending_retire (fold_of k_rebooted).
Proof.
  destruct (durable_record k_rebooted k_again) as (H1 & _ & H3).
  split_and!; [exact k_again|vm_compute; reflexivity|vm_compute; reflexivity| |exact H3].
  apply H1. vm_compute. reflexivity.
Defined.

Lemma ids_never_reused_witness :
  reachable k_rebooted /\ (create_locked (k_own $"d" 9) k_rebooted).1 = Ok (OCreated $"s3") /\
  en_dying k_rebooted !! $"s3" = None.
Proof.
  assert (H : (create_locked (k_own $"d" 9) k_rebooted).1 = Ok (OCreated $"s3")) by (vm_compute; reflexivity).
  split_and!; [exact k_again|exact H|].
  apply (ids_never_reused k_rebooted (k_own $"d" 9) $"s3" k_again H).
Defined.

Lemma retirement_spares_the_living_witness :
  reachable k_engine /\ en_dying k_engine !! $"s2" = Some $"shape/s2" /\
  $"shape/s1" <> $"shape/s2".
Proof.
  assert (Hd : en_dying k_engine !! $"s2" = Some $"shape/s2") by (vm_compute; reflexivity).
  assert (Hs : shape_at k_engine $"s1" = Some (named $"s1" k_rec)) by (vm_compute; reflexivity).
  split_and!; [exact k_reachable|exact Hd|].
  exact (retirement_spares_the_living k_engine $"s2" $"s1" _ _ k_reachable Hd Hs).
Defined.

Lemma no_ghost_claims_witness :
  reachable k_rebooted /\ record_claim (fold_of k_rebooted) $"s1" $"b" = Some 6 /\
  (is_Some (claim_at k_rebooted $"s1" $"b") \/ ULeft $"s1" $"b" ∈ en_unsent k_rebooted).
Proof.
  assert (Hr : record_claim (fold_of k_rebooted) $"s1" $"b" = Some 6) by (vm_compute; reflexivity).
  split_and!; [exact k_again|exact Hr|].
  apply (no_ghost_claims k_rebooted $"s1" $"b" 6 k_again); [|exact Hr].
  eexists. vm_compute. reflexivity.
Defined.

Lemma no_lost_claims_witness :
  orderly_reachable k_engine /\ claim_at k_engine $"s1" $"b" = Some 9 /\
  exists at', record_claim (fold_of k_engine) $"s1" $"b" = Some at' /\ at' <= 9.
Proof.
  assert (H : orderly_reachable k_engine) by (apply first_life_orderly, k_first_life).
  assert (Hc : claim_at k_engine $"s1" $"b" = Some 9) by (vm_compute; reflexivity).
  split_and!; [exact H|exact Hc|]. apply (no_lost_claims k_engine $"s1" $"b" 9 H Hc).
Defined.


(** A create of all of [public.orders] registers, works while another shape is made, and waits. *)
Definition k_overlap : list Act :=
  [ACreate (k_req $"a" 5); ASized $"s1" 3 90; ACreate (k_own $"c" 8); ADrift (mkTableRef $"public.items" 6)].

(** The first attempt's answer is lost, its request carried out late, after the retry's. *)
Definition k_acts_w : list WAct :=
  [AMint (EvReactivated $"s1") true; AMint (EvDropped $"s1") false; APush 0; APush 0; ARecv; ASend true;
   AErr [CauseDsUnavailable $"POST" CATALOG_STREAM 503]; ASend false; ALand 1; AOk; ARecv; ASend false; ALand 1;
   ALand 0; AOk].
Definition k_base : list (str * CatalogEvent) :=
  [($"old-1", EvCreated (named $"s1" k_rec) (Some $"orders") $"a" 5)].

Lemma k_base_old n : 0 <= n -> eid_of $"n" n ∉ k_base.*1.
Proof. intros _ H. by apply list_elem_of_singleton in H. Qed.

Lemma catalog_survives_retries_witness :
  exists w, wrun k_acts_w (world_start $"n" k_base) = Some w /\ length (w_log w) = 4%nat /\
    length (w_acked w) = 2%nat /\
    exists sent, folded (fold_once (w_log w) fold_default)
        = fold_events (sd_ev <$> sent) (folded (fold_once k_base fold_default)) /\
      w_acked w `prefix_of` sent /\ sent `prefix_of` w_acked w ++ at_hand w.
Proof.
  destruct (wrun k_acts_w (world_start $"n" k_base)) as [w|] eqn:E; [|exfalso; vm_compute in E; discriminate].
  exists w. split_and!; [reflexivity| | |exact (catalog_survives_retries $"n" k_base k_acts_w w k_base_old E)];
    vm_compute in E; injection E as <-; reflexivity.
Defined.

(** A parked shape that a joiner has just claimed, woken over a cursor whose segment is gone. *)
Definition k_claimed : Engine :=
  erun [ACreate (k_req $"a" 5); APublish $"s1" ShareReady; ARelease $"s1" (Some $"a") 7;
        ADeactivate k_cfg $"s1" (from_secs 100);
        ADeactivated $"s1" (Some (pos_start, gate_passthrough)) (from_secs 100); ASendUnsent 0;
        ACreate (k_req $"b" 110); AEnsureActive $"s1" (from_secs 110)] engine_start.
Lemma wake_settles_witness :
  claim_at k_claimed $"s1" $"b" = Some 110 /\
  en_lives k_claimed !! $"s1" = Some (mkLife (from_secs 110) (LReactivating pos_start)) /\
  gone_from $"s1" $"shape/s1" k_claimed
    (erun [AReparked $"s1" pos_start gate_passthrough (from_secs 111);
           AEvict k_cfg $"s1" ChangeLogRetention (from_secs 111)] k_claimed).
Proof.
  assert (Hs : es_shapes (en_state k_claimed) !! $"s1" = Some (named $"s1" k_rec)) by (vm_compute; reflexivity).
  assert (Hl : en_lives k_claimed !! $"s1" = Some (mkLife (from_secs 110) (LReactivating pos_start)))
    by (vm_compute; reflexivity).
  split_and!; [vm_compute; reflexivity|exact Hl|].
  pose proof (wake_settles k_cfg $"s1" pos_start gate_passthrough (from_secs 111) (Err CursorExpired) Resumed
    (named $"s1" k_rec) (from_secs 110) k_claimed Hs Hl) as H.
  assert (Hw : wake_answer false $"s1"
    (erun [AReparked $"s1" pos_start gate_passthrough (from_secs 111);
           AEvict k_cfg $"s1" ChangeLogRetention (from_secs 111)] k_claimed) = Recreate) by (vm_compute; reflexivity).
  revert H Hw. generalize k_claimed. intros en H Hw. cbn [wake_acts] in H. rewrite Hw in H. exact (proj2 H).
Defined.

(** Two segments and part of a third. *)
Definition k_heads : Z -> res str (option str) := λ n,
  if n <? 3 then Ok (Some ($"0000000000000000_00000000000000" ++ (if n =? 2 then $"99" else $"50"))) else Ok None.
Definition k_at (n : Z) (b : str) : LogPosition := mkPos n ($"0000000000000000_00000000000000" ++ b).
Lemma span_is_distance_witness :
  dormant_replay_span_result k_heads (k_at 2 $"07") (k_at 0 $"20") = Ok (Some (30 + 50 + 7)).
Proof.
  rewrite (span_is_distance k_heads (k_at 2 $"07") (k_at 0 $"20") (λ n, if n =? 2 then 99 else 50) 20 7);
    [vm_compute; reflexivity|vm_compute; reflexivity..|lia|lia|simpl; lia| |simpl; lia|vm_compute; discriminate].
  simpl. intros n Hn. assert (n = 0 \/ n = 1 \/ n = 2) as [->|[->| ->]] by lia; split; vm_compute; congruence.
Defined.

(** A log of two closed segments; a dormant shape's cursor in the second. *)
Definition k_log : LogSide := mkLogSide [(0, 10); (1, 20); (2, 30)] 2 (Some (k_at 2 $"07")) ∅.
Definition k_parked : Engine :=
  erun [ACreate (k_req $"a" 5); ARelease $"s1" (Some $"a") 7; ADeactivate k_cfg $"s1" (from_secs 100);
        ADeactivated $"s1" (Some (k_at 1 $"20", gate_passthrough)) (from_secs 100)] engine_start.
Lemma sweep_keeps_what_is_needed_witness :
  sweep_deletions true k_parked k_log 99 = [0] /\ 0 < ls_current k_log.
Proof.
  assert (H : sweep_deletions true k_parked k_log 99 = [0]) by (vm_compute; reflexivity).
  split; [exact H|]. apply (sweep_keeps_what_is_needed true k_parked k_log 99 0). rewrite H. by left.
Defined.

(* ------------------------------------------------------------------ *)
(** ** Where the log and the engine part *)

(** The sweep releases a lapsed claim and gives up the lock; its client joins again; the sweep's
    [Left] comes after the join's [Joined].  The engine holds the claim, the catalog does not, and a
    boot forgets it. *)
Definition k_rejoin : Engine :=
  erun [ACreate (k_req $"a" 5); APublish $"s1" ShareReady; ASweepLeases (from_secs 60) 100;
        ACreate (k_req $"a" 100); ASendUnsent 0] engine_start.
Theorem rejoin_is_forgotten :
  reachable k_rejoin /\ claim_at k_rejoin $"s1" $"a" = Some 100 /\ en_unsent k_rejoin = [] /\
  record_claim (fold_of k_rejoin) $"s1" $"a" = None /\
  claim_at (reboot k_boot 4 k_rejoin) $"s1" $"a" = None.
Proof.
  split; [apply fits_reachable; [constructor|vm_compute; reflexivity]|]. split_and!; vm_compute; reflexivity.
Qed.

(** A create whose [Created] never reached storage leaves its id, and its stream, to the next one. *)
Definition k_first : Engine := erun [ACreate (k_req $"a" 5)] engine_start.
Theorem unlanded_id_is_reused :
  let again := reboot k_boot 0 k_first in
  reachable again /\ (create_locked (k_req $"a" 5) engine_start).1 = Ok (OCreated $"s1") /\
  (create_locked (k_own $"z" 9) again).1 = Ok (OCreated $"s1").
Proof. split; [apply reboot_reachable, fits_reachable; [constructor|vm_compute; reflexivity]|].
  split; vm_compute; reflexivity. Qed.

(** A process that dies between a create's [Created] and its backfill, its stream there and open: the
    next process shares the shape as ready and resumes it from the change log, without a backfill. *)
Theorem interrupted_create_is_served :
  let again := reboot k_boot 1 k_first in
  reachable again /\ fs_ready <$> share_at k_first $"s1" = Some SharePending /\
  fs_ready <$> share_at again $"s1" = Some ShareReady /\
  resumes (recs_of (take 1 (en_log k_first))) = [(named $"s1" k_rec, ReplayOnly)] /\
  (create_locked (k_req $"b" 9) again).1 = Ok (OJoined $"s1" true).
Proof. split; [apply reboot_reachable, fits_reachable; [constructor|vm_compute; reflexivity]|].
  split_and!; vm_compute; reflexivity. Qed.

(** A rolled-back create is out of the engine before its [Dropped] is queued: a reset that lists the
    shapes in between retires nothing, and a drained queue still holds the shape. *)
Definition k_rolled : Engine := erun [ARollback $"s1"] k_first.
Theorem reset_misses_a_rollback :
  reachable k_rolled /\ (reset_begin k_rolled).1 = [] /\
  is_Some (cf_recs (fold_of (reset_begin k_rolled).2) !! $"s1") /\
  UDropped $"s1" $"shape/s1" ∈ en_unsent (reset_begin k_rolled).2.
Proof.
  split; [repeat (apply fits_reachable; [|vm_compute; reflexivity]); constructor|].
  split_and!; [vm_compute; reflexivity|eexists; vm_compute; reflexivity|]. vm_compute. left.
Qed.

(** The size of a backfill is a fact of the catalog only: the engine's own record has none until a
    boot reads it back. *)
Definition k_sized : Engine := erun [ACreate (k_req $"a" 5); ASized $"s1" 3 90] engine_start.
Theorem sizes_wait_for_a_boot :
  let size_of en := c ← shape_at en $"s1"; rec_backfill_bytes c in
  reachable k_sized /\ size_of k_sized = None /\ size_of (reboot k_boot 2 k_sized) = Some 90.
Proof. split; [apply fits_reachable; [constructor|vm_compute; reflexivity]|]. split; vm_compute; reflexivity. Qed.

(** A consumer asks to pin a segment that is retained and behind the checkpoint; while its record is
    on its way to storage the sweep, which cannot see the pin yet, deletes the segment; the next
    boot finds the pin, not the segment, and refuses to start. *)
Definition k_pinning : Engine := erun [AOther (EvConsumerPinned $"sink" (k_at 0 $"20"))] k_parked.
Definition k_swept : Engine := erun [AOther (EvChangesSegmentDeleted 0)] k_pinning.
Theorem pinned_segment_is_deleted :
  reachable k_swept /\
  pin_consumer $"sink" (k_at 0 $"20") k_log = Ok (Some (EvConsumerPinned $"sink" (k_at 0 $"20"))) /\
  sweep_deletions true k_pinning k_log 99 = [0] /\ delete_segments (λ _, true) [0] k_pinning = k_swept /\
  restart (mkBoot Resume ∅ {[1; 2]} (λ _, Some false) 0) (en_log k_swept) (recs_of (en_log k_swept))
  = Err (mkMissing $"sink" (k_at 0 $"20")).
Proof.
  split; [|split_and!; vm_compute; reflexivity].
  repeat (apply fits_reachable; [|vm_compute; reflexivity]). constructor.
Qed.
